(* ===== verification/_CoqProject ===== *)
-Q . S2P
Prelude.v
Types.v
Utf8.v
Records.v
Codec.v
SegmentBlocks.v
SegmentFormat.v
ScanPage.v
RunIterator.v
RowKeys.v
Combiner.v
Paths.v
Ids.v
ObjectKeys.v
Manifest.v
Scan.v
SegmentLoad.v
SegmentCoherence.v
SegmentCaches.v
SegmentServe.v
MetadataState.v
SegmentRows.v
Visibility.v
Errors.v
Retention.v
SegmentBuild.v
StoredScan.v
StateReads.v
Model.v
Refinement.v
Namespace.v
Bootstrap.v
Numbering.v
Validate.v
CommitSafety.v
History.v
Compacted.v
ManifestIndex.v
Wal.v
ProjectedTail.v
WalTail.v
WalPublish.v
