(* ===== verification/Prelude.v ===== *)
(** * LoonFS metadata core: a verification development

    LoonFS keeps a file system's namespace in an object store.  A write is
    planned into operations, validated against the namespace's metadata and
    appended to a write-ahead log as a commit of deltas.  Applying a commit
    turns its deltas into metadata rows.  Rows accumulate in memory (the WAL
    tail) until a fold writes them, family by family and in the order of their
    row keys, into segment objects; a manifest lists the runs of segments.
    Reads combine the manifest's segments with the tail: lookups and bounded
    scans over row keys answer which inode is visible, where it is bound and
    what a path resolves to.  This development models that core and proves it
    correct.  Source paths below are relative to [src/crates/].

    ** Conventions

    A Rust function is a Rocq function of the same name, qualified with its
    type where names clash ([InodeId_parse] is [InodeId::parse]).  [Result] is
    the outcome monad [res] of this file, which also has a panic and an
    exhausted loop as values.  Unsigned integers are [N] with their bound
    written out ([U64_MAX], checked and saturating operations).  Strings are
    byte strings; [HashMap] is [gmap]; an ordered map is its ascending
    association list.  Asynchronous functions are modelled as what they
    compute when their awaits are answered; what another task may change
    between two awaits (a cache, a store answer, which put finishes first) is
    an argument indexed by a moment.  Code outside the repository is a
    parameter: Unicode folding ([Paths.NamePolicy]), CBOR, zstd, CRC-32C and
    xxHash ([SegmentBlocks.SectionCodecs], [Cbor]), random draws, the object
    store.  Its documented behaviour is stated as named laws, which the
    witnesses instantiate with concrete functions.

    ** Components

    - [Types], [Records]: the vocabulary of [loonfs-types] (identifiers,
      content references, WAL deltas, row records of the twelve families).
    - [Codec], [Ids], [Utf8], [Paths]: hex, base 32 and decimal encodings,
      identifier grammars, UTF-8, display names and absolute paths
      ([hex.rs], [ids.rs], [inode_id.rs], [path.rs]).
    - [RowKeys]: every durable row key, probe, prefix and bound
      ([row_keys.rs]).  [ObjectKeys]: every object key and its classifier
      ([loonfs-objectstore/src/keys.rs], [layout.rs], [keyspace.rs]).
    - [SegmentBlocks], [SegmentFormat]: the segment block format, its builder
      and its decoders ([segment_blocks.rs]), and what they guarantee.
    - [Manifest]: the manifest payload, its constructors, chain rules, run
      orders and validation ([manifest.rs], [manifest/validate.rs],
      [segment/runs.rs]).
    - [RunIterator], [ScanPage], [Scan]: segment row iterators, the bounded
      page and the scans and lookups over several runs
      ([compaction/run_iterator.rs], [segment/scan.rs]).
    - [SegmentLoad], [SegmentCoherence], [SegmentCaches], [SegmentServe]: the
      loads of index, filter and data blocks through a read's memo and the
      shared block cache ([segment/index_block_load.rs],
      [data_block_load.rs], [scan_load.rs]).
    - [SegmentRows], [SegmentBuild], [StoredScan]: the rows of a state in key
      order, the segment writer with its puts in flight ([segment/row.rs],
      [segment/build.rs]), and the composition of writer, store, caches and
      scans.
    - [Retention]: which rows a compaction keeps ([compaction/retention.rs],
      the loop of [compaction/group_compaction.rs]).
    - [Combiner]: the cursor that merges manifest pages with the WAL tail
      ([metadata/manifest_tail_combiner.rs]).
    - [MetadataState]: rows, indexes and the application of commits
      ([metadata/rows.rs], [indexes.rs], [apply.rs]).  [Visibility],
      [StateReads]: the visibility rules over a trait and their in-memory
      implementation ([visibility.rs], [queries.rs]).
    - [Model], [Refinement]: the independent reference model [loonfs-model],
      and the core as a refinement of it.
    - [Errors], [Validate]: commit validation ([commit/validate/],
      [commit/ops.rs], [commit/plan.rs]).  [Bootstrap]: a new namespace
      ([namespace/bootstrap.rs]).
    - [Namespace], [CommitSafety], [History]: the namespace invariant, its
      preservation by validated commits, and the reachable states.
    - [Numbering], [ManifestIndex]: the numbers of an inode's rows, and the
      lookups over a manifest's runs ([metadata/manifest_index.rs],
      [row_decode.rs]).
    - [Wal], [ProjectedTail], [WalTail], [WalPublish]: WAL objects, the tail
      of unfolded commits, discovery and replay, and publication
      ([loonfs-types/src/wal.rs], [envelope.rs], [loonfs-core/src/wal/],
      [loonfs/src/publisher/worker.rs]).
    - [Compacted]: the rows that base compactions leave of a history, and the
      reads and commits over them.

    ** What the theorems show

    - Namespace safety.  A commit that passes validation keeps the namespace
      a tree of names and passes the reference model's own check; validation
      always answers; every state reachable from bootstrap by validated
      commits is such a tree ([CommitSafety], [History]).
    - Refinement.  Applying commits, visibility, cycle checks and path
      resolution agree with the reference model ([Refinement]); the model's
      check is exact ([Model]).
    - State.  Incrementally kept indexes equal rebuilt ones, indexed reads
      equal scans, and the visibility rules compute their specification
      ([MetadataState], [StateReads]).
    - Keys.  Row keys implement the order of each family, prefixes select
      exactly their rows and bounds neither skip nor repeat; object keys and
      identifiers are read back ([RowKeys], [ObjectKeys], [Codec], [Paths]).
    - Segments.  Built segments decode to the pushed rows, filters admit every
      key, decoding any bytes returns ([SegmentFormat]); the caches stay
      coherent under any interleaving of loads, inserts and evictions, and a
      load of stored blocks succeeds ([SegmentCaches], [SegmentServe]); a
      bounded scan returns the page of the rows in range ([Scan]); a fold
      returns only durable segments and a scan over them returns the rows
      that were folded ([SegmentBuild], [StoredScan]).
    - Manifests.  Validation accepts exactly the well-formed manifests, the
      constructors produce such manifests, and the chain rules hold between
      any two manifests of a chain ([Manifest]).

    - Compaction.  The streamed retention operators keep exactly the rows
      their rules name and do not refuse sound rows ([Retention]); what a
      base compaction writes of a namespace's rows is the compacted state,
      every read at or above the floor is unchanged by it, and commits
      validated over compacted metadata keep the whole history sound
      ([Compacted]).
    - Numbers and lookups.  [Numbering] is the invariant that gives an inode's
      revisions, attributes and access rows increasing numbers, which every
      validated commit keeps; over it the manifest lookups of
      [ManifestIndex] return the newest rows that the runs hold of a key.
    - WAL.  [Wal] is the object codec: its checks accept exactly the objects
      that follow the rules, and a decoded object is the encoded one.
      [ProjectedTail] keeps the rows and content pieces of unfolded commits;
      [WalTail] discovers the tip in widening windows of concurrent GETs and
      replays it; [WalPublish] publishes objects with conditional puts, so
      that under any interleaving of writers the store holds one log and a
      reader finds every acknowledged object, and settles the attempts of a
      batch of commits.
    ** Fuel

    Loops whose recursion is not structural take fuel.  The fuel is either
    computed from the data and proved sufficient (the ancestor walk takes one
    more step than there are inodes; a wait takes as many rounds as puts are
    pending; decoding takes the length of the bytes), or an argument for which
    the theorem states the bound above which the loop returns ([Scan.combine_fuel]
    bounds it by rows and segments; WAL discovery takes one round more than
    objects are published).  [OutOfFuel] is never a success.

    ** Not modelled

    The asynchronous shell around the core: the commit engine's admission and
    batching, manifest publication and loading, garbage collection, uploads,
    the runtime, server and client crates, which are store and network I/O;
    the bytes of CBOR, zstd and the checksums (parameters with round-trip
    laws); the cache update of the warm WAL probe; the write planner, the metadata
    view over the store (its contract is [Validate.CommitView] with the law
    [CommitSafety.CommitViewLaws]) and what is built on them (snapshots,
    forks, merges, diffs); tracing, metrics and most message texts; serde
    glue; test harnesses and generated clients.
*)
From stdpp Require Export base numbers list strings gmap fin_maps sorting.
From Stdlib Require Export Lia Ascii.

(** ** Outcomes

    [res E A] is the outcome of a Rust function that returns
    [Result<A, E>]: a value, an error of the function's own error type, a
    panic ([expect], an assertion), or a loop that ran out of the fuel the
    model gave it.  The last two never mean success: theorems that say a
    function returns say so with [Ok] or [Err]. *)
Inductive res (E A : Type) : Type :=
| Ok (a : A)
| Err (e : E)
| Panic
| OutOfFuel.
Arguments Ok {E A} a.
Arguments Err {E A} e.
Arguments Panic {E A}.
Arguments OutOfFuel {E A}.

Create HintDb loon.

Declare Scope loon_scope.
Delimit Scope loon_scope with loon.

#[export] Instance res_ret {E} : MRet (res E) := λ A a, Ok a.
#[export] Instance res_bind {E} : MBind (res E) := λ A B f m,
  match m with
  | Ok a => f a
  | Err e => Err e
  | Panic => Panic
  | OutOfFuel => OutOfFuel
  end.
#[export] Instance res_fmap {E} : FMap (res E) := λ A B f m,
  match m with
  | Ok a => Ok (f a)
  | Err e => Err e
  | Panic => Panic
  | OutOfFuel => OutOfFuel
  end.

(** [Option::ok_or]. *)
Definition ok_or {E A} (o : option A) (e : E) : res E A :=
  match o with Some a => Ok a | None => Err e end.

(** [Option::expect]. *)
Definition expect {E A} (o : option A) : res E A :=
  match o with Some a => Ok a | None => Panic end.

(** [Result::map_err] with a [From] conversion, as the [?] operator applies
    it. *)
Definition map_err {E F A} (f : E → F) (m : res E A) : res F A :=
  match m with
  | Ok a => Ok a
  | Err e => Err (f e)
  | Panic => Panic
  | OutOfFuel => OutOfFuel
  end.

(** Code without an error value, in code with one. *)
Definition infallible {E A} (m : res Empty_set A) : res E A := map_err (λ e : Empty_set, match e with end) m.

Lemma Ok_inj {E A} (a b : A) : Ok (E:=E) a = Ok b → a = b.
Proof. by intros [= ->]. Qed.

Lemma infallible_Ok {E A} (m : res Empty_set A) (a : A) : infallible (E:=E) m = Ok a → m = Ok a.
Proof. destruct m as [b|[]| |]; [|done..]. by intros [= ->]. Qed.

(** The outcome of a total read: a value or an error. *)
Definition returns {E A} (m : res E A) : Prop :=
  match m with Ok _ | Err _ => True | Panic | OutOfFuel => False end.

Lemma bind_Ok {E A B} (m : res E A) (f : A → res E B) b :
  (x ← m; f x) = Ok b ↔ ∃ a, m = Ok a ∧ f a = Ok b.
Proof.
  destruct m as [a|e| |]; cbn; split; try done.
  - intros Hf. by exists a.
  - intros (a' & [= ->] & Hf). done.
  - by intros (? & ? & _).
  - by intros (? & ? & _).
  - by intros (? & ? & _).
Qed.

Lemma map_err_Ok {E F A} (f : E → F) (m : res E A) a : map_err f m = Ok a ↔ m = Ok a.
Proof. destruct m; naive_solver. Qed.

Lemma ok_or_Ok {E A} (o : option A) (e : E) a : ok_or o e = Ok a ↔ o = Some a.
Proof. destruct o; naive_solver. Qed.

Lemma returns_bind {E A B} (m : res E A) (f : A → res E B) :
  returns m → (∀ a, m = Ok a → returns (f a)) → returns (x ← m; f x).
Proof. destruct m; cbn; try done. intros _ Hf. by apply Hf. Qed.

Lemma returns_map_err {E F A} (f : E → F) (m : res E A) : returns m → returns (map_err f m).
Proof. by destruct m. Qed.

Lemma returns_ok_or {E A} (o : option A) (e : E) : returns (ok_or o e).
Proof. by destruct o. Qed.

(** Takes a successful sequence of fallible steps apart. *)
Ltac step_ok H a Ha :=
  let H' := fresh in
  rename H into H'; apply bind_Ok in H' as (a & Ha & H); cbv beta in H.

(** ** Orders

    Rust's [Ord]: a comparison function.  [TotalOrd] collects the laws that
    [#[derive(Ord)]] gives. *)
Class Ord (K : Type) := cmp : K → K → comparison.

Class TotalOrd (K : Type) `{Ord K} := {
  cmp_eq : ∀ a b : K, cmp a b = Eq ↔ a = b;
  cmp_sym : ∀ a b : K, cmp b a = CompOpp (cmp a b);
  cmp_lt_trans : ∀ a b c : K, cmp a b = Lt → cmp b c = Lt → cmp a c = Lt;
}.

#[export] Instance N_ord : Ord N := N.compare.
#[export] Instance N_total : TotalOrd N.
Proof.
  split; unfold cmp, N_ord.
  - apply N.compare_eq_iff.
  - intros a b. apply N.compare_antisym.
  - intros a b c; rewrite !N.compare_lt_iff; lia.
Qed.

Definition lex (c d : comparison) : comparison :=
  match c with Eq => d | _ => c end.

#[export] Instance prod_ord `{Ord A, Ord B} : Ord (A * B) :=
  λ p q, lex (cmp p.1 q.1) (cmp p.2 q.2).
#[export] Instance prod_total `{TotalOrd A, TotalOrd B} : TotalOrd (A * B).
Proof.
  split; unfold cmp, prod_ord.
  - intros [a1 b1] [a2 b2]; simpl.
    destruct (cmp a1 a2) eqn:E; simpl.
    + apply cmp_eq in E as ->. rewrite cmp_eq. naive_solver.
    + split; [done|]. intros [= -> ->]. by rewrite (proj2 (cmp_eq a2 a2)) in E.
    + split; [done|]. intros [= -> ->]. by rewrite (proj2 (cmp_eq a2 a2)) in E.
  - intros [a1 b1] [a2 b2]; simpl.
    rewrite (cmp_sym a1), (cmp_sym b1). by destruct (cmp a1 a2).
  - intros [a1 b1] [a2 b2] [a3 b3]; simpl.
    destruct (cmp a1 a2) eqn:E1, (cmp a2 a3) eqn:E2; simpl; try done; intros.
    + apply cmp_eq in E1 as ->. apply cmp_eq in E2 as ->.
      rewrite (proj2 (cmp_eq a3 a3)) by done. simpl. by eapply cmp_lt_trans.
    + apply cmp_eq in E1 as ->. by rewrite E2.
    + apply cmp_eq in E2 as ->. by rewrite E1.
    + by rewrite (cmp_lt_trans _ _ _ E1 E2).
Qed.

Section order.
Context `{TotalOrd K}.
Implicit Types a b c : K.

Definition kle a b : Prop := cmp a b ≠ Gt.

Lemma cmp_refl a : cmp a a = Eq.
Proof. by apply cmp_eq. Qed.

Lemma cmp_gt_lt a b : cmp a b = Gt ↔ cmp b a = Lt.
Proof. rewrite (cmp_sym a b). by destruct (cmp a b). Qed.

Lemma kle_refl a : kle a a.
Proof. unfold kle. by rewrite cmp_refl. Qed.

Lemma kle_antisym a b : kle a b → kle b a → a = b.
Proof.
  unfold kle. rewrite (cmp_sym a b). intros ??.
  apply cmp_eq. by destruct (cmp a b).
Qed.

Lemma kle_trans a b c : kle a b → kle b c → kle a c.
Proof.
  unfold kle. destruct (cmp a b) eqn:E1; [|destruct (cmp b c) eqn:E2|done].
  - by apply cmp_eq in E1 as ->.
  - apply cmp_eq in E2 as ->. by rewrite E1.
  - by rewrite (cmp_lt_trans _ _ _ E1 E2).
  - done.
Qed.

Lemma kle_lt_trans a b c : kle a b → cmp b c = Lt → cmp a c = Lt.
Proof.
  unfold kle. destruct (cmp a b) eqn:E; [|intros _; by apply cmp_lt_trans|done].
  by apply cmp_eq in E as ->.
Qed.

Lemma lt_kle_trans a b c : cmp a b = Lt → kle b c → cmp a c = Lt.
Proof.
  unfold kle. intros Hab. destruct (cmp b c) eqn:E; [|intros _; by eapply cmp_lt_trans|done].
  by apply cmp_eq in E as ->.
Qed.

Lemma kle_not_lt a b : kle a b → cmp b a ≠ Lt.
Proof. unfold kle. by rewrite <-cmp_gt_lt. Qed.

Lemma kle_total a b : kle a b ∨ kle b a.
Proof. unfold kle. rewrite (cmp_sym a b). destruct (cmp a b); naive_solver. Qed.

Lemma lt_kle a b : cmp a b = Lt → kle a b.
Proof. unfold kle. by intros ->. Qed.

Lemma not_lt_kle a b : cmp a b ≠ Lt → kle b a.
Proof. unfold kle. rewrite (cmp_sym a b). by destruct (cmp a b). Qed.

Lemma gt_kle a b : cmp a b = Gt → kle b a.
Proof. intros E. apply not_lt_kle. by rewrite E. Qed.
End order.
#[export] Hint Resolve kle_refl lt_kle gt_kle not_lt_kle : loon.

(** ** [Iterator::max_by_key]

    The element with the greatest key; the last one when several elements
    share it, as the standard library documents. *)
Definition later_max `{Ord K} {A} (key : A → K) (best : option A) (x : A) : option A :=
  match best with
  | None => Some x
  | Some b => match cmp (key x) (key b) with Lt => Some b | _ => Some x end
  end.

Definition max_by_key `{Ord K} {A} (key : A → K) (l : list A) : option A :=
  foldl (later_max key) None l.

(** Distinct elements of [l] have distinct keys. *)
Definition key_inj {A K} (key : A → K) (l : list A) : Prop :=
  ∀ x y, x ∈ l → y ∈ l → key x = key y → x = y.

Section max_by_key.
Context `{TotalOrd K} {A : Type} (key : A → K).
Implicit Types l : list A.

Definition is_max (x : A) l : Prop := x ∈ l ∧ ∀ y, y ∈ l → kle (key y) (key x).

Lemma foldl_later_max_Some l b :
  ∃ x, foldl (later_max key) (Some b) l = Some x ∧ is_max x (b :: l).
Proof.
  revert b. induction l as [|y l IH]; intros b.
  { exists b. split; [done|]. split; [set_solver|].
    intros z ->%list_elem_of_singleton. apply kle_refl. }
  cbn. assert (∃ b', later_max key (Some b) y = Some b' ∧ (b' = b ∨ b' = y)
                    ∧ kle (key b) (key b') ∧ kle (key y) (key b')) as (b' & E & Hb & H1 & H2).
  { unfold later_max. destruct (cmp (key y) (key b)) eqn:E.
    - exists y. apply cmp_eq in E as ->. split_and!; auto using kle_refl.
    - exists b. split_and!; auto using kle_refl, lt_kle.
    - exists y. split_and!; auto using kle_refl, gt_kle. }
  cbn in E. rewrite E. destruct (IH b') as (x & -> & Hx & Hmax).
  exists x. split; [done|]. split.
  - destruct Hb as [-> | ->]; set_solver.
  - intros z Hz. assert (kle (key b') (key x)) by (apply Hmax; set_solver).
    apply elem_of_cons in Hz as [-> | Hz]; [by eapply kle_trans|].
    apply elem_of_cons in Hz as [-> | Hz]; [by eapply kle_trans|].
    apply Hmax. set_solver.
Qed.

Lemma max_by_key_is_max l x : max_by_key key l = Some x → is_max x l.
Proof.
  unfold max_by_key. destruct l as [|b l]; [done|]. cbn.
  destruct (foldl_later_max_Some l b) as (y & -> & Hy). by intros [= <-].
Qed.

Lemma max_by_key_None l : max_by_key key l = None ↔ l = [].
Proof.
  unfold max_by_key. destruct l as [|b l]; [done|]. cbn.
  destruct (foldl_later_max_Some l b) as (y & -> & Hy). done.
Qed.

Lemma is_max_unique l x y : key_inj key l → is_max x l → is_max y l → x = y.
Proof.
  intros Hinj [Hx Hmx] [Hy Hmy]. apply Hinj; [done..|].
  apply kle_antisym; auto.
Qed.

Lemma max_by_key_intro l x : key_inj key l → is_max x l → max_by_key key l = Some x.
Proof.
  intros Hinj Hx. destruct (max_by_key key l) as [y|] eqn:E.
  - f_equal. eapply is_max_unique; eauto using max_by_key_is_max.
  - apply max_by_key_None in E as ->. destruct Hx as [Hx _]. set_solver.
Qed.

Lemma is_max_mono l l' x : x ∈ l' → (∀ y, y ∈ l' → y ∈ l) → is_max x l → is_max x l'.
Proof. intros Hx Hsub [_ Hm]. split; auto. Qed.

(** The maximum depends only on the set of elements. *)
Lemma max_by_key_ext l l' :
  key_inj key l → (∀ x, x ∈ l ↔ x ∈ l') → max_by_key key l = max_by_key key l'.
Proof.
  intros Hinj Heq. destruct (max_by_key key l') as [y|] eqn:E.
  - apply max_by_key_is_max in E as [Hy Hm]. apply max_by_key_intro; [done|].
    split; [by apply Heq|]. intros z Hz. by apply Hm, Heq.
  - apply max_by_key_None in E as ->. apply max_by_key_None.
    destruct l as [|z l]; [done|]. specialize (Heq z). set_solver.
Qed.

(** Elements that are dominated inside [l] can be left out. *)
Lemma max_by_key_dominated l l' :
  key_inj key l → (∀ x, x ∈ l' → x ∈ l) →
  (∀ x, x ∈ l → ∃ y, y ∈ l' ∧ kle (key x) (key y)) →
  max_by_key key l' = max_by_key key l.
Proof.
  intros Hinj Hsub Hdom. symmetry. destruct (max_by_key key l') as [y|] eqn:E.
  - apply max_by_key_is_max in E as [Hy Hm]. apply max_by_key_intro; [done|].
    split; [by apply Hsub|]. intros z Hz. destruct (Hdom z Hz) as (w & Hw & Hle).
    eapply kle_trans; [done|]. by apply Hm.
  - apply max_by_key_None in E as ->. apply max_by_key_None.
    destruct l as [|z l]; [done|]. destruct (Hdom z) as (w & Hw & _); [set_solver|].
    set_solver.
Qed.

Lemma key_inj_sub l l' : (∀ x, x ∈ l' → x ∈ l) → key_inj key l → key_inj key l'.
Proof. intros Hsub Hinj x y Hx Hy. by apply Hinj; apply Hsub. Qed.

Lemma max_by_key_app_last l x :
  (∀ y, y ∈ l → kle (key y) (key x)) → max_by_key key (l ++ [x]) = Some x.
Proof.
  intros Hle. unfold max_by_key. rewrite foldl_app. cbn.
  change (foldl (later_max key) None l) with (max_by_key key l).
  destruct (max_by_key key l) as [b|] eqn:E; [|done]. cbn.
  apply max_by_key_is_max in E as [Hb _]. specialize (Hle b Hb).
  unfold kle in Hle. rewrite (cmp_sym (key b)).
  by destruct (cmp (key b) (key x)).
Qed.

(** Leaving out elements other than the maximum keeps it. *)
Lemma max_by_key_filter (P : A → Prop) `{∀ x, Decision (P x)} l m :
  max_by_key key l = Some m → P m → max_by_key key (filter P l) = Some m.
Proof.
  revert m. induction l as [|x l IH] using rev_ind; intros m Hm HP; [done|].
  rewrite filter_app.
  assert (m = x ∨ max_by_key key l = Some m ∧ cmp (key x) (key m) = Lt) as [->|[Hl Hx]].
  { unfold max_by_key in Hm |- *. rewrite foldl_app in Hm. cbn in Hm.
    destruct (foldl (later_max key) None l) as [b|]; cbn in Hm; [|left; congruence].
    destruct (cmp (key x) (key b)) eqn:E; naive_solver. }
  - rewrite filter_cons_True by done. apply max_by_key_app_last.
    apply max_by_key_is_max in Hm as [_ Hm]. intros y [_ Hy]%list_elem_of_filter. apply Hm. set_solver.
  - specialize (IH m Hl HP). destruct (decide (P x)).
    + rewrite filter_cons_True by done. unfold max_by_key in *. rewrite foldl_app, IH. cbn. by rewrite Hx.
    + rewrite filter_cons_False by done. by rewrite app_nil_r.
Qed.
End max_by_key.

Lemma key_inj_filter {A K} (key : A → K) (P : A → Prop) `{∀ x, Decision (P x)} l :
  key_inj key l → key_inj key (filter P l).
Proof. intros Hinj x y Hx Hy. apply list_elem_of_filter in Hx, Hy. naive_solver. Qed.

Lemma key_inj_of_NoDup {A K} (key : A → K) l : NoDup (key <$> l) → key_inj key l.
Proof.
  intros Hnd x y Hx Hy E.
  apply list_elem_of_lookup in Hx as [i Hi]. apply list_elem_of_lookup in Hy as [j Hj].
  assert (i = j) as <-; [|congruence].
  apply (NoDup_lookup (key <$> l) i j (key x)); [done| |]; rewrite list_lookup_fmap.
  - by rewrite Hi.
  - by rewrite Hj, E.
Qed.

Lemma max_by_key_fmap `{Ord K} {A B} (key : B → K) (f : A → B) l :
  max_by_key key (f <$> l) = f <$> max_by_key (λ a, key (f a)) l.
Proof.
  unfold max_by_key. assert (∀ o, foldl (later_max key) (f <$> o) (f <$> l)
    = f <$> foldl (later_max (λ a, key (f a))) o l) as Hgen; [|apply (Hgen None)].
  induction l as [|x l IH]; intros o; [done|]. cbn [fmap list_fmap foldl]. rewrite <-IH. f_equal.
  destruct o as [b|]; [|done]. cbn. by destruct (cmp _ _).
Qed.

Lemma filter_fmap {A B} (f : A → B) (P : B → Prop) `{!∀ x, Decision (P x)} (l : list A) :
  filter P (f <$> l) = f <$> filter (λ a, P (f a)) l.
Proof.
  induction l as [|x l IH]; [done|]. cbn [fmap list_fmap]. rewrite !filter_cons, IH.
  by case_decide.
Qed.

#[export] Hint Resolve key_inj_filter max_by_key_is_max : loon.

(** [Iterator::find]: the first element that satisfies the predicate. *)
Definition find_first {A} (P : A → Prop) `{∀ x, Decision (P x)} (l : list A) : option A :=
  head (filter P l).

Lemma find_first_Some {A} (P : A → Prop) `{∀ x, Decision (P x)} l x :
  find_first P l = Some x → x ∈ l ∧ P x.
Proof.
  unfold find_first. intros E. assert (x ∈ filter P l) as Hx.
  { destruct (filter P l) as [|y k]; [done|]. injection E as ->. apply elem_of_cons. by left. }
  apply list_elem_of_filter in Hx. naive_solver.
Qed.

Lemma find_first_None {A} (P : A → Prop) `{∀ x, Decision (P x)} l :
  find_first P l = None ↔ ∀ x, x ∈ l → ¬ P x.
Proof.
  unfold find_first. split.
  - intros E x Hx HP. assert (x ∈ filter P l) by by apply list_elem_of_filter.
    destruct (filter P l); [set_solver|done].
  - intros Hn. destruct (filter P l) as [|y k] eqn:E; [done|].
    assert (y ∈ filter P l) as Hy by (rewrite E; set_solver).
    apply list_elem_of_filter in Hy. naive_solver.
Qed.

Lemma find_first_fmap {A B} (f : A → B) (P : B → Prop) `{!∀ x, Decision (P x)} (l : list A) :
  find_first P (f <$> l) = f <$> find_first (λ a, P (f a)) l.
Proof. unfold find_first. rewrite filter_fmap. by destruct (filter _ l). Qed.

Lemma filter_ext_in {A} (P Q : A → Prop) `{!∀ x, Decision (P x), !∀ x, Decision (Q x)} (l : list A) :
  (∀ x, x ∈ l → P x ↔ Q x) → filter P l = filter Q l.
Proof.
  induction l as [|x l IH]; intros Hl; [done|].
  rewrite !filter_cons, IH by (intros; apply Hl; set_solver).
  specialize (Hl x ltac:(set_solver)). repeat case_decide; naive_solver.
Qed.

(** [Option::filter]. *)
Definition option_filter {A} (p : A → bool) (o : option A) : option A :=
  match o with Some a => if p a then Some a else None | None => None end.

(** ** Byte strings

    A Rust [String] is its UTF-8 bytes, and its [Ord] is the lexicographic
    order of those bytes; [string] holds the bytes as [ascii] values. *)
Fixpoint string_cmp (a b : string) : comparison :=
  match a, b with
  | EmptyString, EmptyString => Eq
  | EmptyString, String _ _ => Lt
  | String _ _, EmptyString => Gt
  | String x a', String y b' => lex (N.compare (N_of_ascii x) (N_of_ascii y)) (string_cmp a' b')
  end.
#[export] Instance string_ord : Ord string := string_cmp.

Lemma N_of_ascii_inj x y : N_of_ascii x = N_of_ascii y → x = y.
Proof. intros E. rewrite <-(ascii_N_embedding x), <-(ascii_N_embedding y). by rewrite E. Qed.

#[export] Instance string_total : TotalOrd string.
Proof.
  split; unfold cmp, string_ord.
  - induction a as [|x a IH]; intros [|y b]; simpl; try done.
    destruct (N.compare_spec (N_of_ascii x) (N_of_ascii y)) as [E|E|E]; simpl.
    + apply N_of_ascii_inj in E as ->. rewrite IH. naive_solver.
    + split; [done|]. intros [= -> ->]. lia.
    + split; [done|]. intros [= -> ->]. lia.
  - induction a as [|x a IH]; intros [|y b]; simpl; try done.
    rewrite (N.compare_antisym (N_of_ascii x)), IH.
    by destruct (N_of_ascii x ?= N_of_ascii y)%N.
  - induction a as [|x a IH]; intros [|y b] [|z c]; simpl; try done.
    destruct (N.compare_spec (N_of_ascii x) (N_of_ascii y)) as [E|E|E],
      (N.compare_spec (N_of_ascii y) (N_of_ascii z)) as [F|F|F]; simpl; try done.
    + rewrite E, F, N.compare_refl. simpl. apply IH.
    + rewrite E. apply N.compare_lt_iff in F. by rewrite F.
    + rewrite <-F. apply N.compare_lt_iff in E. by rewrite E.
    + assert (N_of_ascii x < N_of_ascii z)%N as G%N.compare_lt_iff by lia. by rewrite G.
Qed.

Lemma string_cmp_refl a : string_cmp a a = Eq.
Proof. apply (cmp_refl (K:=string)). Qed.

Lemma string_app_cons c (a b : string) : String c a +:+ b = String c (a +:+ b).
Proof. done. Qed.

(** A shared prefix does not change the order of what follows. *)
Lemma string_cmp_prefix p a b : string_cmp (p +:+ a) (p +:+ b) = string_cmp a b.
Proof. induction p as [|x p IH]; [done|]. rewrite !string_app_cons. simpl. by rewrite N.compare_refl. Qed.

(** Components of one width compare before what follows them. *)
Lemma string_cmp_app a b x y :
  String.length a = String.length b →
  string_cmp (a +:+ x) (b +:+ y) = lex (string_cmp a b) (string_cmp x y).
Proof.
  revert b. induction a as [|c a IH]; intros [|d b]; try done.
  intros [= E]. rewrite !string_app_cons. simpl. rewrite (IH _ E). by destruct (N_of_ascii c ?= N_of_ascii d)%N.
Qed.

Lemma string_app_assoc (a b c : string) : (a +:+ b) +:+ c = a +:+ (b +:+ c).
Proof. induction a as [|x a IH]; [done|]. by rewrite !string_app_cons, IH. Qed.

Lemma string_app_nil_r (a : string) : a +:+ "" = a.
Proof. induction a as [|x a IH]; [done|]. rewrite !string_app_cons. simpl. by rewrite IH. Qed.

Lemma string_length_app (a b : string) :
  String.length (a +:+ b) = String.length a + String.length b.
Proof. induction a as [|x a IH]; [done|]. rewrite !string_app_cons. simpl. by rewrite IH. Qed.

(** [str::starts_with]. *)
Fixpoint starts_with (s prefix : string) {struct prefix} : bool :=
  match prefix, s with
  | EmptyString, _ => true
  | String _ _, EmptyString => false
  | String x p, String y t => bool_decide (x = y) && starts_with t p
  end.

Lemma starts_with_app p s : starts_with (p +:+ s) p = true.
Proof. induction p as [|x p IH]; [done|]. rewrite string_app_cons. simpl. by rewrite bool_decide_true. Qed.

Lemma starts_with_shared p s t : starts_with (p +:+ s) (p +:+ t) = starts_with s t.
Proof. induction p as [|x p IH]; [done|]. rewrite !string_app_cons. simpl. by rewrite bool_decide_true. Qed.

Lemma starts_with_spec s p : starts_with s p = true ↔ ∃ t, s = p +:+ t.
Proof.
  split; [|intros [t ->]; apply starts_with_app].
  revert s. induction p as [|x p IH]; intros s; simpl; [by exists s|].
  destruct s as [|y s]; [done|]. rewrite andb_true_iff, bool_decide_eq_true.
  intros [-> [t ->]%IH]. by exists t.
Qed.

(** ** Sets *)
Lemma size_list_to_set_le `{Countable A} (l : list A) :
  size (list_to_set l : gset A) ≤ length l.
Proof.
  induction l as [|x l IH]; [by rewrite list_to_set_nil, size_empty|].
  rewrite list_to_set_cons, size_union_alt, size_singleton. simpl.
  assert (size ((list_to_set l : gset A) ∖ {[x]}) ≤ size (list_to_set l : gset A)).
  { apply subseteq_size. set_solver. }
  lia.
Qed.

(** ** Ordered maps

    A [BTreeMap] is its entries in strictly ascending key order;
    [btree_insert] returns the value it replaced, as [BTreeMap::insert]
    does. *)
Fixpoint btree_insert `{Ord K} {V} (key : K) (value : V) (map : list (K * V))
    : option V * list (K * V) :=
  match map with
  | [] => (None, [(key, value)])
  | (k, v) :: rest =>
      match cmp key k with
      | Lt => (None, (key, value) :: map)
      | Eq => (Some v, (key, value) :: rest)
      | Gt => let '(old, rest) := btree_insert key value rest in (old, (k, v) :: rest)
      end
  end.

Fixpoint btree_get `{Ord K} {V} (key : K) (map : list (K * V)) : option V :=
  match map with
  | [] => None
  | (k, v) :: rest => match cmp key k with Eq => Some v | _ => btree_get key rest end
  end.

(** A [BTreeSet] collected from an iterator: its elements in ascending
    order, each once. *)
Definition btree_set `{Ord K} (l : list K) : list K :=
  (foldl (λ map k, (btree_insert k () map).2) [] l).*1.

Section btree.
Context `{TotalOrd K} {V : Type}.
Implicit Types (m : list (K * V)) (k : K) (v : V).

Definition ascending m : Prop := StronglySorted (λ a b, cmp a.1 b.1 = Lt) m.

Lemma cmp_lt_ne k k' : cmp k k' = Lt → k ≠ k'.
Proof. intros E ->. by rewrite cmp_refl in E. Qed.

Lemma sorted_ascending m : StronglySorted kle m.*1 → NoDup m.*1 → ascending m.
Proof.
  induction m as [|x m IH]; cbn; [constructor|]. intros [Hs Hx]%StronglySorted_inv [Hn Hnd]%NoDup_cons.
  constructor; [by apply IH|]. apply Forall_forall. intros y Hy. rewrite Forall_forall in Hx.
  assert (y.1 ∈ m.*1) as Hy' by (apply list_elem_of_fmap; by exists y). specialize (Hx _ Hy'). unfold kle in Hx.
  destruct (cmp x.1 y.1) eqn:E; [|done|done]. apply cmp_eq in E. rewrite E in Hn. done.
Qed.

Lemma ascending_cons k v m :
  ascending ((k, v) :: m) ↔ ascending m ∧ ∀ p, p ∈ m → cmp k p.1 = Lt.
Proof.
  unfold ascending. split.
  - intros Hs. inversion_clear Hs as [|? ? H1 H2]. split; [done|]. by rewrite Forall_forall in H2.
  - intros [H1 H2]. constructor; [done|]. by apply Forall_forall.
Qed.

Lemma btree_insert_elem k v m p :
  ascending m → p ∈ (btree_insert k v m).2 ↔ p = (k, v) ∨ (p.1 ≠ k ∧ p ∈ m).
Proof.
  induction m as [|[k' v'] m IH]; intros Ha; cbn [btree_insert].
  { cbn. rewrite list_elem_of_singleton. set_solver. }
  apply ascending_cons in Ha as [Ha Hlt]. destruct (cmp k k') eqn:E.
  - apply cmp_eq in E as ->. cbn [snd]. rewrite !elem_of_cons. split.
    + intros [->|Hp]; [by left|]. right. split; [|by right].
      specialize (Hlt p Hp). apply cmp_lt_ne in Hlt. congruence.
    + intros [->|[Hne [->|Hp]]]; [by left|done|by right].
  - cbn [snd]. rewrite !elem_of_cons. split; [|tauto].
    intros [->|[->|Hp]]; [by left| |]; right; (split; [|tauto]); cbn.
    + apply cmp_lt_ne in E. congruence.
    + specialize (Hlt p Hp). intros E'. rewrite E' in Hlt.
      apply (cmp_lt_ne k k); [|done]. by eapply cmp_lt_trans.
  - specialize (IH Ha). destruct (btree_insert k v m) as [old m']. cbn [snd] in *.
    rewrite !elem_of_cons, IH. split; [|tauto].
    intros [->|[->|[Hne Hp]]]; [right|by left|right; tauto]. split; [|by left].
    cbn. apply cmp_gt_lt, cmp_lt_ne in E. congruence.
Qed.

Lemma btree_insert_ascending k v m : ascending m → ascending (btree_insert k v m).2.
Proof.
  induction m as [|[k' v'] m IH]; intros Ha; cbn [btree_insert].
  { cbn. apply ascending_cons. split; [constructor|set_solver]. }
  pose proof Ha as Ha0. apply ascending_cons in Ha as [Ha Hlt]. destruct (cmp k k') eqn:E.
  - apply cmp_eq in E as ->. cbn. apply ascending_cons. by split.
  - cbn. apply ascending_cons. split; [done|]. intros p [->|Hp]%elem_of_cons; [done|].
    eapply cmp_lt_trans; [done|]. by apply Hlt.
  - pose proof (btree_insert_elem k v m) as He.
    specialize (IH Ha). destruct (btree_insert k v m) as [old m']. cbn [snd] in *.
    apply ascending_cons. split; [done|]. intros p [->|[_ Hp]]%He; [|by apply Hlt|done].
    by apply cmp_gt_lt.
Qed.

(** The value [insert] replaces. *)
Lemma btree_insert_old k v m :
  ascending m → (btree_insert k v m).1 = None ↔ ∀ p, p ∈ m → p.1 ≠ k.
Proof.
  induction m as [|[k' v'] m IH]; intros Ha; cbn [btree_insert]; [set_solver|].
  apply ascending_cons in Ha as [Ha Hlt]. destruct (cmp k k') eqn:E.
  - apply cmp_eq in E as ->. cbn. split; [done|]. intros Hp.
    destruct (Hp (k', v')); [set_solver|done].
  - cbn. split; [|done]. intros _ p [->|Hp]%elem_of_cons.
    + apply cmp_lt_ne in E. cbn. congruence.
    + specialize (Hlt p Hp). intros E'. rewrite E' in Hlt.
      apply (cmp_lt_ne k k); [|done]. by eapply cmp_lt_trans.
  - specialize (IH Ha). destruct (btree_insert k v m) as [old m']. cbn [fst] in *. rewrite IH.
    split; [|set_solver]. intros Hm p [->|Hp]%elem_of_cons; [|by apply Hm].
    cbn. apply cmp_gt_lt, cmp_lt_ne in E. congruence.
Qed.

Lemma ascending_key_inj m p q : ascending m → p ∈ m → q ∈ m → p.1 = q.1 → p = q.
Proof.
  induction m as [|[k v] m IH]; [set_solver|]. intros [Ha Hlt]%ascending_cons.
  intros [->|Hp]%elem_of_cons [->|Hq]%elem_of_cons E; [done|..|by apply IH].
  - specialize (Hlt q Hq). apply cmp_lt_ne in Hlt. by destruct Hlt.
  - specialize (Hlt p Hp). apply cmp_lt_ne in Hlt. by destruct Hlt.
Qed.
End btree.

Lemma btree_set_spec `{TotalOrd K} (l : list K) :
  (∀ x, x ∈ btree_set l ↔ x ∈ l) ∧ StronglySorted (λ a b, cmp a b = Lt) (btree_set l).
Proof.
  unfold btree_set. rewrite <-(app_nil_l l).
  assert (∀ m : list (K * ()), ascending m → let m' := foldl (λ m k, (btree_insert k () m).2) m l in
    ascending m' ∧ ∀ x, x ∈ m'.*1 ↔ x ∈ m.*1 ∨ x ∈ l) as Hgen.
  { induction l as [|k l IH]; intros m Ha; cbv zeta; cbn [foldl]; [set_solver|].
    destruct (IH _ (btree_insert_ascending k () m Ha)) as [H1 H2]. split; [done|].
    intros x. rewrite H2, !list_elem_of_fmap, elem_of_cons. setoid_rewrite btree_insert_elem; [|done].
    split.
    - intros [(p & -> & [->|[_ Hp]])|Hx]; [by right; left|left; by exists p|by right; right].
    - intros [(p & -> & Hp)|[->|Hx]]; [|left; by exists (k, ()); split; [|left]|by right].
      left. destruct p as [k' []]. cbn.
      destruct (cmp k' k) eqn:E; [apply cmp_eq in E as ->; by exists (k, ()); split; [|left]|..];
        (exists (k', ()); split; [done|right; split; [|done]]; cbn; intros ->; by rewrite cmp_refl in E). }
  destruct (Hgen [] ltac:(constructor)) as [H1 H2]. rewrite app_nil_l. split.
  - intros x. rewrite H2. set_solver.
  - clear -H1. induction H1 as [|p m Hs IH Hf]; [constructor|]. cbn. constructor; [done|].
    apply Forall_fmap. by eapply Forall_impl.
Qed.

(** Collecting values under their key, when a key determines its value. *)
Section collect.
Context `{TotalOrd K} {A V : Type} (f : A → option V) (key : V → K).
Context (Hfun : ∀ a a' v v', f a = Some v → f a' = Some v' → key v = key v' → v = v').

Definition collect_step (m : list (K * V)) (a : A) : list (K * V) :=
  match f a with Some v => (btree_insert (key v) v m).2 | None => m end.

Lemma collect_from m l :
  ascending m → (∀ p, p ∈ m → ∃ a, f a = Some p.2 ∧ p.1 = key p.2) →
  ascending (foldl collect_step m l) ∧
  ∀ p, p ∈ foldl collect_step m l ↔ p ∈ m ∨ ∃ a, a ∈ l ∧ f a = Some p.2 ∧ p.1 = key p.2.
Proof.
  revert m. induction l as [|x l IH]; intros m Ha Hm; cbn [foldl]; [set_solver|].
  destruct (f x) as [v|] eqn:Ex.
  2: { unfold collect_step at 2 4. rewrite Ex. destruct (IH m Ha Hm) as [H1 H2]. split; [done|].
       intros p. rewrite H2. set_solver. }
  unfold collect_step at 2 4. rewrite Ex.
  destruct (IH (btree_insert (key v) v m).2) as [H1 H2].
  { by apply btree_insert_ascending. }
  { intros p [->|[_ Hp]]%btree_insert_elem; [by exists x|by apply Hm|done]. }
  split; [done|]. intros p. rewrite H2, btree_insert_elem by done. split.
  - intros [[->|[_ Hp]]|(a & Hal & Ha')]; [|by left|].
    + right. exists x. set_solver.
    + right. exists a. set_solver.
  - intros [Hp|(a & [->|Hal]%elem_of_cons & Hv & Hk)].
    + left.
      destruct (cmp p.1 (key v)) eqn:Ec.
      * apply cmp_eq in Ec. left. destruct (Hm p Hp) as (a & Hv & Hk).
        destruct p as [k w]. cbn in *. subst k. assert (w = v) as -> by by eapply Hfun. done.
      * right. split; [|done]. intros E. by rewrite E, cmp_refl in Ec.
      * right. split; [|done]. intros E. by rewrite E, cmp_refl in Ec.
    + left. left. destruct p as [k w]. cbn in *. congruence.
    + right. by exists a.
Qed.

Lemma collect_spec l :
  ascending (foldl collect_step [] l) ∧
  ∀ p, p ∈ foldl collect_step [] l ↔ ∃ a, a ∈ l ∧ f a = Some p.2 ∧ p.1 = key p.2.
Proof.
  destruct (collect_from [] l) as [H1 H2]; [constructor|set_solver|]. split; [done|].
  intros p. rewrite H2. set_solver.
Qed.
End collect.

Lemma ascending_NoDup `{TotalOrd K} {V} (m : list (K * V)) : ascending m → NoDup m.
Proof.
  induction m as [|[k v] m IH]; intros Ha; [constructor|]. apply ascending_cons in Ha as [Ha Hlt].
  constructor; [|by apply IH]. intros Hin. specialize (Hlt _ Hin). by apply cmp_lt_ne in Hlt.
Qed.

Lemma ascending_perm `{TotalOrd K} {V} (m m' : list (K * V)) : ascending m → ascending m' → m ≡ₚ m' → m = m'.
Proof.
  intros Ha Ha' Hp. apply (StronglySorted_unique_strong (λ a b, cmp a.1 b.1 = Lt)); [|done..].
  intros x y _ _ Hxy Hyx. by rewrite (proj2 (cmp_gt_lt x.1 y.1) Hyx) in Hxy.
Qed.

Lemma concat_perm {A} (l k : list (list A)) : l ≡ₚ k → concat l ≡ₚ concat k.
Proof.
  induction 1 as [|x l k _ IH|x y l|l k m _ IH1 _ IH2]; cbn; [done|by rewrite IH|by rewrite !app_assoc, (Permutation_app_comm x y)|by rewrite IH1].
Qed.

Lemma elem_of_concat {A} (x : A) ls : x ∈ concat ls ↔ ∃ l, l ∈ ls ∧ x ∈ l.
Proof.
  rewrite list_elem_of_In, in_concat. split; intros (l & Hl & Hx); exists l.
  - by rewrite !list_elem_of_In.
  - by rewrite list_elem_of_In in Hl; rewrite list_elem_of_In in Hx.
Qed.

Lemma sum_list_sublist {A} (f : A → nat) (l l' : list A) : sublist l' l → (sum_list (f <$> l') ≤ sum_list (f <$> l))%nat.
Proof. induction 1; cbn; lia. Qed.

Lemma NoDup_fmap_inj {A B} (f : A → B) l :
  (∀ x y, x ∈ l → y ∈ l → f x = f y → x = y) → NoDup l → NoDup (f <$> l).
Proof.
  induction l as [|x l IH]; intros Hinj Hnd; [constructor|]. cbn.
  apply NoDup_cons in Hnd as [Hx Hnd]. constructor.
  - intros (y & E & Hy)%list_elem_of_fmap. apply Hx.
    by rewrite (Hinj x y) by set_solver.
  - apply IH; [|done]. intros. apply Hinj; set_solver.
Qed.

Lemma NoDup_fmap_elem {A B} (f : A → B) l x y :
  NoDup (f <$> l) → x ∈ l → y ∈ l → f x = f y → x = y.
Proof. intros Hnd. by apply (key_inj_of_NoDup f l Hnd). Qed.

Lemma NoDup_fmap_sub {A B} (f : A → B) (l k : list A) :
  NoDup (f <$> l) → k `sublist_of` l → NoDup (f <$> k).
Proof.
  intros Hnd Hs. eapply sublist_NoDup; [done|]. clear Hnd. induction Hs; cbn; by constructor.
Qed.

Lemma foldl_fmap {A B C} (f : C → B → C) (g : A → B) (c : C) (l : list A) :
  foldl f c (g <$> l) = foldl (λ c a, f c (g a)) c l.
Proof. revert c. induction l as [|a l IH]; intros c; [done|]. apply IH. Qed.

(** ** Sorted lists *)
Lemma last_elem_of {A} (l : list A) x : list.last l = Some x → x ∈ l.
Proof. intros [k ->]%last_Some. apply elem_of_app. right. by apply list_elem_of_singleton. Qed.

Lemma sorted_app_inv {A} (P : A → A → Prop) l k :
  StronglySorted P (l ++ k) →
  StronglySorted P l ∧ StronglySorted P k ∧ ∀ x y, x ∈ l → y ∈ k → P x y.
Proof.
  induction l as [|a l IH].
  { intros Hs. split_and!; [constructor|done|]. intros x y Hx. by apply not_elem_of_nil in Hx. }
  intros [Hs Ha]%StronglySorted_inv. destruct (IH Hs) as (H1 & H2 & H3). rewrite Forall_app in Ha. split_and!.
  - constructor; [done|apply Ha].
  - done.
  - intros x y [->|Hx]%elem_of_cons Hy; [|by apply H3].
    destruct Ha as [_ Ha]. rewrite Forall_forall in Ha. by apply Ha.
Qed.

Lemma sorted_app {A} (P : A → A → Prop) l k :
  StronglySorted P l → StronglySorted P k → (∀ x y, x ∈ l → y ∈ k → P x y) → StronglySorted P (l ++ k).
Proof.
  intros Hl Hk Hc. induction Hl as [|a l Hl IH Ha]; [done|]. cbn. constructor.
  - apply IH. intros x y Hx. apply Hc. by right.
  - apply Forall_app. split; [done|]. apply Forall_forall. intros y Hy. by apply Hc; [left|].
Qed.

Lemma sorted_last `{TotalOrd K} (keys : list K) key last :
  StronglySorted kle keys → list.last keys = Some last → key ∈ keys → kle key last.
Proof.
  intros Hs [l ->]%last_Some. apply sorted_app_inv in Hs as (_ & _ & Hs).
  intros [Hin|Hin]%elem_of_app; [apply Hs; [done|by left]|].
  apply list_elem_of_singleton in Hin as ->. apply kle_refl.
Qed.

Lemma sorted_snoc `{TotalOrd K} (keys : list K) key :
  StronglySorted kle keys → (∀ last, list.last keys = Some last → kle last key) →
  StronglySorted kle (keys ++ [key]).
Proof.
  intros Hs Hl. apply sorted_app; [done|by repeat constructor|].
  intros x y Hx ->%list_elem_of_singleton. destruct (list.last keys) as [z|] eqn:E.
  - apply (kle_trans _ z); [by eapply sorted_last|by apply Hl].
  - apply last_None in E as ->. by apply not_elem_of_nil in Hx.
Qed.

Lemma sorted_filter {A} (R : A → A → Prop) (P : A → Prop) `{!∀ x, Decision (P x)} l :
  StronglySorted R l → StronglySorted R (filter P l).
Proof.
  induction 1 as [|x l Hl IH Hx]; [constructor|]. rewrite filter_cons. case_decide; [|done].
  constructor; [done|]. rewrite Forall_forall in Hx |- *. intros y [_ Hy]%list_elem_of_filter. by apply Hx.
Qed.

Lemma filter_none {A} (P : A → Prop) `{!∀ x, Decision (P x)} (l : list A) :
  (∀ x, x ∈ l → ¬ P x) → filter P l = [].
Proof.
  induction l as [|a l IH]; intros Hl; [done|].
  rewrite filter_cons_False by (apply Hl; by left). apply IH. intros x Hx. apply Hl. by right.
Qed.

Lemma filter_all {A} (P : A → Prop) `{!∀ x, Decision (P x)} (l : list A) :
  (∀ x, x ∈ l → P x) → filter P l = l.
Proof.
  induction l as [|a l IH]; intros Hl; [done|].
  rewrite filter_cons_True by (apply Hl; by left). f_equal. apply IH. intros x Hx. apply Hl. by right.
Qed.

Lemma sorted_reverse_on {A} (R R' : A → A → Prop) l :
  (∀ a b, a ∈ l → b ∈ l → R a b → R' b a) → StronglySorted R l → StronglySorted R' (reverse l).
Proof.
  intros HR. induction 1 as [|a l Hs IH Ha]; [constructor|]. rewrite reverse_cons. apply sorted_app; [|by repeat constructor|].
  - apply IH. intros x y Hx Hy. apply HR; by right.
  - intros x y Hx ->%list_elem_of_singleton. rewrite elem_of_reverse in Hx. rewrite Forall_forall in Ha.
    apply HR; [by left|by right|by apply Ha].
Qed.

(** ** Sorting

    [slice::sort_by]: a stable sort by a comparison. *)
Section sorting.
Context {A : Type} (c : A → A → comparison).

Fixpoint insert_by (a : A) (l : list A) : list A :=
  match l with
  | [] => [a]
  | b :: l => if decide (c a b = Gt) then b :: insert_by a l else a :: b :: l
  end.
Definition sort_by (l : list A) : list A := foldr insert_by [] l.

Lemma insert_by_perm a l : insert_by a l ≡ₚ a :: l.
Proof. induction l as [|b l IH]; [done|]. cbn. case_decide; [|done]. by rewrite IH, Permutation_swap. Qed.

Lemma sort_by_perm l : sort_by l ≡ₚ l.
Proof. induction l as [|a l IH]; [done|]. cbn. by rewrite insert_by_perm, IH. Qed.

Lemma sort_by_elem l a : a ∈ sort_by l ↔ a ∈ l.
Proof. by rewrite (sort_by_perm l). Qed.

Definition not_after (a b : A) : Prop := c a b ≠ Gt.
Context (c_total : ∀ a b, c a b = Gt → not_after b a).
Context (c_trans : ∀ a b d, not_after a b → not_after b d → not_after a d).

Lemma insert_by_sorted a l : StronglySorted not_after l → StronglySorted not_after (insert_by a l).
Proof.
  induction 1 as [|b l Hs IH Hb]; [by repeat constructor|]. cbn. case_decide as E.
  - constructor; [done|]. rewrite insert_by_perm. constructor; [by apply c_total|done].
  - constructor; [by constructor|]. constructor; [done|].
    eapply Forall_impl; [exact Hb|]. intros d. by apply c_trans.
Qed.

Lemma sort_by_sorted l : StronglySorted not_after (sort_by l).
Proof. induction l as [|a l IH]; [constructor|]. by apply insert_by_sorted. Qed.

(** A sorted arrangement is the one that sorting gives, when no two elements
    are equal in the order. *)
Lemma sort_by_unique l l' :
  (∀ a b, a ∈ l → b ∈ l → not_after a b → not_after b a → a = b) →
  StronglySorted not_after l' → l' ≡ₚ l → sort_by l = l'.
Proof.
  intros Hanti Hs Hperm. apply (StronglySorted_unique_strong not_after); [|apply sort_by_sorted|done|].
  - intros x1 x2 H1 H2. rewrite sort_by_elem in H1. rewrite Hperm in H2. by apply Hanti.
  - by rewrite sort_by_perm, Hperm.
Qed.
End sorting.
