(* ===== verification/Types.v ===== *)
(** * Shared types

    The vocabulary of [loonfs-types]: identifiers, content references, WAL
    deltas and commit payloads, and the durable metadata rows.  Numeric
    newtypes ([InodeId], [ChangeSeq], ...) are their number, a Rust [String]
    newtype is its bytes, and a [BTreeMap] is its entries in key order, the
    order in which every use of the source iterates it. *)
From S2P Require Import Prelude.
Local Open Scope N_scope.

Abbreviation InodeId := N (only parsing).
Abbreviation ChangeSeq := N (only parsing).
Abbreviation RevisionNo := N (only parsing).
Abbreviation AttributesRevisionNo := N (only parsing).
Abbreviation AccessRevisionNo := N (only parsing).
Abbreviation NameKey := string (only parsing).
Abbreviation DisplayName := string (only parsing).
Abbreviation CommitId := string (only parsing).
Abbreviation ActorId := string (only parsing).
Abbreviation NamespaceId := string (only parsing).
Abbreviation ContentId := string (only parsing).
Abbreviation CommitFingerprint := string (only parsing).

Definition U8_MAX : N := 2 ^ 8 - 1.
Definition U32_MAX : N := 2 ^ 32 - 1.
Definition U64_MAX : N := 2 ^ 64 - 1.
Definition U128_MAX : N := 2 ^ 128 - 1.

(** The ID of every namespace's root directory. *)
Definition ROOT_INODE_ID : InodeId := 0.

(** [ActorId::loonfs]: the actor of a namespace's root. *)
Definition loonfs_actor : ActorId := "loonfs".

Inductive InodeKind : Set := File | Directory.
#[export] Instance InodeKind_eq_dec : EqDecision InodeKind.
Proof. solve_decision. Defined.

(** ** Ordinals *)
Definition MAX_PUBLIC_INTEGER : N := 9007199254740991.

(** [u64::checked_add] and [u32::checked_add]. *)
Definition checked_add (max a b : N) : option N :=
  if decide (a + b ≤ max) then Some (a + b) else None.

(** [u64::saturating_add] on [usize]. *)
Definition saturating_add (a b : N) : N := N.min U64_MAX (a + b).

(** [current.checked_add(1).filter(|next| *next <= MAX_PUBLIC_INTEGER)]. *)
Definition next_public_ordinal (current : N) : option N :=
  option_filter (λ next, bool_decide (next ≤ MAX_PUBLIC_INTEGER)) (checked_add U64_MAX current 1).

(** ** Content *)
Inductive ContentRefKind : Set := BlobV1.
#[export] Instance ContentRefKind_eq_dec : EqDecision ContentRefKind.
Proof. solve_decision. Defined.

Inductive ChecksumAlgorithm : Set := Crc64nvme | Crc32c.
#[export] Instance ChecksumAlgorithm_eq_dec : EqDecision ChecksumAlgorithm.
Proof. solve_decision. Defined.

Record Checksum := mkChecksum { ck_algorithm : ChecksumAlgorithm; ck_value : string }.
#[export] Instance Checksum_eq_dec : EqDecision Checksum.
Proof. solve_decision. Defined.

Record ContentRef := mkContentRef {
  cref_kind : ContentRefKind;
  cref_content_id : ContentId;
  cref_size_bytes : N;
  cref_checksum : Checksum;
}.
#[export] Instance ContentRef_eq_dec : EqDecision ContentRef.
Proof. solve_decision. Defined.

Inductive ExtentObject : Set := Whole | Span (start end_ : N).
#[export] Instance ExtentObject_eq_dec : EqDecision ExtentObject.
Proof. solve_decision. Defined.

Record ContentExtent := mkContentExtent {
  ext_content_id : ContentId;
  ext_object : ExtentObject;
  ext_offset : N;
  ext_length : N;
}.
#[export] Instance ContentExtent_eq_dec : EqDecision ContentExtent.
Proof. solve_decision. Defined.

Record ContentLayout := mkContentLayout {
  cl_creator_namespace_id : NamespaceId;
  cl_extents : list ContentExtent;
}.
#[export] Instance ContentLayout_eq_dec : EqDecision ContentLayout.
Proof. solve_decision. Defined.

(** [ContentLayout::size_bytes]: the sum of the extents' lengths.  Layouts
    come from [validate], which refuses a sum above [u64::MAX]. *)
Definition size_bytes (layout : ContentLayout) : N :=
  foldr (λ extent total, extent.(ext_length) + total) 0 layout.(cl_extents).

(** ** Delta positions *)
Record DeltaPosition := mkDeltaPosition { dp_seq : ChangeSeq; dp_delta_index : N }.
#[export] Instance DeltaPosition_eq_dec : EqDecision DeltaPosition.
Proof. solve_decision. Defined.

#[export] Instance DeltaPosition_ord : Ord DeltaPosition := λ p q,
  cmp (p.(dp_seq), p.(dp_delta_index)) (q.(dp_seq), q.(dp_delta_index)).
#[export] Instance DeltaPosition_total : TotalOrd DeltaPosition.
Proof.
  assert (∀ p q : DeltaPosition,
    cmp p q = cmp (p.(dp_seq), p.(dp_delta_index)) (q.(dp_seq), q.(dp_delta_index))) as E by done.
  split.
  - intros [s d] [s' d']. rewrite E, cmp_eq; simpl. naive_solver.
  - intros p q. rewrite !E. apply cmp_sym.
  - intros p q r. rewrite !E. apply cmp_lt_trans.
Qed.

Record DeletedBinding := mkDeletedBinding {
  dlb_parent_inode_id : InodeId;
  dlb_name_key : NameKey;
  dlb_display_name : DisplayName;
}.
#[export] Instance DeletedBinding_eq_dec : EqDecision DeletedBinding.
Proof. solve_decision. Defined.

Record RevisionSummary := mkRevisionSummary {
  rs_revision_no : RevisionNo;
  rs_size_bytes : N;
  rs_revision_committed_by : ActorId;
  rs_revision_committed_at_ms : N;
}.
#[export] Instance RevisionSummary_eq_dec : EqDecision RevisionSummary.
Proof. solve_decision. Defined.

(** ** Access rights

    [AccessRights] is a [u8] bit set in the order of [AccessRight::ALL]. *)
Inductive AccessRight : Set :=
| RightRead | RightHistory | RightWrite | RightCreate
| RightRemove | RightShare | RightManage | RightAdmin.
#[export] Instance AccessRight_eq_dec : EqDecision AccessRight.
Proof. solve_decision. Defined.

Definition AccessRight_ALL : list AccessRight :=
  [RightRead; RightHistory; RightWrite; RightCreate;
   RightRemove; RightShare; RightManage; RightAdmin].

(** [AccessRight::as_str]. *)
Definition right_as_str (right : AccessRight) : string :=
  match right with
  | RightRead => "read"
  | RightHistory => "history"
  | RightWrite => "write"
  | RightCreate => "create"
  | RightRemove => "remove"
  | RightShare => "share"
  | RightManage => "manage"
  | RightAdmin => "admin"
  end.

Definition right_discriminant (right : AccessRight) : N :=
  match right with
  | RightRead => 0 | RightHistory => 1 | RightWrite => 2 | RightCreate => 3
  | RightRemove => 4 | RightShare => 5 | RightManage => 6 | RightAdmin => 7
  end.

Abbreviation AccessRights := N (only parsing).

(** [AccessRight::bit]. *)
Definition right_bit (right : AccessRight) : N := N.shiftl 1 (right_discriminant right).

(** [AccessRights::contains]. *)
Definition rights_contains (rights : AccessRights) (right : AccessRight) : bool :=
  negb (bool_decide (N.land rights (right_bit right) = 0)).

(** [AccessRights::iter]. *)
Definition rights_iter (rights : AccessRights) : list AccessRight :=
  filter (λ right, rights_contains rights right = true) AccessRight_ALL.

Abbreviation AccessGrants := (list (string * N)) (only parsing).
Abbreviation Attributes := (list (string * string)) (only parsing).

(** ** WAL deltas and commits *)
Inductive WalDelta : Set :=
| CreateInode (delta_index : N) (inode_id : InodeId) (inode_kind : InodeKind)
| BindDirentry (delta_index : N) (parent_inode_id : InodeId) (name_key : NameKey)
    (display_name : DisplayName) (child_inode_id : InodeId) (child_kind : InodeKind)
    (child_created_by : ActorId) (child_created_at_ms : N) (revision : option RevisionSummary)
| UnbindDirentry (delta_index : N) (parent_inode_id : InodeId) (name_key : NameKey)
    (display_name : DisplayName) (child_inode_id : InodeId) (child_kind : InodeKind)
    (child_created_by : ActorId) (child_created_at_ms : N) (target : DeltaPosition)
| AppendFileRevision (delta_index : N) (inode_id : InodeId) (parent_inode_id : InodeId)
    (name_key : NameKey) (display_name : DisplayName) (bind_position : DeltaPosition)
    (child_created_by : ActorId) (child_created_at_ms : N) (revision_no : RevisionNo)
    (content_ref : ContentRef) (layout : option ContentLayout) (append_offset : option N)
| TombstoneSubtree (delta_index : N) (root_inode_id : InodeId) (root_kind : InodeKind)
    (deleted_binding : DeletedBinding)
| RevokeSubtreeTombstone (delta_index : N) (root_inode_id : InodeId) (target : DeltaPosition)
| AppendAttributesRevision (delta_index : N) (inode_id : InodeId)
    (attributes_revision_no : AttributesRevisionNo) (attributes : Attributes)
| AppendAccessRevision (delta_index : N) (inode_id : InodeId)
    (access_revision_no : AccessRevisionNo) (boundary : bool) (grants : AccessGrants).
#[export] Instance WalDelta_eq_dec : EqDecision WalDelta.
Proof. solve_decision. Defined.

(** The [delta_index] field, which every variant has. *)
Definition delta_index (delta : WalDelta) : N :=
  match delta with
  | CreateInode i _ _ | BindDirentry i _ _ _ _ _ _ _ _ | UnbindDirentry i _ _ _ _ _ _ _ _
  | AppendFileRevision i _ _ _ _ _ _ _ _ _ _ _ | TombstoneSubtree i _ _ _
  | RevokeSubtreeTombstone i _ _ | AppendAttributesRevision i _ _ _
  | AppendAccessRevision i _ _ _ _ => i
  end.

Record WalCommitDelta := mkWalCommitDelta {
  wcd_semantic_operation_index : N;
  wcd_delta : WalDelta;
}.
#[export] Instance WalCommitDelta_eq_dec : EqDecision WalCommitDelta.
Proof. solve_decision. Defined.

Record WalInlineContent := mkWalInlineContent {
  wic_content_id : ContentId;
  wic_offset : N;
  wic_bytes : list N;
}.
#[export] Instance WalInlineContent_eq_dec : EqDecision WalInlineContent.
Proof. solve_decision. Defined.

Record MergeRecord := mkMergeRecord {
  mr_source_namespace_id : NamespaceId;
  mr_source_after_seq : ChangeSeq;
  mr_source_through_seq : ChangeSeq;
}.
#[export] Instance MergeRecord_eq_dec : EqDecision MergeRecord.
Proof. solve_decision. Defined.

Record WalCommitPayload := mkWalCommitPayload {
  wcp_committed_seq : ChangeSeq;
  wcp_commit_id : CommitId;
  wcp_committed_by : ActorId;
  wcp_semantic_commit_fingerprint : CommitFingerprint;
  wcp_committed_at_ms : N;
  wcp_message : option string;
  wcp_merge : option MergeRecord;
  wcp_deltas : list WalCommitDelta;
  wcp_inline_content : list WalInlineContent;
}.
#[export] Instance WalCommitPayload_eq_dec : EqDecision WalCommitPayload.
Proof. solve_decision. Defined.

(** The next ordinal is one more, and fits. *)
Lemma next_public_ordinal_Some n m :
  next_public_ordinal n = Some m ↔ m = n + 1 ∧ n + 1 ≤ MAX_PUBLIC_INTEGER.
Proof.
  unfold next_public_ordinal, checked_add, option_filter, MAX_PUBLIC_INTEGER, U64_MAX.
  case_decide; [|naive_solver lia]. case_bool_decide; naive_solver lia.
Qed.

Lemma next_public_ordinal_lt n m : next_public_ordinal n = Some m → n < m.
Proof. intros [-> _]%next_public_ordinal_Some. lia. Qed.
