(* ===== verification/Utf8.v ===== *)
(** * UTF-8

    What the segment format uses of Rust's strings: [str::from_utf8], whose
    grammar is the well-formed byte sequences of the Unicode standard, and
    [str::is_char_boundary]. *)
From S2P Require Import Prelude.
Local Open Scope N_scope.

Abbreviation bytes := (list ascii) (only parsing).

Definition in_range (lo hi : N) (a : ascii) : bool := (lo <=? N_of_ascii a) && (N_of_ascii a <=? hi).

(** A continuation byte. *)
Definition cont (a : ascii) : bool := in_range 0x80 0xbf a.

(** The second byte of a three-byte and of a four-byte sequence: overlong
    forms, surrogates and code points above U+10FFFF are not well formed. *)
Definition second_of_3 (a b : ascii) : bool :=
  if in_range 0xe0 0xe0 a then in_range 0xa0 0xbf b
  else if in_range 0xed 0xed a then in_range 0x80 0x9f b
  else cont b.
Definition second_of_4 (a b : ascii) : bool :=
  if in_range 0xf0 0xf0 a then in_range 0x90 0xbf b
  else if in_range 0xf4 0xf4 a then in_range 0x80 0x8f b
  else cont b.

(** The bytes after the first character. *)
Definition utf8_rest (l : bytes) : option bytes :=
  match l with
  | [] => None
  | a :: l =>
      if in_range 0 0x7f a then Some l
      else if in_range 0xc2 0xdf a then
        match l with b :: l => if cont b then Some l else None | _ => None end
      else if in_range 0xe0 0xef a then
        match l with
        | b :: c :: l => if second_of_3 a b && cont c then Some l else None
        | _ => None
        end
      else if in_range 0xf0 0xf4 a then
        match l with
        | b :: c :: d :: l => if second_of_4 a b && cont c && cont d then Some l else None
        | _ => None
        end
      else None
  end.

Fixpoint utf8_from (fuel : nat) (l : bytes) : bool :=
  match l, fuel with
  | [], _ => true
  | _, O => false
  | _, S fuel => match utf8_rest l with Some rest => utf8_from fuel rest | None => false end
  end.

(** [str::from_utf8(l).is_ok()]. *)
Definition utf8_valid (l : bytes) : bool := utf8_from (length l) l.

(** [s.is_char_boundary(i)]. *)
Definition is_char_boundary (l : bytes) (i : nat) : bool :=
  match l !! i with
  | Some a => Nat.eqb i 0 || negb (cont a)
  | None => Nat.eqb i (length l)
  end.

(** ** Well-formed sequences *)
Inductive utf8 : bytes → Prop :=
| utf8_nil : utf8 []
| utf8_char l rest : utf8_rest l = Some rest → utf8 rest → utf8 l.

(** A character is a leading byte and its continuation bytes. *)
Lemma utf8_rest_Some l rest :
  utf8_rest l = Some rest → ∃ a cs, l = a :: cs ++ rest ∧ cont a = false ∧ Forall (λ c, cont c = true) cs ∧
    ∀ rest', utf8_rest (a :: cs ++ rest') = Some rest'.
Proof.
  assert (∀ lo hi a, in_range lo hi a = true → lo <= N_of_ascii a <= hi) as Hr.
  { intros lo hi a. unfold in_range. rewrite andb_true_iff, !N.leb_le. done. }
  assert (∀ lo hi a, 0x80 ≤ lo → hi ≤ 0xbf → in_range lo hi a = true → cont a = true) as Hsub.
  { intros lo hi a H1 H2 H3%Hr. unfold cont, in_range. rewrite andb_true_iff, !N.leb_le. lia. }
  assert (∀ lo hi a, in_range lo hi a = true → hi < 0x80 ∨ 0xbf < lo → cont a = false) as Hout.
  { intros lo hi a H%Hr Hb. unfold cont, in_range. apply andb_false_iff. rewrite !N.leb_gt. lia. }
  assert (∀ a b, second_of_3 a b = true → cont b = true) as H3.
  { intros a b. unfold second_of_3. repeat case_match; try done; apply Hsub; lia. }
  assert (∀ a b, second_of_4 a b = true → cont b = true) as H4.
  { intros a b. unfold second_of_4. repeat case_match; try done; apply Hsub; lia. }
  unfold utf8_rest. destruct l as [|a l]; [done|].
  destruct (in_range 0 127 a) eqn:E1.
  { intros [= ->]. exists a, []. split_and!; [done|apply (Hout _ _ a E1); lia|done|]. intros. by rewrite E1. }
  destruct (in_range 194 223 a) eqn:E2.
  { destruct l as [|b l]; [done|]. destruct (cont b) eqn:Eb; [|done]. intros [= ->]. exists a, [b].
    split_and!; [done|apply (Hout _ _ a E2); lia|by repeat constructor|].
    intros. cbn. by rewrite E1, E2, Eb. }
  destruct (in_range 224 239 a) eqn:E3.
  { destruct l as [|b [|c l]]; [done..|]. destruct (second_of_3 a b && cont c) eqn:Eb; [|done].
    intros [= ->]. exists a, [b; c]. pose proof Eb as [Hb Hc]%andb_true_iff.
    split_and!; [done|apply (Hout _ _ a E3); lia|repeat constructor; by eauto|].
    intros. cbn. by rewrite E1, E2, E3, Eb. }
  destruct (in_range 240 244 a) eqn:E4; [|done].
  destruct l as [|b [|c [|d l]]]; [done..|]. destruct (second_of_4 a b && cont c && cont d) eqn:Eb; [|done].
  intros [= ->]. exists a, [b; c; d]. pose proof Eb as [[Hb Hc]%andb_true_iff Hd]%andb_true_iff.
  split_and!; [done|apply (Hout _ _ a E4); lia|repeat constructor; by eauto|].
  intros. cbn. by rewrite E1, E2, E3, E4, Eb.
Qed.

Lemma utf8_rest_length l rest : utf8_rest l = Some rest → (length rest < length l)%nat.
Proof.
  intros (a & cs & -> & _)%utf8_rest_Some. cbn. rewrite length_app. lia.
Qed.

Lemma utf8_from_spec fuel l : (length l ≤ fuel)%nat → utf8_from fuel l = true ↔ utf8 l.
Proof.
  revert l. induction fuel as [|fuel IH]; intros [|a l] Hl; cbn [length] in Hl; try lia.
  - split; [constructor|done].
  - split; [constructor|done].
  - cbn [utf8_from]. destruct (utf8_rest (a :: l)) as [rest|] eqn:E.
    + pose proof (utf8_rest_length _ _ E) as Hlt. cbn in Hlt. rewrite IH by lia. split.
      * by apply utf8_char.
      * inversion 1; congruence.
    + split; [done|]. inversion 1; congruence.
Qed.

Lemma utf8_valid_spec l : utf8_valid l = true ↔ utf8 l.
Proof. by apply utf8_from_spec. Qed.

(** A well-formed sequence splits at a character boundary. *)
Lemma utf8_split l i :
  utf8 l → is_char_boundary l i = true → utf8 (take i l) ∧ utf8 (drop i l).
Proof.
  intros Hl. revert i. induction Hl as [|l rest Hrest Hr IH]; intros i Hi.
  - rewrite take_nil, drop_nil. split; constructor.
  - destruct (utf8_rest_Some _ _ Hrest) as (a & cs & -> & Ha & Hcs & Hany).
    destruct (decide (i = 0%nat)) as [->|Hi0]; [split; [constructor|by eapply utf8_char]|].
    destruct (decide (i ≤ length cs)%nat) as [Hle|Hgt].
    { exfalso. destruct i as [|i]; [done|]. unfold is_char_boundary in Hi. cbn [lookup list_lookup] in Hi.
      destruct (lookup_lt_is_Some_2 cs i) as [c Hc]; [lia|].
      rewrite (lookup_app_l_Some _ _ _ _ Hc) in Hi. cbn in Hi.
      rewrite Forall_forall in Hcs. rewrite (Hcs c) in Hi; [done|]. by eapply list_elem_of_lookup_2. }
    replace i with (S (length cs + (i - S (length cs)))) in Hi |- * by lia.
    set (j := (i - S (length cs))%nat) in *.
    assert (is_char_boundary rest j = true) as Hj.
    { unfold is_char_boundary in Hi |- *.
      change ((a :: cs ++ rest) !! S (length cs + j)) with ((cs ++ rest) !! (length cs + j)%nat) in Hi.
      rewrite lookup_app_r in Hi by lia. replace (length cs + j - length cs)%nat with j in Hi by lia.
      destruct (rest !! j) as [b|]; [|].
      - cbn in Hi. by rewrite Hi, orb_true_r.
      - apply Nat.eqb_eq in Hi. apply Nat.eqb_eq. cbn in Hi. rewrite length_app in Hi. lia. }
    destruct (IH j Hj) as [H1 H2]. cbn [take drop].
    rewrite take_app_ge, drop_app_ge by lia. replace (length cs + j - length cs)%nat with j by lia.
    split; [|done]. eapply utf8_char; [apply Hany|done].
Qed.

Lemma utf8_app_inv a b : utf8 a → utf8 (a ++ b) → utf8 b.
Proof.
  intros Ha. induction Ha as [|l rest Hrest Hr IH]; [done|]. intros Hb. apply IH.
  destruct (utf8_rest_Some _ _ Hrest) as (x & cs & -> & _ & _ & Hany).
  inversion Hb as [|l' rest' Hrest' Hr' Heq]. subst l'. cbn [app] in Hrest'.
  rewrite <-app_assoc, Hany in Hrest'. by injection Hrest' as <-.
Qed.

Lemma utf8_head a l : utf8 (a :: l) → cont a = false.
Proof.
  inversion 1 as [|l' rest Hrest Hr Heq]. subst.
  by apply utf8_rest_Some in Hrest as (x & cs & [= <- _] & Ha & _).
Qed.

(** The end of a well-formed prefix is a character boundary. *)
Lemma utf8_prefix_boundary a b : utf8 a → utf8 (a ++ b) → is_char_boundary (a ++ b) (length a) = true.
Proof.
  intros Ha Hab. pose proof (utf8_app_inv _ _ Ha Hab) as Hb. unfold is_char_boundary.
  rewrite lookup_app_r, Nat.sub_diag by lia. destruct b as [|x b].
  - cbn. by rewrite app_nil_r, Nat.eqb_refl.
  - cbn. by rewrite (utf8_head x b Hb), orb_true_r.
Qed.
