(* ===== verification/Records.v ===== *)
(** * Metadata rows

    The row families, the row union and the record of each family, from
    [loonfs-types/src/metadata_rows.rs].  Field names carry a prefix per
    record ([ir_] for [InodeRecord], [db_] for [DirentryBindingRecord], ...)
    because Rocq's projections share one name space. *)
From S2P Require Import Prelude Types.
Local Open Scope N_scope.

Inductive MetadataRowFamily : Set :=
| FamInodes | FamDirentryBinds | FamDirentryChildBinds | FamRevisions | FamTombstones
| FamActiveDeletions | FamCommitReceipts | FamCommits | FamContentLayouts
| FamAttributes | FamAccess | FamMerges.
#[export] Instance MetadataRowFamily_eq_dec : EqDecision MetadataRowFamily.
Proof. solve_decision. Defined.

(** [MetadataRowFamily::ALL]. *)
Definition MetadataRowFamily_ALL : list MetadataRowFamily :=
  [FamInodes; FamDirentryBinds; FamDirentryChildBinds; FamRevisions; FamTombstones;
   FamActiveDeletions; FamCommitReceipts; FamCommits; FamContentLayouts;
   FamAttributes; FamAccess; FamMerges].

(** [MetadataRowFamily::as_str]. *)
Definition family_as_str (family : MetadataRowFamily) : string :=
  match family with
  | FamInodes => "inodes"
  | FamDirentryBinds => "direntry_binds"
  | FamDirentryChildBinds => "direntry_child_binds"
  | FamRevisions => "revisions"
  | FamTombstones => "tombstones"
  | FamActiveDeletions => "active_deletions"
  | FamCommitReceipts => "commit_receipts"
  | FamCommits => "commits"
  | FamContentLayouts => "content_layouts"
  | FamAttributes => "attributes"
  | FamAccess => "access"
  | FamMerges => "merges"
  end.

Inductive MetadataFamilyGroup : Set :=
| GrpBindings | GrpRevisions | GrpInodes | GrpTombstones | GrpActiveDeletions
| GrpCommits | GrpContentLayouts | GrpAttributes | GrpAccess.
#[export] Instance MetadataFamilyGroup_eq_dec : EqDecision MetadataFamilyGroup.
Proof. solve_decision. Defined.

(** [MetadataFamilyGroup::ALL]. *)
Definition MetadataFamilyGroup_ALL : list MetadataFamilyGroup :=
  [GrpBindings; GrpRevisions; GrpInodes; GrpTombstones; GrpActiveDeletions;
   GrpCommits; GrpContentLayouts; GrpAttributes; GrpAccess].

(** [MetadataFamilyGroup::as_str]. *)
Definition group_as_str (group : MetadataFamilyGroup) : string :=
  match group with
  | GrpBindings => "bindings"
  | GrpRevisions => "revisions"
  | GrpInodes => "inodes"
  | GrpTombstones => "tombstones"
  | GrpActiveDeletions => "active_deletions"
  | GrpCommits => "commits"
  | GrpContentLayouts => "content_layouts"
  | GrpAttributes => "attributes"
  | GrpAccess => "access"
  end.

(** [MetadataFamilyGroup::families]. *)
Definition group_families (group : MetadataFamilyGroup) : list MetadataRowFamily :=
  match group with
  | GrpBindings => [FamDirentryBinds; FamDirentryChildBinds]
  | GrpRevisions => [FamRevisions]
  | GrpInodes => [FamInodes]
  | GrpTombstones => [FamTombstones]
  | GrpActiveDeletions => [FamActiveDeletions]
  | GrpCommits => [FamCommits; FamCommitReceipts; FamMerges]
  | GrpContentLayouts => [FamContentLayouts]
  | GrpAttributes => [FamAttributes]
  | GrpAccess => [FamAccess]
  end.

Record InodeRecord := mkInodeRecord {
  ir_inode_id : InodeId;
  ir_inode_kind : InodeKind;
  ir_committed_seq : ChangeSeq;
  ir_commit_id : CommitId;
  ir_committed_by : ActorId;
  ir_committed_at_ms : N;
}.
#[export] Instance InodeRecord_eq_dec : EqDecision InodeRecord.
Proof. solve_decision. Defined.

Inductive DirentryBindingState : Set :=
| Bound (display_name : DisplayName) (revision : option RevisionSummary)
| Unbound.
#[export] Instance DirentryBindingState_eq_dec : EqDecision DirentryBindingState.
Proof. solve_decision. Defined.

Record DirentryBindingRecord := mkDirentryBindingRecord {
  db_parent_inode_id : InodeId;
  db_name_key : NameKey;
  db_child_inode_id : InodeId;
  db_child_kind : InodeKind;
  db_child_created_by : ActorId;
  db_child_created_at_ms : N;
  db_committed_seq : ChangeSeq;
  db_delta_index : N;
  db_commit_id : CommitId;
  db_committed_by : ActorId;
  db_committed_at_ms : N;
  db_bind_position : DeltaPosition;
  db_state : DirentryBindingState;
}.
#[export] Instance DirentryBindingRecord_eq_dec : EqDecision DirentryBindingRecord.
Proof. solve_decision. Defined.

(** [DirentryBindingRecord::position]. *)
Definition binding_position (record : DirentryBindingRecord) : DeltaPosition :=
  mkDeltaPosition record.(db_committed_seq) record.(db_delta_index).

(** [DirentryBindingRecord::display_name]. *)
Definition binding_display_name (record : DirentryBindingRecord) : option DisplayName :=
  match record.(db_state) with
  | Bound display_name _ => Some display_name
  | Unbound => None
  end.

(** [DirentryBindingRecord::revision]. *)
Definition binding_revision (record : DirentryBindingRecord) : option RevisionSummary :=
  match record.(db_state) with
  | Bound _ revision => revision
  | Unbound => None
  end.

(** [DirentryBindingRecord::is_bound]. *)
Definition is_bound (record : DirentryBindingRecord) : bool :=
  match record.(db_state) with Bound _ _ => true | Unbound => false end.

(** [DirentryBindingRecord::is_binding_event]. *)
Definition is_binding_event (record : DirentryBindingRecord) : bool :=
  negb (is_bound record) || bool_decide (binding_position record = record.(db_bind_position)).

Record RevisionRecord := mkRevisionRecord {
  rr_inode_id : InodeId;
  rr_revision_no : RevisionNo;
  rr_committed_seq : ChangeSeq;
  rr_commit_id : CommitId;
  rr_committed_by : ActorId;
  rr_committed_at_ms : N;
  rr_delta_index : N;
  rr_content_ref : ContentRef;
}.
#[export] Instance RevisionRecord_eq_dec : EqDecision RevisionRecord.
Proof. solve_decision. Defined.

Inductive TombstoneRowAction : Set :=
| TombSet (root_kind : InodeKind) (deleted_binding : DeletedBinding)
| TombRevoke (target : DeltaPosition).
#[export] Instance TombstoneRowAction_eq_dec : EqDecision TombstoneRowAction.
Proof. solve_decision. Defined.

(** [TombstoneRowAction::hides_subtree]. *)
Definition hides_subtree (action : TombstoneRowAction) : bool :=
  match action with TombSet _ _ => true | TombRevoke _ => false end.

Record SubtreeTombstoneRecord := mkSubtreeTombstoneRecord {
  tb_root_inode_id : InodeId;
  tb_committed_seq : ChangeSeq;
  tb_delta_index : N;
  tb_commit_id : CommitId;
  tb_action : TombstoneRowAction;
  tb_committed_by : ActorId;
  tb_committed_at_ms : N;
}.
#[export] Instance SubtreeTombstoneRecord_eq_dec : EqDecision SubtreeTombstoneRecord.
Proof. solve_decision. Defined.

(** [SubtreeTombstoneRecord::position]. *)
Definition tombstone_position (record : SubtreeTombstoneRecord) : DeltaPosition :=
  mkDeltaPosition record.(tb_committed_seq) record.(tb_delta_index).

Inductive ActiveDeletionRowAction : Set :=
| Listed (inode_kind : InodeKind) (deleted_at_ms : N) (deleted_by : ActorId)
    (deleted_binding : DeletedBinding)
| Removed (removed_seq : ChangeSeq).
#[export] Instance ActiveDeletionRowAction_eq_dec : EqDecision ActiveDeletionRowAction.
Proof. solve_decision. Defined.

Record ActiveDeletionRecord := mkActiveDeletionRecord {
  ad_root_inode_id : InodeId;
  ad_deletion_seq : ChangeSeq;
  ad_action : ActiveDeletionRowAction;
}.
#[export] Instance ActiveDeletionRecord_eq_dec : EqDecision ActiveDeletionRecord.
Proof. solve_decision. Defined.

Record ContentLayoutRecord := mkContentLayoutRecord {
  lr_content_id : ContentId;
  lr_committed_seq : ChangeSeq;
  lr_size_bytes : N;
  lr_layout : ContentLayout;
}.
#[export] Instance ContentLayoutRecord_eq_dec : EqDecision ContentLayoutRecord.
Proof. solve_decision. Defined.

Record CommitReceiptRecord := mkCommitReceiptRecord {
  rc_commit_id : CommitId;
  rc_committed_seq : ChangeSeq;
}.
#[export] Instance CommitReceiptRecord_eq_dec : EqDecision CommitReceiptRecord.
Proof. solve_decision. Defined.

Record MergeIndexRecord := mkMergeIndexRecord {
  mi_source_namespace_id : NamespaceId;
  mi_committed_seq : ChangeSeq;
  mi_source_after_seq : ChangeSeq;
  mi_source_through_seq : ChangeSeq;
}.
#[export] Instance MergeIndexRecord_eq_dec : EqDecision MergeIndexRecord.
Proof. solve_decision. Defined.

(** [MergeIndexRecord::from_commit]. *)
Definition merge_index_from_commit (commit : WalCommitPayload) : option MergeIndexRecord :=
  match commit.(wcp_merge) with
  | None => None
  | Some merge =>
      Some {| mi_source_namespace_id := merge.(mr_source_namespace_id);
              mi_committed_seq := commit.(wcp_committed_seq);
              mi_source_after_seq := merge.(mr_source_after_seq);
              mi_source_through_seq := merge.(mr_source_through_seq) |}
  end.

Record AttributesRevisionRecord := mkAttributesRevisionRecord {
  at_inode_id : InodeId;
  at_attributes_revision_no : AttributesRevisionNo;
  at_committed_seq : ChangeSeq;
  at_commit_id : CommitId;
  at_delta_index : N;
  at_committed_by : ActorId;
  at_committed_at_ms : N;
  at_attributes : Attributes;
}.
#[export] Instance AttributesRevisionRecord_eq_dec : EqDecision AttributesRevisionRecord.
Proof. solve_decision. Defined.

Record AccessRevisionRecord := mkAccessRevisionRecord {
  ac_inode_id : InodeId;
  ac_access_revision_no : AccessRevisionNo;
  ac_committed_seq : ChangeSeq;
  ac_commit_id : CommitId;
  ac_delta_index : N;
  ac_committed_by : ActorId;
  ac_committed_at_ms : N;
  ac_boundary : bool;
  ac_grants : AccessGrants;
}.
#[export] Instance AccessRevisionRecord_eq_dec : EqDecision AccessRevisionRecord.
Proof. solve_decision. Defined.

(** One metadata row stored in a segment. *)
Inductive MetadataRow : Set :=
| RowInode (record : InodeRecord)
| RowDirentryBinding (record : DirentryBindingRecord)
| RowFileRevision (record : RevisionRecord)
| RowTombstone (record : SubtreeTombstoneRecord)
| RowActiveDeletion (record : ActiveDeletionRecord)
| RowCommitReceipt (record : CommitReceiptRecord)
| RowCommit (record : WalCommitPayload)
| RowMerge (record : MergeIndexRecord)
| RowContentLayout (record : ContentLayoutRecord)
| RowAttributesRevision (record : AttributesRevisionRecord)
| RowAccessRevision (record : AccessRevisionRecord).
#[export] Instance MetadataRow_eq_dec : EqDecision MetadataRow.
Proof. solve_decision. Defined.

(** ** Facts *)

Lemma is_bound_display_name record :
  is_bound record = true ↔ ∃ name, binding_display_name record = Some name.
Proof. unfold is_bound, binding_display_name. destruct (db_state record); naive_solver. Qed.

Lemma unbound_is_binding_event record : is_bound record = false → is_binding_event record = true.
Proof. unfold is_binding_event. by intros ->. Qed.

Lemma is_binding_event_true record :
  is_binding_event record = true ↔
  is_bound record = false ∨ binding_position record = db_bind_position record.
Proof.
  unfold is_binding_event. rewrite orb_true_iff, negb_true_iff, bool_decide_eq_true. done.
Qed.

