(* ===== verification/Codec.v ===== *)
(** * Text codecs of durable keys

    The encodings every row key is built from: lowercase hexadecimal
    ([loonfs-types/src/hex.rs]), the zero-padded decimal numbers of
    [format!("{:020}")], and the lowercase Crockford base 32 bodies of
    generated IDs ([loonfs-types/src/ids.rs] and
    [loonfs-types/src/inode_id.rs]).  Each encoding is shown to preserve the
    order of what it encodes and to be read back by its decoder. *)
From S2P Require Import Prelude Types.
Local Open Scope N_scope.

(** ** Definitions *)

(** Indexing a byte-string constant.  The source masks every index it uses
    to the constant's length. *)
Definition char_at (alphabet : string) (index : N) : ascii :=
  default Ascii.zero (String.get (N.to_nat index) alphabet).

(** [slice.iter().position(|character| *character == byte)]. *)
Fixpoint char_position (alphabet : string) (byte : ascii) : option N :=
  match alphabet with
  | EmptyString => None
  | String c rest =>
      if decide (c = byte) then Some 0 else N.succ <$> char_position rest byte
  end.

(** [str::strip_prefix]. *)
Fixpoint strip_prefix (prefix value : string) : option string :=
  match prefix, value with
  | EmptyString, _ => Some value
  | String x p, String y v => if decide (x = y) then strip_prefix p v else None
  | String _ _, EmptyString => None
  end.

(** *** Hexadecimal *)
Inductive HexDecodeError : Set :=
| OddLength (length : N)
| InvalidByte (byte : ascii).
#[export] Instance HexDecodeError_eq_dec : EqDecision HexDecodeError.
Proof. solve_decision. Defined.

Definition HEX : string := "0123456789abcdef".

Fixpoint hex_encode_bytes (bytes : string) : string :=
  match bytes with
  | EmptyString => EmptyString
  | String byte rest =>
      String (char_at HEX (N.shiftr (N_of_ascii byte) 4))
        (String (char_at HEX (N.land (N_of_ascii byte) 15)) (hex_encode_bytes rest))
  end.

Definition nibble (byte : ascii) : res HexDecodeError N :=
  let b := N_of_ascii byte in
  if decide (48 ≤ b ≤ 57) then Ok (b - 48)
  else if decide (97 ≤ b ≤ 102) then Ok (b - 97 + 10)
  else Err (InvalidByte byte).

Definition is_lower_hex_byte (byte : ascii) : bool :=
  match nibble byte with Ok _ => true | _ => false end.

(** The loop over [as_chunks::<2>()]. *)
Fixpoint decode_pairs (bytes : string) : res HexDecodeError string :=
  match bytes with
  | String high (String low rest) =>
      h ← nibble high;
      l ← nibble low;
      decoded ← decode_pairs rest;
      Ok (String (ascii_of_N (N.lor (N.shiftl h 4) l)) decoded)
  | _ => Ok EmptyString
  end.

Definition hex_decode_bytes (encoded : string) : res HexDecodeError string :=
  let length := N.of_nat (String.length encoded) in
  if decide (length mod 2 = 0) then decode_pairs encoded else Err (OddLength length).

(** *** Zero-padded decimals: [format!("{:0width}", n)] *)
Fixpoint decimal_digits (fuel : nat) (n : N) (rest : string) : string :=
  match fuel with
  | O => rest
  | S fuel =>
      let rest := String (ascii_of_N (48 + n mod 10)) rest in
      if decide (n / 10 = 0) then rest else decimal_digits fuel (n / 10) rest
  end.

Fixpoint zeros (count : nat) (rest : string) : string :=
  match count with O => rest | S count => String "0" (zeros count rest) end.

(** Each division by ten at least halves the number, so its bit length is
    enough fuel. *)
Definition fmt_dec (width : nat) (n : N) : string :=
  let digits := decimal_digits (S (N.size_nat n)) n EmptyString in
  zeros (width - String.length digits)%nat digits.

(** *** Generated ID bodies *)
Definition GENERATED_ID_ALPHABET : string := "0123456789abcdefghjkmnpqrstvwxyz".
Definition GENERATED_ID_BODY_BYTES : nat := 26.

(** Position [chars - 1] comes first. *)
Fixpoint encode_base_32 (value : N) (chars : nat) : string :=
  match chars with
  | O => EmptyString
  | S position =>
      String (char_at GENERATED_ID_ALPHABET
                (N.land (N.shiftr value (5 * N.of_nat position)) 31))
        (encode_base_32 value position)
  end.

Definition encode_generated_id_body (value : N) : string :=
  encode_base_32 value GENERATED_ID_BODY_BYTES.

Fixpoint all_in_alphabet (body : string) : bool :=
  match body with
  | EmptyString => true
  | String byte rest =>
      bool_decide (is_Some (char_position GENERATED_ID_ALPHABET byte)) && all_in_alphabet rest
  end.

Definition generated_id_body_error (body : string) : option string :=
  if bool_decide (String.length body ≠ GENERATED_ID_BODY_BYTES) || negb (all_in_alphabet body) then
    Some "body must be 26 characters of the lowercase Crockford base 32 alphabet `0123456789abcdefghjkmnpqrstvwxyz`"
  else if match body with
          | String first _ => bool_decide (N_of_ascii first ≤ N_of_ascii "7")
          | EmptyString => false
          end then None
  else Some "body must start with a character from `0` through `7`".

(** [<<] on a [u128] drops the bits above bit 127. *)
Definition shl_u128 (value bits : N) : N := N.land (N.shiftl value bits) U128_MAX.

Fixpoint decode_digits (value : N) (body : string) : option N :=
  match body with
  | EmptyString => Some value
  | String byte rest =>
      digit ← char_position GENERATED_ID_ALPHABET byte;
      decode_digits (N.lor (shl_u128 value 5) digit) rest
  end.

Definition decode_generated_id_body (body : string) : option N :=
  match generated_id_body_error body with
  | Some _ => None
  | None => decode_digits 0 body
  end.

(** A validation error names the rejected value and the reason. *)
Record ValidationError := mkValidationError { ve_value : string; ve_reason : string }.
#[export] Instance ValidationError_eq_dec : EqDecision ValidationError.
Proof. solve_decision. Defined.

Definition validate_generated_id (prefix value : string) : res ValidationError unit :=
  let expected_prefix := prefix +:+ "_" in
  match strip_prefix expected_prefix value with
  | None => Err (mkValidationError value ("must start with `" +:+ expected_prefix +:+ "`"))
  | Some body =>
      match generated_id_body_error body with
      | Some reason => Err (mkValidationError value reason)
      | None => Ok ()
      end
  end.

(** *** Inode IDs *)
Definition INODE_ID_PREFIX : string := "ino_".
Definition INODE_ID_INVALID_REASON : string :=
  "must use `ino_` followed by 26 lowercase Crockford base 32 characters, the first from `0` through `7`".

(** [InodeId::generate], with the drawn random word as an argument. *)
Definition InodeId_generate (committed_seq : ChangeSeq) (create_no random_u64 : N) : InodeId :=
  let seq_bits := shl_u128 (N.land committed_seq U32_MAX) 96 in
  let create_no_bits := shl_u128 create_no 64 in
  N.lor (N.lor seq_bits create_no_bits) random_u64.

Definition InodeId_body (inode_id : InodeId) : string := encode_generated_id_body inode_id.
Definition InodeId_parse_body (body : string) : option InodeId := decode_generated_id_body body.

Definition InodeId_parse (value : string) : res ValidationError InodeId :=
  ok_or (strip_prefix INODE_ID_PREFIX value ≫= InodeId_parse_body)
    (mkValidationError value INODE_ID_INVALID_REASON).

(** [Display for InodeId]. *)
Definition InodeId_to_string (inode_id : InodeId) : string :=
  INODE_ID_PREFIX +:+ InodeId_body inode_id.

Lemma N_add_compare_mono_l k n m : (k + n ?= k + m) = (n ?= m).
Proof. destruct (N.compare_spec n m), (N.compare_spec (k + n) (k + m)); lia || done. Qed.

(** ** Positional spellings

    Both number encodings are positional: [width] digits of base [b], the
    most significant first, each spelled by [digit]. *)
Section positional.
Context (digit : N → ascii) (b : N).
Context (Hb : 1 < b).
Context (digit_mono : ∀ x y, x < b → y < b →
           (N_of_ascii (digit x) ?= N_of_ascii (digit y)) = (x ?= y)).

Fixpoint positional (width : nat) (n : N) : string :=
  match width with
  | O => EmptyString
  | S position => String (digit (n / b ^ N.of_nat position mod b)) (positional position n)
  end.

Lemma positional_length width n : String.length (positional width n) = width.
Proof. induction width; simpl; congruence. Qed.

Lemma pow_pos p : 0 < b ^ p.
Proof. apply N.neq_0_lt_0, N.pow_nonzero. lia. Qed.

Lemma mod_pow_S n p :
  n mod b ^ N.of_nat (S p) = n mod b ^ N.of_nat p + b ^ N.of_nat p * (n / b ^ N.of_nat p mod b).
Proof.
  replace (N.of_nat (S p)) with (N.succ (N.of_nat p)) by lia.
  rewrite N.pow_succ_r', (N.mul_comm b). apply N.Div0.mod_mul_r.
Qed.

(** Digits of one width compare like the numbers they spell. *)
Lemma positional_cmp_mod width n m :
  string_cmp (positional width n) (positional width m)
  = (n mod b ^ N.of_nat width ?= m mod b ^ N.of_nat width).
Proof.
  induction width as [|p IH]; [cbn; by rewrite !N.mod_1_r|].
  cbn [positional string_cmp]. rewrite IH, !mod_pow_S.
  assert (∀ k, k mod b < b) as Hlt by (intros; apply N.mod_lt; lia).
  rewrite digit_mono by apply Hlt.
  pose proof (pow_pos (N.of_nat p)) as Hp.
  assert (∀ k, k mod b ^ N.of_nat p < b ^ N.of_nat p) as Hm by (intros; apply N.mod_lt; lia).
  pose proof (Hm n) as Hn. pose proof (Hm m) as Hm'.
  set (B := b ^ N.of_nat p) in *. set (q := n / B mod b). set (q' := m / B mod b).
  set (r := n mod B) in *. set (r' := m mod B) in *. clear Hm. clearbody q q' r r' B.
  symmetry. destruct (N.compare_spec q q') as [E|E|E]; simpl.
  - rewrite E, !(N.add_comm _ (B * q')). apply N_add_compare_mono_l.
  - apply N.compare_lt_iff. assert (B * (q + 1) ≤ B * q') by (apply N.mul_le_mono_l; lia).
    lia.
  - apply N.compare_gt_iff. assert (B * (q' + 1) ≤ B * q) by (apply N.mul_le_mono_l; lia).
    lia.
Qed.

Lemma positional_cmp width n m :
  n < b ^ N.of_nat width → m < b ^ N.of_nat width →
  string_cmp (positional width n) (positional width m) = (n ?= m).
Proof. intros ??. by rewrite positional_cmp_mod, !N.mod_small. Qed.

Lemma positional_snoc width n rest :
  positional (S width) n +:+ rest
  = positional width (n / b) +:+ String (digit (n mod b)) rest.
Proof.
  induction width as [|p IH]; [by cbn; rewrite N.div_1_r|].
  change (positional (S (S p)) n) with
    (String (digit (n / b ^ N.of_nat (S p) mod b)) (positional (S p) n)).
  rewrite string_app_cons, IH. cbn [positional]. rewrite string_app_cons.
  rewrite N.Div0.div_div, Nat2N.inj_succ. by rewrite N.pow_succ_r'.
Qed.
End positional.

(** ** Decimals *)
Definition dec_digit (d : N) : ascii := ascii_of_N (48 + d).

Lemma dec_digit_mono x y : x < 10 → y < 10 →
  (N_of_ascii (dec_digit x) ?= N_of_ascii (dec_digit y)) = (x ?= y).
Proof.
  intros ??. unfold dec_digit. rewrite !N_ascii_embedding by lia.
  apply N_add_compare_mono_l.
Qed.

Lemma zeros_app count rest rest' : zeros count rest +:+ rest' = zeros count (rest +:+ rest').
Proof. induction count as [|count IH]; [done|]. simpl. by rewrite string_app_cons, IH. Qed.

Lemma zeros_snoc count rest : zeros count (String "0" rest) = zeros (S count) rest.
Proof. induction count as [|count IH]; [done|]. simpl. by rewrite IH. Qed.

Lemma positional_dec_0 width rest : positional dec_digit 10 width 0 +:+ rest = zeros width rest.
Proof.
  induction width as [|w IH]; [done|]. cbn [positional zeros].
  by rewrite string_app_cons, IH, N.Div0.div_0_l, N.Div0.mod_0_l.
Qed.

Lemma decimal_digits_positional fuel n width rest :
  n < 2 ^ N.of_nat fuel → n < 10 ^ N.of_nat (S width) →
  ∃ count, String.length (decimal_digits (S fuel) n rest) = (String.length rest + (S width - count))%nat ∧
    (count ≤ S width)%nat ∧
    positional dec_digit 10 (S width) n +:+ rest
    = zeros count (decimal_digits (S fuel) n rest).
Proof.
  revert n width rest. induction fuel as [|fuel IH]; intros n width rest Hf Hw.
  { assert (n = 0) as -> by (simpl in Hf; lia). exists width. cbn [decimal_digits].
    rewrite decide_True by done. split; [simpl; lia|]. split; [lia|].
    rewrite positional_snoc by lia. rewrite N.Div0.div_0_l, positional_dec_0. done. }
  cbn [decimal_digits]. case_decide as Hq.
  { exists width. split; [simpl; lia|]. split; [lia|].
    rewrite positional_snoc by lia. by rewrite Hq, positional_dec_0. }
  destruct width as [|w].
  { exfalso. apply Hq. apply N.div_small. simpl in Hw. lia. }
  destruct (IH (n / 10) w (String (ascii_of_N (48 + n mod 10)) rest)) as (count & HL & Hc & HE).
  - apply N.Div0.div_lt_upper_bound. rewrite Nat2N.inj_succ, N.pow_succ_r' in Hf. lia.
  - apply N.Div0.div_lt_upper_bound. rewrite (Nat2N.inj_succ (S w)), N.pow_succ_r' in Hw. lia.
  - exists count. rewrite positional_snoc by lia.
    change (ascii_of_N (48 + n mod 10)) with (dec_digit (n mod 10)) in *.
    cbn [decimal_digits] in *. rewrite HE. split; [|split; [lia|done]].
    rewrite HL. simpl. lia.
Qed.

Lemma size_nat_gt n : n < 2 ^ N.of_nat (N.size_nat n).
Proof.
  destruct n as [|p]; [done|]. cbn [N.size_nat].
  pose proof (N.size_gt (N.pos p)) as H. cbn in H.
  assert (N.pos (Pos.size p) = N.of_nat (Pos.size_nat p)) as <-; [|done].
  clear H. induction p; cbn [Pos.size Pos.size_nat]; lia.
Qed.

(** A number of at most [width] digits is spelled with exactly [width]. *)
Lemma fmt_dec_positional width n :
  (0 < width)%nat → n < 10 ^ N.of_nat width → fmt_dec width n = positional dec_digit 10 width n.
Proof.
  intros Hw Hn. destruct width as [|w]; [lia|]. unfold fmt_dec.
  destruct (decimal_digits_positional (N.size_nat n) n w "") as (count & HL & Hc & HE); auto.
  { apply size_nat_gt. }
  rewrite string_app_nil_r in HE. rewrite HE, HL. f_equal. simpl. lia.
Qed.

Lemma fmt_dec_length width n :
  (0 < width)%nat → n < 10 ^ N.of_nat width → String.length (fmt_dec width n) = width.
Proof. intros ??. by rewrite fmt_dec_positional, positional_length. Qed.

Lemma fmt_dec_cmp width n m :
  (0 < width)%nat → n < 10 ^ N.of_nat width → m < 10 ^ N.of_nat width →
  string_cmp (fmt_dec width n) (fmt_dec width m) = (n ?= m).
Proof.
  intros ???. rewrite !fmt_dec_positional by done.
  apply positional_cmp; [lia|apply dec_digit_mono|done..].
Qed.

(** ** Bit arithmetic *)
Lemma land_ones_mod n k : N.land n (2 ^ k - 1) = n mod 2 ^ k.
Proof. rewrite <-N.land_ones, N.ones_equiv. f_equal. lia. Qed.

Lemma shiftl_low_disjoint a k d : d < 2 ^ k → N.land (a * 2 ^ k) d = 0.
Proof.
  intros Hd. apply N.bits_inj_0. intros i. rewrite N.land_spec.
  destruct (decide (i < k)) as [Hi|Hi].
  - by rewrite N.mul_pow2_bits_low.
  - destruct (decide (d = 0)) as [->|Hz]; [by rewrite N.bits_0, andb_false_r|].
    rewrite (N.bits_above_log2 d i); [apply andb_false_r|].
    apply N.log2_lt_pow2; [lia|]. eapply N.lt_le_trans; [done|].
    apply N.pow_le_mono_r; lia.
Qed.

(** Shifting a value and filling the freed low bits adds them. *)
Lemma lor_shift_add a k d : d < 2 ^ k → N.lor (a * 2 ^ k) d = a * 2 ^ k + d.
Proof.
  intros Hd. pose proof (shiftl_low_disjoint a k d Hd) as E.
  by rewrite N.add_nocarry_lxor, N.lxor_lor.
Qed.

Lemma shl_u128_small a k : a * 2 ^ k ≤ U128_MAX → shl_u128 a k = a * 2 ^ k.
Proof.
  intros H. unfold shl_u128, U128_MAX in *. rewrite land_ones_mod, N.shiftl_mul_pow2.
  apply N.mod_small. lia.
Qed.

(** ** Alphabets *)
Lemma char_position_Some alphabet c d :
  char_position alphabet c = Some d → d < N.of_nat (String.length alphabet) ∧ char_at alphabet d = c.
Proof.
  revert d. induction alphabet as [|x rest IH]; intros d; simpl; [done|].
  case_decide as E; [intros [= <-]; subst; split; [lia|done]|].
  destruct (char_position rest c) as [e|]; simpl; [|done]. intros [= <-].
  destruct (IH e) as [H1 H2]; [done|]. split; [lia|].
  unfold char_at in *. rewrite N2Nat.inj_succ. done.
Qed.

(** The alphabet spells its digits in byte order and reads them back. *)
Definition alphabet_ok (alphabet : string) : Prop :=
  let digits := N.of_nat <$> seq 0 (String.length alphabet) in
  Forall (λ x, char_position alphabet (char_at alphabet x) = Some x ∧
    Forall (λ y, (N_of_ascii (char_at alphabet x) ?= N_of_ascii (char_at alphabet y)) = (x ?= y))
      digits) digits.

Lemma alphabet_ok_digit alphabet x :
  x < N.of_nat (String.length alphabet) → x ∈ N.of_nat <$> seq 0 (String.length alphabet).
Proof.
  intros Hx. apply list_elem_of_fmap. exists (N.to_nat x). rewrite elem_of_seq. lia.
Qed.

Lemma alphabet_ok_position alphabet x :
  alphabet_ok alphabet → x < N.of_nat (String.length alphabet) →
  char_position alphabet (char_at alphabet x) = Some x.
Proof.
  intros Hok Hx. unfold alphabet_ok in Hok. rewrite Forall_forall in Hok.
  by apply Hok, alphabet_ok_digit.
Qed.

Lemma alphabet_ok_mono alphabet x y :
  alphabet_ok alphabet →
  x < N.of_nat (String.length alphabet) → y < N.of_nat (String.length alphabet) →
  (N_of_ascii (char_at alphabet x) ?= N_of_ascii (char_at alphabet y)) = (x ?= y).
Proof.
  intros Hok Hx Hy. unfold alphabet_ok in Hok. rewrite Forall_forall in Hok.
  destruct (Hok x) as [_ H]; [by apply alphabet_ok_digit|].
  rewrite Forall_forall in H. by apply H, alphabet_ok_digit.
Qed.

Lemma HEX_ok : alphabet_ok HEX.
Proof. apply (bool_decide_unpack _). vm_compute. exact I. Qed.

Lemma GENERATED_ID_ALPHABET_ok : alphabet_ok GENERATED_ID_ALPHABET.
Proof. apply (bool_decide_unpack _). vm_compute. exact I. Qed.

(** ** Base 32 bodies *)
Lemma encode_base_32_positional value chars :
  encode_base_32 value chars = positional (char_at GENERATED_ID_ALPHABET) 32 chars value.
Proof.
  induction chars as [|p IH]; [done|]. cbn [encode_base_32 positional]. rewrite IH.
  rewrite N.shiftr_div_pow2, N.pow_mul_r. change (2 ^ 5) with 32.
  change 31 with (2 ^ 5 - 1). rewrite land_ones_mod. done.
Qed.

Lemma InodeId_body_length inode_id : String.length (InodeId_body inode_id) = 26%nat.
Proof. unfold InodeId_body, encode_generated_id_body. by rewrite encode_base_32_positional, positional_length. Qed.

(** The byte order of two bodies is the numeric order of the IDs. *)
Lemma InodeId_body_cmp a b :
  a ≤ U128_MAX → b ≤ U128_MAX → string_cmp (InodeId_body a) (InodeId_body b) = (a ?= b).
Proof.
  intros Ha Hb. unfold InodeId_body, encode_generated_id_body. rewrite !encode_base_32_positional.
  assert (U128_MAX < 32 ^ N.of_nat GENERATED_ID_BODY_BYTES) by done.
  apply positional_cmp; [lia| |lia..].
  intros. apply alphabet_ok_mono; [apply GENERATED_ID_ALPHABET_ok|done..].
Qed.

Lemma shl5_lor value digit :
  value * 32 ≤ U128_MAX → digit < 32 → N.lor (shl_u128 value 5) digit = value * 32 + digit.
Proof.
  intros Hv Hd. change 32 with (2 ^ 5) in *. rewrite shl_u128_small by done. by apply lor_shift_add.
Qed.

Lemma decode_digits_encode value chars acc :
  acc * 32 ^ N.of_nat chars + value mod 32 ^ N.of_nat chars ≤ U128_MAX →
  decode_digits acc (encode_base_32 value chars)
  = Some (acc * 32 ^ N.of_nat chars + value mod 32 ^ N.of_nat chars).
Proof.
  rewrite encode_base_32_positional. revert acc.
  induction chars as [|p IH]; intros acc Hle.
  { cbn. by rewrite N.mod_1_r, N.mul_1_r, N.add_0_r. }
  rewrite mod_pow_S in Hle |- * by lia.
  assert (value / 32 ^ N.of_nat p mod 32 < 32) as Hd by (apply N.mod_lt; lia).
  set (d := value / 32 ^ N.of_nat p mod 32) in *.
  cbn [positional decode_digits]. fold d.
  rewrite alphabet_ok_position by (done || apply GENERATED_ID_ALPHABET_ok). cbn [mbind option_bind].
  rewrite (Nat2N.inj_succ p), N.pow_succ_r' in *.
  set (B := 32 ^ N.of_nat p) in *. assert (0 < B) by (by apply pow_pos).
  assert (acc * 32 ≤ acc * (32 * B)) by (apply N.mul_le_mono_l; lia).
  set (r := value mod B) in *. clearbody r d B.
  rewrite shl5_lor by lia. rewrite IH by lia. f_equal. lia.
Qed.

Lemma decode_digits_Some body acc value :
  decode_digits acc body = Some value →
  (acc + 1) * 32 ^ N.of_nat (String.length body) ≤ U128_MAX + 1 →
  value / 32 ^ N.of_nat (String.length body) = acc ∧
  encode_base_32 value (String.length body) = body.
Proof.
  rewrite encode_base_32_positional. revert acc.
  induction body as [|c body IH]; intros acc; cbn [decode_digits String.length positional].
  { intros [= <-] _. cbn. by rewrite N.div_1_r. }
  destruct (char_position GENERATED_ID_ALPHABET c) as [d|] eqn:Ed; cbn [mbind option_bind]; [|done].
  apply char_position_Some in Ed as [Hd Hc]. change (N.of_nat _) with 32 in Hd.
  rewrite (Nat2N.inj_succ (String.length body)), N.pow_succ_r'.
  set (B := 32 ^ N.of_nat (String.length body)). assert (0 < B) by (by apply pow_pos).
  intros Hdec Hle.
  assert ((acc * 32 + d + 1) * B ≤ (acc + 1) * (32 * B)).
  { rewrite N.mul_assoc. apply N.mul_le_mono_r. lia. }
  assert ((acc + 1) * 32 ≤ (acc + 1) * (32 * B)) by (apply N.mul_le_mono_l; lia).
  rewrite shl5_lor in Hdec by (unfold U128_MAX in *; lia).
  destruct (IH _ Hdec) as [Hq He]; [unfold B in *; lia|]. fold B in Hq. rewrite He, Hq.
  split.
  - rewrite N.mul_comm, <-N.Div0.div_div, Hq. rewrite N.div_add_l by lia.
    rewrite N.div_small; lia.
  - f_equal. rewrite N.add_comm, N.Div0.mod_add, N.mod_small; done.
Qed.

Lemma all_in_alphabet_positional width value :
  all_in_alphabet (positional (char_at GENERATED_ID_ALPHABET) 32 width value) = true.
Proof.
  induction width as [|p IH]; [done|]. cbn [positional all_in_alphabet].
  rewrite IH, alphabet_ok_position; [done|apply GENERATED_ID_ALPHABET_ok|].
  by apply N.mod_lt.
Qed.

Lemma first_digit_le_7 c d :
  char_position GENERATED_ID_ALPHABET c = Some d →
  bool_decide (N_of_ascii c ≤ N_of_ascii "7") = bool_decide (d ≤ 7).
Proof.
  intros [Hd <-]%char_position_Some. change "7"%char with (char_at GENERATED_ID_ALPHABET 7).
  apply bool_decide_ext. rewrite <-!N.compare_le_iff.
  rewrite alphabet_ok_mono; [done|apply GENERATED_ID_ALPHABET_ok|done|done].
Qed.

Lemma encoded_body_valid value :
  value ≤ U128_MAX → generated_id_body_error (encode_generated_id_body value) = None.
Proof.
  intros Hv. unfold generated_id_body_error, encode_generated_id_body.
  rewrite encode_base_32_positional, positional_length, all_in_alphabet_positional.
  rewrite bool_decide_false by naive_solver. cbn [orb negb].
  change GENERATED_ID_BODY_BYTES with 26%nat. cbn [positional].
  rewrite (first_digit_le_7 _ (value / 32 ^ N.of_nat 25 mod 32)).
  - rewrite bool_decide_true; [done|].
    assert (value / 32 ^ N.of_nat 25 ≤ 7).
    { apply N.lt_succ_r, N.Div0.div_lt_upper_bound. unfold U128_MAX in Hv.
      change (32 ^ N.of_nat 25 * N.succ 7) with (2 ^ 128). lia. }
    rewrite N.mod_small; [done|]. eapply N.le_lt_trans; [done|done].
  - apply alphabet_ok_position; [apply GENERATED_ID_ALPHABET_ok|]. by apply N.mod_lt.
Qed.

(** A body decodes exactly when it is the spelling of a 128-bit number, and
    then to that number. *)
Lemma decode_encode_body value :
  value ≤ U128_MAX → decode_generated_id_body (encode_generated_id_body value) = Some value.
Proof.
  intros Hv. unfold decode_generated_id_body. rewrite encoded_body_valid by done.
  unfold encode_generated_id_body.
  assert (value < 32 ^ N.of_nat GENERATED_ID_BODY_BYTES).
  { eapply N.le_lt_trans; [done|]. done. }
  rewrite decode_digits_encode; rewrite N.mod_small by done; [f_equal|]; lia.
Qed.

Lemma decode_body_Some body value :
  decode_generated_id_body body = Some value →
  value ≤ U128_MAX ∧ encode_generated_id_body value = body.
Proof.
  unfold decode_generated_id_body, generated_id_body_error.
  destruct (bool_decide (String.length body ≠ GENERATED_ID_BODY_BYTES)) eqn:EL; [done|].
  apply bool_decide_eq_false in EL. cbn [orb].
  assert (String.length body = GENERATED_ID_BODY_BYTES) as HL by (by destruct (decide (String.length body = GENERATED_ID_BODY_BYTES))).
  destruct (all_in_alphabet body); [|done]. cbn [negb].
  destruct body as [|c body]; [done|]. injection HL as HL.
  destruct (bool_decide (N_of_ascii c ≤ N_of_ascii "7")) eqn:E7; [|done].
  cbn [decode_digits].
  destruct (char_position GENERATED_ID_ALPHABET c) as [d|] eqn:Ed; [|done]. cbn [mbind option_bind].
  rewrite (first_digit_le_7 _ _ Ed) in E7. apply bool_decide_eq_true in E7.
  apply char_position_Some in Ed as [Hd Hc].
  change (shl_u128 0 5) with 0. rewrite N.lor_0_l. intros Hdec.
  apply decode_digits_Some in Hdec as [Hq He].
  2: { rewrite HL. change (32 ^ N.of_nat 25) with (2 ^ 125). unfold U128_MAX. lia. }
  unfold encode_generated_id_body, GENERATED_ID_BODY_BYTES. rewrite HL in *.
  split.
  - apply N.lt_succ_r. pose proof (N.mul_succ_div_gt value (32 ^ N.of_nat 25)) as Hgt.
    rewrite Hq in Hgt. change (32 ^ N.of_nat 25) with (2 ^ 125) in *. unfold U128_MAX. lia.
  - rewrite encode_base_32_positional in He |- *. cbn [positional] in He |- *.
    f_equal; [|done]. rewrite Hq, N.mod_small; [done|lia].
Qed.

Lemma strip_prefix_app prefix rest : strip_prefix prefix (prefix +:+ rest) = Some rest.
Proof. induction prefix as [|c p IH]; [done|]. rewrite string_app_cons. simpl. by rewrite decide_True. Qed.

Lemma strip_prefix_Some prefix value rest :
  strip_prefix prefix value = Some rest → value = prefix +:+ rest.
Proof.
  revert value. induction prefix as [|c p IH]; intros value; simpl; [by intros [= <-]|].
  destruct value as [|d value]; [done|]. case_decide as E; [|done]. subst.
  intros ->%IH. done.
Qed.

(** The public spelling of an inode ID is canonical: [InodeId_parse]
    accepts a string exactly when it is the spelling [InodeId_to_string] of a
    128-bit ID, and returns that ID; every other string is refused with the
    grammar's reason. *)
Theorem inode_id_parse_exact (value : string) :
  (∀ inode_id, InodeId_parse value = Ok inode_id ↔
     inode_id ≤ U128_MAX ∧ value = InodeId_to_string inode_id) ∧
  ((∃ inode_id, InodeId_parse value = Ok inode_id) ∨
   InodeId_parse value = Err (mkValidationError value INODE_ID_INVALID_REASON)).
Proof.
  unfold InodeId_parse, InodeId_parse_body, InodeId_to_string, InodeId_body. split.
  - intros inode_id. split.
    + destruct (strip_prefix INODE_ID_PREFIX value) as [body|] eqn:Es; [|done]. cbn.
      destruct (decode_generated_id_body body) as [id|] eqn:Ed; [|done]. cbn. intros [= ->].
      apply decode_body_Some in Ed as [Hle <-]. by apply strip_prefix_Some in Es.
    + intros [Hle ->]. rewrite strip_prefix_app. cbn [mbind option_bind ok_or]. by rewrite decode_encode_body.
  - destruct (strip_prefix INODE_ID_PREFIX value ≫= decode_generated_id_body) as [id|]; cbn; eauto.
Qed.

(** A generated inode ID fits in 128 bits, is never the root's ID, and
    splits back into the low 32 bits of the commit's sequence, the create
    number and the random word. *)
Theorem inode_id_generate_fields (committed_seq create_no random_u64 : N)
  (Hcreate : 0 < create_no ≤ U32_MAX) (Hrandom : random_u64 ≤ U64_MAX) :
  let id := InodeId_generate committed_seq create_no random_u64 in
  id ≤ U128_MAX ∧ id ≠ ROOT_INODE_ID ∧
  id / 2 ^ 96 = committed_seq mod 2 ^ 32 ∧
  id / 2 ^ 64 mod 2 ^ 32 = create_no ∧
  id mod 2 ^ 64 = random_u64.
Proof.
  cbv zeta. unfold InodeId_generate, U32_MAX, U64_MAX in *. rewrite land_ones_mod.
  assert (committed_seq mod 2 ^ 32 < 2 ^ 32) as Hseq by (apply N.mod_lt; lia).
  set (seq := committed_seq mod 2 ^ 32) in *. clearbody seq.
  rewrite !shl_u128_small by (unfold U128_MAX; lia).
  replace (seq * 2 ^ 96) with (seq * 2 ^ 32 * 2 ^ 64) by lia.
  replace (N.lor (seq * 2 ^ 32 * 2 ^ 64) (create_no * 2 ^ 64))
    with ((seq * 2 ^ 32 + create_no) * 2 ^ 64).
  2: { rewrite <-lor_shift_add by lia. rewrite <-!N.shiftl_mul_pow2. by rewrite N.shiftl_lor. }
  rewrite lor_shift_add by lia. set (hi := seq * 2 ^ 32 + create_no).
  assert ((hi * 2 ^ 64 + random_u64) / 2 ^ 64 = hi) as Hdiv.
  { rewrite N.div_add_l by lia. rewrite N.div_small; lia. }
  unfold U128_MAX, ROOT_INODE_ID. split_and!; [unfold hi; lia|unfold hi; lia| | |].
  - change (2 ^ 96) with (2 ^ 64 * 2 ^ 32). rewrite <-N.Div0.div_div, Hdiv. unfold hi.
    rewrite N.div_add_l by lia. rewrite N.div_small; lia.
  - rewrite Hdiv. unfold hi. rewrite N.add_comm, N.Div0.mod_add, N.mod_small; lia.
  - rewrite N.add_comm, N.Div0.mod_add, N.mod_small; lia.
Qed.

Lemma inode_id_generate_fields_witness :
  InodeId_generate (2 ^ 32 + 5) 1 9 / 2 ^ 96 = 5 ∧ InodeId_generate (2 ^ 32 + 5) 1 9 ≠ ROOT_INODE_ID.
Proof.
  destruct (inode_id_generate_fields (2 ^ 32 + 5) 1 9) as (_ & H1 & H2 & _);
    [done|done|]. split; [exact H2|exact H1].
Defined.

(** ** Hexadecimal *)
Lemma byte_lt c : N_of_ascii c < 256.
Proof. apply N_ascii_bounded. Qed.

Lemma byte_nibbles b :
  N.shiftr b 4 = b / 16 ∧ N.land b 15 = b mod 16.
Proof.
  split; [by rewrite N.shiftr_div_pow2|]. change 15 with (2 ^ 4 - 1). by rewrite land_ones_mod.
Qed.

Lemma byte_cmp_nibbles x y :
  (x ?= y) = lex (x / 16 ?= y / 16) (x mod 16 ?= y mod 16).
Proof.
  pose proof (N.div_mod' x 16) as Hx. pose proof (N.div_mod' y 16) as Hy.
  assert (x mod 16 < 16 ∧ y mod 16 < 16) as [? ?] by (split; by apply N.mod_lt).
  set (q := x / 16) in *. set (r := x mod 16) in *.
  set (q' := y / 16) in *. set (r' := y mod 16) in *. clearbody q r q' r'. subst x y.
  destruct (N.compare_spec q q') as [->| |]; simpl.
  - apply N_add_compare_mono_l.
  - apply N.compare_lt_iff. lia.
  - apply N.compare_gt_iff. lia.
Qed.

Lemma hex_digit_mono x y : x < 16 → y < 16 →
  (N_of_ascii (char_at HEX x) ?= N_of_ascii (char_at HEX y)) = (x ?= y).
Proof. intros. apply alphabet_ok_mono; [apply HEX_ok|done..]. Qed.

Lemma nibble_bounds c : N_of_ascii c / 16 < 16 ∧ N_of_ascii c mod 16 < 16.
Proof.
  split; [apply N.Div0.div_lt_upper_bound, byte_lt|by apply N.mod_lt].
Qed.

Lemma hex_encode_cons c s :
  hex_encode_bytes (String c s)
  = String (char_at HEX (N_of_ascii c / 16))
      (String (char_at HEX (N_of_ascii c mod 16)) (hex_encode_bytes s)).
Proof. cbn [hex_encode_bytes]. by destruct (byte_nibbles (N_of_ascii c)) as [-> ->]. Qed.

(** The separator sorts before every hexadecimal digit. *)
Lemma dash_lt_hex d : d < 16 → (N_of_ascii "-" ?= N_of_ascii (char_at HEX d)) = Lt.
Proof.
  intros Hd. apply N.compare_lt_iff.
  assert (N_of_ascii (char_at HEX 0) ≤ N_of_ascii (char_at HEX d)) as Hle.
  { unfold N.le. rewrite hex_digit_mono by done. by destruct d. }
  by eapply N.lt_le_trans, Hle.
Qed.

(** Hexadecimal components that end in the separator compare like the
    strings they encode, and before everything that follows them. *)
Lemma hex_component_cmp a b x y :
  string_cmp (hex_encode_bytes a +:+ String "-" x) (hex_encode_bytes b +:+ String "-" y)
  = lex (string_cmp a b) (string_cmp x y).
Proof.
  revert b. induction a as [|c a IH]; intros [|d b].
  - done.
  - rewrite hex_encode_cons, string_app_cons. change (hex_encode_bytes "" +:+ String "-" x) with (String "-" x).
    cbn [string_cmp]. by rewrite dash_lt_hex by apply nibble_bounds.
  - rewrite hex_encode_cons, string_app_cons. change (hex_encode_bytes "" +:+ String "-" y) with (String "-" y).
    cbn [string_cmp]. rewrite N.compare_antisym, dash_lt_hex by apply nibble_bounds. done.
  - rewrite !hex_encode_cons, !string_app_cons. cbn [string_cmp]. rewrite IH.
    destruct (nibble_bounds c), (nibble_bounds d).
    rewrite !hex_digit_mono by done.
    rewrite (byte_cmp_nibbles (N_of_ascii c)).
    by destruct (N_of_ascii c / 16 ?= N_of_ascii d / 16), (N_of_ascii c mod 16 ?= N_of_ascii d mod 16).
Qed.

Lemma nibble_char_position c :
  nibble c = match char_position HEX c with Some d => Ok d | None => Err (InvalidByte c) end.
Proof. destruct c as [[] [] [] [] [] [] [] []]; vm_compute; reflexivity. Qed.

Lemma byte_of_nibbles h l : h < 16 → l < 16 →
  N.lor (N.shiftl h 4) l = h * 16 + l.
Proof. intros. rewrite N.shiftl_mul_pow2. by apply lor_shift_add. Qed.

Lemma decode_pairs_encode bytes : decode_pairs (hex_encode_bytes bytes) = Ok bytes.
Proof.
  induction bytes as [|c s IH]; [done|]. rewrite hex_encode_cons. cbn [decode_pairs].
  destruct (nibble_bounds c) as [H1 H2].
  rewrite !nibble_char_position, !alphabet_ok_position by (done || apply HEX_ok).
  cbn [mbind res_bind]. rewrite IH. cbn [mbind res_bind]. rewrite byte_of_nibbles by done.
  rewrite (N.mul_comm (N_of_ascii c / 16)), <-N.div_mod'. by rewrite ascii_N_embedding.
Qed.

Lemma hex_encode_length bytes : String.length (hex_encode_bytes bytes) = (2 * String.length bytes)%nat.
Proof. induction bytes as [|c s IH]; [done|]. simpl. rewrite IH. lia. Qed.

Lemma decode_pairs_Ok n encoded bytes :
  String.length encoded = (2 * n)%nat →
  decode_pairs encoded = Ok bytes → hex_encode_bytes bytes = encoded.
Proof.
  revert encoded bytes. induction n as [|n IH]; intros encoded bytes HL.
  { destruct encoded; [|done]. by intros [= <-]. }
  destruct encoded as [|h [|l rest]]; [done|simpl in HL; lia|].
  cbn [decode_pairs]. rewrite !nibble_char_position.
  destruct (char_position HEX h) as [dh|] eqn:Eh; [|done].
  destruct (char_position HEX l) as [dl|] eqn:El; [|done]. cbn [mbind res_bind].
  destruct (decode_pairs rest) as [s| | |] eqn:Er; try done. cbn [mbind res_bind].
  intros [= <-]. apply char_position_Some in Eh as [Hh <-]. apply char_position_Some in El as [Hl <-].
  change (N.of_nat (String.length HEX)) with 16 in *.
  rewrite hex_encode_cons, byte_of_nibbles by done. rewrite N_ascii_embedding by lia.
  rewrite N.div_add_l by lia. rewrite N.div_small, N.add_0_r by done.
  rewrite N.add_comm, N.Div0.mod_add, N.mod_small by done.
  rewrite (IH rest s); [done|simpl in HL; lia|done].
Qed.

Lemma decode_pairs_total n encoded :
  (String.length encoded = 2 * n)%nat →
  (∃ bytes, decode_pairs encoded = Ok bytes) ∨
  (∃ c, decode_pairs encoded = Err (InvalidByte c) ∧ is_lower_hex_byte c = false).
Proof.
  revert encoded. induction n as [|n IH]; intros encoded HL.
  { destruct encoded; [|done]. left. by eexists. }
  destruct encoded as [|h [|l rest]]; [done|simpl in HL; lia|].
  destruct (IH rest) as [[s Hs]|(c & Hc & Hb)]; [simpl in HL; lia| |];
    cbn [decode_pairs]; unfold is_lower_hex_byte; rewrite !nibble_char_position;
    destruct (char_position HEX h) eqn:Eh; cbn [mbind res_bind];
    try (right; eexists; split; [done|by rewrite nibble_char_position, Eh]);
    destruct (char_position HEX l) eqn:El; cbn [mbind res_bind];
    try (right; eexists; split; [done|by rewrite nibble_char_position, El]).
  - rewrite Hs. left. by eexists.
  - rewrite Hc. right. by eexists.
Qed.

Lemma hex_decode_encode bytes : hex_decode_bytes (hex_encode_bytes bytes) = Ok bytes.
Proof.
  unfold hex_decode_bytes. rewrite decide_True; [apply decode_pairs_encode|].
  rewrite hex_encode_length, Nat2N.inj_mul, N.mul_comm. apply N.Div0.mod_mul.
Qed.

(** [hex_decode_bytes] inverts [hex_encode_bytes] and accepts nothing
    else: it returns [bytes] exactly on the encoding of [bytes], and it
    refuses every other string either for its odd length or for a byte
    outside the lowercase hexadecimal alphabet. *)
Theorem hex_decode_exact (encoded : string) :
  (∀ bytes, hex_decode_bytes encoded = Ok bytes ↔ encoded = hex_encode_bytes bytes) ∧
  ((∃ bytes, hex_decode_bytes encoded = Ok bytes) ∨
   hex_decode_bytes encoded = Err (OddLength (N.of_nat (String.length encoded))) ∨
   ∃ c, hex_decode_bytes encoded = Err (InvalidByte c) ∧ is_lower_hex_byte c = false).
Proof.
  unfold hex_decode_bytes. split.
  - intros bytes. split.
    + case_decide as E; [|done]. apply N.Div0.mod_divides in E as [k Hk]. intros Hd.
      symmetry. apply (decode_pairs_Ok (N.to_nat k)); [lia|done].
    + intros ->. apply hex_decode_encode.
  - case_decide as E; [|by right; left].
    apply N.Div0.mod_divides in E as [k Hk].
    destruct (decode_pairs_total (N.to_nat k) encoded) as [?|?]; [lia|by left|by right; right].
Qed.
