(* ===== verification/SegmentBlocks.v ===== *)
(** * Segment blocks

    [loonfs-types/src/segment_blocks.rs]: the block encoding of metadata and
    index segments.  Data blocks hold rows in key order with prefix-compressed
    keys and restart points, then come the filter and the index.

    zstd, CRC-32C, xxHash and CBOR are library code: [SectionCodecs] and
    [Cbor] are their operations, and the laws state that decompression and
    decoding undo compression and encoding.  A byte string is a list of
    [ascii]; lengths and offsets are [N], and the sums of lengths that a
    process can hold in memory are not wrapped. *)
From S2P Require Import Prelude Types Utf8 Codec.
Local Open Scope N_scope.

(** ** Library codecs *)
Class Cbor (R : Type) := {
  cbor_encode : R → res string bytes;
  cbor_decode : bytes → res string R;
}.
Class CborLaw (R : Type) `{Cbor R} : Prop :=
  cbor_roundtrip : ∀ (row : R) encoded, cbor_encode row = Ok encoded → cbor_decode encoded = Ok row.

(** [zstd_read stored limit] is the decoder's output through [take(limit)]. *)
Class SectionCodecs := {
  zstd_compress : bytes → res string bytes;
  zstd_read : bytes → N → res string bytes;
  crc32c : bytes → N;
  xxh64 : bytes → N → N;
}.
Class SectionCodecLaws `{SectionCodecs} : Prop :=
  zstd_roundtrip : ∀ payload stored limit,
    zstd_compress payload = Ok stored → zstd_read stored limit = Ok (take (N.to_nat limit) payload).

(** ** Constants *)
Definition DEFAULT_TARGET_BLOCK_BYTES : N := 64 * 1024.
Definition RESTART_INTERVAL : N := 16.
Definition DEFAULT_MAX_INLINE_FILTER_BYTES : N := 1024.
Definition FILTER_BITS_PER_KEY : N := 10.
Definition FILTER_HASH_COUNT : N := 7.
Definition EXTENT_FILTER_BITS_PER_KEY : N := 20.
Definition FILTER_HASH_SEED_ONE : N := 0.
Definition FILTER_HASH_SEED_TWO : N := 0x9e3779b97f4a7c15.

(** ** Types *)
Record BlockHandle := mkBlockHandle {
  bh_offset : N;
  bh_stored_bytes : N;
  bh_decoded_bytes : N;
  bh_crc32c : N;
}.

Record SegmentIndexEntry := mkSegmentIndexEntry {
  sie_last_row_key : string;
  sie_block : BlockHandle;
}.

Record BuiltSegmentBlocks := mkBuiltSegmentBlocks {
  bsb_bytes : bytes;
  bsb_index : BlockHandle;
  bsb_filter : BlockHandle;
  bsb_extent_filter : option BlockHandle;
  bsb_row_count : N;
  bsb_min_row_key : string;
  bsb_max_row_key : string;
}.

Record DecodedDataBlock (R : Type) := mkDecodedDataBlock {
  ddb_row_keys : list string;
  ddb_rows : list R;
}.
Arguments mkDecodedDataBlock {R}. Arguments ddb_row_keys {R}. Arguments ddb_rows {R}.

Record SegmentFilter := mkSegmentFilter {
  sf_n_hashes : N;
  sf_bit_len : N;
  sf_bits : bytes;
}.

Inductive SegmentBlockCodecError : Set :=
| EmptySegment
| RowKeysOutOfOrder (previous offered : string)
| StoredLengthMismatch (expected actual : N)
| ChecksumMismatch (expected actual : N)
| DecodedLengthMismatch (expected actual : N)
| Malformed (message : string)
| CodecFailed (message : string).

Definition blen (l : bytes) : N := N.of_nat (length l).
Definition as_bytes (s : string) : bytes := String.list_ascii_of_string s.
Definition of_bytes (l : bytes) : string := String.string_of_list_ascii l.
Definition byte (n : N) : ascii := ascii_of_N n.

(** [u32::to_le_bytes], [u64::to_le_bytes] and their inverses. *)
Fixpoint to_le_bytes (count : nat) (value : N) : bytes :=
  match count with
  | O => []
  | S count => byte (value mod 256) :: to_le_bytes count (value / 256)
  end.
Fixpoint from_le_bytes (l : bytes) : N :=
  match l with
  | [] => 0
  | a :: l => N_of_ascii a + 256 * from_le_bytes l
  end.

(** [BuiltSegmentBlocks::inline_filter_hex]; slicing panics past the end. *)
Definition inline_filter_hex (built : BuiltSegmentBlocks) : res SegmentBlockCodecError (option string) :=
  if built.(bsb_filter).(bh_stored_bytes) <=? DEFAULT_MAX_INLINE_FILTER_BYTES then
    let start := built.(bsb_filter).(bh_offset) in
    if start + built.(bsb_filter).(bh_stored_bytes) <=? blen built.(bsb_bytes) then
      Ok (Some (hex_encode_bytes (of_bytes
        (take (N.to_nat built.(bsb_filter).(bh_stored_bytes)) (drop (N.to_nat start) built.(bsb_bytes))))))
    else Panic
  else Ok None.

(** ** Key ranges *)

(** [key_range_may_intersect]. *)
Definition key_range_may_intersect (min_row_key max_row_key : string) (row_count : N)
    (lower_bound : string) (upper_bound : option string) : bool :=
  negb (row_count =? 0)
  && bool_decide (kle lower_bound max_row_key)
  && match upper_bound with
     | None => true
     | Some upper_bound => bool_decide (cmp min_row_key upper_bound = Lt)
     end.

(** The loop of [string_prefix_upper_bound], from the last byte down: the
    bytes before and at the last byte below [0xff], which is incremented. *)
Fixpoint increment_last (l : bytes) : option bytes :=
  match l with
  | [] => None
  | a :: l =>
      match increment_last l with
      | Some incremented => Some (a :: incremented)
      | None => if N_of_ascii a =? 0xff then None else Some [byte (N_of_ascii a + 1)]
      end
  end.

(** [string_prefix_upper_bound]; [String::from_utf8(bytes).ok()]. *)
Definition string_prefix_upper_bound (prefix : string) : option string :=
  match increment_last (as_bytes prefix) with
  | Some incremented => if utf8_valid incremented then Some (of_bytes incremented) else None
  | None => None
  end.

(** [partition_point]: the number of leading entries that satisfy [p], on a
    slice that [p] partitions. *)
Fixpoint partition_point {A} (p : A → bool) (l : list A) : nat :=
  match l with
  | [] => O
  | a :: l => if p a then S (partition_point p l) else O
  end.

(** [index_blocks_for_key_range]: the half-open range of positions. *)
Definition index_blocks_for_key_range (index : list SegmentIndexEntry) (lower_bound : string)
    (upper_bound : option string) : nat * nat :=
  let start := partition_point (λ e, bool_decide (cmp e.(sie_last_row_key) lower_bound = Lt)) index in
  let stop :=
    match upper_bound with
    | None => length index
    | Some upper_bound =>
        Nat.min
          (S (partition_point (λ e, bool_decide (cmp e.(sie_last_row_key) upper_bound = Lt)) index))
          (length index)
    end in
  (start, Nat.max stop start).

(** ** Varints *)

(** The loop of [write_varint]; every round shifts out seven bits, so the
    value's bit length is enough fuel. *)
Fixpoint varint_loop (fuel : nat) (value : N) : bytes :=
  match fuel with
  | O => []
  | S fuel =>
      let low := N.land value 0x7f in
      let value := N.shiftr value 7 in
      if value =? 0 then [byte low] else byte (N.lor low 0x80) :: varint_loop fuel value
  end.
Definition write_varint (buffer : bytes) (value : N) : bytes :=
  buffer ++ varint_loop (S (N.size_nat value)) value.

(** The loop of [read_varint]: the tenth byte is the last, since [shift] is
    then 63 and the byte is at most one. *)
Fixpoint read_varint_loop (fuel : nat) (buffer : bytes) (cursor : nat) (value shift : N)
    : res SegmentBlockCodecError (N * nat) :=
  match fuel with
  | O => OutOfFuel
  | S fuel =>
      b ← ok_or (buffer !! cursor) (Malformed "varint runs past the block");
      let b := N_of_ascii b in
      let cursor := S cursor in
      if (shift =? 63) && (1 <? b) then Err (Malformed "varint exceeds 64 bits")
      else
        let value := N.lor value (N.shiftl (N.land b 0x7f) shift) in
        if N.land b 0x80 =? 0 then Ok (value, cursor)
        else read_varint_loop fuel buffer cursor value (shift + 7)
  end.
Definition read_varint (buffer : bytes) (cursor : nat) : res SegmentBlockCodecError (N * nat) :=
  read_varint_loop 10 buffer cursor 0 0.

(** [usize::try_from] never fails where [usize] has 64 bits. *)
Definition read_entry_length (buffer : bytes) (cursor : nat)
    : res SegmentBlockCodecError (N * nat) := read_varint buffer cursor.

Definition take_slice (buffer : bytes) (cursor : nat) (len : N)
    : res SegmentBlockCodecError (bytes * nat) :=
  match option_filter (λ stop, stop <=? blen buffer) (checked_add U64_MAX (N.of_nat cursor) len) with
  | Some stop => Ok (take (N.to_nat len) (drop cursor buffer), N.to_nat stop)
  | None => Err (Malformed "entry runs past the block")
  end.

(** ** Filters *)
Definition wrapping_u64 (n : N) : N := n mod 2 ^ 64.

Section codecs.
Context `{SectionCodecs}.

Definition filter_key_hashes (filter_key : string) : N * N :=
  (xxh64 (as_bytes filter_key) FILTER_HASH_SEED_ONE, xxh64 (as_bytes filter_key) FILTER_HASH_SEED_TWO).

(** The bit of one probe. *)
Definition probe_bit (h : N * N) (bit_len probe : N) : N :=
  wrapping_u64 (h.1 + wrapping_u64 (probe * h.2)) mod bit_len.

Record SegmentFilterBuilder := mkSegmentFilterBuilder {
  fb_bit_len : N;
  fb_bits : bytes;
}.

Definition with_bits_per_key (expected_keys bits_per_key : N) : SegmentFilterBuilder :=
  let bit_len := N.max (N.min U64_MAX (expected_keys * bits_per_key)) 64 in
  {| fb_bit_len := bit_len; fb_bits := replicate (N.to_nat ((bit_len + 7) / 8)) (byte 0) |}.

Definition SegmentFilterBuilder_new (expected_keys : N) : SegmentFilterBuilder :=
  with_bits_per_key expected_keys FILTER_BITS_PER_KEY.

(** [bits[bit / 8] |= 1 << (bit % 8)], which panics past the end. *)
Definition set_bit (bits : bytes) (bit : N) : res SegmentBlockCodecError bytes :=
  let i := N.to_nat (bit / 8) in
  b ← expect (bits !! i);
  Ok (<[i := byte (N.lor (N_of_ascii b) (N.shiftl 1 (bit mod 8)))]> bits).

(** The probes from [probe] on. *)
Fixpoint insert_probes (count : nat) (probe : N) (builder : SegmentFilterBuilder) (h : N * N)
    : res SegmentBlockCodecError SegmentFilterBuilder :=
  match count with
  | O => Ok builder
  | S count =>
      bits ← set_bit builder.(fb_bits) (probe_bit h builder.(fb_bit_len) probe);
      insert_probes count (probe + 1) {| fb_bit_len := builder.(fb_bit_len); fb_bits := bits |} h
  end.
Definition insert_hashes (builder : SegmentFilterBuilder) (h : N * N)
    : res SegmentBlockCodecError SegmentFilterBuilder :=
  insert_probes (N.to_nat FILTER_HASH_COUNT) 0 builder h.

Definition filter_insert (builder : SegmentFilterBuilder) (filter_key : string)
    : res SegmentBlockCodecError SegmentFilterBuilder :=
  insert_hashes builder (filter_key_hashes filter_key).

Definition filter_finish (builder : SegmentFilterBuilder) : bytes :=
  to_le_bytes 4 FILTER_HASH_COUNT ++ to_le_bytes 8 builder.(fb_bit_len) ++ builder.(fb_bits).

Fixpoint insert_all (builder : SegmentFilterBuilder) (hashes : list (N * N))
    : res SegmentBlockCodecError SegmentFilterBuilder :=
  match hashes with
  | [] => Ok builder
  | h :: hashes => builder ← insert_hashes builder h; insert_all builder hashes
  end.

Definition build_filter_payload (hashes : list (N * N)) (bits_per_key : N)
    : res SegmentBlockCodecError bytes :=
  builder ← insert_all (with_bits_per_key (N.of_nat (length hashes)) bits_per_key) hashes;
  Ok (filter_finish builder).

(** [SegmentFilter::from_payload]. *)
Definition from_payload (payload : bytes) : res SegmentBlockCodecError SegmentFilter :=
  if blen payload <? 12 then Err (Malformed "filter block shorter than its header")
  else
    let n_hashes := from_le_bytes (take 4 payload) in
    let bit_len := from_le_bytes (take 8 (drop 4 payload)) in
    if negb (n_hashes =? FILTER_HASH_COUNT) then Err (Malformed "filter hash count must be seven")
    else if bit_len <? 64 then Err (Malformed "filter bit length must be at least 64")
    else
      let bits := drop 12 payload in
      if negb ((bit_len + 7) / 8 =? blen bits) then
        Err (Malformed "filter bit length disagrees with its bytes")
      else Ok {| sf_n_hashes := n_hashes; sf_bit_len := bit_len; sf_bits := bits |}.

(** [may_contain_hashes]; indexing panics past the end. *)
Fixpoint probes_set (count : nat) (probe : N) (filter : SegmentFilter) (h : N * N)
    : res Empty_set bool :=
  match count with
  | O => Ok true
  | S count =>
      let bit := probe_bit h filter.(sf_bit_len) probe in
      b ← expect (filter.(sf_bits) !! N.to_nat (bit / 8));
      if N.land (N_of_ascii b) (N.shiftl 1 (bit mod 8)) =? 0 then Ok false
      else probes_set count (probe + 1) filter h
  end.
Definition may_contain_hashes (filter : SegmentFilter) (h : N * N) : res Empty_set bool :=
  probes_set (N.to_nat filter.(sf_n_hashes)) 0 filter h.
Definition may_contain (filter : SegmentFilter) (filter_key : string)
    : res Empty_set bool :=
  may_contain_hashes filter (filter_key_hashes filter_key).

(** ** Sections *)
Definition handle_bytes (len : N) : res SegmentBlockCodecError N :=
  if len <=? U32_MAX then Ok len
  else Err (Malformed ("a " +:+ fmt_dec 0 len +:+ "-byte block does not fit a handle")).

Definition append_section (buffer payload : bytes) (compress : bool)
    : res SegmentBlockCodecError (BlockHandle * bytes) :=
  stored ← (if compress then map_err CodecFailed (zstd_compress payload) else Ok payload);
  stored_bytes ← handle_bytes (blen stored);
  decoded_bytes ← handle_bytes (blen payload);
  Ok ({| bh_offset := blen buffer; bh_stored_bytes := stored_bytes; bh_decoded_bytes := decoded_bytes;
         bh_crc32c := crc32c stored |}, buffer ++ stored).

Definition decode_section (stored : bytes) (handle : BlockHandle) (compressed : bool)
    : res SegmentBlockCodecError bytes :=
  if negb (blen stored =? handle.(bh_stored_bytes)) then
    Err (StoredLengthMismatch handle.(bh_stored_bytes) (blen stored))
  else
    let actual := crc32c stored in
    if negb (actual =? handle.(bh_crc32c)) then Err (ChecksumMismatch handle.(bh_crc32c) actual)
    else
      payload ←
        (if compressed then map_err CodecFailed (zstd_read stored (handle.(bh_decoded_bytes) + 1))
         else if negb (blen stored =? handle.(bh_decoded_bytes)) then
           Err (DecodedLengthMismatch handle.(bh_decoded_bytes) (blen stored))
         else Ok stored);
      if negb (blen payload =? handle.(bh_decoded_bytes)) then
        Err (DecodedLengthMismatch handle.(bh_decoded_bytes) (blen payload))
      else Ok payload.

Definition decode_filter_block (stored : bytes) (handle : BlockHandle)
    : res SegmentBlockCodecError SegmentFilter :=
  payload ← decode_section stored handle false;
  from_payload payload.

(** ** The index block *)

(** The order and tiling checks of [decode_index_block]. *)
Fixpoint check_index (previous : option (string * N)) (entries : list SegmentIndexEntry)
    : res SegmentBlockCodecError unit :=
  match entries with
  | [] => Ok ()
  | entry :: entries =>
      stop ← ok_or (checked_add U64_MAX entry.(sie_block).(bh_offset) entry.(sie_block).(bh_stored_bytes))
        (Malformed ("index block `" +:+ entry.(sie_last_row_key) +:+ "` byte range overflows"));
      _ ← match previous with
          | Some (previous_key, previous_end) =>
              if bool_decide (cmp previous_key entry.(sie_last_row_key) = Gt) then
                Err (Malformed ("index blocks out of key order: `" +:+ entry.(sie_last_row_key) +:+
                  "` follows `" +:+ previous_key +:+ "`"))
              else if negb (entry.(sie_block).(bh_offset) =? previous_end) then
                Err (Malformed ("index block `" +:+ entry.(sie_last_row_key) +:+
                  "` does not start where `" +:+ previous_key +:+ "` ends"))
              else Ok ()
          | None => Ok ()
          end;
      check_index (Some (entry.(sie_last_row_key), stop)) entries
  end.

Definition decode_index_block `{Cbor (list SegmentIndexEntry)} (stored : bytes) (handle : BlockHandle)
    : res SegmentBlockCodecError (list SegmentIndexEntry) :=
  payload ← decode_section stored handle true;
  entries ← map_err CodecFailed (cbor_decode payload);
  _ ← check_index None entries;
  Ok entries.

(** ** Data blocks *)

(** [as_chunks::<4>]. *)
Fixpoint chunks_4 (l : bytes) : list bytes :=
  match l with
  | a :: b :: c :: d :: l => [a; b; c; d] :: chunks_4 l
  | _ => []
  end.

Section rows.
Context {R : Type} `{Cbor R}.

(** The loop of [decode_data_block_rows]: every round reads at least three
    bytes, so the entries' length is enough fuel. *)
Fixpoint decode_entries (fuel : nat) (entries : bytes) (restarts : list bytes) (row_keys : list string)
    (rows : list R) (cursor : nat) (previous_key : bytes)
    : res SegmentBlockCodecError (list string * list R * list bytes) :=
  if decide (cursor < length entries)%nat then
    match fuel with
    | O => OutOfFuel
    | S fuel =>
        let restart := N.of_nat (length rows) mod RESTART_INTERVAL =? 0 in
        restarts ←
          (if restart then
             match restarts with
             | offset :: restarts =>
                 if from_le_bytes offset =? N.of_nat cursor then Ok restarts
                 else Err (Malformed "restart offset disagrees with its entry")
             | [] => Err (Malformed "restart offset disagrees with its entry")
             end
           else Ok restarts);
        '(shared_len, cursor) ← read_entry_length entries cursor;
        '(suffix_len, cursor) ← read_entry_length entries cursor;
        if restart && negb (shared_len =? 0) then Err (Malformed "restart entry has a shared prefix")
        else if (blen previous_key <? shared_len)
                || negb (is_char_boundary previous_key (N.to_nat shared_len)) then
          Err (Malformed "shared prefix exceeds previous key")
        else
          '(suffix, cursor) ← take_slice entries cursor suffix_len;
          if negb (utf8_valid suffix) then Err (Malformed "row key is not utf-8")
          else
            _ ← ok_or (checked_add U64_MAX shared_len (blen suffix))
              (Malformed "row key length exceeds address space");
            let key := take (N.to_nat shared_len) previous_key ++ suffix in
            '(row_len, cursor) ← read_entry_length entries cursor;
            '(row_bytes, cursor) ← take_slice entries cursor row_len;
            row ← map_err CodecFailed (cbor_decode row_bytes);
            if bool_decide (cmp (of_bytes key) (of_bytes previous_key) = Lt) then
              Err (Malformed ("rows out of row-key order: `" +:+ of_bytes key +:+ "` follows `" +:+
                of_bytes previous_key +:+ "`"))
            else
              decode_entries fuel entries restarts (row_keys ++ [of_bytes key]) (rows ++ [row]) cursor key
    end
  else Ok (row_keys, rows, restarts).

Definition decode_data_block_rows (stored : bytes) (handle : BlockHandle)
    : res SegmentBlockCodecError (DecodedDataBlock R) :=
  payload ← decode_section stored handle true;
  if blen payload <? 4 then Err (Malformed "data block shorter than its restart count")
  else
    let body := take (length payload - 4) payload in
    let restart_count := from_le_bytes (drop (length payload - 4) payload) in
    restarts_len ← ok_or
      (option_filter (λ len, len <=? blen body)
         (if restart_count * 4 <=? U64_MAX then Some (restart_count * 4) else None))
      (Malformed "restart array exceeds block");
    let split := (length body - N.to_nat restarts_len)%nat in
    let entries := take split body in
    let restarts := chunks_4 (drop split body) in
    '(row_keys, rows, restarts) ← decode_entries (length entries) entries restarts [] [] 0 [];
    match restarts with
    | _ :: _ => Err (Malformed "restart array contains unused offsets")
    | [] => Ok {| ddb_row_keys := row_keys; ddb_rows := rows |}
    end.
End rows.

(** ** The builder *)
Record SegmentBlocksBuilder := mkSegmentBlocksBuilder {
  sb_target_block_bytes : N;
  sb_entries : bytes;
  sb_restarts : list N;
  sb_entry_count : N;
  sb_previous_key : bytes;
  sb_bytes : bytes;
  sb_index : list SegmentIndexEntry;
  sb_decoded_data_bytes : N;
  sb_filter_hashes : list (N * N);
  sb_extent_hashes : option (list (N * N));
  sb_row_count : N;
  sb_min_row_key : bytes;
}.

Definition SegmentBlocksBuilder_new (target_block_bytes : N) : SegmentBlocksBuilder :=
  {| sb_target_block_bytes := target_block_bytes; sb_entries := []; sb_restarts := [];
     sb_entry_count := 0; sb_previous_key := []; sb_bytes := []; sb_index := [];
     sb_decoded_data_bytes := 0; sb_filter_hashes := []; sb_extent_hashes := None; sb_row_count := 0;
     sb_min_row_key := [] |}.

Definition SegmentBlocksBuilder_default : SegmentBlocksBuilder :=
  SegmentBlocksBuilder_new DEFAULT_TARGET_BLOCK_BYTES.

Definition set_hashes (b : SegmentBlocksBuilder) (filter_hashes : list (N * N))
    (extent_hashes : option (list (N * N))) : SegmentBlocksBuilder :=
  {| sb_target_block_bytes := b.(sb_target_block_bytes); sb_entries := b.(sb_entries);
     sb_restarts := b.(sb_restarts); sb_entry_count := b.(sb_entry_count);
     sb_previous_key := b.(sb_previous_key); sb_bytes := b.(sb_bytes); sb_index := b.(sb_index);
     sb_decoded_data_bytes := b.(sb_decoded_data_bytes); sb_filter_hashes := filter_hashes;
     sb_extent_hashes := extent_hashes; sb_row_count := b.(sb_row_count);
     sb_min_row_key := b.(sb_min_row_key) |}.

Definition with_extent_filter (b : SegmentBlocksBuilder) : SegmentBlocksBuilder :=
  set_hashes b b.(sb_filter_hashes) (Some []).

Definition push_extent_name (b : SegmentBlocksBuilder) (name : string)
    : res SegmentBlockCodecError SegmentBlocksBuilder :=
  extents ← expect b.(sb_extent_hashes);
  Ok (set_hashes b b.(sb_filter_hashes) (Some (extents ++ [filter_key_hashes name]))).

Definition push_filter_key (b : SegmentBlocksBuilder) (filter_key : string) : SegmentBlocksBuilder :=
  set_hashes b (b.(sb_filter_hashes) ++ [filter_key_hashes filter_key]) b.(sb_extent_hashes).

(** [zip(..).take_while(|(a, b)| a == b).count()]. *)
Fixpoint common_prefix (previous current : bytes) : nat :=
  match previous, current with
  | a :: previous, b :: current => if decide (a = b) then S (common_prefix previous current) else O
  | _, _ => O
  end.
(** [while !current.is_char_boundary(len) { len -= 1 }]; zero is a
    boundary. *)
Fixpoint back_off (current : bytes) (len : nat) : nat :=
  if is_char_boundary current len then len
  else match len with O => O | S len => back_off current len end.
Definition shared_prefix_len (previous current : bytes) : nat :=
  back_off current (common_prefix previous current).

(** [u32::try_from(..).expect(..)]. *)
Definition expect_u32 (n : N) : res SegmentBlockCodecError N :=
  if n <=? U32_MAX then Ok n else Panic.

Definition finish_data_block (b : SegmentBlocksBuilder) : res SegmentBlockCodecError SegmentBlocksBuilder :=
  match b.(sb_entries) with
  | [] => Ok b
  | _ =>
      restart_count ← expect_u32 (N.of_nat (length b.(sb_restarts)));
      let payload :=
        b.(sb_entries) ++ concat (to_le_bytes 4 <$> b.(sb_restarts)) ++ to_le_bytes 4 restart_count in
      '(block, buffer) ← append_section b.(sb_bytes) payload true;
      Ok {| sb_target_block_bytes := b.(sb_target_block_bytes); sb_entries := []; sb_restarts := [];
            sb_entry_count := 0; sb_previous_key := b.(sb_previous_key); sb_bytes := buffer;
            sb_index := b.(sb_index) ++
              [{| sie_last_row_key := of_bytes b.(sb_previous_key); sie_block := block |}];
            sb_decoded_data_bytes :=
              b.(sb_decoded_data_bytes) + (N.of_nat (length b.(sb_restarts)) + 1) * 4;
            sb_filter_hashes := b.(sb_filter_hashes); sb_extent_hashes := b.(sb_extent_hashes);
            sb_row_count := b.(sb_row_count); sb_min_row_key := b.(sb_min_row_key) |}
  end.

(** The bytes of one entry. *)
Definition entry_bytes (shared_len : nat) (key row_bytes : bytes) : bytes :=
  let suffix := drop shared_len key in
  write_varint
    (write_varint (write_varint [] (N.of_nat shared_len)) (blen suffix) ++ suffix)
    (blen row_bytes) ++ row_bytes.

Definition push_with_encoded_row {R} `{Cbor R} (b : SegmentBlocksBuilder) (row_key filter_key : string)
    (row : R) : res SegmentBlockCodecError (bytes * SegmentBlocksBuilder) :=
  let key := as_bytes row_key in
  if negb (b.(sb_row_count) =? 0) && bool_decide (cmp row_key (of_bytes b.(sb_previous_key)) = Lt) then
    Err (RowKeysOutOfOrder (of_bytes b.(sb_previous_key)) row_key)
  else
    let min_row_key := if b.(sb_row_count) =? 0 then key else b.(sb_min_row_key) in
    let filter_hashes := b.(sb_filter_hashes) ++ [filter_key_hashes filter_key] in
    let restart := b.(sb_entry_count) mod RESTART_INTERVAL =? 0 in
    restarts ←
      (if restart then offset ← expect_u32 (blen b.(sb_entries)); Ok (b.(sb_restarts) ++ [offset])
       else Ok b.(sb_restarts));
    let shared_len := if restart then O else shared_prefix_len b.(sb_previous_key) key in
    row_bytes ← map_err CodecFailed (cbor_encode row);
    let entry := entry_bytes shared_len key row_bytes in
    let b :=
      {| sb_target_block_bytes := b.(sb_target_block_bytes); sb_entries := b.(sb_entries) ++ entry;
         sb_restarts := restarts; sb_entry_count := b.(sb_entry_count) + 1; sb_previous_key := key;
         sb_bytes := b.(sb_bytes); sb_index := b.(sb_index);
         sb_decoded_data_bytes := b.(sb_decoded_data_bytes) + blen entry;
         sb_filter_hashes := filter_hashes; sb_extent_hashes := b.(sb_extent_hashes);
         sb_row_count := b.(sb_row_count) + 1; sb_min_row_key := min_row_key |} in
    b ← (if b.(sb_target_block_bytes) <=? blen b.(sb_entries) then finish_data_block b else Ok b);
    Ok (row_bytes, b).

(** [SegmentBlocksBuilder::push]. *)
Definition segment_push {R} `{Cbor R} (b : SegmentBlocksBuilder) (row_key filter_key : string) (row : R)
    : res SegmentBlockCodecError SegmentBlocksBuilder :=
  '(_, b) ← push_with_encoded_row b row_key filter_key row;
  Ok b.

Definition decoded_data_bytes (b : SegmentBlocksBuilder) : N :=
  b.(sb_decoded_data_bytes) +
  match b.(sb_entries) with
  | [] => 0
  | _ => (N.of_nat (length b.(sb_restarts)) + 1) * 4
  end.

(** [SegmentBlocksBuilder::build]. *)
Definition segment_build `{Cbor (list SegmentIndexEntry)} (b : SegmentBlocksBuilder)
    : res SegmentBlockCodecError BuiltSegmentBlocks :=
  if b.(sb_row_count) =? 0 then Err EmptySegment
  else
    b ← finish_data_block b;
    '(extent_filter, buffer) ←
      match b.(sb_extent_hashes) with
      | Some hashes =>
          payload ← build_filter_payload hashes EXTENT_FILTER_BITS_PER_KEY;
          '(handle, buffer) ← append_section b.(sb_bytes) payload false;
          Ok (Some handle, buffer)
      | None => Ok (None, b.(sb_bytes))
      end;
    filter_payload ← build_filter_payload b.(sb_filter_hashes) FILTER_BITS_PER_KEY;
    '(filter, buffer) ← append_section buffer filter_payload false;
    index_payload ← map_err CodecFailed (cbor_encode b.(sb_index));
    '(index, buffer) ← append_section buffer index_payload true;
    Ok {| bsb_bytes := buffer; bsb_index := index; bsb_filter := filter;
          bsb_extent_filter := extent_filter; bsb_row_count := b.(sb_row_count);
          bsb_min_row_key := of_bytes b.(sb_min_row_key);
          bsb_max_row_key := of_bytes b.(sb_previous_key) |}.
End codecs.
