(* ===== verification/SegmentFormat.v ===== *)
(** * The segment format's guarantees

    What a reader of a built segment relies on: numbers and entries decode to
    what was written, the index and the data blocks hold exactly the pushed
    rows in key order, a key range reads from the blocks the index names, a
    filter admits every key that was pushed, and decoding any bytes returns. *)
From S2P Require Import Prelude Types Utf8 Codec SegmentBlocks.
Local Open Scope N_scope.

(** ** Bytes *)
Lemma N_of_byte n : n < 256 → N_of_ascii (byte n) = n.
Proof. apply N_ascii_embedding. Qed.

Lemma as_of_bytes l : as_bytes (of_bytes l) = l.
Proof. apply String.list_ascii_of_string_of_list_ascii. Qed.
Lemma of_as_bytes s : of_bytes (as_bytes s) = s.
Proof. apply String.string_of_list_ascii_of_string. Qed.

Lemma blen_app l k : blen (l ++ k) = blen l + blen k.
Proof. unfold blen. rewrite length_app. lia. Qed.

Lemma length_to_le_bytes count n : length (to_le_bytes count n) = count.
Proof. revert n. induction count as [|count IH]; intros n; [done|]. cbn. by rewrite IH. Qed.

Lemma from_to_le_bytes count n : n < 256 ^ N.of_nat count → from_le_bytes (to_le_bytes count n) = n.
Proof.
  revert n. induction count as [|count IH]; intros n Hn.
  - cbn in *. lia.
  - cbn [to_le_bytes from_le_bytes]. rewrite Nat2N.inj_succ, N.pow_succ_r' in Hn.
    rewrite N_of_byte by (apply N.mod_lt; lia). rewrite IH by (apply N.Div0.div_lt_upper_bound; lia).
    pose proof (N.div_mod' n 256). lia.
Qed.

(** ** Varints *)
Lemma lor_low_high v : N.lor (N.land v 0x7f) (N.shiftl (N.shiftr v 7) 7) = v.
Proof.
  change 0x7f with (N.ones 7). rewrite <-N.ldiff_ones_r, N.lor_comm. apply N.lor_ldiff_and.
Qed.

Lemma land_7f_lt v : N.land v 0x7f < 128.
Proof. change 0x7f with (N.ones 7). rewrite N.land_ones. apply N.mod_lt. done. Qed.

Lemma lor_80 v : v < 128 → N.lor v 0x80 = v + 128.
Proof.
  intros Hv. replace 0x80 with (N.shiftl 1 7) by done. rewrite N.lor_comm.
  rewrite <-N.lxor_lor, <-N.add_nocarry_lxor; [rewrite N.add_comm; done| |].
  all: apply N.bits_inj_0; intros i; rewrite N.land_spec;
    destruct (decide (i < 7)) as [Hi|Hi];
      [rewrite N.shiftl_spec_low by lia; done|rewrite andb_comm].
  all: destruct (N.eq_dec v 0) as [->|]; [done|].
  all: rewrite N.bits_above_log2; [done|];
    assert (N.log2 v < 7) by (apply N.log2_lt_pow2; cbn; lia); lia.
Qed.

Lemma read_varint_step fuel buffer cursor value shift b :
  buffer !! cursor = Some b → (shift = 63 → N_of_ascii b ≤ 1) →
  read_varint_loop (S fuel) buffer cursor value shift =
    let value := N.lor value (N.shiftl (N.land (N_of_ascii b) 0x7f) shift) in
    if N.land (N_of_ascii b) 0x80 =? 0 then Ok (value, S cursor)
    else read_varint_loop fuel buffer (S cursor) value (shift + 7).
Proof.
  intros Hb H63. cbn [read_varint_loop]. rewrite Hb. cbn.
  destruct ((shift =? 63) && (1 <? N_of_ascii b)) eqn:E; [|done].
  apply andb_true_iff in E as [E1%N.eqb_eq E2%N.ltb_lt]. specialize (H63 E1). lia.
Qed.

Lemma low_byte v : v < 128 → N.land v 0x7f = v ∧ N.land v 0x80 = 0 ∧ N.land (v + 128) 0x7f = v ∧ N.land (v + 128) 0x80 ≠ 0.
Proof.
  intros Hv. split_and!.
  - change 0x7f with (N.ones 7). rewrite N.land_ones. by apply N.mod_small.
  - rewrite <-(N.mod_small v 128) by done. change 128 with (2 ^ 7) at 1.
    rewrite <-N.land_ones, <-N.land_assoc. apply N.land_0_r.
  - change 0x7f with (N.ones 7). rewrite N.land_ones. change (2 ^ 7) with 128.
    rewrite <-(N.mul_1_l 128) at 1. rewrite N.Div0.mod_add. by apply N.mod_small.
  - rewrite <-(lor_80 v) by done. intros E.
    assert (N.testbit (N.land (N.lor v 128) 128) 7 = true) as Hbit; [|by rewrite E in Hbit].
    rewrite N.land_spec, N.lor_spec. by rewrite orb_true_r.
Qed.

Lemma shiftr_7_le v shift : N.shiftr v 7 * 2 ^ (shift + 7) ≤ v * 2 ^ shift.
Proof.
  rewrite N.shiftr_div_pow2, N.add_comm, N.pow_add_r, N.mul_assoc. apply N.mul_le_mono_r.
  rewrite N.mul_comm. apply N.Div0.mul_div_le.
Qed.

Lemma read_varint_loop_correct k v pre post acc shift fuel :
  v < 2 ^ N.of_nat k → k ≠ O → v * 2 ^ shift < 2 ^ 64 → shift ≤ 63 → shift + 7 * N.of_nat fuel = 70 →
  read_varint_loop fuel (pre ++ varint_loop k v ++ post) (length pre) acc shift =
    Ok (N.lor acc (N.shiftl v shift), (length pre + length (varint_loop k v))%nat).
Proof.
  revert v pre acc shift fuel.
  induction k as [|k IH]; intros v pre acc shift [|fuel] Hv Hk Hb Hle Hs; [done|done|lia|].
  cbn [varint_loop]. pose proof (land_7f_lt v) as Hlow.
  pose proof (low_byte _ Hlow) as (Hl1 & Hl2 & Hl3 & Hl4).
  destruct (N.eqb_spec (N.shiftr v 7) 0) as [E|E].
  - pose proof (lor_low_high v) as Hval. rewrite E, N.shiftl_0_l, N.lor_0_r in Hval.
    rewrite (read_varint_step _ _ _ _ _ (byte (N.land v 127))); rewrite ?N_of_byte by lia.
    + cbn zeta. rewrite Hl1, Hl2, Hval. cbn. do 2 f_equal. lia.
    + cbn [app]. by rewrite list_lookup_middle.
    + intros ->. rewrite Hval. change (2 ^ 63) with 0x8000000000000000 in Hb.
      change (2 ^ 64) with 0x10000000000000000 in Hb. lia.
  - rewrite lor_80 by done.
    pose proof (shiftr_7_le v shift) as Hsh.
    assert (shift + 7 ≤ 63) as Hle'.
    { destruct (N.le_gt_cases (shift + 7) 63) as [|Hgt]; [done|].
      assert (2 ^ 64 ≤ 2 ^ (shift + 7)) by (apply N.pow_le_mono_r; lia). nia. }
    rewrite (read_varint_step _ _ _ _ _ (byte (N.land v 127 + 128))); rewrite ?N_of_byte by lia.
    + cbn zeta. rewrite Hl3, (proj2 (N.eqb_neq _ _) Hl4).
      specialize (IH (N.shiftr v 7) (pre ++ [byte (N.land v 127 + 128)])
        (N.lor acc (N.shiftl (N.land v 127) shift)) (shift + 7) fuel).
      rewrite <-app_assoc, length_app in IH. cbn [app length] in IH |- *.
      rewrite Nat.add_1_r in IH. rewrite IH; clear IH; [|..|lia|lia]; [| |intros ->|lia].
      * f_equal. f_equal; [|cbn; lia].
        rewrite <-N.lor_assoc. f_equal. rewrite (N.add_comm shift), <-N.shiftl_shiftl, <-N.shiftl_lor.
        by rewrite lor_low_high.
      * rewrite N.shiftr_div_pow2. apply N.Div0.div_lt_upper_bound.
        rewrite Nat2N.inj_succ, N.pow_succ_r' in Hv. lia.
      * cbn in Hv. rewrite N.shiftr_div_pow2 in E. apply E. apply N.div_small. cbn. lia.
    + cbn [app]. by rewrite list_lookup_middle.
    + lia.
Qed.

(** A varint reads back, wherever it is in the buffer. *)
Lemma read_write_varint pre v post :
  v ≤ U64_MAX →
  read_varint (write_varint pre v ++ post) (length pre) = Ok (v, length (write_varint pre v)).
Proof.
  intros Hv. unfold read_varint, write_varint. rewrite <-app_assoc.
  rewrite read_varint_loop_correct; [|by rewrite Nat2N.inj_succ, N.pow_succ_r'; pose proof (size_nat_gt v); lia|done|..|lia|lia].
  - by rewrite N.lor_0_l, N.shiftl_0_r, length_app.
  - rewrite N.mul_1_r. unfold U64_MAX in Hv. change (2 ^ 64) with 0x10000000000000000. lia.
Qed.

(** Reading a number from any bytes ends: with the tenth byte at most one,
    the loop stops there. *)
Lemma read_varint_loop_returns fuel buffer cursor value shift :
  shift + 7 * N.of_nat fuel = 70 → fuel ≠ O → returns (read_varint_loop fuel buffer cursor value shift).
Proof.
  revert cursor value shift. induction fuel as [|fuel IH]; intros cursor value shift Hs Hf; [done|].
  cbn [read_varint_loop]. apply returns_bind; [apply returns_ok_or|]. intros b _. cbv zeta.
  destruct ((shift =? 63) && (1 <? N_of_ascii b)) eqn:E; [exact I|].
  destruct (N.eqb_spec (N.land (N_of_ascii b) 128) 0) as [|Hne]; [exact I|].
  apply IH; [lia|]. intros ->. apply Hne.
  apply andb_false_iff in E as [E%N.eqb_neq|E%N.ltb_ge]; [lia|].
  assert (N_of_ascii b = 0 ∨ N_of_ascii b = 1) as [->| ->] by lia; done.
Qed.

Lemma read_varint_returns buffer cursor : returns (read_varint buffer cursor).
Proof. by apply read_varint_loop_returns. Qed.

Lemma read_varint_loop_advances fuel buffer cursor value shift v cursor' :
  read_varint_loop fuel buffer cursor value shift = Ok (v, cursor') → (cursor < cursor')%nat.
Proof.
  revert cursor value shift. induction fuel as [|fuel IH]; intros cursor value shift; [done|].
  cbn [read_varint_loop]. intros E. step_ok E b Hb. repeat case_match; [done|naive_solver lia|].
  apply IH in E. lia.
Qed.

Lemma read_varint_advances buffer cursor v cursor' :
  read_varint buffer cursor = Ok (v, cursor') → (cursor < cursor')%nat.
Proof. apply read_varint_loop_advances. Qed.

Lemma take_slice_returns buffer cursor len : returns (take_slice buffer cursor len).
Proof. unfold take_slice. by case_match. Qed.

Lemma take_slice_Ok buffer cursor len s cursor' :
  take_slice buffer cursor len = Ok (s, cursor') →
  s = take (N.to_nat len) (drop cursor buffer) ∧ cursor' = (cursor + N.to_nat len)%nat ∧
  (cursor' ≤ length buffer)%nat.
Proof.
  unfold take_slice, option_filter, checked_add, blen. repeat case_match; simplify_eq; intros [= <- <-].
  repeat match goal with H : (_ <=? _) = true |- _ => apply N.leb_le in H end. split; [done|]. lia.
Qed.

Lemma take_slice_app pre s post :
  blen (pre ++ s ++ post) ≤ U64_MAX →
  take_slice (pre ++ s ++ post) (length pre) (blen s) = Ok (s, (length pre + length s)%nat).
Proof.
  rewrite !blen_app. intros Hb. unfold take_slice, checked_add, option_filter, blen in *.
  rewrite decide_True by lia. cbn. rewrite (proj2 (N.leb_le _ _)) by (rewrite !length_app; lia).
  rewrite drop_app_length, Nat2N.id, take_app_length. do 2 f_equal. lia.
Qed.

(** ** Key ranges *)

(** A string of [0xff] bytes is at or below exactly the strings it starts. *)
Lemma all_ff_kle p k :
  increment_last (as_bytes p) = None → kle p k ↔ starts_with k p = true.
Proof.
  revert k. induction p as [|a p IH]; intros k.
  { intros _. split; [done|]. intros _. unfold kle, cmp, string_ord. by destruct k. }
  cbn [as_bytes String.list_ascii_of_string increment_last].
  change (String.list_ascii_of_string p) with (as_bytes p).
  destruct (increment_last (as_bytes p)) eqn:Ep; [done|].
  destruct (N.eqb_spec (N_of_ascii a) 0xff) as [Ea|]; [|done]. intros _.
  destruct k as [|b k]; [unfold kle, cmp, string_ord; cbn; naive_solver|].
  cbn. rewrite andb_true_iff, bool_decide_eq_true, <-(IH k eq_refl).
  unfold kle, cmp, string_ord. cbn. pose proof (N_ascii_bounded b).
  destruct (N.compare_spec (N_of_ascii a) (N_of_ascii b)) as [E|E|E]; cbn.
  - apply N_of_ascii_inj in E as ->. naive_solver.
  - lia.
  - split; [done|]. intros [-> _]. lia.
Qed.

Lemma increment_last_exact p u k :
  increment_last (as_bytes p) = Some u →
  starts_with k p = true ↔ kle p k ∧ cmp k (of_bytes u) = Lt.
Proof.
  revert u k. induction p as [|a p IH]; intros u k; [done|].
  cbn [as_bytes String.list_ascii_of_string increment_last].
  change (String.list_ascii_of_string p) with (as_bytes p).
  destruct k as [|b k].
  { intros _. unfold kle, cmp, string_ord. cbn. naive_solver. }
  unfold kle, cmp, string_ord. cbn [starts_with string_cmp]. rewrite andb_true_iff, bool_decide_eq_true.
  destruct (increment_last (as_bytes p)) as [v|] eqn:Ep.
  - intros [= <-]. cbn [of_bytes String.string_of_list_ascii string_cmp].
    rewrite (IH v k eq_refl). unfold kle, cmp, string_ord.
    rewrite (N.compare_antisym (N_of_ascii a) (N_of_ascii b)).
    destruct (N.compare_spec (N_of_ascii a) (N_of_ascii b)) as [E|E|E]; cbn.
    + apply N_of_ascii_inj in E as ->. naive_solver.
    + split; [|naive_solver]. intros [-> _]. lia.
    + split; [|naive_solver]. intros [-> _]. lia.
  - destruct (N.eqb_spec (N_of_ascii a) 0xff) as [|Ea]; [done|]. intros [= <-].
    rewrite <-(all_ff_kle p k Ep). cbn [of_bytes String.string_of_list_ascii string_cmp].
    pose proof (N_ascii_bounded a). rewrite N_of_byte by lia. unfold kle, cmp, string_ord.
    destruct (N.compare_spec (N_of_ascii a) (N_of_ascii b)) as [E|E|E]; cbn.
    + apply N_of_ascii_inj in E as ->. rewrite (proj2 (N.compare_lt_iff _ _)) by lia. naive_solver.
    + split; [intros [-> _]; lia|]. intros [_ Hlt].
      destruct (N.compare_spec (N_of_ascii b) (N_of_ascii a + 1)) as [E'|E'|E']; cbn in Hlt; [|lia|done].
      by destruct k.
    + split; [|naive_solver]. intros [-> _]. lia.
Qed.

(** [string_prefix_upper_bound] is exact: where it gives a bound, the
    strings from the prefix up to the bound are the strings that start with
    the prefix, so a scan of a half-open key range is a scan of the prefix. *)
Theorem prefix_upper_bound_exact prefix bound key :
  string_prefix_upper_bound prefix = Some bound →
  starts_with key prefix = true ↔ kle prefix key ∧ cmp key bound = Lt.
Proof.
  unfold string_prefix_upper_bound. destruct (increment_last (as_bytes prefix)) as [u|] eqn:E; [|done].
  case_match; [|done]. intros [= <-]. by apply increment_last_exact.
Qed.

Lemma prefix_upper_bound_exact_witness :
  starts_with "inode/12/rev" "inode/12/" = true ↔
  kle "inode/12/" "inode/12/rev" ∧ cmp "inode/12/rev" "inode/120" = Lt.
Proof. apply (prefix_upper_bound_exact "inode/12/" "inode/120" "inode/12/rev"). by vm_compute. Defined.

(** A prefix that is not all [0xff] bytes may still have no bound: the
    incremented bytes need not be UTF-8. *)
Lemma upper_bound_missing_below_ff :
  string_prefix_upper_bound (of_bytes [byte 0x7f]) = None ∧
  cmp (of_bytes [byte 0x7f]) (of_bytes [byte 0xc2; byte 0x80]) = Lt.
Proof. by vm_compute. Qed.

(** ** Decoding ends *)
Create HintDb decoding.
#[export] Hint Resolve returns_bind returns_map_err returns_ok_or read_varint_returns take_slice_returns
  : decoding.

Section decoding.
Context `{SectionCodecs} {R : Type} `{Cbor R}.
Hypothesis cbor_returns : ∀ l, returns (cbor_decode (R:=R) l).
Hypothesis zstd_returns : ∀ l limit, returns (zstd_read l limit).

Lemma decode_section_returns stored handle compressed : returns (decode_section stored handle compressed).
Proof using zstd_returns.
  unfold decode_section. repeat (case_match || apply returns_bind || intros); by eauto with decoding.
Qed.

Lemma decode_entries_returns fuel entries restarts row_keys (rows : list R) cursor previous_key :
  (length entries ≤ cursor + fuel)%nat →
  returns (decode_entries fuel entries restarts row_keys rows cursor previous_key).
Proof using cbor_returns.
  revert restarts row_keys rows cursor previous_key. induction fuel as [|fuel IH];
    intros restarts row_keys rows cursor previous_key Hf; cbn [decode_entries]; (case_decide; [|done]); [lia|].
  apply returns_bind; [by repeat case_match|]. intros restarts' _.
  apply returns_bind; [apply read_varint_returns|]. intros [shared c1] A1%read_varint_advances.
  apply returns_bind; [apply read_varint_returns|]. intros [len c2] A2%read_varint_advances.
  repeat (case_match; [done|]).
  apply returns_bind; [apply take_slice_returns|]. intros [suffix c3] (_ & A3 & _)%take_slice_Ok.
  case_match; [done|]. apply returns_bind; [apply returns_ok_or|]. intros _ _.
  apply returns_bind; [apply read_varint_returns|]. intros [rlen c4] A4%read_varint_advances.
  apply returns_bind; [apply take_slice_returns|]. intros [rb c5] (_ & A5 & _)%take_slice_Ok.
  apply returns_bind; [apply returns_map_err, cbor_returns|]. intros row _.
  case_match; [done|]. apply IH. lia.
Qed.

Lemma decode_data_block_rows_returns stored handle : returns (decode_data_block_rows (R:=R) stored handle).
Proof using cbor_returns zstd_returns.
  unfold decode_data_block_rows. apply returns_bind; [apply decode_section_returns|]. intros payload _.
  case_match; [done|]. apply returns_bind; [apply returns_ok_or|]. intros len _.
  apply returns_bind; [by apply decode_entries_returns|]. intros [[keys rows] rest] _. by destruct rest.
Qed.

Lemma decode_filter_block_returns stored handle : returns (decode_filter_block stored handle).
Proof using zstd_returns.
  unfold decode_filter_block. apply returns_bind; [apply decode_section_returns|]. intros payload _.
  unfold from_payload. by repeat case_match.
Qed.

Lemma check_index_returns previous entries : returns (check_index previous entries).
Proof using Type.
  revert previous. induction entries as [|e entries IH]; intros previous; [done|]. cbn [check_index].
  apply returns_bind; [apply returns_ok_or|]. intros stop _. apply returns_bind; [by repeat case_match|done].
Qed.

Lemma decode_index_block_returns `{Cbor (list SegmentIndexEntry)} stored handle :
  (∀ l, returns (cbor_decode (R:=list SegmentIndexEntry) l)) → returns (decode_index_block stored handle).
Proof using zstd_returns.
  intros Hc. unfold decode_index_block. apply returns_bind; [apply decode_section_returns|]. intros payload _.
  apply returns_bind; [apply returns_map_err, Hc|]. intros entries _. apply returns_bind; [apply check_index_returns|done].
Qed.

End decoding.

(** ** One entry *)
Lemma common_prefix_spec previous current :
  (common_prefix previous current ≤ length previous)%nat ∧ (common_prefix previous current ≤ length current)%nat ∧
  take (common_prefix previous current) previous = take (common_prefix previous current) current.
Proof.
  revert current. induction previous as [|a previous IH]; intros [|b current]; cbn; try (split_and!; [lia..|done]).
  case_decide as E; [|cbn; split_and!; [lia..|done]]. subst b. destruct (IH current) as (H1 & H2 & H3).
  cbn. rewrite H3. split_and!; [lia..|done].
Qed.

Lemma back_off_spec current len : (back_off current len ≤ len)%nat ∧ is_char_boundary current (back_off current len) = true.
Proof.
  induction len as [|len [IH1 IH2]]; cbn; case_match; try (split; [lia|done]).
  unfold is_char_boundary in *. by destruct current.
Qed.

Lemma shared_prefix_spec previous current :
  utf8 previous → utf8 current → let n := shared_prefix_len previous current in
  (n ≤ length previous)%nat ∧ take n previous = take n current ∧ is_char_boundary previous n = true ∧
  utf8_valid (drop n current) = true.
Proof.
  intros Hp Hc n. unfold n, shared_prefix_len.
  destruct (common_prefix_spec previous current) as (H1 & H2 & H3).
  destruct (back_off_spec current (common_prefix previous current)) as [H4 H5].
  set (k := back_off _ _) in *. assert (take k previous = take k current) as Heq.
  { replace k with (min k (common_prefix previous current)) by lia. by rewrite <-!take_take, H3. }
  destruct (utf8_split _ _ Hc H5) as [Hu Hd]. split_and!; [lia|done| |by apply utf8_valid_spec].
  pose proof (utf8_prefix_boundary (take k previous) (drop k previous)) as Hb.
  rewrite take_drop, length_take_le in Hb by lia. rewrite Heq in Hb. by apply Hb.
Qed.

Lemma write_varint_app pre buffer v : pre ++ write_varint buffer v = write_varint (pre ++ buffer) v.
Proof. unfold write_varint. by rewrite app_assoc. Qed.

Lemma entry_bytes_app pre shared key row_bytes :
  pre ++ entry_bytes shared key row_bytes =
  write_varint
    (write_varint (write_varint pre (N.of_nat shared)) (blen (drop shared key)) ++ drop shared key)
    (blen row_bytes) ++ row_bytes.
Proof.
  unfold entry_bytes. by rewrite app_assoc, write_varint_app, app_assoc, !write_varint_app, app_nil_r.
Qed.

Lemma write_varint_length pre v : (length pre < length (write_varint pre v))%nat.
Proof. unfold write_varint. rewrite length_app. cbn [varint_loop]. repeat case_match; cbn; lia. Qed.

Lemma entry_bytes_length shared key row_bytes :
  (length (drop shared key) + length row_bytes + 3 ≤ length (entry_bytes shared key row_bytes))%nat.
Proof.
  unfold entry_bytes. rewrite length_app.
  pose proof (write_varint_length [] (N.of_nat shared)) as H1. set (b1 := write_varint [] _) in *.
  pose proof (write_varint_length b1 (blen (drop shared key))) as H2. set (b2 := write_varint b1 _) in *.
  pose proof (write_varint_length (b2 ++ drop shared key) (blen row_bytes)) as H3.
  rewrite length_app in H3. change (length []) with O in H1. lia.
Qed.

(** The five reads of an entry, in order, wherever the entry is. *)
Lemma entry_reads pre rest shared key row_bytes :
  let whole := pre ++ entry_bytes shared key row_bytes ++ rest in
  let suffix := drop shared key in
  blen whole ≤ U64_MAX → N.of_nat shared ≤ U64_MAX →
  ∃ c1 c2 c3 c4,
    read_entry_length whole (length pre) = Ok (N.of_nat shared, c1) ∧
    read_entry_length whole c1 = Ok (blen suffix, c2) ∧
    take_slice whole c2 (blen suffix) = Ok (suffix, c3) ∧
    read_entry_length whole c3 = Ok (blen row_bytes, c4) ∧
    take_slice whole c4 (blen row_bytes) =
      Ok (row_bytes, length (pre ++ entry_bytes shared key row_bytes)).
Proof.
  intros whole suffix. unfold whole. rewrite app_assoc, entry_bytes_app. fold suffix.
  set (b1 := write_varint pre (N.of_nat shared)). set (b2 := write_varint b1 (blen suffix)).
  set (b3 := write_varint (b2 ++ suffix) (blen row_bytes)). rewrite <-app_assoc. intros Hb Hsh.
  pose proof Hb as Hb'. unfold b3 in Hb'. unfold write_varint in Hb' at 1.
  rewrite !blen_app in Hb'. unfold read_entry_length.
  exists (length b1), (length b2), (length (b2 ++ suffix)), (length b3). split_and!.
  - unfold b3, b2. unfold write_varint at 1 2. rewrite <-!app_assoc. by apply read_write_varint.
  - unfold b3. unfold write_varint at 1. rewrite <-!app_assoc. apply read_write_varint. lia.
  - unfold b3. unfold write_varint at 1. rewrite <-!app_assoc, length_app. apply take_slice_app.
    unfold b3 in Hb. unfold write_varint in Hb at 1. by rewrite <-!app_assoc in Hb.
  - apply read_write_varint. lia.
  - rewrite length_app. by apply take_slice_app.
Qed.

Section blocks.
Context {R : Type} `{CborLaw R}.

(** What the restart table says of the next entry. *)
Definition restart_step (count : nat) (shared offset : nat) (restarts restarts' : list bytes) : Prop :=
  if N.of_nat count mod RESTART_INTERVAL =? 0 then
    shared = O ∧ ∃ o, restarts = o :: restarts' ∧ from_le_bytes o = N.of_nat offset
  else restarts' = restarts.

Lemma decode_entry fuel pre rest restarts restarts' row_keys (rows : list R) last shared key row row_bytes :
  blen (pre ++ entry_bytes shared (as_bytes key) row_bytes ++ rest) ≤ U64_MAX →
  (length last ≤ length pre)%nat → (shared ≤ length last)%nat → take shared last = take shared (as_bytes key) →
  is_char_boundary last shared = true → utf8_valid (drop shared (as_bytes key)) = true →
  cmp key (of_bytes last) ≠ Lt → cbor_encode row = Ok row_bytes →
  restart_step (length rows) shared (length pre) restarts restarts' →
  decode_entries (S fuel) (pre ++ entry_bytes shared (as_bytes key) row_bytes ++ rest) restarts row_keys rows
    (length pre) last =
  decode_entries fuel (pre ++ entry_bytes shared (as_bytes key) row_bytes ++ rest) restarts'
    (row_keys ++ [key]) (rows ++ [row]) (length (pre ++ entry_bytes shared (as_bytes key) row_bytes))
    (as_bytes key).
Proof.
  intros Hb Hlast Hsh Htake Hbound Hutf Hord Hrow Hres.
  pose proof (entry_bytes_length shared (as_bytes key) row_bytes) as Hlen.
  pose proof Hb as Hb'. rewrite !blen_app in Hb'. unfold blen in Hb'.
  destruct (entry_reads pre rest shared (as_bytes key) row_bytes) as (c1 & c2 & c3 & c4 & E1 & E2 & E3 & E4 & E5);
    [done|lia|].
  set (whole := pre ++ _ ++ rest) in *. cbn [decode_entries].
  rewrite decide_True by (unfold whole; rewrite !length_app; lia).
  assert (∀ A B (a : A) (f : A → res SegmentBlockCodecError B), (Ok a ≫= f) = f a) as Hbind by done.
  transitivity (Ok restarts' ≫= λ _ : list bytes,
    decode_entries fuel whole restarts' (row_keys ++ [key]) (rows ++ [row])
      (length (pre ++ entry_bytes shared (as_bytes key) row_bytes)) (as_bytes key)); [|done].
  match goal with |- (?m ≫= ?f) = _ => assert (m = Ok restarts') as -> end.
  { unfold restart_step in Hres. destruct (_ =? 0); [|by subst].
    destruct Hres as (-> & o & -> & ->). by rewrite N.eqb_refl. }
  rewrite !Hbind, E1, Hbind, E2, Hbind. cbv beta iota.
  assert ((N.of_nat (length rows) mod RESTART_INTERVAL =? 0) = true → shared = O) as Hzero
    by (intros E; unfold restart_step in Hres; rewrite E in Hres; tauto).
  destruct ((N.of_nat (length rows) mod RESTART_INTERVAL =? 0) && negb (N.of_nat shared =? 0)) eqn:Er.
  { apply andb_true_iff in Er as [->%Hzero Er]. done. }
  rewrite Nat2N.id, Hbound. unfold blen at 1. rewrite (proj2 (N.ltb_ge _ _)) by lia. cbn [orb negb].
  rewrite E3, Hbind. cbv beta iota. rewrite Hutf. cbn [negb].
  unfold checked_add. rewrite decide_True.
  2:{ rewrite length_drop in Hlen. unfold blen. rewrite length_drop. lia. }
  cbn [ok_or]. rewrite Hbind, E4, Hbind. cbv beta iota. rewrite E5, Hbind. cbv beta iota.
  rewrite (cbor_roundtrip _ _ Hrow). cbn [map_err]. rewrite Hbind.
  rewrite Htake, take_drop, of_as_bytes, bool_decide_false by done. done.
Qed.

(** [block_of rows entries restarts last]: the builder's open block after it
    took [rows]. *)
Inductive block_of : list (string * R) → bytes → list N → bytes → Prop :=
| block_nil : block_of [] [] [] []
| block_snoc rows entries restarts last key row row_bytes shared restarts' :
    block_of rows entries restarts last → utf8 (as_bytes key) → cmp key (of_bytes last) ≠ Lt →
    cbor_encode row = Ok row_bytes →
    (if N.of_nat (length rows) mod RESTART_INTERVAL =? 0
     then shared = O ∧ restarts' = restarts ++ [blen entries]
     else shared = shared_prefix_len last (as_bytes key) ∧ restarts' = restarts) →
    block_of (rows ++ [(key, row)]) (entries ++ entry_bytes shared (as_bytes key) row_bytes) restarts'
      (as_bytes key).

Lemma block_of_last rows entries restarts last :
  block_of rows entries restarts last →
  utf8 last ∧ (length last ≤ length entries)%nat ∧ (length rows ≤ length entries)%nat ∧
  last = default [] (as_bytes ∘ fst <$> list.last rows).
Proof.
  induction 1 as [|rows entries restarts last key row row_bytes shared restarts' _ (IH1 & IH2 & IH3 & _) Hutf _ _ Hr];
    [split_and!; [constructor|done..]|].
  pose proof (entry_bytes_length shared (as_bytes key) row_bytes) as Hlen.
  rewrite !length_app, last_snoc. cbn [length]. rewrite length_drop in Hlen. split_and!; [done| |lia|done].
  assert (shared ≤ length last)%nat; [|lia]. destruct (_ =? 0); destruct Hr as [-> _]; [lia|].
  by apply shared_prefix_spec.
Qed.

Lemma block_of_entries_nil rows entries restarts last :
  block_of rows entries restarts last → entries = [] ↔ rows = [].
Proof.
  intros Hb. split; [|destruct Hb as [|rows]; [done|by destruct rows]].
  intros ->. destruct (block_of_last _ _ _ _ Hb) as (_ & _ & Hl & _). by destruct rows; cbn in Hl; [|lia].
Qed.

(** The decoder reads an open block back, whatever follows it. *)
Lemma decode_block_of rows entries restarts last rest extra fuel :
  block_of rows entries restarts last → blen (entries ++ rest) ≤ U32_MAX →
  decode_entries (length rows + fuel) (entries ++ rest) ((to_le_bytes 4 <$> restarts) ++ extra) [] [] 0 [] =
  decode_entries fuel (entries ++ rest) extra (rows.*1) (rows.*2) (length entries) last.
Proof.
  intros Hb. revert rest extra fuel.
  induction Hb as [|rows entries restarts last key row row_bytes shared restarts' Hb IH Hutf Hord Hrow Hr];
    intros rest extra fuel Hle; [done|].
  destruct (block_of_last _ _ _ _ Hb) as (Hul & Hll & _ & _). rewrite <-app_assoc in Hle |- *.
  rewrite length_app, <-Nat.add_assoc. cbn [length Nat.add].
  pose proof Hle as Hle'. rewrite blen_app in Hle'.
  set (extra' := if N.of_nat (length rows) mod RESTART_INTERVAL =? 0 then to_le_bytes 4 (blen entries) :: extra
                 else extra).
  assert ((to_le_bytes 4 <$> restarts') ++ extra = (to_le_bytes 4 <$> restarts) ++ extra') as ->.
  { unfold extra'. destruct (_ =? 0); destruct Hr as [_ ->]; [|done].
    by rewrite fmap_app, <-app_assoc. }
  rewrite IH by done. clear IH.
  assert ((shared ≤ length last)%nat ∧ take shared last = take shared (as_bytes key) ∧
    is_char_boundary last shared = true ∧ utf8_valid (drop shared (as_bytes key)) = true) as (H1 & H2 & H3 & H4).
  { destruct (_ =? 0); destruct Hr as [-> _]; [|by apply shared_prefix_spec].
    split_and!; [lia|done|by destruct last|by apply utf8_valid_spec]. }
  rewrite !fmap_app. apply decode_entry; try done.
  - unfold U32_MAX, U64_MAX in *. lia.
  - unfold restart_step, extra'. rewrite length_fmap. destruct (_ =? 0); [|done].
    destruct Hr as [-> _]. split; [done|]. eexists. split; [done|].
    apply from_to_le_bytes. change (256 ^ N.of_nat 4) with (2 ^ 32). unfold U32_MAX, blen in *. lia.
Qed.
End blocks.

(** ** Sections *)

(** The bytes a handle names. *)
Definition block_range (buffer : bytes) (handle : BlockHandle) : bytes :=
  take (N.to_nat handle.(bh_stored_bytes)) (drop (N.to_nat handle.(bh_offset)) buffer).

Section sections.
Context `{SectionCodecLaws}.

Lemma append_section_Ok buffer payload compress handle buffer' :
  append_section buffer payload compress = Ok (handle, buffer') →
  ∃ stored, buffer' = buffer ++ stored ∧ handle.(bh_offset) = blen buffer ∧
    handle.(bh_stored_bytes) = blen stored ∧ blen payload ≤ U32_MAX ∧
    decode_section stored handle compress = Ok payload.
Proof.
  unfold append_section, handle_bytes. intros E. step_ok E stored Hs. step_ok E n1 E1. step_ok E n2 E2.
  destruct (N.leb_spec (blen stored) U32_MAX); [|done]. destruct (N.leb_spec (blen payload) U32_MAX); [|done].
  simplify_eq. exists stored. split_and!; [done..|]. unfold decode_section. cbn [bh_stored_bytes bh_crc32c bh_decoded_bytes].
  rewrite !N.eqb_refl. cbn [negb]. destruct compress.
  - apply map_err_Ok in Hs. rewrite (zstd_roundtrip _ _ _ Hs). cbn [map_err].
    rewrite take_ge by (unfold blen; lia). cbn. by rewrite N.eqb_refl.
  - simplify_eq. rewrite N.eqb_refl. cbn. by rewrite N.eqb_refl.
Qed.

Lemma block_range_app buffer stored rest handle :
  handle.(bh_offset) = blen buffer → handle.(bh_stored_bytes) = blen stored →
  block_range ((buffer ++ stored) ++ rest) handle = stored.
Proof.
  unfold block_range, blen. intros -> ->.
  by rewrite !Nat2N.id, <-app_assoc, drop_app_length, take_app_length.
Qed.

Lemma chunks_4_le restarts : chunks_4 (concat (to_le_bytes 4 <$> restarts)) = to_le_bytes 4 <$> restarts.
Proof. induction restarts as [|r restarts IH]; [done|]. cbn -[chunks_4] in *. cbn [chunks_4]. by rewrite IH. Qed.

Lemma concat_le_length restarts : blen (concat (to_le_bytes 4 <$> restarts)) = N.of_nat (length restarts) * 4.
Proof.
  unfold blen. induction restarts as [|r restarts IH]; [done|]. cbn [fmap list_fmap concat length].
  rewrite length_app, length_to_le_bytes. lia.
Qed.

Lemma data_block_roundtrip {R} `{CborLaw R} (rows : list (string * R)) entries restarts last stored handle :
  block_of rows entries restarts last →
  let payload := entries ++ concat (to_le_bytes 4 <$> restarts) ++ to_le_bytes 4 (N.of_nat (length restarts)) in
  blen payload ≤ U32_MAX → decode_section stored handle true = Ok payload →
  decode_data_block_rows stored handle = Ok {| ddb_row_keys := rows.*1; ddb_rows := rows.*2 |}.
Proof.
  intros Hb payload Hle Hs. unfold decode_data_block_rows. rewrite Hs.
  change (Ok ?a ≫= ?f) with (f a). cbv beta. unfold payload in *. clear Hs payload.
  pose proof (concat_le_length restarts) as Hc. set (table := concat _) in *.
  pose proof (length_to_le_bytes 4 (N.of_nat (length restarts))) as Hn. set (count := to_le_bytes 4 _) in *.
  rewrite app_assoc in Hle |- *. pose proof Hle as Hle'. rewrite !blen_app in Hle'. unfold blen in Hle', Hc.
  rewrite (proj2 (N.ltb_ge _ _)) by (rewrite !blen_app; unfold blen; lia). cbv zeta.
  replace (length ((entries ++ table) ++ count) - 4)%nat with (length (entries ++ table))
    by (rewrite (length_app (entries ++ table)); lia).
  rewrite take_app_length, drop_app_length. unfold count.
  rewrite from_to_le_bytes by (change (256 ^ N.of_nat 4) with (2 ^ 32); unfold U32_MAX in *; lia).
  rewrite (proj2 (N.leb_le _ U64_MAX)) by (unfold U32_MAX, U64_MAX in *; lia).
  cbn [option_filter]. rewrite (proj2 (N.leb_le _ _)) by (rewrite blen_app; unfold blen; lia).
  cbn [ok_or]. change (Ok ?a ≫= ?f) with (f a). cbv beta.
  replace (length (entries ++ table) - _)%nat with (length entries) by (rewrite length_app; lia).
  rewrite take_app_length, drop_app_length. unfold table. rewrite chunks_4_le.
  destruct (block_of_last _ _ _ _ Hb) as (_ & _ & Hrows & _).
  pose proof (decode_block_of rows entries restarts last [] [] (length entries - length rows) Hb) as Hd.
  rewrite !app_nil_r in Hd. replace (length rows + _)%nat with (length entries) in Hd by lia.
  rewrite Hd by (unfold blen, U32_MAX in *; lia).
  destruct (length entries - length rows)%nat; cbn [decode_entries]; by rewrite decide_False by lia.
Qed.
End sections.

(** ** Segments *)

(** What a writer does to a builder. *)
Inductive push_op (R : Type) :=
| PushRow (row_key filter_key : string) (row : R)
| PushFilterKey (filter_key : string)
| PushExtentName (name : string).
Arguments PushRow {R}. Arguments PushFilterKey {R}. Arguments PushExtentName {R}.

Definition push_rows {R} (ops : list (push_op R)) : list (string * R) :=
  omap (λ op, match op with PushRow key _ row => Some (key, row) | _ => None end) ops.
Definition push_filter_keys {R} (ops : list (push_op R)) : list string :=
  omap (λ op, match op with PushRow _ key _ | PushFilterKey key => Some key | _ => None end) ops.
Definition push_extent_names {R} (ops : list (push_op R)) : list string :=
  omap (λ op, match op with PushExtentName name => Some name | _ => None end) ops.

Section segments.
Context `{SectionCodecLaws} {R : Type} `{CborLaw R}.
Implicit Types (ops : list (push_op R)) (blocks : list (list (string * R))) (b : SegmentBlocksBuilder).

Definition push_step b (op : push_op R) : res SegmentBlockCodecError SegmentBlocksBuilder :=
  match op with
  | PushRow key filter_key row => segment_push b key filter_key row
  | PushFilterKey filter_key => Ok (push_filter_key b filter_key)
  | PushExtentName name => push_extent_name b name
  end.
Definition push_all b ops : res SegmentBlockCodecError SegmentBlocksBuilder :=
  foldl (λ m op, b ← m; push_step b op) (Ok b) ops.

(** A new builder, with or without an extent filter. *)
Definition new_builder (target : N) (extents : bool) : SegmentBlocksBuilder :=
  if extents then with_extent_filter (SegmentBlocksBuilder_new target) else SegmentBlocksBuilder_new target.

(** The closed blocks: their rows, the object bytes so far and the index. *)
Inductive finished : list (list (string * R)) → bytes → list SegmentIndexEntry → Prop :=
| finished_nil : finished [] [] []
| finished_snoc blocks buffer index rows entries restarts last handle buffer' :
    finished blocks buffer index → block_of rows entries restarts last → rows ≠ [] →
    append_section buffer
      (entries ++ concat (to_le_bytes 4 <$> restarts) ++ to_le_bytes 4 (N.of_nat (length restarts))) true =
      Ok (handle, buffer') →
    finished (blocks ++ [rows]) buffer'
      (index ++ [{| sie_last_row_key := of_bytes last; sie_block := handle |}]).

(** The rows of a block read back from the object's bytes. *)
Definition holds_block (buffer : bytes) (entry : SegmentIndexEntry) (rows : list (string * R)) : Prop :=
  decode_data_block_rows (block_range buffer entry.(sie_block)) entry.(sie_block) =
    Ok {| ddb_row_keys := rows.*1; ddb_rows := rows.*2 |} ∧
  list.last rows.*1 = Some entry.(sie_last_row_key).

Lemma finished_holds blocks buffer index :
  finished blocks buffer index → ∀ rest, Forall2 (holds_block (buffer ++ rest)) index blocks.
Proof.
  induction 1 as [|blocks buffer index rows entries restarts last handle buffer' _ IH Hb Hne Ha];
    intros rest; [constructor|].
  apply append_section_Ok in Ha as (stored & -> & Hoff & Hst & Hle & Hdec). apply Forall2_app.
  - rewrite <-app_assoc. apply IH.
  - constructor; [|constructor]. split.
    + cbn [sie_block]. rewrite block_range_app by done. by eapply data_block_roundtrip.
    + cbn [sie_last_row_key]. rewrite fmap_last.
      destruct (block_of_last _ _ _ _ Hb) as (_ & _ & _ & ->).
      destruct (last_is_Some rows) as [_ Hsome]. destruct (Hsome Hne) as [[k r] ->]. cbn. by rewrite of_as_bytes.
Qed.

(** Where the checks of an index stand after some entries. *)
Definition index_end (index : list SegmentIndexEntry) : option (string * N) :=
  (λ e, (e.(sie_last_row_key), e.(sie_block).(bh_offset) + e.(sie_block).(bh_stored_bytes)))
    <$> list.last index.

Lemma check_index_snoc index entry :
  check_index None index = Ok () →
  entry.(sie_block).(bh_offset) + entry.(sie_block).(bh_stored_bytes) ≤ U64_MAX →
  (∀ key stop, index_end index = Some (key, stop) →
     kle key entry.(sie_last_row_key) ∧ entry.(sie_block).(bh_offset) = stop) →
  check_index None (index ++ [entry]) = Ok ().
Proof.
  assert (∀ previous, check_index previous index = Ok () →
    entry.(sie_block).(bh_offset) + entry.(sie_block).(bh_stored_bytes) ≤ U64_MAX →
    (∀ key stop, (if index_end index is Some e then Some e else previous) = Some (key, stop) →
       kle key entry.(sie_last_row_key) ∧ entry.(sie_block).(bh_offset) = stop) →
    check_index previous (index ++ [entry]) = Ok ()) as Hgen; [|intros; apply Hgen; [done..|]; by destruct (index_end index)].
  induction index as [|e index IH]; intros previous Hc Hle Hp.
  - cbn [app check_index]. unfold checked_add. rewrite decide_True by done. cbn.
    destruct previous as [[key stop]|]; [|done]. destruct (Hp key stop eq_refl) as [Hk ->].
    rewrite bool_decide_false by done. by rewrite N.eqb_refl.
  - cbn [app check_index] in Hc |- *. step_ok Hc stop Hs. step_ok Hc u Hu. rewrite Hs.
    cbn [mbind res_bind]. rewrite Hu. cbn [mbind res_bind]. apply IH; [done..|].
    unfold index_end in Hp |- *. rewrite last_cons in Hp. destruct (list.last index); [done|].
    apply ok_or_Ok in Hs. unfold checked_add in Hs. by case_decide; simplify_eq.
Qed.

Lemma finished_index blocks buffer index :
  finished blocks buffer index → StronglySorted kle (concat blocks).*1 → blen buffer ≤ U64_MAX →
  check_index None index = Ok () ∧
  ∀ key stop, index_end index = Some (key, stop) → stop = blen buffer ∧ key ∈ (concat blocks).*1.
Proof.
  induction 1 as [|blocks buffer index rows entries restarts last handle buffer' _ IH Hb Hne Ha];
    intros Hsort Hle; [done|].
  apply append_section_Ok in Ha as (stored & -> & Hoff & Hst & _).
  rewrite concat_app, fmap_app in Hsort |- *. cbn [concat] in *. rewrite app_nil_r in *. rewrite blen_app in Hle |- *.
  apply sorted_app_inv in Hsort as (Hsort & _ & Hcross). destruct IH as [IH1 IH2]; [done|lia|].
  assert (of_bytes last ∈ rows.*1) as Hlast.
  { destruct (block_of_last _ _ _ _ Hb) as (_ & _ & _ & ->).
    destruct (last_is_Some rows) as [_ Hsome]. destruct (Hsome Hne) as [[k r] Hk].
    rewrite Hk. cbn. rewrite of_as_bytes. apply list_elem_of_fmap. exists (k, r). split; [done|].
    by apply last_elem_of. }
  split.
  - apply check_index_snoc; [done|cbn; lia|]. intros key stop Hend.
    destruct (IH2 _ _ Hend) as [-> Hin]. by split; [apply Hcross|].
  - intros key stop. unfold index_end. rewrite last_snoc. intros [= <- <-]. cbn. split; [lia|].
    apply elem_of_app. by right.
Qed.

(** The state of a builder after [ops]. *)
Record builder_ok (extents : bool) ops b : Prop := {
  bo_blocks : ∃ blocks open last,
    finished blocks b.(sb_bytes) b.(sb_index) ∧ block_of open b.(sb_entries) b.(sb_restarts) last ∧
    concat blocks ++ open = push_rows ops ∧ b.(sb_entry_count) = N.of_nat (length open);
  bo_row_count : b.(sb_row_count) = N.of_nat (length (push_rows ops));
  bo_previous : b.(sb_previous_key) = default [] (as_bytes <$> list.last (push_rows ops).*1);
  bo_min : b.(sb_min_row_key) = default [] (as_bytes <$> head (push_rows ops).*1);
  bo_sorted : StronglySorted kle (push_rows ops).*1;
  bo_filter : b.(sb_filter_hashes) = filter_key_hashes <$> push_filter_keys ops;
  bo_extents : b.(sb_extent_hashes) =
    if extents then Some (filter_key_hashes <$> push_extent_names ops) else None;
}.

Lemma new_builder_ok target extents : builder_ok extents [] (new_builder target extents).
Proof.
  split; try by destruct extents.
  - exists [], [], []. destruct extents; (split_and!; [constructor|constructor|done..]).
  - constructor.
Qed.


Lemma finish_ok extents ops b b' :
  builder_ok extents ops b → finish_data_block b = Ok b' →
  builder_ok extents ops b' ∧ b'.(sb_entries) = [] ∧ b'.(sb_target_block_bytes) = b.(sb_target_block_bytes).
Proof.
  intros Hok Hf. unfold finish_data_block in Hf.
  destruct b.(sb_entries) as [|a entries] eqn:Ee; [by simplify_eq|]. rewrite <-Ee in Hf.
  step_ok Hf count Hcount. unfold expect_u32 in Hcount. case_match; [|done]. injection Hcount as <-.
  step_ok Hf hb Ha. destruct hb as [handle buffer']. cbv beta iota in Ha. injection Hf as <-.
  destruct Hok as [(blocks & open & last & Hfin & Hopen & Heq & Hcount) Hrc Hprev Hmin Hsort Hfil Hext].
  assert (open ≠ []) as Hne.
  { intros Hn%(block_of_entries_nil _ _ _ _ Hopen). congruence. }
  split; [|done]. split; cbn; try done. exists (blocks ++ [open]), [], []. split_and!.
  - replace (of_bytes (sb_previous_key b)) with (of_bytes last); [by econstructor|]. f_equal.
    destruct (block_of_last _ _ _ _ Hopen) as (_ & _ & _ & ->). rewrite Hprev, <-Heq, fmap_app, last_app, fmap_last.
    destruct (last_is_Some open) as [_ Hsome]. destruct (Hsome Hne) as [[k r] Hk].
    by rewrite Hk.
  - constructor.
  - by rewrite concat_app, app_nil_r, <-Heq; cbn; rewrite app_nil_r.
  - done.
Qed.

(** The builder after an accepted row, before a full block is closed. *)
Definition with_row b (key filter_key : string) (row_bytes : bytes) : SegmentBlocksBuilder :=
  let restart := b.(sb_entry_count) mod RESTART_INTERVAL =? 0 in
  let entry := entry_bytes (if restart then O else shared_prefix_len b.(sb_previous_key) (as_bytes key))
    (as_bytes key) row_bytes in
  {| sb_target_block_bytes := b.(sb_target_block_bytes); sb_entries := b.(sb_entries) ++ entry;
     sb_restarts := if restart then b.(sb_restarts) ++ [blen b.(sb_entries)] else b.(sb_restarts);
     sb_entry_count := b.(sb_entry_count) + 1; sb_previous_key := as_bytes key;
     sb_bytes := b.(sb_bytes); sb_index := b.(sb_index);
     sb_decoded_data_bytes := b.(sb_decoded_data_bytes) + blen entry;
     sb_filter_hashes := b.(sb_filter_hashes) ++ [filter_key_hashes filter_key];
     sb_extent_hashes := b.(sb_extent_hashes); sb_row_count := b.(sb_row_count) + 1;
     sb_min_row_key := if b.(sb_row_count) =? 0 then as_bytes key else b.(sb_min_row_key) |}.

Lemma segment_push_Ok b key filter_key (row : R) b' :
  segment_push b key filter_key row = Ok b' →
  (b.(sb_row_count) ≠ 0 → kle (of_bytes b.(sb_previous_key)) key) ∧
  ∃ row_bytes, cbor_encode row = Ok row_bytes ∧
    let b1 := with_row b key filter_key row_bytes in
    if b1.(sb_target_block_bytes) <=? blen b1.(sb_entries) then finish_data_block b1 = Ok b' else b' = b1.
Proof.
  unfold segment_push, push_with_encoded_row. intros E. step_ok E hb Hp. destruct hb as [rb b2].
  cbv beta iota in E. injection E as <-. rename Hp into E.
  destruct (negb (sb_row_count b =? 0) && bool_decide _) eqn:Eord; [done|].
  split.
  { intros Hne%N.eqb_neq. rewrite Hne in Eord. cbn in Eord. apply not_lt_kle. by apply bool_decide_eq_false in Eord. }
  step_ok E restarts Hr. step_ok E row_bytes Hrow. apply map_err_Ok in Hrow. exists row_bytes. split; [done|].
  step_ok E b3 Hb3. injection E as <- <-.
  assert (restarts = if b.(sb_entry_count) mod RESTART_INTERVAL =? 0
    then b.(sb_restarts) ++ [blen b.(sb_entries)] else b.(sb_restarts)) as ->.
  { destruct (_ mod _ =? 0); [|by simplify_eq]. step_ok Hr offset Ho. unfold expect_u32 in Ho.
    destruct (blen (sb_entries b) <=? U32_MAX); [|done]. injection Ho as <-. by injection Hr as <-. }
  unfold with_row. cbv zeta. destruct (_ <=? _) in Hb3 |- *; [done|]. by injection Hb3 as <-.
Qed.

Lemma with_row_ok extents ops b key filter_key row row_bytes :
  builder_ok extents ops b → utf8 (as_bytes key) → cbor_encode row = Ok row_bytes →
  (b.(sb_row_count) ≠ 0 → kle (of_bytes b.(sb_previous_key)) key) →
  builder_ok extents (ops ++ [PushRow key filter_key row]) (with_row b key filter_key row_bytes).
Proof.
  intros [(blocks & open & last & Hfin & Hopen & Heq & Hcount) Hrc Hprev Hmin Hsort Hfil Hext] Hutf Hrow Hord.
  assert (Hpush : push_rows (ops ++ [PushRow key filter_key row]) = push_rows ops ++ [(key, row)])
    by (unfold push_rows; by rewrite omap_app).
  assert (Hkeys : (push_rows (ops ++ [PushRow key filter_key row])).*1 = (push_rows ops).*1 ++ [key])
    by (by rewrite Hpush, fmap_app).
  assert (Hlast : open ≠ [] → b.(sb_previous_key) = last).
  { intros Hne. destruct (block_of_last _ _ _ _ Hopen) as (_ & _ & _ & ->).
    destruct (last_is_Some open) as [_ Hsome]. destruct (Hsome Hne) as [[k r] Hk].
    by rewrite Hprev, <-Heq, fmap_app, last_app, fmap_last, Hk. }
  split.
  - exists blocks, (open ++ [(key, row)]), (as_bytes key). cbn [sb_bytes sb_index with_row]. split_and!; [done| | |].
    + unfold with_row. cbn [sb_entries sb_restarts]. rewrite Hcount. eapply (block_snoc open _ _ last); [done|done| |done|].
      * destruct (decide (open = [])) as [->|Hne].
        { inversion Hopen as [E|]; [by destruct key|]. by destruct rows. }
        rewrite <-Hlast by done. intros Hlt. apply Hord; [|by apply cmp_gt_lt].
        rewrite Hrc, <-Heq, length_app. destruct open; [done|]. cbn. lia.
      * destruct (_ =? 0) eqn:E0; [done|]. split; [|done]. f_equal. apply Hlast. by intros ->.
    + by rewrite Hpush, <-Heq, app_assoc.
    + cbn. rewrite Hcount, length_app. cbn. lia.
  - rewrite Hpush, length_app. cbn. lia.
  - by rewrite Hkeys, last_snoc.
  - rewrite Hkeys. cbn. rewrite Hrc, Hmin. by destruct (push_rows ops).
  - rewrite Hkeys. apply sorted_snoc; [done|]. intros z Hz.
    rewrite Hprev, Hz in Hord. cbn in Hord. rewrite of_as_bytes in Hord. apply Hord.
    rewrite Hrc. by destruct (push_rows ops).
  - cbn. unfold push_filter_keys. by rewrite omap_app, fmap_app, Hfil.
  - cbn. unfold push_extent_names. rewrite omap_app, app_nil_r. done.
Qed.

Lemma push_step_ok extents ops b op b' :
  builder_ok extents ops b → (∀ key filter_key row, op = PushRow key filter_key row → utf8 (as_bytes key)) →
  push_step b op = Ok b' → builder_ok extents (ops ++ [op]) b'.
Proof.
  intros Hok Hutf Hstep. destruct op as [key filter_key row|filter_key|name]; cbn [push_step] in Hstep.
  - apply segment_push_Ok in Hstep as (Hord & row_bytes & Hrow & Hb).
    pose proof (with_row_ok _ _ _ _ filter_key _ _ Hok (Hutf _ _ _ eq_refl) Hrow Hord) as Hok'.
    cbv zeta in Hb. destruct (_ <=? _) in Hb; [|by subst]. by eapply finish_ok.
  - injection Hstep as <-. destruct Hok as [Hbl Hrc Hprev Hmin Hsort Hfil Hext].
    assert (Hpush : push_rows (ops ++ [PushFilterKey filter_key]) = push_rows ops)
      by (unfold push_rows; by rewrite omap_app, app_nil_r).
    split; rewrite ?Hpush; try done.
    + cbn. unfold push_filter_keys. by rewrite omap_app, fmap_app, Hfil.
    + cbn. unfold push_extent_names. by rewrite omap_app, app_nil_r.
  - unfold push_extent_name in Hstep. destruct Hok as [Hbl Hrc Hprev Hmin Hsort Hfil Hext].
    rewrite Hext in Hstep. destruct extents; [|done]. injection Hstep as <-.
    assert (Hpush : push_rows (ops ++ [PushExtentName name]) = push_rows ops)
      by (unfold push_rows; by rewrite omap_app, app_nil_r).
    split; rewrite ?Hpush; try done.
    + cbn. unfold push_filter_keys. by rewrite omap_app, app_nil_r.
    + cbn. unfold push_extent_names. by rewrite omap_app, fmap_app.
Qed.

Lemma push_all_snoc b ops op : push_all b (ops ++ [op]) = (b ← push_all b ops; push_step b op).
Proof. unfold push_all. by rewrite foldl_app. Qed.

(** The keys of the rows are strings. *)
Definition utf8_keys ops : Prop := Forall (λ row : string * R, utf8 (as_bytes row.1)) (push_rows ops).

Lemma push_all_ok target extents ops b :
  utf8_keys ops → push_all (new_builder target extents) ops = Ok b → builder_ok extents ops b.
Proof.
  revert b. induction ops as [|op ops IH] using rev_ind; intros b Hutf Hpush.
  { injection Hpush as <-. apply new_builder_ok. }
  rewrite push_all_snoc in Hpush. step_ok Hpush b0 Hb0.
  unfold utf8_keys, push_rows in Hutf. rewrite omap_app, Forall_app in Hutf. destruct Hutf as [Hutf Hop].
  eapply push_step_ok; [by apply IH| |done]. intros key filter_key row ->. by inversion Hop.
Qed.
End segments.

(** ** Filters *)
Definition bit_set (bits : bytes) (bit : N) : Prop :=
  ∃ b, bits !! N.to_nat (bit / 8) = Some b ∧ N.testbit (N_of_ascii b) (bit mod 8) = true.

Lemma lt_256_bits n : n < 256 ↔ ∀ i, 8 ≤ i → N.testbit n i = false.
Proof.
  split.
  - intros Hn i Hi. rewrite <-(N.mod_small n (2 ^ 8)) by done. by rewrite N.mod_pow2_bits_high.
  - intros Hb. destruct (N.lt_ge_cases n 256) as [|Hge]; [done|].
    assert (8 ≤ N.log2 n) as Hl by (change 8 with (N.log2 256); by apply N.log2_le_mono).
    apply Hb in Hl. by rewrite N.bit_log2 in Hl by lia.
Qed.

Lemma set_bit_correct bits bit :
  bit / 8 < blen bits →
  ∃ bits', set_bit bits bit = Ok bits' ∧ length bits' = length bits ∧ bit_set bits' bit ∧
    ∀ other, bit_set bits other → bit_set bits' other.
Proof.
  intros Hlt. unfold set_bit, blen in *. destruct (lookup_lt_is_Some_2 bits (N.to_nat (bit / 8))) as [b Hb]; [lia|].
  rewrite Hb. cbn. set (b' := byte _).
  assert (N_of_ascii b' = N.lor (N_of_ascii b) (N.shiftl 1 (bit mod 8))) as Hval.
  { apply N_of_byte, lt_256_bits. intros i Hi. rewrite N.lor_spec.
    rewrite (proj1 (lt_256_bits _) (N_ascii_bounded b)) by done. pose proof (N.mod_lt bit 8 ltac:(lia)).
    rewrite N.shiftl_spec_high' by lia. apply N.bits_above_log2. cbn. lia. }
  assert (∀ i, N.testbit (N_of_ascii b) i = true → N.testbit (N_of_ascii b') i = true) as Hmono.
  { intros i Hi. by rewrite Hval, N.lor_spec, Hi. }
  eexists. split_and!; [done|by rewrite length_insert| |].
  - exists b'. split; [apply list_lookup_insert_eq; lia|].
    rewrite Hval, N.lor_spec, N.shiftl_spec_high' by lia. rewrite N.sub_diag. by rewrite orb_true_r.
  - intros other (c & Hc & Ht). destruct (decide (N.to_nat (bit / 8) = N.to_nat (other / 8))) as [E|E].
    + rewrite <-E, Hb in Hc. simplify_eq. exists b'. split; [|by apply Hmono].
      rewrite <-E. apply list_lookup_insert_eq. lia.
    + exists c. by rewrite list_lookup_insert_ne.
Qed.

Section filters.
Context `{SectionCodecs}.

Definition probes_in (bits : bytes) (bit_len : N) (h : N * N) (from count : N) : Prop :=
  ∀ probe, from ≤ probe < from + count → bit_set bits (probe_bit h bit_len probe).

Lemma probe_byte h bit_len probe : 64 ≤ bit_len → probe_bit h bit_len probe / 8 < (bit_len + 7) / 8.
Proof.
  intros Hb. unfold probe_bit. set (x := wrapping_u64 _). pose proof (N.mod_lt x bit_len ltac:(lia)) as Hlt.
  apply N.lt_le_trans with ((x mod bit_len + 8) / 8).
  - replace (x mod bit_len + 8) with (x mod bit_len + 1 * 8) by lia. rewrite N.div_add by lia. lia.
  - apply N.Div0.div_le_mono. lia.
Qed.

Lemma insert_probes_correct count probe bit_len bits h :
  64 ≤ bit_len → blen bits = (bit_len + 7) / 8 →
  ∃ bits', insert_probes count probe (mkSegmentFilterBuilder bit_len bits) h =
      Ok (mkSegmentFilterBuilder bit_len bits') ∧
    blen bits' = (bit_len + 7) / 8 ∧ probes_in bits' bit_len h probe (N.of_nat count) ∧
    ∀ other, bit_set bits other → bit_set bits' other.
Proof.
  intros Hb. revert probe bits. induction count as [|count IH]; intros probe bits Hl.
  - exists bits. split_and!; [done|done| |done]. intros p Hp. lia.
  - cbn [insert_probes fb_bits fb_bit_len].
    destruct (set_bit_correct bits (probe_bit h bit_len probe)) as (bits1 & -> & Hl1 & Hs1 & Hm1).
    { rewrite Hl. by apply probe_byte. }
    cbn. destruct (IH (probe + 1) bits1) as (bits2 & E2 & Hl2 & Hs2 & Hm2); [unfold blen in *; congruence|].
    exists bits2. split_and!; [done|done| |by eauto].
    intros p Hp. destruct (decide (p = probe)) as [->|Hne]; [by apply Hm2|]. apply Hs2. lia.
Qed.

Lemma insert_all_correct hashes bit_len bits :
  64 ≤ bit_len → blen bits = (bit_len + 7) / 8 →
  ∃ bits', insert_all (mkSegmentFilterBuilder bit_len bits) hashes = Ok (mkSegmentFilterBuilder bit_len bits') ∧
    blen bits' = (bit_len + 7) / 8 ∧
    (∀ h, h ∈ hashes → probes_in bits' bit_len h 0 FILTER_HASH_COUNT) ∧
    ∀ other, bit_set bits other → bit_set bits' other.
Proof.
  intros Hb. revert bits. induction hashes as [|h hashes IH]; intros bits Hl.
  - exists bits. split_and!; [done|done| |done]. intros h Hh. by apply not_elem_of_nil in Hh.
  - cbn [insert_all]. unfold insert_hashes.
    destruct (insert_probes_correct (N.to_nat FILTER_HASH_COUNT) 0 bit_len bits h) as (bits1 & -> & Hl1 & Hs1 & Hm1);
      [done..|].
    destruct (IH bits1 Hl1) as (bits2 & E2 & Hl2 & Hs2 & Hm2). exists bits2. split_and!; [done|done| |by eauto].
    intros h' [->|Hin]%elem_of_cons; [|by apply Hs2]. intros p Hp. by apply Hm2, Hs1.
Qed.

Lemma probes_set_correct count probe filter h :
  probes_in filter.(sf_bits) filter.(sf_bit_len) h probe (N.of_nat count) →
  probes_set count probe filter h = Ok true.
Proof.
  revert probe. induction count as [|count IH]; intros probe Hp; [done|]. cbn [probes_set].
  destruct (Hp probe) as (b & Hb & Ht); [lia|]. rewrite Hb. cbn [expect mbind res_bind].
  destruct (N.eqb_spec (N.land (N_of_ascii b) (N.shiftl 1 (probe_bit h (sf_bit_len filter) probe mod 8))) 0) as [E|_].
  - exfalso. apply (f_equal (λ n, N.testbit n (probe_bit h (sf_bit_len filter) probe mod 8))) in E.
    rewrite N.land_spec, Ht, N.shiftl_spec_high', N.sub_diag in E by lia. done.
  - apply IH. intros p Hr. apply Hp. lia.
Qed.

(** A payload built from hashes decodes to a filter that admits them. *)
Lemma filter_payload_admits hashes bits_per_key :
  ∃ payload, build_filter_payload hashes bits_per_key = Ok payload ∧
    ∃ filter, from_payload payload = Ok filter ∧ ∀ h, h ∈ hashes → may_contain_hashes filter h = Ok true.
Proof.
  unfold build_filter_payload, with_bits_per_key.
  set (bit_len := N.max _ 64). assert (64 ≤ bit_len) as H64 by lia.
  assert (bit_len < 256 ^ N.of_nat 8) as Hlt.
  { unfold bit_len, U64_MAX. change (256 ^ N.of_nat 8) with (2 ^ 64). lia. }
  destruct (insert_all_correct hashes bit_len (replicate (N.to_nat ((bit_len + 7) / 8)) (byte 0)))
    as (bits & -> & Hl & Hs & _); [done|unfold blen; rewrite length_replicate; lia|].
  cbn [mbind res_bind]. eexists. split; [done|]. unfold filter_finish. cbn [fb_bit_len fb_bits].
  exists {| sf_n_hashes := FILTER_HASH_COUNT; sf_bit_len := bit_len; sf_bits := bits |}. split.
  - unfold from_payload. rewrite !blen_app. unfold blen at 1 2. rewrite !length_to_le_bytes.
    rewrite (proj2 (N.ltb_ge _ _)) by lia.
    rewrite take_app_length' by (by rewrite length_to_le_bytes). rewrite (drop_app_length' _ _ 4) by (by rewrite length_to_le_bytes).
    rewrite take_app_length' by (by rewrite length_to_le_bytes).
    rewrite (app_assoc (to_le_bytes 4 _)), drop_app_length' by (rewrite length_app, !length_to_le_bytes; done).
    rewrite !from_to_le_bytes by done. cbn [negb N.eqb]. rewrite N.eqb_refl. cbn [negb].
    rewrite (proj2 (N.ltb_ge _ _)) by lia. by rewrite Hl, N.eqb_refl.
  - intros h Hh. apply probes_set_correct. cbn [sf_bits sf_bit_len sf_n_hashes]. rewrite N2Nat.id. by apply Hs.
Qed.
End filters.

(** ** Built segments *)
Section built.
Context `{SectionCodecLaws} {R : Type} `{CborLaw R} `{CborLaw (list SegmentIndexEntry)}.
Implicit Types (ops : list (push_op R)) (b : SegmentBlocksBuilder) (built : BuiltSegmentBlocks).

(** A filter section that decodes and admits every key. *)
Definition filter_admits (buffer : bytes) (handle : BlockHandle) (keys : list string) : Prop :=
  ∃ filter, decode_filter_block (block_range buffer handle) handle = Ok filter ∧
    ∀ key, key ∈ keys → may_contain filter key = Ok true.

Lemma append_filter_admits buffer keys bits_per_key payload handle buffer' rest :
  build_filter_payload (filter_key_hashes <$> keys) bits_per_key = Ok payload →
  append_section buffer payload false = Ok (handle, buffer') →
  filter_admits (buffer' ++ rest) handle keys.
Proof.
  intros Hp Ha. apply append_section_Ok in Ha as (stored & -> & Hoff & Hst & _ & Hdec).
  destruct (filter_payload_admits (filter_key_hashes <$> keys) bits_per_key) as (p & Hp' & filter & Hf & Hadm).
  rewrite Hp in Hp'. injection Hp' as <-. exists filter. rewrite block_range_app by done. split.
  - unfold decode_filter_block. by rewrite Hdec.
  - intros key Hkey. apply Hadm. by apply list_elem_of_fmap_2.
Qed.

Lemma append_section_prefix buffer payload compress handle buffer' :
  append_section buffer payload compress = Ok (handle, buffer') → ∃ more, buffer' = buffer ++ more.
Proof. intros (stored & -> & _)%append_section_Ok. by exists stored. Qed.

(** Everything a segment's readers use, from the builder's state. *)
Lemma segment_build_Ok extents ops b built :
  builder_ok extents ops b → segment_build b = Ok built → blen built.(bsb_bytes) ≤ U64_MAX →
  ∃ index blocks,
    decode_index_block (block_range built.(bsb_bytes) built.(bsb_index)) built.(bsb_index) = Ok index ∧
    Forall2 (holds_block built.(bsb_bytes)) index blocks ∧ concat blocks = push_rows ops ∧
    built.(bsb_row_count) = N.of_nat (length (push_rows ops)) ∧
    head (push_rows ops).*1 = Some built.(bsb_min_row_key) ∧
    list.last (push_rows ops).*1 = Some built.(bsb_max_row_key) ∧
    filter_admits built.(bsb_bytes) built.(bsb_filter) (push_filter_keys ops) ∧
    match built.(bsb_extent_filter) with
    | Some handle => extents = true ∧ filter_admits built.(bsb_bytes) handle (push_extent_names ops)
    | None => extents = false
    end.
Proof.
  intros Hok Hb Hle. unfold segment_build in Hb. destruct (N.eqb_spec b.(sb_row_count) 0) as [|Hne]; [done|].
  rewrite (bo_row_count _ _ _ Hok) in Hne.
  step_ok Hb b1 Hfin. apply (finish_ok _ _ _ _ Hok) in Hfin as (Hok1 & He & _). clear Hok.
  destruct Hok1 as [(blocks & open & last & Hdone & Hopen & Heq & _) Hrc Hprev Hmin Hsort Hfil Hext].
  apply (block_of_entries_nil _ _ _ _ Hopen) in He as ->. rewrite app_nil_r in Heq.
  step_ok Hb eb Hext'. destruct eb as [extent_filter buf1]. cbv beta iota in Hb.
  step_ok Hb fp Hfp. step_ok Hb fb Hfb. destruct fb as [fh buf2]. cbv beta iota in Hb.
  step_ok Hb ip Hip. apply map_err_Ok in Hip. step_ok Hb ib Hib. destruct ib as [ih buf3]. cbv beta iota in Hb.
  injection Hb as <-. cbn in Hle |- *.
  assert (∃ m1, buf1 = b1.(sb_bytes) ++ m1 ∧ ∀ rest,
    match extent_filter with
    | Some handle => extents = true ∧ filter_admits (buf1 ++ rest) handle (push_extent_names ops)
    | None => extents = false
    end) as (m1 & -> & Hadm1).
  { rewrite Hext in Hext'. destruct extents.
    - step_ok Hext' payload Hp. step_ok Hext' hb Ha. destruct hb as [handle buffer]. injection Hext' as <- <-.
      destruct (append_section_prefix _ _ _ _ _ Ha) as [m ->]. exists m. split; [done|].
      intros rest. split; [done|]. by eapply append_filter_admits.
    - injection Hext' as <- <-. exists []. by rewrite app_nil_r. }
  rewrite Hfil in Hfp.
  pose proof (λ rest, append_filter_admits _ _ _ _ _ _ rest Hfp Hfb) as Hadm.
  apply append_section_prefix in Hfb as [m2 ->].
  apply append_section_Ok in Hib as (m3 & -> & Hoff & Hst & _ & Hdec).
  pose proof (finished_holds _ _ _ Hdone ((m1 ++ m2) ++ m3)) as Hholds.
  rewrite !blen_app in Hle. destruct (finished_index _ _ _ Hdone) as [Hcheck _]; [by rewrite Heq|lia|].
  exists b1.(sb_index), blocks. split_and!.
  - rewrite <-(app_nil_r (_ ++ m3)), block_range_app by done. unfold decode_index_block. rewrite Hdec. cbn [mbind res_bind].
    rewrite (cbor_roundtrip _ _ Hip). cbn [map_err mbind res_bind]. by rewrite Hcheck.
  - by rewrite !app_assoc in Hholds.
  - done.
  - done.
  - rewrite Hmin. destruct (push_rows ops) as [|[k r] rows]; [done|]. cbn. by rewrite of_as_bytes.
  - rewrite Hprev, fmap_last. destruct (list.last (push_rows ops)) as [[k r]|] eqn:El.
    + cbn. by rewrite of_as_bytes.
    + apply last_None in El. by rewrite El in Hne.
  - apply Hadm.
  - rewrite <-app_assoc. apply Hadm1.
Qed.

(** C26 A segment round trip: when the builder accepts a sequence of rows and
    builds, the keys were in order, the index section decodes, and its entries
    name the data blocks whose decoded rows are, block after block, exactly
    the pushed rows; each entry carries its block's last key, and the segment's
    row count and key bounds are those of the pushed rows.  CBOR and zstd are
    assumed to undo their own encoding; keys are UTF-8, as any Rust string, and
    the object fits in memory. *)
Theorem segment_roundtrip target extents ops b built :
  utf8_keys ops → push_all (new_builder target extents) ops = Ok b → segment_build b = Ok built →
  blen built.(bsb_bytes) ≤ U64_MAX →
  StronglySorted kle (push_rows ops).*1 ∧
  built.(bsb_row_count) = N.of_nat (length (push_rows ops)) ∧
  head (push_rows ops).*1 = Some built.(bsb_min_row_key) ∧
  list.last (push_rows ops).*1 = Some built.(bsb_max_row_key) ∧
  ∃ index blocks,
    decode_index_block (block_range built.(bsb_bytes) built.(bsb_index)) built.(bsb_index) = Ok index ∧
    Forall2 (holds_block built.(bsb_bytes)) index blocks ∧ concat blocks = push_rows ops.
Proof.
  intros Hutf Hpush Hbuild Hle. pose proof (push_all_ok _ _ _ _ Hutf Hpush) as Hok.
  destruct (segment_build_Ok _ _ _ _ Hok Hbuild Hle) as (index & blocks & H1' & H2' & H3' & H4' & H5' & H6' & _).
  split_and!; [by eapply bo_sorted|done..|]. by exists index, blocks.
Qed.

(** C27 Filters give no false negatives: the filter section of a built segment
    decodes, and so does the extent filter when there is one, and probing
    either for a key that was pushed answers true; no probe reads past the
    filter's bits. *)
Theorem segment_filters_admit target extents ops b built :
  utf8_keys ops → push_all (new_builder target extents) ops = Ok b → segment_build b = Ok built →
  blen built.(bsb_bytes) ≤ U64_MAX →
  filter_admits built.(bsb_bytes) built.(bsb_filter) (push_filter_keys ops) ∧
  (is_Some built.(bsb_extent_filter) ↔ extents = true) ∧
  ∀ handle, built.(bsb_extent_filter) = Some handle →
    filter_admits built.(bsb_bytes) handle (push_extent_names ops).
Proof.
  intros Hutf Hpush Hbuild Hle. pose proof (push_all_ok _ _ _ _ Hutf Hpush) as Hok.
  destruct (segment_build_Ok _ _ _ _ Hok Hbuild Hle) as (_ & _ & _ & _ & _ & _ & _ & _ & Hf & He).
  split; [done|]. destruct (bsb_extent_filter built) as [h|]; [|split; [|done]]; subst.
  - destruct He as [-> He]. split; [done|]. by intros ? [= <-].
  - split; [by intros [? [=]]|done].
Qed.
End built.

(** ** What the writer rejects *)
Section rejects.
Context `{SectionCodecLaws} {R : Type} `{CborLaw R} `{CborLaw (list SegmentIndexEntry)}.
Implicit Types (ops : list (push_op R)) (b : SegmentBlocksBuilder).

(** An error of the codecs or of a section's size. *)
Definition codec_error (e : SegmentBlockCodecError) : Prop :=
  match e with Malformed _ | CodecFailed _ => True | _ => False end.
Definition codec_errors {A} (m : res SegmentBlockCodecError A) : Prop := ∀ e, m = Err e → codec_error e.

Lemma codec_errors_bind {A B} (m : res SegmentBlockCodecError A) (f : A → res SegmentBlockCodecError B) :
  codec_errors m → (∀ a, codec_errors (f a)) → codec_errors (a ← m; f a).
Proof.
  intros Hm Hf e E. destruct m as [a|e'| |]; [by apply (Hf a)| |done..].
  injection E as <-. by apply Hm.
Qed.
Lemma codec_errors_map {A} (m : res string A) : codec_errors (map_err CodecFailed m).
Proof. intros e E. destruct m; [done| |done..]. by injection E as <-. Qed.

Lemma append_section_errors buffer payload compress : codec_errors (append_section buffer payload compress).
Proof.
  assert (∀ n, codec_errors (handle_bytes n)) as Hh by (intros n e; unfold handle_bytes; case_match; [done|by intros [= <-]]).
  unfold append_section. apply codec_errors_bind; [destruct compress; [apply codec_errors_map|done]|].
  intros stored. apply codec_errors_bind; [apply Hh|]. intros n. apply codec_errors_bind; [apply Hh|done].
Qed.

Lemma finish_errors b : codec_errors (finish_data_block b).
Proof.
  unfold finish_data_block. case_match; [done|]. apply codec_errors_bind; [intros e; unfold expect_u32; by case_match|].
  intros count. apply codec_errors_bind; [apply append_section_errors|]. by intros [? ?].
Qed.

Lemma segment_push_errors b key filter_key (row : R) :
  segment_push b key filter_key row =
    (if negb (b.(sb_row_count) =? 0) && bool_decide (cmp key (of_bytes b.(sb_previous_key)) = Lt)
     then Err (RowKeysOutOfOrder (of_bytes b.(sb_previous_key)) key)
     else segment_push b key filter_key row) ∧
  (negb (b.(sb_row_count) =? 0) && bool_decide (cmp key (of_bytes b.(sb_previous_key)) = Lt) = false →
   codec_errors (segment_push b key filter_key row)).
Proof.
  unfold segment_push, push_with_encoded_row. destruct (negb _ && _) eqn:E; [done|]. split; [done|]. intros _.
  apply codec_errors_bind; [|by intros [? ?]]. apply codec_errors_bind.
  { case_match; [|done]. apply codec_errors_bind; [|done]. intros e. unfold expect_u32. by case_match. }
  intros restarts. apply codec_errors_bind; [apply codec_errors_map|]. intros row_bytes.
  apply codec_errors_bind; [|done]. case_match; [apply finish_errors|done].
Qed.

Lemma segment_build_errors b : b.(sb_row_count) ≠ 0 → codec_errors (segment_build b).
Proof.
  intros Hne%N.eqb_neq. unfold segment_build. rewrite Hne. apply codec_errors_bind; [apply finish_errors|].
  assert (∀ hashes k, codec_errors (build_filter_payload hashes k)) as Hf.
  { intros hashes k e. destruct (filter_payload_admits hashes k) as (p & -> & _). done. }
  intros b1. apply codec_errors_bind.
  { case_match; [|done]. apply codec_errors_bind; [apply Hf|]. intros payload.
    apply codec_errors_bind; [apply append_section_errors|by intros [? ?]]. }
  intros [extent_filter buffer]. apply codec_errors_bind; [apply Hf|]. intros payload.
  apply codec_errors_bind; [apply append_section_errors|]. intros [fh buf].
  apply codec_errors_bind; [apply codec_errors_map|]. intros ip.
  apply codec_errors_bind; [apply append_section_errors|]. by intros [? ?].
Qed.

(** C34 The writer's own errors: a row is refused as out of order exactly when
    its key is below the key of the last accepted row, and the error carries
    both keys; a segment is refused as empty exactly when no row was pushed. *)
Theorem segment_order_enforced target extents ops b key filter_key (row : R) :
  utf8_keys ops → push_all (new_builder target extents) ops = Ok b →
  (∀ previous offered,
     segment_push b key filter_key row = Err (RowKeysOutOfOrder previous offered) ↔
     list.last (push_rows ops).*1 = Some previous ∧ offered = key ∧ cmp key previous = Lt) ∧
  (segment_build b = Err EmptySegment ↔ push_rows ops = []).
Proof.
  intros Hutf Hpush. destruct (push_all_ok _ _ _ _ Hutf Hpush) as [_ Hrc Hprev _ _ _ _]. split.
  - intros previous offered. destruct (segment_push_errors b key filter_key row) as [Heq Herr].
    assert (negb (b.(sb_row_count) =? 0) && bool_decide (cmp key (of_bytes b.(sb_previous_key)) = Lt) = true ↔
      ∃ last, list.last (push_rows ops).*1 = Some last ∧ cmp key last = Lt ∧ of_bytes b.(sb_previous_key) = last) as Hcond.
    { rewrite Hrc, Hprev, andb_true_iff, bool_decide_eq_true, negb_true_iff, N.eqb_neq, fmap_last.
      destruct (list.last (push_rows ops)) as [[k r]|] eqn:El; cbn.
      - rewrite of_as_bytes. assert (length (push_rows ops) ≠ O) as Hl by (by destruct (push_rows ops)).
        split; [intros [_ ?]; by exists k|]. intros (? & [= <-] & ? & _). split; [lia|done].
      - apply last_None in El as ->. split; [|naive_solver]. by intros [? _]. }
    destruct (negb _ && _).
    + rewrite Heq. destruct (proj1 Hcond eq_refl) as (last & -> & Hlt & ->). split.
      * by intros [= -> ->].
      * by intros ([= ->] & -> & _).
    + split; [intros E; by apply Herr in E|]. intros (Hl & -> & Hlt).
      assert (false = true) as [=]. apply Hcond. exists previous. split_and!; [done..|].
      rewrite Hprev, Hl. apply of_as_bytes.
  - split.
    + intros E. destruct (decide (b.(sb_row_count) = 0)) as [E0|Hne].
      * rewrite Hrc in E0. destruct (push_rows ops); [done|cbn in E0; lia].
      * by apply segment_build_errors in E.
    + intros E. unfold segment_build. by rewrite Hrc, E.
Qed.
End rejects.

(** ** Reading a key range *)
Lemma partition_point_le {A} (p : A → bool) l : (partition_point p l ≤ length l)%nat.
Proof. induction l as [|a l IH]; cbn; [done|]. case_match; lia. Qed.

Lemma partition_point_before {A} (p : A → bool) l i x :
  l !! i = Some x → (i < partition_point p l)%nat → p x = true.
Proof.
  revert i. induction l as [|a l IH]; intros i Hi; cbn; [lia|]. destruct (p a) eqn:E; [|lia].
  destruct i as [|i]; cbn in Hi; [by simplify_eq|]. intros. apply (IH i); [done|lia].
Qed.

Lemma partition_point_at {A} (p : A → bool) l x :
  l !! partition_point p l = Some x → p x = false.
Proof.
  induction l as [|a l IH]; cbn; [done|]. destruct (p a) eqn:E; [done|]. cbn. by intros [= <-].
Qed.

(** The keys of a range, [lower] included and [upper] not. *)
Definition in_key_range (lower : string) (upper : option string) (key : string) : Prop :=
  kle lower key ∧ match upper with Some upper => cmp key upper = Lt | None => True end.
#[export] Instance in_key_range_dec lower upper key : Decision (in_key_range lower upper key).
Proof. unfold in_key_range. destruct upper; apply _. Defined.

Section ranges.
Context {R : Type}.
Implicit Types (index : list SegmentIndexEntry) (blocks : list (list (string * R))).

(** The index entries carry their blocks' last keys. *)
Definition indexes index blocks : Prop :=
  Forall2 (λ e rows, list.last rows.*1 = Some e.(sie_last_row_key)) index blocks.

Lemma concat_key blocks key :
  key ∈ (concat blocks).*1 → ∃ j rows, blocks !! j = Some rows ∧ key ∈ rows.*1.
Proof.
  intros ([k r] & -> & Hin)%list_elem_of_fmap. apply list_elem_of_In, in_concat in Hin as (rows & Hrows & Hr).
  apply list_elem_of_In, list_elem_of_lookup in Hrows as [j Hj]. exists j, rows. split; [done|].
  apply list_elem_of_In in Hr. by apply (list_elem_of_fmap_2 fst) in Hr.
Qed.

Lemma sorted_block blocks i rows :
  StronglySorted kle (concat blocks).*1 → blocks !! i = Some rows →
  StronglySorted kle rows.*1 ∧
  ∀ j later x y, blocks !! j = Some later → (i < j)%nat → x ∈ rows.*1 → y ∈ later.*1 → kle x y.
Proof.
  intros Hs Hi. rewrite <-(take_drop_middle _ _ _ Hi), concat_app, fmap_app in Hs.
  apply sorted_app_inv in Hs as (_ & Hs & _). cbn [concat] in Hs. rewrite fmap_app in Hs.
  apply sorted_app_inv in Hs as (Hs & _ & Hcross). split; [done|].
  intros j later x y Hj Hlt Hx Hy. apply Hcross; [done|].
  apply list_elem_of_fmap in Hy as ([k r] & -> & Hy). apply (list_elem_of_fmap_2 fst).
  apply list_elem_of_In, in_concat. exists later. rewrite <-!list_elem_of_In. split; [|done].
  apply list_elem_of_lookup. exists (j - S i)%nat. rewrite lookup_drop. rewrite <-Hj. f_equal. lia.
Qed.

(** The index narrows a key range to blocks without losing rows: for a
    sorted segment whose index carries each block's last key, the positions
    [index_blocks_for_key_range] gives are a valid slice of the index, and the
    rows of the range, from the lower bound up to but not including the upper
    one, are those of the blocks in that slice. *)
Theorem index_range_exact index blocks lower upper start stop :
  indexes index blocks → StronglySorted kle (concat blocks).*1 →
  index_blocks_for_key_range index lower upper = (start, stop) →
  (start ≤ stop ≤ length index)%nat ∧
  filter (λ row, in_key_range lower upper row.1) (concat blocks) =
  filter (λ row, in_key_range lower upper row.1) (concat (take (stop - start) (drop start blocks))).
Proof.
  intros Hidx Hsort. unfold index_blocks_for_key_range. intros [<- <-]%pair_eq.
  set (below := λ bound e, bool_decide (cmp (sie_last_row_key e) bound = Lt)). fold (below lower).
  set (n := partition_point (below lower) index).
  set (m := match upper with None => _ | Some _ => _ end).
  pose proof (partition_point_le (below lower) index) as Hn. fold n in Hn.
  pose proof (partition_point_before (below lower) index) as Hbefore. fold n in Hbefore.
  assert (m ≤ length index)%nat as Hm by (unfold m; destruct upper; lia).
  assert (∀ u, upper = Some u → m = Nat.min (S (partition_point (below u) index)) (length index)) as Hsome
    by (by intros ? ->).
  assert (upper = None → m = length index) as Hnone by (by intros ->). clearbody n m.
  pose proof (Forall2_length _ _ _ Hidx) as Hlen. split; [lia|].
  rewrite <-(take_drop n blocks) at 1. rewrite <-(take_drop (Nat.max m n - n) (drop n blocks)) at 1.
  rewrite drop_drop. replace (n + (Nat.max m n - n))%nat with (Nat.max m n) by lia.
  rewrite !concat_app, !filter_app.
  rewrite (filter_none _ (concat (take n blocks))), (filter_none _ (concat (drop (Nat.max m n) blocks))).
  { by rewrite app_nil_r. }
  - intros [k r] Hin [_ Hu]. apply (list_elem_of_fmap_2 fst) in Hin.
    apply concat_key in Hin as (j & rows & Hj & Hkey). rewrite lookup_drop in Hj.
    pose proof (lookup_lt_Some _ _ _ Hj) as Hlt.
    destruct upper as [u|]; [specialize (Hsome u eq_refl); clear Hnone|specialize (Hnone eq_refl); lia].
    set (p := partition_point (below u) index) in *. cbn [fst] in *.
    destruct (lookup_lt_is_Some_2 index p) as [e He]; [lia|].
    destruct (Forall2_lookup_l _ _ _ _ _ Hidx He) as (rows' & Hrows' & Hlast).
    pose proof (partition_point_at (below u) index e He) as Hge%bool_decide_eq_false.
    destruct (sorted_block _ _ _ Hsort Hrows') as [_ Hcross]. apply last_elem_of in Hlast.
    pose proof (Hcross _ _ _ _ Hj ltac:(lia) Hlast Hkey) as Hle. by apply Hge, (kle_lt_trans _ k).
  - intros [k r] Hin [Hl _]. apply (list_elem_of_fmap_2 fst) in Hin.
    apply concat_key in Hin as (j & rows & Hj & Hkey). cbn [fst] in *.
    apply lookup_take_Some in Hj as [Hj Hjn].
    destruct (Forall2_lookup_r _ _ _ _ _ Hidx Hj) as (e & He & Hlast).
    pose proof (Hbefore _ _ He Hjn) as Hlt%bool_decide_eq_true.
    destruct (sorted_block _ _ _ Hsort Hj) as [Hs _].
    pose proof (sorted_last _ _ _ Hs Hlast Hkey) as Hle.
    apply (kle_not_lt _ _ Hl). by eapply kle_lt_trans.
Qed.
End ranges.

(** ** The writer does not panic *)
Section writer.
Context `{SectionCodecs} {R : Type} `{Cbor R} `{Cbor (list SegmentIndexEntry)}.
Hypothesis row_encode_returns : ∀ row : R, returns (cbor_encode row).
Hypothesis index_encode_returns : ∀ index : list SegmentIndexEntry, returns (cbor_encode index).
Hypothesis zstd_compress_returns : ∀ l, returns (zstd_compress l).

(** What keeps offsets and restart counts in 32 bits: an open block is
    smaller than the target. *)
Definition open_fits (b : SegmentBlocksBuilder) : Prop :=
  blen b.(sb_entries) < b.(sb_target_block_bytes) ≤ U32_MAX ∧
  (length b.(sb_restarts) ≤ length b.(sb_entries))%nat.

Lemma append_section_returns buffer payload compress : returns (append_section buffer payload compress).
Proof using zstd_compress_returns.
  unfold append_section, handle_bytes.
  repeat (case_match || apply returns_bind || intros); by eauto with decoding.
Qed.

Lemma finish_returns b : N.of_nat (length b.(sb_restarts)) ≤ U32_MAX → returns (finish_data_block b).
Proof using zstd_compress_returns.
  intros Hle. unfold finish_data_block. case_match; [done|]. unfold expect_u32.
  rewrite (proj2 (N.leb_le _ _)) by done. cbn [mbind res_bind]. apply returns_bind; [apply append_section_returns|].
  by intros [? ?] _.
Qed.

Lemma finish_fits b b' :
  finish_data_block b = Ok b' → b.(sb_entries) ≠ [] → 0 < b.(sb_target_block_bytes) ≤ U32_MAX → open_fits b'.
Proof.
  unfold finish_data_block. intros E Hne Ht. case_match; [done|]. step_ok E n Hn. step_ok E hb Ha.
  destruct hb. injection E as <-. unfold open_fits, blen. cbn. lia.
Qed.

Lemma segment_push_returns b key filter_key (row : R) :
  open_fits b → returns (segment_push b key filter_key row) ∧
  ∀ b', segment_push b key filter_key row = Ok b' → open_fits b'.
Proof using row_encode_returns zstd_compress_returns.
  intros [Hlt Hres].
  assert (∀ row_bytes, let b1 := with_row b key filter_key row_bytes in
    b1.(sb_entries) ≠ [] ∧ (length b1.(sb_restarts) ≤ length b1.(sb_entries))%nat ∧
    N.of_nat (length b1.(sb_restarts)) ≤ U32_MAX) as Hrow.
  { intros row_bytes b1. unfold b1, with_row. cbn [sb_entries sb_restarts].
    set (entry := entry_bytes _ _ _). assert (3 ≤ length entry)%nat as Hlen.
    { unfold entry. pose proof (entry_bytes_length
        (if sb_entry_count b mod RESTART_INTERVAL =? 0 then O else shared_prefix_len (sb_previous_key b) (as_bytes key))
        (as_bytes key) row_bytes). lia. }
    clearbody entry. rewrite length_app. unfold blen in *. split_and!.
    - intros E. apply (f_equal length) in E. rewrite length_app in E. cbn in E. lia.
    - case_match; rewrite ?length_app; cbn; lia.
    - case_match; rewrite ?length_app; cbn; lia. }
  split.
  - unfold segment_push, push_with_encoded_row. apply returns_bind; [|by intros [? ?] _].
    destruct (_ && _); [done|]. apply returns_bind.
    { destruct (_ =? 0); [|done]. unfold expect_u32.
      by rewrite (proj2 (N.leb_le (blen (sb_entries b)) U32_MAX)) by lia. }
    intros restarts Hr. apply returns_bind; [by apply returns_map_err|]. intros row_bytes _.
    specialize (Hrow row_bytes) as (_ & _ & Hfit). apply returns_bind; [|done].
    destruct (_ <=? _); [|done]. apply finish_returns. cbn [sb_restarts].
    unfold with_row in Hfit. cbn [sb_restarts] in Hfit. destruct (_ =? 0); [|by injection Hr as <-].
    unfold expect_u32 in Hr. rewrite (proj2 (N.leb_le (blen (sb_entries b)) U32_MAX)) in Hr by lia. by injection Hr as <-.
  - intros b' (_ & row_bytes & _ & E)%segment_push_Ok. specialize (Hrow row_bytes) as (Hne & Hle & _).
    cbv zeta in E. destruct (N.leb_spec (sb_target_block_bytes (with_row b key filter_key row_bytes))
      (blen (sb_entries (with_row b key filter_key row_bytes)))).
    + apply (finish_fits _ _ E Hne). cbn. lia.
    + subst b'. split; [|done]. cbn in *. lia.
Qed.

(** The state of a writer with or without an extent filter. *)
Definition writer_ok (extents : bool) (b : SegmentBlocksBuilder) : Prop :=
  open_fits b ∧ (extents = true → is_Some b.(sb_extent_hashes)).

Lemma finish_extents b b' : finish_data_block b = Ok b' → b'.(sb_extent_hashes) = b.(sb_extent_hashes).
Proof.
  unfold finish_data_block. intros E. case_match; [by injection E as <-|].
  step_ok E n Hn. step_ok E hb Ha. destruct hb. by injection E as <-.
Qed.

Lemma push_step_returns extents b (op : push_op R) :
  writer_ok extents b → (extents = false → push_extent_names [op] = []) →
  returns (push_step b op) ∧ ∀ b', push_step b op = Ok b' → writer_ok extents b'.
Proof using row_encode_returns zstd_compress_returns.
  intros [Hfit Hsome] Hext. destruct op as [key filter_key row|filter_key|name]; cbn [push_step].
  - destruct (segment_push_returns b key filter_key row Hfit) as [Hr Hf]. split; [done|].
    intros b' E. split; [by apply Hf|]. apply segment_push_Ok in E as (_ & row_bytes & _ & E). cbv zeta in E.
    destruct (_ <=? _) in E; [by rewrite (finish_extents _ _ E)|by subst].
  - split; [done|]. intros b' [= <-]. by split.
  - destruct extents; [|by specialize (Hext eq_refl)].
    destruct (Hsome eq_refl) as [hs Hhs]. unfold push_extent_name. rewrite Hhs. split; [done|].
    intros b' [= <-]. split; [done|]. intros _. by eexists.
Qed.

Lemma push_all_returns target extents (ops : list (push_op R)) :
  0 < target ≤ U32_MAX → (extents = false → push_extent_names ops = []) →
  returns (push_all (new_builder target extents) ops) ∧
  ∀ b, push_all (new_builder target extents) ops = Ok b → writer_ok extents b.
Proof using row_encode_returns zstd_compress_returns.
  intros Ht Hext. induction ops as [|op ops IH] using rev_ind.
  { split; [done|]. intros b [= <-]. unfold writer_ok, open_fits, new_builder, blen.
    destruct extents; cbn; (split; [lia|done]). }
  assert (extents = false → push_extent_names ops = [] ∧ push_extent_names [op] = []) as Hext'.
  { intros E. apply app_eq_nil. rewrite <-Hext by done. unfold push_extent_names. by rewrite omap_app. }
  rewrite push_all_snoc. destruct IH as [IH1 IH2]; [intros E; by apply Hext'|].
  pose proof (λ b Hb, push_step_returns extents b op Hb (λ E, proj2 (Hext' E))) as Hstep.
  split; [apply returns_bind; [done|]; intros b Hb; by apply Hstep, IH2|].
  intros b' E. step_ok E b Hb. by eapply Hstep; [apply IH2|].
Qed.

Lemma segment_build_returns b : open_fits b → returns (segment_build b).
Proof using index_encode_returns zstd_compress_returns.
  intros [Hlt Hle]. unfold segment_build. case_match; [done|].
  apply returns_bind; [apply finish_returns; unfold blen in *; lia|]. intros b1 _.
  apply returns_bind.
  { destruct (sb_extent_hashes b1) as [hashes|]; [|done].
    destruct (filter_payload_admits hashes EXTENT_FILTER_BITS_PER_KEY) as (payload & -> & _). cbn [mbind res_bind].
    apply returns_bind; [by apply append_section_returns|]. by intros [? ?] _. }
  intros [extent_filter buffer] _.
  destruct (filter_payload_admits b1.(sb_filter_hashes) FILTER_BITS_PER_KEY) as (payload & -> & _). cbn [mbind res_bind].
  apply returns_bind; [by apply append_section_returns|]. intros [fh buf] _.
  apply returns_bind; [by apply returns_map_err|]. intros ip _.
  apply returns_bind; [by apply append_section_returns|]. by intros [? ?] _.
Qed.

(** Writing a segment does not panic: with a block target that fits in 32
    bits, any sequence of pushes, in key order or not, returns the builder or
    an error, and so does building it; offsets, restart counts and filter
    indexing never leave their ranges.  Extent names need an extent filter. *)
Theorem segment_writer_returns target extents (ops : list (push_op R)) :
  0 < target ≤ U32_MAX → (extents = false → push_extent_names ops = []) →
  returns (b ← push_all (new_builder target extents) ops; segment_build b).
Proof using row_encode_returns index_encode_returns zstd_compress_returns.
  intros Ht Hext. destruct (push_all_returns target extents ops Ht Hext) as [Hr Hok].
  apply returns_bind; [done|]. intros b [Hfit _]%Hok. by apply segment_build_returns.
Qed.
End writer.

(** ** An example

    Codecs that satisfy the laws: sections are stored as they are, and a value
    is the bit string of its [Countable] encoding. *)
Fixpoint positive_bytes (p : positive) : bytes :=
  match p with
  | xH => []
  | xO p => byte 0 :: positive_bytes p
  | xI p => byte 1 :: positive_bytes p
  end.
Fixpoint bytes_positive (l : bytes) : positive :=
  match l with
  | [] => xH
  | a :: l => if N_of_ascii a =? 0 then xO (bytes_positive l) else xI (bytes_positive l)
  end.

Definition countable_cbor `{Countable A} : Cbor A := {|
  cbor_encode a := Ok (positive_bytes (encode a));
  cbor_decode l := ok_or (decode (bytes_positive l)) "malformed";
|}.

Lemma countable_cbor_law `{Countable A} : @CborLaw A countable_cbor.
Proof.
  assert (∀ p, bytes_positive (positive_bytes p) = p) as Hp by (by induction p; cbn; f_equal).
  intros a l [= <-]. cbn. by rewrite Hp, decode_encode.
Qed.

(** An index as its entries one after the other: the key behind its length, and
    the handle's numbers in four bytes each. *)
Definition encode_index_entry (e : SegmentIndexEntry) : res string bytes :=
  let key := as_bytes e.(sie_last_row_key) in
  let h := e.(sie_block) in
  if decide (blen key < 256 ∧ bh_offset h < 2 ^ 32 ∧ bh_stored_bytes h < 2 ^ 32 ∧ bh_decoded_bytes h < 2 ^ 32 ∧ bh_crc32c h < 2 ^ 32)
  then Ok (byte (blen key) :: key ++ to_le_bytes 4 (bh_offset h) ++ to_le_bytes 4 (bh_stored_bytes h) ++
           to_le_bytes 4 (bh_decoded_bytes h) ++ to_le_bytes 4 (bh_crc32c h))
  else Err "entry".
Fixpoint encode_index_entries (entries : list SegmentIndexEntry) : res string bytes :=
  match entries with
  | [] => Ok []
  | e :: entries => encoded ← encode_index_entry e; rest ← encode_index_entries entries; Ok (encoded ++ rest)
  end.
Fixpoint decode_index_entries (fuel : nat) (l : bytes) : res string (list SegmentIndexEntry) :=
  match l, fuel with
  | [], _ => Ok []
  | _, O => Err "malformed"
  | len :: l, S fuel =>
      let l0 := drop (N.to_nat (N_of_ascii len)) l in
      let l1 := drop 4 l0 in let l2 := drop 4 l1 in let l3 := drop 4 l2 in
      let field l := from_le_bytes (take 4 l) in
      entries ← decode_index_entries fuel (drop 4 l3);
      Ok ({| sie_last_row_key := of_bytes (take (N.to_nat (N_of_ascii len)) l);
             sie_block := {| bh_offset := field l0; bh_stored_bytes := field l1; bh_decoded_bytes := field l2;
                             bh_crc32c := field l3 |} |} :: entries)
  end.
Definition index_cbor : Cbor (list SegmentIndexEntry) := {|
  cbor_encode := encode_index_entries;
  cbor_decode l := decode_index_entries (length l) l;
|}.

Lemma le4_app n l : take 4 (to_le_bytes 4 n ++ l) = to_le_bytes 4 n ∧ drop 4 (to_le_bytes 4 n ++ l) = l.
Proof. split; [by rewrite take_app_length'|by rewrite drop_app_length']. Qed.

Lemma encode_index_entry_Ok e encoded rest fuel :
  encode_index_entry e = Ok encoded →
  decode_index_entries (S fuel) (encoded ++ rest) = (entries ← decode_index_entries fuel rest; Ok (e :: entries)).
Proof.
  destruct e as [key [f0 f1 f2 f3]]. unfold encode_index_entry.
  cbn [sie_block sie_last_row_key bh_offset bh_stored_bytes bh_decoded_bytes bh_crc32c]. cbv zeta.
  case_decide as Hle; [|done]. intros <-%Ok_inj. destruct Hle as (Hlen & H0 & H1 & H2 & H3).
  cbn [app decode_index_entries]. rewrite N_of_byte by done. unfold blen. rewrite Nat2N.id, <-!app_assoc, take_app_length, drop_app_length, of_as_bytes.
  cbv zeta. rewrite !(proj2 (le4_app _ _)), !(proj1 (le4_app _ _)), !from_to_le_bytes by done. done.
Qed.

Lemma index_cbor_law : @CborLaw _ index_cbor.
Proof.
  intros entries encoded. cbn. assert (∀ fuel, (length encoded ≤ fuel)%nat → encode_index_entries entries = Ok encoded →
    decode_index_entries fuel encoded = Ok entries) as Hgen; [|by apply Hgen].
  revert encoded. induction entries as [|e entries IH]; intros encoded fuel Hlen He; cbn in He.
  { injection He as <-. by destruct fuel. }
  step_ok He first_bytes H1. step_ok He rest H2. injection He as <-. destruct fuel as [|fuel].
  { unfold encode_index_entry in H1. cbv zeta in H1. case_decide; [|done]. injection H1 as <-. cbn in Hlen. lia. }
  rewrite (encode_index_entry_Ok _ _ _ _ H1), (IH rest); [done| |done]. rewrite length_app in Hlen.
  unfold encode_index_entry in H1. cbv zeta in H1. case_decide; [|done]. injection H1 as <-. cbn in Hlen. lia.
Qed.

Lemma index_cbor_encodes (entries : list SegmentIndexEntry) : returns (cbor_encode (Cbor:=index_cbor) entries).
Proof.
  cbn. induction entries as [|e entries IH]; [done|]. cbn. apply returns_bind; [unfold encode_index_entry; by case_decide|].
  intros encoded _. by apply returns_bind.
Qed.
Lemma index_cbor_decodes (l : bytes) : returns (cbor_decode (Cbor:=index_cbor) l).
Proof.
  cbn. generalize (length l) as fuel. intros fuel. revert l. induction fuel as [|fuel IH]; intros [|a l]; cbn; try done.
  by apply returns_bind.
Qed.

Definition example_codecs : SectionCodecs := {|
  zstd_compress l := Ok l;
  zstd_read l limit := Ok (take (N.to_nat limit) l);
  crc32c l := foldl (λ sum a, (sum * 31 + N_of_ascii a) mod 2 ^ 32) 7 l;
  xxh64 l seed := foldl (λ sum a, (sum * 1099511628211 + N_of_ascii a) mod 2 ^ 64) seed l;
|}.

Definition example_pushes : list (push_op string) :=
  [PushRow "binding/1/a" "binding/1" "row one"; PushRow "binding/1/b" "binding/1" "row two";
   PushExtentName "content/7"; PushFilterKey "binding"; PushRow "binding/2/a" "binding/2" "row three"].

Module Example.
#[local] Existing Instance example_codecs.
#[local] Existing Instance countable_cbor | 10.
#[local] Existing Instance countable_cbor_law | 10.
#[local] Existing Instance index_cbor.
#[local] Existing Instance index_cbor_law.
#[local] Instance example_codec_laws : SectionCodecLaws.
Proof. by intros payload stored limit [= <-]. Qed.

Definition example_builder : SegmentBlocksBuilder :=
  Eval vm_compute in
    match push_all (new_builder 80 true) example_pushes with Ok b => b | _ => new_builder 80 true end.
Definition no_segment : BuiltSegmentBlocks :=
  let none := mkBlockHandle 0 0 0 0 in mkBuiltSegmentBlocks [] none none None 0 "" "".
Definition example_segment : BuiltSegmentBlocks :=
  Eval vm_compute in match segment_build example_builder with Ok built => built | _ => no_segment end.
Definition example_blocks : list (list (string * string)) :=
  [[("binding/1/a", "row one")]; [("binding/1/b", "row two")]; [("binding/2/a", "row three")]].

Lemma example_pushed : push_all (new_builder 80 true) example_pushes = Ok example_builder.
Proof. by vm_compute. Qed.
Lemma example_built : segment_build example_builder = Ok example_segment.
Proof. by vm_compute. Qed.
Lemma example_utf8 : utf8_keys example_pushes.
Proof. repeat constructor; cbn [fst]; apply utf8_valid_spec; by vm_compute. Qed.
Lemma example_fits : blen example_segment.(bsb_bytes) ≤ U64_MAX.
Proof. apply N.leb_le. by vm_compute. Qed.

Lemma segment_roundtrip_witness :
  example_segment.(bsb_row_count) = 3 ∧ length (sb_index example_builder) = 2%nat ∧
  ∃ index blocks,
    decode_index_block (block_range example_segment.(bsb_bytes) example_segment.(bsb_index))
      example_segment.(bsb_index) = Ok index ∧
    Forall2 (holds_block example_segment.(bsb_bytes)) index blocks ∧ concat blocks = push_rows example_pushes.
Proof.
  split; [done|]. split; [done|].
  apply (segment_roundtrip 80 true example_pushes example_builder example_segment
    example_utf8 example_pushed example_built example_fits).
Defined.

Lemma segment_order_enforced_witness :
  segment_push example_builder "binding/1/c" "binding/1" "late" =
    Err (RowKeysOutOfOrder "binding/2/a" "binding/1/c").
Proof.
  apply (segment_order_enforced 80 true example_pushes example_builder "binding/1/c" "binding/1" "late"
    example_utf8 example_pushed). split_and!; by vm_compute.
Defined.

Lemma segment_filters_admit_witness :
  filter_admits example_segment.(bsb_bytes) example_segment.(bsb_filter) ["binding/1"; "binding/1"; "binding"; "binding/2"].
Proof.
  apply (segment_filters_admit 80 true example_pushes example_builder example_segment
    example_utf8 example_pushed example_built example_fits).
Defined.

Lemma segment_writer_returns_witness :
  returns (b ← push_all (new_builder 80 false)
    [PushRow "b" "b" "row"; PushRow "a" "a" "out of order"]; segment_build b).
Proof. apply segment_writer_returns; [done|apply index_cbor_encodes|done|split; by vm_compute|done]. Defined.


Lemma index_range_exact_witness :
  filter (λ row, in_key_range "binding/1/b" (Some "binding/2") row.1) (concat example_blocks) =
  filter (λ row, in_key_range "binding/1/b" (Some "binding/2") row.1) [("binding/1/b", "row two"); ("binding/2/a", "row three")].
Proof.
  apply (index_range_exact
    [mkSegmentIndexEntry "binding/1/a" (mkBlockHandle 0 9 9 0); mkSegmentIndexEntry "binding/1/b" (mkBlockHandle 9 9 9 0);
     mkSegmentIndexEntry "binding/2/a" (mkBlockHandle 18 9 9 0)] example_blocks "binding/1/b" (Some "binding/2") 1 3).
  - by repeat constructor.
  - repeat constructor; by vm_compute.
  - by vm_compute.
Defined.
End Example.
