(* ===== verification/ScanPage.v ===== *)
(** * The page of a bounded scan

    The page that [combine_segment_rows] of [loonfs-core/src/segment/scan.rs]
    keeps while it reads several segments: at most [max_rows] rows, ending
    with the row that takes the rows' heap bytes to [max_bytes].  [page_prefix]
    is the abstract page: the shortest prefix of the rows in key order that
    reaches either bound.  The lemmas show that the code's update of a page by
    one row keeps it the abstract page of the rows seen. *)
From S2P Require Import Prelude Types.
Local Open Scope N_scope.

Record PageBounds := mkPageBounds { pb_max_rows : N; pb_max_bytes : N }.

(** A subtraction on [usize]. *)
Definition checked_sub {Er : Type} (a b : N) : res Er N := if decide (b ≤ a) then Ok (a - b) else Panic.

Section page.
Context {Row Er : Type} (heap_bytes : Row → N) (bounds : PageBounds).
Implicit Types (rows l p q : list (string * Row)) (x : string * Row).

Definition page_full rows (rows_bytes : N) : bool :=
  bool_decide (N.of_nat (length rows) = bounds.(pb_max_rows))
  || bool_decide (rows ≠ []) && bool_decide (bounds.(pb_max_bytes) ≤ rows_bytes).

(** [BTreeMap::pop_last] on the entries of the map. *)
Definition pop_last rows : list (string * Row) := take (length rows - 1) rows.

(** [while rows.len() > 1 { .. }]: a round pops a row, so the number of rows
    bounds the rounds. *)
Fixpoint shed (rounds : nat) rows (rows_bytes : N) : res Er (list (string * Row) * N) :=
  match rounds with
  | O => Ok (rows, rows_bytes)
  | S rounds =>
      if (length rows <=? 1)%nat then Ok (rows, rows_bytes)
      else
        let last_bytes := match last rows with Some (_, row) => heap_bytes row | None => 0 end in
        rest ← checked_sub rows_bytes last_bytes;
        if decide (rest < bounds.(pb_max_bytes)) then Ok (rows, rows_bytes)
        else shed rounds (pop_last rows) rest
  end.

(** A row enters the page: the body of [while let Some((key, _)) = head()]
    after its two breaks. *)
Definition page_take rows (rows_bytes : N) x : res Er (list (string * Row) * N) :=
  '(rows, rows_bytes) ←
    (if page_full rows rows_bytes && bool_decide (N.of_nat (length rows) = bounds.(pb_max_rows)) then
       match last rows with
       | Some (_, dropped) =>
           rows_bytes ← checked_sub rows_bytes (heap_bytes dropped);
           Ok (pop_last rows, rows_bytes)
       | None => Panic
       end
     else Ok (rows, rows_bytes));
  let rows_bytes := saturating_add rows_bytes (heap_bytes x.2) in
  let rows := (btree_insert x.1 x.2 rows).2 in
  shed (length rows) rows rows_bytes.

End page.

(** ** The abstract page *)
Section prefix.
Context {Row : Type} (heap_bytes : Row → N).
Implicit Types (rows l p q r : list (string * Row)) (x : string * Row).

Definition rows_weight rows : N := foldr (λ x total, heap_bytes x.2 + total) 0 rows.

Fixpoint page_prefix (max_rows max_bytes : N) rows : list (string * Row) :=
  match rows with
  | [] => []
  | x :: rows =>
      if decide (max_rows = 0) then []
      else x :: (if decide (max_bytes ≤ heap_bytes x.2) then []
                 else page_prefix (max_rows - 1) (max_bytes - heap_bytes x.2) rows)
  end.

(** Rows that reach a bound. *)
Definition saturated (max_rows max_bytes : N) rows : Prop :=
  max_rows ≤ N.of_nat (length rows) ∨ rows ≠ [] ∧ max_bytes ≤ rows_weight rows.

(** [p] is the shortest prefix of [l] that reaches a bound, or all of [l]. *)
Definition is_page (max_rows max_bytes : N) l p : Prop :=
  ∃ r, l = p ++ r ∧ (r = [] ∨ saturated max_rows max_bytes p) ∧
    ∀ q x, p = q ++ [x] → ¬ saturated max_rows max_bytes q.

Lemma rows_weight_app l q : rows_weight (l ++ q) = rows_weight l + rows_weight q.
Proof. unfold rows_weight. induction l as [|x l IH]; [done|]. cbn. rewrite IH. lia. Qed.

Lemma rows_weight_perm l q : l ≡ₚ q → rows_weight l = rows_weight q.
Proof. unfold rows_weight. induction 1; cbn; lia. Qed.

Lemma saturated_app max_rows max_bytes l q :
  saturated max_rows max_bytes l → saturated max_rows max_bytes (l ++ q).
Proof.
  intros [Hl|[Hne Hw]]; [left; rewrite length_app; lia|right]. rewrite rows_weight_app.
  split; [by destruct l|lia].
Qed.

Lemma saturated_perm max_rows max_bytes l q :
  l ≡ₚ q → saturated max_rows max_bytes q → saturated max_rows max_bytes l.
Proof.
  intros Hp. unfold saturated. rewrite (rows_weight_perm _ _ Hp), (Permutation_length Hp).
  intros [?|[Hne ?]]; [by left|right; split; [|done]]. intros ->. by apply Permutation_nil_l in Hp.
Qed.

Lemma saturated_cons max_rows max_bytes x l :
  1 ≤ max_rows → heap_bytes x.2 < max_bytes →
  saturated max_rows max_bytes (x :: l) ↔ saturated (max_rows - 1) (max_bytes - heap_bytes x.2) l.
Proof.
  intros Hr Hb. unfold saturated. cbn. fold (rows_weight l). split.
  - intros [?|[_ ?]]; [left; lia|]. right. split; [|lia]. intros ->. cbn in *. lia.
  - intros [?|[_ ?]]; [left; lia|right; by split; [|lia]].
Qed.

(** Both definitions of the page agree. *)
Lemma page_prefix_is_page max_rows max_bytes l : is_page max_rows max_bytes l (page_prefix max_rows max_bytes l).
Proof.
  revert max_rows max_bytes. induction l as [|x l IH]; intros max_rows max_bytes; cbn [page_prefix].
  { exists []. split_and!; [done|by left|]. by intros [|??]. }
  case_decide as Hr.
  { exists (x :: l). split_and!; [done|right; left; cbn; lia|]. by intros [|??]. }
  case_decide as Hb.
  { exists l. split_and!; [done| |].
    - right. right. cbn. split; [done|lia].
    - intros [|? [|??]] y E; [|done..]. intros [?|[? _]]; cbn in *; [lia|done]. }
  destruct (IH (max_rows - 1) (max_bytes - heap_bytes x.2)) as (r & E & Hs & Hmin). exists r. split_and!.
  - cbn. by rewrite <-E.
  - destruct Hs as [->|Hs]; [by left|right]. apply saturated_cons; [lia..|done].
  - intros [|z q] y Eq; cbn in Eq; injection Eq as -> Eq.
    + intros [?|[? _]]; cbn in *; [lia|done].
    + rewrite saturated_cons by lia. by eapply Hmin.
Qed.

Lemma page_prefix_elem max_rows max_bytes l x : x ∈ page_prefix max_rows max_bytes l → x ∈ l.
Proof. destruct (page_prefix_is_page max_rows max_bytes l) as (r & E & _). rewrite E at 2. set_solver. Qed.

Lemma is_page_unique max_rows max_bytes l p p' :
  is_page max_rows max_bytes l p → is_page max_rows max_bytes l p' → p = p'.
Proof.
  assert (∀ p p' r r', l = p ++ r → l = p' ++ r' → (r = [] ∨ saturated max_rows max_bytes p) →
    (∀ q x, p' = q ++ [x] → ¬ saturated max_rows max_bytes q) → (length p' ≤ length p)%nat) as Hle.
  { clear p p'. intros p p' r r' E1 E2 Hs Hmin. destruct (decide (length p' ≤ length p)%nat) as [|Hlt]; [done|].
    exfalso. rewrite E1 in E2.
    destruct (app_eq_inv _ _ _ _ E2) as [(k & -> & ->)|(k & -> & ->)]; [rewrite length_app in Hlt; lia|].
    rewrite length_app in Hlt. destruct k as [|y k _] using rev_ind; [cbn in Hlt; lia|].
    destruct Hs as [Hs|Hs]; [by destruct k|].
    apply (Hmin (p ++ k) y); [by rewrite app_assoc|]. by apply saturated_app. }
  intros (r & E & Hs & Hmin) (r' & E' & Hs' & Hmin').
  pose proof (Hle _ _ _ _ E E' Hs Hmin'). pose proof (Hle _ _ _ _ E' E Hs' Hmin).
  rewrite E in E'. apply app_inj_1 in E'; [tauto|lia].
Qed.
End prefix.

(** ** Inserting a row *)
Section insert.
Context {Row : Type}.
Implicit Types (l p r : list (string * Row)) (x : string * Row).
#[local] Abbreviation ins x l := (btree_insert x.1 x.2 l).2.

Lemma insert_perm x l : x.1 ∉ l.*1 → ins x l ≡ₚ x :: l.
Proof.
  induction l as [|[k v] l IH]; intros Hx; [by destruct x|]. cbn [btree_insert fmap list_fmap] in *.
  destruct x as [key value]. cbn [fst snd] in *. destruct (cmp key k) eqn:E.
  - apply cmp_eq in E as ->. destruct Hx. by left.
  - done.
  - destruct (btree_insert key value l) as [old l'] eqn:El. cbn in *. rewrite IH by set_solver. by rewrite Permutation_swap.
Qed.

Lemma insert_app_left x p r :
  (∀ y, head r = Some y → cmp x.1 y.1 = Lt) → ins x (p ++ r) = ins x p ++ r.
Proof.
  intros Hr. induction p as [|[k v] p IH]; cbn [app btree_insert].
  - destruct r as [|[k v] r]; [by destruct x|]. cbn [btree_insert].
    pose proof (Hr (k, v) eq_refl) as Hk. cbn in Hk. rewrite Hk. by destruct x.
  - destruct (cmp x.1 k); [done|done|].
    destruct (btree_insert x.1 x.2 (p ++ r)), (btree_insert x.1 x.2 p). cbn in *. by rewrite IH.
Qed.

Lemma insert_app_right x p r :
  (∀ y, y ∈ p → cmp y.1 x.1 = Lt) → ins x (p ++ r) = p ++ ins x r.
Proof.
  intros Hp. induction p as [|[k v] p IH]; [done|]. cbn [app btree_insert].
  rewrite (proj2 (cmp_gt_lt x.1 k)) by (apply (Hp (k, v)); by left).
  destruct (btree_insert x.1 x.2 (p ++ r)). cbn in *. rewrite IH; [done|]. intros y Hy. apply Hp. by right.
Qed.

Lemma page_after l p r x y : ascending l → l = p ++ r → x ∈ p → y ∈ r → cmp x.1 y.1 = Lt.
Proof. intros Ha -> Hx Hy. unfold ascending in Ha. apply sorted_app_inv in Ha as (_ & _ & Ha). by apply Ha. Qed.
End insert.

(** ** The code's page *)
Section page_take.
Context {Row Er : Type} (heap_bytes : Row → N) (bounds : PageBounds).
Implicit Types (rows l p q r : list (string * Row)) (x : string * Row).
#[local] Abbreviation weight := (rows_weight heap_bytes).
#[local] Abbreviation full := (saturated heap_bytes bounds.(pb_max_rows) bounds.(pb_max_bytes)).
#[local] Abbreviation page := (is_page heap_bytes bounds.(pb_max_rows) bounds.(pb_max_bytes)).
#[local] Abbreviation ins x l := (btree_insert x.1 x.2 l).2.

Context (Hmax : 1 ≤ bounds.(pb_max_rows)).

Lemma full_ne p : full p → p ≠ [].
Proof. intros [Hl|[? _]]; [|done]. intros ->. cbn in Hl. lia. Qed.

Lemma page_length l p : page l p → N.of_nat (length p) ≤ bounds.(pb_max_rows).
Proof.
  intros (r & _ & _ & Hmin). destruct p as [|x p _] using rev_ind; [cbn; lia|].
  specialize (Hmin p x eq_refl). rewrite length_app. cbn.
  destruct (decide (N.of_nat (length p) < pb_max_rows bounds)); [lia|]. destruct Hmin. left. lia.
Qed.

Lemma page_full_saturated p :
  N.of_nat (length p) ≤ bounds.(pb_max_rows) → page_full bounds p (weight p) = true ↔ full p.
Proof.
  intros Hlen. unfold page_full, saturated. rewrite orb_true_iff, andb_true_iff, !bool_decide_eq_true.
  split; (intros [?|?]; [left; lia|by right]).
Qed.

Lemma pop_last_snoc p x : pop_last (p ++ [x]) = p.
Proof.
  unfold pop_last. rewrite length_app. cbn. replace (length p + 1 - 1)%nat with (length p) by lia. apply take_app_length.
Qed.

Lemma checked_sub_Ok (a b : N) : checked_sub (Er:=Er) (a + b) b = Ok a.
Proof. unfold checked_sub. rewrite decide_True by lia. f_equal. lia. Qed.

Lemma weight_snoc p x : weight (p ++ [x]) = weight p + heap_bytes x.2.
Proof. rewrite rows_weight_app. cbn. lia. Qed.

(** Shedding rows from a prefix that holds the page leaves the page. *)
Lemma shed_correct rounds l p r :
  l = p ++ r → (r = [] ∨ full p) → N.of_nat (length p) ≤ bounds.(pb_max_rows) → (length p ≤ rounds)%nat →
  ∃ p', shed (Er:=Er) heap_bytes bounds rounds p (weight p) = Ok (p', weight p') ∧ page l p'.
Proof.
  revert p r. induction rounds as [|rounds IH]; intros p r E Hs Hlen Hr.
  { destruct p; [|cbn in Hr; lia]. exists []. split; [done|]. exists r. split_and!; [done..|]. by intros [|??]. }
  cbn [shed]. destruct (Nat.leb_spec (length p) 1) as [H1|H1].
  { exists p. split; [done|]. exists r. split_and!; [done..|]. intros q x ->. rewrite length_app in H1. cbn in H1.
    destruct q; [|cbn in H1; lia]. intros F. by apply full_ne in F. }
  destruct p as [|[k row] p _] using rev_ind; [cbn in H1; lia|]. rewrite last_snoc. rewrite length_app in *. cbn in Hlen, H1, Hr.
  rewrite weight_snoc. cbn [snd]. rewrite checked_sub_Ok. cbn [mbind res_bind]. rewrite pop_last_snoc. case_decide as Hb.
  - exists (p ++ [(k, row)]). rewrite weight_snoc. split; [done|]. exists r. split_and!; [done..|].
    intros q x [-> _]%app_inj_tail. intros [?|[_ ?]]; lia.
  - apply (IH p ((k, row) :: r)); [by rewrite E, <-app_assoc| |lia|lia].
    right. right. split; [|lia]. intros ->. cbn in H1. lia.
Qed.

(** A row after the last row of a full page is not of the page. *)
Lemma page_skip l p x last :
  ascending l → page l p → full p → list.last p = Some last → cmp last.1 x.1 = Lt → page (ins x l) p.
Proof.
  intros Ha (r & -> & Hs & Hmin) Hf [q ->]%last_Some Hlt. exists (ins x r). split_and!; [|by right|done].
  apply insert_app_right. intros y [Hy| ->%list_elem_of_singleton]%elem_of_app; [|done].
  eapply cmp_lt_trans; [|exact Hlt]. unfold ascending in Ha. rewrite <-app_assoc in Ha.
  apply sorted_app_inv in Ha as (_ & _ & Ha). apply Ha; [done|by left].
Qed.

Lemma page_take_correct l p x :
  ascending l → page l p → x.1 ∉ l.*1 → weight (x :: l) ≤ U64_MAX →
  (full p → ∀ last, list.last p = Some last → cmp x.1 last.1 = Lt) →
  ∃ p', page_take (Er:=Er) heap_bytes bounds p (weight p) x = Ok (p', weight p') ∧ page (ins x l) p'.
Proof.
  intros Ha Hp Hx Hw Hbefore. pose proof (page_length _ _ Hp) as Hlen. pose proof Hp as (r & E & Hs & Hmin).
  assert (∀ p1 r1, l = p1 ++ r1 → (∀ y, head r1 = Some y → cmp x.1 y.1 = Lt) →
    (r1 = [] ∨ full (ins x p1)) → N.of_nat (length p1) < bounds.(pb_max_rows) →
    ∃ p', shed (Er:=Er) heap_bytes bounds (length (ins x p1)) (ins x p1)
            (saturating_add (weight p1) (heap_bytes x.2)) = Ok (p', weight p') ∧ page (ins x l) p') as Hstep.
  { intros p1 r1 -> Hr1 Hs1 Hlen1. rewrite fmap_app in Hx.
    assert (ins x p1 ≡ₚ x :: p1) as Hperm by (apply insert_perm; set_solver).
    replace (saturating_add (weight p1) (heap_bytes x.2)) with (weight (ins x p1)).
    2:{ rewrite (rows_weight_perm _ _ _ Hperm). unfold saturating_add. cbn in *. fold (weight p1).
        fold (weight (p1 ++ r1)) in Hw. rewrite rows_weight_app in Hw. lia. }
    apply (shed_correct _ _ _ r1); [by apply insert_app_left|done| |done]. rewrite Hperm. cbn. lia. }
  unfold page_take. destruct (page_full bounds p (weight p)) eqn:Hf; cbn [andb].
  - apply page_full_saturated in Hf; [|done]. specialize (Hbefore Hf). case_bool_decide as Hn.
    + destruct p as [|y q _] using rev_ind; [by apply full_ne in Hf|]. rewrite last_snoc in *. destruct y as [k row].
      rewrite weight_snoc. cbn [snd]. rewrite checked_sub_Ok. cbn [mbind res_bind]. rewrite pop_last_snoc.
      rewrite length_app in Hn. cbn in Hn.
      apply (Hstep q ((k, row) :: r)); [by rewrite E, <-app_assoc|by intros ? [= <-]; apply Hbefore| |lia].
      right. left. rewrite insert_perm; [cbn; lia|]. rewrite E, !fmap_app in Hx. set_solver.
    + cbn [mbind res_bind]. apply (Hstep p r); [done| | |lia].
      * intros y Hy. destruct (last p) as [z|] eqn:El; [|by apply last_None in El as ->; apply full_ne in Hf].
        eapply cmp_lt_trans; [by apply Hbefore|]. apply (page_after l p r); [done..|by apply last_elem_of|].
        by destruct r; [|injection Hy as ->; left].
      * right. apply (saturated_perm _ _ _ _ (p ++ [x])); [|by apply saturated_app].
        rewrite insert_perm by (rewrite E, fmap_app in Hx; set_solver). by rewrite Permutation_app_comm.
  - cbn [mbind res_bind]. assert (¬ full p) as Hnf.
    { intros F. apply page_full_saturated in F; [|done]. congruence. }
    destruct Hs as [->|]; [|done]. apply (Hstep p []); [done|done|by left|].
    destruct (decide (N.of_nat (length p) < pb_max_rows bounds)); [done|]. destruct Hnf. left. lia.
Qed.
End page_take.
