(* ===== verification/RunIterator.v ===== *)
(** * Row iterators over segments

    [loonfs-core/src/compaction/run_iterator.rs]: an iterator reads the rows
    of an ordered list of segments block by block, through a loader.  The
    loader is the trait [SegmentBlockLoader]; [LoaderLaws] is what its
    documentation promises.  Memory reservations are not modelled: they only
    bound how many blocks a refill loads, which the laws leave open. *)
From S2P Require Import Prelude Types Utf8 SegmentBlocks SegmentFormat.
Local Open Scope nat_scope.

Class SegmentBlockLoader (L Row Segment Er : Type) := {
  data_block_count : L → list SegmentIndexEntry → N → nat;
  load_index : L → Segment → res Er (list SegmentIndexEntry);
  load_data_blocks : L → Segment → list SegmentIndexEntry → res Er (list (DecodedDataBlock Row));
}.

Definition ITERATOR_FETCH_TARGET_BYTES : N := 2 * 1024 * 1024.

(** The trait's own [data_block_count]. *)
Fixpoint blocks_within (entries : list SegmentIndexEntry) (count : nat) (stored_bytes decoded_bytes : N)
    (target_bytes max_decoded_bytes : N) : nat :=
  match entries with
  | [] => count
  | entry :: entries =>
      let next_decoded_bytes := (decoded_bytes + entry.(sie_block).(bh_decoded_bytes))%N in
      if (0 <? count) && ((target_bytes <=? stored_bytes)%N || (max_decoded_bytes <? next_decoded_bytes)%N)
      then count
      else blocks_within entries (S count) (stored_bytes + entry.(sie_block).(bh_stored_bytes))
             next_decoded_bytes target_bytes max_decoded_bytes
  end.
Definition default_data_block_count (entries : list SegmentIndexEntry) (max_decoded_bytes : N) : nat :=
  blocks_within entries 0 0 0 (N.min ITERATOR_FETCH_TARGET_BYTES max_decoded_bytes) max_decoded_bytes.

Record SegmentRowIterator (Row Segment SortKey : Type) := mkSegmentRowIterator {
  it_sort_key : SortKey;
  it_segments : list Segment;
  it_next_segment : nat;
  it_index : option (list SegmentIndexEntry);
  it_next_block : nat;
  it_blocks : list (DecodedDataBlock Row);
  it_row : nat;
  it_lower : option string;
}.
Arguments mkSegmentRowIterator {Row Segment SortKey}. Arguments it_sort_key {Row Segment SortKey}.
Arguments it_segments {Row Segment SortKey}. Arguments it_next_segment {Row Segment SortKey}.
Arguments it_index {Row Segment SortKey}. Arguments it_next_block {Row Segment SortKey}.
Arguments it_blocks {Row Segment SortKey}. Arguments it_row {Row Segment SortKey}.
Arguments it_lower {Row Segment SortKey}.

Section iterators.
Context {L Row Segment SortKey Er : Type} `{SegmentBlockLoader L Row Segment Er}.
Abbreviation iterator := (SegmentRowIterator Row Segment SortKey).
Implicit Types it : iterator.

(** [SegmentRowIterator::new]. *)
Definition iterator_new (sort_key : SortKey) (segments : list Segment) (lower : option string) : iterator :=
  {| it_sort_key := sort_key; it_segments := segments; it_next_segment := 0; it_index := None;
     it_next_block := 0; it_blocks := []; it_row := 0; it_lower := lower |}.

Definition current_segment it : option Segment :=
  match it.(it_next_segment) with O => None | S position => it.(it_segments) !! position end.

(** Indexing past a block's rows panics. *)
Definition iterator_head it : res Er (option (string * Row)) :=
  match it.(it_blocks) with
  | [] => Ok None
  | block :: _ =>
      row_key ← expect (block.(ddb_row_keys) !! it.(it_row));
      row ← expect (block.(ddb_rows) !! it.(it_row));
      Ok (Some (row_key, row))
  end.

Definition loaded_through_key it : option string :=
  index ← it.(it_index);
  match it.(it_next_block) with
  | O => None
  | S position => sie_last_row_key <$> index !! position
  end.

(** [while front.is_some_and(|block| self.row >= block.rows.len()) { .. }]. *)
Fixpoint skip_spent (blocks : list (DecodedDataBlock Row)) (row : nat)
    : list (DecodedDataBlock Row) * nat :=
  match blocks with
  | block :: rest => if length block.(ddb_rows) <=? row then skip_spent rest 0 else (blocks, row)
  | [] => ([], row)
  end.

Definition take_head it : res Er (Row * iterator) :=
  block ← expect (head it.(it_blocks));
  row ← expect (block.(ddb_rows) !! it.(it_row));
  let '(blocks, position) := skip_spent it.(it_blocks) (S it.(it_row)) in
  Ok (row, {| it_sort_key := it.(it_sort_key); it_segments := it.(it_segments);
              it_next_segment := it.(it_next_segment); it_index := it.(it_index);
              it_next_block := it.(it_next_block); it_blocks := blocks; it_row := position;
              it_lower := it.(it_lower) |}).

Definition is_exhausted it : bool :=
  bool_decide (length it.(it_blocks) = 0) && (length it.(it_segments) <=? it.(it_next_segment))
  && match it.(it_index) with None => true | Some index => length index <=? it.(it_next_block) end.

Definition needs_fill it : bool := bool_decide (length it.(it_blocks) = 0) && negb (is_exhausted it).

Definition resident_blocks it : nat := length it.(it_blocks).

Definition with_index it (next_segment : nat) (index : option (list SegmentIndexEntry)) (next_block : nat)
    : iterator :=
  {| it_sort_key := it.(it_sort_key); it_segments := it.(it_segments); it_next_segment := next_segment;
     it_index := index; it_next_block := next_block; it_blocks := it.(it_blocks); it_row := it.(it_row);
     it_lower := it.(it_lower) |}.

(** The loop of [fill] over the loaded blocks. *)
Fixpoint push_blocks it (loaded : list (DecodedDataBlock Row)) : iterator :=
  match loaded with
  | [] => it
  | block :: loaded =>
      let next_row :=
        match it.(it_lower) with
        | None => 0
        | Some lower => partition_point (λ row_key, bool_decide (cmp row_key lower = Lt)) block.(ddb_row_keys)
        end in
      push_blocks
        (if next_row <? length block.(ddb_rows) then
           {| it_sort_key := it.(it_sort_key); it_segments := it.(it_segments);
              it_next_segment := it.(it_next_segment); it_index := it.(it_index);
              it_next_block := it.(it_next_block); it_blocks := it.(it_blocks) ++ [block];
              it_row := match it.(it_blocks) with [] => next_row | _ => it.(it_row) end;
              it_lower := it.(it_lower) |}
         else it)
        loaded
  end.

(** The index that a round of [fill] reads from: the current one, or the next
    segment's; [None] when no segment remains. *)
Definition next_index (loader : L) it : res Er (option (list SegmentIndexEntry * iterator)) :=
  let load_next :=
    match it.(it_segments) !! it.(it_next_segment) with
    | None => Ok None
    | Some segment =>
        index ← load_index loader segment;
        let next_block :=
          match it.(it_lower) with
          | None => 0
          | Some lower => partition_point (λ e, bool_decide (cmp e.(sie_last_row_key) lower = Lt)) index
          end in
        Ok (Some (index, with_index it (S it.(it_next_segment)) (Some index) next_block))
    end in
  match it.(it_index) with
  | Some index => if it.(it_next_block) <? length index then Ok (Some (index, it)) else load_next
  | None => load_next
  end.

(** [SegmentRowIterator::fill].  A round takes a segment or a block. *)
Fixpoint iterator_fill (fuel : nat) (loader : L) (max_decoded_bytes : N) it : res Er iterator :=
  match it.(it_blocks) with
  | _ :: _ => Ok it
  | [] =>
      match fuel with
      | O => OutOfFuel
      | S fuel =>
          next ← next_index loader it;
          match next with
          | None => Ok (with_index it it.(it_next_segment) None it.(it_next_block))
          | Some (index, it) =>
              segment ← expect (current_segment it);
              let entries := drop it.(it_next_block) index in
              let count := data_block_count loader entries max_decoded_bytes in
              if count =? 0 then
                iterator_fill fuel loader max_decoded_bytes
                  (with_index it it.(it_next_segment) (Some index) (length index))
              else if length entries <? count then Panic
              else
                loaded ← load_data_blocks loader segment (take count entries);
                if (length loaded =? 0) || (count <? length loaded) then Panic
                else
                  iterator_fill fuel loader max_decoded_bytes
                    (push_blocks
                       (with_index it it.(it_next_segment) (Some index) (it.(it_next_block) + length loaded))
                       loaded)
          end
      end
  end.

(** [refill_iterators]: the fills share the byte budget; they are independent
    of each other, so their order does not matter.  The result counts the
    resident blocks. *)
Fixpoint fill_all (fuel : nat) (loader : L) (max_decoded_bytes : N) (iterators : list iterator)
    : res Er (list iterator) :=
  match iterators with
  | [] => Ok []
  | it :: iterators =>
      it ← (if needs_fill it then iterator_fill fuel loader max_decoded_bytes it else Ok it);
      iterators ← fill_all fuel loader max_decoded_bytes iterators;
      Ok (it :: iterators)
  end.
Definition refill_iterators (fuel : nat) (loader : L) (iterators : list iterator)
    (max_decoded_input_bytes : N) : res Er (nat * list iterator) :=
  iterators ← fill_all fuel loader
    (max_decoded_input_bytes / N.of_nat (Nat.max (length iterators) 1))%N iterators;
  Ok (sum_list (resident_blocks <$> iterators), iterators).
End iterators.

(** ** What a loader promises *)

(** A block with its rows. *)
Definition decoded {Row} (rows : list (string * Row)) : DecodedDataBlock Row :=
  {| ddb_row_keys := rows.*1; ddb_rows := rows.*2 |}.

(** What the stored segments hold: the segments there are, the index of each
    and the rows of each of its blocks. *)
Record Catalog (Row Segment : Type) := mkCatalog {
  cat_has : Segment → Prop;
  cat_index : Segment → list SegmentIndexEntry;
  cat_blocks : Segment → list (list (string * Row));
}.
Arguments mkCatalog {Row Segment}. Arguments cat_has {Row Segment}. Arguments cat_index {Row Segment}.
Arguments cat_blocks {Row Segment}.

(** An index carries the last key of each block, and the rows are sorted. *)
Class CatalogLaws {Row Segment : Type} (catalog : Catalog Row Segment) : Prop := {
  cat_indexes : ∀ segment, cat_has catalog segment → indexes (cat_index catalog segment) (cat_blocks catalog segment);
  cat_sorted : ∀ segment, cat_has catalog segment → StronglySorted kle (concat (cat_blocks catalog segment)).*1;
}.

(** A loader serves the catalog: a load gives at least one and at most as
    many blocks as it was asked for, in order, and a count of zero is for no
    entries. *)
Class LoaderLaws {L Row Segment Er : Type} `{SegmentBlockLoader L Row Segment Er} (loader : L)
    (catalog : Catalog Row Segment) : Prop := {
  law_count : ∀ entries budget,
    data_block_count loader entries budget ≤ length entries ∧
    (entries ≠ [] → 1 ≤ data_block_count loader entries budget);
  law_index : ∀ segment index,
    cat_has catalog segment → load_index loader segment = Ok index → index = cat_index catalog segment;
  law_blocks : ∀ segment position count loaded,
    cat_has catalog segment → 1 ≤ count → position + count ≤ length (cat_index catalog segment) →
    load_data_blocks loader segment (take count (drop position (cat_index catalog segment))) = Ok loaded →
    ∃ n, 1 ≤ n ≤ count ∧ loaded = decoded <$> take n (drop position (cat_blocks catalog segment));
}.
Class LoaderReturns {L Row Segment Er : Type} `{SegmentBlockLoader L Row Segment Er} (loader : L)
    (catalog : Catalog Row Segment) : Prop := {
  load_index_returns : ∀ segment, cat_has catalog segment → returns (load_index loader segment);
  load_data_blocks_returns : ∀ segment position count,
    cat_has catalog segment → 1 ≤ count → position + count ≤ length (cat_index catalog segment) →
    returns (load_data_blocks loader segment (take count (drop position (cat_index catalog segment))));
}.

Definition at_or_above (lower : option string) (key : string) : Prop :=
  match lower with Some lower => kle lower key | None => True end.
#[export] Instance at_or_above_dec lower key : Decision (at_or_above lower key).
Proof. unfold at_or_above. destruct lower; apply _. Defined.

Section laws.
Context {L Row Segment SortKey Er : Type} `{SegmentBlockLoader L Row Segment Er}.
Context (catalog : Catalog Row Segment) `{!CatalogLaws catalog}.
#[local] Abbreviation contents := (cat_blocks catalog).
Abbreviation iterator := (SegmentRowIterator Row Segment SortKey).
Implicit Types (it : iterator) (rows : list (string * Row)) (new : list (list (string * Row))).

Definition from_lower (lower : option string) (rows : list (string * Row)) : list (string * Row) :=
  filter (λ row, at_or_above lower row.1) rows.

(** The rows in the loaded blocks, from the current one. *)
Definition loaded_rows (blocks : list (list (string * Row))) (row : nat) : list (string * Row) :=
  match blocks with [] => [] | block :: blocks => drop row block ++ concat blocks end.

(** The rows of the blocks that are not loaded. *)
Definition pending_rows it : list (string * Row) :=
  match it.(it_index), current_segment it with
  | Some _, Some segment => concat (drop it.(it_next_block) (contents segment))
  | _, _ => []
  end ++ concat ((λ segment, concat (contents segment)) <$> drop it.(it_next_segment) it.(it_segments)).

(** [iterates it rest]: the iterator is in order and has [rest] left. *)
Definition iterates it (rest : list (string * Row)) : Prop :=
  ∃ blocks,
    it.(it_blocks) = decoded <$> blocks ∧ Forall (λ block, block ≠ []) blocks ∧
    (∀ block, head blocks = Some block → it.(it_row) < length block) ∧
    (∀ index, it.(it_index) = Some index →
       ∃ segment, current_segment it = Some segment ∧ index = cat_index catalog segment) ∧
    it.(it_next_segment) ≤ length it.(it_segments) ∧ Forall (cat_has catalog) it.(it_segments) ∧
    rest = loaded_rows blocks it.(it_row) ++ from_lower it.(it_lower) (pending_rows it).

(** The rounds a fill needs. *)
Definition fill_rounds it : nat :=
  match it.(it_index), current_segment it with
  | Some _, Some segment => length (drop it.(it_next_block) (contents segment))
  | _, _ => 0
  end + sum_list ((λ segment, S (length (contents segment))) <$> drop it.(it_next_segment) it.(it_segments)).

(** ** The lower bound in a block *)
Lemma from_lower_app lower l k : from_lower lower (l ++ k) = from_lower lower l ++ from_lower lower k.
Proof. apply filter_app. Qed.

Lemma at_or_above_le lower k k' : at_or_above lower k → kle k k' → at_or_above lower k'.
Proof. destruct lower; [apply kle_trans|done]. Qed.

Definition first_row (lower : option string) (keys : list string) : nat :=
  match lower with
  | None => 0
  | Some lower => partition_point (λ row_key, bool_decide (cmp row_key lower = Lt)) keys
  end.

Lemma first_row_drop lower rows :
  StronglySorted kle rows.*1 → drop (first_row lower rows.*1) rows = from_lower lower rows.
Proof.
  unfold from_lower. intros Hs. destruct lower as [lower|]; [|by rewrite filter_all]. cbn [first_row at_or_above].
  induction rows as [|r rows IH]; [done|].
  apply StronglySorted_inv in Hs as [Hs Hall]. rewrite Forall_forall in Hall. cbn [fmap list_fmap partition_point].
  case_bool_decide as E.
  - cbn [drop]. rewrite filter_cons_False by (intros Hk; by apply (kle_not_lt _ _ Hk)). by apply IH.
  - apply not_lt_kle in E. symmetry. apply filter_all. intros x [->|Hx]%elem_of_cons; [done|].
    apply (kle_trans _ r.1); [done|]. apply Hall. by apply list_elem_of_fmap_2.
Qed.

Lemma first_row_0 lower rows :
  Forall (λ row, at_or_above lower row.1) rows → first_row lower rows.*1 = 0.
Proof.
  destruct lower as [lower|]; [|done]. cbn. destruct 1 as [|r rows Hr _]; [done|]. cbn.
  by rewrite bool_decide_false by (by apply kle_not_lt).
Qed.

Lemma first_row_spent lower rows :
  StronglySorted kle rows.*1 → length rows ≤ first_row lower rows.*1 → from_lower lower rows = [].
Proof. intros Hs Hle. rewrite <-first_row_drop by done. by apply drop_ge. Qed.

Lemma first_row_at lower rows :
  StronglySorted kle rows.*1 → first_row lower rows.*1 < length rows →
  ∃ row, row ∈ rows ∧ at_or_above lower row.1.
Proof.
  intros Hs Hlt. destruct (from_lower lower rows) as [|r rest] eqn:E.
  - rewrite <-first_row_drop in E by done. apply (f_equal length) in E. rewrite length_drop in E. cbn in E. lia.
  - assert (r ∈ from_lower lower rows) as [? ?]%list_elem_of_filter by (rewrite E; by left). by exists r.
Qed.

Lemma length_decoded (rows : list (string * Row)) :
  length (ddb_rows (decoded rows)) = length rows ∧ length (ddb_row_keys (decoded rows)) = length rows.
Proof. cbn. by rewrite !length_fmap. Qed.

Definition with_blocks it (blocks : list (DecodedDataBlock Row)) (row : nat) : iterator :=
  {| it_sort_key := it.(it_sort_key); it_segments := it.(it_segments); it_next_segment := it.(it_next_segment);
     it_index := it.(it_index); it_next_block := it.(it_next_block); it_blocks := blocks; it_row := row;
     it_lower := it.(it_lower) |}.

Lemma push_blocks_more it new :
  it.(it_blocks) ≠ [] → Forall (λ block, block ≠ []) new →
  Forall (λ row, at_or_above it.(it_lower) row.1) (concat new) →
  push_blocks it (decoded <$> new) = with_blocks it (it.(it_blocks) ++ (decoded <$> new)) it.(it_row).
Proof.
  revert it. induction new as [|b new IH]; intros it Hne Hnew Hlow.
  { cbn. rewrite app_nil_r. by destruct it. }
  inversion Hnew as [|? ? Hb Hnew']; subst. cbn [concat] in Hlow. apply Forall_app in Hlow as [Hlb Hln].
  cbn [push_blocks fmap list_fmap]. fold (first_row it.(it_lower) (ddb_row_keys (decoded b))).
  cbn [decoded ddb_row_keys]. rewrite first_row_0 by done. rewrite (proj2 (Nat.ltb_lt _ _)).
  2:{ cbn. rewrite length_fmap. destruct b; [done|cbn; lia]. }
  rewrite IH by (cbn; (done || by destruct (it_blocks it))).
  destruct it as [? ? ? ? ? [|? ?] ? ?]; [done|]. unfold with_blocks. cbn. by rewrite <-app_assoc.
Qed.

(** What the loaded blocks hold from the bound on. *)
Lemma push_blocks_first it new :
  it.(it_blocks) = [] → Forall (λ block, block ≠ []) new → StronglySorted kle (concat new).*1 →
  ∃ blocks row, push_blocks it (decoded <$> new) = with_blocks it (decoded <$> blocks) row ∧
    Forall (λ block, block ≠ []) blocks ∧ (∀ block, head blocks = Some block → row < length block) ∧
    loaded_rows blocks row = from_lower it.(it_lower) (concat new).
Proof.
  intros Hnil. induction new as [|b new IH]; intros Hnew Hs.
  { exists [], it.(it_row). split_and!; [|done..]. cbn. rewrite <-Hnil. by destruct it. }
  inversion Hnew as [|? ? Hb Hnew']; subst. cbn [concat] in *. rewrite fmap_app in Hs.
  apply sorted_app_inv in Hs as (Hsb & Hsn & Hcross). rewrite from_lower_app.
  cbn [push_blocks fmap list_fmap]. fold (first_row it.(it_lower) (ddb_row_keys (decoded b))).
  cbn [decoded ddb_row_keys ddb_rows]. rewrite length_fmap.
  destruct (Nat.ltb_spec (first_row (it_lower it) b.*1) (length b)) as [Hlt|Hge].
  - destruct (first_row_at _ _ Hsb Hlt) as (r & Hr & Har).
    assert (Forall (λ row, at_or_above (it_lower it) row.1) (concat new)) as Hall.
    { apply Forall_forall. intros x Hx. eapply at_or_above_le; [done|].
      apply Hcross; by apply list_elem_of_fmap_2. }
    rewrite push_blocks_more by (cbn; (done || by rewrite Hnil)). rewrite Hnil. cbn [it_blocks it_row app].
    exists (b :: new), (first_row (it_lower it) b.*1). split_and!; [done|done|by intros ? [= <-]|].
    cbn [loaded_rows]. rewrite first_row_drop by done. f_equal. symmetry. apply filter_all.
    by rewrite Forall_forall in Hall.
  - rewrite (first_row_spent _ b) by done. by apply IH.
Qed.

(** ** Reading *)

(** The rows in the loaded blocks, those before the current one included. *)
Definition loaded_row_count it : nat := sum_list ((λ block, length block.(ddb_rows)) <$> it.(it_blocks)).

Lemma loaded_row_count_eq it blocks :
  it.(it_blocks) = decoded <$> blocks → loaded_row_count it = length (concat blocks).
Proof.
  unfold loaded_row_count. intros ->. induction blocks as [|b blocks IH]; [done|].
  cbn. rewrite length_app, length_fmap, <-IH. done.
Qed.

Lemma iterates_new sort_key segments lower :
  Forall (cat_has catalog) segments →
  iterates (iterator_new sort_key segments lower)
    (from_lower lower (concat ((λ segment, concat (contents segment)) <$> segments))).
Proof. exists []. split_and!; [done|done|done|done|cbn; lia|done|done]. Qed.

Lemma iterates_head it rest :
  iterates it rest →
  iterator_head (Er:=Er) it = Ok (match it.(it_blocks) with [] => None | _ => head rest end) ∧
  (it.(it_blocks) ≠ [] → rest ≠ []).
Proof.
  intros (blocks & Hb & Hne & Hrow & _ & _ & _ & ->). unfold iterator_head. rewrite Hb.
  destruct blocks as [|b blocks]; [done|]. cbn [fmap list_fmap]. specialize (Hrow b eq_refl).
  destruct (lookup_lt_is_Some_2 b it.(it_row)) as [[k r] Hk]; [done|].
  cbn [decoded ddb_row_keys ddb_rows]. rewrite !list_lookup_fmap, Hk. cbn [expect fmap option_fmap option_map].
  cbn [loaded_rows]. rewrite (drop_S _ _ _ Hk). done.
Qed.

Lemma skip_spent_rows (blocks : list (list (string * Row))) row :
  Forall (λ block, block ≠ []) blocks → (∀ block, head blocks = Some block → row ≤ length block) →
  ∃ blocks' row', skip_spent (decoded <$> blocks) row = (decoded <$> blocks', row') ∧
    Forall (λ block, block ≠ []) blocks' ∧ (∀ block, head blocks' = Some block → row' < length block) ∧
    loaded_rows blocks' row' = loaded_rows blocks row.
Proof.
  intros Hne Hrow. destruct blocks as [|b blocks]; [by exists [], row|].
  inversion Hne as [|? ? Hb Hblocks]; subst. cbn [fmap list_fmap skip_spent decoded ddb_rows]. rewrite length_fmap.
  destruct (Nat.leb_spec (length b) row) as [Hle|Hlt].
  - specialize (Hrow b eq_refl). exists blocks, 0. split_and!; [|done|..].
    + destruct Hblocks as [|b' blocks Hb' _]; [done|]. cbn. rewrite length_fmap. by destruct b'.
    + intros b' Hb'. destruct Hblocks as [|b'' blocks Hb'' _]; [done|]. injection Hb' as <-. by destruct b''; [|cbn; lia].
    + cbn [loaded_rows]. rewrite (drop_ge b) by lia. by destruct blocks.
  - exists (b :: blocks), row. by split_and!; [| |intros ? [= <-]|].
Qed.

Lemma iterates_take it rest :
  iterates it rest → it.(it_blocks) ≠ [] →
  ∃ row rest' blocks' position, rest = row :: rest' ∧
    take_head (Er:=Er) it = Ok (row.2, with_blocks it blocks' position) ∧
    iterates (with_blocks it blocks' position) rest' ∧
    loaded_row_count (with_blocks it blocks' position) - position < loaded_row_count it - it.(it_row).
Proof.
  intros (blocks & Hb & Hne & Hrow & Hidx & Hseg & Hhas & ->) Hnil. unfold take_head. rewrite Hb in *.
  destruct blocks as [|b blocks]; [done|]. specialize (Hrow b eq_refl).
  destruct (lookup_lt_is_Some_2 b it.(it_row)) as [[k r] Hk]; [done|].
  destruct (skip_spent_rows (b :: blocks) (S it.(it_row)) Hne) as (blocks' & row' & Hskip & Hne' & Hrow' & Hloaded).
  { intros ? [= <-]. lia. }
  exists (k, r), (loaded_rows blocks' row' ++ from_lower it.(it_lower) (pending_rows it)), (decoded <$> blocks'), row'.
  split_and!.
  - rewrite Hloaded. cbn [loaded_rows]. by rewrite (drop_S _ _ _ Hk).
  - rewrite Hskip. cbn [fmap list_fmap head expect mbind res_bind decoded ddb_rows].
    rewrite list_lookup_fmap, Hk. done.
  - exists blocks'. by split_and!.
  - rewrite (loaded_row_count_eq it (b :: blocks)), (loaded_row_count_eq _ blocks') by done.
    apply (f_equal length) in Hloaded. cbn [concat]. rewrite length_app.
    destruct blocks' as [|b' blocks']; cbn [loaded_rows concat length] in *; [lia|].
    rewrite !length_app, !length_drop in Hloaded. rewrite length_app. specialize (Hrow' b' eq_refl). lia.
Qed.

(** ** Filling *)

Lemma current_has it segment :
  Forall (cat_has catalog) it.(it_segments) → current_segment it = Some segment → cat_has catalog segment.
Proof.
  rewrite Forall_forall. intros Hhas. unfold current_segment. destruct (it_next_segment it) as [|position]; [done|].
  intros Hs. apply Hhas. by eapply list_elem_of_lookup_2.
Qed.

Lemma current_indexes it segment :
  Forall (cat_has catalog) it.(it_segments) → current_segment it = Some segment →
  indexes (cat_index catalog segment) (contents segment).
Proof. intros Hhas Hcur. apply cat_indexes. by eapply current_has. Qed.

(** What a fill does not change. *)
Definition same_source it it' : Prop :=
  it'.(it_sort_key) = it.(it_sort_key) ∧ it'.(it_segments) = it.(it_segments) ∧ it'.(it_lower) = it.(it_lower).

(** Blocks whose last key is below the bound hold no row of interest. *)
Lemma skip_blocks lower segment :
  cat_has catalog segment →
  from_lower lower
    (concat (drop (first_row lower (sie_last_row_key <$> cat_index catalog segment)) (contents segment))) =
  from_lower lower (concat (contents segment)).
Proof.
  intros Hhas. pose proof (cat_indexes _ Hhas) as Hidx. set (index := cat_index catalog segment) in *. rewrite <-(take_drop (first_row lower (sie_last_row_key <$> index)) (contents segment)) at 2.
  rewrite concat_app, from_lower_app. symmetry. rewrite <-(app_nil_l (from_lower _ (concat (drop _ _)))) at 2.
  f_equal. apply filter_none.
  intros [k r] Hin%(list_elem_of_fmap_2 fst) Hab. cbn in Hab.
  apply concat_key in Hin as (j & rows & Hj & Hk). apply lookup_take_Some in Hj as [Hj Hlt].
  destruct (Forall2_lookup_r _ _ _ _ _ Hidx Hj) as (e & He & Hlast).
  destruct lower as [lower|]; [|cbn in Hlt; lia]. cbn in Hlt, Hab.
  assert ((sie_last_row_key <$> index) !! j = Some e.(sie_last_row_key)) as Hej by (by rewrite list_lookup_fmap, He).
  pose proof (partition_point_before _ _ _ _ Hej Hlt) as Hb%bool_decide_eq_true.
  destruct (sorted_block _ _ _ (cat_sorted segment Hhas) Hj) as [Hs _].
  apply (kle_not_lt _ _ Hab). eapply kle_lt_trans; [by eapply sorted_last|done].
Qed.

Lemma partition_point_fmap {A B} (f : A → B) (p : B → bool) l :
  partition_point p (f <$> l) = partition_point (λ a, p (f a)) l.
Proof. induction l as [|a l IH]; [done|]. cbn. by rewrite <-IH. Qed.

Context (loader : L) `{!LoaderLaws loader catalog}.

(** A round's index. *)
Lemma next_index_None it rest :
  iterates it rest → it.(it_blocks) = [] → next_index loader it = Ok None → rest = [].
Proof.
  intros (blocks & Hb & _ & _ & Hidx & Hseg & Hhas & ->) Hnil Hn. rewrite Hnil in Hb.
  destruct blocks; [|done]. cbn [loaded_rows app]. unfold next_index in Hn.
  assert (it.(it_segments) !! it.(it_next_segment) = None ∧
    ∀ index, it.(it_index) = Some index → length index ≤ it.(it_next_block)) as [Hnone Hdone].
  { destruct (it_segments it !! it_next_segment it) as [segment|].
    - destruct (it_index it) as [index|]; [destruct (Nat.ltb_spec (it_next_block it) (length index))|];
        [done|..]; by step_ok Hn i Hi.
    - split; [done|]. intros index E. rewrite E in Hn.
      destruct (Nat.ltb_spec (it_next_block it) (length index)); [done|lia]. }
  unfold pending_rows. rewrite (drop_ge (it_segments it)) by (by apply lookup_ge_None_1).
  destruct (it_index it) as [index|] eqn:Ei; [|done]. destruct (Hidx index eq_refl) as (segment & Hcur & ->).
  specialize (Hdone _ eq_refl). rewrite Hcur. pose proof (current_indexes it segment Hhas Hcur) as Hl%Forall2_length.
  by rewrite drop_ge by lia.
Qed.

Lemma next_index_Some it rest index it1 :
  iterates it rest → it.(it_blocks) = [] → next_index loader it = Ok (Some (index, it1)) →
  iterates it1 rest ∧ it1.(it_blocks) = [] ∧ it1.(it_index) = Some index ∧ same_source it it1 ∧
  (it1.(it_next_block) ≤ length index) ∧
  fill_rounds it1 ≤ fill_rounds it ∧ (length index ≤ it1.(it_next_block) → fill_rounds it1 < fill_rounds it).
Proof.
  intros (blocks & Hb & _ & _ & Hidx & Hseg & Hhas & ->) Hnil Hn. rewrite Hnil in Hb. destruct blocks; [|done].
  cbn [loaded_rows app].
  assert (it1 = it ∧ it.(it_index) = Some index ∧ it.(it_next_block) < length index ∨
    ∃ segment, it.(it_segments) !! it.(it_next_segment) = Some segment ∧ index = cat_index catalog segment ∧
      it1 = with_index it (S it.(it_next_segment)) (Some index)
              (first_row it.(it_lower) (sie_last_row_key <$> index)) ∧
      from_lower it.(it_lower)
        (match it.(it_index), current_segment it with
         | Some _, Some segment => concat (drop it.(it_next_block) (contents segment))
         | _, _ => [] end) = []) as Hcases.
  { unfold next_index in Hn.
    assert (∀ segment, it.(it_segments) !! it.(it_next_segment) = Some segment →
      (index ← load_index loader segment;
       Ok (Some (index, with_index it (S it.(it_next_segment)) (Some index)
         match it.(it_lower) with
         | None => 0
         | Some lower => partition_point (λ e, bool_decide (cmp e.(sie_last_row_key) lower = Lt)) index
         end))) = Ok (Some (index, it1)) →
      index = cat_index catalog segment ∧
      it1 = with_index it (S it.(it_next_segment)) (Some index)
              (first_row it.(it_lower) (sie_last_row_key <$> index))) as Hload.
    { intros segment Hs E. step_ok E index' Hi. injection E as -> <-.
      split; [by apply law_index; [eapply Forall_lookup_1|]|]. f_equal.
      unfold first_row. destruct (it_lower it); [|done]. by rewrite partition_point_fmap. }
    destruct (it_index it) as [index0|] eqn:Ei.
    - destruct (Nat.ltb_spec (it_next_block it) (length index0)) as [Hlt|Hge].
      { left. by injection Hn as -> ->. }
      right. destruct (it_segments it !! it_next_segment it) as [segment|] eqn:Es; [|done].
      exists segment. destruct (Hload segment eq_refl Hn) as [? ?]. split_and!; [done..|].
      destruct (Hidx index0 eq_refl) as (current & Hcur & ->). rewrite Hcur.
      pose proof (current_indexes it current Hhas Hcur) as Hl%Forall2_length. by rewrite drop_ge by lia.
    - right. destruct (it_segments it !! it_next_segment it) as [segment|] eqn:Es; [|done].
      exists segment. by destruct (Hload segment eq_refl Hn). }
  destruct Hcases as [(-> & Ei & Hlt)|(segment & Hs & Hl & -> & Hnone)].
  - split_and!; [|done|done|by split_and!|lia|lia|lia]. exists []. by split_and!.
  - pose proof (Forall_lookup_1 _ _ _ _ Hhas Hs) as Hseg1.
    pose proof (Forall2_length _ _ _ (cat_indexes _ Hseg1)) as Hlen. rewrite <-Hl in Hlen.
    assert (first_row (it_lower it) (sie_last_row_key <$> index) ≤ length index) as Hle.
    { unfold first_row. destruct (it_lower it); [|lia]. rewrite <-(length_fmap sie_last_row_key). apply partition_point_le. }
    assert (current_segment (with_index it (S (it_next_segment it)) (Some index)
      (first_row (it_lower it) (sie_last_row_key <$> index))) = Some segment) as Hcur by done.
    pose proof (lookup_lt_Some _ _ _ Hs) as Hslt.
    assert (fill_rounds (with_index it (S (it_next_segment it)) (Some index)
      (first_row (it_lower it) (sie_last_row_key <$> index))) < fill_rounds it) as Hrounds.
    { unfold fill_rounds. rewrite Hcur. cbn [with_index it_index it_next_block it_segments it_next_segment].
      rewrite (drop_S _ _ _ Hs). cbn. rewrite length_drop. lia. }
    split_and!; [|done|done|by split_and!|done|lia|lia].
    exists []. split_and!; [done|done|done| |cbn; lia|done|].
    + intros ? [= <-]. by exists segment.
    + cbn [loaded_rows app]. unfold pending_rows. rewrite Hcur.
      cbn [with_index it_index it_next_block it_segments it_next_segment it_lower].
      rewrite from_lower_app, Hnone. cbn [app]. rewrite (drop_S _ _ _ Hs). cbn [fmap list_fmap concat].
      rewrite !from_lower_app. f_equal. rewrite Hl. by rewrite skip_blocks.
Qed.

(** One round that loads blocks. *)
Lemma fill_round it rest index segment count loaded :
  iterates it rest → it.(it_blocks) = [] → it.(it_index) = Some index → current_segment it = Some segment →
  1 ≤ count → it.(it_next_block) + count ≤ length index →
  load_data_blocks loader segment (take count (drop it.(it_next_block) index)) = Ok loaded →
  let it' := push_blocks (with_index it it.(it_next_segment) (Some index) (it.(it_next_block) + length loaded))
    loaded in
  1 ≤ length loaded ≤ count ∧ iterates it' rest ∧ same_source it it' ∧ fill_rounds it' < fill_rounds it ∧
  is_Some (loaded_through_key it').
Proof.
  intros (blocks & Hb & _ & _ & Hidx & Hseg & Hhas & ->) Hnil Ei Hcur Hc Hle Hload. rewrite Hnil in Hb.
  destruct blocks; [|done]. destruct (Hidx index Ei) as (segment' & Hcur' & ->). simplify_eq.
  pose proof (current_has _ _ Hhas Hcur) as Hseg1. pose proof (cat_indexes _ Hseg1) as Hfor.
  pose proof (Forall2_length _ _ _ Hfor) as Hlen.
  destruct (law_blocks _ _ _ _ Hseg1 Hc Hle Hload) as (n & Hn & ->). set (index := cat_index catalog segment) in *.
  set (new := take n (drop (it_next_block it) (contents segment))).
  assert (length new = n) as Hnew by (unfold new; rewrite length_take, length_drop; lia).
  rewrite length_fmap, Hnew. cbn [loaded_rows app].
  set (it1 := with_index it (it_next_segment it) (Some index) (it_next_block it + n)).
  assert (Forall (λ block, block ≠ []) new) as Hne.
  { apply Forall_take, Forall_drop. apply Forall_forall. intros rows Hin.
    apply list_elem_of_lookup in Hin as [j Hj]. destruct (Forall2_lookup_r _ _ _ _ _ Hfor Hj) as (e & _ & He).
    by destruct rows. }
  assert (StronglySorted kle (concat new).*1) as Hs.
  { pose proof (cat_sorted segment Hseg1) as Hs. rewrite <-(take_drop (it_next_block it) (contents segment)), concat_app, fmap_app in Hs.
    apply sorted_app_inv in Hs as (_ & Hs & _). rewrite <-(take_drop n (drop _ _)), concat_app, fmap_app in Hs.
    by apply sorted_app_inv in Hs as (? & _). }
  destruct (push_blocks_first it1 new) as (blocks & row & Hpush & Hne' & Hrow & Hloaded); [done..|].
  rewrite Hpush. split_and!; [lia|lia| |by split_and!| |].
  - exists blocks. split_and!; [done|done|done| |done|done|].
    + intros ? [= <-]. by exists segment.
    + cbn [with_blocks it_row it_lower]. rewrite Hloaded. cbn [it1 with_index it_lower].
      unfold pending_rows. rewrite Ei. change (current_segment (with_blocks it1 _ _)) with (current_segment it).
      rewrite Hcur. cbn [with_blocks it1 with_index it_index it_next_block it_next_segment it_segments].
      rewrite !from_lower_app, app_assoc. f_equal. unfold new. rewrite <-from_lower_app, <-concat_app.
      by rewrite <-drop_drop, take_drop.
  - unfold fill_rounds. change (current_segment (with_blocks it1 _ _)) with (current_segment it). rewrite Ei, Hcur.
    cbn [with_blocks it1 with_index it_index it_next_block it_next_segment it_segments]. rewrite !length_drop. lia.
  - unfold loaded_through_key. cbn [with_blocks it1 with_index it_index it_next_block mbind option_bind].
    replace (it_next_block it + n) with (S (it_next_block it + (n - 1))) by lia.
    apply fmap_is_Some, lookup_lt_is_Some_2. lia.
Qed.

Lemma fill_spent it rest index :
  iterates it rest → it.(it_blocks) = [] → it.(it_index) = Some index → length index ≤ it.(it_next_block) →
  iterates (with_index it it.(it_next_segment) (Some index) (length index)) rest ∧
  fill_rounds (with_index it it.(it_next_segment) (Some index) (length index)) ≤ fill_rounds it.
Proof.
  intros (blocks & Hb & _ & _ & Hidx & Hseg & Hhas & ->) Hnil Ei Hge. rewrite Hnil in Hb. destruct blocks; [|done].
  destruct (Hidx index Ei) as (segment & Hcur & ->).
  pose proof (current_indexes it segment Hhas Hcur) as Hlen%Forall2_length. set (index := cat_index _ _) in *. split.
  - exists []. split_and!; [by rewrite <-Hb|done|done| |done|done|].
    + intros ? [= <-]. by exists segment.
    + cbn [loaded_rows app]. unfold pending_rows. change (current_segment (with_index it _ _ _)) with (current_segment it).
      rewrite Ei, Hcur. cbn [with_index it_index it_next_block it_next_segment it_segments it_lower].
      by rewrite (drop_ge (contents segment) (length index)), (drop_ge (contents segment) (it_next_block it)) by lia.
  - unfold fill_rounds. change (current_segment (with_index it _ _ _)) with (current_segment it). rewrite Ei, Hcur.
    cbn [with_index it_index it_next_block it_next_segment it_segments]. rewrite !length_drop. lia.
Qed.

Lemma fill_done it :
  iterates it [] → it.(it_blocks) = [] → iterates (with_index it it.(it_next_segment) None it.(it_next_block)) [].
Proof.
  intros (blocks & Hb & _ & _ & _ & Hseg & Hhas & Hrest) Hnil. rewrite Hnil in Hb. destruct blocks; [|done].
  exists []. split_and!; [by rewrite <-Hb|done|done|done|done|done|]. cbn [loaded_rows app] in *. unfold pending_rows in *.
  cbn [with_index it_index it_next_block it_next_segment it_segments it_lower app].
  rewrite from_lower_app in Hrest. symmetry in Hrest |- *. by apply app_eq_nil in Hrest as [_ ?].
Qed.

Lemma same_source_trans it1 it2 it3 : same_source it1 it2 → same_source it2 it3 → same_source it1 it3.
Proof. intros (? & ? & ?) (? & ? & ?). split_and!; congruence. Qed.

Lemma needs_fill_next it index_it :
  needs_fill it = true → next_index loader it = Ok index_it → it.(it_blocks) = [] ∧ index_it ≠ None.
Proof.
  unfold needs_fill, is_exhausted. intros [Hb Hx]%andb_true_iff Hn. apply bool_decide_eq_true, nil_length_inv in Hb.
  split; [done|]. rewrite Hb in Hx. cbn [length bool_decide andb] in Hx. rewrite bool_decide_true in Hx by done.
  apply negb_true_iff in Hx. cbn [andb] in Hx. intros ->. unfold next_index in Hn.
  assert (it.(it_segments) !! it.(it_next_segment) = None → (length it.(it_segments) <=? it.(it_next_segment)) = true) as Hnone.
  { intros E%lookup_ge_None_1. by apply Nat.leb_le. }
  destruct (it_segments it !! it_next_segment it) as [segment|] eqn:Es.
  - destruct (it_index it); [case_match|]; [done|..]; by step_ok Hn i Hi.
  - rewrite Hnone in Hx by done. destruct (it_index it); [|done]. cbn [andb] in Hx. apply Nat.leb_gt in Hx.
    apply Nat.ltb_lt in Hx. by rewrite Hx in Hn.
Qed.

(** A fill keeps the rows that are left, leaves a block loaded while there are
    any, and, when it was needed, makes progress. *)
Lemma iterator_fill_correct fuel budget it rest it' :
  iterates it rest → (it.(it_blocks) ≠ [] → is_Some (loaded_through_key it)) →
  iterator_fill fuel loader budget it = Ok it' →
  iterates it' rest ∧ same_source it it' ∧ (it'.(it_blocks) = [] → rest = []) ∧
  fill_rounds it' ≤ fill_rounds it ∧ (needs_fill it = true → fill_rounds it' < fill_rounds it) ∧
  (it'.(it_blocks) ≠ [] → is_Some (loaded_through_key it')).
Proof.
  revert it. induction fuel as [|fuel IH]; intros it Hit Hthrough Hf; cbn [iterator_fill] in Hf;
    destruct (it_blocks it) as [|b bs] eqn:Hnil; try done.
  1,3: injection Hf as <-; split_and!; [done|by split_and!|by rewrite Hnil|lia| |by rewrite Hnil];
    by unfold needs_fill; rewrite Hnil.
  step_ok Hf next Hn. destruct next as [[index it1]|].
  2:{ injection Hf as <-. pose proof (next_index_None _ _ Hit Hnil Hn) as ->.
      split_and!; [by apply fill_done|by split_and!|done| |by intros Hneed; destruct (needs_fill_next _ _ Hneed Hn)|by cbn; rewrite Hnil].
      unfold fill_rounds. cbn. lia. }
  destruct (next_index_Some _ _ _ _ Hit Hnil Hn) as (Hit1 & Hnil1 & Ei & Hsame & Hnb & Hr1 & Hr2).
  step_ok Hf segment Hseg. destruct (current_segment it1) as [segment'|] eqn:Hcur; [|done]. injection Hseg as ->.
  set (entries := drop _ index) in Hf. destruct (law_count entries budget) as [Hc1 Hc2].
  destruct (Nat.eqb_spec (data_block_count loader entries budget) 0) as [E0|Hne].
  - assert (length index ≤ it_next_block it1) as Hge.
    { destruct entries eqn:Ee; [|by specialize (Hc2 ltac:(done)); lia].
      apply (f_equal length) in Ee. unfold entries in Ee. rewrite length_drop in Ee. cbn in Ee. lia. }
    destruct (fill_spent it1 rest index Hit1 Hnil1 Ei Hge) as [Hit2 Hle]. specialize (Hr2 Hge).
    destruct (IH _ Hit2 ltac:(by cbn; rewrite Hnil1) Hf) as (? & Hs & ? & ? & _ & ?).
    split_and!; [done| |done|lia|lia|done].
    by eapply same_source_trans; [|eapply same_source_trans; [|exact Hs]].
  - destruct (Nat.ltb_spec (length entries) (data_block_count loader entries budget)); [lia|].
    step_ok Hf loaded Hload. unfold entries in Hc1. rewrite length_drop in Hc1.
    destruct (fill_round it1 rest index segment (data_block_count loader entries budget) loaded
      Hit1 Hnil1 Ei Hcur) as (Hn1 & Hit2 & Hs2 & Hlt & Hthrough2); [unfold entries in *; lia..|exact Hload|].
    destruct (_ || _) in Hf; [done|]. destruct (IH _ Hit2 (λ _, Hthrough2) Hf) as (? & Hs & ? & ? & _ & ?).
    split_and!; [done| |done|lia|lia|done].
    by eapply same_source_trans; [|eapply same_source_trans; [|exact Hs]].
Qed.

Lemma iterator_fill_returns `{!LoaderReturns loader catalog} fuel budget it rest :
  iterates it rest → fill_rounds it < fuel → returns (iterator_fill fuel loader budget it).
Proof.
  revert it. induction fuel as [|fuel IH]; intros it Hit Hfuel; [lia|]. cbn [iterator_fill].
  destruct (it_blocks it) as [|b bs] eqn:Hnil; [|done].
  apply returns_bind.
  { assert (∀ segment, it.(it_segments) !! it.(it_next_segment) = Some segment → cat_has catalog segment) as Hhas.
    { destruct Hit as (_ & _ & _ & _ & _ & _ & Hhas & _). intros segment. by apply Forall_lookup_1. }
    unfold next_index. repeat case_match; try done; (apply returns_bind; [apply load_index_returns; by apply Hhas|done]). }
  intros [[index it1]|] Hn; [|done].
  destruct (next_index_Some _ _ _ _ Hit Hnil Hn) as (Hit1 & Hnil1 & Ei & Hsame & Hnb & Hr1 & Hr2).
  assert (∃ segment, current_segment it1 = Some segment ∧ cat_has catalog segment ∧ index = cat_index catalog segment)
    as (segment & Hcur & Hhas & Hi).
  { destruct Hit1 as (_ & _ & _ & _ & Hidx & _ & Hhas & _). destruct (Hidx index Ei) as (segment & Hc & ->).
    exists segment. split_and!; [done|by eapply current_has|done]. }
  assert (∀ count, 1 ≤ count → it1.(it_next_block) + count ≤ length index →
    returns (load_data_blocks loader segment (take count (drop it1.(it_next_block) index)))) as Hret.
  { rewrite Hi. intros count. by apply load_data_blocks_returns. }
  rewrite Hcur. cbn [expect mbind res_bind]. set (entries := drop _ index).
  destruct (law_count entries budget) as [Hc1 Hc2].
  destruct (Nat.eqb_spec (data_block_count loader entries budget) 0) as [E0|Hne].
  - assert (length index ≤ it_next_block it1) as Hge.
    { destruct entries eqn:Ee; [|by specialize (Hc2 ltac:(done)); lia].
      apply (f_equal length) in Ee. unfold entries in Ee. rewrite length_drop in Ee. cbn in Ee. lia. }
    destruct (fill_spent it1 rest index Hit1 Hnil1 Ei Hge) as [Hit2 Hle]. apply (IH _ Hit2).
    specialize (Hr2 Hge). lia.
  - rewrite (proj2 (Nat.ltb_ge _ _)) by lia. unfold entries in Hc1. rewrite length_drop in Hc1.
    apply returns_bind.
    { apply Hret; unfold entries in *; lia. }
    intros loaded Hload.
    destruct (fill_round it1 rest index segment (data_block_count loader entries budget) loaded
      Hit1 Hnil1 Ei Hcur) as (Hn1 & Hit2 & Hs2 & Hlt & _); [unfold entries in *; lia..|exact Hload|].
    rewrite (proj2 (Nat.eqb_neq _ _)), (proj2 (Nat.ltb_ge _ _)) by (unfold entries in *; lia).
    apply (IH _ Hit2). lia.
Qed.
End laws.
