(* ===== verification/RowKeys.v ===== *)
(** * Durable row keys

    [loonfs-types/src/row_keys.rs]: the row key of every metadata row in
    every family, the prefixes that lookups scan, the Bloom filter probes and
    the scan bounds.  [row_order] is the abstract order of a family's rows;
    the theorems show that the byte order of the keys implements it, that
    each lookup prefix selects exactly the rows it is meant to, and that the
    resume bounds neither skip nor repeat a row. *)
From S2P Require Import Prelude Types Records Codec.
Local Open Scope N_scope.

Definition hex_encode_row_key_component (value : string) : string := hex_encode_bytes value.

(** [ContentId::body], which panics on an ID that was never validated. *)
Definition ContentId_body (content_id : ContentId) : res Empty_set string :=
  expect (strip_prefix "con_" content_id).

Module lookup_keys.
Definition INODE_ROW_PREFIX : string := "inode-".
Definition REVISION_ROW_PREFIX : string := "revision-".
Definition COMMIT_ROW_PREFIX : string := "commit-".
Definition DIRENTRY_BIND_ROW_PREFIX : string := "direntry-bind-".
Definition DIRENTRY_CHILD_BIND_ROW_PREFIX : string := "direntry-child-bind-".
Definition TOMBSTONE_ROW_PREFIX : string := "tombstone-".
Definition CONTENT_LAYOUT_ROW_PREFIX : string := "content-layout-".
Definition COMMIT_RECEIPT_ROW_PREFIX : string := "commit-receipt-".
Definition ATTRIBUTE_ROW_PREFIX : string := "attribute-".
Definition ACCESS_ROW_PREFIX : string := "access-".
Definition MERGE_ROW_PREFIX : string := "merge-".
Definition ACTIVE_DELETION_ROW_PREFIX : string := "active-deletion-".
Definition ACTIVE_DELETION_RANK_REMOVED : N := 0.
Definition ACTIVE_DELETION_RANK_LISTED : N := 1.

Definition after_row_key (row_key : string) : string := row_key +:+ String Ascii.zero "".

Definition commit_row_key (seq : ChangeSeq) : string := COMMIT_ROW_PREFIX +:+ fmt_dec 20 seq.

Definition inode_key (inode_id : InodeId) : string := INODE_ROW_PREFIX +:+ InodeId_body inode_id.

Definition inode_key_after (inode_id : InodeId) : string := after_row_key (inode_key inode_id).

Definition direntry_parent_probe (parent_inode_id : InodeId) : string :=
  DIRENTRY_BIND_ROW_PREFIX +:+ InodeId_body parent_inode_id.

Definition direntry_parent_prefix (parent_inode_id : InodeId) : string :=
  direntry_parent_probe parent_inode_id +:+ "-".

Definition direntry_bind_probe (parent_inode_id : InodeId) (name_key : NameKey) : string :=
  direntry_parent_prefix parent_inode_id +:+ hex_encode_row_key_component name_key.

Definition direntry_bind_prefix (parent_inode_id : InodeId) (name_key : NameKey) : string :=
  direntry_bind_probe parent_inode_id name_key +:+ "-".

Definition direntry_bind_edge_prefix (parent_inode_id : InodeId) (name_key : NameKey)
    (child_inode_id : InodeId) : string :=
  direntry_bind_prefix parent_inode_id name_key +:+ InodeId_body child_inode_id +:+ "-".

Definition direntry_bind_row_key (parent_inode_id : InodeId) (name_key : NameKey)
    (child_inode_id : InodeId) (committed_seq : ChangeSeq) (delta_index : N) : string :=
  direntry_bind_edge_prefix parent_inode_id name_key child_inode_id
    +:+ fmt_dec 20 (U64_MAX - committed_seq) +:+ "-" +:+ fmt_dec 10 (U32_MAX - delta_index).

Definition direntry_child_probe (child_inode_id : InodeId) : string :=
  DIRENTRY_CHILD_BIND_ROW_PREFIX +:+ InodeId_body child_inode_id.

Definition direntry_child_prefix (child_inode_id : InodeId) : string :=
  direntry_child_probe child_inode_id +:+ "-".

Definition direntry_child_bind_edge_prefix (child_inode_id parent_inode_id : InodeId)
    (name_key : NameKey) : string :=
  direntry_child_prefix child_inode_id +:+ InodeId_body parent_inode_id +:+ "-"
    +:+ hex_encode_row_key_component name_key +:+ "-".

Definition direntry_child_bind_row_key (child_inode_id parent_inode_id : InodeId)
    (name_key : NameKey) (committed_seq : ChangeSeq) (delta_index : N) : string :=
  direntry_child_bind_edge_prefix child_inode_id parent_inode_id name_key
    +:+ fmt_dec 20 (U64_MAX - committed_seq) +:+ "-" +:+ fmt_dec 10 (U32_MAX - delta_index).

Definition tombstone_probe (root_inode_id : InodeId) : string :=
  TOMBSTONE_ROW_PREFIX +:+ InodeId_body root_inode_id.

Definition tombstone_prefix (root_inode_id : InodeId) : string :=
  tombstone_probe root_inode_id +:+ "-".

Definition tombstone_row_key (root_inode_id : InodeId) (committed_seq : ChangeSeq)
    (delta_index : N) : string :=
  tombstone_prefix root_inode_id
    +:+ fmt_dec 20 (U64_MAX - committed_seq) +:+ "-" +:+ fmt_dec 10 (U32_MAX - delta_index).

Definition active_deletion_probe (deletion_seq : ChangeSeq) (root_inode_id : InodeId) : string :=
  ACTIVE_DELETION_ROW_PREFIX +:+ fmt_dec 20 deletion_seq +:+ "-" +:+ InodeId_body root_inode_id.

Definition active_deletion_row_key (deletion_seq : ChangeSeq) (root_inode_id : InodeId)
    (sort_rank : N) : string :=
  active_deletion_probe deletion_seq root_inode_id +:+ "-" +:+ fmt_dec 10 sort_rank.

Definition active_deletion_key_after (deletion_seq : ChangeSeq) (root_inode_id : InodeId) : string :=
  after_row_key (active_deletion_row_key deletion_seq root_inode_id ACTIVE_DELETION_RANK_LISTED).

Definition active_deletion_key_after_seq (deletion_seq : ChangeSeq) : string :=
  ACTIVE_DELETION_ROW_PREFIX +:+ fmt_dec 20 deletion_seq +:+ ".".

Definition content_layout_probe (content_id : ContentId) : res Empty_set string :=
  body ← ContentId_body content_id;
  Ok (CONTENT_LAYOUT_ROW_PREFIX +:+ body).

Definition content_layout_prefix (content_id : ContentId) : res Empty_set string :=
  probe ← content_layout_probe content_id;
  Ok (probe +:+ "-").

Definition content_layout_row_key (content_id : ContentId) (size_bytes : N)
    (committed_seq : ChangeSeq) : res Empty_set string :=
  prefix ← content_layout_prefix content_id;
  Ok (prefix +:+ fmt_dec 20 (U64_MAX - size_bytes) +:+ "-" +:+ fmt_dec 20 (U64_MAX - committed_seq)).

Definition commit_receipt_probe (commit_id : CommitId) : string :=
  COMMIT_RECEIPT_ROW_PREFIX +:+ hex_encode_row_key_component commit_id.

Definition commit_receipt_prefix (commit_id : CommitId) : string :=
  commit_receipt_probe commit_id +:+ "-".

Definition commit_receipt_row_key (commit_id : CommitId) (committed_seq : ChangeSeq) : string :=
  commit_receipt_prefix commit_id +:+ fmt_dec 20 committed_seq.

Definition merge_probe (source_namespace_id : NamespaceId) : string :=
  MERGE_ROW_PREFIX +:+ hex_encode_row_key_component source_namespace_id.

Definition merge_prefix (source_namespace_id : NamespaceId) : string :=
  merge_probe source_namespace_id +:+ "-".

Definition merge_row_key (source_namespace_id : NamespaceId) (committed_seq : ChangeSeq) : string :=
  merge_prefix source_namespace_id +:+ fmt_dec 20 (U64_MAX - committed_seq).

Definition revision_probe (inode_id : InodeId) : string :=
  REVISION_ROW_PREFIX +:+ InodeId_body inode_id.

Definition revision_prefix (inode_id : InodeId) : string := revision_probe inode_id +:+ "-".

Definition revision_no_prefix (inode_id : InodeId) (revision_no : RevisionNo) : string :=
  revision_prefix inode_id +:+ fmt_dec 20 (U64_MAX - revision_no) +:+ "-".

Definition revision_row_key (inode_id : InodeId) (revision_no : RevisionNo)
    (committed_seq : ChangeSeq) (delta_index : N) : string :=
  revision_no_prefix inode_id revision_no
    +:+ fmt_dec 20 (U64_MAX - committed_seq) +:+ "-" +:+ fmt_dec 10 (U32_MAX - delta_index).

Definition attributes_probe (inode_id : InodeId) : string :=
  ATTRIBUTE_ROW_PREFIX +:+ InodeId_body inode_id.

Definition attributes_prefix (inode_id : InodeId) : string := attributes_probe inode_id +:+ "-".

Definition attributes_row_key (inode_id : InodeId) (attributes_revision_no : AttributesRevisionNo)
    (committed_seq : ChangeSeq) (delta_index : N) : string :=
  attributes_prefix inode_id
    +:+ fmt_dec 20 (U64_MAX - attributes_revision_no) +:+ "-"
    +:+ fmt_dec 20 (U64_MAX - committed_seq) +:+ "-" +:+ fmt_dec 10 (U32_MAX - delta_index).

Definition access_probe (inode_id : InodeId) : string :=
  ACCESS_ROW_PREFIX +:+ InodeId_body inode_id.

Definition access_prefix (inode_id : InodeId) : string := access_probe inode_id +:+ "-".

Definition access_row_key (inode_id : InodeId) (access_revision_no : AccessRevisionNo)
    (committed_seq : ChangeSeq) (delta_index : N) : string :=
  access_prefix inode_id
    +:+ fmt_dec 20 (U64_MAX - access_revision_no) +:+ "-"
    +:+ fmt_dec 20 (U64_MAX - committed_seq) +:+ "-" +:+ fmt_dec 10 (U32_MAX - delta_index).
End lookup_keys.
Import lookup_keys.

(** [MetadataRowFamily::row_key_prefix]. *)
Definition row_key_prefix (family : MetadataRowFamily) : string :=
  match family with
  | FamInodes => INODE_ROW_PREFIX
  | FamDirentryBinds => DIRENTRY_BIND_ROW_PREFIX
  | FamDirentryChildBinds => DIRENTRY_CHILD_BIND_ROW_PREFIX
  | FamRevisions => REVISION_ROW_PREFIX
  | FamTombstones => TOMBSTONE_ROW_PREFIX
  | FamActiveDeletions => ACTIVE_DELETION_ROW_PREFIX
  | FamCommitReceipts => COMMIT_RECEIPT_ROW_PREFIX
  | FamCommits => COMMIT_ROW_PREFIX
  | FamContentLayouts => CONTENT_LAYOUT_ROW_PREFIX
  | FamAttributes => ATTRIBUTE_ROW_PREFIX
  | FamAccess => ACCESS_ROW_PREFIX
  | FamMerges => MERGE_ROW_PREFIX
  end.

(** [ActiveDeletionRowAction::sort_rank]. *)
Definition sort_rank (action : ActiveDeletionRowAction) : N :=
  match action with
  | Removed _ => ACTIVE_DELETION_RANK_REMOVED
  | Listed _ _ _ _ => ACTIVE_DELETION_RANK_LISTED
  end.

(** [ActiveDeletionRecord::row_key]. *)
Definition active_deletion_record_row_key (record : ActiveDeletionRecord) : string :=
  active_deletion_row_key record.(ad_deletion_seq) record.(ad_root_inode_id)
    (sort_rank record.(ad_action)).

(** [MetadataRow::row_key_for_family]: a binding row in a family that is not
    a binding family panics. *)
Definition row_key_for_family (row : MetadataRow) (family : MetadataRowFamily) : res Empty_set string :=
  match row with
  | RowInode record => Ok (inode_key record.(ir_inode_id))
  | RowDirentryBinding record =>
      expect match family with
      | FamDirentryBinds =>
          Some (direntry_bind_row_key record.(db_parent_inode_id) record.(db_name_key)
                  record.(db_child_inode_id) record.(db_committed_seq) record.(db_delta_index))
      | FamDirentryChildBinds =>
          Some (direntry_child_bind_row_key record.(db_child_inode_id) record.(db_parent_inode_id)
                  record.(db_name_key) record.(db_committed_seq) record.(db_delta_index))
      | FamInodes | FamRevisions | FamTombstones | FamActiveDeletions | FamCommitReceipts
      | FamCommits | FamContentLayouts | FamAttributes | FamAccess | FamMerges => None
      end
  | RowFileRevision record =>
      Ok (revision_row_key record.(rr_inode_id) record.(rr_revision_no)
            record.(rr_committed_seq) record.(rr_delta_index))
  | RowTombstone record =>
      Ok (tombstone_row_key record.(tb_root_inode_id) record.(tb_committed_seq)
            record.(tb_delta_index))
  | RowActiveDeletion record =>
      Ok (active_deletion_row_key record.(ad_deletion_seq) record.(ad_root_inode_id)
            (sort_rank record.(ad_action)))
  | RowCommitReceipt record =>
      Ok (commit_receipt_row_key record.(rc_commit_id) record.(rc_committed_seq))
  | RowCommit record => Ok (commit_row_key record.(wcp_committed_seq))
  | RowMerge record => Ok (merge_row_key record.(mi_source_namespace_id) record.(mi_committed_seq))
  | RowContentLayout record =>
      content_layout_row_key record.(lr_content_id) record.(lr_size_bytes) record.(lr_committed_seq)
  | RowAttributesRevision record =>
      Ok (attributes_row_key record.(at_inode_id) record.(at_attributes_revision_no)
            record.(at_committed_seq) record.(at_delta_index))
  | RowAccessRevision record =>
      Ok (access_row_key record.(ac_inode_id) record.(ac_access_revision_no)
            record.(ac_committed_seq) record.(ac_delta_index))
  end.

(** The family that [MetadataRow::row_key] picks. *)
Definition primary_family (row : MetadataRow) : MetadataRowFamily :=
  match row with
  | RowInode _ => FamInodes
  | RowDirentryBinding _ => FamDirentryBinds
  | RowFileRevision _ => FamRevisions
  | RowTombstone _ => FamTombstones
  | RowActiveDeletion _ => FamActiveDeletions
  | RowCommitReceipt _ => FamCommitReceipts
  | RowCommit _ => FamCommits
  | RowMerge _ => FamMerges
  | RowContentLayout _ => FamContentLayouts
  | RowAttributesRevision _ => FamAttributes
  | RowAccessRevision _ => FamAccess
  end.

(** [MetadataRow::row_key]. *)
Definition row_key (row : MetadataRow) : res Empty_set string :=
  row_key_for_family row (primary_family row).

(** [MetadataRow::filter_key_for_family]. *)
Definition filter_key_for_family (row : MetadataRow) (family : MetadataRowFamily)
    : res Empty_set string :=
  match row with
  | RowInode _ => row_key_for_family row family
  | RowDirentryBinding record =>
      expect match family with
      | FamDirentryBinds =>
          Some (direntry_bind_probe record.(db_parent_inode_id) record.(db_name_key))
      | FamDirentryChildBinds => Some (direntry_child_probe record.(db_child_inode_id))
      | FamInodes | FamRevisions | FamTombstones | FamActiveDeletions | FamCommitReceipts
      | FamCommits | FamContentLayouts | FamAttributes | FamAccess | FamMerges => None
      end
  | RowFileRevision record => Ok (revision_probe record.(rr_inode_id))
  | RowTombstone record => Ok (tombstone_probe record.(tb_root_inode_id))
  | RowActiveDeletion record =>
      Ok (active_deletion_probe record.(ad_deletion_seq) record.(ad_root_inode_id))
  | RowCommitReceipt record => Ok (commit_receipt_probe record.(rc_commit_id))
  | RowCommit _ => row_key_for_family row family
  | RowMerge record => Ok (merge_probe record.(mi_source_namespace_id))
  | RowContentLayout record => content_layout_probe record.(lr_content_id)
  | RowAttributesRevision record => Ok (attributes_probe record.(at_inode_id))
  | RowAccessRevision record => Ok (access_probe record.(ac_inode_id))
  end.

(** [MetadataRow::parent_filter_key_for_family]. *)
Definition parent_filter_key_for_family (row : MetadataRow) (family : MetadataRowFamily)
    : option string :=
  match row, family with
  | RowDirentryBinding record, FamDirentryBinds =>
      Some (direntry_parent_probe record.(db_parent_inode_id))
  | _, _ => None
  end.

(** ** The abstract order

    A family orders its rows by a list of components, compared one after the
    other: a number that ascends, a number that descends (newest or longest
    first), or a byte string. *)
Inductive component : Set := Asc (n : N) | Desc (n : N) | Text (s : string).

Definition component_cmp (c d : component) : comparison :=
  match c, d with
  | Asc a, Asc b => a ?= b
  | Desc a, Desc b => b ?= a
  | Text a, Text b => string_cmp a b
  | _, _ => Eq
  end.

Fixpoint components_cmp (cs ds : list component) : comparison :=
  match cs, ds with
  | c :: cs, d :: ds => lex (component_cmp c d) (components_cmp cs ds)
  | _, _ => Eq
  end.

Definition row_order (family : MetadataRowFamily) (row : MetadataRow) : list component :=
  match row with
  | RowInode r => [Asc r.(ir_inode_id)]
  | RowDirentryBinding r =>
      match family with
      | FamDirentryChildBinds =>
          [Asc r.(db_child_inode_id); Asc r.(db_parent_inode_id); Text r.(db_name_key);
           Desc r.(db_committed_seq); Desc r.(db_delta_index)]
      | _ =>
          [Asc r.(db_parent_inode_id); Text r.(db_name_key); Asc r.(db_child_inode_id);
           Desc r.(db_committed_seq); Desc r.(db_delta_index)]
      end
  | RowFileRevision r =>
      [Asc r.(rr_inode_id); Desc r.(rr_revision_no); Desc r.(rr_committed_seq);
       Desc r.(rr_delta_index)]
  | RowTombstone r => [Asc r.(tb_root_inode_id); Desc r.(tb_committed_seq); Desc r.(tb_delta_index)]
  | RowActiveDeletion r =>
      [Asc r.(ad_deletion_seq); Asc r.(ad_root_inode_id);
       Asc (match r.(ad_action) with Removed _ => 0 | Listed _ _ _ _ => 1 end)]
  | RowCommitReceipt r => [Text r.(rc_commit_id); Asc r.(rc_committed_seq)]
  | RowCommit r => [Asc r.(wcp_committed_seq)]
  | RowMerge r => [Text r.(mi_source_namespace_id); Desc r.(mi_committed_seq)]
  | RowContentLayout r =>
      [Text r.(lr_content_id); Desc r.(lr_size_bytes); Desc r.(lr_committed_seq)]
  | RowAttributesRevision r =>
      [Asc r.(at_inode_id); Desc r.(at_attributes_revision_no); Desc r.(at_committed_seq);
       Desc r.(at_delta_index)]
  | RowAccessRevision r =>
      [Asc r.(ac_inode_id); Desc r.(ac_access_revision_no); Desc r.(ac_committed_seq);
       Desc r.(ac_delta_index)]
  end.

(** The families a row is stored in: its primary family and, for a binding,
    the child index. *)
Definition stored_in (family : MetadataRowFamily) (row : MetadataRow) : Prop :=
  family = primary_family row ∨
  (family = FamDirentryChildBinds ∧ primary_family row = FamDirentryBinds).

(** The ranges that the Rust types give the key's components. *)
Definition row_wf (row : MetadataRow) : Prop :=
  match row with
  | RowInode r => r.(ir_inode_id) ≤ U128_MAX
  | RowDirentryBinding r =>
      r.(db_parent_inode_id) ≤ U128_MAX ∧ r.(db_child_inode_id) ≤ U128_MAX ∧
      r.(db_committed_seq) ≤ U64_MAX ∧ r.(db_delta_index) ≤ U32_MAX
  | RowFileRevision r =>
      r.(rr_inode_id) ≤ U128_MAX ∧ r.(rr_revision_no) ≤ U64_MAX ∧
      r.(rr_committed_seq) ≤ U64_MAX ∧ r.(rr_delta_index) ≤ U32_MAX
  | RowTombstone r =>
      r.(tb_root_inode_id) ≤ U128_MAX ∧ r.(tb_committed_seq) ≤ U64_MAX ∧
      r.(tb_delta_index) ≤ U32_MAX
  | RowActiveDeletion r => r.(ad_deletion_seq) ≤ U64_MAX ∧ r.(ad_root_inode_id) ≤ U128_MAX
  | RowCommitReceipt r => r.(rc_committed_seq) ≤ U64_MAX
  | RowCommit r => r.(wcp_committed_seq) ≤ U64_MAX
  | RowMerge r => r.(mi_committed_seq) ≤ U64_MAX
  | RowContentLayout r =>
      validate_generated_id "con" r.(lr_content_id) = Ok () ∧
      r.(lr_size_bytes) ≤ U64_MAX ∧ r.(lr_committed_seq) ≤ U64_MAX
  | RowAttributesRevision r =>
      r.(at_inode_id) ≤ U128_MAX ∧ r.(at_attributes_revision_no) ≤ U64_MAX ∧
      r.(at_committed_seq) ≤ U64_MAX ∧ r.(at_delta_index) ≤ U32_MAX
  | RowAccessRevision r =>
      r.(ac_inode_id) ≤ U128_MAX ∧ r.(ac_access_revision_no) ≤ U64_MAX ∧
      r.(ac_committed_seq) ≤ U64_MAX ∧ r.(ac_delta_index) ≤ U32_MAX
  end.

(** ** Component lemmas *)
Lemma sub_cmp max a b : a ≤ max → b ≤ max → (max - a ?= max - b) = (b ?= a).
Proof.
  intros. destruct (N.compare_spec b a); [subst; apply N.compare_refl|..].
  - apply N.compare_lt_iff. lia.
  - apply N.compare_gt_iff. lia.
Qed.

Lemma u64_digits n : n ≤ U64_MAX → n < 10 ^ N.of_nat 20.
Proof. intros. eapply N.le_lt_trans; [done|]. done. Qed.

Lemma u32_digits n : n ≤ U32_MAX → n < 10 ^ N.of_nat 10.
Proof. intros. eapply N.le_lt_trans; [done|]. done. Qed.

Lemma cmp_id_component a b x y : a ≤ U128_MAX → b ≤ U128_MAX →
  string_cmp (InodeId_body a +:+ x) (InodeId_body b +:+ y) = lex (a ?= b) (string_cmp x y).
Proof.
  intros. rewrite string_cmp_app by (by rewrite !InodeId_body_length). by rewrite InodeId_body_cmp.
Qed.

Lemma cmp_u64_component a b x y : a ≤ U64_MAX → b ≤ U64_MAX →
  string_cmp (fmt_dec 20 a +:+ x) (fmt_dec 20 b +:+ y) = lex (a ?= b) (string_cmp x y).
Proof.
  intros ?%u64_digits ?%u64_digits.
  rewrite string_cmp_app by (rewrite !fmt_dec_length by (done || lia); done).
  rewrite fmt_dec_cmp by (done || lia). done.
Qed.

Lemma cmp_u64_end a b : a ≤ U64_MAX → b ≤ U64_MAX →
  string_cmp (fmt_dec 20 a) (fmt_dec 20 b) = (a ?= b).
Proof. intros ?%u64_digits ?%u64_digits. apply fmt_dec_cmp; done || lia. Qed.

Lemma cmp_u32_end a b : a ≤ U32_MAX → b ≤ U32_MAX →
  string_cmp (fmt_dec 10 a) (fmt_dec 10 b) = (a ?= b).
Proof. intros ?%u32_digits ?%u32_digits. apply fmt_dec_cmp; done || lia. Qed.

Lemma cmp_hex_component a b x y :
  string_cmp (hex_encode_bytes a +:+ "-" +:+ x) (hex_encode_bytes b +:+ "-" +:+ y)
  = lex (string_cmp a b) (string_cmp x y).
Proof. apply hex_component_cmp. Qed.

Lemma valid_content_id id :
  validate_generated_id "con" id = Ok () →
  ∃ body, id = "con_" +:+ body ∧ ContentId_body id = Ok body ∧ String.length body = 26%nat.
Proof.
  unfold validate_generated_id, ContentId_body. change ("con" +:+ "_") with "con_".
  destruct (strip_prefix "con_" id) as [body|] eqn:E; [|done].
  unfold generated_id_body_error. destruct (bool_decide _) eqn:EL; [done|].
  intros _. apply bool_decide_eq_false in EL. exists body. split; [by apply strip_prefix_Some|].
  split; [done|]. by destruct (decide (String.length body = 26%nat)).
Qed.

Lemma lex_Eq c : lex c Eq = c.
Proof. by destruct c. Qed.

(** Unfolds the key builders and compares the keys component by component. *)
Ltac key_cmp :=
  unfold direntry_bind_row_key, direntry_bind_edge_prefix, direntry_bind_prefix,
    direntry_bind_probe, direntry_parent_prefix, direntry_parent_probe,
    direntry_child_bind_row_key, direntry_child_bind_edge_prefix, direntry_child_prefix,
    direntry_child_probe, tombstone_row_key, tombstone_prefix, tombstone_probe,
    active_deletion_row_key, active_deletion_probe, commit_receipt_row_key,
    commit_receipt_prefix, commit_receipt_probe, commit_row_key, merge_row_key, merge_prefix,
    merge_probe, revision_row_key, revision_no_prefix, revision_prefix, revision_probe,
    attributes_row_key, attributes_prefix, attributes_probe, access_row_key, access_prefix,
    access_probe, inode_key, hex_encode_row_key_component;
  rewrite ?string_app_assoc;
  repeat first
    [ rewrite string_cmp_prefix
    | rewrite cmp_id_component by lia
    | rewrite cmp_hex_component
    | rewrite cmp_u64_component by lia
    | rewrite cmp_u64_end by lia
    | rewrite cmp_u32_end by lia
    | rewrite InodeId_body_cmp by lia
    | rewrite sub_cmp by lia ];
  rewrite ?lex_Eq; try done.

(** Every stored row has a key in the family. *)
Lemma row_key_for_family_Ok family row :
  row_wf row → stored_in family row → ∃ key, row_key_for_family row family = Ok key.
Proof.
  intros Hwf Hin. destruct row; cbn [row_key_for_family]; eauto.
  - destruct Hin as [-> | [-> _]]; cbn; eauto.
  - destruct Hwf as (Hv & _). apply valid_content_id in Hv as (body & _ & Hb & _).
    unfold content_layout_row_key, content_layout_prefix, content_layout_probe. rewrite Hb. cbn. eauto.
Qed.

Lemma row_key_cmp family r1 r2 k1 k2 :
  row_wf r1 → row_wf r2 → stored_in family r1 → stored_in family r2 →
  row_key_for_family r1 family = Ok k1 → row_key_for_family r2 family = Ok k2 →
  string_cmp k1 k2 = components_cmp (row_order family r1) (row_order family r2).
Proof.
  intros W1 W2 S1 S2.
  destruct r1, r2; try (exfalso; unfold stored_in in *; naive_solver);
    cbn [row_wf] in W1, W2; cbn [row_key_for_family row_order components_cmp component_cmp].
  2: destruct S1 as [-> | [-> _]]; cbn [primary_family expect components_cmp component_cmp].
  all: try (intros [= <-] [= <-]; key_cmp).
  - destruct (ad_action record), (ad_action record0); cbn [sort_rank];
      rewrite cmp_u32_end by done; done.
  - destruct W1 as (V1 & H1 & H2), W2 as (V2 & H3 & H4).
    apply valid_content_id in V1 as (b1 & E1 & B1 & L1).
    apply valid_content_id in V2 as (b2 & E2 & B2 & L2).
    unfold content_layout_row_key, content_layout_prefix, content_layout_probe.
    rewrite B1, B2. cbn [mbind res_bind]. intros [= <-] [= <-]. rewrite E1, E2.
    rewrite !string_app_assoc, !string_cmp_prefix. rewrite string_cmp_app by congruence. key_cmp.
Qed.

(** C18 The byte order of the durable keys is the order the format
    documents, in every family: inodes and directory entries by ID and name
    bytes, and within one identity the newest version (or the longest layout)
    first, with an undelete's marker ahead of the row it removes. *)
Theorem row_keys_implement_order (family : MetadataRowFamily) (r1 r2 : MetadataRow)
  (Hwf1 : row_wf r1) (Hwf2 : row_wf r2)
  (Hin1 : stored_in family r1) (Hin2 : stored_in family r2) :
  ∃ k1 k2, row_key_for_family r1 family = Ok k1 ∧ row_key_for_family r2 family = Ok k2 ∧
    cmp k1 k2 = components_cmp (row_order family r1) (row_order family r2).
Proof.
  destruct (row_key_for_family_Ok family r1) as [k1 E1]; auto.
  destruct (row_key_for_family_Ok family r2) as [k2 E2]; auto.
  exists k1, k2. split_and!; auto. eapply row_key_cmp; eauto.
Qed.

Definition example_binding (seq : N) : MetadataRow :=
  RowDirentryBinding (mkDirentryBindingRecord 1 "a" 7 File "act" 0 seq 0 "c" "act" 0
    (mkDeltaPosition seq 0) Unbound).

Lemma row_keys_implement_order_witness :
  ∃ k1 k2, row_key_for_family (example_binding 9) FamDirentryBinds = Ok k1 ∧
    row_key_for_family (example_binding 10) FamDirentryBinds = Ok k2 ∧ cmp k1 k2 = Gt.
Proof.
  apply (row_keys_implement_order FamDirentryBinds (example_binding 9) (example_binding 10));
    [cbn; unfold U128_MAX, U64_MAX, U32_MAX; lia|cbn; unfold U128_MAX, U64_MAX, U32_MAX; lia
    |left; reflexivity|left; reflexivity].
Defined.

(** ** Lookup prefixes

    Each lookup scans one family for the keys that start with one prefix. *)
Inductive scan : Set :=
| ScanParent (parent_inode_id : InodeId)
| ScanSlot (parent_inode_id : InodeId) (name_key : NameKey)
| ScanSlotEdge (parent_inode_id : InodeId) (name_key : NameKey) (child_inode_id : InodeId)
| ScanChild (child_inode_id : InodeId)
| ScanChildEdge (child_inode_id parent_inode_id : InodeId) (name_key : NameKey)
| ScanTombstones (root_inode_id : InodeId)
| ScanLayouts (content_id : ContentId)
| ScanReceipts (commit_id : CommitId)
| ScanMerges (source_namespace_id : NamespaceId)
| ScanRevisions (inode_id : InodeId)
| ScanRevisionNo (inode_id : InodeId) (revision_no : RevisionNo)
| ScanAttributes (inode_id : InodeId)
| ScanAccess (inode_id : InodeId).

Definition scan_family (q : scan) : MetadataRowFamily :=
  match q with
  | ScanParent _ | ScanSlot _ _ | ScanSlotEdge _ _ _ => FamDirentryBinds
  | ScanChild _ | ScanChildEdge _ _ _ => FamDirentryChildBinds
  | ScanTombstones _ => FamTombstones
  | ScanLayouts _ => FamContentLayouts
  | ScanReceipts _ => FamCommitReceipts
  | ScanMerges _ => FamMerges
  | ScanRevisions _ | ScanRevisionNo _ _ => FamRevisions
  | ScanAttributes _ => FamAttributes
  | ScanAccess _ => FamAccess
  end.

Definition scan_prefix (q : scan) : res Empty_set string :=
  match q with
  | ScanParent p => Ok (direntry_parent_prefix p)
  | ScanSlot p n => Ok (direntry_bind_prefix p n)
  | ScanSlotEdge p n c => Ok (direntry_bind_edge_prefix p n c)
  | ScanChild c => Ok (direntry_child_prefix c)
  | ScanChildEdge c p n => Ok (direntry_child_bind_edge_prefix c p n)
  | ScanTombstones r => Ok (tombstone_prefix r)
  | ScanLayouts c => content_layout_prefix c
  | ScanReceipts c => Ok (commit_receipt_prefix c)
  | ScanMerges n => Ok (merge_prefix n)
  | ScanRevisions i => Ok (revision_prefix i)
  | ScanRevisionNo i n => Ok (revision_no_prefix i n)
  | ScanAttributes i => Ok (attributes_prefix i)
  | ScanAccess i => Ok (access_prefix i)
  end.

(** The rows the lookup is meant to read. *)
Definition scan_selects (q : scan) (row : MetadataRow) : Prop :=
  match q, row with
  | ScanParent p, RowDirentryBinding r => r.(db_parent_inode_id) = p
  | ScanSlot p n, RowDirentryBinding r => r.(db_parent_inode_id) = p ∧ r.(db_name_key) = n
  | ScanSlotEdge p n c, RowDirentryBinding r =>
      r.(db_parent_inode_id) = p ∧ r.(db_name_key) = n ∧ r.(db_child_inode_id) = c
  | ScanChild c, RowDirentryBinding r => r.(db_child_inode_id) = c
  | ScanChildEdge c p n, RowDirentryBinding r =>
      r.(db_child_inode_id) = c ∧ r.(db_parent_inode_id) = p ∧ r.(db_name_key) = n
  | ScanTombstones i, RowTombstone r => r.(tb_root_inode_id) = i
  | ScanLayouts c, RowContentLayout r => r.(lr_content_id) = c
  | ScanReceipts c, RowCommitReceipt r => r.(rc_commit_id) = c
  | ScanMerges n, RowMerge r => r.(mi_source_namespace_id) = n
  | ScanRevisions i, RowFileRevision r => r.(rr_inode_id) = i
  | ScanRevisionNo i n, RowFileRevision r => r.(rr_inode_id) = i ∧ r.(rr_revision_no) = n
  | ScanAttributes i, RowAttributesRevision r => r.(at_inode_id) = i
  | ScanAccess i, RowAccessRevision r => r.(ac_inode_id) = i
  | _, _ => False
  end.

Definition scan_wf (q : scan) : Prop :=
  match q with
  | ScanParent i | ScanSlot i _ | ScanChild i | ScanTombstones i | ScanRevisions i
  | ScanAttributes i | ScanAccess i => i ≤ U128_MAX
  | ScanSlotEdge i _ j | ScanChildEdge i j _ => i ≤ U128_MAX ∧ j ≤ U128_MAX
  | ScanRevisionNo i n => i ≤ U128_MAX ∧ n ≤ U64_MAX
  | ScanLayouts c => validate_generated_id "con" c = Ok ()
  | ScanReceipts _ | ScanMerges _ => True
  end.

Lemma starts_with_fixed a b s t :
  String.length a = String.length b →
  starts_with (a +:+ s) (b +:+ t) = bool_decide (a = b) && starts_with s t.
Proof.
  revert b. induction a as [|x a IH]; intros [|y b]; try done. intros [= HL].
  rewrite !string_app_cons. simpl. rewrite (IH b HL).
  destruct (decide (x = y)) as [->|Hne].
  - rewrite bool_decide_true by done. simpl. f_equal. apply bool_decide_ext. naive_solver.
  - rewrite (bool_decide_false (y = x)), (bool_decide_false (String x a = String y b)) by naive_solver. done.
Qed.

Lemma cmp_Eq_iff (a b : string) (x y : N) : string_cmp a b = (x ?= y) → a = b ↔ x = y.
Proof.
  intros E. rewrite <-N.compare_eq_iff, <-E. symmetry. apply (cmp_eq (K:=string)).
Qed.

Lemma starts_with_id a b s t : a ≤ U128_MAX → b ≤ U128_MAX →
  starts_with (InodeId_body a +:+ s) (InodeId_body b +:+ t) = bool_decide (a = b) && starts_with s t.
Proof.
  intros. rewrite starts_with_fixed by (by rewrite !InodeId_body_length). f_equal.
  apply bool_decide_ext, cmp_Eq_iff, InodeId_body_cmp; done.
Qed.

Lemma starts_with_u64 a b s t : a ≤ U64_MAX → b ≤ U64_MAX →
  starts_with (fmt_dec 20 a +:+ s) (fmt_dec 20 b +:+ t) = bool_decide (a = b) && starts_with s t.
Proof.
  intros Ha Hb. rewrite starts_with_fixed.
  - f_equal. apply bool_decide_ext, cmp_Eq_iff, cmp_u64_end; done.
  - rewrite !fmt_dec_length; auto using u64_digits; lia.
Qed.

Lemma HEX_not_dash d : d < 16 → char_at HEX d ≠ "-"%char.
Proof. intros Hd E. apply dash_lt_hex in Hd. by rewrite E, N.compare_refl in Hd. Qed.

Lemma starts_with_hex a b s t :
  starts_with (hex_encode_bytes a +:+ "-" +:+ s) (hex_encode_bytes b +:+ "-" +:+ t)
  = bool_decide (a = b) && starts_with s t.
Proof.
  revert b. induction a as [|x a IH]; intros [|y b].
  - done.
  - rewrite hex_encode_cons, string_app_cons. destruct (nibble_bounds y) as [Hn _].
    change (hex_encode_bytes "" +:+ "-" +:+ s) with (String "-" s). simpl.
    by rewrite bool_decide_false by (intros E; by apply HEX_not_dash in Hn).
  - rewrite hex_encode_cons, string_app_cons. destruct (nibble_bounds x) as [Hn _].
    change (hex_encode_bytes "" +:+ "-" +:+ t) with (String "-" t). simpl.
    by rewrite bool_decide_false by (intros E; by apply HEX_not_dash in Hn).
  - rewrite !hex_encode_cons, !string_app_cons. simpl. rewrite IH.
    destruct (nibble_bounds x) as [H1 H2], (nibble_bounds y) as [H3 H4].
    destruct (decide (x = y)) as [->|Hne].
    + rewrite !bool_decide_true by done. simpl. f_equal. apply bool_decide_ext. naive_solver.
    + rewrite (bool_decide_false (String x a = String y b)) by naive_solver.
      destruct (decide (N_of_ascii x / 16 = N_of_ascii y / 16)) as [E1|E1].
      * rewrite E1, bool_decide_true by done. simpl. rewrite bool_decide_false; [done|].
        intros E2. apply Hne, N_of_ascii_inj.
        rewrite (N.div_mod' (N_of_ascii x) 16), (N.div_mod' (N_of_ascii y) 16), E1. f_equal.
        apply N.compare_eq_iff. rewrite <-(hex_digit_mono _ _ H2 H4), E2. apply N.compare_refl.
      * rewrite bool_decide_false; [done|]. intros E2. apply E1.
        apply N.compare_eq_iff. rewrite <-(hex_digit_mono _ _ H1 H3), E2. apply N.compare_refl.
Qed.

Lemma starts_with_hex_end a b s :
  starts_with (hex_encode_bytes a +:+ "-" +:+ s) (hex_encode_bytes b +:+ "-") = bool_decide (a = b).
Proof.
  change "-" with ("-" +:+ ""). rewrite starts_with_hex. change (starts_with s "") with true.
  apply andb_true_r.
Qed.

Ltac prefix_match :=
  unfold direntry_bind_row_key, direntry_bind_edge_prefix, direntry_bind_prefix,
    direntry_bind_probe, direntry_parent_prefix, direntry_parent_probe,
    direntry_child_bind_row_key, direntry_child_bind_edge_prefix, direntry_child_prefix,
    direntry_child_probe, tombstone_row_key, tombstone_prefix, tombstone_probe,
    commit_receipt_row_key,
    commit_receipt_prefix, commit_receipt_probe, merge_row_key, merge_prefix,
    merge_probe, revision_row_key, revision_no_prefix, revision_prefix, revision_probe,
    attributes_row_key, attributes_prefix, attributes_probe, access_row_key, access_prefix,
    access_probe, hex_encode_row_key_component;
  rewrite ?string_app_assoc;
  repeat first
    [ rewrite starts_with_shared
    | rewrite starts_with_id by lia
    | rewrite starts_with_hex_end
    | rewrite starts_with_hex
    | rewrite starts_with_u64 by lia ];
  rewrite ?starts_with_app;
  repeat (rewrite andb_true_iff || rewrite bool_decide_eq_true).

Lemma scan_prefix_selects (q : scan) (row : MetadataRow)
  (Hq : scan_wf q) (Hwf : row_wf row) (Hin : stored_in (scan_family q) row) :
  ∃ prefix key, scan_prefix q = Ok prefix ∧ row_key_for_family row (scan_family q) = Ok key ∧
    (starts_with key prefix = true ↔ scan_selects q row).
Proof.
  destruct q, row; cbn [scan_family primary_family] in Hin;
    try (exfalso; unfold stored_in in Hin; naive_solver);
    cbn [scan_wf row_wf] in Hq, Hwf;
    cbn [scan_prefix scan_family row_key_for_family expect scan_selects].
  all: try (eexists _, _; split; [done|split; [done|]]; prefix_match; naive_solver lia).
  destruct Hwf as (V & H1 & H2).
  apply valid_content_id in Hq as (b1 & -> & B1 & L1).
  apply valid_content_id in V as (b2 & -> & B2 & L2).
  unfold content_layout_row_key, content_layout_prefix, content_layout_probe.
  rewrite B1, B2. cbn [mbind res_bind]. eexists _, _. split; [done|split; [done|]].
  rewrite !string_app_assoc, starts_with_shared, starts_with_fixed by congruence.
  rewrite starts_with_app, andb_true_r, bool_decide_eq_true.
  split; [by intros ->|]. intros E. by simplify_eq.
Qed.



(** The Bloom filter key a writer adds for a stored row is the row's key
    or the row's key up to a separator, and a binding's second filter key is
    its slot key up to the parent, so a segment whose filter misses a
    lookup's probe holds none of the lookup's rows. *)
Theorem filter_key_is_key_prefix (family : MetadataRowFamily) (row : MetadataRow)
  (Hwf : row_wf row) (Hin : stored_in family row) :
  ∃ key probe, row_key_for_family row family = Ok key ∧
    filter_key_for_family row family = Ok probe ∧
    (key = probe ∨ starts_with key (probe +:+ "-") = true) ∧
    (∀ parent_probe, parent_filter_key_for_family row family = Some parent_probe →
       starts_with key (parent_probe +:+ "-") = true).
Proof.
  destruct row; cbn [row_wf] in Hwf; cbn [row_key_for_family filter_key_for_family].
  2: destruct Hin as [-> | [-> _]]; cbn [primary_family expect parent_filter_key_for_family].
  10: { destruct Hwf as (V & _). apply valid_content_id in V as (b & -> & B & _).
    unfold content_layout_row_key, content_layout_prefix, content_layout_probe.
    rewrite B. cbn [mbind res_bind]. eexists _, _. split; [done|split; [done|]].
    split; [right; apply starts_with_app|done]. }
  all: eexists _, _; split; [done|split; [done|split; [(left; reflexivity) || right|]]].
  all: try (intros ? [= <-]).
  all: unfold active_deletion_row_key, active_deletion_probe; prefix_match; done.
Qed.

Lemma filter_key_is_key_prefix_witness :
  ∃ key probe, row_key_for_family (example_binding 9) FamDirentryChildBinds = Ok key ∧
    filter_key_for_family (example_binding 9) FamDirentryChildBinds = Ok probe ∧
    (key = probe ∨ starts_with key (probe +:+ "-") = true) ∧
    (∀ parent_probe, None = Some parent_probe → starts_with key (parent_probe +:+ "-") = true).
Proof.
  apply (filter_key_is_key_prefix FamDirentryChildBinds (example_binding 9));
    [cbn; unfold U128_MAX, U64_MAX, U32_MAX; lia|right; split; reflexivity].
Defined.

(** ** Scan bounds *)
Lemma after_row_key_le (k s : string) : kle (after_row_key k) s ↔ cmp k s = Lt.
Proof.
  unfold kle, cmp, string_ord, after_row_key. revert s.
  induction k as [|c k IH]; intros [|d s]; try done.
  - change ("" +:+ String Ascii.zero "") with (String Ascii.zero ""). cbn [string_cmp].
    destruct (N.compare_spec (N_of_ascii Ascii.zero) (N_of_ascii d)) as [E|E|E]; cbn [lex].
    + by destruct s.
    + done.
    + cbn in E. lia.
  - rewrite string_app_cons. cbn [string_cmp].
    destruct (N_of_ascii c ?= N_of_ascii d); cbn [lex]; [apply IH|done|done].
Qed.

Lemma active_deletion_record_key_cmp seq root rank record :
  seq ≤ U64_MAX → root ≤ U128_MAX → rank ≤ 1 →
  record.(ad_deletion_seq) ≤ U64_MAX → record.(ad_root_inode_id) ≤ U128_MAX →
  cmp (active_deletion_row_key seq root rank) (active_deletion_record_row_key record)
  = lex (cmp (seq, root) (record.(ad_deletion_seq), record.(ad_root_inode_id)))
      (rank ?= sort_rank record.(ad_action)).
Proof.
  intros. assert (sort_rank record.(ad_action) ≤ 1) by (by destruct record.(ad_action)).
  unfold active_deletion_record_row_key, cmp, string_ord, prod_ord, cmp, N_ord.
  unfold active_deletion_row_key, active_deletion_probe.
  rewrite !string_app_assoc, string_cmp_prefix, cmp_u64_component by done.
  rewrite string_cmp_prefix, cmp_id_component by done.
  rewrite string_cmp_prefix, cmp_u32_end by (unfold U32_MAX; lia). simpl.
  by destruct (seq ?= record.(ad_deletion_seq)).
Qed.

(** C25 The trash listing's resume bounds are exact.  A scan that starts at
    [active_deletion_key_after] of a deletion position reads exactly the
    rows of later positions, neither skipping one nor repeating the rows of
    the position itself, and one that starts at
    [active_deletion_key_after_seq] reads exactly the rows of later
    deletion sequences. *)
Theorem trash_bounds_exact (seq root : N) (record : ActiveDeletionRecord)
  (Hseq : seq ≤ U64_MAX) (Hroot : root ≤ U128_MAX)
  (Hwf : row_wf (RowActiveDeletion record)) :
  (kle (active_deletion_key_after seq root) (active_deletion_record_row_key record) ↔
     cmp (seq, root) (record.(ad_deletion_seq), record.(ad_root_inode_id)) = Lt) ∧
  (kle (active_deletion_key_after_seq seq) (active_deletion_record_row_key record) ↔
     seq < record.(ad_deletion_seq)).
Proof.
  destruct Hwf as [Hs Hr]. split.
  - unfold active_deletion_key_after. rewrite after_row_key_le.
    rewrite active_deletion_record_key_cmp by done.
    destruct (cmp (seq, root) _); simpl; [|done..]. by destruct record.(ad_action).
  - unfold kle, cmp, string_ord, active_deletion_key_after_seq, active_deletion_record_row_key,
      active_deletion_row_key, active_deletion_probe.
    rewrite !string_app_assoc, string_cmp_prefix, cmp_u64_component by done.
    destruct (N.compare_spec seq record.(ad_deletion_seq)); cbn [lex].
    + split; [|lia]. intros []. done.
    + by split.
    + split; [done|lia].
Qed.

Lemma trash_bounds_exact_witness :
  let record := mkActiveDeletionRecord 7 5 (Removed 6) in
  (kle (active_deletion_key_after 5 7) (active_deletion_record_row_key record) ↔
     cmp (5, 7) (5, 7) = Lt) ∧
  (kle (active_deletion_key_after_seq 4) (active_deletion_record_row_key record) ↔ 4 < 5).
Proof.
  pose (record := mkActiveDeletionRecord 7 5 (Removed 6)).
  assert (row_wf (RowActiveDeletion record)) as Hwf.
  { cbn. unfold U64_MAX, U128_MAX. lia. }
  split.
  - apply (trash_bounds_exact 5 7 record); [unfold U64_MAX; lia|unfold U128_MAX; lia|exact Hwf].
  - apply (trash_bounds_exact 4 7 record); [unfold U64_MAX; lia|unfold U128_MAX; lia|exact Hwf].
Defined.
