(* ===== verification/Combiner.v ===== *)
(** * Combining manifest pages with the WAL tail

    [loonfs-core/src/metadata/manifest_tail_combiner.rs]: a cursor over the
    rows of a paged manifest scan and a sorted set of tail rows.  The cursor
    is a stream of the combined rows: [next] takes its first row and [seek]
    drops the rows before a bound.  The page reader [refill] is an argument. *)
From S2P Require Import Prelude Types RowKeys.
Local Open Scope nat_scope.

Inductive TieOrder : Set := TailFirst | ManifestFirst.

Record ManifestPage (T : Type) := mkManifestPage {
  mp_rows : list (string * T);
  mp_more : bool;
}.
Arguments mkManifestPage {T}. Arguments mp_rows {T}. Arguments mp_more {T}.

Inductive ScanPosition : Set :=
| ScanFrom (lower_bound : string)
| ScanExhausted.

Record ManifestTailCombiner (T : Type) := mkManifestTailCombiner {
  mc_position : ScanPosition;
  mc_manifest : list (string * T);
  mc_tail : list (string * T);
  mc_ties : TieOrder;
  mc_last_row_key : option string;
}.
Arguments mkManifestTailCombiner {T}. Arguments mc_position {T}. Arguments mc_manifest {T}.
Arguments mc_tail {T}. Arguments mc_ties {T}. Arguments mc_last_row_key {T}.

Section combiner.
Context {T Er : Type}.
Implicit Types (c : ManifestTailCombiner T) (refill : string → res Er (ManifestPage T)).

(** [ManifestTailCombiner::new]. *)
Definition combiner_new (lower_bound : string) (tail : list (string * T)) (ties : TieOrder)
    : ManifestTailCombiner T :=
  {| mc_position := ScanFrom lower_bound; mc_manifest := []; mc_tail := tail; mc_ties := ties;
     mc_last_row_key := None |}.

(** Whether the tail's front row comes before the manifest's. *)
Definition tail_before (ties : TieOrder) (tail manifest : string * T) : Prop :=
  match ties with
  | TailFirst => kle tail.1 manifest.1
  | ManifestFirst => cmp tail.1 manifest.1 = Lt
  end.
#[global] Instance tail_before_dec ties x y : Decision (tail_before ties x y).
Proof. unfold tail_before. destruct ties; apply _. Defined.

(** The state after a page was read. *)
Definition with_page c (page : ManifestPage T) : ManifestTailCombiner T :=
  {| mc_position :=
       match list.last page.(mp_rows) with
       | Some (row_key, _) => if page.(mp_more) then ScanFrom (lookup_keys.after_row_key row_key) else ScanExhausted
       | None => ScanExhausted
       end;
     mc_manifest := c.(mc_manifest) ++ page.(mp_rows); mc_tail := c.(mc_tail); mc_ties := c.(mc_ties);
     mc_last_row_key := c.(mc_last_row_key) |}.

(** [ManifestTailCombiner::next].  Every round reads a page or takes a row. *)
Fixpoint combiner_next (fuel : nat) refill c : res Er (option (string * T) * ManifestTailCombiner T) :=
  match fuel with
  | O => OutOfFuel
  | S fuel =>
      match c.(mc_manifest), c.(mc_position) with
      | [], ScanFrom lower_bound =>
          page ← refill lower_bound;
          combiner_next fuel refill (with_page c page)
      | manifest, _ =>
          let took row_key row position manifest tail :=
            let c' last :=
              {| mc_position := position; mc_manifest := manifest; mc_tail := tail; mc_ties := c.(mc_ties);
                 mc_last_row_key := last |} in
            if decide (c.(mc_last_row_key) = Some row_key) then
              combiner_next fuel refill (c' c.(mc_last_row_key))
            else Ok (Some (row_key, row), c' (Some row_key)) in
          match manifest, c.(mc_tail) with
          | m :: manifest', t :: tail' =>
              if decide (tail_before c.(mc_ties) t m)
              then took t.1 t.2 c.(mc_position) manifest tail'
              else took m.1 m.2 c.(mc_position) manifest' c.(mc_tail)
          | [], t :: tail' => took t.1 t.2 c.(mc_position) [] tail'
          | m :: manifest', [] => took m.1 m.2 c.(mc_position) manifest' []
          | [], [] => Ok (None, c)
          end
      end
  end.

(** [while front.is_some_and(|(row_key, _)| row_key < lower_bound) { pop_front }]. *)
Fixpoint drop_before (lower_bound : string) (rows : list (string * T)) : list (string * T) :=
  match rows with
  | row :: rest => if decide (cmp row.1 lower_bound = Lt) then drop_before lower_bound rest else rows
  | [] => []
  end.

(** [ManifestTailCombiner::seek]. *)
Definition combiner_seek c (lower_bound : string) : ManifestTailCombiner T :=
  let manifest := drop_before lower_bound c.(mc_manifest) in
  {| mc_position :=
       match c.(mc_position), manifest with
       | ScanFrom next, [] => if decide (cmp next lower_bound = Lt) then ScanFrom lower_bound else ScanFrom next
       | position, _ => position
       end;
     mc_manifest := manifest; mc_tail := drop_before lower_bound c.(mc_tail); mc_ties := c.(mc_ties);
     mc_last_row_key := c.(mc_last_row_key) |}.

(** ** The stream *)

(** Drops the rows that repeat the key before them. *)
Fixpoint dedup_from (last : option string) (rows : list (string * T)) : list (string * T) :=
  match rows with
  | [] => []
  | row :: rest =>
      if decide (last = Some row.1) then dedup_from last rest else row :: dedup_from (Some row.1) rest
  end.

(** The rows of both sides in key order, each key once. *)
Definition combine_rows (ties : TieOrder) (last : option string) (tail manifest : list (string * T))
    : list (string * T) :=
  dedup_from last (list_merge (tail_before ties) tail manifest).

Definition rows_from (lower_bound : string) (rows : list (string * T)) : list (string * T) :=
  filter (λ row, kle lower_bound row.1) rows.

(** ** Lists *)
Lemma rows_from_all lower_bound rows :
  Forall (λ row : string * T, kle lower_bound row.1) rows → rows_from lower_bound rows = rows.
Proof.
  unfold rows_from. induction 1 as [|row rows Hr _ IH]; [done|]. by rewrite filter_cons_True, IH.
Qed.

Lemma drop_before_sorted lower_bound rows :
  StronglySorted kle rows.*1 → drop_before lower_bound rows = rows_from lower_bound rows.
Proof.
  unfold rows_from. induction rows as [|row rows IH]; intros Hs; [done|]. cbn [drop_before].
  cbn [fmap list_fmap] in Hs. apply StronglySorted_inv in Hs as [Hs Hall]. case_decide as E.
  - rewrite filter_cons_False by (intros Hk; by apply (kle_not_lt _ _ Hk)). by apply IH.
  - apply not_lt_kle in E. rewrite filter_cons_True by done. f_equal. symmetry. apply rows_from_all.
    rewrite Forall_forall in Hall. apply Forall_forall. intros r Hr. apply (kle_trans _ row.1); [done|]. apply Hall.
    by apply list_elem_of_fmap_2.
Qed.

Lemma list_merge_filter ties lower_bound (tail manifest : list (string * T)) :
  list_merge (tail_before ties) (rows_from lower_bound tail) (rows_from lower_bound manifest) =
  rows_from lower_bound (list_merge (tail_before ties) tail manifest).
Proof.
  unfold rows_from. revert manifest. induction tail as [|t tail IHt]; intros manifest;
    [by rewrite filter_nil, !list_merge_nil_l|].
  induction manifest as [|m manifest IHm]; [by rewrite list_merge_nil_r, filter_nil, list_merge_nil_r|].
  rewrite list_merge_cons. case_decide as Hb.
  - assert (kle t.1 m.1) as Htm by (destruct ties; [done|by apply lt_kle]).
    rewrite (filter_cons _ t). case_decide as Ht.
    + rewrite (filter_cons_True _ m) by (by eapply kle_trans). rewrite list_merge_cons, decide_True by done.
      rewrite (filter_cons_True _ t) by done. f_equal. rewrite <-IHt. f_equal.
      symmetry. apply filter_cons_True. by eapply kle_trans.
    + rewrite (filter_cons_False _ t) by done. apply IHt.
  - assert (kle m.1 t.1) as Hmt by (destruct ties; cbn in Hb; [by destruct (kle_total t.1 m.1)|by apply not_lt_kle]).
    rewrite (filter_cons _ m). case_decide as Hm.
    + rewrite (filter_cons_True _ t) by (by eapply kle_trans). rewrite list_merge_cons, decide_False by done.
      rewrite (filter_cons_True _ m) by done. f_equal. rewrite <-IHm. f_equal.
      symmetry. apply filter_cons_True. by eapply kle_trans.
    + rewrite (filter_cons_False _ m) by done. apply IHm.
Qed.

(** The rows come no earlier than the last row taken. *)
Definition after_last (last : option string) (rows : list (string * T)) : Prop :=
  ∀ key row, last = Some key → row ∈ rows → kle key row.1.

Lemma dedup_from_other last rows :
  (∀ row, row ∈ rows → last ≠ Some row.1) → dedup_from last rows = dedup_from None rows.
Proof.
  destruct rows as [|row rows]; [done|]. intros Hn. cbn. rewrite decide_False; [done|]. apply Hn. by left.
Qed.

Lemma dedup_from_filter last lower_bound rows :
  StronglySorted kle rows.*1 → after_last last rows →
  dedup_from last (rows_from lower_bound rows) = rows_from lower_bound (dedup_from last rows).
Proof.
  unfold rows_from. revert last. induction rows as [|row rows IH]; intros last Hs Hlast; [done|].
  cbn [fmap list_fmap] in Hs. apply StronglySorted_inv in Hs as [Hs Hall].
  assert (∀ r, r ∈ rows → kle row.1 r.1) as Hge.
  { intros r Hr. rewrite Forall_forall in Hall. apply Hall. by apply list_elem_of_fmap_2. }
  assert (after_last last rows) as Hlast' by (intros k r Hk Hr; apply (Hlast k r Hk); by right).
  assert (after_last (Some row.1) rows) as Hnext by (intros k r [= <-] Hr; by apply Hge).
  cbn [dedup_from]. rewrite filter_cons. case_decide as Hk; case_decide as Hd.
  - subst last. cbn. rewrite decide_True by done. by apply IH.
  - rewrite filter_cons_True by done. cbn. rewrite decide_False by done. f_equal. by apply IH.
  - by apply IH.
  - rewrite filter_cons_False by done. rewrite <-IH by done.
    rewrite (dedup_from_other last), (dedup_from_other (Some _)); [done|..].
    + intros r (Hr & _)%list_elem_of_filter [= E]. by rewrite E in Hk.
    + intros r (Hr & Hin)%list_elem_of_filter ->. apply Hk. apply (kle_trans _ r.1); [done|].
      apply (Hlast r.1 row); [done|by left].
Qed.
End combiner.

(** ** The cursor implements the stream *)
Section stream.
Context {T Er : Type} (rows : list (string * T)) (refill : string → res Er (ManifestPage T)).
Implicit Types c : ManifestTailCombiner T.

(** The pages of [rows]: a page holds the first rows from its bound, and a
    page that is empty or the last ends the range. *)
Definition pages_of : Prop :=
  ∀ lower_bound, ∃ page rest, refill lower_bound = Ok page ∧
    rows_from lower_bound rows = page.(mp_rows) ++ rest ∧
    (page.(mp_more) = false ∨ page.(mp_rows) = [] → rest = []).

Hypothesis Hrows : ascending rows.
Hypothesis Hpages : pages_of.

(** The manifest rows that the cursor has not taken. *)
Definition manifest_rest c : list (string * T) :=
  c.(mc_manifest) ++
  match c.(mc_position) with ScanFrom lower_bound => rows_from lower_bound rows | ScanExhausted => [] end.

Record combiner_ok c : Prop := {
  co_manifest : ascending (manifest_rest c);
  co_tail : StronglySorted kle c.(mc_tail).*1;
  co_last : after_last c.(mc_last_row_key) (manifest_rest c ++ c.(mc_tail));
}.

Definition stream c : list (string * T) :=
  combine_rows c.(mc_ties) c.(mc_last_row_key) c.(mc_tail) (manifest_rest c).

Definition rounds c : nat :=
  2 * length c.(mc_tail) + 2 * length (manifest_rest c) +
  match c.(mc_manifest), c.(mc_position) with [], ScanFrom _ => 1 | _, _ => 0 end.

Lemma ascending_sorted (l : list (string * T)) : ascending l → StronglySorted kle l.*1.
Proof.
  induction 1 as [|x l Hl IH Hx]; [constructor|]. cbn. constructor; [done|].
  rewrite Forall_forall in Hx. apply Forall_forall. intros k (r & -> & Hr)%list_elem_of_fmap.
  by apply lt_kle, Hx.
Qed.

Lemma rows_from_ascending lower_bound : ascending (rows_from lower_bound rows).
Proof using Hrows. by apply sorted_filter. Qed.

(** What comes after a page is what lies after its last key. *)
Lemma rows_after lower_bound page rest key row :
  rows_from lower_bound rows = page ++ rest → list.last page = Some (key, row) →
  rows_from (lookup_keys.after_row_key key) rows = rest.
Proof using Hrows.
  intros Heq Hlast. pose proof (rows_from_ascending lower_bound) as Hs. rewrite Heq in Hs.
  assert (kle lower_bound key) as Hk.
  { assert ((key, row) ∈ rows_from lower_bound rows) as [? _]%list_elem_of_filter; [|done].
    rewrite Heq. apply elem_of_app. left. by apply last_elem_of. }
  apply last_Some in Hlast as [init ->].
  apply sorted_app_inv in Hs as (Hinit & Hrest & Hcross).
  apply sorted_app_inv in Hinit as (_ & _ & Hinit).
  transitivity (rows_from (lookup_keys.after_row_key key) (rows_from lower_bound rows)).
  - unfold rows_from. rewrite list_filter_filter. apply filter_ext_in. intros r _.
    rewrite after_row_key_le. split; [|naive_solver].
    intros Hlt. split; [done|]. by apply (kle_trans _ key); [|apply lt_kle].
  - rewrite Heq. unfold rows_from. rewrite !filter_app. rewrite (filter_cons_False _ (key, row)), filter_nil.
    2:{ rewrite after_row_key_le. cbn. by rewrite cmp_refl. }
    rewrite app_nil_r.
    rewrite (filter_none _ init), (filter_all _ rest); [done|..].
    + intros r Hr. apply after_row_key_le. apply (Hcross (key, row)); [|done].
      apply elem_of_app. right. by left.
    + intros r Hr. rewrite after_row_key_le. intros Hlt.
      apply (kle_not_lt key r.1); [by apply lt_kle|]. apply (Hinit r (key, row)); [done|by left].
Qed.

Lemma page_rest c lower_bound page rest :
  c.(mc_manifest) = [] → c.(mc_position) = ScanFrom lower_bound →
  rows_from lower_bound rows = page.(mp_rows) ++ rest →
  (page.(mp_more) = false ∨ page.(mp_rows) = [] → rest = []) →
  manifest_rest (with_page c page) = manifest_rest c.
Proof using Hrows.
  intros Hm Hp Heq Hend. unfold manifest_rest, with_page. cbn [mc_manifest mc_position].
  rewrite Hm, Hp, Heq. cbn [app]. f_equal.
  destruct (list.last page.(mp_rows)) as [[key row]|] eqn:El.
  - destruct page.(mp_more); [|by rewrite Hend by (by left)]. by eapply rows_after.
  - apply last_None in El. rewrite Hend; [done|by right].
Qed.

Lemma page_ok c lower_bound page rest :
  combiner_ok c → c.(mc_manifest) = [] → c.(mc_position) = ScanFrom lower_bound →
  rows_from lower_bound rows = page.(mp_rows) ++ rest →
  (page.(mp_more) = false ∨ page.(mp_rows) = [] → rest = []) →
  combiner_ok (with_page c page) ∧ stream (with_page c page) = stream c ∧ rounds (with_page c page) < rounds c.
Proof using Hrows.
  intros [H1 H2 H3] Hm Hp Heq Hend. pose proof (page_rest _ _ _ _ Hm Hp Heq Hend) as Hrest. split_and!.
  - by split; rewrite ?Hrest.
  - unfold stream. by rewrite Hrest.
  - unfold rounds. rewrite Hrest, Hm, Hp. cbn [with_page mc_tail mc_manifest mc_position]. rewrite Hm. cbn [app].
    destruct (mp_rows page); cbn; lia.
Qed.

(** The cursor without its front row on one side. *)
Definition advanced c (last : option string) (manifest tail : list (string * T)) : ManifestTailCombiner T :=
  {| mc_position := c.(mc_position); mc_manifest := manifest; mc_tail := tail; mc_ties := c.(mc_ties);
     mc_last_row_key := last |}.

(** Taking [row], the first row of the merged sides, from one of them. *)
Definition takes c (row : string * T) (manifest tail : list (string * T)) : Prop :=
  (c.(mc_manifest) = row :: manifest ∧ tail = c.(mc_tail) ∨
   c.(mc_tail) = row :: tail ∧ manifest = c.(mc_manifest)) ∧
  list_merge (tail_before c.(mc_ties)) c.(mc_tail) (manifest_rest c) =
    row :: list_merge (tail_before c.(mc_ties)) tail (manifest_rest (advanced c None manifest tail)) ∧
  ∀ r, r ∈ manifest_rest c ++ c.(mc_tail) → kle row.1 r.1.

Lemma advanced_ok c row manifest tail last :
  combiner_ok c → takes c row manifest tail → last = c.(mc_last_row_key) ∨ last = Some row.1 →
  combiner_ok (advanced c last manifest tail) ∧ S (rounds (advanced c last manifest tail)) ≤ rounds c.
Proof.
  intros [H1 H2 H3] (Hside & _ & Hmin) Hlast.
  assert (after_last last (manifest_rest c ++ c.(mc_tail))) as H3'.
  { destruct Hlast as [->| ->]; [done|]. intros k r [= <-]. apply Hmin. }
  unfold rounds in *. unfold manifest_rest, advanced in *.
  destruct Hside as [[Em ->]|[Et ->]]; cbn [mc_manifest mc_tail mc_position mc_last_row_key] in *.
  - rewrite Em in *. split; [split; cbn|].
    + by apply StronglySorted_inv in H1 as [? _].
    + done.
    + intros k r Hk Hr. apply (H3' k r Hk). by right.
    + cbn. destruct manifest, (mc_position c); cbn; lia.
  - rewrite Et in *. split; [split; cbn|].
    + done.
    + by apply StronglySorted_inv in H2 as [? _].
    + intros k r Hk Hr. apply (H3' k r Hk). rewrite elem_of_app in Hr |- *. rewrite elem_of_cons. tauto.
    + cbn. destruct (mc_manifest c), (mc_position c); cbn; lia.
Qed.

Lemma advanced_stream c row manifest tail :
  takes c row manifest tail →
  stream c = if decide (c.(mc_last_row_key) = Some row.1)
             then stream (advanced c c.(mc_last_row_key) manifest tail)
             else row :: stream (advanced c (Some row.1) manifest tail).
Proof.
  intros (_ & Hmerge & _). unfold stream, combine_rows. rewrite Hmerge. cbn [dedup_from]. by case_decide.
Qed.

(** The round of [next] that takes a row. *)
Lemma next_takes c fuel :
  combiner_ok c → c.(mc_manifest) ≠ [] ∨ c.(mc_position) = ScanExhausted →
  c.(mc_manifest) = [] ∧ c.(mc_tail) = [] ∧ combiner_next (S fuel) refill c = Ok (None, c) ∨
  ∃ row manifest tail, takes c row manifest tail ∧
    combiner_next (S fuel) refill c =
      if decide (c.(mc_last_row_key) = Some row.1)
      then combiner_next fuel refill (advanced c c.(mc_last_row_key) manifest tail)
      else Ok (Some row, advanced c (Some row.1) manifest tail).
Proof.
  intros [H1 H2 H3] Hready. unfold takes, manifest_rest in *. cbn [combiner_next advanced mc_manifest mc_position].
  destruct c as [position manifest tail ties last].
  cbn [mc_manifest mc_position mc_tail mc_ties mc_last_row_key advanced] in *.
  destruct manifest as [|m manifest'], tail as [|t tail'].
  - left. destruct Hready as [| ->]; done.
  - right. destruct Hready as [| ->]; [done|]. destruct t as [k r]. exists (k, r), [], tail'. cbn. split; [|by case_decide].
    rewrite !list_merge_nil_r. split_and!; [by right|done|].
    apply StronglySorted_inv in H2 as [_ H2]. rewrite Forall_forall in H2.
    intros r' [->|Hr]%elem_of_cons; [apply kle_refl|]. apply H2. by apply list_elem_of_fmap_2.
  - right. destruct m as [k r]. exists (k, r), manifest', []. rewrite !list_merge_nil_l. split; [|by cbn; case_decide].
    split_and!; [by left|done|]. rewrite app_nil_r. cbn [app].
    apply StronglySorted_inv in H1 as [_ H1]. rewrite Forall_forall in H1.
    intros r' [->|Hr]%elem_of_cons; [apply kle_refl|]. by apply lt_kle, H1.
  - right. apply StronglySorted_inv in H1 as [_ H1], H2 as [_ H2]. rewrite Forall_forall in H1. rewrite Forall_forall in H2.
    assert (∀ r, r ∈ (m :: manifest') ++ match position with ScanFrom b => rows_from b rows | _ => [] end →
      kle m.1 r.1) as Hm.
    { intros r [->|Hr]%elem_of_cons; [apply kle_refl|]. by apply lt_kle, H1. }
    assert (∀ r, r ∈ t :: tail' → kle t.1 r.1) as Ht.
    { intros r [->|Hr]%elem_of_cons; [apply kle_refl|]. apply H2. by apply list_elem_of_fmap_2. }
    match type of Hm with ∀ r, r ∈ ?l → _ =>
      assert (∀ r, r ∈ l ++ t :: tail' → kle m.1 r.1 ∨ kle t.1 r.1) as Hall
        by (intros r [Hr|Hr]%elem_of_app; auto) end.
    cbn [app]. rewrite list_merge_cons. case_decide as Hb.
    + assert (kle t.1 m.1) as Htm by (destruct ties; [done|by apply lt_kle]).
      exists t, (m :: manifest'), tail'. split; [|by destruct t; case_decide].
      split_and!; [by right|done|]. intros r [Hr|Hr]%Hall; [by eapply kle_trans|done].
    + assert (kle m.1 t.1) as Hmt by (destruct ties; cbn in Hb; [by destruct (kle_total t.1 m.1)|by apply not_lt_kle]).
      exists m, manifest', (t :: tail'). split; [|by destruct m; case_decide].
      split_and!; [by left|done|]. intros r [Hr|Hr]%Hall; [done|by eapply kle_trans].
Qed.

Lemma next_correct fuel c :
  combiner_ok c → rounds c < fuel →
  ∃ c', combiner_next fuel refill c = Ok (head (stream c), c') ∧ combiner_ok c' ∧
    stream c' = tail (stream c) ∧ rounds c' ≤ rounds c.
Proof using Hrows Hpages.
  revert c. induction fuel as [|fuel IH]; intros c Hok Hfuel; [lia|].
  assert (c.(mc_manifest) = [] ∧ (∃ lower_bound, c.(mc_position) = ScanFrom lower_bound) ∨
    (c.(mc_manifest) ≠ [] ∨ c.(mc_position) = ScanExhausted)) as [(Em & lower_bound & Epos)|Hready].
  { destruct (mc_manifest c), (mc_position c); eauto. }
  - destruct (Hpages lower_bound) as (page & rest & Hr & Heq & Hend).
    destruct (page_ok c lower_bound page rest) as (Hok' & Hstream & Hlt); [done..|].
    destruct (IH (with_page c page)) as (c' & Hn & Hok'' & Hs & Hle); [done|lia|].
    exists c'. rewrite Hstream in *. split_and!; [|done|done|lia].
    cbn [combiner_next]. rewrite Em, Epos, Hr. exact Hn.
  - destruct (next_takes c fuel Hok Hready) as [(Em & Et & Hn)|(row & manifest & tail & Htakes & Hn)].
    + exists c. assert (stream c = []) as Hs; [|rewrite Hs; done].
      unfold stream, combine_rows, manifest_rest. rewrite Em, Et. by destruct Hready as [| ->].
    + rewrite Hn. pose proof (advanced_stream _ _ _ _ Htakes) as Hs. case_decide.
      * destruct (advanced_ok c row manifest tail (mc_last_row_key c) Hok Htakes) as [Hok' Hlt]; [by left|].
        destruct (IH (advanced c (mc_last_row_key c) manifest tail)) as (c' & Hn' & Hok'' & Hs' & Hle); [done|lia|].
        exists c'. rewrite Hs. split_and!; [done..|lia].
      * destruct (advanced_ok c row manifest tail (Some row.1) Hok Htakes) as [Hok' Hlt]; [by right|].
        eexists. rewrite Hs. split_and!; [done..|lia].
Qed.

Lemma merge_sorted ties (tail manifest : list (string * T)) :
  StronglySorted kle tail.*1 → StronglySorted kle manifest.*1 →
  StronglySorted kle (list_merge (tail_before ties) tail manifest).*1.
Proof.
  revert manifest. induction tail as [|t tail IHt]; intros manifest Ht Hm; [by rewrite list_merge_nil_l|].
  induction manifest as [|m manifest IHm]; [by rewrite list_merge_nil_r|].
  pose proof Ht as [Ht1 Ht2]%StronglySorted_inv. pose proof Hm as [Hm1 Hm2]%StronglySorted_inv.
  rewrite Forall_forall in Ht2. rewrite Forall_forall in Hm2. rewrite list_merge_cons. case_decide as Hb; cbn.
  - assert (kle t.1 m.1) as Htm by (destruct ties; [done|by apply lt_kle]).
    constructor; [by apply IHt|]. apply Forall_forall. intros k Hk. rewrite merge_Permutation in Hk.
    rewrite fmap_app, elem_of_app in Hk. destruct Hk as [Hk|[->|Hk]%elem_of_cons]; [by apply Ht2|done|].
    by apply (kle_trans _ m.1); [|apply Hm2].
  - assert (kle m.1 t.1) as Hmt by (destruct ties; cbn in Hb; [by destruct (kle_total t.1 m.1)|by apply not_lt_kle]).
    constructor; [by apply IHm|]. apply Forall_forall. intros k Hk. rewrite merge_Permutation in Hk.
    rewrite fmap_app, elem_of_app in Hk. destruct Hk as [[->|Hk]%elem_of_cons|Hk]; [done| |by apply Hm2].
    by apply (kle_trans _ t.1); [|apply Ht2].
Qed.

Lemma dedup_ascending last (l : list (string * T)) :
  StronglySorted kle l.*1 → after_last last l →
  ascending (dedup_from last l) ∧
  ∀ key row, last = Some key → row ∈ dedup_from last l → cmp key row.1 = Lt.
Proof.
  revert last. induction l as [|r l IH]; intros last Hs Hlast.
  { split; [constructor|]. intros ? ? _ Hin. by apply not_elem_of_nil in Hin. }
  apply StronglySorted_inv in Hs as [Hs Hall]. rewrite Forall_forall in Hall.
  assert (after_last (Some r.1) l) as Hr by (intros k x [= <-] Hx; apply Hall; by apply list_elem_of_fmap_2).
  cbn [dedup_from]. case_decide as Hd.
  - apply IH; [done|]. intros k x Hk Hx. apply (Hlast k x Hk). by right.
  - destruct (IH (Some r.1) Hs Hr) as [IH1 IH2]. split.
    + constructor; [done|]. apply Forall_forall. intros x Hx. by apply IH2.
    + intros key row -> Hin. assert (cmp key r.1 = Lt) as Hlt.
      { pose proof (Hlast key r eq_refl ltac:(by left)) as Hle. unfold kle in Hle.
        destruct (cmp key r.1) eqn:E; [|done|done]. apply cmp_eq in E as ->. done. }
      apply elem_of_cons in Hin as [->|Hin]; [done|]. eapply cmp_lt_trans; [done|]. by apply IH2.
Qed.

Lemma dedup_keys last (l : list (string * T)) key :
  key ∈ (dedup_from last l).*1 ∨ last = Some key ↔ key ∈ l.*1 ∨ last = Some key.
Proof.
  revert last. induction l as [|r l IH]; intros last; [done|]. cbn [dedup_from].
  case_decide as Hd; cbn [fmap list_fmap]; rewrite ?elem_of_cons.
  - rewrite IH. naive_solver.
  - specialize (IH (Some r.1)). naive_solver.
Qed.

Lemma merge_after last ties (tail manifest : list (string * T)) :
  after_last last (manifest ++ tail) → after_last last (list_merge (tail_before ties) tail manifest).
Proof.
  intros Hl k r Hk Hr. apply (Hl k r Hk). rewrite merge_Permutation in Hr.
  rewrite elem_of_app in Hr |- *. tauto.
Qed.

Lemma stream_ascending c : combiner_ok c → ascending (stream c).
Proof.
  intros [H1 H2 H3]. unfold stream, combine_rows. apply dedup_ascending; [|by apply merge_after].
  apply merge_sorted; [done|by apply ascending_sorted].
Qed.

Lemma seek_rest c lower_bound :
  combiner_ok c → manifest_rest (combiner_seek c lower_bound) = rows_from lower_bound (manifest_rest c).
Proof.
  intros [H1 H2 H3]. unfold manifest_rest in *. cbn [combiner_seek mc_manifest mc_position].
  apply sorted_app_inv in H1 as (Hm & Hp & Hcross).
  rewrite drop_before_sorted by (by apply ascending_sorted). unfold rows_from at 4. rewrite filter_app. f_equal.
  fold (rows_from lower_bound (mc_manifest c)).
  destruct (mc_position c) as [next|]; [|done].
  destruct (rows_from lower_bound (mc_manifest c)) as [|x l] eqn:Em.
  - case_decide as Hlt.
    + unfold rows_from. rewrite list_filter_filter. apply filter_ext_in. intros r _. split; [|naive_solver].
      intros Hk. split; [done|]. eapply kle_trans; [by apply lt_kle|done].
    + symmetry. apply filter_all. intros r [Hr _]%list_elem_of_filter.
      eapply kle_trans; [by apply not_lt_kle|done].
  - symmetry. apply filter_all. intros r Hr.
    assert (x ∈ rows_from lower_bound (mc_manifest c)) as [Hx1 Hx2]%list_elem_of_filter by (rewrite Em; by left).
    apply (kle_trans _ x.1); [done|]. apply lt_kle. by apply Hcross.
Qed.

Lemma seek_correct c lower_bound :
  combiner_ok c →
  combiner_ok (combiner_seek c lower_bound) ∧
  stream (combiner_seek c lower_bound) = rows_from lower_bound (stream c) ∧
  rounds (combiner_seek c lower_bound) ≤ S (rounds c).
Proof.
  intros Hok. pose proof (seek_rest c lower_bound Hok) as Hrest. destruct Hok as [H1 H2 H3].
  assert (mc_tail (combiner_seek c lower_bound) = rows_from lower_bound (mc_tail c)) as Htail
    by (by apply drop_before_sorted).
  split_and!.
  - split; rewrite ?Hrest, ?Htail.
    + by apply sorted_filter.
    + unfold rows_from. pose proof (filter_fmap fst (kle lower_bound) (mc_tail c)) as Hf. cbv beta in Hf.
      rewrite <-Hf. by apply sorted_filter.
    + intros k r Hk Hr. apply (H3 k r Hk). unfold rows_from in Hr.
      rewrite elem_of_app, !list_elem_of_filter in Hr. rewrite elem_of_app. tauto.
  - unfold stream, combine_rows. rewrite Hrest, Htail, list_merge_filter.
    apply dedup_from_filter; [|by apply merge_after]. apply merge_sorted; [done|by apply ascending_sorted].
  - unfold rounds. rewrite Hrest, Htail. unfold rows_from at 1 2.
    pose proof (length_filter (λ row : string * T, kle lower_bound row.1) (mc_tail c)).
    pose proof (length_filter (λ row : string * T, kle lower_bound row.1) (manifest_rest c)).
    repeat case_match; lia.
Qed.

(** What a reader does with a cursor. *)
Inductive cursor_op : Set :=
| TakeNext
| SeekTo (lower_bound : string).

Fixpoint run_cursor (fuel : nat) c (ops : list cursor_op) : res Er (list (option (string * T))) :=
  match ops with
  | [] => Ok []
  | TakeNext :: ops =>
      '(row, c) ← combiner_next fuel refill c;
      taken ← run_cursor fuel c ops;
      Ok (row :: taken)
  | SeekTo lower_bound :: ops => run_cursor fuel (combiner_seek c lower_bound) ops
  end.

Fixpoint run_stream (l : list (string * T)) (ops : list cursor_op) : list (option (string * T)) :=
  match ops with
  | [] => []
  | TakeNext :: ops => head l :: run_stream (tail l) ops
  | SeekTo lower_bound :: ops => run_stream (rows_from lower_bound l) ops
  end.

Lemma run_cursor_correct fuel c ops :
  combiner_ok c → rounds c + length ops < fuel → run_cursor fuel c ops = Ok (run_stream (stream c) ops).
Proof using Hrows Hpages.
  revert c. induction ops as [|[|lower_bound] ops IH]; intros c Hok Hfuel;
    cbn [run_cursor run_stream length] in *; [done|..].
  - destruct (next_correct fuel c Hok) as (c' & -> & Hok' & Hs & Hle); [lia|].
    cbn [mbind res_bind]. by rewrite IH, Hs by (done || lia).
  - destruct (seek_correct c lower_bound Hok) as (Hok' & Hs & Hle). by rewrite IH, Hs by (done || lia).
Qed.

Lemma combiner_new_ok lower_bound tail ties :
  StronglySorted kle tail.*1 → combiner_ok (combiner_new lower_bound tail ties).
Proof using Hrows.
  intros Ht. split; [apply rows_from_ascending|done|done].
Qed.

(** C36 A cursor over manifest pages and the WAL tail refines a stream of the
    combined rows: from any bound, any sequence of [next] and [seek] returns
    what taking rows off, and dropping rows before a bound from, the merge of
    both sides gives, whatever the sizes of the pages; the stream is in
    strictly ascending key order, so each key comes back once, and it has the
    keys of both sides. *)
Theorem combiner_refines_stream lower_bound tail ties ops fuel :
  StronglySorted kle tail.*1 →
  2 * length tail + 2 * length (rows_from lower_bound rows) + 1 + length ops < fuel →
  let combined := combine_rows ties None tail (rows_from lower_bound rows) in
  run_cursor fuel (combiner_new lower_bound tail ties) ops = Ok (run_stream combined ops) ∧
  ascending combined ∧
  ∀ key, key ∈ combined.*1 ↔ key ∈ tail.*1 ∨ key ∈ (rows_from lower_bound rows).*1.
Proof using Hrows Hpages.
  intros Ht Hfuel combined. pose proof (combiner_new_ok lower_bound tail ties Ht) as Hok. split_and!.
  - apply run_cursor_correct; [done|]. unfold rounds, manifest_rest. cbn [combiner_new mc_tail mc_manifest mc_position app]. lia.
  - by apply (stream_ascending _ Hok).
  - intros key. unfold combined, combine_rows.
    assert (∀ l : list (string * T), key ∈ (dedup_from None l).*1 ↔ key ∈ l.*1) as ->.
    { intros l. pose proof (dedup_keys None l key). naive_solver. }
    rewrite merge_Permutation, fmap_app, elem_of_app. done.
Qed.
End stream.

(** The pages of a limited scan: a short page is the end of the range. *)
Definition limited_page {T} (limit : nat) (rows : list (string * T)) (lower_bound : string) : ManifestPage T :=
  let page := take limit (rows_from lower_bound rows) in
  {| mp_rows := page; mp_more := bool_decide (limit ≤ length page) |}.

Lemma limited_pages {T Er} limit (rows : list (string * T)) (refill : string → res Er (ManifestPage T)) :
  limit ≠ 0 → (∀ lower_bound, refill lower_bound = Ok (limited_page limit rows lower_bound)) →
  pages_of rows refill.
Proof.
  intros Hlimit Hrefill lower_bound. set (r := rows_from lower_bound rows).
  exists (limited_page limit rows lower_bound), (drop limit r). split; [done|].
  unfold limited_page. fold r. cbn [mp_rows mp_more]. split; [by rewrite take_drop|].
  rewrite bool_decide_eq_false, length_take. intros [Hlt|Hnil].
  - apply drop_ge. lia.
  - destruct limit, r; done.
Qed.

Definition combiner_manifest : list (string * N) := [("a1", 1%N); ("a2", 2%N); ("b1", 3%N); ("c1", 4%N); ("c3", 5%N)].
Definition combiner_tail : list (string * N) := [("a3", 6%N); ("b1", 3%N); ("c4", 7%N)].

Lemma combiner_refines_stream_witness :
  run_cursor (Er:=string) (λ lower_bound, Ok (limited_page 2 combiner_manifest lower_bound)) 50
    (combiner_new "a" combiner_tail TailFirst) [TakeNext; SeekTo "b"; TakeNext; TakeNext; TakeNext; TakeNext; TakeNext] =
  Ok [Some ("a1", 1%N); Some ("b1", 3%N); Some ("c1", 4%N); Some ("c3", 5%N); Some ("c4", 7%N); None].
Proof.
  apply (combiner_refines_stream combiner_manifest
    (λ lower_bound, Ok (limited_page 2 combiner_manifest lower_bound)) ltac:(by repeat constructor)
    (limited_pages 2 _ _ ltac:(done) (λ _, eq_refl)) "a" combiner_tail TailFirst
    [TakeNext; SeekTo "b"; TakeNext; TakeNext; TakeNext; TakeNext; TakeNext]).
  - repeat constructor; by vm_compute.
  - apply Nat.ltb_lt. by vm_compute.
Defined.
