(* ===== verification/Paths.v ===== *)
(** * Absolute paths and display names

    [loonfs-types/src/path.rs]: the absolute-path grammar, the display-name
    rules and the canonical spelling, with [validate_name_key] and
    [NameKey::for_display_name] of [ids.rs].  A Rust [str] is valid UTF-8;
    [chars] decodes it.  The Unicode folding of [name_policy.rs] is ICU's, a
    third-party library: it is the method of the class [NamePolicy]. *)
From S2P Require Import Prelude Types Codec.
Local Open Scope N_scope.

(** ** Text *)

(** [str::chars]: the scalar values of a UTF-8 string. *)
Fixpoint chars_aux (fuel : nat) (bytes : list N) : list N :=
  match fuel with
  | O => []
  | S fuel =>
      match bytes with
      | [] => []
      | b1 :: b2 :: b3 :: b4 :: rest4 =>
          if decide (240 ≤ b1) then
            (N.shiftl (N.land b1 7) 18 + N.shiftl (N.land b2 63) 12
             + N.shiftl (N.land b3 63) 6 + N.land b4 63) :: chars_aux fuel rest4
          else if decide (224 ≤ b1) then
            (N.shiftl (N.land b1 15) 12 + N.shiftl (N.land b2 63) 6 + N.land b3 63)
              :: chars_aux fuel (b4 :: rest4)
          else if decide (192 ≤ b1) then
            (N.shiftl (N.land b1 31) 6 + N.land b2 63) :: chars_aux fuel (b3 :: b4 :: rest4)
          else b1 :: chars_aux fuel (b2 :: b3 :: b4 :: rest4)
      | b1 :: b2 :: b3 :: rest3 =>
          if decide (224 ≤ b1) then
            (N.shiftl (N.land b1 15) 12 + N.shiftl (N.land b2 63) 6 + N.land b3 63)
              :: chars_aux fuel rest3
          else if decide (192 ≤ b1) then
            (N.shiftl (N.land b1 31) 6 + N.land b2 63) :: chars_aux fuel (b3 :: rest3)
          else b1 :: chars_aux fuel (b2 :: b3 :: rest3)
      | b1 :: b2 :: rest2 =>
          if decide (192 ≤ b1) then
            (N.shiftl (N.land b1 31) 6 + N.land b2 63) :: chars_aux fuel rest2
          else b1 :: chars_aux fuel (b2 :: rest2)
      | b1 :: rest1 => b1 :: chars_aux fuel rest1
      end
  end.

Definition bytes_of (s : string) : list N := N_of_ascii <$> String.list_ascii_of_string s.

(** Each step reads at least one byte, so the byte length is enough fuel. *)
Definition chars (s : string) : list N := chars_aux (String.length s) (bytes_of s).

(** [char::is_control]: the general category Cc. *)
Definition is_control (c : N) : bool := bool_decide (c ≤ 31 ∨ 127 ≤ c ≤ 159).

(** [char::is_whitespace]: the White_Space property. *)
Definition is_whitespace (c : N) : bool :=
  bool_decide (9 ≤ c ≤ 13 ∨ c = 32 ∨ c = 133 ∨ c = 160 ∨ c = 5760 ∨ 8192 ≤ c ≤ 8202 ∨
    c = 8232 ∨ c = 8233 ∨ c = 8239 ∨ c = 8287 ∨ c = 12288).

(** [str::contains(char)] for an ASCII character. *)
Fixpoint contains_char (c : ascii) (s : string) : bool :=
  match s with
  | EmptyString => false
  | String d rest => bool_decide (c = d) || contains_char c rest
  end.

(** [str::split(char)]: the pieces between separators, one more than there
    are separators. *)
Fixpoint split_char (c : ascii) (s : string) : list string :=
  match s with
  | EmptyString => [EmptyString]
  | String d rest =>
      if decide (c = d) then EmptyString :: split_char c rest
      else match split_char c rest with
           | piece :: pieces => String d piece :: pieces
           | [] => [String d EmptyString]
           end
  end.

(** [[str]::join]. *)
Fixpoint join_strings (separator : string) (pieces : list string) : string :=
  match pieces with
  | [] => EmptyString
  | [piece] => piece
  | piece :: rest => piece +:+ separator +:+ join_strings separator rest
  end.

Fixpoint ends_with_char (c : ascii) (s : string) : bool :=
  match s with
  | EmptyString => false
  | String d EmptyString => bool_decide (c = d)
  | String _ rest => ends_with_char c rest
  end.

(** [str::trim_end_matches(char)]. *)
Fixpoint trim_end_char (c : ascii) (s : string) : string :=
  match s with
  | EmptyString => EmptyString
  | String d rest =>
      match trim_end_char c rest with
      | EmptyString => if decide (c = d) then EmptyString else String d EmptyString
      | trimmed => String d trimmed
      end
  end.

Fixpoint to_ascii_uppercase (s : string) : string :=
  match s with
  | EmptyString => EmptyString
  | String c rest =>
      let b := N_of_ascii c in
      String (if decide (97 ≤ b ≤ 122) then ascii_of_N (b - 32) else c) (to_ascii_uppercase rest)
  end.

Definition is_ascii_digit (c : N) : bool := bool_decide (48 ≤ c ≤ 57).

(** ** Errors *)
Inductive PathError : Set :=
| EmptyPath
| RelativePath (path : string)
| DotComponent (path : string)
| ParentComponent (path : string)
| EmptyDisplayName
| DisplayNameContainsSeparator (display_name : string)
| ReservedDisplayName (display_name : string)
| DisplayNameContainsControlCharacter (code_point : N)
| DisplayNameTooLong (byte_length : N)
| PathTooLong (byte_length : N)
| PathTooDeep (depth : N)
| UnportableDisplayName (display_name reason : string)
| UnportableDisplayNameCharacter (display_name : string) (character : N).
#[export] Instance PathError_eq_dec : EqDecision PathError.
Proof. solve_decision. Defined.

(** [PathError::invalid_path_input]. *)
Definition invalid_path_input (e : PathError) : string :=
  match e with
  | EmptyPath => ""
  | RelativePath path | DotComponent path | ParentComponent path => path
  | EmptyDisplayName => ""
  | DisplayNameContainsSeparator display_name | ReservedDisplayName display_name => display_name
  | UnportableDisplayName display_name _ | UnportableDisplayNameCharacter display_name _ =>
      display_name
  | DisplayNameContainsControlCharacter _ | DisplayNameTooLong _ | PathTooLong _
  | PathTooDeep _ => ""
  end.

Definition MAX_DISPLAY_NAME_BYTES : N := 255.
Definition MAX_PATH_BYTES : N := 4096.
Definition MAX_PATH_DEPTH : N := 128.
Definition MAX_NAME_KEY_BYTES : N := 768.

(** The characters [: ? * |], the double quote, [< >] and the backslash. *)
Definition WINDOWS_RESERVED_CHARACTERS : list N := [58; 63; 42; 124; 34; 60; 62; 92].

Definition byte_length (s : string) : N := N.of_nat (String.length s).

Definition first_windows_reserved_character (value : string) : option N :=
  find_first (λ c, c ∈ WINDOWS_RESERVED_CHARACTERS) (chars value).

(** The text after the first three bytes. *)
Definition skip3 (s : string) : string := String.substring 3 (String.length s - 3) s.

Definition is_windows_reserved_device_name (value : string) : bool :=
  let stem := default value (head (split_char "." value)) in
  let stem := trim_end_char " " stem in
  let upper := to_ascii_uppercase stem in
  bool_decide (upper ∈ ["CON"; "PRN"; "AUX"; "NUL"]%string)
  || (bool_decide (byte_length upper = 4)
      && (starts_with upper "COM" || starts_with upper "LPT")
      && forallb is_ascii_digit (chars (skip3 upper))
      && negb (bool_decide (skip3 upper = "0"))).

Definition validate_display_name (value : string) : res PathError unit :=
  if decide (value = EmptyString) then Err EmptyDisplayName
  else if contains_char "/" value then Err (DisplayNameContainsSeparator value)
  else if bool_decide (value = ".") || bool_decide (value = "..") then
    Err (ReservedDisplayName value)
  else match find_first (λ c, is_control c = true) (chars value) with
  | Some control => Err (DisplayNameContainsControlCharacter control)
  | None =>
  if decide (MAX_DISPLAY_NAME_BYTES < byte_length value) then
    Err (DisplayNameTooLong (byte_length value))
  else match first_windows_reserved_character value with
  | Some character => Err (UnportableDisplayNameCharacter value character)
  | None =>
  if forallb is_whitespace (chars value) then
    Err (UnportableDisplayName value "is entirely whitespace")
  else if ends_with_char " " value then
    Err (UnportableDisplayName value "ends with a space, which Windows cannot store")
  else if ends_with_char "." value then
    Err (UnportableDisplayName value "ends with a dot, which Windows cannot store")
  else if is_windows_reserved_device_name value then
    Err (UnportableDisplayName value "is a Windows reserved device name")
  else Ok ()
  end end.

(** ** Paths *)
Record AbsolutePath := mkAbsolutePath {
  path_normalized : string;
  path_components : list string;
}.
#[export] Instance AbsolutePath_eq_dec : EqDecision AbsolutePath.
Proof. solve_decision. Defined.

Definition normalized_path (components : list string) : string :=
  match components with
  | [] => "/"
  | _ => "/" +:+ join_strings "/" components
  end.

Definition from_components (components : list string) : AbsolutePath :=
  mkAbsolutePath (normalized_path components) components.

Definition root : AbsolutePath := mkAbsolutePath "/" [].

Definition is_root (path : AbsolutePath) : bool :=
  match path.(path_components) with [] => true | _ => false end.

(** [join]: the display name is already validated. *)
Definition join (path : AbsolutePath) (display_name : DisplayName) : AbsolutePath :=
  from_components (path.(path_components) ++ [display_name]).

Definition parent (path : AbsolutePath) : option AbsolutePath :=
  if is_root path then None
  else if decide (length path.(path_components) = 1%nat) then Some root
  else Some (from_components (take (length path.(path_components) - 1) path.(path_components))).

Definition final_component (path : AbsolutePath) : option string := last path.(path_components).

Definition validate_path_bounds (byte_length depth : N) : res PathError unit :=
  if decide (MAX_PATH_BYTES < byte_length) then Err (PathTooLong byte_length)
  else if decide (MAX_PATH_DEPTH < depth) then Err (PathTooDeep depth)
  else Ok ().

Definition validate_request_bounds (path : AbsolutePath) : res PathError unit :=
  validate_path_bounds (byte_length path.(path_normalized)) (N.of_nat (length path.(path_components))).

(** The loop over [value[1..].split('/')]. *)
Fixpoint parse_components (value : string) (pieces : list string) : res PathError (list string) :=
  match pieces with
  | [] => Ok []
  | component :: rest =>
      if decide (component = EmptyString) then Err EmptyDisplayName
      else if decide (component = ".") then Err (DotComponent value)
      else if decide (component = "..") then Err (ParentComponent value)
      else
        _ ← validate_display_name component;
        components ← parse_components value rest;
        Ok (component :: components)
  end.

Definition parse_without_request_limits (value : string) : res PathError AbsolutePath :=
  match value with
  | EmptyString => Err EmptyPath
  | String c rest =>
      if negb (bool_decide (c = "/"%char)) then Err (RelativePath value)
      else if decide (value = "/") then Ok root
      else
        components ← parse_components value (split_char "/" rest);
        Ok (from_components components)
  end.

Definition parse (value : string) : res PathError AbsolutePath :=
  path ← parse_without_request_limits value;
  _ ← validate_path_bounds (byte_length value) (N.of_nat (length path.(path_components)));
  Ok path.

(** ** Name keys *)
Definition validate_name_key (value : string) : res ValidationError unit :=
  if decide (value = EmptyString) then Err (mkValidationError value "must not be empty")
  else if contains_char "/" value then Err (mkValidationError value "must not contain `/`")
  else if bool_decide (value = ".") || bool_decide (value = "..") then
    Err (mkValidationError value "must not be `.` or `..`")
  else if existsb is_control (chars value) then
    Err (mkValidationError value "must not contain control characters")
  else if decide (MAX_NAME_KEY_BYTES < byte_length value) then
    Err (mkValidationError "" "exceeds the maximum name key length of 768 bytes")
  else Ok ().

(** [icu_normalizer]'s NFC and [icu_casemap]'s full case folding. *)
Class NamePolicy := { nfc : string → string; fold_case : string → string }.

(** [name_key_for_display_name]. *)
Definition name_key_for_display_name `{NamePolicy} (display_name : string) : string :=
  nfc (fold_case (nfc display_name)).

(** [NameKey::for_display_name]. *)
Definition for_display_name `{NamePolicy} (display_name : DisplayName) : NameKey :=
  name_key_for_display_name display_name.

(** ** The grammar *)
Lemma contains_char_app c a b : contains_char c (a +:+ b) = contains_char c a || contains_char c b.
Proof. induction a as [|d a IH]; [done|]. rewrite string_app_cons. simpl. by rewrite IH, orb_assoc. Qed.

Lemma split_char_no c s : contains_char c s = false → split_char c s = [s].
Proof.
  induction s as [|d s IH]; [done|]. simpl. rewrite orb_false_iff, bool_decide_eq_false.
  intros [Hne Hs]. rewrite decide_False by done. by rewrite IH.
Qed.

Lemma split_char_app c a b :
  contains_char c a = false → split_char c (a +:+ String c b) = a :: split_char c b.
Proof.
  induction a as [|d a IH]; intros Ha.
  - change ("" +:+ String c b) with (String c b). simpl. by rewrite decide_True.
  - simpl in Ha. apply orb_false_iff in Ha as [Hne Ha]. apply bool_decide_eq_false in Hne.
    rewrite string_app_cons. simpl. rewrite decide_False by done. by rewrite IH.
Qed.

Lemma split_char_nonempty c s : split_char c s ≠ [].
Proof. destruct s as [|d s]; simpl; [done|]. case_decide; [done|]. by destruct (split_char c s). Qed.

(** Splitting undoes joining when no piece holds the separator. *)
Lemma split_join c pieces :
  pieces ≠ [] → Forall (λ p, contains_char c p = false) pieces →
  split_char c (join_strings (String c "") pieces) = pieces.
Proof.
  induction pieces as [|p pieces IH]; [done|]. intros _ Hp. inversion_clear Hp as [|? ? H1 H2].
  destruct pieces as [|q pieces]; [by apply split_char_no|].
  change (join_strings (String c "") (p :: q :: pieces))
    with (p +:+ String c (join_strings (String c "") (q :: pieces))).
  rewrite split_char_app by done. by rewrite IH.
Qed.

Lemma join_cons c p pieces :
  pieces ≠ [] → join_strings (String c "") (p :: pieces) = p +:+ String c (join_strings (String c "") pieces).
Proof. by destruct pieces. Qed.

Lemma join_split c s : join_strings (String c "") (split_char c s) = s.
Proof.
  induction s as [|d s IH]; [done|]. simpl. case_decide as E.
  - subst d. rewrite join_cons by apply split_char_nonempty. by rewrite IH.
  - pose proof (split_char_nonempty c s). destruct (split_char c s) as [|p pieces]; [done|].
    destruct pieces as [|q pieces]; [by simpl in *; subst|].
    rewrite join_cons in IH |- * by done. by rewrite <-IH.
Qed.

Lemma validate_display_name_basic name :
  validate_display_name name = Ok () →
  name ≠ EmptyString ∧ contains_char "/" name = false ∧ name ≠ "."%string ∧ name ≠ ".."%string ∧
  byte_length name ≤ MAX_DISPLAY_NAME_BYTES.
Proof.
  unfold validate_display_name. case_decide as E1; [done|].
  destruct (contains_char "/" name); [done|].
  destruct (bool_decide (name = ".")) eqn:E2; [done|].
  destruct (bool_decide (name = "..")) eqn:E3; [done|]. cbn [orb].
  apply bool_decide_eq_false in E2, E3. destruct (find_first _ _); [done|].
  case_decide; [done|]. intros _. split_and!; try done. lia.
Qed.

Lemma parse_components_Ok value pieces comps :
  parse_components value pieces = Ok comps ↔
  comps = pieces ∧ Forall (λ p, validate_display_name p = Ok ()) pieces.
Proof.
  revert comps. induction pieces as [|p pieces IH]; intros comps; cbn [parse_components].
  { split; [by intros [= <-]|]. by intros [-> _]. }
  split.
  - do 3 (case_decide; [done|]). destruct (validate_display_name p) as [[]| | |] eqn:Ev; [|done..].
    cbn [mbind res_bind]. destruct (parse_components value pieces) as [rest| | |] eqn:Er; try done.
    cbn [mbind res_bind]. intros [= <-]. destruct (proj1 (IH rest) eq_refl) as [-> Hall]. auto.
  - intros [-> Hall]. inversion_clear Hall as [|? ? Hp Hrest].
    destruct (validate_display_name_basic p Hp) as (? & _ & ? & ? & _).
    do 3 rewrite decide_False by done. rewrite Hp. cbn [mbind res_bind].
    by rewrite (proj2 (IH pieces) (conj eq_refl Hrest)).
Qed.

Lemma parse_grammar value path :
  parse_without_request_limits value = Ok path ↔
  path = from_components path.(path_components) ∧ value = path.(path_normalized) ∧
  Forall (λ c, validate_display_name c = Ok ()) path.(path_components).
Proof.
  unfold parse_without_request_limits. split.
  - destruct value as [|c rest]; [done|].
    destruct (bool_decide (c = "/"%char)) eqn:Ec; [|done]. cbn [negb].
    apply bool_decide_eq_true in Ec as ->. case_decide as E.
    { intros [= <-]. split_and!; [done|done|constructor]. }
    destruct (parse_components _ _) as [comps| | |] eqn:Ep; [|done..]. cbn [mbind res_bind].
    intros [= <-]. apply parse_components_Ok in Ep as [-> Hall]. simpl. split_and!; try done.
    unfold normalized_path. pose proof (split_char_nonempty "/" rest).
    destruct (split_char "/" rest) eqn:Es; [done|]. rewrite <-Es, join_split. done.
  - intros (-> & -> & Hall). simpl in Hall |- *. destruct (path_components path) as [|c comps] eqn:Ec.
    { done. }
    set (body := join_strings "/" (c :: comps)).
    change (normalized_path (c :: comps)) with (String "/" body). cbn iota beta.
    rewrite bool_decide_true by done. cbn [negb].
    assert (split_char "/" body = c :: comps) as Hs.
    { apply split_join; [done|]. eapply Forall_impl; [exact Hall|]. intros p Hp.
      by destruct (validate_display_name_basic p Hp) as (_ & ? & _). }
    rewrite decide_False.
    + rewrite Hs, (proj2 (parse_components_Ok _ _ _) (conj eq_refl Hall)). done.
    + intros [= E]. rewrite E in Hs. injection Hs as <- <-.
      inversion_clear Hall as [|? ? Hp _]. by destruct (validate_display_name_basic _ Hp).
Qed.

(** The path grammar is canonical.  A request path parses exactly when
    it is the spelling [normalized_path] of components that are all valid
    display names, within 4096 bytes and 128 components, and it parses to
    exactly those components: no second spelling of a path is accepted and
    printing a parsed path gives back the request. *)
Theorem path_parse_exact (value : string) (path : AbsolutePath) :
  parse value = Ok path ↔
  path = from_components path.(path_components) ∧ value = path.(path_normalized) ∧
  Forall (λ c, validate_display_name c = Ok ()) path.(path_components) ∧
  byte_length value ≤ MAX_PATH_BYTES ∧
  N.of_nat (length path.(path_components)) ≤ MAX_PATH_DEPTH.
Proof.
  unfold parse, validate_path_bounds.
  destruct (parse_without_request_limits value) as [p| | |] eqn:E; cbn [mbind res_bind].
  2-4: split; [done|]; intros (H1 & H2 & H3 & _);
    by rewrite (proj2 (parse_grammar value path)) in E.
  split.
  - case_decide; [done|]. case_decide; [done|]. intros [= ->].
    apply parse_grammar in E as (H1 & H2 & H3). split_and!; try done; lia.
  - intros (H1 & H2 & H3 & H4 & H5).
    rewrite (proj2 (parse_grammar value path)) in E by done. injection E as ->.
    rewrite !decide_False by lia. done.
Qed.
