(* ===== verification/Ids.v ===== *)
(** * Identifiers

    The identifier grammars of [loonfs-types/src/ids.rs]: namespace and
    commit IDs, writer IDs, binding versions, extension names, pin IDs and
    the generated IDs, with the public ordinals' [parse] and [successor].
    A validated ID is its string; [parse] is the validator's verdict.  The
    character classes of the grammars are ASCII, and every byte of another
    character is at least 128, so the tests on [chars()] are tests on bytes. *)
From S2P Require Import Prelude Types Codec Paths.
Local Open Scope N_scope.

(** ** Text *)
Definition is_digit_byte (b : ascii) : bool := is_ascii_digit (N_of_ascii b).
Definition is_lowercase_byte (b : ascii) : bool := bool_decide (97 ≤ N_of_ascii b ≤ 122).
Definition is_alphanumeric_byte (b : ascii) : bool :=
  is_digit_byte b || is_lowercase_byte b || bool_decide (65 ≤ N_of_ascii b ≤ 90).

Fixpoint all_bytes (p : ascii → bool) (s : string) : bool :=
  match s with
  | EmptyString => true
  | String b rest => p b && all_bytes p rest
  end.

(** [value.trim() == value]: no white space at either end. *)
Definition is_trimmed (value : string) : bool :=
  negb (default false (is_whitespace <$> head (chars value)))
  && negb (default false (is_whitespace <$> last (chars value))).

(** [value.trim().is_empty()]. *)
Definition is_blank (value : string) : bool := forallb is_whitespace (chars value).

(** [str::split_once(char)]. *)
Fixpoint split_once (c : ascii) (s : string) : option (string * string) :=
  match s with
  | EmptyString => None
  | String b rest =>
      if decide (c = b) then Some (EmptyString, rest)
      else '(before, after) ← split_once c rest; Some (String b before, after)
  end.

(** [str::parse::<u64>]: an optional plus sign and at least one digit. *)
Fixpoint dec_value (value : N) (digits : string) : option N :=
  match digits with
  | EmptyString => Some value
  | String b rest =>
      if is_digit_byte b then
        let value := value * 10 + (N_of_ascii b - 48) in
        if decide (value ≤ U64_MAX) then dec_value value rest else None
      else None
  end.
Definition parse_u64 (s : string) : option N :=
  match s with
  | EmptyString => None
  | String b rest =>
      if decide (b = "+"%char) then (if decide (rest = EmptyString) then None else dec_value 0 rest)
      else dec_value 0 s
  end.

(** ** Public ordinals *)

(** [PublicOrdinalRangeError]. *)
Inductive PublicOrdinalRangeError : Set := OrdinalOutOfRange.
#[export] Instance PublicOrdinalRangeError_eq_dec : EqDecision PublicOrdinalRangeError.
Proof. solve_decision. Defined.

(** [parse] and [successor] of the [public_ordinal] newtypes. *)
Definition ordinal_parse (value : N) : res PublicOrdinalRangeError N :=
  if decide (MAX_PUBLIC_INTEGER < value) then Err OrdinalOutOfRange else Ok value.
Definition ordinal_successor (value : N) : res PublicOrdinalRangeError N :=
  ok_or (next_public_ordinal value) OrdinalOutOfRange.

(** ** Grammars *)
Definition MAX_ID_BYTES : N := 128.
Definition MAX_WRITER_ID_BYTES : N := 256.
Definition MAX_EXTENSION_NAME_BYTES : N := 64.

Definition is_allowed_id_tail_char (b : ascii) : bool :=
  is_lowercase_byte b || is_digit_byte b || bool_decide (b = "."%char ∨ b = "_"%char ∨ b = "-"%char).

Definition validate_id_grammar (value : string) : res string unit :=
  if decide (value = "") then Err "must not be empty"
  else if decide (MAX_ID_BYTES < byte_length value) then Err "must be 128 bytes or fewer"
  else if negb (is_trimmed value) then Err "must not have leading or trailing whitespace"
  else if decide (value = "." ∨ value = "..") then Err "must not be `.` or `..`"
  else match value with
  | EmptyString => Panic
  | String first tail =>
      if negb (is_lowercase_byte first) && negb (is_digit_byte first) then
        Err "must start with a lowercase ASCII letter or digit"
      else if negb (all_bytes is_allowed_id_tail_char tail) then
        Err "must contain only lowercase ASCII letters, digits, `.`, `_`, or `-`"
      else Ok ()
  end.

Definition validate_namespace_id (value : string) : res ValidationError unit :=
  _ ← map_err (mkValidationError value) (validate_id_grammar value);
  if starts_with value "loonfs-" then
    Err (mkValidationError value "the `loonfs-` prefix is reserved for LoonFS system namespaces")
  else Ok ().

Definition validate_commit_id (value : string) : res ValidationError unit :=
  map_err (mkValidationError value) (validate_id_grammar value).

(** The validators of [WriterId] and [BindingVersion]. *)
Definition validate_writer_id (value : string) : res ValidationError unit :=
  if is_blank value then Err (mkValidationError value "must not be blank")
  else if decide (MAX_WRITER_ID_BYTES < byte_length value) then
    Err (mkValidationError value "must be 256 bytes or fewer")
  else Ok ().
Definition validate_binding_version (value : string) : res ValidationError unit :=
  if decide (value = "") then Err (mkValidationError value "must not be empty")
  else if negb (all_bytes (λ b, is_alphanumeric_byte b || bool_decide (b = "-"%char)
                                || bool_decide (b = "_"%char)) value) then
    Err (mkValidationError value "must contain only base64url characters, without padding")
  else Ok ().

Definition validate_extension_name (value : string) : res ValidationError unit :=
  if decide (MAX_EXTENSION_NAME_BYTES < byte_length value) then
    Err (mkValidationError "" "must be 64 bytes or fewer")
  else match value with
  | String first rest =>
      if negb (is_lowercase_byte first) then
        Err (mkValidationError value "must start with a lowercase ASCII letter")
      else if negb (all_bytes (λ b, is_lowercase_byte b || is_digit_byte b || bool_decide (b = "_"%char)) rest) then
        Err (mkValidationError value "must contain only lowercase ASCII letters, digits, or `_`")
      else Ok ()
  | EmptyString => Err (mkValidationError value "must start with a lowercase ASCII letter")
  end.

(** *** Pins *)
Definition pin_id_valid (value : string) : bool :=
  match strip_prefix "pin_" value ≫= split_once "-" with
  | None => false
  | Some (number, entropy) =>
      bool_decide (String.length number = 20%nat) && all_bytes is_digit_byte number
      && match parse_u64 number with
         | Some number =>
             match ordinal_parse number with Ok number => bool_decide (0 < number) | _ => false end
         | None => false
         end
      && bool_decide (String.length entropy = 16%nat) && all_bytes is_lower_hex_byte entropy
  end.
Definition validate_pin_id (value : string) : res ValidationError unit :=
  if pin_id_valid value then Ok ()
  else Err (mkValidationError value
    "must be `pin_` followed by a twenty-digit positive manifest number, `-`, and sixteen lowercase hex characters").

(** [PinId::generate], with the drawn random bytes as an argument; an invalid
    manifest number panics. *)
Definition PinId_generate (manifest_no : N) (random_bytes : string) : res Empty_set string :=
  let pin_id := "pin_" +:+ fmt_dec 20 manifest_no +:+ "-" +:+ hex_encode_bytes random_bytes in
  match validate_pin_id pin_id with Ok _ => Ok pin_id | _ => Panic end.

(** [PinId::manifest_no]: [self.0[4..24].parse()]. *)
Definition PinId_manifest_no (pin_id : string) : res Empty_set N :=
  expect (parse_u64 (String.substring 4 20 pin_id)).

(** *** Generated IDs: [parse] of the [prefix = ..] newtypes *)
Definition UploadId_parse (value : string) : res ValidationError unit := validate_generated_id "upl" value.
Definition ContentId_parse (value : string) : res ValidationError unit := validate_generated_id "con" value.
Definition MetadataSegmentId_parse (value : string) : res ValidationError unit := validate_generated_id "seg" value.
Definition IndexSegmentId_parse (value : string) : res ValidationError unit := validate_generated_id "idx" value.
Definition ProbeRunId_parse (value : string) : res ValidationError unit := validate_generated_id "probe" value.

(** [random_uuid_v4] over the drawn bytes, as one 128-bit value: byte 6 is
    bits 72 to 79 and byte 8 is bits 56 to 63. *)
Definition random_uuid_v4 (random : N) : N :=
  let version := N.lor (N.land random (U128_MAX - N.shiftl 0xf0 72)) (N.shiftl 0x40 72) in
  N.lor (N.land version (U128_MAX - N.shiftl 0xc0 56)) (N.shiftl 0x80 56).
Definition generated_id (prefix : string) (random : N) : string :=
  prefix +:+ "_" +:+ encode_base_32 (random_uuid_v4 random) GENERATED_ID_BODY_BYTES.

(** [generated_id_body_prefixes]; a count above [usize::MAX] panics. *)
Definition generated_id_body_prefixes (width : nat) : res Empty_set (list string) :=
  let count := match width with O => 1 | S later => 32 ^ N.of_nat later * 8 end in
  if decide (count ≤ U64_MAX) then Ok ((λ i, encode_base_32 (N.of_nat i) width) <$> seq 0 (N.to_nat count))
  else Panic.

(** ** Lemmas *)
Lemma all_bytes_app p a b : all_bytes p (a +:+ b) = all_bytes p a && all_bytes p b.
Proof.
  induction a as [|x a IH]; [done|]. rewrite string_app_cons. cbn. by rewrite IH, andb_assoc.
Qed.

Lemma all_bytes_impl (p q : ascii → bool) s :
  (∀ b, p b = true → q b = true) → all_bytes p s = true → all_bytes q s = true.
Proof.
  intros Hpq. induction s as [|b s IH]; [done|]. cbn. intros [Hb Hs]%andb_true_iff.
  by rewrite (Hpq b Hb), IH.
Qed.

Lemma all_bytes_not_contains p c s : all_bytes p s = true → p c = false → contains_char c s = false.
Proof.
  intros Hs Hc. revert Hs. induction s as [|b s IH]; [done|]. cbn. intros [Hb Hs]%andb_true_iff.
  rewrite IH by done. case_bool_decide; [congruence|done].
Qed.

Lemma split_once_Some c s before after :
  split_once c s = Some (before, after) →
  s = before +:+ String c after ∧ contains_char c before = false.
Proof.
  revert before. induction s as [|b s IH]; intros before; [done|]. cbn.
  destruct (decide (c = b)) as [->|Hne].
  { by intros [= <- ->]. }
  destruct (split_once c s) as [[before' after']|] eqn:E; [|done]. cbn. intros [= <- <-].
  destruct (IH _ eq_refl) as [-> Hno]. split; [done|]. cbn. by rewrite bool_decide_false.
Qed.

Lemma split_once_app c before after :
  contains_char c before = false → split_once c (before +:+ String c after) = Some (before, after).
Proof.
  induction before as [|b s IH].
  { intros _. change (split_once c (String c after) = Some ("", after)). cbn. by rewrite decide_True. }
  cbn [contains_char]. intros [Hne%bool_decide_eq_false Hs]%orb_false_iff.
  rewrite string_app_cons. cbn [split_once]. rewrite decide_False by done. by rewrite IH.
Qed.

(** *** Decimals *)
Lemma is_digit_byte_dec b : is_digit_byte b = true ↔ ∃ d, d < 10 ∧ b = dec_digit d.
Proof.
  unfold is_digit_byte, is_ascii_digit. rewrite bool_decide_eq_true. split.
  - intros Hb. exists (N_of_ascii b - 48). split; [lia|]. unfold dec_digit.
    replace (48 + (N_of_ascii b - 48)) with (N_of_ascii b) by lia. by rewrite ascii_N_embedding.
  - intros (d & Hd & ->). unfold dec_digit. rewrite N_ascii_embedding by lia. lia.
Qed.

Lemma dec_value_cons value d rest :
  d < 10 → dec_value value (String (dec_digit d) rest) =
    if decide (value * 10 + d ≤ U64_MAX) then dec_value (value * 10 + d) rest else None.
Proof.
  intros Hd. cbn [dec_value]. rewrite (proj2 (is_digit_byte_dec _)) by eauto.
  unfold dec_digit. rewrite N_ascii_embedding by lia. replace (48 + d - 48) with d by lia. done.
Qed.

(** A decimal of any width reads back. *)
Lemma dec_value_positional width n value :
  value * 10 ^ N.of_nat width + n mod 10 ^ N.of_nat width ≤ U64_MAX →
  dec_value value (positional dec_digit 10 width n) = Some (value * 10 ^ N.of_nat width + n mod 10 ^ N.of_nat width).
Proof.
  revert value. induction width as [|w IH]; intros value Hle.
  { cbn. rewrite N.mod_1_r, N.mul_1_r, N.add_0_r. done. }
  cbn [positional]. rewrite dec_value_cons by (apply N.mod_lt; done).
  rewrite mod_pow_S in Hle by lia. rewrite mod_pow_S by lia. rewrite Nat2N.inj_succ, N.pow_succ_r' in *.
  pose proof (pow_pos 10 ltac:(lia) (N.of_nat w)) as Hp.
  set (d := n / 10 ^ N.of_nat w mod 10) in *. set (r := n mod 10 ^ N.of_nat w) in *.
  set (B := 10 ^ N.of_nat w) in *. clearbody d r B.
  replace (value * (10 * B) + (r + B * d)) with ((value * 10 + d) * B + r) in * by lia.
  rewrite decide_True by nia. by apply IH.
Qed.

Lemma parse_fmt_dec width n :
  (0 < width)%nat → n < 10 ^ N.of_nat width → n ≤ U64_MAX → parse_u64 (fmt_dec width n) = Some n.
Proof.
  intros Hw Hn Hmax. rewrite fmt_dec_positional by done. destruct width as [|w]; [lia|].
  pose proof (dec_value_positional (S w) n 0) as Hv. rewrite N.mod_small, N.mul_0_l, N.add_0_l in Hv by done.
  specialize (Hv Hmax). cbn [positional] in Hv |- *. cbn [parse_u64]. rewrite decide_False; [done|].
  set (d := n / 10 ^ N.of_nat w mod 10). assert (d < 10) as Hd by (by apply N.mod_lt). clearbody d.
  intros E%(f_equal N_of_ascii). unfold dec_digit in E. rewrite N_ascii_embedding in E by lia.
  change (N_of_ascii "+") with 43 in E. lia.
Qed.

Lemma digits_fmt_dec width n :
  (0 < width)%nat → n < 10 ^ N.of_nat width → all_bytes is_digit_byte (fmt_dec width n) = true.
Proof.
  intros Hw Hn. rewrite fmt_dec_positional by done. clear Hw Hn.
  induction width as [|w IH]; [done|]. cbn. rewrite IH, andb_true_r. apply is_digit_byte_dec.
  eexists. split; [by apply N.mod_lt|done].
Qed.

(** Digits of one width are the decimal of their value. *)
Lemma dec_value_Some value digits n :
  dec_value value digits = Some n → all_bytes is_digit_byte digits = true ∧
  ∃ r, r < 10 ^ N.of_nat (String.length digits) ∧ n = value * 10 ^ N.of_nat (String.length digits) + r ∧
    digits = positional dec_digit 10 (String.length digits) n.
Proof.
  revert value. induction digits as [|b digits IH]; intros value.
  { intros [= ->]. split; [done|]. exists 0. cbn. split_and!; [lia|lia|done]. }
  intros Hv. destruct (is_digit_byte b) eqn:Hb; [|cbn in Hv; by rewrite Hb in Hv].
  apply is_digit_byte_dec in Hb as Hd. destruct Hd as (d & Hd & ->). rewrite dec_value_cons in Hv by done.
  case_decide; [|done]. destruct (IH _ Hv) as (Hall & r & Hr & -> & Hdigits). split; [cbn; by rewrite Hb|].
  cbn [String.length]. rewrite Nat2N.inj_succ, N.pow_succ_r'.
  set (w := String.length digits) in *. set (B := 10 ^ N.of_nat w) in *.
  exists (d * B + r). assert (0 < B) as HB by (apply pow_pos; lia). split_and!; [nia|lia|].
  cbn [positional]. fold B. rewrite <-Hdigits. do 2 f_equal.
  replace ((value * 10 + d) * B + r) with (r + (value * 10 + d) * B) by lia.
  rewrite N.div_add, N.div_small, N.add_0_l by lia. replace (value * 10 + d) with (d + value * 10) by lia.
  by rewrite N.Div0.mod_add, N.mod_small.
Qed.

Lemma parse_u64_digits s n :
  all_bytes is_digit_byte s = true → parse_u64 s = Some n →
  n < 10 ^ N.of_nat (String.length s) ∧ s = fmt_dec (String.length s) n ∧ s ≠ EmptyString.
Proof.
  intros Hall Hp. assert (s ≠ EmptyString) as Hne by (by destruct s).
  assert (dec_value 0 s = Some n) as Hv.
  { destruct s as [|b rest]; [done|]. cbn [parse_u64] in Hp. case_decide as E; [|done].
    subst b. cbn in Hall. done. }
  apply dec_value_Some in Hv as (_ & r & Hr & -> & Hs). rewrite N.mul_0_l, N.add_0_l in *.
  split_and!; [done| |done]. rewrite fmt_dec_positional; [done| |done]. destruct s; [done|cbn; lia].
Qed.

(** *** No identifier contains a separator *)
Lemma namespace_id_no_slash value : validate_namespace_id value = Ok () → contains_char "/" value = false.
Proof.
  unfold validate_namespace_id. intros Hv. step_ok Hv u Hu. apply map_err_Ok in Hu. clear Hv.
  unfold validate_id_grammar in Hu. repeat (case_decide; [done|]).
  destruct (negb (is_trimmed value)); [done|]. case_decide; [done|]. destruct value as [|first tail]; [done|].
  destruct (negb (is_lowercase_byte first) && negb (is_digit_byte first)) eqn:E1; [done|].
  destruct (all_bytes is_allowed_id_tail_char tail) eqn:E2; [|done].
  cbn [contains_char]. rewrite (all_bytes_not_contains _ "/" _ E2 eq_refl), orb_false_r.
  apply bool_decide_eq_false. intros <-. done.
Qed.

Lemma extension_name_no_slash value : validate_extension_name value = Ok () → contains_char "/" value = false.
Proof.
  unfold validate_extension_name. case_decide; [done|]. destruct value as [|first rest]; [done|].
  destruct (is_lowercase_byte first) eqn:E1; [|done]. cbn [negb]. destruct (all_bytes _ rest) eqn:E2; [|done].
  intros _. cbn [contains_char]. rewrite (all_bytes_not_contains _ "/" _ E2 eq_refl), orb_false_r.
  apply bool_decide_eq_false. by intros <-.
Qed.

Lemma generated_id_body_lacks c body :
  char_position GENERATED_ID_ALPHABET c = None → generated_id_body_error body = None → contains_char c body = false.
Proof.
  intros Hc. unfold generated_id_body_error. destruct (all_in_alphabet body) eqn:E; [|by rewrite orb_true_r].
  intros _. revert E. induction body as [|b body IH]; [done|].
  cbn [all_in_alphabet contains_char]. intros [Hb Hbody]%andb_true_iff. rewrite IH, orb_false_r by done. apply bool_decide_eq_false. intros ->.
  apply bool_decide_eq_true in Hb. rewrite Hc in Hb. by destruct Hb.
Qed.

Lemma validate_generated_id_Ok prefix value :
  validate_generated_id prefix value = Ok () →
  ∃ body, value = prefix +:+ "_" +:+ body ∧ generated_id_body_error body = None.
Proof.
  unfold validate_generated_id. destruct (strip_prefix _ value) as [body|] eqn:E; [|done].
  destruct (generated_id_body_error body) eqn:Eb; [done|]. intros _. exists body. split; [|done].
  apply strip_prefix_Some in E as ->. by rewrite string_app_assoc.
Qed.

Lemma generated_id_body_length body : generated_id_body_error body = None → String.length body = 26%nat.
Proof.
  unfold generated_id_body_error. case_bool_decide as E; [done|]. intros _. unfold GENERATED_ID_BODY_BYTES in E. lia.
Qed.

Lemma generated_id_lacks c prefix value :
  contains_char c (prefix +:+ "_") = false → char_position GENERATED_ID_ALPHABET c = None →
  validate_generated_id prefix value = Ok () → contains_char c value = false.
Proof.
  intros Hp Hc (body & -> & Hb)%validate_generated_id_Ok.
  by rewrite <-string_app_assoc, contains_char_app, Hp, (generated_id_body_lacks c body).
Qed.

Lemma pin_id_Ok value :
  validate_pin_id value = Ok () → ∃ number entropy,
    value = "pin_" +:+ fmt_dec 20 number +:+ "-" +:+ entropy ∧ 0 < number ≤ MAX_PUBLIC_INTEGER ∧
    String.length entropy = 16%nat ∧ all_bytes is_lower_hex_byte entropy = true.
Proof.
  unfold validate_pin_id, pin_id_valid. destruct (strip_prefix "pin_" value) as [body|] eqn:Ep; [|done].
  cbn [mbind option_bind]. destruct (split_once "-" body) as [[number entropy]|] eqn:Es; [|done].
  apply strip_prefix_Some in Ep as ->. apply split_once_Some in Es as [-> _].
  case_bool_decide as E1; [|done]. destruct (all_bytes is_digit_byte number) eqn:E2; [|done].
  destruct (parse_u64 number) as [n|] eqn:E3; [|done]. cbn [andb]. unfold ordinal_parse.
  destruct (decide (MAX_PUBLIC_INTEGER < n)); [done|].
  case_bool_decide; [|done]. case_bool_decide as E4; [|done].
  destruct (all_bytes is_lower_hex_byte entropy) eqn:E5; [|done]. intros _. exists n, entropy.
  destruct (parse_u64_digits _ _ E2 E3) as (_ & Hn & _). rewrite E1 in Hn.
  split_and!; [by rewrite <-Hn|done|lia|done|done].
Qed.

Lemma pin_id_no_slash value : validate_pin_id value = Ok () → contains_char "/" value = false.
Proof.
  intros (number & entropy & -> & Hn & _ & He)%pin_id_Ok. rewrite !contains_char_app.
  rewrite (all_bytes_not_contains is_digit_byte "/" (fmt_dec 20 number)); [|apply digits_fmt_dec|done]; [|lia|].
  2:{ unfold MAX_PUBLIC_INTEGER in Hn. cbn. lia. }
  by rewrite (all_bytes_not_contains _ "/" _ He eq_refl).
Qed.

(** *** Pins *)
Lemma hex_encode_lower bytes : all_bytes is_lower_hex_byte (hex_encode_bytes bytes) = true.
Proof.
  assert (∀ d, d < 16 → is_lower_hex_byte (char_at HEX d) = true) as Hd.
  { intros d Hd. assert (∀ n, (n < 16)%nat → is_lower_hex_byte (char_at HEX (N.of_nat n)) = true) as Hall.
    { intros n Hn. do 16 (destruct n as [|n]; [done|]). lia. }
    rewrite <-(N2Nat.id d). apply Hall. lia. }
  induction bytes as [|c bytes IH]; [done|]. rewrite hex_encode_cons. cbn [all_bytes].
  destruct (nibble_bounds c) as [H1 H2]. by rewrite !Hd, IH.
Qed.

Lemma substring_0_app a b : String.substring 0 (String.length a) (a +:+ b) = a.
Proof. induction a as [|c a IH]; [by destruct b|]. rewrite string_app_cons. cbn. by rewrite IH. Qed.

Lemma pin_id_valid_parts number entropy n :
  String.length number = 20%nat → all_bytes is_digit_byte number = true → parse_u64 number = Some n →
  0 < n ≤ MAX_PUBLIC_INTEGER → String.length entropy = 16%nat → all_bytes is_lower_hex_byte entropy = true →
  pin_id_valid ("pin_" +:+ number +:+ "-" +:+ entropy) = true.
Proof.
  intros Hlen Hdig Hp Hn Hx Hl. unfold pin_id_valid. rewrite strip_prefix_app. cbn [mbind option_bind].
  change ("-" +:+ entropy) with (String "-" entropy).
  rewrite split_once_app by (by apply (all_bytes_not_contains is_digit_byte)).
  rewrite (bool_decide_true _ Hlen), Hdig, Hp. unfold ordinal_parse. rewrite decide_False by lia.
  by rewrite (bool_decide_true (0 < n)) by lia; rewrite (bool_decide_true _ Hx), Hl.
Qed.

(** A pin made for a manifest names it. *)
Lemma pin_roundtrip n random :
  0 < n ≤ MAX_PUBLIC_INTEGER → String.length random = 8%nat →
  ∃ pin_id, PinId_generate n random = Ok pin_id ∧ PinId_manifest_no pin_id = Ok n.
Proof.
  intros Hn Hr. exists ("pin_" +:+ fmt_dec 20 n +:+ "-" +:+ hex_encode_bytes random).
  assert (n < 10 ^ N.of_nat 20) as Hw by (unfold MAX_PUBLIC_INTEGER in Hn; cbn; lia).
  assert (n ≤ U64_MAX) as Hu by (unfold MAX_PUBLIC_INTEGER, U64_MAX in *; cbn; lia).
  assert (String.length (fmt_dec 20 n) = 20%nat) as Hlen by (apply fmt_dec_length; [lia|done]).
  assert (all_bytes is_digit_byte (fmt_dec 20 n) = true) as Hdig by (apply digits_fmt_dec; [lia|done]).
  assert (parse_u64 (fmt_dec 20 n) = Some n) as Hp by (apply parse_fmt_dec; [lia|done|done]). split.
  - unfold PinId_generate, validate_pin_id. erewrite pin_id_valid_parts; [done|done|done|done|done| |].
    + by rewrite hex_encode_length, Hr.
    + apply hex_encode_lower.
  - unfold PinId_manifest_no.
    change (String.substring 4 20 ("pin_" +:+ fmt_dec 20 n +:+ "-" +:+ hex_encode_bytes random))
      with (String.substring 0 20 (fmt_dec 20 n +:+ "-" +:+ hex_encode_bytes random)).
    rewrite <-Hlen at 1. by rewrite substring_0_app, Hp.
Qed.
