(* ===== verification/ObjectKeys.v ===== *)
(** * Object keys

    [keys.rs], [layout.rs] and [keyspace.rs] of [loonfs-objectstore]: the key
    of every durable object, the classifier that garbage collection and
    discovery read keys with, and the key prefix that scopes a store.
    [object_name] is the abstract name of an object; the theorems show that
    the classifier recovers it, that no two objects share a key, and that a
    scope neither loses nor adds keys. *)
From S2P Require Import Prelude Types Codec Paths Ids.
Local Open Scope N_scope.

Module keys.
Definition PROBE_RUN_PREFIX : string := "probe-runs".
Definition NAMESPACES_DIRECTORY : string := "namespaces".
Definition HINT_NAME : string := "hint.json".
Definition WAL_DIRECTORY : string := "wal".
Definition WAL_SUFFIX : string := ".wal.zst".
Definition MANIFEST_DIRECTORY : string := "manifests".
Definition MANIFEST_SUFFIX : string := ".json.zst".
Definition SEGMENT_DIRECTORY : string := "segments".
Definition SEGMENT_SUFFIX : string := ".sst.zst".
Definition PIN_DIRECTORY : string := "pins".
Definition PIN_SUFFIX : string := ".json".
Definition UPLOAD_DIRECTORY : string := "uploads".
Definition UPLOAD_SESSION_SUFFIX : string := ".json".
Definition UPLOAD_OUTCOME_SUFFIX : string := ".outcome.json".
Definition CONTENT_DIRECTORY : string := "content".
Definition TEMPORARY_DIRECTORY : string := "temporary".
Definition EXTENSIONS_DIRECTORY : string := "extensions".

Definition namespace_prefix (namespace_id : NamespaceId) : string :=
  NAMESPACES_DIRECTORY +:+ "/" +:+ namespace_id +:+ "/".

Definition extensions_prefix (namespace_id : NamespaceId) : string :=
  namespace_prefix namespace_id +:+ EXTENSIONS_DIRECTORY +:+ "/".

Definition extension_prefix (namespace_id : NamespaceId) (name : string) : string :=
  extensions_prefix namespace_id +:+ name +:+ "/".

Definition extension_segment_prefix (namespace_id : NamespaceId) (name : string) : string :=
  extension_prefix namespace_id name +:+ SEGMENT_DIRECTORY +:+ "/".

Definition extension_segment (namespace_id : NamespaceId) (name segment_id : string) : string :=
  extension_segment_prefix namespace_id name +:+ segment_id +:+ SEGMENT_SUFFIX.

Definition wal_prefix (namespace_id : NamespaceId) : string :=
  namespace_prefix namespace_id +:+ WAL_DIRECTORY +:+ "/".

Definition wal_object (namespace_id : NamespaceId) (wal_no : N) : string :=
  wal_prefix namespace_id +:+ fmt_dec 20 wal_no +:+ WAL_SUFFIX.

Definition hint (namespace_id : NamespaceId) : string := namespace_prefix namespace_id +:+ HINT_NAME.

Definition metadata_manifest_prefix (namespace_id : NamespaceId) : string :=
  namespace_prefix namespace_id +:+ MANIFEST_DIRECTORY +:+ "/".

Definition metadata_segment_prefix (namespace_id : NamespaceId) : string :=
  namespace_prefix namespace_id +:+ SEGMENT_DIRECTORY +:+ "/".

Definition metadata_manifest_object (namespace_id : NamespaceId) (manifest_no : N) : string :=
  metadata_manifest_prefix namespace_id +:+ fmt_dec 20 manifest_no +:+ MANIFEST_SUFFIX.

Definition metadata_segment (namespace_id : NamespaceId) (metadata_segment_id : string) : string :=
  metadata_segment_prefix namespace_id +:+ metadata_segment_id +:+ SEGMENT_SUFFIX.

Definition pin_prefix (namespace_id : NamespaceId) : string :=
  namespace_prefix namespace_id +:+ PIN_DIRECTORY +:+ "/".

Definition pin (namespace_id : NamespaceId) (pin_id : string) : string :=
  pin_prefix namespace_id +:+ pin_id +:+ PIN_SUFFIX.

Definition upload_session_prefix (family_root_id : NamespaceId) : string :=
  namespace_prefix family_root_id +:+ UPLOAD_DIRECTORY +:+ "/".

Definition upload_session (family_root_id : NamespaceId) (upload_id : string) : string :=
  upload_session_prefix family_root_id +:+ upload_id +:+ UPLOAD_SESSION_SUFFIX.

Definition upload_outcome (family_root_id : NamespaceId) (upload_id : string) : string :=
  upload_session_prefix family_root_id +:+ upload_id +:+ UPLOAD_OUTCOME_SUFFIX.

Definition content_prefix (family_root_id : NamespaceId) : string :=
  namespace_prefix family_root_id +:+ CONTENT_DIRECTORY +:+ "/".

Definition content_blob_name (content_id : ContentId) : string := content_id.

Definition content_blob (family_root_id : NamespaceId) (content_id : ContentId) : string :=
  content_prefix family_root_id +:+ content_blob_name content_id.

Definition content_span_name (content_id : ContentId) (start end_ : N) : string :=
  content_id +:+ "-" +:+ fmt_dec 20 start +:+ "-" +:+ fmt_dec 20 end_.

Definition content_span (family_root_id : NamespaceId) (content_id : ContentId) (start end_ : N) : string :=
  content_prefix family_root_id +:+ content_span_name content_id start end_.

Definition temporary_prefix (namespace_id : NamespaceId) : string :=
  namespace_prefix namespace_id +:+ TEMPORARY_DIRECTORY +:+ "/".

(** With the random value that [generated_id] draws as an argument. *)
Definition temporary_object (namespace_id : NamespaceId) (random : N) : string :=
  temporary_prefix namespace_id +:+ generated_id "tmp" random.

Definition probe_runs_prefix : string := PROBE_RUN_PREFIX +:+ "/".

Definition probe_run_prefix (run_id : string) : string := PROBE_RUN_PREFIX +:+ "/" +:+ run_id +:+ "/".
End keys.
Import keys.

(** ** The key grammar *)

(** Slices of a string: [&s[..n]] and [&s[n..]]. *)
Fixpoint str_take (n : nat) (s : string) : string :=
  match n, s with
  | S n, String b rest => String b (str_take n rest)
  | _, _ => EmptyString
  end.
Fixpoint str_drop (n : nat) (s : string) : string :=
  match n, s with
  | S n, String _ rest => str_drop n rest
  | O, _ => s
  | S _, EmptyString => EmptyString
  end.

(** [str::strip_suffix]. *)
Definition strip_suffix (suffix value : string) : option string :=
  let n := (String.length value - String.length suffix)%nat in
  if bool_decide (String.length suffix ≤ String.length value)%nat && bool_decide (str_drop n value = suffix)
  then Some (str_take n value) else None.

Definition CONTENT_ID_BYTES : nat := String.length "con_" + GENERATED_ID_BODY_BYTES.
Definition CONTENT_SPAN_NAME_BYTES : nat := CONTENT_ID_BYTES + 2 * 21.

Inductive DurableObjectFamily : Set :=
| FamWalObject | FamHint | FamMetadataManifest | FamMetadataSegment | FamExtensionSegment | FamPin
| FamUploadSession | FamUploadOutcome | FamContentBlob | FamTemporaryObject.
#[export] Instance DurableObjectFamily_eq_dec : EqDecision DurableObjectFamily.
Proof. solve_decision. Defined.

Record ParsedObjectKey := parsed {
  pk_family : DurableObjectFamily;
  pk_prefix_namespace_id : string;
  pk_identifier : option string;
}.

(** [u8::is_ascii]. *)
Definition is_ascii_byte (b : ascii) : bool := bool_decide (N_of_ascii b < 128).

Definition parse_fixed_width_no (text : string) : option N :=
  if bool_decide (String.length text ≠ 20%nat) || negb (all_bytes is_digit_byte text) then None
  else parse_u64 text.

Definition ordinal_ok (r : res PublicOrdinalRangeError N) : option N :=
  match r with Ok n => Some n | _ => None end.

Definition parse_wal_no (number : string) : option N :=
  number ← parse_fixed_width_no number;
  number ← ordinal_ok (ordinal_parse number);
  if decide (0 < number) then Some number else None.

(** The guard of the span arm. *)
Definition is_span_name (object : string) : bool :=
  bool_decide (String.length object = CONTENT_SPAN_NAME_BYTES)
  && all_bytes is_ascii_byte object
  && bool_decide (String.get CONTENT_ID_BYTES object = Some "-"%char)
  && bool_decide (String.get (CONTENT_ID_BYTES + 21) object = Some "-"%char)
  && all_bytes is_digit_byte (str_take 20 (str_drop (CONTENT_ID_BYTES + 1) object))
  && all_bytes is_digit_byte (str_drop (CONTENT_ID_BYTES + 22) object).

(** The arms of [parse_object_key] with four segments, in their order. *)
Definition parse_in_directory (namespace directory object : string) : option ParsedObjectKey :=
  if bool_decide (directory = CONTENT_DIRECTORY) && bool_decide (String.length object = CONTENT_ID_BYTES) then
    Some (parsed FamContentBlob namespace (Some object))
  else if bool_decide (directory = CONTENT_DIRECTORY) && is_span_name object then
    Some (parsed FamContentBlob namespace (Some (str_take CONTENT_ID_BYTES object)))
  else if decide (directory = WAL_DIRECTORY) then
    (λ identifier, parsed FamWalObject namespace (Some identifier)) <$>
      option_filter (λ identifier, bool_decide (is_Some (parse_wal_no identifier)))
        (strip_suffix WAL_SUFFIX object)
  else if decide (directory = MANIFEST_DIRECTORY) then
    (λ identifier, parsed FamMetadataManifest namespace (Some identifier)) <$>
      strip_suffix MANIFEST_SUFFIX object
  else if decide (directory = SEGMENT_DIRECTORY) then
    (λ identifier, parsed FamMetadataSegment namespace (Some identifier)) <$>
      strip_suffix SEGMENT_SUFFIX object
  else if decide (directory = PIN_DIRECTORY) then
    (λ identifier, parsed FamPin namespace (Some identifier)) <$> strip_suffix PIN_SUFFIX object
  else if decide (directory = UPLOAD_DIRECTORY) then
    match strip_suffix UPLOAD_OUTCOME_SUFFIX object with
    | Some identifier => Some (parsed FamUploadOutcome namespace (Some identifier))
    | None =>
        (λ identifier, parsed FamUploadSession namespace (Some identifier)) <$>
          strip_suffix UPLOAD_SESSION_SUFFIX object
    end
  else if decide (directory = TEMPORARY_DIRECTORY) then
    Some (parsed FamTemporaryObject namespace (Some object))
  else None.

Definition parse_object_key (key : string) : option ParsedObjectKey :=
  match split_char "/" key with
  | [first; namespace; directory; object] =>
      if decide (first = NAMESPACES_DIRECTORY) then parse_in_directory namespace directory object else None
  | [first; namespace; name] =>
      if decide (first = NAMESPACES_DIRECTORY ∧ name = HINT_NAME) then Some (parsed FamHint namespace None)
      else None
  | [first; namespace; directory; _; segments; segment] =>
      if decide (first = NAMESPACES_DIRECTORY ∧ directory = EXTENSIONS_DIRECTORY
                 ∧ segments = SEGMENT_DIRECTORY) then
        (λ identifier, parsed FamExtensionSegment namespace (Some identifier)) <$>
          strip_suffix SEGMENT_SUFFIX segment
      else None
  | _ => None
  end.

Definition wal_no_of (key : string) : option N :=
  parsed ← parse_object_key key;
  if decide (parsed.(pk_family) ≠ FamWalObject) then None
  else parsed.(pk_identifier) ≫= parse_wal_no.

Definition manifest_no_of (key : string) : option N :=
  parsed ← parse_object_key key;
  if decide (parsed.(pk_family) ≠ FamMetadataManifest) then None
  else
    identifier ← parsed.(pk_identifier);
    number ← parse_fixed_width_no identifier;
    ordinal_ok (ordinal_parse number).

(** [parse(identifier).ok()]: the ID when it is valid. *)
Definition parsed_id (parse : string → res ValidationError unit) (identifier : string) : option string :=
  match parse identifier with Ok _ => Some identifier | _ => None end.

Definition upload_id_in (key : string) (family : DurableObjectFamily) : option string :=
  parsed ← option_filter (λ parsed, bool_decide (parsed.(pk_family) = family)) (parse_object_key key);
  parsed.(pk_identifier) ≫= parsed_id UploadId_parse.
Definition upload_id_of (key : string) : option string := upload_id_in key FamUploadSession.
Definition upload_outcome_id_of (key : string) : option string := upload_id_in key FamUploadOutcome.

Definition content_id_of (key : string) : option ContentId :=
  parsed ← option_filter (λ parsed, bool_decide (parsed.(pk_family) = FamContentBlob)) (parse_object_key key);
  parsed.(pk_identifier) ≫= parsed_id ContentId_parse.

(** [list_namespace_ids]: [list_child_prefixes] is the store's listing of one
    level of the key tree. *)
Definition NAMESPACES_PREFIX : string := "namespaces/".
Definition MAX_NAMESPACE_IDS_PER_PAGE : N := 1000.
Record NamespaceIdPage := mkNamespaceIdPage {
  nip_namespace_ids : list NamespaceId;
  nip_skipped_entries : nat;
  nip_next_cursor : option string;
}.
Definition cursor_after (namespace_id : NamespaceId) : string := namespace_prefix namespace_id.
Definition list_namespace_ids {Er : Type}
    (list_child_prefixes : string → option string → N → res Er (list string * option string))
    (start_after : option string) (limit : N) : res Er NamespaceIdPage :=
  '(items, next_cursor) ← list_child_prefixes NAMESPACES_PREFIX start_after (N.min limit MAX_NAMESPACE_IDS_PER_PAGE);
  let namespace_ids :=
    omap (λ child,
      name ← strip_prefix NAMESPACES_PREFIX child;
      name ← strip_suffix "/" name;
      parsed_id validate_namespace_id name) items in
  Ok {| nip_namespace_ids := namespace_ids; nip_skipped_entries := length items - length namespace_ids;
        nip_next_cursor := next_cursor |}.

(** ** Scopes *)
Inductive TrailingSeparator : Set := SeparatorAllowed | SeparatorRefused.
#[export] Instance TrailingSeparator_eq_dec : EqDecision TrailingSeparator.
Proof. solve_decision. Defined.

(** [ObjectStoreError::InvalidKey]. *)
Record InvalidKey := mkInvalidKey { ik_object_key : string; ik_message : string }.

Fixpoint check_segments (key : string) (trailing_separator : TrailingSeparator) (raw_segments : list string)
    : res InvalidKey (list string) :=
  match raw_segments with
  | [] => Ok []
  | segment :: rest =>
      if decide (segment = "") then
        if bool_decide (trailing_separator = SeparatorAllowed) && bool_decide (rest = []) then Ok []
        else Err (mkInvalidKey key "key must not contain empty segments")
      else if decide (segment = "." ∨ segment = "..") then
        Err (mkInvalidKey key "key must not contain `.` or `..` segments")
      else
        segments ← check_segments key trailing_separator rest;
        Ok (segment :: segments)
  end.
Definition validate_segments (key : string) (trailing_separator : TrailingSeparator)
    : res InvalidKey (list string) :=
  if decide (key = "") then Ok [] else check_segments key trailing_separator (split_char "/" key).

Record KeyScope := mkKeyScope { ks_prefix : option string }.
Record ScopedListing := mkScopedListing { sl_prefix : string; sl_start_after : option string }.

Definition KeyScope_new (raw : option string) : res InvalidKey KeyScope :=
  match raw with
  | Some raw =>
      if is_blank raw then Ok (mkKeyScope None)
      else
        segments ← validate_segments raw SeparatorRefused;
        Ok (mkKeyScope (Some (join_strings "/" segments)))
  | None => Ok (mkKeyScope None)
  end.

Definition scoped_object_key (scope : KeyScope) (key : string) : res InvalidKey string :=
  _ ← validate_segments key SeparatorRefused;
  Ok (match scope.(ks_prefix) with
      | Some prefix => if decide (key = "") then prefix else prefix +:+ "/" +:+ key
      | None => key
      end).

Definition listing_prefix (scope : KeyScope) (prefix : string) : res InvalidKey string :=
  _ ← validate_segments prefix SeparatorAllowed;
  Ok (match scope.(ks_prefix) with
      | Some scope => if decide (prefix = "") then scope +:+ "/" else scope +:+ "/" +:+ prefix
      | None => prefix
      end).

Definition child_listing_prefix (scope : KeyScope) (prefix : string) : res InvalidKey string :=
  if decide (prefix ≠ "" ∧ ends_with_char "/" prefix = false) then
    Err (mkInvalidKey prefix "a child-prefix listing needs an empty prefix or one ending with `/`")
  else listing_prefix scope prefix.

Definition scope_listing (scope : KeyScope) (prefix : string) (start_after : option string)
    : res InvalidKey ScopedListing :=
  prefix ← listing_prefix scope prefix;
  start_after ← match start_after with
                | Some key => key ← scoped_object_key scope key; Ok (Some key)
                | None => Ok None
                end;
  Ok (mkScopedListing prefix start_after).

Definition unscope (scope : KeyScope) (scoped_key : string) : option string :=
  match scope.(ks_prefix) with
  | Some prefix => rest ← strip_prefix prefix scoped_key; strip_prefix "/" rest
  | None => Some scoped_key
  end.

(** ** Abstract names *)
Inductive object_name : Set :=
| WalName (namespace_id : NamespaceId) (wal_no : N)
| HintName (namespace_id : NamespaceId)
| ManifestName (namespace_id : NamespaceId) (manifest_no : N)
| SegmentName (namespace_id : NamespaceId) (segment_id : string)
| ExtensionSegmentName (namespace_id : NamespaceId) (name segment_id : string)
| PinName (namespace_id : NamespaceId) (pin_id : string)
| UploadSessionName (family_root_id : NamespaceId) (upload_id : string)
| UploadOutcomeName (family_root_id : NamespaceId) (upload_id : string)
| BlobName (family_root_id : NamespaceId) (content_id : ContentId)
| SpanName (family_root_id : NamespaceId) (content_id : ContentId) (start end_ : N)
| TemporaryName (namespace_id : NamespaceId) (temporary_id : string).

Definition object_key (o : object_name) : string :=
  match o with
  | WalName ns n => wal_object ns n
  | HintName ns => hint ns
  | ManifestName ns n => metadata_manifest_object ns n
  | SegmentName ns id => metadata_segment ns id
  | ExtensionSegmentName ns name id => extension_segment ns name id
  | PinName ns id => pin ns id
  | UploadSessionName root id => upload_session root id
  | UploadOutcomeName root id => upload_outcome root id
  | BlobName root id => content_blob root id
  | SpanName root id s e => content_span root id s e
  | TemporaryName ns id => temporary_prefix ns +:+ id
  end.

(** What the classifier reports of a name. *)
Definition object_parsed (o : object_name) : ParsedObjectKey :=
  match o with
  | WalName ns n => parsed FamWalObject ns (Some (fmt_dec 20 n))
  | HintName ns => parsed FamHint ns None
  | ManifestName ns n => parsed FamMetadataManifest ns (Some (fmt_dec 20 n))
  | SegmentName ns id => parsed FamMetadataSegment ns (Some id)
  | ExtensionSegmentName ns _ id => parsed FamExtensionSegment ns (Some id)
  | PinName ns id => parsed FamPin ns (Some id)
  | UploadSessionName root id => parsed FamUploadSession root (Some id)
  | UploadOutcomeName root id => parsed FamUploadOutcome root (Some id)
  | BlobName root id | SpanName root id _ _ => parsed FamContentBlob root (Some id)
  | TemporaryName ns id => parsed FamTemporaryObject ns (Some id)
  end.

(** Names made of validated parts. *)
Definition object_wf (o : object_name) : Prop :=
  match o with
  | WalName ns n => validate_namespace_id ns = Ok () ∧ 0 < n ≤ MAX_PUBLIC_INTEGER
  | HintName ns => validate_namespace_id ns = Ok ()
  | ManifestName ns n => validate_namespace_id ns = Ok () ∧ n ≤ MAX_PUBLIC_INTEGER
  | SegmentName ns id => validate_namespace_id ns = Ok () ∧ MetadataSegmentId_parse id = Ok ()
  | ExtensionSegmentName ns name id =>
      validate_namespace_id ns = Ok () ∧ validate_extension_name name = Ok () ∧ IndexSegmentId_parse id = Ok ()
  | PinName ns id => validate_namespace_id ns = Ok () ∧ validate_pin_id id = Ok ()
  | UploadSessionName ns id | UploadOutcomeName ns id =>
      validate_namespace_id ns = Ok () ∧ UploadId_parse id = Ok ()
  | BlobName ns id => validate_namespace_id ns = Ok () ∧ ContentId_parse id = Ok ()
  | SpanName ns id s e =>
      validate_namespace_id ns = Ok () ∧ ContentId_parse id = Ok () ∧ s ≤ U64_MAX ∧ e ≤ U64_MAX
  | TemporaryName ns id => validate_namespace_id ns = Ok () ∧ validate_generated_id "tmp" id = Ok ()
  end.

(** The path segments of a key. *)
Definition object_segments (o : object_name) : list string :=
  match o with
  | WalName ns n => [NAMESPACES_DIRECTORY; ns; WAL_DIRECTORY; fmt_dec 20 n +:+ WAL_SUFFIX]
  | HintName ns => [NAMESPACES_DIRECTORY; ns; HINT_NAME]
  | ManifestName ns n => [NAMESPACES_DIRECTORY; ns; MANIFEST_DIRECTORY; fmt_dec 20 n +:+ MANIFEST_SUFFIX]
  | SegmentName ns id => [NAMESPACES_DIRECTORY; ns; SEGMENT_DIRECTORY; id +:+ SEGMENT_SUFFIX]
  | ExtensionSegmentName ns name id =>
      [NAMESPACES_DIRECTORY; ns; EXTENSIONS_DIRECTORY; name; SEGMENT_DIRECTORY; id +:+ SEGMENT_SUFFIX]
  | PinName ns id => [NAMESPACES_DIRECTORY; ns; PIN_DIRECTORY; id +:+ PIN_SUFFIX]
  | UploadSessionName ns id => [NAMESPACES_DIRECTORY; ns; UPLOAD_DIRECTORY; id +:+ UPLOAD_SESSION_SUFFIX]
  | UploadOutcomeName ns id => [NAMESPACES_DIRECTORY; ns; UPLOAD_DIRECTORY; id +:+ UPLOAD_OUTCOME_SUFFIX]
  | BlobName ns id => [NAMESPACES_DIRECTORY; ns; CONTENT_DIRECTORY; id]
  | SpanName ns id s e => [NAMESPACES_DIRECTORY; ns; CONTENT_DIRECTORY; content_span_name id s e]
  | TemporaryName ns id => [NAMESPACES_DIRECTORY; ns; TEMPORARY_DIRECTORY; id]
  end.

(** ** Strings *)
Lemma str_take_app a b : str_take (String.length a) (a +:+ b) = a.
Proof. induction a as [|x a IH]; [by destruct b|]. rewrite string_app_cons. cbn. by rewrite IH. Qed.

Lemma str_drop_app a b : str_drop (String.length a) (a +:+ b) = b.
Proof. induction a as [|x a IH]; [by destruct b|]. rewrite string_app_cons. cbn. by rewrite IH. Qed.

Lemma str_take_drop n s : str_take n s +:+ str_drop n s = s.
Proof.
  revert s. induction n as [|n IH]; intros [|b s]; try done. cbn [str_take str_drop].
  by rewrite string_app_cons, IH.
Qed.

Lemma str_drop_add n m s : str_drop m (str_drop n s) = str_drop (n + m) s.
Proof. revert s. induction n as [|n IH]; intros [|b s]; try done; [by destruct m|apply IH]. Qed.

Lemma string_get_app a c b : String.get (String.length a) (a +:+ String c b) = Some c.
Proof. induction a as [|x a IH]; [done|]. rewrite string_app_cons. cbn. by rewrite IH. Qed.

Lemma strip_suffix_app suffix s : strip_suffix suffix (s +:+ suffix) = Some s.
Proof.
  unfold strip_suffix. rewrite string_length_app.
  replace (String.length s + String.length suffix - String.length suffix)%nat with (String.length s) by lia.
  rewrite str_drop_app, str_take_app, !bool_decide_true by (done || lia). done.
Qed.

Lemma strip_suffix_Some suffix value s : strip_suffix suffix value = Some s → value = s +:+ suffix.
Proof.
  unfold strip_suffix. case_bool_decide; [|done]. case_bool_decide as E; [|done]. cbn [andb]. intros [= <-].
  rewrite <-(str_take_drop (String.length value - String.length suffix) value) at 1. by rewrite E.
Qed.

Lemma string_app_inj_r (a b s : string) : a +:+ s = b +:+ s → a = b.
Proof.
  intros E. assert (String.length a = String.length b) as El.
  { apply (f_equal String.length) in E. rewrite !string_length_app in E. lia. }
  rewrite <-(str_take_app a s), <-(str_take_app b s), E. by rewrite El.
Qed.

Lemma string_app_inj_len (a b x y : string) :
  String.length a = String.length b → a +:+ x = b +:+ y → a = b ∧ x = y.
Proof.
  intros El E. split.
  - by rewrite <-(str_take_app a x), E, El, str_take_app.
  - by rewrite <-(str_drop_app a x), E, El, str_drop_app.
Qed.

Lemma fmt_dec_inj width n m :
  (0 < width)%nat → n < 10 ^ N.of_nat width → m < 10 ^ N.of_nat width → fmt_dec width n = fmt_dec width m → n = m.
Proof.
  intros Hw Hn Hm E. apply N.compare_eq_iff. rewrite <-(fmt_dec_cmp width) by done. by rewrite E, string_cmp_refl.
Qed.

(** ** Keys and their segments *)
Definition no_slash (s : string) : Prop := contains_char "/" s = false.

Lemma fmt_dec_no_slash n : n ≤ U64_MAX → no_slash (fmt_dec 20 n).
Proof.
  intros Hn. apply (all_bytes_not_contains is_digit_byte); [|done]. apply digits_fmt_dec; [lia|].
  unfold U64_MAX in Hn. cbn in *. lia.
Qed.

Lemma no_slash_app a b : no_slash a → no_slash b → no_slash (a +:+ b).
Proof. unfold no_slash. rewrite contains_char_app. by intros -> ->. Qed.

Lemma random_uuid_v4_le random : random ≤ U128_MAX → random_uuid_v4 random ≤ U128_MAX.
Proof.
  intros _. unfold random_uuid_v4. set (a := N.lor _ (N.shiftl 0x40 72)). clearbody a.
  assert (∀ x m y, m ≤ U128_MAX → y ≤ U128_MAX → N.lor (N.land x m) y ≤ U128_MAX) as Hle.
  { intros x m y Hm Hy. change U128_MAX with (N.ones 128) in *.
    apply N.lt_succ_r. change (N.succ (N.ones 128)) with (2 ^ 128).
    apply N.lt_succ_r in Hm, Hy. change (N.succ (N.ones 128)) with (2 ^ 128) in *.
    destruct (N.eq_dec (N.lor (N.land x m) y) 0) as [->|Hne]; [done|].
    apply N.log2_lt_pow2; [lia|]. rewrite N.log2_lor. apply N.max_lub_lt.
    - eapply N.le_lt_trans; [apply N.log2_land|]. apply N.min_lt_iff. right.
      destruct (N.eq_dec m 0) as [->|]; [done|]. apply N.log2_lt_pow2; lia.
    - destruct (N.eq_dec y 0) as [->|]; [done|]. apply N.log2_lt_pow2; lia. }
  apply Hle; vm_compute; done.
Qed.

Lemma generated_id_valid prefix random :
  random ≤ U128_MAX → validate_generated_id prefix (generated_id prefix random) = Ok ().
Proof.
  intros Hr. unfold validate_generated_id, generated_id. rewrite <-string_app_assoc, strip_prefix_app.
  fold (encode_generated_id_body (random_uuid_v4 random)).
  by rewrite encoded_body_valid by (by apply random_uuid_v4_le).
Qed.

Lemma wf_no_slash o : object_wf o → Forall no_slash (object_segments o).
Proof.
  assert (∀ n, n ≤ MAX_PUBLIC_INTEGER → n ≤ U64_MAX) as Hmax.
  { unfold MAX_PUBLIC_INTEGER, U64_MAX. cbn. lia. }
  destruct o; cbn [object_wf object_segments]; intros Hwf; repeat (constructor || apply Forall_nil_2);
    try done; try (destruct_and? Hwf; by apply namespace_id_no_slash);
    try (by apply namespace_id_no_slash); try (apply no_slash_app; [|done]); destruct_and? Hwf.
  - apply fmt_dec_no_slash. auto with lia.
  - apply fmt_dec_no_slash. auto.
  - by eapply (generated_id_lacks "/" "seg").
  - by apply extension_name_no_slash.
  - by eapply (generated_id_lacks "/" "idx").
  - by apply pin_id_no_slash.
  - by eapply (generated_id_lacks "/" "upl").
  - by eapply (generated_id_lacks "/" "upl").
  - by eapply (generated_id_lacks "/" "con").
  - unfold content_span_name. repeat apply no_slash_app; try done; [|by apply fmt_dec_no_slash..].
    by eapply (generated_id_lacks "/" "con").
  - by eapply (generated_id_lacks "/" "tmp").
Qed.

Lemma object_key_join o : object_key o = join_strings "/" (object_segments o).
Proof.
  destruct o; cbn [object_key object_segments join_strings];
    unfold wal_object, wal_prefix, hint, metadata_manifest_object, metadata_manifest_prefix, metadata_segment,
      metadata_segment_prefix, extension_segment, extension_segment_prefix, extension_prefix, extensions_prefix,
      pin, pin_prefix, upload_session, upload_outcome, upload_session_prefix, content_blob, content_span,
      content_prefix, content_blob_name, temporary_prefix, namespace_prefix;
    by rewrite ?string_app_assoc.
Qed.

Lemma split_object_key o : object_wf o → split_char "/" (object_key o) = object_segments o.
Proof.
  intros Hwf%wf_no_slash. rewrite object_key_join. apply (split_join "/"); [|done]. by destruct o.
Qed.

(** ** Classification *)
Lemma u64_width n : n ≤ U64_MAX → n < 10 ^ N.of_nat 20.
Proof. unfold U64_MAX. cbn. lia. Qed.

Lemma public_u64 n : n ≤ MAX_PUBLIC_INTEGER → n ≤ U64_MAX.
Proof. unfold MAX_PUBLIC_INTEGER, U64_MAX. cbn. lia. Qed.

Lemma parse_fixed_width_fmt n : n ≤ U64_MAX → parse_fixed_width_no (fmt_dec 20 n) = Some n.
Proof.
  intros Hn. unfold parse_fixed_width_no. pose proof (u64_width _ Hn) as Hw.
  rewrite fmt_dec_length, digits_fmt_dec by (done || lia). cbn [negb orb].
  rewrite bool_decide_false by lia. apply parse_fmt_dec; [lia|done|done].
Qed.

Lemma parse_fixed_width_Some text n :
  parse_fixed_width_no text = Some n → text = fmt_dec 20 n ∧ n ≤ U64_MAX.
Proof.
  unfold parse_fixed_width_no. case_bool_decide as El; [done|]. destruct (all_bytes is_digit_byte text) eqn:Ed; [|done].
  cbn [orb negb]. intros Hp. assert (String.length text = 20%nat) as El' by lia.
  destruct (parse_u64_digits _ _ Ed Hp) as (_ & Ht & _). rewrite El' in Ht. split; [done|].
  clear -Hp Ed. destruct text as [|b rest]; [done|]. cbn [parse_u64] in Hp.
  assert (∀ s v, v ≤ U64_MAX → dec_value v s = Some n → n ≤ U64_MAX) as Hle.
  { clear. induction s as [|c s IH]; intros v Hv; cbn [dec_value]; [by intros [= <-]|].
    destruct (is_digit_byte c); [|done]. case_decide; [|done]. by apply IH. }
  case_decide; [subst; by cbn in Ed|]. by eapply (Hle _ 0).
Qed.

Lemma parse_wal_no_fmt n : 0 < n ≤ MAX_PUBLIC_INTEGER → parse_wal_no (fmt_dec 20 n) = Some n.
Proof.
  intros [Hpos Hn]. unfold parse_wal_no. rewrite parse_fixed_width_fmt by (by apply public_u64).
  cbn [mbind option_bind]. unfold ordinal_parse. rewrite decide_False by lia. cbn. by rewrite decide_True.
Qed.

Lemma content_id_length id : ContentId_parse id = Ok () → String.length id = CONTENT_ID_BYTES.
Proof.
  intros (body & -> & Hb)%validate_generated_id_Ok. rewrite !string_length_app, (generated_id_body_length body) by done.
  done.
Qed.

Lemma generated_body_ascii body : generated_id_body_error body = None → all_bytes is_ascii_byte body = true.
Proof.
  unfold generated_id_body_error. destruct (all_in_alphabet body) eqn:E; [|by rewrite orb_true_r].
  intros _. revert E. induction body as [|b body IH]; [done|]. cbn [all_in_alphabet all_bytes].
  intros [Hb Hbody]%andb_true_iff. rewrite IH, andb_true_r by done.
  apply bool_decide_eq_true in Hb as [d [Hd <-]%char_position_Some].
  assert (∀ n, (n < 32)%nat → is_ascii_byte (char_at GENERATED_ID_ALPHABET (N.of_nat n)) = true) as Hall.
  { intros n Hn. do 32 (destruct n as [|n]; [done|]). lia. }
  rewrite <-(N2Nat.id d). apply Hall. cbn in Hd. lia.
Qed.

Lemma digits_ascii s : all_bytes is_digit_byte s = true → all_bytes is_ascii_byte s = true.
Proof.
  apply all_bytes_impl. intros b. unfold is_digit_byte, is_ascii_digit, is_ascii_byte.
  rewrite !bool_decide_eq_true. lia.
Qed.

Lemma span_name_recognized id s e :
  ContentId_parse id = Ok () → s ≤ U64_MAX → e ≤ U64_MAX →
  is_span_name (content_span_name id s e) = true ∧
  str_take CONTENT_ID_BYTES (content_span_name id s e) = id ∧
  String.length (content_span_name id s e) = CONTENT_SPAN_NAME_BYTES.
Proof.
  intros Hid Hs He. pose proof (content_id_length _ Hid) as Hlen.
  pose proof (u64_width _ Hs) as Hs'. pose proof (u64_width _ He) as He'.
  assert (String.length (fmt_dec 20 s) = 20%nat) as Ls by (apply fmt_dec_length; [lia|done]).
  assert (String.length (fmt_dec 20 e) = 20%nat) as Le by (apply fmt_dec_length; [lia|done]).
  assert (all_bytes is_digit_byte (fmt_dec 20 s) = true) as Ds by (apply digits_fmt_dec; [lia|done]).
  assert (all_bytes is_digit_byte (fmt_dec 20 e) = true) as De by (apply digits_fmt_dec; [lia|done]).
  unfold content_span_name in *. set (a := fmt_dec 20 s) in *. set (b := fmt_dec 20 e) in *. clearbody a b.
  assert (String.length (id +:+ "-" +:+ a +:+ "-" +:+ b) = CONTENT_SPAN_NAME_BYTES) as Lall.
  { rewrite !string_length_app, Hlen, Ls, Le. done. }
  split_and!; [|rewrite <-Hlen; apply str_take_app|done].
  unfold is_span_name. rewrite (bool_decide_true _ Lall).
  assert (all_bytes is_ascii_byte (id +:+ "-" +:+ a +:+ "-" +:+ b) = true) as ->.
  { rewrite !all_bytes_app, (digits_ascii a), (digits_ascii b) by done.
    apply validate_generated_id_Ok in Hid as (body & -> & Hb). rewrite !all_bytes_app, (generated_body_ascii body) by done.
    done. }
  set (name := id +:+ "-" +:+ a +:+ "-" +:+ b).
  assert (String.get CONTENT_ID_BYTES name = Some "-"%char) as G1 by (rewrite <-Hlen; apply string_get_app).
  assert (String.get (CONTENT_ID_BYTES + 21) name = Some "-"%char) as G2.
  { replace name with ((id +:+ "-" +:+ a) +:+ String "-" b) by (unfold name; by rewrite !string_app_assoc).
    replace (CONTENT_ID_BYTES + 21)%nat with (String.length (id +:+ "-" +:+ a)); [apply string_get_app|].
    rewrite !string_length_app, Ls, Hlen. done. }
  assert (str_drop (CONTENT_ID_BYTES + 1) name = a +:+ "-" +:+ b) as ->.
  { replace (CONTENT_ID_BYTES + 1)%nat with (String.length (id +:+ "-")) by (by rewrite string_length_app, Hlen).
    unfold name. rewrite <-(string_app_assoc id "-"). apply str_drop_app. }
  assert (str_drop (CONTENT_ID_BYTES + 22) name = b) as ->.
  { replace (CONTENT_ID_BYTES + 22)%nat with (String.length (id +:+ "-" +:+ a +:+ "-"))
      by (by rewrite !string_length_app, Hlen, Ls).
    replace name with ((id +:+ "-" +:+ a +:+ "-") +:+ b) by (unfold name; by rewrite !string_app_assoc).
    apply str_drop_app. }
  rewrite (bool_decide_true _ G1), (bool_decide_true _ G2), De. rewrite <-Ls, str_take_app, Ds. done.
Qed.

Lemma content_span_name_inj id id' s s' e e' :
  ContentId_parse id = Ok () → ContentId_parse id' = Ok () →
  s ≤ U64_MAX → s' ≤ U64_MAX → e ≤ U64_MAX → e' ≤ U64_MAX →
  content_span_name id s e = content_span_name id' s' e' → id = id' ∧ s = s' ∧ e = e'.
Proof.
  intros Hid Hid' Hs%u64_width Hs'%u64_width He%u64_width He'%u64_width E. unfold content_span_name in E.
  apply string_app_inj_len in E as [-> E]; [|by rewrite !content_id_length].
  apply string_app_inj_len in E as [_ E]; [|done].
  apply string_app_inj_len in E as [Es E]; [|by rewrite !fmt_dec_length by (done || lia)].
  apply string_app_inj_len in E as [_ Ee]; [|done].
  split_and!; [done|by apply (fmt_dec_inj 20); [lia|..]|by apply (fmt_dec_inj 20); [lia|..]].
Qed.

Lemma generated_length prefix id :
  validate_generated_id prefix id = Ok () → String.length id = (String.length prefix + 27)%nat.
Proof.
  intros (body & -> & Hb)%validate_generated_id_Ok. rewrite !string_length_app, (generated_id_body_length body) by done.
  cbn. lia.
Qed.


#[local] Arguments fmt_dec : simpl never.
#[local] Arguments strip_suffix : simpl never.
#[local] Arguments parse_wal_no : simpl never.
#[local] Arguments is_span_name : simpl never.
#[local] Arguments content_span_name : simpl never.
#[local] Arguments str_take : simpl never.

(** A session key is not an outcome key: no generated ID contains a dot. *)
Lemma session_not_outcome id :
  UploadId_parse id = Ok () → strip_suffix UPLOAD_OUTCOME_SUFFIX (id +:+ UPLOAD_SESSION_SUFFIX) = None.
Proof.
  intros Hid. destruct (strip_suffix _ _) as [s|] eqn:E; [|done]. apply strip_suffix_Some in E.
  change UPLOAD_OUTCOME_SUFFIX with (".outcome" +:+ UPLOAD_SESSION_SUFFIX) in E.
  rewrite <-string_app_assoc in E. apply string_app_inj_r in E.
  apply (generated_id_lacks "." "upl") in Hid; [|done|done]. by rewrite E, contains_char_app, orb_true_r in Hid.
Qed.

(** Decides the comparisons of directory names. *)
Ltac decide_directories :=
  repeat match goal with
  | |- context [decide (?a = ?b)] => rewrite (decide_True (P := a = b)) by reflexivity
  | |- context [decide (?a = ?b)] => rewrite (decide_False (P := a = b)) by discriminate
  | |- context [bool_decide (?a = ?b)] => rewrite (bool_decide_true (a = b)) by reflexivity
  | |- context [bool_decide (?a = ?b)] => rewrite (bool_decide_false (a = b)) by discriminate
  end; cbn [andb].

Lemma parse_object_key_key o : object_wf o → parse_object_key (object_key o) = Some (object_parsed o).
Proof.
  intros Hwf. unfold parse_object_key. rewrite split_object_key by done.
  destruct o; cbn [object_segments object_wf object_parsed] in *; rewrite ?decide_True by done; try done;
    unfold parse_in_directory; decide_directories; rewrite ?strip_suffix_app; try done.
  - destruct Hwf as [_ Hn]. cbn [option_filter].
    by rewrite bool_decide_true by (rewrite parse_wal_no_fmt by done; by eexists).
  - destruct Hwf as [_ Hid]. by rewrite session_not_outcome by done.
  - destruct Hwf as [_ Hid]. by rewrite bool_decide_true by (by apply content_id_length).
  - destruct Hwf as (_ & Hid & Hs & He). destruct (span_name_recognized _ _ _ Hid Hs He) as (E & Et & El).
    rewrite bool_decide_false by (rewrite El; vm_compute; lia). by rewrite E, Et.
Qed.

Lemma object_segments_inj o o' : object_wf o → object_wf o' → object_segments o = object_segments o' → o = o'.
Proof.
  intros Hwf Hwf' E. destruct o, o'; cbn [object_segments] in E; try discriminate E;
    cbn [object_wf] in *; simplify_list_eq; try done; destruct_and?.
  1,2: match goal with H : _ +:+ _ = _ |- _ => apply string_app_inj_r in H end; f_equal;
    (eapply fmt_dec_inj; [..|done]; [lia|apply u64_width, public_u64; lia..]).
  1,2,3,4,7: match goal with H : _ +:+ _ = _ |- _ => apply string_app_inj_r in H end; by f_equal.
  - pose proof (session_not_outcome upload_id ltac:(done)) as E. by rewrite H, strip_suffix_app in E.
  - pose proof (session_not_outcome upload_id0 ltac:(done)) as E. by rewrite <-H, strip_suffix_app in E.
  - destruct (span_name_recognized content_id0 start end_) as (_ & _ & E); [done..|].
    by rewrite content_id_length in E.
  - destruct (span_name_recognized content_id start end_) as (_ & _ & E); [done..|].
    by rewrite content_id_length in E.
  - destruct (content_span_name_inj content_id content_id0 start start0 end_ end_0) as (-> & -> & ->); done.
Qed.

(** *** The classifier's numbers *)
Lemma parse_wal_no_Some number n :
  parse_wal_no number = Some n → number = fmt_dec 20 n ∧ 0 < n ≤ MAX_PUBLIC_INTEGER.
Proof.
  unfold parse_wal_no. destruct (parse_fixed_width_no number) as [m|] eqn:E; [|done]. cbn [mbind option_bind].
  unfold ordinal_parse. destruct (decide (MAX_PUBLIC_INTEGER < m)); [done|]. cbn [ordinal_ok mbind option_bind].
  destruct (decide (0 < m)); [|done]. intros [= <-]. apply parse_fixed_width_Some in E as [-> _]. split; [done|lia].
Qed.

Lemma split_char_pieces c s : Forall (λ piece, contains_char c piece = false) (split_char c s).
Proof.
  induction s as [|d s IH]; [by constructor|]. cbn [split_char]. case_decide as E; [by constructor|].
  destruct IH as [|piece pieces Hp IH]; [constructor; [|done]; cbn; by rewrite bool_decide_false|].
  constructor; [|done]. cbn. by rewrite bool_decide_false, Hp.
Qed.

Lemma parse_in_directory_numbered namespace directory object p :
  parse_in_directory namespace directory object = Some p →
  p.(pk_prefix_namespace_id) = namespace ∧
  (p.(pk_family) = FamWalObject → directory = WAL_DIRECTORY ∧
     ∃ identifier, p.(pk_identifier) = Some identifier ∧ object = identifier +:+ WAL_SUFFIX) ∧
  (p.(pk_family) = FamMetadataManifest → directory = MANIFEST_DIRECTORY ∧
     ∃ identifier, p.(pk_identifier) = Some identifier ∧ object = identifier +:+ MANIFEST_SUFFIX).
Proof.
  unfold parse_in_directory.
  destruct (_ && bool_decide (String.length _ = _)); [by intros [= <-]|]. destruct (_ && _); [by intros [= <-]|].
  case_decide.
  { destruct (strip_suffix WAL_SUFFIX object) as [id|] eqn:E; [|done]. cbn [option_filter]. case_bool_decide; [|done].
    intros [= <-]. apply strip_suffix_Some in E. split_and!; [done| |done]. intros _. eauto. }
  case_decide.
  { intros (id & E%strip_suffix_Some & ->)%fmap_Some. split_and!; [done|done|]. intros _. eauto. }
  case_decide; [by intros (id & _ & ->)%fmap_Some|]. case_decide; [by intros (id & _ & ->)%fmap_Some|].
  case_decide.
  { destruct (strip_suffix UPLOAD_OUTCOME_SUFFIX object); [by intros [= <-]|]. by intros (id & _ & ->)%fmap_Some. }
  case_decide; [by intros [= <-]|done].
Qed.

Lemma parse_directory_key namespace directory object :
  no_slash namespace → no_slash directory → no_slash object →
  parse_object_key (namespace_prefix namespace +:+ directory +:+ "/" +:+ object) =
  parse_in_directory namespace directory object.
Proof.
  intros Hn Hd Ho. unfold parse_object_key.
  replace (namespace_prefix namespace +:+ directory +:+ "/" +:+ object)
    with (join_strings "/" [NAMESPACES_DIRECTORY; namespace; directory; object]).
  2:{ unfold namespace_prefix. by rewrite !string_app_assoc. }
  rewrite (split_join "/"); [|done|by repeat constructor]. by rewrite decide_True.
Qed.

(** A key of either numbered family, read back. *)
Lemma numbered_key key p :
  parse_object_key key = Some p →
  (p.(pk_family) = FamWalObject → ∃ namespace identifier, no_slash namespace ∧
     p.(pk_identifier) = Some identifier ∧ key = wal_prefix namespace +:+ identifier +:+ WAL_SUFFIX) ∧
  (p.(pk_family) = FamMetadataManifest → ∃ namespace identifier, no_slash namespace ∧
     p.(pk_identifier) = Some identifier ∧ key = metadata_manifest_prefix namespace +:+ identifier +:+ MANIFEST_SUFFIX).
Proof.
  intros H. pose proof (join_split "/" key) as Hkey. pose proof (split_char_pieces "/" key) as Hno.
  unfold parse_object_key in H. destruct (split_char "/" key) as [|s1 [|s2 [|s3 [|s4 [|s5 [|s6 [|]]]]]]]; try done.
  - case_decide; [|done]. by injection H as <-.
  - case_decide; [|done]. subst s1. apply parse_in_directory_numbered in H as (_ & Hw & Hm).
    inversion Hno as [|? ? _ Hno']; subst. inversion Hno' as [|? ? Hs2 _]; subst. cbn [join_strings].
    split; intros Hf; [destruct (Hw Hf) as (-> & id & Hid & ->)|destruct (Hm Hf) as (-> & id & Hid & ->)];
      exists s2, id; (split_and!; [done|done|]);
      unfold wal_prefix, metadata_manifest_prefix, namespace_prefix; by rewrite !string_app_assoc.
  - case_decide; [|done]. by apply fmap_Some in H as (id & _ & ->).
Qed.

(** ** The theorems *)

(** C40 The key of every durable object tells what the object is: the
    classifier returns its family, the namespace whose prefix holds it and its
    identifier, and no two objects with validated names share a key. *)
Theorem object_keys_name_objects (o o' : object_name) (Hwf : object_wf o) (Hwf' : object_wf o') :
  parse_object_key (object_key o) = Some (object_parsed o) ∧ (object_key o = object_key o' → o = o').
Proof.
  split; [by apply parse_object_key_key|]. intros E. apply object_segments_inj; [done..|].
  by rewrite <-!split_object_key, E.
Qed.

Lemma wal_no_of_key namespace n : no_slash namespace → 0 < n ≤ MAX_PUBLIC_INTEGER → wal_no_of (wal_object namespace n) = Some n.
Proof.
  intros Hns Hn. unfold wal_no_of.
  unfold wal_object, wal_prefix. rewrite !string_app_assoc, parse_directory_key;
    [|done|done|apply no_slash_app; [apply fmt_dec_no_slash, public_u64; lia|done]].
  unfold parse_in_directory. decide_directories. rewrite strip_suffix_app. cbn [option_filter].
  rewrite bool_decide_true by (rewrite parse_wal_no_fmt by done; by eexists).
  cbn [fmap option_fmap option_map mbind option_bind pk_family pk_identifier]. rewrite decide_False by (intros []; done). by apply parse_wal_no_fmt.
Qed.

(** Manifest and WAL numbers are read exactly: a listed key yields number
    [n] when, and only when, it is the key of object [n] under some namespace
    prefix, with [n] in the public range and, for the WAL, positive. *)
Theorem numbered_keys_exact (key : string) (n : N) :
  (manifest_no_of key = Some n ↔
     n ≤ MAX_PUBLIC_INTEGER ∧ ∃ namespace, no_slash namespace ∧ key = metadata_manifest_object namespace n) ∧
  (wal_no_of key = Some n ↔
     0 < n ≤ MAX_PUBLIC_INTEGER ∧ ∃ namespace, no_slash namespace ∧ key = wal_object namespace n).
Proof.
  split; split.
  - unfold manifest_no_of. destruct (parse_object_key key) as [p|] eqn:E; [|done]. cbn [mbind option_bind].
    destruct (decide (pk_family p ≠ FamMetadataManifest)) as [|Hf]; [done|]. apply dec_stable in Hf.
    destruct (proj2 (numbered_key _ _ E) Hf) as (namespace & id & Hns & -> & ->). cbn [mbind option_bind].
    destruct (parse_fixed_width_no id) as [m|] eqn:Em; [|done]. cbn [mbind option_bind]. unfold ordinal_parse.
    destruct (decide (MAX_PUBLIC_INTEGER < m)); [done|]. intros [= <-]. apply parse_fixed_width_Some in Em as [-> _].
    split; [lia|]. by exists namespace.
  - intros (Hn & namespace & Hns & ->). unfold manifest_no_of.
    unfold metadata_manifest_object, metadata_manifest_prefix. rewrite !string_app_assoc, parse_directory_key;
      [|done|done|by apply no_slash_app; [apply fmt_dec_no_slash, public_u64|]].
    unfold parse_in_directory. decide_directories. rewrite strip_suffix_app.
    cbn [fmap option_fmap option_map mbind option_bind pk_family pk_identifier]. rewrite decide_False by (intros []; done). rewrite parse_fixed_width_fmt by (by apply public_u64).
    cbn [mbind option_bind]. unfold ordinal_parse. by rewrite decide_False by lia.
  - unfold wal_no_of. destruct (parse_object_key key) as [p|] eqn:E; [|done]. cbn [mbind option_bind].
    destruct (decide (pk_family p ≠ FamWalObject)) as [|Hf]; [done|]. apply dec_stable in Hf.
    destruct (proj1 (numbered_key _ _ E) Hf) as (namespace & id & Hns & -> & ->). cbn [mbind option_bind].
    intros [-> Hn]%parse_wal_no_Some. split; [done|]. by exists namespace.
  - intros (Hn & namespace & Hns & ->). by apply wal_no_of_key.
Qed.

(** *** Upload records *)

(** Upload records pair up in listing order: keys of one family root sort
    by upload ID first, and a session's outcome record directly follows its
    session record. *)
Theorem upload_keys_pair (root id id' : string) (Hid : UploadId_parse id = Ok ()) (Hid' : UploadId_parse id' = Ok ()) :
  let rank (outcome : bool) := if outcome then 1 else 0 in
  let key (outcome : bool) (id : string) := if outcome then upload_outcome root id else upload_session root id in
  ∀ outcome outcome', cmp (key outcome id) (key outcome' id') = lex (cmp id id') (cmp (rank outcome) (rank outcome')).
Proof.
  intros rank key outcome outcome'.
  assert (∀ o i, key o i = upload_session_prefix root +:+ i +:+
    (if o then UPLOAD_OUTCOME_SUFFIX else UPLOAD_SESSION_SUFFIX)) as E by (by intros [] i).
  rewrite !E. unfold cmp, string_ord. rewrite string_cmp_prefix, string_cmp_app.
  - by destruct outcome, outcome'.
  - by rewrite (generated_length "upl" id), (generated_length "upl" id').
Qed.

(** ** Scopes *)
Definition good_segment (segment : string) : Prop := segment ≠ "" ∧ segment ≠ "." ∧ segment ≠ "..".

(** The keys that stores accept. *)
Definition good_key (key : string) : Prop := key = "" ∨ Forall good_segment (split_char "/" key).

Lemma check_segments_refused key raw segments :
  check_segments key SeparatorRefused raw = Ok segments ↔ segments = raw ∧ Forall good_segment raw.
Proof.
  revert segments. induction raw as [|s raw IH]; intros segments; cbn [check_segments].
  { split; [by intros [= <-]|by intros [-> _]]. }
  rewrite Forall_cons. destruct (decide (s = "")) as [->|Hne].
  { split; [done|]. by intros (_ & [] & _). }
  destruct (decide (s = "." ∨ s = "..")) as [Hdot|Hdot].
  { split; [done|]. intros (_ & (_ & ? & ?) & _). tauto. }
  split.
  - intros H. step_ok H rest Hrest. injection H as <-. apply IH in Hrest as [-> ?].
    split_and!; [done| |done]. split_and!; tauto.
  - intros (-> & _ & Hraw). by rewrite (proj2 (IH raw)).
Qed.

Lemma validate_segments_refused key :
  (∃ segments, validate_segments key SeparatorRefused = Ok segments) ↔ good_key key.
Proof.
  unfold validate_segments, good_key. case_decide as E; [naive_solver|]. split.
  - intros (segments & [_ ?]%check_segments_refused). by right.
  - intros [|Hg]; [done|]. exists (split_char "/" key). by apply check_segments_refused.
Qed.

Lemma split_char_join_two c a b : split_char c (a +:+ String c b) = split_char c a ++ split_char c b.
Proof.
  induction a as [|d a IH].
  { change (split_char c (String c b) = [""] ++ split_char c b). cbn. by rewrite decide_True. }
  rewrite string_app_cons. cbn [split_char]. rewrite IH. case_decide; [done|].
  destruct (split_char c a) eqn:E; [by apply split_char_nonempty in E|done].
Qed.

Lemma KeyScope_new_Ok raw scope prefix :
  KeyScope_new raw = Ok scope → scope.(ks_prefix) = Some prefix →
  prefix ≠ "" ∧ Forall good_segment (split_char "/" prefix).
Proof.
  unfold KeyScope_new. destruct raw as [raw|]; [|by intros [= <-]]. destruct (is_blank raw) eqn:Eb; [by intros [= <-]|].
  intros H. step_ok H segments Hs. injection H as <-. intros [= <-]. unfold validate_segments in Hs.
  destruct (decide (raw = "")) as [->|Hne]; [done|]. apply check_segments_refused in Hs as [-> Hg].
  by rewrite (join_split "/").
Qed.

(** A store's key prefix loses and adds no keys: a nonempty key that the
    scope accepts maps to a provider key that is itself well formed, [unscope]
    returns the key, every provider key that [unscope] accepts is the scope's
    spelling of what it returns, and a listing of a prefix selects exactly the
    provider keys of the keys with that prefix. *)
Theorem key_scope_exact (raw : option string) (scope : KeyScope) (key provider : string)
    (Hscope : KeyScope_new raw = Ok scope) (Hne : key ≠ "") :
  (scoped_object_key scope key = Ok provider →
     good_key provider ∧ unscope scope provider = Some key ∧
     ∀ prefix listed, listing_prefix scope prefix = Ok listed → starts_with provider listed = starts_with key prefix) ∧
  (unscope scope provider = Some key → good_key key → scoped_object_key scope key = Ok provider).
Proof.
  unfold scoped_object_key, listing_prefix, unscope. destruct (ks_prefix scope) as [p|] eqn:Ep.
  - destruct (KeyScope_new_Ok _ _ _ Hscope Ep) as [Hp Hgood]. split.
    + intros H. step_ok H segments Hs. rewrite decide_False in H by done. injection H as <-. split_and!.
      * right. change ("/" +:+ key) with (String "/" key). rewrite split_char_join_two, Forall_app. split; [done|].
        destruct (proj1 (validate_segments_refused key)) as [?|?]; [by eexists|done|done].
      * by rewrite strip_prefix_app.
      * intros prefix listed H. step_ok H u Hu. case_decide as E.
        { injection H as <-. rewrite starts_with_shared. subst prefix. by destruct key. }
        injection H as <-. by rewrite starts_with_shared.
    + intros H Hk. destruct (proj2 (validate_segments_refused key) Hk) as [segments ->]. cbn [mbind res_bind].
      rewrite decide_False by done. destruct (strip_prefix p provider) as [rest|] eqn:Er; [|done].
      apply strip_prefix_Some in Er as ->. cbn [mbind option_bind] in H. apply (strip_prefix_Some "/") in H as ->. done.
  - split.
    + intros H. step_ok H segments Hs. injection H as <-. split_and!; [apply validate_segments_refused; by eexists|done|].
      intros prefix listed H. step_ok H u Hu. by injection H as <-.
    + intros [= ->] Hk. by destruct (proj2 (validate_segments_refused key) Hk) as [segments ->].
Qed.

(** ** Witnesses *)
Lemma object_keys_name_objects_witness :
  object_wf (ManifestName "demo" 400) ∧
  parse_object_key "namespaces/demo/manifests/00000000000000000400.json.zst" =
    Some (parsed FamMetadataManifest "demo" (Some "00000000000000000400")) ∧
  object_key (ManifestName "demo" 400) ≠ object_key (WalName "demo" 400).
Proof.
  assert (object_wf (ManifestName "demo" 400)) as H1 by (by vm_compute).
  assert (object_wf (WalName "demo" 400)) as H2 by (by vm_compute).
  split; [exact H1|]. destruct (object_keys_name_objects _ _ H1 H2) as [Hp Hd].
  split; [exact Hp|]. intros E. discriminate (Hd E).
Defined.

Lemma upload_keys_pair_witness :
  let id := "upl_00000000000000000000000001" in let id' := "upl_0000000000000000000000000g" in
  UploadId_parse id = Ok () ∧ cmp (upload_outcome "r" id) (upload_session "r" id') = Lt ∧
  cmp (upload_session "r" id) (upload_outcome "r" id) = Lt.
Proof.
  intros id id'. assert (UploadId_parse id = Ok ()) as H1 by (by vm_compute).
  assert (UploadId_parse id' = Ok ()) as H2 by (by vm_compute).
  split; [exact H1|split].
  - exact (upload_keys_pair "r" id id' H1 H2 true false).
  - exact (upload_keys_pair "r" id id H1 H1 false true).
Defined.

Lemma key_scope_exact_witness :
  let scope := mkKeyScope (Some "tenant-a") in
  KeyScope_new (Some "tenant-a") = Ok scope ∧
  unscope scope "tenant-a/namespaces/ns-1/hint.json" = Some "namespaces/ns-1/hint.json" ∧
  unscope scope "tenant-ab/namespaces/ns-1/hint.json" = None.
Proof.
  intros scope. assert (KeyScope_new (Some "tenant-a") = Ok scope) as H by (by vm_compute).
  split; [exact H|split; [|by vm_compute]].
  destruct (key_scope_exact _ _ "namespaces/ns-1/hint.json" "tenant-a/namespaces/ns-1/hint.json" H ltac:(done)) as [Hs _].
  apply Hs. by vm_compute.
Defined.
