(* ===== verification/Manifest.v ===== *)
(** * Namespace manifests

    The manifest payload and its chain rules ([loonfs-types/src/manifest.rs]),
    the run orders ([loonfs-core/src/segment/runs.rs]) and the validation of
    loaded manifests ([loonfs-core/src/manifest/validate.rs], with the family
    lookups of [segment/scan.rs]).  [manifest_ok] is the abstract form of a
    manifest; the theorems show that validation accepts exactly the
    well-formed manifests and that the chain rules hold between any two
    manifests of a chain.  The [message] texts of errors are not modelled. *)
From S2P Require Import Prelude Types Records Codec SegmentBlocks Paths Ids ObjectKeys.
Import keys.
Local Open Scope N_scope.

Abbreviation RunNo := N (only parsing).
Abbreviation ManifestNo := N (only parsing).
Abbreviation WalNo := N (only parsing).
Abbreviation WriterEpoch := N (only parsing).
Abbreviation CompactorEpoch := N (only parsing).

Definition METADATA_SEGMENT_ENCODING : N := 1.

(** ** Runs and segments *)
Inductive RunTier : Set := Delta | Base.
#[export] Instance RunTier_eq_dec : EqDecision RunTier.
Proof. solve_decision. Defined.
#[export] Instance RunTier_ord : Ord RunTier := λ a b,
  match a, b with Delta, Base => Lt | Base, Delta => Gt | _, _ => Eq end.
#[export] Instance RunTier_total : TotalOrd RunTier.
Proof. split; [by intros [] []; split|by intros [] []|by intros [] [] []]. Qed.

#[export] Instance BlockHandle_eq_dec : EqDecision BlockHandle.
Proof. solve_decision. Defined.

Record MetadataSegmentRef := mkMetadataSegmentRef {
  ms_owner_namespace_id : NamespaceId;
  ms_segment_id : string;
  ms_family : MetadataRowFamily;
  ms_encoding : N;
  ms_row_count : N;
  ms_min_row_key : string;
  ms_max_row_key : string;
  ms_index_block : BlockHandle;
  ms_filter_block : BlockHandle;
  ms_filter_inline : option string;
  ms_extent_filter_block : option BlockHandle;
}.
#[export] Instance MetadataSegmentRef_eq_dec : EqDecision MetadataSegmentRef.
Proof. solve_decision. Defined.

Record MetadataRunRef := mkMetadataRunRef {
  mr_run_no : RunNo;
  mr_run_seq : ChangeSeq;
  mr_tier : RunTier;
  mr_segments : list MetadataSegmentRef;
}.
#[export] Instance MetadataRunRef_eq_dec : EqDecision MetadataRunRef.
Proof. solve_decision. Defined.

Record ExtensionSegmentRef := mkExtensionSegmentRef {
  es_owner_namespace_id : NamespaceId;
  es_segment_id : string;
  es_row_count : N;
  es_min_row_key : string;
  es_max_row_key : string;
  es_index_block : BlockHandle;
  es_filter_block : BlockHandle;
  es_filter_inline : option string;
}.
#[export] Instance ExtensionSegmentRef_eq_dec : EqDecision ExtensionSegmentRef.
Proof. solve_decision. Defined.

Record ExtensionRunRef := mkExtensionRunRef {
  er_run_no : RunNo;
  er_level : N;
  er_segments : list ExtensionSegmentRef;
}.
#[export] Instance ExtensionRunRef_eq_dec : EqDecision ExtensionRunRef.
Proof. solve_decision. Defined.

(** [ee_state]: the members that only the extension interprets, as text. *)
Record ExtensionEntry := mkExtensionEntry {
  ee_version : N;
  ee_runs : list ExtensionRunRef;
  ee_state : string;
}.
#[export] Instance ExtensionEntry_eq_dec : EqDecision ExtensionEntry.
Proof. solve_decision. Defined.

(** [ExtensionEntry::segments]. *)
Definition entry_segments (entry : ExtensionEntry) : list ExtensionSegmentRef :=
  concat (er_segments <$> entry.(ee_runs)).

Definition metadata_segment_object_key (descriptor : MetadataSegmentRef) : string :=
  metadata_segment descriptor.(ms_owner_namespace_id) descriptor.(ms_segment_id).

Definition extension_segment_object_key (name : string) (descriptor : ExtensionSegmentRef) : string :=
  extension_segment descriptor.(es_owner_namespace_id) name descriptor.(es_segment_id).

(** ** The payload *)

(** [Acl] carries the root's initial grants. *)
Inductive NamespaceAccess : Set :=
| Unrestricted
| Acl (principal_scope : string) (root_grants : AccessGrants).
#[export] Instance NamespaceAccess_eq_dec : EqDecision NamespaceAccess.
Proof. solve_decision. Defined.

Inductive NamespaceStatus : Set := Active | Deleted (deleted_at_ms : N).
#[export] Instance NamespaceStatus_eq_dec : EqDecision NamespaceStatus.
Proof. solve_decision. Defined.
Definition is_deleted (status : NamespaceStatus) : bool :=
  match status with Deleted _ => true | Active => false end.

Record WriterBlock := mkWriterBlock { wb_writer_id : string; wb_acquired_at_ms : N }.
#[export] Instance WriterBlock_eq_dec : EqDecision WriterBlock.
Proof. solve_decision. Defined.

Record ManifestRef := mkManifestRef {
  mref_owner_namespace_id : NamespaceId;
  mref_manifest_no : ManifestNo;
  mref_head_seq : ChangeSeq;
  mref_payload_checksum : string;
}.
#[export] Instance ManifestRef_eq_dec : EqDecision ManifestRef.
Proof. solve_decision. Defined.

Record RebasedFrom := mkRebasedFrom {
  rf_source_namespace_id : NamespaceId;
  rf_resume_after_seq : ChangeSeq;
}.
#[export] Instance RebasedFrom_eq_dec : EqDecision RebasedFrom.
Proof. solve_decision. Defined.

Record ForkBasis := mkForkBasis {
  fb_manifest : ManifestRef;
  fb_source_pin_id : string;
  fb_rebased_from : option RebasedFrom;
}.
#[export] Instance ForkBasis_eq_dec : EqDecision ForkBasis.
Proof. solve_decision. Defined.

(** An [ActivityCounter] is its number. *)
Definition ActivityCounter_parse (value : N) : res PublicOrdinalRangeError N :=
  if decide (MAX_PUBLIC_INTEGER < value) then Err OrdinalOutOfRange else Ok value.
Definition counter_checked_add (counter value : N) : option N :=
  sum ← checked_add U64_MAX counter value;
  ordinal_ok (ActivityCounter_parse sum).

Record ManifestActivity := mkManifestActivity {
  act_content_bytes : N;
  act_file_revisions : N;
  act_mutations : N;
}.
#[export] Instance ManifestActivity_eq_dec : EqDecision ManifestActivity.
Proof. solve_decision. Defined.
Definition activity_default : ManifestActivity := mkManifestActivity 0 0 0.

(** [ManifestActivity::checked_add]. *)
Definition activity_checked_add (a b : ManifestActivity) : option ManifestActivity :=
  content_bytes ← counter_checked_add a.(act_content_bytes) b.(act_content_bytes);
  file_revisions ← counter_checked_add a.(act_file_revisions) b.(act_file_revisions);
  mutations ← counter_checked_add a.(act_mutations) b.(act_mutations);
  Some (mkManifestActivity content_bytes file_revisions mutations).

Record NamespaceManifestPayload := mkPayload {
  mp_namespace_id : NamespaceId;
  mp_created_at_ms : N;
  mp_created_by : ActorId;
  mp_access : NamespaceAccess;
  mp_retention_window_ms : option N;
  mp_fork_basis : option ForkBasis;
  mp_family_root_id : NamespaceId;
  mp_status : NamespaceStatus;
  mp_writer : option WriterBlock;
  mp_folded_wal_no : WalNo;
  mp_manifest_no : ManifestNo;
  mp_compactor_epoch : CompactorEpoch;
  mp_head_seq : ChangeSeq;
  mp_activity : ManifestActivity;
  mp_writer_epoch : WriterEpoch;
  mp_next_run_no : RunNo;
  mp_retention_floor_seq : ChangeSeq;
  mp_runs : list MetadataRunRef;
  mp_extensions : list (string * ExtensionEntry);
}.

Record ManifestChainError := mkManifestChainError { mce_field : string }.

(** [Iterator::min]. *)
Definition iter_min (l : list N) : option N :=
  match l with [] => None | x :: l => Some (foldr N.min x l) end.

Definition base_seq (payload : NamespaceManifestPayload) : ChangeSeq :=
  default payload.(mp_head_seq)
    (iter_min (mr_run_seq <$> filter (λ run, run.(mr_segments) ≠ []) payload.(mp_runs))).

Definition is_family_root (payload : NamespaceManifestPayload) : bool :=
  bool_decide (payload.(mp_family_root_id) = payload.(mp_namespace_id)).

(** [NamespaceManifestPayload::initial]. *)
Definition initial (namespace_id : NamespaceId) (created_at_ms : N) (created_by : ActorId)
    (access : NamespaceAccess) : NamespaceManifestPayload :=
  {| mp_namespace_id := namespace_id; mp_created_at_ms := created_at_ms; mp_created_by := created_by;
     mp_access := access; mp_retention_window_ms := None; mp_fork_basis := None;
     mp_family_root_id := namespace_id; mp_status := Active; mp_writer := None; mp_folded_wal_no := 0;
     mp_manifest_no := 1; mp_compactor_epoch := 0; mp_head_seq := 0; mp_activity := activity_default;
     mp_writer_epoch := 0; mp_next_run_no := 0; mp_retention_floor_seq := 0; mp_runs := [];
     mp_extensions := [] |}.

Definition initial_fork (namespace_id : NamespaceId) (created_at_ms : N) (created_by : ActorId)
    (fork_basis : ForkBasis) (source : NamespaceManifestPayload) : NamespaceManifestPayload :=
  let fork_seq := fork_basis.(fb_manifest).(mref_head_seq) in
  let base := initial namespace_id created_at_ms created_by source.(mp_access) in
  {| mp_namespace_id := base.(mp_namespace_id); mp_created_at_ms := base.(mp_created_at_ms);
     mp_created_by := base.(mp_created_by); mp_access := base.(mp_access);
     mp_retention_window_ms := source.(mp_retention_window_ms); mp_fork_basis := Some fork_basis;
     mp_family_root_id := source.(mp_family_root_id); mp_status := base.(mp_status);
     mp_writer := base.(mp_writer); mp_folded_wal_no := base.(mp_folded_wal_no);
     mp_manifest_no := base.(mp_manifest_no); mp_compactor_epoch := base.(mp_compactor_epoch);
     mp_head_seq := source.(mp_head_seq); mp_activity := base.(mp_activity);
     mp_writer_epoch := base.(mp_writer_epoch); mp_next_run_no := source.(mp_next_run_no);
     mp_retention_floor_seq := fork_seq; mp_runs := source.(mp_runs);
     mp_extensions := source.(mp_extensions) |}.

(** [NamespaceManifestPayload::successor]. *)
Definition payload_successor (payload : NamespaceManifestPayload) (runs : list MetadataRunRef)
    : res PublicOrdinalRangeError NamespaceManifestPayload :=
  manifest_no ← ordinal_successor payload.(mp_manifest_no);
  Ok {| mp_namespace_id := payload.(mp_namespace_id); mp_created_at_ms := payload.(mp_created_at_ms);
        mp_created_by := payload.(mp_created_by); mp_access := payload.(mp_access);
        mp_retention_window_ms := payload.(mp_retention_window_ms); mp_fork_basis := payload.(mp_fork_basis);
        mp_family_root_id := payload.(mp_family_root_id); mp_status := payload.(mp_status);
        mp_writer := payload.(mp_writer); mp_folded_wal_no := payload.(mp_folded_wal_no);
        mp_manifest_no := manifest_no; mp_compactor_epoch := payload.(mp_compactor_epoch);
        mp_head_seq := payload.(mp_head_seq); mp_activity := payload.(mp_activity);
        mp_writer_epoch := payload.(mp_writer_epoch); mp_next_run_no := payload.(mp_next_run_no);
        mp_retention_floor_seq := payload.(mp_retention_floor_seq); mp_runs := runs;
        mp_extensions := payload.(mp_extensions) |}.

(** ** Chain rules *)

(** [if cond { return invalid(field); }]. *)
Definition refuse_if (cond : bool) (field : string) : res ManifestChainError unit :=
  if cond then Err (mkManifestChainError field) else Ok ().

Definition ensure_first_manifest (p : NamespaceManifestPayload) : res ManifestChainError unit :=
  _ ← refuse_if (bool_decide (p.(mp_manifest_no) ≠ 1)) "manifest_no";
  _ ← refuse_if (is_deleted p.(mp_status)) "status";
  _ ← refuse_if (bool_decide (p.(mp_writer) ≠ None)) "writer";
  _ ← refuse_if (bool_decide (p.(mp_activity) ≠ activity_default)) "activity";
  match p.(mp_fork_basis) with
  | Some basis =>
      refuse_if (bool_decide (basis.(fb_manifest).(mref_head_seq) ≠ p.(mp_head_seq))
                 || bool_decide (p.(mp_retention_floor_seq) ≠ p.(mp_head_seq))) "head_seq"
  | None =>
      _ ← refuse_if (bool_decide (p.(mp_runs) ≠ [])) "runs";
      _ ← refuse_if (bool_decide (p.(mp_extensions) ≠ [])) "extensions";
      _ ← refuse_if (bool_decide (p.(mp_head_seq) ≠ 0) || bool_decide (p.(mp_retention_floor_seq) ≠ 0)) "head_seq";
      refuse_if (bool_decide (p.(mp_next_run_no) ≠ 0)) "next_run_no"
  end.

Definition ensure_followed_by (p successor : NamespaceManifestPayload) (next : bool)
    : res ManifestChainError unit :=
  _ ← refuse_if (bool_decide (successor.(mp_namespace_id) ≠ p.(mp_namespace_id))) "namespace_id";
  let numbered :=
    if next then
      bool_decide (ordinal_ok (ordinal_successor p.(mp_manifest_no)) = Some successor.(mp_manifest_no))
    else bool_decide (p.(mp_manifest_no) < successor.(mp_manifest_no)) in
  _ ← refuse_if (negb numbered) "manifest_no";
  _ ← refuse_if (bool_decide (successor.(mp_folded_wal_no) < p.(mp_folded_wal_no))) "folded_wal_no";
  _ ← refuse_if (bool_decide (successor.(mp_writer_epoch) < p.(mp_writer_epoch))) "writer_epoch";
  _ ← refuse_if (bool_decide (successor.(mp_compactor_epoch) < p.(mp_compactor_epoch))) "compactor_epoch";
  _ ← refuse_if (bool_decide (successor.(mp_head_seq) < p.(mp_head_seq))) "head_seq";
  _ ← refuse_if (bool_decide (successor.(mp_retention_floor_seq) < p.(mp_retention_floor_seq)))
        "retention_floor_seq";
  _ ← refuse_if (bool_decide (successor.(mp_next_run_no) < p.(mp_next_run_no))) "next_run_no";
  _ ← refuse_if (bool_decide (successor.(mp_created_at_ms) ≠ p.(mp_created_at_ms))) "created_at_ms";
  _ ← refuse_if (bool_decide (successor.(mp_created_by) ≠ p.(mp_created_by))) "created_by";
  _ ← refuse_if (bool_decide (successor.(mp_access) ≠ p.(mp_access))) "access";
  _ ← refuse_if (bool_decide (successor.(mp_fork_basis) ≠ p.(mp_fork_basis))) "fork_basis";
  _ ← refuse_if (bool_decide (successor.(mp_family_root_id) ≠ p.(mp_family_root_id))) "family_root_id";
  _ ← refuse_if (is_deleted p.(mp_status)) "status";
  let before := p.(mp_activity) in
  let after := successor.(mp_activity) in
  refuse_if (bool_decide (after.(act_content_bytes) < before.(act_content_bytes))
             || bool_decide (after.(act_file_revisions) < before.(act_file_revisions))
             || bool_decide (after.(act_mutations) < before.(act_mutations))
             || bool_decide (successor.(mp_head_seq) = p.(mp_head_seq)) && bool_decide (after ≠ before))
    "activity".

Definition ensure_successor (p successor : NamespaceManifestPayload) : res ManifestChainError unit :=
  ensure_followed_by p successor true.
Definition ensure_later (p later : NamespaceManifestPayload) : res ManifestChainError unit :=
  ensure_followed_by p later false.

(** ** Runs in order *)
Record MetadataFamilySegments := mkFamilySegments {
  fs_family : MetadataRowFamily;
  fs_segments : list MetadataSegmentRef;
}.

Record MetadataRunManifest := mkRunManifest {
  rm_run_no : RunNo;
  rm_run_seq : ChangeSeq;
  rm_tier : RunTier;
  rm_segments : list MetadataFamilySegments;
}.

Definition metadata_run_manifest (run : MetadataRunRef) : MetadataRunManifest :=
  {| rm_run_no := run.(mr_run_no); rm_run_seq := run.(mr_run_seq); rm_tier := run.(mr_tier);
     rm_segments :=
       (λ family, mkFamilySegments family (filter (λ d, d.(ms_family) = family) run.(mr_segments)))
         <$> MetadataRowFamily_ALL |}.

Definition newest_first (left right : MetadataRunManifest) : comparison :=
  lex (cmp left.(rm_tier) right.(rm_tier))
    (lex (cmp right.(rm_run_seq) left.(rm_run_seq)) (cmp right.(rm_run_no) left.(rm_run_no))).
Definition runs_newest_first (payload : NamespaceManifestPayload) : list MetadataRunManifest :=
  sort_by newest_first (metadata_run_manifest <$> payload.(mp_runs)).

Definition oldest_first (left right : MetadataRunManifest) : comparison :=
  lex (cmp left.(rm_run_seq) right.(rm_run_seq))
    (lex (cmp right.(rm_tier) left.(rm_tier)) (cmp left.(rm_run_no) right.(rm_run_no))).
Definition runs_oldest_first (payload : NamespaceManifestPayload) : list MetadataRunManifest :=
  sort_by oldest_first (metadata_run_manifest <$> payload.(mp_runs)).

Definition compaction_order (left right : MetadataRunManifest) : comparison :=
  lex (cmp right.(rm_tier) left.(rm_tier))
    (lex (cmp left.(rm_run_seq) right.(rm_run_seq)) (cmp left.(rm_run_no) right.(rm_run_no))).
Definition runs_in_compaction_order (runs : list MetadataRunManifest) : list MetadataRunManifest :=
  sort_by compaction_order runs.

Definition flatten_manifest_segments (segments_by_family : list MetadataFamilySegments)
    : list MetadataSegmentRef :=
  concat (fs_segments <$> segments_by_family).

(** ** Load errors *)
Inductive ObjectStoreErrorKind : Set :=
| KindNotFound | KindInvalidRequest | KindInvalidKey | KindPreconditionFailed | KindPermissionDenied
| KindUnsupported | KindConfiguration | KindRetryableTransport | KindStoredChecksumMissing | KindOther.
#[export] Instance ObjectStoreErrorKind_eq_dec : EqDecision ObjectStoreErrorKind.
Proof. solve_decision. Defined.

Inductive ManifestLoadError : Set :=
| MissingManifest (object_key : string)
| ReadManifest (object_key : string) (kind : ObjectStoreErrorKind)
| ManifestCodec (object_key : string)
| ManifestNamespaceMismatch (object_key : string) (expected actual : NamespaceId)
| ManifestNoMismatch (object_key : string) (expected actual : ManifestNo)
| MissingRowFamily (object_key : string) (family : MetadataRowFamily)
| DuplicateRowFamily (object_key : string) (family : MetadataRowFamily)
| RunManifestMismatch (object_key : string)
| MissingSegment (object_key : string)
| ReadSegment (object_key : string) (kind : ObjectStoreErrorKind)
| SegmentCodec (object_key : string)
| SegmentDescriptorMismatch (object_key : string)
| SegmentRowKindMismatch (object_key : string) (family : MetadataRowFamily) (row_kind : string)
| DuplicateRevisionRow (object_key : string) (family : MetadataRowFamily) (row_key : string).
#[export] Instance ManifestLoadError_eq_dec : EqDecision ManifestLoadError.
Proof. solve_decision. Defined.

(** ** Validation *)

(** A loop that returns the first error: [for a in l { f(a)?; }]. *)
Fixpoint for_each {A Er : Type} (f : A → res Er unit) (l : list A) : res Er unit :=
  match l with
  | [] => Ok ()
  | a :: l => _ ← f a; for_each f l
  end.

Definition guard_ok {Er : Type} (cond : bool) (error : Er) : res Er unit := if cond then Ok () else Err error.

Definition ordered_manifest_segments (manifest_object_key : string)
    (segments_by_family : list MetadataFamilySegments) : res ManifestLoadError (list MetadataFamilySegments) :=
  (fix go families :=
     match families with
     | [] => Ok []
     | family :: families =>
         match filter (λ fs, fs.(fs_family) = family) segments_by_family with
         | [] => Err (MissingRowFamily manifest_object_key family)
         | [family_segments] => ordered ← go families; Ok (family_segments :: ordered)
         | _ => Err (DuplicateRowFamily manifest_object_key family)
         end
     end) MetadataRowFamily_ALL.

Definition manifest_segment_for_family (manifest_object_key : string)
    (segments_by_family : list MetadataFamilySegments) (family : MetadataRowFamily)
    : res ManifestLoadError MetadataFamilySegments :=
  ok_or (find_first (λ fs, bool_decide (fs.(fs_family) = family)) segments_by_family)
    (MissingRowFamily manifest_object_key family).

Definition validate_namespace_manifest (namespace_id : NamespaceId) (manifest_no : ManifestNo)
    (object_key : string) (payload : NamespaceManifestPayload) : res ManifestLoadError unit :=
  _ ← guard_ok (bool_decide (payload.(mp_namespace_id) = namespace_id))
        (ManifestNamespaceMismatch object_key namespace_id payload.(mp_namespace_id));
  guard_ok (bool_decide (payload.(mp_manifest_no) = manifest_no))
    (ManifestNoMismatch object_key manifest_no payload.(mp_manifest_no)).

(** The number of every run, an extension's after the metadata runs. *)
Definition all_run_nos (payload : NamespaceManifestPayload) : list RunNo :=
  (mr_run_no <$> payload.(mp_runs))
  ++ (er_run_no <$> concat ((λ entry, entry.2.(ee_runs)) <$> payload.(mp_extensions))).

(** [for x in l { if !set.insert(x) { return Err(..) } }]. *)
Fixpoint insert_unique `{EqDecision A} {Er} (error : Er) (seen l : list A) : res Er (list A) :=
  match l with
  | [] => Ok seen
  | x :: l => if decide (x ∈ seen) then Err error else insert_unique error (x :: seen) l
  end.

Definition validate_unique_run_numbers (object_key : string) (payload : NamespaceManifestPayload)
    : res ManifestLoadError unit :=
  _ ← insert_unique (RunManifestMismatch object_key) [] (all_run_nos payload);
  Ok ().

(** The loop over a run's descriptors. *)
Fixpoint check_run_descriptors (object_key : string) (seen : list string)
    (descriptors : list MetadataSegmentRef) : res ManifestLoadError (list string) :=
  match descriptors with
  | [] => Ok seen
  | d :: descriptors =>
      _ ← guard_ok (bool_decide (d.(ms_encoding) = METADATA_SEGMENT_ENCODING)) (RunManifestMismatch object_key);
      _ ← guard_ok (bool_decide (d.(ms_segment_id) ∉ seen)) (RunManifestMismatch object_key);
      check_run_descriptors object_key (d.(ms_segment_id) :: seen) descriptors
  end.
Fixpoint check_runs (object_key : string) (payload : NamespaceManifestPayload) (saw_head_seq_run : bool)
    (seen : list string) (runs : list MetadataRunRef) : res ManifestLoadError bool :=
  match runs with
  | [] => Ok saw_head_seq_run
  | run :: runs =>
      _ ← guard_ok (bool_decide (run.(mr_run_no) < payload.(mp_next_run_no))) (RunManifestMismatch object_key);
      _ ← guard_ok (bool_decide (run.(mr_run_seq) ≤ payload.(mp_head_seq))) (RunManifestMismatch object_key);
      let saw_head_seq_run :=
        if bool_decide (run.(mr_segments) ≠ [])
        then saw_head_seq_run || bool_decide (run.(mr_run_seq) = payload.(mp_head_seq))
        else saw_head_seq_run in
      seen ← check_run_descriptors object_key seen run.(mr_segments);
      check_runs object_key payload saw_head_seq_run seen runs
  end.
Definition validate_manifest_sequence_ranges (object_key : string) (payload : NamespaceManifestPayload)
    : res ManifestLoadError unit :=
  _ ← guard_ok (bool_decide (payload.(mp_retention_floor_seq) ≤ payload.(mp_head_seq)))
        (RunManifestMismatch object_key);
  _ ← validate_unique_run_numbers object_key payload;
  if bool_decide (payload.(mp_runs) = []) then
    guard_ok (bool_decide (payload.(mp_head_seq) = 0)) (RunManifestMismatch object_key)
  else
    saw_head_seq_run ← check_runs object_key payload false [] payload.(mp_runs);
    guard_ok saw_head_seq_run (RunManifestMismatch object_key).

(** Its error is a text. *)
Definition check_block_layout (filter_block : BlockHandle) (extent_filter_block : option BlockHandle)
    (index_block : BlockHandle) (filter_inline : option string) : res unit unit :=
  let fits (handle : BlockHandle) :=
    guard_ok (bool_decide (is_Some (checked_add U64_MAX handle.(bh_offset) handle.(bh_stored_bytes)))) () in
  _ ← match extent_filter_block with Some handle => fits handle | None => Ok () end;
  _ ← fits filter_block;
  _ ← fits index_block;
  _ ← match extent_filter_block with
      | Some extent =>
          guard_ok (bool_decide (extent.(bh_offset) + extent.(bh_stored_bytes) = filter_block.(bh_offset))) ()
      | None => Ok ()
      end;
  _ ← guard_ok (bool_decide (filter_block.(bh_offset) + filter_block.(bh_stored_bytes) = index_block.(bh_offset))) ();
  match filter_inline with
  | Some inline => guard_ok (bool_decide (byte_length inline = 2 * filter_block.(bh_stored_bytes))) ()
  | None => Ok ()
  end.

Fixpoint check_extension_segments (object_key name : string) (seen : list string)
    (descriptors : list ExtensionSegmentRef) : res ManifestLoadError unit :=
  match descriptors with
  | [] => Ok ()
  | d :: descriptors =>
      let segment_key := extension_segment_object_key name d in
      _ ← guard_ok (bool_decide (d.(es_segment_id) ∉ seen)) (RunManifestMismatch object_key);
      _ ← guard_ok (negb (bool_decide (d.(es_row_count) = 0) || bool_decide (d.(es_min_row_key) = "")
                          || bool_decide (cmp d.(es_min_row_key) d.(es_max_row_key) = Gt)))
            (SegmentDescriptorMismatch segment_key);
      _ ← map_err (λ _, SegmentDescriptorMismatch segment_key)
            (check_block_layout d.(es_filter_block) None d.(es_index_block) d.(es_filter_inline));
      check_extension_segments object_key name (d.(es_segment_id) :: seen) descriptors
  end.
Definition validate_extension_runs (object_key : string) (payload : NamespaceManifestPayload)
    : res ManifestLoadError unit :=
  for_each (λ '(name, entry),
    _ ← guard_ok (forallb (λ run, bool_decide (run.(er_run_no) < payload.(mp_next_run_no))) entry.(ee_runs))
          (RunManifestMismatch object_key);
    check_extension_segments object_key name [] (entry_segments entry)) payload.(mp_extensions).

(** The body of [validate_segment_block_layout] for one descriptor. *)
Definition check_segment_layout (d : MetadataSegmentRef) : res ManifestLoadError unit :=
  let has_extent_filter := bool_decide (d.(ms_family) = FamContentLayouts) in
  _ ← guard_ok (Bool.eqb (bool_decide (is_Some d.(ms_extent_filter_block))) has_extent_filter)
        (SegmentDescriptorMismatch (metadata_segment_object_key d));
  map_err (λ _, SegmentDescriptorMismatch (metadata_segment_object_key d))
    (check_block_layout d.(ms_filter_block) d.(ms_extent_filter_block) d.(ms_index_block) d.(ms_filter_inline)).
Definition validate_segment_block_layout (object_key : string) (runs : list MetadataRunManifest)
    : res ManifestLoadError unit :=
  for_each (λ run,
    ordered ← ordered_manifest_segments object_key run.(rm_segments);
    for_each (λ family_segments, for_each check_segment_layout family_segments.(fs_segments)) ordered) runs.

Fixpoint check_key_order (previous : option MetadataSegmentRef) (descriptors : list MetadataSegmentRef)
    : res ManifestLoadError unit :=
  match descriptors with
  | [] => Ok ()
  | d :: descriptors =>
      _ ← guard_ok (bool_decide (d.(ms_row_count) ≠ 0)) (SegmentDescriptorMismatch (metadata_segment_object_key d));
      _ ← match previous with
          | Some previous =>
              guard_ok (bool_decide (cmp previous.(ms_max_row_key) d.(ms_min_row_key) = Lt))
                (SegmentDescriptorMismatch (metadata_segment_object_key d))
          | None => Ok ()
          end;
      check_key_order (Some d) descriptors
  end.
(** The run number is only in the message. *)
Definition validate_segment_key_order (descriptors : list MetadataSegmentRef) : res ManifestLoadError unit :=
  check_key_order None descriptors.

Definition check_key_range (d : MetadataSegmentRef) : res ManifestLoadError unit :=
  guard_ok (negb (bool_decide (d.(ms_min_row_key) = "") || bool_decide (d.(ms_max_row_key) = "")
                  || bool_decide (cmp d.(ms_min_row_key) d.(ms_max_row_key) = Gt)))
    (SegmentDescriptorMismatch (metadata_segment_object_key d)).
Definition validate_segment_key_ranges (object_key : string) (runs : list MetadataRunManifest)
    : res ManifestLoadError unit :=
  for_each (λ run,
    ordered ← ordered_manifest_segments object_key run.(rm_segments);
    for_each (λ family_segments,
      _ ← validate_segment_key_order family_segments.(fs_segments);
      for_each check_key_range family_segments.(fs_segments)) ordered) runs.

(** [fold(0u64, u64::saturating_add)] over the row counts. *)
Definition family_rows (segments : list MetadataSegmentRef) : N :=
  foldl saturating_add 0 (ms_row_count <$> segments).
(** The rows of the last family entry of that family, or zero. *)
Definition rows_of (ordered : list MetadataFamilySegments) (family : MetadataRowFamily) : N :=
  foldl (λ rows fs, if decide (fs.(fs_family) = family) then family_rows fs.(fs_segments) else rows) 0 ordered.
Definition validate_run_index_parity (object_key : string) (runs : list MetadataRunManifest)
    : res ManifestLoadError unit :=
  for_each (λ run,
    ordered ← ordered_manifest_segments object_key run.(rm_segments);
    _ ← guard_ok (bool_decide (rows_of ordered FamDirentryChildBinds ≤ rows_of ordered FamDirentryBinds))
          (RunManifestMismatch object_key);
    guard_ok (bool_decide (rows_of ordered FamCommits = rows_of ordered FamCommitReceipts))
      (RunManifestMismatch object_key)) runs.

Definition has_group_segments (group : MetadataFamilyGroup) (run : MetadataRunManifest) : bool :=
  existsb (λ fs, bool_decide (fs.(fs_family) ∈ group_families group) && bool_decide (fs.(fs_segments) ≠ []))
    run.(rm_segments).
Definition validate_one_base_run_per_family_group (object_key : string) (runs : list MetadataRunManifest)
    : res ManifestLoadError unit :=
  for_each (λ group,
    match filter (λ run, run.(rm_tier) = Base ∧ has_group_segments group run = true) runs with
    | _ :: _ :: _ => Err (RunManifestMismatch object_key)
    | _ => Ok ()
    end) MetadataFamilyGroup_ALL.

Definition validate_manifest (object_key : string) (payload : NamespaceManifestPayload)
    : res ManifestLoadError unit :=
  _ ← guard_ok
        (match payload.(mp_fork_basis) with
         | Some basis =>
             negb (bool_decide (basis.(fb_manifest).(mref_owner_namespace_id) = payload.(mp_namespace_id))
                   || is_family_root payload
                   || bool_decide (payload.(mp_retention_floor_seq) < basis.(fb_manifest).(mref_head_seq)))
         | None => true
         end) (RunManifestMismatch object_key);
  _ ← guard_ok (negb (bool_decide (payload.(mp_fork_basis) = None) && negb (is_family_root payload)))
        (RunManifestMismatch object_key);
  _ ← validate_manifest_sequence_ranges object_key payload;
  _ ← validate_extension_runs object_key payload;
  let runs := runs_oldest_first payload in
  _ ← validate_one_base_run_per_family_group object_key runs;
  _ ← validate_segment_block_layout object_key runs;
  _ ← validate_segment_key_ranges object_key runs;
  validate_run_index_parity object_key runs.

(** ** Chains of checks *)
Lemma bind_unit_Ok {Er A : Type} (m : res Er unit) (k : res Er A) a :
  (_ ← m; k) = Ok a ↔ m = Ok () ∧ k = Ok a.
Proof. destruct m as [[]| | |]; cbn; naive_solver. Qed.

Lemma guard_ok_Ok {Er : Type} (b : bool) (e : Er) : guard_ok b e = Ok () ↔ b = true.
Proof. by destruct b. Qed.

Lemma refuse_if_Ok b field : refuse_if b field = Ok () ↔ b = false.
Proof. by destruct b. Qed.

Lemma map_err_unit_Ok {E1 E2 : Type} (f : E1 → E2) (m : res E1 unit) : map_err f m = Ok () ↔ m = Ok ().
Proof. by destruct m as [[]| | |]. Qed.

Lemma for_each_Ok {A Er : Type} (f : A → res Er unit) l : for_each f l = Ok () ↔ Forall (λ a, f a = Ok ()) l.
Proof. induction l as [|a l IH]; [done|]. cbn. by rewrite bind_unit_Ok, IH, Forall_cons. Qed.

Create Rewrite HintDb checks.
#[local] Hint Rewrite @bind_unit_Ok @guard_ok_Ok refuse_if_Ok @map_err_unit_Ok @for_each_Ok : checks.
#[local] Hint Rewrite andb_true_iff andb_false_iff orb_true_iff orb_false_iff negb_true_iff negb_false_iff : checks.
#[local] Hint Rewrite @bool_decide_eq_true @bool_decide_eq_false : checks.

(** ** The chain rules *)

(** What a later manifest keeps of an earlier one, apart from its number. *)
Record follows (p q : NamespaceManifestPayload) : Prop := {
  fl_namespace : q.(mp_namespace_id) = p.(mp_namespace_id);
  fl_folded : p.(mp_folded_wal_no) ≤ q.(mp_folded_wal_no);
  fl_writer_epoch : p.(mp_writer_epoch) ≤ q.(mp_writer_epoch);
  fl_compactor_epoch : p.(mp_compactor_epoch) ≤ q.(mp_compactor_epoch);
  fl_head : p.(mp_head_seq) ≤ q.(mp_head_seq);
  fl_floor : p.(mp_retention_floor_seq) ≤ q.(mp_retention_floor_seq);
  fl_next_run : p.(mp_next_run_no) ≤ q.(mp_next_run_no);
  fl_created_at : q.(mp_created_at_ms) = p.(mp_created_at_ms);
  fl_created_by : q.(mp_created_by) = p.(mp_created_by);
  fl_access : q.(mp_access) = p.(mp_access);
  fl_fork : q.(mp_fork_basis) = p.(mp_fork_basis);
  fl_root : q.(mp_family_root_id) = p.(mp_family_root_id);
  fl_status : is_deleted p.(mp_status) = false;
  fl_content : p.(mp_activity).(act_content_bytes) ≤ q.(mp_activity).(act_content_bytes);
  fl_revisions : p.(mp_activity).(act_file_revisions) ≤ q.(mp_activity).(act_file_revisions);
  fl_mutations : p.(mp_activity).(act_mutations) ≤ q.(mp_activity).(act_mutations);
  fl_activity : q.(mp_head_seq) = p.(mp_head_seq) → q.(mp_activity) = p.(mp_activity);
}.

Definition numbered_after (p q : NamespaceManifestPayload) (next : bool) : Prop :=
  if next then ordinal_ok (ordinal_successor p.(mp_manifest_no)) = Some q.(mp_manifest_no)
  else p.(mp_manifest_no) < q.(mp_manifest_no).

Lemma ensure_followed_by_exact p q next :
  ensure_followed_by p q next = Ok () ↔ follows p q ∧ numbered_after p q next.
Proof.
  unfold ensure_followed_by, numbered_after. autorewrite with checks.
  assert (∀ a b : N, ¬ a < b ↔ b ≤ a) as Hlt by (intros; apply N.nlt_ge).
  rewrite !Hlt. split.
  - intros H. destruct_and! H. split; [split; try done; try (by apply dec_stable)|].
    + intros E. destruct_or!; [done|by apply dec_stable].
    + by destruct next; autorewrite with checks in *.
  - intros [[] Hn]. split_and!; try done; try (intros []; done).
    + by destruct next; autorewrite with checks.
    + destruct (decide (mp_head_seq q = mp_head_seq p)); [right|by left]. intros []. auto.
Qed.

Lemma follows_trans p q r : follows p q → follows q r → follows p r.
Proof.
  intros [] []. split; try congruence; try (by etrans). intros E. assert (mp_head_seq q = mp_head_seq p) by lia.
  transitivity (mp_activity q); auto with lia.
Qed.

Lemma ordinal_successor_Some n m : ordinal_ok (ordinal_successor n) = Some m → m = n + 1.
Proof.
  unfold ordinal_successor, next_public_ordinal, checked_add. case_decide; [|done]. cbn [option_filter].
  case_bool_decide; [|done]. by intros [= <-].
Qed.

(** C39 The chain rules hold between any two manifests of a namespace: when
    each manifest of a chain is accepted as the successor of the one before
    it, every later manifest of the chain is accepted after every earlier one,
    and the numbers count the positions. *)
Theorem manifest_chain_rules (chain : list NamespaceManifestPayload) (i j : nat) (p q : NamespaceManifestPayload)
    (Hchain : ∀ k a b, chain !! k = Some a → chain !! S k = Some b → ensure_successor a b = Ok ())
    (Hij : (i < j)%nat) (Hp : chain !! i = Some p) (Hq : chain !! j = Some q) :
  ensure_later p q = Ok () ∧ q.(mp_manifest_no) = p.(mp_manifest_no) + N.of_nat (j - i).
Proof.
  unfold ensure_later. rewrite ensure_followed_by_exact. cbn [numbered_after].
  assert (follows p q ∧ mp_manifest_no q = mp_manifest_no p + N.of_nat (j - i)) as [Hf Hn].
  { revert q Hq. induction Hij as [|j Hij IH]; intros q Hq.
    - pose proof (Hchain _ _ _ Hp Hq) as [Hf Hn%ordinal_successor_Some]%ensure_followed_by_exact.
      split; [done|]. replace (S i - i)%nat with 1%nat by lia. done.
    - destruct (lookup_lt_is_Some_2 chain j) as [m Hm]; [apply lookup_lt_Some in Hq; lia|].
      destruct (IH m Hm) as [Hf Hn].
      pose proof (Hchain _ _ _ Hm Hq) as [Hf' Hn'%ordinal_successor_Some]%ensure_followed_by_exact.
      split; [by eapply follows_trans|]. unfold lt in Hij. lia. }
  split_and!; [done|lia|done].
Qed.

(** ** Well-formed manifests *)

(** The stored sections of a segment: extent filter, filter and index, one
    directly after the other, within [u64], with the filter's copy in the
    descriptor as long as the filter. *)
Definition layout_ok (filter_block : BlockHandle) (extent_filter_block : option BlockHandle)
    (index_block : BlockHandle) (filter_inline : option string) : Prop :=
  let end_of (handle : BlockHandle) := handle.(bh_offset) + handle.(bh_stored_bytes) in
  match extent_filter_block with Some extent => end_of extent = filter_block.(bh_offset) | None => True end ∧
  end_of filter_block = index_block.(bh_offset) ∧ end_of index_block ≤ U64_MAX ∧
  match filter_inline with
  | Some inline => byte_length inline = 2 * filter_block.(bh_stored_bytes)
  | None => True
  end.

(** The segments of one family in a run. *)
Definition run_family (run : MetadataRunRef) (family : MetadataRowFamily) : list MetadataSegmentRef :=
  filter (λ d, d.(ms_family) = family) run.(mr_segments).

Definition segment_before (a b : MetadataSegmentRef) : Prop := cmp a.(ms_max_row_key) b.(ms_min_row_key) = Lt.

Record run_ok (payload : NamespaceManifestPayload) (run : MetadataRunRef) : Prop := {
  ro_run_no : run.(mr_run_no) < payload.(mp_next_run_no);
  ro_run_seq : run.(mr_run_seq) ≤ payload.(mp_head_seq);
  ro_segments : ∀ d, d ∈ run.(mr_segments) →
    d.(ms_encoding) = METADATA_SEGMENT_ENCODING ∧ d.(ms_row_count) ≠ 0 ∧
    d.(ms_min_row_key) ≠ "" ∧ kle d.(ms_min_row_key) d.(ms_max_row_key) ∧
    (is_Some d.(ms_extent_filter_block) ↔ d.(ms_family) = FamContentLayouts) ∧
    layout_ok d.(ms_filter_block) d.(ms_extent_filter_block) d.(ms_index_block) d.(ms_filter_inline);
  ro_ascending : ∀ family, StronglySorted segment_before (run_family run family);
  ro_binding_parity :
    family_rows (run_family run FamDirentryChildBinds) ≤ family_rows (run_family run FamDirentryBinds);
  ro_commit_parity : family_rows (run_family run FamCommits) = family_rows (run_family run FamCommitReceipts);
}.

Record extension_ok (payload : NamespaceManifestPayload) (entry : ExtensionEntry) : Prop := {
  eo_run_nos : ∀ run, run ∈ entry.(ee_runs) → run.(er_run_no) < payload.(mp_next_run_no);
  eo_segment_ids : NoDup (es_segment_id <$> entry_segments entry);
  eo_segments : ∀ d, d ∈ entry_segments entry →
    d.(es_row_count) ≠ 0 ∧ d.(es_min_row_key) ≠ "" ∧ kle d.(es_min_row_key) d.(es_max_row_key) ∧
    layout_ok d.(es_filter_block) None d.(es_index_block) d.(es_filter_inline);
}.

(** A run of the group's base tier. *)
Definition base_of_group (group : MetadataFamilyGroup) (run : MetadataRunRef) : Prop :=
  run.(mr_tier) = Base ∧ Exists (λ d, d.(ms_family) ∈ group_families group) run.(mr_segments).

Record manifest_ok (payload : NamespaceManifestPayload) : Prop := {
  mo_provenance :
    match payload.(mp_fork_basis) with
    | Some basis =>
        basis.(fb_manifest).(mref_owner_namespace_id) ≠ payload.(mp_namespace_id) ∧
        payload.(mp_family_root_id) ≠ payload.(mp_namespace_id) ∧
        basis.(fb_manifest).(mref_head_seq) ≤ payload.(mp_retention_floor_seq)
    | None => payload.(mp_family_root_id) = payload.(mp_namespace_id)
    end;
  mo_floor : payload.(mp_retention_floor_seq) ≤ payload.(mp_head_seq);
  mo_run_nos : NoDup (all_run_nos payload);
  mo_genesis : payload.(mp_runs) = [] → payload.(mp_head_seq) = 0;
  mo_head : payload.(mp_runs) ≠ [] →
    ∃ run, run ∈ payload.(mp_runs) ∧ run.(mr_segments) ≠ [] ∧ run.(mr_run_seq) = payload.(mp_head_seq);
  mo_runs : ∀ run, run ∈ payload.(mp_runs) → run_ok payload run;
  mo_segment_ids : NoDup (ms_segment_id <$> concat (mr_segments <$> payload.(mp_runs)));
  mo_base : ∀ group, (length (filter (base_of_group group) payload.(mp_runs)) ≤ 1)%nat;
  mo_extensions : ∀ name entry, (name, entry) ∈ payload.(mp_extensions) → extension_ok payload entry;
}.

(** ** Validation accepts exactly the well-formed manifests *)
Lemma nodup_into `{EqDecision A} (l seen : list A) x :
  NoDup (l ++ x :: seen) ↔ NoDup (x :: l ++ seen).
Proof. by rewrite Permutation_middle. Qed.

Lemma insert_unique_exact `{EqDecision A} {Er : Type} (error : Er) (seen l : list A) :
  NoDup seen → (∃ seen', insert_unique error seen l = Ok seen') ↔ NoDup (l ++ seen).
Proof.
  revert seen. induction l as [|x l IH]; intros seen Hseen; cbn [insert_unique app].
  { split; [done|]. by eexists. }
  case_decide as Hx.
  - split; [by intros [? ?]|]. intros [Hnot _]%NoDup_cons. set_solver.
  - rewrite (IH (x :: seen)) by (by constructor). apply nodup_into.
Qed.

Lemma fits_iff (handle : BlockHandle) :
  is_Some (checked_add U64_MAX handle.(bh_offset) handle.(bh_stored_bytes)) ↔
  handle.(bh_offset) + handle.(bh_stored_bytes) ≤ U64_MAX.
Proof. unfold checked_add. case_decide; split; try done; by intros [? [=]]. Qed.

Lemma check_block_layout_exact filter_block extent index inline :
  check_block_layout filter_block extent index inline = Ok () ↔ layout_ok filter_block extent index inline.
Proof.
  unfold check_block_layout, layout_ok. autorewrite with checks. rewrite !fits_iff.
  destruct extent as [extent|], inline as [inline|]; autorewrite with checks; rewrite ?fits_iff;
    split; intros; destruct_and?; split_and?; try done; lia.
Qed.

Lemma check_run_descriptors_exact object_key seen descriptors :
  NoDup seen →
  (∃ seen', check_run_descriptors object_key seen descriptors = Ok seen') ↔
  Forall (λ d, d.(ms_encoding) = METADATA_SEGMENT_ENCODING) descriptors ∧ NoDup ((ms_segment_id <$> descriptors) ++ seen).
Proof.
  revert seen. induction descriptors as [|d descriptors IH]; intros seen Hseen; cbn [check_run_descriptors].
  { split; [done|]. intros _. by eexists. }
  setoid_rewrite bind_unit_Ok. setoid_rewrite bind_unit_Ok. setoid_rewrite guard_ok_Ok.
  rewrite Forall_cons. cbn [fmap list_fmap app]. rewrite <-nodup_into. setoid_rewrite bool_decide_eq_true. split.
  - intros (seen' & ? & Hd & Hrest). destruct (proj1 (IH (ms_segment_id d :: seen) ltac:(by constructor))) as [? ?]; eauto.
  - intros ((? & Hall) & Hnd). assert (ms_segment_id d ∉ seen) as Hd.
    { rewrite nodup_into in Hnd. apply NoDup_cons in Hnd as [Hnot _]. set_solver. }
    destruct (proj2 (IH (ms_segment_id d :: seen) ltac:(by constructor))) as [seen' ?]; eauto.
Qed.

Lemma check_run_descriptors_seen object_key seen descriptors seen' :
  check_run_descriptors object_key seen descriptors = Ok seen' → seen' ≡ₚ (ms_segment_id <$> descriptors) ++ seen.
Proof.
  revert seen. induction descriptors as [|d descriptors IH]; intros seen; cbn [check_run_descriptors]; [by intros [= <-]|].
  rewrite !bind_unit_Ok. intros (_ & _ & ->%IH). cbn. by rewrite Permutation_middle.
Qed.

Lemma check_runs_exact object_key payload saw seen runs result :
  NoDup seen →
  check_runs object_key payload saw seen runs = Ok result ↔
  Forall (λ run, run.(mr_run_no) < payload.(mp_next_run_no) ∧ run.(mr_run_seq) ≤ payload.(mp_head_seq) ∧
    Forall (λ d, d.(ms_encoding) = METADATA_SEGMENT_ENCODING) run.(mr_segments)) runs ∧
  NoDup ((ms_segment_id <$> concat (mr_segments <$> runs)) ++ seen) ∧
  (result = true ↔ saw = true ∨ Exists (λ run, run.(mr_segments) ≠ [] ∧ run.(mr_run_seq) = payload.(mp_head_seq)) runs).
Proof.
  revert saw seen. induction runs as [|run runs IH]; intros saw seen Hseen; cbn [check_runs].
  { rewrite Exists_nil. split; [intros [= <-]; split_and!; [constructor|done|tauto]|]. intros (_ & _ & E). f_equal.
    destruct result, saw; naive_solver. }
  rewrite !bind_unit_Ok, !guard_ok_Ok, !bool_decide_eq_true, Forall_cons, Exists_cons.
  cbn [fmap list_fmap concat]. rewrite fmap_app, <-app_assoc.
  set (saw' := if bool_decide _ then _ else saw).
  assert (saw' = true ↔ saw = true ∨ mr_segments run ≠ [] ∧ mr_run_seq run = mp_head_seq payload) as Hsaw.
  { unfold saw'. case_bool_decide; [|tauto]. rewrite orb_true_iff, bool_decide_eq_true. tauto. }
  clearbody saw'. rewrite (Permutation_app_swap_app (_ <$> mr_segments run)). split.
  - intros (? & ? & Hrest). step_ok Hrest seen1 Hd.
    destruct (proj1 (check_run_descriptors_exact object_key seen (mr_segments run) Hseen)) as [He Hnd]; [by eexists|].
    pose proof (check_run_descriptors_seen _ _ _ _ Hd) as Hperm. rewrite <-Hperm in *.
    apply IH in Hrest as (? & Hnd' & Hres); [|done]. split_and!; try done. rewrite Hres, Hsaw. tauto.
  - intros ([(? & ? & He) Hall] & Hnd & Hres). split_and!; [done|done|].
    assert (NoDup ((ms_segment_id <$> mr_segments run) ++ seen)) as Hnd' by (by apply NoDup_app in Hnd as (_ & _ & ?)).
    destruct (proj2 (check_run_descriptors_exact object_key seen (mr_segments run) Hseen)) as [seen1 Hd]; [done|].
    rewrite Hd. cbn [mbind res_bind]. pose proof (check_run_descriptors_seen _ _ _ _ Hd) as Hperm. rewrite <-Hperm in *.
    apply IH; [done|]. split_and!; [done|done|]. rewrite Hres, Hsaw. tauto.
Qed.

Lemma validate_sequence_ranges_exact object_key payload :
  validate_manifest_sequence_ranges object_key payload = Ok () ↔
  payload.(mp_retention_floor_seq) ≤ payload.(mp_head_seq) ∧ NoDup (all_run_nos payload) ∧
  (payload.(mp_runs) = [] → payload.(mp_head_seq) = 0) ∧
  (payload.(mp_runs) ≠ [] →
     ∃ run, run ∈ payload.(mp_runs) ∧ run.(mr_segments) ≠ [] ∧ run.(mr_run_seq) = payload.(mp_head_seq)) ∧
  (∀ run, run ∈ payload.(mp_runs) →
     run.(mr_run_no) < payload.(mp_next_run_no) ∧ run.(mr_run_seq) ≤ payload.(mp_head_seq) ∧
     Forall (λ d, d.(ms_encoding) = METADATA_SEGMENT_ENCODING) run.(mr_segments)) ∧
  NoDup (ms_segment_id <$> concat (mr_segments <$> payload.(mp_runs))).
Proof.
  unfold validate_manifest_sequence_ranges, validate_unique_run_numbers. rewrite !bind_unit_Ok, guard_ok_Ok, bool_decide_eq_true.
  assert ((∃ seen, insert_unique (RunManifestMismatch object_key) [] (all_run_nos payload) = Ok seen) ↔ NoDup (all_run_nos payload))
    as Hnos by (rewrite insert_unique_exact by constructor; by rewrite app_nil_r).
  rewrite (bind_Ok (insert_unique _ _ _)).
  assert ((∃ seen, insert_unique (RunManifestMismatch object_key) [] (all_run_nos payload) = Ok seen ∧ Ok (E:=ManifestLoadError) () = Ok ())
    ↔ NoDup (all_run_nos payload)) as -> by (rewrite <-Hnos; naive_solver).
  apply and_iff_compat_l, and_iff_compat_l. case_bool_decide as Er.
  - rewrite guard_ok_Ok, bool_decide_eq_true, Er. cbn. split; [|naive_solver].
    intros ?. split_and!; try done; [by intros ? ?%not_elem_of_nil|constructor].
  - rewrite bind_Ok. setoid_rewrite guard_ok_Ok. setoid_rewrite check_runs_exact; [|constructor].
    setoid_rewrite app_nil_r. split.
    + intros (result & (Hall & Hids & Hres) & ->). destruct (proj1 Hres eq_refl) as [|(run & ? & ? & ?)%Exists_exists]; [done|].
      split_and!; try done; [intros _; by exists run|by apply Forall_forall].
    + intros (_ & Hhead & Hall & Hids). exists true. split_and!; try done; [by apply Forall_forall|].
      destruct (Hhead Er) as (run & ? & ? & ?). split; [|done]. intros _. right. apply Exists_exists. eauto.
Qed.

Lemma key_range_ok (min max : string) (count : N) :
  negb (bool_decide (count = 0) || bool_decide (min = "") || bool_decide (cmp min max = Gt)) = true ↔
  count ≠ 0 ∧ min ≠ "" ∧ kle min max.
Proof. autorewrite with checks. unfold kle. tauto. Qed.

Lemma check_extension_segments_exact object_key name seen descriptors :
  NoDup seen →
  check_extension_segments object_key name seen descriptors = Ok () ↔
  NoDup ((es_segment_id <$> descriptors) ++ seen) ∧
  Forall (λ d, d.(es_row_count) ≠ 0 ∧ d.(es_min_row_key) ≠ "" ∧ kle d.(es_min_row_key) d.(es_max_row_key) ∧
    layout_ok d.(es_filter_block) None d.(es_index_block) d.(es_filter_inline)) descriptors.
Proof.
  revert seen. induction descriptors as [|d descriptors IH]; intros seen Hseen; cbn [check_extension_segments]; [done|].
  rewrite !bind_unit_Ok, !guard_ok_Ok, map_err_unit_Ok, check_block_layout_exact, key_range_ok, bool_decide_eq_true, Forall_cons.
  cbn [fmap list_fmap app]. rewrite <-nodup_into. split.
  - intros (? & ? & ? & Hrest). apply IH in Hrest as [? ?]; [|by constructor]. naive_solver.
  - intros (Hnd & (? & ? & ? & ?) & ?). assert (es_segment_id d ∉ seen).
    { rewrite nodup_into in Hnd. apply NoDup_cons in Hnd as [Hnot _]. set_solver. }
    split_and!; try done. apply IH; [by constructor|done].
Qed.

Lemma validate_extension_runs_exact object_key payload :
  validate_extension_runs object_key payload = Ok () ↔
  ∀ name entry, (name, entry) ∈ payload.(mp_extensions) → extension_ok payload entry.
Proof.
  unfold validate_extension_runs. rewrite for_each_Ok, Forall_forall. split.
  - intros Hall name entry Hin. specialize (Hall _ Hin). cbn in Hall. rewrite bind_unit_Ok, guard_ok_Ok in Hall.
    destruct Hall as [Hruns [Hids Hsegs]%check_extension_segments_exact]; [|constructor]. rewrite app_nil_r in Hids.
    rewrite forallb_forall in Hruns. split; [|done|by apply Forall_forall].
    intros run Hr%list_elem_of_In%Hruns. by apply bool_decide_eq_true in Hr.
  - intros Hall [name entry] Hin. destruct (Hall name entry Hin) as [Hruns Hids Hsegs]. rewrite bind_unit_Ok, guard_ok_Ok. split.
    + apply forallb_forall. intros run Hr%list_elem_of_In. apply bool_decide_eq_true. auto.
    + apply check_extension_segments_exact; [constructor|]. rewrite app_nil_r. by rewrite Forall_forall.
Qed.

(** *** Runs *)
Lemma ordered_run object_key run :
  ordered_manifest_segments object_key (metadata_run_manifest run).(rm_segments) =
  Ok ((λ family, mkFamilySegments family (run_family run family)) <$> MetadataRowFamily_ALL).
Proof. reflexivity. Qed.

Lemma in_all_families family : family ∈ MetadataRowFamily_ALL.
Proof. destruct family; unfold MetadataRowFamily_ALL; set_solver. Qed.

Lemma elem_of_run_family run family d : d ∈ run_family run family ↔ d.(ms_family) = family ∧ d ∈ run.(mr_segments).
Proof. unfold run_family. by rewrite list_elem_of_filter. Qed.

(** A check of every family's segments is one of every segment of the run. *)
Lemma all_families_Forall (P : MetadataSegmentRef → Prop) run :
  (∀ family, Forall P (run_family run family)) ↔ Forall P run.(mr_segments).
Proof.
  setoid_rewrite Forall_forall. setoid_rewrite elem_of_run_family. naive_solver.
Qed.

Lemma for_each_family (f : MetadataFamilySegments → res ManifestLoadError unit) object_key run :
  (ordered ← ordered_manifest_segments object_key (metadata_run_manifest run).(rm_segments); for_each f ordered) = Ok () ↔
  ∀ family, f (mkFamilySegments family (run_family run family)) = Ok ().
Proof.
  rewrite ordered_run. cbn [mbind res_bind]. rewrite for_each_Ok, Forall_fmap, Forall_forall. split.
  - intros Hall family. apply (Hall family), in_all_families.
  - intros Hall family _. apply Hall.
Qed.

Lemma for_each_run (f : MetadataRunManifest → res ManifestLoadError unit) payload :
  for_each f (runs_oldest_first payload) = Ok () ↔ ∀ run, run ∈ payload.(mp_runs) → f (metadata_run_manifest run) = Ok ().
Proof.
  unfold runs_oldest_first. rewrite for_each_Ok, sort_by_perm, Forall_fmap, Forall_forall. done.
Qed.

Lemma check_segment_layout_exact d :
  check_segment_layout d = Ok () ↔
  (is_Some d.(ms_extent_filter_block) ↔ d.(ms_family) = FamContentLayouts) ∧
  layout_ok d.(ms_filter_block) d.(ms_extent_filter_block) d.(ms_index_block) d.(ms_filter_inline).
Proof.
  unfold check_segment_layout. rewrite bind_unit_Ok, guard_ok_Ok, map_err_unit_Ok, check_block_layout_exact.
  apply and_iff_compat_r. rewrite eqb_true_iff. split.
  - intros E. rewrite <-(bool_decide_eq_true (is_Some _)), E. apply bool_decide_eq_true.
  - intros E. by apply bool_decide_ext.
Qed.

Lemma check_key_order_exact previous descriptors :
  Forall (λ d, kle d.(ms_min_row_key) d.(ms_max_row_key)) descriptors →
  check_key_order previous descriptors = Ok () ↔
  Forall (λ d, d.(ms_row_count) ≠ 0) descriptors ∧ StronglySorted segment_before descriptors ∧
  (∀ p, previous = Some p → Forall (segment_before p) descriptors).
Proof.
  intros Hle. revert previous. induction Hle as [|d descriptors Hd Hle IH]; intros previous; cbn [check_key_order].
  { split; [|done]. intros _. by split_and!; [constructor|constructor|intros; constructor]. }
  rewrite bind_unit_Ok, guard_ok_Ok, bool_decide_eq_true, bind_unit_Ok, (IH (Some d)), Forall_cons.
  assert (∀ p, segment_before p d → Forall (segment_before d) descriptors → Forall (segment_before p) descriptors) as Htrans.
  { intros p Hp Hall. eapply Forall_impl; [exact Hall|]. intros e He. unfold segment_before in *.
    eapply cmp_lt_trans; [exact Hp|]. by eapply kle_lt_trans. }
  split.
  - intros (? & Hprev & ? & Hs & Hall). specialize (Hall d eq_refl). split_and!; [done|done|by constructor|].
    intros p ->. rewrite guard_ok_Ok, bool_decide_eq_true in Hprev. constructor; [done|by apply Htrans].
  - intros ((? & ?) & Hs & Hprev). apply StronglySorted_inv in Hs as [Hs Hall]. split_and!; [done| |done|done|by intros ? [= <-]].
    destruct previous as [p|]; [|done]. specialize (Hprev p eq_refl). inversion_clear Hprev.
    by rewrite guard_ok_Ok, bool_decide_eq_true.
Qed.

Lemma kle_nonempty (a b : string) : a ≠ "" → kle a b → b ≠ "".
Proof. intros Ha Hab ->. destruct a; [done|]. by apply Hab. Qed.

Lemma check_key_range_exact d :
  check_key_range d = Ok () ↔ d.(ms_min_row_key) ≠ "" ∧ kle d.(ms_min_row_key) d.(ms_max_row_key).
Proof.
  unfold check_key_range. autorewrite with checks. unfold kle. split; [tauto|]. intros [Hmin Hle].
  split_and!; [done| |done]. by apply (kle_nonempty (ms_min_row_key d)).
Qed.

Lemma key_ranges_exact object_key payload :
  validate_segment_key_ranges object_key (runs_oldest_first payload) = Ok () ↔
  ∀ run, run ∈ payload.(mp_runs) →
    Forall (λ d, d.(ms_row_count) ≠ 0 ∧ d.(ms_min_row_key) ≠ "" ∧ kle d.(ms_min_row_key) d.(ms_max_row_key)) run.(mr_segments) ∧
    ∀ family, StronglySorted segment_before (run_family run family).
Proof.
  unfold validate_segment_key_ranges, validate_segment_key_order. rewrite for_each_run.
  apply forall_proper. intros run. apply forall_proper. intros _. rewrite for_each_family.
  rewrite <-all_families_Forall. rewrite <-forall_and_distr. apply forall_proper. intros family.
  cbn [fs_segments]. rewrite bind_unit_Ok, for_each_Ok. setoid_rewrite check_key_range_exact.
  rewrite !Forall_and. split.
  - intros (Hord & Hmin & Hle). apply check_key_order_exact in Hord as (? & ? & _); [|done]. done.
  - intros ((? & ? & ?) & Hs). split_and!; [|done|done]. by apply check_key_order_exact.
Qed.

Lemma block_layout_exact object_key payload :
  validate_segment_block_layout object_key (runs_oldest_first payload) = Ok () ↔
  ∀ run, run ∈ payload.(mp_runs) →
    Forall (λ d, (is_Some d.(ms_extent_filter_block) ↔ d.(ms_family) = FamContentLayouts) ∧
      layout_ok d.(ms_filter_block) d.(ms_extent_filter_block) d.(ms_index_block) d.(ms_filter_inline)) run.(mr_segments).
Proof.
  unfold validate_segment_block_layout. rewrite for_each_run. apply forall_proper. intros run. apply forall_proper. intros _.
  rewrite for_each_family, <-all_families_Forall. apply forall_proper. intros family. cbn [fs_segments].
  rewrite for_each_Ok. by setoid_rewrite check_segment_layout_exact.
Qed.

Lemma index_parity_exact object_key payload :
  validate_run_index_parity object_key (runs_oldest_first payload) = Ok () ↔
  ∀ run, run ∈ payload.(mp_runs) →
    family_rows (run_family run FamDirentryChildBinds) ≤ family_rows (run_family run FamDirentryBinds) ∧
    family_rows (run_family run FamCommits) = family_rows (run_family run FamCommitReceipts).
Proof.
  unfold validate_run_index_parity. rewrite for_each_run. apply forall_proper. intros run. apply forall_proper. intros _.
  rewrite ordered_run. cbn [mbind res_bind]. rewrite bind_unit_Ok, !guard_ok_Ok, !bool_decide_eq_true. done.
Qed.

Lemma has_group_segments_run group run :
  has_group_segments group (metadata_run_manifest run) = true ↔
  Exists (λ d, d.(ms_family) ∈ group_families group) run.(mr_segments).
Proof.
  unfold has_group_segments. rewrite existsb_exists, Exists_exists. split.
  - intros (fs & Hin%list_elem_of_In & [Hg Hne]%andb_true_iff). apply bool_decide_eq_true in Hg, Hne.
    cbn [metadata_run_manifest rm_segments] in Hin. apply list_elem_of_fmap in Hin as (family & -> & _). cbn in Hg, Hne.
    destruct (filter _ (mr_segments run)) as [|d ds] eqn:E; [done|].
    assert (d ∈ run_family run family) as [<- ?]%elem_of_run_family by (unfold run_family; rewrite E; by left). by exists d.
  - intros (d & Hd & Hg). exists (mkFamilySegments d.(ms_family) (run_family run d.(ms_family))). split.
    + apply list_elem_of_In, list_elem_of_fmap. exists d.(ms_family). split; [done|apply in_all_families].
    + apply andb_true_iff. rewrite !bool_decide_eq_true. split; [done|]. cbn [fs_segments]. intros E.
      assert (d ∈ run_family run d.(ms_family)) as Hin by (by apply elem_of_run_family). rewrite E in Hin. by apply not_elem_of_nil in Hin.
Qed.

Lemma one_base_run_exact object_key payload :
  validate_one_base_run_per_family_group object_key (runs_oldest_first payload) = Ok () ↔
  ∀ group, (length (filter (base_of_group group) payload.(mp_runs)) ≤ 1)%nat.
Proof.
  unfold validate_one_base_run_per_family_group. rewrite for_each_Ok, Forall_forall.
  assert (∀ group, length (filter (λ run, rm_tier run = Base ∧ has_group_segments group run = true) (runs_oldest_first payload))
    = length (filter (base_of_group group) payload.(mp_runs))) as Hlen.
  { intros group. unfold runs_oldest_first. rewrite sort_by_perm, filter_fmap, length_fmap. f_equal.
    apply list_filter_iff. intros run.
    change (mr_tier run = Base ∧ has_group_segments group (metadata_run_manifest run) = true ↔ base_of_group group run).
    by rewrite has_group_segments_run. }
  setoid_rewrite <-Hlen. split.
  - intros Hall group. specialize (Hall group).
    assert (group ∈ MetadataFamilyGroup_ALL) as Hin by (destruct group; unfold MetadataFamilyGroup_ALL; set_solver).
    specialize (Hall Hin). destruct (filter _ _) as [|a [|b l]]; cbn; [lia|lia|done].
  - intros Hall group _. specialize (Hall group). destruct (filter _ _) as [|a [|b l]]; cbn in *; [done|done|lia].
Qed.

(** C38 Validation accepts exactly the well-formed manifests: provenance and
    family root agree, the floor is at or below the head, run numbers and
    segment IDs are unique and allocated, a run stands at the head, every
    family of a run holds its segments in ascending disjoint key ranges with
    rows and adjoining sections, paired families agree in their counts, and no
    family group has two base runs. *)
Theorem validate_manifest_exact (object_key : string) (payload : NamespaceManifestPayload) :
  validate_manifest object_key payload = Ok () ↔ manifest_ok payload.
Proof.
  unfold validate_manifest. rewrite !bind_unit_Ok, !guard_ok_Ok, validate_sequence_ranges_exact,
    validate_extension_runs_exact, one_base_run_exact, block_layout_exact, key_ranges_exact, index_parity_exact.
  unfold is_family_root. split.
  - intros (Hf1 & Hf2 & (? & ? & ? & ? & Hruns & ?) & ? & ? & Hlayout & Hranges & Hparity). split; try done.
    + destruct (mp_fork_basis payload); autorewrite with checks in *; [by rewrite N.nlt_ge in *; tauto|].
      by destruct Hf2 as [[]|?].
    + intros run Hin. destruct (Hruns run Hin) as (? & ? & Henc), (Hranges run Hin) as [Hkeys Hs], (Hparity run Hin).
      specialize (Hlayout run Hin). rewrite Forall_forall in Henc. rewrite Forall_forall in Hkeys. rewrite Forall_forall in Hlayout.
      split; try done. intros d Hd. specialize (Henc d Hd). specialize (Hkeys d Hd). specialize (Hlayout d Hd). tauto.
  - intros [Hprov ? ? ? ? Hruns ? ? ?]. split_and!; try done.
    + destruct (mp_fork_basis payload); [|done]. autorewrite with checks. rewrite N.nlt_ge. tauto.
    + destruct (mp_fork_basis payload); autorewrite with checks; [by left|by right].
    + intros run Hin. destruct (Hruns run Hin) as [? ? Hseg]. split_and!; try done. apply Forall_forall. intros d Hd. by apply Hseg.
    + intros run Hin. destruct (Hruns run Hin) as [? ? Hseg]. apply Forall_forall. intros d Hd. split; by apply Hseg.
    + intros run Hin. destruct (Hruns run Hin) as [? ? Hseg]. split; [|done]. apply Forall_forall. intros d Hd. by split_and!; apply Hseg.
    + intros run Hin. by destruct (Hruns run Hin).
Qed.

(** ** Orders of runs *)
Definition tier_no (tier : RunTier) : N := match tier with Delta => 0 | Base => 1 end.

Lemma newest_first_iff a b :
  newest_first a b ≠ Gt ↔
  tier_no a.(rm_tier) < tier_no b.(rm_tier) ∨
  tier_no a.(rm_tier) = tier_no b.(rm_tier) ∧
    (b.(rm_run_seq) < a.(rm_run_seq) ∨ a.(rm_run_seq) = b.(rm_run_seq) ∧ b.(rm_run_no) ≤ a.(rm_run_no)).
Proof.
  unfold newest_first. destruct a as [? ? [] ?], b as [? ? [] ?]; cbn; unfold cmp, N_ord;
    repeat (match goal with |- context [(?x ?= ?y)%N] => destruct (N.compare_spec x y) end; cbn); split; intros; (lia || done).
Qed.

Lemma oldest_first_iff a b :
  oldest_first a b ≠ Gt ↔
  a.(rm_run_seq) < b.(rm_run_seq) ∨
  a.(rm_run_seq) = b.(rm_run_seq) ∧
    (tier_no b.(rm_tier) < tier_no a.(rm_tier) ∨
     tier_no a.(rm_tier) = tier_no b.(rm_tier) ∧ a.(rm_run_no) ≤ b.(rm_run_no)).
Proof.
  unfold oldest_first. destruct a as [? ? [] ?], b as [? ? [] ?]; cbn; unfold cmp, N_ord;
    repeat (match goal with |- context [(?x ?= ?y)%N] => destruct (N.compare_spec x y) end; cbn); split; intros; (lia || done).
Qed.

Lemma compaction_order_newest a b : compaction_order a b = newest_first b a.
Proof. done. Qed.

Lemma newest_first_sorted runs : StronglySorted (not_after newest_first) (sort_by newest_first runs).
Proof.
  apply sort_by_sorted; unfold not_after.
  - intros a b Hgt Hgt'. assert (¬ newest_first a b ≠ Gt) as H1 by auto. assert (¬ newest_first b a ≠ Gt) as H2 by auto.
    rewrite newest_first_iff in H1, H2. lia.
  - intros a b d. rewrite !newest_first_iff. lia.
Qed.

(** The run orders agree: compaction order is the reverse of the order
    that reads scan the runs in, and so is the oldest-first order when no base
    run has a later sequence than a delta run.  The orders depend only on the
    set of runs, not on how the manifest lists them. *)
Theorem run_orders_agree (payload : NamespaceManifestPayload)
    (Hnos : NoDup (mr_run_no <$> payload.(mp_runs))) :
  runs_in_compaction_order (metadata_run_manifest <$> payload.(mp_runs)) = reverse (runs_newest_first payload) ∧
  ((∀ b d, b ∈ payload.(mp_runs) → d ∈ payload.(mp_runs) → b.(mr_tier) = Base → d.(mr_tier) = Delta →
      b.(mr_run_seq) ≤ d.(mr_run_seq)) →
   runs_oldest_first payload = reverse (runs_newest_first payload)).
Proof.
  set (runs := metadata_run_manifest <$> mp_runs payload).
  assert (∀ a b, a ∈ runs → b ∈ runs → rm_run_no a = rm_run_no b → a = b) as Huniq.
  { intros ? ? (a & -> & Ha)%list_elem_of_fmap (b & -> & Hb)%list_elem_of_fmap E. cbn in E. f_equal.
    by eapply (NoDup_fmap_elem mr_run_no). }
  assert (reverse (runs_newest_first payload) ≡ₚ runs) as Hperm by (by rewrite reverse_Permutation; apply sort_by_perm).
  pose proof (newest_first_sorted runs) as Hsorted. fold (runs_newest_first payload) in Hsorted. split.
  - apply sort_by_unique; [..|done]; unfold not_after.
    + intros a b. rewrite !compaction_order_newest. intros Hgt Hgt'. assert (¬ newest_first b a ≠ Gt) as H1 by auto. assert (¬ newest_first a b ≠ Gt) as H2 by auto.
      rewrite newest_first_iff in H1. rewrite newest_first_iff in H2. lia.
    + intros a b d. rewrite !compaction_order_newest, !newest_first_iff. lia.
    + intros a b Ha Hb. rewrite !compaction_order_newest, !newest_first_iff. intros. apply Huniq; [done..|lia].
    + eapply sorted_reverse_on; [|exact Hsorted]. done.
  - intros Hbase. apply sort_by_unique; [..|done]; unfold not_after.
    + intros a b Hgt Hgt'. assert (¬ oldest_first a b ≠ Gt) as H1 by auto. assert (¬ oldest_first b a ≠ Gt) as H2 by auto.
      rewrite oldest_first_iff in H1. rewrite oldest_first_iff in H2. lia.
    + intros a b d. rewrite !oldest_first_iff. lia.
    + intros a b Ha Hb. rewrite !oldest_first_iff. intros. apply Huniq; [done..|lia].
    + eapply sorted_reverse_on; [|exact Hsorted]. unfold not_after.
      intros a b Ha Hb. rewrite newest_first_iff, oldest_first_iff.
      unfold runs_newest_first in Ha, Hb. rewrite sort_by_elem in Ha. rewrite sort_by_elem in Hb.
      apply list_elem_of_fmap in Ha as (ra & -> & Ha), Hb as (rb & -> & Hb). cbn [metadata_run_manifest rm_tier rm_run_seq rm_run_no].
      specialize (Hbase rb ra Hb Ha). destruct (mr_tier ra), (mr_tier rb); cbn in *; intros; try lia.
      specialize (Hbase eq_refl eq_refl). lia.
Qed.

(** With a base run that is later than a delta run, oldest-first is not the
    reverse of newest-first. *)
Lemma oldest_first_not_reverse :
  ∃ payload, NoDup (mr_run_no <$> payload.(mp_runs)) ∧ runs_oldest_first payload ≠ reverse (runs_newest_first payload).
Proof.
  exists {| mp_namespace_id := "a"; mp_created_at_ms := 0; mp_created_by := "b"; mp_access := Unrestricted;
    mp_retention_window_ms := None; mp_fork_basis := None; mp_family_root_id := "a"; mp_status := Active;
    mp_writer := None; mp_folded_wal_no := 0; mp_manifest_no := 1; mp_compactor_epoch := 0; mp_head_seq := 2;
    mp_activity := activity_default; mp_writer_epoch := 0; mp_next_run_no := 2; mp_retention_floor_seq := 0;
    mp_runs := [mkMetadataRunRef 0 1 Delta []; mkMetadataRunRef 1 2 Base []]; mp_extensions := [] |}.
  split; [apply (bool_decide_unpack _); by vm_compute|by vm_compute].
Qed.

(** ** Constructors *)
Lemma initial_ok namespace_id created_at_ms created_by access :
  ensure_first_manifest (initial namespace_id created_at_ms created_by access) = Ok () ∧
  manifest_ok (initial namespace_id created_at_ms created_by access).
Proof.
  split; [done|]. split; cbn; [done|done|constructor|done|done| |constructor|intros; lia|].
  - by intros run ?%not_elem_of_nil.
  - by intros ? ? ?%not_elem_of_nil.
Qed.

Lemma run_ok_same payload payload' run :
  payload'.(mp_next_run_no) = payload.(mp_next_run_no) → payload'.(mp_head_seq) = payload.(mp_head_seq) →
  run_ok payload run → run_ok payload' run.
Proof. intros E1 E2 []. split; rewrite ?E1, ?E2; done. Qed.

Lemma extension_ok_same payload payload' entry :
  payload'.(mp_next_run_no) = payload.(mp_next_run_no) → extension_ok payload entry → extension_ok payload' entry.
Proof. intros E1 []. split; rewrite ?E1; done. Qed.

(** Every manifest that the constructors build obeys the rules: the first
    manifest of a created namespace is accepted as a first manifest and by
    validation, the successor of an active manifest is accepted after it, and
    the first manifest of a fork of a well-formed source at its head is
    accepted as a first manifest and by validation. *)
Theorem manifest_constructors_ok (object_key namespace_id : string) (created_at_ms : N) (created_by : ActorId)
    (access : NamespaceAccess) (source : NamespaceManifestPayload) (Hsource : manifest_ok source) :
  let first := initial namespace_id created_at_ms created_by access in
  (ensure_first_manifest first = Ok () ∧ validate_manifest object_key first = Ok ()) ∧
  (∀ runs next, is_deleted source.(mp_status) = false → payload_successor source runs = Ok next →
     ensure_successor source next = Ok ()) ∧
  (∀ basis, basis.(fb_manifest).(mref_owner_namespace_id) = source.(mp_namespace_id) →
     basis.(fb_manifest).(mref_head_seq) = source.(mp_head_seq) →
     namespace_id ≠ source.(mp_namespace_id) → namespace_id ≠ source.(mp_family_root_id) →
     let fork := initial_fork namespace_id created_at_ms created_by basis source in
     ensure_first_manifest fork = Ok () ∧ validate_manifest object_key fork = Ok ()).
Proof.
  split_and!; [|rewrite validate_manifest_exact| |].
  1,2: apply initial_ok.
  - intros runs next Hactive Hnext. unfold payload_successor in Hnext. step_ok Hnext number Hn. injection Hnext as <-.
    apply ensure_followed_by_exact. cbn. split; [split; cbn; try done; lia|]. by rewrite Hn.
  - intros basis Howner Hhead Hns Hroot fork. rewrite validate_manifest_exact. split.
    + unfold ensure_first_manifest, refuse_if, fork. cbn. by rewrite Hhead, !bool_decide_false by (by intros []).
    + destruct Hsource as [_ _ ? ? ? Hruns ? ? Hext]. split; cbn; try done.
      * rewrite Howner, Hhead. split_and!; [congruence|congruence|lia].
      * by rewrite Hhead.
      * intros run Hin. by apply (run_ok_same source), Hruns.
      * intros name entry Hin. by eapply (extension_ok_same source), Hext.
Qed.

(** ** Witnesses *)
Lemma manifest_chain_rules_witness :
  let first := initial "demo" 0 "me" Unrestricted in
  ∃ second third, payload_successor first [] = Ok second ∧ payload_successor second [] = Ok third ∧
    ensure_later first third = Ok ().
Proof.
  intros first. destruct (payload_successor first []) as [second| | |] eqn:E1; [|by vm_compute in E1..].
  destruct (payload_successor second []) as [third| | |] eqn:E2.
  2-4: vm_compute in E1; injection E1 as <-; by vm_compute in E2.
  exists second, third. split; [reflexivity|split; [exact E2|]].
  apply (manifest_chain_rules [first; second; third] 0 2 first third); [|lia|reflexivity|reflexivity].
  vm_compute in E1. injection E1 as <-. vm_compute in E2. injection E2 as <-.
  intros [|[|[|k]]] a b Ha Hb; try discriminate Hb; injection Ha as <-; injection Hb as <-; by vm_compute.
Defined.

Lemma run_orders_agree_witness :
  let payload := {| mp_namespace_id := "a"; mp_created_at_ms := 0; mp_created_by := "b"; mp_access := Unrestricted;
    mp_retention_window_ms := None; mp_fork_basis := None; mp_family_root_id := "a"; mp_status := Active;
    mp_writer := None; mp_folded_wal_no := 0; mp_manifest_no := 1; mp_compactor_epoch := 0; mp_head_seq := 2;
    mp_activity := activity_default; mp_writer_epoch := 0; mp_next_run_no := 2; mp_retention_floor_seq := 0;
    mp_runs := [mkMetadataRunRef 0 1 Base []; mkMetadataRunRef 1 2 Delta []]; mp_extensions := [] |} in
  rm_run_no <$> runs_newest_first payload = [1; 0] ∧ runs_oldest_first payload = reverse (runs_newest_first payload).
Proof.
  intros payload. split; [by vm_compute|].
  apply (run_orders_agree payload); [apply (bool_decide_unpack _); by vm_compute|].
  intros b d [->|[->|[]%not_elem_of_nil]%elem_of_cons]%elem_of_cons [->|[->|[]%not_elem_of_nil]%elem_of_cons]%elem_of_cons;
    cbn; (discriminate || lia).
Defined.

Lemma manifest_constructors_ok_witness :
  let source := initial "source" 0 "me" Unrestricted in
  let basis := mkForkBasis (mkManifestRef "source" 1 0 "") "pin_00000000000000000001-0000000000000001" None in
  manifest_ok source ∧
  validate_manifest "key" (initial_fork "fork" 5 "me" basis source) = Ok ().
Proof.
  intros source basis. assert (manifest_ok source) as H by apply initial_ok. split; [exact H|].
  destruct (manifest_constructors_ok "key" "fork" 5 "me" Unrestricted source H) as (_ & _ & Hfork).
  apply (Hfork basis); done.
Defined.
