(* ===== verification/Scan.v ===== *)
(** * Bounded scans over the segments of several runs

    [loonfs-core/src/segment/scan.rs]: [combine_segment_rows] reads segments
    through iterators, opening them as the page reaches them, and keeps the
    smallest page; the scans select the segments it reads.  The loader is a
    parameter, one for each refill because caches change between them, with
    the laws of [RunIterator]; so are the pool's available bytes.

    The main theorem: the scan returns, and what it returns is the page of all
    rows in the range, in key order. *)
From S2P Require Import Prelude Types Utf8 Records SegmentBlocks SegmentFormat RowKeys ScanPage RunIterator Manifest.
Local Open Scope nat_scope.

(** ** Data *)
Record ScanDescriptor := mkScanDescriptor { sd_descriptor : MetadataSegmentRef; sd_max_seq : ChangeSeq }.

Definition SCAN_ITERATORS_OPEN : nat := 16.

(** The order of [descriptors.sort_by]. *)
Definition scan_order (left right : ScanDescriptor) : comparison :=
  lex (cmp left.(sd_descriptor).(ms_min_row_key) right.(sd_descriptor).(ms_min_row_key))
    (lex (cmp left.(sd_descriptor).(ms_max_row_key) right.(sd_descriptor).(ms_max_row_key))
       (cmp left.(sd_descriptor).(ms_segment_id) right.(sd_descriptor).(ms_segment_id))).

(** [upper_bound.is_none_or(|upper| key < upper)]. *)
Definition below_upper (upper_bound : option string) (key : string) : bool :=
  match upper_bound with None => true | Some upper => bool_decide (cmp key upper = Lt) end.

Section scan.
Context {L Row : Type} `{SegmentBlockLoader L Row ScanDescriptor ManifestLoadError}.
Context (heap_bytes : Row → N) (loaders : nat → L) (available_bytes : nat → N).
#[local] Abbreviation iterator := (SegmentRowIterator Row ScanDescriptor unit).
#[local] Abbreviation page := (list (string * Row)).
Implicit Types (it : iterator) (iterators : list iterator) (rows : page).

Section combine.
Context (lower_bound : string) (upper_bound : option string) (bounds : PageBounds) (filter_admitted : bool).

(** [rows.last_key_value()] holds and its key satisfies [test]. *)
Definition last_key_is (test : string → bool) rows : bool :=
  match last rows with Some (key, _) => test key | None => false end.

(** The segments are opened while they start at or before this key. *)
Definition open_through iterators (descriptors : list ScanDescriptor) rows (rows_bytes : N) : string :=
  let open_through := match last rows with Some (key, _) => key | None => lower_bound end in
  if bool_decide (length iterators = 0) && negb (page_full bounds rows rows_bytes) then
    match last (take SCAN_ITERATORS_OPEN descriptors) with
    | Some candidate =>
        let min_row_key := candidate.(sd_descriptor).(ms_min_row_key) in
        if decide (cmp min_row_key open_through = Lt) then open_through else min_row_key
    | None => open_through
    end
  else open_through.

(** [while descriptors.first().is_some_and(|candidate| .. <= open_through)]:
    the descriptors that are opened and the ones that stay. *)
Fixpoint open_pending (open_through : string) (descriptors : list ScanDescriptor)
    : list ScanDescriptor * list ScanDescriptor :=
  match descriptors with
  | [] => ([], [])
  | candidate :: rest =>
      if decide (cmp open_through candidate.(sd_descriptor).(ms_min_row_key) = Lt) then ([], descriptors)
      else let '(opened, rest) := open_pending open_through rest in (candidate :: opened, rest)
  end.

Definition open_iterator (descriptor : ScanDescriptor) : iterator :=
  iterator_new () [descriptor] (Some lower_bound).

(** The newly opened iterators with no row in the range. *)
Fixpoint filter_false_positives iterators : res ManifestLoadError nat :=
  match iterators with
  | [] => Ok 0
  | it :: iterators =>
      head ← iterator_head it;
      count ← filter_false_positives iterators;
      Ok ((if match head with Some (key, _) => below_upper upper_bound key | None => false end then 0 else 1) + count)
  end.

(** [while let Some((key, _)) = iterator.head()]: a round takes a loaded
    row. *)
Fixpoint drain (fuel : nat) it rows (rows_bytes : N) : res ManifestLoadError (iterator * page * N) :=
  head ← iterator_head it;
  match head with
  | None => Ok (it, rows, rows_bytes)
  | Some (key, _) =>
      if negb (below_upper upper_bound key) then Ok (it, rows, rows_bytes)
      else if page_full bounds rows rows_bytes && last_key_is (λ last, bool_decide (cmp key last ≠ Lt)) rows
      then Ok (it, rows, rows_bytes)
      else
        match fuel with
        | O => OutOfFuel
        | S fuel =>
            '(row, it) ← take_head it;
            '(rows, rows_bytes) ← page_take heap_bytes bounds rows rows_bytes (key, row);
            drain fuel it rows rows_bytes
        end
  end.

(** [for iterator in &mut iterators]. *)
Fixpoint drain_all iterators rows (rows_bytes : N) : res ManifestLoadError (list iterator * page * N) :=
  match iterators with
  | [] => Ok ([], rows, rows_bytes)
  | it :: iterators =>
      '(it, rows, rows_bytes) ← drain (loaded_row_count it) it rows rows_bytes;
      '(iterators, rows, rows_bytes) ← drain_all iterators rows rows_bytes;
      Ok (it :: iterators, rows, rows_bytes)
  end.

(** The test of [iterators.retain]. *)
Definition stays_open rows (rows_bytes : N) it : res ManifestLoadError bool :=
  match loaded_through_key it with
  | None => Ok false
  | Some last_key =>
      head ← iterator_head it;
      Ok (match head with None => true | Some _ => false end
          && match current_segment it with
             | Some segment => bool_decide (cmp last_key segment.(sd_descriptor).(ms_max_row_key) = Lt)
             | None => false
             end
          && below_upper upper_bound last_key
          && (negb (page_full bounds rows rows_bytes)
              || last_key_is (λ last, bool_decide (cmp last_key last = Lt)) rows))
  end.
Fixpoint retain_open (rows : page) (rows_bytes : N) (iterators : list iterator)
    : res ManifestLoadError (list iterator) :=
  match iterators with
  | [] => Ok []
  | it :: iterators =>
      stays ← stays_open rows rows_bytes it;
      iterators ← retain_open rows rows_bytes iterators;
      Ok (if (stays : bool) then it :: iterators else iterators)
  end.

(** The loop of [combine_segment_rows], and the false positives it records. *)
Fixpoint combine_loop (fuel round : nat) iterators (descriptors : list ScanDescriptor) rows (rows_bytes : N)
    (false_positives : nat) : res ManifestLoadError (page * nat) :=
  let previously_open := length iterators in
  let '(opened, descriptors) :=
    open_pending (open_through iterators descriptors rows rows_bytes) descriptors in
  let iterators := iterators ++ (open_iterator <$> opened) in
  if bool_decide (length iterators = 0) then Ok (rows, false_positives)
  else
    match fuel with
    | O => OutOfFuel
    | S fuel' =>
        '(_, iterators) ← refill_iterators fuel (loaders round) iterators (available_bytes round);
        missed ← (if filter_admitted then filter_false_positives (drop previously_open iterators) else Ok 0);
        '(iterators, rows, rows_bytes) ← drain_all iterators rows rows_bytes;
        iterators ← retain_open rows rows_bytes iterators;
        combine_loop fuel' (S round) iterators descriptors rows rows_bytes (false_positives + missed)
    end.

Definition combine_segment_rows (fuel : nat) (descriptors : list ScanDescriptor)
    : res ManifestLoadError (page * nat) :=
  if bool_decide (bounds.(pb_max_rows) = 0%N) then Ok ([], 0)
  else combine_loop fuel 0 [] (sort_by scan_order descriptors) [] 0 0.
End combine.
End scan.

(** ** Selecting segments *)

(** [VerifiedMetadataSegments]: the parts that a scan reads. *)
Record VerifiedMetadataSegments := mkVerifiedMetadataSegments {
  vs_manifest_object_key : string;
  vs_scan_runs : list MetadataRunManifest;
}.

Inductive BlocksPerRefill : Set := RefillOne | RefillKeyRange.
#[export] Instance BlocksPerRefill_eq_dec : EqDecision BlocksPerRefill.
Proof. solve_decision. Defined.

Definition push_run_candidates (self : VerifiedMetadataSegments) (candidates : list ScanDescriptor)
    (run : MetadataRunManifest) (family : MetadataRowFamily) (lower_bound : string)
    (upper_bound : option string) : res ManifestLoadError (list ScanDescriptor) :=
  family_segments ← manifest_segment_for_family self.(vs_manifest_object_key) run.(rm_segments) family;
  Ok (candidates ++
      ((λ descriptor, {| sd_descriptor := descriptor; sd_max_seq := run.(rm_run_seq) |}) <$>
       filter (λ descriptor,
         key_range_may_intersect descriptor.(ms_min_row_key) descriptor.(ms_max_row_key)
           descriptor.(ms_row_count) lower_bound upper_bound = true) family_segments.(fs_segments))).

(** [for run in self.scan_runs.iter()]: the candidates of every run. *)
Fixpoint push_candidates (self : VerifiedMetadataSegments) (candidates : list ScanDescriptor)
    (runs : list MetadataRunManifest) (family : MetadataRowFamily) (lower_bound : string)
    (upper_bound : option string) : res ManifestLoadError (list ScanDescriptor) :=
  match runs with
  | [] => Ok candidates
  | run :: runs =>
      candidates ← push_run_candidates self candidates run family lower_bound upper_bound;
      push_candidates self candidates runs family lower_bound upper_bound
  end.

(** The same with [run_ends.push(candidates.len())]. *)
Fixpoint push_candidates_with_ends (self : VerifiedMetadataSegments) (candidates : list ScanDescriptor)
    (run_ends : list nat) (runs : list MetadataRunManifest) (family : MetadataRowFamily) (lower_bound : string)
    (upper_bound : option string) : res ManifestLoadError (list ScanDescriptor * list nat) :=
  match runs with
  | [] => Ok (candidates, run_ends)
  | run :: runs =>
      candidates ← push_run_candidates self candidates run family lower_bound upper_bound;
      push_candidates_with_ends self candidates (run_ends ++ [length candidates]) runs family lower_bound upper_bound
  end.

Definition every_row_is_visible_at (self : VerifiedMetadataSegments) (visible_seq : ChangeSeq) : bool :=
  forallb (λ run, run.(rm_run_seq) <=? visible_seq)%N self.(vs_scan_runs).

Section scans.
Context `{SectionCodecs} {L Row : Type} `{SegmentBlockLoader L Row ScanDescriptor ManifestLoadError}.
Context (heap_bytes : Row → N) (load_segment_filter : MetadataSegmentRef → res ManifestLoadError SegmentFilter).
(** The [ScanLoader] of a call, and what each of its refills finds. *)
Context (scan_loader : BlocksPerRefill → option string → nat → nat → L) (available_bytes : nat → nat → N).
Context (fuel : nat) (self : VerifiedMetadataSegments).
#[local] Abbreviation page := (list (string * Row)).

Definition segment_filter_admits (descriptor : MetadataSegmentRef) (filter_probe : string)
    : res ManifestLoadError bool :=
  filter ← load_segment_filter descriptor;
  infallible (may_contain filter filter_probe).

Fixpoint filter_admissions (descriptors : list ScanDescriptor) (filter_probe : string)
    : res ManifestLoadError (list bool) :=
  match descriptors with
  | [] => Ok []
  | descriptor :: descriptors =>
      admits ← segment_filter_admits descriptor.(sd_descriptor) filter_probe;
      admissions ← filter_admissions descriptors filter_probe;
      Ok (admits :: admissions)
  end.

(** [.zip(admissions).filter_map(|(descriptor, admits)| admits.then_some(descriptor))]. *)
Definition admitted_of (descriptors : list ScanDescriptor) (admissions : list bool) : list ScanDescriptor :=
  (filter (λ p : ScanDescriptor * bool, p.2 = true) (zip descriptors admissions)).*1.

Definition filter_admitted_descriptors (descriptors : list ScanDescriptor) (filter_probe : option string)
    : res ManifestLoadError (list ScanDescriptor) :=
  match filter_probe with
  | None => Ok descriptors
  | Some filter_probe =>
      admissions ← filter_admissions descriptors filter_probe;
      Ok (admitted_of descriptors admissions)
  end.

Definition scan_range_bounded (family : MetadataRowFamily) (lower_bound : string) (upper_bound : option string)
    (bounds : PageBounds) (filter_probe : option string) (blocks_per_refill : BlocksPerRefill)
    : res ManifestLoadError (page * nat) :=
  candidates ← push_candidates self [] self.(vs_scan_runs) family lower_bound upper_bound;
  admitted ← filter_admitted_descriptors candidates filter_probe;
  combine_segment_rows heap_bytes (scan_loader blocks_per_refill upper_bound 0) (available_bytes 0)
    lower_bound upper_bound bounds (match filter_probe with Some _ => true | None => false end) fuel admitted.

Definition scan_range (family : MetadataRowFamily) (lower_bound : string) (upper_bound : option string)
    (limit : N) (filter_probe : option string) (blocks_per_refill : BlocksPerRefill)
    : res ManifestLoadError (page * nat) :=
  scan_range_bounded family lower_bound upper_bound {| pb_max_rows := limit; pb_max_bytes := U64_MAX |}
    filter_probe blocks_per_refill.

Definition find_row (family : MetadataRowFamily) (key filter_probe : string)
    : res ManifestLoadError (option Row) :=
  '(rows, _) ← scan_range family key (string_prefix_upper_bound key) U64_MAX (Some filter_probe) RefillOne;
  Ok (snd <$> find_first (λ entry, entry.1 = key) rows).

(** [l[start..stop]], for [start <= stop <= l.len()]. *)
Definition slice {A} (start stop : nat) (l : list A) : list A := take (stop - start) (drop start l).

(** [for run_end in run_ends]: the runs' admitted candidates, newest first. *)
Fixpoint scan_newest (call : nat) (candidates : list ScanDescriptor) (admissions : list bool) (run_start : nat)
    (run_ends : list nat) (lower_bound : string) (upper_bound : option string) (limit : N)
    (blocks_per_refill : BlocksPerRefill) : res ManifestLoadError page :=
  match run_ends with
  | [] => Ok []
  | run_end :: run_ends =>
      let admitted := admitted_of (slice run_start run_end candidates) (slice run_start run_end admissions) in
      if bool_decide (length admitted = 0) then
        scan_newest (S call) candidates admissions run_end run_ends lower_bound upper_bound limit blocks_per_refill
      else
        '(rows, _) ← combine_segment_rows heap_bytes (scan_loader blocks_per_refill upper_bound call)
          (available_bytes call) lower_bound upper_bound {| pb_max_rows := limit; pb_max_bytes := U64_MAX |}
          true fuel admitted;
        match rows with
        | [] => scan_newest (S call) candidates admissions run_end run_ends lower_bound upper_bound limit
                  blocks_per_refill
        | _ => Ok rows
        end
  end.
Definition scan_prefix_in_newest_run_for_lookup (family : MetadataRowFamily) (prefix lower_bound filter_probe : string)
    (limit : N) (blocks_per_refill : BlocksPerRefill) : res ManifestLoadError page :=
  let upper_bound := string_prefix_upper_bound prefix in
  '(candidates, run_ends) ←
    push_candidates_with_ends self [] [] self.(vs_scan_runs) family lower_bound upper_bound;
  admissions ← filter_admissions candidates filter_probe;
  scan_newest 0 candidates admissions 0 run_ends lower_bound upper_bound limit blocks_per_refill.
End scans.

(** ** What a scan returns *)

(** A descriptor names a stored segment with strictly ascending keys; it counts
    the rows, and its bounds are the first and the last key. *)
Definition described {Row} (catalog : Catalog Row ScanDescriptor) (d : ScanDescriptor) : Prop :=
  let rows := concat (cat_blocks catalog d) in
  cat_has catalog d ∧ ascending rows ∧ d.(sd_descriptor).(ms_row_count) = N.of_nat (length rows) ∧
  fst <$> head rows = Some d.(sd_descriptor).(ms_min_row_key) ∧
  fst <$> last rows = Some d.(sd_descriptor).(ms_max_row_key).

(** The rows of the range in a segment. *)
Definition range_rows {Row} (catalog : Catalog Row ScanDescriptor) (lower : string) (upper : option string)
    (d : ScanDescriptor) : list (string * Row) :=
  filter (λ row, in_key_range lower upper row.1) (concat (cat_blocks catalog d)).

Section combine_laws.
Context {L Row : Type} `{SegmentBlockLoader L Row ScanDescriptor ManifestLoadError}.
Context (heap_bytes : Row → N) (catalog : Catalog Row ScanDescriptor) `{!CatalogLaws catalog}.
Context (lower_bound : string) (upper_bound : option string) (bounds : PageBounds).
Context (Hmax : (1 ≤ bounds.(pb_max_rows))%N).
Context (all : list (string * Row)) (Hall : ascending all) (Hweight : (rows_weight heap_bytes all ≤ U64_MAX)%N).
#[local] Abbreviation iterator := (SegmentRowIterator Row ScanDescriptor unit).
#[local] Abbreviation weight := (rows_weight heap_bytes).
#[local] Abbreviation full := (saturated heap_bytes bounds.(pb_max_rows) bounds.(pb_max_bytes)).
#[local] Abbreviation page := (is_page heap_bytes bounds.(pb_max_rows) bounds.(pb_max_bytes)).
Implicit Types (it : iterator) (iterators : list iterator) (rows rest seen others : list (string * Row)).

(** The rows below the upper bound. *)
Definition below rest : list (string * Row) := filter (λ row, below_upper upper_bound row.1 = true) rest.

(** An iterator over one described segment, with [rest] left. *)
Definition reads it rest : Prop :=
  iterates catalog it rest ∧ ascending rest ∧ (∃ d, it.(it_segments) = [d] ∧ described catalog d).
(** Between two refills. *)
Definition open_with it rest : Prop := reads it rest ∧ it.(it_blocks) = [] ∧ needs_fill it = true.
(** After a refill. *)
Definition filled it rest : Prop := reads it rest ∧ (rest ≠ [] → is_Some (loaded_through_key it)).
(** After a drain: [rem] are the rows of the range that are not yet accounted for. *)
Definition leaves it (rem : list (string * Row)) : Prop :=
  ∃ rest, filled it rest ∧ (it.(it_blocks) ≠ [] → rem = []) ∧ (it.(it_blocks) = [] → rem = below rest).

(** The page holds the smallest of the rows seen. *)
Definition holds seen rows : Prop := ascending seen ∧ page seen rows.

(** *** Rows that come to the page *)
Lemma key_fresh seen x others : seen ++ x :: others ≡ₚ all → x.1 ∉ seen.*1.
Proof.
  intros Hp Hin. apply list_elem_of_fmap in Hin as (y & E & Hy).
  assert (x = y) as ->.
  { apply (ascending_key_inj all); [done|..|done]; rewrite <-Hp; set_solver. }
  pose proof (ascending_NoDup all Hall) as Hnd. rewrite <-Hp in Hnd. apply NoDup_app in Hnd as (_ & Hnd & _).
  by apply (Hnd y Hy); left.
Qed.

Lemma last_in_seen seen rows y : holds seen rows → last rows = Some y → y ∈ seen.
Proof. intros [_ (r & -> & _)] Hl%last_elem_of. apply elem_of_app. by left. Qed.

Lemma lt_of_fresh seen rows x others last :
  holds seen rows → seen ++ x :: others ≡ₚ all → list.last rows = Some last → kle last.1 x.1 → cmp last.1 x.1 = Lt.
Proof.
  intros Hh Hp Hl Hle. destruct (cmp last.1 x.1) eqn:E; [|done|done]. apply cmp_eq in E. exfalso.
  apply (key_fresh _ _ _ Hp). rewrite <-E. apply list_elem_of_fmap_2. by eapply last_in_seen.
Qed.

Lemma holds_add seen x others :
  ascending seen → seen ++ x :: others ≡ₚ all →
  ascending (btree_insert x.1 x.2 seen).2 ∧ (btree_insert x.1 x.2 seen).2 ++ others ≡ₚ all.
Proof.
  intros Ha Hp. split; [by apply btree_insert_ascending|].
  rewrite (insert_perm x) by (by eapply key_fresh). rewrite <-Hp. apply Permutation_middle.
Qed.

(** Rows at or after the last row of a full page are not of the page. *)
Lemma absorb xs others seen rows :
  holds seen rows → seen ++ xs ++ others ≡ₚ all →
  (xs = [] ∨ full rows ∧ ∃ last, list.last rows = Some last ∧ ∀ x, x ∈ xs → kle last.1 x.1) →
  ∃ seen', holds seen' rows ∧ seen' ++ others ≡ₚ all.
Proof.
  intros Hh Hp [->|(Hf & last & Hl & Hxs)]; [by exists seen|].
  revert seen Hh Hp. induction xs as [|x xs IH]; intros seen Hh Hp; [by exists seen|].
  destruct (holds_add seen x (xs ++ others)) as [Ha' Hp']; [by destruct Hh|done|].
  apply (IH (λ y Hy, Hxs y (list_elem_of_further _ _ _ Hy)) (btree_insert x.1 x.2 seen).2); [|done].
  split; [done|]. destruct Hh as [Ha Hpg]. apply (page_skip _ _ _ _ _ last); [done..|].
  apply (lt_of_fresh seen rows x (xs ++ others)); [by split|done|done|]. apply Hxs. by left.
Qed.

Lemma full_iff seen rows : holds seen rows → page_full bounds rows (weight rows) = true ↔ full rows.
Proof. intros [_ Hpg]. apply page_full_saturated; [done|]. by eapply page_length. Qed.

Lemma take_row seen rows x others :
  holds seen rows → seen ++ x :: others ≡ₚ all →
  page_full bounds rows (weight rows) && last_key_is (λ last, bool_decide (cmp x.1 last ≠ Lt)) rows = false →
  ∃ seen' rows', page_take (Er:=ManifestLoadError) heap_bytes bounds rows (weight rows) x = Ok (rows', weight rows') ∧
    holds seen' rows' ∧ seen' ++ others ≡ₚ all.
Proof.
  intros Hh Hp Hstop. destruct (holds_add seen x others) as [Ha' Hp']; [by destruct Hh|done|]. destruct Hh as [Ha Hpg].
  destruct (page_take_correct (Er:=ManifestLoadError) heap_bytes bounds Hmax seen rows x) as (rows' & Ht & Hpg').
  - done.
  - done.
  - by eapply key_fresh.
  - etrans; [|exact Hweight]. rewrite <-(rows_weight_perm _ _ _ Hp), rows_weight_app. cbn. fold (weight seen) (weight others). lia.
  - intros Hf last Hl. apply (full_iff seen rows) in Hf; [|by split]. rewrite Hf in Hstop.
    unfold last_key_is in Hstop. rewrite Hl in Hstop. destruct last as [k v]. cbn in Hstop |- *.
    apply bool_decide_eq_false in Hstop. by apply dec_stable.
  - by exists (btree_insert x.1 x.2 seen).2, rows'.
Qed.

(** *** Draining *)
Lemma ascending_head_le x rest y : ascending (x :: rest) → y ∈ x :: rest → kle x.1 y.1.
Proof.
  destruct x as [k v]. intros [_ Hlt]%ascending_cons [->|Hy]%elem_of_cons; [apply kle_refl|].
  apply lt_kle. by apply Hlt.
Qed.

Lemma below_upper_false key key' : below_upper upper_bound key = false → kle key key' → below_upper upper_bound key' = false.
Proof.
  unfold below_upper. destruct upper_bound as [u|]; [|done]. rewrite !bool_decide_eq_false. intros Hk Hle Hlt.
  by apply Hk, (kle_lt_trans _ key').
Qed.

Lemma below_none rest : (∀ y, y ∈ rest → below_upper upper_bound y.1 = false) → below rest = [].
Proof. intros Hr. apply filter_none. intros y Hy. by rewrite Hr. Qed.

Lemma drain_eq fuel it rows rows_bytes :
  drain heap_bytes upper_bound bounds fuel it rows rows_bytes =
  head ← iterator_head it;
  match head with
  | None => Ok (it, rows, rows_bytes)
  | Some (key, _) =>
      if negb (below_upper upper_bound key) then Ok (it, rows, rows_bytes)
      else if page_full bounds rows rows_bytes && last_key_is (λ last, bool_decide (cmp key last ≠ Lt)) rows
      then Ok (it, rows, rows_bytes)
      else
        match fuel with
        | O => OutOfFuel
        | S fuel =>
            '(row, it) ← take_head it;
            '(rows, rows_bytes) ← page_take heap_bytes bounds rows rows_bytes (key, row);
            drain heap_bytes upper_bound bounds fuel it rows rows_bytes
        end
  end.
Proof. by destruct fuel. Qed.

Lemma filled_take it x rest blocks row :
  filled it (x :: rest) → iterates catalog (with_blocks it blocks row) rest → filled (with_blocks it blocks row) rest.
Proof.
  intros [(_ & Ha & Hd) Hthrough] Hit. split; [|by intros _; apply Hthrough].
  split_and!; [done| |done]. destruct x. by apply ascending_cons in Ha as [Ha _].
Qed.

Lemma drain_correct fuel it rest rows seen others :
  filled it rest → loaded_row_count it - it.(it_row) ≤ fuel → holds seen rows → seen ++ below rest ++ others ≡ₚ all →
  ∃ it' rows' seen' rem,
    drain heap_bytes upper_bound bounds fuel it rows (weight rows) = Ok (it', rows', weight rows') ∧ leaves it' rem ∧
    fill_rounds catalog it' = fill_rounds catalog it ∧ holds seen' rows' ∧ seen' ++ rem ++ others ≡ₚ all.
Proof.
  revert it rest rows seen. induction fuel as [fuel IH] using lt_wf_ind. intros it rest rows seen Hf Hfuel Hh Hp.
  pose proof Hf as [(Hit & Ha & Hd) Hthrough]. rewrite drain_eq.
  destruct (iterates_head (Er:=ManifestLoadError) _ it rest Hit) as [-> Hne]. cbn [mbind res_bind].
  destruct (it_blocks it) as [|b bs] eqn:Hb.
  { exists it, rows, seen, (below rest). split_and!; [done| |done..]. exists rest. by rewrite Hb. }
  specialize (Hne ltac:(done)). destruct rest as [|[key row] rest]; [done|]. cbn [head].
  assert (leaves it []) as Hleaves by (exists ((key, row) :: rest); by rewrite Hb).
  pose proof (ascending_head_le (key, row) rest) as Hle. destruct (below_upper upper_bound key) eqn:Eb; cbn [negb].
  2:{ exists it, rows, seen, []. split_and!; [done..|]. rewrite below_none in Hp; [done|].
      intros y Hy. eapply below_upper_false; [exact Eb|]. by apply Hle. }
  destruct (page_full bounds rows (weight rows) && _) eqn:Estop.
  - apply andb_true_iff in Estop as [Hfull Hlast]. apply (full_iff seen rows) in Hfull; [|done].
    unfold last_key_is in Hlast. destruct (last rows) as [[last lrow]|] eqn:El; [|done].
    apply bool_decide_eq_true, not_lt_kle in Hlast.
    destruct (absorb (below ((key, row) :: rest)) others seen rows Hh Hp) as (seen' & Hh' & Hp').
    { right. split; [done|]. exists (last, lrow). split; [done|]. intros x [_ Hx]%list_elem_of_filter.
      apply (kle_trans _ key); [done|]. by apply Hle. }
    by exists it, rows, seen', [].
  - destruct (iterates_take (Er:=ManifestLoadError) _ it _ Hit) as (x & rest' & blocks' & position & Ex & Ht & Hit' & Hcount);
      [by rewrite Hb|]. injection Ex as <- <-.
    destruct fuel as [|fuel]; [lia|]. rewrite Ht. cbn [mbind res_bind snd].
    unfold below in Hp. rewrite filter_cons_True in Hp by done. cbn [app] in Hp.
    destruct (take_row seen rows (key, row) _ Hh Hp Estop) as (seen' & rows' & -> & Hh' & Hp'). cbn [mbind res_bind].
    destruct (IH fuel ltac:(lia) (with_blocks it blocks' position) rest rows' seen')
      as (it' & rows2 & seen2 & rem & -> & Hl & Hr & Hh2 & Hp2); [by eapply filled_take|cbn; cbn in Hcount; lia|done|done|].
    by exists it', rows2, seen2, rem.
Qed.

Lemma drain_all_correct iterators rests rows seen others :
  Forall2 filled iterators rests → holds seen rows → seen ++ concat (below <$> rests) ++ others ≡ₚ all →
  ∃ iterators' rows' seen' rems,
    drain_all heap_bytes upper_bound bounds iterators rows (weight rows) = Ok (iterators', rows', weight rows') ∧
    Forall2 leaves iterators' rems ∧ fill_rounds catalog <$> iterators' = fill_rounds catalog <$> iterators ∧
    holds seen' rows' ∧ seen' ++ concat rems ++ others ≡ₚ all.
Proof.
  intros Hf. revert rows seen others. induction Hf as [|it rest iterators rests Hit Hf IH]; intros rows seen others Hh Hp.
  { by exists [], rows, seen, []. }
  cbn [drain_all]. cbn [fmap list_fmap concat] in Hp. rewrite <-app_assoc in Hp.
  destruct (drain_correct (loaded_row_count it) it rest rows seen _ Hit ltac:(lia) Hh Hp)
    as (it' & rows1 & seen1 & rem & -> & Hl & Hr & Hh1 & Hp1). cbn [mbind res_bind].
  destruct (IH rows1 seen1 (rem ++ others)) as (its & rows2 & seen2 & rems & -> & Hls & Hrs & Hh2 & Hp2); [done| |].
  { rewrite <-Hp1. f_equiv. rewrite !app_assoc. f_equiv. apply Permutation_app_comm. }
  cbn [mbind res_bind]. exists (it' :: its), rows2, seen2, (rem :: rems). split_and!; [done|by constructor| |done|].
  - cbn. by rewrite Hr, Hrs.
  - cbn [concat]. rewrite <-Hp2. f_equiv. rewrite !app_assoc. f_equiv. apply Permutation_app_comm.
Qed.

(** *** What an iterator has left *)

(** An iterator of one segment whose loaded blocks end with [last_key]. *)
Lemma after_last_key it rest last_key :
  filled it rest → it.(it_blocks) = [] → loaded_through_key it = Some last_key →
  ∃ d, it.(it_segments) = [d] ∧ described catalog d ∧ current_segment it = Some d ∧
    (∀ x, x ∈ rest → cmp last_key x.1 = Lt ∧ kle x.1 d.(sd_descriptor).(ms_max_row_key)) ∧
    (cmp last_key d.(sd_descriptor).(ms_max_row_key) = Lt → needs_fill it = true).
Proof.
  intros [((blocks & Hb & _ & _ & Hidx & Hseg & Hhas & ->) & Ha & d & Hd & Hdesc) _] Hnil Hthrough.
  rewrite Hnil in Hb. destruct blocks; [|done]. cbn [loaded_rows app]. exists d.
  unfold loaded_through_key in Hthrough. destruct (it_index it) as [index|] eqn:Ei; [|done]. cbn in Hthrough.
  destruct (it_next_block it) as [|pos] eqn:En; [done|].
  apply fmap_Some in Hthrough as (e & He & ->). destruct (Hidx index eq_refl) as (d' & Hcur & ->).
  assert (it_next_segment it = 1 ∧ d' = d) as [Hn ->].
  { unfold current_segment in Hcur. rewrite Hd in Hcur, Hseg. destruct (it_next_segment it) as [|[|n]]; [done| |cbn in Hseg; lia].
    by injection Hcur as ->. }
  destruct Hdesc as (Hhasd & Hasc & Hcount & Hmin & Hlast). pose proof (cat_indexes _ Hhasd) as Hfor.
  destruct (Forall2_lookup_l _ _ _ _ _ Hfor He) as (block & Hblock & Hblast).
  split_and!; [done|by split_and!|done| |].
  - intros x Hx. unfold from_lower, pending_rows in Hx. apply list_elem_of_filter in Hx as [_ Hx].
    rewrite Ei, Hcur, Hn, Hd in Hx. cbn in Hx. rewrite app_nil_r, En in Hx. split.
    + rewrite <-(take_drop (S pos) (cat_blocks catalog d)), concat_app in Hasc.
      apply last_elem_of, list_elem_of_fmap in Hblast as (y & -> & Hy). apply (page_after _ _ _ y x Hasc eq_refl); [|done].
      apply elem_of_concat. exists block. split; [|done].
      apply (list_elem_of_lookup_2 _ pos). by rewrite lookup_take_lt by lia.
    + apply (sorted_last (concat (cat_blocks catalog d)).*1); [by apply cat_sorted|by rewrite fmap_last|].
      apply list_elem_of_fmap_2. rewrite <-(take_drop (S pos) (cat_blocks catalog d)), concat_app.
      apply elem_of_app. by right.
  - intros Hlt. unfold needs_fill, is_exhausted. rewrite Hnil, Hd, Hn, Ei, En. cbn [length andb].
    rewrite !bool_decide_true by done. cbn [andb Nat.leb negb]. destruct (Nat.leb_spec (length (cat_index catalog d)) (S pos)) as [Hle|]; [|done].
    exfalso. apply (cmp_lt_ne (sie_last_row_key e) (ms_max_row_key (sd_descriptor d))); [done|].
    pose proof (Forall2_length _ _ _ Hfor) as Hlen. rewrite fmap_last in Hblast.
    apply fmap_Some in Hblast as (z & [b' ->]%last_Some & ->).
    rewrite <-(take_drop_middle _ _ _ Hblock), drop_ge in Hlast by lia. rewrite concat_app in Hlast. cbn [concat] in Hlast.
    rewrite app_nil_r, app_assoc, last_snoc in Hlast. by injection Hlast.
Qed.

(** *** Retaining *)

(** A stays-open test keeps the iterators that have rows of the range left
    which the page may still take; the rows of the others are accounted for. *)
Lemma stays_open_correct it rem rows seen others :
  leaves it rem → holds seen rows → seen ++ rem ++ others ≡ₚ all →
  ∃ stays, stays_open upper_bound bounds rows (weight rows) it = Ok stays ∧
    if stays : bool then ∃ rest, open_with it rest ∧ rem = below rest
    else ∃ seen', holds seen' rows ∧ seen' ++ others ≡ₚ all.
Proof.
  intros (rest & Hf & Hrem1 & Hrem2) Hh Hp. unfold stays_open.
  destruct (iterates_head (Er:=ManifestLoadError) _ it rest (proj1 (proj1 Hf))) as [Hhead Hne].
  assert (rem = [] → ∃ seen', holds seen' rows ∧ seen' ++ others ≡ₚ all) as Hnone.
  { intros ->. by exists seen. }
  destruct (loaded_through_key it) as [last_key|] eqn:Ethrough.
  2:{ exists false. split; [done|]. destruct (it_blocks it) as [|b bs] eqn:Eb; [|by apply Hnone, Hrem1].
      apply Hnone. rewrite Hrem2 by done. destruct rest; [done|]. destruct Hf as [_ Hf].
      rewrite Ethrough in Hf. by destruct (Hf ltac:(done)). }
  rewrite Hhead. cbn [mbind res_bind]. destruct (it_blocks it) as [|b bs] eqn:Eb.
  2:{ specialize (Hne ltac:(done)). destruct rest as [|x rest]; [done|]. cbn [head]. exists false.
      split; [done|]. by apply Hnone, Hrem1. }
  specialize (Hrem2 eq_refl).
  destruct (after_last_key it rest last_key Hf Eb Ethrough) as (d & Hd & Hdesc & -> & Hrest & Hneed).
  cbn [andb]. eexists. split; [reflexivity|]. case_bool_decide as Hlt; cbn [andb].
  2:{ apply Hnone. rewrite Hrem2. destruct rest as [|x rest]; [done|]. destruct (Hrest x ltac:(by left)) as [H1 H2].
      destruct Hlt. by eapply lt_kle_trans. }
  destruct (below_upper upper_bound last_key) eqn:Eu; cbn [andb].
  2:{ apply Hnone. rewrite Hrem2. apply below_none. intros y Hy. eapply below_upper_false; [exact Eu|].
      apply lt_kle. by apply Hrest. }
  destruct (negb _ || _) eqn:Epage.
  - exists rest. split; [|done]. split_and!; [by destruct Hf|done|by apply Hneed].
  - apply orb_false_iff in Epage as [Hfull%negb_false_iff Hlast]. apply (full_iff seen rows) in Hfull; [|done].
    apply (absorb rem others seen rows Hh Hp). right. split; [done|].
    destruct (last rows) as [[last lrow]|] eqn:El; [|by apply last_None in El as ->; apply full_ne in Hfull].
    exists (last, lrow). split; [done|]. intros x Hx. rewrite Hrem2 in Hx. apply list_elem_of_filter in Hx as [_ Hx].
    unfold last_key_is in Hlast. rewrite El in Hlast. apply bool_decide_eq_false, not_lt_kle in Hlast.
    apply (kle_trans _ last_key); [done|]. apply lt_kle. by apply Hrest.
Qed.

Lemma retain_open_correct iterators rems rows seen others :
  Forall2 leaves iterators rems → holds seen rows → seen ++ concat rems ++ others ≡ₚ all →
  ∃ iterators' rests seen', retain_open upper_bound bounds rows (weight rows) iterators = Ok iterators' ∧
    Forall2 open_with iterators' rests ∧ sublist iterators' iterators ∧
    holds seen' rows ∧ seen' ++ concat (below <$> rests) ++ others ≡ₚ all.
Proof.
  intros Hf. revert seen others. induction Hf as [|it rem iterators rems Hit Hf IH]; intros seen others Hh Hp.
  { by exists [], [], seen. }
  cbn [retain_open]. cbn [concat] in Hp. rewrite <-app_assoc in Hp.
  destruct (stays_open_correct it rem rows seen _ Hit Hh Hp) as (stays & -> & Hstays). cbn [mbind res_bind].
  destruct stays.
  - destruct Hstays as (rest & Hopen & ->).
    destruct (IH seen (below rest ++ others)) as (its & rests & seen' & -> & Ho & Hsub & Hh' & Hp'); [done| |].
    { rewrite <-Hp. f_equiv. rewrite !app_assoc. f_equiv. apply Permutation_app_comm. }
    exists (it :: its), (rest :: rests), seen'. split_and!; [done|by constructor|by constructor|done|].
    cbn [fmap list_fmap concat]. rewrite <-Hp'. f_equiv. rewrite !app_assoc. f_equiv. apply Permutation_app_comm.
  - destruct Hstays as (seen1 & Hh1 & Hp1). destruct (IH seen1 others Hh1 Hp1) as (its & rests & seen' & -> & Ho & Hsub & Hh' & Hp').
    exists its, rests, seen'. split_and!; [done|done|by constructor|done|done].
Qed.

(** *** Opening *)
Lemma below_from_lower d : below (from_lower (Some lower_bound) (concat (cat_blocks catalog d))) =
  range_rows catalog lower_bound upper_bound d.
Proof.
  unfold below, from_lower, range_rows. rewrite list_filter_filter. apply list_filter_iff. intros [k r].
  unfold in_key_range, at_or_above, below_upper. cbn. destruct upper_bound; [rewrite bool_decide_eq_true|]; naive_solver.
Qed.

Lemma open_iterator_open d :
  described catalog d →
  open_with (open_iterator lower_bound d) (from_lower (Some lower_bound) (concat (cat_blocks catalog d))).
Proof.
  intros Hd. pose proof Hd as (Hhas & Ha & _). split_and!; [|done|done]. split_and!.
  - pose proof (iterates_new catalog () [d] (Some lower_bound)) as Hn. cbn in Hn. rewrite app_nil_r in Hn. apply Hn. by repeat constructor.
  - by apply sorted_filter.
  - by exists d.
Qed.

Lemma open_pending_split t ds opened pending :
  open_pending t ds = (opened, pending) →
  ds = opened ++ pending ∧ ∀ d, head pending = Some d → cmp t d.(sd_descriptor).(ms_min_row_key) = Lt.
Proof.
  revert opened pending. induction ds as [|d ds IH]; intros opened pending; cbn [open_pending]; [by intros [= <- <-]|].
  case_decide as Hlt; [intros [= <- <-]; split; [done|by intros ? [= <-]]|].
  destruct (open_pending t ds) as [o r]. intros [= <- <-]. destruct (IH o r eq_refl) as [-> Hr]. by split.
Qed.

Lemma scan_order_min ds :
  StronglySorted (not_after scan_order) ds → StronglySorted kle ((λ d, d.(sd_descriptor).(ms_min_row_key)) <$> ds).
Proof.
  induction 1 as [|d ds Hs IH Hd]; [constructor|]. cbn. constructor; [done|]. apply Forall_fmap.
  eapply Forall_impl; [exact Hd|]. intros e He. unfold not_after, scan_order, lex in He. unfold kle. cbn.
  intros E. by rewrite E in He.
Qed.

Lemma range_rows_min d x :
  described catalog d → x ∈ range_rows catalog lower_bound upper_bound d → kle d.(sd_descriptor).(ms_min_row_key) x.1.
Proof.
  intros (_ & Ha & _ & Hmin & _) [_ Hx]%list_elem_of_filter. destruct (concat (cat_blocks catalog d)) as [|y rows]; [done|].
  injection Hmin as <-. by apply (ascending_head_le y rows).
Qed.

(** When nothing is opened, the pending segments start after a full page. *)
Lemma nothing_opened ds rows seen :
  holds seen rows → Forall (described catalog) ds → StronglySorted (not_after scan_order) ds →
  (open_pending (open_through lower_bound bounds ([] : list iterator) ds rows (weight rows)) ds).1 = [] →
  seen ++ concat (range_rows catalog lower_bound upper_bound <$> ds) ≡ₚ all → page all rows.
Proof.
  intros Hh Hd Hs Hnone Hp. assert (∃ seen', holds seen' rows ∧ seen' ++ [] ≡ₚ all) as (seen' & [Ha Hpg] & Hp').
  2:{ rewrite app_nil_r in Hp'. by rewrite <-(ascending_perm seen' all Ha Hall Hp'). }
  apply (absorb (concat (range_rows catalog lower_bound upper_bound <$> ds)) [] seen rows Hh); [by rewrite app_nil_r|].
  destruct ds as [|d ds]; [by left|right].
  destruct (open_pending _ _) as [opened rest] eqn:E in Hnone. cbn in Hnone. subst opened.
  destruct (open_pending_split _ _ _ _ E) as [Ed Hlt]. cbn in Ed. subst rest. specialize (Hlt d eq_refl).
  apply scan_order_min in Hs as Hmin. cbn [fmap list_fmap] in Hmin. apply StronglySorted_inv in Hmin as [_ Hmin].
  rewrite Forall_fmap, Forall_forall in Hmin. unfold open_through in Hlt.
  rewrite bool_decide_true in Hlt by done. cbn [andb] in Hlt.
  destruct (page_full bounds rows (weight rows)) eqn:Hfull; cbn [negb] in Hlt.
  2:{ exfalso. destruct (last (take SCAN_ITERATORS_OPEN (d :: ds))) as [c|] eqn:El; [|by apply last_None in El].
      apply last_elem_of in El. assert (kle (ms_min_row_key (sd_descriptor d)) (ms_min_row_key (sd_descriptor c))) as Hle.
      { apply (subseteq_take SCAN_ITERATORS_OPEN) in El as [->|Hc]%elem_of_cons; [apply kle_refl|by apply Hmin]. }
      apply (kle_not_lt _ _ Hle). case_decide as Hc; [by eapply cmp_lt_trans|done]. }
  apply (full_iff seen rows) in Hfull; [|done]. split; [done|].
  destruct (last rows) as [[last lrow]|] eqn:El; [|by apply last_None in El as ->; apply full_ne in Hfull].
  exists (last, lrow). split; [done|]. intros x Hx. apply elem_of_concat in Hx as (l & Hl & Hx).
  apply list_elem_of_fmap in Hl as (e & -> & He).
  rewrite Forall_forall in Hd. cbn. apply (kle_trans _ (ms_min_row_key (sd_descriptor e))); [|apply range_rows_min; [by apply Hd|done]].
  apply lt_kle. eapply lt_kle_trans; [exact Hlt|]. apply elem_of_cons in He as [->|He]; [apply kle_refl|by apply Hmin].
Qed.

(** *** Refilling *)
Lemma fill_all_correct loader `{!LoaderLaws loader catalog} fuel budget iterators rests its :
  Forall2 open_with iterators rests → fill_all fuel loader budget iterators = Ok its →
  Forall2 filled its rests ∧
  sum_list (fill_rounds catalog <$> its) + length iterators ≤ sum_list (fill_rounds catalog <$> iterators).
Proof.
  intros Ho. revert its. induction Ho as [|it rest iterators rests Hit Ho IH]; intros its Hf; cbn [fill_all] in Hf.
  { injection Hf as <-. split; [done|cbn; lia]. }
  destruct Hit as [(Hit & Ha & d & Hd & Hdesc) [Hb Hneed]]. rewrite Hneed in Hf.
  step_ok Hf it' Hfill. step_ok Hf its' Hits. injection Hf as <-. destruct (IH its' Hits) as [IH1 IH2].
  destruct (iterator_fill_correct catalog loader fuel budget it rest it' Hit ltac:(by rewrite Hb) Hfill)
    as (Hit' & (_ & Hseg & _) & Hnil & _ & Hlt & Hthrough). specialize (Hlt Hneed). split; [|cbn; lia].
  constructor; [|done]. split; [split_and!; [done|done|by exists d; rewrite Hseg]|].
  intros Hne. apply Hthrough. intros E. by apply Hne, Hnil.
Qed.

Lemma fill_all_returns loader `{!LoaderLaws loader catalog, !LoaderReturns loader catalog} fuel budget iterators rests :
  Forall2 open_with iterators rests → Forall (λ it, fill_rounds catalog it < fuel) iterators →
  returns (fill_all fuel loader budget iterators).
Proof.
  induction 1 as [|it rest iterators rests Hit Ho IH]; intros Hfuel; [done|].
  apply Forall_cons in Hfuel as [Hlt Hfuel]. cbn [fill_all]. apply returns_bind.
  - destruct (needs_fill it); [|done]. apply (iterator_fill_returns catalog loader fuel budget it rest); [apply Hit|done].
  - intros it' _. apply returns_bind; [by apply IH|done].
Qed.

Lemma filter_false_positives_Ok iterators rests :
  Forall2 filled iterators rests → ∃ n, filter_false_positives upper_bound iterators = Ok n.
Proof.
  induction 1 as [|it rest iterators rests Hit Hf [n Hn]]; [by exists 0|]. cbn [filter_false_positives].
  destruct (iterates_head (Er:=ManifestLoadError) _ it rest (proj1 (proj1 Hit))) as [-> _].
  rewrite Hn. cbn [mbind res_bind]. by eexists.
Qed.

(** *** The loop *)
Context (loaders : nat → L) (available_bytes : nat → N) (filter_admitted : bool).
Context `{Hlaws : !∀ round, LoaderLaws (loaders round) catalog}.

(** The refills that remain at most. *)
Definition refills_left iterators (ds : list ScanDescriptor) : nat :=
  sum_list (fill_rounds catalog <$> iterators) + sum_list ((λ d, S (length (cat_blocks catalog d))) <$> ds).

(** Between two rounds of the loop. *)
Definition scanning iterators (ds : list ScanDescriptor) rows : Prop :=
  ∃ rests seen, Forall2 open_with iterators rests ∧ holds seen rows ∧
    Forall (described catalog) ds ∧ StronglySorted (not_after scan_order) ds ∧
    seen ++ concat (below <$> rests) ++ concat (range_rows catalog lower_bound upper_bound <$> ds) ≡ₚ all.

Lemma opened_scanning iterators opened pending rows :
  scanning iterators (opened ++ pending) rows →
  scanning (iterators ++ (open_iterator lower_bound <$> opened)) pending rows ∧
  refills_left (iterators ++ (open_iterator lower_bound <$> opened)) pending = refills_left iterators (opened ++ pending).
Proof.
  intros (rests & seen & Ho & Hh & [Hd1 Hd2]%Forall_app & Hs & Hp). split.
  - exists (rests ++ ((λ d, from_lower (Some lower_bound) (concat (cat_blocks catalog d))) <$> opened)), seen.
    apply sorted_app_inv in Hs as (_ & Hs & _). split_and!; [|done..|].
    + apply Forall2_app; [done|]. apply Forall2_fmap, Forall_Forall2_diag.
      eapply Forall_impl; [exact Hd1|]. apply open_iterator_open.
    + rewrite fmap_app, concat_app, <-app_assoc, <-list_fmap_compose. rewrite fmap_app, concat_app in Hp.
      rewrite <-Hp. do 3 f_equiv. erewrite list_fmap_ext; [reflexivity|]. intros ? d _. apply below_from_lower.
  - unfold refills_left. rewrite !fmap_app, !sum_list_with_app, <-list_fmap_compose.
    assert (fill_rounds catalog ∘ open_iterator lower_bound <$> opened = (λ d, S (length (cat_blocks catalog d))) <$> opened) as ->.
    { apply list_fmap_ext. intros ? d _. unfold fill_rounds. cbn. lia. }
    lia.
Qed.

(** One round: a refill, the drain and the retain, once they are run. *)
Lemma round_scanning fuel round budget iterators ds rows its :
  scanning iterators ds rows → iterators ≠ [] → fill_all fuel (loaders round) budget iterators = Ok its →
  (∀ n, ∃ misses, filter_false_positives upper_bound (drop n its) = Ok misses) ∧
  ∃ its2 its3 rows',
    drain_all heap_bytes upper_bound bounds its rows (weight rows) = Ok (its2, rows', weight rows') ∧
    retain_open upper_bound bounds rows' (weight rows') its2 = Ok its3 ∧
    scanning its3 ds rows' ∧ refills_left its3 ds < refills_left iterators ds.
Proof.
  intros (rests & seen & Ho & Hh & Hd & Hs & Hp) Hne Hfill.
  destruct (fill_all_correct (loaders round) _ _ _ _ _ Ho Hfill) as [Hf Hlt]. split.
  { intros n. apply (filter_false_positives_Ok _ (drop n rests)). by apply Forall2_drop. }
  destruct (drain_all_correct its rests rows seen _ Hf Hh Hp) as (its2 & rows' & seen' & rems & Hdrain & Hl & Hr & Hh' & Hp').
  destruct (retain_open_correct its2 rems rows' seen' _ Hl Hh' Hp') as (its3 & rests3 & seen3 & Hretain & Ho3 & Hsub & Hh3 & Hp3).
  exists its2, its3, rows'. split_and!; [done|done|by exists rests3, seen3|].
  unfold refills_left. pose proof (sum_list_sublist (fill_rounds catalog) _ _ Hsub) as Hle. rewrite Hr in Hle.
  destruct iterators; [done|]. cbn [length] in Hlt. lia.
Qed.

Lemma combine_loop_eq fuel round iterators ds rows rows_bytes misses :
  combine_loop heap_bytes loaders available_bytes lower_bound upper_bound bounds filter_admitted fuel round iterators ds
    rows rows_bytes misses =
  let '(opened, pending) := open_pending (open_through lower_bound bounds iterators ds rows rows_bytes) ds in
  let its := iterators ++ (open_iterator lower_bound <$> opened) in
  if bool_decide (length its = 0) then Ok (rows, misses)
  else
    match fuel with
    | O => OutOfFuel
    | S fuel' =>
        '(_, its1) ← refill_iterators fuel (loaders round) its (available_bytes round);
        missed ← (if filter_admitted then filter_false_positives upper_bound (drop (length iterators) its1) else Ok 0);
        '(its2, rows, rows_bytes) ← drain_all heap_bytes upper_bound bounds its1 rows rows_bytes;
        its3 ← retain_open upper_bound bounds rows rows_bytes its2;
        combine_loop heap_bytes loaders available_bytes lower_bound upper_bound bounds filter_admitted fuel' (S round)
          its3 pending rows rows_bytes (misses + missed)
    end.
Proof. by destruct fuel. Qed.

Lemma scanning_fill_returns fuel round budget iterators ds rows :
  scanning iterators ds rows → (∀ round, LoaderReturns (loaders round) catalog) → refills_left iterators ds < fuel →
  returns (fill_all fuel (loaders round) budget iterators).
Proof.
  intros (rests & seen & Ho & _) Hret Hlt. apply (fill_all_returns (loaders round) _ _ _ rests); [done|].
  apply Forall_forall. intros it Hit. unfold refills_left in Hlt.
  apply (list_elem_of_fmap_2 (fill_rounds catalog)) in Hit.
  assert (fill_rounds catalog it ≤ sum_list (fill_rounds catalog <$> iterators)) by (by apply (sum_list_with_in _ id)). lia.
Qed.

Lemma combine_loop_correct fuel round iterators ds rows misses :
  scanning iterators ds rows →
  let result := combine_loop heap_bytes loaders available_bytes lower_bound upper_bound bounds filter_admitted fuel
    round iterators ds rows (weight rows) misses in
  (∀ p n, result = Ok (p, n) → p = page_prefix heap_bytes bounds.(pb_max_rows) bounds.(pb_max_bytes) all) ∧
  ((∀ round, LoaderReturns (loaders round) catalog) → refills_left iterators ds < fuel → returns result).
Proof.
  revert round iterators ds rows misses. induction fuel as [fuel IH] using lt_wf_ind.
  intros round iterators ds rows misses Hscan. cbv zeta. rewrite combine_loop_eq.
  destruct (open_pending _ ds) as [opened pending] eqn:Eopen. destruct (open_pending_split _ _ _ _ Eopen) as [-> _].
  destruct (opened_scanning iterators opened pending rows Hscan) as [Hscan1 Hleft]. cbv zeta. case_bool_decide as Hnil.
  - apply nil_length_inv, app_eq_nil in Hnil as [-> ->%fmap_nil_inv]. split; [|done]. intros p n [= <- _].
    destruct Hscan as (rests & seen & Ho & Hh & Hd & Hs & Hp). apply Forall2_nil_inv_l in Ho as ->.
    apply (is_page_unique heap_bytes bounds.(pb_max_rows) bounds.(pb_max_bytes) all); [|apply page_prefix_is_page].
    apply (nothing_opened pending rows seen); [done..|by cbn in Eopen; rewrite Eopen|done].
  - destruct fuel as [|fuel']; [by split; [|lia]|]. unfold refill_iterators.
    set (its := iterators ++ (open_iterator lower_bound <$> opened)) in *.
    assert (its ≠ []) as Hne by (intros E; by rewrite E in Hnil).
    pose proof (scanning_fill_returns (S fuel') round
      (available_bytes round / N.of_nat (Nat.max (length its) 1))%N its pending rows Hscan1) as Hfill.
    destruct (fill_all _ _ _ its) as [its1| | |] eqn:Efill; cbn [mbind res_bind].
    + destruct (round_scanning _ _ _ _ _ _ _ Hscan1 Hne Efill)
        as (Hmiss & its2 & its3 & rows' & -> & Hretain & Hscan3 & Hlt).
      destruct (Hmiss (length iterators)) as [m Hm]. rewrite Hm. cbn [mbind res_bind].
      assert (∃ missed, (if filter_admitted then Ok m else Ok 0 : res ManifestLoadError nat) = Ok missed) as [missed ->]
        by (destruct filter_admitted; by eexists).
      cbn [mbind res_bind]. rewrite Hretain. cbn [mbind res_bind].
      destruct (IH fuel' ltac:(lia) (S round) its3 pending rows' (misses + missed) Hscan3) as [IH1 IH2].
      split; [exact IH1|]. intros Hret Hfuel. apply IH2; [done|lia].
    + done.
    + split; [done|]. intros Hret Hfuel. apply Hfill; [done|lia].
    + split; [done|]. intros Hret Hfuel. apply Hfill; [done|lia].
Qed.
End combine_laws.

(** The rows of the range in all the segments, in key order. *)
Definition range_of {Row} (catalog : Catalog Row ScanDescriptor) (lower : string) (upper : option string)
    (ds : list ScanDescriptor) (rows : list (string * Row)) : Prop :=
  ascending rows ∧ rows ≡ₚ concat (range_rows catalog lower upper <$> ds).

(** Enough fuel to combine the segments. *)
Definition combine_fuel {Row} (catalog : Catalog Row ScanDescriptor) (ds : list ScanDescriptor) : nat :=
  S (sum_list ((λ d, S (length (cat_blocks catalog d))) <$> ds)).

Lemma scan_order_sorted ds : StronglySorted (not_after scan_order) (sort_by scan_order ds).
Proof.
  set (key d := (d.(sd_descriptor).(ms_min_row_key), (d.(sd_descriptor).(ms_max_row_key), d.(sd_descriptor).(ms_segment_id)))).
  assert (∀ a b, scan_order a b = cmp (key a) (key b)) as Hkey by done.
  apply sort_by_sorted; unfold not_after; intros a b.
  - rewrite !Hkey. apply gt_kle.
  - intros c. rewrite !Hkey. apply kle_trans.
Qed.

Section combined.
Context {L Row : Type} `{SegmentBlockLoader L Row ScanDescriptor ManifestLoadError}.
Context (heap_bytes : Row → N) (catalog : Catalog Row ScanDescriptor) `{!CatalogLaws catalog}.
Implicit Types (ds : list ScanDescriptor) (all : list (string * Row)).

Lemma combine_correct loaders available_bytes lower upper bounds filter_admitted fuel ds all :
  (∀ round, LoaderLaws (loaders round) catalog) → Forall (described catalog) ds →
  range_of catalog lower upper ds all → (rows_weight heap_bytes all ≤ U64_MAX)%N →
  let result := combine_segment_rows heap_bytes loaders available_bytes lower upper bounds filter_admitted fuel ds in
  (∀ p n, result = Ok (p, n) → p = page_prefix heap_bytes bounds.(pb_max_rows) bounds.(pb_max_bytes) all) ∧
  ((∀ round, LoaderReturns (loaders round) catalog) → combine_fuel catalog ds ≤ fuel → returns result).
Proof.
  intros Hlaws Hd [Ha Hp] Hw. unfold combine_segment_rows. cbv zeta. case_bool_decide as Hmax.
  { split; [|done]. intros p n [= <- _]. rewrite Hmax. by destruct all. }
  assert (1 ≤ bounds.(pb_max_rows))%N as Hmax1 by lia. pose proof (sort_by_perm scan_order ds) as Hperm.
  destruct (combine_loop_correct heap_bytes catalog lower upper bounds Hmax1 all Ha Hw loaders available_bytes
    filter_admitted fuel 0 [] (sort_by scan_order ds) [] 0) as [H1 H2].
  - exists [], []. split_and!; [done| | |apply scan_order_sorted|].
    + split; [constructor|]. exists []. split_and!; [done|by left|]. by intros [|??].
    + by rewrite Hperm.
    + cbn. by rewrite Hperm.
  - split; [done|]. intros Hret Hfuel. apply H2; [done|]. unfold refills_left, combine_fuel in *. rewrite Hperm. cbn. lia.
Qed.

(** *** Selecting segments loses no rows *)
#[local] Abbreviation rows_of lower upper ds := (concat (range_rows catalog lower upper <$> ds)).

(** The descriptors that a run lists for a family. *)
Definition run_descriptors (family : MetadataRowFamily) (run : MetadataRunManifest) : list ScanDescriptor :=
  (λ descriptor, {| sd_descriptor := descriptor; sd_max_seq := run.(rm_run_seq) |}) <$>
  match find_first (λ fs, bool_decide (fs.(fs_family) = family)) run.(rm_segments) with
  | Some family_segments => family_segments.(fs_segments)
  | None => []
  end.

Definition may_hold (lower : string) (upper : option string) (d : ScanDescriptor) : Prop :=
  key_range_may_intersect d.(sd_descriptor).(ms_min_row_key) d.(sd_descriptor).(ms_max_row_key)
    d.(sd_descriptor).(ms_row_count) lower upper = true.
#[export] Instance may_hold_dec lower upper d : Decision (may_hold lower upper d).
Proof using Type. unfold may_hold. apply _. Defined.

Lemma push_run_candidates_Ok self candidates run family lower upper candidates' :
  push_run_candidates self candidates run family lower upper = Ok candidates' →
  candidates' = candidates ++ filter (may_hold lower upper) (run_descriptors family run).
Proof using Type.
  unfold push_run_candidates, run_descriptors, manifest_segment_for_family. intros Hp. step_ok Hp fs Hfs.
  apply ok_or_Ok in Hfs. rewrite Hfs. injection Hp as <-. by rewrite filter_fmap.
Qed.

Lemma push_candidates_Ok self candidates runs family lower upper candidates' :
  push_candidates self candidates runs family lower upper = Ok candidates' →
  candidates' = candidates ++ concat ((λ run, filter (may_hold lower upper) (run_descriptors family run)) <$> runs).
Proof using Type.
  revert candidates. induction runs as [|run runs IH]; intros candidates Hp; cbn [push_candidates] in Hp.
  { injection Hp as <-. by rewrite app_nil_r. }
  step_ok Hp c1 Hc1. apply push_run_candidates_Ok in Hc1 as ->. apply IH in Hp as ->. by rewrite <-app_assoc.
Qed.

Lemma described_bounds d x :
  described catalog d → x ∈ concat (cat_blocks catalog d) →
  kle d.(sd_descriptor).(ms_min_row_key) x.1 ∧ kle x.1 d.(sd_descriptor).(ms_max_row_key) ∧
  d.(sd_descriptor).(ms_row_count) ≠ 0%N.
Proof.
  intros (Hhas & Ha & Hcount & Hmin & Hmax) Hx. pose proof (cat_sorted _ Hhas) as Hs. split_and!.
  - destruct (concat (cat_blocks catalog d)) as [|y rows]; [done|]. injection Hmin as <-. by apply (ascending_head_le y rows).
  - apply (sorted_last (concat (cat_blocks catalog d)).*1); [done|by rewrite fmap_last|by apply list_elem_of_fmap_2].
  - rewrite Hcount. destruct (concat (cat_blocks catalog d)); [by apply elem_of_nil in Hx|cbn; lia].
Qed.

Lemma may_hold_false lower upper d : described catalog d → ¬ may_hold lower upper d → range_rows catalog lower upper d = [].
Proof.
  intros Hd Hno. apply filter_none. intros x Hx [Hl Hu]. apply Hno.
  destruct (described_bounds d x Hd Hx) as (Hmin & Hmax & Hcount). unfold may_hold, key_range_may_intersect.
  rewrite !andb_true_iff, negb_true_iff, N.eqb_neq. split_and!; [done|apply bool_decide_eq_true; by eapply kle_trans|].
  destruct upper as [u|]; [|done]. apply bool_decide_eq_true. by eapply kle_lt_trans.
Qed.

Lemma rows_of_app lower upper ds ds' : rows_of lower upper (ds ++ ds') = rows_of lower upper ds ++ rows_of lower upper ds'.
Proof using Type. by rewrite fmap_app, concat_app. Qed.

Lemma rows_of_may_hold lower upper ds :
  Forall (described catalog) ds → rows_of lower upper (filter (may_hold lower upper) ds) = rows_of lower upper ds.
Proof.
  induction 1 as [|d ds Hd Hds IH]; [done|]. rewrite filter_cons. case_decide as Hm; cbn [fmap list_fmap concat].
  - by rewrite IH.
  - by rewrite (may_hold_false _ _ d), IH.
Qed.

(** The probe's filters are right about the segments with rows in the range. *)
Definition filters_sound `{SectionCodecs} (load_segment_filter : MetadataSegmentRef → res ManifestLoadError SegmentFilter)
    (lower : string) (upper : option string) (probe : string) (d : ScanDescriptor) : Prop :=
  ∀ filter, load_segment_filter d.(sd_descriptor) = Ok filter → range_rows catalog lower upper d ≠ [] →
    may_contain filter probe = Ok true.

Lemma filter_admissions_Ok `{SectionCodecs} load_segment_filter ds probe admissions :
  filter_admissions load_segment_filter ds probe = Ok admissions →
  Forall2 (λ d admits, segment_filter_admits load_segment_filter d.(sd_descriptor) probe = Ok admits) ds admissions.
Proof using Type.
  revert admissions. induction ds as [|d ds IH]; intros admissions Hf; cbn [filter_admissions] in Hf.
  { by injection Hf as <-. }
  step_ok Hf admits Ha. step_ok Hf rest Hr. injection Hf as <-. constructor; [done|by apply IH].
Qed.

Lemma rows_of_admitted `{SectionCodecs} load_segment_filter lower upper probe ds admissions :
  Forall2 (λ d admits, segment_filter_admits load_segment_filter d.(sd_descriptor) probe = Ok admits) ds admissions →
  Forall (filters_sound load_segment_filter lower upper probe) ds →
  rows_of lower upper (admitted_of ds admissions) = rows_of lower upper ds.
Proof using Type.
  unfold admitted_of. induction 1 as [|d admits ds admissions Ha Hf IH]; intros Hs; [done|].
  apply Forall_cons in Hs as [Hd Hs]. cbn [zip zip_with]. rewrite filter_cons. cbn [snd].
  destruct admits; [rewrite decide_True by done|rewrite decide_False by done]; cbn [fmap list_fmap concat fst]; rewrite IH by done; [done|].
  unfold segment_filter_admits in Ha. step_ok Ha sf Hload. specialize (Hd sf Hload).
  destruct (range_rows catalog lower upper d); [done|]. rewrite Hd in Ha by done. done.
Qed.

Lemma admitted_of_sublist ds admissions : sublist (admitted_of ds admissions) ds.
Proof using Type.
  unfold admitted_of. revert admissions. induction ds as [|d ds IH]; intros [|a admissions]; [done|done|apply sublist_nil_l|].
  cbn [zip zip_with]. rewrite filter_cons. case_decide; cbn; by constructor.
Qed.

Lemma filter_admissions_returns `{SectionCodecs} load_segment_filter ds probe :
  (∀ d, d ∈ ds → returns (segment_filter_admits load_segment_filter d.(sd_descriptor) probe)) →
  returns (filter_admissions load_segment_filter ds probe).
Proof using Type.
  induction ds as [|d ds IH]; intros Hr; [done|]. cbn [filter_admissions]. apply returns_bind; [apply Hr; by left|].
  intros admits _. apply returns_bind; [|done]. apply IH. intros d' Hd'. apply Hr. by right.
Qed.

Lemma push_candidates_returns self candidates runs family lower upper :
  returns (push_candidates self candidates runs family lower upper).
Proof using Type.
  revert candidates. induction runs as [|run runs IH]; intros candidates; [done|]. cbn [push_candidates].
  apply returns_bind; [|done]. unfold push_run_candidates, manifest_segment_for_family.
  apply returns_bind; [apply returns_ok_or|done].
Qed.

(** *** The scans *)
Section scans_laws.
Context `{SectionCodecs} (load_segment_filter : MetadataSegmentRef → res ManifestLoadError SegmentFilter).
Context (scan_loader : BlocksPerRefill → option string → nat → nat → L) (available_bytes : nat → nat → N).
Context (self : VerifiedMetadataSegments) (family : MetadataRowFamily).

(** Every descriptor of the family, newest run first. *)
Definition family_descriptors : list ScanDescriptor := concat (run_descriptors family <$> self.(vs_scan_runs)).

(** The manifest's segments are stored as described, and the loaders serve them. *)
Definition serves : Prop :=
  Forall (described catalog) family_descriptors ∧
  ∀ blocks_per_refill upper call round, LoaderLaws (scan_loader blocks_per_refill upper call round) catalog.
Definition serves_returns : Prop :=
  (∀ blocks_per_refill upper call round, LoaderReturns (scan_loader blocks_per_refill upper call round) catalog) ∧
  ∀ d probe, d ∈ family_descriptors → returns (segment_filter_admits load_segment_filter d.(sd_descriptor) probe).

Definition probe_sound (lower : string) (upper : option string) (filter_probe : option string) : Prop :=
  match filter_probe with
  | None => True
  | Some probe => Forall (filters_sound load_segment_filter lower upper probe) family_descriptors
  end.

Lemma candidates_rows lower upper runs :
  Forall (described catalog) (concat (run_descriptors family <$> runs)) →
  rows_of lower upper (concat ((λ run, filter (may_hold lower upper) (run_descriptors family run)) <$> runs)) =
  rows_of lower upper (concat (run_descriptors family <$> runs)).
Proof.
  induction runs as [|run runs IH]; intros Hd; [done|]. cbn [fmap list_fmap concat] in *. apply Forall_app in Hd as [Hd1 Hd2].
  by rewrite !rows_of_app, IH, rows_of_may_hold.
Qed.

Lemma candidates_sublist lower upper runs :
  sublist (concat ((λ run, filter (may_hold lower upper) (run_descriptors family run)) <$> runs))
    (concat (run_descriptors family <$> runs)).
Proof using Type.
  induction runs as [|run runs IH]; [done|]. cbn [fmap list_fmap concat]. apply sublist_app; [|done]. apply sublist_filter.
Qed.

Lemma push_candidates_rows lower upper candidates :
  Forall (described catalog) family_descriptors →
  push_candidates self [] self.(vs_scan_runs) family lower upper = Ok candidates →
  sublist candidates family_descriptors ∧ rows_of lower upper candidates = rows_of lower upper family_descriptors.
Proof.
  intros Hd ->%push_candidates_Ok. cbn [app]. split; [apply candidates_sublist|by apply candidates_rows].
Qed.

Lemma Forall_sublist {A} (P : A → Prop) (l l' : list A) : Forall P l → sublist l' l → Forall P l'.
Proof using Type. rewrite !Forall_forall. intros Hl Hs x Hx. apply Hl. by eapply elem_of_sublist. Qed.

Lemma combine_fuel_incl ds ds' : sublist ds' ds → combine_fuel catalog ds' ≤ combine_fuel catalog ds.
Proof using Type. intros Hs. unfold combine_fuel. by apply le_n_S, sum_list_sublist. Qed.

Lemma scan_range_bounded_correct fuel lower upper bounds filter_probe blocks_per_refill all :
  serves → probe_sound lower upper filter_probe → range_of catalog lower upper family_descriptors all →
  (rows_weight heap_bytes all ≤ U64_MAX)%N →
  let result := scan_range_bounded heap_bytes load_segment_filter scan_loader available_bytes fuel self family lower
    upper bounds filter_probe blocks_per_refill in
  (∀ p n, result = Ok (p, n) → p = page_prefix heap_bytes bounds.(pb_max_rows) bounds.(pb_max_bytes) all) ∧
  (serves_returns → combine_fuel catalog family_descriptors ≤ fuel → returns result).
Proof.
  intros [Hd Hlaws] Hprobe [Ha Hp] Hw. unfold scan_range_bounded. cbv zeta.
  assert (∀ candidates admitted, push_candidates self [] self.(vs_scan_runs) family lower upper = Ok candidates →
    filter_admitted_descriptors load_segment_filter candidates filter_probe = Ok admitted →
    sublist admitted family_descriptors ∧ rows_of lower upper admitted = rows_of lower upper family_descriptors) as Hadm.
  { intros candidates admitted Hc Hadm. destruct (push_candidates_rows _ _ _ Hd Hc) as [Hsub Hrows].
    destruct filter_probe as [probe|]; cbn in Hadm; [|by injection Hadm as <-].
    step_ok Hadm admissions Hf. injection Hadm as <-. apply filter_admissions_Ok in Hf. split.
    - etrans; [apply admitted_of_sublist|done].
    - rewrite <-Hrows. apply (rows_of_admitted load_segment_filter _ _ probe); [done|]. by eapply Forall_sublist. }
  split.
  - intros p n Hr. step_ok Hr candidates Hc. step_ok Hr admitted Hf. destruct (Hadm _ _ Hc Hf) as [Hsub Hrows].
    refine (proj1 (combine_correct _ _ _ _ _ _ _ admitted all _ _ _ Hw) p n Hr);
      [by eapply Forall_sublist|]. split; [done|by rewrite Hrows].
  - intros [Hret Hfret] Hfuel. apply returns_bind; [apply push_candidates_returns|]. intros candidates Hc.
    destruct (push_candidates_rows _ _ _ Hd Hc) as [Hsub0 _]. apply returns_bind.
    { destruct filter_probe as [probe|]; [|done]. apply returns_bind; [|done]. apply filter_admissions_returns.
      intros d Hin. apply Hfret. by eapply elem_of_sublist. }
    intros admitted Hf. destruct (Hadm _ _ Hc Hf) as [Hsub Hrows].
    apply combine_correct with (all:=all); [apply Hlaws|by eapply Forall_sublist| |done| |].
    + split; [done|by rewrite Hrows].
    + apply Hret.
    + etrans; [by apply combine_fuel_incl|done].
Qed.

Lemma prefix_in_range p : in_key_range p (string_prefix_upper_bound p) p.
Proof using Type.
  split; [apply kle_refl|]. unfold string_prefix_upper_bound. destruct (increment_last (as_bytes p)) as [u|] eqn:E; [|done].
  destruct (utf8_valid u); [|done]. apply (increment_last_exact p u p E). apply starts_with_spec. exists "".
  by rewrite string_app_nil_r.
Qed.

(** The rows stored for the family. *)
Definition stored_rows : list (string * Row) := concat ((λ d, concat (cat_blocks catalog d)) <$> family_descriptors).

Lemma rows_of_elem lower upper x :
  x ∈ rows_of lower upper family_descriptors ↔ x ∈ stored_rows ∧ in_key_range lower upper x.1.
Proof using Type.
  unfold stored_rows. rewrite !elem_of_concat. split.
  - intros (l & (d & -> & Hd)%list_elem_of_fmap & [Hr Hx]%list_elem_of_filter). split; [|done].
    exists (concat (cat_blocks catalog d)). split; [by apply (list_elem_of_fmap_2 (λ d, concat (cat_blocks catalog d)))|done].
  - intros [(l & (d & -> & Hd)%list_elem_of_fmap & Hx) Hr]. exists (range_rows catalog lower upper d).
    split; [by apply list_elem_of_fmap_2|by apply list_elem_of_filter].
Qed.

Lemma find_row_correct fuel key filter_probe all :
  serves → probe_sound key (string_prefix_upper_bound key) (Some filter_probe) →
  range_of catalog key (string_prefix_upper_bound key) family_descriptors all →
  (rows_weight heap_bytes all ≤ U64_MAX)%N →
  let result := find_row heap_bytes load_segment_filter scan_loader available_bytes fuel self family key filter_probe in
  (∀ found, result = Ok found → ∀ row, found = Some row ↔ (key, row) ∈ stored_rows) ∧
  (serves_returns → combine_fuel catalog family_descriptors ≤ fuel → returns result).
Proof.
  intros Hserves Hprobe [Ha Hp] Hw. unfold find_row, scan_range. cbv zeta.
  destruct (scan_range_bounded_correct fuel key (string_prefix_upper_bound key)
    {| pb_max_rows := U64_MAX; pb_max_bytes := U64_MAX |} (Some filter_probe) RefillOne all Hserves Hprobe
    (conj Ha Hp) Hw) as [Hok Hret].
  split.
  - intros found Hf row. step_ok Hf r Hr. destruct r as [rows n]. apply Hok in Hr as ->. injection Hf as <-.
    assert (∀ x, x ∈ all ↔ x ∈ stored_rows ∧ in_key_range key (string_prefix_upper_bound key) x.1) as Hall.
    { intros x. by rewrite Hp, rows_of_elem. }
    pose proof (prefix_in_range key) as Hin.
    assert ((key, row) ∈ stored_rows ↔ (key, row) ∈ all) as -> by (rewrite Hall; naive_solver).
    destruct all as [|[k v] all]; [set_solver|]. cbn [page_prefix pb_max_rows pb_max_bytes].
    rewrite decide_False by done. set (rest := if decide _ then [] else _). unfold find_first. rewrite filter_cons. cbn [fst].
    case_decide as Ek.
    + subst k. cbn. split.
      * intros [= ->]. by left.
      * intros Hrow. by injection (ascending_key_inj _ _ _ Ha Hrow ltac:(by left) eq_refl) as ->.
    + assert (∀ x, x ∈ (k, v) :: all → x.1 ≠ key) as Hne.
      { intros x Hx <-. pose proof (ascending_head_le _ _ _ Ha Hx) as Hle.
        destruct (proj1 (Hall (k, v)) ltac:(by left)) as [_ [Hge _]]. by apply Ek, kle_antisym. }
      rewrite filter_none.
      * split; [done|]. intros Hrow. by apply Hne in Hrow.
      * intros x Hx. apply Hne. right. unfold rest in Hx. case_decide; [by apply elem_of_nil in Hx|].
        by eapply page_prefix_elem.
  - intros Hsret Hfuel. apply returns_bind; [by apply Hret|]. by intros [??].
Qed.

(** *** The newest run *)
#[local] Abbreviation run_candidates lower upper run := (filter (may_hold lower upper) (run_descriptors family run)).

(** The ends of consecutive slices of the given lengths. *)
Fixpoint slice_ends {A} (start : nat) (ls : list (list A)) : list nat :=
  match ls with [] => [] | l :: ls => (start + length l) :: slice_ends (start + length l) ls end.

Lemma slice_middle {A} (pre l post : list A) stop :
  stop = length pre + length l → slice (length pre) stop (pre ++ l ++ post) = l.
Proof using Type.
  intros ->. unfold slice. rewrite drop_app_length. replace (length pre + length l - length pre) with (length l) by lia.
  apply take_app_length.
Qed.

Lemma push_candidates_with_ends_Ok candidates run_ends runs lower upper result :
  push_candidates_with_ends self candidates run_ends runs family lower upper = Ok result →
  result = (candidates ++ concat ((λ run, run_candidates lower upper run) <$> runs),
            run_ends ++ slice_ends (length candidates) ((λ run, run_candidates lower upper run) <$> runs)).
Proof using Type.
  revert candidates run_ends. induction runs as [|run runs IH]; intros candidates run_ends Hp; cbn [push_candidates_with_ends] in Hp.
  { injection Hp as <-. by rewrite !app_nil_r. }
  step_ok Hp c1 Hc1. apply push_run_candidates_Ok in Hc1 as ->. apply IH in Hp as ->. cbn [fmap list_fmap concat slice_ends].
  by rewrite length_app, <-!app_assoc.
Qed.

Lemma push_candidates_with_ends_returns candidates run_ends runs lower upper :
  returns (push_candidates_with_ends self candidates run_ends runs family lower upper).
Proof using Type.
  revert candidates run_ends. induction runs as [|run runs IH]; intros candidates run_ends; [done|].
  cbn [push_candidates_with_ends]. apply returns_bind; [|done]. unfold push_run_candidates, manifest_segment_for_family.
  apply returns_bind; [apply returns_ok_or|done].
Qed.

(** The page of the first run that has rows. *)
Definition newest_page (limit : N) (alls : list (list (string * Row))) : list (string * Row) :=
  default [] (page_prefix heap_bytes limit U64_MAX <$> find_first (λ all, all ≠ []) alls).

Lemma newest_page_cons limit all alls :
  newest_page limit (all :: alls) =
  match page_prefix heap_bytes limit U64_MAX all with [] => newest_page limit alls | rows => rows end.
Proof using Type.
  unfold newest_page, find_first. rewrite filter_cons. destruct all as [|x all]; [by rewrite decide_False by naive_solver|].
  rewrite decide_True by done. cbn. case_decide as E; [|done]. subst limit.
  destruct (filter _ alls) as [|[|y ys] ?]; [done|done|]. cbn. done.
Qed.

Lemma scan_newest_correct fuel call pre apre runs admissions alls filter_probe lower upper limit blocks_per_refill :
  (∀ round blocks upper call, LoaderLaws (scan_loader blocks upper call round) catalog) →
  Forall (described catalog) (concat (run_descriptors family <$> runs)) →
  Forall (filters_sound load_segment_filter lower upper filter_probe) (concat (run_descriptors family <$> runs)) →
  Forall2 (λ run all, range_of catalog lower upper (run_descriptors family run) all ∧
    (rows_weight heap_bytes all ≤ U64_MAX)%N) runs alls →
  Forall2 (λ d admits, segment_filter_admits load_segment_filter d.(sd_descriptor) filter_probe = Ok admits)
    (concat ((λ run, run_candidates lower upper run) <$> runs)) admissions →
  length pre = length apre →
  let css := (λ run, run_candidates lower upper run) <$> runs in
  let result := scan_newest heap_bytes scan_loader available_bytes fuel call (pre ++ concat css) (apre ++ admissions)
    (length pre) (slice_ends (length pre) css) lower upper limit blocks_per_refill in
  (∀ p, result = Ok p → p = newest_page limit alls) ∧
  (serves_returns → combine_fuel catalog (concat (run_descriptors family <$> runs)) ≤ fuel → returns result).
Proof.
  intros Hlaws Hd Hsound Halls. cbv zeta. revert call pre apre admissions Hd Hsound.
  induction Halls as [|run all runs alls [[Ha Hp] Hw] Halls IH]; intros call pre apre admissions Hd Hsound Hadm Hlen.
  { split; [by intros p [= <-]|done]. }
  cbn [fmap list_fmap concat slice_ends scan_newest] in *. set (cs := run_candidates lower upper run) in *.
  apply Forall_app in Hd as [Hd1 Hd2]. apply Forall_app in Hsound as [Hs1 Hs2].
  apply Forall2_app_inv_l in Hadm as (a1 & a2 & Hadm1 & Hadm2 & ->). pose proof (Forall2_length _ _ _ Hadm1) as Hlen1.
  assert (slice (length pre) (length pre + length cs) (apre ++ a1 ++ a2) = a1) as -> by (rewrite Hlen; apply slice_middle; lia).
  rewrite slice_middle by done.
  assert (sublist cs (run_descriptors family run)) as Hsub1 by apply sublist_filter.
  pose proof (admitted_of_sublist cs a1) as Hsub. set (admitted := admitted_of cs a1) in *.
  assert (rows_of lower upper admitted = rows_of lower upper (run_descriptors family run)) as Hrows.
  { rewrite <-(rows_of_may_hold _ _ (run_descriptors family run)) by done.
    apply (rows_of_admitted load_segment_filter _ _ filter_probe); [done|]. eapply Forall_sublist; [exact Hs1|done]. }
  assert (Forall (described catalog) admitted) as Hda by (eapply Forall_sublist; [exact Hd1|]; by etrans).
  specialize (IH (S call) (pre ++ cs) (apre ++ a1) a2 Hd2 Hs2 Hadm2).
  rewrite <-!app_assoc, !length_app in IH. specialize (IH ltac:(lia)). destruct IH as [IH1 IH2].
  assert (∀ ds ds', combine_fuel catalog (ds ++ ds') ≤ fuel → combine_fuel catalog ds ≤ fuel ∧ combine_fuel catalog ds' ≤ fuel) as Hfuel.
  { intros ds ds' Hle. unfold combine_fuel in *. rewrite fmap_app, sum_list_with_app in Hle. lia. }
  destruct (combine_correct (scan_loader blocks_per_refill upper call) (available_bytes call) lower upper
    {| pb_max_rows := limit; pb_max_bytes := U64_MAX |} true fuel admitted all) as [Hok Hret];
    [done..|split; [done|by rewrite Hrows]|done|]. cbn [pb_max_rows pb_max_bytes] in Hok.
  rewrite newest_page_cons. case_bool_decide as Hnil.
  { apply nil_length_inv in Hnil. rewrite Hnil in Hrows. rewrite <-Hrows in Hp. apply Permutation_nil_r in Hp as ->.
    split; [done|]. intros Hsr Hf. apply IH2; [done|]. by apply Hfuel in Hf as [_ ?]. }
  split.
  - intros p Hr. step_ok Hr r Hc. destruct r as [rows n]. apply Hok in Hc as ->.
    destruct (page_prefix heap_bytes limit U64_MAX all) as [|x rows] eqn:Epage; [by apply IH1|by injection Hr as <-].
  - intros Hsr Hf. destruct (Hfuel _ _ Hf) as [Hf1 Hf2]. apply returns_bind.
    + apply Hret; [apply Hsr|]. etrans; [|exact Hf1]. apply combine_fuel_incl. by etrans.
    + intros [[|x rows] n] _; [by apply IH2|done].
Qed.

Lemma scan_newest_run_correct fuel prefix lower filter_probe limit blocks_per_refill alls :
  serves → probe_sound lower (string_prefix_upper_bound prefix) (Some filter_probe) →
  Forall2 (λ run all, range_of catalog lower (string_prefix_upper_bound prefix) (run_descriptors family run) all ∧
    (rows_weight heap_bytes all ≤ U64_MAX)%N) self.(vs_scan_runs) alls →
  let result := scan_prefix_in_newest_run_for_lookup heap_bytes load_segment_filter scan_loader available_bytes fuel self
    family prefix lower filter_probe limit blocks_per_refill in
  (∀ p, result = Ok p → p = newest_page limit alls) ∧
  (serves_returns → combine_fuel catalog family_descriptors ≤ fuel → returns result).
Proof.
  intros [Hd Hlaws] Hprobe Halls. unfold scan_prefix_in_newest_run_for_lookup. cbv zeta.
  set (upper := string_prefix_upper_bound prefix) in *.
  assert (∀ candidates run_ends admissions,
    push_candidates_with_ends self [] [] self.(vs_scan_runs) family lower upper = Ok (candidates, run_ends) →
    filter_admissions load_segment_filter candidates filter_probe = Ok admissions →
    let result := scan_newest heap_bytes scan_loader available_bytes fuel 0 candidates admissions 0 run_ends lower upper
      limit blocks_per_refill in
    (∀ p, result = Ok p → p = newest_page limit alls) ∧
    (serves_returns → combine_fuel catalog family_descriptors ≤ fuel → returns result)) as Hrun.
  { intros candidates run_ends admissions Hc Hf%filter_admissions_Ok. apply push_candidates_with_ends_Ok in Hc.
    cbn [app length] in Hc. injection Hc as -> ->.
    by apply (scan_newest_correct fuel 0 [] [] self.(vs_scan_runs) admissions alls filter_probe). }
  split.
  - intros p Hr. step_ok Hr c Hc. destruct c as [candidates run_ends]. step_ok Hr admissions Hf.
    by apply (Hrun _ _ _ Hc Hf).
  - intros Hsr Hfuel. apply returns_bind; [apply push_candidates_with_ends_returns|]. intros [candidates run_ends] Hc.
    apply returns_bind; [|by intros admissions Hf; apply (Hrun _ _ _ Hc Hf)].
    apply filter_admissions_returns. intros d Hin. apply Hsr. apply push_candidates_with_ends_Ok in Hc.
    injection Hc as -> _. eapply elem_of_sublist; [exact Hin|apply candidates_sublist].
Qed.

(** C28 A bounded range scan is exact and ends: when the manifest's segments
    are stored as their descriptors say, the loaders serve them, and the
    filters are right about the probe, [scan_range_bounded] returns with fuel
    for every block, and the page it returns is the shortest prefix of the
    family's rows in the range, over all runs and in key order, that reaches
    [max_rows] rows or [max_bytes] heap bytes.  Pruning by key range and by
    filter, opening segments sixteen at a time, the refills and the dropped
    iterators lose no row. *)
Theorem scan_range_exact fuel lower upper bounds filter_probe blocks_per_refill all :
  serves → probe_sound lower upper filter_probe → range_of catalog lower upper family_descriptors all →
  (rows_weight heap_bytes all ≤ U64_MAX)%N →
  let result := scan_range_bounded heap_bytes load_segment_filter scan_loader available_bytes fuel self family lower
    upper bounds filter_probe blocks_per_refill in
  (∀ p n, result = Ok (p, n) → p = page_prefix heap_bytes bounds.(pb_max_rows) bounds.(pb_max_bytes) all) ∧
  (serves_returns → combine_fuel catalog family_descriptors ≤ fuel → returns result).
Proof. apply scan_range_bounded_correct. Qed.

(** C29 The point lookups are exact and end: [find_row] returns the stored row
    of a key, over all runs, or none when no run stores the key; and
    [scan_prefix_in_newest_run_for_lookup] returns the page of the first run,
    newest first, that has a row of the prefix at or after the lower bound,
    whatever false positives the runs' filters give. *)
Theorem lookups_exact fuel key prefix lower filter_probe limit blocks_per_refill all alls :
  serves →
  probe_sound key (string_prefix_upper_bound key) (Some filter_probe) →
  range_of catalog key (string_prefix_upper_bound key) family_descriptors all →
  (rows_weight heap_bytes all ≤ U64_MAX)%N →
  probe_sound lower (string_prefix_upper_bound prefix) (Some filter_probe) →
  Forall2 (λ run rows, range_of catalog lower (string_prefix_upper_bound prefix) (run_descriptors family run) rows ∧
    (rows_weight heap_bytes rows ≤ U64_MAX)%N) self.(vs_scan_runs) alls →
  let found := find_row heap_bytes load_segment_filter scan_loader available_bytes fuel self family key filter_probe in
  let newest := scan_prefix_in_newest_run_for_lookup heap_bytes load_segment_filter scan_loader available_bytes fuel
    self family prefix lower filter_probe limit blocks_per_refill in
  (∀ r, found = Ok r → ∀ row, r = Some row ↔ (key, row) ∈ stored_rows) ∧
  (∀ p, newest = Ok p → p = newest_page limit alls) ∧
  (serves_returns → combine_fuel catalog family_descriptors ≤ fuel → returns found ∧ returns newest).
Proof.
  intros Hs Hp1 Hr Hw Hp2 Halls. cbv zeta.
  destruct (find_row_correct fuel key filter_probe all Hs Hp1 Hr Hw) as [Hf1 Hf2].
  destruct (scan_newest_run_correct fuel prefix lower filter_probe limit blocks_per_refill alls Hs Hp2 Halls) as [Hn1 Hn2].
  split_and!; [done..|]. intros Hsr Hfuel. by split; [apply Hf2|apply Hn2].
Qed.
End scans_laws.
End combined.

(** ** An example: two runs of one segment each *)
Module scan_example.
Definition handle : BlockHandle := {| bh_offset := 0; bh_stored_bytes := 1; bh_decoded_bytes := 1; bh_crc32c := 0 |}.

Definition segment (id min max : string) (rows : N) : MetadataSegmentRef :=
  {| ms_owner_namespace_id := "demo"; ms_segment_id := id; ms_family := FamInodes; ms_encoding := 0;
     ms_row_count := rows; ms_min_row_key := min; ms_max_row_key := max; ms_index_block := handle;
     ms_filter_block := handle; ms_filter_inline := None; ms_extent_filter_block := None |}.
Definition older : ScanDescriptor := {| sd_descriptor := segment "a" "k1" "k5" 3; sd_max_seq := 1 |}.
Definition newer : ScanDescriptor := {| sd_descriptor := segment "b" "k2" "k4" 2; sd_max_seq := 2 |}.

Definition run (d : ScanDescriptor) : MetadataRunManifest :=
  {| rm_run_no := d.(sd_max_seq); rm_run_seq := d.(sd_max_seq); rm_tier := Delta;
     rm_segments := [{| fs_family := FamInodes; fs_segments := [d.(sd_descriptor)] |}] |}.
Definition segments : VerifiedMetadataSegments :=
  {| vs_manifest_object_key := "m"; vs_scan_runs := [run newer; run older] |}.

Definition blocks (d : ScanDescriptor) : list (list (string * N)) :=
  if bool_decide (d.(sd_descriptor).(ms_segment_id) = "a") then [[("k1", 1); ("k3", 3)]; [("k5", 5)]]%N
  else [[("k2", 2)]; [("k4", 4)]]%N.
Definition index (d : ScanDescriptor) : list SegmentIndexEntry :=
  (λ block, {| sie_last_row_key := default "" (last block.*1); sie_block := handle |}) <$> blocks d.
Definition catalog : Catalog N ScanDescriptor :=
  {| cat_has d := d = older ∨ d = newer; cat_index := index; cat_blocks := blocks |}.

#[export] Instance loader : SegmentBlockLoader unit N ScanDescriptor ManifestLoadError := {|
  data_block_count _ entries _ := Nat.min 1 (length entries);
  load_index _ d := Ok (index d);
  load_data_blocks _ d entries :=
    Ok (decoded <$> filter (λ block : list (string * N), last block.*1 ∈ Some ∘ sie_last_row_key <$> entries) (blocks d));
|}.
Definition load_filter (_ : MetadataSegmentRef) : res ManifestLoadError SegmentFilter :=
  Ok {| sf_n_hashes := 0; sf_bit_len := 0; sf_bits := [] |}.

#[export] Instance catalog_laws : CatalogLaws catalog.
Proof.
  split; intros d [->| ->]; cbn.
  1,2: by repeat constructor.
  all: repeat constructor; by vm_compute.
Qed.

#[export] Instance loader_laws (u : unit) : LoaderLaws u catalog.
Proof.
  split; cbn.
  - intros [|e es] _; cbn; split; (lia || done).
  - by intros d index _ [= <-].
  - intros d position count loaded Hd Hcount Hle [= <-].
    assert (position = 0 ∧ count = 1 ∨ position = 0 ∧ count = 2 ∨ position = 1 ∧ count = 1) as Hcases.
    { assert (length (index d) = 2) as Hlen by (by destruct Hd as [->| ->]). lia. }
    destruct Hd as [->| ->], Hcases as [[-> ->]|[[-> ->]|[-> ->]]];
      first [by exists 1; split; [lia|vm_compute] | by exists 2; split; [lia|vm_compute]].
Qed.

#[export] Instance loader_returns (u : unit) : LoaderReturns u catalog.
Proof. by split. Qed.

Lemma serves_example : serves catalog (λ _ _ _ _, ()) segments FamInodes.
Proof.
  split; [|by intros; apply loader_laws]. unfold family_descriptors. cbn.
  repeat constructor; cbn; (by (left + right)) || by vm_compute.
Qed.

Lemma serves_returns_example : serves_returns (H0:=example_codecs) catalog load_filter (λ _ _ _ _, ()) segments FamInodes.
Proof. split; [intros; apply loader_returns|]. intros d probe _. by vm_compute. Qed.

Lemma probe_sound_example lower upper probe :
  probe_sound (H0:=example_codecs) catalog load_filter segments FamInodes lower upper (Some probe).
Proof. apply Forall_forall. intros d _ sf [= <-] _. by vm_compute. Qed.

Lemma scan_range_exact_witness :
  let result := scan_range_bounded (H:=example_codecs) id load_filter (λ _ _ _ _, ()) (λ _ _, 100%N) 20 segments FamInodes
    "k2" None {| pb_max_rows := 3; pb_max_bytes := 100 |} (Some "probe") RefillKeyRange in
  (∀ p n, result = Ok (p, n) → p = [("k2", 2); ("k3", 3); ("k4", 4)]%N) ∧ returns result ∧
  result = Ok ([("k2", 2); ("k3", 3); ("k4", 4)]%N, 0).
Proof.
  destruct (scan_range_exact (H0:=example_codecs) id catalog load_filter (λ _ _ _ _, ()) (λ _ _, 100%N) segments FamInodes 20 "k2"
    None {| pb_max_rows := 3; pb_max_bytes := 100 |} (Some "probe") RefillKeyRange
    [("k2", 2); ("k3", 3); ("k4", 4); ("k5", 5)]%N) as [H1 H2].
  - apply serves_example.
  - apply probe_sound_example.
  - split; [repeat constructor|]. vm_compute. apply NoDup_Permutation; [by apply (bool_decide_unpack _)..|]. set_solver.
  - by vm_compute.
  - split_and!; [exact H1| |by vm_compute]. apply H2; [apply serves_returns_example|vm_compute; lia].
Defined.

Lemma lookups_exact_witness :
  let found := find_row (H:=example_codecs) id load_filter (λ _ _ _ _, ()) (λ _ _, 100%N) 20 segments FamInodes "k3" "probe" in
  let newest := scan_prefix_in_newest_run_for_lookup (H:=example_codecs) id load_filter (λ _ _ _ _, ()) (λ _ _, 100%N) 20
    segments FamInodes "k" "k3" "probe" 8 RefillOne in
  (∀ r, found = Ok r → ∀ row, r = Some row ↔ ("k3", row) ∈ stored_rows catalog segments FamInodes) ∧
  (∀ p, newest = Ok p → p = [("k4", 4)]%N) ∧ (returns found ∧ returns newest) ∧
  found = Ok (Some 3%N) ∧ newest = Ok [("k4", 4)]%N.
Proof.
  destruct (lookups_exact (H0:=example_codecs) id catalog load_filter (λ _ _ _ _, ()) (λ _ _, 100%N) segments FamInodes 20
    "k3" "k" "k3" "probe" 8 RefillOne [("k3", 3)]%N [[("k4", 4)]; [("k3", 3); ("k5", 5)]]%N) as (H1 & H2 & H3).
  - apply serves_example.
  - apply probe_sound_example.
  - split; [repeat constructor|]. by vm_compute.
  - by vm_compute.
  - apply probe_sound_example.
  - repeat constructor; by vm_compute.
  - split_and!; [exact H1|exact H2| | |by vm_compute|by vm_compute];
      (apply H3; [apply serves_returns_example|vm_compute; lia]).
Defined.

(** A descriptor whose [max_row_key] is above the segment's last key keeps the
    segment's exhausted iterator open: the test of [retain] compares the last
    loaded key with the descriptor's bound only, and a refill has nothing to
    load, so the loop makes no progress and never ends. *)
Definition overstated : ScanDescriptor := {| sd_descriptor := segment "a" "k1" "k9" 3; sd_max_seq := 1 |}.
Definition exhausted : SegmentRowIterator N ScanDescriptor unit :=
  {| it_sort_key := (); it_segments := [overstated]; it_next_segment := 1; it_index := Some (index overstated);
     it_next_block := 2; it_blocks := []; it_row := 0; it_lower := Some "k1" |}.

Definition loads_first : SegmentRowIterator N ScanDescriptor unit :=
  {| it_sort_key := (); it_segments := [overstated]; it_next_segment := 1; it_index := Some (index overstated);
     it_next_block := 1; it_blocks := []; it_row := 0; it_lower := Some "k1" |}.

#[local] Abbreviation loop fuel round iterators ds rows bytes :=
  (combine_loop id (λ _, ()) (λ _, 100%N) "k1" None {| pb_max_rows := 10; pb_max_bytes := 100 |} false fuel round
    iterators ds rows bytes 0).

(** One round, from what the refill and the drain give. *)
Lemma loop_round fuel round iterators ds rows bytes opened pending its1 its2 rows' bytes' its3 :
  open_pending (open_through "k1" {| pb_max_rows := 10; pb_max_bytes := 100 |} iterators ds rows bytes) ds = (opened, pending) →
  length (iterators ++ (open_iterator "k1" <$> opened)) ≠ 0 →
  refill_iterators (S fuel) () (iterators ++ (open_iterator "k1" <$> opened)) 100 = Ok its1 →
  drain_all id None {| pb_max_rows := 10; pb_max_bytes := 100 |} its1.2 rows bytes = Ok (its2, rows', bytes') →
  retain_open None {| pb_max_rows := 10; pb_max_bytes := 100 |} rows' bytes' its2 = Ok its3 →
  loop (S fuel) round iterators ds rows bytes = loop fuel (S round) its3 pending rows' bytes'.
Proof.
  intros Hopen Hne Hrefill Hdrain Hretain. rewrite combine_loop_eq, Hopen. cbv zeta. rewrite bool_decide_false by done.
  rewrite Hrefill. cbn [mbind res_bind]. destruct its1 as [n its1]. cbn [snd] in Hdrain. rewrite Hdrain. cbn [mbind res_bind].
  rewrite Hretain. done.
Qed.

Lemma exhausted_loops fuel round : loop fuel round [exhausted] [] [("k1", 1); ("k3", 3); ("k5", 5)]%N 9 = OutOfFuel.
Proof.
  revert round. induction fuel as [|fuel IH]; intros round; [by vm_compute|].
  by rewrite (loop_round fuel round _ _ _ _ [] [] (0, [exhausted]) [exhausted] [("k1", 1); ("k3", 3); ("k5", 5)]%N 9 [exhausted]).
Qed.

Lemma overstated_segment_diverges fuel :
  combine_segment_rows id (λ _, ()) (λ _, 100%N) "k1" None {| pb_max_rows := 10; pb_max_bytes := 100 |} false fuel [overstated]
  = OutOfFuel.
Proof.
  unfold combine_segment_rows. cbn [pb_max_rows bool_decide]. rewrite bool_decide_false by done.
  change (sort_by scan_order [overstated]) with [overstated].
  destruct fuel as [|[|[|fuel]]]; [by vm_compute..|].
  rewrite (loop_round (S (S fuel)) 0 [] [overstated] [] 0 [overstated] [] (1, [with_blocks loads_first
      [decoded [("k1", 1); ("k3", 3)]%N] 0]) [loads_first] [("k1", 1); ("k3", 3)]%N 4 [loads_first]) by (by vm_compute).
  rewrite (loop_round (S fuel) 1 [loads_first] [] [("k1", 1); ("k3", 3)]%N 4 [] [] (1, [with_blocks exhausted [decoded [("k5", 5)]%N] 0])
      [exhausted] [("k1", 1); ("k3", 3); ("k5", 5)]%N 9 [exhausted]) by (by vm_compute).
  apply exhausted_loops.
Qed.
End scan_example.
