(* ===== verification/SegmentLoad.v ===== *)
(** * Loading segment blocks through the caches

    [loonfs-core/src/segment/index_block_load.rs], [data_block_load.rs] and
    [scan_load.rs]: index, filter and data blocks come from a read's memo, from
    the shared block cache, or from ranged reads of the segment object, which
    are decoded and published to both.  A load is a computation that may fail
    and that leaves a trace of what it published, also when it fails.

    What the memo and the cache hold when they are asked is a parameter, as
    they are shared with concurrent reads and evict under pressure, and so is
    the object store.  The theorems are in [SegmentCoherence] and
    [SegmentServe]. *)
From S2P Require Import Prelude Types Utf8 Codec Records SegmentBlocks SegmentFormat RowKeys ScanPage RunIterator Manifest Scan.
Local Open Scope N_scope.

(** ** Blocks and their keys ([cache.rs]) *)
Inductive SegmentBlockKind : Set := KIndex | KFilter | KExtentFilter | KData | KManifest.
#[export] Instance SegmentBlockKind_eq_dec : EqDecision SegmentBlockKind.
Proof. solve_decision. Defined.

Record SegmentCacheKey := mkSegmentCacheKey {
  ck_identity : string;
  ck_block_kind : SegmentBlockKind;
  ck_block_offset : N;
}.
#[export] Instance SegmentCacheKey_eq_dec : EqDecision SegmentCacheKey.
Proof. solve_decision. Defined.

(** The decoded sizes, which only weigh a block for eviction, are left out. *)
Inductive DecodedSegmentBlock (Row Manifest : Type) : Type :=
| IndexBlock (entries : list SegmentIndexEntry)
| FilterBlock (filter : SegmentFilter)
| DataBlock (block : DecodedDataBlock Row)
| ManifestBlock (manifest : Manifest).
Arguments IndexBlock {Row Manifest}. Arguments FilterBlock {Row Manifest}. Arguments DataBlock {Row Manifest}.
Arguments ManifestBlock {Row Manifest}.

Definition segment_block_cache_key (descriptor : MetadataSegmentRef) (block_kind : SegmentBlockKind)
    (block_offset : N) : SegmentCacheKey :=
  {| ck_identity := metadata_segment_object_key descriptor; ck_block_kind := block_kind;
     ck_block_offset := block_offset |}.

(** [into_index], [into_filter] and [into_data]; [wrong_kind] is the error. *)
Definition into_index {Row Manifest} (block : DecodedSegmentBlock Row Manifest) (object_key : string)
    : res ManifestLoadError (list SegmentIndexEntry) :=
  match block with IndexBlock entries => Ok entries | _ => Err (SegmentCodec object_key) end.
Definition into_filter {Row Manifest} (block : DecodedSegmentBlock Row Manifest) (object_key : string)
    : res ManifestLoadError SegmentFilter :=
  match block with FilterBlock filter => Ok filter | _ => Err (SegmentCodec object_key) end.
Definition into_data {Row Manifest} (block : DecodedSegmentBlock Row Manifest) (object_key : string)
    : res ManifestLoadError (DecodedDataBlock Row) :=
  match block with DataBlock block => Ok block | _ => Err (SegmentCodec object_key) end.

(** ** Loads

    [published] are the insertions into the memo and the cache, in order. *)
Inductive Destination : Set := ToMemo | ToCache.

Record Load (B A : Type) := mkLoad {
  published : list (Destination * SegmentCacheKey * B);
  outcome : res ManifestLoadError A;
}.
Arguments mkLoad {B A}. Arguments published {B A}. Arguments outcome {B A}.

#[export] Instance Load_ret B : MRet (Load B) := λ A a, {| published := []; outcome := Ok a |}.
#[export] Instance Load_bind B : MBind (Load B) := λ A C f load,
  match load.(outcome) with
  | Ok a => {| published := load.(published) ++ (f a).(published); outcome := (f a).(outcome) |}
  | Err e => {| published := load.(published); outcome := Err e |}
  | Panic => {| published := load.(published); outcome := Panic |}
  | OutOfFuel => {| published := load.(published); outcome := OutOfFuel |}
  end.
#[global] Arguments Load_bind : simpl never.
Definition lift {B A} (r : res ManifestLoadError A) : Load B A := {| published := []; outcome := r |}.

(** What a read of the store and of the caches finds, at each moment of a
    load.  [bc_shared] is the block that [get_or_load_block] finds in the cache
    or takes from a concurrent load of the key. *)
Record BlockCache (B : Type) := mkBlockCache {
  bc_get : nat → SegmentCacheKey → BlockHandle → option B;
  bc_shared : nat → SegmentCacheKey → BlockHandle → option B;
}.
Arguments mkBlockCache {B}. Arguments bc_get {B}. Arguments bc_shared {B}.
Definition SessionBlockMemo (B : Type) : Type := nat → SegmentCacheKey → option B.

Definition MAX_WHOLE_SEGMENT_LOAD_BYTES : N := 256 * 1024.
Definition MAX_BULK_LOAD_BYTES : N := 4 * 1024 * 1024.

(** [bytes.slice(start..start + len)]. *)
Definition slice_bytes {Er} (object : bytes) (start len : N) : res Er bytes :=
  if decide (start + len ≤ blen object) then Ok (take (N.to_nat len) (drop (N.to_nat start) object)) else Panic.
(** An addition on [u64]. *)
Definition add_u64 {Er} (a b : N) : res Er N := if decide (a + b ≤ U64_MAX) then Ok (a + b) else Panic.
Section load.
Context `{SectionCodecs} {Row Manifest : Type} `{Cbor Row} `{Cbor (list SegmentIndexEntry)}.
Context (store_get : nat → string → N → N → res ObjectStoreErrorKind (option bytes)).
#[local] Abbreviation block := (DecodedSegmentBlock Row Manifest).
#[local] Abbreviation load := (Load block).
Implicit Types (memo : option (SessionBlockMemo block)) (segment_cache : option (BlockCache block)).

Definition load_section_bytes (moment : nat) (object_key : string) (offset size_bytes : N)
    : res ManifestLoadError bytes :=
  end_exclusive ← ok_or (checked_add U64_MAX offset size_bytes) (SegmentDescriptorMismatch object_key);
  found ← map_err (ReadSegment object_key) (store_get moment object_key offset end_exclusive);
  found ← ok_or found (MissingSegment object_key);
  if bool_decide (blen found = size_bytes) then Ok found else Err (ReadSegment object_key KindOther).

Definition decode_stored_block (object_key : string) (kind : SegmentBlockKind) (handle : BlockHandle) (stored : bytes)
    : res ManifestLoadError block :=
  match kind with
  | KIndex => entries ← map_err (λ _, SegmentCodec object_key) (decode_index_block stored handle); Ok (IndexBlock entries)
  | KFilter | KExtentFilter =>
      filter ← map_err (λ _, SegmentCodec object_key) (decode_filter_block stored handle); Ok (FilterBlock filter)
  | KData =>
      data ← map_err (λ _, SegmentCodec object_key) (decode_data_block_rows stored handle); Ok (DataBlock data)
  | KManifest => Err (SegmentCodec object_key)
  end.

Definition segment_object_bytes (descriptor : MetadataSegmentRef) : res ManifestLoadError N :=
  add_u64 descriptor.(ms_index_block).(bh_offset) descriptor.(ms_index_block).(bh_stored_bytes).

Definition publish_segment_block segment_cache memo (cache_key : SegmentCacheKey) (block : block) : load unit :=
  {| published :=
       match memo with Some _ => [(ToMemo, cache_key, block)] | None => [] end ++
       match segment_cache with Some _ => [(ToCache, cache_key, block)] | None => [] end;
     outcome := Ok () |}.

(** The [section] closure of [publish_segment_sections]. *)
Definition section_of (object : bytes) (fetch_offset : N) (handle : BlockHandle) : option bytes :=
  if decide (fetch_offset ≤ handle.(bh_offset)) then
    let start := handle.(bh_offset) - fetch_offset in
    stop ← checked_add U64_MAX start handle.(bh_stored_bytes);
    if decide (stop ≤ blen object) then
      Some (take (N.to_nat handle.(bh_stored_bytes)) (drop (N.to_nat start) object))
    else None
  else None.

(** The [decode] closure. *)
Definition decode_section_of (object_key : string) (object : bytes) (fetch_offset : N) (kind : SegmentBlockKind)
    (handle : BlockHandle) : res ManifestLoadError (option block) :=
  match section_of object fetch_offset handle with
  | None => Ok None
  | Some stored => decoded ← decode_stored_block object_key kind handle stored; Ok (Some decoded)
  end.

Fixpoint decode_data_sections (object_key : string) (object : bytes) (fetch_offset : N)
    (entries : list SegmentIndexEntry) : res ManifestLoadError (list (N * block)) :=
  match entries with
  | [] => Ok []
  | entry :: entries =>
      data_block ← decode_section_of object_key object fetch_offset KData entry.(sie_block);
      data_block ← ok_or data_block (SegmentCodec object_key);
      data ← decode_data_sections object_key object fetch_offset entries;
      Ok ((entry.(sie_block).(bh_offset), data_block) :: data)
  end.

Fixpoint publish_data segment_cache memo (descriptor : MetadataSegmentRef) (data : list (N * block)) : load unit :=
  match data with
  | [] => mret ()
  | (offset, loaded) :: data =>
      _ ← publish_segment_block segment_cache memo (segment_block_cache_key descriptor KData offset) loaded;
      publish_data segment_cache memo descriptor data
  end.

(** [if let Some(loaded) = block { publish(..) }]. *)
Definition publish_some segment_cache memo (cache_key : SegmentCacheKey) (loaded : option block) : load unit :=
  match loaded with
  | Some loaded => publish_segment_block segment_cache memo cache_key loaded
  | None => mret ()
  end.

Definition publish_segment_sections segment_cache memo (descriptor : MetadataSegmentRef) (object : bytes)
    (fetch_offset : N) (data_blocks : bool) : load (option block * option block) :=
  let object_key := metadata_segment_object_key descriptor in
  index_block ← lift (decode_section_of object_key object fetch_offset KIndex descriptor.(ms_index_block));
  filter_block ← lift (decode_section_of object_key object fetch_offset KFilter descriptor.(ms_filter_block));
  data ← lift (if data_blocks : bool then
                 match index_block with
                 | Some (IndexBlock entries) => decode_data_sections object_key object fetch_offset entries
                 | _ => Ok []
                 end
               else Ok []);
  _ ← publish_some segment_cache memo
        (segment_block_cache_key descriptor KIndex descriptor.(ms_index_block).(bh_offset)) index_block;
  _ ← publish_some segment_cache memo
        (segment_block_cache_key descriptor KFilter descriptor.(ms_filter_block).(bh_offset)) filter_block;
  _ ← publish_data segment_cache memo descriptor data;
  mret (index_block, filter_block).

Definition load_and_publish_segment_sections (moment : nat) segment_cache memo (descriptor : MetadataSegmentRef)
    (want : SegmentBlockKind) : load block :=
  let object_key := metadata_segment_object_key descriptor in
  object_bytes ← lift (segment_object_bytes descriptor);
  let whole_object := bool_decide (object_bytes ≤ MAX_WHOLE_SEGMENT_LOAD_BYTES) in
  fetch_offset ← lift
    (match want with
     | KData | KExtentFilter | KManifest => Err (SegmentCodec object_key)
     | KFilter => Ok (if whole_object then 0 else descriptor.(ms_filter_block).(bh_offset))
     | KIndex => Ok (if whole_object then 0 else descriptor.(ms_index_block).(bh_offset))
     end);
  size_bytes ← lift (checked_sub object_bytes fetch_offset);
  object ← lift (load_section_bytes moment object_key fetch_offset size_bytes);
  '(index_block, filter_block) ←
    publish_segment_sections segment_cache memo descriptor object fetch_offset whole_object;
  lift (ok_or (match want with KFilter => filter_block | _ => index_block end) (SegmentCodec object_key)).

(** The trait's [get_or_load_block]: the block that is shared, or the one that
    the fetch loads, which is inserted. *)
Definition get_or_load_block (moment : nat) (cache : BlockCache block) (cache_key : SegmentCacheKey)
    (handle : BlockHandle) (fetch : load block) : load block :=
  match cache.(bc_shared) moment cache_key handle with
  | Some found => mret found
  | None => loaded ← fetch; {| published := [(ToCache, cache_key, loaded)]; outcome := Ok loaded |}
  end.
Definition load_through (moment : nat) segment_cache (cache_key : SegmentCacheKey) (handle : BlockHandle)
    (fetch : load block) : load block :=
  match segment_cache with
  | Some cache => get_or_load_block moment cache cache_key handle fetch
  | None => fetch
  end.

Definition memo_get (moment : nat) memo (cache_key : SegmentCacheKey) : option block :=
  memo ← memo; memo moment cache_key.
(** [if let Some(memo) = memo { memo.record(..) }]. *)
Definition memo_record memo (cache_key : SegmentCacheKey) (block : block) : load unit :=
  {| published := match memo with Some _ => [(ToMemo, cache_key, block)] | None => [] end; outcome := Ok () |}.

(** One section, fetched alone. *)
Definition load_section_block (moment : nat) (object_key : string) (kind : SegmentBlockKind) (handle : BlockHandle)
    : load block :=
  stored ← lift (load_section_bytes moment object_key handle.(bh_offset) handle.(bh_stored_bytes));
  lift (decode_stored_block object_key kind handle stored).

Definition load_segment_index_inner (moment : nat) segment_cache memo (descriptor : MetadataSegmentRef)
    (load_small_segment_whole : bool) : load (list SegmentIndexEntry) :=
  let handle := descriptor.(ms_index_block) in
  let object_key := metadata_segment_object_key descriptor in
  let cache_key := segment_block_cache_key descriptor KIndex handle.(bh_offset) in
  match memo_get moment memo cache_key with
  | Some (IndexBlock entries) => mret entries
  | _ =>
      let fetch :=
        if load_small_segment_whole then
          load_and_publish_segment_sections moment segment_cache memo descriptor KIndex
        else load_section_block moment object_key KIndex handle in
      block ← load_through moment segment_cache cache_key handle fetch;
      _ ← memo_record memo cache_key block;
      lift (into_index block object_key)
  end.
Definition load_segment_index (moment : nat) segment_cache (memo : SessionBlockMemo block)
    (descriptor : MetadataSegmentRef) : load (list SegmentIndexEntry) :=
  load_segment_index_inner moment segment_cache (Some memo) descriptor true.
Definition load_segment_index_for_compaction (moment : nat) segment_cache memo (descriptor : MetadataSegmentRef)
    : load (list SegmentIndexEntry) :=
  load_segment_index_inner moment segment_cache memo descriptor false.

Definition load_segment_filter (moment : nat) segment_cache (memo : SessionBlockMemo block)
    (descriptor : MetadataSegmentRef) : load SegmentFilter :=
  let handle := descriptor.(ms_filter_block) in
  let object_key := metadata_segment_object_key descriptor in
  let cache_key := segment_block_cache_key descriptor KFilter handle.(bh_offset) in
  match memo moment cache_key with
  | Some (FilterBlock filter) => mret filter
  | _ =>
      match descriptor.(ms_filter_inline) with
      | Some inline =>
          stored ← lift (map_err (λ _, SegmentCodec object_key) (hex_decode_bytes inline));
          block ← lift (decode_stored_block object_key KFilter handle (as_bytes stored));
          _ ← publish_segment_block segment_cache (Some memo) cache_key block;
          lift (into_filter block object_key)
      | None =>
          block ← load_through moment segment_cache cache_key handle
            (load_and_publish_segment_sections moment segment_cache (Some memo) descriptor KFilter);
          _ ← memo_record (Some memo) cache_key block;
          lift (into_filter block object_key)
      end
  end.

Definition load_segment_extent_filter (moment : nat) (segment_cache : BlockCache block)
    (descriptor : MetadataSegmentRef) : load SegmentFilter :=
  handle ← lift (expect descriptor.(ms_extent_filter_block));
  let object_key := metadata_segment_object_key descriptor in
  let cache_key := segment_block_cache_key descriptor KExtentFilter handle.(bh_offset) in
  block ← get_or_load_block moment segment_cache cache_key handle
    (load_section_block moment object_key KExtentFilter handle);
  lift (into_filter block object_key).

(** ** Written segments *)
Inductive SegmentWriter : Set := Fold | Compaction.

Definition insert_written_segment (segment_cache : BlockCache block) (descriptor : MetadataSegmentRef)
    (object : bytes) (writer : SegmentWriter) : load unit :=
  let object_key := metadata_segment_object_key descriptor in
  data_blocks ← lift
    (match writer with
     | Fold => Ok true
     | Compaction =>
         object_bytes ← segment_object_bytes descriptor;
         Ok (bool_decide (object_bytes ≤ MAX_WHOLE_SEGMENT_LOAD_BYTES))
     end);
  _ ← publish_segment_sections (Some segment_cache) None descriptor object 0 data_blocks;
  match descriptor.(ms_extent_filter_block) with
  | None => mret ()
  | Some handle =>
      stored ← lift
        (stop ← add_u64 handle.(bh_offset) handle.(bh_stored_bytes);
         if decide (stop ≤ blen object) then slice_bytes object handle.(bh_offset) handle.(bh_stored_bytes)
         else Err (SegmentCodec object_key));
      block ← lift (decode_stored_block object_key KExtentFilter handle stored);
      publish_segment_block (Some segment_cache) None
        (segment_block_cache_key descriptor KExtentFilter handle.(bh_offset)) block
  end.

(** ** Data blocks *)

(** The slots of [blocks] that neither the memo nor the cache fills stay
    empty; a shared hit is recorded in the memo. *)
Fixpoint load_cached_data_blocks (moment : nat) segment_cache memo (descriptor : MetadataSegmentRef)
    (entries : list SegmentIndexEntry) (blocks : list (option (DecodedDataBlock Row)))
    : load (list (option (DecodedDataBlock Row))) :=
  match blocks, entries with
  | slot :: blocks, entry :: entries =>
      let probe_key := segment_block_cache_key descriptor KData entry.(sie_block).(bh_offset) in
      slot ←
        (match slot with
         | Some found => mret (Some found)
         | None =>
             match memo_get moment memo probe_key with
             | Some (DataBlock found) => mret (Some found)
             | _ =>
                 match cache ← segment_cache; cache.(bc_get) moment probe_key entry.(sie_block) with
                 | Some (DataBlock found) => _ ← memo_record memo probe_key (DataBlock found); mret (Some found)
                 | _ => mret None
                 end
             end
         end);
      blocks ← load_cached_data_blocks moment segment_cache memo descriptor entries blocks;
      mret (slot :: blocks)
  | _, _ => mret blocks
  end.

(** The inner loop of [missing_block_spans]: how far a span goes. *)
Fixpoint span_len (entries : list SegmentIndexEntry) (blocks : list (option (DecodedDataBlock Row)))
    (span_bytes : N) : nat :=
  match entries, blocks with
  | entry :: entries, None :: blocks =>
      let span_bytes := span_bytes + entry.(sie_block).(bh_stored_bytes) in
      if decide (span_bytes ≤ MAX_BULK_LOAD_BYTES) then S (span_len entries blocks span_bytes) else O
  | _, _ => O
  end.
(** [while cursor < entries.len()]: a round moves the cursor. *)
Fixpoint spans_from (fuel cursor : nat) (entries : list SegmentIndexEntry)
    (blocks : list (option (DecodedDataBlock Row))) : list (nat * nat) :=
  match fuel, blocks with
  | S fuel, Some _ :: blocks => spans_from fuel (S cursor) (tail entries) blocks
  | S fuel, None :: _ =>
      let len := Nat.max 1 (span_len entries blocks 0) in
      (cursor, (cursor + len)%nat) :: spans_from fuel (cursor + len) (drop len entries) (drop len blocks)
  | _, _ => []
  end.
Definition missing_block_spans (entries : list SegmentIndexEntry) (blocks : list (option (DecodedDataBlock Row)))
    : list (nat * nat) := spans_from (length entries) 0 entries blocks.

(** The loop of [load_and_publish_span] over the entries of a span. *)
Fixpoint decode_span segment_cache memo (descriptor : MetadataSegmentRef) (first_offset : N) (object : bytes)
    (span : list SegmentIndexEntry) : load (list (DecodedDataBlock Row)) :=
  match span with
  | [] => mret []
  | entry :: span =>
      let handle := entry.(sie_block) in
      let object_key := metadata_segment_object_key descriptor in
      start ← lift (checked_sub handle.(bh_offset) first_offset);
      stored ← lift (slice_bytes object start handle.(bh_stored_bytes));
      decoded ← lift (map_err (λ _, SegmentCodec object_key) (decode_data_block_rows stored handle));
      _ ← publish_segment_block segment_cache memo (segment_block_cache_key descriptor KData handle.(bh_offset))
            (DataBlock decoded);
      retained ← decode_span segment_cache memo descriptor first_offset object span;
      mret (decoded :: retained)
  end.
Definition load_and_publish_span (moment : nat) segment_cache memo (descriptor : MetadataSegmentRef)
    (span : list SegmentIndexEntry) : load (list (DecodedDataBlock Row)) :=
  first ← lift (expect (sie_block <$> head span));
  last ← lift (expect (sie_block <$> last span));
  stop ← lift (add_u64 last.(bh_offset) last.(bh_stored_bytes));
  span_bytes ← lift (checked_sub stop first.(bh_offset));
  object ← lift (load_section_bytes moment (metadata_segment_object_key descriptor) first.(bh_offset) span_bytes);
  decode_span segment_cache memo descriptor first.(bh_offset) object span.

(** The cache's cell for the span's first block takes the first of the decoded
    blocks; a load that loses the single flight has the first block alone. *)
Definition load_span (moment : nat) segment_cache memo (descriptor : MetadataSegmentRef)
    (span : list SegmentIndexEntry) : load (list (DecodedDataBlock Row)) :=
  let fetch := load_and_publish_span moment segment_cache memo descriptor span in
  match segment_cache with
  | None => fetch
  | Some cache =>
      first ← lift (expect (head span));
      let first_key := segment_block_cache_key descriptor KData first.(sie_block).(bh_offset) in
      match cache.(bc_shared) moment first_key first.(sie_block) with
      | Some found => found ← lift (into_data found (metadata_segment_object_key descriptor)); mret [found]
      | None =>
          decoded ← fetch;
          first_block ← lift (expect (head decoded));
          {| published := [(ToCache, first_key, DataBlock first_block)]; outcome := Ok decoded |}
      end
  end.

(** [for (slot, block) in blocks[start..].iter_mut().zip(loaded)]. *)
Fixpoint fill_slots {A} (slots : list (option A)) (loaded : list A) : list (option A) :=
  match slots, loaded with
  | _ :: slots, block :: loaded => Some block :: fill_slots slots loaded
  | _, _ => slots
  end.
Definition fill_slots_at {A} (start : nat) (slots : list (option A)) (loaded : list A) : list (option A) :=
  take start slots ++ fill_slots (drop start slots) loaded.

(** The spans of a pass, which the code loads concurrently. *)
Fixpoint load_spans (moment : nat) segment_cache memo (descriptor : MetadataSegmentRef)
    (entries : list SegmentIndexEntry) (spans : list (nat * nat)) : load (list (nat * list (DecodedDataBlock Row))) :=
  match spans with
  | [] => mret []
  | (start, stop) :: spans =>
      loaded ← load_span moment segment_cache memo descriptor (slice start stop entries);
      rest ← load_spans moment segment_cache memo descriptor entries spans;
      mret ((start, loaded) :: rest)
  end.

(** [blocks.into_iter().map(|block| block.expect(..)).collect()]. *)
Fixpoint expect_all {A} (slots : list (option A)) : res ManifestLoadError (list A) :=
  match slots with
  | [] => Ok []
  | slot :: slots => block ← expect slot; blocks ← expect_all slots; Ok (block :: blocks)
  end.

(** The loop of [load_segment_data_block_span]: a pass resolves a block. *)
Fixpoint load_passes (fuel moment : nat) segment_cache memo (descriptor : MetadataSegmentRef)
    (entries : list SegmentIndexEntry) (blocks : list (option (DecodedDataBlock Row)))
    : load (list (DecodedDataBlock Row)) :=
  blocks ← load_cached_data_blocks moment segment_cache memo descriptor entries blocks;
  match missing_block_spans entries blocks with
  | [] => lift (expect_all blocks)
  | spans =>
      match fuel with
      | O => lift OutOfFuel
      | S fuel =>
          loaded ← load_spans moment segment_cache memo descriptor entries spans;
          load_passes fuel (S moment) segment_cache memo descriptor entries
            (foldl (λ blocks '(start, loaded), fill_slots_at start blocks loaded) blocks loaded)
      end
  end.
Definition load_segment_data_block_span segment_cache memo (descriptor : MetadataSegmentRef)
    (entries : list SegmentIndexEntry) : load (list (DecodedDataBlock Row)) :=
  load_passes (length entries) 0 segment_cache memo descriptor entries (replicate (length entries) None).
End load.

(** ** The scan's loader ([scan_load.rs]) *)

(** [manifest_row_commit_seq] of [segment/row.rs]. *)
Definition manifest_row_commit_seq (row : MetadataRow) : ChangeSeq :=
  match row with
  | RowInode record => record.(ir_committed_seq)
  | RowDirentryBinding record => record.(db_committed_seq)
  | RowFileRevision record => record.(rr_committed_seq)
  | RowTombstone record => record.(tb_committed_seq)
  | RowActiveDeletion record =>
      match record.(ad_action) with
      | Listed _ _ _ _ => record.(ad_deletion_seq)
      | Removed removed_seq => removed_seq
      end
  | RowCommitReceipt record => record.(rc_committed_seq)
  | RowCommit record => record.(wcp_committed_seq)
  | RowMerge record => record.(mi_committed_seq)
  | RowContentLayout record => record.(lr_committed_seq)
  | RowAttributesRevision record => record.(at_committed_seq)
  | RowAccessRevision record => record.(ac_committed_seq)
  end.

Fixpoint validate_manifest_row_seq_range (object_key : string) (rows : list MetadataRow) (max_seq : ChangeSeq)
    : res ManifestLoadError unit :=
  match rows with
  | [] => Ok ()
  | row :: rows =>
      if decide (max_seq < manifest_row_commit_seq row) then Err (SegmentDescriptorMismatch object_key)
      else validate_manifest_row_seq_range object_key rows max_seq
  end.

(** [ReadWorkingMemory] of [read_working_memory.rs], at one moment. *)
Record ReadWorkingMemory := mkReadWorkingMemory { wm_limit : N; wm_in_use : N }.
Definition wm_available_bytes (pool : ReadWorkingMemory) : N := pool.(wm_limit) - pool.(wm_in_use).
(** [ReadWorkingMemory::reserve]: the granted bytes. *)
Definition reserve {Er} (pool : ReadWorkingMemory) (wanted_bytes min_bytes : N) : res Er N :=
  if decide (min_bytes ≤ wanted_bytes) then
    floor ← add_u64 pool.(wm_in_use) min_bytes;
    Ok (min_bytes + N.min (wanted_bytes - min_bytes) (pool.(wm_limit) - floor))
  else Panic.

Definition MAX_SCAN_REFILL_BYTES : N := 1024 * 1024.

(** The [take_while] of [ScanLoader::data_block_count]. *)
Fixpoint refill_count (entries : list SegmentIndexEntry) (stored_bytes decoded_bytes max_decoded_bytes : N) : nat :=
  match entries with
  | [] => O
  | entry :: entries =>
      let next_stored_bytes := stored_bytes + entry.(sie_block).(bh_stored_bytes) in
      let next_decoded_bytes := decoded_bytes + entry.(sie_block).(bh_decoded_bytes) in
      if bool_decide (0 < stored_bytes)
         && (bool_decide (MAX_SCAN_REFILL_BYTES < next_stored_bytes) || bool_decide (max_decoded_bytes < next_decoded_bytes))
      then O
      else S (refill_count entries next_stored_bytes next_decoded_bytes max_decoded_bytes)
  end.

(** The [take_while] of [reserve_refill]. *)
Fixpoint reserved_count (entries : list SegmentIndexEntry) (kept_bytes granted : N) : nat :=
  match entries with
  | [] => O
  | entry :: entries =>
      let next_bytes := kept_bytes + entry.(sie_block).(bh_decoded_bytes) in
      if decide (granted < next_bytes) then O else S (reserved_count entries next_bytes granted)
  end.
Definition reserve_refill {Er} (pool : ReadWorkingMemory) (entries : list SegmentIndexEntry)
    : res Er (list SegmentIndexEntry) :=
  first ← expect (head entries);
  let decoded_bytes entry := entry.(sie_block).(bh_decoded_bytes) in
  granted ← reserve pool (foldr N.add 0 (decoded_bytes <$> entries)) (decoded_bytes first);
  Ok (take (S (reserved_count (tail entries) (decoded_bytes first) granted)) entries).

Section scan_loader.
Context `{SectionCodecs} {Manifest : Type} `{Cbor MetadataRow} `{Cbor (list SegmentIndexEntry)}.
#[local] Abbreviation block := (DecodedSegmentBlock MetadataRow Manifest).

Record ScanLoader := mkScanLoader {
  sl_store : nat → string → N → N → res ObjectStoreErrorKind (option bytes);
  sl_segment_cache : option (BlockCache block);
  sl_block_memo : SessionBlockMemo block;
  sl_pool : ReadWorkingMemory;
  sl_blocks_per_refill : BlocksPerRefill;
  sl_upper_bound : option string;
}.

Definition scan_data_block_count (self : ScanLoader) (entries : list SegmentIndexEntry) (max_decoded_bytes : N) : nat :=
  match self.(sl_blocks_per_refill) with
  | RefillOne => Nat.min 1 (length entries)
  | RefillKeyRange =>
      let '(start, stop) := index_blocks_for_key_range entries "" self.(sl_upper_bound) in
      refill_count (slice start stop entries) 0 0 max_decoded_bytes
  end.

Definition scan_load_data_blocks (self : ScanLoader) (segment : ScanDescriptor) (entries : list SegmentIndexEntry)
    : Load block (list (DecodedDataBlock MetadataRow)) :=
  blocks ←
    (match self.(sl_blocks_per_refill) with
     | RefillOne =>
         load_segment_data_block_span self.(sl_store) self.(sl_segment_cache) (Some self.(sl_block_memo))
           segment.(sd_descriptor) entries
     | RefillKeyRange =>
         entries ← lift (reserve_refill self.(sl_pool) entries);
         load_segment_data_block_span self.(sl_store) self.(sl_segment_cache) None segment.(sd_descriptor) entries
     end);
  _ ← lift (validate_manifest_row_seq_range (metadata_segment_object_key segment.(sd_descriptor))
        (concat (ddb_rows <$> blocks)) segment.(sd_max_seq));
  mret blocks.

#[export] Instance ScanLoader_loader : SegmentBlockLoader ScanLoader MetadataRow ScanDescriptor ManifestLoadError := {|
  data_block_count := scan_data_block_count;
  load_index self segment :=
    (load_segment_index self.(sl_store) 0 self.(sl_segment_cache) self.(sl_block_memo) segment.(sd_descriptor)).(outcome);
  load_data_blocks self segment entries := (scan_load_data_blocks self segment entries).(outcome);
|}.
End scan_loader.
