(* ===== verification/SegmentCoherence.v ===== *)
(** * The segment caches stay coherent

    Loads through the memo and the block cache, from [SegmentLoad]: whatever a
    coherent memo and a coherent cache answer, a load gives the block that the
    segment object stores, and everything it publishes is coherent again, also
    when it fails. *)
From S2P Require Import Prelude Types Utf8 Codec Records SegmentBlocks SegmentFormat RowKeys ScanPage RunIterator Manifest Scan SegmentLoad.
Local Open Scope N_scope.

(** ** Coherence *)

(** A load publishes only blocks that satisfy [truth], and gives results that
    satisfy [Q]. *)
Definition yields {B A} (truth : SegmentCacheKey → B → Prop) (l : Load B A) (Q : A → Prop) : Prop :=
  (∀ p, p ∈ l.(published) → truth p.1.2 p.2) ∧ (∀ a, l.(outcome) = Ok a → Q a).

Section yields.
Context {B : Type} (truth : SegmentCacheKey → B → Prop).

Lemma yields_ret {A} (a : A) (Q : A → Prop) : Q a → yields truth (mret a) Q.
Proof. intros Hq. split; [by intros p Hp%elem_of_nil|by intros ? [= <-]]. Qed.

Lemma yields_lift {A} (r : res ManifestLoadError A) (Q : A → Prop) : (∀ a, r = Ok a → Q a) → yields truth (lift r) Q.
Proof. intros Hq. split; [by intros p Hp%elem_of_nil|done]. Qed.

Lemma yields_bind {A C} (l : Load B A) (f : A → Load B C) (P : A → Prop) (Q : C → Prop) :
  yields truth l P → (∀ a, P a → yields truth (f a) Q) → yields truth (a ← l; f a) Q.
Proof.
  intros [Hp Ha] Hf. unfold mbind, Load_bind. destruct (outcome l) as [a|e| |] eqn:E; cbn; [|by split..].
  destruct (Hf a (Ha a eq_refl)) as [Hp' Ha']. split; [|done]. cbn. intros p [Hin|Hin]%elem_of_app; [by apply Hp|by apply Hp'].
Qed.

Lemma yields_publish {A} (pubs : list (Destination * SegmentCacheKey * B)) (a : A) (Q : A → Prop) :
  (∀ p, p ∈ pubs → truth p.1.2 p.2) → Q a → yields truth {| published := pubs; outcome := Ok a |} Q.
Proof. intros Hp Hq. split; [done|by intros ? [= <-]]. Qed.

Lemma yields_impl {A} (l : Load B A) (P Q : A → Prop) : yields truth l P → (∀ a, P a → Q a) → yields truth l Q.
Proof. intros [Hp Ha] Hi. split; [done|]. intros a E. by apply Hi, Ha. Qed.
End yields.

Lemma lift_bind {B A C} (a : A) (f : A → Load B C) : (x ← lift (Ok a); f x) = f a.
Proof. unfold mbind, Load_bind, lift. cbn. by destruct (f a). Qed.

Section coherence.
Context `{SectionCodecs} {Row Manifest : Type} `{Cbor Row} `{Cbor (list SegmentIndexEntry)}.
Context (store_get : nat → string → N → N → res ObjectStoreErrorKind (option bytes)).
#[local] Abbreviation block := (DecodedSegmentBlock Row Manifest).
Implicit Types (memo : option (SessionBlockMemo block)) (segment_cache : option (BlockCache block)) (d : MetadataSegmentRef) (b : block).

(** The stored objects: a ranged read that finds one gives bytes of it. *)
Context (objects : string → option bytes).
Definition serves_objects : Prop :=
  ∀ moment key start stop found, store_get moment key start stop = Ok (Some found) →
    ∃ object, objects key = Some object ∧ found = take (N.to_nat (stop - start)) (drop (N.to_nat start) object).
Context (Hstore : serves_objects).

(** The segments of the namespace: no two share an object key, and a filter in
    a descriptor is a copy of the segment's. *)
Context (known : MetadataSegmentRef → Prop).
Definition object_of d (object : bytes) : Prop := objects (metadata_segment_object_key d) = Some object.
Definition index_of d (entries : list SegmentIndexEntry) : Prop :=
  ∃ object, object_of d object ∧
    decode_index_block (block_range object d.(ms_index_block)) d.(ms_index_block) = Ok entries.
Definition filter_of d (filter : SegmentFilter) : Prop :=
  ∃ object, object_of d object ∧
    decode_filter_block (block_range object d.(ms_filter_block)) d.(ms_filter_block) = Ok filter.
Definition extent_filter_of d (filter : SegmentFilter) : Prop :=
  ∃ object handle, object_of d object ∧ d.(ms_extent_filter_block) = Some handle ∧
    decode_filter_block (block_range object handle) handle = Ok filter.
Definition data_of d (handle : BlockHandle) (data : DecodedDataBlock Row) : Prop :=
  ∃ object, object_of d object ∧ decode_data_block_rows (block_range object handle) handle = Ok data.

Record known_ok : Prop := {
  known_inj : ∀ d d', known d → known d' → metadata_segment_object_key d = metadata_segment_object_key d' → d = d';
  known_inline : ∀ d inline stored object, known d → d.(ms_filter_inline) = Some inline →
    hex_decode_bytes inline = Ok stored → object_of d object → as_bytes stored = block_range object d.(ms_filter_block);
  known_offsets : ∀ d entries e e', known d → index_of d entries → e ∈ entries → e' ∈ entries →
    e.(sie_block).(bh_offset) = e'.(sie_block).(bh_offset) → e = e';
}.
Context (Hknown : known_ok).

(** What a cached block is: the decoded section of a stored segment. *)
Definition truth (key : SegmentCacheKey) (b : block) : Prop :=
  ∃ d, known d ∧ key.(ck_identity) = metadata_segment_object_key d ∧
    match key.(ck_block_kind), b with
    | KIndex, IndexBlock entries => key.(ck_block_offset) = d.(ms_index_block).(bh_offset) ∧ index_of d entries
    | KFilter, FilterBlock filter => key.(ck_block_offset) = d.(ms_filter_block).(bh_offset) ∧ filter_of d filter
    | KExtentFilter, FilterBlock filter => extent_filter_of d filter
    | KData, DataBlock data =>
        ∃ entries e, index_of d entries ∧ e ∈ entries ∧ key.(ck_block_offset) = e.(sie_block).(bh_offset) ∧
          data_of d e.(sie_block) data
    | _, _ => False
    end.

(** A memo and a cache that hold only such blocks. *)
Definition memo_coherent memo : Prop := ∀ moment key b, memo_get moment memo key = Some b → truth key b.
Definition cache_coherent segment_cache : Prop :=
  ∀ cache, segment_cache = Some cache → ∀ moment key handle b,
    cache.(bc_get) moment key handle = Some b ∨ cache.(bc_shared) moment key handle = Some b → truth key b.

(** *** Sections of an object *)
Lemma load_section_bytes_Ok moment d offset size_bytes found :
  load_section_bytes store_get moment (metadata_segment_object_key d) offset size_bytes = Ok found →
  ∃ object, object_of d object ∧ found = take (N.to_nat size_bytes) (drop (N.to_nat offset) object) ∧ blen found = size_bytes.
Proof.
  unfold load_section_bytes. intros Hl. step_ok Hl stop Hstop. apply ok_or_Ok in Hstop. unfold checked_add in Hstop.
  case_decide; [|done]. injection Hstop as <-. step_ok Hl r Hr. apply map_err_Ok in Hr. step_ok Hl f Hf. apply ok_or_Ok in Hf. subst r.
  case_bool_decide as Hlen; [|done]. injection Hl as ->. destruct (Hstore _ _ _ _ _ Hr) as (object & Ho & ->).
  exists object. split_and!; [done| |done]. do 2 f_equal. lia.
Qed.

Lemma section_of_range object offset size_bytes handle stored :
  section_of (take (N.to_nat size_bytes) (drop (N.to_nat offset) object)) offset handle = Some stored →
  stored = block_range object handle.
Proof.
  unfold section_of, block_range, checked_add, blen. case_decide as Hle; [|done].
  destruct (decide (_ ≤ U64_MAX)); [|done]. cbn. case_decide as Hlen; [|done]. intros [= <-].
  rewrite length_take, length_drop in Hlen. rewrite skipn_firstn_comm, drop_drop, take_take. f_equal; [lia|f_equal; lia].
Qed.

Lemma decode_stored_block_truth d object kind handle b :
  known d → object_of d object →
  decode_stored_block (metadata_segment_object_key d) kind handle (block_range object handle) = Ok b →
  match kind with
  | KIndex => handle = d.(ms_index_block)
  | KFilter => handle = d.(ms_filter_block)
  | KExtentFilter => d.(ms_extent_filter_block) = Some handle
  | KData => ∃ entries e, index_of d entries ∧ e ∈ entries ∧ handle = e.(sie_block)
  | KManifest => True
  end →
  truth (segment_block_cache_key d kind handle.(bh_offset)) b.
Proof.
  intros Hd Ho Hdec Hh. exists d. split_and!; [done|done|]. destruct kind; cbn in Hdec |- *; [..|done];
    step_ok Hdec x Hx; apply map_err_Ok in Hx; injection Hdec as <-.
  - subst. split; [done|]. by exists object.
  - subst. split; [done|]. by exists object.
  - by exists object, handle.
  - destruct Hh as (entries & e & He & Hin & ->). exists entries, e. split_and!; [done..|]. by exists object.
Qed.

Lemma decode_section_of_truth d object offset size_bytes kind handle b :
  known d → object_of d object →
  decode_section_of (metadata_segment_object_key d) (take (N.to_nat size_bytes) (drop (N.to_nat offset) object)) offset
    kind handle = Ok (Some b) →
  decode_stored_block (metadata_segment_object_key d) kind handle (block_range object handle) = Ok b.
Proof.
  intros Hd Ho. unfold decode_section_of. destruct (section_of _ _ _) as [stored|] eqn:E; [|done].
  apply section_of_range in E as ->. intros Hdec. step_ok Hdec x Hx. by injection Hdec as <-.
Qed.

Lemma publish_yields segment_cache memo key b :
  truth key b → yields truth (publish_segment_block segment_cache memo key b) (λ _, True).
Proof.
  intros Ht. apply yields_publish; [|done]. intros p [Hp|Hp]%elem_of_app;
    [destruct memo|destruct segment_cache]; try (by apply elem_of_nil in Hp); by apply list_elem_of_singleton in Hp as ->.
Qed.

Lemma publish_some_yields segment_cache memo key loaded :
  (∀ b, loaded = Some b → truth key b) → yields truth (publish_some segment_cache memo key loaded) (λ _, True).
Proof. intros Hb. destruct loaded as [x|]; [by apply publish_yields, Hb|by apply yields_ret]. Qed.

Lemma memo_record_yields memo key b : truth key b → yields truth (memo_record memo key b) (λ _, True).
Proof.
  intros Ht. apply yields_publish; [|done]. intros p Hp. destruct memo; [|by apply elem_of_nil in Hp].
  by apply list_elem_of_singleton in Hp as ->.
Qed.

Lemma publish_data_yields segment_cache memo d data :
  (∀ offset b, (offset, b) ∈ data → truth (segment_block_cache_key d KData offset) b) →
  yields truth (publish_data segment_cache memo d data) (λ _, True).
Proof.
  induction data as [|[offset b] data IH]; intros Hd; [by apply yields_ret|]. cbn [publish_data].
  eapply yields_bind; [apply publish_yields, Hd; by left|]. intros _ _. apply IH. intros o x Hx. apply Hd. by right.
Qed.

Lemma decode_data_sections_truth d object offset size_bytes entries all data :
  known d → object_of d object → index_of d all → (∀ e, e ∈ entries → e ∈ all) →
  decode_data_sections (metadata_segment_object_key d) (take (N.to_nat size_bytes) (drop (N.to_nat offset) object)) offset
    entries = Ok data →
  ∀ o b, (o, b) ∈ data → truth (segment_block_cache_key d KData o) b.
Proof.
  intros Hd Ho Hi. revert data. induction entries as [|e entries IH]; intros data Hin Hdec; cbn [decode_data_sections] in Hdec.
  { injection Hdec as <-. by intros o b ?%elem_of_nil. }
  step_ok Hdec x Hx. step_ok Hdec b Hb. apply ok_or_Ok in Hb as ->. step_ok Hdec rest Hrest. injection Hdec as <-.
  intros o y [[= -> ->]|Hy]%elem_of_cons.
  - apply decode_section_of_truth in Hx; [|done..]. eapply decode_stored_block_truth; [done..|].
    exists all, e. split_and!; [done| |done]. apply Hin. by left.
  - eapply IH; [|exact Hrest|done]. intros e' He'. apply Hin. by right.
Qed.

#[local] Abbreviation index_key d := (segment_block_cache_key d KIndex d.(ms_index_block).(bh_offset)).
#[local] Abbreviation filter_key d := (segment_block_cache_key d KFilter d.(ms_filter_block).(bh_offset)).

Lemma publish_segment_sections_yields segment_cache memo d object offset size_bytes data_blocks :
  known d → object_of d object →
  yields truth
    (publish_segment_sections segment_cache memo d (take (N.to_nat size_bytes) (drop (N.to_nat offset) object)) offset data_blocks)
    (λ r, (∀ b, r.1 = Some b → truth (index_key d) b) ∧ (∀ b, r.2 = Some b → truth (filter_key d) b)).
Proof.
  intros Hd Ho. unfold publish_segment_sections.
  eapply (yields_bind _ _ _ (λ i, ∀ b, i = Some b → truth (index_key d) b)).
  { apply yields_lift. intros i Hi b ->. apply decode_section_of_truth in Hi; [|done..].
    by eapply decode_stored_block_truth. }
  intros i Hi. eapply (yields_bind _ _ _ (λ f, ∀ b, f = Some b → truth (filter_key d) b)).
  { apply yields_lift. intros f Hf b ->. apply decode_section_of_truth in Hf; [|done..].
    by eapply decode_stored_block_truth. }
  intros f Hf. eapply (yields_bind _ _ _ (λ data, ∀ o b, (o, b) ∈ data → truth (segment_block_cache_key d KData o) b)).
  { apply yields_lift. intros data Hdata. destruct data_blocks; [|injection Hdata as <-; by intros o b ?%elem_of_nil].
    destruct i as [[entries| | |]|]; try (injection Hdata as <-; by intros o b ?%elem_of_nil).
    destruct (Hi _ eq_refl) as (d' & Hd' & Hid & _ & Hindex). cbn in Hid.
    apply (known_inj Hknown) in Hid as <-; [|done..]. by eapply decode_data_sections_truth. }
  intros data Hdata. eapply yields_bind; [by apply publish_some_yields|]. intros _ _.
  eapply yields_bind; [by apply publish_some_yields|]. intros _ _.
  eapply yields_bind; [by apply publish_data_yields|]. intros _ _. by apply yields_ret.
Qed.

Lemma load_sections_yields moment segment_cache memo d want :
  known d →
  yields truth (load_and_publish_segment_sections store_get moment segment_cache memo d want)
    (λ b, match want with KIndex => truth (index_key d) b | KFilter => truth (filter_key d) b | _ => False end).
Proof.
  intros Hd. unfold load_and_publish_segment_sections. apply (yields_bind _ _ _ (λ _, True)); [by apply yields_lift|].
  intros object_bytes _. cbv zeta. eapply (yields_bind _ _ _ (λ _, want = KIndex ∨ want = KFilter)).
  { apply yields_lift. intros a Ha. destruct want; (done || (left; done) || (right; done)). }
  intros offset Hwant. apply (yields_bind _ _ _ (λ _, True)); [by apply yields_lift|]. intros size_bytes _.
  eapply (yields_bind _ _ _ (λ found, ∃ object, object_of d object ∧ found = take (N.to_nat size_bytes) (drop (N.to_nat offset) object))).
  { apply yields_lift. intros found Hf. destruct (load_section_bytes_Ok _ _ _ _ _ Hf) as (object & Ho & Hb & _). by exists object. }
  intros found (object & Ho & ->). eapply yields_bind; [by apply publish_segment_sections_yields|].
  intros [i f] [Hi Hf]. apply yields_lift. intros b Hb. apply ok_or_Ok in Hb.
  destruct Hwant as [-> | ->]; [by apply Hi|by apply Hf].
Qed.

Lemma load_through_yields moment segment_cache key handle fetch :
  cache_coherent segment_cache → yields truth fetch (truth key) →
  yields truth (load_through moment segment_cache key handle fetch) (truth key).
Proof.
  intros Hc Hf. unfold load_through. destruct segment_cache as [cache|]; [|done]. unfold get_or_load_block.
  destruct (bc_shared cache moment key handle) as [found|] eqn:E; [apply yields_ret; eapply Hc; [done|by right]|].
  eapply yields_bind; [done|]. intros b Hb. apply yields_publish; [|done]. by intros p ->%list_elem_of_singleton.
Qed.

Lemma load_section_block_yields moment d kind handle :
  known d →
  match kind with
  | KIndex => handle = d.(ms_index_block)
  | KFilter => handle = d.(ms_filter_block)
  | KExtentFilter => d.(ms_extent_filter_block) = Some handle
  | KData => ∃ entries e, index_of d entries ∧ e ∈ entries ∧ handle = e.(sie_block)
  | KManifest => True
  end →
  yields truth (load_section_block store_get moment (metadata_segment_object_key d) kind handle)
    (truth (segment_block_cache_key d kind handle.(bh_offset))).
Proof.
  intros Hd Hh. unfold load_section_block.
  eapply (yields_bind _ _ _ (λ stored, ∃ object, object_of d object ∧ stored = block_range object handle)).
  { apply yields_lift. intros stored Hs. destruct (load_section_bytes_Ok _ _ _ _ _ Hs) as (object & Ho & Hb & _). by exists object. }
  intros stored (object & Ho & ->). apply yields_lift. intros b Hb. by eapply decode_stored_block_truth.
Qed.

(** What a coherent block of a kind is. *)
Lemma truth_inv d kind offset b :
  known d → truth (segment_block_cache_key d kind offset) b →
  match kind, b with
  | KIndex, IndexBlock entries => index_of d entries
  | KFilter, FilterBlock filter => filter_of d filter
  | KExtentFilter, FilterBlock filter => extent_filter_of d filter
  | KData, DataBlock data =>
      ∃ entries e, index_of d entries ∧ e ∈ entries ∧ offset = e.(sie_block).(bh_offset) ∧ data_of d e.(sie_block) data
  | _, _ => False
  end.
Proof.
  intros Hd (d' & Hd' & Hid & Hb). cbn in Hid. apply (known_inj Hknown) in Hid as <-; [|done..].
  cbn [segment_block_cache_key ck_block_kind ck_block_offset] in Hb. destruct kind, b; naive_solver.
Qed.

Lemma into_index_truth d b entries :
  known d → truth (index_key d) b → into_index b (metadata_segment_object_key d) = Ok entries → index_of d entries.
Proof. intros Hd Ht Hi. apply truth_inv in Ht; [|done]. destruct b; try done. by injection Hi as <-. Qed.

(** A segment's index, from wherever it is loaded. *)
Lemma load_segment_index_yields moment segment_cache memo d whole :
  known d → cache_coherent segment_cache → memo_coherent memo →
  yields truth (load_segment_index_inner store_get moment segment_cache memo d whole) (index_of d).
Proof.
  intros Hd Hc Hm. unfold load_segment_index_inner.
  assert (yields truth
    (block ← load_through moment segment_cache (index_key d) (ms_index_block d)
       (if whole then load_and_publish_segment_sections store_get moment segment_cache memo d KIndex
        else load_section_block store_get moment (metadata_segment_object_key d) KIndex (ms_index_block d));
     _ ← memo_record memo (index_key d) block;
     lift (into_index block (metadata_segment_object_key d))) (index_of d)) as Hload.
  { eapply yields_bind.
    - apply load_through_yields; [done|]. destruct whole; [by apply load_sections_yields|by apply load_section_block_yields].
    - intros b Hb. eapply yields_bind; [by apply memo_record_yields|]. intros _ _. apply yields_lift.
      intros entries. by apply into_index_truth. }
  destruct (memo_get moment memo (index_key d)) as [[entries| | |]|] eqn:E; [|done..].
  apply yields_ret. exact (truth_inv d KIndex _ _ Hd (Hm moment _ _ E)).
Qed.

Lemma into_filter_truth d b filter :
  known d → truth (filter_key d) b → into_filter b (metadata_segment_object_key d) = Ok filter → filter_of d filter.
Proof. intros Hd Ht Hi. apply truth_inv in Ht; [|done]. destruct b; try done. by injection Hi as <-. Qed.

Lemma load_segment_filter_yields moment segment_cache (memo : SessionBlockMemo block) d :
  known d → (∃ object, object_of d object) → cache_coherent segment_cache → memo_coherent (Some memo) →
  yields truth (load_segment_filter store_get moment segment_cache memo d) (filter_of d).
Proof.
  intros Hd [object Ho] Hc Hm. unfold load_segment_filter.
  assert (yields truth
    (match ms_filter_inline d with
     | Some inline =>
         stored ← lift (map_err (λ _, SegmentCodec (metadata_segment_object_key d)) (hex_decode_bytes inline));
         block ← lift (decode_stored_block (metadata_segment_object_key d) KFilter (ms_filter_block d) (as_bytes stored));
         _ ← publish_segment_block segment_cache (Some memo) (filter_key d) block;
         lift (into_filter block (metadata_segment_object_key d))
     | None =>
         block ← load_through moment segment_cache (filter_key d) (ms_filter_block d)
           (load_and_publish_segment_sections store_get moment segment_cache (Some memo) d KFilter);
         _ ← memo_record (Some memo) (filter_key d) block;
         lift (into_filter block (metadata_segment_object_key d))
     end) (filter_of d)) as Hload.
  { destruct (ms_filter_inline d) as [inline|] eqn:Ei.
    - eapply (yields_bind _ _ _ (λ stored, as_bytes stored = block_range object (ms_filter_block d))).
      { apply yields_lift. intros stored Hs%map_err_Ok. by eapply known_inline. }
      intros stored ->. eapply (yields_bind _ _ _ (truth (filter_key d))).
      { apply yields_lift. intros b Hb. by eapply decode_stored_block_truth. }
      intros b Hb. eapply yields_bind; [by apply publish_yields|]. intros _ _. apply yields_lift. intros f. by apply into_filter_truth.
    - eapply yields_bind; [apply load_through_yields; [done|by apply load_sections_yields]|].
      intros b Hb. eapply yields_bind; [by apply memo_record_yields|]. intros _ _. apply yields_lift. intros f. by apply into_filter_truth. }
  destruct (memo moment (filter_key d)) as [[|f| |]|] eqn:E; [done| |done..].
  apply yields_ret. exact (truth_inv d KFilter _ _ Hd (Hm moment _ _ E)).
Qed.

(** *** Data blocks *)
Section data.
Context (d : MetadataSegmentRef) (all : list SegmentIndexEntry) (Hd : known d) (Hindex : index_of d all).
Implicit Types (entries span : list SegmentIndexEntry) (blocks : list (option (DecodedDataBlock Row)))
  (loaded : list (DecodedDataBlock Row)).

Definition holds_data (e : SegmentIndexEntry) (data : DecodedDataBlock Row) : Prop := data_of d e.(sie_block) data.
(** Every filled slot holds its entry's block. *)
Definition slots_ok entries blocks : Prop := Forall2 (λ e slot, ∀ data, slot = Some data → holds_data e data) entries blocks.

Lemma index_of_inj entries entries' : index_of d entries → index_of d entries' → entries = entries'.
Proof. intros (o & Ho & He) (o' & Ho' & He'). unfold object_of in *. simplify_eq. congruence. Qed.

Lemma data_hit e data :
  e ∈ all → truth (segment_block_cache_key d KData e.(sie_block).(bh_offset)) (DataBlock data) → holds_data e data.
Proof.
  intros He Ht. apply truth_inv in Ht as (entries & e' & Hi & He' & Hoff & Hdata); [|done].
  rewrite (index_of_inj _ _ Hi Hindex) in He'. by rewrite (known_offsets Hknown d all e e' Hd Hindex He He' Hoff).
Qed.

Lemma data_truth e data :
  e ∈ all → holds_data e data → truth (segment_block_cache_key d KData e.(sie_block).(bh_offset)) (DataBlock data).
Proof. intros He Hdata. exists d. split_and!; [done|done|]. cbn. by exists all, e. Qed.

Lemma load_cached_yields moment segment_cache memo entries blocks :
  cache_coherent segment_cache → memo_coherent memo → (∀ e, e ∈ entries → e ∈ all) → slots_ok entries blocks →
  yields truth (load_cached_data_blocks moment segment_cache memo d entries blocks)
    (λ blocks', slots_ok entries blocks' ∧ Forall2 (λ s s', is_Some s → is_Some s') blocks blocks').
Proof.
  intros Hc Hm Hin Hs. induction Hs as [|e slot entries blocks Hslot Hs IH]; [apply yields_ret; split; constructor|].
  cbn [load_cached_data_blocks]. assert (e ∈ all) as He by (apply Hin; by left).
  eapply (yields_bind _ _ _ (λ slot', (∀ data, slot' = Some data → holds_data e data) ∧ (is_Some slot → is_Some slot'))).
  { destruct slot as [data|]; [by apply yields_ret|]. set (Q := λ slot' : option (DecodedDataBlock Row), _ ∧ _).
    assert (∀ data, holds_data e data → yields truth (mret (Some data) : Load block _) Q) as Hret.
    { intros data Hh. apply yields_ret. split; [by intros ? [= <-]|by intros []]. }
    assert (yields truth (mret None : Load block _) Q) as Hnone by (by apply yields_ret).
    set (key := segment_block_cache_key d KData (bh_offset (sie_block e))).
    assert (yields truth
      (match cache ← segment_cache; bc_get cache moment key (sie_block e) with
       | Some (DataBlock found) => _ ← memo_record memo key (DataBlock found); mret (Some found)
       | _ => mret None
       end) Q) as Hshared.
    { destruct segment_cache as [cache|]; [|done]. cbn. destruct (bc_get cache moment _ _) as [[| |data|]|] eqn:E; try done.
      assert (truth key (DataBlock data)) as Ht by (eapply Hc; [done|by left]).
      apply (yields_bind _ _ _ (λ _, True)); [by apply memo_record_yields|]. intros _ _. by apply Hret, data_hit. }
    destruct (memo_get moment memo key) as [[| |data|]|] eqn:E; [done|done| |done|done].
    apply Hret, data_hit; [done|]. by eapply Hm. }
  intros slot' [Hok Hsome]. eapply yields_bind; [apply IH; intros e' He'; apply Hin; by right|].
  intros blocks' [Hoks Hsomes]. apply yields_ret. split; by constructor.
Qed.

(** *** Spans *)
Lemma slice_bytes_range object offset size_bytes handle start stored :
  checked_sub (Er:=ManifestLoadError) handle.(bh_offset) offset = Ok start →
  slice_bytes (Er:=ManifestLoadError) (take (N.to_nat size_bytes) (drop (N.to_nat offset) object)) start handle.(bh_stored_bytes) = Ok stored →
  stored = block_range object handle.
Proof.
  unfold checked_sub, slice_bytes, block_range, blen. case_decide as Hle; [|done]. intros [= <-]. case_decide as Hlen; [|done].
  intros [= <-]. rewrite length_take, length_drop in Hlen. rewrite skipn_firstn_comm, drop_drop, take_take. f_equal; [lia|f_equal; lia].
Qed.

Lemma decode_span_yields segment_cache memo object offset size_bytes span :
  object_of d object → (∀ e, e ∈ span → e ∈ all) →
  yields truth
    (decode_span segment_cache memo d offset (take (N.to_nat size_bytes) (drop (N.to_nat offset) object)) span)
    (Forall2 holds_data span).
Proof.
  intros Ho Hin. induction span as [|e span IH]; [by apply yields_ret|]. cbn [decode_span].
  assert (e ∈ all) as He by (apply Hin; by left).
  apply (yields_bind _ _ _ (λ start, checked_sub (Er:=ManifestLoadError) e.(sie_block).(bh_offset) offset = Ok start)); [by apply yields_lift|].
  intros start Hstart. apply (yields_bind _ _ _ (λ stored, stored = block_range object e.(sie_block))).
  { apply yields_lift. intros stored. by apply slice_bytes_range. }
  intros stored ->. apply (yields_bind _ _ _ (holds_data e)).
  { apply yields_lift. intros data Hdata%map_err_Ok. by exists object. }
  intros data Hdata. eapply yields_bind; [by apply publish_yields, data_truth|]. intros _ _.
  eapply yields_bind; [apply IH; intros e' He'; apply Hin; by right|]. intros rest Hrest. apply yields_ret. by constructor.
Qed.

(** A span's load gives a non-empty prefix of its blocks. *)
Definition holds_prefix span loaded : Prop := loaded ≠ [] ∧ Forall2 holds_data (take (length loaded) span) loaded.

Lemma load_and_publish_span_yields moment segment_cache memo span :
  (∀ e, e ∈ span → e ∈ all) →
  yields truth (load_and_publish_span store_get moment segment_cache memo d span) (λ loaded, span ≠ [] ∧ Forall2 holds_data span loaded).
Proof.
  intros Hin. unfold load_and_publish_span. apply (yields_bind _ _ _ (λ _, span ≠ [])).
  { apply yields_lift. intros first Hf. by destruct span. }
  intros first Hne. do 3 (apply (yields_bind _ _ _ (λ _, True)); [by apply yields_lift|]; intros ? _).
  eapply (yields_bind _ _ _ (λ found, ∃ object n, object_of d object ∧ found = take (N.to_nat n) (drop (N.to_nat first.(bh_offset)) object))).
  { apply yields_lift. intros found Hf. destruct (load_section_bytes_Ok _ _ _ _ _ Hf) as (object & Ho & Hb & _). by eexists _, _. }
  intros found (object & n & Ho & ->). eapply yields_impl; [by apply decode_span_yields|]. done.
Qed.

Lemma load_span_yields moment segment_cache memo span :
  cache_coherent segment_cache → (∀ e, e ∈ span → e ∈ all) →
  yields truth (load_span store_get moment segment_cache memo d span) (holds_prefix span).
Proof.
  intros Hc Hin. pose proof (load_and_publish_span_yields moment segment_cache memo span Hin) as Hfetch.
  assert (∀ loaded, span ≠ [] ∧ Forall2 holds_data span loaded → holds_prefix span loaded) as Hwhole.
  { intros loaded [Hne Hl]. split; [by destruct Hl|]. by rewrite <-(Forall2_length _ _ _ Hl), firstn_all. }
  unfold load_span. destruct segment_cache as [cache|]; [|by eapply yields_impl].
  apply (yields_bind _ _ _ (λ first, head span = Some first)); [apply yields_lift; intros e He; by destruct span as [|? ?]; [|injection He as ->]|].
  intros first Hfirst. cbv zeta. destruct span as [|e span]; [done|]. injection Hfirst as ->.
  assert (first ∈ all) as He by (apply Hin; by left).
  destruct (bc_shared cache moment _ _) as [found|] eqn:E.
  - apply (yields_bind _ _ _ (holds_data first)).
    { apply yields_lift. intros data Hdata. destruct found; try done. injection Hdata as ->. apply data_hit; [done|].
      eapply Hc; [done|by right]. }
    intros data Hdata. apply yields_ret. split; [done|]. by repeat constructor.
  - eapply yields_bind; [exact Hfetch|]. intros decoded [Hne Hl].
    apply (yields_bind _ _ _ (holds_data first)).
    { apply yields_lift. intros b Hb. inversion Hl as [|? ? ? ? Hx]; subst. by injection Hb as <-. }
    intros b Hb. apply yields_publish; [|by apply Hwhole]. intros p ->%list_elem_of_singleton. by apply data_truth.
Qed.

Lemma slice_incl {A} start stop (l : list A) x : x ∈ slice start stop l → x ∈ l.
Proof using Type. unfold slice. intros Hx%elem_of_take. destruct Hx as (i & Hi & _). rewrite lookup_drop in Hi. by eapply list_elem_of_lookup_2. Qed.

Lemma load_spans_yields moment segment_cache memo entries spans :
  cache_coherent segment_cache → (∀ e, e ∈ entries → e ∈ all) →
  yields truth (load_spans store_get moment segment_cache memo d entries spans)
    (Forall2 (λ range p, p.1 = range.1 ∧ holds_prefix (slice range.1 range.2 entries) p.2) spans).
Proof.
  intros Hc Hin. induction spans as [|[start stop] spans IH]; [by apply yields_ret|]. cbn [load_spans].
  eapply yields_bind; [apply load_span_yields; [done|]; intros e He%slice_incl; by apply Hin|]. intros loaded Hl.
  eapply yields_bind; [exact IH|]. intros rest Hr. apply yields_ret. by constructor.
Qed.

Lemma fill_slots_ok entries blocks loaded :
  slots_ok entries blocks → Forall2 holds_data (take (length loaded) entries) loaded → slots_ok entries (fill_slots blocks loaded).
Proof.
  intros Hs. revert loaded. induction Hs as [|e slot entries blocks Hslot Hs IH]; intros [|data loaded] Hl; try by constructor.
  cbn in *. apply Forall2_cons in Hl as [Hd1 Hl]. constructor; [by intros ? [= <-]|by apply IH].
Qed.

Lemma fill_slots_at_ok entries blocks start stop loaded :
  slots_ok entries blocks → holds_prefix (slice start stop entries) loaded → slots_ok entries (fill_slots_at start blocks loaded).
Proof.
  intros Hs [_ Hl]. unfold fill_slots_at. rewrite <-(take_drop start entries). apply Forall2_app; [by apply Forall2_take|].
  apply fill_slots_ok; [by apply Forall2_drop|]. unfold slice in Hl. rewrite take_take in Hl.
  pose proof (Forall2_length _ _ _ Hl) as Hlen. rewrite length_take in Hlen.
  by rewrite Nat.min_l in Hl by lia.
Qed.

Lemma fill_spans_ok entries blocks spans (pairs : list (nat * list (DecodedDataBlock Row))) :
  slots_ok entries blocks →
  Forall2 (λ range p, p.1 = range.1 ∧ holds_prefix (slice range.1 range.2 entries) p.2) spans pairs →
  slots_ok entries (foldl (λ blocks '(start, loaded), fill_slots_at start blocks loaded) blocks pairs).
Proof.
  intros Hs Hl. revert blocks Hs. induction Hl as [|[start stop] [s l] spans pairs [Es Hp] Hl IH]; intros blocks Hs; [done|].
  cbn in Es, Hp |- *. subst s. apply IH. by eapply fill_slots_at_ok.
Qed.

Lemma expect_all_Ok entries blocks loaded :
  slots_ok entries blocks → expect_all blocks = Ok loaded → Forall2 holds_data entries loaded.
Proof.
  intros Hs. revert loaded. induction Hs as [|e slot entries blocks Hslot Hs IH]; intros loaded He; cbn [expect_all] in He.
  { injection He as <-. constructor. }
  step_ok He data Hdata. step_ok He rest Hrest. injection He as <-. destruct slot; [|done]. injection Hdata as ->.
  constructor; [by apply Hslot|by apply IH].
Qed.

Lemma load_passes_yields fuel moment segment_cache memo entries blocks :
  cache_coherent segment_cache → memo_coherent memo → (∀ e, e ∈ entries → e ∈ all) → slots_ok entries blocks →
  yields truth (load_passes store_get fuel moment segment_cache memo d entries blocks) (Forall2 holds_data entries).
Proof.
  intros Hc Hm Hin. revert moment blocks. induction fuel as [|fuel IH]; intros moment blocks Hs; cbn [load_passes];
    (eapply yields_bind; [by apply load_cached_yields|]); intros blocks' [Hs' _];
    destruct (missing_block_spans entries blocks') as [|span spans] eqn:E.
  1,3: apply yields_lift; intros loaded; by apply expect_all_Ok.
  { by apply yields_lift. }
  eapply yields_bind; [by apply load_spans_yields|]. intros loaded Hl. apply IH. by eapply fill_spans_ok.
Qed.

Lemma empty_slots_ok entries : slots_ok entries (replicate (length entries) None).
Proof.
  apply Forall2_same_length_lookup. split; [by rewrite length_replicate|].
  intros i e slot _ Hs. apply lookup_replicate in Hs as [-> _]. done.
Qed.

(** Consecutive data blocks of a segment, from wherever they are loaded. *)
Lemma load_data_yields segment_cache memo entries :
  cache_coherent segment_cache → memo_coherent memo → (∀ e, e ∈ entries → e ∈ all) →
  yields truth (load_segment_data_block_span store_get segment_cache memo d entries) (Forall2 holds_data entries).
Proof.
  intros Hc Hm Hin. apply load_passes_yields; [done..|]. apply empty_slots_ok.
Qed.
End data.

(** *** The other loads *)
Lemma load_segment_extent_filter_yields moment cache d :
  known d → cache_coherent (Some cache) →
  yields truth (load_segment_extent_filter store_get moment cache d) (extent_filter_of d).
Proof.
  intros Hd Hc. unfold load_segment_extent_filter.
  apply (yields_bind _ _ _ (λ handle, d.(ms_extent_filter_block) = Some handle)).
  { apply yields_lift. intros handle Hh. by destruct (ms_extent_filter_block d); [injection Hh as ->|]. }
  intros handle Hh. eapply yields_bind.
  - apply (load_through_yields moment (Some cache)); [done|]. by apply load_section_block_yields.
  - intros b Hb. apply yields_lift. intros filter Hf. apply truth_inv in Hb; [|done]. destruct b; try done. by injection Hf as <-.
Qed.

Lemma insert_written_segment_yields cache d object writer :
  known d → object_of d object → yields truth (insert_written_segment cache d object writer) (λ _, True).
Proof.
  intros Hd Ho. unfold insert_written_segment. cbv zeta. apply (yields_bind _ _ _ (λ _, True)); [by apply yields_lift|].
  intros data_blocks _. apply (yields_bind _ _ _ (λ _, True)).
  { eapply yields_impl; [|done].
    pose proof (publish_segment_sections_yields (Some cache) None d object 0 (blen object) data_blocks Hd Ho) as Hy.
    unfold blen in Hy. rewrite Nat2N.id, drop_0, firstn_all in Hy. exact Hy. }
  intros _ _. destruct (ms_extent_filter_block d) as [handle|] eqn:Eh; [|by apply yields_ret].
  apply (yields_bind _ _ _ (λ stored, stored = block_range object handle)).
  { apply yields_lift. intros stored Hs. step_ok Hs stop Hstop. case_decide; [|done]. unfold slice_bytes in Hs. case_decide; [|done].
    by injection Hs as <-. }
  intros stored ->. apply (yields_bind _ _ _ (truth (segment_block_cache_key d KExtentFilter handle.(bh_offset)))).
  { apply yields_lift. intros b Hb. by eapply decode_stored_block_truth. }
  intros b Hb. by apply publish_yields.
Qed.

(** A damaged section fails the load and publishes nothing. *)
Lemma publish_data_Ok segment_cache memo d data : (publish_data segment_cache memo d data).(outcome) = Ok ().
Proof. induction data as [|[o b] data IH]; [done|]. cbn [publish_data]. unfold mbind, Load_bind. cbn. exact IH. Qed.

Lemma publish_segment_sections_all_or_nothing segment_cache memo d object offset data_blocks :
  (∀ r, (publish_segment_sections segment_cache memo d object offset data_blocks).(outcome) ≠ Ok r) →
  (publish_segment_sections segment_cache memo d object offset data_blocks).(published) = [].
Proof.
  unfold publish_segment_sections. cbv zeta.
  destruct (decode_section_of _ object offset KIndex _) as [i| | |]; [|done..]. rewrite lift_bind.
  destruct (decode_section_of _ object offset KFilter _) as [f| | |]; [|done..]. rewrite lift_bind.
  destruct (if data_blocks then _ else _) as [data| | |]; [|done..]. rewrite lift_bind. intros Hno. exfalso.
  apply (Hno (i, f)). unfold mbind, Load_bind. destruct i, f; cbn; by rewrite publish_data_Ok.
Qed.
End coherence.
