(* ===== verification/SegmentCaches.v ===== *)
(** * The memo and the block cache as a state machine

    The states that the memo of a read and the shared block cache go through
    while loads publish blocks, writers insert the segments they wrote, and
    entries are evicted, in any interleaving: a load may take each of its
    answers from any state so far. *)
From S2P Require Import Prelude Types Utf8 Codec Records SegmentBlocks SegmentFormat RowKeys ScanPage RunIterator Manifest Scan SegmentLoad SegmentCoherence.
Local Open Scope N_scope.

Section caches.
Context `{SectionCodecs} {Row Manifest : Type} `{Cbor Row} `{Cbor (list SegmentIndexEntry)}.
#[local] Abbreviation store := (nat → string → N → N → res ObjectStoreErrorKind (option bytes)).
Implicit Types (store_get : store).
#[local] Abbreviation block := (DecodedSegmentBlock Row Manifest).

Record CacheState := mkCacheState { cs_memo : SegmentCacheKey → option block; cs_cache : SegmentCacheKey → option block }.
Implicit Types (state : CacheState) (history : list CacheState) (d : MetadataSegmentRef).

Definition empty_caches : CacheState := {| cs_memo _ := None; cs_cache _ := None |}.

Definition set_entry (entries : SegmentCacheKey → option block) (key : SegmentCacheKey) (value : option block)
    : SegmentCacheKey → option block :=
  λ k, if decide (k = key) then value else entries k.
Definition set_at (destination : Destination) (key : SegmentCacheKey) (value : option block) state : CacheState :=
  match destination with
  | ToMemo => {| cs_memo := set_entry state.(cs_memo) key value; cs_cache := state.(cs_cache) |}
  | ToCache => {| cs_memo := state.(cs_memo); cs_cache := set_entry state.(cs_cache) key value |}
  end.

(** The operations that publish. *)
Inductive CacheOperation : Type :=
| LoadIndex (descriptor : MetadataSegmentRef) (whole : bool)
| LoadFilter (descriptor : MetadataSegmentRef)
| LoadExtentFilter (descriptor : MetadataSegmentRef)
| LoadData (descriptor : MetadataSegmentRef) (entries : list SegmentIndexEntry)
| InsertWritten (descriptor : MetadataSegmentRef) (object : bytes) (writer : SegmentWriter).

(** What an operation publishes; the filter loads need a memo or a cache. *)
Definition operation_published store_get (operation : CacheOperation) (segment_cache : option (BlockCache block))
    (memo : option (SessionBlockMemo block)) : list (Destination * SegmentCacheKey * block) :=
  match operation with
  | LoadIndex d whole => (load_segment_index_inner store_get 0 segment_cache memo d whole).(published)
  | LoadFilter d =>
      match memo with Some memo => (load_segment_filter store_get 0 segment_cache memo d).(published) | None => [] end
  | LoadExtentFilter d =>
      match segment_cache with Some cache => (load_segment_extent_filter store_get 0 cache d).(published) | None => [] end
  | LoadData d entries => (load_segment_data_block_span store_get segment_cache memo d entries).(published)
  | InsertWritten d object writer =>
      match segment_cache with Some cache => (insert_written_segment cache d object writer).(published) | None => [] end
  end.

(** The answers that a load got were in the memo and in the cache. *)
Definition answers_from history (segment_cache : option (BlockCache block)) (memo : option (SessionBlockMemo block)) : Prop :=
  (∀ moment key b, memo_get moment memo key = Some b → ∃ state, state ∈ history ∧ state.(cs_memo) key = Some b) ∧
  (∀ cache moment key handle b, segment_cache = Some cache →
    cache.(bc_get) moment key handle = Some b ∨ cache.(bc_shared) moment key handle = Some b →
    ∃ state, state ∈ history ∧ state.(cs_cache) key = Some b).

Context (objects : string → option bytes) (known : MetadataSegmentRef → Prop).

(** The operations are on the namespace's segments. *)
Definition operation_ok (operation : CacheOperation) : Prop :=
  match operation with
  | LoadIndex d _ | LoadExtentFilter d => known d
  | LoadFilter d => known d ∧ ∃ object, object_of objects d object
  | LoadData d entries => known d ∧ ∃ all, index_of objects d all ∧ ∀ e, e ∈ entries → e ∈ all
  | InsertWritten d object _ => known d ∧ object_of objects d object
  end.

Inductive cache_history : list CacheState → Prop :=
| history_start : cache_history [empty_caches]
| history_evict destination key state history :
    cache_history (state :: history) → cache_history (set_at destination key None state :: state :: history)
| history_publish store_get operation segment_cache memo destination key b state history :
    cache_history (state :: history) → serves_objects store_get objects → operation_ok operation →
    answers_from (state :: history) segment_cache memo →
    (destination, key, b) ∈ operation_published store_get operation segment_cache memo →
    cache_history (set_at destination key (Some b) state :: state :: history).

Context (Hknown : known_ok objects known).
#[local] Abbreviation truth := (truth (Row:=Row) (Manifest:=Manifest) objects known).

Definition state_coherent state : Prop :=
  ∀ key b, state.(cs_memo) key = Some b ∨ state.(cs_cache) key = Some b → truth key b.

Lemma set_at_coherent destination key value state :
  state_coherent state → (∀ b, value = Some b → truth key b) → state_coherent (set_at destination key value state).
Proof.
  intros Hs Hv k b. unfold set_at, set_entry. destruct destination; cbn; case_decide as E; naive_solver.
Qed.

Lemma answers_coherent history segment_cache memo :
  Forall state_coherent history → answers_from history segment_cache memo →
  cache_coherent objects known segment_cache ∧ memo_coherent objects known memo.
Proof.
  rewrite Forall_forall. intros Hall [Hm Hc]. split.
  - intros cache Hcache moment key handle b Hb. destruct (Hc cache moment key handle b Hcache Hb) as (state & Hin & Hs).
    eapply Hall; [exact Hin|by right].
  - intros moment key b Hb. destruct (Hm moment key b Hb) as (state & Hin & Hs). eapply Hall; [exact Hin|by left].
Qed.

Lemma operation_publishes_truth store_get operation segment_cache memo p :
  serves_objects store_get objects → operation_ok operation → cache_coherent objects known segment_cache → memo_coherent objects known memo →
  p ∈ operation_published store_get operation segment_cache memo → truth p.1.2 p.2.
Proof.
  intros Hserves Hok Hc Hm. destruct operation as [d whole|d|d|d entries|d object writer]; cbn in Hok |- *.
  - by apply load_segment_index_yields.
  - destruct memo as [memo|]; [|by intros ?%elem_of_nil]. destruct Hok. by apply load_segment_filter_yields.
  - destruct segment_cache as [cache|]; [|by intros ?%elem_of_nil]. by apply load_segment_extent_filter_yields.
  - destruct Hok as (Hd & all & Hi & Hin). by apply (load_data_yields store_get objects Hserves known Hknown d all).
  - destruct segment_cache as [cache|]; [|by intros ?%elem_of_nil]. destruct Hok. by apply insert_written_segment_yields.
Qed.

Lemma history_coherent history : cache_history history → Forall state_coherent history.
Proof.
  induction 1 as [|destination key state history _ IH|store_get operation segment_cache memo destination key b state history _ IH Hserves Hok Hans Hp].
  - constructor; [|done]. by intros key b [?|?].
  - constructor; [|done]. apply Forall_cons in IH as [IH _]. by apply set_at_coherent.
  - constructor; [|done]. destruct (answers_coherent _ _ _ IH Hans) as [Hc Hm]. apply Forall_cons in IH as [IH _].
    apply set_at_coherent; [done|]. intros ? [= <-].
    exact (operation_publishes_truth store_get operation segment_cache memo (destination, key, b) Hserves Hok Hc Hm Hp).
Qed.

(** C30 The caches stay coherent, whatever the interleaving of loads, inserts
    and evictions: in every state that the memo and the block cache go through,
    each entry is the decoded block that the segment's object stores under the
    entry's key; and a load, whose answers may come from any of those states
    and whose reads may fail, returns the segment's own index, filter, extent
    filter or data blocks if it returns anything. *)
Theorem segment_caches_coherent store_get history segment_cache memo d :
  serves_objects store_get objects → cache_history history → answers_from history segment_cache memo → known d →
  (∀ state key b, state ∈ history → state.(cs_memo) key = Some b ∨ state.(cs_cache) key = Some b → truth key b) ∧
  (∀ whole entries, (load_segment_index_inner store_get 0 segment_cache memo d whole).(outcome) = Ok entries →
    index_of objects d entries) ∧
  (∀ session filter, memo = Some session → (∃ object, object_of objects d object) →
    (load_segment_filter store_get 0 segment_cache session d).(outcome) = Ok filter → filter_of objects d filter) ∧
  (∀ cache filter, segment_cache = Some cache →
    (load_segment_extent_filter store_get 0 cache d).(outcome) = Ok filter → extent_filter_of objects d filter) ∧
  (∀ all entries loaded, index_of objects d all → (∀ e, e ∈ entries → e ∈ all) →
    (load_segment_data_block_span store_get segment_cache memo d entries).(outcome) = Ok loaded →
    Forall2 (holds_data objects d) entries loaded).
Proof.
  intros Hserves Hh Hans Hd. pose proof (history_coherent history Hh) as Hall. destruct (answers_coherent _ _ _ Hall Hans) as [Hc Hm].
  rewrite Forall_forall in Hall. split_and!.
  - intros state key b Hin. by apply Hall.
  - intros whole. by apply (load_segment_index_yields store_get objects Hserves known Hknown 0 segment_cache memo d whole).
  - intros session filter -> Ho.
    by apply (load_segment_filter_yields store_get objects Hserves known Hknown 0 segment_cache session d).
  - intros cache filter ->. by apply (load_segment_extent_filter_yields store_get objects Hserves known Hknown 0 cache d).
  - intros all entries loaded Hi Hin.
    by apply (load_data_yields store_get objects Hserves known Hknown d all Hd Hi segment_cache memo entries).
Qed.
End caches.

(** A segment is written and read back. The writer puts its sections in the
    cache, the index entry is evicted, and a read loads from what is left. *)
Module caches_example.
Import SegmentFormat.Example.
#[local] Existing Instance example_codecs.
#[local] Existing Instance countable_cbor | 10.
#[local] Existing Instance index_cbor.
#[local] Abbreviation block := (DecodedSegmentBlock string unit).
#[local] Abbreviation caches := (CacheState (Row:=string) (Manifest:=unit)).

Definition descriptor : MetadataSegmentRef :=
  {| ms_owner_namespace_id := "ns"; ms_segment_id := "s"; ms_family := FamDirentryBinds; ms_encoding := 1;
     ms_row_count := 3; ms_min_row_key := "binding/1/a"; ms_max_row_key := "binding/2/a";
     ms_index_block := example_segment.(bsb_index); ms_filter_block := example_segment.(bsb_filter);
     ms_filter_inline := None; ms_extent_filter_block := example_segment.(bsb_extent_filter) |}.
Definition known (d : MetadataSegmentRef) : Prop := d = descriptor.
Definition objects (key : string) : option bytes :=
  if decide (key = metadata_segment_object_key descriptor) then Some example_segment.(bsb_bytes) else None.
Definition store_get (moment : nat) (key : string) (start stop : N) : res ObjectStoreErrorKind (option bytes) :=
  Ok (object ← objects key; Some (take (N.to_nat (stop - start)) (drop (N.to_nat start) object))).
Definition index_key : SegmentCacheKey := segment_block_cache_key descriptor KIndex descriptor.(ms_index_block).(bh_offset).

Definition cache_of (state : caches) : BlockCache block :=
  {| bc_get _ key _ := state.(cs_cache) key; bc_shared _ _ _ := None |}.
Definition index : list SegmentIndexEntry :=
  Eval vm_compute in
    match decode_index_block (block_range example_segment.(bsb_bytes) example_segment.(bsb_index)) example_segment.(bsb_index) with
    | Ok entries => entries | _ => [] end.
Definition written : caches := set_at ToCache index_key (Some (IndexBlock index)) empty_caches.
Definition evicted : caches := set_at ToCache index_key None written.

Lemma index_decodes :
  decode_index_block (block_range example_segment.(bsb_bytes) example_segment.(bsb_index)) example_segment.(bsb_index) = Ok index.
Proof. by vm_compute. Qed.

Lemma store_serves : serves_objects store_get objects.
Proof.
  intros moment key start stop found. unfold store_get. intros [= Hf]. destruct (objects key) as [object|]; [|done].
  injection Hf as <-. by exists object.
Qed.

Lemma object_stored object : object_of objects descriptor object ↔ object = example_segment.(bsb_bytes).
Proof. unfold object_of, objects. rewrite decide_True by done. split; [by intros ->%(inj Some)|by intros ->]. Qed.

Lemma index_stored entries : index_of objects descriptor entries → entries = index.
Proof. intros (object & ->%object_stored & Hd). cbn [descriptor ms_index_block] in Hd. rewrite index_decodes in Hd. by injection Hd. Qed.

Lemma known_segments : known_ok objects known.
Proof.
  constructor.
  - by intros ? ? -> ->.
  - by intros ? inline stored object ->.
  - intros ? entries e e' -> ->%index_stored He He'.
    repeat (apply elem_of_cons in He as [->|He] || apply elem_of_nil in He as []);
    repeat (apply elem_of_cons in He' as [->|He'] || apply elem_of_nil in He' as []); done.
Qed.

Lemma example_cache_history : cache_history (Row:=string) (Manifest:=unit) objects known [evicted; written; empty_caches].
Proof.
  apply history_evict.
  apply (history_publish objects known store_get (InsertWritten descriptor example_segment.(bsb_bytes) Fold)
    (Some (cache_of empty_caches)) None).
  - apply history_start.
  - apply store_serves.
  - split; [done|]. by apply object_stored.
  - split; [done|]. by intros ? moment key handle b [= <-] [?|?].
  - cbn [operation_published]. apply list_elem_of_lookup. exists 0%nat. by vm_compute.
Qed.

Lemma segment_caches_coherent_witness :
  (∃ entries, (load_segment_index_inner store_get 0 (Some (cache_of evicted)) None descriptor true).(outcome) = Ok entries ∧
    index_of objects descriptor entries) ∧
  (load_segment_index_inner store_get 0 (Some (cache_of evicted)) None descriptor true).(published) ≠ [].
Proof.
  destruct (segment_caches_coherent objects known known_segments store_get
    [evicted; written; empty_caches] (Some (cache_of evicted)) None descriptor store_serves example_cache_history) as (_ & Hindex & _).
  - split; [done|]. intros cache moment key handle b [= <-] [Hb|Hb]; [|done]. exists evicted. split; [left|done].
  - done.
  - split; [|by vm_compute]. exists index. split; [by vm_compute|]. apply (Hindex true). by vm_compute.
Defined.
End caches_example.
