(* ===== verification/SegmentServe.v ===== *)
(** * The scan's loader serves the stored segments

    The loads of [SegmentLoad] end, and the loader of [scan_load.rs] satisfies
    the laws that [RunIterator] asks of a loader, for the segments that the
    object store holds. *)
From S2P Require Import Prelude Types Utf8 Codec Records SegmentBlocks SegmentFormat RowKeys ScanPage RunIterator Manifest Scan SegmentLoad SegmentCoherence SegmentCaches.
Local Open Scope N_scope.

(** ** Loads end *)
Definition load_ends {B A} (l : Load B A) : Prop := returns l.(outcome).

(** The load gives a result, or an error where errors are expected. *)
Definition load_fine {B A} (errors : bool) (l : Load B A) : Prop :=
  match l.(outcome) with Ok _ => True | Err _ => errors = true | Panic | OutOfFuel => False end.

Lemma load_fine_bind {B A C} errors (l : Load B A) (f : A → Load B C) :
  load_fine errors l → (∀ a, l.(outcome) = Ok a → load_fine errors (f a)) → load_fine errors (a ← l; f a).
Proof.
  unfold load_fine, mbind, Load_bind. destruct (outcome l) as [a|e| |] eqn:E; cbn; [|done..]. intros _ Hf. by apply Hf.
Qed.

Lemma load_fine_ends {B A} (l : Load B A) : load_fine true l ↔ load_ends l.
Proof. unfold load_fine, load_ends, returns. by destruct (outcome l). Qed.

Lemma load_ends_bind {B A C} (l : Load B A) (f : A → Load B C) :
  load_ends l → (∀ a, l.(outcome) = Ok a → load_ends (f a)) → load_ends (a ← l; f a).
Proof. unfold load_ends, mbind, Load_bind. destruct (outcome l) eqn:E; cbn; [|done..]. intros _ Hf. by apply Hf. Qed.

Lemma bind_outcome_Ok {B A C} (l : Load B A) (f : A → Load B C) c :
  (a ← l; f a).(outcome) = Ok c → ∃ a, l.(outcome) = Ok a ∧ (f a).(outcome) = Ok c.
Proof. unfold mbind, Load_bind. destruct (outcome l) as [a| | |] eqn:E; cbn; [|done..]. intros Hc. by exists a. Qed.

(** Consecutive blocks, each starting where the one before ends. *)
Definition block_end (e : SegmentIndexEntry) : N := e.(sie_block).(bh_offset) + e.(sie_block).(bh_stored_bytes).
Fixpoint tiled (entries : list SegmentIndexEntry) : Prop :=
  match entries with
  | e :: (e' :: _) as rest => e'.(sie_block).(bh_offset) = block_end e ∧ tiled rest
  | _ => True
  end.

Lemma check_index_tiled previous entries :
  check_index previous entries = Ok () → tiled entries ∧ Forall (λ e, block_end e ≤ U64_MAX) entries ∧
  ∀ e, head entries = Some e → match previous with Some (_, stop) => e.(sie_block).(bh_offset) = stop | None => True end.
Proof.
  revert previous. induction entries as [|e entries IH]; intros previous Hc; [by split_and!|]. cbn [check_index] in Hc.
  step_ok Hc stop Hstop. apply ok_or_Ok in Hstop. unfold checked_add in Hstop. case_decide as Hle; [|done]. injection Hstop as <-.
  step_ok Hc u Hprev. destruct (IH _ Hc) as (Ht & Hall & Hhead). split_and!.
  - destruct entries as [|e' entries]; [done|]. split; [|done]. by apply Hhead.
  - by constructor.
  - intros ? [= <-]. destruct previous as [[key previous_end]|]; [|done]. case_bool_decide; [done|].
    destruct (N.eqb_spec e.(sie_block).(bh_offset) previous_end); [done|done].
Qed.

Lemma tiled_app_inv l k : tiled (l ++ k) → tiled l ∧ tiled k.
Proof.
  induction l as [|e l IH]; [done|]. cbn [app]. destruct l as [|e' l]; cbn.
  - destruct k as [|e'' k]; [done|]. by intros [_ ?].
  - cbn in IH. intros [He Ht]. destruct (IH Ht) as [Hl Hk]. by split.
Qed.

Lemma tiled_take n entries : tiled entries → tiled (take n entries).
Proof. intros Ht. rewrite <-(take_drop n entries) in Ht. by apply tiled_app_inv in Ht as [Ht _]. Qed.

Lemma tiled_slice start stop entries : tiled entries → tiled (slice start stop entries).
Proof.
  intros Ht. unfold slice. rewrite <-(take_drop start entries) in Ht. apply tiled_app_inv in Ht as [_ Ht]. by apply tiled_take.
Qed.

(** The blocks of a span lie between its first offset and its last end. *)
Lemma tiled_between e entries stop x :
  tiled (e :: entries) → last (e :: entries) = Some stop → x ∈ e :: entries →
  e.(sie_block).(bh_offset) ≤ x.(sie_block).(bh_offset) ∧ block_end x ≤ block_end stop.
Proof.
  revert e x. induction entries as [|e' entries IH]; intros e x Ht Hl Hx.
  { injection Hl as <-. apply list_elem_of_singleton in Hx as ->. lia. }
  destruct Ht as [He Ht]. rewrite last_cons_cons in Hl. unfold block_end in *.
  apply elem_of_cons in Hx as [->|Hx].
  - destruct (IH e' e' Ht Hl) as [_ Hend]; [by left|]. lia.
  - destruct (IH e' x Ht Hl Hx). lia.
Qed.

(** *** The spans of a pass *)
Section spans.
Context {Row : Type}.
Implicit Types (entries : list SegmentIndexEntry) (blocks : list (option (DecodedDataBlock Row))).

Lemma spans_from_spec fuel cursor entries blocks :
  length entries = length blocks → (length blocks ≤ fuel)%nat →
  Forall (λ range : nat * nat, (cursor ≤ range.1 < range.2)%nat ∧ (range.2 ≤ cursor + length blocks)%nat ∧
    blocks !! (range.1 - cursor)%nat = Some None) (spans_from fuel cursor entries blocks) ∧
  (spans_from fuel cursor entries blocks = [] → Forall is_Some blocks).
Proof.
  revert cursor entries blocks. induction fuel as [|fuel IH]; intros cursor entries blocks Hlen Hfuel.
  { by destruct blocks; [|cbn in Hfuel; lia]. }
  destruct blocks as [|[data|] blocks]; [done| |].
  - destruct entries as [|e entries]; [done|]. cbn in Hlen, Hfuel. cbn [spans_from tail].
    destruct (IH (S cursor) entries blocks ltac:(lia) ltac:(lia)) as [H1 H2]. split.
    + eapply Forall_impl; [exact H1|]. intros [start stop] (Hs & Hst & Hb). cbn in *. split_and!; [lia|lia|lia|].
      replace (start - cursor)%nat with (S (start - S cursor)) by lia. done.
    + intros E. constructor; [done|by apply H2].
  - cbn [spans_from]. set (len := Nat.max 1 (span_len entries (None :: blocks) 0)). split; [|done].
    assert (1 ≤ len ≤ length (None :: blocks))%nat as Hl.
    { unfold len. cbn [length]. assert (∀ entries blocks n, span_len (Row:=Row) entries blocks n ≤ length blocks)%nat as Hle.
      { clear. induction entries as [|e entries IH]; intros [|[|] blocks] n; cbn; try lia. case_decide; [|lia]. specialize (IH blocks (n + bh_stored_bytes (sie_block e))). lia. }
      specialize (Hle entries (None :: blocks) 0). cbn [length] in Hle. lia. }
    constructor.
    + cbn in *. split_and!; [lia|lia|lia|]. by rewrite Nat.sub_diag.
    + destruct (IH (cursor + len)%nat (drop len entries) (drop len (None :: blocks))) as [H1 _];
        [rewrite !length_drop; lia|rewrite length_drop; cbn in *; lia|].
      eapply Forall_impl; [exact H1|]. intros [start stop] (Hs & Hst & Hb). rewrite length_drop in Hst. rewrite lookup_drop in Hb.
      cbn [fst snd] in *. split_and!; [lia|lia|cbn in *; lia|]. by replace (start - cursor)%nat with (len + (start - (cursor + len)))%nat by lia.
Qed.

Lemma missing_block_spans_spec entries blocks :
  length entries = length blocks →
  Forall (λ range : nat * nat, (range.1 < range.2 ≤ length entries)%nat ∧ blocks !! range.1 = Some None)
    (missing_block_spans entries blocks) ∧
  (missing_block_spans entries blocks = [] → Forall is_Some blocks).
Proof.
  intros Hlen. destruct (spans_from_spec (length entries) 0 entries blocks Hlen ltac:(lia)) as [H1 H2]. split; [|done].
  eapply Forall_impl; [exact H1|]. intros [start stop] (Hs & Hst & Hb). cbn in *. rewrite Nat.sub_0_r in Hb. split; [lia|done].
Qed.

(** The slots that are still empty. *)
Fixpoint empty_slots blocks : nat :=
  match blocks with
  | [] => O
  | Some _ :: blocks => empty_slots blocks
  | None :: blocks => S (empty_slots blocks)
  end.

Lemma fill_slots_empty blocks loaded : (empty_slots (fill_slots blocks loaded) ≤ empty_slots blocks)%nat.
Proof.
  revert loaded. induction blocks as [|slot blocks IH]; intros [|data loaded]; cbn [fill_slots empty_slots]; [done..|].
  specialize (IH loaded). destruct slot; lia.
Qed.

Lemma empty_slots_app blocks blocks' : empty_slots (blocks ++ blocks') = (empty_slots blocks + empty_slots blocks')%nat.
Proof. induction blocks as [|[] blocks IH]; cbn; lia. Qed.

Lemma fill_slots_at_empty start blocks loaded :
  (empty_slots (fill_slots_at start blocks loaded) ≤ empty_slots blocks)%nat ∧
  (blocks !! start = Some None → loaded ≠ [] → empty_slots (fill_slots_at start blocks loaded) < empty_slots blocks)%nat.
Proof.
  unfold fill_slots_at. rewrite empty_slots_app.
  assert (empty_slots blocks = empty_slots (take start blocks) + empty_slots (drop start blocks))%nat as ->
    by (by rewrite <-empty_slots_app, take_drop).
  split.
  - pose proof (fill_slots_empty (drop start blocks) loaded). lia.
  - intros Hs Hl. destruct loaded as [|data loaded]; [done|]. rewrite (drop_S _ _ _ Hs). cbn [fill_slots].
    pose proof (fill_slots_empty (drop (S start) blocks) loaded) as Hle. cbn [empty_slots]. lia.
Qed.
End spans.

(** *** Every load returns *)
Lemma nibble_returns byte : returns (nibble byte).
Proof. unfold nibble. by repeat case_decide. Qed.
Lemma decode_pairs_returns encoded : returns (decode_pairs encoded).
Proof.
  assert (returns (decode_pairs encoded) ∧ ∀ a, returns (decode_pairs (String a encoded))) as [? _]; [|done].
  induction encoded as [|b encoded [IH1 IH2]]; [done|]. split; [done|]. intros a. cbn [decode_pairs].
  apply returns_bind; [apply nibble_returns|]. intros h _. apply returns_bind; [apply nibble_returns|]. intros l _.
  by apply returns_bind.
Qed.
Lemma hex_decode_bytes_returns encoded : returns (hex_decode_bytes encoded).
Proof. unfold hex_decode_bytes. case_decide; [apply decode_pairs_returns|done]. Qed.

Section ending.
Context `{SectionCodecs} {Row Manifest : Type} `{Cbor Row} `{Cbor (list SegmentIndexEntry)}.
Context (store_get : nat → string → N → N → res ObjectStoreErrorKind (option bytes)).
Context (Hstore : ∀ moment key start stop, returns (store_get moment key start stop)).
Context (Hzstd : ∀ l limit, returns (zstd_read l limit)).
Context (Hrow : ∀ l, returns (cbor_decode (R:=Row) l)).
Context (Hentries : ∀ l, returns (cbor_decode (R:=list SegmentIndexEntry) l)).
#[local] Abbreviation block := (DecodedSegmentBlock Row Manifest).
Implicit Types (memo : option (SessionBlockMemo block)) (segment_cache : option (BlockCache block)) (d : MetadataSegmentRef).

(** The sections that a descriptor names fit its object. *)
Definition sized d : Prop :=
  d.(ms_index_block).(bh_offset) + d.(ms_index_block).(bh_stored_bytes) ≤ U64_MAX ∧
  d.(ms_filter_block).(bh_offset) ≤ d.(ms_index_block).(bh_offset) + d.(ms_index_block).(bh_stored_bytes).

Lemma load_section_bytes_returns moment key offset size_bytes :
  returns (load_section_bytes store_get moment key offset size_bytes).
Proof using Hstore.
  unfold load_section_bytes. apply returns_bind; [apply returns_ok_or|]. intros stop _.
  apply returns_bind; [apply returns_map_err, Hstore|]. intros found _. apply returns_bind; [apply returns_ok_or|].
  intros bytes _. by case_bool_decide.
Qed.

Lemma decode_stored_block_returns key kind handle stored :
  returns (decode_stored_block (Row:=Row) (Manifest:=Manifest) key kind handle stored).
Proof using Hzstd Hrow Hentries.
  destruct kind; [..|done]; (apply returns_bind; [apply returns_map_err|done]).
  - by apply decode_index_block_returns.
  - by apply decode_filter_block_returns.
  - by apply decode_filter_block_returns.
  - by apply decode_data_block_rows_returns.
Qed.

Lemma decode_section_of_returns key object offset kind handle :
  returns (decode_section_of (Row:=Row) (Manifest:=Manifest) key object offset kind handle).
Proof using Hzstd Hrow Hentries.
  unfold decode_section_of. destruct (section_of _ _ _); [|done].
  apply returns_bind; [apply decode_stored_block_returns|done].
Qed.

Lemma decode_data_sections_returns key object offset entries :
  returns (decode_data_sections (Row:=Row) (Manifest:=Manifest) key object offset entries).
Proof using Hzstd Hrow Hentries.
  induction entries as [|e entries IH]; [done|]. cbn [decode_data_sections].
  apply returns_bind; [apply decode_section_of_returns|]. intros b _. apply returns_bind; [apply returns_ok_or|].
  intros data _. by apply returns_bind.
Qed.

Lemma publish_data_ends segment_cache memo d data : load_ends (publish_data segment_cache memo d data).
Proof.
  induction data as [|[offset b] data IH]; [done|]. cbn [publish_data]. by apply load_ends_bind.
Qed.

Lemma publish_segment_sections_ends segment_cache memo d object offset data_blocks :
  load_ends (publish_segment_sections segment_cache memo d object offset data_blocks).
Proof using Hzstd Hrow Hentries.
  unfold publish_segment_sections. cbv zeta. apply load_ends_bind; [apply decode_section_of_returns|]. intros i _.
  apply load_ends_bind; [apply decode_section_of_returns|]. intros f _. apply load_ends_bind.
  { destruct data_blocks; [|done]. destruct i as [[]|]; try done. apply decode_data_sections_returns. }
  intros data _. apply load_ends_bind; [by destruct i|]. intros _ _. apply load_ends_bind; [by destruct f|]. intros _ _.
  apply load_ends_bind; [apply publish_data_ends|done].
Qed.

Lemma load_sections_ends moment segment_cache memo d want :
  sized d → load_ends (load_and_publish_segment_sections store_get moment segment_cache memo d want).
Proof using Hstore Hzstd Hrow Hentries.
  intros [Hsize Hfilter]. unfold load_and_publish_segment_sections, segment_object_bytes, add_u64. rewrite decide_True by done.
  cbv zeta. apply load_ends_bind; [done|]. intros object_bytes [= <-].
  apply load_ends_bind; [by destruct want|]. intros offset Hoffset. apply load_ends_bind.
  { unfold checked_sub. cbn. rewrite decide_True; [done|].
    destruct want; cbn in Hoffset; try done; injection Hoffset as <-; case_bool_decide; lia. }
  intros size_bytes _. apply load_ends_bind; [apply load_section_bytes_returns|]. intros object _.
  apply load_ends_bind; [apply publish_segment_sections_ends|]. intros [i f] _. apply returns_ok_or.
Qed.

Lemma load_section_block_ends moment key kind handle :
  load_ends (load_section_block (Row:=Row) (Manifest:=Manifest) store_get moment key kind handle).
Proof using Hstore Hzstd Hrow Hentries.
  apply load_ends_bind; [apply load_section_bytes_returns|]. intros stored _. apply decode_stored_block_returns.
Qed.

Lemma load_through_ends moment segment_cache key handle (fetch : Load block block) :
  load_ends fetch → load_ends (load_through moment segment_cache key handle fetch).
Proof.
  intros Hf. unfold load_through, get_or_load_block. destruct segment_cache as [cache|]; [|done].
  destruct (bc_shared _ _ _ _); [done|]. by apply load_ends_bind.
Qed.

Lemma load_segment_index_ends moment segment_cache memo d whole :
  sized d → load_ends (load_segment_index_inner store_get moment segment_cache memo d whole).
Proof using Hstore Hzstd Hrow Hentries.
  intros Hs. unfold load_segment_index_inner. cbv zeta. destruct (memo_get _ _ _) as [[]|]; try done;
    (apply load_ends_bind; [apply load_through_ends; destruct whole; [by apply load_sections_ends|apply load_section_block_ends]|]);
    intros b _; (apply load_ends_bind; [done|]); intros _ _; by destruct b.
Qed.

Lemma load_segment_filter_ends moment segment_cache (memo : SessionBlockMemo block) d :
  sized d → load_ends (load_segment_filter store_get moment segment_cache memo d).
Proof using Hstore Hzstd Hrow Hentries.
  intros Hs. unfold load_segment_filter. cbv zeta.
  assert (∀ b : block, load_ends (lift (B:=block) (into_filter b (metadata_segment_object_key d)))) as Hinto by (by intros []).
  destruct (memo moment _) as [[]|]; try done; (destruct (ms_filter_inline d) as [inline|];
    [apply load_ends_bind; [apply returns_map_err, hex_decode_bytes_returns|]; intros stored _;
     apply load_ends_bind; [apply decode_stored_block_returns|]; intros b _; by apply load_ends_bind
    |apply load_ends_bind; [by apply load_through_ends, load_sections_ends|]; intros b _; by apply load_ends_bind]).
Qed.

(** *** Data blocks return *)
Section data_ends.
Context (objects : string → option bytes) (Hserves : serves_objects store_get objects).
Context (known : MetadataSegmentRef → Prop) (Hknown : known_ok objects known).
Context (d : MetadataSegmentRef) (all : list SegmentIndexEntry) (Hd : known d) (Hindex : index_of objects d all).
Implicit Types (entries span : list SegmentIndexEntry) (blocks : list (option (DecodedDataBlock Row))).

Lemma decode_span_ends segment_cache memo offset object span :
  Forall (λ e, offset ≤ e.(sie_block).(bh_offset) ∧ block_end e ≤ offset + blen object) span →
  load_ends (decode_span (Row:=Row) segment_cache memo d offset object span) ∧
  ∀ loaded, (decode_span (Row:=Row) segment_cache memo d offset object span).(outcome) = Ok loaded → length loaded = length span.
Proof using Hzstd Hrow.
  unfold block_end. induction 1 as [|e span [Hle Hend] _ [IH1 IH2]]; [split; [done|by intros ? [= <-]]|]. cbn [decode_span]. cbv zeta.
  unfold checked_sub, slice_bytes. split.
  - apply load_ends_bind; [cbn; by rewrite decide_True|]. intros start Hstart. cbn in Hstart. rewrite decide_True in Hstart by done.
    injection Hstart as <-. apply load_ends_bind; [cbn; rewrite decide_True; [done|lia]|]. intros stored _.
    apply load_ends_bind; [by apply returns_map_err, decode_data_block_rows_returns|]. intros data _.
    apply load_ends_bind; [done|]. intros _ _. by apply load_ends_bind.
  - intros loaded Hl. do 4 (apply bind_outcome_Ok in Hl as (? & _ & Hl)). apply bind_outcome_Ok in Hl as (rest & Hr & Hl).
    injection Hl as <-. cbn. by rewrite (IH2 rest).
Qed.

Lemma load_and_publish_span_ends moment segment_cache memo span :
  span ≠ [] → tiled span → Forall (λ e, block_end e ≤ U64_MAX) span →
  load_ends (load_and_publish_span (Row:=Row) store_get moment segment_cache memo d span) ∧
  ∀ loaded, (load_and_publish_span (Row:=Row) store_get moment segment_cache memo d span).(outcome) = Ok loaded → loaded ≠ [].
Proof using Hstore Hzstd Hrow Hserves.
  intros Hne Ht Hu. destruct span as [|e span]; [done|]. destruct (last (e :: span)) as [l|] eqn:El; [|by apply last_None in El].
  pose proof (tiled_between e span l) as Hbetween. pose proof (last_elem_of _ _ El) as Hlin.
  assert (block_end l ≤ U64_MAX) as Hl by (by rewrite Forall_forall in Hu; apply Hu).
  assert (e.(sie_block).(bh_offset) ≤ block_end l) as Hle.
  { destruct (Hbetween l Ht El Hlin) as [Hlo _]. unfold block_end. lia. }
  assert (∀ object, blen object = block_end l - e.(sie_block).(bh_offset) →
    Forall (λ x, e.(sie_block).(bh_offset) ≤ x.(sie_block).(bh_offset) ∧ block_end x ≤ e.(sie_block).(bh_offset) + blen object) (e :: span)) as Hfit.
  { intros object Hlen. apply Forall_forall. intros x Hx. destruct (Hbetween x Ht El Hx). lia. }
  unfold load_and_publish_span. rewrite El. cbn [head fmap option_fmap option_map expect]. rewrite !lift_bind.
  unfold add_u64, checked_sub. fold (block_end l). rewrite decide_True, lift_bind by done. rewrite decide_True, lift_bind by done.
  set (n := block_end l - _) in *.
  assert (∀ object, (lift (B:=block) (load_section_bytes store_get moment (metadata_segment_object_key d)
    e.(sie_block).(bh_offset) n)).(outcome) = Ok object → blen object = n) as Hlen.
  { intros object Ho. by destruct (load_section_bytes_Ok store_get objects Hserves moment d _ _ _ Ho) as (_ & _ & _ & Hlen). }
  split.
  - apply load_ends_bind; [apply load_section_bytes_returns|]. intros object Ho. by apply decode_span_ends, Hfit, Hlen.
  - intros loaded Hload. apply bind_outcome_Ok in Hload as (object & Ho & Hload).
    apply decode_span_ends in Hload; [|by apply Hfit, Hlen]. by destruct loaded.
Qed.

Lemma load_span_ends moment segment_cache memo span :
  span ≠ [] → tiled span → Forall (λ e, block_end e ≤ U64_MAX) span →
  load_ends (load_span (Row:=Row) store_get moment segment_cache memo d span).
Proof using Hstore Hzstd Hrow Hserves.
  intros Hne Ht Hu. unfold load_span. cbv zeta.
  destruct segment_cache as [cache|]; [|by apply load_and_publish_span_ends].
  destruct span as [|e span]; [done|]. cbn [head expect]. rewrite lift_bind. destruct (bc_shared _ _ _ _) as [[]|]; try done.
  destruct (load_and_publish_span_ends moment (Some cache) memo (e :: span)) as [Hends Hnil]; [done..|].
  apply load_ends_bind; [done|]. intros decoded Hdec%Hnil. destruct decoded; [done|]. by apply load_ends_bind.
Qed.

Definition loadable entries : Prop := tiled entries ∧ Forall (λ e, block_end e ≤ U64_MAX) entries.

Lemma slice_nonempty {A} start stop (l : list A) : (start < stop ≤ length l)%nat → slice start stop l ≠ [].
Proof. intros Hr E. apply (f_equal length) in E. unfold slice in E. rewrite length_take, length_drop in E. cbn in E. lia. Qed.

Lemma load_spans_ends moment segment_cache memo entries spans :
  loadable entries → Forall (λ range : nat * nat, (range.1 < range.2 ≤ length entries)%nat) spans →
  load_ends (load_spans (Row:=Row) store_get moment segment_cache memo d entries spans).
Proof using Hstore Hzstd Hrow Hserves.
  intros [Ht Hu]. induction 1 as [|[start stop] spans Hr _ IH]; [done|]. cbn [load_spans]. apply load_ends_bind.
  - apply load_span_ends; [by apply slice_nonempty|by apply tiled_slice|].
    rewrite Forall_forall in Hu |- *. intros e He%slice_incl. by apply Hu.
  - intros loaded _. by apply load_ends_bind.
Qed.

Lemma load_cached_fine errors moment segment_cache memo entries blocks :
  load_fine errors (load_cached_data_blocks (Row:=Row) moment segment_cache memo d entries blocks).
Proof.
  revert entries. induction blocks as [|slot blocks IH]; intros [|e entries]; [done..|]. cbn [load_cached_data_blocks]. cbv zeta.
  apply load_fine_bind; [|intros slot' _; by apply load_fine_bind].
  destruct slot; [done|]. repeat case_match; try done; by apply load_fine_bind.
Qed.

Lemma empty_slots_mono blocks blocks' :
  Forall2 (λ s s', is_Some s → is_Some s') blocks blocks' → (empty_slots blocks' ≤ empty_slots blocks)%nat.
Proof. induction 1 as [|s s' blocks blocks' Hs _ IH]; [done|]. destruct s, s'; cbn; try lia. by destruct (Hs ltac:(done)). Qed.

(** What the spans' blocks do to the empty slots. *)
Lemma fill_spans_empty blocks (loaded : list (nat * list (DecodedDataBlock Row))) :
  let filled := foldl (λ blocks '(start, loaded), fill_slots_at start blocks loaded) blocks loaded in
  (empty_slots filled ≤ empty_slots blocks)%nat ∧
  (∀ start data, head loaded = Some (start, data) → blocks !! start = Some None → data ≠ [] →
    empty_slots filled < empty_slots blocks)%nat.
Proof.
  cbv zeta. revert blocks. induction loaded as [|[start data] loaded IH]; intros blocks; [done|]. cbn [foldl head].
  destruct (IH (fill_slots_at start blocks data)) as [Hle _]. destruct (fill_slots_at_empty start blocks data) as [Hle1 Hlt1]. split; [lia|].
  intros ? ? [= <- <-] Hs Hne. specialize (Hlt1 Hs Hne). lia.
Qed.

Lemma expect_all_filled blocks : Forall is_Some blocks → ∃ loaded, expect_all blocks = Ok loaded.
Proof. induction 1 as [|s blocks [data ->] _ [loaded IH]]; [by eexists|]. cbn. rewrite IH. by eexists. Qed.

Lemma load_passes_fine errors fuel moment segment_cache memo entries blocks :
  cache_coherent objects known segment_cache → memo_coherent objects known memo → (∀ e, e ∈ entries → e ∈ all) →
  (∀ moment spans, Forall (λ range : nat * nat, (range.1 < range.2 ≤ length entries)%nat) spans →
     load_fine errors (load_spans (Row:=Row) store_get moment segment_cache memo d entries spans)) →
  slots_ok objects d entries blocks → (empty_slots blocks ≤ fuel)%nat →
  load_fine errors (load_passes (Row:=Row) store_get fuel moment segment_cache memo d entries blocks).
Proof using Hserves Hknown Hd Hindex.
  intros Hc Hm Hin Hfine. revert moment blocks. induction fuel as [fuel IH] using lt_wf_ind. intros moment blocks Hs Hfuel.
  pose proof (load_cached_yields objects known Hknown d all Hd Hindex moment segment_cache memo entries blocks Hc Hm Hin Hs) as [_ Hcached].
  assert (∀ blocks', (load_cached_data_blocks moment segment_cache memo d entries blocks).(outcome) = Ok blocks' →
    slots_ok objects d entries blocks' ∧ (empty_slots blocks' ≤ empty_slots blocks)%nat) as Hblocks.
  { intros blocks' [Hs' Hmono]%Hcached. split; [done|by apply empty_slots_mono]. }
  assert (∀ l, load_passes store_get fuel moment segment_cache memo d entries l =
    blocks ← load_cached_data_blocks moment segment_cache memo d entries l;
    match missing_block_spans entries blocks with
    | [] => lift (expect_all blocks)
    | spans =>
        match fuel with
        | O => lift OutOfFuel
        | S fuel =>
            loaded ← load_spans store_get moment segment_cache memo d entries spans;
            load_passes store_get fuel (S moment) segment_cache memo d entries
              (foldl (λ blocks '(start, loaded), fill_slots_at start blocks loaded) blocks loaded)
        end
    end) as -> by (by destruct fuel).
  apply load_fine_bind; [apply load_cached_fine|]. intros blocks' [Hs' Hle]%Hblocks.
  destruct (missing_block_spans_spec entries blocks' (Forall2_length _ _ _ Hs')) as [Hspans Hdone].
  destruct (missing_block_spans entries blocks') as [|span spans] eqn:Espans; [by destruct (expect_all_filled blocks' (Hdone eq_refl)) as [loaded E]; unfold load_fine; cbn; rewrite E|].
  assert (1 ≤ empty_slots blocks')%nat as Hsome.
  { apply Forall_cons in Hspans as [[_ Hnone] _]. destruct (fill_slots_at_empty span.1 blocks' [decoded []]) as [_ Hlt].
    specialize (Hlt Hnone ltac:(done)). lia. }
  destruct fuel as [|fuel]; [lia|]. apply load_fine_bind.
  { apply Hfine. eapply Forall_impl; [exact Hspans|]. by intros range [? _]. }
  intros loaded Hloaded.
  destruct (load_spans_yields store_get objects Hserves known Hknown d all Hd Hindex moment segment_cache memo entries (span :: spans) Hc Hin)
    as [_ Hy]. specialize (Hy loaded Hloaded). apply IH; [lia| |].
  - by eapply fill_spans_ok.
  - destruct (fill_spans_empty blocks' loaded) as [_ Hlt]. inversion Hy as [|? [start data] ? ? [Es [Hne _]]]; subst.
    apply Forall_cons in Hspans as [[_ Hnone] _]. cbn in Es. subst start. specialize (Hlt _ _ eq_refl Hnone Hne). lia.
Qed.

Lemma empty_slots_replicate n : empty_slots (Row:=Row) (replicate n None) = n.
Proof. induction n as [|n IH]; cbn; lia. Qed.

Lemma load_data_ends segment_cache memo entries :
  cache_coherent objects known segment_cache → memo_coherent objects known memo →
  (∀ e, e ∈ entries → e ∈ all) → loadable entries →
  load_ends (load_segment_data_block_span (Row:=Row) store_get segment_cache memo d entries).
Proof using Hstore Hzstd Hrow Hserves Hknown Hd Hindex.
  intros Hc Hm Hin Hload. apply load_fine_ends, load_passes_fine; [done..| |by apply empty_slots_ok|by rewrite empty_slots_replicate].
  intros moment spans Hspans. by apply load_fine_ends, load_spans_ends.
Qed.

(** *** A store that answers *)
Definition store_answers : Prop :=
  ∀ moment key start stop object, objects key = Some object → start ≤ stop ≤ blen object →
    store_get moment key start stop = Ok (Some (take (N.to_nat (stop - start)) (drop (N.to_nat start) object))).

(** The blocks of a segment lie in its object and decode. *)
Definition decodable entries : Prop :=
  ∃ object, object_of objects d object ∧ blen object ≤ U64_MAX ∧
    Forall (λ e, block_end e ≤ blen object ∧
      ∃ data, decode_data_block_rows (R:=Row) (block_range object e.(sie_block)) e.(sie_block) = Ok data) entries.

Lemma load_section_bytes_answers moment object offset size_bytes :
  store_answers → object_of objects d object → offset + size_bytes ≤ blen object → blen object ≤ U64_MAX →
  load_section_bytes store_get moment (metadata_segment_object_key d) offset size_bytes =
    Ok (take (N.to_nat size_bytes) (drop (N.to_nat offset) object)).
Proof using Type.
  intros Hans Ho Hle Hu. unfold load_section_bytes, checked_add. rewrite decide_True by lia. cbn [ok_or mbind res_bind].
  rewrite (Hans moment _ offset (offset + size_bytes) object Ho) by lia. cbn [map_err mbind res_bind ok_or].
  replace (offset + size_bytes - offset) with size_bytes by lia. rewrite bool_decide_true; [done|].
  unfold blen in *. rewrite length_take, length_drop. lia.
Qed.

Lemma decode_span_succeeds segment_cache memo object offset size_bytes span :
  offset + size_bytes ≤ blen object →
  Forall (λ e, offset ≤ e.(sie_block).(bh_offset) ∧ block_end e ≤ offset + size_bytes ∧
    ∃ data, decode_data_block_rows (R:=Row) (block_range object e.(sie_block)) e.(sie_block) = Ok data) span →
  ∃ loaded, (decode_span (Row:=Row) segment_cache memo d offset (take (N.to_nat size_bytes) (drop (N.to_nat offset) object)) span).(outcome)
    = Ok loaded.
Proof using Type.
  intros Hlen. unfold block_end. induction 1 as [|e span (Hle & Hend & data & Hdata) _ [rest IH]]; [by eexists|].
  cbn [decode_span]. cbv zeta. unfold checked_sub. rewrite decide_True, lift_bind by done. unfold slice_bytes.
  rewrite decide_True, lift_bind by (unfold blen in *; rewrite length_take, length_drop; lia).
  assert (take (N.to_nat e.(sie_block).(bh_stored_bytes)) (drop (N.to_nat (e.(sie_block).(bh_offset) - offset))
    (take (N.to_nat size_bytes) (drop (N.to_nat offset) object))) = block_range object e.(sie_block)) as ->.
  { unfold block_range. rewrite skipn_firstn_comm, drop_drop, take_take. f_equal; [lia|f_equal; lia]. }
  rewrite Hdata. cbn [map_err]. rewrite lift_bind. unfold mbind, Load_bind. cbn. rewrite IH. cbn. by eexists.
Qed.

Lemma load_and_publish_span_succeeds moment segment_cache memo span :
  store_answers → span ≠ [] → tiled span → decodable span →
  ∃ loaded, (load_and_publish_span (Row:=Row) store_get moment segment_cache memo d span).(outcome) = Ok loaded.
Proof using Type.
  intros Hans Hne Ht (object & Ho & Hu & Hall). destruct span as [|e span]; [done|].
  destruct (last (e :: span)) as [l|] eqn:El; [|by apply last_None in El].
  pose proof (tiled_between e span l) as Hbetween. pose proof (last_elem_of _ _ El) as Hlin. rewrite Forall_forall in Hall.
  destruct (Hall l Hlin) as [Hl _]. destruct (Hbetween l Ht El Hlin) as [Hlo _].
  unfold load_and_publish_span. rewrite El. cbn [head fmap option_fmap option_map expect]. rewrite !lift_bind.
  unfold add_u64, checked_sub. fold (block_end l). rewrite decide_True, lift_bind by lia.
  rewrite decide_True, lift_bind by (unfold block_end; lia). rewrite (load_section_bytes_answers moment object), lift_bind by (done || unfold block_end in *; lia).
  apply decode_span_succeeds; [unfold block_end in *; lia|]. apply Forall_forall. intros x Hx. destruct (Hbetween x Ht El Hx).
  destruct (Hall x Hx) as [_ Hdata]. split_and!; [done|unfold block_end in *; lia|done].
Qed.

Lemma load_span_fine moment segment_cache memo span :
  store_answers → cache_coherent objects known segment_cache → span ≠ [] → tiled span → decodable span →
  load_fine false (load_span (Row:=Row) store_get moment segment_cache memo d span).
Proof using Type.
  intros Hans Hc Hne Ht Hdec. unfold load_span. cbv zeta.
  destruct (load_and_publish_span_succeeds moment segment_cache memo span Hans Hne Ht Hdec) as [loaded Hloaded].
  destruct segment_cache as [cache|]; [|by unfold load_fine; rewrite Hloaded].
  destruct span as [|e span]; [done|]. cbn [head expect]. rewrite lift_bind.
  destruct (bc_shared cache moment _ _) as [b|] eqn:Eb.
  - destruct (Hc cache eq_refl _ _ _ b (or_intror Eb)) as (d' & _ & _ & Hb). by destruct b.
  - apply load_fine_bind; [by unfold load_fine; rewrite Hloaded|]. intros decoded Hdecoded.
    rewrite Hloaded in Hdecoded. injection Hdecoded as <-. apply load_fine_bind; [|done].
    destruct loaded; [|done]. exfalso. revert Hloaded. unfold load_and_publish_span. intros Hl.
    do 5 (apply bind_outcome_Ok in Hl as (? & _ & Hl)). cbn [decode_span] in Hl. cbv zeta in Hl.
    do 5 (apply bind_outcome_Ok in Hl as (? & _ & Hl)). done.
Qed.

Lemma load_spans_fine moment segment_cache memo entries spans :
  store_answers → cache_coherent objects known segment_cache → tiled entries → decodable entries →
  Forall (λ range : nat * nat, (range.1 < range.2 ≤ length entries)%nat) spans →
  load_fine false (load_spans (Row:=Row) store_get moment segment_cache memo d entries spans).
Proof using Type.
  intros Hans Hc Ht (object & Ho & Hu & Hall). induction 1 as [|[start stop] spans Hr _ IH]; [done|]. cbn [load_spans]. apply load_fine_bind.
  - apply load_span_fine; [done..|by apply slice_nonempty|by apply tiled_slice|]. exists object. split_and!; [done..|].
    rewrite Forall_forall in Hall |- *. intros e He%slice_incl. by apply Hall.
  - intros loaded _. by apply load_fine_bind.
Qed.

(** C32 Every requested block is served in the end, although other loads and
    evictions interfere: a load may lose the single flight of every span to
    another load, which gives it the span's first block alone, and may find
    the caches emptied between passes. When the store answers and the
    segment's blocks decode, each pass resolves the first block of every span
    that is missing, so the load of a run of blocks succeeds within one pass
    per block, with the blocks that the segment stores. *)
Theorem span_load_served segment_cache memo entries :
  store_answers → cache_coherent objects known segment_cache → memo_coherent objects known memo →
  (∀ e, e ∈ entries → e ∈ all) → tiled entries → decodable entries →
  ∃ loaded, (load_segment_data_block_span (Row:=Row) store_get segment_cache memo d entries).(outcome) = Ok loaded ∧
    Forall2 (holds_data objects d) entries loaded.
Proof using Hserves Hknown Hd Hindex.
  intros Hans Hc Hm Hin Ht Hdec.
  assert (load_fine false (load_segment_data_block_span (Row:=Row) store_get segment_cache memo d entries)) as Hfine.
  { apply load_passes_fine; [done..| |by apply empty_slots_ok|by rewrite empty_slots_replicate].
    intros moment spans Hspans. by apply load_spans_fine. }
  unfold load_fine in Hfine. destruct (load_data_yields store_get objects Hserves known Hknown d all Hd Hindex
    segment_cache memo entries Hc Hm Hin) as [_ Hy].
  destruct (outcome _) as [loaded|e| |]; [|done..]. exists loaded. split; [done|by apply Hy].
Qed.
End data_ends.
End ending.

(** ** The scan's loader *)
Section serving.
Context `{SectionCodecs} {Manifest : Type} `{Cbor MetadataRow} `{Cbor (list SegmentIndexEntry)}.
Context (objects : string → option bytes) (known : MetadataSegmentRef → Prop) (Hknown : known_ok objects known).
#[local] Abbreviation block := (DecodedSegmentBlock MetadataRow Manifest).
#[local] Abbreviation loader := (ScanLoader (Manifest:=Manifest)).
Implicit Types (d : MetadataSegmentRef) (s : ScanDescriptor) (self : loader).

(** A segment whose object decodes into sorted blocks of rows. *)
Definition stored_blocks d (index : list SegmentIndexEntry) (blocks : list (list (string * MetadataRow))) : Prop :=
  ∃ object, object_of objects d object ∧
    decode_index_block (block_range object d.(ms_index_block)) d.(ms_index_block) = Ok index ∧
    Forall2 (holds_block object) index blocks ∧ StronglySorted kle (concat blocks).*1.

(** What the object store holds, by decoding it. *)
Definition decoded_index s : list SegmentIndexEntry :=
  match objects (metadata_segment_object_key s.(sd_descriptor)) with
  | Some object =>
      match decode_index_block (block_range object s.(sd_descriptor).(ms_index_block)) s.(sd_descriptor).(ms_index_block) with
      | Ok index => index
      | _ => []
      end
  | None => []
  end.
Definition decoded_blocks s : list (list (string * MetadataRow)) :=
  (λ e, match objects (metadata_segment_object_key s.(sd_descriptor)) with
        | Some object =>
            match decode_data_block_rows (block_range object e.(sie_block)) e.(sie_block) with
            | Ok data => zip data.(ddb_row_keys) data.(ddb_rows)
            | _ => []
            end
        | None => []
        end) <$> decoded_index s.
Definition store_catalog : Catalog MetadataRow ScanDescriptor :=
  {| cat_has s := known s.(sd_descriptor) ∧ sized s.(sd_descriptor) ∧ ∃ index blocks, stored_blocks s.(sd_descriptor) index blocks;
     cat_index := decoded_index; cat_blocks := decoded_blocks |}.

Lemma stored_decoded s index blocks :
  stored_blocks s.(sd_descriptor) index blocks → decoded_index s = index ∧ decoded_blocks s = blocks.
Proof.
  intros (object & Ho & Hi & Hb & _). unfold object_of in Ho. assert (decoded_index s = index) as Ei.
  { unfold decoded_index. by rewrite Ho, Hi. }
  split; [done|]. unfold decoded_blocks. rewrite Ei, Ho. clear -Hb. induction Hb as [|e rows index blocks [Hrows _] _ IH]; [done|].
  cbn [fmap list_fmap]. rewrite Hrows, IH. cbn. f_equal. clear. induction rows as [|[k r] rows IH]; [done|]. cbn. by rewrite IH.
Qed.

#[export] Instance store_catalog_laws : CatalogLaws store_catalog.
Proof.
  split; intros s (_ & _ & index & blocks & Hs); destruct (stored_decoded s index blocks Hs) as [Ei Eb];
    destruct Hs as (object & _ & _ & Hb & Hsort); cbn; rewrite ?Ei, ?Eb; [|done].
  eapply Forall2_impl; [exact Hb|]. by intros e rows [_ Hl].
Qed.

(** The loader reads that store through coherent caches. *)
Record loader_ok self : Prop := {
  lo_store : serves_objects self.(sl_store) objects;
  lo_cache : cache_coherent objects known self.(sl_segment_cache);
  lo_memo : memo_coherent objects known (Some self.(sl_block_memo));
}.

Lemma refill_count_bounds entries stored decoded max :
  (refill_count entries stored decoded max ≤ length entries)%nat ∧
  (stored = 0%N → entries ≠ [] → 1 ≤ refill_count entries stored decoded max)%nat.
Proof.
  revert stored decoded. induction entries as [|e entries IH]; intros stored decoded; cbn [refill_count length]; [done|]. split.
  - destruct (_ && _); [lia|]. destruct (IH (stored + bh_stored_bytes (sie_block e)) (decoded + bh_decoded_bytes (sie_block e))). lia.
  - intros -> _. rewrite bool_decide_false by lia. cbn. lia.
Qed.

Lemma scan_data_block_count_bounds self entries budget :
  (scan_data_block_count self entries budget ≤ length entries)%nat ∧
  (entries ≠ [] → 1 ≤ scan_data_block_count self entries budget)%nat.
Proof.
  unfold scan_data_block_count. destruct (sl_blocks_per_refill self).
  { split; [lia|]. destruct entries; [done|cbn; lia]. }
  unfold index_blocks_for_key_range. set (start := partition_point _ entries). set (stop := Nat.max _ start).
  assert (start = 0%nat) as Hstart.
  { unfold start. destruct entries as [|e entries]; [done|]. cbn. rewrite bool_decide_false; [done|].
    unfold cmp, string_ord. by destruct (sie_last_row_key e). }
  destruct (refill_count_bounds (slice start stop entries) 0 0 budget) as [Hle Hge]. unfold slice in *. rewrite Hstart in *.
  rewrite length_take, length_drop in Hle. split; [lia|]. intros Hne. apply Hge; [done|].
  intros E. apply (f_equal length) in E. rewrite length_take, length_drop in E. cbn in E.
  assert (1 ≤ stop)%nat by (unfold stop; destruct (sl_upper_bound self), entries; cbn; (done || lia)).
  destruct entries; [done|cbn in E; lia].
Qed.

Lemma reserve_refill_Ok pool entries kept :
  reserve_refill (Er:=ManifestLoadError) pool entries = Ok kept → ∃ k, (1 ≤ k)%nat ∧ kept = take k entries.
Proof.
  unfold reserve_refill. intros Hr. step_ok Hr e He. step_ok Hr granted Hg. injection Hr as <-. eexists. split; [|done]. lia.
Qed.

Lemma holds_data_inv d object entries (blocks : list (list (string * MetadataRow))) loaded :
  object_of objects d object → Forall2 (holds_block object) entries blocks →
  Forall2 (holds_data objects d) entries loaded → loaded = decoded <$> blocks.
Proof.
  intros Ho Hb. revert loaded. induction Hb as [|e rows entries blocks [Hrows _] _ IH]; intros loaded Hl.
  { by inversion Hl. }
  inversion Hl as [|? data ? rest (object' & Ho' & Hdata) Hrest]; subst. cbn. unfold object_of in *. simplify_eq.
  f_equal; [|by apply IH]. rewrite Hrows in Hdata. by injection Hdata as <-.
Qed.

(** The blocks that a refill loads. *)
Lemma scan_load_data_Ok self s entries all loaded :
  loader_ok self → known s.(sd_descriptor) → index_of objects s.(sd_descriptor) all → (∀ e, e ∈ entries → e ∈ all) →
  entries ≠ [] → (scan_load_data_blocks self s entries).(outcome) = Ok loaded →
  ∃ k, (1 ≤ k ≤ length entries)%nat ∧ Forall2 (holds_data objects s.(sd_descriptor)) (take k entries) loaded.
Proof.
  intros [Hstore Hcache Hmemo] Hd Hi Hin Hne Hl. unfold scan_load_data_blocks in Hl.
  apply bind_outcome_Ok in Hl as (blocks & Hb & Hl). apply bind_outcome_Ok in Hl as (_ & _ & Hl). injection Hl as ->.
  pose proof (λ memo entries', load_data_yields self.(sl_store) objects Hstore known Hknown s.(sd_descriptor) all Hd Hi
    self.(sl_segment_cache) memo entries' Hcache) as Hy.
  destruct (sl_blocks_per_refill self).
  - exists (length entries). rewrite firstn_all. split; [destruct entries; [done|cbn; lia]|]. by apply (Hy (Some self.(sl_block_memo))).
  - apply bind_outcome_Ok in Hb as (kept & Hk & Hb). apply reserve_refill_Ok in Hk as (k & Hk & ->).
    exists (Nat.min k (length entries)). split; [destruct entries; [done|cbn; lia]|].
    assert (take (Nat.min k (length entries)) entries = take k entries) as ->.
    { destruct (decide (k ≤ length entries)%nat); [by rewrite Nat.min_l by lia|]. rewrite Nat.min_r, firstn_all by lia. by rewrite take_ge by lia. }
    apply (Hy None); [done| |done]. intros e He. apply Hin. by eapply subseteq_take.
Qed.

#[export] Instance scan_loader_laws self : loader_ok self → LoaderLaws self store_catalog.
Proof.
  intros Hok. split.
  - apply scan_data_block_count_bounds.
  - intros s index (Hd & _ & idx & blocks & Hs) Hl. cbn in Hl |- *. destruct (stored_decoded s idx blocks Hs) as [-> _].
    destruct Hs as (object & Ho & Hi & _). destruct Hok as [Hstore Hcache Hmemo].
    destruct (load_segment_index_yields self.(sl_store) objects Hstore known Hknown 0 self.(sl_segment_cache)
      (Some self.(sl_block_memo)) s.(sd_descriptor) true Hd Hcache Hmemo) as [_ Hy].
    destruct (Hy index Hl) as (object' & Ho' & Hi'). unfold object_of in *. simplify_eq. congruence.
  - intros s position count loaded (Hd & _ & idx & blocks & Hs) Hc Hle Hl. cbn in Hle, Hl |- *.
    destruct (stored_decoded s idx blocks Hs) as [Ei Eb]. rewrite Ei in Hle, Hl. rewrite Eb.
    destruct Hs as (object & Ho & Hi & Hb & _). pose proof (Forall2_length _ _ _ Hb) as Hlen.
    assert (∀ e, e ∈ take count (drop position idx) → e ∈ idx) as Hin.
    { intros e He%subseteq_take. apply list_elem_of_lookup in He as [j Hj]. rewrite lookup_drop in Hj. by eapply list_elem_of_lookup_2. }
    destruct (scan_load_data_Ok self s (take count (drop position idx)) idx loaded Hok Hd) as (k & Hk & Hy);
      [by exists object|done| |done|].
    { intros E. apply (f_equal length) in E. rewrite length_take, length_drop in E. cbn in E. lia. }
    rewrite length_take, length_drop in Hk. exists k. split; [lia|]. rewrite take_take, Nat.min_l in Hy by lia.
    eapply holds_data_inv; [exact Ho| |exact Hy]. by apply Forall2_take, Forall2_drop.
Qed.

Lemma reserve_refill_returns pool entries :
  entries ≠ [] → (∀ e, e ∈ entries → pool.(wm_in_use) + e.(sie_block).(bh_decoded_bytes) ≤ U64_MAX) →
  returns (reserve_refill (Er:=ManifestLoadError) pool entries).
Proof.
  intros Hne Hpool. destruct entries as [|e entries]; [done|]. unfold reserve_refill. cbn [head expect mbind res_bind fmap list_fmap foldr].
  unfold reserve. rewrite decide_True by lia. unfold add_u64. rewrite decide_True by (apply Hpool; by left). done.
Qed.

Lemma validate_rows_returns key rows max_seq : returns (validate_manifest_row_seq_range key rows max_seq).
Proof. induction rows as [|row rows IH]; [done|]. cbn. by case_decide. Qed.

(** The loader ends when the store, the decoders and the pool do. *)
Lemma scan_loader_returns self :
  loader_ok self → (∀ moment key start stop, returns (self.(sl_store) moment key start stop)) →
  (∀ l limit, returns (zstd_read l limit)) → (∀ l, returns (cbor_decode (R:=MetadataRow) l)) →
  (∀ l, returns (cbor_decode (R:=list SegmentIndexEntry) l)) →
  (∀ s e, cat_has store_catalog s → e ∈ decoded_index s → self.(sl_pool).(wm_in_use) + e.(sie_block).(bh_decoded_bytes) ≤ U64_MAX) →
  LoaderReturns self store_catalog.
Proof.
  intros [Hserves Hcache Hmemo] Hstore Hzstd Hrow Hentries Hpool. split.
  - intros s (_ & Hsize & _). by apply load_segment_index_ends.
  - intros s position count Hhas Hc Hle. pose proof Hhas as (Hd & Hsize & idx & blocks & Hs). cbn in Hle |- *.
    destruct (stored_decoded s idx blocks Hs) as [Ei _]. specialize (Hpool s). rewrite Ei in Hle, Hpool |- *.
    destruct Hs as (object & Ho & Hi & _). set (entries := take count (drop position idx)).
    assert (∀ e, e ∈ entries → e ∈ idx) as Hin.
    { intros e He%subseteq_take. apply list_elem_of_lookup in He as [j Hj]. rewrite lookup_drop in Hj. by eapply list_elem_of_lookup_2. }
    assert (entries ≠ []) as Hne.
    { intros E. apply (f_equal length) in E. unfold entries in E. rewrite length_take, length_drop in E. cbn in E. lia. }
    assert (loadable idx) as [Ht Hu].
    { unfold decode_index_block in Hi. step_ok Hi payload Hp. step_ok Hi es Hes. step_ok Hi u Hu. injection Hi as <-. destruct u.
      by apply check_index_tiled in Hu as (? & ? & _). }
    assert (∀ k, loadable (take k entries)) as Hload.
    { intros k. split.
      - unfold entries. rewrite take_take. apply tiled_take. rewrite <-(take_drop position idx) in Ht. by apply tiled_app_inv in Ht as [_ ?].
      - rewrite Forall_forall in Hu |- *. intros e He%subseteq_take. by apply Hu, Hin. }
    assert (∀ memo kept, memo_coherent objects known memo → (∃ k, kept = take k entries) →
      load_ends (load_segment_data_block_span self.(sl_store) self.(sl_segment_cache) memo s.(sd_descriptor) kept)) as Hspan.
    { intros memo kept Hm [k ->]. apply (load_data_ends self.(sl_store) Hstore Hzstd Hrow objects Hserves known Hknown
        s.(sd_descriptor) idx Hd ltac:(by exists object)); [done..| |done]. intros e He%subseteq_take. by apply Hin. }
    unfold scan_load_data_blocks. apply load_ends_bind.
    + destruct (sl_blocks_per_refill self).
      { apply Hspan; [done|]. exists (length entries). by rewrite firstn_all. }
      apply load_ends_bind; [apply reserve_refill_returns; [done|]; intros e He; apply Hpool; [done|by apply Hin]|].
      intros kept Hk. apply reserve_refill_Ok in Hk as (k & _ & ->). apply Hspan; [done|by exists k].
    + intros loaded _. apply load_ends_bind; [apply validate_rows_returns|done].
Qed.
End serving.

(** ** An example: every single flight is lost *)
Module serve_example.
Import SegmentFormat.Example caches_example.
#[local] Existing Instance example_codecs.
#[local] Existing Instance countable_cbor | 10.
#[local] Existing Instance index_cbor.

(** Another load always has the block, and the cache never keeps it. *)
Definition stored_block (e : SegmentIndexEntry) : option (DecodedSegmentBlock string unit) :=
  match decode_data_block_rows (block_range example_segment.(bsb_bytes) e.(sie_block)) e.(sie_block) with
  | Ok data => Some (DataBlock data)
  | _ => None
  end.
Definition shared (_ : nat) (key : SegmentCacheKey) (_ : BlockHandle) : option (DecodedSegmentBlock string unit) :=
  e ← find_first (λ e, key = segment_block_cache_key descriptor KData e.(sie_block).(bh_offset)) index; stored_block e.
Definition lost : BlockCache (DecodedSegmentBlock string unit) := {| bc_get _ _ _ := None; bc_shared := shared |}.

Lemma index_is : index_of objects descriptor index.
Proof. exists example_segment.(bsb_bytes). split; [by apply object_stored|apply index_decodes]. Qed.

Lemma lost_coherent : cache_coherent objects known (Some lost).
Proof.
  intros ? [= <-] moment key handle b [?|Hb]; [done|]. cbn in Hb. unfold shared in Hb.
  destruct (find_first _ index) as [e|] eqn:Ef; [|done]. apply find_first_Some in Ef as [He ->]. cbn in Hb.
  unfold stored_block in Hb. destruct (decode_data_block_rows _ _) as [data| | |] eqn:Ed; try done. injection Hb as <-.
  exists descriptor. split_and!; [done..|]. cbn. exists index, e. split_and!; [apply index_is|done|done|].
  exists example_segment.(bsb_bytes). split; [by apply object_stored|done].
Qed.

Lemma span_load_served_witness :
  length index = 2%nat ∧
  ∃ loaded, (load_segment_data_block_span store_get (Some lost) None descriptor index).(outcome) = Ok loaded ∧
    Forall2 (holds_data objects descriptor) index loaded.
Proof.
  split; [done|]. apply (span_load_served store_get objects store_serves known known_segments descriptor index eq_refl index_is (Some lost) None).
  - intros moment key start stop object Ho _. unfold store_get. by rewrite Ho.
  - apply lost_coherent.
  - done.
  - done.
  - by vm_compute.
  - exists example_segment.(bsb_bytes). split_and!; [by apply object_stored|apply example_fits|].
    repeat constructor; (by vm_compute) || (eexists; by vm_compute).
Defined.
End serve_example.
