(* ===== verification/MetadataState.v ===== *)
(** * The in-memory metadata state

    [loonfs-core/src/metadata/rows.rs], [indexes.rs] and [apply.rs]: the row
    vectors, the at-head indexes and size totals that every push keeps in
    step with them, and the one mapping from committed WAL deltas to rows.

    [HashMap] is stdpp's [gmap].  [usize] is 64 bits wide; the totals saturate
    as the source writes it.  The weights of the [HeapBytes] trait depend on
    the capacities the allocator reserved, which no value shows, so they are
    the methods of the class [HeapBytes]: everything below holds for every
    choice of them. *)
From S2P Require Import Prelude Types Records.
Local Open Scope N_scope.

Class HeapBytes := {
  text_heap_bytes : string → N;
  inode_heap_bytes : InodeRecord → N;
  binding_heap_bytes : DirentryBindingRecord → N;
  revision_heap_bytes : RevisionRecord → N;
  tombstone_heap_bytes : SubtreeTombstoneRecord → N;
  receipt_heap_bytes : CommitReceiptRecord → N;
  commit_heap_bytes : WalCommitPayload → N;
  layout_heap_bytes : ContentLayoutRecord → N;
  attributes_heap_bytes : AttributesRevisionRecord → N;
  access_heap_bytes : AccessRevisionRecord → N;
}.

(** [u64] and [u128] newtypes own no heap. *)
Definition id_heap_bytes (_ : InodeId) : N := 0.

Definition slot_heap_bytes `{HeapBytes} (slot : InodeId * NameKey) : N :=
  id_heap_bytes slot.1 + text_heap_bytes slot.2.

(** ** Indexes *)
Record MetadataIndexes := mkMetadataIndexes {
  ix_indexed_seq : ChangeSeq;
  ix_inode_by_id : gmap InodeId InodeRecord;
  ix_latest_bind_by_parent_name : gmap (InodeId * NameKey) DirentryBindingRecord;
  ix_latest_binding_by_child : gmap InodeId DirentryBindingRecord;
  ix_tombstone_by_root : gmap InodeId SubtreeTombstoneRecord;
  ix_commit_receipt_by_id : gmap CommitId CommitReceiptRecord;
  ix_content_layout_by_id : gmap ContentId ContentLayoutRecord;
  ix_owned_heap_bytes : N;
}.

Definition MetadataIndexes_default : MetadataIndexes :=
  mkMetadataIndexes 0 ∅ ∅ ∅ ∅ ∅ ∅ 0.

(** [replace_if_newer]: the first of several values of one order stays. *)
Definition replace_if_newer {K V O} `{Countable K, Ord O}
    (key_heap : K → N) (value_heap : V → N)
    (map : gmap K V) (owned_heap_bytes : N) (key : K) (value : V) (order : V → O)
    : gmap K V * N :=
  match map !! key with
  | Some existing =>
      match cmp (order value) (order existing) with
      | Gt => (<[key := value]> map, owned_heap_bytes + value_heap value - value_heap existing)
      | _ => (map, owned_heap_bytes)
      end
  | None => (<[key := value]> map, owned_heap_bytes + (key_heap key + value_heap value))
  end.

Definition tombstone_order_key (record : SubtreeTombstoneRecord) : ChangeSeq * N :=
  (record.(tb_committed_seq), record.(tb_delta_index)).

Definition layout_order_key (row : ContentLayoutRecord) : N * ChangeSeq :=
  (row.(lr_size_bytes), row.(lr_committed_seq)).

Section indexes.
Context `{HeapBytes}.
Implicit Types ix : MetadataIndexes.

Definition record_inode ix (record : InodeRecord) : MetadataIndexes :=
  let owned := ix.(ix_owned_heap_bytes) + inode_heap_bytes record in
  {| ix_indexed_seq := N.max ix.(ix_indexed_seq) record.(ir_committed_seq);
     ix_inode_by_id := <[record.(ir_inode_id) := record]> ix.(ix_inode_by_id);
     ix_latest_bind_by_parent_name := ix.(ix_latest_bind_by_parent_name);
     ix_latest_binding_by_child := ix.(ix_latest_binding_by_child);
     ix_tombstone_by_root := ix.(ix_tombstone_by_root);
     ix_commit_receipt_by_id := ix.(ix_commit_receipt_by_id);
     ix_content_layout_by_id := ix.(ix_content_layout_by_id);
     ix_owned_heap_bytes :=
       match ix.(ix_inode_by_id) !! record.(ir_inode_id) with
       | Some replaced => owned - inode_heap_bytes replaced
       | None => owned
       end |}.

Definition record_binding ix (record : DirentryBindingRecord) : MetadataIndexes :=
  let '(slots, owned) :=
    replace_if_newer slot_heap_bytes binding_heap_bytes ix.(ix_latest_bind_by_parent_name)
      ix.(ix_owned_heap_bytes) (record.(db_parent_inode_id), record.(db_name_key)) record
      binding_position in
  let '(children, owned) :=
    if is_binding_event record then
      replace_if_newer id_heap_bytes binding_heap_bytes ix.(ix_latest_binding_by_child) owned
        record.(db_child_inode_id) record binding_position
    else (ix.(ix_latest_binding_by_child), owned) in
  {| ix_indexed_seq := N.max ix.(ix_indexed_seq) record.(db_committed_seq);
     ix_inode_by_id := ix.(ix_inode_by_id);
     ix_latest_bind_by_parent_name := slots;
     ix_latest_binding_by_child := children;
     ix_tombstone_by_root := ix.(ix_tombstone_by_root);
     ix_commit_receipt_by_id := ix.(ix_commit_receipt_by_id);
     ix_content_layout_by_id := ix.(ix_content_layout_by_id);
     ix_owned_heap_bytes := owned |}.

(** Rows of the families without an index move only the watermark. *)
Definition record_seq ix (seq : ChangeSeq) : MetadataIndexes :=
  {| ix_indexed_seq := N.max ix.(ix_indexed_seq) seq;
     ix_inode_by_id := ix.(ix_inode_by_id);
     ix_latest_bind_by_parent_name := ix.(ix_latest_bind_by_parent_name);
     ix_latest_binding_by_child := ix.(ix_latest_binding_by_child);
     ix_tombstone_by_root := ix.(ix_tombstone_by_root);
     ix_commit_receipt_by_id := ix.(ix_commit_receipt_by_id);
     ix_content_layout_by_id := ix.(ix_content_layout_by_id);
     ix_owned_heap_bytes := ix.(ix_owned_heap_bytes) |}.

Definition record_revision ix (record : RevisionRecord) : MetadataIndexes :=
  record_seq ix record.(rr_committed_seq).

Definition record_attributes_revision ix (record : AttributesRevisionRecord) : MetadataIndexes :=
  record_seq ix record.(at_committed_seq).

Definition record_access_revision ix (record : AccessRevisionRecord) : MetadataIndexes :=
  record_seq ix record.(ac_committed_seq).

Definition record_tombstone ix (record : SubtreeTombstoneRecord) : MetadataIndexes :=
  let '(tombstones, owned) :=
    replace_if_newer id_heap_bytes tombstone_heap_bytes ix.(ix_tombstone_by_root)
      ix.(ix_owned_heap_bytes) record.(tb_root_inode_id) record tombstone_order_key in
  {| ix_indexed_seq := N.max ix.(ix_indexed_seq) record.(tb_committed_seq);
     ix_inode_by_id := ix.(ix_inode_by_id);
     ix_latest_bind_by_parent_name := ix.(ix_latest_bind_by_parent_name);
     ix_latest_binding_by_child := ix.(ix_latest_binding_by_child);
     ix_tombstone_by_root := tombstones;
     ix_commit_receipt_by_id := ix.(ix_commit_receipt_by_id);
     ix_content_layout_by_id := ix.(ix_content_layout_by_id);
     ix_owned_heap_bytes := owned |}.

Definition record_content_layout ix (record : ContentLayoutRecord) : MetadataIndexes :=
  let '(layouts, owned) :=
    replace_if_newer text_heap_bytes layout_heap_bytes ix.(ix_content_layout_by_id)
      ix.(ix_owned_heap_bytes) record.(lr_content_id) record layout_order_key in
  {| ix_indexed_seq := N.max ix.(ix_indexed_seq) record.(lr_committed_seq);
     ix_inode_by_id := ix.(ix_inode_by_id);
     ix_latest_bind_by_parent_name := ix.(ix_latest_bind_by_parent_name);
     ix_latest_binding_by_child := ix.(ix_latest_binding_by_child);
     ix_tombstone_by_root := ix.(ix_tombstone_by_root);
     ix_commit_receipt_by_id := ix.(ix_commit_receipt_by_id);
     ix_content_layout_by_id := layouts;
     ix_owned_heap_bytes := owned |}.

Definition record_commit_receipt ix (record : CommitReceiptRecord) : MetadataIndexes :=
  let '(receipts, owned) :=
    replace_if_newer text_heap_bytes receipt_heap_bytes ix.(ix_commit_receipt_by_id)
      ix.(ix_owned_heap_bytes) record.(rc_commit_id) record rc_committed_seq in
  {| ix_indexed_seq := N.max ix.(ix_indexed_seq) record.(rc_committed_seq);
     ix_inode_by_id := ix.(ix_inode_by_id);
     ix_latest_bind_by_parent_name := ix.(ix_latest_bind_by_parent_name);
     ix_latest_binding_by_child := ix.(ix_latest_binding_by_child);
     ix_tombstone_by_root := ix.(ix_tombstone_by_root);
     ix_commit_receipt_by_id := receipts;
     ix_content_layout_by_id := ix.(ix_content_layout_by_id);
     ix_owned_heap_bytes := owned |}.
End indexes.

(** Index lookups. *)
Definition ix_inode (ix : MetadataIndexes) (inode_id : InodeId) : option InodeRecord :=
  ix.(ix_inode_by_id) !! inode_id.

Definition latest_bind_in_slot (ix : MetadataIndexes) (slot : InodeId * NameKey)
    : option DirentryBindingRecord :=
  ix.(ix_latest_bind_by_parent_name) !! slot.

Definition latest_bind (ix : MetadataIndexes) (parent_inode_id : InodeId) (name_key : NameKey)
    : option DirentryBindingRecord :=
  latest_bind_in_slot ix (parent_inode_id, name_key).

Definition active_child (ix : MetadataIndexes) (parent_inode_id : InodeId) (name_key : NameKey)
    : option DirentryBindingRecord :=
  option_filter is_bound (latest_bind ix parent_inode_id name_key).

Definition latest_binding_for_child (ix : MetadataIndexes) (child_inode_id : InodeId)
    : option DirentryBindingRecord :=
  ix.(ix_latest_binding_by_child) !! child_inode_id.

Definition active_parent_for_child (ix : MetadataIndexes) (child_inode_id : InodeId)
    : option DirentryBindingRecord :=
  option_filter is_bound (ix.(ix_latest_binding_by_child) !! child_inode_id).

Definition latest_tombstone (ix : MetadataIndexes) (root_inode_id : InodeId)
    : option SubtreeTombstoneRecord :=
  ix.(ix_tombstone_by_root) !! root_inode_id.

Definition hiding_tombstone (ix : MetadataIndexes) (root_inode_id : InodeId)
    : option SubtreeTombstoneRecord :=
  option_filter (λ tombstone, hides_subtree tombstone.(tb_action))
    (ix.(ix_tombstone_by_root) !! root_inode_id).

Definition ix_commit_receipt (ix : MetadataIndexes) (commit_id : CommitId)
    : option CommitReceiptRecord :=
  ix.(ix_commit_receipt_by_id) !! commit_id.

Definition ix_content_layout (ix : MetadataIndexes) (content_id : ContentId)
    : option ContentLayoutRecord :=
  ix.(ix_content_layout_by_id) !! content_id.

(** ** The state *)
Record MetadataState := mkMetadataState {
  ms_inodes : list InodeRecord;
  ms_direntry_binds : list DirentryBindingRecord;
  ms_revisions : list RevisionRecord;
  ms_subtree_tombstones : list SubtreeTombstoneRecord;
  ms_commit_receipts : list CommitReceiptRecord;
  ms_commits : list WalCommitPayload;
  ms_content_layouts : list ContentLayoutRecord;
  ms_attributes_revisions : list AttributesRevisionRecord;
  ms_access_revisions : list AccessRevisionRecord;
  ms_row_count : N;
  ms_row_heap_bytes : N;
  ms_indexes : MetadataIndexes;
}.

Definition len {A} (l : list A) : N := N.of_nat (length l).

Definition metadata_row_count (state : MetadataState) : N :=
  let s := saturating_add in
  s (s (s (s (s (s (s (s (len state.(ms_inodes)) (len state.(ms_direntry_binds)))
    (len state.(ms_revisions))) (len state.(ms_subtree_tombstones)))
    (len state.(ms_commit_receipts))) (len state.(ms_commits)))
    (len state.(ms_content_layouts))) (len state.(ms_attributes_revisions)))
    (len state.(ms_access_revisions)).

Definition heap_total {R} (heap : R → N) (records : list R) : N :=
  foldl saturating_add 0 (heap <$> records).

Definition indexed_seq (state : MetadataState) : ChangeSeq := state.(ms_indexes).(ix_indexed_seq).

Section state.
Context `{HeapBytes}.

Definition metadata_row_heap_bytes (state : MetadataState) : N :=
  let s := saturating_add in
  s (s (s (s (s (s (s (s (heap_total inode_heap_bytes state.(ms_inodes))
    (heap_total binding_heap_bytes state.(ms_direntry_binds)))
    (heap_total revision_heap_bytes state.(ms_revisions)))
    (heap_total tombstone_heap_bytes state.(ms_subtree_tombstones)))
    (heap_total receipt_heap_bytes state.(ms_commit_receipts)))
    (heap_total commit_heap_bytes state.(ms_commits)))
    (heap_total layout_heap_bytes state.(ms_content_layouts)))
    (heap_total attributes_heap_bytes state.(ms_attributes_revisions)))
    (heap_total access_heap_bytes state.(ms_access_revisions)).

(** [MetadataIndexes::rebuild]. *)
Definition MetadataIndexes_rebuild (state : MetadataState) : MetadataIndexes :=
  let ix := MetadataIndexes_default in
  let ix := foldl record_inode ix state.(ms_inodes) in
  let ix := foldl record_binding ix state.(ms_direntry_binds) in
  let ix := foldl record_revision ix state.(ms_revisions) in
  let ix := foldl record_tombstone ix state.(ms_subtree_tombstones) in
  let ix := foldl record_content_layout ix state.(ms_content_layouts) in
  let ix := foldl record_commit_receipt ix state.(ms_commit_receipts) in
  let ix := foldl record_attributes_revision ix state.(ms_attributes_revisions) in
  foldl record_access_revision ix state.(ms_access_revisions).

(** [MetadataState::rebuild_indexes]. *)
Definition rebuild_indexes (state : MetadataState) : MetadataState :=
  {| ms_inodes := state.(ms_inodes);
     ms_direntry_binds := state.(ms_direntry_binds);
     ms_revisions := state.(ms_revisions);
     ms_subtree_tombstones := state.(ms_subtree_tombstones);
     ms_commit_receipts := state.(ms_commit_receipts);
     ms_commits := state.(ms_commits);
     ms_content_layouts := state.(ms_content_layouts);
     ms_attributes_revisions := state.(ms_attributes_revisions);
     ms_access_revisions := state.(ms_access_revisions);
     ms_row_count := metadata_row_count state;
     ms_row_heap_bytes := metadata_row_heap_bytes state;
     ms_indexes := MetadataIndexes_rebuild state |}.

Definition from_rows (inodes : list InodeRecord) (direntry_binds : list DirentryBindingRecord)
    (revisions : list RevisionRecord) (subtree_tombstones : list SubtreeTombstoneRecord)
    (commit_receipts : list CommitReceiptRecord) (commits : list WalCommitPayload)
    (attributes_revisions : list AttributesRevisionRecord)
    (content_layouts : list ContentLayoutRecord) (access_revisions : list AccessRevisionRecord)
    : MetadataState :=
  rebuild_indexes
    {| ms_inodes := inodes; ms_direntry_binds := direntry_binds; ms_revisions := revisions;
       ms_subtree_tombstones := subtree_tombstones; ms_commit_receipts := commit_receipts;
       ms_commits := commits; ms_content_layouts := content_layouts;
       ms_attributes_revisions := attributes_revisions; ms_access_revisions := access_revisions;
       ms_row_count := 0; ms_row_heap_bytes := 0; ms_indexes := MetadataIndexes_default |}.

Definition MetadataState_default : MetadataState := from_rows [] [] [] [] [] [] [] [] [].

Definition find_commit_receipt (state : MetadataState) (commit_id : CommitId)
    : option CommitReceiptRecord :=
  ix_commit_receipt state.(ms_indexes) commit_id.

Definition push_inode_record (state : MetadataState) (record : InodeRecord) : MetadataState :=
  {| ms_inodes := state.(ms_inodes) ++ [record];
     ms_direntry_binds := state.(ms_direntry_binds);
     ms_revisions := state.(ms_revisions);
     ms_subtree_tombstones := state.(ms_subtree_tombstones);
     ms_commit_receipts := state.(ms_commit_receipts);
     ms_commits := state.(ms_commits);
     ms_content_layouts := state.(ms_content_layouts);
     ms_attributes_revisions := state.(ms_attributes_revisions);
     ms_access_revisions := state.(ms_access_revisions);
     ms_row_count := saturating_add state.(ms_row_count) 1;
     ms_row_heap_bytes := saturating_add state.(ms_row_heap_bytes) (inode_heap_bytes record);
     ms_indexes := record_inode state.(ms_indexes) record |}.

Definition push_direntry_binding_record (state : MetadataState) (record : DirentryBindingRecord)
    : MetadataState :=
  {| ms_inodes := state.(ms_inodes);
     ms_direntry_binds := state.(ms_direntry_binds) ++ [record];
     ms_revisions := state.(ms_revisions);
     ms_subtree_tombstones := state.(ms_subtree_tombstones);
     ms_commit_receipts := state.(ms_commit_receipts);
     ms_commits := state.(ms_commits);
     ms_content_layouts := state.(ms_content_layouts);
     ms_attributes_revisions := state.(ms_attributes_revisions);
     ms_access_revisions := state.(ms_access_revisions);
     ms_row_count := saturating_add state.(ms_row_count) 1;
     ms_row_heap_bytes := saturating_add state.(ms_row_heap_bytes) (binding_heap_bytes record);
     ms_indexes := record_binding state.(ms_indexes) record |}.

Definition push_revision_record (state : MetadataState) (record : RevisionRecord) : MetadataState :=
  {| ms_inodes := state.(ms_inodes);
     ms_direntry_binds := state.(ms_direntry_binds);
     ms_revisions := state.(ms_revisions) ++ [record];
     ms_subtree_tombstones := state.(ms_subtree_tombstones);
     ms_commit_receipts := state.(ms_commit_receipts);
     ms_commits := state.(ms_commits);
     ms_content_layouts := state.(ms_content_layouts);
     ms_attributes_revisions := state.(ms_attributes_revisions);
     ms_access_revisions := state.(ms_access_revisions);
     ms_row_count := saturating_add state.(ms_row_count) 1;
     ms_row_heap_bytes := saturating_add state.(ms_row_heap_bytes) (revision_heap_bytes record);
     ms_indexes := record_revision state.(ms_indexes) record |}.

Definition push_subtree_tombstone_record (state : MetadataState) (record : SubtreeTombstoneRecord)
    : MetadataState :=
  {| ms_inodes := state.(ms_inodes);
     ms_direntry_binds := state.(ms_direntry_binds);
     ms_revisions := state.(ms_revisions);
     ms_subtree_tombstones := state.(ms_subtree_tombstones) ++ [record];
     ms_commit_receipts := state.(ms_commit_receipts);
     ms_commits := state.(ms_commits);
     ms_content_layouts := state.(ms_content_layouts);
     ms_attributes_revisions := state.(ms_attributes_revisions);
     ms_access_revisions := state.(ms_access_revisions);
     ms_row_count := saturating_add state.(ms_row_count) 1;
     ms_row_heap_bytes := saturating_add state.(ms_row_heap_bytes) (tombstone_heap_bytes record);
     ms_indexes := record_tombstone state.(ms_indexes) record |}.

Definition push_commit_receipt_record (state : MetadataState) (record : CommitReceiptRecord)
    : MetadataState :=
  {| ms_inodes := state.(ms_inodes);
     ms_direntry_binds := state.(ms_direntry_binds);
     ms_revisions := state.(ms_revisions);
     ms_subtree_tombstones := state.(ms_subtree_tombstones);
     ms_commit_receipts := state.(ms_commit_receipts) ++ [record];
     ms_commits := state.(ms_commits);
     ms_content_layouts := state.(ms_content_layouts);
     ms_attributes_revisions := state.(ms_attributes_revisions);
     ms_access_revisions := state.(ms_access_revisions);
     ms_row_count := saturating_add state.(ms_row_count) 1;
     ms_row_heap_bytes := saturating_add state.(ms_row_heap_bytes) (receipt_heap_bytes record);
     ms_indexes := record_commit_receipt state.(ms_indexes) record |}.

Definition push_commit_record (state : MetadataState) (record : WalCommitPayload) : MetadataState :=
  {| ms_inodes := state.(ms_inodes);
     ms_direntry_binds := state.(ms_direntry_binds);
     ms_revisions := state.(ms_revisions);
     ms_subtree_tombstones := state.(ms_subtree_tombstones);
     ms_commit_receipts := state.(ms_commit_receipts);
     ms_commits := state.(ms_commits) ++ [record];
     ms_content_layouts := state.(ms_content_layouts);
     ms_attributes_revisions := state.(ms_attributes_revisions);
     ms_access_revisions := state.(ms_access_revisions);
     ms_row_count := saturating_add state.(ms_row_count) 1;
     ms_row_heap_bytes := saturating_add state.(ms_row_heap_bytes) (commit_heap_bytes record);
     ms_indexes := state.(ms_indexes) |}.

Definition push_content_layout_record (state : MetadataState) (record : ContentLayoutRecord)
    : MetadataState :=
  {| ms_inodes := state.(ms_inodes);
     ms_direntry_binds := state.(ms_direntry_binds);
     ms_revisions := state.(ms_revisions);
     ms_subtree_tombstones := state.(ms_subtree_tombstones);
     ms_commit_receipts := state.(ms_commit_receipts);
     ms_commits := state.(ms_commits);
     ms_content_layouts := state.(ms_content_layouts) ++ [record];
     ms_attributes_revisions := state.(ms_attributes_revisions);
     ms_access_revisions := state.(ms_access_revisions);
     ms_row_count := saturating_add state.(ms_row_count) 1;
     ms_row_heap_bytes := saturating_add state.(ms_row_heap_bytes) (layout_heap_bytes record);
     ms_indexes := record_content_layout state.(ms_indexes) record |}.

Definition push_attributes_revision_record (state : MetadataState)
    (record : AttributesRevisionRecord) : MetadataState :=
  {| ms_inodes := state.(ms_inodes);
     ms_direntry_binds := state.(ms_direntry_binds);
     ms_revisions := state.(ms_revisions);
     ms_subtree_tombstones := state.(ms_subtree_tombstones);
     ms_commit_receipts := state.(ms_commit_receipts);
     ms_commits := state.(ms_commits);
     ms_content_layouts := state.(ms_content_layouts);
     ms_attributes_revisions := state.(ms_attributes_revisions) ++ [record];
     ms_access_revisions := state.(ms_access_revisions);
     ms_row_count := saturating_add state.(ms_row_count) 1;
     ms_row_heap_bytes := saturating_add state.(ms_row_heap_bytes) (attributes_heap_bytes record);
     ms_indexes := record_attributes_revision state.(ms_indexes) record |}.

Definition push_access_revision_record (state : MetadataState) (record : AccessRevisionRecord)
    : MetadataState :=
  {| ms_inodes := state.(ms_inodes);
     ms_direntry_binds := state.(ms_direntry_binds);
     ms_revisions := state.(ms_revisions);
     ms_subtree_tombstones := state.(ms_subtree_tombstones);
     ms_commit_receipts := state.(ms_commit_receipts);
     ms_commits := state.(ms_commits);
     ms_content_layouts := state.(ms_content_layouts);
     ms_attributes_revisions := state.(ms_attributes_revisions);
     ms_access_revisions := state.(ms_access_revisions) ++ [record];
     ms_row_count := saturating_add state.(ms_row_count) 1;
     ms_row_heap_bytes := saturating_add state.(ms_row_heap_bytes) (access_heap_bytes record);
     ms_indexes := record_access_revision state.(ms_indexes) record |}.

(** ** Applying committed deltas *)
Definition apply_committed_wal_delta_mut (state : MetadataState) (committed_seq : ChangeSeq)
    (commit_id : CommitId) (actor : ActorId) (committed_at_ms : N) (delta : WalDelta)
    : MetadataState :=
  match delta with
  | CreateInode _ inode_id inode_kind =>
      push_inode_record state
        {| ir_inode_id := inode_id; ir_inode_kind := inode_kind;
           ir_committed_seq := committed_seq; ir_commit_id := commit_id;
           ir_committed_by := actor; ir_committed_at_ms := committed_at_ms |}
  | BindDirentry delta_index parent_inode_id name_key display_name child_inode_id child_kind
      child_created_by child_created_at_ms revision =>
      push_direntry_binding_record state
        {| db_parent_inode_id := parent_inode_id; db_name_key := name_key;
           db_child_inode_id := child_inode_id; db_child_kind := child_kind;
           db_child_created_by := child_created_by; db_child_created_at_ms := child_created_at_ms;
           db_committed_seq := committed_seq; db_delta_index := delta_index;
           db_commit_id := commit_id; db_committed_by := actor;
           db_committed_at_ms := committed_at_ms;
           db_bind_position := mkDeltaPosition committed_seq delta_index;
           db_state := Bound display_name revision |}
  | UnbindDirentry delta_index parent_inode_id name_key _ child_inode_id child_kind
      child_created_by child_created_at_ms target =>
      push_direntry_binding_record state
        {| db_parent_inode_id := parent_inode_id; db_name_key := name_key;
           db_child_inode_id := child_inode_id; db_child_kind := child_kind;
           db_child_created_by := child_created_by; db_child_created_at_ms := child_created_at_ms;
           db_committed_seq := committed_seq; db_delta_index := delta_index;
           db_commit_id := commit_id; db_committed_by := actor;
           db_committed_at_ms := committed_at_ms; db_bind_position := target;
           db_state := Unbound |}
  | AppendFileRevision delta_index inode_id parent_inode_id name_key display_name bind_position
      child_created_by child_created_at_ms revision_no content_ref layout _ =>
      let state :=
        match layout with
        | Some layout =>
            push_content_layout_record state
              {| lr_content_id := content_ref.(cref_content_id); lr_committed_seq := committed_seq;
                 lr_size_bytes := size_bytes layout; lr_layout := layout |}
        | None => state
        end in
      let state :=
        push_revision_record state
          {| rr_inode_id := inode_id; rr_revision_no := revision_no;
             rr_committed_seq := committed_seq; rr_commit_id := commit_id;
             rr_committed_by := actor; rr_committed_at_ms := committed_at_ms;
             rr_delta_index := delta_index; rr_content_ref := content_ref |} in
      push_direntry_binding_record state
        {| db_parent_inode_id := parent_inode_id; db_name_key := name_key;
           db_child_inode_id := inode_id; db_child_kind := File;
           db_child_created_by := child_created_by; db_child_created_at_ms := child_created_at_ms;
           db_committed_seq := committed_seq; db_delta_index := delta_index;
           db_commit_id := commit_id; db_committed_by := actor;
           db_committed_at_ms := committed_at_ms; db_bind_position := bind_position;
           db_state := Bound display_name
             (Some {| rs_revision_no := revision_no;
                      rs_size_bytes := content_ref.(cref_size_bytes);
                      rs_revision_committed_by := actor;
                      rs_revision_committed_at_ms := committed_at_ms |}) |}
  | TombstoneSubtree delta_index root_inode_id root_kind deleted_binding =>
      push_subtree_tombstone_record state
        {| tb_root_inode_id := root_inode_id; tb_committed_seq := committed_seq;
           tb_delta_index := delta_index; tb_commit_id := commit_id;
           tb_action := TombSet root_kind deleted_binding;
           tb_committed_by := actor; tb_committed_at_ms := committed_at_ms |}
  | RevokeSubtreeTombstone delta_index root_inode_id target =>
      push_subtree_tombstone_record state
        {| tb_root_inode_id := root_inode_id; tb_committed_seq := committed_seq;
           tb_delta_index := delta_index; tb_commit_id := commit_id;
           tb_action := TombRevoke target;
           tb_committed_by := actor; tb_committed_at_ms := committed_at_ms |}
  | AppendAttributesRevision delta_index inode_id attributes_revision_no attributes =>
      push_attributes_revision_record state
        {| at_inode_id := inode_id; at_attributes_revision_no := attributes_revision_no;
           at_committed_seq := committed_seq; at_commit_id := commit_id;
           at_delta_index := delta_index; at_committed_by := actor;
           at_committed_at_ms := committed_at_ms; at_attributes := attributes |}
  | AppendAccessRevision delta_index inode_id access_revision_no boundary grants =>
      push_access_revision_record state
        {| ac_inode_id := inode_id; ac_access_revision_no := access_revision_no;
           ac_committed_seq := committed_seq; ac_commit_id := commit_id;
           ac_delta_index := delta_index; ac_committed_by := actor;
           ac_committed_at_ms := committed_at_ms; ac_boundary := boundary;
           ac_grants := grants |}
  end.

(** [apply_committed_wal_deltas_mut]; [apply_committed_wal_deltas] applies it
    to a clone. *)
Definition apply_committed_wal_deltas (state : MetadataState) (committed_seq : ChangeSeq)
    (commit_id : CommitId) (actor : ActorId) (committed_at_ms : N) (deltas : list WalDelta)
    : MetadataState :=
  foldl (λ state delta,
    apply_committed_wal_delta_mut state committed_seq commit_id actor committed_at_ms delta)
    state deltas.

Definition apply_committed_wal_record_mut (state : MetadataState) (record : WalCommitPayload)
    : MetadataState :=
  let state :=
    foldl (λ state delta,
      apply_committed_wal_delta_mut state record.(wcp_committed_seq) record.(wcp_commit_id)
        record.(wcp_committed_by) record.(wcp_committed_at_ms) delta.(wcd_delta))
      state record.(wcp_deltas) in
  let state :=
    push_commit_record state
      {| wcp_committed_seq := record.(wcp_committed_seq);
         wcp_commit_id := record.(wcp_commit_id);
         wcp_committed_by := record.(wcp_committed_by);
         wcp_semantic_commit_fingerprint := record.(wcp_semantic_commit_fingerprint);
         wcp_committed_at_ms := record.(wcp_committed_at_ms);
         wcp_message := record.(wcp_message);
         wcp_merge := record.(wcp_merge);
         wcp_deltas := record.(wcp_deltas);
         wcp_inline_content := [] |} in
  push_commit_receipt_record state
    {| rc_commit_id := record.(wcp_commit_id); rc_committed_seq := record.(wcp_committed_seq) |}.
End state.

(** ** Rules over rows *)

Definition newest_tombstone_from_records (records : list SubtreeTombstoneRecord)
    (visible_seq : ChangeSeq) : option SubtreeTombstoneRecord :=
  max_by_key tombstone_position
    (filter (λ tombstone, tombstone.(tb_committed_seq) ≤ visible_seq) records).

Definition hiding_tombstone_from_records (records : list SubtreeTombstoneRecord)
    (visible_seq : ChangeSeq) : option SubtreeTombstoneRecord :=
  option_filter (λ tombstone, hides_subtree tombstone.(tb_action))
    (newest_tombstone_from_records records visible_seq).

Definition active_deletion_from_tombstone (tombstone : SubtreeTombstoneRecord)
    : ActiveDeletionRecord :=
  match tombstone.(tb_action) with
  | TombSet root_kind deleted_binding =>
      {| ad_root_inode_id := tombstone.(tb_root_inode_id);
         ad_deletion_seq := tombstone.(tb_committed_seq);
         ad_action := Listed root_kind tombstone.(tb_committed_at_ms)
                        tombstone.(tb_committed_by) deleted_binding |}
  | TombRevoke target =>
      {| ad_root_inode_id := tombstone.(tb_root_inode_id);
         ad_deletion_seq := target.(dp_seq);
         ad_action := Removed tombstone.(tb_committed_seq) |}
  end.

Record RecoverableDeletion := mkRecoverableDeletion {
  rd_root_inode_id : InodeId;
  rd_inode_kind : InodeKind;
  rd_deletion_seq : ChangeSeq;
  rd_deleted_at_ms : N;
  rd_deleted_by : ActorId;
  rd_deleted_binding : DeletedBinding;
}.
#[export] Instance RecoverableDeletion_eq_dec : EqDecision RecoverableDeletion.
Proof. solve_decision. Defined.

Definition recoverable_deletion_from_active_record (record : ActiveDeletionRecord)
    : option RecoverableDeletion :=
  match record.(ad_action) with
  | Listed inode_kind deleted_at_ms deleted_by deleted_binding =>
      Some {| rd_root_inode_id := record.(ad_root_inode_id);
              rd_inode_kind := inode_kind;
              rd_deletion_seq := record.(ad_deletion_seq);
              rd_deleted_at_ms := deleted_at_ms;
              rd_deleted_by := deleted_by;
              rd_deleted_binding := deleted_binding |}
  | Removed _ => None
  end.

(** ** Index contents

    Each index keeps, for every key, the newest row of its family with that
    key. *)
Definition newer_insert {K V O} `{Countable K, Ord O} (key : V → K) (order : V → O)
    (map : gmap K V) (value : V) : gmap K V :=
  match map !! key value with
  | Some existing =>
      match cmp (order value) (order existing) with Gt => <[key value := value]> map | _ => map end
  | None => <[key value := value]> map
  end.

Lemma replace_if_newer_fst {K V O} `{Countable K, Ord O} (kh : K → N) (vh : V → N)
    (m : gmap K V) owned (key : V → K) value (order : V → O) :
  (replace_if_newer kh vh m owned (key value) value order).1 = newer_insert key order m value.
Proof.
  unfold replace_if_newer, newer_insert. destruct (m !! key value); [|done]. by destruct (cmp _ _).
Qed.

Section newest.
Context {K V O} `{Countable K, TotalOrd O} (key : V → K) (order : V → O).

Lemma newer_insert_lookup_ne (m : gmap K V) v k :
  key v ≠ k → newer_insert key order m v !! k = m !! k.
Proof.
  intros Hk. unfold newer_insert.
  destruct (m !! key v); [destruct (cmp _ _)|]; by rewrite ?lookup_insert_ne.
Qed.

Lemma newer_insert_lookup_eq (m : gmap K V) v :
  newer_insert key order m v !! key v
  = Some match m !! key v with
         | Some e => match cmp (order v) (order e) with Gt => v | _ => e end
         | None => v
         end.
Proof.
  unfold newer_insert. destruct (m !! key v) as [e|] eqn:E; [|by rewrite lookup_insert_eq].
  destruct (cmp _ _); rewrite ?lookup_insert_eq; congruence.
Qed.

(** The index and a scan agree when no two rows of one key share a
    position. *)
Lemma newest_index l k :
  key_inj order (filter (λ v, key v = k) l) →
  foldl (newer_insert key order) ∅ l !! k = max_by_key order (filter (λ v, key v = k) l).
Proof.
  induction l as [|x l IH] using rev_ind; intros Hinj; [done|].
  rewrite foldl_app, filter_app. simpl. rewrite filter_app in Hinj.
  assert (key_inj order (filter (λ v, key v = k) l)) as Hinj'.
  { eapply key_inj_sub; [|done]. set_solver. }
  specialize (IH Hinj'). destruct (decide (key x = k)) as [<-|Hne].
  - rewrite filter_cons_True, filter_nil in * by done.
    rewrite newer_insert_lookup_eq, IH. unfold max_by_key at 2. rewrite foldl_app. simpl.
    fold (max_by_key order (filter (λ v, key v = key x) l)).
    destruct (max_by_key order _) as [e|] eqn:E; [|done]. simpl.
    destruct (cmp (order x) (order e)) eqn:Ec; try done.
    f_equal. apply Hinj; [|set_solver|by apply cmp_eq in Ec].
    apply elem_of_app. left. by apply max_by_key_is_max in E as [? _].
  - rewrite filter_cons_False, filter_nil, app_nil_r by done.
    by rewrite newer_insert_lookup_ne, IH.
Qed.
End newest.

(** Folds and projections. *)
Lemma foldl_proj_const {A B X} (proj : A → X) (f : A → B → A) a l :
  (∀ a b, proj (f a b) = proj a) → proj (foldl f a l) = proj a.
Proof. intros Hf. revert a. induction l as [|b l IH]; intros a; simpl; [done|]. by rewrite IH, Hf. Qed.

Lemma foldl_proj {A B X} (proj : A → X) (f : A → B → A) (g : X → B → X) a l :
  (∀ a b, proj (f a b) = g (proj a) b) → proj (foldl f a l) = foldl g (proj a) l.
Proof. intros Hf. revert a. induction l as [|b l IH]; intros a; simpl; [done|]. by rewrite IH, Hf. Qed.

Lemma foldl_filter {A B} (P : B → Prop) `{∀ x, Decision (P x)} (f : A → B → A) a l :
  foldl (λ a b, if decide (P b) then f a b else a) a l = foldl f a (filter P l).
Proof.
  revert a. induction l as [|b l IH]; intros a; [done|]. simpl. rewrite filter_cons.
  by case_decide; simpl.
Qed.

Definition max_seq {A} (seq : A → ChangeSeq) (l : list A) : ChangeSeq :=
  foldr (λ a m, N.max (seq a) m) 0 l.

Lemma foldl_max {A} (seq : A → ChangeSeq) s l :
  foldl (λ s a, N.max s (seq a)) s l = N.max s (max_seq seq l).
Proof. revert s. induction l as [|a l IH]; intros s; simpl; [lia|]. rewrite IH. lia. Qed.

Lemma max_seq_app {A} (seq : A → ChangeSeq) l x :
  max_seq seq (l ++ [x]) = N.max (max_seq seq l) (seq x).
Proof. induction l as [|a l IH]; simpl; [lia|]. rewrite IH. lia. Qed.

Lemma max_seq_elem {A} (seq : A → ChangeSeq) l x : x ∈ l → seq x ≤ max_seq seq l.
Proof. induction l as [|a l IH]; [set_solver|]. intros [->|Hx]%elem_of_cons; simpl; [lia|]. specialize (IH Hx). lia. Qed.

Definition binding_slot (record : DirentryBindingRecord) : InodeId * NameKey :=
  (record.(db_parent_inode_id), record.(db_name_key)).

Ltac open_record :=
  unfold record_inode, record_binding, record_revision, record_tombstone, record_content_layout,
    record_commit_receipt, record_attributes_revision, record_access_revision, record_seq;
  repeat match goal with |- context [replace_if_newer ?a ?b ?c ?d ?e ?f ?g] =>
    let E := fresh "E" in destruct (replace_if_newer a b c d e f g) eqn:E end;
  repeat case_match; simplify_eq; try done.

Section rebuilt.
Context `{HeapBytes}.
Implicit Types (ix : MetadataIndexes) (st : MetadataState).

Lemma record_binding_slots ix r :
  ix_latest_bind_by_parent_name (record_binding ix r)
  = newer_insert binding_slot binding_position (ix_latest_bind_by_parent_name ix) r.
Proof.
  unfold record_binding. change (db_parent_inode_id r, db_name_key r) with (binding_slot r).
  rewrite <-(replace_if_newer_fst slot_heap_bytes binding_heap_bytes _ (ix_owned_heap_bytes ix)).
  destruct (replace_if_newer _ _ _ _ _ _ _) as [slots owned]. by repeat case_match.
Qed.

Lemma record_binding_children ix r :
  ix_latest_binding_by_child (record_binding ix r)
  = if decide (is_binding_event r = true)
    then newer_insert db_child_inode_id binding_position (ix_latest_binding_by_child ix) r
    else ix_latest_binding_by_child ix.
Proof.
  unfold record_binding. destruct (replace_if_newer slot_heap_bytes _ _ _ _ _ _) as [slots owned].
  case_decide as E; [|by destruct (is_binding_event r)]. rewrite E.
  rewrite <-(replace_if_newer_fst id_heap_bytes binding_heap_bytes _ owned).
  by destruct (replace_if_newer _ _ _ _ _ _ _).
Qed.

Lemma record_tombstone_map ix r :
  ix_tombstone_by_root (record_tombstone ix r)
  = newer_insert tb_root_inode_id tombstone_order_key (ix_tombstone_by_root ix) r.
Proof.
  unfold record_tombstone.
  rewrite <-(replace_if_newer_fst id_heap_bytes tombstone_heap_bytes _ (ix_owned_heap_bytes ix)).
  by destruct (replace_if_newer _ _ _ _ _ _ _).
Qed.

Lemma record_layout_map ix r :
  ix_content_layout_by_id (record_content_layout ix r)
  = newer_insert lr_content_id layout_order_key (ix_content_layout_by_id ix) r.
Proof.
  unfold record_content_layout.
  rewrite <-(replace_if_newer_fst text_heap_bytes layout_heap_bytes _ (ix_owned_heap_bytes ix)).
  by destruct (replace_if_newer _ _ _ _ _ _ _).
Qed.

Lemma record_receipt_map ix r :
  ix_commit_receipt_by_id (record_commit_receipt ix r)
  = newer_insert rc_commit_id rc_committed_seq (ix_commit_receipt_by_id ix) r.
Proof.
  unfold record_commit_receipt.
  rewrite <-(replace_if_newer_fst text_heap_bytes receipt_heap_bytes _ (ix_owned_heap_bytes ix)).
  by destruct (replace_if_newer _ _ _ _ _ _ _).
Qed.

(** *** The contents of a rebuilt index *)
Ltac skip_folds proj :=
  repeat match goal with
  | |- proj (foldl ?f ?ix ?l) = _ =>
      rewrite (foldl_proj_const proj f ix l) by (intros; open_record)
  end.

Lemma rebuild_inodes st :
  ix_inode_by_id (MetadataIndexes_rebuild st)
  = foldl (λ m r, <[ir_inode_id r := r]> m) ∅ (ms_inodes st).
Proof.
  unfold MetadataIndexes_rebuild. cbv zeta. skip_folds ix_inode_by_id.
  apply (foldl_proj ix_inode_by_id). intros; open_record.
Qed.

Lemma rebuild_slots st :
  ix_latest_bind_by_parent_name (MetadataIndexes_rebuild st)
  = foldl (newer_insert binding_slot binding_position) ∅ (ms_direntry_binds st).
Proof.
  unfold MetadataIndexes_rebuild. cbv zeta.
  do 6 rewrite (foldl_proj_const ix_latest_bind_by_parent_name) by (intros; open_record).
  rewrite (foldl_proj ix_latest_bind_by_parent_name _ (newer_insert binding_slot binding_position))
    by (intros; apply record_binding_slots).
  by rewrite (foldl_proj_const ix_latest_bind_by_parent_name) by (intros; open_record).
Qed.

Lemma rebuild_children st :
  ix_latest_binding_by_child (MetadataIndexes_rebuild st)
  = foldl (newer_insert db_child_inode_id binding_position) ∅
      (filter (λ r, is_binding_event r = true) (ms_direntry_binds st)).
Proof.
  unfold MetadataIndexes_rebuild. cbv zeta.
  do 6 rewrite (foldl_proj_const ix_latest_binding_by_child) by (intros; open_record).
  rewrite (foldl_proj ix_latest_binding_by_child _ (λ m r, if decide (is_binding_event r = true)
    then newer_insert db_child_inode_id binding_position m r else m))
    by (intros; apply record_binding_children).
  rewrite (foldl_proj_const ix_latest_binding_by_child) by (intros; open_record).
  apply foldl_filter.
Qed.

Lemma rebuild_tombstones st :
  ix_tombstone_by_root (MetadataIndexes_rebuild st)
  = foldl (newer_insert tb_root_inode_id tombstone_order_key) ∅ (ms_subtree_tombstones st).
Proof.
  unfold MetadataIndexes_rebuild. cbv zeta.
  do 4 rewrite (foldl_proj_const ix_tombstone_by_root) by (intros; open_record).
  rewrite (foldl_proj ix_tombstone_by_root _ (newer_insert tb_root_inode_id tombstone_order_key))
    by (intros; apply record_tombstone_map).
  by do 3 rewrite (foldl_proj_const ix_tombstone_by_root) by (intros; open_record).
Qed.

Lemma rebuild_layouts st :
  ix_content_layout_by_id (MetadataIndexes_rebuild st)
  = foldl (newer_insert lr_content_id layout_order_key) ∅ (ms_content_layouts st).
Proof.
  unfold MetadataIndexes_rebuild. cbv zeta.
  do 3 rewrite (foldl_proj_const ix_content_layout_by_id) by (intros; open_record).
  rewrite (foldl_proj ix_content_layout_by_id _ (newer_insert lr_content_id layout_order_key))
    by (intros; apply record_layout_map).
  by do 4 rewrite (foldl_proj_const ix_content_layout_by_id) by (intros; open_record).
Qed.

Lemma rebuild_receipts st :
  ix_commit_receipt_by_id (MetadataIndexes_rebuild st)
  = foldl (newer_insert rc_commit_id rc_committed_seq) ∅ (ms_commit_receipts st).
Proof.
  unfold MetadataIndexes_rebuild. cbv zeta.
  do 2 rewrite (foldl_proj_const ix_commit_receipt_by_id) by (intros; open_record).
  rewrite (foldl_proj ix_commit_receipt_by_id _ (newer_insert rc_commit_id rc_committed_seq))
    by (intros; apply record_receipt_map).
  by do 5 rewrite (foldl_proj_const ix_commit_receipt_by_id) by (intros; open_record).
Qed.

Lemma foldl_indexed_seq {R} (f : MetadataIndexes → R → MetadataIndexes) (seq : R → ChangeSeq) ix l :
  (∀ ix r, ix_indexed_seq (f ix r) = N.max (ix_indexed_seq ix) (seq r)) →
  ix_indexed_seq (foldl f ix l) = N.max (ix_indexed_seq ix) (max_seq seq l).
Proof. intros Hf. by rewrite (foldl_proj ix_indexed_seq f (λ s r, N.max s (seq r))), foldl_max. Qed.

(** The watermark is the greatest sequence of any indexed row. *)
Lemma rebuild_indexed_seq st :
  ix_indexed_seq (MetadataIndexes_rebuild st)
  = N.max (max_seq ir_committed_seq (ms_inodes st))
   (N.max (max_seq db_committed_seq (ms_direntry_binds st))
   (N.max (max_seq rr_committed_seq (ms_revisions st))
   (N.max (max_seq tb_committed_seq (ms_subtree_tombstones st))
   (N.max (max_seq lr_committed_seq (ms_content_layouts st))
   (N.max (max_seq rc_committed_seq (ms_commit_receipts st))
   (N.max (max_seq at_committed_seq (ms_attributes_revisions st))
     (max_seq ac_committed_seq (ms_access_revisions st)))))))).
Proof.
  unfold MetadataIndexes_rebuild. cbv zeta.
  rewrite (foldl_indexed_seq record_access_revision ac_committed_seq) by (intros; open_record).
  rewrite (foldl_indexed_seq record_attributes_revision at_committed_seq) by (intros; open_record).
  rewrite (foldl_indexed_seq record_commit_receipt rc_committed_seq) by (intros; open_record).
  rewrite (foldl_indexed_seq record_content_layout lr_committed_seq) by (intros; open_record).
  rewrite (foldl_indexed_seq record_tombstone tb_committed_seq) by (intros; open_record).
  rewrite (foldl_indexed_seq record_revision rr_committed_seq) by (intros; open_record).
  rewrite (foldl_indexed_seq record_binding db_committed_seq) by (intros; open_record).
  rewrite (foldl_indexed_seq record_inode ir_committed_seq) by (intros; open_record).
  cbn [ix_indexed_seq MetadataIndexes_default]. rewrite !N.max_assoc. by rewrite N.max_0_l.
Qed.
End rebuilt.

(** ** Heap accounting *)
Definition map_weight {K V} `{Countable K} (key_heap : K → N) (value_heap : V → N)
    (m : gmap K V) : N :=
  map_fold (λ k v total, key_heap k + value_heap v + total) 0 m.

Section weight.
Context {K V} `{Countable K} (kh : K → N) (vh : V → N).
Implicit Types m : gmap K V.

Lemma map_weight_insert_None m k v :
  m !! k = None → map_weight kh vh (<[k := v]> m) = kh k + vh v + map_weight kh vh m.
Proof. intros Hk. unfold map_weight. rewrite map_fold_insert_L; [done| |done]. intros; lia. Qed.

Lemma map_weight_insert_Some m k v old :
  m !! k = Some old →
  map_weight kh vh (<[k := v]> m) + vh old = map_weight kh vh m + vh v.
Proof.
  intros Hk. rewrite <-(insert_id m k old) at 2 by done. rewrite <-!(insert_delete_eq m).
  rewrite !map_weight_insert_None by apply lookup_delete_eq. lia.
Qed.

Lemma map_weight_ge m k v : m !! k = Some v → vh v ≤ map_weight kh vh m.
Proof.
  intros Hk. rewrite <-(insert_id m k v), <-insert_delete_eq by done.
  rewrite map_weight_insert_None by apply lookup_delete_eq. lia.
Qed.

(** [replace_if_newer] charges exactly what the map gains, and never
    subtracts more than it charged before. *)
Lemma replace_if_newer_weight {Q} `{Ord Q} m owned rest k v (order : V → Q) :
  owned = rest + map_weight kh vh m →
  (replace_if_newer kh vh m owned k v order).2
  = rest + map_weight kh vh (replace_if_newer kh vh m owned k v order).1.
Proof.
  intros ->. unfold replace_if_newer. destruct (m !! k) as [old|] eqn:E.
  - destruct (cmp (order v) (order old)); try done. cbn [fst snd].
    pose proof (map_weight_insert_Some m k v old E). pose proof (map_weight_ge m k old E). lia.
  - cbn [fst snd]. rewrite map_weight_insert_None by done. lia.
Qed.
End weight.

Lemma N_max_shuffle a b c : N.max (N.max a b) c = N.max (N.max a c) b.
Proof. lia. Qed.

Lemma saturating_add_shuffle a b c :
  saturating_add (saturating_add a b) c = saturating_add (saturating_add a c) b.
Proof. unfold saturating_add. lia. Qed.

Lemma saturating_add_assoc a b c :
  saturating_add a (saturating_add b c) = saturating_add (saturating_add a b) c.
Proof. unfold saturating_add. lia. Qed.

Lemma heap_total_app {R} (heap : R → N) l x :
  heap_total heap (l ++ [x]) = saturating_add (heap_total heap l) (heap x).
Proof. unfold heap_total. by rewrite fmap_app, foldl_app. Qed.

Section accounting.
Context `{HeapBytes}.
Implicit Types (ix : MetadataIndexes) (st : MetadataState).

(** What the indexed keys and records own. *)
Definition index_weight ix : N :=
  map_weight (λ _, 0) inode_heap_bytes ix.(ix_inode_by_id)
  + map_weight slot_heap_bytes binding_heap_bytes ix.(ix_latest_bind_by_parent_name)
  + map_weight id_heap_bytes binding_heap_bytes ix.(ix_latest_binding_by_child)
  + map_weight id_heap_bytes tombstone_heap_bytes ix.(ix_tombstone_by_root)
  + map_weight text_heap_bytes receipt_heap_bytes ix.(ix_commit_receipt_by_id)
  + map_weight text_heap_bytes layout_heap_bytes ix.(ix_content_layout_by_id).

Definition accounted ix : Prop := ix.(ix_owned_heap_bytes) = index_weight ix.

Lemma accounted_inode ix r : accounted ix → accounted (record_inode ix r).
Proof.
  unfold accounted, index_weight, record_inode. simpl. intros Ha.
  destruct (ix_inode_by_id ix !! ir_inode_id r) as [old|] eqn:E.
  - pose proof (map_weight_insert_Some (λ _, 0) inode_heap_bytes _ _ r old E).
    pose proof (map_weight_ge (λ _, 0) inode_heap_bytes _ _ old E). lia.
  - rewrite map_weight_insert_None by done. lia.
Qed.

Lemma accounted_binding ix r : accounted ix → accounted (record_binding ix r).
Proof.
  unfold accounted, index_weight, record_binding. intros Ha.
  set (w1 := map_weight slot_heap_bytes binding_heap_bytes (ix_latest_bind_by_parent_name ix)) in *.
  pose proof (replace_if_newer_weight slot_heap_bytes binding_heap_bytes
    (ix_latest_bind_by_parent_name ix) (ix_owned_heap_bytes ix) (index_weight ix - w1)
    (db_parent_inode_id r, db_name_key r) r binding_position) as H1.
  specialize (H1 ltac:(unfold index_weight, w1 in *; lia)).
  destruct (replace_if_newer slot_heap_bytes _ _ _ _ _ _) as [slots owned]. cbn [fst snd] in H1.
  destruct (is_binding_event r); [|simpl; unfold index_weight, w1 in *; lia].
  set (w2 := map_weight id_heap_bytes binding_heap_bytes (ix_latest_binding_by_child ix)) in *.
  pose proof (replace_if_newer_weight id_heap_bytes binding_heap_bytes
    (ix_latest_binding_by_child ix) owned (owned - w2)
    (db_child_inode_id r) r binding_position) as H2.
  specialize (H2 ltac:(unfold index_weight, w1, w2 in *; lia)).
  destruct (replace_if_newer id_heap_bytes _ _ _ _ _ _) as [children owned']. cbn [fst snd] in H2.
  simpl. unfold index_weight, w1, w2 in *. lia.
Qed.

Lemma accounted_tombstone ix r : accounted ix → accounted (record_tombstone ix r).
Proof.
  unfold accounted, record_tombstone. intros Ha.
  pose proof (replace_if_newer_weight id_heap_bytes tombstone_heap_bytes (ix_tombstone_by_root ix)
    (ix_owned_heap_bytes ix)
    (index_weight ix - map_weight id_heap_bytes tombstone_heap_bytes (ix_tombstone_by_root ix))
    (tb_root_inode_id r) r tombstone_order_key ltac:(unfold index_weight in *; lia)) as H1.
  destruct (replace_if_newer _ _ _ _ _ _ _) as [m owned]. cbn [fst snd] in H1.
  unfold index_weight in *. simpl. lia.
Qed.

Lemma accounted_layout ix r : accounted ix → accounted (record_content_layout ix r).
Proof.
  unfold accounted, record_content_layout. intros Ha.
  pose proof (replace_if_newer_weight text_heap_bytes layout_heap_bytes (ix_content_layout_by_id ix)
    (ix_owned_heap_bytes ix)
    (index_weight ix - map_weight text_heap_bytes layout_heap_bytes (ix_content_layout_by_id ix))
    (lr_content_id r) r layout_order_key ltac:(unfold index_weight in *; lia)) as H1.
  destruct (replace_if_newer _ _ _ _ _ _ _) as [m owned]. cbn [fst snd] in H1.
  unfold index_weight in *. simpl. lia.
Qed.

Lemma accounted_receipt ix r : accounted ix → accounted (record_commit_receipt ix r).
Proof.
  unfold accounted, record_commit_receipt. intros Ha.
  pose proof (replace_if_newer_weight text_heap_bytes receipt_heap_bytes (ix_commit_receipt_by_id ix)
    (ix_owned_heap_bytes ix)
    (index_weight ix - map_weight text_heap_bytes receipt_heap_bytes (ix_commit_receipt_by_id ix))
    (rc_commit_id r) r rc_committed_seq ltac:(unfold index_weight in *; lia)) as H1.
  destruct (replace_if_newer _ _ _ _ _ _ _) as [m owned]. cbn [fst snd] in H1.
  unfold index_weight in *. simpl. lia.
Qed.

Lemma accounted_foldl {R} (f : MetadataIndexes → R → MetadataIndexes) ix l :
  (∀ ix r, accounted ix → accounted (f ix r)) → accounted ix → accounted (foldl f ix l).
Proof. intros Hf. revert ix. induction l; simpl; auto. Qed.

Lemma accounted_rebuild st : accounted (MetadataIndexes_rebuild st).
Proof.
  unfold MetadataIndexes_rebuild. cbv zeta.
  repeat (apply accounted_foldl; [intros; auto using accounted_inode, accounted_binding,
    accounted_tombstone, accounted_layout, accounted_receipt|]).
  done.
Qed.

(** Two accounted indexes with equal tables and watermarks are equal. *)
Lemma indexes_eq ix1 ix2 :
  accounted ix1 → accounted ix2 →
  ix_indexed_seq ix1 = ix_indexed_seq ix2 →
  ix_inode_by_id ix1 = ix_inode_by_id ix2 →
  ix_latest_bind_by_parent_name ix1 = ix_latest_bind_by_parent_name ix2 →
  ix_latest_binding_by_child ix1 = ix_latest_binding_by_child ix2 →
  ix_tombstone_by_root ix1 = ix_tombstone_by_root ix2 →
  ix_commit_receipt_by_id ix1 = ix_commit_receipt_by_id ix2 →
  ix_content_layout_by_id ix1 = ix_content_layout_by_id ix2 →
  ix1 = ix2.
Proof.
  unfold accounted, index_weight. destruct ix1, ix2. simpl. intros. subst. done.
Qed.
End accounting.

Section incremental.
Context `{HeapBytes}.
Implicit Types st : MetadataState.

(** The totals and indexes are those a rebuild from the rows computes. *)
Definition rebuilt st : Prop :=
  ms_row_count st = metadata_row_count st ∧
  ms_row_heap_bytes st = metadata_row_heap_bytes st ∧
  ms_indexes st = MetadataIndexes_rebuild st.

Lemma rebuilt_eq st : rebuilt st → st = rebuild_indexes st.
Proof.
  intros (E1 & E2 & E3). unfold rebuild_indexes. rewrite <-E1, <-E2, <-E3. by destruct st.
Qed.

(** Rebuilding reads only the rows. *)
Lemma rebuild_rows_eq st st' :
  st.(ms_inodes) = st'.(ms_inodes) → st.(ms_direntry_binds) = st'.(ms_direntry_binds) →
  st.(ms_revisions) = st'.(ms_revisions) →
  st.(ms_subtree_tombstones) = st'.(ms_subtree_tombstones) →
  st.(ms_commit_receipts) = st'.(ms_commit_receipts) → st.(ms_commits) = st'.(ms_commits) →
  st.(ms_content_layouts) = st'.(ms_content_layouts) →
  st.(ms_attributes_revisions) = st'.(ms_attributes_revisions) →
  st.(ms_access_revisions) = st'.(ms_access_revisions) → rebuild_indexes st = rebuild_indexes st'.
Proof.
  intros E1 E2 E3 E4 E5 E6 E7 E8 E9.
  unfold rebuild_indexes, MetadataIndexes_rebuild, metadata_row_count, metadata_row_heap_bytes.
  rewrite E1, E2, E3, E4, E5, E6, E7, E8, E9. reflexivity.
Qed.

Lemma rebuild_indexes_rebuilt st : rebuilt (rebuild_indexes st).
Proof.
  assert (rebuild_indexes (rebuild_indexes st) = rebuild_indexes st) as E by by apply rebuild_rows_eq.
  unfold rebuilt. split_and!; [rewrite <-E at 1..]; reflexivity.
Qed.

Lemma default_rebuilt : rebuilt MetadataState_default.
Proof. done. Qed.

(** Saturating sums are the true sums, cut at [usize::MAX]. *)
Lemma sat_min_l x y : saturating_add (N.min U64_MAX x) y = N.min U64_MAX (x + y).
Proof. unfold saturating_add. lia. Qed.

Lemma sat_min_both x y :
  saturating_add (N.min U64_MAX x) (N.min U64_MAX y) = N.min U64_MAX (x + y).
Proof. unfold saturating_add. lia. Qed.

Lemma sat_def x y : saturating_add x y = N.min U64_MAX (x + y).
Proof. done. Qed.

Local Opaque saturating_add.

Definition heap_sum {R} (heap : R → N) (l : list R) : N := foldr (λ r total, heap r + total) 0 l.

Lemma heap_sum_app {R} (heap : R → N) l x : heap_sum heap (l ++ [x]) = heap_sum heap l + heap x.
Proof. induction l as [|y l IH]; simpl; [lia|]. rewrite IH. lia. Qed.

Lemma heap_total_min {R} (heap : R → N) l : heap_total heap l = N.min U64_MAX (heap_sum heap l).
Proof.
  induction l as [|x l IH] using rev_ind; [done|].
  by rewrite heap_total_app, heap_sum_app, IH, sat_min_l.
Qed.

Lemma row_count_min st :
  metadata_row_count st = N.min U64_MAX
    (len (ms_inodes st) + len (ms_direntry_binds st) + len (ms_revisions st)
     + len (ms_subtree_tombstones st) + len (ms_commit_receipts st) + len (ms_commits st)
     + len (ms_content_layouts st) + len (ms_attributes_revisions st)
     + len (ms_access_revisions st)).
Proof. unfold metadata_row_count. cbv zeta. by rewrite (sat_def (len (ms_inodes st))), !sat_min_l. Qed.

Lemma row_heap_bytes_min st :
  metadata_row_heap_bytes st = N.min U64_MAX
    (heap_sum inode_heap_bytes (ms_inodes st) + heap_sum binding_heap_bytes (ms_direntry_binds st)
     + heap_sum revision_heap_bytes (ms_revisions st)
     + heap_sum tombstone_heap_bytes (ms_subtree_tombstones st)
     + heap_sum receipt_heap_bytes (ms_commit_receipts st)
     + heap_sum commit_heap_bytes (ms_commits st) + heap_sum layout_heap_bytes (ms_content_layouts st)
     + heap_sum attributes_heap_bytes (ms_attributes_revisions st)
     + heap_sum access_heap_bytes (ms_access_revisions st)).
Proof.
  unfold metadata_row_heap_bytes. cbv zeta. rewrite !heap_total_min.
  by rewrite !sat_min_both.
Qed.

Lemma len_app {A} (l : list A) x : len (l ++ [x]) = len l + 1.
Proof. unfold len. rewrite length_app. simpl. lia. Qed.

(** Pushing one row of a family keeps the state rebuilt. *)
Ltac solve_index :=
  first
    [ rewrite record_binding_slots | rewrite record_binding_children
    | rewrite record_tombstone_map | rewrite record_layout_map | rewrite record_receipt_map
    | match goal with |- ?proj (?rec ?ix ?r) = _ =>
        replace (proj (rec ix r)) with (proj ix) by (symmetry; open_record) end
    | idtac ];
  cbn [record_inode ix_inode_by_id];
  rewrite ?rebuild_inodes, ?rebuild_slots, ?rebuild_children, ?rebuild_tombstones,
    ?rebuild_layouts, ?rebuild_receipts;
  cbn [ms_inodes ms_direntry_binds ms_revisions ms_subtree_tombstones ms_commit_receipts ms_commits
       ms_content_layouts ms_attributes_revisions ms_access_revisions];
  rewrite ?filter_app, ?filter_cons, ?filter_nil, ?foldl_app; try done; try (by case_decide).

Lemma record_seq_max {R} (f : MetadataIndexes → R → MetadataIndexes) (seq : R → ChangeSeq) ix r m :
  (∀ ix r, ix_indexed_seq (f ix r) = N.max (ix_indexed_seq ix) (seq r)) →
  ix_indexed_seq ix = m → ix_indexed_seq (f ix r) = N.max m (seq r).
Proof. intros Hf <-. apply Hf. Qed.

Ltac push_rebuilt record seq r record_accounted :=
  let Hc := fresh in let Hh := fresh in let Hi := fresh in
  intros (Hc & Hh & Hi); split_and!;
  [ cbn [ms_row_count]; rewrite Hc, !row_count_min; rewrite sat_min_l; simpl;
    rewrite len_app; f_equal; lia
  | cbn [ms_row_heap_bytes]; rewrite Hh, !row_heap_bytes_min; rewrite sat_min_l; simpl;
    rewrite heap_sum_app; f_equal; lia
  | cbn [ms_indexes]; rewrite Hi; apply indexes_eq;
    [ record_accounted; apply accounted_rebuild
    | apply accounted_rebuild
    | rewrite (record_seq_max record seq _ r _ ltac:(intros; open_record) (rebuild_indexed_seq _)),
        rebuild_indexed_seq; simpl; rewrite max_seq_app, !N.max_assoc;
      repeat rewrite (N_max_shuffle _ (seq r)); done
    | solve_index .. ] ].

Lemma push_inode_rebuilt st r : rebuilt st → rebuilt (push_inode_record st r).
Proof.
  unfold push_inode_record.
  push_rebuilt record_inode ir_committed_seq r ltac:(apply accounted_inode).
Qed.

Lemma push_binding_rebuilt st r : rebuilt st → rebuilt (push_direntry_binding_record st r).
Proof.
  unfold push_direntry_binding_record.
  push_rebuilt record_binding db_committed_seq r ltac:(apply accounted_binding).
Qed.

Lemma push_revision_rebuilt st r : rebuilt st → rebuilt (push_revision_record st r).
Proof.
  unfold push_revision_record. push_rebuilt record_revision rr_committed_seq r ltac:(idtac).
Qed.

Lemma push_tombstone_rebuilt st r : rebuilt st → rebuilt (push_subtree_tombstone_record st r).
Proof.
  unfold push_subtree_tombstone_record.
  push_rebuilt record_tombstone tb_committed_seq r ltac:(apply accounted_tombstone).
Qed.

Lemma push_receipt_rebuilt st r : rebuilt st → rebuilt (push_commit_receipt_record st r).
Proof.
  unfold push_commit_receipt_record.
  push_rebuilt record_commit_receipt rc_committed_seq r ltac:(apply accounted_receipt).
Qed.

Lemma push_layout_rebuilt st r : rebuilt st → rebuilt (push_content_layout_record st r).
Proof.
  unfold push_content_layout_record.
  push_rebuilt record_content_layout lr_committed_seq r ltac:(apply accounted_layout).
Qed.

Lemma push_attributes_rebuilt st r : rebuilt st → rebuilt (push_attributes_revision_record st r).
Proof.
  unfold push_attributes_revision_record.
  push_rebuilt record_attributes_revision at_committed_seq r ltac:(idtac).
Qed.

Lemma push_access_rebuilt st r : rebuilt st → rebuilt (push_access_revision_record st r).
Proof.
  unfold push_access_revision_record.
  push_rebuilt record_access_revision ac_committed_seq r ltac:(idtac).
Qed.

Lemma push_commit_rebuilt st r : rebuilt st → rebuilt (push_commit_record st r).
Proof.
  unfold push_commit_record. intros (Hc & Hh & Hi). split_and!.
  - cbn [ms_row_count]. rewrite Hc, !row_count_min, sat_min_l. simpl. rewrite len_app. f_equal. lia.
  - cbn [ms_row_heap_bytes]. rewrite Hh, !row_heap_bytes_min, sat_min_l. simpl.
    rewrite heap_sum_app. f_equal. lia.
  - cbn [ms_indexes]. by rewrite Hi.
Qed.

#[local] Hint Resolve push_inode_rebuilt push_binding_rebuilt push_revision_rebuilt
  push_tombstone_rebuilt push_receipt_rebuilt push_layout_rebuilt push_attributes_rebuilt
  push_access_rebuilt push_commit_rebuilt : loon.

Lemma apply_delta_rebuilt st seq id actor ms delta :
  rebuilt st → rebuilt (apply_committed_wal_delta_mut st seq id actor ms delta).
Proof.
  intros Hst. destruct delta; cbn [apply_committed_wal_delta_mut]; auto with loon.
  destruct layout; auto with loon.
Qed.

Lemma foldl_rebuilt {R} (f : MetadataState → R → MetadataState) st l :
  (∀ st r, rebuilt st → rebuilt (f st r)) → rebuilt st → rebuilt (foldl f st l).
Proof. intros Hf. revert st. induction l; simpl; auto. Qed.

Lemma apply_record_rebuilt st record :
  rebuilt st → rebuilt (apply_committed_wal_record_mut st record).
Proof.
  intros Hst. unfold apply_committed_wal_record_mut. cbv zeta.
  apply push_receipt_rebuilt, push_commit_rebuilt, foldl_rebuilt; [|done].
  intros. by apply apply_delta_rebuilt.
Qed.

Lemma apply_deltas_rebuilt st seq id actor ms deltas :
  rebuilt st → rebuilt (apply_committed_wal_deltas st seq id actor ms deltas).
Proof. intros Hst. apply foldl_rebuilt; [|done]. intros. by apply apply_delta_rebuilt. Qed.

(** C11 The incremental bookkeeping is a cache of the rows.  After replaying
    any sequence of WAL commits, the state equals the one rebuilt from its
    rows alone: every at-head index, the sequence watermark, the row count
    and the heap totals, saturation included; and the heap the indexes
    charge is exactly what their keys and records own, so the accounting
    never subtracts below zero. *)
Theorem replay_is_rebuild (commits : list WalCommitPayload) :
  let state := foldl apply_committed_wal_record_mut MetadataState_default commits in
  state = from_rows state.(ms_inodes) state.(ms_direntry_binds) state.(ms_revisions)
    state.(ms_subtree_tombstones) state.(ms_commit_receipts) state.(ms_commits)
    state.(ms_attributes_revisions) state.(ms_content_layouts) state.(ms_access_revisions) ∧
  state.(ms_indexes).(ix_owned_heap_bytes) = index_weight state.(ms_indexes).
Proof.
  cbv zeta. set (state := foldl _ _ _).
  assert (rebuilt state) as Hst.
  { apply foldl_rebuilt; [intros; by apply apply_record_rebuilt|apply default_rebuilt]. }
  split.
  - rewrite (rebuilt_eq state Hst) at 1. done.
  - destruct Hst as (_ & _ & ->). apply accounted_rebuild.
Qed.
End incremental.
