(* ===== verification/SegmentRows.v ===== *)
(** * Metadata rows in key order

    [loonfs-core/src/segment/row.rs]: the rows that a metadata state stores in
    each family, in the order in which a segment takes them. *)
From S2P Require Import Prelude Types Codec Records RowKeys MetadataState SegmentLoad.
Local Open Scope N_scope.

(** ** Sorting by a key *)

(** The keys of the elements. A key function that panics panics the sort. *)
Fixpoint with_keys {A} (key : A → res Empty_set string) (l : list A) : res Empty_set (list (string * A)) :=
  match l with
  | [] => Ok []
  | a :: l => k ← key a; keyed ← with_keys key l; Ok ((k, a) :: keyed)
  end.
Definition by_key {A} (a b : string * A) : comparison := cmp a.1 b.1.

(** [slice::sort_by_key], which takes the keys of two or more elements only. *)
Definition sort_by_key {A} (key : A → res Empty_set string) (l : list A) : res Empty_set (list A) :=
  match l with
  | [] | [_] => Ok l
  | _ => keyed ← with_keys key l; Ok (sort_by by_key keyed).*2
  end.

(** [Vec::dedup_by_key]: an element goes when its key is that of the kept
    element before it. *)
Fixpoint dedup_from {A} (last_key : string) (l : list (string * A)) : list (string * A) :=
  match l with
  | [] => []
  | x :: l => if decide (x.1 = last_key) then dedup_from last_key l else x :: dedup_from x.1 l
  end.
Definition dedup_keyed {A} (l : list (string * A)) : list (string * A) :=
  match l with
  | [] => []
  | x :: l => x :: dedup_from x.1 l
  end.
Definition dedup_by_key {A} (key : A → res Empty_set string) (l : list A) : res Empty_set (list A) :=
  match l with
  | [] | [_] => Ok l
  | _ => keyed ← with_keys key l; Ok (dedup_keyed keyed).*2
  end.

(** ** The rows of a family *)

(** The [match] of [manifest_rows_for_family]. *)
Definition unsorted_rows (metadata_state : MetadataState) (family : MetadataRowFamily) : list MetadataRow :=
  match family with
  | FamInodes => RowInode <$> metadata_state.(ms_inodes)
  | FamDirentryBinds => RowDirentryBinding <$> metadata_state.(ms_direntry_binds)
  | FamDirentryChildBinds =>
      RowDirentryBinding <$> filter (λ binding, is_binding_event binding = true) metadata_state.(ms_direntry_binds)
  | FamRevisions => RowFileRevision <$> metadata_state.(ms_revisions)
  | FamTombstones => RowTombstone <$> metadata_state.(ms_subtree_tombstones)
  | FamActiveDeletions =>
      RowActiveDeletion <$> (active_deletion_from_tombstone <$> metadata_state.(ms_subtree_tombstones))
  | FamContentLayouts => RowContentLayout <$> metadata_state.(ms_content_layouts)
  | FamCommitReceipts => RowCommitReceipt <$> metadata_state.(ms_commit_receipts)
  | FamCommits => RowCommit <$> metadata_state.(ms_commits)
  | FamMerges => RowMerge <$> omap merge_index_from_commit metadata_state.(ms_commits)
  | FamAttributes => RowAttributesRevision <$> metadata_state.(ms_attributes_revisions)
  | FamAccess => RowAccessRevision <$> metadata_state.(ms_access_revisions)
  end.

Definition manifest_rows_for_family (metadata_state : MetadataState) (family : MetadataRowFamily)
    : res Empty_set (list MetadataRow) :=
  rows ← sort_by_key (λ row, row_key_for_family row family) (unsorted_rows metadata_state family);
  if bool_decide (family = FamContentLayouts) then dedup_by_key (λ row, row_key_for_family row family) rows
  else Ok rows.

Definition manifest_rows_for_family_after_seq (metadata_state : MetadataState) (family : MetadataRowFamily)
    (after_seq : ChangeSeq) : res Empty_set (list MetadataRow) :=
  rows ← manifest_rows_for_family metadata_state family;
  Ok (filter (λ row, after_seq < manifest_row_commit_seq row) rows).

(** [layouts] is the map in its iteration order. *)
Definition replaced_layout (layouts : list (ContentId * ContentLayoutRecord)) (row : MetadataRow) : bool :=
  match row with
  | RowContentLayout record => bool_decide (record.(lr_content_id) ∈ layouts.*1)
  | _ => false
  end.
Definition with_layouts (family : MetadataRowFamily) (rows : list MetadataRow)
    (layouts : list (ContentId * ContentLayoutRecord)) : res Empty_set (list MetadataRow) :=
  if bool_decide (family = FamContentLayouts) then
    sort_by_key row_key (filter (λ row, replaced_layout layouts row = false) rows ++ (RowContentLayout <$> layouts.*2))
  else Ok rows.

(** ** Facts *)

(** Rows with their keys in a family. *)
Definition keyed_rows (family : MetadataRowFamily) (rows : list MetadataRow) (keyed : list (string * MetadataRow)) : Prop :=
  with_keys (λ row, row_key_for_family row family) rows = Ok keyed.
(** The rows are in key order. *)
Definition in_key_order (family : MetadataRowFamily) (rows : list MetadataRow) : Prop :=
  ∃ keyed, keyed_rows family rows keyed ∧ StronglySorted kle keyed.*1.

Section sorting.
Context {A : Type} (key : A → res Empty_set string).
Implicit Types (l : list A) (keyed : list (string * A)).

Lemma with_keys_Ok l keyed : with_keys key l = Ok keyed ↔ keyed.*2 = l ∧ Forall (λ x, key x.2 = Ok x.1) keyed.
Proof.
  revert keyed. induction l as [|a l IH]; intros keyed; cbn; split.
  - by intros [= <-].
  - intros [E _]. by destruct keyed.
  - intros Hk. step_ok Hk k Ek. step_ok Hk ks Eks. injection Hk as <-. apply IH in Eks as [<- Hall]. by split; [|constructor].
  - intros [E Hall]. destruct keyed as [|[k b] keyed]; [done|]. cbn in E. injection E as -> E.
    apply Forall_cons in Hall as [Hk Hall]. cbn in Hk. rewrite Hk. cbn. by rewrite (proj2 (IH keyed) (conj E Hall)).
Qed.

Lemma with_keys_app l l' : with_keys key (l ++ l') = (k ← with_keys key l; k' ← with_keys key l'; Ok (k ++ k')).
Proof.
  induction l as [|a l IH]; cbn; [by destruct (with_keys key l')|]. rewrite IH. destruct (key a); [|done..]. cbn.
  destruct (with_keys key l); [|done..]. cbn. by destruct (with_keys key l').
Qed.

Lemma with_keys_perm l l' keyed :
  l ≡ₚ l' → with_keys key l = Ok keyed → ∃ keyed', with_keys key l' = Ok keyed' ∧ keyed ≡ₚ keyed'.
Proof.
  intros Hl [E Hall]%with_keys_Ok. rewrite <-E in Hl. symmetry in Hl.
  destruct (Permutation_map_inv snd keyed Hl) as (keyed' & -> & Hp). exists keyed'. split; [|done].
  apply with_keys_Ok. split; [done|]. by rewrite <-Hp.
Qed.

Lemma with_keys_returns l : (∀ a, a ∈ l → ∃ k, key a = Ok k) → ∃ keyed, with_keys key l = Ok keyed.
Proof.
  induction l as [|a l IH]; intros Hl; cbn; [by eexists|]. destruct (Hl a ltac:(by left)) as [k ->]. cbn.
  destruct IH as [keyed ->]; [intros b Hb; apply Hl; by right|]. by eexists.
Qed.

Lemma by_key_sorted keyed : StronglySorted kle (sort_by by_key keyed).*1.
Proof.
  assert (StronglySorted (not_after by_key) (sort_by by_key keyed)) as Hs.
  { apply sort_by_sorted.
    - intros a b Hgt. unfold not_after, by_key in *. destruct (kle_total a.1 b.1); [done|done].
    - intros a b d. unfold not_after, by_key. apply kle_trans. }
  induction Hs as [|x l _ IH Hall]; cbn; constructor; [done|]. apply Forall_fmap. eapply Forall_impl; [exact Hall|done].
Qed.

Lemma sort_by_key_Ok l sorted :
  (∀ a, a ∈ l → ∃ k, key a = Ok k) → sort_by_key key l = Ok sorted →
  sorted ≡ₚ l ∧ ∃ keyed, with_keys key sorted = Ok keyed ∧ StronglySorted kle keyed.*1.
Proof.
  intros Hl. destruct (with_keys_returns l Hl) as [keyed Hk]. unfold sort_by_key.
  destruct l as [|a [|b l]]; [intros [= <-]..|].
  - split; [done|]. exists []. split; [done|constructor].
  - split; [done|]. exists keyed. split; [done|]. apply with_keys_Ok in Hk as [Hk _]. destruct keyed as [|? [|??]]; try done. repeat constructor.
  - rewrite Hk. intros [= <-]. apply with_keys_Ok in Hk as [<- Hall]. split; [by rewrite sort_by_perm|].
    exists (sort_by by_key keyed). split; [|apply by_key_sorted]. apply with_keys_Ok. split; [done|]. by rewrite sort_by_perm.
Qed.
End sorting.

Lemma dedup_from_sublist {A} last_key (l : list (string * A)) : sublist (dedup_from last_key l) l.
Proof.
  revert last_key. induction l as [|x l IH]; intros last_key; cbn; [done|]. case_decide; [by constructor|]. by apply sublist_skip.
Qed.
Lemma dedup_sublist {A} (l : list (string * A)) : sublist (dedup_keyed l) l.
Proof. destruct l as [|x l]; [done|]. cbn. apply sublist_skip, dedup_from_sublist. Qed.

(** In key order, what is left has every key once. *)
Lemma dedup_from_ascending {A} x (l : list (string * A)) :
  StronglySorted kle (x :: l).*1 → ascending (x :: dedup_from x.1 l).
Proof.
  revert x. induction l as [|y l IH]; intros x Hs; cbn [dedup_from]; [repeat constructor|].
  cbn in Hs. apply StronglySorted_inv in Hs as [Hs Hx]. apply Forall_cons in Hx as [Hxy Hx]. case_decide as E.
  - apply IH. cbn. constructor; [by apply StronglySorted_inv in Hs as [? _]|done].
  - specialize (IH y Hs). assert (cmp x.1 y.1 = Lt) as Hlt.
    { destruct (cmp x.1 y.1) eqn:Ec; [by apply cmp_eq in Ec|done|done]. }
    constructor; [done|]. constructor; [done|]. apply StronglySorted_inv in IH as [_ Hy].
    eapply Forall_impl; [exact Hy|]. intros z Hz. by eapply cmp_lt_trans.
Qed.
Lemma dedup_keyed_ascending {A} (l : list (string * A)) : StronglySorted kle l.*1 → ascending (dedup_keyed l).
Proof. destruct l as [|x l]; [constructor|]. apply dedup_from_ascending. Qed.

Lemma dedup_from_keys {A} k last_key (l : list (string * A)) :
  k ∈ l.*1 → k = last_key ∨ k ∈ (dedup_from last_key l).*1.
Proof.
  revert last_key. induction l as [|x l IH]; intros last_key; cbn; [by intros ?%elem_of_nil|].
  intros [->|Hk]%elem_of_cons.
  - case_decide; [by left|]. right. by left.
  - case_decide as E; [by apply IH|]. right. cbn. apply elem_of_cons. by apply IH.
Qed.
Lemma dedup_keyed_keys {A} k (l : list (string * A)) : k ∈ (dedup_keyed l).*1 ↔ k ∈ l.*1.
Proof.
  split.
  - intros (x & -> & Hx)%list_elem_of_fmap. apply list_elem_of_fmap. exists x. split; [done|].
    by eapply elem_of_sublist, dedup_sublist.
  - destruct l as [|x l]; [done|]. cbn. intros [->|Hk]%elem_of_cons; [by left|].
    apply elem_of_cons. by apply dedup_from_keys.
Qed.

Lemma unsorted_stored metadata_state family row :
  row ∈ unsorted_rows metadata_state family → stored_in family row.
Proof.
  destruct family; cbn; intros Hr; repeat (apply list_elem_of_fmap in Hr as (? & -> & Hr)); by (left + right).
Qed.

(** The rows of a state fit the keys. *)
Definition rows_wf (metadata_state : MetadataState) (family : MetadataRowFamily) : Prop :=
  Forall row_wf (unsorted_rows metadata_state family).

Lemma rows_have_keys family (rows : list MetadataRow) :
  (∀ row, row ∈ rows → row_wf row ∧ stored_in family row) →
  ∀ row, row ∈ rows → ∃ k, row_key_for_family row family = Ok k.
Proof. intros Hrows row Hr. destruct (Hrows row Hr). by apply row_key_for_family_Ok. Qed.

Lemma manifest_rows_sorted metadata_state family :
  rows_wf metadata_state family →
  ∃ sorted, sort_by_key (λ row, row_key_for_family row family) (unsorted_rows metadata_state family) = Ok sorted.
Proof.
  intros Hwf. unfold sort_by_key. destruct (unsorted_rows metadata_state family) as [|a [|b l]] eqn:E; [by eexists..|].
  destruct (with_keys_returns (λ row, row_key_for_family row family) (a :: b :: l)) as [keyed ->]; [|by eexists].
  rewrite <-E. apply rows_have_keys. intros row Hr. split; [|by eapply unsorted_stored]. unfold rows_wf in Hwf.
  rewrite Forall_forall in Hwf. by apply Hwf.
Qed.

(** The listing of a family: its rows in key order, and for content layouts
    one row of every key. *)
Definition lists_rows (metadata_state : MetadataState) (family : MetadataRowFamily) (keyed : list (string * MetadataRow)) : Prop :=
  Forall (λ x, row_key_for_family x.2 family = Ok x.1 ∧ x.2 ∈ unsorted_rows metadata_state family) keyed ∧
  if decide (family = FamContentLayouts) then
    ascending keyed ∧
    ∀ row k, row ∈ unsorted_rows metadata_state family → row_key_for_family row family = Ok k → k ∈ keyed.*1
  else StronglySorted kle keyed.*1 ∧ keyed.*2 ≡ₚ unsorted_rows metadata_state family.

Lemma dedup_by_key_Ok {A} (key : A → res Empty_set string) l keyed :
  with_keys key l = Ok keyed → dedup_by_key key l = Ok (dedup_keyed keyed).*2.
Proof.
  intros Hk. unfold dedup_by_key. destruct l as [|a [|b l]]; [..|by rewrite Hk]; apply with_keys_Ok in Hk as [E _].
  - by destruct keyed.
  - destruct keyed as [|x [|??]]; try done. cbn in E |- *. by injection E as ->.
Qed.

Lemma manifest_rows_exact metadata_state family :
  rows_wf metadata_state family →
  ∃ keyed, manifest_rows_for_family metadata_state family = Ok keyed.*2 ∧ lists_rows metadata_state family keyed.
Proof.
  intros Hwf. destruct (manifest_rows_sorted metadata_state family Hwf) as [sorted Hsort].
  unfold manifest_rows_for_family. rewrite Hsort. cbn [mbind res_bind].
  apply sort_by_key_Ok in Hsort as (Hperm & keyed & Hk & Hs).
  2: { apply rows_have_keys. intros row Hr. split; [|by eapply unsorted_stored]. unfold rows_wf in Hwf.
       rewrite Forall_forall in Hwf. by apply Hwf. }
  pose proof (proj1 (with_keys_Ok _ _ _) Hk) as [E Hall].
  assert (Forall (λ x, row_key_for_family x.2 family = Ok x.1 ∧ x.2 ∈ unsorted_rows metadata_state family) keyed) as Hkeyed.
  { rewrite Forall_forall in Hall |- *. intros x Hx. split; [by apply Hall|]. rewrite <-Hperm, <-E. apply list_elem_of_fmap. by exists x. }
  case_bool_decide as Hf.
  - exists (dedup_keyed keyed). split; [by apply dedup_by_key_Ok|]. split.
    { rewrite Forall_forall in Hkeyed |- *. intros x Hx. apply Hkeyed. by eapply elem_of_sublist, dedup_sublist. }
    rewrite decide_True by done. split; [by apply dedup_keyed_ascending|]. intros row k Hr Ek. apply dedup_keyed_keys.
    rewrite <-Hperm, <-E in Hr. apply list_elem_of_fmap in Hr as (x & -> & Hx). apply list_elem_of_fmap. exists x.
    rewrite Forall_forall in Hall. specialize (Hall x Hx). cbn in Hall. rewrite Hall in Ek. by injection Ek.
  - exists keyed. split; [by rewrite E|]. split; [done|]. rewrite decide_False by done. split; [done|]. by rewrite E.
Qed.

(** *** Rows with distinct keys *)
Lemma dedup_from_ascending_id {A} x (l : list (string * A)) : ascending (x :: l) → dedup_from x.1 l = l.
Proof.
  revert x. induction l as [|y l IH]; intros x Hasc; [done|]. cbn. apply StronglySorted_inv in Hasc as [Hasc Hx].
  apply Forall_cons in Hx as [Hxy _]. rewrite decide_False; [by rewrite IH|]. intros E. rewrite E in Hxy. by apply cmp_lt_ne in Hxy.
Qed.
Lemma dedup_keyed_ascending_id {A} (l : list (string * A)) : ascending l → dedup_keyed l = l.
Proof. destruct l as [|x l]; [done|]. intros Hasc. cbn. by rewrite dedup_from_ascending_id. Qed.

(** Rows with distinct keys are listed in the order of their keys. *)
Lemma sort_by_key_unique {A} (key : A → res Empty_set string) l keyed :
  ascending keyed → Forall (λ x, key x.2 = Ok x.1) keyed → keyed.*2 ≡ₚ l → sort_by_key key l = Ok keyed.*2.
Proof.
  intros Hasc Hkeys Hperm.
  assert (with_keys key keyed.*2 = Ok keyed) as Hk by by apply with_keys_Ok.
  destruct (with_keys_perm key _ _ _ Hperm Hk) as (keyed' & Hk' & Hp).
  assert (sort_by by_key keyed' = keyed) as E.
  { apply ascending_perm; [|done|by rewrite sort_by_perm]. apply sorted_ascending; [apply by_key_sorted|].
    rewrite sort_by_perm, <-Hp. apply NoDup_fmap_2_strong; [|by apply ascending_NoDup].
    intros x y Hx Hy. by apply (ascending_key_inj keyed). }
  unfold sort_by_key. destruct l as [|a [|b l]]; [..|rewrite Hk'; cbn; by rewrite E].
  - symmetry in Hperm. apply Permutation_nil in Hperm. by rewrite Hperm.
  - symmetry in Hperm. apply Permutation_singleton_l in Hperm. by rewrite Hperm.
Qed.

Lemma manifest_rows_unique metadata_state family keyed :
  ascending keyed → Forall (λ x, row_key_for_family x.2 family = Ok x.1) keyed →
  keyed.*2 ≡ₚ unsorted_rows metadata_state family → manifest_rows_for_family metadata_state family = Ok keyed.*2.
Proof.
  intros Hasc Hkeys Hperm. unfold manifest_rows_for_family.
  rewrite (sort_by_key_unique _ _ keyed) by done. cbn [mbind res_bind]. case_bool_decide; [|done].
  rewrite (dedup_by_key_Ok _ _ keyed); [by rewrite dedup_keyed_ascending_id|]. by apply with_keys_Ok.
Qed.
