(* ===== verification/Visibility.v ===== *)
(** * Visibility rules

    [loonfs-core/src/metadata/visibility.rs]: the storage lookups a view
    offers ([MetadataVisibilityReads]) and the rules composed from them: the
    ancestor walk with its cycle check, tombstone coverage, the directory
    cycle check, visible inodes and children, and path resolution.

    A rule takes the trait methods it calls as arguments, so that the
    trait's provided methods can be the rules themselves; the class
    [MetadataVisibilityReads] bundles the methods of one implementor and
    [VisibilityLaws] states the trait's contract.  The source's methods take
    [&mut self] only to fill caches, which change no answer; a lookup that
    fails returns [Err].  A walk runs on [walk_fuel] steps, and the contract
    says why they are enough. *)
From S2P Require Import Prelude Types Records Paths.
Local Open Scope N_scope.

Inductive VisiblePathError : Set :=
| RootMissing
| ParentBindingCycle (inode_id : InodeId)
| PathNotFound (absolute_path : string)
| PathComponentNotDirectory (absolute_path : string) (inode_id : InodeId) (inode_kind : InodeKind).
#[export] Instance VisiblePathError_eq_dec : EqDecision VisiblePathError.
Proof. solve_decision. Defined.

(** The error codes of [loonfs-types] that the modelled errors use. *)
Inductive ErrorCode : Set :=
| NamespaceCorrupt | CodePathNotFound | PathConflict | StaleRevision | CodeRevisionNotFound
| StaleAttributes | StaleAccess | CodeDirectoryNotEmpty | NotDeleted | WouldCycle | ServerError
| StoragePermissionDenied.

(** [VisiblePathError::code]. *)
Definition visible_path_error_code (e : VisiblePathError) : ErrorCode :=
  match e with
  | RootMissing | ParentBindingCycle _ => NamespaceCorrupt
  | PathNotFound _ => CodePathNotFound
  | PathComponentNotDirectory _ _ _ => PathConflict
  end.

Record ResolvedVisiblePath := mkResolvedVisiblePath {
  rp_absolute_path : AbsolutePath;
  rp_inode_id : InodeId;
  rp_inode_kind : InodeKind;
  rp_created_by : ActorId;
  rp_created_at_ms : N;
  rp_parent_inode_id : option InodeId;
  rp_display_name : string;
  rp_binding_version : option DeltaPosition;
}.
#[export] Instance ResolvedVisiblePath_eq_dec : EqDecision ResolvedVisiblePath.
Proof. solve_decision. Defined.

(** [VisiblePathError: Into<R::Error>]. *)
Class FromVisiblePathError (E : Type) := from_visible_path_error : VisiblePathError → E.
#[export] Instance VisiblePathError_from_self : FromVisiblePathError VisiblePathError := λ e, e.

(** ** The ancestor walk *)
Inductive NextAncestor : Set :=
| NextInode (inode_id : InodeId)
| NextParentOf (inode_id : InodeId).

Record AncestorWalk := mkAncestorWalk {
  aw_next : option NextAncestor;
  aw_seen : gset InodeId;
  aw_followed : option DirentryBindingRecord;
}.

Definition AncestorWalk_new (inode_id : InodeId) : AncestorWalk :=
  {| aw_next := Some (NextInode inode_id); aw_seen := ∅; aw_followed := None |}.

Definition continue_at (walk : AncestorWalk) (inode_id : InodeId) : AncestorWalk :=
  {| aw_next := Some (NextInode inode_id); aw_seen := walk.(aw_seen);
     aw_followed := walk.(aw_followed) |}.

Definition take_followed_binding (walk : AncestorWalk)
    : option DirentryBindingRecord * AncestorWalk :=
  (walk.(aw_followed),
   {| aw_next := walk.(aw_next); aw_seen := walk.(aw_seen); aw_followed := None |}).

Section rules.
Context {E : Type} `{FromVisiblePathError E}.

(** The trait's methods. *)
Context (find_inode : InodeId → res E (option InodeRecord))
  (find_latest_slot_binding : InodeId → NameKey → res E (option DirentryBindingRecord))
  (find_latest_parent_binding_for_child : InodeId → res E (option DirentryBindingRecord))
  (find_hiding_subtree_tombstone : InodeId → res E (option SubtreeTombstoneRecord))
  (retention_floor_seq : ChangeSeq)
  (reads_current_parent_binding_for_child : InodeId → res E (option DirentryBindingRecord))
  (reads_active_child_binding : InodeId → NameKey → res E (option DirentryBindingRecord))
  (reads_covering_subtree_tombstone : InodeId → res E (option SubtreeTombstoneRecord))
  (reads_visible_inode : InodeId → res E (option InodeRecord)).

Definition current_parent_binding_for_child (child_inode_id : InodeId)
    : res E (option DirentryBindingRecord) :=
  if decide (child_inode_id = ROOT_INODE_ID) then Ok None
  else
    found ← find_latest_parent_binding_for_child child_inode_id;
    match found with
    | None => Ok None
    | Some direntry => if negb (is_bound direntry) then Ok None else Ok (Some direntry)
    end.

Definition active_child_binding (parent_inode_id : InodeId) (name_key : NameKey)
    : res E (option DirentryBindingRecord) :=
  found ← find_latest_slot_binding parent_inode_id name_key;
  match found with
  | None => Ok None
  | Some direntry => if negb (is_bound direntry) then Ok None else Ok (Some direntry)
  end.

(** The end of [AncestorWalk::next]: the walk may not see an inode twice. *)
Definition visit (walk : AncestorWalk) (followed : option DirentryBindingRecord)
    (inode_id : InodeId) : res E (option InodeId * AncestorWalk) :=
  if decide (inode_id ∈ walk.(aw_seen)) then
    Err (from_visible_path_error (ParentBindingCycle inode_id))
  else
    Ok (Some inode_id,
        {| aw_next := Some (NextParentOf inode_id);
           aw_seen := {[ inode_id ]} ∪ walk.(aw_seen);
           aw_followed := followed |}).

Definition walk_next (walk : AncestorWalk) : res E (option InodeId * AncestorWalk) :=
  match walk.(aw_next) with
  | None => Ok (None, walk)
  | Some (NextInode inode_id) => visit walk None inode_id
  | Some (NextParentOf child_inode_id) =>
      found ← reads_current_parent_binding_for_child child_inode_id;
      match found with
      | None =>
          Ok (None, {| aw_next := None; aw_seen := walk.(aw_seen); aw_followed := None |})
      | Some binding => visit walk (Some binding) binding.(db_parent_inode_id)
      end
  end.

(** [while let Some(ancestor) = walk.next(reads)? { .. }], where the body
    returns a result or continues, and the function returns [otherwise]
    after the walk ends. *)
Fixpoint walk_while {X : Type} (fuel : nat) (body : InodeId → res E (option X)) (otherwise : X)
    (walk : AncestorWalk) : res E X :=
  match fuel with
  | O => OutOfFuel
  | S fuel =>
      '(next, walk) ← walk_next walk;
      match next with
      | None => Ok otherwise
      | Some ancestor =>
          stop ← body ancestor;
          match stop with
          | Some x => Ok x
          | None => walk_while fuel body otherwise walk
          end
      end
  end.

Definition covering_subtree_tombstone (fuel : nat) (inode_id : InodeId)
    : res E (option SubtreeTombstoneRecord) :=
  walk_while fuel
    (λ ancestor,
      found ← find_hiding_subtree_tombstone ancestor;
      match found with Some tombstone => Ok (Some (Some tombstone)) | None => Ok None end)
    None (AncestorWalk_new inode_id).

Definition ancestry_allows_read (fuel : nat) (inode_id : InodeId) : res E bool :=
  walk_while fuel
    (λ ancestor,
      if decide (ancestor = ROOT_INODE_ID) then Ok (Some true)
      else
        found ← find_hiding_subtree_tombstone ancestor;
        match found with
        | Some tombstone =>
            Ok (Some (bool_decide (retention_floor_seq < tombstone.(tb_committed_seq))))
        | None => Ok None
        end)
    false (AncestorWalk_new inode_id).

Definition would_create_directory_cycle (fuel : nat) (inode_id new_parent_inode_id : InodeId)
    : res E bool :=
  walk_while fuel
    (λ ancestor, if decide (ancestor = inode_id) then Ok (Some true) else Ok None)
    false (AncestorWalk_new new_parent_inode_id).

Definition visible_inode (inode_id : InodeId) : res E (option InodeRecord) :=
  found ← find_inode inode_id;
  match found with
  | None => Ok None
  | Some inode =>
      covered ← reads_covering_subtree_tombstone inode_id;
      match covered with Some _ => Ok None | None => Ok (Some inode) end
  end.

Definition visible_child (parent_inode_id : InodeId) (name_key : NameKey)
    : res E (option DirentryBindingRecord) :=
  found ← reads_visible_inode parent_inode_id;
  match found with
  | None => Ok None
  | Some parent =>
      if decide (parent.(ir_inode_kind) ≠ Directory) then Ok None
      else
        bound ← reads_active_child_binding parent_inode_id name_key;
        match bound with
        | None => Ok None
        | Some direntry =>
            child ← reads_visible_inode direntry.(db_child_inode_id);
            match child with None => Ok None | Some _ => Ok (Some direntry) end
        end
  end.

Definition visible_page_child (direntry : DirentryBindingRecord)
    : res E (option DirentryBindingRecord) :=
  if negb (is_bound direntry) then Ok None
  else
    covered ← reads_covering_subtree_tombstone direntry.(db_child_inode_id);
    match covered with Some _ => Ok None | None => Ok (Some direntry) end.

(** The loop of [resolve_visible_path] over the path's components. *)
Fixpoint resolve_components `{NamePolicy} (last : option DirentryBindingRecord)
    (current_absolute_path : AbsolutePath) (components : list string)
    : res E (option DirentryBindingRecord * AbsolutePath) :=
  match components with
  | [] => Ok (last, current_absolute_path)
  | component :: rest =>
      let '(parent_inode_id, parent_kind) :=
        match last with
        | None => (ROOT_INODE_ID, Directory)
        | Some binding => (binding.(db_child_inode_id), binding.(db_child_kind))
        end in
      if decide (parent_kind ≠ Directory) then
        Err (from_visible_path_error
          (PathComponentNotDirectory current_absolute_path.(path_normalized)
             parent_inode_id parent_kind))
      else
        let not_found :=
          PathNotFound (join current_absolute_path component).(path_normalized) in
        let name_key := for_display_name component in
        found ← reads_active_child_binding parent_inode_id name_key;
        direntry ← ok_or found (from_visible_path_error not_found);
        found ← visible_page_child direntry;
        direntry ← ok_or found (from_visible_path_error not_found);
        display_name ← expect (binding_display_name direntry);
        resolve_components (Some direntry) (join current_absolute_path display_name) rest
  end.

Definition resolve_visible_path `{NamePolicy} (absolute_path : AbsolutePath)
    : res E ResolvedVisiblePath :=
  if is_root absolute_path then
    found ← reads_visible_inode ROOT_INODE_ID;
    inode ← ok_or found (from_visible_path_error RootMissing);
    Ok {| rp_absolute_path := root; rp_inode_id := ROOT_INODE_ID;
          rp_inode_kind := inode.(ir_inode_kind); rp_created_by := inode.(ir_committed_by);
          rp_created_at_ms := inode.(ir_committed_at_ms); rp_parent_inode_id := None;
          rp_display_name := EmptyString; rp_binding_version := None |}
  else
    '(last, current_absolute_path) ← resolve_components None root absolute_path.(path_components);
    last ← expect last;
    display_name ← expect (binding_display_name last);
    Ok {| rp_absolute_path := current_absolute_path;
          rp_inode_id := last.(db_child_inode_id); rp_inode_kind := last.(db_child_kind);
          rp_created_by := last.(db_child_created_by);
          rp_created_at_ms := last.(db_child_created_at_ms);
          rp_parent_inode_id := Some last.(db_parent_inode_id);
          rp_display_name := display_name;
          rp_binding_version := Some last.(db_bind_position) |}.
End rules.

(** ** The trait *)
Class MetadataVisibilityReads (R E : Type) `{FromVisiblePathError E} := {
  retention_floor_seq : R → ChangeSeq;
  find_inode : R → InodeId → res E (option InodeRecord);
  find_latest_slot_binding : R → InodeId → NameKey → res E (option DirentryBindingRecord);
  find_latest_parent_binding_for_child : R → InodeId → res E (option DirentryBindingRecord);
  find_hiding_subtree_tombstone : R → InodeId → res E (option SubtreeTombstoneRecord);
  find_access_row : R → InodeId → res E (option AccessRevisionRecord);
  reads_current_parent_binding_for_child : R → InodeId → res E (option DirentryBindingRecord);
  reads_active_child_binding : R → InodeId → NameKey → res E (option DirentryBindingRecord);
  reads_covering_subtree_tombstone : R → InodeId → res E (option SubtreeTombstoneRecord);
  reads_visible_inode : R → InodeId → res E (option InodeRecord);
  walk_fuel : R → nat;
}.

(** The trait's contract: an overridden method answers as the rule does, and
    the walk's fuel exceeds the number of inodes that are some inode's
    current parent. *)
Class VisibilityLaws {R E : Type} `{MetadataVisibilityReads R E} (r : R) : Prop := {
  law_current_parent : ∀ child,
    reads_current_parent_binding_for_child r child
    = current_parent_binding_for_child (find_latest_parent_binding_for_child r) child;
  law_active_child : ∀ parent name_key,
    reads_active_child_binding r parent name_key
    = active_child_binding (find_latest_slot_binding r) parent name_key;
  law_covering : ∀ inode_id,
    reads_covering_subtree_tombstone r inode_id
    = covering_subtree_tombstone (find_hiding_subtree_tombstone r)
        (reads_current_parent_binding_for_child r) (walk_fuel r) inode_id;
  law_visible_inode : ∀ inode_id,
    reads_visible_inode r inode_id
    = visible_inode (find_inode r) (reads_covering_subtree_tombstone r) inode_id;
  law_walk_fuel : ∃ parents : list InodeId,
    (length parents + 1 < walk_fuel r)%nat ∧
    ∀ child binding, reads_current_parent_binding_for_child r child = Ok (Some binding) →
      binding.(db_parent_inode_id) ∈ parents;
}.

(** ** The walk terminates *)
Section termination.
Context {E : Type} `{FromVisiblePathError E} {X : Type}.
Context (current_parent : InodeId → res E (option DirentryBindingRecord)).
Context (body : InodeId → res E (option X)) (otherwise : X).
Implicit Types walk : AncestorWalk.

Context (Hparent : ∀ c, current_parent c ≠ OutOfFuel) (Hbody : ∀ a, body a ≠ OutOfFuel).

(** The inode the walk visits next lies in [U]. *)
Definition next_in (U : gset InodeId) walk : Prop :=
  match aw_next walk with
  | Some (NextInode i) => i ∈ U
  | _ => ∀ c b, current_parent c = Ok (Some b) → db_parent_inode_id b ∈ U
  end.

Lemma walk_while_returns (U : gset InodeId) fuel walk :
  (∀ c b, current_parent c = Ok (Some b) → db_parent_inode_id b ∈ U) →
  next_in U walk → (size (U ∖ aw_seen walk) < fuel)%nat →
  walk_while current_parent fuel body otherwise walk ≠ OutOfFuel.
Proof.
  intros HU. revert walk. induction fuel as [|fuel IH]; intros walk Hin Hsize; [lia|].
  assert (∀ followed a, a ∈ U →
    (visit (E:=E) walk followed a ≫= λ '(next, walk'),
      match next with
      | None => Ok otherwise
      | Some ancestor => body ancestor ≫= λ stop, match stop with
          | Some x => Ok x | None => walk_while current_parent fuel body otherwise walk' end
      end) ≠ OutOfFuel) as Hvisit.
  { intros followed a Ha. unfold visit. case_decide as Hseen; [done|]. cbn [mbind res_bind].
    specialize (Hbody a). destruct (body a) as [[x|]| | |]; try done. cbn [mbind res_bind].
    apply IH; [exact HU|]. cbn [aw_seen].
    assert (size (U ∖ ({[a]} ∪ aw_seen walk)) < size (U ∖ aw_seen walk))%nat; [|lia].
    apply subset_size. set_solver. }
  cbn [walk_while]. unfold walk_next. unfold next_in in Hin.
  destruct (aw_next walk) as [[i|c]|].
  - by apply Hvisit.
  - pose proof (Hparent c) as Hc. pose proof (HU c) as HUc.
    destruct (current_parent c) as [[b|]| | |]; try done. cbn [mbind res_bind].
    by apply Hvisit, HUc.
  - done.
Qed.
End termination.

(** ** What the walk computes

    [up] is the current parent of an inode.  The walk stops at the first
    inode, going up, that the body stops at. *)
Inductive climbs {X : Type} (up : InodeId → option InodeId) (stop : InodeId → option X)
    (otherwise : X) : nat → InodeId → X → Prop :=
| climbs_stop a x : stop a = Some x → climbs up stop otherwise 0 a x
| climbs_end a : stop a = None → up a = None → climbs up stop otherwise 0 a otherwise
| climbs_up n a p x :
    stop a = None → up a = Some p → climbs up stop otherwise n p x →
    climbs up stop otherwise (S n) a x.

Section climbing.
Context {E : Type} `{FromVisiblePathError E} {X : Type}.
Context (parent_of : InodeId → option DirentryBindingRecord) (stop : InodeId → option X).
Context (otherwise : X).
Let up a := db_parent_inode_id <$> parent_of a.
Let current_parent a : res E (option DirentryBindingRecord) := Ok (parent_of a).
Let body a : res E (option X) := Ok (stop a).

Lemma climbs_det n m a x y :
  climbs up stop otherwise n a x → climbs up stop otherwise m a y → n = m ∧ x = y.
Proof.
  intros Hn. revert m y. induction Hn as [a x Hs|a Hs Hu|n a p x Hs Hu Hn IH]; intros m y Hm;
    inversion Hm as [? ? Hs'|? Hs' Hu'|n' ? p' ? Hs' Hu' Hn']; subst; try congruence.
  - split; congruence.
  - done.
  - assert (p' = p) as -> by congruence. by apply IH in Hn' as [-> ->].
Qed.

(** The states the walk passes through after it returned [a]. *)
Lemma walk_while_climbs fuel a x walk :
  aw_next walk = Some (NextInode a) ∨
    (∃ c b, aw_next walk = Some (NextParentOf c) ∧ parent_of c = Some b ∧ db_parent_inode_id b = a) →
  walk_while current_parent fuel body otherwise walk = Ok x →
  ∃ n, climbs up stop otherwise n a x.
Proof.
  revert a walk. induction fuel as [|fuel IH]; intros a walk Hnext; [done|].
  assert (walk_next current_parent walk
    = match aw_next walk with Some (NextInode _) => visit walk None a
      | _ => visit walk (match aw_next walk with Some (NextParentOf c) => parent_of c | _ => None end) a
      end) as Hwn.
  { unfold walk_next. destruct Hnext as [->|(c & b & -> & Hb & <-)]; [done|].
    unfold current_parent. rewrite Hb. done. }
  cbn [walk_while]. rewrite Hwn.
  assert (∀ followed, (visit walk followed a ≫= λ '(next, walk'),
      match next with
      | None => Ok otherwise
      | Some ancestor => body ancestor ≫= λ stop, match stop with
          | Some x => Ok x | None => walk_while current_parent fuel body otherwise walk' end
      end) = Ok x → ∃ n, climbs up stop otherwise n a x) as Hgoal.
  { intros followed. unfold visit. case_decide; [done|]. cbn [mbind res_bind].
    change (body a) with (Ok (E:=E) (stop a)). cbn [mbind res_bind]. destruct (stop a) as [y|] eqn:Es.
    - intros [= ->]. exists 0%nat. by constructor.
    - destruct (parent_of a) as [b|] eqn:Ep.
      + intros Hw. edestruct IH as [n Hn]; [|exact Hw|]; [by right; eexists _, _|].
        exists (S n). eapply climbs_up; [done| |exact Hn]. unfold up. by rewrite Ep.
      + destruct fuel; [done|]. cbn [walk_while]. unfold walk_next, current_parent. cbn [aw_next].
        rewrite Ep. cbn [mbind res_bind]. intros [= <-]. exists 0%nat. apply climbs_end; [done|].
        unfold up. by rewrite Ep. }
  destruct (aw_next walk) as [[]|]; apply Hgoal.
Qed.

Lemma climbs_walk_while fuel n a x walk :
  aw_next walk = Some (NextInode a) ∨
    (∃ c b, aw_next walk = Some (NextParentOf c) ∧ parent_of c = Some b ∧ db_parent_inode_id b = a) →
  climbs up stop otherwise n a x →
  (∀ s, s ∈ aw_seen walk → ∃ m y, climbs up stop otherwise m s y ∧ (n < m)%nat) →
  (n + 1 < fuel)%nat →
  walk_while current_parent fuel body otherwise walk = Ok x.
Proof.
  revert a n walk. induction fuel as [|fuel IH]; intros a n walk Hnext Hc Hseen Hf; [lia|].
  assert (∃ followed, walk_next current_parent walk = visit walk followed a) as [followed Hwn].
  { unfold walk_next. destruct Hnext as [->|(c & b & -> & Hb & <-)]; [by eexists|].
    unfold current_parent. rewrite Hb. by eexists. }
  cbn [walk_while]. rewrite Hwn. unfold visit. rewrite decide_False.
  2: { intros (m & y & Hm & Hlt)%Hseen. destruct (climbs_det n m a x y); auto. lia. }
  cbn [mbind res_bind].
  change (body a) with (Ok (E:=E) (stop a)). cbn [mbind res_bind].
  inversion Hc as [? ? Hs|? Hs Hu|k ? p ? Hs Hu Hk]; simplify_eq.
  - by rewrite Hs.
  - rewrite Hs. destruct fuel; [lia|]. cbn [walk_while]. unfold walk_next, current_parent. cbn [aw_next].
    unfold up in Hu. destruct (parent_of a); [done|]. done.
  - rewrite Hs. unfold up in Hu. destruct (parent_of a) as [b|] eqn:Ep; [|done].
    injection Hu as Hu. eapply (IH p k); [right; by eexists _, _|done| |lia].
    cbn [aw_seen]. intros s [->%elem_of_singleton|(m & y & Hm & Hlt)%Hseen]%elem_of_union.
    + exists (S k), x. split; [done|lia].
    + exists m, y. split; [done|lia].
Qed.

(** With enough fuel, the walk's result is the climb's. *)
Lemma walk_while_spec fuel a x :
  (∀ n y, climbs up stop otherwise n a y → n + 1 < fuel)%nat →
  walk_while current_parent fuel body otherwise (AncestorWalk_new a) = Ok x ↔
  ∃ n, climbs up stop otherwise n a x.
Proof.
  intros Hfuel. split.
  - apply walk_while_climbs. by left.
  - intros [n Hn]. apply (climbs_walk_while fuel n a); [by left|exact Hn| |by eapply Hfuel].
    cbn. set_solver.
Qed.
End climbing.

(** A climb visits distinct parents, so it is no longer than their number. *)
Lemma climbs_length {X} up stop (otherwise : X) n a x (parents : list InodeId) :
  climbs up stop otherwise n a x → (∀ c p, up c = Some p → p ∈ parents) →
  ∃ l, length l = n ∧ NoDup l ∧ l ⊆ parents ∧
    ∀ b, b ∈ l → ∃ m y, climbs up stop otherwise m b y ∧ (m < n)%nat.
Proof.
  intros Hc Hin. induction Hc as [a x Hs|a Hs Hu|n a p x Hs Hu Hc IH].
  1-2: exists []; split_and!; [done|constructor|set_solver|set_solver].
  destruct IH as (l & <- & Hnd & Hsub & Hl). exists (p :: l). split_and!; [done| | |].
  - constructor; [|done]. intros (m & y & Hm & Hlt)%Hl.
    assert (length l = m) as <-; [|lia].
    clear -Hc Hm. revert m y Hm. induction Hc as [a x Hs|a Hs Hu|n a p x Hs Hu Hc IH];
      intros m y Hm; inversion Hm; subst; try congruence.
    f_equal. eapply IH. by replace p with p0 by congruence.
  - intros b [->|Hb]%elem_of_cons; [by eapply Hin|by apply Hsub].
  - intros b [->|Hb]%elem_of_cons; [eexists _, _; split; [exact Hc|lia]|].
    destruct (Hl b Hb) as (m & y & Hm & Hlt). exists m, y. split; [done|lia].
Qed.

Lemma climbs_bound {X} up stop (otherwise : X) n a x (parents : list InodeId) :
  climbs up stop otherwise n a x → (∀ c p, up c = Some p → p ∈ parents) → (n ≤ length parents)%nat.
Proof.
  intros Hc Hin. destruct (climbs_length _ _ _ _ _ _ parents Hc Hin) as (l & <- & Hnd & Hsub & _).
  apply NoDup_incl_length; [by apply NoDup_ListNoDup|].
  intros b. rewrite <-!list_elem_of_In. apply Hsub.
Qed.

(** ** Reads that succeed

    [ok_value] is the answer of a lookup, and [total_reads] says that every
    lookup of [r] answers, as an in-memory state's lookups do and a durable
    view's do when no fetch fails. *)
Definition ok_value {E A} (m : res E (option A)) : option A :=
  match m with Ok o => o | _ => None end.

Section lawful.
Context {R E : Type} `{MetadataVisibilityReads R E} (r : R) `{!VisibilityLaws r}.

Record total_reads : Prop := {
  total_inode : ∀ i, find_inode r i = Ok (ok_value (find_inode r i));
  total_slot : ∀ p k, find_latest_slot_binding r p k = Ok (ok_value (find_latest_slot_binding r p k));
  total_parent : ∀ c, find_latest_parent_binding_for_child r c
                      = Ok (ok_value (find_latest_parent_binding_for_child r c));
  total_hiding : ∀ i, find_hiding_subtree_tombstone r i
                      = Ok (ok_value (find_hiding_subtree_tombstone r i));
}.

Definition parent_binding (c : InodeId) : option DirentryBindingRecord :=
  ok_value (reads_current_parent_binding_for_child r c).
Definition up (c : InodeId) : option InodeId := db_parent_inode_id <$> parent_binding c.
Definition child_binding (p : InodeId) (k : NameKey) : option DirentryBindingRecord :=
  ok_value (reads_active_child_binding r p k).
Definition hiding (i : InodeId) : option SubtreeTombstoneRecord :=
  ok_value (find_hiding_subtree_tombstone r i).
Definition inode_row (i : InodeId) : option InodeRecord := ok_value (find_inode r i).

(** [p] is [a] or a current ancestor of [a]. *)
Definition above (a p : InodeId) : Prop := rtc (λ x y, up x = Some y) a p.

(** The current parents of [a] end, at an inode without one. *)
Definition grounded (a : InodeId) : Prop := ∃ top, above a top ∧ up top = None.

Context (Htotal : total_reads).

Lemma current_parent_total c :
  reads_current_parent_binding_for_child r c = Ok (parent_binding c).
Proof.
  unfold parent_binding. rewrite law_current_parent. unfold current_parent_binding_for_child.
  case_decide; [done|]. rewrite (total_parent Htotal c). cbn [mbind res_bind].
  destruct (ok_value _) as [b|]; [|done]. by destruct (is_bound b).
Qed.

Lemma active_child_total p k : reads_active_child_binding r p k = Ok (child_binding p k).
Proof.
  unfold child_binding. rewrite law_active_child. unfold active_child_binding.
  rewrite (total_slot Htotal). cbn [mbind res_bind].
  destruct (ok_value _) as [b|]; [|done]. by destruct (is_bound b).
Qed.

Lemma up_parents :
  ∃ parents : list InodeId, (length parents + 1 < walk_fuel r)%nat ∧ ∀ c p, up c = Some p → p ∈ parents.
Proof.
  destruct law_walk_fuel as (parents & Hlen & Hin). exists parents. split; [done|].
  intros c p. unfold up. destruct (parent_binding c) as [b|] eqn:Eb; [|done]. intros [= <-].
  apply (Hin c). by rewrite current_parent_total, Eb.
Qed.

Lemma walk_while_ext {X} fuel (cp cp' : InodeId → res E (option DirentryBindingRecord))
    (body body' : InodeId → res E (option X)) otherwise walk :
  (∀ c, cp c = cp' c) → (∀ a, body a = body' a) →
  walk_while cp fuel body otherwise walk = walk_while cp' fuel body' otherwise walk.
Proof.
  intros Hcp Hbody. revert walk. induction fuel as [|fuel IH]; intros walk; [done|].
  cbn [walk_while]. unfold walk_next. destruct (aw_next walk) as [[]|]; rewrite ?Hcp;
    [|destruct (cp' inode_id) as [[]| | |]; cbn [mbind res_bind]|done]; try done.
  all: destruct (visit _ _ _) as [[[a|] w]| | |]; cbn [mbind res_bind]; try done.
  all: rewrite Hbody; destruct (body' a) as [[]| | |]; cbn [mbind res_bind]; try done; apply IH.
Qed.

(** Every walk of a lawful view ends, and computes its climb. *)
Lemma lawful_walk {X} (stop : InodeId → option X) (body : InodeId → res E (option X)) otherwise a x :
  (∀ b, body b = Ok (stop b)) →
  walk_while (reads_current_parent_binding_for_child r) (walk_fuel r) body otherwise
    (AncestorWalk_new a) = Ok x ↔ ∃ n, climbs up stop otherwise n a x.
Proof.
  intros Hbody. destruct up_parents as (parents & Hlen & Hin).
  rewrite (walk_while_ext _ _ _ _ _ _ _ current_parent_total Hbody).
  apply walk_while_spec. intros n y Hc.
  pose proof (climbs_bound _ _ _ _ _ _ parents Hc Hin). lia.
Qed.

Lemma lawful_walk_returns {X} (stop : InodeId → option X) (body : InodeId → res E (option X))
    otherwise a :
  (∀ b, body b = Ok (stop b)) →
  returns (walk_while (reads_current_parent_binding_for_child r) (walk_fuel r) body otherwise
    (AncestorWalk_new a)).
Proof.
  intros Hbody. destruct up_parents as (parents & Hlen & Hin).
  rewrite (walk_while_ext _ _ _ _ _ _ _ current_parent_total Hbody).
  set (m := walk_while _ _ _ _ _).
  assert (m ≠ OutOfFuel) as Hfuel.
  { apply walk_while_returns with (U := list_to_set (a :: parents)); [done|done|..].
    - intros c b [= Hb]. apply elem_of_list_to_set, elem_of_cons. right.
      apply (Hin c). unfold up. by rewrite Hb.
    - unfold next_in. cbn [aw_next AncestorWalk_new]. apply elem_of_list_to_set, elem_of_cons. by left.
    - cbn [aw_seen AncestorWalk_new]. rewrite difference_empty_L.
      pose proof (size_list_to_set_le (a :: parents)) as Hs. cbn [length] in Hs.
      eapply Nat.le_lt_trans; [exact Hs|lia]. }
  assert (m ≠ Panic) as Hpanic.
  { clear Hfuel. subst m. generalize (AncestorWalk_new a) as walk. generalize (walk_fuel r) as fuel.
    induction fuel as [|fuel IH]; intros walk; [done|]. cbn [walk_while]. unfold walk_next.
    destruct (aw_next walk) as [[i|c]|]; [|cbn [mbind res_bind]; destruct (parent_binding c)|done]; try done.
    all: unfold visit; case_decide; [done|]; cbn [mbind res_bind]; destruct (stop _); done || apply IH. }
  by destruct m.
Qed.

(** *** Climbs and ancestors *)
Lemma climbs_above {X} (stop : InodeId → option X) otherwise n a x :
  climbs up stop otherwise n a x →
  (∃ b, above a b ∧ stop b = Some x) ∨
  (x = otherwise ∧ grounded a ∧ ∀ b, above a b → stop b = None).
Proof.
  induction 1 as [a x Hs|a Hs Hu|n a p x Hs Hu Hc IH].
  - left. exists a. split; [apply rtc_refl|done].
  - right. split; [done|]. split; [by exists a; split; [apply rtc_refl|]|].
    intros b Hb. apply rtc_inv in Hb as [<-|(c & Hc & _)]; [done|congruence].
  - destruct IH as [(b & Hb & Hsb)|(-> & (t & Ht & Htu) & Hn)].
    + left. exists b. split; [by eapply rtc_l|done].
    + right. split; [done|]. split; [exists t; split; [by eapply rtc_l|done]|].
      intros b Hb. apply rtc_inv in Hb as [<-|(c & Hc' & Hcb)]; [done|].
      apply Hn. by assert (c = p) as -> by congruence.
Qed.

(** A grounded inode's climb always has a result. *)
Lemma grounded_climbs {X} (stop : InodeId → option X) otherwise a :
  grounded a → ∃ n x, climbs up stop otherwise n a x.
Proof.
  intros (t & Ht & Htu). induction Ht as [a|a b t Hab Hbt IH].
  - destruct (stop a) eqn:Es; eexists _, _; [by apply climbs_stop|by apply climbs_end].
  - destruct (stop a) eqn:Es; [eexists _, _; by apply climbs_stop|].
    destruct (IH Htu) as (n & x & Hc). eexists _, _. by eapply climbs_up.
Qed.

(** A climb reaches every inode above that no earlier stop hides. *)
Lemma above_climbs {X} (stop : InodeId → option X) otherwise a b :
  above a b → is_Some (stop b) → ∃ n x c, climbs up stop otherwise n a x ∧ above a c ∧ stop c = Some x.
Proof.
  intros Hab [y Hy]. induction Hab as [a|a p b Hap Hpb IH].
  - exists 0%nat, y, a. split_and!; [by apply climbs_stop|apply rtc_refl|done].
  - destruct (stop a) as [x|] eqn:Es.
    + exists 0%nat, x, a. split_and!; [by apply climbs_stop|apply rtc_refl|done].
    + destruct (IH Hy) as (n & x & c & Hc & Hpc & Hsc).
      exists (S n), x, c. split_and!; [by eapply climbs_up|by eapply rtc_l|done].
Qed.

Lemma cycle_check_spec inode_id new_parent b :
  would_create_directory_cycle (reads_current_parent_binding_for_child r) (walk_fuel r)
    inode_id new_parent = Ok b ↔
  if b then above new_parent inode_id
  else grounded new_parent ∧ ¬ above new_parent inode_id.
Proof.
  unfold would_create_directory_cycle.
  set (stop a := if decide (a = inode_id) then Some true else None).
  assert (∀ a, stop a = Some true ↔ a = inode_id) as Hstop by (intros a; unfold stop; case_decide; naive_solver).
  rewrite (lawful_walk stop) by (intros a; unfold stop; by case_decide). split.
  - intros [n Hc]. apply climbs_above in Hc as [(c & Hc & Hs)|(-> & Hg & Hn)].
    + unfold stop in Hs. case_decide; [|done]. by simplify_eq.
    + split; [done|]. intros Ha. specialize (Hn _ Ha). unfold stop in Hn. by rewrite decide_True in Hn.
  - destruct b.
    + intros Ha. destruct (above_climbs stop false _ _ Ha) as (n & x & c & Hc & _ & Hs).
      { unfold stop. by rewrite decide_True. }
      exists n. unfold stop in Hs. case_decide; [|done]. by simplify_eq.
    + intros [Hg Hna]. destruct (grounded_climbs stop false _ Hg) as (n & x & Hc). exists n.
      destruct (climbs_above _ _ _ _ _ Hc) as [(c & Hac & Hs)|(-> & _)]; [|done].
      unfold stop in Hs. case_decide; [|done]. by subst.
Qed.

Lemma covering_walk inode_id o :
  reads_covering_subtree_tombstone r inode_id = Ok o ↔
  ∃ n, climbs up (λ a, Some <$> hiding a) None n inode_id o.
Proof.
  rewrite law_covering. unfold covering_subtree_tombstone. apply lawful_walk.
  intros a. rewrite (total_hiding Htotal). cbn [mbind res_bind]. unfold hiding. by destruct (ok_value _).
Qed.

(** An inode is covered exactly when it or an inode above it is hidden. *)
Lemma covering_None inode_id :
  reads_covering_subtree_tombstone r inode_id = Ok None ↔
  grounded inode_id ∧ ∀ a, above inode_id a → hiding a = None.
Proof.
  rewrite covering_walk. split.
  - intros [n Hc]. apply climbs_above in Hc as [(c & _ & Hs)|(_ & Hg & Hn)].
    + destruct (hiding c); by simplify_eq/=.
    + split; [done|]. intros a Ha. specialize (Hn a Ha). by destruct (hiding a).
  - intros [Hg Hn]. destruct (grounded_climbs (λ a, Some <$> hiding a) None _ Hg) as (n & x & Hc).
    exists n. destruct (climbs_above _ _ _ _ _ Hc) as [(c & Hac & Hs)|(-> & _)]; [|done].
    rewrite (Hn c Hac) in Hs. done.
Qed.

Lemma covering_Some inode_id :
  (∃ t, reads_covering_subtree_tombstone r inode_id = Ok (Some t)) ↔
  ∃ a, above inode_id a ∧ is_Some (hiding a).
Proof.
  split.
  - intros [t Ht]. apply covering_walk in Ht as [n Hc].
    apply climbs_above in Hc as [(c & Hac & Hs)|([=] & _)].
    exists c. split; [done|]. destruct (hiding c); [done|]. by simplify_eq/=.
  - intros (a & Ha & [t Ht]).
    destruct (above_climbs (λ a, Some <$> hiding a) None _ _ Ha) as (n & x & c & Hc & _ & Hs).
    { by rewrite Ht. }
    destruct (hiding c) as [t'|] eqn:Eh; simplify_eq/=. exists t'. apply covering_walk. by exists n.
Qed.

Lemma covering_returns inode_id : returns (reads_covering_subtree_tombstone r inode_id).
Proof.
  rewrite law_covering. unfold covering_subtree_tombstone.
  apply (lawful_walk_returns (λ a, Some <$> hiding a)).
  intros a. rewrite (total_hiding Htotal). cbn [mbind res_bind]. unfold hiding. by destruct (ok_value _).
Qed.

(** An inode is visible exactly when it has a row, its ancestry ends and
    nothing at or above it is hidden. *)
Lemma visible_inode_spec inode_id row :
  reads_visible_inode r inode_id = Ok (Some row) ↔
  inode_row inode_id = Some row ∧ grounded inode_id ∧ ∀ a, above inode_id a → hiding a = None.
Proof.
  rewrite law_visible_inode. unfold visible_inode. rewrite (total_inode Htotal). cbn [mbind res_bind].
  fold (inode_row inode_id). rewrite <-covering_None.
  destruct (inode_row inode_id) as [row'|]; [|naive_solver].
  destruct (reads_covering_subtree_tombstone r inode_id) as [[t|]| | |]; cbn [mbind res_bind];
    naive_solver.
Qed.

Lemma cycle_check_returns inode_id new_parent :
  returns (would_create_directory_cycle (reads_current_parent_binding_for_child r) (walk_fuel r)
    inode_id new_parent).
Proof.
  unfold would_create_directory_cycle.
  apply (lawful_walk_returns (λ a, if decide (a = inode_id) then Some true else None)).
  intros a. by case_decide.
Qed.

Lemma visible_inode_returns inode_id : returns (reads_visible_inode r inode_id).
Proof.
  rewrite law_visible_inode. unfold visible_inode. rewrite (total_inode Htotal). cbn [mbind res_bind].
  destruct (ok_value _); [|done]. apply returns_bind; [apply covering_returns|by intros []].
Qed.

Lemma visible_child_returns p k :
  returns (visible_child (reads_active_child_binding r) (reads_visible_inode r) p k).
Proof.
  unfold visible_child. apply returns_bind; [apply visible_inode_returns|]. intros [parent|] _; [|done].
  case_decide; [done|]. rewrite active_child_total. cbn [mbind res_bind].
  destruct (child_binding p k); [|done].
  apply returns_bind; [apply visible_inode_returns|by intros []].
Qed.
End lawful.
