(* ===== verification/Errors.v ===== *)
(** * Errors

    The errors of [loonfs-core/src/commit/validate/error.rs] and the variants
    of [CoreError] ([loonfs-core/src/error.rs]) that the modelled code
    returns, with their conversions. *)
From S2P Require Import Prelude Types Records Manifest Visibility.
Local Open Scope N_scope.

Inductive CommitOperand : Set :=
| CreateParent | RenameSource | RenameTargetParent | ReplaceTarget | RestoreTarget | DeleteTarget
| SubtreeRoot | AttributeTarget | AccessTarget | UndeleteTarget | EmptyDirectoryTarget.
#[export] Instance CommitOperand_eq_dec : EqDecision CommitOperand.
Proof. solve_decision. Defined.

Inductive CommitValidationError : Set :=
| InodeMissing (operand : CommitOperand) (inode_id : InodeId)
| InodeWrongKind (operand : CommitOperand) (inode_id : InodeId) (expected actual : InodeKind)
| NameTaken (operand : CommitOperand) (parent_inode_id : InodeId) (name_key : NameKey)
    (child_inode_id : InodeId)
| TargetUnderSubtreeTombstone (operand : CommitOperand) (inode_id root_inode_id : InodeId)
    (tombstone_seq : ChangeSeq)
| BaseRevisionMismatch (inode_id : InodeId) (expected : RevisionNo) (actual : option RevisionNo)
| BindingPreconditionMissing (parent_inode_id : InodeId) (name_key : NameKey)
| BindingPreconditionMismatch (target : string) (expected_inode_id actual_inode_id : option InodeId)
| DirectoryNotEmpty (inode_id : InodeId)
| RestoreRevisionSourceRevisionMissing (inode_id : InodeId) (source_revision_no : RevisionNo)
| RenameWouldCycleDirectory (inode_id new_parent_inode_id : InodeId)
| UndeleteTargetNotDeleted (inode_id : InodeId)
| UndeleteTargetsCurrentCommit (inode_id : InodeId)
| UndeleteSequenceMismatch (inode_id : InodeId) (requested_seq active_seq : ChangeSeq)
| RevisionOverflow (inode_id : InodeId) (base_revision_no : RevisionNo)
| UpdateAttributesBaseRevisionMismatch (inode_id : InodeId) (expected : AttributesRevisionNo)
    (actual : option AttributesRevisionNo)
| UpdateAttributesRevisionOverflow (inode_id : InodeId)
    (base_attributes_revision_no : AttributesRevisionNo)
| UpdateAccessBaseRevisionMismatch (inode_id : InodeId) (expected : AccessRevisionNo)
    (actual : option AccessRevisionNo)
| UpdateAccessRevisionOverflow (inode_id : InodeId) (base_access_revision_no : AccessRevisionNo)
| OperationIndexOverflow
| DeltaIndexOverflow.
#[export] Instance CommitValidationError_eq_dec : EqDecision CommitValidationError.
Proof. solve_decision. Defined.

(** [CommitValidationError::code]. *)
Definition commit_validation_error_code (e : CommitValidationError) : ErrorCode :=
  match e with
  | BaseRevisionMismatch _ _ _ => StaleRevision
  | RestoreRevisionSourceRevisionMissing _ _ => CodeRevisionNotFound
  | TargetUnderSubtreeTombstone _ _ _ _ => NamespaceCorrupt
  | UpdateAttributesBaseRevisionMismatch _ _ _ => StaleAttributes
  | UpdateAttributesRevisionOverflow _ _ => ServerError
  | UpdateAccessBaseRevisionMismatch _ _ _ => StaleAccess
  | UpdateAccessRevisionOverflow _ _ => ServerError
  | NameTaken _ _ _ _ | InodeWrongKind _ _ _ _ | BindingPreconditionMissing _ _
  | BindingPreconditionMismatch _ _ _ => PathConflict
  | DirectoryNotEmpty _ => CodeDirectoryNotEmpty
  | InodeMissing _ _ => CodePathNotFound
  | UndeleteTargetNotDeleted _ | UndeleteTargetsCurrentCommit _
  | UndeleteSequenceMismatch _ _ _ => NotDeleted
  | RenameWouldCycleDirectory _ _ => WouldCycle
  | RevisionOverflow _ _ | OperationIndexOverflow | DeltaIndexOverflow => ServerError
  end.

Definition classify_store_failure (kind : ObjectStoreErrorKind) : ErrorCode :=
  match kind with
  | KindPermissionDenied => StoragePermissionDenied
  | KindStoredChecksumMissing => NamespaceCorrupt
  | KindNotFound | KindInvalidRequest | KindInvalidKey | KindPreconditionFailed | KindUnsupported
  | KindConfiguration | KindRetryableTransport | KindOther => ServerError
  end.

(** [ManifestLoadError::code]. *)
Definition manifest_load_error_code (e : ManifestLoadError) : ErrorCode :=
  match e with
  | ReadManifest _ kind | ReadSegment _ kind => classify_store_failure kind
  | _ => NamespaceCorrupt
  end.

(** [CoreError]: [CeManifestLoad] is
    [MetadataProjection(MetadataProjectionLoadError::ManifestLoad(..))]. *)
Inductive CoreError : Set :=
| CeManifestLoad (error : ManifestLoadError)
| CeVisiblePath (error : VisiblePathError)
| CeCommitValidation (error : CommitValidationError)
| CePathNotFound (absolute_path : string)
| CeInodeNotFound (inode_id : InodeId)
| CeRevisionNotFound (inode_id : InodeId) (revision_no : RevisionNo)
| CeExpectedFile (target : string) (kind : InodeKind)
| CeNamespaceCorrupt (message : string)
| CeStore (object_key : string) (kind : ObjectStoreErrorKind).
#[export] Instance CoreError_eq_dec : EqDecision CoreError.
Proof. solve_decision. Defined.

(** [ObjectStoreError]: the variants that [CoreError::store] tells apart. *)
Inductive ObjectStoreError : Set :=
| DifferentObject (object_key : string)
| StoredChecksumMissing (object_key : string)
| StoreFailed (kind : ObjectStoreErrorKind).

(** [CoreError::store]. *)
Definition CoreError_store (object_key : string) (error : ObjectStoreError) : CoreError :=
  match error with
  | DifferentObject key => CeNamespaceCorrupt ("immutable object `" +:+ key +:+ "` already exists with different bytes")
  | StoredChecksumMissing key =>
      CeNamespaceCorrupt ("immutable object `" +:+ key +:+ "` already exists without a stored checksum")
  | StoreFailed kind => CeStore object_key kind
  end.

(** [impl From<VisiblePathError> for CoreError]. *)
#[export] Instance CoreError_from_visible_path : FromVisiblePathError CoreError := λ e,
  match e with
  | PathNotFound absolute_path => CePathNotFound absolute_path
  | e => CeVisiblePath e
  end.

(** [Err(CommitValidationError::..)?] in a function that returns
    [Result<_, CoreError>]. *)
Definition commit_err {A} (e : CommitValidationError) : res CoreError A := Err (CeCommitValidation e).
