(* ===== verification/Retention.v ===== *)
(** * Row retention

    [loonfs-core/src/compaction/retention.rs], with the locality groups of
    [run_iterator.rs]: the operators that decide, row by row in key order,
    which rows a compaction keeps.  [retained] is the abstract rule of each
    family; the theorems show that the streamed decisions are that rule, that
    both binding indexes keep the same binding events, and that every read at
    or above the retention floor answers from the kept rows as it does from
    all rows. *)
From S2P Require Import Prelude Types Utf8 Records Codec RowKeys Paths Ids ObjectKeys Manifest Visibility Errors.
Import lookup_keys.
Local Open Scope N_scope.

(** ** Locality groups *)
Inductive LocalityGrouping : Set := LocalityRow | LeadingKeyComponents (components : nat).

(** [str::find(char)]. *)
Fixpoint str_find (c : ascii) (s : string) : option nat :=
  match s with
  | EmptyString => None
  | String d rest => if decide (c = d) then Some O else S <$> str_find c rest
  end.

(** [s.get(n..)]. *)
Definition str_get_from (n : nat) (s : string) : option string :=
  if is_char_boundary (String.list_ascii_of_string s) n then Some (str_drop n s) else None.

(** The loop over the components, from the end of the ones before. *)
Fixpoint components_end (components : nat) (first : bool) (tail : string) (end_ : nat) : option nat :=
  match components with
  | O => Some end_
  | S components =>
      let end_ := if first then end_ else S end_ in
      match str_find "-" (str_drop end_ tail) with
      | Some offset => components_end components false tail (end_ + offset)%nat
      | None => None
      end
  end.

Definition locality_of (family : MetadataRowFamily) (row_key : string) (locality : LocalityGrouping) : string :=
  let prefix_len := String.length (row_key_prefix family) in
  let tail := default row_key (str_get_from prefix_len row_key) in
  match locality with
  | LocalityRow => tail
  | LeadingKeyComponents components =>
      match components_end components true tail 0 with
      | Some end_ => str_take end_ tail
      | None => tail
      end
  end.

(** ** Rules and operators *)
Inductive RetentionRule : Set :=
| KeepEveryRow | FirstPerGroup | CommitHistory | WholeState | ActiveDeletions | Bindings.
#[export] Instance RetentionRule_eq_dec : EqDecision RetentionRule.
Proof. solve_decision. Defined.

Inductive FloorEvent : Set := FloorBound | FloorUnbound.
#[export] Instance FloorEvent_eq_dec : EqDecision FloorEvent.
Proof. solve_decision. Defined.

Record BindingRetention := mkBindingRetention {
  br_floor_event : option FloorEvent;
  br_floor_summary_seen : bool;
  br_last_bound_edge : option (InodeId * NameKey * InodeId);
}.

(** [WholeStateRetention] and [ActiveDeletionRetention] are their one field. *)
Inductive RetentionOperator : Set :=
| OpKeepEveryRow
| OpFirstPerGroup (kept : bool)
| OpCommitHistory
| OpWholeState (previous_at_floor : option N)
| OpActiveDeletions (revoked : bool)
| OpBindings (state : BindingRetention).

(** [RetentionRule::operator]. *)
Definition rule_operator (rule : RetentionRule) : RetentionOperator :=
  match rule with
  | KeepEveryRow => OpKeepEveryRow
  | FirstPerGroup => OpFirstPerGroup false
  | CommitHistory => OpCommitHistory
  | WholeState => OpWholeState None
  | ActiveDeletions => OpActiveDeletions false
  | Bindings => OpBindings (mkBindingRetention None false None)
  end.

Definition keep_commit_history_row (row : MetadataRow) (floor_seq : ChangeSeq) : option MetadataRow :=
  match row with
  | RowCommitReceipt record => if decide (record.(rc_committed_seq) < floor_seq) then None else Some row
  | RowCommit record => if decide (record.(wcp_committed_seq) < floor_seq) then None else Some row
  | RowMerge record => if decide (record.(mi_committed_seq) < floor_seq) then None else Some row
  | _ => Some row
  end.

Definition whole_state_revision (row : MetadataRow) : option (InodeId * N * ChangeSeq) :=
  match row with
  | RowFileRevision record => Some (record.(rr_inode_id), record.(rr_revision_no), record.(rr_committed_seq))
  | RowAttributesRevision record =>
      Some (record.(at_inode_id), record.(at_attributes_revision_no), record.(at_committed_seq))
  | RowAccessRevision record =>
      Some (record.(ac_inode_id), record.(ac_access_revision_no), record.(ac_committed_seq))
  | _ => None
  end.

Definition repeated_revision_message (inode_id : InodeId) (family : MetadataRowFamily) (revision : N) : string :=
  "inode `" +:+ InodeId_to_string inode_id +:+ "` has two " +:+ family_as_str family +:+ " rows at revision `"
  +:+ fmt_dec 0 revision +:+ "` at or below the retention floor; refusing to drop rows".

(** [WholeStateRetention::push]. *)
Definition whole_state_push (previous_at_floor : option N) (family : MetadataRowFamily) (row : MetadataRow)
    (floor_seq : ChangeSeq) : res CoreError (option MetadataRow * option N) :=
  match whole_state_revision row with
  | None => Ok (Some row, previous_at_floor)
  | Some (inode_id, revision, committed_seq) =>
      if decide (floor_seq < committed_seq) then Ok (Some row, previous_at_floor)
      else if decide (previous_at_floor = Some revision) then
        Err (CeNamespaceCorrupt (repeated_revision_message inode_id family revision))
      else Ok (match previous_at_floor with Some _ => None | None => Some row end, Some revision)
  end.

(** [ActiveDeletionRetention::push]. *)
Definition active_deletion_push (revoked : bool) (row : MetadataRow) (floor_seq : ChangeSeq)
    : option MetadataRow * bool :=
  match row with
  | RowActiveDeletion record =>
      match record.(ad_action) with
      | Removed _ => (None, true)
      | Listed _ _ _ _ =>
          if revoked || bool_decide (record.(ad_deletion_seq) ≤ floor_seq) then (None, revoked)
          else (Some row, revoked)
      end
  | _ => (Some row, revoked)
  end.

Definition second_child_message (parent : InodeId) (name_key : NameKey) (child other : InodeId) : string :=
  "parent `" +:+ InodeId_to_string parent +:+ "` binds name `" +:+ name_key +:+ "` to children `"
  +:+ InodeId_to_string child +:+ "` and `" +:+ InodeId_to_string other
  +:+ "` at or below the retention floor; refusing to drop rows".
Definition second_parent_message (child : InodeId) (name_key : NameKey) (parent : InodeId)
    (other_name : NameKey) (other_parent : InodeId) : string :=
  "child `" +:+ InodeId_to_string child +:+ "` is bound as `" +:+ name_key +:+ "` under parent `"
  +:+ InodeId_to_string parent +:+ "` and as `" +:+ other_name +:+ "` under parent `"
  +:+ InodeId_to_string other_parent +:+ "` at or below the retention floor; refusing to drop rows".

Definition refuse_a_second_bound_edge (last_bound_edge : option (InodeId * NameKey * InodeId))
    (family : MetadataRowFamily) (binding : DirentryBindingRecord)
    : res CoreError (option (InodeId * NameKey * InodeId)) :=
  _ ← match last_bound_edge with
      | Some (parent_inode_id, name_key, child_inode_id) =>
          let same_slot := bool_decide (parent_inode_id = binding.(db_parent_inode_id))
                           && bool_decide (name_key = binding.(db_name_key)) in
          let same_child := bool_decide (child_inode_id = binding.(db_child_inode_id)) in
          if bool_decide (family = FamDirentryBinds) && same_slot then
            Err (CeNamespaceCorrupt (second_child_message parent_inode_id name_key child_inode_id
                   binding.(db_child_inode_id)))
          else if bool_decide (family = FamDirentryChildBinds) && same_child then
            Err (CeNamespaceCorrupt (second_parent_message child_inode_id name_key parent_inode_id
                   binding.(db_name_key) binding.(db_parent_inode_id)))
          else Ok ()
      | None => Ok ()
      end;
  Ok (Some (binding.(db_parent_inode_id), binding.(db_name_key), binding.(db_child_inode_id))).

(** [BindingRetention::push]. *)
Definition binding_push (state : BindingRetention) (family : MetadataRowFamily) (row : MetadataRow)
    (floor_seq : ChangeSeq) : res CoreError (option MetadataRow * BindingRetention) :=
  match row with
  | RowDirentryBinding binding =>
      if decide (floor_seq < binding.(db_committed_seq)) then Ok (Some row, state)
      else if negb (is_binding_event binding) then
        let keep := bool_decide (state.(br_floor_event) ≠ Some FloorUnbound)
                    && negb state.(br_floor_summary_seen) in
        Ok (if keep then Some row else None,
            mkBindingRetention state.(br_floor_event) true state.(br_last_bound_edge))
      else match state.(br_floor_event) with
      | Some _ => Ok (None, state)
      | None =>
          if negb (is_bound binding) then
            Ok (None, mkBindingRetention (Some FloorUnbound) state.(br_floor_summary_seen)
                        state.(br_last_bound_edge))
          else
            last_bound_edge ← refuse_a_second_bound_edge state.(br_last_bound_edge) family binding;
            Ok (Some row, mkBindingRetention (Some FloorBound) state.(br_floor_summary_seen) last_bound_edge)
      end
  | _ => Ok (Some row, state)
  end.

(** [RetentionOperator::push]; [operator_decide] is its [match]. *)
Definition operator_decide (op : RetentionOperator) (family : MetadataRowFamily) (row : MetadataRow)
    (floor_seq : ChangeSeq) : res CoreError (option MetadataRow * RetentionOperator) :=
  match op with
  | OpKeepEveryRow => Ok (Some row, op)
  | OpFirstPerGroup kept => Ok (if kept then None else Some row, OpFirstPerGroup true)
  | OpCommitHistory => Ok (keep_commit_history_row row floor_seq, op)
  | OpWholeState previous_at_floor =>
      '(kept, previous_at_floor) ← whole_state_push previous_at_floor family row floor_seq;
      Ok (kept, OpWholeState previous_at_floor)
  | OpActiveDeletions revoked =>
      let '(kept, revoked) := active_deletion_push revoked row floor_seq in
      Ok (kept, OpActiveDeletions revoked)
  | OpBindings state =>
      '(kept, state) ← binding_push state family row floor_seq;
      Ok (kept, OpBindings state)
  end.
Definition operator_push (op : RetentionOperator) (family : MetadataRowFamily) (row : MetadataRow)
    (floor_seq : ChangeSeq) : res CoreError (option (MetadataRowFamily * MetadataRow) * RetentionOperator) :=
  '(kept, op) ← operator_decide op family row floor_seq;
  Ok (match kept with Some row => Some (family, row) | None => None end, op).

(** [RetentionOperator::close_group]. *)
Definition operator_close_group (op : RetentionOperator) : RetentionOperator :=
  match op with
  | OpKeepEveryRow | OpCommitHistory => op
  | OpFirstPerGroup _ => OpFirstPerGroup false
  | OpWholeState _ => OpWholeState None
  | OpActiveDeletions _ => OpActiveDeletions false
  | OpBindings state => OpBindings (mkBindingRetention None false state.(br_last_bound_edge))
  end.

(** ** Clusters *)
Record RetentionCluster := mkRetentionCluster {
  cl_families : list MetadataRowFamily;
  cl_locality : LocalityGrouping;
  cl_rule : RetentionRule;
}.

Definition row_cluster (families : list MetadataRowFamily) : RetentionCluster :=
  mkRetentionCluster families LocalityRow KeepEveryRow.

Definition retention_clusters (group : MetadataFamilyGroup) : list RetentionCluster :=
  match group with
  | GrpBindings =>
      [mkRetentionCluster [FamDirentryBinds] (LeadingKeyComponents 3) Bindings;
       mkRetentionCluster [FamDirentryChildBinds] (LeadingKeyComponents 3) Bindings]
  | GrpRevisions => [mkRetentionCluster [FamRevisions] (LeadingKeyComponents 1) WholeState]
  | GrpInodes => [row_cluster [FamInodes]]
  | GrpTombstones => [row_cluster [FamTombstones]]
  | GrpActiveDeletions => [mkRetentionCluster [FamActiveDeletions] (LeadingKeyComponents 2) ActiveDeletions]
  | GrpCommits =>
      [mkRetentionCluster [FamCommits] LocalityRow CommitHistory;
       mkRetentionCluster [FamCommitReceipts] LocalityRow CommitHistory;
       mkRetentionCluster [FamMerges] LocalityRow CommitHistory]
  | GrpContentLayouts => [mkRetentionCluster [FamContentLayouts] (LeadingKeyComponents 1) FirstPerGroup]
  | GrpAttributes => [mkRetentionCluster [FamAttributes] (LeadingKeyComponents 1) WholeState]
  | GrpAccess => [mkRetentionCluster [FamAccess] (LeadingKeyComponents 1) WholeState]
  end.

(** ** One row of a cluster

    The body of the loop of [run_cluster] in [group_compaction.rs], once the
    next row is known: [cs_last_input_key_by_family] is the compaction's field
    of that name, [cs_operator] and [cs_locality] are the loop's variables.
    [admits] is what the filters of a compaction let through. *)
Record ClusterState := mkClusterState {
  cs_operator : RetentionOperator;
  cs_locality : option string;
  cs_last_input_key_by_family : MetadataRowFamily → option string;
}.

(** [{family:?}]. *)
Definition family_debug (family : MetadataRowFamily) : string :=
  match family with
  | FamInodes => "Inodes"
  | FamDirentryBinds => "DirentryBinds"
  | FamDirentryChildBinds => "DirentryChildBinds"
  | FamRevisions => "Revisions"
  | FamTombstones => "Tombstones"
  | FamActiveDeletions => "ActiveDeletions"
  | FamCommitReceipts => "CommitReceipts"
  | FamCommits => "Commits"
  | FamContentLayouts => "ContentLayouts"
  | FamAttributes => "Attributes"
  | FamAccess => "Access"
  | FamMerges => "Merges"
  end.

Definition duplicate_key_message (family : MetadataRowFamily) (row_key : string) : string :=
  "metadata family `" +:+ family_debug family +:+ "` contains duplicate row key `" +:+ row_key
  +:+ "`; refusing to compact it into a run".
Definition backwards_key_message (family : MetadataRowFamily) (row_key previous : string) : string :=
  "metadata family `" +:+ family_debug family +:+ "` row key went backwards: `" +:+ row_key
  +:+ "` follows `" +:+ previous +:+ "`; refusing to compact it into a run".

Definition refuse_a_repeated_input_key (last : MetadataRowFamily → option string) (family : MetadataRowFamily)
    (row_key : string) : res CoreError (MetadataRowFamily → option string) :=
  _ ← match last family with
      | Some previous =>
          match cmp row_key previous with
          | Gt => Ok ()
          | Eq => Err (CeNamespaceCorrupt (duplicate_key_message family row_key))
          | Lt => Err (CeNamespaceCorrupt (backwards_key_message family row_key previous))
          end
      | None => Ok ()
      end;
  Ok (λ f, if decide (f = family) then Some row_key else last f).

Definition cluster_row (locality : LocalityGrouping) (floor_seq : ChangeSeq) (admits : MetadataRow → bool)
    (family : MetadataRowFamily) (state : ClusterState) (row_key : string) (row : MetadataRow)
    : res CoreError (option (MetadataRowFamily * MetadataRow) * ClusterState) :=
  last ← refuse_a_repeated_input_key state.(cs_last_input_key_by_family) family row_key;
  let row_locality := locality_of family row_key locality in
  let operator :=
    if decide (state.(cs_locality) = Some row_locality) then state.(cs_operator)
    else operator_close_group state.(cs_operator) in
  if negb (admits row) then Ok (None, mkClusterState operator (Some row_locality) last)
  else
    '(kept, operator) ← operator_push operator family row floor_seq;
    Ok (kept, mkClusterState operator (Some row_locality) last).

(** The rows of one family through the loop. *)
Fixpoint cluster_rows (locality : LocalityGrouping) (floor_seq : ChangeSeq) (admits : MetadataRow → bool)
    (family : MetadataRowFamily) (state : ClusterState) (rows : list (string * MetadataRow))
    : res CoreError (list MetadataRow * ClusterState) :=
  match rows with
  | [] => Ok ([], state)
  | (row_key, row) :: rows =>
      '(kept, state) ← cluster_row locality floor_seq admits family state row_key row;
      '(rest, state) ← cluster_rows locality floor_seq admits family state rows;
      Ok (match kept with Some (_, row) => row :: rest | None => rest end, state)
  end.

(** ** The abstract rule *)
#[export] Instance component_eq_dec : EqDecision component.
Proof. solve_decision. Defined.

(** The components that the rows of one group share, as their text. *)
Definition group_parts (family : MetadataRowFamily) (row : MetadataRow) : list string :=
  match row with
  | RowDirentryBinding r =>
      match family with
      | FamDirentryChildBinds =>
          [InodeId_body r.(db_child_inode_id); InodeId_body r.(db_parent_inode_id); hex_encode_bytes r.(db_name_key)]
      | _ =>
          [InodeId_body r.(db_parent_inode_id); hex_encode_bytes r.(db_name_key); InodeId_body r.(db_child_inode_id)]
      end
  | RowFileRevision r => [InodeId_body r.(rr_inode_id)]
  | RowActiveDeletion r => [fmt_dec 20 r.(ad_deletion_seq); InodeId_body r.(ad_root_inode_id)]
  | RowContentLayout r => [default "" (strip_prefix "con_" r.(lr_content_id))]
  | RowAttributesRevision r => [InodeId_body r.(at_inode_id)]
  | RowAccessRevision r => [InodeId_body r.(ac_inode_id)]
  | _ => []
  end.

(** How many leading components a family's rows are grouped by. *)
Definition group_width (family : MetadataRowFamily) : nat :=
  match family with
  | FamDirentryBinds | FamDirentryChildBinds => 3
  | FamActiveDeletions => 2
  | FamRevisions | FamAttributes | FamAccess | FamContentLayouts => 1
  | FamInodes | FamTombstones | FamCommitReceipts | FamCommits | FamMerges => 0
  end.
Definition same_group (family : MetadataRowFamily) (r1 r2 : MetadataRow) : Prop :=
  take (group_width family) (row_order family r1) = take (group_width family) (row_order family r2).
#[export] Instance same_group_dec family r1 r2 : Decision (same_group family r1 r2) := list_eq_dec _ _.

(** *** Localities are groups *)
Lemma str_find_app c a b : contains_char c a = false → str_find c (a +:+ String c b) = Some (String.length a).
Proof.
  induction a as [|d a IH]; intros Ha.
  - change ("" +:+ String c b) with (String c b). cbn [str_find String.length]. by rewrite decide_True.
  - rewrite string_app_cons. cbn [str_find String.length contains_char] in *. apply orb_false_iff in Ha as [Hd%bool_decide_eq_false Ha]. rewrite decide_False by done. by rewrite IH.
Qed.

(** ASCII without a separator. *)
Definition plain_byte (c : ascii) : bool := bool_decide (N_of_ascii c < 128) && bool_decide (c ≠ "-"%char).
Definition plain (s : string) : Prop := all_bytes plain_byte s = true.

Lemma plain_dash s : plain s → contains_char "-" s = false.
Proof. intros Hs. by apply (all_bytes_not_contains plain_byte). Qed.

Lemma components_end_parts pre parts rest :
  Forall plain parts → parts ≠ [] →
  components_end (length parts) true (pre +:+ join_strings "-" parts +:+ "-" +:+ rest) (String.length pre)
  = Some (String.length pre + String.length (join_strings "-" parts))%nat.
Proof.
  assert (∀ parts pre first rest, Forall plain parts → parts ≠ [] →
    let pre' := if first : bool then pre else pre +:+ "-" in
    components_end (length parts) first (pre' +:+ join_strings "-" parts +:+ "-" +:+ rest) (String.length pre)
    = Some (String.length pre' + String.length (join_strings "-" parts))%nat) as Hgen;
    [|by intros; apply (Hgen parts pre true rest)].
  clear. induction parts as [|p parts IH]; [done|]. intros pre first rest [Hp Hparts]%Forall_cons _.
  cbn [length components_end]. set (pre' := if first then pre else _).
  replace (if first then String.length pre else S (String.length pre)) with (String.length pre')
    by (destruct first; [done|]; unfold pre'; rewrite string_length_app; cbn; lia).
  rewrite str_drop_app. destruct parts as [|q parts].
  - cbn [join_strings length components_end]. change ("-" +:+ rest) with (String "-" rest).
    by rewrite str_find_app by by apply plain_dash.
  - change (join_strings "-" (p :: q :: parts)) with (p +:+ "-" +:+ join_strings "-" (q :: parts)).
    rewrite !string_app_assoc. change ("-" +:+ join_strings "-" (q :: parts) +:+ "-" +:+ rest)
      with (String "-" (join_strings "-" (q :: parts) +:+ "-" +:+ rest)) at 1.
    rewrite str_find_app by by apply plain_dash.
    rewrite <-string_length_app.
    replace (pre' +:+ p +:+ "-" +:+ join_strings "-" (q :: parts) +:+ "-" +:+ rest)
      with (((pre' +:+ p) +:+ "-") +:+ join_strings "-" (q :: parts) +:+ "-" +:+ rest)
      by (by rewrite !string_app_assoc).
    rewrite (IH (pre' +:+ p) false rest Hparts) by done.
    f_equal. rewrite !string_length_app. cbn. lia.
Qed.

Lemma positional_plain digit b width n :
  b ≠ 0 → (∀ x, x < b → plain_byte (digit x) = true) → plain (positional digit b width n).
Proof.
  intros Hb Hdigit. unfold plain. induction width as [|w IH]; [done|]. cbn [positional all_bytes].
  rewrite IH, Hdigit; [done|]. by apply N.mod_lt.
Qed.

Lemma HEX_plain d : d < 16 → plain_byte (char_at HEX d) = true.
Proof.
  intros Hd. assert (Forall (λ d, plain_byte (char_at HEX d) = true) (N.of_nat <$> seq 0 16)) as Hall
    by (apply (bool_decide_unpack _); by vm_compute).
  rewrite Forall_forall in Hall. apply Hall. by apply (alphabet_ok_digit HEX).
Qed.

Lemma all_in_alphabet_plain s : all_in_alphabet s = true → plain s.
Proof.
  assert (Forall (λ d, plain_byte (char_at GENERATED_ID_ALPHABET d) = true) (N.of_nat <$> seq 0 32)) as Hall
    by (apply (bool_decide_unpack _); by vm_compute).
  rewrite Forall_forall in Hall. unfold plain. induction s as [|c s IH]; [done|]. cbn [all_in_alphabet all_bytes].
  intros [[d Hc]%bool_decide_eq_true Hs]%andb_true_iff. rewrite IH, andb_true_r by done.
  apply char_position_Some in Hc as [Hd <-]. apply Hall. by apply (alphabet_ok_digit GENERATED_ID_ALPHABET).
Qed.

Lemma InodeId_body_plain i : plain (InodeId_body i).
Proof.
  unfold InodeId_body, encode_generated_id_body. rewrite encode_base_32_positional.
  apply all_in_alphabet_plain, all_in_alphabet_positional.
Qed.

Lemma fmt_dec_plain n : n ≤ U64_MAX → plain (fmt_dec 20 n).
Proof.
  intros Hn. rewrite fmt_dec_positional by (done || lia || by apply u64_digits).
  apply positional_plain; [done|]. intros x Hx. unfold plain_byte, dec_digit.
  rewrite N_ascii_embedding, !bool_decide_true by first [lia|intros E%(f_equal N_of_ascii);
    rewrite N_ascii_embedding in E by lia; cbn in E; lia]. done.
Qed.

Lemma hex_plain s : plain (hex_encode_bytes s).
Proof.
  unfold plain. induction s as [|c s IH]; [done|]. rewrite hex_encode_cons. cbn [all_bytes].
  destruct (nibble_bounds c) as [H1%HEX_plain H2%HEX_plain]. by rewrite IH, H1, H2.
Qed.

Lemma content_body_plain id :
  validate_generated_id "con" id = Ok () →
  ∃ body, id = "con_" +:+ body ∧ strip_prefix "con_" id = Some body ∧ plain body ∧ ContentId_body id = Ok body.
Proof.
  intros Hv. destruct (valid_content_id id Hv) as (body & Eid & Hbody & _). exists body.
  unfold validate_generated_id in Hv. change ("con" +:+ "_") with "con_" in Hv.
  destruct (strip_prefix "con_" id) as [b|] eqn:Es; [|done].
  assert (b = body) as -> by (apply strip_prefix_Some in Es; rewrite Es in Eid; by simplify_eq).
  split_and!; try done. apply all_in_alphabet_plain.
  unfold generated_id_body_error in Hv. destruct (bool_decide _); [done|].
  cbn [orb] in Hv. by destruct (all_in_alphabet body).
Qed.

Lemma str_get_from_app p c s : N_of_ascii c < 128 → str_get_from (String.length p) (p +:+ String c s) = Some (String c s).
Proof.
  intros Hc. unfold str_get_from. rewrite str_drop_app.
  assert (String.list_ascii_of_string (p +:+ String c s) !! String.length p = Some c) as Hi
    by (induction p; cbn; [done|exact IHp]).
  unfold is_char_boundary. rewrite Hi. unfold cont, in_range.
  rewrite (proj2 (N.leb_gt _ _) Hc : (128 <=? N_of_ascii c) = false). by rewrite orb_true_r.
Qed.

(** A grouped row's key: the family's prefix, the group's components, and the
    rest. *)
Lemma row_key_group family row key :
  (0 < group_width family)%nat → row_wf row → stored_in family row → row_key_for_family row family = Ok key →
  (∃ rest, key = row_key_prefix family +:+ join_strings "-" (group_parts family row) +:+ "-" +:+ rest) ∧
  length (group_parts family row) = group_width family ∧ Forall plain (group_parts family row).
Proof.
  intros Hw Hwf Hin Hkey.
  destruct row; cbn [row_wf row_key_for_family] in *.
  2: destruct Hin as [-> | [-> _]]; cbn [primary_family expect] in *.
  all: try (destruct Hin as [-> | [_ Hin]]; [|done]; cbn [primary_family] in *; cbn in Hw; try lia).
  all: try (injection Hkey as <-; split_and!; [|done|repeat constructor;
    auto using InodeId_body_plain, hex_plain; apply fmt_dec_plain; lia]).
  all: try (unfold direntry_bind_row_key, direntry_bind_edge_prefix, direntry_bind_prefix,
    direntry_bind_probe, direntry_parent_prefix, direntry_parent_probe,
    direntry_child_bind_row_key, direntry_child_bind_edge_prefix, direntry_child_prefix,
    direntry_child_probe, active_deletion_row_key, active_deletion_probe,
    revision_row_key, revision_no_prefix, revision_prefix, revision_probe,
    attributes_row_key, attributes_prefix, attributes_probe, access_row_key, access_prefix,
    access_probe, hex_encode_row_key_component;
    cbn [group_parts join_strings row_key_prefix]; eexists; rewrite !string_app_assoc; reflexivity).
  destruct Hwf as (Hv & _). destruct (content_body_plain _ Hv) as (body & Eid & Es & Hd & Hb).
  unfold content_layout_row_key, content_layout_prefix, content_layout_probe in Hkey. rewrite Hb in Hkey.
  cbn [mbind res_bind] in Hkey. injection Hkey as <-. cbn [group_parts join_strings]. rewrite Es. cbn [default].
  split_and!; [|done|by repeat constructor]. eexists. rewrite !string_app_assoc. reflexivity.
Qed.


Lemma locality_group family row key :
  (0 < group_width family)%nat → row_wf row → stored_in family row → row_key_for_family row family = Ok key →
  locality_of family key (LeadingKeyComponents (group_width family)) = join_strings "-" (group_parts family row).
Proof.
  intros Hw Hwf Hin Hkey. destruct (row_key_group _ _ _ Hw Hwf Hin Hkey) as ([rest ->] & Hlen & Hplain).
  set (parts := group_parts family row) in *. unfold locality_of.
  assert (∃ c s, join_strings "-" parts +:+ "-" +:+ rest = String c s ∧ N_of_ascii c < 128) as (c & s & E & Hc).
  { assert (∃ p q, join_strings "-" parts +:+ "-" +:+ rest = p +:+ String "-" q ∧ plain p) as (p & q & -> & Hp).
    { destruct parts as [|p [|p' parts]]; [cbn in Hlen; lia| |]; apply Forall_cons in Hplain as [Hp _].
      - by exists p, rest.
      - exists p. eexists. split; [|done]. cbn [join_strings]. rewrite !string_app_assoc. reflexivity. }
    destruct p as [|c p]; [by exists "-"%char, q|]. exists c, (p +:+ String "-" q). split; [done|].
    unfold plain in Hp. cbn [all_bytes] in Hp. apply andb_true_iff in Hp as [Hp _].
    unfold plain_byte in Hp. apply andb_true_iff in Hp as [Hp _]. by apply bool_decide_eq_true in Hp. }
  rewrite E, str_get_from_app by done. cbn [from_option]. unfold id. rewrite <-E, <-Hlen.
  pose proof (components_end_parts "" parts rest Hplain) as Hend.
  change ("" +:+ join_strings "-" parts +:+ "-" +:+ rest) with (join_strings "-" parts +:+ "-" +:+ rest) in Hend.
  change (String.length "") with O in Hend. rewrite Hend.
  - apply str_take_app.
  - intros ->. cbn in Hlen. lia.
Qed.

Lemma join_strings_inj parts parts' :
  Forall plain parts → Forall plain parts' → length parts = length parts' →
  join_strings "-" parts = join_strings "-" parts' → parts = parts'.
Proof.
  intros Hp Hp'. revert parts' Hp'. induction Hp as [|p parts Hp Hps IH]; intros [|p' parts'] Hp' [=]; [done|].
  apply Forall_cons in Hp' as [Hp' Hps']. intros E.
  destruct parts as [|q parts], parts' as [|q' parts']; try done; [by cbn in E; subst|].
  change (p +:+ String "-" (join_strings "-" (q :: parts)) = p' +:+ String "-" (join_strings "-" (q' :: parts'))) in E.
  apply (f_equal (split_once "-")) in E. rewrite !split_once_app in E by by apply plain_dash.
  assert (p = p' ∧ join_strings "-" (q :: parts) = join_strings "-" (q' :: parts')) as [-> E'] by (split; congruence).
  f_equal. by apply IH.
Qed.

Lemma InodeId_body_eq a b : a ≤ U128_MAX → b ≤ U128_MAX → InodeId_body a = InodeId_body b ↔ a = b.
Proof. intros. by apply cmp_Eq_iff, InodeId_body_cmp. Qed.

Lemma hex_eq a b : hex_encode_bytes a = hex_encode_bytes b ↔ a = b.
Proof.
  split; [|by intros ->]. intros E. pose proof (starts_with_hex a b "" "") as Hab.
  rewrite E, starts_with_hex, bool_decide_true in Hab by done. cbn in Hab.
  rewrite andb_true_r in Hab. by apply eq_sym, bool_decide_eq_true in Hab.
Qed.

Lemma fmt_dec_eq a b : a ≤ U64_MAX → b ≤ U64_MAX → fmt_dec 20 a = fmt_dec 20 b ↔ a = b.
Proof. intros. by apply cmp_Eq_iff, cmp_u64_end. Qed.

Lemma cons_eq_iff {A} (x y : A) l k : x :: l = y :: k ↔ x = y ∧ l = k.
Proof. naive_solver. Qed.

(** Two rows have one locality exactly when they are of one group. *)
Lemma locality_same_group family r1 r2 k1 k2 :
  (0 < group_width family)%nat → row_wf r1 → row_wf r2 → stored_in family r1 → stored_in family r2 →
  row_key_for_family r1 family = Ok k1 → row_key_for_family r2 family = Ok k2 →
  locality_of family k1 (LeadingKeyComponents (group_width family))
  = locality_of family k2 (LeadingKeyComponents (group_width family)) ↔ same_group family r1 r2.
Proof.
  intros Hw W1 W2 S1 S2 K1 K2.
  rewrite (locality_group family r1 k1 Hw W1 S1 K1), (locality_group family r2 k2 Hw W2 S2 K2).
  destruct (row_key_group _ _ _ Hw W1 S1 K1) as (_ & L1 & P1).
  destruct (row_key_group _ _ _ Hw W2 S2 K2) as (_ & L2 & P2).
  assert (join_strings "-" (group_parts family r1) = join_strings "-" (group_parts family r2)
    ↔ group_parts family r1 = group_parts family r2) as ->
    by (split; [by apply join_strings_inj; try congruence|by intros ->]).
  unfold same_group. clear L1 L2 P1 P2 K1 K2.
  destruct r1, r2; try (exfalso; unfold stored_in in *; naive_solver); cbn [row_wf] in W1, W2.
  2: destruct S1 as [-> | [-> _]].
  all: try (destruct S1 as [-> | [_ S1]]; [|done]); cbn in Hw; try lia;
    cbn [primary_family group_parts group_width row_order take].
  5: { destruct W1 as (V1 & _), W2 as (V2 & _).
    destruct (content_body_plain _ V1) as (b1 & -> & -> & _), (content_body_plain _ V2) as (b2 & -> & -> & _).
    cbn [default]. split; intros [= E]; simplify_eq; done. }
  all: rewrite !cons_eq_iff, ?InodeId_body_eq, ?hex_eq by lia; rewrite ?fmt_dec_eq by lia; clear; intuition congruence.
Qed.

(** *** Groups are contiguous *)
Definition component_like (c d : component) : Prop :=
  match c, d with Asc _, Asc _ | Desc _, Desc _ | Text _, Text _ => True | _, _ => False end.

Lemma row_order_like family r1 r2 :
  stored_in family r1 → stored_in family r2 → Forall2 component_like (row_order family r1) (row_order family r2).
Proof.
  intros S1 S2. destruct r1, r2; try (exfalso; unfold stored_in in *; naive_solver); cbn [row_order];
    try by repeat constructor. destruct S1 as [-> | [-> _]]; by repeat constructor.
Qed.

Lemma component_between c d e :
  component_like c d → component_like d e → component_cmp c d ≠ Gt → component_cmp d e ≠ Gt → c = e → c = d.
Proof.
  intros L1 L2 H1 H2 <-. destruct c, d; try done; cbn in *; f_equal.
  - rewrite N.compare_antisym in H2. destruct (N.compare_spec n n0); [done|done|by destruct H1].
  - rewrite N.compare_antisym in H2. destruct (N.compare_spec n0 n); [done|done|by destruct H1].
  - by apply (kle_antisym (K:=string)).
Qed.

Lemma components_between n a b c :
  Forall2 component_like a b → Forall2 component_like b c →
  components_cmp a b ≠ Gt → components_cmp b c ≠ Gt → take n a = take n c → take n a = take n b.
Proof.
  revert a b c. induction n as [|n IH]; [done|]. intros [|x a] [|y b] [|z c] Lab Lbc Hab Hbc E; try done; try by inversion Lab.
  apply Forall2_cons in Lab as [Lxy Lab]. apply Forall2_cons in Lbc as [Lyz Lbc]. cbn in *.
  injection E as <- E.
  assert (x = y) as <-.
  { apply (component_between x y x); try done; destruct (component_cmp x y), (component_cmp y x); cbn in *; congruence. }
  assert (component_cmp x x = Eq) as Hxx by (destruct x; cbn; auto using N.compare_refl, string_cmp_refl).
  rewrite Hxx in Hab, Hbc. cbn in Hab, Hbc. f_equal. by eapply IH.
Qed.

Lemma same_group_between family r1 r2 r3 k1 k2 k3 :
  row_wf r1 → row_wf r2 → row_wf r3 → stored_in family r1 → stored_in family r2 → stored_in family r3 →
  row_key_for_family r1 family = Ok k1 → row_key_for_family r2 family = Ok k2 → row_key_for_family r3 family = Ok k3 →
  kle k1 k2 → kle k2 k3 → same_group family r1 r3 → same_group family r1 r2.
Proof.
  intros W1 W2 W3 S1 S2 S3 K1 K2 K3. unfold kle, cmp, string_ord.
  rewrite (row_key_cmp family r1 r2), (row_key_cmp family r2 r3) by done.
  intros H12 H23. apply components_between; auto using row_order_like.
Qed.

(** *** What a rule keeps

    [keeps_after rule floor earlier row]: whether the rule keeps [row] when
    [earlier] are the rows of its group before it. *)
Definition whole_state_at_floor (floor : ChangeSeq) (row : MetadataRow) : bool :=
  match whole_state_revision row with Some (_, _, seq) => bool_decide (seq ≤ floor) | None => false end.
Definition removes_deletion (row : MetadataRow) : bool :=
  match row with
  | RowActiveDeletion record => match record.(ad_action) with Removed _ => true | Listed _ _ _ _ => false end
  | _ => false
  end.
Definition floor_event_row (floor : ChangeSeq) (row : MetadataRow) : bool :=
  match row with
  | RowDirentryBinding binding => bool_decide (binding.(db_committed_seq) ≤ floor) && is_binding_event binding
  | _ => false
  end.
Definition floor_summary_row (floor : ChangeSeq) (row : MetadataRow) : bool :=
  match row with
  | RowDirentryBinding binding => bool_decide (binding.(db_committed_seq) ≤ floor) && negb (is_binding_event binding)
  | _ => false
  end.
Definition bound_row_state (row : MetadataRow) : FloorEvent :=
  match row with
  | RowDirentryBinding binding => if is_bound binding then FloorBound else FloorUnbound
  | _ => FloorBound
  end.
Definition floor_event (floor : ChangeSeq) (earlier : list MetadataRow) : option FloorEvent :=
  bound_row_state <$> head (filter (λ r, floor_event_row floor r = true) earlier).

Definition keeps_after (rule : RetentionRule) (floor : ChangeSeq) (earlier : list MetadataRow) (row : MetadataRow) : bool :=
  match rule with
  | KeepEveryRow => true
  | FirstPerGroup => bool_decide (length earlier = 0%nat)
  | CommitHistory => match keep_commit_history_row row floor with Some _ => true | None => false end
  | WholeState => negb (whole_state_at_floor floor row) || negb (existsb (whole_state_at_floor floor) earlier)
  | ActiveDeletions =>
      match row with
      | RowActiveDeletion record =>
          negb (removes_deletion row) && negb (existsb removes_deletion earlier)
          && bool_decide (floor < record.(ad_deletion_seq))
      | _ => true
      end
  | Bindings =>
      if floor_summary_row floor row then
        bool_decide (floor_event floor earlier ≠ Some FloorUnbound) && negb (existsb (floor_summary_row floor) earlier)
      else if floor_event_row floor row then
        bool_decide (floor_event floor earlier = None) && bool_decide (bound_row_state row = FloorBound)
      else true
  end.

(** The operator's state after [earlier]. *)
Definition operator_after (rule : RetentionRule) (floor : ChangeSeq) (earlier : list MetadataRow)
    (op : RetentionOperator) : Prop :=
  match rule, op with
  | KeepEveryRow, OpKeepEveryRow => True
  | FirstPerGroup, OpFirstPerGroup kept => kept = negb (bool_decide (length earlier = 0%nat))
  | CommitHistory, OpCommitHistory => True
  | WholeState, OpWholeState previous => bool_decide (is_Some previous) = existsb (whole_state_at_floor floor) earlier
  | ActiveDeletions, OpActiveDeletions revoked => revoked = existsb removes_deletion earlier
  | Bindings, OpBindings state =>
      state.(br_floor_event) = floor_event floor earlier ∧
      state.(br_floor_summary_seen) = existsb (floor_summary_row floor) earlier
  | _, _ => False
  end.

Lemma operator_after_new rule floor : operator_after rule floor [] (rule_operator rule).
Proof. by destruct rule. Qed.

Lemma operator_after_close rule floor earlier op :
  operator_after rule floor earlier op → operator_after rule floor [] (operator_close_group op).
Proof. by destruct rule, op. Qed.

Lemma keep_commit_history_row_Some row floor : keep_commit_history_row row floor = Some row ∨ keep_commit_history_row row floor = None.
Proof. destruct row; cbn; try case_decide; auto. Qed.

Lemma existsb_snoc {A} (p : A → bool) l x : existsb p (l ++ [x]) = existsb p l || p x.
Proof. rewrite existsb_app. cbn. by rewrite orb_false_r. Qed.

Lemma floor_event_snoc floor earlier row :
  floor_event floor (earlier ++ [row]) =
  match floor_event floor earlier with
  | Some e => Some e
  | None => if floor_event_row floor row then Some (bound_row_state row) else None
  end.
Proof.
  unfold floor_event. rewrite filter_app. destruct (filter (λ r, floor_event_row floor r = true) earlier); [|done].
  cbn [app head fmap option_fmap option_map]. destruct (floor_event_row floor row) eqn:E.
  - by rewrite filter_cons_True.
  - by rewrite filter_cons_False by congruence.
Qed.

Lemma binding_push_keeps floor earlier state family row kept state' :
  operator_after Bindings floor earlier (OpBindings state) → binding_push state family row floor = Ok (kept, state') →
  kept = (if keeps_after Bindings floor earlier row then Some row else None) ∧
  operator_after Bindings floor (earlier ++ [row]) (OpBindings state').
Proof.
  cbn [operator_after keeps_after]. rewrite floor_event_snoc, existsb_snoc. intros [He Hs] Hpush.
  destruct row; try (injection Hpush as <- <-; rewrite orb_false_r; by destruct (floor_event floor earlier)).
  cbn [floor_summary_row floor_event_row bound_row_state]. cbn [binding_push] in Hpush. case_decide.
  { injection Hpush as <- <-. rewrite bool_decide_false by lia. cbn [andb]. rewrite orb_false_r.
    by destruct (floor_event floor earlier). }
  rewrite bool_decide_true by lia. cbn [andb]. rewrite <-He, <-Hs. destruct (is_binding_event record); cbn [negb] in *.
  - rewrite orb_false_r. destruct (br_floor_event state) as [e|] eqn:Ee.
    { injection Hpush as <- <-. by rewrite Ee. }
    rewrite (bool_decide_true (None = None)) by done.
    destruct (is_bound record); cbn [negb] in Hpush; [step_ok Hpush edge Hedge|]; injection Hpush as <- <-; done.
  - injection Hpush as <- <-. rewrite orb_true_r. cbn. by destruct (br_floor_event state).
Qed.

(** A push decides as the rule does. *)
Lemma operator_decide_keeps rule floor earlier op family row kept op' :
  operator_after rule floor earlier op → operator_decide op family row floor = Ok (kept, op') →
  kept = (if keeps_after rule floor earlier row then Some row else None) ∧ operator_after rule floor (earlier ++ [row]) op'.
Proof.
  intros Hop. destruct rule, op; try done; cbn [operator_decide keeps_after operator_after] in *.
  - by intros [= <- <-].
  - intros [= <- <-]. subst kept0. rewrite length_app. cbn [length]. rewrite (bool_decide_false (_ + 1 = 0)%nat) by lia.
    split; [|done]. by case_bool_decide.
  - intros [= <- <-]. split; [|done]. by destruct (keep_commit_history_row_Some row floor) as [-> | ->].
  - intros Hd. step_ok Hd pr Hpush. destruct pr as [k previous]. injection Hd as <- <-.
    rewrite existsb_snoc, <-Hop. unfold whole_state_push in Hpush. unfold whole_state_at_floor.
    destruct (whole_state_revision row) as [[[i no] seq]|]; [|injection Hpush as <- <-; by rewrite orb_false_r].
    case_decide; [injection Hpush as <- <-; rewrite bool_decide_false by lia; by rewrite orb_false_r|].
    case_decide; [done|]. injection Hpush as <- <-. rewrite bool_decide_true by lia. rewrite orb_true_r.
    by destruct previous_at_floor.
  - unfold active_deletion_push. destruct row; try (intros [= <- <-]; rewrite existsb_snoc; by rewrite orb_false_r).
    rewrite existsb_snoc. cbn [removes_deletion]. subst revoked. destruct (ad_action record).
    + destruct (existsb removes_deletion earlier); cbn [orb negb andb]; [by intros [= <- <-]|].
      rewrite (bool_decide_ext (ad_deletion_seq record ≤ floor) (¬ floor < ad_deletion_seq record)) by lia.
      rewrite bool_decide_not. by destruct (bool_decide (floor < _)); intros [= <- <-].
    + intros [= <- <-]. by rewrite orb_true_r.
  - intros Hd. step_ok Hd pr Hpush. destruct pr as [k state']. injection Hd as <- <-.
    by apply (binding_push_keeps _ _ _ _ _ _ _ Hop) in Hpush.
Qed.

(** The rows that a rule keeps of a family's rows in key order: [earlier] are
    the admitted rows before. *)
Fixpoint retained_from (rule : RetentionRule) (floor : ChangeSeq) (family : MetadataRowFamily)
    (admits : MetadataRow → bool) (earlier rows : list MetadataRow) : list MetadataRow :=
  match rows with
  | [] => []
  | row :: rows =>
      if admits row then
        (if keeps_after rule floor (filter (same_group family row) earlier) row then [row] else [])
        ++ retained_from rule floor family admits (earlier ++ [row]) rows
      else retained_from rule floor family admits earlier rows
  end.
Definition retained rule floor family admits rows : list MetadataRow := retained_from rule floor family admits [] rows.

(** A family's rows with their keys, in key order. *)
Definition family_row (family : MetadataRowFamily) (x : string * MetadataRow) : Prop :=
  row_wf x.2 ∧ stored_in family x.2 ∧ row_key_for_family x.2 family = Ok x.1.

(** Rows are grouped as the rule needs, or the rule judges each row alone. *)
Definition grouped_for (rule : RetentionRule) (family : MetadataRowFamily) (locality : LocalityGrouping) : Prop :=
  (rule = KeepEveryRow ∨ rule = CommitHistory) ∨
  ((0 < group_width family)%nat ∧ locality = LeadingKeyComponents (group_width family)).

Lemma family_row_group family locality x y :
  (0 < group_width family)%nat → locality = LeadingKeyComponents (group_width family) →
  family_row family x → family_row family y →
  locality_of family x.1 locality = locality_of family y.1 locality ↔ same_group family x.2 y.2.
Proof. intros Hw -> (? & ? & ?) (? & ? & ?). by apply locality_same_group. Qed.

Section stream.
Context (rule : RetentionRule) (floor : ChangeSeq) (family : MetadataRowFamily) (locality : LocalityGrouping).
Context (admits : MetadataRow → bool) (Hgroup : grouped_for rule family locality).
Implicit Types (processed rows : list (string * MetadataRow)) (state : ClusterState).

Abbreviation admitted l := (filter (λ r, admits r = true) l).

Lemma same_group_equiv : Equivalence (same_group family).
Proof. unfold same_group. split; [done|by intros ?? ->|by intros ??? -> ->]. Qed.
#[local] Existing Instance same_group_equiv.

(** The loop's state after [processed]. *)
Definition cluster_state_after processed state : Prop :=
  match last processed with
  | None => state.(cs_locality) = None ∧ operator_after rule floor [] state.(cs_operator)
  | Some (key, row) =>
      state.(cs_locality) = Some (locality_of family key locality) ∧
      operator_after rule floor (filter (same_group family row) (admitted processed.*2)) state.(cs_operator)
  end.

Lemma operator_after_any earlier earlier' op :
  rule = KeepEveryRow ∨ rule = CommitHistory → operator_after rule floor earlier op → operator_after rule floor earlier' op.
Proof. by intros [-> | ->]. Qed.

(** The state in which the operator sees the next row. *)
Lemma next_operator processed state key row :
  Forall (family_row family) (processed ++ [(key, row)]) → ascending (processed ++ [(key, row)]) →
  cluster_state_after processed state →
  operator_after rule floor (filter (same_group family row) (admitted processed.*2))
    (if decide (state.(cs_locality) = Some (locality_of family key locality)) then state.(cs_operator)
     else operator_close_group state.(cs_operator)).
Proof using Hgroup.
  intros Hrows Hasc Hstate. unfold cluster_state_after in Hstate. destruct Hgroup as [Halone|[Hw Hloc]].
  { destruct (last processed) as [[k r]|], Hstate as [_ Hop]; case_decide;
      eauto using operator_after_any, operator_after_close. }
  apply Forall_app in Hrows as [Hrows [Hrow _]%Forall_cons].
  destruct (last processed) as [[k r]|] eqn:Elast.
  - destruct Hstate as [Hl Hop]. assert ((k, r) ∈ processed) as Hlast by by apply last_elem_of.
    rewrite Forall_forall in Hrows. pose proof (Hrows _ Hlast) as Hkr. rewrite Hl.
    pose proof (family_row_group family locality (k, r) (key, row) Hw Hloc Hkr Hrow) as Hg. cbn [fst snd] in Hg.
    case_decide as Hd.
    + injection Hd as Hd%Hg. rewrite (filter_ext_in _ (same_group family r)); [done|].
      intros e _. by rewrite Hd.
    + rewrite filter_none; [by eapply operator_after_close|]. intros e He Hsame. apply Hd. f_equal. apply Hg.
      apply list_elem_of_filter in He as [_ ([ke e'] & -> & He)%list_elem_of_fmap]. cbn [snd] in *.
      apply last_Some in Elast as [pre ->]. pose proof (Hrows _ He) as (We & Se & Ke). cbn [fst snd] in *.
      destruct Hkr as (Wr & Sr & Kr), Hrow as (Wrow & Srow & Krow). cbn [fst snd] in *.
      apply sorted_app_inv in Hasc as (Hasc & _ & Hbefore). apply sorted_app_inv in Hasc as (_ & _ & Hpre).
      assert (same_group family e' r) as Her; [|by rewrite <-Her].
      eapply (same_group_between family e' r row); try done.
      * apply elem_of_app in He as [He| [= <- <-]%list_elem_of_singleton]; [|by apply kle_refl].
        apply lt_kle. exact (Hpre (ke, e') (k, r) He ltac:(by left)).
      * apply lt_kle. exact (Hbefore (k, r) (key, row) Hlast ltac:(by left)).
  - destruct Hstate as [-> Hop]. apply last_None in Elast as ->. rewrite decide_False by done. by eapply operator_after_close.
Qed.

Lemma admitted_snoc processed key row :
  admitted (processed ++ [(key, row)]).*2 = admitted processed.*2 ++ (if admits row then [row] else []).
Proof.
  rewrite fmap_app, filter_app. f_equal. change [(key, row)].*2 with [row]. destruct (admits row) eqn:E.
  - by rewrite filter_cons_True.
  - by rewrite filter_cons_False by congruence.
Qed.

Lemma state_after_admitted processed key row op last_key :
  admits row = true → operator_after rule floor (filter (same_group family row) (admitted processed.*2) ++ [row]) op →
  cluster_state_after (processed ++ [(key, row)]) (mkClusterState op (Some (locality_of family key locality)) last_key).
Proof.
  intros Had Hop. unfold cluster_state_after. rewrite last_snoc. split; [done|].
  rewrite admitted_snoc, Had, filter_app. by rewrite (filter_cons_True _ row).
Qed.

Lemma state_after_refused processed key row op last_key :
  admits row = false → operator_after rule floor (filter (same_group family row) (admitted processed.*2)) op →
  cluster_state_after (processed ++ [(key, row)]) (mkClusterState op (Some (locality_of family key locality)) last_key).
Proof.
  intros Had Hop. unfold cluster_state_after. rewrite last_snoc. split; [done|].
  by rewrite admitted_snoc, Had, app_nil_r.
Qed.

Lemma cluster_rows_keeps processed rows state kept state' :
  Forall (family_row family) (processed ++ rows) → ascending (processed ++ rows) →
  cluster_state_after processed state → cluster_rows locality floor admits family state rows = Ok (kept, state') →
  kept = retained_from rule floor family admits (admitted processed.*2) rows.*2.
Proof using Hgroup.
  revert processed state kept state'. induction rows as [|[key row] rows IH]; intros processed state kept state' Hrows Hasc Hstate.
  { by intros [= <- <-]. }
  assert (processed ++ (key, row) :: rows = (processed ++ [(key, row)]) ++ rows) as E by (by rewrite <-app_assoc).
  rewrite E in Hrows, Hasc. intros Hrun. cbn [cluster_rows] in Hrun. step_ok Hrun pr Hstep. destruct pr as [k st1].
  cbv beta iota in Hrun. step_ok Hrun pr Hrest. destruct pr as [rest st2]. injection Hrun as <- <-.
  unfold cluster_row in Hstep. step_ok Hstep lastk Hlast.
  pose proof (next_operator processed state key row ltac:(by apply Forall_app in Hrows as [? _])
    ltac:(by apply sorted_app_inv in Hasc as [? _]) Hstate) as Hop.
  cbn [fmap list_fmap snd retained_from]. destruct (admits row) eqn:Ead; cbn [negb] in Hstep.
  - step_ok Hstep pr Hpush. destruct pr as [k1 op1]. injection Hstep as <- <-.
    unfold operator_push in Hpush. step_ok Hpush pr Hdec. destruct pr as [k2 op2]. injection Hpush as <- <-.
    destruct (operator_decide_keeps _ _ _ _ _ _ _ _ Hop Hdec) as [-> Hop'].
    rewrite (IH (processed ++ [(key, row)]) _ _ _ Hrows Hasc ltac:(by apply state_after_admitted) Hrest).
    rewrite admitted_snoc, Ead. by destruct (keeps_after _ _ _ _).
  - injection Hstep as <- <-.
    rewrite (IH (processed ++ [(key, row)]) _ _ _ Hrows Hasc ltac:(by apply state_after_refused) Hrest).
    by rewrite admitted_snoc, Ead, app_nil_r.
Qed.
End stream.

(** ** The rows that are kept *)
Section kept.
Context (rule : RetentionRule) (floor : ChangeSeq) (family : MetadataRowFamily).
Abbreviation all := (λ _ : MetadataRow, true).

Lemma retained_from_sublist admits earlier rows : sublist (retained_from rule floor family admits earlier rows) rows.
Proof.
  revert earlier. induction rows as [|row rows IH]; intros earlier; cbn; [done|].
  destruct (admits row); [|by apply sublist_cons]. destruct (keeps_after _ _ _ _); cbn; [by apply sublist_skip|by apply sublist_cons].
Qed.

Lemma retained_admitted admits earlier rows :
  retained_from rule floor family admits earlier rows
  = retained_from rule floor family all earlier (filter (λ r, admits r = true) rows).
Proof.
  revert earlier. induction rows as [|row rows IH]; intros earlier; [done|]. cbn [retained_from].
  destruct (admits row) eqn:E; [rewrite filter_cons_True by done|rewrite filter_cons_False by congruence];
    cbn [retained_from]; by rewrite IH.
Qed.

Lemma elem_of_retained_from earlier rows row :
  row ∈ retained_from rule floor family all earlier rows ↔
  ∃ pre post, rows = pre ++ row :: post ∧
    keeps_after rule floor (filter (same_group family row) (earlier ++ pre)) row = true.
Proof.
  revert earlier. induction rows as [|r rows IH]; intros earlier; cbn [retained_from].
  { split; [by intros ?%elem_of_nil|]. by intros ([] & ? & ? & ?). }
  rewrite elem_of_app, IH. split.
  - intros [Hr|(pre & post & -> & Hk)].
    + destruct (keeps_after _ _ _ _) eqn:Hk; [|by apply elem_of_nil in Hr]. apply list_elem_of_singleton in Hr as ->.
      exists [], rows. by rewrite app_nil_r.
    + exists (r :: pre), post. by rewrite <-app_assoc in Hk.
  - intros ([|r' pre] & post & [= -> E] & Hk).
    + left. rewrite app_nil_r in Hk. rewrite Hk. by left.
    + right. exists pre, post. by rewrite <-app_assoc.
Qed.

(** In key order, the rows before a row are those with a smaller key. *)
Lemma elem_of_retained keyed key row :
  Forall (family_row family) keyed → ascending keyed → (key, row) ∈ keyed →
  row ∈ retained rule floor family all keyed.*2 ↔
  keeps_after rule floor (filter (same_group family row) (filter (λ x, cmp x.1 key = Lt) keyed).*2) row = true.
Proof.
  intros Hrows Hasc Hin. unfold retained. rewrite elem_of_retained_from.
  assert (∀ pre post r, keyed.*2 = pre ++ r :: post → row_key_for_family r family = Ok key →
    (filter (λ x, cmp x.1 key = Lt) keyed).*2 = pre) as Hpre.
  { intros pre post r E Ek. apply fmap_app_inv in E as (kpre & krest & -> & E2 & ->).
    destruct krest as [|[k r'] kpost]; [done|]. injection E2 as -> ->.
    apply Forall_app in Hrows as [_ [(_ & _ & Hr) _]%Forall_cons]. cbn in Hr. rewrite Hr in Ek. injection Ek as ->.
    apply sorted_app_inv in Hasc as (_ & [_ Hpost]%StronglySorted_inv & Hbefore).
    rewrite filter_app, filter_all by (intros x Hx; exact (Hbefore x _ Hx ltac:(by left))).
    rewrite filter_cons_False by (cbn; by rewrite cmp_refl).
    rewrite filter_none; [by rewrite app_nil_r|]. intros x Hx Hlt. rewrite Forall_forall in Hpost.
    apply Hpost in Hx. cbn in Hx. apply (kle_not_lt key x.1); [by apply lt_kle|done]. }
  rewrite Forall_forall in Hrows. pose proof (Hrows _ Hin) as (_ & _ & Hkey). cbn in Hkey. split.
  - intros (pre & post & E & Hk). by rewrite (Hpre _ _ _ E Hkey).
  - intros Hk. apply list_elem_of_split in Hin as (pre & post & E).
    assert (keyed.*2 = pre.*2 ++ row :: post.*2) as E2 by (by rewrite E, fmap_app).
    exists pre.*2, post.*2. split; [done|]. cbn [app]. by rewrite <-(Hpre _ _ _ E2 Hkey).
Qed.
End kept.

(** *** Bindings *)
Definition binding_edge (x : DirentryBindingRecord) : InodeId * NameKey * InodeId :=
  (x.(db_parent_inode_id), x.(db_name_key), x.(db_child_inode_id)).

(** The newest binding event of [x]'s edge at the floor is [x]. *)
Definition newest_floor_event (floor : ChangeSeq) (binds : list DirentryBindingRecord) (x : DirentryBindingRecord) : Prop :=
  ∀ y, y ∈ binds → binding_edge y = binding_edge x → is_binding_event y = true → y.(db_committed_seq) ≤ floor →
    kle (binding_position y) (binding_position x).

(** What retention keeps of the binding rows [binds]. *)
Definition binding_kept (floor : ChangeSeq) (binds : list DirentryBindingRecord) (x : DirentryBindingRecord) : Prop :=
  floor < x.(db_committed_seq) ∨
  (is_binding_event x = true ∧ is_bound x = true ∧ newest_floor_event floor binds x) ∨
  (is_binding_event x = false ∧
   (∀ y, y ∈ binds → binding_edge y = binding_edge x → is_binding_event y = false → y.(db_committed_seq) ≤ floor →
     kle (binding_position y) (binding_position x)) ∧
   (∀ y, y ∈ binds → binding_edge y = binding_edge x → is_binding_event y = true → y.(db_committed_seq) ≤ floor →
     cmp (binding_position x) (binding_position y) = Lt → newest_floor_event floor binds y → is_bound y = true)).

Definition binding_family (family : MetadataRowFamily) : Prop := family = FamDirentryBinds ∨ family = FamDirentryChildBinds.

Lemma binding_same_group family x y :
  binding_family family →
  same_group family (RowDirentryBinding x) (RowDirentryBinding y) ↔ binding_edge x = binding_edge y.
Proof. unfold same_group, binding_edge. intros [-> | ->]; cbn; split; intros E; congruence. Qed.

(** Within an edge, the newest row has the first key. *)
Lemma binding_key_order family x y kx ky :
  binding_family family → family_row family (kx, RowDirentryBinding x) → family_row family (ky, RowDirentryBinding y) →
  binding_edge x = binding_edge y → cmp ky kx = cmp (binding_position x) (binding_position y).
Proof.
  intros Hf (Wx & Sx & Kx) (Wy & Sy & Ky) E. cbn [fst snd] in *. unfold binding_edge in E. injection E as E1 E2 E3.
  unfold cmp at 1, string_ord. rewrite (row_key_cmp family _ _ _ _ Wy Wx Sy Sx Ky Kx).
  unfold cmp, DeltaPosition_ord, cmp, prod_ord, cmp, N_ord, binding_position. cbn [dp_seq dp_delta_index fst snd].
  destruct Hf as [-> | ->]; cbn [row_order components_cmp component_cmp]; rewrite E1, E2, E3, !N.compare_refl, string_cmp_refl;
    cbn [lex]; by rewrite lex_Eq.
Qed.

Lemma floor_event_None floor l : floor_event floor l = None ↔ ∀ r, r ∈ l → floor_event_row floor r = false.
Proof.
  unfold floor_event. split.
  - intros E r Hr. destruct (floor_event_row floor r) eqn:Er; [|done].
    assert (r ∈ filter (λ r, floor_event_row floor r = true) l) as Hin by by apply list_elem_of_filter.
    destruct (filter _ l); [by apply elem_of_nil in Hin|done].
  - intros Hl. rewrite filter_none; [done|]. intros r Hr E. rewrite Hl in E by done. done.
Qed.

Lemma floor_event_Some floor l e :
  floor_event floor l = Some e →
  ∃ l1 r l2, l = l1 ++ r :: l2 ∧ floor_event_row floor r = true ∧ e = bound_row_state r ∧
    ∀ r', r' ∈ l1 → floor_event_row floor r' = false.
Proof.
  induction l as [|r l IH]; [done|]. unfold floor_event. destruct (floor_event_row floor r) eqn:Er.
  - rewrite filter_cons_True by done. cbn. intros [= <-]. exists [], r, l. split_and!; try done. by intros ? ?%elem_of_nil.
  - rewrite filter_cons_False by congruence. intros (l1 & r' & l2 & -> & Hr & He & Hl1)%IH.
    exists (r :: l1), r', l2. split_and!; try done. intros r'' [->|Hr'']%elem_of_cons; auto.
Qed.

Lemma existsb_false {A} (p : A → bool) l : existsb p l = false ↔ ∀ x, x ∈ l → p x = false.
Proof.
  induction l as [|a l IH]; cbn; [split; [|done]; by intros _ ? ?%elem_of_nil|].
  rewrite orb_false_iff, IH. split; [|by auto using list_elem_of_here, list_elem_of_further].
  intros [Ha Hl] x [->|Hx]%elem_of_cons; auto.
Qed.

Section kept_bindings.
Context (floor : ChangeSeq) (family : MetadataRowFamily) (keyed : list (string * MetadataRow)).
Context (binds : list DirentryBindingRecord) (Hf : binding_family family).
Context (Hrows : Forall (family_row family) keyed) (Hasc : ascending keyed).
Context (Hbinds : keyed.*2 ≡ₚ RowDirentryBinding <$> binds).

Lemma keyed_binding x : x ∈ binds ↔ ∃ k, (k, RowDirentryBinding x) ∈ keyed.
Proof using Hbinds.
  split.
  - intros Hx. assert (RowDirentryBinding x ∈ keyed.*2) as ([k r] & E & Hk)%list_elem_of_fmap
      by (rewrite Hbinds; by apply list_elem_of_fmap_2). exists k. cbn in E. by subst.
  - intros [k Hk%(list_elem_of_fmap_2 snd)]. rewrite Hbinds in Hk.
    apply list_elem_of_fmap in Hk as (y & [= ->] & Hy). done.
Qed.

Section row.
Context (k : string) (x : DirentryBindingRecord) (Hx : (k, RowDirentryBinding x) ∈ keyed).

(** The rows of the edge before [x]: the newer ones, newest first. *)
Let newer := filter (λ e, same_group family (RowDirentryBinding x) e.2) (filter (λ e, cmp e.1 k = Lt) keyed).

Lemma newer_rows : filter (same_group family (RowDirentryBinding x)) (filter (λ e, cmp e.1 k = Lt) keyed).*2 = newer.*2.
Proof. unfold newer. by rewrite filter_fmap. Qed.

Lemma row_of_key kz z : (kz, RowDirentryBinding z) ∈ keyed → family_row family (kz, RowDirentryBinding z).
Proof using Hrows. rewrite Forall_forall in Hrows. apply Hrows. Qed.

Lemma elem_of_newer kr r :
  (kr, r) ∈ newer ↔ (kr, r) ∈ keyed ∧ ∃ y, r = RowDirentryBinding y ∧ binding_edge y = binding_edge x ∧
    cmp (binding_position x) (binding_position y) = Lt.
Proof using Hf Hrows Hbinds Hx.
  unfold newer. rewrite !list_elem_of_filter. cbn [fst snd]. split.
  - intros (Hg & Hlt & Hr). split; [done|].
    assert (r ∈ keyed.*2) as Hy by (by apply (list_elem_of_fmap_2 snd) in Hr). rewrite Hbinds in Hy.
    apply list_elem_of_fmap in Hy as (y & -> & _). exists y. apply (binding_same_group family x y Hf) in Hg.
    split_and!; [done|done|]. by rewrite <-(binding_key_order family x y k kr Hf) by eauto using row_of_key.
  - intros (Hr & y & -> & Hg & Hlt). split_and!; [by apply binding_same_group| |done].
    by rewrite (binding_key_order family x y k kr Hf) by eauto using row_of_key.
Qed.

Lemma elem_of_newer_rows r :
  r ∈ newer.*2 ↔ ∃ y, r = RowDirentryBinding y ∧ y ∈ binds ∧ binding_edge y = binding_edge x ∧
    cmp (binding_position x) (binding_position y) = Lt.
Proof using Hf Hrows Hbinds Hx.
  rewrite list_elem_of_fmap. split.
  - intros ([kr r'] & -> & (Hr & y & -> & ?)%elem_of_newer). exists y. split; [done|]. split; [|done].
    apply keyed_binding. by exists kr.
  - intros (y & -> & [ky Hy]%keyed_binding & Hrest). exists (ky, RowDirentryBinding y). split; [done|].
    apply elem_of_newer. split; [done|]. by exists y.
Qed.

Lemma not_newer_event :
  floor_event floor newer.*2 = None ↔ newest_floor_event floor binds x.
Proof using Hf Hrows Hbinds Hx.
  rewrite floor_event_None. split.
  - intros Hn y Hy He Hev Hs Hgt. apply cmp_gt_lt in Hgt.
    assert (floor_event_row floor (RowDirentryBinding y) = false) as E
      by (apply Hn, elem_of_newer_rows; by exists y). cbn in E. by rewrite Hev, bool_decide_true in E.
  - intros Hn r (y & -> & Hy & He & Hlt)%elem_of_newer_rows. cbn.
    case_bool_decide; [|done]. destruct (is_binding_event y) eqn:Hev; [|done].
    exfalso. apply (kle_not_lt _ _ (Hn y Hy He Hev ltac:(done)) Hlt).
Qed.

Lemma not_newer_summary :
  existsb (floor_summary_row floor) newer.*2 = false ↔
  ∀ y, y ∈ binds → binding_edge y = binding_edge x → is_binding_event y = false → y.(db_committed_seq) ≤ floor →
    kle (binding_position y) (binding_position x).
Proof using Hf Hrows Hbinds Hx.
  rewrite existsb_false. split.
  - intros Hn y Hy He Hev Hs Hgt. apply cmp_gt_lt in Hgt.
    assert (floor_summary_row floor (RowDirentryBinding y) = false) as E
      by (apply Hn, elem_of_newer_rows; by exists y). cbn in E. by rewrite Hev, bool_decide_true in E.
  - intros Hn r (y & -> & Hy & He & Hlt)%elem_of_newer_rows. cbn.
    case_bool_decide; [|done]. destruct (is_binding_event y) eqn:Hev; [done|].
    exfalso. apply (kle_not_lt _ _ (Hn y Hy He Hev ltac:(done)) Hlt).
Qed.

(** The event that the operator sees first is the newest at the floor. *)
Lemma newer_event_newest e :
  floor_event floor newer.*2 = Some e →
  ∃ y, y ∈ binds ∧ binding_edge y = binding_edge x ∧ is_binding_event y = true ∧ y.(db_committed_seq) ≤ floor ∧
    cmp (binding_position x) (binding_position y) = Lt ∧ newest_floor_event floor binds y ∧
    e = (if is_bound y then FloorBound else FloorUnbound).
Proof using Hf Hrows Hasc Hbinds Hx.
  intros (l1 & r & l2 & E & Hr & -> & Hl1)%floor_event_Some.
  apply fmap_app_inv in E as (kl1 & krest & -> & E2 & Enew). destruct krest as [|[kz r'] kl2]; [done|].
  injection E2 as <- ->. symmetry in Enew.
  assert ((kz, r) ∈ newer) as (Hz & z & -> & Hez & Hlt)%elem_of_newer by (rewrite <-Enew; apply elem_of_app; right; by left).
  cbn in Hr. apply andb_true_iff in Hr as [Hs%bool_decide_eq_true Hev].
  exists z. split_and!; try done; [apply keyed_binding; by exists kz|].
  intros w Hw Hew Hevw Hsw Hgt. apply cmp_gt_lt in Hgt. apply keyed_binding in Hw as [kw Hw].
  assert ((kw, RowDirentryBinding w) ∈ newer) as Hin.
  { apply elem_of_newer. split; [done|]. exists w. split_and!; [done|congruence|].
    eapply cmp_lt_trans; [exact Hlt|done]. }
  assert (cmp kw kz = Lt) as Hkey by (by rewrite (binding_key_order family z w kz kw Hf) by eauto using row_of_key).
  assert (ascending newer) as Hsorted by (unfold newer; by apply sorted_filter, sorted_filter).
  rewrite <-Enew in Hin, Hsorted. apply sorted_app_inv in Hsorted as (_ & [_ Hafter]%StronglySorted_inv & _).
  apply elem_of_app in Hin as [Hin|[[= -> ->]|Hin]%elem_of_cons].
  - assert (floor_event_row floor (RowDirentryBinding w) = false) as E
      by (apply Hl1; exact (list_elem_of_fmap_2 snd _ _ Hin)). cbn in E. by rewrite Hevw, bool_decide_true in E.
  - by rewrite cmp_refl in Hkey.
  - rewrite Forall_forall in Hafter. apply Hafter in Hin. cbn in Hin.
    exact (kle_not_lt kz kw (lt_kle _ _ Hin) Hkey).
Qed.

Lemma kept_iff :
  keeps_after Bindings floor newer.*2 (RowDirentryBinding x) = true ↔ binding_kept floor binds x.
Proof using Hf Hrows Hasc Hbinds Hx.
  unfold binding_kept. cbn [keeps_after floor_summary_row floor_event_row bound_row_state].
  case_bool_decide as Hs; cbn [andb]; [|split; [intros _; left; lia|done]].
  assert (¬ floor < db_committed_seq x) as Hns by lia. destruct (is_binding_event x) eqn:Hev; cbn [negb].
  - rewrite andb_true_iff, !bool_decide_eq_true, not_newer_event. destruct (is_bound x); intuition (done || congruence).
  - rewrite andb_true_iff, bool_decide_eq_true, negb_true_iff, not_newer_summary. split.
    + intros [Hfe Hsum]. right. right. split_and!; [done|done|]. intros y Hy He Hevy Hsy Hlt Hnew.
      destruct (floor_event floor newer.*2) as [e|] eqn:E.
      * destruct (newer_event_newest _ E) as (z & Hz & Hez & Hevz & Hsz & Hltz & Hnz & ->).
        assert (y = z) as ->; [|by destruct (is_bound z)].
        apply keyed_binding in Hy as [ky Hy], Hz as [kz Hz].
        assert (ky = kz) as ->.
        { apply (cmp_eq (K:=string)). rewrite (binding_key_order family z y kz ky Hf) by (eauto using row_of_key || congruence).
          apply cmp_eq. apply kle_antisym; [apply Hnew|apply Hnz]; try congruence; apply keyed_binding; eauto. }
        by injection (ascending_key_inj keyed _ _ Hasc Hy Hz eq_refl).
      * rewrite not_newer_event in E. destruct (kle_not_lt _ _ (E y Hy He Hevy Hsy) Hlt).
    + intros [?|[[? _]|(_ & Hsum & Hev')]]; [lia|congruence|]. split; [|done].
      intros (z & Hz & Hez & Hevz & Hsz & Hltz & Hnz & E)%newer_event_newest.
      rewrite (Hev' z Hz Hez Hevz Hsz Hltz Hnz) in E. done.
Qed.
End row.

(** Retention keeps exactly the binding rows of the rule. *)
Lemma bindings_retained x :
  x ∈ binds →
  RowDirentryBinding x ∈ retained Bindings floor family (λ _, true) keyed.*2 ↔ binding_kept floor binds x.
Proof using Hf Hrows Hasc Hbinds.
  intros [k Hk]%keyed_binding. rewrite (elem_of_retained _ _ _ _ _ _ Hrows Hasc Hk), newer_rows. by apply kept_iff.
Qed.
End kept_bindings.

(** *** Whole states

    Files, attributes and access: [order] is a row's revision and position. *)
Section kept_states.
Context {A : Type} (row : A → MetadataRow) (inode : A → InodeId) (committed : A → ChangeSeq).
Context (order : A → N * (N * N)) (family : MetadataRowFamily).
Context (row_inj : Inj (=) (=) row).
Context (row_revision : ∀ a, whole_state_revision (row a) = Some (inode a, (order a).1, committed a)).
Context (row_group : ∀ a b, same_group family (row a) (row b) ↔ inode a = inode b).
Context (row_ordered : ∀ a b ka kb, family_row family (ka, row a) → family_row family (kb, row b) →
  inode a = inode b → cmp kb ka = cmp (order a) (order b)).

(** What retention keeps of the rows [l]. *)
Definition state_kept (floor : ChangeSeq) (l : list A) (a : A) : Prop :=
  floor < committed a ∨ ∀ b, b ∈ l → inode b = inode a → committed b ≤ floor → kle (order b) (order a).

Lemma states_retained floor keyed l a :
  Forall (family_row family) keyed → ascending keyed → keyed.*2 ≡ₚ row <$> l → a ∈ l →
  row a ∈ retained WholeState floor family (λ _, true) keyed.*2 ↔ state_kept floor l a.
Proof using row_inj row_revision row_group row_ordered.
  intros Hrows Hasc Hl Ha. pose proof Hrows as Hall. rewrite Forall_forall in Hall.
  assert (∀ b, b ∈ l ↔ ∃ k, (k, row b) ∈ keyed) as Hkeyed.
  { intros b. transitivity (row b ∈ keyed.*2).
    - rewrite Hl. split; [by apply list_elem_of_fmap_2|]. by intros (b' & ->%(inj row) & Hb)%list_elem_of_fmap.
    - rewrite list_elem_of_fmap. split; [intros ([k r] & -> & Hk); by exists k|intros [k Hk]; by exists (k, row b)]. }
  apply Hkeyed in Ha as [k Hk]. rewrite (elem_of_retained _ _ _ _ _ _ Hrows Hasc Hk).
  unfold state_kept. cbn [keeps_after]. unfold whole_state_at_floor at 1. rewrite row_revision.
  case_bool_decide as Hs; cbn [negb orb]; [|split; [intros _; left; lia|done]].
  rewrite negb_true_iff, existsb_false. split.
  - intros Hn. right. intros b [kb Hb]%Hkeyed Hi Hsb Hgt. apply cmp_gt_lt in Hgt.
    assert (whole_state_at_floor floor (row b) = false) as E.
    { apply Hn, list_elem_of_filter. split; [by apply row_group|]. apply list_elem_of_fmap. exists (kb, row b).
      split; [done|]. apply list_elem_of_filter. split; [|done]. cbn. by rewrite (row_ordered a b k kb) by auto. }
    unfold whole_state_at_floor in E. by rewrite row_revision, bool_decide_true in E.
  - intros [?|Hn] r; [lia|]. intros [Hg ([kr r'] & -> & [Hlt Hr]%list_elem_of_filter)%list_elem_of_fmap]%list_elem_of_filter.
    cbn [fst snd] in *. assert (r' ∈ keyed.*2) as Hb by (by apply (list_elem_of_fmap_2 snd) in Hr). rewrite Hl in Hb.
    apply list_elem_of_fmap in Hb as (b & -> & Hb). unfold whole_state_at_floor. rewrite row_revision.
    case_bool_decide; [|done]. apply row_group in Hg. rewrite (row_ordered a b k kr) in Hlt by auto.
    destruct (kle_not_lt (order b) (order a) (Hn b Hb ltac:(done) ltac:(done)) Hlt).
Qed.
End kept_states.

Ltac state_family :=
  first [by intros ?? [=]|done|intros a b; unfold same_group; cbn; split; intros; congruence|
    intros a b ka kb (Wa & Sa & Ka) (Wb & Sb & Kb) Ei; cbn [fst snd] in *; unfold cmp at 1, string_ord;
    rewrite (row_key_cmp _ _ _ _ _ Wb Wa Sb Sa Kb Ka); unfold cmp, prod_ord, cmp, prod_ord, cmp, N_ord;
    cbn [row_order components_cmp component_cmp fst snd]; rewrite Ei, N.compare_refl; cbn [lex]; by rewrite lex_Eq].

Definition revision_kept := state_kept rr_inode_id rr_committed_seq
  (λ r, (r.(rr_revision_no), (r.(rr_committed_seq), r.(rr_delta_index)))).
Lemma revisions_retained floor keyed l r :
  Forall (family_row FamRevisions) keyed → ascending keyed → keyed.*2 ≡ₚ RowFileRevision <$> l → r ∈ l →
  RowFileRevision r ∈ retained WholeState floor FamRevisions (λ _, true) keyed.*2 ↔ revision_kept floor l r.
Proof. apply states_retained; state_family. Qed.

Definition attributes_kept := state_kept at_inode_id at_committed_seq
  (λ r, (r.(at_attributes_revision_no), (r.(at_committed_seq), r.(at_delta_index)))).
Lemma attributes_retained floor keyed l r :
  Forall (family_row FamAttributes) keyed → ascending keyed → keyed.*2 ≡ₚ RowAttributesRevision <$> l → r ∈ l →
  RowAttributesRevision r ∈ retained WholeState floor FamAttributes (λ _, true) keyed.*2 ↔ attributes_kept floor l r.
Proof. apply states_retained; state_family. Qed.

Definition access_kept := state_kept ac_inode_id ac_committed_seq
  (λ r, (r.(ac_access_revision_no), (r.(ac_committed_seq), r.(ac_delta_index)))).
Lemma access_retained floor keyed l r :
  Forall (family_row FamAccess) keyed → ascending keyed → keyed.*2 ≡ₚ RowAccessRevision <$> l → r ∈ l →
  RowAccessRevision r ∈ retained WholeState floor FamAccess (λ _, true) keyed.*2 ↔ access_kept floor l r.
Proof. apply states_retained; state_family. Qed.

(** The newest state at or above the floor is kept. *)
Lemma newest_state_kept {A} (inode : A → InodeId) (committed : A → ChangeSeq) (order : A → N * (N * N))
    (floor seq : ChangeSeq) (l k : list A) i :
  key_inj order (filter (λ a, inode a = i) l) → floor ≤ seq →
  (∀ a, a ∈ k ↔ a ∈ l ∧ state_kept inode committed order floor l a) →
  max_by_key order (filter (λ a, inode a = i ∧ committed a ≤ seq) k)
  = max_by_key order (filter (λ a, inode a = i ∧ committed a ≤ seq) l).
Proof.
  intros Hinj Hle Hk.
  assert (key_inj order (filter (λ a, inode a = i ∧ committed a ≤ seq) k)) as Hinjk.
  { intros a b Ha Hb. apply Hinj; rewrite list_elem_of_filter in *; naive_solver. }
  destruct (max_by_key order (filter _ l)) as [m|] eqn:Em.
  - apply max_by_key_is_max in Em as [Hm Hmax]. apply list_elem_of_filter in Hm as [[Hi Hs] Hm].
    apply max_by_key_intro; [done|]. split.
    + apply list_elem_of_filter. split; [done|]. apply Hk. split; [done|].
      destruct (decide (floor < committed m)); [by left|right]. intros b Hb Hib Hsb. apply Hmax, list_elem_of_filter.
      split; [|done]. split; [congruence|lia].
    + intros y [Hy [Hyl _]%Hk]%list_elem_of_filter. apply Hmax, list_elem_of_filter. done.
  - apply max_by_key_None in Em. apply max_by_key_None. apply filter_none. intros a [Ha _]%Hk Hp.
    assert (a ∈ filter (λ a, inode a = i ∧ committed a ≤ seq) l) as Hin by (by apply list_elem_of_filter).
    rewrite Em in Hin. by apply elem_of_nil in Hin.
Qed.

(** *** The other families *)
Definition deletion_kept (floor : ChangeSeq) (l : list ActiveDeletionRecord) (r : ActiveDeletionRecord) : Prop :=
  (∀ seq, r.(ad_action) ≠ Removed seq) ∧ floor < r.(ad_deletion_seq) ∧
  ∀ y seq, y ∈ l → y.(ad_deletion_seq) = r.(ad_deletion_seq) → y.(ad_root_inode_id) = r.(ad_root_inode_id) →
    y.(ad_action) ≠ Removed seq.

Lemma deletions_retained floor keyed l r :
  Forall (family_row FamActiveDeletions) keyed → ascending keyed → keyed.*2 ≡ₚ RowActiveDeletion <$> l → r ∈ l →
  RowActiveDeletion r ∈ retained ActiveDeletions floor FamActiveDeletions (λ _, true) keyed.*2 ↔ deletion_kept floor l r.
Proof.
  intros Hrows Hasc Hl Hr.
  assert (RowActiveDeletion r ∈ keyed.*2) as ([k r'] & E & Hk)%list_elem_of_fmap
    by (rewrite Hl; by apply list_elem_of_fmap_2). cbn in E. subst r'.
  rewrite (elem_of_retained _ _ _ _ _ _ Hrows Hasc Hk). cbn [keeps_after removes_deletion].
  rewrite !andb_true_iff, !negb_true_iff, bool_decide_eq_true, existsb_false. unfold deletion_kept.
  rewrite Forall_forall in Hrows. pose proof (Hrows _ Hk) as (Wr & Sr & Kr). cbn [fst snd] in *. split.
  - intros [[Hact Hn] Hs]. split_and!; [by intros seq E; rewrite E in Hact|done|]. intros y seq Hy E1 E2 E3.
    assert (RowActiveDeletion y ∈ keyed.*2) as ([ky y'] & E & Hky)%list_elem_of_fmap
      by (rewrite Hl; by apply list_elem_of_fmap_2). cbn in E. subst y'.
    pose proof (Hrows _ Hky) as (Wy & Sy & Ky). cbn [fst snd] in *.
    assert (removes_deletion (RowActiveDeletion y) = false) as E; [|cbn in E; by rewrite E3 in E].
    apply Hn, list_elem_of_filter. split; [unfold same_group; cbn; congruence|].
    apply list_elem_of_fmap. exists (ky, RowActiveDeletion y). split; [done|]. apply list_elem_of_filter. split; [|done].
    cbn [fst]. unfold cmp, string_ord. rewrite (row_key_cmp _ _ _ _ _ Wy Wr Sy Sr Ky Kr).
    cbn [row_order components_cmp component_cmp]. rewrite E1, E2, !N.compare_refl, E3. cbn [lex].
    by destruct (ad_action r).
  - intros (Hact & Hs & Hn). split_and!; [|intros x|done].
    + destruct (ad_action r) eqn:E; [done|]. by destruct (Hact removed_seq).
    + intros [Hg ([kx x'] & -> & [_ Hx]%list_elem_of_filter)%list_elem_of_fmap]%list_elem_of_filter. cbn [fst snd] in *.
      assert (x' ∈ keyed.*2) as Hy by (by apply (list_elem_of_fmap_2 snd) in Hx). rewrite Hl in Hy.
      apply list_elem_of_fmap in Hy as (y & -> & Hy). unfold same_group in Hg. cbn in Hg. cbn.
      destruct (ad_action y) eqn:Ey; [done|]. destruct (Hn y removed_seq); congruence.
Qed.

Definition layout_kept (l : list ContentLayoutRecord) (r : ContentLayoutRecord) : Prop :=
  ∀ y, y ∈ l → y.(lr_content_id) = r.(lr_content_id) →
    kle (y.(lr_size_bytes), y.(lr_committed_seq)) (r.(lr_size_bytes), r.(lr_committed_seq)).

Lemma layouts_retained floor keyed l r :
  Forall (family_row FamContentLayouts) keyed → ascending keyed → keyed.*2 ≡ₚ RowContentLayout <$> l → r ∈ l →
  RowContentLayout r ∈ retained FirstPerGroup floor FamContentLayouts (λ _, true) keyed.*2 ↔ layout_kept l r.
Proof.
  intros Hrows Hasc Hl Hr.
  assert (RowContentLayout r ∈ keyed.*2) as ([k r'] & E & Hk)%list_elem_of_fmap
    by (rewrite Hl; by apply list_elem_of_fmap_2). cbn in E. subst r'.
  rewrite (elem_of_retained _ _ _ _ _ _ Hrows Hasc Hk). cbn [keeps_after].
  rewrite bool_decide_eq_true, length_zero_iff_nil. unfold layout_kept.
  rewrite Forall_forall in Hrows. pose proof (Hrows _ Hk) as (Wr & Sr & Kr). cbn [fst snd] in *.
  assert (∀ ky y, (ky, RowContentLayout y) ∈ keyed → y.(lr_content_id) = r.(lr_content_id) →
    cmp ky k = cmp (r.(lr_size_bytes), r.(lr_committed_seq)) (y.(lr_size_bytes), y.(lr_committed_seq))) as Hcmp.
  { intros ky y Hy Ec. destruct (Hrows _ Hy) as (Wy & Sy & Ky). cbn [fst snd] in *. unfold cmp at 1, string_ord.
    rewrite (row_key_cmp _ _ _ _ _ Wy Wr Sy Sr Ky Kr). cbn [row_order components_cmp component_cmp].
    rewrite Ec, string_cmp_refl. cbn [lex]. rewrite lex_Eq. done. }
  split.
  - intros Hn y Hy Ec Hgt. apply cmp_gt_lt in Hgt.
    assert (RowContentLayout y ∈ keyed.*2) as ([ky y'] & E & Hky)%list_elem_of_fmap
      by (rewrite Hl; by apply list_elem_of_fmap_2). cbn in E. subst y'.
    assert (RowContentLayout y ∈ filter (same_group FamContentLayouts (RowContentLayout r))
      (filter (λ x, cmp x.1 k = Lt) keyed).*2) as Hin; [|rewrite Hn in Hin; by apply elem_of_nil in Hin].
    apply list_elem_of_filter. split; [unfold same_group; cbn; congruence|]. apply list_elem_of_fmap.
    exists (ky, RowContentLayout y). split; [done|]. apply list_elem_of_filter. split; [|done]. cbn. by rewrite (Hcmp ky y).
  - intros Hn. apply filter_none. intros x ([kx x'] & -> & [Hlt Hx]%list_elem_of_filter)%list_elem_of_fmap Hg. cbn [fst snd] in *.
    assert (x' ∈ keyed.*2) as Hy by (by apply (list_elem_of_fmap_2 snd) in Hx). rewrite Hl in Hy.
    apply list_elem_of_fmap in Hy as (y & -> & Hy). unfold same_group in Hg. cbn in Hg.
    assert (lr_content_id y = lr_content_id r) as Ec by congruence. rewrite (Hcmp kx y Hx Ec) in Hlt.
    by apply (kle_not_lt (lr_size_bytes y, lr_committed_seq y) (lr_size_bytes r, lr_committed_seq r)); [apply Hn|].
Qed.

Lemma history_retained floor family keyed key row :
  Forall (family_row family) keyed → ascending keyed → (key, row) ∈ keyed →
  row ∈ retained CommitHistory floor family (λ _, true) keyed.*2 ↔ keep_commit_history_row row floor = Some row.
Proof.
  intros Hrows Hasc Hk. rewrite (elem_of_retained _ _ _ _ _ _ Hrows Hasc Hk). cbn [keeps_after].
  by destruct (keep_commit_history_row_Some row floor) as [-> | ->].
Qed.

Lemma every_row_retained floor family admits earlier rows :
  retained_from KeepEveryRow floor family admits earlier rows = filter (λ r, admits r = true) rows.
Proof.
  revert earlier. induction rows as [|r rows IH]; intros earlier; [done|]. cbn [retained_from keeps_after].
  rewrite IH. destruct (admits r) eqn:E; [by rewrite filter_cons_True|by rewrite filter_cons_False by congruence].
Qed.

(** ** The theorems *)
Definition binding_row (row : MetadataRow) : option DirentryBindingRecord :=
  match row with RowDirentryBinding r => Some r | _ => None end.
Definition revision_row (row : MetadataRow) : option RevisionRecord :=
  match row with RowFileRevision r => Some r | _ => None end.
Definition attributes_row (row : MetadataRow) : option AttributesRevisionRecord :=
  match row with RowAttributesRevision r => Some r | _ => None end.
Definition access_row (row : MetadataRow) : option AccessRevisionRecord :=
  match row with RowAccessRevision r => Some r | _ => None end.
Definition deletion_row (row : MetadataRow) : option ActiveDeletionRecord :=
  match row with RowActiveDeletion r => Some r | _ => None end.
Definition layout_row (row : MetadataRow) : option ContentLayoutRecord :=
  match row with RowContentLayout r => Some r | _ => None end.

(** What a base compaction at [floor] keeps of a family's [rows]. *)
Definition row_kept (floor : ChangeSeq) (rows : list MetadataRow) (row : MetadataRow) : Prop :=
  match row with
  | RowInode _ | RowTombstone _ => True
  | RowDirentryBinding r => binding_kept floor (omap binding_row rows) r
  | RowFileRevision r => revision_kept floor (omap revision_row rows) r
  | RowAttributesRevision r => attributes_kept floor (omap attributes_row rows) r
  | RowAccessRevision r => access_kept floor (omap access_row rows) r
  | RowActiveDeletion r => deletion_kept floor (omap deletion_row rows) r
  | RowContentLayout r => layout_kept (omap layout_row rows) r
  | RowCommitReceipt r => floor ≤ r.(rc_committed_seq)
  | RowCommit r => floor ≤ r.(wcp_committed_seq)
  | RowMerge r => floor ≤ r.(mi_committed_seq)
  end.

Lemma rows_of_kind {A} (kind : A → MetadataRow) (of_row : MetadataRow → option A) (rows : list MetadataRow) :
  (∀ r, r ∈ rows → ∃ a, r = kind a) → (∀ a, of_row (kind a) = Some a) → rows = kind <$> omap of_row rows.
Proof.
  intros Hall Hof. induction rows as [|r rows IH]; [done|]. destruct (Hall r ltac:(by left)) as [a ->].
  cbn [omap list_omap]. rewrite Hof. cbn. f_equal. apply IH. intros r Hr. apply Hall. by right.
Qed.

Lemma stored_rows {A} (kind : A → MetadataRow) (of_row : MetadataRow → option A) family keyed :
  Forall (family_row family) keyed → (∀ r, stored_in family r → ∃ a, r = kind a) → (∀ a, of_row (kind a) = Some a) →
  keyed.*2 ≡ₚ kind <$> omap of_row keyed.*2.
Proof.
  intros Hrows Hkind Hof. rewrite <-(rows_of_kind kind of_row); [done| |done].
  intros r ([k r'] & -> & Hx)%list_elem_of_fmap. rewrite Forall_forall in Hrows. apply Hkind. by apply (Hrows _ Hx).
Qed.

Lemma omap_row {A} (kind : A → MetadataRow) (of_row : MetadataRow → option A) (rows : list MetadataRow) a :
  (∀ a, of_row (kind a) = Some a) → kind a ∈ rows → a ∈ omap of_row rows.
Proof. intros Hof Ha. apply list_elem_of_omap. by exists (kind a). Qed.

(** The rows of a family are of its kind. *)
Ltac stored_kind := intros [] []; try naive_solver; eauto.

(** A family's rule keeps what [row_kept] says. *)
Lemma family_retained floor family keyed group cluster row :
  Forall (family_row family) keyed → ascending keyed → cluster ∈ retention_clusters group →
  family ∈ cluster.(cl_families) → row ∈ keyed.*2 →
  row ∈ retained cluster.(cl_rule) floor family (λ _, true) keyed.*2 ↔ row_kept floor keyed.*2 row.
Proof.
  intros Hrows Hasc Hc Hfam Hrow.
  assert (∃ key, (key, row) ∈ keyed) as [key Hkey].
  { apply list_elem_of_fmap in Hrow as ([k r] & -> & Hx). by exists k. }
  assert (stored_in family row) as Hst by (rewrite Forall_forall in Hrows; by apply (Hrows _ Hkey)).
  destruct group; cbn in Hc; repeat (apply elem_of_cons in Hc as [->|Hc]); try (by apply elem_of_nil in Hc);
    cbn in Hfam; apply list_elem_of_singleton in Hfam as ->; cbn [cl_rule];
    (destruct row; try (exfalso; unfold stored_in in Hst; naive_solver); cbn [row_kept]).
  - apply bindings_retained; [by left|done|done|eapply stored_rows; [done|stored_kind|done]|by apply (omap_row RowDirentryBinding)].
  - apply bindings_retained; [by right|done|done|eapply stored_rows; [done|stored_kind|done]|by apply (omap_row RowDirentryBinding)].
  - apply revisions_retained; [done|done|eapply stored_rows; [done|stored_kind|done]|by apply (omap_row RowFileRevision)].
  - unfold retained. rewrite every_row_retained, filter_all by done. done.
  - unfold retained. rewrite every_row_retained, filter_all by done. done.
  - apply deletions_retained; [done|done|eapply stored_rows; [done|stored_kind|done]|by apply (omap_row RowActiveDeletion)].
  - rewrite history_retained by done. cbn. case_decide; split; try done; lia.
  - rewrite history_retained by done. cbn. case_decide; split; try done; lia.
  - rewrite history_retained by done. cbn. case_decide; split; try done; lia.
  - apply layouts_retained; [done|done|eapply stored_rows; [done|stored_kind|done]|by apply (omap_row RowContentLayout)].
  - apply attributes_retained; [done|done|eapply stored_rows; [done|stored_kind|done]|by apply (omap_row RowAttributesRevision)].
  - apply access_retained; [done|done|eapply stored_rows; [done|stored_kind|done]|by apply (omap_row RowAccessRevision)].
Qed.

Lemma cluster_grouped group cluster family :
  cluster ∈ retention_clusters group → family ∈ cluster.(cl_families) →
  grouped_for cluster.(cl_rule) family cluster.(cl_locality).
Proof.
  intros Hc Hfam. destruct group; cbn in Hc; repeat (apply elem_of_cons in Hc as [->|Hc]); try (by apply elem_of_nil in Hc);
    cbn in Hfam; apply list_elem_of_singleton in Hfam as ->; cbn; unfold grouped_for; cbn; auto with lia.
Qed.

(** The loop's state before the first row. *)
Definition cluster_start (cluster : RetentionCluster) (last : MetadataRowFamily → option string) : ClusterState :=
  mkClusterState (rule_operator cluster.(cl_rule)) None last.

Lemma filtered_rows family admits keyed :
  Forall (family_row family) keyed → ascending keyed →
  let keyed' := filter (λ x : string * MetadataRow, admits x.2 = true) keyed in
  Forall (family_row family) keyed' ∧ ascending keyed' ∧ keyed'.*2 = filter (λ r, admits r = true) keyed.*2.
Proof.
  intros Hrows Hasc. cbv zeta. split_and!; [|by apply sorted_filter|by rewrite filter_fmap].
  apply Forall_forall. intros x [_ Hx]%list_elem_of_filter. rewrite Forall_forall in Hrows. by apply Hrows.
Qed.

(** ** Compaction does not refuse sound rows *)

(** [x] is the edge's binding event at the floor, and binds. *)
Definition bound_at_floor (floor : ChangeSeq) (binds : list DirentryBindingRecord) (x : DirentryBindingRecord) : Prop :=
  x ∈ binds ∧ is_binding_event x = true ∧ is_bound x = true ∧ x.(db_committed_seq) ≤ floor ∧ newest_floor_event floor binds x.

(** One revision of a number, one child of a name and one name of a child, at
    the floor. *)
Record rows_fit (floor : ChangeSeq) (family : MetadataRowFamily) (rows : list MetadataRow) : Prop := {
  fit_revisions : ∀ r1 r2 i no s1 s2, r1 ∈ rows → r2 ∈ rows → whole_state_revision r1 = Some (i, no, s1) →
    whole_state_revision r2 = Some (i, no, s2) → s1 ≤ floor → s2 ≤ floor → r1 = r2;
  fit_slots : family = FamDirentryBinds → ∀ x y, bound_at_floor floor (omap binding_row rows) x →
    bound_at_floor floor (omap binding_row rows) y → x.(db_parent_inode_id) = y.(db_parent_inode_id) →
    x.(db_name_key) = y.(db_name_key) → binding_edge x = binding_edge y;
  fit_children : family = FamDirentryChildBinds → ∀ x y, bound_at_floor floor (omap binding_row rows) x →
    bound_at_floor floor (omap binding_row rows) y → x.(db_child_inode_id) = y.(db_child_inode_id) →
    binding_edge x = binding_edge y;
}.

Lemma whole_state_group family r1 r2 i1 n1 s1 i2 n2 s2 :
  (0 < group_width family)%nat → stored_in family r1 → stored_in family r2 → whole_state_revision r1 = Some (i1, n1, s1) →
  whole_state_revision r2 = Some (i2, n2, s2) → same_group family r1 r2 → i1 = i2.
Proof.
  intros Hw S1 S2. destruct r1, r2; try done; cbn; intros [= <- <- <-] [= <- <- <-];
    try (exfalso; unfold stored_in in *; naive_solver);
    (destruct S1 as [-> | [_ S1]]; [|done]); unfold same_group; cbn; intros; congruence.
Qed.

Lemma stored_binding_family family x : stored_in family (RowDirentryBinding x) → binding_family family.
Proof. intros [-> | [-> _]]; [by left|by right]. Qed.

Section success.
Context (rule : RetentionRule) (floor : ChangeSeq) (family : MetadataRowFamily) (locality : LocalityGrouping).
Context (admits : MetadataRow → bool) (Hgroup : grouped_for rule family locality).
Context (keyed : list (string * MetadataRow)) (Hrows : Forall (family_row family) keyed) (Hasc : ascending keyed).
Context (Hfit : rows_fit floor family (filter (λ r, admits r = true) keyed.*2)).
Implicit Types (processed rows : list (string * MetadataRow)).
Abbreviation admitted l := (filter (λ r, admits r = true) l).

(** What the operator remembers is of rows that it saw. *)
Definition operator_sound processed (row : MetadataRow) (op : RetentionOperator) : Prop :=
  match op with
  | OpWholeState (Some no) =>
      ∃ r i s, r ∈ admitted processed.*2 ∧ same_group family row r ∧ whole_state_revision r = Some (i, no, s) ∧ s ≤ floor
  | OpBindings state => ∀ edge, state.(br_last_bound_edge) = Some edge →
      ∃ x, RowDirentryBinding x ∈ admitted processed.*2 ∧ binding_edge x = edge ∧
        bound_at_floor floor (omap binding_row (admitted keyed.*2)) x
  | _ => True
  end.

Lemma processed_key processed k row rows x :
  keyed = processed ++ (k, row) :: rows → x ∈ processed.*2 → x ≠ row.
Proof using Hrows Hasc.
  intros E ([kx x'] & -> & Hx)%list_elem_of_fmap Heq. cbn in Heq. subst x'. rewrite E in Hasc, Hrows.
  apply sorted_app_inv in Hasc as (_ & _ & Hlt). specialize (Hlt _ (k, row) Hx ltac:(by left)). cbn in Hlt.
  rewrite Forall_forall in Hrows. destruct (Hrows (kx, row)) as (_ & _ & K1); [apply elem_of_app; by left|].
  destruct (Hrows (k, row)) as (_ & _ & K2); [apply elem_of_app; right; by left|]. cbn in K1, K2.
  assert (kx = k) as -> by congruence. by rewrite cmp_refl in Hlt.
Qed.

(** An event with no event of its edge at the floor before it is the newest. *)
Lemma first_event_newest processed k x rows :
  keyed = processed ++ (k, RowDirentryBinding x) :: rows →
  floor_event floor (filter (same_group family (RowDirentryBinding x)) (admitted processed.*2)) = None →
  newest_floor_event floor (omap binding_row (admitted keyed.*2)) x.
Proof using Hrows Hasc.
  intros E Hnone y Hy He Hev Hs Hgt. apply cmp_gt_lt in Hgt. rewrite floor_event_None in Hnone.
  apply list_elem_of_omap in Hy as (r & Hr & Er). destruct r; try done. injection Er as ->.
  apply list_elem_of_filter in Hr as [Had ([ky r] & Er & Hky)%list_elem_of_fmap]. cbn [snd] in Er. subst r.
  rewrite Forall_forall in Hrows. assert ((k, RowDirentryBinding x) ∈ keyed) as Hk by (rewrite E; apply elem_of_app; right; by left).
  assert (binding_family family) as Hf by (destruct (Hrows _ Hk) as (_ & ? & _); by eapply stored_binding_family).
  assert (cmp ky k = Lt) as Hlt by (rewrite (binding_key_order family x y k ky Hf); auto).
  assert (RowDirentryBinding y ∈ processed.*2) as Hin.
  { rewrite E in Hky, Hasc. apply sorted_app_inv in Hasc as (_ & [_ Hafter]%StronglySorted_inv & _).
    apply elem_of_app in Hky as [Hky|[[= -> _]|Hky]%elem_of_cons].
    - exact (list_elem_of_fmap_2 snd _ _ Hky).
    - by rewrite cmp_refl in Hlt.
    - rewrite Forall_forall in Hafter. apply Hafter in Hky. cbn in Hky. destruct (kle_not_lt k ky (lt_kle _ _ Hky) Hlt). }
  assert (floor_event_row floor (RowDirentryBinding y) = false) as E2.
  { apply Hnone. rewrite !list_elem_of_filter. split_and!; [by apply binding_same_group|done|done]. }
  cbn in E2. by rewrite Hev, bool_decide_true in E2.
Qed.

Lemma sound_weaken processed x row op : operator_sound processed row op → operator_sound (processed ++ [x]) row op.
Proof.
  assert (∀ r, r ∈ admitted processed.*2 → r ∈ admitted (processed ++ [x]).*2) as Hmono
    by (intros r; rewrite fmap_app, filter_app; intros; apply elem_of_app; by left).
  destruct op as [| | |[no|]| |state]; cbn; try done.
  - intros (r & i & s & Hr & Hrest). exists r, i, s. auto.
  - intros Hs edge He. destruct (Hs edge He) as (y & Hy & Hrest). exists y. auto.
Qed.

Lemma binding_push_succeeds processed k x rows state :
  keyed = processed ++ (k, RowDirentryBinding x) :: rows → admits (RowDirentryBinding x) = true →
  state.(br_floor_event) = floor_event floor (filter (same_group family (RowDirentryBinding x)) (admitted processed.*2)) →
  operator_sound processed (RowDirentryBinding x) (OpBindings state) →
  ∃ kept state', binding_push state family (RowDirentryBinding x) floor = Ok (kept, state') ∧
    operator_sound (processed ++ [(k, RowDirentryBinding x)]) (RowDirentryBinding x) (OpBindings state').
Proof using Hrows Hasc Hfit.
  intros E Had Hev Hsound. pose proof (sound_weaken _ (k, RowDirentryBinding x) _ _ Hsound) as Hweak.
  cbn [binding_push]. case_decide; [by eexists _, _|]. destruct (is_binding_event x) eqn:Hx; cbn [negb]; [|by eexists _, _].
  destruct (br_floor_event state) as [e|] eqn:Ee; [by eexists _, _|]. destruct (is_bound x) eqn:Hb; cbn [negb]; [|by eexists _, _].
  symmetry in Hev. pose proof (first_event_newest _ _ _ _ E Hev) as Hnew.
  assert (RowDirentryBinding x ∈ admitted keyed.*2) as Hin.
  { apply list_elem_of_filter. split; [done|]. rewrite E, fmap_app. apply elem_of_app. right. by left. }
  assert (bound_at_floor floor (omap binding_row (admitted keyed.*2)) x) as Hbx.
  { split_and!; try done; [by apply (omap_row RowDirentryBinding)|lia]. }
  assert (∃ last, refuse_a_second_bound_edge (br_last_bound_edge state) family x = Ok last ∧ last = Some (binding_edge x)) as (last & -> & ->).
  { unfold refuse_a_second_bound_edge. destruct (br_last_bound_edge state) as [[[p n] c]|] eqn:El; [|by eexists].
    destruct (Hsound _ El) as (y & Hy & Hey & Hby).
    assert (binding_edge y ≠ binding_edge x) as Hne.
    { intros Heq. rewrite floor_event_None in Hev. destruct Hby as (_ & Hyev & _ & Hys & _).
      assert (floor_event_row floor (RowDirentryBinding y) = false) as E2.
      { apply Hev, list_elem_of_filter. split; [|done]. apply binding_same_group; [|done].
        rewrite Forall_forall in Hrows. destruct (Hrows (k, RowDirentryBinding x)) as (_ & Hst & _).
        { rewrite E. apply elem_of_app. right. by left. } by eapply stored_binding_family. }
      cbn in E2. by rewrite Hyev, bool_decide_true in E2. }
    unfold binding_edge in Hey. injection Hey as <- <- <-.
    destruct (bool_decide (family = FamDirentryBinds) && _) eqn:C1.
    { rewrite !andb_true_iff, !bool_decide_eq_true in C1. destruct C1 as (F & C1 & C2). destruct Hne. by apply (fit_slots _ _ _ Hfit). }
    destruct (bool_decide (family = FamDirentryChildBinds) && _) eqn:C2; [|by eexists].
    rewrite andb_true_iff, !bool_decide_eq_true in C2. destruct C2 as (F & C2). destruct Hne. by apply (fit_children _ _ _ Hfit). }
  eexists _, _. split; [done|]. intros edge [= <-]. exists x. split_and!; try done.
  apply list_elem_of_filter. split; [done|]. rewrite fmap_app. apply elem_of_app. right. by left.
Qed.

Lemma whole_state_push_succeeds processed k row rows previous :
  (0 < group_width family)%nat → keyed = processed ++ (k, row) :: rows → admits row = true →
  operator_sound processed row (OpWholeState previous) →
  ∃ kept previous', whole_state_push previous family row floor = Ok (kept, previous') ∧
    operator_sound (processed ++ [(k, row)]) row (OpWholeState previous').
Proof using Hrows Hasc Hfit.
  intros Hw E Had Hsound. pose proof (sound_weaken _ (k, row) _ _ Hsound) as Hweak. unfold whole_state_push.
  destruct (whole_state_revision row) as [[[i no] seq]|] eqn:Er; [|by eexists _, _].
  case_decide; [by eexists _, _|]. case_decide as Hp.
  - subst previous. destruct Hsound as (r & i' & s & Hr & Hg & Hrr & Hs). exfalso.
    assert (∀ x, x ∈ keyed.*2 → stored_in family x) as Hst.
    { intros x ([kx x'] & -> & Hx)%list_elem_of_fmap. rewrite Forall_forall in Hrows. by apply (Hrows _ Hx). }
    assert (row ∈ keyed.*2) as Hrow by (rewrite E, fmap_app; apply elem_of_app; right; by left).
    apply list_elem_of_filter in Hr as [Hra Hr].
    assert (r ∈ keyed.*2) as Hrk by (rewrite E, fmap_app; apply elem_of_app; by left).
    assert (i = i') as <- by (eapply (whole_state_group family row r); eauto).
    apply (processed_key processed k row rows r E Hr).
    eapply (fit_revisions _ _ _ Hfit r row); rewrite ?list_elem_of_filter; eauto. lia.
  - eexists _, _. split; [done|]. exists row, i, seq. split_and!; [|done|done|lia].
    apply list_elem_of_filter. split; [done|]. rewrite fmap_app. apply elem_of_app. right. by left.
Qed.

Lemma decide_succeeds processed k row rows op :
  keyed = processed ++ (k, row) :: rows → admits row = true →
  operator_after rule floor (filter (same_group family row) (admitted processed.*2)) op → operator_sound processed row op →
  ∃ kept op', operator_decide op family row floor = Ok (kept, op') ∧ operator_sound (processed ++ [(k, row)]) row op'.
Proof using Hgroup Hrows Hasc Hfit.
  intros E Had Hop Hsound. destruct rule, op; try done; cbn [operator_decide]; try by eexists _, _.
  - destruct Hgroup as [[?|?]|[Hw _]]; try done.
    destruct (whole_state_push_succeeds _ _ _ _ _ Hw E Had Hsound) as (kept & previous' & -> & Hs). by eexists _, _.
  - destruct (active_deletion_push revoked row floor). by eexists _, _.
  - destruct row; try (cbn; eexists _, _; split; [done|]; by apply sound_weaken).
    destruct Hop as [Hfe _]. destruct (binding_push_succeeds _ _ _ _ _ E Had Hfe Hsound) as (kept & state' & -> & Hs).
    by eexists _, _.
Qed.

(** The operator's memory when the next row arrives. *)
Definition loop_sound processed (state : ClusterState) : Prop :=
  match last processed with
  | None => state.(cs_operator) = rule_operator rule
  | Some (_, row) => operator_sound processed row state.(cs_operator)
  end ∧
  match state.(cs_last_input_key_by_family) family with
  | None => True
  | Some key => ∀ x, x ∈ keyed → x ∉ processed → cmp key x.1 = Lt
  end.

Lemma close_sound processed row row' op : operator_sound processed row op → operator_sound processed row' (operator_close_group op).
Proof. by destruct op as [| | |[]| |]. Qed.

Lemma next_sound processed state k row rows :
  keyed = processed ++ (k, row) :: rows → cluster_state_after rule floor family locality admits processed state →
  loop_sound processed state →
  operator_sound processed row
    (if decide (state.(cs_locality) = Some (locality_of family k locality)) then state.(cs_operator)
     else operator_close_group state.(cs_operator)).
Proof using Hgroup Hrows Hasc Hfit.
  intros E Hstate [Hsound _]. unfold cluster_state_after in Hstate. destruct (last processed) as [[kl l]|] eqn:El.
  - destruct Hstate as [Hl Hop]. case_decide as Hd; [|by eapply close_sound].
    destruct Hgroup as [Halone|[Hw Hloc]].
    { destruct rule, (cs_operator state); try done; naive_solver. }
    rewrite Hl in Hd. injection Hd as Hd. apply last_elem_of in El. rewrite Forall_forall in Hrows.
    assert (same_group family l row) as Hg.
    { apply (family_row_group family locality (kl, l) (k, row) Hw Hloc); [| |done]; apply Hrows; rewrite E; apply elem_of_app;
        [by left|right; by left]. }
    destruct (cs_operator state) as [| | |[]| |]; try done.
    destruct Hsound as (r & i & s & Hr & Hgr & Hrest). exists r, i, s. split; [done|]. split; [|done]. unfold same_group in *. congruence.
  - rewrite Hsound. case_decide; [naive_solver|]. by destruct rule.
Qed.

Lemma keys_advance processed k row rows last :
  keyed = processed ++ (k, row) :: rows →
  match last family with None => True | Some key => ∀ x, x ∈ keyed → x ∉ processed → cmp key x.1 = Lt end →
  ∃ last', refuse_a_repeated_input_key last family k = Ok last' ∧ last' family = Some k ∧
    ∀ x, x ∈ keyed → x ∉ processed ++ [(k, row)] → cmp k x.1 = Lt.
Proof using Hasc Hrows Hfit.
  intros E Hlast. pose proof Hasc as Hs. rewrite E in Hs. apply sorted_app_inv in Hs as (_ & [_ Hafter]%StronglySorted_inv & Hbefore).
  assert (∀ x, x ∈ keyed → x ∉ processed ++ [(k, row)] → cmp k x.1 = Lt) as Hnext.
  { intros x Hx Hnot. rewrite E in Hx. rewrite elem_of_app, list_elem_of_singleton in Hnot.
    apply elem_of_app in Hx as [Hx|[->|Hx]%elem_of_cons]; [naive_solver|naive_solver|]. rewrite Forall_forall in Hafter. by apply Hafter. }
  unfold refuse_a_repeated_input_key. destruct (last family) as [key|] eqn:El.
  - assert (cmp key k = Lt) as Hlt.
    { apply (Hlast (k, row)); [rewrite E; apply elem_of_app; right; by left|]. intros Hin.
      specialize (Hbefore _ (k, row) Hin ltac:(by left)). cbn in Hbefore. by rewrite cmp_refl in Hbefore. }
    rewrite (proj2 (cmp_gt_lt k key) Hlt). eexists. split_and!; [done| |done]. cbv beta. by rewrite decide_True.
  - eexists. split_and!; [done| |done]. cbv beta. by rewrite decide_True.
Qed.

Lemma cluster_rows_succeeds processed rows state :
  keyed = processed ++ rows → cluster_state_after rule floor family locality admits processed state →
  loop_sound processed state → ∃ kept state', cluster_rows locality floor admits family state rows = Ok (kept, state').
Proof using Hgroup Hrows Hasc Hfit.
  revert processed state. induction rows as [|[k row] rows IH]; intros processed state E Hstate Hsound; [by eexists _, _|].
  cbn [cluster_rows]. unfold cluster_row.
  destruct (keys_advance processed k row rows _ E (proj2 Hsound)) as (last' & -> & Hl & Hnext). cbn [mbind res_bind].
  assert (keyed = (processed ++ [(k, row)]) ++ rows) as E' by (by rewrite <-app_assoc).
  assert (Forall (family_row family) (processed ++ [(k, row)]) ∧ ascending (processed ++ [(k, row)])) as [Hf Ha].
  { rewrite E' in Hrows, Hasc. apply Forall_app in Hrows as [? _]. by apply sorted_app_inv in Hasc as [? _]. }
  pose proof (next_operator rule floor family locality admits Hgroup processed state k row Hf Ha Hstate) as Hop.
  pose proof (next_sound processed state k row rows E Hstate Hsound) as Hs.
  destruct (admits row) eqn:Ead; cbn [negb].
  - destruct (decide_succeeds processed k row rows _ E Ead Hop Hs) as (kept & op' & Hd & Hs').
    destruct (operator_decide_keeps _ _ _ _ _ _ _ _ Hop Hd) as [_ Hop']. unfold operator_push. rewrite Hd. cbn [mbind res_bind].
    destruct (IH (processed ++ [(k, row)]) (mkClusterState op' (Some (locality_of family k locality)) last') E') as (rest & st & ->).
    + by apply state_after_admitted.
    + split; [by rewrite last_snoc|]. cbn. by rewrite Hl.
    + by eexists _, _.
  - cbn [mbind res_bind]. destruct (IH (processed ++ [(k, row)]) (mkClusterState (if decide (cs_locality state = Some (locality_of family k locality))
      then cs_operator state else operator_close_group (cs_operator state)) (Some (locality_of family k locality)) last') E') as (rest & st & ->).
    + by apply state_after_refused.
    + split; [rewrite last_snoc; by apply sound_weaken|]. cbn. by rewrite Hl.
    + by eexists _, _.
Qed.
End success.

Lemma retention_keeps (group : MetadataFamilyGroup) (cluster : RetentionCluster) (family : MetadataRowFamily)
  (floor : ChangeSeq) (admits : MetadataRow → bool) (keyed : list (string * MetadataRow))
  (Hcluster : cluster ∈ retention_clusters group) (Hfamily : family ∈ cluster.(cl_families))
  (Hrows : Forall (family_row family) keyed) (Hasc : ascending keyed)
  (Hfit : rows_fit floor family (filter (λ r, admits r = true) keyed.*2)) :
  ∃ kept state, cluster_rows cluster.(cl_locality) floor admits family (cluster_start cluster (λ _, None)) keyed = Ok (kept, state) ∧
    sublist kept keyed.*2 ∧
    ∀ row, row ∈ kept ↔ row ∈ keyed.*2 ∧ admits row = true ∧ row_kept floor (filter (λ r, admits r = true) keyed.*2) row.
Proof.
  pose proof (cluster_grouped _ _ _ Hcluster Hfamily) as Hgroup.
  assert (cluster_state_after cluster.(cl_rule) floor family cluster.(cl_locality) admits [] (cluster_start cluster (λ _, None))) as Hstate
    by (split; [done|apply operator_after_new]).
  destruct (cluster_rows_succeeds cluster.(cl_rule) floor family cluster.(cl_locality) admits Hgroup keyed Hrows Hasc Hfit
    [] keyed (cluster_start cluster (λ _, None)) eq_refl Hstate (conj eq_refl I)) as (kept & state & Hrun).
  exists kept, state. split; [done|].
  pose proof (cluster_rows_keeps _ _ _ _ _ Hgroup [] keyed _ _ _ Hrows Hasc Hstate Hrun) as ->.
  split; [apply retained_from_sublist|]. intros row. rewrite retained_admitted.
  destruct (filtered_rows family admits keyed Hrows Hasc) as (Hrows' & Hasc' & E). rewrite <-E.
  change (retained_from _ _ _ _ _ _) with (retained cluster.(cl_rule) floor family (λ _, true)
    (filter (λ x : string * MetadataRow, admits x.2 = true) keyed).*2). split.
  - intros Hr. assert (row ∈ (filter (λ x : string * MetadataRow, admits x.2 = true) keyed).*2) as Hin
      by (eapply elem_of_sublist; [exact Hr|apply retained_from_sublist]).
    pose proof Hin as Hin'. rewrite E, list_elem_of_filter in Hin'. split_and!; [naive_solver..|]. by eapply family_retained.
  - intros (Hin & Had & Hk). eapply family_retained; try done. rewrite E. by apply list_elem_of_filter.
Qed.

(** C20 Retention keeps exactly what the floor needs, and does not refuse sound
    rows.  Take a family's rows in key order, of which a base compaction
    admits some.  If no inode has two rows of one revision number at or below
    the floor, and no name has two children (no child two names) there, the
    operator streams through all rows; the rows it keeps are, in order: every
    inode and tombstone row; the binding rows, files, attributes and access
    rows above the floor, and of each edge or inode the newest at the floor,
    unless the edge is unbound there; the deletions above the floor that
    nothing revoked; the longest and newest layout of each content; and the
    commit rows from the floor up. *)
Theorem retention_exact (group : MetadataFamilyGroup) (cluster : RetentionCluster) (family : MetadataRowFamily)
  (floor : ChangeSeq) (admits : MetadataRow → bool) (keyed : list (string * MetadataRow))
  (Hcluster : cluster ∈ retention_clusters group) (Hfamily : family ∈ cluster.(cl_families))
  (Hrows : Forall (family_row family) keyed) (Hasc : ascending keyed)
  (Hfit : rows_fit floor family (filter (λ r, admits r = true) keyed.*2)) :
  ∃ kept state, cluster_rows cluster.(cl_locality) floor admits family (cluster_start cluster (λ _, None)) keyed = Ok (kept, state) ∧
    sublist kept keyed.*2 ∧
    ∀ row, row ∈ kept ↔ row ∈ keyed.*2 ∧ admits row = true ∧ row_kept floor (filter (λ r, admits r = true) keyed.*2) row.
Proof. by apply (retention_keeps group). Qed.

Module retention_example.
Definition binding (name : NameKey) (child seq bind_seq : N) (state : DirentryBindingState) : DirentryBindingRecord :=
  mkDirentryBindingRecord 1 name child File "act" 0 seq 0 "c" "act" 0 (mkDeltaPosition bind_seq 0) state.

(** An edge that is unbound at the floor, and one that is bound. *)
Definition rows : list MetadataRow :=
  RowDirentryBinding <$> [binding "a" 7 10 5 Unbound; binding "a" 7 5 5 (Bound "a" None); binding "b" 8 3 3 (Bound "b" None)].
Definition keyed : list (string * MetadataRow) :=
  (λ row, (match row_key_for_family row FamDirentryBinds with Ok key => key | _ => "" end, row)) <$> rows.
Definition cluster : RetentionCluster := mkRetentionCluster [FamDirentryBinds] (LeadingKeyComponents 3) Bindings.

Lemma rows_fit_example : rows_fit 12 FamDirentryBinds (filter (λ r, true = true) keyed.*2).
Proof.
  assert (∀ x, bound_at_floor 12 (omap binding_row (filter (λ r, true = true) keyed.*2)) x →
    x = binding "a" 7 5 5 (Bound "a" None) ∨ x = binding "b" 8 3 3 (Bound "b" None)) as Hb.
  { intros x (Hx & _ & Hbound & _). change (x ∈ [binding "a" 7 10 5 Unbound; binding "a" 7 5 5 (Bound "a" None);
      binding "b" 8 3 3 (Bound "b" None)]) in Hx.
    repeat (apply elem_of_cons in Hx as [->|Hx]); [done|by left|by right|by apply elem_of_nil in Hx]. }
  split.
  - intros r1 r2 i no s1 s2 Hr1 _ E1. exfalso. change (r1 ∈ rows) in Hr1. unfold rows in Hr1.
    apply list_elem_of_fmap in Hr1 as (x & -> & _). done.
  - intros _ x y [-> | ->]%Hb [-> | ->]%Hb; done.
  - done.
Qed.

Lemma retention_exact_witness :
  ∃ kept state, cluster_rows (LeadingKeyComponents 3) 12 (λ _, true) FamDirentryBinds (cluster_start cluster (λ _, None)) keyed
    = Ok (kept, state) ∧ sublist kept keyed.*2 ∧
    ∀ row, row ∈ kept ↔ row ∈ keyed.*2 ∧ true = true ∧ row_kept 12 (filter (λ r, true = true) keyed.*2) row.
Proof.
  apply (retention_exact GrpBindings cluster FamDirentryBinds 12 (λ _, true) keyed).
  - left.
  - left.
  - repeat constructor; cbn; unfold U128_MAX, U64_MAX, U32_MAX; first [lia|done].
  - repeat constructor.
  - apply rows_fit_example.
Defined.

(** Only the bound edge's row is kept. *)
Lemma retention_example_kept :
  cluster_rows (LeadingKeyComponents 3) 12 (λ _, true) FamDirentryBinds (cluster_start cluster (λ _, None)) keyed
    ≫= (λ r, Ok r.1) = Ok [RowDirentryBinding (binding "b" 8 3 3 (Bound "b" None))].
Proof. vm_compute. reflexivity. Qed.
End retention_example.
