(* ===== verification/SegmentBuild.v ===== *)
(** * Writing metadata segments

    [loonfs-core/src/segment/build.rs]: the writer that encodes a family's rows
    into segments, the segment puts in flight, and the segments of a fold. *)
From S2P Require Import Prelude Types Utf8 Codec Records SegmentBlocks SegmentFormat RowKeys Ids ObjectKeys MetadataState SegmentRows Manifest SegmentLoad SegmentCoherence SegmentServe Visibility Errors.
Local Open Scope N_scope.

Definition STORE_WRITES_IN_FLIGHT : nat := 32.
Definition MAX_PENDING_SEGMENT_BYTES : N := 32 * 1024 * 1024.
Definition METADATA_SEGMENT_ENCODING : N := 1.

Record MetadataRunPolicy := mkMetadataRunPolicy {
  rp_max_delta_runs : N;
  rp_min_compaction_runs : N;
  rp_max_rows_per_segment : N;
  rp_target_segment_bytes : N;
  rp_max_input_runs_per_step : N;
  rp_max_decoded_input_bytes_per_step : N;
}.

(** [extent_object_name]. *)
Definition extent_object_name (extent : ContentExtent) : string :=
  match extent.(ext_object) with
  | Whole => keys.content_blob_name extent.(ext_content_id)
  | Span start end_ => keys.content_span_name extent.(ext_content_id) start end_
  end.

(** [Result::expect]. *)
Definition expect_ok {E F A} (r : res E A) : res F A :=
  match r with
  | Ok a => Ok a
  | Err _ => Panic
  | Panic => Panic
  | OutOfFuel => OutOfFuel
  end.

Lemma expect_ok_Ok {E F A} (r : res E A) a : expect_ok (F:=F) r = Ok a → r = Ok a.
Proof. destruct r; [|done..]. by intros [= ->]. Qed.

Section build.
Context `{SectionCodecs} {Manifest : Type} `{Cbor MetadataRow} `{Cbor (list SegmentIndexEntry)}.
#[local] Abbreviation block := (DecodedSegmentBlock MetadataRow Manifest).

(** The cache that written segments go to, the store's answer to a put, whether
    a put is ready when it is first polled, which pending put is ready next, and
    the generated segment ids. *)
Context (segment_cache : BlockCache block).
Context (put_immutable_verified : nat → string → bytes → res ObjectStoreError unit).
Context (starts_ready : nat → bool) (next_ready : nat → nat) (generate : nat → string).

Definition segment_blocks_builder (family : MetadataRowFamily) : SegmentBlocksBuilder :=
  if bool_decide (family = FamContentLayouts) then with_extent_filter SegmentBlocksBuilder_default
  else SegmentBlocksBuilder_default.

Definition prepare_manifest_segment (segment_id : string) (namespace_id : NamespaceId) (family : MetadataRowFamily)
    (built : BuiltSegmentBlocks) : res CoreError (MetadataSegmentRef * bytes) :=
  filter_inline ← expect_ok (inline_filter_hex built);
  Ok ({| ms_owner_namespace_id := namespace_id; ms_segment_id := segment_id; ms_family := family;
         ms_encoding := METADATA_SEGMENT_ENCODING; ms_row_count := built.(bsb_row_count);
         ms_min_row_key := built.(bsb_min_row_key); ms_max_row_key := built.(bsb_max_row_key);
         ms_index_block := built.(bsb_index); ms_filter_block := built.(bsb_filter);
         ms_filter_inline := filter_inline; ms_extent_filter_block := built.(bsb_extent_filter) |}, built.(bsb_bytes)).

(** ** Puts in flight *)

(** The puts of one fold or compaction, with what the finished ones did: the
    objects they stored and the blocks they published. *)
Record MetadataSegmentPuts := mkMetadataSegmentPuts {
  sp_writer : SegmentWriter;
  sp_pending : list (MetadataSegmentRef * bytes);
  sp_pending_bytes : N;
  sp_moment : nat;
  sp_stored : list (string * bytes);
  sp_published : list (Destination * SegmentCacheKey * block);
}.
Implicit Types (puts : MetadataSegmentPuts) (descriptor : MetadataSegmentRef).

Definition puts_new (writer : SegmentWriter) : MetadataSegmentPuts :=
  {| sp_writer := writer; sp_pending := []; sp_pending_bytes := 0; sp_moment := 0; sp_stored := []; sp_published := [] |}.

Definition with_pending puts (pending : list (MetadataSegmentRef * bytes)) (pending_bytes : N) : MetadataSegmentPuts :=
  {| sp_writer := puts.(sp_writer); sp_pending := pending; sp_pending_bytes := pending_bytes;
     sp_moment := S puts.(sp_moment); sp_stored := puts.(sp_stored); sp_published := puts.(sp_published) |}.

(** The [async] block of [put]: a segment that this process cannot decode is an
    error. *)
Definition complete puts descriptor (object : bytes) : res CoreError MetadataSegmentPuts :=
  let object_key := metadata_segment_object_key descriptor in
  _ ← map_err (CoreError_store object_key) (put_immutable_verified puts.(sp_moment) object_key object);
  let inserted := insert_written_segment segment_cache descriptor object puts.(sp_writer) in
  _ ← map_err CeManifestLoad inserted.(outcome);
  Ok {| sp_writer := puts.(sp_writer); sp_pending := puts.(sp_pending); sp_pending_bytes := puts.(sp_pending_bytes);
        sp_moment := S puts.(sp_moment); sp_stored := puts.(sp_stored) ++ [(object_key, object)];
        sp_published := puts.(sp_published) ++ inserted.(published) |}.

Definition wait_for_put puts : res CoreError MetadataSegmentPuts :=
  let ready := (next_ready puts.(sp_moment) mod length puts.(sp_pending))%nat in
  match puts.(sp_pending) !! ready with
  | None => Ok puts
  | Some (descriptor, object) =>
      puts ← complete puts descriptor object;
      if decide (blen object ≤ puts.(sp_pending_bytes)) then
        Ok (with_pending puts (delete ready puts.(sp_pending)) (puts.(sp_pending_bytes) - blen object))
      else Panic
  end.

(** The loop of [wait_for_capacity]; every round takes a pending put. *)
Fixpoint wait_rounds (fuel : nat) puts (size_bytes : N) : res CoreError MetadataSegmentPuts :=
  if bool_decide (puts.(sp_pending) ≠ [])
     && (bool_decide (STORE_WRITES_IN_FLIGHT ≤ length puts.(sp_pending))%nat
         || bool_decide (MAX_PENDING_SEGMENT_BYTES < N.min U64_MAX (puts.(sp_pending_bytes) + size_bytes)))
  then
    match fuel with
    | O => OutOfFuel
    | S fuel => puts ← wait_for_put puts; wait_rounds fuel puts size_bytes
    end
  else Ok puts.
Definition wait_for_capacity puts (size_bytes : N) : res CoreError MetadataSegmentPuts :=
  wait_rounds (length puts.(sp_pending)) puts size_bytes.

Definition segment_put puts descriptor (object : bytes) : res CoreError MetadataSegmentPuts :=
  puts ← wait_for_capacity puts (blen object);
  if starts_ready puts.(sp_moment) then complete puts descriptor object
  else Ok (with_pending puts (puts.(sp_pending) ++ [(descriptor, object)]) (puts.(sp_pending_bytes) + blen object)).

Fixpoint finish_rounds (fuel : nat) puts : res CoreError MetadataSegmentPuts :=
  match puts.(sp_pending) with
  | [] => Ok puts
  | _ =>
      match fuel with
      | O => OutOfFuel
      | S fuel => puts ← wait_for_put puts; finish_rounds fuel puts
      end
  end.
Definition puts_finish puts : res CoreError MetadataSegmentPuts := finish_rounds (length puts.(sp_pending)) puts.

(** [MetadataSegmentPuts::run]: [rounds] pending puts get ready before [work]. *)
Fixpoint puts_run {T} (rounds : nat) puts (work : res CoreError T) : res CoreError (T * MetadataSegmentPuts) :=
  match rounds, puts.(sp_pending) with
  | S rounds, _ :: _ => puts ← wait_for_put puts; puts_run rounds puts work
  | _, _ => result ← work; Ok (result, puts)
  end.

(** ** The segment writer *)

Record MetadataSegmentWriter := mkMetadataSegmentWriter {
  mw_family : MetadataRowFamily;
  mw_namespace_id : NamespaceId;
  mw_builder : SegmentBlocksBuilder;
  mw_last_parent_filter_key : option string;
  mw_segments : list MetadataSegmentRef;
}.
Implicit Types (w : MetadataSegmentWriter) (row : MetadataRow).

Definition writer_new (family : MetadataRowFamily) (namespace_id : NamespaceId) : MetadataSegmentWriter :=
  {| mw_family := family; mw_namespace_id := namespace_id; mw_builder := segment_blocks_builder family;
     mw_last_parent_filter_key := None; mw_segments := [] |}.

Definition push_parent_filter_key w row : SegmentBlocksBuilder * option string :=
  match parent_filter_key_for_family row w.(mw_family) with
  | Some parent_filter_key =>
      if decide (w.(mw_last_parent_filter_key) = Some parent_filter_key) then (w.(mw_builder), w.(mw_last_parent_filter_key))
      else (push_filter_key w.(mw_builder) parent_filter_key, Some parent_filter_key)
  | None => (w.(mw_builder), w.(mw_last_parent_filter_key))
  end.

Fixpoint push_layout_extents (builder : SegmentBlocksBuilder) (extents : list ContentExtent)
    : res SegmentBlockCodecError SegmentBlocksBuilder :=
  match extents with
  | [] => Ok builder
  | extent :: extents => builder ← push_extent_name builder (extent_object_name extent); push_layout_extents builder extents
  end.

(** [MetadataSegmentWriter::push], with the encoded row that it gives to
    [fold_encoded_row]. *)
Definition writer_push w row : res CoreError (bytes * MetadataSegmentWriter) :=
  let '(builder, last_parent_filter_key) := push_parent_filter_key w row in
  builder ←
    match row with
    | RowContentLayout record => expect_ok (push_layout_extents builder record.(lr_layout).(cl_extents))
    | _ => Ok builder
    end;
  row_key ← infallible (row_key_for_family row w.(mw_family));
  filter_key ← infallible (filter_key_for_family row w.(mw_family));
  '(encoded, builder) ← expect_ok (push_with_encoded_row builder row_key filter_key row);
  Ok (encoded, {| mw_family := w.(mw_family); mw_namespace_id := w.(mw_namespace_id); mw_builder := builder;
                  mw_last_parent_filter_key := last_parent_filter_key; mw_segments := w.(mw_segments) |}).

Definition write_segment w puts : res CoreError (MetadataSegmentWriter * MetadataSegmentPuts) :=
  puts ← wait_for_capacity puts 0;
  built ← expect_ok (segment_build w.(mw_builder));
  '(descriptor, object) ←
    prepare_manifest_segment (generate puts.(sp_moment)) w.(mw_namespace_id) w.(mw_family) built;
  puts ← segment_put puts descriptor object;
  Ok ({| mw_family := w.(mw_family); mw_namespace_id := w.(mw_namespace_id);
         mw_builder := segment_blocks_builder w.(mw_family); mw_last_parent_filter_key := None;
         mw_segments := w.(mw_segments) ++ [descriptor] |}, puts).

Definition roll_full_segments w puts (run_policy : MetadataRunPolicy)
    : res CoreError (MetadataSegmentWriter * MetadataSegmentPuts) :=
  if bool_decide (run_policy.(rp_max_rows_per_segment) ≤ w.(mw_builder).(sb_row_count))
     || bool_decide (run_policy.(rp_target_segment_bytes) ≤ decoded_data_bytes w.(mw_builder))
  then write_segment w puts
  else Ok (w, puts).

Definition writer_finish w puts : res CoreError (list MetadataSegmentRef * MetadataSegmentPuts) :=
  '(w, puts) ← (if bool_decide (0 < w.(mw_builder).(sb_row_count)) then write_segment w puts else Ok (w, puts));
  Ok (w.(mw_segments), puts).

(** ** The segments of a fold *)
Context (namespace_id : NamespaceId) (run_policy : MetadataRunPolicy).

Fixpoint write_rows w puts (rows : list MetadataRow) : res CoreError (MetadataSegmentWriter * MetadataSegmentPuts) :=
  match rows with
  | [] => Ok (w, puts)
  | row :: rows =>
      '(_, w) ← writer_push w row;
      '(w, puts) ← roll_full_segments w puts run_policy;
      write_rows w puts rows
  end.

Fixpoint write_families puts (rows_for_family : MetadataRowFamily → res Empty_set (list MetadataRow))
    (families : list MetadataRowFamily) : res CoreError (list MetadataFamilySegments * MetadataSegmentPuts) :=
  match families with
  | [] => Ok ([], puts)
  | family :: families =>
      rows ← infallible (rows_for_family family);
      '(w, puts) ← write_rows (writer_new family namespace_id) puts rows;
      '(segments, puts) ← writer_finish w puts;
      '(segments_by_family, puts) ← write_families puts rows_for_family families;
      Ok ({| fs_family := family; fs_segments := segments |} :: segments_by_family, puts)
  end.

Definition build_manifest_segments_from_rows (rows_for_family : MetadataRowFamily → res Empty_set (list MetadataRow))
    : res CoreError (list MetadataFamilySegments * MetadataSegmentPuts) :=
  '(segments_by_family, puts) ← write_families (puts_new Fold) rows_for_family MetadataRowFamily_ALL;
  puts ← puts_finish puts;
  Ok (segments_by_family, puts).

Definition build_manifest_segments (metadata_state : MetadataState) (layouts : list (ContentId * ContentLayoutRecord))
    : res CoreError (list MetadataFamilySegments * MetadataSegmentPuts) :=
  build_manifest_segments_from_rows
    (λ family, rows ← manifest_rows_for_family metadata_state family; with_layouts family rows layouts).

Definition build_manifest_delta_run_segments (after_seq : ChangeSeq) (metadata_state : MetadataState)
    (layouts : list (ContentId * ContentLayoutRecord)) : res CoreError (list MetadataFamilySegments * MetadataSegmentPuts) :=
  build_manifest_segments_from_rows
    (λ family, rows ← manifest_rows_for_family_after_seq metadata_state family after_seq; with_layouts family rows layouts).

(** ** Facts: the puts in flight *)

Definition object_bytes_of (pending : list (MetadataSegmentRef * bytes)) : N :=
  foldr (λ p total, blen p.2 + total) 0 pending.

(** The bounds on what is in flight: at most [STORE_WRITES_IN_FLIGHT] puts and
    [MAX_PENDING_SEGMENT_BYTES] of bodies, or one put of any size. *)
Record puts_ok puts : Prop := {
  po_bytes : puts.(sp_pending_bytes) = object_bytes_of puts.(sp_pending);
  po_count : (length puts.(sp_pending) ≤ STORE_WRITES_IN_FLIGHT)%nat;
  po_limit : puts.(sp_pending_bytes) ≤ MAX_PENDING_SEGMENT_BYTES ∨ (length puts.(sp_pending) ≤ 1)%nat;
}.

(** The put of a segment is finished or in flight. *)
Definition covers puts descriptor (object : bytes) : Prop :=
  (metadata_segment_object_key descriptor, object) ∈ puts.(sp_stored) ∨ (descriptor, object) ∈ puts.(sp_pending).
Definition extends puts puts' : Prop := ∀ descriptor object, covers puts descriptor object → covers puts' descriptor object.

Lemma extends_trans puts1 puts2 puts3 : extends puts1 puts2 → extends puts2 puts3 → extends puts1 puts3.
Proof. intros H12 H23 d o Hc. by apply H23, H12. Qed.

Lemma complete_Ok puts d o puts' :
  complete puts d o = Ok puts' →
  puts'.(sp_pending) = puts.(sp_pending) ∧ puts'.(sp_pending_bytes) = puts.(sp_pending_bytes) ∧
  puts'.(sp_writer) = puts.(sp_writer) ∧ puts'.(sp_stored) = puts.(sp_stored) ++ [(metadata_segment_object_key d, o)].
Proof. unfold complete. cbv zeta. intros Hc. step_ok Hc u Hu. step_ok Hc v Hv. by injection Hc as <-. Qed.

Lemma object_bytes_delete pending i d o :
  pending !! i = Some (d, o) → object_bytes_of pending = blen o + object_bytes_of (delete i pending).
Proof.
  unfold object_bytes_of. revert i. induction pending as [|p pending IH]; intros i Hi; [done|]. destruct i as [|i]; cbn in Hi |- *.
  - by injection Hi as ->.
  - rewrite (IH i Hi). unfold delete, list_delete. lia.
Qed.

Lemma object_bytes_snoc pending d o : object_bytes_of (pending ++ [(d, o)]) = object_bytes_of pending + blen o.
Proof. unfold object_bytes_of. induction pending as [|p pending IH]; cbn; [lia|]. rewrite IH. lia. Qed.

Lemma wait_for_put_ok puts puts' :
  puts_ok puts → wait_for_put puts = Ok puts' →
  puts_ok puts' ∧ extends puts puts' ∧ puts'.(sp_writer) = puts.(sp_writer) ∧
  length puts'.(sp_pending) = (length puts.(sp_pending) - 1)%nat ∧ (∀ p, p ∈ puts'.(sp_pending) → p ∈ puts.(sp_pending)).
Proof.
  intros Hok. pose proof Hok as [Hbytes Hcount Hlimit]. unfold wait_for_put. cbv zeta. set (i := (_ mod _)%nat).
  destruct (puts.(sp_pending) !! i) as [[d o]|] eqn:Hi.
  - intros Hw. step_ok Hw puts1 Hc. destruct (complete_Ok _ _ _ _ Hc) as (Ep & Eb & Ew & Es). rewrite Ep, Eb in Hw.
    case_decide as Hle; [|done]. injection Hw as <-. pose proof (object_bytes_delete _ _ _ _ Hi) as Hd.
    pose proof (length_delete _ _ ltac:(by exists (d, o))) as Hlen. split_and!; cbn; [split; cbn| |done|done|].
    + rewrite Hbytes, Hd. unfold object_bytes_of. lia.
    + lia.
    + lia.
    + intros d' o' [Hin|Hin]; [left; cbn; rewrite Es; apply elem_of_app; by left|].
      rewrite (delete_Permutation _ _ _ Hi) in Hin. apply elem_of_cons in Hin as [[= -> ->]|Hin]; [|by right].
      left. cbn. rewrite Es. apply elem_of_app. right. by left.
    + intros p Hp. by eapply list_elem_of_delete_inv.
  - intros [= <-]. destruct (sp_pending puts) as [|p pending] eqn:E.
    + split_and!; [done|by intros ??|done|done|done].
    + exfalso. apply lookup_ge_None_1 in Hi. cbn in Hi. pose proof (Nat.mod_upper_bound (next_ready (sp_moment puts)) (S (length pending))). lia.
Qed.

Lemma wait_rounds_ok fuel puts size_bytes puts' :
  puts_ok puts → wait_rounds fuel puts size_bytes = Ok puts' →
  puts_ok puts' ∧ extends puts puts' ∧ puts'.(sp_writer) = puts.(sp_writer) ∧
  (∀ p, p ∈ puts'.(sp_pending) → p ∈ puts.(sp_pending)) ∧
  (puts'.(sp_pending) = [] ∨
    (length puts'.(sp_pending) < STORE_WRITES_IN_FLIGHT)%nat ∧ puts'.(sp_pending_bytes) + size_bytes ≤ MAX_PENDING_SEGMENT_BYTES).
Proof.
  revert puts. induction fuel as [|fuel IH]; intros puts Hok; cbn [wait_rounds].
  all: destruct (_ && _) eqn:Ec; [|intros [= <-]].
  2, 4: split_and!; [done|by intros ??|done|done|];
    apply andb_false_iff in Ec as [Ec%bool_decide_eq_false|[Ec1%bool_decide_eq_false Ec2%bool_decide_eq_false]%orb_false_iff];
    [left; by apply dec_stable|right; unfold MAX_PENDING_SEGMENT_BYTES, U64_MAX in *; lia].
  - done.
  - intros Hw. step_ok Hw puts1 Hstep. destruct (wait_for_put_ok _ _ Hok Hstep) as (Hok1 & Hext & Hw1 & _ & Hin1).
    destruct (IH puts1 Hok1 Hw) as (Hok' & Hext' & Hw' & Hin' & Hcap). split_and!; [done|by eapply extends_trans|congruence|auto|done].
Qed.

Lemma segment_put_ok puts d o puts' :
  puts_ok puts → segment_put puts d o = Ok puts' →
  puts_ok puts' ∧ extends puts puts' ∧ covers puts' d o ∧ puts'.(sp_writer) = puts.(sp_writer) ∧
  (∀ p, p ∈ puts'.(sp_pending) → p = (d, o) ∨ p ∈ puts.(sp_pending)).
Proof.
  intros Hok Hp. unfold segment_put in Hp. step_ok Hp puts1 Hstep.
  destruct (wait_rounds_ok _ _ _ _ Hok Hstep) as (Hok1 & Hext & Hw1 & Hin1 & Hcap). destruct (starts_ready _).
  - destruct (complete_Ok _ _ _ _ Hp) as (Ep & Eb & Ew & Es). destruct Hok1 as [H1b H1c H1l]. split_and!.
    + split; by rewrite ?Ep, ?Eb.
    + intros d' o' [Hin|Hin]%Hext; [left; rewrite Es; apply elem_of_app; by left|right; by rewrite Ep].
    + left. rewrite Es. apply elem_of_app. right. by left.
    + congruence.
    + intros p. rewrite Ep. auto.
  - injection Hp as <-. destruct Hok1 as [H1b H1c H1l]. split_and!; cbn; [split; cbn| | |done|].
    + by rewrite H1b, object_bytes_snoc.
    + rewrite length_app. cbn. destruct Hcap as [->|[Hc _]]; [cbn; unfold STORE_WRITES_IN_FLIGHT; lia|lia].
    + destruct Hcap as [Hc|[_ Hc]]; [rewrite Hc; by right|by left].
    + intros d' o' [Hin|Hin]%Hext; [by left|]. right. cbn. apply elem_of_app. by left.
    + right. cbn. apply elem_of_app. right. by left.
    + intros p [Hin| ->%list_elem_of_singleton]%elem_of_app; auto.
Qed.

Lemma finish_rounds_ok fuel puts puts' :
  puts_ok puts → finish_rounds fuel puts = Ok puts' → extends puts puts' ∧ puts'.(sp_pending) = [].
Proof.
  revert puts. induction fuel as [|fuel IH]; intros puts Hok; cbn [finish_rounds]; destruct (sp_pending puts) eqn:E.
  1, 3: intros [= <-]; split; [by intros ??|done].
  - done.
  - intros Hw. step_ok Hw puts1 Hstep. destruct (wait_for_put_ok _ _ Hok Hstep) as (Hok1 & Hext & _).
    destruct (IH puts1 Hok1 Hw) as [Hext' He]. split; [by eapply extends_trans|done].
Qed.

(** ** Facts: the rows of a segment *)

(** What the writer does to its builder for a row. *)
Definition row_ops (family : MetadataRowFamily) (last : option string) row
    : res Empty_set (list (push_op MetadataRow) * option string) :=
  let '(parent, last) :=
    match parent_filter_key_for_family row family with
    | Some p => if decide (last = Some p) then ([], last) else ([PushFilterKey p], Some p)
    | None => ([], last)
    end in
  let extents :=
    match row with
    | RowContentLayout record => (PushExtentName ∘ extent_object_name) <$> record.(lr_layout).(cl_extents)
    | _ => []
    end in
  row_key ← row_key_for_family row family;
  filter_key ← filter_key_for_family row family;
  Ok (parent ++ extents ++ [PushRow row_key filter_key row], last).

Definition rows_ops (family : MetadataRowFamily) (rows : list MetadataRow)
    : res Empty_set (list (push_op MetadataRow) * option string) :=
  foldl (λ acc row, '(ops, last) ← acc; '(ops', last') ← row_ops family last row; Ok (ops ++ ops', last'))
    (Ok ([], None)) rows.

Lemma rows_ops_snoc family rows row :
  rows_ops family (rows ++ [row]) =
  ('(ops, last) ← rows_ops family rows; '(ops', last') ← row_ops family last row; Ok (ops ++ ops', last')).
Proof. unfold rows_ops. by rewrite foldl_app. Qed.

Lemma push_all_app b (ops ops' : list (push_op MetadataRow)) : push_all b (ops ++ ops') = (b ← push_all b ops; push_all b ops').
Proof.
  induction ops' as [|op ops' IH] using rev_ind; [rewrite app_nil_r; by destruct (push_all b ops)|].
  rewrite app_assoc, push_all_snoc, IH. destruct (push_all b ops) as [b1|e| |]; [|done..]. cbn. by rewrite push_all_snoc.
Qed.

Lemma push_layout_extents_ops b extents :
  push_layout_extents b extents =
  push_all b ((PushExtentName ∘ extent_object_name <$> extents) : list (push_op MetadataRow)).
Proof.
  revert b. induction extents as [|e extents IH]; intros b; [done|]. cbn [push_layout_extents fmap list_fmap].
  change ((PushExtentName ∘ extent_object_name) e :: ?l) with ([PushExtentName (extent_object_name e)] ++ l).
  rewrite push_all_app. cbn. destruct (push_extent_name b (extent_object_name e)); [|done..]. apply IH.
Qed.

(** The writer's open segment holds these rows. *)
Definition writer_open w (rows : list MetadataRow) : Prop :=
  ∃ ops, rows_ops w.(mw_family) rows = Ok (ops, w.(mw_last_parent_filter_key)) ∧
    push_all (segment_blocks_builder w.(mw_family)) ops = Ok w.(mw_builder).

Lemma writer_push_open w rows row encoded w' :
  writer_open w rows → writer_push w row = Ok (encoded, w') →
  writer_open w' (rows ++ [row]) ∧ w'.(mw_family) = w.(mw_family) ∧ w'.(mw_namespace_id) = w.(mw_namespace_id) ∧
  w'.(mw_segments) = w.(mw_segments).
Proof.
  intros (ops & Hops & Hb) Hp. unfold writer_push in Hp. destruct (push_parent_filter_key w row) as [b1 last] eqn:E1.
  step_ok Hp b2 Hb2. step_ok Hp k Hk. step_ok Hp f Hf. step_ok Hp eb He. destruct eb as [enc b3]. injection Hp as <- <-.
  apply infallible_Ok in Hk, Hf. apply expect_ok_Ok in He. split; [|done]. unfold writer_open. cbn.
  rewrite rows_ops_snoc, Hops. cbn [mbind res_bind]. unfold row_ops. unfold push_parent_filter_key in E1.
  set (parent := match parent_filter_key_for_family row (mw_family w) with Some _ => _ | None => _ end).
  assert (∃ ops1, parent = (ops1, last) ∧ push_all w.(mw_builder) ops1 = Ok b1) as (ops1 & -> & Hb1).
  { unfold parent. destruct (parent_filter_key_for_family row (mw_family w)) as [p|]; [case_decide|]; injection E1 as <- <-; by eexists. }
  set (extents := match row with RowContentLayout _ => _ | _ => _ end).
  assert (push_all b1 extents = Ok b2) as Hb2'.
  { unfold extents. destruct row; try by injection Hb2 as ->. apply expect_ok_Ok in Hb2. by rewrite <-push_layout_extents_ops. }
  rewrite Hk, Hf. cbn. eexists. split; [done|]. rewrite push_all_app, Hb. cbn [mbind res_bind].
  rewrite push_all_app, Hb1. cbn [mbind res_bind]. rewrite push_all_app, Hb2'. cbn. unfold segment_push. by rewrite He.
Qed.

(** What a segment's filters must admit for a row. *)
Definition row_filtered (family : MetadataRowFamily) (ops : list (push_op MetadataRow)) row : Prop :=
  (∀ f, filter_key_for_family row family = Ok f → f ∈ push_filter_keys ops) ∧
  (∀ p, parent_filter_key_for_family row family = Some p → p ∈ push_filter_keys ops) ∧
  (∀ record extent, row = RowContentLayout record → extent ∈ record.(lr_layout).(cl_extents) →
     extent_object_name extent ∈ push_extent_names ops).

Lemma push_filter_keys_app (l k : list (push_op MetadataRow)) : push_filter_keys (l ++ k) = push_filter_keys l ++ push_filter_keys k.
Proof. apply omap_app. Qed.
Lemma push_extent_names_app (l k : list (push_op MetadataRow)) : push_extent_names (l ++ k) = push_extent_names l ++ push_extent_names k.
Proof. apply omap_app. Qed.
Lemma push_rows_app (l k : list (push_op MetadataRow)) : push_rows (l ++ k) = push_rows l ++ push_rows k.
Proof. apply omap_app. Qed.

Lemma row_ops_Ok family last row ops' last' :
  row_ops family last row = Ok (ops', last') →
  ∃ k parent extents f, row_key_for_family row family = Ok k ∧ filter_key_for_family row family = Ok f ∧
    ops' = parent ++ extents ++ [PushRow k f row] ∧ push_rows parent = [] ∧ push_rows extents = [] ∧
    (∀ p, last' = Some p → last = Some p ∨ p ∈ push_filter_keys parent) ∧
    (∀ p, parent_filter_key_for_family row family = Some p → last = Some p ∨ p ∈ push_filter_keys parent) ∧
    (∀ record extent, row = RowContentLayout record → extent ∈ record.(lr_layout).(cl_extents) →
       extent_object_name extent ∈ push_extent_names extents).
Proof.
  unfold row_ops. set (parent := match parent_filter_key_for_family row family with Some _ => _ | None => _ end).
  assert (push_rows parent.1 = [] ∧ (∀ p, parent.2 = Some p → last = Some p ∨ p ∈ push_filter_keys parent.1) ∧
    ∀ p, parent_filter_key_for_family row family = Some p → last = Some p ∨ p ∈ push_filter_keys parent.1) as (Hr & Hl & Hp).
  { unfold parent. destruct (parent_filter_key_for_family row family) as [q|]; [case_decide|]; cbn; split_and!; try done.
    1, 2, 5: intros p Hp; left; congruence.
    1, 2: intros p [= ->]; right; by left. }
  destruct parent as [parent last1]. cbn in Hr, Hl, Hp.
  set (extents := match row with RowContentLayout _ => _ | _ => _ end). intros Ho. step_ok Ho k Hk. step_ok Ho f Hf.
  injection Ho as <- <-. exists k, parent, extents, f. split_and!; try done.
  - unfold extents. destruct row; try done. induction (cl_extents _) as [|e l IH]; [done|]. cbn. exact IH.
  - intros record extent -> He. unfold extents. induction (cl_extents _) as [|e l IH]; [by apply elem_of_nil in He|].
    cbn. apply elem_of_cons in He as [->|He]; [by left|right; by apply IH].
Qed.

Lemma rows_ops_Ok family rows ops last :
  rows_ops family rows = Ok (ops, last) →
  keyed_rows family rows (push_rows ops) ∧ (∀ row, row ∈ rows → row_filtered family ops row).
Proof.
  intros Ho. unfold keyed_rows. rewrite with_keys_Ok.
  assert (((push_rows ops).*2 = rows ∧ Forall (λ x, row_key_for_family x.2 family = Ok x.1) (push_rows ops)) ∧
    (∀ p, last = Some p → p ∈ push_filter_keys ops) ∧ ∀ row, row ∈ rows → row_filtered family ops row) as (?&_&?); [|done].
  revert ops last Ho. induction rows as [|row rows IH] using rev_ind; intros ops last Ho.
  { injection Ho as <- <-. split_and!; [done|constructor|done|by intros ? ?%elem_of_nil]. }
  rewrite rows_ops_snoc in Ho. step_ok Ho o1 H1'. destruct o1 as [ops1 last1]. cbv beta iota in Ho. step_ok Ho o2 H2'. destruct o2 as [ops2 last2].
  injection Ho as <- <-. destruct (IH _ _ H1') as ([E Hall] & Hlast & Hf).
  apply row_ops_Ok in H2' as (k & parent & extents & f & Hk & Hfk & -> & Hr1 & Hr2 & Hl & Hp & He).
  assert (push_rows (ops1 ++ parent ++ extents ++ [PushRow k f row]) = push_rows ops1 ++ [(k, row)]) as Erows.
  { rewrite !push_rows_app, Hr1, Hr2. done. }
  rewrite Erows. unfold row_filtered in *. split_and!.
  - by rewrite fmap_app, E.
  - apply Forall_app. split; [done|]. by constructor.
  - intros p [Hp'|Hp']%Hl; rewrite !push_filter_keys_app, !elem_of_app; auto.
  - intros row' [Hin| ->%list_elem_of_singleton]%elem_of_app.
    + destruct (Hf row' Hin) as (Hf1 & Hf2 & Hf3). split_and!.
      * intros f' Hf'. rewrite push_filter_keys_app. apply elem_of_app. left. auto.
      * intros p Hp'. rewrite push_filter_keys_app. apply elem_of_app. left. auto.
      * intros record extent Er Hin'. rewrite push_extent_names_app. apply elem_of_app. left. by eapply Hf3.
    + split_and!.
      * intros f' Hf'. rewrite Hfk in Hf'. injection Hf' as <-. rewrite !push_filter_keys_app, !elem_of_app. right. right. right. cbn. by left.
      * intros p [Hp'|Hp']%Hp; rewrite !push_filter_keys_app, !elem_of_app; auto.
      * intros record extent Er Hin'. rewrite !push_extent_names_app, !elem_of_app. right. right. left. by eapply He.
Qed.

(** *** Counting rows *)
Lemma finish_row_count b b' : finish_data_block b = Ok b' → b'.(sb_row_count) = b.(sb_row_count).
Proof.
  unfold finish_data_block. intros E. case_match; [by injection E as <-|].
  step_ok E n Hn. step_ok E hb Ha. destruct hb. by injection E as <-.
Qed.

Lemma push_all_row_count b (ops : list (push_op MetadataRow)) b' :
  push_all b ops = Ok b' → b'.(sb_row_count) = b.(sb_row_count) + N.of_nat (length (push_rows ops)).
Proof.
  revert b'. induction ops as [|op ops IH] using rev_ind; intros b' Hp; [injection Hp as <-; cbn; lia|].
  rewrite push_all_snoc in Hp. step_ok Hp b1 Hb1. rewrite push_rows_app, length_app. apply IH in Hb1.
  destruct op as [k f row|f|name]; cbn in Hp |- *.
  - apply segment_push_Ok in Hp as (_ & row_bytes & _ & Hb'). cbv zeta in Hb'.
    assert (b'.(sb_row_count) = b1.(sb_row_count) + 1) as ->; [|lia].
    destruct (_ <=? _); [apply finish_row_count in Hb'|]; by rewrite Hb'.
  - injection Hp as <-. cbn. lia.
  - unfold push_extent_name in Hp. step_ok Hp names Hn. injection Hp as <-. cbn. lia.
Qed.

Lemma writer_open_count w rows : writer_open w rows → w.(mw_builder).(sb_row_count) = N.of_nat (length rows).
Proof.
  intros (ops & Ho & Hb). apply push_all_row_count in Hb as ->. apply rows_ops_Ok in Ho as [Hk _].
  unfold keyed_rows in Hk. apply with_keys_Ok in Hk as [<- _]. rewrite length_fmap.
  unfold segment_blocks_builder. by case_bool_decide.
Qed.

(** ** Facts: written segments *)

(** The descriptor and the object of a segment of the family with these rows. *)
Definition segment_of (family : MetadataRowFamily) descriptor (object : bytes) (rows : list MetadataRow) : Prop :=
  ∃ segment_id ops last b built,
    rows_ops family rows = Ok (ops, last) ∧ push_all (segment_blocks_builder family) ops = Ok b ∧
    segment_build b = Ok built ∧ prepare_manifest_segment segment_id namespace_id family built = Ok (descriptor, object).

(** A writer of the namespace has put segments with these rows, and its open
    segment holds the rest. *)
Record family_ok puts w (chunks : list (list MetadataRow)) (open : list MetadataRow) : Prop := {
  fo_namespace : w.(mw_namespace_id) = namespace_id;
  fo_open : writer_open w open;
  fo_segments : Forall2 (λ d rows, ∃ object, covers puts d object ∧ segment_of w.(mw_family) d object rows) w.(mw_segments) chunks;
  fo_chunks : Forall (λ rows : list MetadataRow, rows ≠ [] ∧ N.of_nat (length rows) ≤ run_policy.(rp_max_rows_per_segment)) chunks;
}.

Lemma writer_new_ok puts family : family_ok puts (writer_new family namespace_id) [] [].
Proof. split; [done| |constructor|constructor]. by exists []. Qed.

Lemma covers_extends puts puts' family segments chunks :
  extends puts puts' →
  Forall2 (λ d rows, ∃ object, covers puts d object ∧ segment_of family d object rows) segments chunks →
  Forall2 (λ d rows, ∃ object, covers puts' d object ∧ segment_of family d object rows) segments chunks.
Proof. intros He Hf. eapply Forall2_impl; [exact Hf|]. intros d rows (o & Hc & Hs). exists o. split; [by apply He|done]. Qed.

Lemma write_segment_ok puts w chunks open w' puts' :
  puts_ok puts → family_ok puts w chunks open → open ≠ [] →
  N.of_nat (length open) ≤ run_policy.(rp_max_rows_per_segment) →
  write_segment w puts = Ok (w', puts') →
  puts_ok puts' ∧ extends puts puts' ∧ family_ok puts' w' (chunks ++ [open]) [] ∧ w'.(mw_family) = w.(mw_family).
Proof.
  intros Hok [Hns (ops & Ho & Hb) Hseg Hch] Hne Hlen Hw. unfold write_segment in Hw. step_ok Hw puts1 Hp1.
  destruct (wait_rounds_ok _ _ _ _ Hok Hp1) as (Hok1 & Hext1 & _). step_ok Hw built Hbuilt. apply expect_ok_Ok in Hbuilt.
  step_ok Hw p Hp. destruct p as [d o]. cbv beta iota in Hw. step_ok Hw puts2 Hp2. injection Hw as <- <-.
  destruct (segment_put_ok _ _ _ _ Hok1 Hp2) as (Hok2 & Hext2 & Hcov & _).
  assert (extends puts puts2) as Hext by (by eapply extends_trans). split_and!; [done..| |done].
  split; cbn; [done| | |].
  - by exists [].
  - apply Forall2_app; [by eapply covers_extends|]. constructor; [|constructor]. exists o. split; [done|].
    rewrite Hns in Hp. eexists _, ops, _, _, built. by split_and!.
  - apply Forall_app. split; [done|]. by constructor.
Qed.

Lemma write_rows_ok puts w chunks open rows w' puts' :
  puts_ok puts → family_ok puts w chunks open → N.of_nat (length open) < run_policy.(rp_max_rows_per_segment) →
  write_rows w puts rows = Ok (w', puts') →
  ∃ chunks' open', puts_ok puts' ∧ extends puts puts' ∧ family_ok puts' w' chunks' open' ∧
    w'.(mw_family) = w.(mw_family) ∧ N.of_nat (length open') < run_policy.(rp_max_rows_per_segment) ∧
    concat chunks' ++ open' = concat chunks ++ open ++ rows.
Proof.
  revert puts w chunks open. induction rows as [|row rows IH]; intros puts w chunks open Hok Hf Hlen Hw; cbn in Hw.
  { injection Hw as <- <-. exists chunks, open. rewrite app_nil_r. by split_and!; [|intros ??|..]. }
  step_ok Hw ew He. destruct ew as [encoded w1]. step_ok Hw wp Hr. destruct wp as [w2 puts2]. cbv beta iota in Hw, Hr.
  destruct Hf as [Hns Hopen Hseg Hch]. destruct (writer_push_open _ _ _ _ _ Hopen He) as (Hopen1 & Ef & En & Es).
  pose proof (writer_open_count _ _ Hopen1) as Hcount. rewrite length_app in Hcount. cbn in Hcount.
  assert (family_ok puts w1 chunks (open ++ [row])) as Hf1 by (split; rewrite ?Ef, ?En, ?Es; done).
  unfold roll_full_segments in Hr. destruct (_ || _) eqn:Er.
  - apply (write_segment_ok _ _ _ _ _ _ Hok Hf1) in Hr as (Hok2 & Hext2 & Hf2 & Ef2);
      [|by destruct open|rewrite length_app; cbn; lia].
    destruct (IH _ _ _ _ Hok2 Hf2 ltac:(cbn; lia) Hw) as (chunks' & open' & Hok' & Hext' & Hf' & Ef' & Hlen' & Hcat).
    exists chunks', open'. split_and!; [done|by eapply extends_trans|done|congruence|done|].
    rewrite Hcat, concat_app. cbn. by rewrite app_nil_r, <-!app_assoc.
  - apply orb_false_iff in Er as [Er%bool_decide_eq_false _]. injection Hr as <- <-.
    destruct (IH _ _ _ _ Hok Hf1 ltac:(rewrite length_app; cbn; lia) Hw) as (chunks' & open' & Hok' & Hext' & Hf' & Ef' & Hlen' & Hcat).
    exists chunks', open'. split_and!; [done|done|done|congruence|done|]. rewrite Hcat. by rewrite <-!app_assoc.
Qed.

(** The segments of a family hold its rows, in order. *)
Definition family_written puts (fs : MetadataFamilySegments) (rows : list MetadataRow) : Prop :=
  ∃ chunks, concat chunks = rows ∧
    Forall2 (λ d rows, ∃ object, covers puts d object ∧ segment_of fs.(fs_family) d object rows) fs.(fs_segments) chunks ∧
    Forall (λ rows : list MetadataRow, rows ≠ [] ∧ N.of_nat (length rows) ≤ run_policy.(rp_max_rows_per_segment)) chunks.

Lemma family_written_extends puts puts' fs rows : extends puts puts' → family_written puts fs rows → family_written puts' fs rows.
Proof. intros He (chunks & Hc & Hs & Hl). exists chunks. split_and!; [done|by eapply covers_extends|done]. Qed.

Lemma writer_finish_ok puts w chunks open segments puts' :
  puts_ok puts → family_ok puts w chunks open → N.of_nat (length open) < run_policy.(rp_max_rows_per_segment) →
  writer_finish w puts = Ok (segments, puts') →
  puts_ok puts' ∧ extends puts puts' ∧
  family_written puts' {| fs_family := w.(mw_family); fs_segments := segments |} (concat chunks ++ open).
Proof.
  intros Hok Hf Hlen Hw. unfold writer_finish in Hw. step_ok Hw wp Hr. destruct wp as [w2 puts2]. cbv beta iota in Hr.
  injection Hw as <- <-. pose proof (writer_open_count _ _ (fo_open _ _ _ _ Hf)) as Hcount. case_bool_decide as Hpos.
  - destruct (write_segment_ok _ _ _ _ _ _ Hok Hf ltac:(intros ->; cbn in *; lia) ltac:(lia) Hr) as (Hok2 & Hext2 & Hf2 & Ef).
    split_and!; [done..|]. exists (chunks ++ [open]). destruct Hf2 as [_ _ Hseg Hch]. cbn. rewrite <-Ef. split_and!; [|done..].
    rewrite concat_app. cbn. by rewrite app_nil_r.
  - injection Hr as <- <-. split_and!; [done|by intros ??|]. exists chunks. destruct Hf as [_ _ Hseg Hch].
    destruct open; [|cbn in *; lia]. rewrite app_nil_r. done.
Qed.

Lemma write_families_ok puts rows_for_family families segments_by_family puts' :
  0 < run_policy.(rp_max_rows_per_segment) → puts_ok puts →
  write_families puts rows_for_family families = Ok (segments_by_family, puts') →
  puts_ok puts' ∧ extends puts puts' ∧
  Forall2 (λ family fs, fs.(fs_family) = family ∧ ∃ rows, rows_for_family family = Ok rows ∧ family_written puts' fs rows)
    families segments_by_family.
Proof.
  intros Hmax. revert puts segments_by_family. induction families as [|family families IH]; intros puts result Hok Hw; cbn in Hw.
  { injection Hw as <- <-. by split_and!; [|intros ??|constructor]. }
  step_ok Hw rows Hrows. apply infallible_Ok in Hrows. step_ok Hw wp Hr. destruct wp as [w puts1]. cbv beta iota in Hw.
  step_ok Hw sp Hs. destruct sp as [segments puts2]. cbv beta iota in Hw. step_ok Hw rp Hrest. destruct rp as [rest puts3].
  injection Hw as <- <-.
  destruct (write_rows_ok _ _ _ _ _ _ _ Hok (writer_new_ok puts family) ltac:(cbn; lia) Hr) as (chunks & open & Hok1 & Hext1 & Hf1 & Ef & Hlen & Hcat).
  destruct (writer_finish_ok _ _ _ _ _ _ Hok1 Hf1 Hlen Hs) as (Hok2 & Hext2 & Hwritten). rewrite Hcat, Ef in Hwritten.
  destruct (IH _ _ Hok2 Hrest) as (Hok3 & Hext3 & Hall). assert (extends puts puts3) by exact (extends_trans _ _ _ Hext1 (extends_trans _ _ _ Hext2 Hext3)).
  split_and!; [done..|]. constructor; [|done]. split; [done|]. exists rows. split; [done|]. by eapply family_written_extends; [exact Hext3|exact Hwritten].
Qed.

(** ** The puts in flight stay bounded *)

(** What the users of the puts do, in any order. *)
Inductive puts_step : MetadataSegmentPuts → MetadataSegmentPuts → Prop :=
| step_put puts d o puts' : segment_put puts d o = Ok puts' → puts_step puts puts'
| step_wait puts puts' : wait_for_put puts = Ok puts' → puts_step puts puts'
| step_capacity puts size_bytes puts' : wait_for_capacity puts size_bytes = Ok puts' → puts_step puts puts'
| step_run T rounds puts (work : res CoreError T) result puts' : puts_run rounds puts work = Ok (result, puts') → puts_step puts puts'.

Lemma puts_run_ok {T} rounds puts (work : res CoreError T) result puts' :
  puts_ok puts → puts_run rounds puts work = Ok (result, puts') → puts_ok puts'.
Proof.
  revert puts. induction rounds as [|rounds IH]; intros puts Hok Hr; cbn [puts_run] in Hr;
    [|destruct (sp_pending puts) eqn:E]; step_ok Hr a Ha; try by injection Hr as <- <-.
  apply (IH a); [|done]. by apply (wait_for_put_ok _ _ Hok) in Ha as (? & _).
Qed.

Lemma puts_new_ok writer : puts_ok (puts_new writer).
Proof. split; cbn; [done|lia|lia]. Qed.

Lemma puts_reachable_ok writer puts : rtc puts_step (puts_new writer) puts → puts_ok puts.
Proof.
  assert (∀ puts puts', rtc puts_step puts puts' → puts_ok puts → puts_ok puts') as Hstep; [|intros Hr; eapply Hstep; [done|apply puts_new_ok]].
  induction 1 as [|puts1 puts2 puts3 Hs _ IH]; [done|]. intros Hok. apply IH. destruct Hs as [? d o ? Hp|? ? Hp|? n ? Hp|T rounds ? work result ? Hp].
  - by apply (segment_put_ok _ _ _ _ Hok) in Hp as (? & _).
  - by apply (wait_for_put_ok _ _ Hok) in Hp as (? & _).
  - by apply (wait_rounds_ok _ _ _ _ Hok) in Hp as (? & _).
  - by eapply puts_run_ok.
Qed.

(** The pending segments go into the cache without overflowing an offset. *)
Definition inserts_return puts : Prop :=
  ∀ d o, (d, o) ∈ puts.(sp_pending) → returns (insert_written_segment segment_cache d o puts.(sp_writer)).(outcome).

Section ends.
Context (Hputs : ∀ moment key object, returns (put_immutable_verified moment key object)).

Lemma complete_returns puts d o :
  returns (insert_written_segment segment_cache d o puts.(sp_writer)).(outcome) → returns (complete puts d o).
Proof using Hputs.
  intros Hi. unfold complete. cbv zeta. apply returns_bind; [apply returns_map_err, Hputs|]. intros u _.
  apply returns_bind; [by apply returns_map_err|done].
Qed.

Lemma object_bytes_elem pending d o : (d, o) ∈ pending → blen o ≤ object_bytes_of pending.
Proof.
  unfold object_bytes_of. induction pending as [|p pending IH]; [by intros ?%elem_of_nil|].
  intros [<-|Hp]%elem_of_cons; cbn; [lia|]. specialize (IH Hp). lia.
Qed.

Lemma wait_for_put_returns puts : puts_ok puts → inserts_return puts → returns (wait_for_put puts).
Proof using Hputs.
  intros [Hbytes _ _] Hins. unfold wait_for_put. cbv zeta. destruct (_ !! _) as [[d o]|] eqn:Hi; [|done].
  apply list_elem_of_lookup_2 in Hi. apply returns_bind; [by apply complete_returns, Hins|]. intros puts1 Hc.
  destruct (complete_Ok _ _ _ _ Hc) as (_ & Eb & _). rewrite decide_True; [done|]. rewrite Eb, Hbytes. by eapply object_bytes_elem.
Qed.

Lemma wait_for_put_inserts puts puts' : puts_ok puts → inserts_return puts → wait_for_put puts = Ok puts' → inserts_return puts'.
Proof using Type.
  intros Hok Hins Hw. destruct (wait_for_put_ok _ _ Hok Hw) as (_ & _ & Ew & _ & Hin). intros d o Hp. rewrite Ew. by apply Hins, Hin.
Qed.

Lemma wait_rounds_returns fuel puts size_bytes :
  puts_ok puts → inserts_return puts → (length puts.(sp_pending) ≤ fuel)%nat → returns (wait_rounds fuel puts size_bytes).
Proof using Hputs.
  revert puts. induction fuel as [|fuel IH]; intros puts Hok Hins Hlen; cbn [wait_rounds].
  - destruct (sp_pending puts) eqn:E; [|cbn in Hlen; lia]. by rewrite bool_decide_false by auto.
  - destruct (_ && _) eqn:Ec; [|done]. apply returns_bind; [by apply wait_for_put_returns|]. intros puts1 Hstep.
    destruct (wait_for_put_ok _ _ Hok Hstep) as (Hok1 & _ & _ & Hlen1 & _). apply IH; [done|exact (wait_for_put_inserts _ _ Hok Hins Hstep)|].
    apply andb_true_iff in Ec as [Ec%bool_decide_eq_true _]. destruct (sp_pending puts); [done|cbn in *; lia].
Qed.

Lemma finish_rounds_returns fuel puts :
  puts_ok puts → inserts_return puts → (length puts.(sp_pending) ≤ fuel)%nat → returns (finish_rounds fuel puts).
Proof using Hputs.
  revert puts. induction fuel as [|fuel IH]; intros puts Hok Hins Hlen; cbn [finish_rounds].
  - by destruct (sp_pending puts); [|cbn in Hlen; lia].
  - destruct (sp_pending puts) as [|p pending] eqn:E; [done|]. apply returns_bind; [by apply wait_for_put_returns|]. intros puts1 Hstep.
    destruct (wait_for_put_ok _ _ Hok Hstep) as (Hok1 & _ & _ & Hlen1 & _). apply IH; [done|exact (wait_for_put_inserts _ _ Hok Hins Hstep)|].
    rewrite E in Hlen1. cbn in *. lia.
Qed.
End ends.


(** C31 A fold returns segments only after they are durable: when
    [build_manifest_segments_from_rows] succeeds, no put is pending, and for
    every family, in the order of [MetadataRowFamily::ALL], the segments hold
    the family's rows in order and nothing else, each segment with at least one
    row and at most [max_rows_per_segment], and each segment's object was stored
    under its key with exactly the bytes that its descriptor describes. *)
Theorem fold_segments_durable rows_for_family segments_by_family puts :
  0 < run_policy.(rp_max_rows_per_segment) →
  build_manifest_segments_from_rows rows_for_family = Ok (segments_by_family, puts) →
  puts.(sp_pending) = [] ∧
  Forall2 (λ family fs, fs.(fs_family) = family ∧ ∃ chunks, rows_for_family family = Ok (concat chunks) ∧
      Forall (λ rows : list MetadataRow, rows ≠ [] ∧ N.of_nat (length rows) ≤ run_policy.(rp_max_rows_per_segment)) chunks ∧
      Forall2 (λ d rows, ∃ object, (metadata_segment_object_key d, object) ∈ puts.(sp_stored) ∧ segment_of family d object rows)
        fs.(fs_segments) chunks)
    MetadataRowFamily_ALL segments_by_family.
Proof.
  intros Hmax Hb. unfold build_manifest_segments_from_rows in Hb. step_ok Hb rp Hw. destruct rp as [result puts1].
  cbv beta iota in Hb. step_ok Hb puts2 Hfin. injection Hb as -> ->.
  destruct (write_families_ok _ _ _ _ _ Hmax (puts_new_ok Fold) Hw) as (Hok & _ & Hall).
  destruct (finish_rounds_ok _ _ _ Hok Hfin) as [Hext Hpend]. split; [done|].
  eapply Forall2_impl; [exact Hall|]. intros family fs (<- & rows & Hrows & chunks & <- & Hsegs & Hsizes).
  split; [done|]. exists chunks. split_and!; [done..|]. eapply Forall2_impl; [exact Hsegs|].
  intros d rows (object & [Hs|Hp]%Hext & Hseg); [by exists object|]. rewrite Hpend in Hp. by apply elem_of_nil in Hp.
Qed.
End build.

(** ** An example: a fold of three rows into two segments *)
Module build_example.
#[export] Existing Instance example_codecs.
#[export] Existing Instance index_cbor.

Definition merge_row (seq : N) : MetadataRow :=
  RowMerge {| mi_source_namespace_id := "source"; mi_committed_seq := seq; mi_source_after_seq := 0; mi_source_through_seq := 0 |}.
(** A codec for these rows. *)
#[export] Instance row_cbor : Cbor MetadataRow := {|
  cbor_encode row :=
    match row with
    | RowMerge record =>
        if decide (row = merge_row record.(mi_committed_seq)) then cbor_encode (Cbor:=countable_cbor) record.(mi_committed_seq) else Err "row"
    | _ => Err "row"
    end;
  cbor_decode l := seq ← cbor_decode (Cbor:=countable_cbor) l; Ok (merge_row seq);
|}.

Definition policy : MetadataRunPolicy :=
  {| rp_max_delta_runs := 4; rp_min_compaction_runs := 2; rp_max_rows_per_segment := 2; rp_target_segment_bytes := 1000;
     rp_max_input_runs_per_step := 4; rp_max_decoded_input_bytes_per_step := 1000 |}.
Definition cache : BlockCache (DecodedSegmentBlock MetadataRow unit) := {| bc_get _ _ _ := None; bc_shared _ _ _ := None |}.
Definition put (moment : nat) (key : string) (object : bytes) : res ObjectStoreError unit := Ok ().
Definition segment_id (moment : nat) : string := String (ascii_of_nat (97 + moment)) "".
Definition rows (family : MetadataRowFamily) : res Empty_set (list MetadataRow) :=
  Ok (if bool_decide (family = FamMerges) then [merge_row 3; merge_row 2; merge_row 1] else []).
Definition ready (moment : nat) : bool := Nat.even moment.
Definition next (moment : nat) : nat := moment.
#[local] Abbreviation fold := (build_manifest_segments_from_rows cache put ready next segment_id "ns" policy rows).

Definition folded_puts : MetadataSegmentPuts := Eval vm_compute in match fold with Ok (_, puts) => puts | _ => puts_new Fold end.
Definition folded_segments : list MetadataFamilySegments := Eval vm_compute in match fold with Ok (segments, _) => segments | _ => [] end.

Lemma fold_Ok : fold = Ok (folded_segments, folded_puts).
Proof. by vm_compute. Qed.

Lemma fold_segments_durable_witness :
  length folded_puts.(sp_stored) = 2%nat ∧
  ∃ fs chunks, fs ∈ folded_segments ∧ length fs.(fs_segments) = 2%nat ∧ rows FamMerges = Ok (concat chunks) ∧
    Forall2 (λ d rows, ∃ object, (metadata_segment_object_key d, object) ∈ folded_puts.(sp_stored) ∧
      segment_of "ns" FamMerges d object rows) fs.(fs_segments) chunks.
Proof.
  split; [done|]. pose proof fold_Ok as Hf. apply fold_segments_durable in Hf as [_ Hall]; [|done].
  destruct (Forall2_lookup_l _ _ _ 11 FamMerges Hall ltac:(done)) as (fs & Hfs & _ & chunks & Hrows & _ & Hsegs).
  exists fs, chunks. split_and!; [by eapply list_elem_of_lookup_2| |done|done]. by injection Hfs as <-.
Defined.

(** One put that is not ready when it starts. *)
Definition descriptor : MetadataSegmentRef :=
  {| ms_owner_namespace_id := "ns"; ms_segment_id := "a"; ms_family := FamMerges; ms_encoding := 1; ms_row_count := 1;
     ms_min_row_key := "a"; ms_max_row_key := "a"; ms_index_block := mkBlockHandle 0 0 0 0;
     ms_filter_block := mkBlockHandle 0 0 0 0; ms_filter_inline := None; ms_extent_filter_block := None |}.
Definition one_pending : MetadataSegmentPuts :=
  with_pending (puts_new (Manifest:=unit) Fold) [(descriptor, [byte 1; byte 2])] 2.

End build_example.
