(* ===== verification/StoredScan.v ===== *)
(** * Folded segments, scanned back

    The writer, the store, the caches and the scans together: the segments that
    a fold writes hold the rows of each family, the descriptors describe them,
    and a scan over runs of such segments, through the caches and the filters,
    returns the rows that were written. *)
From S2P Require Import Prelude Types Utf8 Codec Records SegmentBlocks SegmentFormat ScanPage RunIterator RowKeys MetadataState SegmentRows Manifest Scan SegmentLoad SegmentCoherence SegmentCaches SegmentServe Errors SegmentBuild.
Local Open Scope N_scope.

Section sections.
Context `{SectionCodecLaws} {R : Type} `{CborLaw R} `{CborLaw (list SegmentIndexEntry)}.

(** Where the sections of a built segment lie. *)
Lemma segment_build_sections b built :
  segment_build b = Ok built →
  built.(bsb_index).(bh_offset) + built.(bsb_index).(bh_stored_bytes) = blen built.(bsb_bytes) ∧
  built.(bsb_filter).(bh_offset) + built.(bsb_filter).(bh_stored_bytes) = built.(bsb_index).(bh_offset) ∧
  ∀ handle, built.(bsb_extent_filter) = Some handle → handle.(bh_offset) + handle.(bh_stored_bytes) = built.(bsb_filter).(bh_offset).
Proof.
  intros Hb. unfold segment_build in Hb. destruct (_ =? 0); [done|]. step_ok Hb b1 Hfin. step_ok Hb eb Hext.
  destruct eb as [extent_filter buf1]. cbv beta iota in Hb. step_ok Hb fp Hfp. step_ok Hb fb Hfb. destruct fb as [fh buf2].
  cbv beta iota in Hb. step_ok Hb ip Hip. step_ok Hb ib Hib. destruct ib as [ih buf3]. cbv beta iota in Hb. injection Hb as <-.
  apply append_section_Ok in Hib as (stored & -> & Ho & Hs & _). apply append_section_Ok in Hfb as (stored' & -> & Ho' & Hs' & _).
  cbn. rewrite Ho, Hs, Ho', Hs', !blen_app. split_and!; [done..|]. intros handle ->.
  destruct (sb_extent_hashes b1); [|done]. step_ok Hext p Hp. step_ok Hext hb Ha. destruct hb as [h buf].
  injection Hext as -> ->. apply append_section_Ok in Ha as (stored'' & -> & -> & -> & _). by rewrite blen_app.
Qed.

(** A decoded filter answers every probe. *)
Lemma probes_set_returns count probe filter h :
  0 < filter.(sf_bit_len) → (filter.(sf_bit_len) + 7) / 8 = blen filter.(sf_bits) → returns (probes_set count probe filter h).
Proof.
  intros Hpos Hlen. revert probe. induction count as [|count IH]; intros probe; [done|]. cbn [probes_set].
  apply returns_bind; [|intros b _; by case_match].
  destruct (lookup_lt_is_Some_2 filter.(sf_bits) (N.to_nat (probe_bit h filter.(sf_bit_len) probe / 8))) as [b ->]; [|done].
  assert (probe_bit h filter.(sf_bit_len) probe < filter.(sf_bit_len)) as Hlt by (apply N.mod_lt; lia).
  assert (probe_bit h filter.(sf_bit_len) probe / 8 < blen filter.(sf_bits)) by (rewrite <-Hlen; apply N.Div0.div_lt_upper_bound;
    pose proof (N.div_mod (sf_bit_len filter + 7) 8); pose proof (N.mod_lt (sf_bit_len filter + 7) 8); lia).
  unfold blen in *. lia.
Qed.

Lemma decoded_filter_answers stored handle filter key :
  decode_filter_block stored handle = Ok filter → returns (may_contain filter key).
Proof.
  unfold decode_filter_block. intros Hd. step_ok Hd payload Hp. unfold from_payload in Hd.
  destruct (_ <? 12); [done|]. destruct (negb _); [done|]. destruct (N.ltb_spec (from_le_bytes (take 8 (drop 4 payload))) 64); [done|].
  destruct (N.eqb_spec ((from_le_bytes (take 8 (drop 4 payload)) + 7) / 8) (blen (drop 12 payload))); [|done].
  injection Hd as <-. apply probes_set_returns; cbn; lia.
Qed.
End sections.

Section written.
Context `{SectionCodecLaws} {Manifest : Type} `{CborLaw MetadataRow} `{CborLaw (list SegmentIndexEntry)}.
Context (objects : string → option bytes).
Implicit Types (d : MetadataSegmentRef) (rows : list MetadataRow) (family : MetadataRowFamily).

(** Row keys are strings. *)
Definition keys_utf8 family rows : Prop :=
  ∀ row k, row ∈ rows → row_key_for_family row family = Ok k → utf8 (as_bytes k).

(** What a descriptor says of the segment that it names. *)
Record describes (family : MetadataRowFamily) d rows : Prop := {
  de_family : d.(ms_family) = family;
  de_sized : sized d;
  de_blocks : ∃ index blocks keyed, stored_blocks objects d index blocks ∧ concat blocks = keyed ∧
    keyed_rows family rows keyed ∧ d.(ms_row_count) = N.of_nat (length keyed) ∧
    head keyed.*1 = Some d.(ms_min_row_key) ∧ list.last keyed.*1 = Some d.(ms_max_row_key);
  de_filter : ∃ filter, filter_of objects d filter ∧ ∀ row f, row ∈ rows →
    filter_key_for_family row family = Ok f ∨ parent_filter_key_for_family row family = Some f → may_contain filter f = Ok true;
  de_inline : ∀ inline stored object, d.(ms_filter_inline) = Some inline → hex_decode_bytes inline = Ok stored →
    object_of objects d object → as_bytes stored = block_range object d.(ms_filter_block);
}.

Lemma segment_of_describes namespace_id family d object rows :
  segment_of namespace_id family d object rows → objects (metadata_segment_object_key d) = Some object →
  blen object ≤ U64_MAX → keys_utf8 family rows → describes family d rows.
Proof.
  intros (id & ops & last & b & built & Ho & Hp & Hb & Hprep) Hobj Hle Hutf.
  destruct (rows_ops_Ok _ _ _ _ Ho) as [Hkeyed Hfiltered]. pose proof (proj1 (with_keys_Ok _ _ _) Hkeyed) as [Erows Hall].
  unfold prepare_manifest_segment in Hprep. step_ok Hprep inline Hinline. apply expect_ok_Ok in Hinline. injection Hprep as <- <-.
  assert (utf8_keys ops) as Hutf'.
  { unfold utf8_keys. rewrite Forall_forall in Hall |- *. intros x Hx. apply (Hutf x.2); [|by apply Hall].
    rewrite <-Erows. apply list_elem_of_fmap. by exists x. }
  assert (segment_blocks_builder family = new_builder DEFAULT_TARGET_BLOCK_BYTES (bool_decide (family = FamContentLayouts))) as Enew.
  { unfold segment_blocks_builder. by case_bool_decide. }
  rewrite Enew in Hp. pose proof (push_all_ok _ _ _ _ Hutf' Hp) as Hok.
  destruct (segment_build_Ok _ _ _ _ Hok Hb Hle) as (index & blocks & Hi & Hblocks & Hcat & Hcount & Hmin & Hmax & Hfilter & _).
  destruct (segment_build_sections _ _ Hb) as (Hs1 & Hs2 & _). split; cbn; try done.
  - split; cbn; lia.
  - exists index, blocks, (push_rows ops). split_and!; [|done..]. exists built.(bsb_bytes). cbn. split_and!; [done..|].
    rewrite Hcat. by eapply bo_sorted.
  - destruct Hfilter as (filter & Hdec & Hadm). exists filter. split; [by exists built.(bsb_bytes)|].
    intros row f Hrow Hf. apply Hadm. destruct (Hfiltered row Hrow) as (Hf1 & Hf2 & _). destruct Hf; auto.
  - intros inl stored object -> Hdec Hobj'. unfold object_of in Hobj'. cbn in Hobj, Hobj'. rewrite Hobj in Hobj'. injection Hobj' as <-.
    unfold inline_filter_hex in Hinline. destruct (_ <=? DEFAULT_MAX_INLINE_FILTER_BYTES); [|done]. destruct (_ <=? _); [|done].
    injection Hinline as <-. rewrite hex_decode_encode in Hdec. injection Hdec as <-. by rewrite as_of_bytes.
Qed.
End written.

(** Blocks that take bytes have offsets of their own. *)
Lemma tiled_offsets entries e e' :
  tiled entries → Forall (λ e, 0 < e.(sie_block).(bh_stored_bytes)) entries → e ∈ entries → e' ∈ entries →
  e.(sie_block).(bh_offset) = e'.(sie_block).(bh_offset) → e = e'.
Proof.
  assert (∀ x l y, tiled (x :: l) → Forall (λ e, 0 < e.(sie_block).(bh_stored_bytes)) (x :: l) → y ∈ l →
    x.(sie_block).(bh_offset) < y.(sie_block).(bh_offset)) as Hlt.
  { intros x [|z l] y Ht Hpos Hy; [by apply elem_of_nil in Hy|]. destruct Ht as [Ez Ht]. apply Forall_cons in Hpos as [Hx _].
    destruct (last (z :: l)) as [stop|] eqn:El; [|by apply last_None in El].
    destruct (tiled_between z l stop y Ht El Hy) as [Hle _]. unfold block_end in Ez. lia. }
  induction entries as [|x l IH]; intros Ht Hpos He He' E; [by apply elem_of_nil in He|].
  apply elem_of_cons in He as [->|He], He' as [->|He']; [done|..].
  - specialize (Hlt _ _ _ Ht Hpos He'). lia.
  - specialize (Hlt _ _ _ Ht Hpos He). lia.
  - apply IH; [|by apply Forall_cons in Hpos as [_ ?]|done..]. destruct l; [done|by destruct Ht].
Qed.

Section scanned.
Context `{SectionCodecLaws} {Manifest : Type} `{CborLaw MetadataRow} `{CborLaw (list SegmentIndexEntry)}.
(** No bytes decompress to no bytes. *)
Context (zstd_empty : ∀ limit payload, zstd_read [] limit = Ok payload → payload = []).
Context (objects : string → option bytes).
#[local] Abbreviation block := (DecodedSegmentBlock MetadataRow Manifest).
#[local] Abbreviation loader := (ScanLoader (Manifest:=Manifest)).
Implicit Types (d : MetadataSegmentRef) (s : ScanDescriptor) (rows : list MetadataRow) (family : MetadataRowFamily).

Lemma holds_block_positive object e (rows : list (string * MetadataRow)) : holds_block object e rows → 0 < e.(sie_block).(bh_stored_bytes).
Proof using zstd_empty.
  intros [Hd _]. destruct (decide (e.(sie_block).(bh_stored_bytes) = 0)) as [E|]; [exfalso|lia].
  unfold block_range in Hd. rewrite E in Hd. cbn [N.to_nat take] in Hd. unfold decode_data_block_rows, decode_section in Hd.
  step_ok Hd payload Hp. assert (payload = []) as ->; [|done]. destruct (negb _); [done|]. destruct (negb _); [done|].
  step_ok Hp p Hz. apply map_err_Ok, zstd_empty in Hz as ->. destruct (negb _); [done|]. by injection Hp as <-.
Qed.

(** The segments of a namespace: described by their descriptors, each with an
    object of its own. *)
Definition described_in (ds : list MetadataSegmentRef) d : Prop := d ∈ ds ∧ ∃ family rows, describes objects family d rows.
Definition own_objects (ds : list MetadataSegmentRef) : Prop :=
  ∀ d d', d ∈ ds → d' ∈ ds → metadata_segment_object_key d = metadata_segment_object_key d' → d = d'.

Lemma described_known ds : own_objects ds → known_ok objects (described_in ds).
Proof using zstd_empty.
  intros Hown. split.
  - intros d d' [Hd _] [Hd' _]. by apply Hown.
  - intros d inline stored object (_ & family & rows & Hde). by eapply de_inline.
  - intros d entries e e' (_ & family & rows & Hde) (object & Ho & Hi) He He'.
    destruct (de_blocks _ _ _ _ Hde) as (index & blocks & keyed & (object' & Ho' & Hi' & Hb & _) & _).
    unfold object_of in *. rewrite Ho in Ho'. injection Ho' as <-. rewrite Hi in Hi'. injection Hi' as <-.
    apply tiled_offsets with entries; [|clear -Hb zstd_empty|done..].
    + unfold decode_index_block in Hi. step_ok Hi payload Hp. step_ok Hi es Hes. step_ok Hi u Hu. injection Hi as <-. destruct u.
      by apply check_index_tiled in Hu as (? & _).
    + induction Hb; constructor; [by eapply holds_block_positive|done].
Qed.

(** *** One family *)
Section family.
Context (ds : list MetadataSegmentRef) (Hown : own_objects ds).
Context (family : MetadataRowFamily) (fds : list ScanDescriptor) (chunks : list (list MetadataRow)).
Context (Hfds : Forall2 (λ s rows, s.(sd_descriptor) ∈ ds ∧ describes objects family s.(sd_descriptor) rows) fds chunks).
Context (keyed : list (string * MetadataRow)) (Hkeyed : keyed_rows family (concat chunks) keyed) (Hnodup : NoDup keyed.*1).
#[local] Abbreviation catalog := (store_catalog objects (described_in ds)).

Lemma describes_blocks s rows :
  describes objects family s.(sd_descriptor) rows → keyed_rows family rows (concat (cat_blocks catalog s)).
Proof.
  intros Hde. destruct (de_blocks _ _ _ _ Hde) as (index & blocks & k & Hs & Hcat & Hk & _).
  destruct (stored_decoded objects s index blocks Hs) as [_ Eb]. cbn. by rewrite Eb, Hcat.
Qed.

(** The stored rows are the written ones. *)
Lemma stored_keyed : concat ((λ s, concat (cat_blocks catalog s)) <$> fds) = keyed.
Proof.
  clear Hnodup. revert keyed Hkeyed. induction Hfds as [|s rows fds' chunks' [_ Hde] Hall IH]; intros keyed' Hk; cbn in Hk |- *.
  - by injection Hk as <-.
  - unfold keyed_rows in Hk. rewrite with_keys_app, (describes_blocks s rows Hde) in Hk. cbn in Hk. step_ok Hk rest Hrest.
    injection Hk as <-. f_equal. by apply IH.
Qed.

Lemma family_described : Forall (described catalog) fds.
Proof.
  assert (∀ s, s ∈ fds → NoDup (concat (cat_blocks catalog s)).*1) as Hnd.
  { intros s Hs. rewrite <-stored_keyed in Hnodup. clear -Hs Hnodup. induction fds as [|s' l IH]; [by apply elem_of_nil in Hs|].
    cbn [fmap list_fmap concat] in Hnodup. rewrite fmap_app in Hnodup. apply NoDup_app in Hnodup as (Hn & _ & Hn').
    apply elem_of_cons in Hs as [->|Hs]; [done|by apply IH]. }
  clear -Hfds Hnd. rewrite Forall_forall. intros s Hs. specialize (Hnd s Hs).
  apply list_elem_of_lookup in Hs as [i Hi]. destruct (Forall2_lookup_l _ _ _ _ _ Hfds Hi) as (rows & _ & Hin & Hde).
  pose proof Hde as [_ Hsize (index & blocks & k & Hst & Hcat & Hk & Hcount & Hmin & Hmax) _ _].
  destruct (stored_decoded objects s index blocks Hst) as [_ Eb]. unfold described. cbn in Hnd |- *. rewrite Eb, Hcat in Hnd |- *.
  split_and!; [split; [done|by exists family, rows]|done|by exists index, blocks|..].
  - pose proof Hst as (object & _ & _ & _ & Hsort). rewrite Hcat in Hsort. by apply sorted_ascending.
  - done.
  - rewrite <-Hmin. by destruct k.
  - by rewrite <-Hmax, fmap_last.
Qed.

Lemma family_range lower upper :
  concat (range_rows catalog lower upper <$> fds) = filter (λ x, in_key_range lower upper x.1) keyed.
Proof.
  rewrite <-stored_keyed. clear. induction fds as [|s l IH]; [done|]. cbn [fmap list_fmap concat]. by rewrite filter_app, IH.
Qed.

(** Every row of the range was filed under the probe. *)
Definition filed_under (lower : string) (upper : option string) (probe : string) rows : Prop :=
  ∀ row k, row ∈ rows → row_key_for_family row family = Ok k → in_key_range lower upper k →
    filter_key_for_family row family = Ok probe ∨ parent_filter_key_for_family row family = Some probe.

Lemma filter_of_unique d f f' : filter_of objects d f → filter_of objects d f' → f = f'.
Proof.
  intros (o & Ho & Hf) (o' & Ho' & Hf'). unfold object_of in *. rewrite Ho in Ho'. injection Ho' as <-. congruence.
Qed.

Lemma family_probe_sound load_filter lower upper probe :
  (∀ s f, s ∈ fds → load_filter s.(sd_descriptor) = Ok f → filter_of objects s.(sd_descriptor) f) →
  filed_under lower upper probe (concat chunks) → Forall (filters_sound catalog load_filter lower upper probe) fds.
Proof.
  intros Hload Hfiled. rewrite Forall_forall. intros s Hs f Hf Hne. specialize (Hload s f Hs Hf).
  apply list_elem_of_lookup in Hs as [i Hi]. destruct (Forall2_lookup_l _ _ _ _ _ Hfds Hi) as (rows & Hrows & _ & Hde).
  destruct (de_filter _ _ _ _ Hde) as (f' & Hf' & Hadm). rewrite (filter_of_unique _ _ _ Hload Hf').
  destruct (range_rows catalog lower upper s) as [|x rest] eqn:Er; [done|].
  assert (x ∈ range_rows catalog lower upper s) as Hx by (rewrite Er; by left).
  apply list_elem_of_filter in Hx as [Hrange Hx]. pose proof (describes_blocks s rows Hde) as Hk.
  apply with_keys_Ok in Hk as [Erows Hall]. rewrite Forall_forall in Hall. specialize (Hall x Hx).
  assert (x.2 ∈ rows) as Hrow by (rewrite <-Erows; apply list_elem_of_fmap; by exists x).
  apply (Hadm x.2 probe Hrow). apply (Hfiled x.2 x.1); [|done..]. apply elem_of_concat. exists rows. split; [|done].
  by eapply list_elem_of_lookup_2.
Qed.
End family.

(** *** Runs that folds wrote *)

Lemma flatten_family families segments_by_family family fs :
  Forall2 (λ family fs, fs.(fs_family) = family ∧ Forall (λ d, d.(ms_family) = family) fs.(fs_segments)) families segments_by_family →
  NoDup families → fs ∈ segments_by_family → fs.(fs_family) = family →
  filter (λ d, d.(ms_family) = family) (flatten_manifest_segments segments_by_family) = fs.(fs_segments).
Proof.
  assert (∀ families result, Forall2 (λ family fs, fs.(fs_family) = family ∧ Forall (λ d, d.(ms_family) = family) fs.(fs_segments)) families result →
    family ∉ families → filter (λ d, d.(ms_family) = family) (flatten_manifest_segments result) = []) as Hnone.
  { intros families' result. induction 1 as [|g gs families' result [<- Hg] _ IH]; [done|]. intros [Hne Hni]%not_elem_of_cons.
    unfold flatten_manifest_segments in *. cbn [fmap list_fmap concat]. rewrite filter_app, IH by done. rewrite app_nil_r.
    apply filter_none. rewrite Forall_forall in Hg. intros d Hd E. apply Hne. rewrite <-E. by apply Hg. }
  unfold flatten_manifest_segments in *.
  induction 1 as [|g gs families result [<- Hg] Hall IH]; intros Hnd Hin Hfam; [by apply elem_of_nil in Hin|].
  apply NoDup_cons in Hnd as [Hni Hnd]. cbn [fmap list_fmap concat]. rewrite filter_app. apply elem_of_cons in Hin as [->|Hin].
  - rewrite (Hnone families result Hall) by (by rewrite <-Hfam). rewrite app_nil_r. apply filter_all.
    rewrite Forall_forall in Hg. intros d Hd. rewrite <-Hfam. by apply Hg.
  - rewrite IH by done. rewrite filter_none; [done|]. rewrite Forall_forall in Hg. intros d Hd E. apply Hni.
    apply list_elem_of_lookup in Hin as [i Hi]. destruct (Forall2_lookup_r _ _ _ _ _ Hall Hi) as (g & Hgi & Hgf & _).
    rewrite <-(Hg d Hd), E, <-Hfam, Hgf. by eapply list_elem_of_lookup_2.
Qed.

Lemma family_segments_lookup run family :
  find_first (λ fs, bool_decide (fs.(fs_family) = family)) (metadata_run_manifest run).(rm_segments) =
  Some {| fs_family := family; fs_segments := filter (λ d, d.(ms_family) = family) run.(mr_segments) |}.
Proof. by destruct family. Qed.

Lemma families_nodup : NoDup MetadataRowFamily_ALL.
Proof. by apply (bool_decide_unpack _). Qed.

(** A run whose segments a fold of these rows wrote, to a store that keeps the
    objects. *)
Definition folded (run : MetadataRunRef) (rows_for_family : MetadataRowFamily → res Empty_set (list MetadataRow)) : Prop :=
  ∃ (segment_cache : BlockCache block) put_immutable_verified starts_ready next_ready generate namespace_id run_policy
    segments_by_family puts,
    0 < run_policy.(rp_max_rows_per_segment) ∧
    build_manifest_segments_from_rows segment_cache put_immutable_verified starts_ready next_ready generate namespace_id
      run_policy rows_for_family = Ok (segments_by_family, puts) ∧
    run.(mr_segments) = flatten_manifest_segments segments_by_family ∧
    ∀ key object, (key, object) ∈ puts.(sp_stored) → objects key = Some object ∧ blen object ≤ U64_MAX.

Lemma family_written_describes namespace_id run_policy (puts : MetadataSegmentPuts (Manifest:=Manifest)) fs rows :
  family_written namespace_id run_policy puts fs rows → puts.(sp_pending) = [] →
  (∀ key object, (key, object) ∈ puts.(sp_stored) → objects key = Some object ∧ blen object ≤ U64_MAX) →
  keys_utf8 fs.(fs_family) rows →
  ∃ chunks, concat chunks = rows ∧ Forall2 (describes objects fs.(fs_family)) fs.(fs_segments) chunks.
Proof.
  intros (chunks & <- & Hall & _) Hpend Hobjects Hutf. exists chunks. split; [done|].
  assert (∀ chunk, chunk ∈ chunks → keys_utf8 fs.(fs_family) chunk) as Hchunks.
  { intros chunk Hc row k Hr. apply Hutf. apply elem_of_concat. by exists chunk. }
  clear Hutf. induction Hall as [|d rows segments chunks (object & [Hst|Hp] & Hseg) _ IH]; constructor.
  - destruct (Hobjects _ _ Hst) as [Ho Hle]. eapply segment_of_describes; [done..|]. apply Hchunks. by left.
  - apply IH. intros chunk Hc. apply Hchunks. by right.
  - rewrite Hpend in Hp. by apply elem_of_nil in Hp.
  - rewrite Hpend in Hp. by apply elem_of_nil in Hp.
Qed.

Lemma folded_describes run rows_for_family family rows :
  folded run rows_for_family → (∀ family rows, rows_for_family family = Ok rows → keys_utf8 family rows) →
  rows_for_family family = Ok rows →
  ∃ chunks, concat chunks = rows ∧
    Forall2 (λ s rows, s.(sd_descriptor) ∈ run.(mr_segments) ∧ describes objects family s.(sd_descriptor) rows)
      (run_descriptors family (metadata_run_manifest run)) chunks.
Proof.
  intros (segment_cache & put & ready & next & gen & ns & policy & result & puts & Hmax & Hbuild & Hrun & Hobjects) Hutf Hrows.
  unfold build_manifest_segments_from_rows in Hbuild. step_ok Hbuild rp Hw. destruct rp as [result' puts1]. cbv beta iota in Hbuild.
  step_ok Hbuild puts2 Hfin. injection Hbuild as -> ->.
  assert (puts_ok (puts_new (Manifest:=Manifest) Fold)) as Hok0 by (split; cbn; [done|lia|lia]).
  destruct (write_families_ok _ _ _ _ _ _ _ _ _ _ _ _ Hmax Hok0 Hw) as (Hok & _ & Hall).
  destruct (finish_rounds_ok _ _ _ _ _ _ Hok Hfin) as [Hext Hpend].
  assert (Forall2 (λ family fs, fs.(fs_family) = family ∧ ∀ rows, rows_for_family family = Ok rows →
    ∃ chunks, concat chunks = rows ∧ Forall2 (describes objects family) fs.(fs_segments) chunks) MetadataRowFamily_ALL result) as Hdes.
  { eapply Forall2_impl; [exact Hall|]. intros f fs (<- & rows' & Hr & Hwr). split; [done|]. intros rows'' Hr''.
    rewrite Hr in Hr''. injection Hr'' as <-. eapply family_written_describes; [by eapply family_written_extends|done..|by apply Hutf]. }
  assert (family ∈ MetadataRowFamily_ALL) as [i Hi]%list_elem_of_lookup by (destruct family; by apply (bool_decide_unpack _)).
  destruct (Forall2_lookup_l _ _ _ _ _ Hdes Hi) as (fs & Hfs & Hfam & Hd). destruct (Hd rows Hrows) as (chunks & Hcat & Hch).
  exists chunks. split; [done|]. unfold run_descriptors. rewrite family_segments_lookup. cbn [fs_segments]. rewrite Hrun.
  assert (Forall2 (λ family fs, fs.(fs_family) = family ∧ Forall (λ d, d.(ms_family) = family) fs.(fs_segments))
    MetadataRowFamily_ALL result) as Hfams.
  { eapply Forall2_impl; [exact Hall|]. intros f fs' (<- & rows' & Hr & Hwr). split; [done|].
    destruct Hwr as (chunks' & _ & Hsegs & _). clear -Hsegs.
    induction Hsegs as [|d rs segments chunks' (o & _ & Hseg) _ IH]; constructor; [|done].
    destruct Hseg as (id & ops & last & b & built & _ & _ & _ & Hprep). unfold prepare_manifest_segment in Hprep.
    step_ok Hprep inline Hinl. by injection Hprep as <- _. }
  rewrite (flatten_family _ _ family fs Hfams families_nodup) by (done || by eapply list_elem_of_lookup_2).
  apply Forall2_fmap_l. cbn [sd_descriptor]. assert (∀ d, d ∈ fs.(fs_segments) → d ∈ flatten_manifest_segments result) as Hin.
  { intros d Hdin. unfold flatten_manifest_segments. apply elem_of_concat. exists fs.(fs_segments). split; [|done].
    apply list_elem_of_fmap. exists fs. split; [done|]. by eapply list_elem_of_lookup_2. }
  clear -Hch Hin. induction Hch as [|d rs segments chunks Hde _ IH]; constructor.
  - split; [apply Hin; by left|done].
  - apply IH. intros d' Hd'. apply Hin. by right.
Qed.

(** *** A manifest of such runs *)
Section manifest.
Context (payload : NamespaceManifestPayload) (folds : list (MetadataRowFamily → res Empty_set (list MetadataRow))).
Context (Hfolds : Forall2 folded payload.(mp_runs) folds).
Context (Hutf : Forall (λ rows_for_family, ∀ family rows, rows_for_family family = Ok rows → keys_utf8 family rows) folds).

(** Every segment that the manifest names. *)
Definition manifest_segments : list MetadataSegmentRef := concat (mr_segments <$> payload.(mp_runs)).
(** The rows that the folds wrote for a family, with their keys. *)
Definition folded_rows family (keyed : list (string * MetadataRow)) : Prop :=
  ∃ rowss, Forall2 (λ rows_for_family rows, rows_for_family family = Ok rows) folds rowss ∧ keyed_rows family (concat rowss) keyed.
#[local] Abbreviation in_manifest family :=
  (λ s rows, s.(sd_descriptor) ∈ manifest_segments ∧ describes objects family s.(sd_descriptor) rows).

Lemma folded_runs family rowss :
  Forall2 (λ rows_for_family rows, rows_for_family family = Ok rows) folds rowss →
  ∃ chunkss, Forall2 (λ run chunks, Forall2 (in_manifest family) (run_descriptors family run) chunks)
    (metadata_run_manifest <$> payload.(mp_runs)) chunkss ∧ concat (concat chunkss) = concat rowss.
Proof.
  intros Hrows. assert (∀ run, run ∈ payload.(mp_runs) → ∀ d, d ∈ run.(mr_segments) → d ∈ manifest_segments) as Hin.
  { intros run Hrun d Hd. apply elem_of_concat. exists run.(mr_segments). split; [|done]. apply list_elem_of_fmap. by exists run. }
  revert rowss Hrows Hutf Hin. induction Hfolds as [|run rows_for_family runs folds' Hfold Hrest IH]; intros rowss Hrows Hutf' Hin.
  { inversion Hrows; subst. by exists []. }
  inversion Hrows as [|? rows ? rowss' Hr Hrs]; subst. apply Forall_cons in Hutf' as [Hu Hutf'].
  destruct (folded_describes run rows_for_family family rows Hfold Hu Hr) as (chunks & Hcat & Hch).
  destruct (IH Hrest rowss' Hrs Hutf') as (chunkss & Hall & Ecat); [intros run' Hrun'; apply Hin; by right|].
  exists (chunks :: chunkss). split; [|cbn; by rewrite concat_app, Hcat, Ecat]. cbn. constructor; [|done].
  eapply Forall2_impl; [exact Hch|]. intros s rs [Hd Hde]. split; [|done]. apply (Hin run); [by left|done].
Qed.

Lemma folded_family family keyed :
  folded_rows family keyed →
  ∃ chunks keyed', Forall2 (in_manifest family) (concat (run_descriptors family <$> runs_newest_first payload)) chunks ∧
    keyed_rows family (concat chunks) keyed' ∧ keyed ≡ₚ keyed' ∧
    ∀ rowss, Forall2 (λ rows_for_family rows, rows_for_family family = Ok rows) folds rowss → concat chunks ≡ₚ concat rowss.
Proof.
  intros (rowss & Hrows & Hk). destruct (folded_runs family rowss Hrows) as (chunkss & Hall & Hcat).
  pose proof (sort_by_perm newest_first (metadata_run_manifest <$> payload.(mp_runs))) as Hperm. symmetry in Hperm.
  destruct (Permutation_Forall2 Hperm Hall) as (chunkss' & Hp & Hall'). exists (concat chunkss').
  assert (concat (concat chunkss') ≡ₚ concat rowss) as Hrowss.
  { rewrite <-Hcat. symmetry. by apply concat_perm, concat_perm. }
  symmetry in Hrowss. destruct (with_keys_perm _ _ _ _ Hrowss Hk) as (keyed' & Hk' & Hp'). exists keyed'.
  split_and!; [|done|done|].
  - clear -Hall'. unfold runs_newest_first. induction Hall' as [|run chunks runs cs Hrun _ IH]; [constructor|].
    cbn [fmap list_fmap concat]. by apply Forall2_app.
  - intros rowss' Hrows'. rewrite <-Hrowss. replace rowss' with rowss; [done|]. clear -Hrows Hrows'.
    revert rowss' Hrows'. induction Hrows as [|f r fs rs Hr _ IH]; intros rowss' Hrows'; inversion Hrows'; subst; [done|].
    f_equal; [congruence|by apply IH].
Qed.

(** A reader of the namespace: a store that serves its objects, and a memo and
    a cache that answer with what was published. *)
Record reader_ok (store_get : nat → string → N → N → res ObjectStoreErrorKind (option bytes))
    (segment_cache : option (BlockCache block)) (memo : SessionBlockMemo block) : Prop := {
  re_store : serves_objects store_get objects;
  re_history : ∃ history, cache_history objects (described_in manifest_segments) history ∧
    answers_from history segment_cache (Some memo);
}.

Lemma reader_coherent store_get segment_cache memo :
  own_objects manifest_segments → reader_ok store_get segment_cache memo →
  cache_coherent objects (described_in manifest_segments) segment_cache ∧
  memo_coherent objects (described_in manifest_segments) (Some memo).
Proof using zstd_empty.
  intros Hown [_ (history & Hh & Ha)]. eapply answers_coherent; [|exact Ha].
  apply history_coherent; [by apply described_known|done].
Qed.

Section scan.
Context (Hown : own_objects manifest_segments).
Context (heap_bytes : MetadataRow → N) (available_bytes : nat → nat → N).
Context (scan_loader : BlocksPerRefill → option string → nat → nat → loader).
Context (Hloaders : ∀ blocks_per_refill upper call round, let l := scan_loader blocks_per_refill upper call round in
  reader_ok l.(sl_store) l.(sl_segment_cache) l.(sl_block_memo)).
Context (filter_store : nat → string → N → N → res ObjectStoreErrorKind (option bytes)).
Context (filter_cache : option (BlockCache block)) (filter_memo : SessionBlockMemo block).
Context (Hfilters : reader_ok filter_store filter_cache filter_memo).
Context (self : VerifiedMetadataSegments) (Hself : self.(vs_scan_runs) = runs_newest_first payload).

Definition load_filter d : res ManifestLoadError SegmentFilter :=
  (load_segment_filter filter_store 0 filter_cache filter_memo d).(outcome).
#[local] Abbreviation catalog := (store_catalog objects (described_in manifest_segments)).

Lemma loaders_ok blocks_per_refill upper call round :
  loader_ok objects (described_in manifest_segments) (scan_loader blocks_per_refill upper call round).
Proof.
  specialize (Hloaders blocks_per_refill upper call round). cbv zeta in Hloaders.
  destruct (reader_coherent _ _ _ Hown Hloaders). by destruct Hloaders.
Qed.

Lemma folded_serves family keyed :
  folded_rows family keyed → NoDup keyed.*1 →
  serves catalog scan_loader self family ∧
  ∃ chunks keyed', Forall2 (in_manifest family) (family_descriptors self family) chunks ∧
    keyed_rows family (concat chunks) keyed' ∧ keyed ≡ₚ keyed' ∧
    ∀ rowss, Forall2 (λ rows_for_family rows, rows_for_family family = Ok rows) folds rowss → concat chunks ≡ₚ concat rowss.
Proof.
  intros Hrows Hnd. destruct (folded_family family keyed Hrows) as (chunks & keyed' & Hall & Hk & Hp & Hc).
  split; [|exists chunks, keyed'; unfold family_descriptors; by rewrite Hself]. split.
  - unfold family_descriptors. rewrite Hself. eapply family_described; [done..|]. by rewrite <-Hp.
  - intros. apply scan_loader_laws; [by apply described_known|apply loaders_ok].
Qed.

Lemma load_filter_of s family chunks f :
  Forall2 (in_manifest family) (family_descriptors self family) chunks → s ∈ family_descriptors self family →
  load_filter s.(sd_descriptor) = Ok f → filter_of objects s.(sd_descriptor) f.
Proof.
  intros Hall [i Hi]%list_elem_of_lookup Hf. destruct (Forall2_lookup_l _ _ _ _ _ Hall Hi) as (rows & _ & Hin & Hde).
  destruct (reader_coherent _ _ _ Hown Hfilters). destruct (de_blocks _ _ _ _ Hde) as (? & ? & ? & (object & Ho & _) & _).
  destruct (load_segment_filter_yields filter_store objects (re_store _ _ _ Hfilters) (described_in manifest_segments)
    (described_known _ Hown) 0 filter_cache filter_memo s.(sd_descriptor)) as [_ Hy]; [..|by apply Hy]; try done.
  - split; [done|by exists family, rows].
  - by exists object.
Qed.

(** The store and the decoders answer, and the working memory counts what a
    refill reserves. *)
Record readers_return : Prop := {
  rr_store : ∀ blocks_per_refill upper call round moment key start stop,
    returns ((scan_loader blocks_per_refill upper call round).(sl_store) moment key start stop);
  rr_pool : ∀ blocks_per_refill upper call round s e, cat_has catalog s → e ∈ decoded_index objects s →
    (scan_loader blocks_per_refill upper call round).(sl_pool).(wm_in_use) + e.(sie_block).(bh_decoded_bytes) ≤ U64_MAX;
  rr_filter_store : ∀ moment key start stop, returns (filter_store moment key start stop);
  rr_zstd : ∀ l limit, returns (zstd_read l limit);
  rr_rows : ∀ l, returns (cbor_decode (R:=MetadataRow) l);
  rr_index : ∀ l, returns (cbor_decode (R:=list SegmentIndexEntry) l);
}.

Lemma readers_serve_returns family chunks :
  readers_return → Forall2 (in_manifest family) (family_descriptors self family) chunks →
  serves_returns catalog load_filter scan_loader self family.
Proof.
  intros [Hstore Hpool Hfstore Hzstd Hrow Hindex] Hall. split.
  - intros. apply scan_loader_returns; [by apply described_known|apply loaders_ok|..]; eauto.
  - intros s probe Hs. pose proof Hs as [i Hi]%list_elem_of_lookup.
    destruct (Forall2_lookup_l _ _ _ _ _ Hall Hi) as (rows & _ & Hin & Hde). unfold segment_filter_admits. apply returns_bind.
    + apply load_segment_filter_ends; [done..|]. by eapply de_sized.
    + intros f Hf. destruct (load_filter_of s family chunks f Hall Hs Hf) as (object & _ & Hd). apply returns_map_err.
      by eapply decoded_filter_answers.
Qed.

(** C17 Rows that folds wrote come back from scans. The runs of a manifest hold
    the segments that folds of some rows wrote, and the store keeps the objects
    that the folds' puts reported stored. Then a bounded scan of a family, over
    all the runs, through the segment filters, the memo and the block cache in
    whatever state loads, inserts and evictions brought them to, returns exactly
    the first of the written rows in the key range, in key order and up to the
    page's bounds, or an error; and when the store and the decoders answer, it
    ends within one round per block and segment. *)
Theorem folded_scan_exact family keyed fuel lower upper bounds filter_probe blocks_per_refill all :
  folded_rows family keyed → NoDup keyed.*1 →
  (∀ probe rowss, filter_probe = Some probe → Forall2 (λ rows_for_family rows, rows_for_family family = Ok rows) folds rowss →
     filed_under family lower upper probe (concat rowss)) →
  ascending all → all ≡ₚ filter (λ x, in_key_range lower upper x.1) keyed → rows_weight heap_bytes all ≤ U64_MAX →
  let result := scan_range_bounded heap_bytes load_filter scan_loader available_bytes fuel self family lower upper bounds
    filter_probe blocks_per_refill in
  (∀ page n, result = Ok (page, n) → page = page_prefix heap_bytes bounds.(pb_max_rows) bounds.(pb_max_bytes) all) ∧
  (readers_return → (combine_fuel catalog (family_descriptors self family) ≤ fuel)%nat → returns result).
Proof.
  intros Hrows Hnd Hfiled Ha Hall Hw. destruct (folded_serves family keyed Hrows Hnd) as (Hserves & chunks & keyed' & Hch & Hk & Hp & Hc).
  destruct (scan_range_bounded_correct heap_bytes catalog load_filter scan_loader available_bytes self family fuel lower upper
    bounds filter_probe blocks_per_refill all Hserves) as [Hexact Hends]; [|split; [done|]|done|].
  - destruct filter_probe as [probe|]; [|done]. eapply family_probe_sound; [exact Hch| |].
    + intros s f Hs. by eapply load_filter_of.
    + destruct Hrows as (rowss & Hrowss & _). intros row k Hr. rewrite (Hc rowss Hrowss) in Hr. by eapply Hfiled.
  - rewrite (family_range _ family _ _ Hch keyed' Hk). by rewrite <-Hp.
  - split; [exact Hexact|]. intros Hret. apply Hends. by eapply readers_serve_returns.
Qed.
End scan.
End manifest.
End scanned.

(** ** An example: the folded rows of [SegmentBuild], scanned through empty caches *)
Module stored_example.
Import build_example.
#[local] Instance row_cbor_law : CborLaw MetadataRow.
Proof.
  intros row encoded. cbn. destruct row as [| | | | | | |record| | |]; try done. case_decide as E; [|done]. intros He.
  cbn. apply countable_cbor_law in He. cbn in He |- *. rewrite He. cbn. by rewrite E.
Qed.
#[local] Existing Instance index_cbor_law.
#[local] Instance codec_laws : SectionCodecLaws.
Proof. by intros payload stored limit [= <-]. Qed.

Definition run : MetadataRunRef :=
  {| mr_run_no := 0; mr_run_seq := 3; mr_tier := Delta; mr_segments := flatten_manifest_segments folded_segments |}.
Definition payload : NamespaceManifestPayload :=
  {| mp_namespace_id := "ns"; mp_created_at_ms := 0; mp_created_by := "actor"; mp_access := Unrestricted;
     mp_retention_window_ms := None; mp_fork_basis := None; mp_family_root_id := "ns"; mp_status := Active; mp_writer := None;
     mp_folded_wal_no := 0; mp_manifest_no := 1; mp_compactor_epoch := 0; mp_head_seq := 3; mp_activity := activity_default;
     mp_writer_epoch := 0; mp_next_run_no := 1; mp_retention_floor_seq := 0; mp_runs := [run]; mp_extensions := [] |}.
Definition segments : VerifiedMetadataSegments :=
  {| vs_manifest_object_key := "m"; vs_scan_runs := runs_newest_first payload |}.

Definition objects (key : string) : option bytes := snd <$> find_first (λ stored, stored.1 = key) folded_puts.(sp_stored).
Definition store (moment : nat) (key : string) (start stop : N) : res ObjectStoreErrorKind (option bytes) :=
  Ok (object ← objects key; Some (take (N.to_nat (stop - start)) (drop (N.to_nat start) object))).
Definition memo : SessionBlockMemo (DecodedSegmentBlock MetadataRow unit) := λ _ _, None.
Definition loader (blocks_per_refill : BlocksPerRefill) (upper : option string) (_ _ : nat) : ScanLoader :=
  {| sl_store := store; sl_segment_cache := None; sl_block_memo := memo;
     sl_pool := {| wm_limit := 1000000; wm_in_use := 0 |}; sl_blocks_per_refill := blocks_per_refill; sl_upper_bound := upper |}.

Definition keyed : list (string * MetadataRow) :=
  Eval vm_compute in
    match with_keys (λ row, row_key_for_family row FamMerges) [merge_row 3; merge_row 2; merge_row 1] with Ok keyed => keyed | _ => [] end.
Definition lower : string := Eval vm_compute in lookup_keys.merge_prefix "source".
Definition upper : option string := Eval vm_compute in string_prefix_upper_bound lower.
Definition probe : string := Eval vm_compute in lookup_keys.merge_probe "source".

Lemma folded_store_serves : serves_objects store objects.
Proof.
  intros moment key start stop found. unfold store. intros [= Hf]. destruct (objects key) as [object|]; [|done].
  injection Hf as <-. by exists object.
Qed.

Lemma run_folded : folded (Manifest:=unit) objects run rows.
Proof.
  exists cache, put, ready, next, segment_id, "ns", policy, folded_segments, folded_puts. split_and!; [done|apply fold_Ok|done|].
  intros key object Hin. cbn in Hin. repeat (apply elem_of_cons in Hin as [[= -> ->]|Hin]; [by vm_compute|]). by apply elem_of_nil in Hin.
Qed.

Lemma rows_utf8 family l : rows family = Ok l → keys_utf8 family l.
Proof.
  intros [= <-] row k Hrow Hk. case_bool_decide as Hf; [subst family|by apply elem_of_nil in Hrow]. apply utf8_valid_spec.
  repeat (apply elem_of_cons in Hrow as [->|Hrow]; [injection Hk as <-; by vm_compute|]). by apply elem_of_nil in Hrow.
Qed.

Lemma objects_own : own_objects (manifest_segments payload).
Proof.
  intros d d' Hd Hd'. vm_compute in Hd, Hd'.
  repeat (apply elem_of_cons in Hd as [->|Hd]); [..|by apply elem_of_nil in Hd];
    (repeat (apply elem_of_cons in Hd' as [->|Hd']); [..|by apply elem_of_nil in Hd']); by vm_compute.
Qed.

Lemma reader : reader_ok objects payload store None memo.
Proof.
  split; [apply folded_store_serves|]. exists [empty_caches]. split; [apply history_start|]. by split.
Qed.

Lemma read_empty limit l : zstd_read [] limit = Ok l → l = [].
Proof. intros <-%Ok_inj. apply take_nil. Qed.

Lemma readers_answer : readers_return objects payload loader store.
Proof.
  split; try done.
  - intros bpr up call round ds e Hhas He. assert (e.(sie_block).(bh_decoded_bytes) ≤ U32_MAX) as Hle; [|unfold U32_MAX, U64_MAX in *; cbn; lia].
    destruct Hhas as ((Hin & _) & _). destruct ds as [d seq]. cbn [sd_descriptor] in Hin. vm_compute in Hin.
    repeat (apply elem_of_cons in Hin as [->|Hin]); [..|by apply elem_of_nil in Hin]; vm_compute in He;
      (apply elem_of_cons in He as [->|He]; [by vm_compute|by apply elem_of_nil in He]).
  - intros l. apply returns_bind; [apply returns_ok_or|done].
  - apply index_cbor_decodes.
Qed.

Lemma folded_scan_exact_witness :
  let result := scan_range_bounded (λ _, 1) (load_filter store None memo) loader (λ _ _, 100) 20 segments FamMerges lower upper
    {| pb_max_rows := 2; pb_max_bytes := 100 |} (Some probe) RefillKeyRange in
  (∀ page n, result = Ok (page, n) → page = take 2 keyed) ∧ returns result ∧ result = Ok (take 2 keyed, 0%nat).
Proof.
  destruct (folded_scan_exact (Manifest:=unit) read_empty objects payload [rows]
    ltac:(repeat constructor; apply run_folded) ltac:(repeat constructor; apply rows_utf8) objects_own (λ _, 1) (λ _ _, 100) loader
    ltac:(intros; apply reader) store None memo reader segments eq_refl FamMerges keyed 20 lower upper
    {| pb_max_rows := 2; pb_max_bytes := 100 |} (Some probe) RefillKeyRange keyed) as [H1 H2].
  - exists [[merge_row 3; merge_row 2; merge_row 1]]. split; [by repeat constructor|by vm_compute].
  - by apply (bool_decide_unpack _).
  - intros p rowss [= <-] Hrows row k Hrow _ _. inversion Hrows as [|? l ? ? Hl Hr]; subst. inversion Hr; subst. injection Hl as <-. cbn in Hrow.
    left. repeat (apply elem_of_cons in Hrow as [->|Hrow]; [by vm_compute|]). by apply elem_of_nil in Hrow.
  - repeat constructor.
  - by vm_compute.
  - by vm_compute.
  - split_and!; [exact H1| |by vm_compute]. apply H2; [apply readers_answer|vm_compute; lia].
Defined.
End stored_example.
