(* ===== verification/StateReads.v ===== *)
(** * Seq-gated reads of the in-memory state

    [loonfs-core/src/metadata/queries.rs] and the [MetadataStateReads] of
    [visibility.rs]: lookups in a [MetadataState] at a base sequence, through
    the at-head indexes at or above the state's watermark and by scanning the
    rows below it.  The theorems show that both routes give one answer, that
    the implementation keeps the visibility trait's contract, and what the
    composite rules then compute. *)
From S2P Require Import Prelude Types Records MetadataState Paths Visibility.
Local Open Scope N_scope.

(** ** Scans *)
Definition newest_access_row_at_seq (state : MetadataState) (inode_id : InodeId) (seq : ChangeSeq)
    : option AccessRevisionRecord :=
  max_by_key (λ record, (record.(ac_access_revision_no), record.(ac_committed_seq),
                         record.(ac_delta_index)))
    (filter (λ record, record.(ac_inode_id) = inode_id ∧ record.(ac_committed_seq) ≤ seq)
       state.(ms_access_revisions)).

Definition inode_at_seq_scan (state : MetadataState) (inode_id : InodeId) (base_seq : ChangeSeq)
    : option InodeRecord :=
  find_first (λ inode, inode.(ir_inode_id) = inode_id ∧ inode.(ir_committed_seq) ≤ base_seq)
    state.(ms_inodes).

Definition bound_child_at_seq_scan (state : MetadataState) (parent_inode_id : InodeId)
    (name_key : NameKey) (base_seq : ChangeSeq) : option DirentryBindingRecord :=
  max_by_key binding_position
    (filter (λ direntry, direntry.(db_parent_inode_id) = parent_inode_id ∧
               direntry.(db_name_key) = name_key ∧ direntry.(db_committed_seq) ≤ base_seq)
       state.(ms_direntry_binds)).

Definition hiding_subtree_tombstone_scan (state : MetadataState) (root_inode_id : InodeId)
    (base_seq : ChangeSeq) : option SubtreeTombstoneRecord :=
  hiding_tombstone_from_records
    (filter (λ tombstone, tombstone.(tb_root_inode_id) = root_inode_id)
       state.(ms_subtree_tombstones)) base_seq.

Definition latest_parent_binding_for_child_at_seq (state : MetadataState)
    (child_inode_id : InodeId) (base_seq : ChangeSeq) : option DirentryBindingRecord :=
  max_by_key binding_position
    (filter (λ direntry, direntry.(db_child_inode_id) = child_inode_id ∧
               is_binding_event direntry = true ∧ direntry.(db_committed_seq) ≤ base_seq)
       state.(ms_direntry_binds)).

(** ** [MetadataStateReads] *)
Record MetadataStateReads := mkMetadataStateReads {
  sr_state : MetadataState;
  sr_base_seq : ChangeSeq;
}.

Definition reads_at_seq (state : MetadataState) (base_seq : ChangeSeq) : MetadataStateReads :=
  mkMetadataStateReads state base_seq.

(** [self.base_seq >= self.state.indexed_seq()]. *)
Definition at_head (r : MetadataStateReads) : bool :=
  bool_decide (indexed_seq r.(sr_state) ≤ r.(sr_base_seq)).

Definition sr_find_inode (r : MetadataStateReads) (inode_id : InodeId) : option InodeRecord :=
  if at_head r then ix_inode r.(sr_state).(ms_indexes) inode_id
  else inode_at_seq_scan r.(sr_state) inode_id r.(sr_base_seq).

Definition sr_find_latest_slot_binding (r : MetadataStateReads) (parent_inode_id : InodeId)
    (name_key : NameKey) : option DirentryBindingRecord :=
  if at_head r then latest_bind r.(sr_state).(ms_indexes) parent_inode_id name_key
  else bound_child_at_seq_scan r.(sr_state) parent_inode_id name_key r.(sr_base_seq).

Definition sr_find_latest_parent_binding_for_child (r : MetadataStateReads)
    (child_inode_id : InodeId) : option DirentryBindingRecord :=
  latest_parent_binding_for_child_at_seq r.(sr_state) child_inode_id
    (N.min r.(sr_base_seq) (indexed_seq r.(sr_state))).

Definition sr_find_hiding_subtree_tombstone (r : MetadataStateReads) (root_inode_id : InodeId)
    : option SubtreeTombstoneRecord :=
  if at_head r then hiding_tombstone r.(sr_state).(ms_indexes) root_inode_id
  else hiding_subtree_tombstone_scan r.(sr_state) root_inode_id r.(sr_base_seq).

Definition sr_current_parent_binding_for_child (r : MetadataStateReads) (child_inode_id : InodeId)
    : res VisiblePathError (option DirentryBindingRecord) :=
  if at_head r then Ok (active_parent_for_child r.(sr_state).(ms_indexes) child_inode_id)
  else current_parent_binding_for_child
         (λ child, Ok (sr_find_latest_parent_binding_for_child r child)) child_inode_id.

Definition sr_active_child_binding (r : MetadataStateReads) (parent_inode_id : InodeId)
    (name_key : NameKey) : res VisiblePathError (option DirentryBindingRecord) :=
  if at_head r then Ok (active_child r.(sr_state).(ms_indexes) parent_inode_id name_key)
  else active_child_binding
         (λ parent key, Ok (sr_find_latest_slot_binding r parent key)) parent_inode_id name_key.

(** A walk visits the start inode and inodes that some binding row names as
    a parent. *)
Definition sr_walk_fuel (r : MetadataStateReads) : nat :=
  length r.(sr_state).(ms_direntry_binds) + 2.

Definition sr_covering_subtree_tombstone (r : MetadataStateReads) (inode_id : InodeId)
    : res VisiblePathError (option SubtreeTombstoneRecord) :=
  covering_subtree_tombstone (λ root, Ok (sr_find_hiding_subtree_tombstone r root))
    (sr_current_parent_binding_for_child r) (sr_walk_fuel r) inode_id.

#[export] Instance MetadataStateReads_reads :
    MetadataVisibilityReads MetadataStateReads VisiblePathError := {
  retention_floor_seq _ := 0;
  find_inode r inode_id := Ok (sr_find_inode r inode_id);
  find_latest_slot_binding r parent name_key := Ok (sr_find_latest_slot_binding r parent name_key);
  find_latest_parent_binding_for_child r child :=
    Ok (sr_find_latest_parent_binding_for_child r child);
  find_hiding_subtree_tombstone r root := Ok (sr_find_hiding_subtree_tombstone r root);
  find_access_row r inode_id := Ok (newest_access_row_at_seq r.(sr_state) inode_id r.(sr_base_seq));
  reads_current_parent_binding_for_child := sr_current_parent_binding_for_child;
  reads_active_child_binding := sr_active_child_binding;
  reads_covering_subtree_tombstone := sr_covering_subtree_tombstone;
  reads_visible_inode r inode_id :=
    visible_inode (λ i, Ok (sr_find_inode r i)) (sr_covering_subtree_tombstone r) inode_id;
  walk_fuel := sr_walk_fuel;
}.

(** ** Queries

    [read_now] unwraps the error arm, which panics. *)
Definition read_now {T} (read : res VisiblePathError T) : res Empty_set T :=
  match read with Ok t => Ok t | OutOfFuel => OutOfFuel | Err _ | Panic => Panic end.

Section queries.
Context (state : MetadataState).

Definition state_inode_at_seq (inode_id : InodeId) (base_seq : ChangeSeq)
    : res Empty_set (option InodeRecord) :=
  read_now (find_inode (reads_at_seq state base_seq) inode_id).

Definition state_current_parent_binding_for_child (child_inode_id : InodeId) (base_seq : ChangeSeq)
    : res Empty_set (option DirentryBindingRecord) :=
  read_now (reads_current_parent_binding_for_child (reads_at_seq state base_seq) child_inode_id).

Definition state_hiding_subtree_tombstone (root_inode_id : InodeId) (base_seq : ChangeSeq)
    : res Empty_set (option SubtreeTombstoneRecord) :=
  read_now (find_hiding_subtree_tombstone (reads_at_seq state base_seq) root_inode_id).

Definition state_covering_subtree_tombstone (inode_id : InodeId) (base_seq : ChangeSeq)
    : res Empty_set (option SubtreeTombstoneRecord) :=
  let r := reads_at_seq state base_seq in
  read_now (covering_subtree_tombstone (find_hiding_subtree_tombstone r)
    (reads_current_parent_binding_for_child r) (walk_fuel r) inode_id).

Definition state_visible_inode (inode_id : InodeId) (base_seq : ChangeSeq)
    : res Empty_set (option InodeRecord) :=
  let r := reads_at_seq state base_seq in
  read_now (visible_inode (find_inode r) (reads_covering_subtree_tombstone r) inode_id).

Definition state_visible_child (parent_inode_id : InodeId) (name_key : NameKey)
    (base_seq : ChangeSeq) : res Empty_set (option DirentryBindingRecord) :=
  let r := reads_at_seq state base_seq in
  read_now (visible_child (reads_active_child_binding r) (reads_visible_inode r)
    parent_inode_id name_key).

Definition state_resolve_visible_path `{NamePolicy} (absolute_path : AbsolutePath)
    (base_seq : ChangeSeq) : res VisiblePathError ResolvedVisiblePath :=
  let r := reads_at_seq state base_seq in
  resolve_visible_path (reads_active_child_binding r) (reads_covering_subtree_tombstone r)
    (reads_visible_inode r) absolute_path.

Definition state_would_create_directory_cycle (inode_id new_parent_inode_id : InodeId)
    (base_seq : ChangeSeq) : res Empty_set bool :=
  let r := reads_at_seq state base_seq in
  read_now (would_create_directory_cycle (reads_current_parent_binding_for_child r) (walk_fuel r)
    inode_id new_parent_inode_id).
End queries.

(** ** Well-formed rows

    What a namespace's history guarantees of its rows: an inode is created
    once, no two deltas share a position, and nothing binds the root. *)
Record rows_ok (state : MetadataState) : Prop := {
  ok_inode_ids : NoDup (ir_inode_id <$> state.(ms_inodes));
  ok_binding_positions : NoDup (binding_position <$> state.(ms_direntry_binds));
  ok_tombstone_positions : NoDup (tombstone_position <$> state.(ms_subtree_tombstones));
  ok_root_unbound : ∀ row, row ∈ state.(ms_direntry_binds) → row.(db_child_inode_id) ≠ ROOT_INODE_ID;
}.

(** Every bound row copies its child's inode row. *)
Definition children_ok (st : MetadataState) : Prop :=
  ∀ x, x ∈ st.(ms_direntry_binds) → is_bound x = true →
  ∃ i, i ∈ st.(ms_inodes) ∧ i.(ir_inode_id) = x.(db_child_inode_id) ∧
    i.(ir_inode_kind) = x.(db_child_kind) ∧ i.(ir_committed_by) = x.(db_child_created_by) ∧
    i.(ir_committed_at_ms) = x.(db_child_created_at_ms) ∧
    i.(ir_committed_seq) ≤ x.(db_committed_seq).

Lemma find_first_unique {A K} (key : A → K) `{EqDecision K} (l : list A) k x :
  NoDup (key <$> l) → x ∈ l → key x = k → find_first (λ y, key y = k) l = Some x.
Proof.
  intros Hnd Hx <-. destruct (find_first (λ y, key y = key x) l) as [y|] eqn:E.
  - apply find_first_Some in E as [Hy Ek]. f_equal.
    by apply (key_inj_of_NoDup key l Hnd).
  - rewrite find_first_None in E. by destruct (E x Hx).
Qed.

(** The inode index keeps the last row of an ID, the scan finds the first;
    an ID has one row. *)
Lemma inode_index_lookup (l : list InodeRecord) i :
  NoDup (ir_inode_id <$> l) →
  foldl (λ (m : gmap InodeId InodeRecord) r, <[ir_inode_id r := r]> m) ∅ l !! i
  = find_first (λ r, ir_inode_id r = i) l.
Proof.
  induction l as [|x l IH] using rev_ind; intros Hnd; [done|].
  rewrite foldl_app. simpl. rewrite fmap_app, NoDup_app in Hnd. destruct Hnd as (Hnd & Hdis & _).
  unfold find_first. rewrite filter_app. destruct (decide (ir_inode_id x = i)) as [<-|Hne].
  - rewrite lookup_insert_eq, filter_cons_True by done.
    destruct (filter (λ r, ir_inode_id r = ir_inode_id x) l) as [|y k] eqn:Ef; [done|].
    assert (y ∈ filter (λ r, ir_inode_id r = ir_inode_id x) l) as Hy by (rewrite Ef; set_solver).
    apply list_elem_of_filter in Hy as [Ey Hy]. exfalso.
    apply (Hdis (ir_inode_id x)); [rewrite <-Ey; by apply list_elem_of_fmap_2|set_solver].
  - rewrite lookup_insert_ne by done. rewrite filter_cons_False by done.
    by rewrite filter_nil, app_nil_r, IH.
Qed.

Section lawful.
Context `{HeapBytes} (state : MetadataState).
Context (Hrebuilt : rebuilt state) (Hok : rows_ok state).

Lemma indexed_seq_rebuilt : indexed_seq state = ix_indexed_seq (MetadataIndexes_rebuild state).
Proof. unfold indexed_seq. by destruct Hrebuilt as (_ & _ & ->). Qed.

Lemma indexed_seq_binding row : row ∈ state.(ms_direntry_binds) → db_committed_seq row ≤ indexed_seq state.
Proof.
  intros Hrow%(max_seq_elem db_committed_seq). rewrite indexed_seq_rebuilt, rebuild_indexed_seq.
  etrans; [exact Hrow|]. rewrite N.max_comm, <-!N.max_assoc. apply N.le_max_l.
Qed.

Lemma indexed_seq_inode row : row ∈ state.(ms_inodes) → ir_committed_seq row ≤ indexed_seq state.
Proof.
  intros Hrow%(max_seq_elem ir_committed_seq). rewrite indexed_seq_rebuilt, rebuild_indexed_seq.
  etrans; [exact Hrow|]. apply N.le_max_l.
Qed.

Lemma indexed_seq_tombstone row :
  row ∈ state.(ms_subtree_tombstones) → tb_committed_seq row ≤ indexed_seq state.
Proof.
  intros Hrow%(max_seq_elem tb_committed_seq). rewrite indexed_seq_rebuilt, rebuild_indexed_seq.
  etrans; [exact Hrow|]. do 3 (etrans; [|apply N.le_max_r]). apply N.le_max_l.
Qed.

Lemma binding_key_inj (P : DirentryBindingRecord → Prop) `{∀ x, Decision (P x)} :
  key_inj binding_position (filter P state.(ms_direntry_binds)).
Proof. apply key_inj_filter, key_inj_of_NoDup, Hok. Qed.

Lemma tombstone_key_inj (P : SubtreeTombstoneRecord → Prop) `{∀ x, Decision (P x)} :
  key_inj tombstone_position (filter P state.(ms_subtree_tombstones)).
Proof. apply key_inj_filter, key_inj_of_NoDup, Hok. Qed.

(** Each index answers as the scan at any sequence from the watermark up. *)
Lemma index_inode seq i :
  indexed_seq state ≤ seq → ix_inode state.(ms_indexes) i = inode_at_seq_scan state i seq.
Proof.
  intros Hseq. unfold ix_inode. destruct Hrebuilt as (_ & _ & ->). rewrite rebuild_inodes.
  rewrite inode_index_lookup by apply Hok. unfold inode_at_seq_scan, find_first. f_equal.
  apply filter_ext_in. intros row Hrow%indexed_seq_inode. split; [|tauto].
  intros ->. split; [done|lia].
Qed.

Lemma index_slot seq p k :
  indexed_seq state ≤ seq → latest_bind state.(ms_indexes) p k = bound_child_at_seq_scan state p k seq.
Proof.
  intros Hseq. unfold latest_bind, latest_bind_in_slot. destruct Hrebuilt as (_ & _ & ->).
  rewrite rebuild_slots, newest_index by apply binding_key_inj. unfold bound_child_at_seq_scan. f_equal.
  apply filter_ext_in. intros row Hrow%indexed_seq_binding.
  unfold binding_slot. split; [|naive_solver]. intros [= <- <-]. split_and!; [done..|lia].
Qed.

Lemma index_child seq c :
  indexed_seq state ≤ seq →
  latest_binding_for_child state.(ms_indexes) c = latest_parent_binding_for_child_at_seq state c seq.
Proof.
  intros Hseq. unfold latest_binding_for_child. destruct Hrebuilt as (_ & _ & ->).
  rewrite rebuild_children. unfold latest_parent_binding_for_child_at_seq.
  rewrite newest_index by (apply key_inj_filter, binding_key_inj).
  rewrite list_filter_filter. f_equal.
  apply filter_ext_in. intros row Hrow%indexed_seq_binding.
  split; [|naive_solver]. intros [<- ?]. split_and!; [done..|lia].
Qed.

Lemma index_hiding seq i :
  indexed_seq state ≤ seq →
  hiding_tombstone state.(ms_indexes) i = hiding_subtree_tombstone_scan state i seq.
Proof.
  intros Hseq. unfold hiding_tombstone. destruct Hrebuilt as (_ & _ & ->). rewrite rebuild_tombstones.
  unfold hiding_subtree_tombstone_scan, hiding_tombstone_from_records, newest_tombstone_from_records.
  f_equal.
  rewrite newest_index by (intros x y Hx Hy E; apply (tombstone_key_inj (λ t, tb_root_inode_id t = i) x y Hx Hy);
    unfold tombstone_position; unfold tombstone_order_key in E; congruence).
  rewrite list_filter_filter.
  transitivity (max_by_key tombstone_position (filter (λ v, tb_root_inode_id v = i) (ms_subtree_tombstones state))).
  { done. }
  f_equal. apply filter_ext_in. intros row Hrow%indexed_seq_tombstone.
  split; [|naive_solver]. intros <-. split; [lia|done].
Qed.

Lemma parent_scan_capped seq c :
  latest_parent_binding_for_child_at_seq state c (N.min seq (indexed_seq state))
  = latest_parent_binding_for_child_at_seq state c seq.
Proof.
  unfold latest_parent_binding_for_child_at_seq. f_equal. apply filter_ext_in.
  intros row Hrow%indexed_seq_binding. split; intros (? & ? & ?); split_and!; try done; lia.
Qed.

Lemma sr_find_inode_scan seq i :
  sr_find_inode (reads_at_seq state seq) i = inode_at_seq_scan state i seq.
Proof.
  unfold sr_find_inode, at_head. cbn [sr_state sr_base_seq reads_at_seq].
  case_bool_decide; [by apply index_inode|done].
Qed.

Lemma sr_find_slot_scan seq p k :
  sr_find_latest_slot_binding (reads_at_seq state seq) p k = bound_child_at_seq_scan state p k seq.
Proof.
  unfold sr_find_latest_slot_binding, at_head. cbn [sr_state sr_base_seq reads_at_seq].
  case_bool_decide; [by apply index_slot|done].
Qed.

Lemma sr_find_parent_scan seq c :
  sr_find_latest_parent_binding_for_child (reads_at_seq state seq) c
  = latest_parent_binding_for_child_at_seq state c seq.
Proof. apply parent_scan_capped. Qed.

Lemma sr_find_hiding_scan seq i :
  sr_find_hiding_subtree_tombstone (reads_at_seq state seq) i
  = hiding_subtree_tombstone_scan state i seq.
Proof.
  unfold sr_find_hiding_subtree_tombstone, at_head. cbn [sr_state sr_base_seq reads_at_seq].
  case_bool_decide; [by apply index_hiding|done].
Qed.

Lemma parent_scan_In c seq row :
  latest_parent_binding_for_child_at_seq state c seq = Some row →
  row ∈ state.(ms_direntry_binds) ∧ row.(db_child_inode_id) = c ∧ is_binding_event row = true ∧
  row.(db_committed_seq) ≤ seq.
Proof. intros [Hin _]%max_by_key_is_max. apply list_elem_of_filter in Hin. naive_solver. Qed.

Lemma slot_scan_In p k seq row :
  bound_child_at_seq_scan state p k seq = Some row →
  row ∈ state.(ms_direntry_binds) ∧ row.(db_parent_inode_id) = p ∧ row.(db_name_key) = k ∧
  row.(db_committed_seq) ≤ seq.
Proof. intros [Hin _]%max_by_key_is_max. apply list_elem_of_filter in Hin. naive_solver. Qed.

(** The root never has a binding row, so the at-head route may leave out the
    rule's check for it. *)
Lemma root_parent_scan seq : latest_parent_binding_for_child_at_seq state ROOT_INODE_ID seq = None.
Proof.
  destruct (latest_parent_binding_for_child_at_seq state ROOT_INODE_ID seq) as [row|] eqn:E; [|done].
  apply parent_scan_In in E as (Hin & Hc & _). by destruct (ok_root_unbound _ Hok row Hin).
Qed.

Lemma sr_current_parent seq c :
  sr_current_parent_binding_for_child (reads_at_seq state seq) c
  = Ok (option_filter is_bound (latest_parent_binding_for_child_at_seq state c seq)).
Proof.
  unfold sr_current_parent_binding_for_child, at_head. cbn [sr_state sr_base_seq reads_at_seq].
  case_bool_decide as Hh.
  - unfold active_parent_for_child.
    change (ix_latest_binding_by_child (ms_indexes state) !! c)
      with (latest_binding_for_child (ms_indexes state) c).
    by rewrite (index_child seq).
  - unfold current_parent_binding_for_child. case_decide as Hr.
    + subst. by rewrite root_parent_scan.
    + cbn [mbind res_bind]. rewrite sr_find_parent_scan.
      destruct (latest_parent_binding_for_child_at_seq state c seq) as [row|]; [|done]. simpl.
      by destruct (is_bound row).
Qed.

Lemma sr_active_child seq p k :
  sr_active_child_binding (reads_at_seq state seq) p k
  = Ok (option_filter is_bound (bound_child_at_seq_scan state p k seq)).
Proof.
  unfold sr_active_child_binding, at_head. cbn [sr_state sr_base_seq reads_at_seq].
  case_bool_decide as Hh.
  - unfold active_child. by rewrite (index_slot seq).
  - unfold active_child_binding. cbn [mbind res_bind]. rewrite sr_find_slot_scan.
    destruct (bound_child_at_seq_scan state p k seq) as [row|]; [|done]. simpl.
    by destruct (is_bound row).
Qed.

(** The implementation keeps the trait's contract. *)
Lemma state_reads_lawful seq : VisibilityLaws (reads_at_seq state seq).
Proof.
  split.
  - intros c. cbn [reads_current_parent_binding_for_child MetadataStateReads_reads
      find_latest_parent_binding_for_child]. rewrite sr_current_parent.
    unfold current_parent_binding_for_child. case_decide as Hr.
    + subst. by rewrite root_parent_scan.
    + cbn [mbind res_bind]. rewrite sr_find_parent_scan.
      destruct (latest_parent_binding_for_child_at_seq state c seq) as [row|]; [|done]. simpl.
      by destruct (is_bound row).
  - intros p k. cbn [reads_active_child_binding MetadataStateReads_reads find_latest_slot_binding].
    rewrite sr_active_child. unfold active_child_binding. cbn [mbind res_bind].
    rewrite sr_find_slot_scan.
    destruct (bound_child_at_seq_scan state p k seq) as [row|]; [|done]. simpl. by destruct (is_bound row).
  - done.
  - done.
  - exists (db_parent_inode_id <$> state.(ms_direntry_binds)). split.
    + rewrite length_fmap. cbn [walk_fuel MetadataStateReads_reads]. unfold sr_walk_fuel. simpl. lia.
    + intros c b. cbn [reads_current_parent_binding_for_child MetadataStateReads_reads].
      rewrite sr_current_parent.
      destruct (latest_parent_binding_for_child_at_seq state c seq) as [row|] eqn:E; [|done]. simpl.
      destruct (is_bound row); [|done]. intros [= ->]. apply parent_scan_In in E as (Hin & _).
      by apply list_elem_of_fmap_2.
Qed.

Lemma state_reads_total (r : MetadataStateReads) : total_reads r.
Proof. by split. Qed.
(** A bound row's child has an inode row at every sequence that sees the
    binding. *)
Lemma bound_child_inode seq x :
  children_ok state → x ∈ state.(ms_direntry_binds) → is_bound x = true → x.(db_committed_seq) ≤ seq →
  ∃ i, inode_row (reads_at_seq state seq) x.(db_child_inode_id) = Some i ∧
    i.(ir_inode_id) = x.(db_child_inode_id) ∧
    i.(ir_inode_kind) = x.(db_child_kind) ∧ i.(ir_committed_by) = x.(db_child_created_by) ∧
    i.(ir_committed_at_ms) = x.(db_child_created_at_ms).
Proof.
  intros Hchildren Hx Hb Hs. destruct (Hchildren x Hx Hb) as (i & Hi & Hid & Hk & Hby & Hat & Hseq).
  exists i. split; [|done]. unfold inode_row. cbn [find_inode MetadataStateReads_reads ok_value].
  rewrite sr_find_inode_scan. unfold inode_at_seq_scan.
  destruct (find_first _ _) as [j|] eqn:Ej.
  - apply find_first_Some in Ej as (Hj & Hjid & _). f_equal.
    apply (NoDup_fmap_elem ir_inode_id (ms_inodes state)); [apply Hok|done|done|congruence].
  - rewrite find_first_None in Ej. destruct (Ej i Hi). split; [done|lia].
Qed.

End lawful.

(** ** Properties *)

(** C22 The at-head indexes are transparent.  On a state whose rows are well
    formed, every seq-gated lookup answers at every base sequence as the
    scan of the rows at that sequence does, whichever route it takes, and
    the reads keep the visibility trait's contract. *)
Theorem index_routes_agree `{HeapBytes} (state : MetadataState) (seq : ChangeSeq)
  (Hrebuilt : rebuilt state) (Hok : rows_ok state) :
  let r := reads_at_seq state seq in
  (∀ i, find_inode r i = Ok (inode_at_seq_scan state i seq)) ∧
  (∀ p k, find_latest_slot_binding r p k = Ok (bound_child_at_seq_scan state p k seq)) ∧
  (∀ c, find_latest_parent_binding_for_child r c
        = Ok (latest_parent_binding_for_child_at_seq state c seq)) ∧
  (∀ i, find_hiding_subtree_tombstone r i = Ok (hiding_subtree_tombstone_scan state i seq)) ∧
  VisibilityLaws r.
Proof.
  cbv zeta. split_and!; intros; cbn.
  - by rewrite sr_find_inode_scan.
  - by rewrite sr_find_slot_scan.
  - by rewrite sr_find_parent_scan.
  - by rewrite sr_find_hiding_scan.
  - by apply state_reads_lawful.
Qed.

(** ** A concrete namespace

    [/A] is a directory and [/A/B] a file with one revision, all written by
    the commit at sequence 1; the witnesses evaluate the theorems on it. *)
Definition no_heap : HeapBytes := {|
  text_heap_bytes _ := 0; inode_heap_bytes _ := 0; binding_heap_bytes _ := 0;
  revision_heap_bytes _ := 0; tombstone_heap_bytes _ := 0; receipt_heap_bytes _ := 0;
  commit_heap_bytes _ := 0; layout_heap_bytes _ := 0; attributes_heap_bytes _ := 0;
  access_heap_bytes _ := 0;
|}.

Definition example_content : ContentRef :=
  mkContentRef BlobV1 "con_00000000000000000000000001" 3 (mkChecksum Crc32c "00000000").

Definition example_deltas : list WalDelta :=
  [ CreateInode 0 5 Directory;
    BindDirentry 1 ROOT_INODE_ID "a" "A" 5 Directory "user" 10 None;
    CreateInode 2 6 File;
    BindDirentry 3 5 "b" "B" 6 File "user" 10 None;
    AppendFileRevision 4 6 5 "b" "B" (mkDeltaPosition 1 3) "user" 10 1 example_content None None ].

Definition example_genesis : MetadataState :=
  push_inode_record (H := no_heap) (MetadataState_default (H := no_heap))
    (mkInodeRecord ROOT_INODE_ID Directory 0 "genesis" loonfs_actor 0).

Definition example_state : MetadataState :=
  apply_committed_wal_deltas (H := no_heap) example_genesis 1 "commit" "user" 10 example_deltas.

Lemma example_rebuilt : rebuilt (H := no_heap) example_state.
Proof. apply apply_deltas_rebuilt, push_inode_rebuilt, default_rebuilt. Qed.

Lemma example_rows_ok : rows_ok example_state.
Proof.
  split.
  1-3: apply (bool_decide_unpack _); vm_compute; exact I.
  apply Forall_forall. apply (bool_decide_unpack _). vm_compute. exact I.
Qed.

Lemma index_routes_agree_witness :
  find_latest_slot_binding (reads_at_seq example_state 7) 5 "b"
  = Ok (bound_child_at_seq_scan example_state 5 "b" 7) ∧
  is_Some (bound_child_at_seq_scan example_state 5 "b" 7).
Proof.
  split.
  - apply (index_routes_agree (H := no_heap) example_state 7 example_rebuilt example_rows_ok).
  - vm_compute. eexists. reflexivity.
Defined.

(** C16 The directory cycle check is exact and always answers.  On any view
    that keeps the trait's contract and whose lookups succeed, checking a
    move of [inode_id] under [new_parent] returns [true] exactly when
    [inode_id] is [new_parent] or a current ancestor of it, [false] exactly
    when it is not and the ancestry of [new_parent] ends, and otherwise (a
    corrupt, cyclic ancestry) an error; the walk never runs out of fuel. *)
Theorem cycle_check_exact {R E : Type} `{MetadataVisibilityReads R E} (r : R)
  (inode_id new_parent : InodeId) (Hlaws : VisibilityLaws r) (Htotal : total_reads r) :
  let check := would_create_directory_cycle (reads_current_parent_binding_for_child r)
                 (walk_fuel r) inode_id new_parent in
  returns check ∧
  (check = Ok true ↔ above r new_parent inode_id) ∧
  (check = Ok false ↔ grounded r new_parent ∧ ¬ above r new_parent inode_id).
Proof.
  cbv zeta. split_and!.
  - apply (cycle_check_returns r Htotal).
  - apply (cycle_check_spec r Htotal inode_id new_parent true).
  - apply (cycle_check_spec r Htotal inode_id new_parent false).
Qed.

Lemma cycle_check_exact_witness :
  state_would_create_directory_cycle example_state 5 6 1 = Ok true ∧
  above (reads_at_seq example_state 1) 6 5.
Proof.
  split; [vm_compute; reflexivity|].
  apply (cycle_check_exact (reads_at_seq example_state 1) 5 6
    (state_reads_lawful (H := no_heap) example_state example_rebuilt example_rows_ok 1)
    (state_reads_total _)). vm_compute. reflexivity.
Defined.

(** C15 Visibility is exactly tombstone coverage over current ancestors.  On
    a lawful view whose lookups succeed, an inode is visible exactly when it
    has a row, its ancestry ends, and neither it nor any current ancestor is
    hidden by its newest tombstone event; it is covered exactly when one of
    them is hidden; and the coverage walk always answers. *)
Theorem visibility_exact {R E : Type} `{MetadataVisibilityReads R E} (r : R) (inode_id : InodeId)
  (Hlaws : VisibilityLaws r) (Htotal : total_reads r) :
  returns (reads_covering_subtree_tombstone r inode_id) ∧
  (∀ row, reads_visible_inode r inode_id = Ok (Some row) ↔
     inode_row r inode_id = Some row ∧ grounded r inode_id ∧
     ∀ a, above r inode_id a → hiding r a = None) ∧
  ((∃ t, reads_covering_subtree_tombstone r inode_id = Ok (Some t)) ↔
     ∃ a, above r inode_id a ∧ is_Some (hiding r a)).
Proof.
  split_and!.
  - by apply covering_returns.
  - intros row. by apply visible_inode_spec.
  - by apply covering_Some.
Qed.

Lemma visibility_exact_witness :
  reads_visible_inode (reads_at_seq example_state 1) 6
  = Ok (inode_at_seq_scan example_state 6 1) ∧
  ∀ a, above (reads_at_seq example_state 1) 6 a → hiding (reads_at_seq example_state 1) a = None.
Proof.
  assert (reads_visible_inode (reads_at_seq example_state 1) 6
    = Ok (Some (mkInodeRecord 6 File 1 "commit" "user" 10))) as Hv by (vm_compute; reflexivity).
  split; [vm_compute; reflexivity|].
  apply (visibility_exact (reads_at_seq example_state 1) 6
    (state_reads_lawful (H := no_heap) example_state example_rebuilt example_rows_ok 1)
    (state_reads_total _)) in Hv. exact (proj2 (proj2 Hv)).
Defined.

(** C23 The page shortcut is the full rule.  Under a visible directory, a
    child slot's newest binding passed to [visible_page_child], which looks
    up no inode row, gives the answer of [visible_child], errors included,
    because every bound row's child has an inode row. *)
Theorem page_child_is_visible_child `{HeapBytes} (state : MetadataState) (seq : ChangeSeq)
  (parent : InodeRecord) (parent_inode_id : InodeId) (name_key : NameKey)
  (Hrebuilt : rebuilt state) (Hrows : rows_ok state) (Hchildren : children_ok state)
  (Hparent : reads_visible_inode (reads_at_seq state seq) parent_inode_id = Ok (Some parent))
  (Hdirectory : parent.(ir_inode_kind) = Directory) :
  let r := reads_at_seq state seq in
  visible_child (reads_active_child_binding r) (reads_visible_inode r) parent_inode_id name_key
  = (found ← find_latest_slot_binding r parent_inode_id name_key;
     match found with
     | None => Ok None
     | Some direntry => visible_page_child (reads_covering_subtree_tombstone r) direntry
     end).
Proof.
  cbv zeta. pose proof (state_reads_lawful state Hrebuilt Hrows seq) as Hlaws.
  unfold visible_child. rewrite Hparent. cbn [mbind res_bind]. rewrite decide_False by auto.
  rewrite law_active_child. unfold active_child_binding, visible_page_child.
  cbn [find_latest_slot_binding MetadataStateReads_reads].
  rewrite (sr_find_slot_scan state Hrebuilt Hrows). cbn [mbind res_bind].
  destruct (bound_child_at_seq_scan state parent_inode_id name_key seq) as [d|] eqn:Ed; [|done].
  destruct (is_bound d) eqn:Eb; [|done]. cbn [negb mbind res_bind].
  unfold bound_child_at_seq_scan in Ed. apply max_by_key_is_max in Ed as [Hd _].
  apply list_elem_of_filter in Hd as [(_ & _ & Hs) Hd].
  destruct (bound_child_inode state Hrebuilt Hrows seq d Hchildren Hd Eb Hs) as (i & Hi & _).
  rewrite law_visible_inode. unfold visible_inode.
  rewrite (total_inode _ (state_reads_total _)). unfold inode_row in Hi. rewrite Hi.
  cbn [mbind res_bind]. by destruct (reads_covering_subtree_tombstone _ _) as [[t|]| | |].
Qed.

Lemma example_children_ok : children_ok example_state.
Proof.
  assert (Forall (λ x, Exists (λ i,
    i.(ir_inode_id) = x.(db_child_inode_id) ∧
    i.(ir_inode_kind) = x.(db_child_kind) ∧ i.(ir_committed_by) = x.(db_child_created_by) ∧
    i.(ir_committed_at_ms) = x.(db_child_created_at_ms) ∧ i.(ir_committed_seq) ≤ x.(db_committed_seq))
    (ms_inodes example_state)) (ms_direntry_binds example_state)) as Hall
    by (apply (bool_decide_unpack _); vm_compute; exact I).
  rewrite Forall_forall in Hall. intros x Hx _. apply Exists_exists. by apply Hall.
Qed.

Lemma page_child_is_visible_child_witness :
  let r := reads_at_seq example_state 1 in
  visible_child (reads_active_child_binding r) (reads_visible_inode r) 5 "b"
  = (found ← find_latest_slot_binding r 5 "b";
     match found with
     | None => Ok None
     | Some direntry => visible_page_child (reads_covering_subtree_tombstone r) direntry
     end).
Proof.
  apply (page_child_is_visible_child (H := no_heap) example_state 1
    (mkInodeRecord 5 Directory 1 "commit" "user" 10) 5 "b"
    example_rebuilt example_rows_ok example_children_ok); vm_compute; reflexivity.
Defined.
