(* ===== verification/Model.v ===== *)
(** * The reference model

    [loonfs-model]: the independent model that the differential tests replay
    next to the core.  It keeps plain row lists, checks the binding rules
    after every commit ([model_verify_bindings]) and answers visibility
    questions by scanning.  Its records are its own ([bindings.rs],
    [metadata.rs], [visibility.rs], [genesis.rs], [error.rs]); names carry the
    prefix [model_] and fields the prefix [m] where the core has the same
    name. *)
From S2P Require Import Prelude Types Paths.
Local Open Scope N_scope.

(** ** Rows *)
Record ModelInodeRecord := mkModelInodeRecord {
  mir_inode_id : InodeId;
  mir_inode_kind : InodeKind;
  mir_committed_seq : ChangeSeq;
  mir_commit_id : CommitId;
  mir_committed_by : ActorId;
  mir_committed_at_ms : N;
}.
#[export] Instance ModelInodeRecord_eq_dec : EqDecision ModelInodeRecord.
Proof. solve_decision. Defined.

Inductive ModelBindingState : Set :=
| MBound (display_name : DisplayName)
| MUnbound.
#[export] Instance ModelBindingState_eq_dec : EqDecision ModelBindingState.
Proof. solve_decision. Defined.

Record ModelBindingRecord := mkModelBindingRecord {
  mdb_parent_inode_id : InodeId;
  mdb_name_key : NameKey;
  mdb_child_inode_id : InodeId;
  mdb_committed_seq : ChangeSeq;
  mdb_delta_index : N;
  mdb_state : ModelBindingState;
}.
#[export] Instance ModelBindingRecord_eq_dec : EqDecision ModelBindingRecord.
Proof. solve_decision. Defined.

Record ModelContentLayoutRecord := mkModelContentLayoutRecord {
  mlr_content_id : ContentId;
  mlr_committed_seq : ChangeSeq;
  mlr_size_bytes : N;
  mlr_layout : ContentLayout;
}.
#[export] Instance ModelContentLayoutRecord_eq_dec : EqDecision ModelContentLayoutRecord.
Proof. solve_decision. Defined.

Record ModelRevisionRecord := mkModelRevisionRecord {
  mrr_inode_id : InodeId;
  mrr_revision_no : RevisionNo;
  mrr_committed_seq : ChangeSeq;
  mrr_commit_id : CommitId;
  mrr_committed_at_ms : N;
  mrr_committed_by : ActorId;
  mrr_revision_delta_index : N;
  mrr_content_ref : ContentRef;
}.
#[export] Instance ModelRevisionRecord_eq_dec : EqDecision ModelRevisionRecord.
Proof. solve_decision. Defined.

Record ModelDeletedBinding := mkModelDeletedBinding {
  mdl_parent_inode_id : InodeId;
  mdl_name_key : string;
  mdl_display_name : string;
}.
#[export] Instance ModelDeletedBinding_eq_dec : EqDecision ModelDeletedBinding.
Proof. solve_decision. Defined.

Inductive ModelTombstoneAction : Set :=
| MSet (root_kind : InodeKind) (deleted_binding : ModelDeletedBinding)
| MRevoke (target : DeltaPosition).
#[export] Instance ModelTombstoneAction_eq_dec : EqDecision ModelTombstoneAction.
Proof. solve_decision. Defined.

Record ModelTombstoneRecord := mkModelTombstoneRecord {
  mtb_root_inode_id : InodeId;
  mtb_committed_seq : ChangeSeq;
  mtb_delta_index : N;
  mtb_commit_id : CommitId;
  mtb_committed_at_ms : N;
  mtb_committed_by : ActorId;
  mtb_action : ModelTombstoneAction;
}.
#[export] Instance ModelTombstoneRecord_eq_dec : EqDecision ModelTombstoneRecord.
Proof. solve_decision. Defined.

Record AttributeEntry := mkAttributeEntry { ae_key : string; ae_value : string }.
#[export] Instance AttributeEntry_eq_dec : EqDecision AttributeEntry.
Proof. solve_decision. Defined.

Record ModelAttributeRevisionRecord := mkModelAttributeRevisionRecord {
  mat_inode_id : InodeId;
  mat_revision_no : N;
  mat_committed_seq : ChangeSeq;
  mat_commit_id : CommitId;
  mat_delta_index : N;
  mat_committed_by : ActorId;
  mat_committed_at_ms : N;
  mat_entries : list AttributeEntry;
}.
#[export] Instance ModelAttributeRevisionRecord_eq_dec : EqDecision ModelAttributeRevisionRecord.
Proof. solve_decision. Defined.

Record GrantEntry := mkGrantEntry { ge_principal_id : string; ge_rights : list string }.
#[export] Instance GrantEntry_eq_dec : EqDecision GrantEntry.
Proof. solve_decision. Defined.

Record ModelAccessRevisionRecord := mkModelAccessRevisionRecord {
  mac_inode_id : InodeId;
  mac_revision_no : N;
  mac_committed_seq : ChangeSeq;
  mac_commit_id : CommitId;
  mac_delta_index : N;
  mac_committed_by : ActorId;
  mac_committed_at_ms : N;
  mac_boundary : bool;
  mac_grants : list GrantEntry;
}.
#[export] Instance ModelAccessRevisionRecord_eq_dec : EqDecision ModelAccessRevisionRecord.
Proof. solve_decision. Defined.

Record ModelState := mkModelState {
  mo_inodes : list ModelInodeRecord;
  mo_direntry_binds : list ModelBindingRecord;
  mo_revisions : list ModelRevisionRecord;
  mo_content_layouts : list ModelContentLayoutRecord;
  mo_subtree_tombstones : list ModelTombstoneRecord;
  mo_attribute_revisions : list ModelAttributeRevisionRecord;
  mo_access_revisions : list ModelAccessRevisionRecord;
}.
#[export] Instance ModelState_eq_dec : EqDecision ModelState.
Proof. solve_decision. Defined.

Definition ModelState_default : ModelState := mkModelState [] [] [] [] [] [] [].

(** [genesis_commit_id], a constant of the control format. *)
Definition genesis_commit_id : CommitId := "c_00000000000000000000000000000000".

Definition model_bootstrap_metadata_state (created_at_ms : N) : ModelState :=
  {| mo_inodes := [ {| mir_inode_id := ROOT_INODE_ID; mir_inode_kind := Directory;
                       mir_committed_seq := 0; mir_commit_id := genesis_commit_id;
                       mir_committed_by := loonfs_actor; mir_committed_at_ms := created_at_ms |} ];
     mo_direntry_binds := []; mo_revisions := []; mo_content_layouts := [];
     mo_subtree_tombstones := []; mo_attribute_revisions := []; mo_access_revisions := [] |}.

Inductive ModelError : Set :=
| ChildHasTwoParents (seq : ChangeSeq) (child_inode_id : InodeId) (bindings : DeltaPosition * DeltaPosition)
| SlotHasTwoChildren (seq : ChangeSeq) (parent_inode_id : InodeId) (name_key : NameKey)
    (bindings : DeltaPosition * DeltaPosition)
| BindingIndexesDisagree (seq : ChangeSeq) (binding : DeltaPosition)
| AncestorCycle (seq : ChangeSeq) (inode_id : InodeId).
#[export] Instance ModelError_eq_dec : EqDecision ModelError.
Proof. solve_decision. Defined.

(** ** Bindings *)

(** [DirentryBindingRecord::position]. *)
Definition model_position (row : ModelBindingRecord) : DeltaPosition :=
  mkDeltaPosition row.(mdb_committed_seq) row.(mdb_delta_index).

(** [DirentryBindingRecord::is_bound]. *)
Definition model_is_bound (row : ModelBindingRecord) : bool :=
  match row.(mdb_state) with MBound _ => true | MUnbound => false end.

Definition model_slot_value (state : ModelState) (parent_inode_id : InodeId) (name_key : NameKey)
    (seq : ChangeSeq) : option ModelBindingRecord :=
  max_by_key model_position
    (filter (λ row, row.(mdb_parent_inode_id) = parent_inode_id ∧ row.(mdb_name_key) = name_key ∧
               row.(mdb_committed_seq) ≤ seq) state.(mo_direntry_binds)).

Definition model_parent_binding (state : ModelState) (child_inode_id : InodeId) (seq : ChangeSeq)
    : option ModelBindingRecord :=
  option_filter model_is_bound
    (max_by_key model_position
       (filter (λ row, row.(mdb_child_inode_id) = child_inode_id ∧ row.(mdb_committed_seq) ≤ seq)
          state.(mo_direntry_binds))).

(** The loop of [ancestry].  Every inode it adds to the vector is the parent
    of some binding row, and none is added twice, so one step per row and
    one more are enough fuel. *)
Fixpoint model_ancestry_loop (fuel : nat) (state : ModelState) (seq : ChangeSeq)
    (ancestry : list InodeId) (current : InodeId) : res ModelError (list InodeId) :=
  match fuel with
  | O => OutOfFuel
  | S fuel =>
      match model_parent_binding state current seq with
      | None => Ok ancestry
      | Some binding =>
          let current := binding.(mdb_parent_inode_id) in
          if decide (current ∈ ancestry) then Err (AncestorCycle seq current)
          else model_ancestry_loop fuel state seq (ancestry ++ [current]) current
      end
  end.

Definition model_ancestry (state : ModelState) (inode_id : InodeId) (seq : ChangeSeq)
    : res ModelError (list InodeId) :=
  model_ancestry_loop (length state.(mo_direntry_binds) + 2) state seq [inode_id] inode_id.

(** The first loop of [verify_bindings]: the current bound values by slot and
    by child. *)
Definition collect_bindings (state : ModelState) (seq : ChangeSeq)
    : list ((InodeId * NameKey) * ModelBindingRecord) * list (InodeId * ModelBindingRecord) :=
  foldl (λ '(by_slot, by_child) row,
    let by_slot :=
      match option_filter model_is_bound
              (model_slot_value state row.(mdb_parent_inode_id) row.(mdb_name_key) seq) with
      | Some value =>
          (btree_insert (value.(mdb_parent_inode_id), value.(mdb_name_key)) value by_slot).2
      | None => by_slot
      end in
    let by_child :=
      match model_parent_binding state row.(mdb_child_inode_id) seq with
      | Some value => (btree_insert value.(mdb_child_inode_id) value by_child).2
      | None => by_child
      end in
    (by_slot, by_child)) ([], []) state.(mo_direntry_binds).

(** The two loops that refuse a second value under one key. *)
Fixpoint check_unique `{Ord K} (key : ModelBindingRecord → K)
    (error : ModelBindingRecord → DeltaPosition → ModelError) (seen : list (K * DeltaPosition))
    (values : list ModelBindingRecord) : res ModelError unit :=
  match values with
  | [] => Ok ()
  | value :: rest =>
      let '(other, seen) := btree_insert (key value) (model_position value) seen in
      match other with
      | Some other => Err (error value other)
      | None => check_unique key error seen rest
      end
  end.

Definition check_children (seq : ChangeSeq) (values : list ModelBindingRecord) : res ModelError unit :=
  check_unique mdb_child_inode_id
    (λ value other,
      ChildHasTwoParents seq value.(mdb_child_inode_id) (other, model_position value)) [] values.

Definition check_slots (seq : ChangeSeq) (values : list ModelBindingRecord) : res ModelError unit :=
  check_unique (λ value, (value.(mdb_parent_inode_id), value.(mdb_name_key)))
    (λ value other,
      SlotHasTwoChildren seq value.(mdb_parent_inode_id) value.(mdb_name_key)
        (other, model_position value)) [] values.

(** [a.symmetric_difference(b).next()]: the least position in exactly one. *)
Definition symmetric_difference_next (a b : list DeltaPosition) : option DeltaPosition :=
  find_first (λ p, ¬ (p ∈ a ↔ p ∈ b)) (btree_set (a ++ b)).

Fixpoint check_ancestries (state : ModelState) (seq : ChangeSeq) (children : list InodeId)
    : res ModelError unit :=
  match children with
  | [] => Ok ()
  | child_inode_id :: rest =>
      _ ← model_ancestry state child_inode_id seq;
      check_ancestries state seq rest
  end.

Definition model_verify_bindings (state : ModelState) (seq : ChangeSeq) : res ModelError unit :=
  let '(by_slot, by_child) := collect_bindings state seq in
  _ ← check_children seq by_slot.*2;
  _ ← check_slots seq by_child.*2;
  let slot_order := btree_set (model_position <$> by_slot.*2) in
  let child_order := btree_set (model_position <$> by_child.*2) in
  match symmetric_difference_next slot_order child_order with
  | Some binding => Err (BindingIndexesDisagree seq binding)
  | None => check_ancestries state seq by_child.*1
  end.

(** ** Applying commits *)
Definition model_push_inode (s : ModelState) (r : ModelInodeRecord) : ModelState :=
  mkModelState (s.(mo_inodes) ++ [r]) s.(mo_direntry_binds) s.(mo_revisions) s.(mo_content_layouts)
    s.(mo_subtree_tombstones) s.(mo_attribute_revisions) s.(mo_access_revisions).
Definition model_push_binding (s : ModelState) (r : ModelBindingRecord) : ModelState :=
  mkModelState s.(mo_inodes) (s.(mo_direntry_binds) ++ [r]) s.(mo_revisions) s.(mo_content_layouts)
    s.(mo_subtree_tombstones) s.(mo_attribute_revisions) s.(mo_access_revisions).
Definition model_push_revision (s : ModelState) (r : ModelRevisionRecord) : ModelState :=
  mkModelState s.(mo_inodes) s.(mo_direntry_binds) (s.(mo_revisions) ++ [r]) s.(mo_content_layouts)
    s.(mo_subtree_tombstones) s.(mo_attribute_revisions) s.(mo_access_revisions).
Definition model_push_layout (s : ModelState) (r : ModelContentLayoutRecord) : ModelState :=
  mkModelState s.(mo_inodes) s.(mo_direntry_binds) s.(mo_revisions) (s.(mo_content_layouts) ++ [r])
    s.(mo_subtree_tombstones) s.(mo_attribute_revisions) s.(mo_access_revisions).
Definition model_push_tombstone (s : ModelState) (r : ModelTombstoneRecord) : ModelState :=
  mkModelState s.(mo_inodes) s.(mo_direntry_binds) s.(mo_revisions) s.(mo_content_layouts)
    (s.(mo_subtree_tombstones) ++ [r]) s.(mo_attribute_revisions) s.(mo_access_revisions).
Definition model_push_attributes (s : ModelState) (r : ModelAttributeRevisionRecord) : ModelState :=
  mkModelState s.(mo_inodes) s.(mo_direntry_binds) s.(mo_revisions) s.(mo_content_layouts)
    s.(mo_subtree_tombstones) (s.(mo_attribute_revisions) ++ [r]) s.(mo_access_revisions).
Definition model_push_access (s : ModelState) (r : ModelAccessRevisionRecord) : ModelState :=
  mkModelState s.(mo_inodes) s.(mo_direntry_binds) s.(mo_revisions) s.(mo_content_layouts)
    s.(mo_subtree_tombstones) s.(mo_attribute_revisions) (s.(mo_access_revisions) ++ [r]).

(** One arm of the loop in [apply_committed_wal_deltas]. *)
Definition model_apply_delta (state : ModelState) (committed_seq : ChangeSeq) (commit_id : CommitId)
    (actor : ActorId) (committed_at_ms : N) (delta : WalDelta) : ModelState :=
  match delta with
  | CreateInode _ inode_id inode_kind =>
      model_push_inode state
        {| mir_inode_id := inode_id; mir_inode_kind := inode_kind;
           mir_committed_seq := committed_seq; mir_commit_id := commit_id;
           mir_committed_by := actor; mir_committed_at_ms := committed_at_ms |}
  | BindDirentry delta_index parent_inode_id name_key display_name child_inode_id _ _ _ _ =>
      model_push_binding state
        {| mdb_parent_inode_id := parent_inode_id; mdb_name_key := name_key;
           mdb_child_inode_id := child_inode_id; mdb_committed_seq := committed_seq;
           mdb_delta_index := delta_index; mdb_state := MBound display_name |}
  | UnbindDirentry delta_index parent_inode_id name_key _ child_inode_id _ _ _ _ =>
      model_push_binding state
        {| mdb_parent_inode_id := parent_inode_id; mdb_name_key := name_key;
           mdb_child_inode_id := child_inode_id; mdb_committed_seq := committed_seq;
           mdb_delta_index := delta_index; mdb_state := MUnbound |}
  | AppendFileRevision delta_index inode_id _ _ _ _ _ _ revision_no content_ref layout _ =>
      let state :=
        match layout with
        | Some layout =>
            model_push_layout state
              {| mlr_content_id := content_ref.(cref_content_id);
                 mlr_committed_seq := committed_seq; mlr_size_bytes := size_bytes layout;
                 mlr_layout := layout |}
        | None => state
        end in
      model_push_revision state
        {| mrr_inode_id := inode_id; mrr_revision_no := revision_no;
           mrr_committed_seq := committed_seq; mrr_commit_id := commit_id;
           mrr_committed_at_ms := committed_at_ms; mrr_committed_by := actor;
           mrr_revision_delta_index := delta_index; mrr_content_ref := content_ref |}
  | TombstoneSubtree delta_index root_inode_id root_kind deleted_binding =>
      model_push_tombstone state
        {| mtb_root_inode_id := root_inode_id; mtb_committed_seq := committed_seq;
           mtb_delta_index := delta_index; mtb_commit_id := commit_id;
           mtb_committed_at_ms := committed_at_ms; mtb_committed_by := actor;
           mtb_action := MSet root_kind
             {| mdl_parent_inode_id := deleted_binding.(dlb_parent_inode_id);
                mdl_name_key := deleted_binding.(dlb_name_key);
                mdl_display_name := deleted_binding.(dlb_display_name) |} |}
  | RevokeSubtreeTombstone delta_index root_inode_id target =>
      model_push_tombstone state
        {| mtb_root_inode_id := root_inode_id; mtb_committed_seq := committed_seq;
           mtb_delta_index := delta_index; mtb_commit_id := commit_id;
           mtb_committed_at_ms := committed_at_ms; mtb_committed_by := actor;
           mtb_action := MRevoke target |}
  | AppendAttributesRevision delta_index inode_id attributes_revision_no attributes =>
      model_push_attributes state
        {| mat_inode_id := inode_id; mat_revision_no := attributes_revision_no;
           mat_committed_seq := committed_seq; mat_commit_id := commit_id;
           mat_delta_index := delta_index; mat_committed_by := actor;
           mat_committed_at_ms := committed_at_ms;
           mat_entries := (λ '(key, value), mkAttributeEntry key value) <$> attributes |}
  | AppendAccessRevision delta_index inode_id access_revision_no boundary grants =>
      model_push_access state
        {| mac_inode_id := inode_id; mac_revision_no := access_revision_no;
           mac_committed_seq := committed_seq; mac_commit_id := commit_id;
           mac_delta_index := delta_index; mac_committed_by := actor;
           mac_committed_at_ms := committed_at_ms; mac_boundary := boundary;
           mac_grants := (λ '(principal_id, rights),
             mkGrantEntry principal_id (right_as_str <$> rights_iter rights)) <$> grants |}
  end.

Definition model_apply_committed_wal_deltas (state : ModelState) (committed_seq : ChangeSeq)
    (commit_id : CommitId) (actor : ActorId) (committed_at_ms : N) (deltas : list WalDelta)
    : res ModelError ModelState :=
  let state :=
    foldl (λ state delta,
      model_apply_delta state committed_seq commit_id actor committed_at_ms delta) state deltas in
  _ ← model_verify_bindings state committed_seq;
  Ok state.

(** A stable sort by key, as [sort_by_key] is: each row goes after the rows
    with keys that are not greater. *)
Fixpoint insert_sorted {A} (before : A → A → bool) (x : A) (l : list A) : list A :=
  match l with
  | [] => [x]
  | y :: rest => if before x y then x :: l else y :: insert_sorted before x rest
  end.

Definition sort_stable {A} (before : A → A → bool) (l : list A) : list A :=
  foldl (λ sorted x, insert_sorted before x sorted) [] l.

(** [(content_id, Reverse((size_bytes, committed_seq)))]. *)
Definition layout_key_before (a b : ModelContentLayoutRecord) : bool :=
  match lex (cmp a.(mlr_content_id) b.(mlr_content_id))
          (cmp (b.(mlr_size_bytes), b.(mlr_committed_seq)) (a.(mlr_size_bytes), a.(mlr_committed_seq)))
  with Lt => true | _ => false end.

Definition content_layouts_in_key_order (state : ModelState) : list ModelContentLayoutRecord :=
  sort_stable layout_key_before state.(mo_content_layouts).

Definition model_content_head (state : ModelState) (content_id : ContentId) : option N :=
  let revision_size :=
    (λ row, row.(mrr_content_ref).(cref_size_bytes)) <$>
      max_by_key (λ row, (row.(mrr_content_ref).(cref_size_bytes), row.(mrr_committed_seq),
                          row.(mrr_revision_delta_index)))
        (filter (λ row, row.(mrr_content_ref).(cref_content_id) = content_id)
           state.(mo_revisions)) in
  let layout_size :=
    mlr_size_bytes <$>
      find_first (λ row, row.(mlr_content_id) = content_id) (content_layouts_in_key_order state) in
  match revision_size, layout_size with
  | Some a, Some b => Some (N.max a b)
  | Some a, None => Some a
  | None, o => o
  end.

(** ** Visibility *)

(** The newest tombstone event of the root is a set. *)
Definition is_hidden_root (state : ModelState) (root_inode_id : InodeId) (seq : ChangeSeq) : bool :=
  match max_by_key (λ event, (event.(mtb_committed_seq), event.(mtb_delta_index)))
          (filter (λ event, event.(mtb_root_inode_id) = root_inode_id ∧
                     event.(mtb_committed_seq) ≤ seq) state.(mo_subtree_tombstones)) with
  | Some event => match event.(mtb_action) with MSet _ _ => true | MRevoke _ => false end
  | None => false
  end.

Definition model_visible_inode (state : ModelState) (inode_id : InodeId) (seq : ChangeSeq)
    : res ModelError (option ModelInodeRecord) :=
  match find_first (λ inode, inode.(mir_inode_id) = inode_id ∧ inode.(mir_committed_seq) ≤ seq)
          state.(mo_inodes) with
  | None => Ok None
  | Some inode =>
      members ← model_ancestry state inode_id seq;
      if existsb (λ member, is_hidden_root state member seq) members then Ok None
      else Ok (Some inode)
  end.

Record ListedEntry := mkListedEntry {
  le_binding : ModelBindingRecord;
  le_display_name : DisplayName;
  le_child : ModelInodeRecord;
}.

Definition visible_entry (state : ModelState) (parent_inode_id : InodeId) (name_key : NameKey)
    (seq : ChangeSeq) : res ModelError (option ListedEntry) :=
  match model_slot_value state parent_inode_id name_key seq with
  | None => Ok None
  | Some binding =>
      match binding.(mdb_state) with
      | MUnbound => Ok None
      | MBound display_name =>
          child ← model_visible_inode state binding.(mdb_child_inode_id) seq;
          Ok (match child with
              | Some child => Some (mkListedEntry binding display_name child)
              | None => None
              end)
      end
  end.

(** The private [absolute_path]. *)
Definition model_absolute_path (names : list string) : string := "/" +:+ join_strings "/" names.

Inductive ModelResolvedPath : Set :=
| MFound (absolute_path : string) (inode : ModelInodeRecord) (binding : option ModelBindingRecord)
| MNotFound (absolute_path : string)
| MNotADirectory (absolute_path : string) (inode : ModelInodeRecord).

Fixpoint model_resolve_components `{NamePolicy} (state : ModelState) (seq : ChangeSeq)
    (inode : ModelInodeRecord) (binding : option ModelBindingRecord) (names : list string)
    (components : list string) : res ModelError ModelResolvedPath :=
  match components with
  | [] => Ok (MFound (model_absolute_path names) inode binding)
  | component :: rest =>
      if decide (inode.(mir_inode_kind) ≠ Directory) then
        Ok (MNotADirectory (model_absolute_path names) inode)
      else
        entry ← visible_entry state inode.(mir_inode_id) (for_display_name component) seq;
        match entry with
        | None => Ok (MNotFound (model_absolute_path (names ++ [component])))
        | Some entry =>
            model_resolve_components state seq entry.(le_child) (Some entry.(le_binding))
              (names ++ [entry.(le_display_name)]) rest
        end
  end.

Definition model_resolve_path `{NamePolicy} (state : ModelState) (path : AbsolutePath)
    (seq : ChangeSeq) : res ModelError ModelResolvedPath :=
  found ← model_visible_inode state ROOT_INODE_ID seq;
  match found with
  | None => Ok (MNotFound (model_absolute_path []))
  | Some inode => model_resolve_components state seq inode None [] path.(path_components)
  end.

Fixpoint list_entries (state : ModelState) (parent_inode_id : InodeId) (seq : ChangeSeq)
    (name_keys : list NameKey) : res ModelError (list ListedEntry) :=
  match name_keys with
  | [] => Ok []
  | name_key :: rest =>
      entry ← visible_entry state parent_inode_id name_key seq;
      entries ← list_entries state parent_inode_id seq rest;
      Ok (match entry with Some entry => entry :: entries | None => entries end)
  end.

Definition list_directory (state : ModelState) (parent_inode_id : InodeId) (seq : ChangeSeq)
    : res ModelError (list ListedEntry) :=
  list_entries state parent_inode_id seq
    (btree_set (mdb_name_key <$>
       filter (λ row, row.(mdb_parent_inode_id) = parent_inode_id) state.(mo_direntry_binds))).

Definition would_create_cycle (state : ModelState) (inode_id new_parent_inode_id : InodeId)
    (seq : ChangeSeq) : res ModelError bool :=
  ancestry ← model_ancestry state new_parent_inode_id seq;
  Ok (bool_decide (inode_id ∈ ancestry)).

(** ** Ancestry *)

(** The chain of parents from an inode up to one without a parent. *)
Inductive chain (up : InodeId → option InodeId) : InodeId → list InodeId → Prop :=
| chain_end a : up a = None → chain up a [a]
| chain_up a p l : up a = Some p → chain up p l → chain up a (a :: l).

Lemma chain_det up a l l' : chain up a l → chain up a l' → l = l'.
Proof.
  intros Hl. revert l'. induction Hl as [a Ha|a p l Ha Hl IH]; intros l' Hl'; inversion Hl'; subst;
    try congruence.
  f_equal. apply IH. by replace p with p0 by congruence.
Qed.

Lemma chain_mem up a l b : chain up a l → b ∈ l → ∃ l1 l2, l = l1 ++ l2 ∧ chain up b l2.
Proof.
  induction 1 as [a Ha|a p l Ha Hl IH]; intros Hb.
  - apply list_elem_of_singleton in Hb as ->. exists [], [a]. split; [done|by constructor].
  - apply elem_of_cons in Hb as [->|Hb]; [exists [], (a :: l); split; [done|by econstructor]|].
    destruct (IH Hb) as (l1 & l2 & -> & Hc). by exists (a :: l1), l2.
Qed.

Lemma chain_NoDup up a l : chain up a l → NoDup l.
Proof.
  induction 1 as [a Ha|a p l Ha Hl IH]; [apply NoDup_singleton|].
  constructor; [|done]. intros Hin. destruct (chain_mem _ _ _ _ Hl Hin) as (l1 & l2 & -> & Hc).
  assert (a :: l1 ++ l2 = l2) as E by (eapply chain_det; [by econstructor|done]).
  apply (f_equal length) in E. simpl in E. rewrite length_app in E. lia.
Qed.

Lemma chain_ext up up' a l : (∀ b, up b = up' b) → chain up a l → chain up' a l.
Proof.
  intros E. induction 1 as [a Ha|a p l Ha Hl IH]; rewrite E in Ha; [by constructor|].
  by eapply chain_up.
Qed.

Lemma chain_head up a l : chain up a l → ∃ t, l = a :: t.
Proof. destruct 1; eauto. Qed.

Lemma chain_rtc up a l b : chain up a l → b ∈ l ↔ rtc (λ x y, up x = Some y) a b.
Proof.
  induction 1 as [a Ha|a p l Ha Hl IH].
  - rewrite list_elem_of_singleton. split; [intros ->; apply rtc_refl|].
    intros Hb. apply rtc_inv in Hb as [->|(c & Hc & _)]; [done|congruence].
  - rewrite elem_of_cons, IH. split.
    + intros [->|Hb]; [apply rtc_refl|by eapply rtc_l].
    + intros Hb. apply rtc_inv in Hb as [->|(c & Hc & Hb)]; [by left|right].
      by replace p with c by congruence.
Qed.

Lemma chain_tail_incl up a l (parents : list InodeId) :
  chain up a l → (∀ c p, up c = Some p → p ∈ parents) → ∀ b, b ∈ l → b = a ∨ b ∈ parents.
Proof.
  intros Hl Hin. induction Hl as [a Ha|a p l Ha Hl IH]; intros b Hb.
  - left. by apply list_elem_of_singleton in Hb.
  - apply elem_of_cons in Hb as [->|Hb]; [by left|]. right.
    destruct (IH b Hb) as [->|?]; [by eapply Hin|done].
Qed.

Section ancestry.
Context (state : ModelState) (seq : ChangeSeq).

Definition model_up (a : InodeId) : option InodeId :=
  mdb_parent_inode_id <$> model_parent_binding state a seq.

Definition model_parents : list InodeId := mdb_parent_inode_id <$> state.(mo_direntry_binds).

Lemma model_parent_binding_In c row :
  model_parent_binding state c seq = Some row →
  row ∈ state.(mo_direntry_binds) ∧ row.(mdb_child_inode_id) = c ∧
  row.(mdb_committed_seq) ≤ seq ∧ model_is_bound row = true.
Proof.
  unfold model_parent_binding. destruct (max_by_key _ _) as [b|] eqn:E; [|done]. simpl.
  destruct (model_is_bound b) eqn:Eb; [|done]. intros [= ->].
  apply max_by_key_is_max in E as [Hin _]. apply list_elem_of_filter in Hin. naive_solver.
Qed.

Lemma model_up_parents c p : model_up c = Some p → p ∈ model_parents.
Proof.
  unfold model_up. destruct (model_parent_binding state c seq) as [row|] eqn:E; [|done].
  intros [= <-]. apply model_parent_binding_In in E as (Hin & _). by apply list_elem_of_fmap_2.
Qed.

Lemma ancestry_loop_sound fuel anc cur l :
  model_ancestry_loop fuel state seq anc cur = Ok l →
  ∃ t, chain model_up cur (cur :: t) ∧ l = anc ++ t.
Proof.
  revert anc cur. induction fuel as [|fuel IH]; intros anc cur; [done|]. cbn [model_ancestry_loop].
  destruct (model_parent_binding state cur seq) as [b|] eqn:Eb.
  - cbv zeta. case_decide; [done|]. intros Hl. destruct (IH _ _ Hl) as (t & Hc & ->).
    exists (mdb_parent_inode_id b :: t). split; [|by rewrite <-app_assoc].
    eapply chain_up; [|done]. unfold model_up. by rewrite Eb.
  - intros [= <-]. exists []. split; [|by rewrite app_nil_r]. constructor. unfold model_up. by rewrite Eb.
Qed.

Lemma ancestry_loop_complete fuel anc cur t :
  chain model_up cur (cur :: t) → NoDup (anc ++ t) → (length t < fuel)%nat →
  model_ancestry_loop fuel state seq anc cur = Ok (anc ++ t).
Proof.
  revert anc cur t. induction fuel as [|fuel IH]; intros anc cur t Hc Hnd Hf; [lia|].
  cbn [model_ancestry_loop]. inversion Hc as [? Hu|? p l Hu Hl]; subst; unfold model_up in Hu.
  - destruct (model_parent_binding state cur seq); [done|]. by rewrite app_nil_r.
  - destruct (model_parent_binding state cur seq) as [b|]; [|done]. injection Hu as Hu. cbv zeta.
    destruct (chain_head _ _ _ Hl) as [t' ->]. rewrite Hu.
    rewrite decide_False.
    2: { intros Hin. apply NoDup_app in Hnd as (_ & Hdis & _). apply (Hdis p Hin). set_solver. }
    assert (anc ++ p :: t' = (anc ++ [p]) ++ t') as E by by rewrite <-app_assoc.
    rewrite E in Hnd |- *. apply IH; [done|done|simpl in Hf; lia].
Qed.

Lemma ancestry_loop_fuel fuel anc cur start :
  NoDup anc → (∀ b, b ∈ anc → b = start ∨ b ∈ model_parents) →
  (length model_parents + 1 < fuel + length anc)%nat →
  model_ancestry_loop fuel state seq anc cur ≠ OutOfFuel.
Proof.
  revert anc cur. induction fuel as [|fuel IH]; intros anc cur Hnd Hin Hlen.
  - assert (length anc ≤ length (start :: model_parents))%nat; [|simpl in *; lia].
    apply NoDup_incl_length; [by apply NoDup_ListNoDup|].
    intros b. rewrite <-!list_elem_of_In. intros Hb. apply elem_of_cons. naive_solver.
  - cbn [model_ancestry_loop]. destruct (model_parent_binding state cur seq) as [b|] eqn:Eb; [|done].
    cbv zeta. case_decide as Hseen; [done|]. apply IH.
    + apply NoDup_app. split_and!; [done| |apply NoDup_singleton]. set_solver.
    + intros x [Hx| ->%list_elem_of_singleton]%elem_of_app; [by apply Hin|].
      right. apply (model_up_parents cur). unfold model_up. by rewrite Eb.
    + rewrite length_app. simpl. lia.
Qed.

Lemma model_ancestry_loop_no_panic fuel anc cur : model_ancestry_loop fuel state seq anc cur ≠ Panic.
Proof.
  revert anc cur. induction fuel as [|fuel IH]; intros anc cur; [done|]. cbn [model_ancestry_loop].
  destruct (model_parent_binding state cur seq); [|done]. cbv zeta. by case_decide.
Qed.

(** [ancestry] returns the chain of parents, or reports a cycle when there
    is none; it always returns. *)
Lemma model_ancestry_spec a l : model_ancestry state a seq = Ok l ↔ chain model_up a l.
Proof.
  unfold model_ancestry. split.
  - intros (t & Hc & ->)%ancestry_loop_sound. done.
  - intros Hc. destruct (chain_head _ _ _ Hc) as [t ->].
    apply (ancestry_loop_complete _ [a] a t Hc); [by eapply chain_NoDup|].
    pose proof (chain_tail_incl _ _ _ model_parents Hc model_up_parents) as Hincl.
    assert (length (a :: t) ≤ length (a :: model_parents))%nat.
    { apply NoDup_incl_length; [apply NoDup_ListNoDup; by eapply chain_NoDup|].
      intros b. rewrite <-!list_elem_of_In, !elem_of_cons. intros Hb.
      apply Hincl. by apply elem_of_cons. }
    unfold model_parents in *. simpl in *. rewrite length_fmap in *. lia.
Qed.

Lemma model_ancestry_returns a : returns (model_ancestry state a seq).
Proof.
  unfold model_ancestry. set (m := model_ancestry_loop _ _ _ _ _).
  assert (m ≠ OutOfFuel).
  { apply (ancestry_loop_fuel _ _ _ a); [apply NoDup_singleton|set_solver|].
    unfold model_parents. rewrite length_fmap. simpl. lia. }
  assert (m ≠ Panic) by apply model_ancestry_loop_no_panic. by destruct m.
Qed.
End ancestry.

(** ** What [verify_bindings] checks *)
Section verify.
Context (state : ModelState) (seq : ChangeSeq).
Implicit Types row value : ModelBindingRecord.

Definition slot_of row : InodeId * NameKey := (row.(mdb_parent_inode_id), row.(mdb_name_key)).

(** [row] is the bound current value of its slot; of its child. *)
Definition slot_current row : Prop :=
  model_slot_value state row.(mdb_parent_inode_id) row.(mdb_name_key) seq = Some row ∧
  model_is_bound row = true.
Definition child_current row : Prop :=
  model_parent_binding state row.(mdb_child_inode_id) seq = Some row.

(** The binding rules: one order's current bindings are the other's, and
    every bound inode's parents end. *)
Definition bindings_ok : Prop :=
  (∀ row, slot_current row ↔ child_current row) ∧
  (∀ row, child_current row → ∃ l, chain (model_up state seq) row.(mdb_child_inode_id) l).

Lemma model_slot_value_In p k row :
  model_slot_value state p k seq = Some row →
  row ∈ state.(mo_direntry_binds) ∧ row.(mdb_parent_inode_id) = p ∧ row.(mdb_name_key) = k ∧
  row.(mdb_committed_seq) ≤ seq.
Proof. intros [Hin _]%max_by_key_is_max. apply list_elem_of_filter in Hin. naive_solver. Qed.

Lemma collect_bindings_spec :
  let '(by_slot, by_child) := collect_bindings state seq in
  ascending by_slot ∧ ascending by_child ∧
  (∀ p, p ∈ by_slot ↔ slot_current p.2 ∧ p.1 = slot_of p.2) ∧
  (∀ p, p ∈ by_child ↔ child_current p.2 ∧ p.1 = mdb_child_inode_id p.2).
Proof.
  set (f1 row := option_filter model_is_bound
    (model_slot_value state row.(mdb_parent_inode_id) row.(mdb_name_key) seq)).
  set (f2 row := model_parent_binding state row.(mdb_child_inode_id) seq).
  assert (collect_bindings state seq = (foldl (collect_step f1 slot_of) [] (mo_direntry_binds state),
      foldl (collect_step f2 mdb_child_inode_id) [] (mo_direntry_binds state))) as ->.
  { unfold collect_bindings. generalize (@nil ((InodeId * NameKey) * ModelBindingRecord)) as a.
    generalize (@nil (InodeId * ModelBindingRecord)) as b.
    induction (mo_direntry_binds state) as [|row l IH]; intros b a; [done|]. cbn [foldl]. by rewrite IH. }
  assert (∀ row v, f1 row = Some v → slot_current v ∧ slot_of v = slot_of row) as Hf1.
  { intros row v. unfold f1. destruct (model_slot_value _ _ _ _) as [w|] eqn:Ev; [|done]. simpl.
    destruct (model_is_bound w) eqn:Eb; [|done]. intros [= ->].
    apply model_slot_value_In in Ev as Hv. destruct Hv as (_ & Hp & Hk & _).
    unfold slot_current, slot_of. rewrite Hp, Hk. auto. }
  assert (∀ row v, f2 row = Some v → child_current v ∧ v.(mdb_child_inode_id) = row.(mdb_child_inode_id)) as Hf2.
  { intros row v Hv. apply model_parent_binding_In in Hv as Hin. destruct Hin as (_ & Hc & _).
    split; [|done]. unfold child_current. by rewrite Hc. }
  destruct (collect_spec f1 slot_of) with (l := mo_direntry_binds state) as [A1 M1].
  { intros a a' v v' [[Hv _] Ea]%Hf1 [[Hv' _] Ea']%Hf1 E. unfold slot_of in E. congruence. }
  destruct (collect_spec f2 mdb_child_inode_id) with (l := mo_direntry_binds state) as [A2 M2].
  { intros a a' v v' [Hv _]%Hf2 [Hv' _]%Hf2 E. unfold child_current in *. congruence. }
  split_and!; [done|done|..].
  - intros [k v]. rewrite M1. cbn. split.
    + intros (row & _ & [Hc _]%Hf1 & ->). done.
    + intros [Hc ->]. exists v. split; [by destruct (model_slot_value_In _ _ _ (proj1 Hc))|].
      split; [|done]. unfold f1. destruct Hc as [-> Hb]. simpl. by rewrite Hb.
  - intros [k v]. rewrite M2. cbn. split.
    + intros (row & _ & [Hc _]%Hf2 & ->). done.
    + intros [Hc ->]. exists v. split; [by destruct (model_parent_binding_In _ _ _ _ Hc)|done].
Qed.

Lemma check_unique_Ok `{TotalOrd K} (key : ModelBindingRecord → K) error m values :
  ascending m →
  check_unique key error m values = Ok () ↔
  NoDup (key <$> values) ∧ ∀ v, v ∈ values → ∀ p, p ∈ m → p.1 ≠ key v.
Proof.
  revert m. induction values as [|v values IH]; intros m Ha.
  { cbn. split; [|done]. intros _. split; [constructor|set_solver]. }
  cbn [check_unique fmap list_fmap].
  pose proof (btree_insert_old (key v) (model_position v) m Ha) as Hold.
  pose proof (λ p, btree_insert_elem (key v) (model_position v) m p Ha) as Helem.
  pose proof (btree_insert_ascending (key v) (model_position v) m Ha) as Hasc.
  destruct (btree_insert _ _ m) as [old m']. cbn [fst snd] in *. rewrite NoDup_cons.
  destruct old as [other|].
  - split; [done|]. intros [_ Hm]. assert (Some other = None); [|done].
    apply Hold. intros p Hp. apply Hm; [set_solver|done].
  - rewrite IH by done. pose proof (proj1 Hold eq_refl) as Hfresh. split.
    + intros [Hnd Hm]. split_and!; [|done|].
      * intros (w & Ew & Hw)%list_elem_of_fmap.
        apply (Hm w Hw (key v, model_position v)); [apply Helem; by left|done].
      * intros w [->|Hw]%elem_of_cons p Hp; [by apply Hfresh|].
        apply (Hm w Hw). apply Helem. right. split; [by apply Hfresh|done].
    + intros [[Hv Hnd] Hm]. split; [done|]. intros w Hw p [->|[Hne Hp]]%Helem.
      * cbn. intros E. apply Hv, list_elem_of_fmap. by exists w.
      * apply Hm; [set_solver|done].
Qed.

Lemma symmetric_difference_None a b :
  symmetric_difference_next a b = None ↔ ∀ p, p ∈ a ↔ p ∈ b.
Proof.
  unfold symmetric_difference_next. rewrite find_first_None. destruct (btree_set_spec (a ++ b)) as [Hs _].
  setoid_rewrite Hs. split.
  - intros Hn p. destruct (decide (p ∈ a ++ b)) as [Hp|Hp].
    + specialize (Hn p Hp). by apply dec_stable in Hn.
    + set_solver.
  - intros Heq p _. rewrite Heq. tauto.
Qed.

Lemma check_ancestries_Ok children :
  check_ancestries state seq children = Ok () ↔
  ∀ c, c ∈ children → ∃ l, chain (model_up state seq) c l.
Proof.
  induction children as [|c children IH]; cbn [check_ancestries]; [set_solver|].
  pose proof (model_ancestry_spec state seq c) as Hspec.
  destruct (model_ancestry state c seq) as [l| | |]; cbn [mbind res_bind].
  - rewrite IH. split; [|set_solver]. intros Hc d [->|Hd]%elem_of_cons; [|by apply Hc].
    exists l. by apply Hspec.
  - split; [done|]. intros Hc. destruct (Hc c) as [l Hl]; [set_solver|]. by apply Hspec in Hl.
  - split; [done|]. intros Hc. destruct (Hc c) as [l Hl]; [set_solver|]. by apply Hspec in Hl.
  - split; [done|]. intros Hc. destruct (Hc c) as [l Hl]; [set_solver|]. by apply Hspec in Hl.
Qed.

Context (Hpos : NoDup (model_position <$> state.(mo_direntry_binds))).

Lemma position_inj row row' :
  row ∈ state.(mo_direntry_binds) → row' ∈ state.(mo_direntry_binds) →
  model_position row = model_position row' → row = row'.
Proof. by apply NoDup_fmap_elem. Qed.

Lemma slot_current_In row : slot_current row → row ∈ state.(mo_direntry_binds).
Proof. intros [Hv _]. by apply model_slot_value_In in Hv as [? _]. Qed.

Lemma child_current_In row : child_current row → row ∈ state.(mo_direntry_binds).
Proof. intros Hv. by apply model_parent_binding_In in Hv as [? _]. Qed.

(** A map of [collect_bindings] holds exactly the rows [P], each under its
    own key. *)
Section keyed.
Context `{TotalOrd K} (key : ModelBindingRecord → K) (P : ModelBindingRecord → Prop).
Context (m : list (K * ModelBindingRecord)) (Hm : ∀ p, p ∈ m ↔ P p.2 ∧ p.1 = key p.2).

Lemma keyed_values v : v ∈ m.*2 ↔ P v.
Proof.
  rewrite list_elem_of_fmap. split.
  - intros (p & -> & Hp). by apply Hm in Hp as [? _].
  - intros Hv. exists (key v, v). split; [done|]. by apply Hm.
Qed.

Lemma keyed_positions p : p ∈ btree_set (model_position <$> m.*2) ↔ ∃ v, P v ∧ model_position v = p.
Proof.
  rewrite (proj1 (btree_set_spec _)), list_elem_of_fmap. setoid_rewrite keyed_values.
  split; intros (v & ? & ?); by exists v.
Qed.

Lemma keyed_unique {Q} (f : ModelBindingRecord → Q) :
  ascending m → (∀ v w, P v → P w → f v = f w → v = w) → NoDup (f <$> m.*2).
Proof.
  intros Ha Hf. apply NoDup_fmap_inj.
  - intros v w Hv%keyed_values Hw%keyed_values. by apply Hf.
  - apply NoDup_fmap_inj; [|by apply ascending_NoDup]. intros p q [_ Hp]%Hm [_ Hq]%Hm E.
    destruct p, q; cbn in *; congruence.
Qed.
End keyed.

Lemma verify_bindings_sound : model_verify_bindings state seq = Ok () → bindings_ok.
Proof.
  unfold model_verify_bindings. pose proof collect_bindings_spec as Hcol.
  destruct (collect_bindings state seq) as [bs bc]. destruct Hcol as (_ & _ & Ms & Mc).
  unfold check_children, check_slots. intros Hv.
  destruct (check_unique mdb_child_inode_id _ _ _) as [[]| | |]; try done. cbn [mbind res_bind] in Hv.
  destruct (check_unique _ _ _ _) as [[]| | |]; try done. cbn [mbind res_bind] in Hv.
  destruct (symmetric_difference_next _ _) eqn:Esd; [done|].
  rewrite symmetric_difference_None in Esd. setoid_rewrite (keyed_positions _ _ _ Ms) in Esd.
  setoid_rewrite (keyed_positions _ _ _ Mc) in Esd. rewrite check_ancestries_Ok in Hv. split.
  - intros row. split; intros Hrow.
    + destruct (proj1 (Esd (model_position row))) as (row' & Hrow' & E); [by exists row|].
      by rewrite <-(position_inj row' row) by eauto using slot_current_In, child_current_In.
    + destruct (proj2 (Esd (model_position row))) as (row' & Hrow' & E); [by exists row|].
      by rewrite <-(position_inj row' row) by eauto using slot_current_In, child_current_In.
  - intros row Hrow. apply Hv, list_elem_of_fmap. exists (row.(mdb_child_inode_id), row).
    split; [done|]. by apply Mc.
Qed.

Lemma verify_bindings_complete : bindings_ok → model_verify_bindings state seq = Ok ().
Proof.
  unfold model_verify_bindings. pose proof collect_bindings_spec as Hcol.
  destruct (collect_bindings state seq) as [bs bc]. destruct Hcol as (As & Ac & Ms & Mc).
  intros [Hagree Hchain]. unfold check_children, check_slots.
  rewrite (proj2 (check_unique_Ok mdb_child_inode_id _ [] bs.*2 ltac:(constructor))).
  2: { split; [|set_solver]. apply (keyed_unique _ _ _ Ms); [done|].
    intros v w Hv%Hagree Hw%Hagree E. unfold child_current in *. congruence. }
  cbn [mbind res_bind].
  rewrite (proj2 (check_unique_Ok (λ value, (value.(mdb_parent_inode_id), value.(mdb_name_key)))
    _ [] bc.*2 ltac:(constructor))).
  2: { split; [|set_solver]. apply (keyed_unique _ _ _ Mc); [done|].
    intros v w [Hv _]%Hagree [Hw _]%Hagree E. congruence. }
  cbn [mbind res_bind]. rewrite (proj2 (symmetric_difference_None _ _)).
  - apply check_ancestries_Ok. intros c ((k & v) & -> & [Hv E]%Mc)%list_elem_of_fmap. cbn in *. subst.
    by apply Hchain.
  - intros p. rewrite (keyed_positions _ _ _ Ms), (keyed_positions _ _ _ Mc).
    split; intros (v & Hv & E); exists v; (split; [by apply Hagree|done]).
Qed.

Lemma check_unique_returns `{Ord K} (key : ModelBindingRecord → K) error m values :
  returns (check_unique key error m values).
Proof.
  revert m. induction values as [|v values IH]; intros m; cbn; [done|].
  by destruct (btree_insert _ _ _) as [[other|] m'].
Qed.

Lemma check_ancestries_returns children : returns (check_ancestries state seq children).
Proof.
  induction children as [|c children IH]; cbn; [done|].
  pose proof (model_ancestry_returns state seq c) as Hc.
  by destruct (model_ancestry state c seq).
Qed.

Lemma verify_bindings_returns : returns (model_verify_bindings state seq).
Proof.
  unfold model_verify_bindings. destruct (collect_bindings state seq) as [bs bc].
  unfold check_children, check_slots.
  pose proof (check_unique_returns mdb_child_inode_id (λ value other,
    ChildHasTwoParents seq value.(mdb_child_inode_id) (other, model_position value)) [] bs.*2) as H1.
  destruct (check_unique mdb_child_inode_id _ _ _) as [[]| | |]; try done. cbn [mbind res_bind].
  pose proof (check_unique_returns (λ value, (value.(mdb_parent_inode_id), value.(mdb_name_key)))
    (λ value other, SlotHasTwoChildren seq value.(mdb_parent_inode_id) value.(mdb_name_key)
        (other, model_position value)) [] bc.*2) as H2.
  destruct (check_unique _ _ _ _) as [[]| | |]; try done. cbn [mbind res_bind].
  destruct (symmetric_difference_next _ _); [done|]. apply check_ancestries_returns.
Qed.
End verify.

(** C24 The model's own check is exact.  [verify_bindings] always answers, and
    accepts a state exactly when the rows that are current for their slot are
    the rows that are current for their child, so that no inode has two
    places and no place two inodes, and the parents of every bound inode end,
    so that no directory is inside itself. *)
Theorem verify_bindings_exact (state : ModelState) (seq : ChangeSeq)
  (Hpositions : NoDup (model_position <$> state.(mo_direntry_binds))) :
  returns (model_verify_bindings state seq) ∧
  (model_verify_bindings state seq = Ok () ↔ bindings_ok state seq).
Proof.
  split; [apply verify_bindings_returns|].
  split; [by apply verify_bindings_sound|by apply verify_bindings_complete].
Qed.

Definition example_model : ModelState :=
  {| mo_inodes := []; mo_direntry_binds :=
       [ mkModelBindingRecord 0 "a" 5 1 0 (MBound "A"); mkModelBindingRecord 5 "b" 6 1 1 (MBound "B");
         mkModelBindingRecord 5 "b" 6 2 0 MUnbound; mkModelBindingRecord 0 "b" 6 2 1 (MBound "B") ];
     mo_revisions := []; mo_content_layouts := []; mo_subtree_tombstones := [];
     mo_attribute_revisions := []; mo_access_revisions := [] |}.

Lemma verify_bindings_exact_witness :
  bindings_ok example_model 1 ∧ bindings_ok example_model 2.
Proof.
  split; apply verify_bindings_exact; try (vm_compute; reflexivity);
    apply (bool_decide_unpack _); vm_compute; exact I.
Defined.
