(* ===== verification/Refinement.v ===== *)
(** * The core refines the reference model

    [model_of] forgets what the model does not keep: the summary rows that a
    file's revisions add to its edge, the copies of the child's kind and
    attribution, and the indexes.  The theorems show that applying a commit
    to the core's rows and to the model's rows commutes with [model_of], and
    that the core's reads answer as the model's do: the property that the
    differential tests of [loonfs-model] sample. *)
From S2P Require Import Prelude Types Records MetadataState Paths Visibility StateReads Model.
Local Open Scope N_scope.

(** ** The abstraction *)
Definition model_of_inode (r : InodeRecord) : ModelInodeRecord :=
  {| mir_inode_id := r.(ir_inode_id); mir_inode_kind := r.(ir_inode_kind);
     mir_committed_seq := r.(ir_committed_seq); mir_commit_id := r.(ir_commit_id);
     mir_committed_by := r.(ir_committed_by); mir_committed_at_ms := r.(ir_committed_at_ms) |}.

Definition model_of_binding (r : DirentryBindingRecord) : ModelBindingRecord :=
  {| mdb_parent_inode_id := r.(db_parent_inode_id); mdb_name_key := r.(db_name_key);
     mdb_child_inode_id := r.(db_child_inode_id); mdb_committed_seq := r.(db_committed_seq);
     mdb_delta_index := r.(db_delta_index);
     mdb_state := match r.(db_state) with
                  | Bound display_name _ => MBound display_name
                  | Unbound => MUnbound
                  end |}.

Definition model_of_revision (r : RevisionRecord) : ModelRevisionRecord :=
  {| mrr_inode_id := r.(rr_inode_id); mrr_revision_no := r.(rr_revision_no);
     mrr_committed_seq := r.(rr_committed_seq); mrr_commit_id := r.(rr_commit_id);
     mrr_committed_at_ms := r.(rr_committed_at_ms); mrr_committed_by := r.(rr_committed_by);
     mrr_revision_delta_index := r.(rr_delta_index); mrr_content_ref := r.(rr_content_ref) |}.

Definition model_of_layout (r : ContentLayoutRecord) : ModelContentLayoutRecord :=
  {| mlr_content_id := r.(lr_content_id); mlr_committed_seq := r.(lr_committed_seq);
     mlr_size_bytes := r.(lr_size_bytes); mlr_layout := r.(lr_layout) |}.

Definition model_of_deleted_binding (b : DeletedBinding) : ModelDeletedBinding :=
  {| mdl_parent_inode_id := b.(dlb_parent_inode_id); mdl_name_key := b.(dlb_name_key);
     mdl_display_name := b.(dlb_display_name) |}.

Definition model_of_tombstone (r : SubtreeTombstoneRecord) : ModelTombstoneRecord :=
  {| mtb_root_inode_id := r.(tb_root_inode_id); mtb_committed_seq := r.(tb_committed_seq);
     mtb_delta_index := r.(tb_delta_index); mtb_commit_id := r.(tb_commit_id);
     mtb_committed_at_ms := r.(tb_committed_at_ms); mtb_committed_by := r.(tb_committed_by);
     mtb_action := match r.(tb_action) with
                   | TombSet root_kind binding => MSet root_kind (model_of_deleted_binding binding)
                   | TombRevoke target => MRevoke target
                   end |}.

Definition model_of_attributes (r : AttributesRevisionRecord) : ModelAttributeRevisionRecord :=
  {| mat_inode_id := r.(at_inode_id); mat_revision_no := r.(at_attributes_revision_no);
     mat_committed_seq := r.(at_committed_seq); mat_commit_id := r.(at_commit_id);
     mat_delta_index := r.(at_delta_index); mat_committed_by := r.(at_committed_by);
     mat_committed_at_ms := r.(at_committed_at_ms);
     mat_entries := (λ '(key, value), mkAttributeEntry key value) <$> r.(at_attributes) |}.

Definition model_of_access (r : AccessRevisionRecord) : ModelAccessRevisionRecord :=
  {| mac_inode_id := r.(ac_inode_id); mac_revision_no := r.(ac_access_revision_no);
     mac_committed_seq := r.(ac_committed_seq); mac_commit_id := r.(ac_commit_id);
     mac_delta_index := r.(ac_delta_index); mac_committed_by := r.(ac_committed_by);
     mac_committed_at_ms := r.(ac_committed_at_ms); mac_boundary := r.(ac_boundary);
     mac_grants := (λ '(principal_id, rights),
       mkGrantEntry principal_id (right_as_str <$> rights_iter rights)) <$> r.(ac_grants) |}.

Definition model_of (st : MetadataState) : ModelState :=
  {| mo_inodes := model_of_inode <$> st.(ms_inodes);
     mo_direntry_binds :=
       model_of_binding <$> filter (λ r, is_binding_event r = true) st.(ms_direntry_binds);
     mo_revisions := model_of_revision <$> st.(ms_revisions);
     mo_content_layouts := model_of_layout <$> st.(ms_content_layouts);
     mo_subtree_tombstones := model_of_tombstone <$> st.(ms_subtree_tombstones);
     mo_attribute_revisions := model_of_attributes <$> st.(ms_attributes_revisions);
     mo_access_revisions := model_of_access <$> st.(ms_access_revisions) |}.

(** ** Applying commits *)

(** A revision's delta names an edge that an earlier delta bound. *)
Definition names_earlier_edge (seq : ChangeSeq) (delta : WalDelta) : Prop :=
  match delta with
  | AppendFileRevision delta_index _ _ _ _ bind_position _ _ _ _ _ _ =>
      bind_position ≠ mkDeltaPosition seq delta_index
  | _ => True
  end.

Section apply.
Context `{HeapBytes}.

Lemma model_of_push_binding st r :
  model_of (push_direntry_binding_record st r)
  = if is_binding_event r then model_push_binding (model_of st) (model_of_binding r) else model_of st.
Proof.
  unfold model_of, push_direntry_binding_record, model_push_binding. cbn.
  rewrite filter_app. destruct (is_binding_event r) eqn:E.
  - rewrite filter_cons_True by done. by rewrite fmap_app.
  - rewrite filter_cons_False by congruence. by rewrite app_nil_r.
Qed.

(** Applying a delta commutes with the abstraction. *)
Lemma model_of_apply_delta st seq id actor ms delta :
  names_earlier_edge seq delta →
  model_of (apply_committed_wal_delta_mut st seq id actor ms delta)
  = model_apply_delta (model_of st) seq id actor ms delta.
Proof.
  intros Hd. destruct delta; cbn [apply_committed_wal_delta_mut model_apply_delta names_earlier_edge] in *.
  - unfold model_of, model_push_inode. cbn. by rewrite fmap_app.
  - rewrite model_of_push_binding. unfold is_binding_event, is_bound, binding_position. cbn.
    by rewrite bool_decide_true.
  - rewrite model_of_push_binding. done.
  - cbv zeta. rewrite model_of_push_binding.
    assert (∀ r, is_bound r = true → binding_position r ≠ db_bind_position r → is_binding_event r = false) as Hne.
    { intros r Hb Hp. unfold is_binding_event. rewrite Hb. by rewrite bool_decide_false. }
    rewrite Hne by (done || (unfold binding_position; cbn; congruence)).
    destruct layout; unfold model_of, model_push_revision, model_push_layout; cbn; by rewrite !fmap_app.
  - unfold model_of, model_push_tombstone. cbn. by rewrite fmap_app.
  - unfold model_of, model_push_tombstone. cbn. by rewrite fmap_app.
  - unfold model_of, model_push_attributes. cbn. by rewrite fmap_app.
  - unfold model_of, model_push_access. cbn. by rewrite fmap_app.
Qed.

Lemma model_of_apply_deltas st seq id actor ms deltas :
  Forall (names_earlier_edge seq) deltas →
  model_of (apply_committed_wal_deltas st seq id actor ms deltas)
  = foldl (λ state delta, model_apply_delta state seq id actor ms delta) (model_of st) deltas.
Proof.
  unfold apply_committed_wal_deltas. intros Hall. revert st.
  induction Hall as [|d deltas Hd Hall IH]; intros st; [done|]. cbn [foldl].
  by rewrite IH, model_of_apply_delta.
Qed.
End apply.

(** ** Reads *)

(** Every summary row repeats the edge that is current in its slot: the
    newest binding event before it binds the same child under the same name,
    at the position the row names. *)
Definition summarizes (st : MetadataState) (x e : DirentryBindingRecord) : Prop :=
  e ∈ st.(ms_direntry_binds) ∧ is_binding_event e = true ∧ is_bound e = true ∧ is_bound x = true ∧
  binding_slot e = binding_slot x ∧ e.(db_child_inode_id) = x.(db_child_inode_id) ∧
  binding_display_name e = binding_display_name x ∧
  binding_position e = x.(db_bind_position) ∧ e.(db_committed_seq) ≤ x.(db_committed_seq) ∧
  ∀ y, y ∈ st.(ms_direntry_binds) → is_binding_event y = true → binding_slot y = binding_slot x →
    kle (binding_position y) (binding_position e) ∨ cmp (binding_position x) (binding_position y) = Lt.

Definition summaries_ok (st : MetadataState) : Prop :=
  ∀ x, x ∈ st.(ms_direntry_binds) → is_binding_event x = false → ∃ e, summarizes st x e.

(** The core's binding [c] and the model's binding [m] say the same of a
    slot. *)
Definition same_edge (c : DirentryBindingRecord) (m : ModelBindingRecord) : Prop :=
  m.(mdb_parent_inode_id) = c.(db_parent_inode_id) ∧ m.(mdb_name_key) = c.(db_name_key) ∧
  m.(mdb_child_inode_id) = c.(db_child_inode_id) ∧
  m.(mdb_state) = match binding_display_name c with Some n => MBound n | None => MUnbound end ∧
  (is_bound c = true → model_position m = c.(db_bind_position)).

Lemma model_of_binding_same_edge e : is_binding_event e = true → same_edge e (model_of_binding e).
Proof.
  intros He. unfold same_edge, model_of_binding, binding_display_name. cbn.
  split_and!; try done; [by destruct (db_state e)|].
  intros Hb. apply is_binding_event_true in He as [He|He]; [congruence|]. done.
Qed.

Lemma model_of_binding_bound e : model_is_bound (model_of_binding e) = is_bound e.
Proof. unfold model_is_bound, is_bound. cbn. by destruct (db_state e). Qed.

Section reads.
Context `{HeapBytes} (st : MetadataState) (seq : ChangeSeq).
Context (Hrebuilt : rebuilt st) (Hrows : rows_ok st).

Abbreviation events := (filter (λ r, is_binding_event r = true) st.(ms_direntry_binds)).

(** *** Parents *)
Lemma model_parent_binding_refines c :
  model_parent_binding (model_of st) c seq
  = model_of_binding <$> option_filter is_bound (latest_parent_binding_for_child_at_seq st c seq).
Proof.
  unfold model_parent_binding, latest_parent_binding_for_child_at_seq. cbn [model_of mo_direntry_binds].
  rewrite filter_fmap, max_by_key_fmap, list_filter_filter.
  rewrite (filter_ext_in _ (λ r, db_child_inode_id r = c ∧ is_binding_event r = true ∧ db_committed_seq r ≤ seq))
    by (intros; cbn; tauto).
  change (λ a, model_position (model_of_binding a)) with binding_position.
  destruct (max_by_key _ _) as [b|]; [|done]. cbn. rewrite model_of_binding_bound. by destruct (is_bound b).
Qed.

Lemma model_up_refines c : model_up (model_of st) seq c = up (reads_at_seq st seq) c.
Proof.
  unfold model_up, up, parent_binding. rewrite model_parent_binding_refines.
  cbn [reads_current_parent_binding_for_child MetadataStateReads_reads].
  rewrite (sr_current_parent st Hrebuilt Hrows). cbn [ok_value].
  by destruct (option_filter is_bound _).
Qed.

(** *** Tombstones *)
Lemma is_hidden_root_refines i :
  is_hidden_root (model_of st) i seq = true ↔ is_Some (hiding (reads_at_seq st seq) i).
Proof.
  unfold hiding. cbn [find_hiding_subtree_tombstone MetadataStateReads_reads ok_value].
  rewrite (sr_find_hiding_scan st Hrebuilt Hrows). unfold is_hidden_root. cbn [model_of mo_subtree_tombstones].
  rewrite filter_fmap, max_by_key_fmap.
  unfold hiding_subtree_tombstone_scan, hiding_tombstone_from_records, newest_tombstone_from_records.
  rewrite list_filter_filter.
  rewrite (filter_ext_in (λ a, mtb_root_inode_id (model_of_tombstone a) = i ∧
      mtb_committed_seq (model_of_tombstone a) ≤ seq)
    (λ a, tb_committed_seq a ≤ seq ∧ tb_root_inode_id a = i)) by (intros; cbn; tauto).
  assert (∀ l : list SubtreeTombstoneRecord,
    max_by_key (λ a, (mtb_committed_seq (model_of_tombstone a), mtb_delta_index (model_of_tombstone a))) l
    = max_by_key tombstone_position l) as -> by done.
  destruct (max_by_key _ _) as [t|]; cbn; [|by split; [|intros []]].
  destruct (tb_action t); cbn; [by split|by split; [|intros []]].
Qed.

(** *** Slots *)
Lemma model_slot_value_events p k :
  model_slot_value (model_of st) p k seq
  = model_of_binding <$> max_by_key binding_position
      (filter (λ r, db_parent_inode_id r = p ∧ db_name_key r = k ∧ db_committed_seq r ≤ seq) events).
Proof.
  unfold model_slot_value. cbn [model_of mo_direntry_binds]. by rewrite filter_fmap, max_by_key_fmap.
Qed.

Context (Hsum : summaries_ok st).

(** The core's newest row of a slot and the model's current value say the
    same, though the core's may be a summary row. *)
Lemma slot_refines p k :
  match bound_child_at_seq_scan st p k seq, model_slot_value (model_of st) p k seq with
  | Some c, Some m => same_edge c m
  | None, None => True
  | _, _ => False
  end.
Proof.
  rewrite model_slot_value_events.
  destruct (bound_child_at_seq_scan st p k seq) as [x|] eqn:Ex.
  - unfold bound_child_at_seq_scan in Ex. apply max_by_key_is_max in Ex as [Hx Hmax].
    apply list_elem_of_filter in Hx as [(Hp & Hk & Hs) Hx].
    destruct (is_binding_event x) eqn:Ee.
    + assert (max_by_key binding_position (filter (λ r, db_parent_inode_id r = p ∧ db_name_key r = k ∧
        db_committed_seq r ≤ seq) events) = Some x) as ->; [|by apply model_of_binding_same_edge].
      apply max_by_key_intro; [apply key_inj_filter, (binding_key_inj st Hrows)|]. split.
      * rewrite !list_elem_of_filter. tauto.
      * intros y Hy. apply Hmax. rewrite !list_elem_of_filter in Hy. apply list_elem_of_filter. tauto.
    + destruct (Hsum x Hx Ee) as (e & He & Hev & Hbe & Hbx & Hslot & Hchild & Hname & Hpos & Hseq & Hbetween).
      unfold binding_slot in Hslot. injection Hslot as Hsp Hsk.
      assert (max_by_key binding_position (filter (λ r, db_parent_inode_id r = p ∧ db_name_key r = k ∧
        db_committed_seq r ≤ seq) events) = Some e) as ->.
      { apply max_by_key_intro; [apply key_inj_filter, (binding_key_inj st Hrows)|]. split.
        - rewrite !list_elem_of_filter. split_and!; try congruence; try done. lia.
        - intros y Hy. rewrite !list_elem_of_filter in Hy. destruct Hy as [(Hyp & Hyk & Hys) [Hye Hyl]].
          destruct (Hbetween y Hyl Hye) as [?|Hlt]; [unfold binding_slot; congruence|done|].
          assert (kle (binding_position y) (binding_position x)) as Hle.
          { apply Hmax, list_elem_of_filter. by split_and!. }
          unfold kle in Hle. apply cmp_gt_lt in Hlt. congruence. }
      destruct (model_of_binding_same_edge e Hev) as (E1 & E2 & E3 & E4 & E5).
      change (same_edge x (model_of_binding e)). unfold same_edge. rewrite E1, E2, E3, E4, Hname, Hchild. split_and!; try congruence.
      intros _. rewrite E5 by done. apply is_binding_event_true in Hev as [?|Hev]; congruence.
  - unfold bound_child_at_seq_scan in Ex. apply max_by_key_None in Ex.
    destruct (max_by_key _ _) as [y|] eqn:Ey; [|done].
    apply max_by_key_is_max in Ey as [Hy _]. rewrite !list_elem_of_filter in Hy.
    assert (y ∈ filter (λ d, db_parent_inode_id d = p ∧ db_name_key d = k ∧ db_committed_seq d ≤ seq)
      (ms_direntry_binds st)) as Hin by (rewrite list_elem_of_filter; tauto).
    rewrite Ex in Hin. set_solver.
Qed.

(** *** Ancestry *)
#[local] Instance reads_laws : VisibilityLaws (reads_at_seq st seq) :=
  state_reads_lawful st Hrebuilt Hrows seq.
Let Htotal : total_reads (reads_at_seq st seq) := state_reads_total _.

Lemma chain_up_refines a l :
  chain (model_up (model_of st) seq) a l ↔ chain (up (reads_at_seq st seq)) a l.
Proof.
  split; apply chain_ext; intros b; by rewrite model_up_refines.
Qed.

Lemma chain_grounded a l : chain (up (reads_at_seq st seq)) a l → grounded (reads_at_seq st seq) a.
Proof.
  induction 1 as [a Ha|a p l Ha Hl (t & Ht & Hu)].
  - exists a. split; [apply rtc_refl|done].
  - exists t. split; [by eapply rtc_l|done].
Qed.

Lemma model_ancestry_above a l :
  model_ancestry (model_of st) a seq = Ok l →
  grounded (reads_at_seq st seq) a ∧ ∀ b, b ∈ l ↔ above (reads_at_seq st seq) a b.
Proof.
  intros Hl%model_ancestry_spec%chain_up_refines. split; [by eapply chain_grounded|].
  intros b. by apply chain_rtc.
Qed.

Lemma cycle_refines i p b :
  would_create_cycle (model_of st) i p seq = Ok b →
  would_create_directory_cycle (reads_current_parent_binding_for_child (reads_at_seq st seq))
    (walk_fuel (reads_at_seq st seq)) i p = Ok b.
Proof.
  unfold would_create_cycle. destruct (model_ancestry _ p seq) as [l| | |] eqn:El; [|done..].
  cbn [mbind res_bind]. intros [= <-]. apply model_ancestry_above in El as [Hg Hl].
  apply (cycle_check_spec _ Htotal). case_bool_decide as Hi; rewrite Hl in Hi; auto.
Qed.

Lemma existsb_hidden l :
  existsb (λ member, is_hidden_root (model_of st) member seq) l = true ↔
  ∃ b, b ∈ l ∧ is_Some (hiding (reads_at_seq st seq) b).
Proof.
  rewrite existsb_exists. setoid_rewrite <-list_elem_of_In. by setoid_rewrite is_hidden_root_refines.
Qed.

Lemma covering_refines a l :
  model_ancestry (model_of st) a seq = Ok l →
  (reads_covering_subtree_tombstone (reads_at_seq st seq) a = Ok None ↔
    existsb (λ member, is_hidden_root (model_of st) member seq) l = false) ∧
  ((∃ t, reads_covering_subtree_tombstone (reads_at_seq st seq) a = Ok (Some t)) ↔
    existsb (λ member, is_hidden_root (model_of st) member seq) l = true).
Proof.
  intros [Hg Hl]%model_ancestry_above. split.
  - rewrite (covering_None _ Htotal), <-not_true_iff_false, existsb_hidden. split.
    + intros [_ Hn] (b & Hb & Hs). rewrite (Hn b) in Hs by (by apply Hl). by destruct Hs.
    + intros Hn. split; [done|]. intros b Hb. apply eq_None_not_Some. intros Hs. apply Hn.
      exists b. split; [by apply Hl|done].
  - rewrite (covering_Some _ Htotal), existsb_hidden. split; intros (b & Hb & Hs); exists b;
      (split; [by apply Hl|done]).
Qed.

Lemma inode_refines i :
  find_first (λ inode, inode.(mir_inode_id) = i ∧ inode.(mir_committed_seq) ≤ seq)
    (mo_inodes (model_of st)) = model_of_inode <$> inode_row (reads_at_seq st seq) i.
Proof.
  unfold inode_row. cbn [find_inode MetadataStateReads_reads ok_value].
  rewrite (sr_find_inode_scan st Hrebuilt Hrows). cbn [model_of mo_inodes].
  by rewrite find_first_fmap.
Qed.

Lemma visible_inode_refines i o :
  model_visible_inode (model_of st) i seq = Ok o →
  ∃ o', reads_visible_inode (reads_at_seq st seq) i = Ok o' ∧ model_of_inode <$> o' = o.
Proof.
  unfold model_visible_inode. rewrite inode_refines.
  rewrite (law_visible_inode (r := reads_at_seq st seq)). unfold visible_inode.
  rewrite (total_inode _ Htotal). fold (inode_row (reads_at_seq st seq) i). cbn [mbind res_bind].
  destruct (inode_row (reads_at_seq st seq) i) as [row|]; cbn [fmap option_fmap option_map].
  2: { intros [= <-]. by exists None. }
  destruct (model_ancestry _ i seq) as [l| | |] eqn:El; [|done..]. cbn [mbind res_bind].
  destruct (covering_refines i l El) as [HN HS].
  destruct (existsb _ l) eqn:Eh; intros [= <-].
  - destruct (proj2 HS eq_refl) as [t ->]. by exists None.
  - rewrite (proj2 HN eq_refl). by exists (Some row).
Qed.

(** *** Paths *)
Context (Hchildren : children_ok st) `{NamePolicy}.
Let r := reads_at_seq st seq.

(** The same answer to one path. *)
Definition resolves_alike (m : ModelResolvedPath) (c : res VisiblePathError ResolvedVisiblePath) : Prop :=
  match m with
  | MFound absolute_path inode binding =>
      ∃ p, c = Ok p ∧ p.(rp_absolute_path).(path_normalized) = absolute_path ∧
        p.(rp_inode_id) = inode.(mir_inode_id) ∧ p.(rp_inode_kind) = inode.(mir_inode_kind) ∧
        p.(rp_created_by) = inode.(mir_committed_by) ∧
        p.(rp_created_at_ms) = inode.(mir_committed_at_ms) ∧
        p.(rp_parent_inode_id) = mdb_parent_inode_id <$> binding ∧
        p.(rp_binding_version) = model_position <$> binding ∧
        match binding with
        | Some b => b.(mdb_state) = MBound p.(rp_display_name)
        | None => p.(rp_display_name) = EmptyString
        end
  | MNotFound absolute_path => c = Err (PathNotFound absolute_path)
  | MNotADirectory absolute_path inode =>
      c = Err (PathComponentNotDirectory absolute_path inode.(mir_inode_id) inode.(mir_inode_kind))
  end.

(** The loops' states correspond: the binding followed last and the inode it
    leads to. *)
Definition at_same_place (last : option DirentryBindingRecord) (inode : ModelInodeRecord)
    (binding : option ModelBindingRecord) : Prop :=
  match last, binding with
  | None, None => inode.(mir_inode_id) = ROOT_INODE_ID ∧ inode.(mir_inode_kind) = Directory
  | Some c, Some m =>
      same_edge c m ∧ is_bound c = true ∧ inode.(mir_inode_id) = c.(db_child_inode_id) ∧
      inode.(mir_inode_kind) = c.(db_child_kind) ∧
      inode.(mir_committed_by) = c.(db_child_created_by) ∧
      inode.(mir_committed_at_ms) = c.(db_child_created_at_ms)
  | _, _ => False
  end.

Lemma model_normalized names : model_absolute_path names = normalized_path names.
Proof. by destruct names. Qed.

(** One component: the entry the model finds visible is the binding the core
    follows. *)
Lemma entry_refines p k o :
  visible_entry (model_of st) p k seq = Ok o →
  match o with
  | Some entry => ∃ c i,
      reads_active_child_binding r p k = Ok (Some c) ∧
      reads_covering_subtree_tombstone r c.(db_child_inode_id) = Ok None ∧
      binding_display_name c = Some entry.(le_display_name) ∧
      at_same_place (Some c) entry.(le_child) (Some entry.(le_binding)) ∧
      entry.(le_child) = model_of_inode i
  | None =>
      reads_active_child_binding r p k = Ok None ∨
      ∃ c t, reads_active_child_binding r p k = Ok (Some c) ∧ is_bound c = true ∧
        reads_covering_subtree_tombstone r c.(db_child_inode_id) = Ok (Some t)
  end.
Proof.
  unfold visible_entry. pose proof (slot_refines p k) as Hslot.
  cbn [r reads_active_child_binding MetadataStateReads_reads]. unfold r.
  rewrite (sr_active_child st Hrebuilt Hrows).
  destruct (bound_child_at_seq_scan st p k seq) as [c|] eqn:Ec;
    destruct (model_slot_value (model_of st) p k seq) as [m|]; try done.
  2: { intros [= <-]. by left. }
  apply slot_scan_In in Ec as (Hin & Hp & Hk & Hs).
  destruct Hslot as (E1 & E2 & E3 & E4 & E5). rewrite E4.
  destruct (binding_display_name c) as [name|] eqn:En.
  2: { assert (is_bound c = false) as Hb.
       { unfold is_bound, binding_display_name in *. by destruct (db_state c). }
       intros [= <-]. left. cbn. by rewrite Hb. }
  assert (is_bound c = true) as Hb by (apply is_bound_display_name; eauto). cbn [option_filter].
  rewrite Hb. destruct (bound_child_inode st Hrebuilt Hrows seq c Hchildren Hin Hb Hs) as (i & Hi & Hid & Hik & Hiby & Hiat).
  fold r in Hi.
  unfold model_visible_inode. rewrite E3, inode_refines. change (reads_at_seq st seq) with r.
  rewrite Hi. cbn [fmap option_fmap option_map].
  destruct (model_ancestry _ _ seq) as [l| | |] eqn:El; [|done..]. cbn [mbind res_bind].
  destruct (covering_refines _ l El) as [HN HS].
  destruct (existsb _ l); cbn [mbind res_bind]; intros [= <-].
  - right. destruct (proj2 HS eq_refl) as [t Ht]. by exists c, t.
  - exists c, i. cbn [le_display_name le_child le_binding]. split_and!; try done.
    + by apply HN.
    + cbn. unfold same_edge. rewrite E4, En. split_and!; auto.
Qed.

Lemma resolve_components_refines comps last inode binding names m :
  at_same_place last inode binding →
  model_resolve_components (model_of st) seq inode binding names comps = Ok m →
  match m with
  | MFound absolute_path inode' binding' => ∃ last' names',
      resolve_components (reads_active_child_binding r) (reads_covering_subtree_tombstone r)
        last (from_components names) comps = Ok (last', from_components names') ∧
      absolute_path = normalized_path names' ∧ at_same_place last' inode' binding' ∧
      (comps ≠ [] → is_Some last')
  | MNotFound absolute_path =>
      resolve_components (reads_active_child_binding r) (reads_covering_subtree_tombstone r)
        last (from_components names) comps = Err (PathNotFound absolute_path)
  | MNotADirectory absolute_path inode' =>
      resolve_components (reads_active_child_binding r) (reads_covering_subtree_tombstone r)
        last (from_components names) comps
      = Err (PathComponentNotDirectory absolute_path inode'.(mir_inode_id) inode'.(mir_inode_kind))
  end.
Proof.
  revert last inode binding names. induction comps as [|comp comps IH]; intros last inode binding names Hpl.
  { cbn [model_resolve_components]. intros [= <-]. exists last, names.
    split_and!; [done|apply model_normalized|done|done]. }
  cbn [model_resolve_components resolve_components].
  assert (match last with
    | None => (ROOT_INODE_ID, Directory)
    | Some b => (db_child_inode_id b, db_child_kind b)
    end = (mir_inode_id inode, mir_inode_kind inode)) as ->.
  { destruct last as [c|], binding as [b|]; try done; cbn in Hpl.
    - by destruct Hpl as (_ & _ & -> & -> & _).
    - by destruct Hpl as [-> ->]. }
  case_decide as Hdir.
  { intros [= <-]. cbn. by rewrite model_normalized. }
  destruct (visible_entry _ _ _ _) as [o| | |] eqn:Ee; [|done..]. cbn [mbind res_bind].
  apply entry_refines in Ee. destruct o as [entry|].
  - destruct Ee as (c & i & Hact & Hcov & Hname & Hplace & _). intros Hm.
    rewrite Hact. cbn [mbind res_bind ok_or]. unfold visible_page_child.
    assert (is_bound c = true) as -> by (cbn in Hplace; tauto). cbn [negb]. rewrite Hcov.
    cbn [mbind res_bind ok_or]. rewrite Hname. cbn [expect mbind res_bind].
    specialize (IH _ _ _ _ Hplace Hm). unfold join. cbn [from_components path_components].
    destruct m; [|done|done]. destruct IH as (last' & names' & IH1 & IH2 & IH3 & IH4).
    exists last', names'. split_and!; [done..|]. intros _.
    destruct comps; [|by apply IH4]. cbn in IH1. injection IH1 as <- _. done.
  - intros [= <-]. rewrite model_normalized. destruct Ee as [->|(c & t & -> & Hb & Hcov)].
    + done.
    + cbn [mbind res_bind ok_or]. unfold visible_page_child. rewrite Hb. cbn [negb].
      rewrite Hcov. done.
Qed.

Lemma resolve_refines path m root_row :
  model_visible_inode (model_of st) ROOT_INODE_ID seq = Ok (Some root_row) →
  root_row.(mir_inode_kind) = Directory →
  model_resolve_path (model_of st) path seq = Ok m →
  resolves_alike m (state_resolve_visible_path st path seq).
Proof.
  intros Hroot Hdir. unfold model_resolve_path. rewrite Hroot. cbn [mbind res_bind]. intros Hm.
  assert (root_row.(mir_inode_id) = ROOT_INODE_ID) as Hid.
  { unfold model_visible_inode in Hroot. destruct (find_first _ _) as [row|] eqn:Ef; [|done].
    apply find_first_Some in Ef as (_ & Hrid & _).
    destruct (model_ancestry _ _ _); try done. cbn in Hroot. destruct (existsb _ _); [done|].
    by injection Hroot as <-. }
  unfold state_resolve_visible_path. cbv zeta. fold r. unfold resolve_visible_path, is_root.
  destruct (path_components path) as [|comp comps] eqn:Ec.
  - cbn in Hm. injection Hm as <-.
    destruct (visible_inode_refines _ _ Hroot) as (o' & Ho & Eo). fold r in Ho. rewrite Ho.
    cbn [mbind res_bind]. destruct o' as [row|]; [|done]. injection Eo as <-. cbn.
    eexists. split; [done|]. by cbn.
  - assert (at_same_place None root_row None) as Hpl by by split.
    pose proof (resolve_components_refines _ _ _ _ [] _ Hpl Hm) as Hr.
    change (from_components []) with root in Hr. destruct m as [ap inode' binding'|ap|ap inode'].
    + destruct Hr as (last' & names' & -> & -> & Hpl' & Hsome). cbn [mbind res_bind].
      destruct (Hsome ltac:(done)) as [c ->]. destruct binding' as [b|]; [|done].
      cbn in Hpl'. destruct Hpl' as ((E1 & E2 & E3 & E4 & E5) & Hb & H1 & H2 & H3 & H4).
      apply is_bound_display_name in Hb as Hb'. destruct Hb' as [name Hname].
      cbn [expect mbind res_bind]. rewrite Hname in E4 |- *. cbn [expect mbind res_bind].
      eexists. split; [done|]. cbn. split_and!; try congruence. by rewrite E5.
    + by rewrite Hr.
    + by rewrite Hr.
Qed.
End reads.

(** ** The refinement theorems *)

(** C9 Applying a commit refines the model.  The reference model's
    application of a commit's deltas, which ends by verifying every binding,
    succeeds on the core's rows exactly when the verification of the core's
    new rows does, and then its state is the core's new state as the model
    sees it; an error is the verification's error. *)
Theorem apply_refines_model `{HeapBytes} (st : MetadataState) (seq : ChangeSeq) (id : CommitId)
  (actor : ActorId) (ms : N) (deltas : list WalDelta)
  (Hedges : Forall (names_earlier_edge seq) deltas) :
  let st' := apply_committed_wal_deltas st seq id actor ms deltas in
  model_apply_committed_wal_deltas (model_of st) seq id actor ms deltas
  = (_ ← model_verify_bindings (model_of st') seq; Ok (model_of st')).
Proof.
  cbv zeta. unfold model_apply_committed_wal_deltas. by rewrite model_of_apply_deltas.
Qed.

Lemma apply_refines_model_witness :
  model_apply_committed_wal_deltas (model_of example_genesis) 1 "commit" "user" 10 example_deltas
  = Ok (model_of example_state).
Proof.
  rewrite (apply_refines_model (H := no_heap) example_genesis 1 "commit" "user" 10 example_deltas).
  - vm_compute. reflexivity.
  - repeat constructor. cbn. congruence.
Defined.

Lemma example_summaries_ok : summaries_ok example_state.
Proof.
  assert (Forall (λ x, is_binding_event x = true ∨ Exists (λ e,
    is_binding_event e = true ∧ is_bound e = true ∧ is_bound x = true ∧
    binding_slot e = binding_slot x ∧ e.(db_child_inode_id) = x.(db_child_inode_id) ∧
    binding_display_name e = binding_display_name x ∧
    binding_position e = x.(db_bind_position) ∧ e.(db_committed_seq) ≤ x.(db_committed_seq) ∧
    Forall (λ y, is_binding_event y = false ∨ kle (binding_position y) (binding_position e))
      (ms_direntry_binds example_state)) (ms_direntry_binds example_state))
    (ms_direntry_binds example_state)) as Hall
    by (apply (bool_decide_unpack _); vm_compute; exact I).
  rewrite Forall_forall in Hall. intros x Hx Hn.
  destruct (Hall x Hx) as [?|(e & He & Hs)%Exists_exists]; [congruence|].
  destruct Hs as (H1 & H2 & H3 & H4 & H5 & H6 & H7 & H8 & H9). exists e. split_and!; try done.
  rewrite Forall_forall in H9. intros y Hy Hye _. left. destruct (H9 y Hy); [congruence|done].
Qed.

(** C8 Visibility and cycle checks refine the model.  Whenever the reference
    model decides a move's cycle check or an inode's visibility, the core's
    walk over its rows gives the same answer: the same boolean, and the same
    inode or absence. *)
Theorem visibility_refines_model `{HeapBytes} (st : MetadataState) (seq : ChangeSeq)
  (inode_id : InodeId)
  (Hrebuilt : rebuilt st) (Hrows : rows_ok st) :
  (∀ new_parent b, would_create_cycle (model_of st) inode_id new_parent seq = Ok b →
    state_would_create_directory_cycle st inode_id new_parent seq = Ok b) ∧
  (∀ o, model_visible_inode (model_of st) inode_id seq = Ok o →
    ∃ o', state_visible_inode st inode_id seq = Ok o' ∧ model_of_inode <$> o' = o).
Proof.
  split.
  - intros p b Hb. unfold state_would_create_directory_cycle.
    by rewrite (cycle_refines st seq Hrebuilt Hrows _ _ _ Hb).
  - intros o (o' & Ho & Eo)%(visible_inode_refines st seq Hrebuilt Hrows). exists o'. split; [|done].
    pose proof (state_reads_lawful st Hrebuilt Hrows seq). rewrite law_visible_inode in Ho.
    unfold state_visible_inode. cbv zeta. by rewrite Ho.
Qed.

Lemma visibility_refines_model_witness :
  state_would_create_directory_cycle example_state 5 6 1 = Ok true ∧
  ∃ o', state_visible_inode example_state 6 1 = Ok o' ∧ model_of_inode <$> o'
    = Some (mkModelInodeRecord 6 File 1 "commit" "user" 10).
Proof.
  split.
  - apply (visibility_refines_model (H := no_heap) example_state 1 5 example_rebuilt example_rows_ok).
    vm_compute. reflexivity.
  - apply (visibility_refines_model (H := no_heap) example_state 1 6 example_rebuilt example_rows_ok).
    vm_compute. reflexivity.
Defined.

(** C7 Path resolution refines the model.  Whenever the reference model
    resolves a path, to an entry, a missing name or a component that is not a
    directory, the core's component by component walk answers alike: the same
    canonical path, inode, attribution, parent, display name and binding
    version, or the same error at the same path. *)
Theorem resolve_refines_model `{HeapBytes} `{NamePolicy} (st : MetadataState) (seq : ChangeSeq)
  (path : AbsolutePath) (m : ModelResolvedPath) (root_row : ModelInodeRecord)
  (Hrebuilt : rebuilt st) (Hrows : rows_ok st) (Hsummaries : summaries_ok st)
  (Hchildren : children_ok st)
  (Hroot : model_visible_inode (model_of st) ROOT_INODE_ID seq = Ok (Some root_row))
  (Hdirectory : root_row.(mir_inode_kind) = Directory)
  (Hm : model_resolve_path (model_of st) path seq = Ok m) :
  resolves_alike m (state_resolve_visible_path st path seq).
Proof. by eapply resolve_refines. Qed.

(** A name policy for the examples: names are lower-case ASCII already, but
    for the two that the example's display names use. *)
Definition example_policy : NamePolicy := {|
  nfc name := name;
  fold_case name := if String.eqb name "A" then "a" else if String.eqb name "B" then "b" else name;
|}.

Lemma resolve_refines_model_witness :
  let path := from_components ["a"; "b"] in
  ∃ p, state_resolve_visible_path (H := example_policy) example_state path 1 = Ok p ∧
    p.(rp_absolute_path).(path_normalized) = "/A/B" ∧ p.(rp_inode_id) = 6 ∧
    p.(rp_binding_version) = Some (mkDeltaPosition 1 3).
Proof.
  cbv zeta.
  destruct (resolve_refines_model (H := no_heap) (H0 := example_policy) example_state 1
    (from_components ["a"; "b"])
    (MFound "/A/B" (mkModelInodeRecord 6 File 1 "commit" "user" 10)
       (Some (mkModelBindingRecord 5 "b" 6 1 3 (MBound "B"))))
    (mkModelInodeRecord 0 Directory 0 "genesis" loonfs_actor 0)
    example_rebuilt example_rows_ok example_summaries_ok example_children_ok)
    as (p & Hp & Ha & Hi & _ & _ & _ & _ & Hv & _); [vm_compute; reflexivity..|].
  exists p. auto.
Defined.
