(* ===== verification/Namespace.v ===== *)
(** * The namespace invariant

    What every commit must keep true of the rows of a namespace: each inode
    has at most one place and each place at most one inode, parents are
    directories whose ancestry ends at a root, a deleted inode has no place,
    and every row that copies another one agrees with it.  The lemmas show
    what appending one row does to the current bindings, tombstones and
    inodes, and that the rows which the commit validators produce keep the
    invariant. *)
From S2P Require Import Prelude Types Records MetadataState Visibility StateReads Model Refinement.
Local Open Scope N_scope.

(** ** Ancestry as a partial function *)
Section ancestry.
Context (f : InodeId → option InodeId).
Implicit Types a b c p : InodeId.

Definition reaches a b : Prop := rtc (λ x y, f x = Some y) a b.
Definition ends a : Prop := ∃ top, reaches a top ∧ f top = None.
End ancestry.

(** Giving [c], which has no parent, the parent [p] keeps every ancestry
    finite when [c] is not at or above [p]. *)
(** An ancestry that ends has no cycle. *)
Lemma ends_acyclic (f : InodeId → option InodeId) a : ends f a → ¬ tc (λ x y, f x = Some y) a a.
Proof.
  assert (∀ x y, tc (λ x y, f x = Some y) x y → ∃ z, f x = Some z ∧ reaches f z y) as Hinv.
  { intros x y Hxy. destruct Hxy as [x y Hxy|x z y Hxz Hzy].
    - exists y. split; [done|apply rtc_refl].
    - exists z. split; [done|by apply tc_rtc]. }
  intros (top & Ha & Ht). induction Ha as [a|a b top Hab Hb IH]; intros (y & Hy & Hya)%Hinv.
  - congruence.
  - assert (y = b) as -> by congruence.
    apply (IH Ht). eapply tc_rtc_l; [exact Hya|]. by apply tc_once.
Qed.

Lemma ends_bind (f g : InodeId → option InodeId) c p :
  f c = None → g c = Some p → (∀ x, x ≠ c → g x = f x) → ¬ reaches f p c →
  (∀ a, ends f a) → ∀ a, ends g a.
Proof.
  intros Hc Hgc Hg Hp Hall.
  assert (∀ a b, reaches f a b → reaches g a b) as Hmono.
  { induction 1 as [a|a b b' Hab Hb IH]; [apply rtc_refl|]. eapply rtc_l; [|done].
    rewrite Hg; [done|]. intros ->. congruence. }
  assert (∀ a top, reaches f a top → f top = None → top ≠ c → ends g a) as Hother.
  { intros a top Ha Htop Hne. exists top. split; [by apply Hmono|]. by rewrite Hg. }
  intros a. destruct (Hall a) as (top & Ha & Htop). destruct (decide (top = c)) as [->|Hne].
  - destruct (Hall p) as (top & Hpt & Htop').
    assert (top ≠ c) as Hne by (intros ->; done). exists top. split; [|by rewrite Hg].
    unfold reaches. etrans; [by apply Hmono|]. eapply rtc_l; [done|by apply Hmono].
  - by eapply Hother.
Qed.

(** Taking [c]'s parent away keeps every ancestry finite. *)
Lemma ends_unbind (f g : InodeId → option InodeId) c :
  g c = None → (∀ x, x ≠ c → g x = f x) → (∀ a, ends f a) → ∀ a, ends g a.
Proof.
  intros Hgc Hg Hall a. destruct (Hall a) as (top & Ha & Htop).
  induction Ha as [a|a b top Hab Hb IH].
  - exists a. split; [apply rtc_refl|]. destruct (decide (a = c)) as [->|Hne]; [done|by rewrite Hg].
  - destruct (decide (a = c)) as [->|Hne].
    + exists c. split; [apply rtc_refl|done].
    + destruct (IH Htop) as (t & Ht & Hn). exists t. split; [|done].
      eapply rtc_l; [|done]. by rewrite Hg.
Qed.

(** ** Current rows *)
Section current.
Context (st : MetadataState) (seq : ChangeSeq).

(** The child's current bound binding event; the slot's current bound row. *)
Definition place_of (c : InodeId) : option DirentryBindingRecord :=
  option_filter is_bound (latest_parent_binding_for_child_at_seq st c seq).
Definition entry_of (p : InodeId) (k : NameKey) : option DirentryBindingRecord :=
  option_filter is_bound (bound_child_at_seq_scan st p k seq).
Definition parent_of (c : InodeId) : option InodeId := db_parent_inode_id <$> place_of c.

Lemma place_of_Some c e :
  place_of c = Some e →
  e ∈ st.(ms_direntry_binds) ∧ e.(db_child_inode_id) = c ∧ is_binding_event e = true ∧
  is_bound e = true ∧ e.(db_committed_seq) ≤ seq.
Proof.
  unfold place_of. destruct (latest_parent_binding_for_child_at_seq st c seq) as [x|] eqn:E; [|done].
  cbn. destruct (is_bound x) eqn:Eb; [|done]. intros [= ->].
  apply max_by_key_is_max in E as [Hin _]. apply list_elem_of_filter in Hin. naive_solver.
Qed.

Lemma entry_of_Some p k x :
  entry_of p k = Some x →
  x ∈ st.(ms_direntry_binds) ∧ x.(db_parent_inode_id) = p ∧ x.(db_name_key) = k ∧
  is_bound x = true ∧ x.(db_committed_seq) ≤ seq.
Proof.
  unfold entry_of. destruct (bound_child_at_seq_scan st p k seq) as [y|] eqn:E; [|done].
  cbn. destruct (is_bound y) eqn:Eb; [|done]. intros [= ->].
  apply max_by_key_is_max in E as [Hin _]. apply list_elem_of_filter in Hin. naive_solver.
Qed.
End current.

(** ** Appending one row *)
Section push.
Context `{HeapBytes} (st : MetadataState) (seq : ChangeSeq).

Lemma max_by_key_filter_app {A K} `{TotalOrd K} (key : A → K) (P : A → Prop)
    `{!∀ x, Decision (P x)} l x :
  (∀ y, y ∈ l → kle (key y) (key x)) →
  max_by_key key (filter P (l ++ [x])) = if decide (P x) then Some x else max_by_key key (filter P l).
Proof.
  intros Hle. rewrite filter_app. case_decide as HP.
  - rewrite filter_cons_True by done. apply max_by_key_app_last.
    intros y [_ Hy]%list_elem_of_filter. by apply Hle.
  - rewrite filter_cons_False by done. by rewrite app_nil_r.
Qed.

Lemma slot_scan_push r p k :
  (∀ y, y ∈ st.(ms_direntry_binds) → kle (binding_position y) (binding_position r)) →
  r.(db_committed_seq) ≤ seq →
  bound_child_at_seq_scan (push_direntry_binding_record st r) p k seq
  = if decide (binding_slot r = (p, k)) then Some r else bound_child_at_seq_scan st p k seq.
Proof.
  intros Hle Hs. unfold bound_child_at_seq_scan. cbn [push_direntry_binding_record ms_direntry_binds].
  rewrite max_by_key_filter_app by done. unfold binding_slot.
  repeat case_decide; naive_solver.
Qed.

Lemma parent_scan_push r c :
  (∀ y, y ∈ st.(ms_direntry_binds) → kle (binding_position y) (binding_position r)) →
  r.(db_committed_seq) ≤ seq →
  latest_parent_binding_for_child_at_seq (push_direntry_binding_record st r) c seq
  = if decide (r.(db_child_inode_id) = c ∧ is_binding_event r = true) then Some r
    else latest_parent_binding_for_child_at_seq st c seq.
Proof.
  intros Hle Hs. unfold latest_parent_binding_for_child_at_seq.
  cbn [push_direntry_binding_record ms_direntry_binds].
  rewrite max_by_key_filter_app by done. repeat case_decide; naive_solver.
Qed.

Lemma tombstone_scan_push t i :
  (∀ y, y ∈ st.(ms_subtree_tombstones) → kle (tombstone_position y) (tombstone_position t)) →
  t.(tb_committed_seq) ≤ seq →
  hiding_subtree_tombstone_scan (push_subtree_tombstone_record st t) i seq
  = if decide (t.(tb_root_inode_id) = i)
    then (if hides_subtree t.(tb_action) then Some t else None)
    else hiding_subtree_tombstone_scan st i seq.
Proof.
  intros Hle Hs. unfold hiding_subtree_tombstone_scan, hiding_tombstone_from_records,
    newest_tombstone_from_records. cbn [push_subtree_tombstone_record ms_subtree_tombstones].
  rewrite !list_filter_filter, max_by_key_filter_app by done.
  repeat case_decide; try done; naive_solver.
Qed.

Lemma inode_scan_push r i :
  (∀ y, y ∈ st.(ms_inodes) → y.(ir_inode_id) ≠ r.(ir_inode_id)) → r.(ir_committed_seq) ≤ seq →
  inode_at_seq_scan (push_inode_record st r) i seq
  = if decide (r.(ir_inode_id) = i) then Some r else inode_at_seq_scan st i seq.
Proof.
  intros Hfresh Hs. unfold inode_at_seq_scan, find_first.
  cbn [push_inode_record ms_inodes]. rewrite filter_app. case_decide as Hi.
  - rewrite filter_cons_True by naive_solver.
    destruct (filter _ (ms_inodes st)) as [|y l] eqn:E; [done|].
    assert (y ∈ filter (λ inode, ir_inode_id inode = i ∧ ir_committed_seq inode ≤ seq) (ms_inodes st))
      as [[Hid _] Hy]%list_elem_of_filter by (rewrite E; left).
    destruct (Hfresh y Hy). congruence.
  - rewrite filter_cons_False by naive_solver. by rewrite app_nil_r.
Qed.
End push.

(** ** Places and entries *)

(** [entries] maps a slot to the child bound there, [places] a child to its
    slot, each with the position of the binding event. *)
Definition agree (entries : InodeId * NameKey → option (InodeId * DeltaPosition))
    (places : InodeId → option ((InodeId * NameKey) * DeltaPosition)) : Prop :=
  ∀ s c bp, entries s = Some (c, bp) ↔ places c = Some (s, bp).

Section agreement.
Context (E E' : InodeId * NameKey → option (InodeId * DeltaPosition)).
Context (P P' : InodeId → option ((InodeId * NameKey) * DeltaPosition)).
Context (s : InodeId * NameKey) (c : InodeId) (bp : DeltaPosition).
Context (Hagree : agree E P).
Context (HE : ∀ s', s' ≠ s → E' s' = E s') (HP : ∀ c', c' ≠ c → P' c' = P c').

Lemma agree_bind :
  E s = None → P c = None → E' s = Some (c, bp) → P' c = Some (s, bp) → agree E' P'.
Proof using Hagree HE HP.
  intros Hs Hc Hs' Hc' s' c' bp'.
  destruct (decide (s' = s)) as [->|Hn], (decide (c' = c)) as [->|Hn'].
  - rewrite Hs', Hc'. naive_solver.
  - rewrite Hs', (HP _ Hn'). split; [naive_solver|].
    intros Hp%Hagree. congruence.
  - rewrite (HE _ Hn), Hc'. split; [|naive_solver]. intros He%Hagree. congruence.
  - rewrite (HE _ Hn), (HP _ Hn'). apply Hagree.
Qed.

Lemma agree_unbind : E s = Some (c, bp) → E' s = None → P' c = None → agree E' P'.
Proof using Hagree HE HP.
  intros Hs Hs' Hc' s' c' bp'.
  assert (P c = Some (s, bp)) as Hc by by apply Hagree.
  destruct (decide (s' = s)) as [->|Hn], (decide (c' = c)) as [->|Hn'].
  - by rewrite Hs', Hc'.
  - rewrite Hs', (HP _ Hn'). split; [done|]. intros Hp%Hagree. congruence.
  - rewrite (HE _ Hn), Hc'. split; [|done]. intros He%Hagree. congruence.
  - rewrite (HE _ Hn), (HP _ Hn'). apply Hagree.
Qed.

Lemma agree_same :
  E s = Some (c, bp) → E' s = Some (c, bp) → P' c = P c → agree E' P'.
Proof using Hagree HE HP.
  intros Hs Hs' Hc' s' c' bp'.
  assert (E' s' = E s') as -> by (destruct (decide (s' = s)) as [->|Hn]; [congruence|by apply HE]).
  assert (P' c' = P c') as -> by (destruct (decide (c' = c)) as [->|Hn]; [congruence|by apply HP]).
  apply Hagree.
Qed.
End agreement.

Definition entries (st : MetadataState) (seq : ChangeSeq) (s : InodeId * NameKey)
    : option (InodeId * DeltaPosition) :=
  (λ x, (x.(db_child_inode_id), x.(db_bind_position))) <$> entry_of st seq s.1 s.2.
Definition places (st : MetadataState) (seq : ChangeSeq) (c : InodeId)
    : option ((InodeId * NameKey) * DeltaPosition) :=
  (λ e, (binding_slot e, e.(db_bind_position))) <$> place_of st seq c.

(** What holds of the rows at a sequence [floor] at or below the head: slots
    and children agree, and an edge whose newest event binds is its child's
    current one. *)
Record floor_ok (st : MetadataState) (floor : ChangeSeq) : Prop := {
  fl_agree : agree (entries st floor) (places st floor);
  fl_edges : ∀ e, e ∈ st.(ms_direntry_binds) → is_binding_event e = true → is_bound e = true →
    e.(db_committed_seq) ≤ floor →
    (∀ y, y ∈ st.(ms_direntry_binds) → is_binding_event y = true → binding_slot y = binding_slot e →
      y.(db_child_inode_id) = e.(db_child_inode_id) → y.(db_committed_seq) ≤ floor →
      kle (binding_position y) (binding_position e)) →
    place_of st floor e.(db_child_inode_id) = Some e;
}.

(** The rows at or below the floor decide. *)
Section floor_ext.
Context (st st' : MetadataState) (floor floor' : ChangeSeq).
Context (Hsame : filter (λ b, b.(db_committed_seq) ≤ floor) st.(ms_direntry_binds)
  = filter (λ b, b.(db_committed_seq) ≤ floor') st'.(ms_direntry_binds)).

Lemma floor_rows b : b ∈ st'.(ms_direntry_binds) → b.(db_committed_seq) ≤ floor' →
  b ∈ st.(ms_direntry_binds) ∧ b.(db_committed_seq) ≤ floor.
Proof using Hsame.
  intros Hb Hs. assert (b ∈ filter (λ b, b.(db_committed_seq) ≤ floor') st'.(ms_direntry_binds)) as Hin
    by by apply list_elem_of_filter.
  rewrite <-Hsame in Hin. apply list_elem_of_filter in Hin. naive_solver.
Qed.

Lemma floor_filter (P : DirentryBindingRecord → Prop) `{!∀ b, Decision (P b)} :
  filter (λ b, P b ∧ b.(db_committed_seq) ≤ floor) st.(ms_direntry_binds)
  = filter (λ b, P b ∧ b.(db_committed_seq) ≤ floor') st'.(ms_direntry_binds).
Proof using Hsame. by rewrite <-!list_filter_filter, Hsame. Qed.

Lemma floor_entry p k : entry_of st floor p k = entry_of st' floor' p k.
Proof using Hsame.
  unfold entry_of, bound_child_at_seq_scan. do 2 f_equal.
  pose proof (floor_filter (λ b, b.(db_parent_inode_id) = p ∧ b.(db_name_key) = k)) as E.
  etrans; [|etrans; [exact E|]]; apply list_filter_iff; naive_solver.
Qed.

Lemma floor_place c : place_of st floor c = place_of st' floor' c.
Proof using Hsame.
  unfold place_of, latest_parent_binding_for_child_at_seq. do 2 f_equal.
  pose proof (floor_filter (λ b, b.(db_child_inode_id) = c ∧ is_binding_event b = true)) as E.
  etrans; [|etrans; [exact E|]]; apply list_filter_iff; naive_solver.
Qed.
End floor_ext.

Lemma floor_ok_same st st' floor floor' :
  filter (λ b, b.(db_committed_seq) ≤ floor) st.(ms_direntry_binds)
  = filter (λ b, b.(db_committed_seq) ≤ floor') st'.(ms_direntry_binds) →
  floor_ok st floor → floor_ok st' floor'.
Proof.
  intros Hsame [Ha He]. split.
  - intros s c bp. unfold entries, places.
    rewrite <-(floor_entry st st' floor floor' Hsame), <-(floor_place st st' floor floor' Hsame). apply Ha.
  - intros e Hin Hev Hb Hs Hnew. rewrite <-(floor_place st st' floor floor' Hsame).
    destruct (floor_rows st st' floor floor' Hsame e Hin Hs) as [Hin' Hs'].
    apply He; try done. intros y Hy Hye Hslot Hc Hys.
    destruct (floor_rows st' st floor' floor (eq_sym Hsame) y Hy Hys). by apply Hnew.
Qed.

(** ** The invariant

    [next] bounds the delta indexes that the commit at [seq] has used. *)
Record namespace_ok `{HeapBytes} (st : MetadataState) (seq : ChangeSeq) (next : N) : Prop := {
  ns_rebuilt : rebuilt st;
  ns_rows : rows_ok st;
  ns_inodes_below : ∀ i, i ∈ st.(ms_inodes) → i.(ir_committed_seq) ≤ seq;
  ns_bindings_below : ∀ b, b ∈ st.(ms_direntry_binds) →
    cmp (binding_position b) (mkDeltaPosition seq next) = Lt;
  ns_tombstones_below : ∀ t, t ∈ st.(ms_subtree_tombstones) →
    cmp (tombstone_position t) (mkDeltaPosition seq next) = Lt;
  ns_summaries : summaries_ok st;
  ns_children : children_ok st;
  ns_floors : ∀ floor, floor ≤ seq → floor_ok st floor;
  ns_ends : ∀ c, ends (parent_of st seq) c;
  ns_parents : ∀ c p, parent_of st seq c = Some p →
    ∃ i, inode_at_seq_scan st p seq = Some i ∧ i.(ir_inode_kind) = Directory;
  ns_hidden : ∀ i, is_Some (hiding_subtree_tombstone_scan st i seq) →
    place_of st seq i = None ∧ i ≠ ROOT_INODE_ID;
  ns_root : ∃ i, inode_at_seq_scan st ROOT_INODE_ID seq = Some i ∧ i.(ir_inode_kind) = Directory;
  ns_tombstone_roots : ∀ t, t ∈ st.(ms_subtree_tombstones) →
    ∃ i, i ∈ st.(ms_inodes) ∧ i.(ir_inode_id) = t.(tb_root_inode_id);
}.

Section invariant.
Context `{HeapBytes}.
Implicit Types (st : MetadataState) (seq : ChangeSeq) (next : N).

Lemma ns_agree st seq next : namespace_ok st seq next → agree (entries st seq) (places st seq).
Proof. intros Hok. apply (fl_agree _ _ (ns_floors _ _ _ Hok seq (N.le_refl _))). Qed.

(** Rows of other families do not matter. *)
Lemma namespace_ok_ext st st' seq next :
  st'.(ms_inodes) = st.(ms_inodes) → st'.(ms_direntry_binds) = st.(ms_direntry_binds) →
  st'.(ms_subtree_tombstones) = st.(ms_subtree_tombstones) → rebuilt st' →
  namespace_ok st seq next → namespace_ok st' seq next.
Proof.
  intros E1 E2 E3 Hr []. destruct st, st'. cbn in *. subst. split; try done.
  - destruct ns_rows0. by split.
  - intros floor Hle. eapply floor_ok_same; [|by apply ns_floors0]. done.
Qed.

Lemma position_lt_seq p seq next : cmp p (mkDeltaPosition seq next) = Lt → p.(dp_seq) ≤ seq.
Proof.
  destruct p as [s d]. unfold cmp, DeltaPosition_ord, cmp, prod_ord, cmp, N_ord. cbn.
  destruct (N.compare_spec s seq); cbn; intros; try done; lia.
Qed.

Lemma position_lt_le p seq next next' :
  cmp p (mkDeltaPosition seq next) = Lt → next ≤ next' → cmp p (mkDeltaPosition seq next') = Lt.
Proof.
  destruct p as [s d]. unfold cmp, DeltaPosition_ord, cmp, prod_ord, cmp, N_ord. cbn.
  destruct (N.compare_spec s seq); cbn; rewrite ?N.compare_lt_iff; intros; try done; lia.
Qed.

Lemma position_lt_later p seq next seq' next' :
  cmp p (mkDeltaPosition seq next) = Lt → seq < seq' → cmp p (mkDeltaPosition seq' next') = Lt.
Proof.
  destruct p as [s d]. unfold cmp, DeltaPosition_ord, cmp, prod_ord, cmp, N_ord. cbn.
  destruct (N.compare_spec s seq); cbn; intros; try done;
    rewrite (proj2 (N.compare_lt_iff s seq')) by lia; done.
Qed.

Lemma namespace_ok_next st seq next next' :
  namespace_ok st seq next → next ≤ next' → namespace_ok st seq next'.
Proof. intros [] Hle. split; try done; eauto using position_lt_le. Qed.

Section later.
Context st seq next seq' (Hok : namespace_ok st seq next) (Hseq : seq ≤ seq').

Lemma slot_scan_later p k : bound_child_at_seq_scan st p k seq' = bound_child_at_seq_scan st p k seq.
Proof using Hok Hseq.
  unfold bound_child_at_seq_scan. f_equal. apply filter_ext_in.
  intros b Hb%(ns_bindings_below _ _ _ Hok)%position_lt_seq. cbn in Hb. naive_solver lia.
Qed.

Lemma parent_scan_later c :
  latest_parent_binding_for_child_at_seq st c seq' = latest_parent_binding_for_child_at_seq st c seq.
Proof using Hok Hseq.
  unfold latest_parent_binding_for_child_at_seq. f_equal. apply filter_ext_in.
  intros b Hb%(ns_bindings_below _ _ _ Hok)%position_lt_seq. cbn in Hb. naive_solver lia.
Qed.

Lemma tombstone_scan_later i :
  hiding_subtree_tombstone_scan st i seq' = hiding_subtree_tombstone_scan st i seq.
Proof using Hok Hseq.
  unfold hiding_subtree_tombstone_scan, hiding_tombstone_from_records, newest_tombstone_from_records.
  do 2 f_equal. apply filter_ext_in.
  intros t [_ Ht%(ns_tombstones_below _ _ _ Hok)%position_lt_seq]%list_elem_of_filter. cbn in Ht. lia.
Qed.

Lemma inode_scan_later i : inode_at_seq_scan st i seq' = inode_at_seq_scan st i seq.
Proof using Hok Hseq.
  unfold inode_at_seq_scan, find_first.
  rewrite (filter_ext_in _ (λ inode, ir_inode_id inode = i ∧ ir_committed_seq inode ≤ seq)); [done|].
  intros r Hr%(ns_inodes_below _ _ _ Hok). naive_solver lia.
Qed.
End later.

(** A later commit starts from the invariant of the one before. *)
Lemma namespace_ok_later st seq next seq' :
  namespace_ok st seq next → seq < seq' → namespace_ok st seq' 0.
Proof.
  intros Hok Hlt. assert (seq ≤ seq') as Hle by lia.
  assert (∀ c, place_of st seq' c = place_of st seq c) as Ep
    by (intros c; unfold place_of; by rewrite (parent_scan_later st seq next seq' Hok Hle)).
  assert (∀ c, parent_of st seq' c = parent_of st seq c) as Epp
    by (intros c; unfold parent_of; by rewrite Ep).
  split; try apply Hok.
  - intros i Hi%(ns_inodes_below _ _ _ Hok). lia.
  - intros b Hb%(ns_bindings_below _ _ _ Hok). by eapply position_lt_later.
  - intros b Hb%(ns_tombstones_below _ _ _ Hok). by eapply position_lt_later.
  - intros floor _. destruct (decide (floor ≤ seq)); [by apply (ns_floors _ _ _ Hok)|].
    eapply floor_ok_same; [|by apply (ns_floors _ _ _ Hok seq)]. apply filter_ext_in.
    intros b Hb%(ns_bindings_below _ _ _ Hok)%position_lt_seq. cbn in Hb. lia.
  - intros c. destruct (ns_ends _ _ _ Hok c) as (top & Ht & Hn). exists top. rewrite Epp. split; [|done].
    eapply rtc_subrel; [|done]. intros x y. by rewrite Epp.
  - intros c p. rewrite Epp, (inode_scan_later st seq next seq' Hok Hle). apply (ns_parents _ _ _ Hok).
  - intros i. rewrite Ep, (tombstone_scan_later st seq next seq' Hok Hle). apply (ns_hidden _ _ _ Hok).
  - rewrite (inode_scan_later st seq next seq' Hok Hle). apply (ns_root _ _ _ Hok).
Qed.

Lemma event_position e : is_binding_event e = true → is_bound e = true →
  binding_position e = e.(db_bind_position).
Proof. intros [He|He]%is_binding_event_true Hb; [congruence|done]. Qed.

(** The current event of a child is the newest event of its slot. *)
Lemma place_newest st seq next c e y :
  namespace_ok st seq next → place_of st seq c = Some e →
  y ∈ st.(ms_direntry_binds) → is_binding_event y = true → binding_slot y = binding_slot e →
  kle (binding_position y) (binding_position e).
Proof.
  intros Hok He Hy Hye Hslot. destruct (place_of_Some _ _ _ _ He) as (Hin & Hc & Hev & Hb & _).
  assert (entries st seq (binding_slot e) = Some (c, e.(db_bind_position))) as Hentry.
  { apply (ns_agree _ _ _ Hok). unfold places. by rewrite He. }
  unfold entries, entry_of in Hentry. cbn [fst snd binding_slot] in Hentry.
  destruct (bound_child_at_seq_scan _ _ _ _) as [x|] eqn:Ex; [|done]. cbn in Hentry.
  destruct (is_bound x) eqn:Exb; [|done]. injection Hentry as Hxc Hxb.
  apply max_by_key_is_max in Ex as [Hx Hmax]. apply list_elem_of_filter in Hx as [(Hxp & Hxk & _) Hx].
  assert (kle (binding_position y) (binding_position x)) as Hyx.
  { apply Hmax, list_elem_of_filter. unfold binding_slot in Hslot. split; [|done].
    apply (ns_bindings_below _ _ _ Hok), position_lt_seq in Hy. cbn in Hy. naive_solver. }
  assert (∀ e', e' ∈ st.(ms_direntry_binds) → binding_position e' = e.(db_bind_position) → e' = e) as Huniq.
  { intros e' He' E. apply (NoDup_fmap_elem binding_position (ms_direntry_binds st));
      [apply (ns_rows _ _ _ Hok)|done|done|]. by rewrite E, event_position. }
  destruct (is_binding_event x) eqn:Exe.
  - rewrite <-(Huniq x Hx); [done|]. by rewrite event_position.
  - destruct (ns_summaries _ _ _ Hok x Hx Exe) as (e' & He' & H1 & H2 & H3 & H4 & H5 & H6 & H7 & H8 & H9).
    assert (e' = e) as -> by (apply Huniq; congruence).
    destruct (H9 y Hy Hye) as [?|Hlt]; [congruence|done|].
    unfold kle in Hyx. apply cmp_gt_lt in Hlt. congruence.
Qed.

(** *** Binding rows *)
Section push_binding.
Context st seq next (d : N) (r : DirentryBindingRecord).
Context (Hok : namespace_ok st seq next) (Hd : next ≤ d).
Context (Hpos : binding_position r = mkDeltaPosition seq d).
Let st' := push_direntry_binding_record st r.

Lemma push_binding_above y :
  y ∈ st.(ms_direntry_binds) → cmp (binding_position y) (binding_position r) = Lt.
Proof using Hok Hd Hpos.
  intros Hy%(ns_bindings_below _ _ _ Hok). rewrite Hpos. by eapply position_lt_le.
Qed.

Lemma push_binding_seq : r.(db_committed_seq) = seq.
Proof using Hpos. by injection Hpos as -> _. Qed.

Lemma push_binding_rows : r.(db_child_inode_id) ≠ ROOT_INODE_ID → rows_ok st'.
Proof using Hok Hd Hpos.
  intros Hroot. destruct (ns_rows _ _ _ Hok) as [H1 H2 H3 H4]. split; try done.
  - cbn. rewrite fmap_app. apply NoDup_app. split_and!; [done| |apply NoDup_singleton].
    intros p (y & -> & Hy)%list_elem_of_fmap Hp%list_elem_of_singleton.
    apply push_binding_above in Hy. by apply cmp_lt_ne in Hy.
  - intros row [Hrow|Hrow]%elem_of_app; [by apply H4|]. apply list_elem_of_singleton in Hrow as ->. done.
Qed.

Lemma push_binding_below b :
  b ∈ st'.(ms_direntry_binds) → cmp (binding_position b) (mkDeltaPosition seq (d + 1)) = Lt.
Proof using Hok Hd Hpos.
  intros [Hb|Hb]%elem_of_app.
  - apply (ns_bindings_below _ _ _ Hok) in Hb. eapply position_lt_le; [done|lia].
  - apply list_elem_of_singleton in Hb as ->. rewrite Hpos.
    unfold cmp, DeltaPosition_ord, cmp, prod_ord, cmp, N_ord. cbn. rewrite N.compare_refl. cbn.
    apply N.compare_lt_iff. lia.
Qed.

Lemma push_binding_slot p k :
  bound_child_at_seq_scan st' p k seq
  = if decide (binding_slot r = (p, k)) then Some r else bound_child_at_seq_scan st p k seq.
Proof using Hok Hd Hpos.
  apply slot_scan_push; [|rewrite push_binding_seq; lia].
  intros y Hy. by apply lt_kle, push_binding_above.
Qed.

Lemma push_binding_parent c :
  latest_parent_binding_for_child_at_seq st' c seq
  = if decide (r.(db_child_inode_id) = c ∧ is_binding_event r = true) then Some r
    else latest_parent_binding_for_child_at_seq st c seq.
Proof using Hok Hd Hpos.
  apply parent_scan_push; [|rewrite push_binding_seq; lia].
  intros y Hy. by apply lt_kle, push_binding_above.
Qed.

Lemma push_binding_entries s :
  entries st' seq s =
  if decide (binding_slot r = s)
  then (if is_bound r then Some (r.(db_child_inode_id), r.(db_bind_position)) else None)
  else entries st seq s.
Proof using Hok Hd Hpos.
  unfold entries, entry_of. rewrite push_binding_slot. destruct s as [p k]. cbn [fst snd].
  case_decide; [|done]. cbn. by destruct (is_bound r).
Qed.

Lemma push_binding_place c :
  place_of st' seq c =
  if decide (r.(db_child_inode_id) = c ∧ is_binding_event r = true)
  then (if is_bound r then Some r else None) else place_of st seq c.
Proof using Hok Hd Hpos.
  unfold place_of. rewrite push_binding_parent. by case_decide.
Qed.

(** A new event is newer than every summary. *)
Lemma push_binding_summaries :
  (is_binding_event r = false → ∃ e, summarizes st' r e) → summaries_ok st'.
Proof using Hok Hd Hpos.
  intros Hr x [Hx|Hx]%elem_of_app Hn.
  - destruct (ns_summaries _ _ _ Hok x Hx Hn) as (e & He & H1 & H2 & H3 & H4 & H5 & H6 & H7 & H8 & H9).
    exists e. unfold summarizes. split_and!; try done; [apply elem_of_app; by left|].
    intros y [Hy|Hy]%elem_of_app Hye Hys; [by apply H9|].
    apply list_elem_of_singleton in Hy as ->. right. by apply push_binding_above.
  - apply list_elem_of_singleton in Hx as ->. auto.
Qed.

Lemma push_binding_children :
  (is_bound r = true → ∃ i, i ∈ st.(ms_inodes) ∧ i.(ir_inode_id) = r.(db_child_inode_id) ∧
    i.(ir_inode_kind) = r.(db_child_kind) ∧ i.(ir_committed_by) = r.(db_child_created_by) ∧
    i.(ir_committed_at_ms) = r.(db_child_created_at_ms)) → children_ok st'.
Proof using Hok Hd Hpos.
  intros Hr x [Hx|Hx]%elem_of_app Hb.
  - by apply (ns_children _ _ _ Hok).
  - apply list_elem_of_singleton in Hx as ->. destruct (Hr Hb) as (i & Hi & ? & ? & ? & ?).
    exists i. split_and!; try done. rewrite push_binding_seq. by apply (ns_inodes_below _ _ _ Hok).
Qed.
Lemma parent_of_push c :
  parent_of st' seq c =
  if decide (r.(db_child_inode_id) = c ∧ is_binding_event r = true)
  then (if is_bound r then Some r.(db_parent_inode_id) else None) else parent_of st seq c.
Proof using Hok Hd Hpos.
  unfold parent_of. rewrite push_binding_place. case_decide; [|done]. by destruct (is_bound r).
Qed.

Lemma push_binding_places c :
  places st' seq c =
  if decide (r.(db_child_inode_id) = c ∧ is_binding_event r = true)
  then (if is_bound r then Some (binding_slot r, r.(db_bind_position)) else None)
  else places st seq c.
Proof using Hok Hd Hpos.
  unfold places. rewrite push_binding_place. case_decide; [|done]. by destruct (is_bound r).
Qed.

(** The floors below the new row keep their rows; the head is what matters. *)
Lemma push_binding_floors : floor_ok st' seq → ∀ floor, floor ≤ seq → floor_ok st' floor.
Proof using Hok Hd Hpos.
  intros Hhead floor Hle. destruct (decide (floor = seq)) as [->|Hne]; [done|].
  eapply floor_ok_same; [|by apply (ns_floors _ _ _ Hok)]. cbn. rewrite filter_app, (filter_cons_False _ r), app_nil_r; [done|].
  rewrite push_binding_seq. lia.
Qed.

(** An edge that binds at the head still does before the push. *)
Lemma push_binding_edge e :
  e ∈ st.(ms_direntry_binds) → is_binding_event e = true → is_bound e = true →
  (∀ y, y ∈ st'.(ms_direntry_binds) → is_binding_event y = true → binding_slot y = binding_slot e →
    y.(db_child_inode_id) = e.(db_child_inode_id) → y.(db_committed_seq) ≤ seq →
    kle (binding_position y) (binding_position e)) →
  place_of st seq e.(db_child_inode_id) = Some e.
Proof using Hok Hd Hpos.
  intros Hin Hev Hb Hnew. apply (fl_edges _ _ (ns_floors _ _ _ Hok seq (N.le_refl _))); try done.
  - apply (ns_bindings_below _ _ _ Hok), position_lt_seq in Hin. done.
  - intros y Hy. apply Hnew. apply elem_of_app. by left.
Qed.

Lemma push_bind_ok :
  is_binding_event r = true → is_bound r = true → r.(db_child_inode_id) ≠ ROOT_INODE_ID →
  entry_of st seq r.(db_parent_inode_id) r.(db_name_key) = None →
  place_of st seq r.(db_child_inode_id) = None →
  hiding_subtree_tombstone_scan st r.(db_child_inode_id) seq = None →
  (∃ i, i ∈ st.(ms_inodes) ∧ i.(ir_inode_id) = r.(db_child_inode_id) ∧
    i.(ir_inode_kind) = r.(db_child_kind) ∧ i.(ir_committed_by) = r.(db_child_created_by) ∧
    i.(ir_committed_at_ms) = r.(db_child_created_at_ms)) →
  (∃ i, inode_at_seq_scan st r.(db_parent_inode_id) seq = Some i ∧ i.(ir_inode_kind) = Directory) →
  ¬ reaches (parent_of st seq) r.(db_parent_inode_id) r.(db_child_inode_id) →
  namespace_ok st' seq (d + 1).
Proof using Hok Hd Hpos.
  intros Hev Hb Hroot Hentry Hplace Hhid Hinode Hparent Hcycle. split.
  - apply push_binding_rebuilt, Hok.
  - by apply push_binding_rows.
  - apply Hok.
  - apply push_binding_below.
  - intros t Ht%(ns_tombstones_below _ _ _ Hok). eapply position_lt_le; [done|lia].
  - apply push_binding_summaries. congruence.
  - by apply push_binding_children.
  - apply push_binding_floors. split.
    + apply (agree_bind (entries st seq) _ (places st seq) _ (binding_slot r) r.(db_child_inode_id)
        r.(db_bind_position) (ns_agree _ _ _ Hok)).
      * intros s Hs. rewrite push_binding_entries. by rewrite decide_False by congruence.
      * intros c Hc. rewrite push_binding_places. by rewrite decide_False by naive_solver.
      * unfold entries. cbn. by rewrite Hentry.
      * unfold places. by rewrite Hplace.
      * rewrite push_binding_entries, decide_True by done. by rewrite Hb.
      * rewrite push_binding_places, decide_True by done. by rewrite Hb.
    + intros e [Hin| ->%list_elem_of_singleton]%elem_of_app Heve Hbe _ Hnew; rewrite push_binding_place.
      * pose proof (push_binding_edge e Hin Heve Hbe Hnew) as He. rewrite decide_False; [done|].
        intros [Ec _]. congruence.
      * rewrite decide_True by done. by rewrite Hb.
  - apply (ends_bind (parent_of st seq) _ r.(db_child_inode_id) r.(db_parent_inode_id)).
    + unfold parent_of. by rewrite Hplace.
    + rewrite parent_of_push, decide_True by done. by rewrite Hb.
    + intros c Hc. rewrite parent_of_push. by rewrite decide_False by naive_solver.
    + done.
    + apply (ns_ends _ _ _ Hok).
  - intros c p. rewrite parent_of_push. case_decide; [|apply (ns_parents _ _ _ Hok)].
    rewrite Hb. intros [= <-]. done.
  - intros i Hi. change (is_Some (hiding_subtree_tombstone_scan st i seq)) in Hi.
    rewrite push_binding_place. case_decide as Hc; [|by apply (ns_hidden _ _ _ Hok)].
    destruct Hc as [<- _]. rewrite Hhid in Hi. by destruct Hi.
  - apply (ns_root _ _ _ Hok).
  - apply (ns_tombstone_roots _ _ _ Hok).
Qed.

Lemma push_unbind_ok x :
  is_bound r = false → r.(db_child_inode_id) ≠ ROOT_INODE_ID →
  entry_of st seq r.(db_parent_inode_id) r.(db_name_key) = Some x →
  x.(db_child_inode_id) = r.(db_child_inode_id) →
  namespace_ok st' seq (d + 1).
Proof using Hok Hd Hpos.
  intros Hb Hroot Hentry Hx.
  assert (is_binding_event r = true) as Hev by (unfold is_binding_event; by rewrite Hb). split.
  - apply push_binding_rebuilt, Hok.
  - by apply push_binding_rows.
  - apply Hok.
  - apply push_binding_below.
  - intros t Ht%(ns_tombstones_below _ _ _ Hok). eapply position_lt_le; [done|lia].
  - apply push_binding_summaries. congruence.
  - apply push_binding_children. congruence.
  - assert (entries st seq (binding_slot r) = Some (r.(db_child_inode_id), x.(db_bind_position))) as Hrow.
    { unfold entries. cbn. rewrite Hentry. cbn. by rewrite Hx. }
    apply push_binding_floors. split.
    + apply (agree_unbind (entries st seq) _ (places st seq) _ (binding_slot r) r.(db_child_inode_id)
        x.(db_bind_position) (ns_agree _ _ _ Hok)).
      * intros s Hs. rewrite push_binding_entries. by rewrite decide_False by congruence.
      * intros c Hc. rewrite push_binding_places. by rewrite decide_False by naive_solver.
      * done.
      * rewrite push_binding_entries, decide_True by done. by rewrite Hb.
      * rewrite push_binding_places, decide_True by done. by rewrite Hb.
    + intros e [Hin| ->%list_elem_of_singleton]%elem_of_app Heve Hbe _ Hnew; [|congruence].
      pose proof (push_binding_edge e Hin Heve Hbe Hnew) as He.
      rewrite push_binding_place, decide_False; [done|]. intros [Ec _].
      apply (ns_agree _ _ _ Hok) in Hrow. unfold places in Hrow. rewrite Ec, He in Hrow.
      assert (binding_slot r = binding_slot e) as Hs by (unfold binding_slot in *; cbn in Hrow; congruence).
      apply (kle_not_lt (binding_position r) (binding_position e)); [|by apply push_binding_above].
      apply Hnew; try done.
      * apply elem_of_app. right. by apply list_elem_of_singleton.
      * rewrite push_binding_seq. lia.
  - apply (ends_unbind (parent_of st seq) _ r.(db_child_inode_id)).
    + rewrite parent_of_push, decide_True by done. by rewrite Hb.
    + intros c Hc. rewrite parent_of_push. by rewrite decide_False by naive_solver.
    + apply (ns_ends _ _ _ Hok).
  - intros c p. rewrite parent_of_push. case_decide; [by rewrite Hb|apply (ns_parents _ _ _ Hok)].
  - intros i Hi. change (is_Some (hiding_subtree_tombstone_scan st i seq)) in Hi.
    apply (ns_hidden _ _ _ Hok) in Hi as [Hp Hi]. split; [|done].
    rewrite push_binding_place. case_decide; [by rewrite Hb|done].
  - apply (ns_root _ _ _ Hok).
  - apply (ns_tombstone_roots _ _ _ Hok).
Qed.
Lemma push_summary_ok e :
  is_binding_event r = false → is_bound r = true →
  place_of st seq r.(db_child_inode_id) = Some e →
  binding_slot e = binding_slot r → e.(db_bind_position) = r.(db_bind_position) →
  binding_display_name e = binding_display_name r → e.(db_child_kind) = r.(db_child_kind) →
  e.(db_child_created_by) = r.(db_child_created_by) →
  e.(db_child_created_at_ms) = r.(db_child_created_at_ms) →
  namespace_ok st' seq (d + 1).
Proof using Hok Hd Hpos.
  intros Hev Hb Hplace Hslot Hbp Hname Hkind Hby Hat.
  destruct (place_of_Some _ _ _ _ Hplace) as (Hin & Hc & Heve & Hbe & Hes).
  assert (∀ c, place_of st' seq c = place_of st seq c) as Epl.
  { intros c. rewrite push_binding_place. rewrite decide_False; [done|]. intros [_ ?]. congruence. }
  assert (∀ c, parent_of st' seq c = parent_of st seq c) as Epa.
  { intros c. unfold parent_of. by rewrite Epl. }
  split.
  - apply push_binding_rebuilt, Hok.
  - apply push_binding_rows. rewrite <-Hc. by apply (ok_root_unbound _ (ns_rows _ _ _ Hok)).
  - apply Hok.
  - apply push_binding_below.
  - intros t Ht%(ns_tombstones_below _ _ _ Hok). eapply position_lt_le; [done|lia].
  - apply push_binding_summaries. intros _. exists e. unfold summarizes. split_and!; try done.
    + apply elem_of_app. by left.
    + rewrite event_position by done. done.
    + rewrite push_binding_seq. done.
    + intros y [Hy|Hy]%elem_of_app Hye Hys.
      * left. eapply place_newest; [done..|congruence].
      * apply list_elem_of_singleton in Hy as ->. congruence.
  - apply push_binding_children. intros _. destruct (ns_children _ _ _ Hok e Hin Hbe) as (i & ? & ? & ? & ? & ? & ?).
    exists i. split_and!; congruence.
  - apply push_binding_floors. split.
    + apply (agree_same (entries st seq) _ (places st seq) _ (binding_slot r) r.(db_child_inode_id)
        r.(db_bind_position) (ns_agree _ _ _ Hok)).
      * intros s Hs. rewrite push_binding_entries. by rewrite decide_False by congruence.
      * intros c Hc'. unfold places. by rewrite Epl.
      * apply (ns_agree _ _ _ Hok). unfold places. rewrite Hplace. cbn. congruence.
      * rewrite push_binding_entries, decide_True by done. by rewrite Hb.
      * unfold places. by rewrite Epl.
    + intros y [Hy| ->%list_elem_of_singleton]%elem_of_app Hye Hyb _ Hnew; [|congruence].
      rewrite Epl. by apply push_binding_edge.
  - intros c. destruct (ns_ends _ _ _ Hok c) as (top & Ht & Hn). exists top. rewrite Epa. split; [|done].
    eapply rtc_subrel; [|done]. intros x y. by rewrite Epa.
  - intros c p. rewrite Epa. apply (ns_parents _ _ _ Hok).
  - intros i Hi. rewrite Epl. by apply (ns_hidden _ _ _ Hok).
  - apply (ns_root _ _ _ Hok).
  - apply (ns_tombstone_roots _ _ _ Hok).
Qed.
End push_binding.

(** *** Inodes and tombstones *)
Lemma inode_scan_fresh st seq r i j :
  (∀ y, y ∈ st.(ms_inodes) → y.(ir_inode_id) ≠ r.(ir_inode_id)) → r.(ir_committed_seq) = seq →
  inode_at_seq_scan st i seq = Some j → inode_at_seq_scan (push_inode_record st r) i seq = Some j.
Proof.
  intros Hfresh Hseq Hj. rewrite inode_scan_push by (done || lia). case_decide as Hi; [|done].
  apply find_first_Some in Hj as (Hin & Hid & _). destruct (Hfresh j Hin). congruence.
Qed.

Lemma push_inode_ok st seq next r :
  namespace_ok st seq next → (∀ y, y ∈ st.(ms_inodes) → y.(ir_inode_id) ≠ r.(ir_inode_id)) →
  r.(ir_committed_seq) = seq → namespace_ok (push_inode_record st r) seq next.
Proof.
  intros Hok Hfresh Hseq.
  pose proof (λ i j, inode_scan_fresh st seq r i j Hfresh Hseq) as Hmono.
  split; try apply Hok.
  - apply push_inode_rebuilt, Hok.
  - destruct (ns_rows _ _ _ Hok) as [H1 H2 H3 H4]. split; try done.
    cbn. rewrite fmap_app. apply NoDup_app. split_and!; [done| |apply NoDup_singleton].
    intros p (y & -> & Hy)%list_elem_of_fmap Hp%list_elem_of_singleton. by apply (Hfresh y Hy).
  - intros i [Hi|Hi]%elem_of_app; [by apply (ns_inodes_below _ _ _ Hok)|].
    apply list_elem_of_singleton in Hi as ->. lia.
  - intros x Hx Hb. destruct (ns_children _ _ _ Hok x Hx Hb) as (i & Hi & Hrest).
    exists i. split; [apply elem_of_app; by left|done].
  - intros floor Hle. eapply floor_ok_same; [|by apply (ns_floors _ _ _ Hok)]. done.
  - intros c p Hp. destruct (ns_parents _ _ _ Hok c p Hp) as (i & Hi & Hk). exists i. auto.
  - destruct (ns_root _ _ _ Hok) as (i & Hi & Hk). exists i. auto.
  - intros t (i & Hi & Ht)%(ns_tombstone_roots _ _ _ Hok).
    exists i. split; [apply elem_of_app; by left|done].
Qed.

Lemma push_tombstone_ok st seq next d t :
  namespace_ok st seq next → next ≤ d → tombstone_position t = mkDeltaPosition seq d →
  (hides_subtree t.(tb_action) = true →
    place_of st seq t.(tb_root_inode_id) = None ∧ t.(tb_root_inode_id) ≠ ROOT_INODE_ID) →
  (∃ i, i ∈ st.(ms_inodes) ∧ i.(ir_inode_id) = t.(tb_root_inode_id)) →
  namespace_ok (push_subtree_tombstone_record st t) seq (d + 1).
Proof.
  intros Hok Hd Hpos Hset Hinode.
  assert (∀ y, y ∈ st.(ms_subtree_tombstones) → cmp (tombstone_position y) (tombstone_position t) = Lt) as Habove.
  { intros y Hy%(ns_tombstones_below _ _ _ Hok). rewrite Hpos. by eapply position_lt_le. }
  split; try apply Hok.
  - apply push_tombstone_rebuilt, Hok.
  - destruct (ns_rows _ _ _ Hok) as [H1 H2 H3 H4]. split; try done.
    cbn. rewrite fmap_app. apply NoDup_app. split_and!; [done| |apply NoDup_singleton].
    intros p (y & -> & Hy)%list_elem_of_fmap Hp%list_elem_of_singleton.
    apply Habove in Hy. by apply cmp_lt_ne in Hy.
  - intros b Hb%(ns_bindings_below _ _ _ Hok). eapply position_lt_le; [done|lia].
  - intros y [Hy|Hy]%elem_of_app.
    + apply (ns_tombstones_below _ _ _ Hok) in Hy. eapply position_lt_le; [done|lia].
    + apply list_elem_of_singleton in Hy as ->. rewrite Hpos.
      unfold cmp, DeltaPosition_ord, cmp, prod_ord, cmp, N_ord. cbn. rewrite N.compare_refl. cbn.
      apply N.compare_lt_iff. lia.
  - intros floor Hle. eapply floor_ok_same; [|by apply (ns_floors _ _ _ Hok)]. done.
  - intros i. rewrite tombstone_scan_push.
    + case_decide as Hi; [|apply (ns_hidden _ _ _ Hok)]. subst i.
      destruct (hides_subtree _); [intros _; by apply Hset|by intros []].
    + intros y Hy. by apply lt_kle, Habove.
    + by injection Hpos as -> _.
  - intros y [Hy|Hy]%elem_of_app; [by apply (ns_tombstone_roots _ _ _ Hok)|].
    by apply list_elem_of_singleton in Hy as ->.
Qed.
End invariant.

(** ** The invariant and the reads *)
Section reading.
Context `{HeapBytes} st seq next (Hok : namespace_ok st seq next).
Abbreviation r := (reads_at_seq st seq).
#[local] Instance namespace_laws : VisibilityLaws (reads_at_seq st seq) :=
  state_reads_lawful st (ns_rebuilt _ _ _ Hok) (ns_rows _ _ _ Hok) seq.

Lemma parent_binding_place c : parent_binding r c = place_of st seq c.
Proof using Hok.
  unfold parent_binding, place_of.
  cbn [reads_current_parent_binding_for_child MetadataStateReads_reads].
  by rewrite (sr_current_parent st (ns_rebuilt _ _ _ Hok) (ns_rows _ _ _ Hok)).
Qed.

Lemma up_parent_of c : up r c = parent_of st seq c.
Proof using Hok. unfold up, parent_of. by rewrite parent_binding_place. Qed.

Lemma above_reaches a b : above r a b ↔ reaches (parent_of st seq) a b.
Proof using Hok.
  unfold above, reaches.
  split; apply rtc_subrel; intros x y; by rewrite up_parent_of.
Qed.

Lemma grounded_all a : grounded r a.
Proof using Hok.
  destruct (ns_ends _ _ _ Hok a) as (top & Ha & Ht). exists top. rewrite above_reaches, up_parent_of. done.
Qed.

Lemma child_binding_entry p k : child_binding r p k = entry_of st seq p k.
Proof using Hok.
  unfold child_binding, entry_of. cbn [reads_active_child_binding MetadataStateReads_reads].
  by rewrite (sr_active_child st (ns_rebuilt _ _ _ Hok) (ns_rows _ _ _ Hok)).
Qed.

Lemma hiding_scan i : hiding r i = hiding_subtree_tombstone_scan st i seq.
Proof using Hok.
  unfold hiding. cbn [find_hiding_subtree_tombstone MetadataStateReads_reads ok_value].
  by rewrite (sr_find_hiding_scan st (ns_rebuilt _ _ _ Hok) (ns_rows _ _ _ Hok)).
Qed.

Lemma inode_row_scan i : inode_row r i = inode_at_seq_scan st i seq.
Proof using Hok.
  unfold inode_row. cbn [find_inode MetadataStateReads_reads ok_value].
  by rewrite (sr_find_inode_scan st (ns_rebuilt _ _ _ Hok) (ns_rows _ _ _ Hok)).
Qed.

(** Nothing at or above an uncovered inode is hidden. *)
Lemma uncovered a b :
  reads_covering_subtree_tombstone r a = Ok None → reaches (parent_of st seq) a b →
  hiding_subtree_tombstone_scan st b seq = None.
Proof using Hok.
  intros [_ Hc]%(covering_None _ (state_reads_total _)) Hb%above_reaches.
  rewrite <-hiding_scan. by apply Hc.
Qed.

(** The slot of an uncovered parent has a current binding exactly when it has
    a visible child. *)
Lemma visible_child_entry p k i :
  inode_at_seq_scan st p seq = Some i → i.(ir_inode_kind) = Directory →
  reads_covering_subtree_tombstone r p = Ok None →
  visible_child (reads_active_child_binding r) (reads_visible_inode r) p k = Ok (entry_of st seq p k).
Proof using Hok.
  intros Hi Hk Hcov. unfold visible_child.
  assert (reads_visible_inode r p = Ok (Some i)) as ->.
  { apply (visible_inode_spec _ (state_reads_total _)). rewrite inode_row_scan. split; [done|].
    split; [apply grounded_all|]. intros a Ha. rewrite hiding_scan.
    eapply uncovered; [done|]. by apply above_reaches. }
  cbn [mbind res_bind]. rewrite decide_False by auto.
  rewrite (active_child_total _ (state_reads_total _)), child_binding_entry. cbn [mbind res_bind].
  destruct (entry_of st seq p k) as [x|] eqn:Ex; [|done].
  assert (entries st seq (p, k) = Some (x.(db_child_inode_id), x.(db_bind_position))) as Hplace
    by (unfold entries; cbn; by rewrite Ex).
  apply (ns_agree _ _ _ Hok) in Hplace. unfold places in Hplace.
  destruct (place_of st seq (db_child_inode_id x)) as [e|] eqn:Ee; [|done]. injection Hplace as Hs Hbp.
  destruct (entry_of_Some _ _ _ _ _ Ex) as (Hx & _ & _ & Hb & Hs').
  destruct (bound_child_inode st (ns_rebuilt _ _ _ Hok) (ns_rows _ _ _ Hok) seq x
    (ns_children _ _ _ Hok) Hx Hb Hs') as (j & Hj & _).
  assert (reads_visible_inode r (db_child_inode_id x) = Ok (Some j)) as ->; [|done].
  apply (visible_inode_spec _ (state_reads_total _)). split; [done|]. split; [apply grounded_all|].
  intros a Ha%above_reaches. rewrite hiding_scan. apply rtc_inv in Ha as [<-|(y & Hy & Ha)].
  - destruct (hiding_subtree_tombstone_scan st _ seq) eqn:Et; [|done].
    destruct (ns_hidden _ _ _ Hok (db_child_inode_id x)) as [Hn _]; [by rewrite Et|]. congruence.
  - assert (y = p) as ->.
    { unfold parent_of in Hy. rewrite Ee in Hy. unfold binding_slot in Hs. cbn in Hy. congruence. }
    by eapply uncovered.
Qed.

(** A visible child is its slot's entry. *)
Lemma visible_child_is_entry p k x :
  visible_child (reads_active_child_binding r) (reads_visible_inode r) p k = Ok (Some x) →
  entry_of st seq p k = Some x.
Proof using Hok.
  intros E. unfold visible_child in E. step_ok E o Ho. destruct o as [i|]; [|done].
  case_decide; [done|]. step_ok E o Hb. destruct o as [y|]; [|done]. step_ok E o Hc.
  destruct o; [|done]. injection E as ->. rewrite <-child_binding_entry. unfold child_binding.
  by rewrite Hb.
Qed.

(** A slot's entry is its child's place. *)
Lemma entry_place p k x :
  entry_of st seq p k = Some x →
  ∃ e, place_of st seq x.(db_child_inode_id) = Some e ∧ binding_slot e = (p, k) ∧
    e.(db_bind_position) = x.(db_bind_position).
Proof using Hok.
  intros Hx. assert (entries st seq (p, k) = Some (x.(db_child_inode_id), x.(db_bind_position))) as He.
  { unfold entries. cbn [fst snd]. by rewrite Hx. }
  apply (ns_agree _ _ _ Hok) in He. unfold places in He.
  destruct (place_of st seq _) as [e|]; [|done]. exists e. cbn in He. split_and!; congruence.
Qed.

(** *** The model's binding rules *)
Lemma slot_current_child m : slot_current (model_of st) seq m → child_current (model_of st) seq m.
Proof using Hok.
  intros [Hv Hb]. unfold child_current. rewrite model_parent_binding_refines.
  fold (place_of st seq (mdb_child_inode_id m)).
  pose proof (slot_refines st seq (ns_rebuilt _ _ _ Hok) (ns_rows _ _ _ Hok) (ns_summaries _ _ _ Hok)
    (mdb_parent_inode_id m) (mdb_name_key m)) as Hs. rewrite Hv in Hs.
  destruct (bound_child_at_seq_scan st _ _ seq) as [x|] eqn:Ex; [|done].
  destruct Hs as (_ & _ & Hc & Hst & Hpos).
  assert (is_bound x = true) as Hxb.
  { unfold model_is_bound in Hb. apply is_bound_display_name.
    destruct (mdb_state m); [|done]. destruct (binding_display_name x); [by eexists|done]. }
  assert (entries st seq (mdb_parent_inode_id m, mdb_name_key m)
    = Some (mdb_child_inode_id m, x.(db_bind_position))) as Hplace%(ns_agree _ _ _ Hok).
  { unfold entries, entry_of. cbn [fst snd]. rewrite Ex. cbn. rewrite Hxb. cbn. by rewrite Hc. }
  unfold places in Hplace. destruct (place_of st seq _) as [e|] eqn:Ee; [|done].
  assert (e.(db_bind_position) = x.(db_bind_position)) as Hbp by (cbn in Hplace; congruence).
  cbn. f_equal. destruct (place_of_Some _ _ _ _ Ee) as (He & _ & Hev & Heb & _).
  rewrite (model_slot_value_events st seq) in Hv. destruct (max_by_key _ _) as [e'|] eqn:Ee'; [|done].
  injection Hv as <-. f_equal. apply max_by_key_is_max in Ee' as [He' _].
  rewrite !list_elem_of_filter in He'. destruct He' as (_ & Hev' & He').
  apply (NoDup_fmap_elem binding_position (ms_direntry_binds st)); [apply (ns_rows _ _ _ Hok)|done|done|].
  rewrite (event_position e) by done. rewrite Hbp. rewrite <-(Hpos Hxb). done.
Qed.

Lemma child_current_slot m : child_current (model_of st) seq m → slot_current (model_of st) seq m.
Proof using Hok.
  unfold child_current. rewrite model_parent_binding_refines.
  fold (place_of st seq (mdb_child_inode_id m)). destruct (place_of st seq _) as [e|] eqn:Ee; [|done].
  cbn. intros [= <-]. destruct (place_of_Some _ _ _ _ Ee) as (He & _ & Hev & Hb & Hs).
  split; [|by rewrite model_of_binding_bound]. rewrite (model_slot_value_events st seq).
  rewrite (max_by_key_intro _ _ e); [done| |].
  - apply key_inj_filter, (binding_key_inj st (ns_rows _ _ _ Hok)).
  - split; [rewrite !list_elem_of_filter; naive_solver|].
    intros y Hy. rewrite !list_elem_of_filter in Hy. destruct Hy as ((Hp & Hk & _) & Hye & Hy).
    eapply place_newest; [done..|]. unfold binding_slot. cbn in *. congruence.
Qed.

(** The model accepts the rows. *)
Lemma namespace_verified : model_verify_bindings (model_of st) seq = Ok ().
Proof using Hok.
  assert (NoDup (model_position <$> (model_of st).(mo_direntry_binds))) as Hnd.
  { cbn. rewrite <-list_fmap_compose. change (model_position ∘ model_of_binding) with binding_position.
    apply (NoDup_fmap_sub binding_position (ms_direntry_binds st));
      [apply (ns_rows _ _ _ Hok)|apply sublist_filter]. }
  apply verify_bindings_complete; [done|]. split.
  - intros m. split; [apply slot_current_child|apply child_current_slot].
  - intros m _. destruct (ns_ends _ _ _ Hok (mdb_child_inode_id m)) as (top & Ha & Ht).
    assert (∀ a, model_up (model_of st) seq a = parent_of st seq a) as Hup.
    { intros a. rewrite (model_up_refines st seq (ns_rebuilt _ _ _ Hok) (ns_rows _ _ _ Hok)). apply up_parent_of. }
    revert Ha. generalize (mdb_child_inode_id m). intros a Ha.
    induction Ha as [a|a b top Hab Hb IH].
    + exists [a]. apply chain_end. by rewrite Hup.
    + destruct (IH Ht) as [l Hl]. exists (a :: l). eapply chain_up; [|done]. by rewrite Hup.
Qed.
End reading.
