(* ===== verification/Bootstrap.v ===== *)
(** * Bootstrap

    [bootstrap_metadata_state] of [loonfs-core/src/namespace/bootstrap.rs]:
    the rows a namespace starts with.  They satisfy the namespace
    invariant. *)
From S2P Require Import Prelude Types Records Manifest MetadataState Visibility StateReads Model Refinement.
From S2P Require Import Namespace.
Local Open Scope N_scope.

(** [bootstrap_metadata_state]. *)
Definition bootstrap_metadata_state `{HeapBytes} (created_at_ms : N) (access : NamespaceAccess)
    : MetadataState :=
  let access_revisions :=
    match access with
    | Acl _ ((_ :: _) as root_grants) =>
        [{| ac_inode_id := ROOT_INODE_ID; ac_access_revision_no := 0; ac_committed_seq := 0;
            ac_commit_id := genesis_commit_id; ac_delta_index := 0; ac_committed_by := loonfs_actor;
            ac_committed_at_ms := created_at_ms; ac_boundary := false; ac_grants := root_grants |}]
    | _ => []
    end in
  from_rows
    [{| ir_inode_id := ROOT_INODE_ID; ir_inode_kind := Directory; ir_committed_seq := 0;
        ir_commit_id := genesis_commit_id; ir_committed_by := loonfs_actor;
        ir_committed_at_ms := created_at_ms |}]
    [] [] [] [] [] [] [] access_revisions.

(** ** The invariant holds at the start *)
Lemma bootstrap_ok `{HeapBytes} created_at_ms access :
  namespace_ok (bootstrap_metadata_state created_at_ms access) 0 0.
Proof.
  assert (∀ i, place_of (bootstrap_metadata_state created_at_ms access) 0 i = None) as Hplace by done.
  split.
  - apply rebuild_indexes_rebuilt.
  - split; cbn; [by apply NoDup_singleton|by apply NoDup_nil|by apply NoDup_nil|].
    by intros row ?%not_elem_of_nil.
  - intros i Hi%list_elem_of_singleton. by subst i.
  - by intros b ?%not_elem_of_nil.
  - by intros b ?%not_elem_of_nil.
  - by intros x ?%not_elem_of_nil.
  - by intros x ?%not_elem_of_nil.
  - intros floor _. split; [by intros [p k] c bp|by intros e ?%not_elem_of_nil].
  - intros c. exists c. split; [apply rtc_refl|]. unfold parent_of. by rewrite Hplace.
  - intros c p. unfold parent_of. by rewrite Hplace.
  - by intros i [].
  - eexists. done.
  - by intros t ?%not_elem_of_nil.
Qed.
