(* ===== verification/Numbering.v ===== *)
(** * Numbered revisions

    Each commit gives an inode's file, attributes and access revisions the
    next number, so their numbers increase with their positions.  The newest
    revision can then be found by number or by position, and no two rows of
    an inode have one number. *)
From S2P Require Import Prelude Types Records Manifest MetadataState StateReads Namespace Bootstrap.
Local Open Scope N_scope.

Definition revision_position (r : RevisionRecord) : DeltaPosition := mkDeltaPosition r.(rr_committed_seq) r.(rr_delta_index).
Definition attributes_position (r : AttributesRevisionRecord) : DeltaPosition := mkDeltaPosition r.(at_committed_seq) r.(at_delta_index).
Definition access_position (r : AccessRevisionRecord) : DeltaPosition := mkDeltaPosition r.(ac_committed_seq) r.(ac_delta_index).

(** Rows with distinct positions before the next one, whose numbers increase
    with their positions. *)
Record numbered {A} (id : A → InodeId) (no : A → N) (position : A → DeltaPosition) (rows : list A) (seq : ChangeSeq) (next : N)
    : Prop := {
  nb_positions : NoDup (position <$> rows);
  nb_below : ∀ r, r ∈ rows → cmp (position r) (mkDeltaPosition seq next) = Lt;
  nb_increase : ∀ a b, a ∈ rows → b ∈ rows → id a = id b → cmp (position a) (position b) = Lt → no a < no b;
}.

Record numbering_ok (st : MetadataState) (seq : ChangeSeq) (next : N) : Prop := {
  nu_revisions : numbered rr_inode_id rr_revision_no revision_position st.(ms_revisions) seq next;
  nu_attributes : numbered at_inode_id at_attributes_revision_no attributes_position st.(ms_attributes_revisions) seq next;
  nu_access : numbered ac_inode_id ac_access_revision_no access_position st.(ms_access_revisions) seq next;
  nu_owned : ∀ r, r ∈ st.(ms_revisions) → ∃ i, i ∈ st.(ms_inodes) ∧ i.(ir_inode_id) = r.(rr_inode_id);
}.

(** The deltas that add no numbered row. *)
Definition adds_no_number (delta : WalDelta) : Prop :=
  match delta with
  | AppendFileRevision _ _ _ _ _ _ _ _ _ _ _ _ | AppendAttributesRevision _ _ _ _ | AppendAccessRevision _ _ _ _ _ => False
  | _ => True
  end.

Lemma position_before (p : DeltaPosition) seq next seq' next' :
  cmp p (mkDeltaPosition seq next) = Lt → seq < seq' ∨ (seq = seq' ∧ next ≤ next') → cmp p (mkDeltaPosition seq' next') = Lt.
Proof.
  intros Hp Hle. eapply lt_kle_trans; [exact Hp|]. unfold kle, cmp, DeltaPosition_ord, cmp, prod_ord, cmp, N_ord. cbn.
  destruct Hle as [Hlt%N.compare_lt_iff|[-> Hle]]; [by rewrite Hlt|]. rewrite N.compare_refl. cbn. by apply N.compare_le_iff.
Qed.

Section numbered.
Context {A : Type} (id : A → InodeId) (no : A → N) (position : A → DeltaPosition).
Implicit Types rows : list A.

Lemma numbered_later rows seq next seq' next' :
  numbered id no position rows seq next → seq < seq' ∨ (seq = seq' ∧ next ≤ next') → numbered id no position rows seq' next'.
Proof. intros [Hp Hb Hi] Hle. split; [done| |done]. intros r Hr. by eapply position_before; [apply Hb|]. Qed.

Lemma numbered_push rows seq next d r :
  numbered id no position rows seq next → next ≤ d → position r = mkDeltaPosition seq d →
  (∀ a, a ∈ rows → id a = id r → no a < no r) → numbered id no position (rows ++ [r]) seq (d + 1).
Proof.
  intros [Hp Hb Hi] Hd Hr Hno. assert (∀ a, a ∈ rows → cmp (position a) (position r) = Lt) as Hlt.
  { intros a Ha. rewrite Hr. eapply position_before; [by apply Hb|]. right. lia. }
  split.
  - rewrite fmap_app. apply NoDup_app. split_and!; [done| |apply NoDup_singleton].
    intros p (a & -> & Ha)%list_elem_of_fmap Hin. apply list_elem_of_singleton in Hin as E.
    specialize (Hlt a Ha). rewrite E in Hlt. by rewrite cmp_refl in Hlt.
  - intros a [Ha| ->%list_elem_of_singleton]%elem_of_app.
    + eapply position_before; [by apply Hb|]. right. lia.
    + rewrite Hr. unfold cmp, DeltaPosition_ord, cmp, prod_ord, cmp, N_ord. cbn. rewrite N.compare_refl. cbn.
      apply N.compare_lt_iff. lia.
  - intros a b [Ha| ->%list_elem_of_singleton]%elem_of_app [Hb'| ->%list_elem_of_singleton]%elem_of_app Hid Hab.
    + by apply Hi.
    + by apply Hno.
    + pose proof (cmp_lt_trans _ _ _ Hab (Hlt b Hb')) as Hc. by rewrite cmp_refl in Hc.
    + by rewrite cmp_refl in Hab.
Qed.

(** Two rows of an inode with one number are one row. *)
Lemma numbered_unique rows seq next a b :
  numbered id no position rows seq next → a ∈ rows → b ∈ rows → id a = id b → no a = no b → a = b.
Proof.
  intros [Hp _ Hi] Ha Hb Hid Hno. destruct (cmp (position a) (position b)) eqn:E.
  - apply cmp_eq in E. by apply (NoDup_fmap_elem position rows).
  - specialize (Hi a b Ha Hb Hid E). lia.
  - apply cmp_gt_lt in E. specialize (Hi b a Hb Ha (eq_sym Hid) E). lia.
Qed.
End numbered.

Section numbering.
Context `{HeapBytes}.
Implicit Types st : MetadataState.

Lemma numbering_later st seq next seq' next' :
  numbering_ok st seq next → seq < seq' ∨ (seq = seq' ∧ next ≤ next') → numbering_ok st seq' next'.
Proof. intros [Hr Ha Hc Ho] Hle. split; [by eapply numbered_later..|done]. Qed.

Lemma numbering_tables st st' seq next :
  st'.(ms_revisions) = st.(ms_revisions) → st'.(ms_attributes_revisions) = st.(ms_attributes_revisions) →
  st'.(ms_access_revisions) = st.(ms_access_revisions) → (∀ i, i ∈ st.(ms_inodes) → i ∈ st'.(ms_inodes)) →
  numbering_ok st seq next → numbering_ok st' seq next.
Proof.
  intros E1 E2 E3 Hi [Hr Ha Hc Ho]. split; [by rewrite E1|by rewrite E2|by rewrite E3|].
  intros r Hr'. rewrite E1 in Hr'. destruct (Ho r Hr') as (i & Hin & Hid). exists i. auto.
Qed.

Lemma numbering_same st seq next commit_id actor ms ds :
  Forall adds_no_number ds → numbering_ok st seq next →
  numbering_ok (apply_committed_wal_deltas st seq commit_id actor ms ds) seq next.
Proof.
  intros Hds. unfold apply_committed_wal_deltas. revert st. induction Hds as [|d ds Hd _ IH]; intros st Hst; [done|].
  cbn [foldl]. apply IH. destruct d; try done; eapply numbering_tables; try exact Hst; try done.
  cbn. intros i Hi. apply elem_of_app. by left.
Qed.

Lemma numbering_revision st seq next commit_id actor ms d i p k name b by' at' no content layout append :
  numbering_ok st seq next → next ≤ d → (∃ inode, inode ∈ st.(ms_inodes) ∧ inode.(ir_inode_id) = i) →
  (∀ a, a ∈ st.(ms_revisions) → a.(rr_inode_id) = i → a.(rr_revision_no) < no) →
  numbering_ok (apply_committed_wal_delta_mut st seq commit_id actor ms
    (AppendFileRevision d i p k name b by' at' no content layout append)) seq (d + 1).
Proof.
  intros [Hr Ha Hc Ho] Hd Hi Hno.
  assert (∀ r, r.(rr_inode_id) = i → r.(rr_revision_no) = no → revision_position r = mkDeltaPosition seq d →
    numbered rr_inode_id rr_revision_no revision_position (st.(ms_revisions) ++ [r]) seq (d + 1) ∧
    ∀ r', r' ∈ st.(ms_revisions) ++ [r] → ∃ i, i ∈ st.(ms_inodes) ∧ i.(ir_inode_id) = r'.(rr_inode_id)) as Hpush.
  { intros r E1 E2 E3. split.
    - eapply numbered_push; [done|done|done|]. intros a Ha'. rewrite E1, E2. by apply Hno.
    - intros r' [Hr'| ->%list_elem_of_singleton]%elem_of_app; [by apply Ho|by rewrite E1]. }
  destruct layout; split; cbn; try (eapply numbered_later; [done|]; right; lia); by apply Hpush.
Qed.

Lemma numbering_attributes st seq next commit_id actor ms d i no attributes :
  numbering_ok st seq next → next ≤ d →
  (∀ a, a ∈ st.(ms_attributes_revisions) → a.(at_inode_id) = i → a.(at_attributes_revision_no) < no) →
  numbering_ok (apply_committed_wal_delta_mut st seq commit_id actor ms (AppendAttributesRevision d i no attributes)) seq (d + 1).
Proof.
  intros [Hr Ha Hc Ho] Hd Hno. split; cbn; try (eapply numbered_later; [done|]; right; lia); [|done].
  by eapply numbered_push.
Qed.

Lemma numbering_access st seq next commit_id actor ms d i no boundary grants :
  numbering_ok st seq next → next ≤ d →
  (∀ a, a ∈ st.(ms_access_revisions) → a.(ac_inode_id) = i → a.(ac_access_revision_no) < no) →
  numbering_ok (apply_committed_wal_delta_mut st seq commit_id actor ms (AppendAccessRevision d i no boundary grants)) seq (d + 1).
Proof.
  intros [Hr Ha Hc Ho] Hd Hno. split; cbn; try (eapply numbered_later; [done|]; right; lia); [|done].
  by eapply numbered_push.
Qed.
End numbering.

Lemma bootstrap_numbering `{HeapBytes} created_at_ms access : numbering_ok (bootstrap_metadata_state created_at_ms access) 0 1.
Proof.
  assert (∀ A (id : A → InodeId) no position, numbered id no position [] 0 1) as Hnil.
  { intros A id no position. split; [apply NoDup_nil_2|by intros r ?%elem_of_nil|by intros a b ?%elem_of_nil]. }
  split; cbn; [apply Hnil|apply Hnil| |by intros r ?%elem_of_nil].
  destruct access as [|root [|grant grants]]; try apply Hnil. apply (numbered_push _ _ _ [] 0 0 0); [|done|done|by intros a ?%elem_of_nil].
  split; [apply NoDup_nil_2|by intros r ?%elem_of_nil|by intros a b ?%elem_of_nil].
Qed.
