(* ===== verification/Validate.v ===== *)
(** * Commit validation

    [loonfs-core/src/commit/validate]: the checks of each operation
    ([checks.rs]), the validators that run them and produce the WAL deltas
    ([operations.rs]) and the session that validates a commit's operations
    one after another over the rows the earlier ones add ([session.rs]), with
    the operations of [commit/ops.rs] and [commit/plan.rs].

    The session reads through [MetadataView]; the class [CommitView] lists
    the view's methods that validation calls.  A validator takes the session
    and the commit's numbering and returns the deltas with the numbering
    that remains. *)
From S2P Require Import Prelude Types Records Codec Paths MetadataState Visibility Errors.
Local Open Scope N_scope.

(** ** Operations *)
Record ResolvedBinding := mkResolvedBinding {
  rb_parent_inode_id : InodeId;
  rb_name_key : NameKey;
  rb_display_name : DisplayName;
  rb_child_inode_id : InodeId;
  rb_bind_position : DeltaPosition;
}.
#[export] Instance ResolvedBinding_eq_dec : EqDecision ResolvedBinding.
Proof. solve_decision. Defined.

Inductive NewChild : Set :=
| NewDirectory
| NewFile (content_ref : ContentRef).

Inductive CommitOperation : Set :=
| CreateDirectory (child_inode_id parent_inode_id : InodeId) (display_name : DisplayName)
| CreateFile (child_inode_id parent_inode_id : InodeId) (display_name : DisplayName)
    (content_ref : ContentRef)
| ReplaceFile (inode_id : InodeId) (base_revision_no : RevisionNo) (content_ref : ContentRef)
    (append_offset : option N)
| RestoreRevision (inode_id : InodeId) (source_revision_no base_revision_no : RevisionNo)
| DeleteFile (inode_id : InodeId) (source_binding : ResolvedBinding)
| Rename (inode_id : InodeId) (source_binding : ResolvedBinding) (new_parent_inode_id : InodeId)
    (new_display_name : DisplayName)
| DeleteSubtree (root_inode_id : InodeId) (source_binding : ResolvedBinding) (require_empty : bool)
| Undelete (inode_id : InodeId) (deletion_seq : ChangeSeq) (parent_inode_id : InodeId)
    (display_name : DisplayName)
| UpdateAttributes (inode_id : InodeId) (base_attributes_revision_no : AttributesRevisionNo)
    (attributes : Attributes)
| UpdateAccess (inode_id : InodeId) (base_access_revision_no : AccessRevisionNo) (boundary : bool)
    (grants : AccessGrants).

Record AttributesProjection := mkAttributesProjection {
  ap_attributes_revision_no : AttributesRevisionNo;
  ap_attributes_updated_by : option ActorId;
  ap_attributes_updated_at_ms : option N;
  ap_attributes : Attributes;
}.

(** ** The view

    The methods of [MetadataView] that validation calls.  [at_seq] panics
    above the view's sequence. *)
Class CommitView (V : Type) := {
  cv_retention_floor_seq : V → ChangeSeq;
  cv_inode_at_seq : V → InodeId → res CoreError (option InodeRecord);
  cv_visible_inode : V → InodeId → res CoreError (option InodeRecord);
  cv_visible_child : V → InodeId → NameKey → res CoreError (option DirentryBindingRecord);
  cv_has_visible_children : V → InodeId → res CoreError bool;
  cv_covering_subtree_tombstone : V → InodeId → res CoreError (option SubtreeTombstoneRecord);
  cv_current_parent_binding_for_child : V → InodeId → res CoreError (option DirentryBindingRecord);
  cv_would_create_directory_cycle : V → InodeId → InodeId → res CoreError bool;
  cv_recoverable_deletion : V → InodeId → res CoreError (option SubtreeTombstoneRecord);
  cv_latest_revision_record : V → InodeId → res CoreError (option RevisionRecord);
  cv_revision_at_head : V → InodeId → RevisionNo → res CoreError (option RevisionRecord);
  cv_attributes : V → InodeId → res CoreError AttributesProjection;
  cv_latest_access_revision : V → InodeId → res CoreError (option AccessRevisionRecord);
  cv_at_seq : V → ChangeSeq → res CoreError V;
  cv_with_overlay : V → option MetadataState → MetadataState → ChangeSeq → V;
}.

(** ** Numbering *)
Record CommitNumbering := mkCommitNumbering {
  next_op_index : N;
  next_delta_index : N;
}.

Definition CommitNumbering_default : CommitNumbering :=
  {| next_op_index := 0; next_delta_index := 0 |}.

Definition reserve_op_index (n : CommitNumbering)
    : res CommitValidationError (N * CommitNumbering) :=
  let op_index := n.(next_op_index) in
  next ← ok_or (checked_add U32_MAX n.(next_op_index) 1) OperationIndexOverflow;
  Ok (op_index, {| next_op_index := next; next_delta_index := n.(next_delta_index) |}).

Definition reserve_delta_index (n : CommitNumbering)
    : res CommitValidationError (N * CommitNumbering) :=
  let delta_index := n.(next_delta_index) in
  next ← ok_or (checked_add U32_MAX n.(next_delta_index) 1) DeltaIndexOverflow;
  Ok (delta_index, {| next_op_index := n.(next_op_index); next_delta_index := next |}).

(** [self.numbering.reserve_delta_index()?] in a validator. *)
Definition reserve (n : CommitNumbering) : res CoreError (N * CommitNumbering) :=
  map_err CeCommitValidation (reserve_delta_index n).

(** ** The session *)
Record CommitValidationSession (V : Type) := mkCommitValidationSession {
  cs_base_view : V;
  cs_batch_accepted : MetadataState;
  cs_committed_seq : ChangeSeq;
  cs_overlay : MetadataState;
  cs_numbering : CommitNumbering;
  cs_commit_id : CommitId;
  cs_actor_id : ActorId;
  cs_committed_at_ms : N;
}.
Arguments cs_base_view {V}. Arguments cs_batch_accepted {V}. Arguments cs_committed_seq {V}.
Arguments cs_overlay {V}. Arguments cs_numbering {V}. Arguments cs_commit_id {V}.
Arguments cs_actor_id {V}. Arguments cs_committed_at_ms {V}. Arguments mkCommitValidationSession {V}.

Section session.
Context {V : Type} `{CommitView V} `{HeapBytes} `{NamePolicy}.

(** [CommitValidationSession::new]. *)
Definition CommitValidationSession_new (base_view : V) (batch_accepted : MetadataState)
    (committed_seq : ChangeSeq) (commit_id : CommitId) (actor_id : ActorId) (committed_at_ms : N)
    : CommitValidationSession V :=
  {| cs_base_view := base_view; cs_batch_accepted := batch_accepted;
     cs_committed_seq := committed_seq; cs_overlay := MetadataState_default;
     cs_numbering := CommitNumbering_default; cs_commit_id := commit_id; cs_actor_id := actor_id;
     cs_committed_at_ms := committed_at_ms |}.

(** [CommitValidationSession::view]. *)
Definition session_view (s : CommitValidationSession V) : V :=
  cv_with_overlay s.(cs_base_view) (Some s.(cs_overlay)) s.(cs_batch_accepted)
    s.(cs_committed_seq).

(** ** Checks *)
Section checks.
Context (s : CommitValidationSession V).
Let view := session_view s.

Definition resolve_recoverable_deletion (inode_id : InodeId) (deletion_seq : ChangeSeq)
    : res CoreError SubtreeTombstoneRecord :=
  if decide (deletion_seq ≤ cv_retention_floor_seq view) then
    commit_err (UndeleteTargetNotDeleted inode_id)
  else
    found ← cv_recoverable_deletion view inode_id;
    match found with
    | None => commit_err (UndeleteTargetNotDeleted inode_id)
    | Some deletion =>
        if decide (s.(cs_committed_seq) ≤ deletion.(tb_committed_seq)) then
          commit_err (UndeleteTargetsCurrentCommit inode_id)
        else if decide (deletion.(tb_committed_seq) ≠ deletion_seq) then
          commit_err (UndeleteSequenceMismatch inode_id deletion_seq deletion.(tb_committed_seq))
        else Ok deletion
    end.

Definition ensure_target_visible (inode_id : InodeId) (operand : CommitOperand) : res CoreError unit :=
  found ← cv_visible_inode view inode_id;
  match found with None => commit_err (InodeMissing operand inode_id) | Some _ => Ok () end.

Definition ensure_inode_attributes_revision_is (inode_id : InodeId)
    (expected : AttributesRevisionNo) : res CoreError unit :=
  attributes ← cv_attributes view inode_id;
  let actual := attributes.(ap_attributes_revision_no) in
  if decide (actual ≠ expected) then
    commit_err (UpdateAttributesBaseRevisionMismatch inode_id expected (Some actual))
  else Ok ().

Definition ensure_inode_access_revision_is (inode_id : InodeId) (expected : AccessRevisionNo)
    : res CoreError unit :=
  found ← cv_latest_access_revision view inode_id;
  let actual := match found with Some revision => revision.(ac_access_revision_no) | None => 0 end in
  if decide (actual ≠ expected) then
    commit_err (UpdateAccessBaseRevisionMismatch inode_id expected (Some actual))
  else Ok ().

Definition resolve_inode_kind (inode_id : InodeId) (expected : InodeKind) (operand : CommitOperand)
    : res CoreError InodeRecord :=
  found ← cv_inode_at_seq view inode_id;
  inode ← ok_or found (CeCommitValidation (InodeMissing operand inode_id));
  if decide (inode.(ir_inode_kind) ≠ expected) then
    commit_err (InodeWrongKind operand inode_id expected inode.(ir_inode_kind))
  else Ok inode.

Definition ensure_not_covered_by_tombstone (inode_id : InodeId) (operand : CommitOperand)
    : res CoreError unit :=
  found ← cv_covering_subtree_tombstone view inode_id;
  match found with
  | Some tombstone =>
      commit_err (TargetUnderSubtreeTombstone operand inode_id tombstone.(tb_root_inode_id)
        tombstone.(tb_committed_seq))
  | None => Ok ()
  end.

Definition resolve_name_absent (parent_inode_id : InodeId) (display_name : DisplayName)
    (rebinding_inode_id : option InodeId) (operand : CommitOperand) : res CoreError NameKey :=
  _ ← resolve_inode_kind parent_inode_id Directory operand;
  let name_key := for_display_name display_name in
  found ← cv_visible_child view parent_inode_id name_key;
  match found with
  | Some existing =>
      if decide (rebinding_inode_id ≠ Some existing.(db_child_inode_id)) then
        commit_err (NameTaken operand parent_inode_id name_key existing.(db_child_inode_id))
      else Ok name_key
  | None => Ok name_key
  end.

Definition ensure_child_unbound (child_inode_id : InodeId) (unbinding : option DeltaPosition)
    : res CoreError unit :=
  found ← cv_current_parent_binding_for_child view child_inode_id;
  match found with
  | Some current =>
      if decide (Some current.(db_bind_position) ≠ unbinding) then
        Err (CeNamespaceCorrupt
          ("a commit binds inode `" +:+ InodeId_to_string child_inode_id +:+
           "`, which is already bound as `" +:+ current.(db_name_key) +:+
           "` under parent inode `" +:+ InodeId_to_string current.(db_parent_inode_id) +:+ "`"))
      else Ok ()
  | None => Ok ()
  end.

Definition ensure_source_binding (expected : ResolvedBinding) : res CoreError unit :=
  found ← cv_visible_child view expected.(rb_parent_inode_id) expected.(rb_name_key);
  match found with
  | None =>
      commit_err (BindingPreconditionMissing expected.(rb_parent_inode_id) expected.(rb_name_key))
  | Some existing =>
      if decide (existing.(db_parent_inode_id) ≠ expected.(rb_parent_inode_id) ∨
                 existing.(db_name_key) ≠ expected.(rb_name_key) ∨
                 existing.(db_child_inode_id) ≠ expected.(rb_child_inode_id) ∨
                 existing.(db_bind_position) ≠ expected.(rb_bind_position)) then
        commit_err (BindingPreconditionMismatch
          ("name `" +:+ expected.(rb_name_key) +:+ "` under parent inode `" +:+
           InodeId_to_string expected.(rb_parent_inode_id) +:+ "`")
          (Some expected.(rb_child_inode_id)) (Some existing.(db_child_inode_id)))
      else Ok ()
  end.

Definition ensure_file_base_revision_is (inode_id : InodeId) (expected_revision_no : RevisionNo)
    (operand : CommitOperand) : res CoreError unit :=
  _ ← resolve_inode_kind inode_id File operand;
  found ← cv_latest_revision_record view inode_id;
  let actual := rr_revision_no <$> found in
  if decide (actual ≠ Some expected_revision_no) then
    commit_err (BaseRevisionMismatch inode_id expected_revision_no actual)
  else Ok ().

Definition resolve_current_binding (inode_id : InodeId) (operand : CommitOperand)
    : res CoreError DirentryBindingRecord :=
  found ← cv_current_parent_binding_for_child view inode_id;
  ok_or found (CeCommitValidation (InodeMissing operand inode_id)).

Definition resolve_revision_summary (inode : InodeRecord) : res CoreError (option RevisionSummary) :=
  if decide (inode.(ir_inode_kind) = Directory) then Ok None
  else
    found ← cv_latest_revision_record view inode.(ir_inode_id);
    revision ← ok_or found
      (CeNamespaceCorrupt ("file `" +:+ InodeId_to_string inode.(ir_inode_id) +:+
         "` has no revision to copy into its binding"));
    Ok (Some {| rs_revision_no := revision.(rr_revision_no);
                rs_size_bytes := revision.(rr_content_ref).(cref_size_bytes);
                rs_revision_committed_by := revision.(rr_committed_by);
                rs_revision_committed_at_ms := revision.(rr_committed_at_ms) |}).

Definition resolve_restore_source_revision (inode_id : InodeId) (source_revision_no : RevisionNo)
    : res CoreError RevisionRecord :=
  let missing := CeCommitValidation (RestoreRevisionSourceRevisionMissing inode_id source_revision_no) in
  found ← cv_revision_at_head view inode_id source_revision_no;
  revision ← ok_or found missing;
  let floor_seq := cv_retention_floor_seq view in
  if decide (revision.(rr_committed_seq) ≤ floor_seq) then
    at_floor ← cv_at_seq view floor_seq;
    newest_at_floor ← cv_latest_revision_record at_floor inode_id;
    match newest_at_floor with
    | Some newest =>
        if decide (newest.(rr_revision_no) ≠ revision.(rr_revision_no)) then Err missing
        else Ok revision
    | None => Err missing
    end
  else Ok revision.

Definition ensure_rename_does_not_cycle (inode : InodeRecord) (new_parent_inode_id : InodeId)
    : res CoreError unit :=
  if decide (inode.(ir_inode_kind) = Directory) then
    cycle ← cv_would_create_directory_cycle view inode.(ir_inode_id) new_parent_inode_id;
    if cycle : bool then
      commit_err (RenameWouldCycleDirectory inode.(ir_inode_id) new_parent_inode_id)
    else Ok ()
  else Ok ().
End checks.

(** ** Deltas *)

(** [revision_delta]: the delta of a file's next revision, under the file's
    current binding [edge]. *)
Definition revision_delta (n : CommitNumbering) (edge : DirentryBindingRecord)
    (revision_no : RevisionNo) (content_ref : ContentRef) (append_offset : option N)
    : res CoreError (WalDelta * CommitNumbering) :=
  '(delta_index, n) ← reserve n;
  display_name ← expect (binding_display_name edge);
  Ok (AppendFileRevision delta_index edge.(db_child_inode_id) edge.(db_parent_inode_id)
        edge.(db_name_key) display_name edge.(db_bind_position) edge.(db_child_created_by)
        edge.(db_child_created_at_ms) revision_no content_ref None append_offset, n).

Definition unbind_delta (n : CommitNumbering) (binding : ResolvedBinding) (inode : InodeRecord)
    : res CoreError (WalDelta * CommitNumbering) :=
  '(delta_index, n) ← reserve n;
  Ok (UnbindDirentry delta_index binding.(rb_parent_inode_id) binding.(rb_name_key)
        binding.(rb_display_name) binding.(rb_child_inode_id) inode.(ir_inode_kind)
        inode.(ir_committed_by) inode.(ir_committed_at_ms) binding.(rb_bind_position), n).

Definition delete_deltas (n : CommitNumbering) (inode : InodeRecord) (binding : ResolvedBinding)
    : res CoreError (list WalDelta * CommitNumbering) :=
  '(unbind, n) ← unbind_delta n binding inode;
  '(delta_index, n) ← reserve n;
  Ok ([unbind;
       TombstoneSubtree delta_index inode.(ir_inode_id) inode.(ir_inode_kind)
         {| dlb_parent_inode_id := binding.(rb_parent_inode_id);
            dlb_name_key := binding.(rb_name_key);
            dlb_display_name := binding.(rb_display_name) |}], n).

Definition next_access_revision_no (inode_id : InodeId) (base_access_revision_no : AccessRevisionNo)
    : res CommitValidationError AccessRevisionNo :=
  ok_or (next_public_ordinal base_access_revision_no)
    (UpdateAccessRevisionOverflow inode_id base_access_revision_no).

Definition next_revision_no (inode_id : InodeId) (base_revision_no : RevisionNo)
    : res CommitValidationError RevisionNo :=
  ok_or (next_public_ordinal base_revision_no) (RevisionOverflow inode_id base_revision_no).

Definition next_attributes_revision_no (inode_id : InodeId)
    (base_attributes_revision_no : AttributesRevisionNo)
    : res CommitValidationError AttributesRevisionNo :=
  ok_or (next_public_ordinal base_attributes_revision_no)
    (UpdateAttributesRevisionOverflow inode_id base_attributes_revision_no).

(** ** Validators *)
Section operations.
Context (s : CommitValidationSession V).
Let view := session_view s.

Definition validate_create (child_inode_id parent_inode_id : InodeId) (display_name : DisplayName)
    (child : NewChild) : res CoreError (list WalDelta * CommitNumbering) :=
  name_key ← resolve_name_absent s parent_inode_id display_name None CreateParent;
  _ ← ensure_child_unbound s child_inode_id None;
  _ ← ensure_not_covered_by_tombstone s parent_inode_id CreateParent;
  let '(inode_kind, revision) :=
    match child with
    | NewDirectory => (Directory, None)
    | NewFile content_ref =>
        (File, Some {| rs_revision_no := 1; rs_size_bytes := content_ref.(cref_size_bytes);
                       rs_revision_committed_by := s.(cs_actor_id);
                       rs_revision_committed_at_ms := s.(cs_committed_at_ms) |})
    end in
  '(create_index, n) ← reserve s.(cs_numbering);
  '(bind_index, n) ← reserve n;
  let bind_position := mkDeltaPosition s.(cs_committed_seq) bind_index in
  let deltas :=
    [ CreateInode create_index child_inode_id inode_kind;
      BindDirentry bind_index parent_inode_id name_key display_name child_inode_id inode_kind
        s.(cs_actor_id) s.(cs_committed_at_ms) revision ] in
  match child with
  | NewFile content_ref =>
      '(delta_index, n) ← reserve n;
      Ok (deltas ++
          [AppendFileRevision delta_index child_inode_id parent_inode_id name_key display_name
             bind_position s.(cs_actor_id) s.(cs_committed_at_ms) 1 content_ref None None], n)
  | NewDirectory => Ok (deltas, n)
  end.

Definition validate_replace_file (inode_id : InodeId) (base_revision_no : RevisionNo)
    (content_ref : ContentRef) (append_offset : option N)
    : res CoreError (list WalDelta * CommitNumbering) :=
  _ ← ensure_file_base_revision_is s inode_id base_revision_no ReplaceTarget;
  revision_no ← map_err CeCommitValidation (next_revision_no inode_id base_revision_no);
  _ ← ensure_not_covered_by_tombstone s inode_id ReplaceTarget;
  edge ← resolve_current_binding s inode_id ReplaceTarget;
  '(delta, n) ← revision_delta s.(cs_numbering) edge revision_no content_ref append_offset;
  Ok ([delta], n).

Definition validate_restore_revision (inode_id : InodeId)
    (source_revision_no base_revision_no : RevisionNo)
    : res CoreError (list WalDelta * CommitNumbering) :=
  _ ← ensure_file_base_revision_is s inode_id base_revision_no RestoreTarget;
  source_revision ← resolve_restore_source_revision s inode_id source_revision_no;
  revision_no ← map_err CeCommitValidation (next_revision_no inode_id base_revision_no);
  _ ← ensure_not_covered_by_tombstone s inode_id RestoreTarget;
  edge ← resolve_current_binding s inode_id RestoreTarget;
  '(delta, n) ← revision_delta s.(cs_numbering) edge revision_no
    source_revision.(rr_content_ref) None;
  Ok ([delta], n).

Definition validate_delete_file (inode_id : InodeId) (source_binding : ResolvedBinding)
    : res CoreError (list WalDelta * CommitNumbering) :=
  _ ← ensure_source_binding s source_binding;
  inode ← resolve_inode_kind s inode_id File DeleteTarget;
  _ ← ensure_not_covered_by_tombstone s inode_id DeleteTarget;
  delete_deltas s.(cs_numbering) inode source_binding.

Definition validate_rename (inode_id : InodeId) (source_binding : ResolvedBinding)
    (new_parent_inode_id : InodeId) (new_display_name : DisplayName)
    : res CoreError (list WalDelta * CommitNumbering) :=
  _ ← ensure_source_binding s source_binding;
  found ← cv_inode_at_seq view inode_id;
  inode ← ok_or found (CeCommitValidation (InodeMissing RenameSource inode_id));
  new_name_key ← resolve_name_absent s new_parent_inode_id new_display_name (Some inode_id)
    RenameTargetParent;
  _ ← ensure_child_unbound s inode_id (Some source_binding.(rb_bind_position));
  _ ← ensure_rename_does_not_cycle s inode new_parent_inode_id;
  _ ← ensure_not_covered_by_tombstone s inode_id RenameSource;
  _ ← ensure_not_covered_by_tombstone s new_parent_inode_id RenameTargetParent;
  revision ← resolve_revision_summary s inode;
  '(unbind, n) ← unbind_delta s.(cs_numbering) source_binding inode;
  '(delta_index, n) ← reserve n;
  Ok ([unbind;
       BindDirentry delta_index new_parent_inode_id new_name_key new_display_name inode_id
         inode.(ir_inode_kind) inode.(ir_committed_by) inode.(ir_committed_at_ms) revision], n).

Definition validate_delete_subtree (root_inode_id : InodeId) (source_binding : ResolvedBinding)
    (require_empty : bool) : res CoreError (list WalDelta * CommitNumbering) :=
  _ ← ensure_source_binding s source_binding;
  let operand := if require_empty then EmptyDirectoryTarget else SubtreeRoot in
  inode ← resolve_inode_kind s root_inode_id Directory operand;
  not_empty ← (if require_empty then cv_has_visible_children view root_inode_id else Ok false);
  if not_empty : bool then commit_err (DirectoryNotEmpty root_inode_id)
  else
    _ ← ensure_not_covered_by_tombstone s root_inode_id SubtreeRoot;
    delete_deltas s.(cs_numbering) inode source_binding.

Definition validate_undelete (inode_id : InodeId) (deletion_seq : ChangeSeq)
    (parent_inode_id : InodeId) (display_name : DisplayName)
    : res CoreError (list WalDelta * CommitNumbering) :=
  found ← cv_inode_at_seq view inode_id;
  inode ← ok_or found (CeCommitValidation (InodeMissing UndeleteTarget inode_id));
  deletion ← resolve_recoverable_deletion s inode_id deletion_seq;
  name_key ← resolve_name_absent s parent_inode_id display_name None UndeleteTarget;
  _ ← ensure_child_unbound s inode_id None;
  _ ← ensure_not_covered_by_tombstone s parent_inode_id UndeleteTarget;
  revision ← resolve_revision_summary s inode;
  '(revoke_index, n) ← reserve s.(cs_numbering);
  '(bind_index, n) ← reserve n;
  Ok ([RevokeSubtreeTombstone revoke_index inode_id (tombstone_position deletion);
       BindDirentry bind_index parent_inode_id name_key display_name inode_id
         inode.(ir_inode_kind) inode.(ir_committed_by) inode.(ir_committed_at_ms) revision], n).

Definition validate_update_attributes (inode_id : InodeId)
    (base_attributes_revision_no : AttributesRevisionNo) (attributes : Attributes)
    : res CoreError (list WalDelta * CommitNumbering) :=
  _ ← ensure_target_visible s inode_id AttributeTarget;
  _ ← ensure_inode_attributes_revision_is s inode_id base_attributes_revision_no;
  attributes_revision_no ← map_err CeCommitValidation
    (next_attributes_revision_no inode_id base_attributes_revision_no);
  '(delta_index, n) ← reserve s.(cs_numbering);
  Ok ([AppendAttributesRevision delta_index inode_id attributes_revision_no attributes], n).

Definition validate_update_access (inode_id : InodeId) (base_access_revision_no : AccessRevisionNo)
    (boundary : bool) (grants : AccessGrants) : res CoreError (list WalDelta * CommitNumbering) :=
  _ ← ensure_target_visible s inode_id AccessTarget;
  _ ← ensure_inode_access_revision_is s inode_id base_access_revision_no;
  access_revision_no ← map_err CeCommitValidation
    (next_access_revision_no inode_id base_access_revision_no);
  '(delta_index, n) ← reserve s.(cs_numbering);
  Ok ([AppendAccessRevision delta_index inode_id access_revision_no boundary grants], n).

Definition validate_operation (op : CommitOperation)
    : res CoreError (list WalDelta * CommitNumbering) :=
  match op with
  | CreateDirectory child_inode_id parent_inode_id display_name =>
      validate_create child_inode_id parent_inode_id display_name NewDirectory
  | CreateFile child_inode_id parent_inode_id display_name content_ref =>
      validate_create child_inode_id parent_inode_id display_name (NewFile content_ref)
  | ReplaceFile inode_id base_revision_no content_ref append_offset =>
      validate_replace_file inode_id base_revision_no content_ref append_offset
  | RestoreRevision inode_id source_revision_no base_revision_no =>
      validate_restore_revision inode_id source_revision_no base_revision_no
  | DeleteFile inode_id source_binding => validate_delete_file inode_id source_binding
  | Rename inode_id source_binding new_parent_inode_id new_display_name =>
      validate_rename inode_id source_binding new_parent_inode_id new_display_name
  | DeleteSubtree root_inode_id source_binding require_empty =>
      validate_delete_subtree root_inode_id source_binding require_empty
  | Undelete inode_id deletion_seq parent_inode_id display_name =>
      validate_undelete inode_id deletion_seq parent_inode_id display_name
  | UpdateAttributes inode_id base_attributes_revision_no attributes =>
      validate_update_attributes inode_id base_attributes_revision_no attributes
  | UpdateAccess inode_id base_access_revision_no boundary grants =>
      validate_update_access inode_id base_access_revision_no boundary grants
  end.
End operations.

(** ** The commit *)

(** [*layout = carried_layout.or_else(|| layout.take())] on a revision. *)
Definition carry_layout (revision_layout : ContentRef → option ContentLayout) (delta : WalDelta)
    : WalDelta :=
  match delta with
  | AppendFileRevision delta_index inode_id parent_inode_id name_key display_name bind_position
      child_created_by child_created_at_ms revision_no content_ref layout append_offset =>
      let layout := match revision_layout content_ref with Some carried => Some carried | None => layout end in
      AppendFileRevision delta_index inode_id parent_inode_id name_key display_name bind_position
        child_created_by child_created_at_ms revision_no content_ref layout append_offset
  | delta => delta
  end.

(** One operation of the loop of [CommitValidationSession::validate]. *)
Definition validate_step (revision_layout : ContentRef → option ContentLayout)
    (s : CommitValidationSession V) (op : CommitOperation)
    : res CoreError (list WalCommitDelta * CommitValidationSession V) :=
  '(op_index, n) ← map_err CeCommitValidation (reserve_op_index s.(cs_numbering));
  let s :=
    {| cs_base_view := s.(cs_base_view); cs_batch_accepted := s.(cs_batch_accepted);
       cs_committed_seq := s.(cs_committed_seq); cs_overlay := s.(cs_overlay); cs_numbering := n;
       cs_commit_id := s.(cs_commit_id); cs_actor_id := s.(cs_actor_id);
       cs_committed_at_ms := s.(cs_committed_at_ms) |} in
  '(operation_deltas, n) ← validate_operation s op;
  let operation_deltas := carry_layout revision_layout <$> operation_deltas in
  let overlay :=
    apply_committed_wal_deltas s.(cs_overlay) s.(cs_committed_seq) s.(cs_commit_id)
      s.(cs_actor_id) s.(cs_committed_at_ms) operation_deltas in
  Ok ((λ delta, {| wcd_semantic_operation_index := op_index; wcd_delta := delta |})
        <$> operation_deltas,
      {| cs_base_view := s.(cs_base_view); cs_batch_accepted := s.(cs_batch_accepted);
         cs_committed_seq := s.(cs_committed_seq); cs_overlay := overlay; cs_numbering := n;
         cs_commit_id := s.(cs_commit_id); cs_actor_id := s.(cs_actor_id);
         cs_committed_at_ms := s.(cs_committed_at_ms) |}).

(** [CommitValidationSession::validate]. *)
Fixpoint validate (revision_layout : ContentRef → option ContentLayout)
    (s : CommitValidationSession V) (ops : list CommitOperation)
    : res CoreError (list WalCommitDelta * CommitValidationSession V) :=
  match ops with
  | [] => Ok ([], s)
  | op :: ops =>
      '(deltas, s) ← validate_step revision_layout s op;
      '(rest, s) ← validate revision_layout s ops;
      Ok (deltas ++ rest, s)
  end.
End session.
