(* ===== verification/CommitSafety.v ===== *)
(** * Validated commits keep the namespace sound

    The contract of the view that commit validation reads through
    ([view_serves]), and the theorem that a commit which passes validation
    keeps the namespace invariant and passes the reference model's own check.
    A view may fail to load a segment; it never answers wrongly. *)
From S2P Require Import Prelude Types Records Manifest MetadataState Paths Visibility Errors StateReads.
From S2P Require Import Model Refinement Namespace Bootstrap Numbering Validate.
Local Open Scope N_scope.

(** ** The view's contract *)

(** [m] gives the answer [ref], or fails to load. *)
Definition serves {A} (m ref : res CoreError A) : Prop :=
  m = ref ∨ ∃ e, m = Err (CeManifestLoad e).

Definition lift_error {A} (m : res VisiblePathError A) : res CoreError A :=
  map_err from_visible_path_error m.

Definition revision_order_key (r : RevisionRecord) : RevisionNo * (ChangeSeq * N) :=
  (r.(rr_revision_no), (r.(rr_committed_seq), r.(rr_delta_index))).
Definition attributes_order_key (r : AttributesRevisionRecord) : AttributesRevisionNo * (ChangeSeq * N) :=
  (r.(at_attributes_revision_no), (r.(at_committed_seq), r.(at_delta_index))).
Definition access_order_key (r : AccessRevisionRecord) : AccessRevisionNo * (ChangeSeq * N) :=
  (r.(ac_access_revision_no), (r.(ac_committed_seq), r.(ac_delta_index))).

(** The newest revision row of an inode, and the revision of a number. *)
Definition newest_revision (st : MetadataState) (seq : ChangeSeq) (inode_id : InodeId)
    : option RevisionRecord :=
  max_by_key revision_order_key
    (filter (λ r, r.(rr_inode_id) = inode_id ∧ r.(rr_committed_seq) ≤ seq) st.(ms_revisions)).
Definition numbered_revision (st : MetadataState) (seq : ChangeSeq) (inode_id : InodeId)
    (revision_no : RevisionNo) : option RevisionRecord :=
  max_by_key revision_order_key
    (filter (λ r, r.(rr_inode_id) = inode_id ∧ r.(rr_revision_no) = revision_no ∧
                  r.(rr_committed_seq) ≤ seq) st.(ms_revisions)).
Definition newest_attributes (st : MetadataState) (seq : ChangeSeq) (inode_id : InodeId)
    : option AttributesRevisionRecord :=
  max_by_key attributes_order_key
    (filter (λ r, r.(at_inode_id) = inode_id ∧ r.(at_committed_seq) ≤ seq) st.(ms_attributes_revisions)).
Definition newest_access (st : MetadataState) (seq : ChangeSeq) (inode_id : InodeId)
    : option AccessRevisionRecord :=
  max_by_key access_order_key
    (filter (λ r, r.(ac_inode_id) = inode_id ∧ r.(ac_committed_seq) ≤ seq) st.(ms_access_revisions)).

(** [o] answers for the revision of a number: it is that revision, or none
    when the revision is at or below the floor and another one is the newest
    there, which compaction may have dropped. *)
Definition revision_served (st : MetadataState) (seq floor : ChangeSeq) (i : InodeId) (no : RevisionNo)
    (o : option RevisionRecord) : Prop :=
  o = numbered_revision st seq i no ∨
  (o = None ∧ ∀ r, numbered_revision st seq i no = Some r → r.(rr_committed_seq) ≤ floor ∧
     ∀ newest, newest_revision st floor i = Some newest → newest.(rr_revision_no) ≠ no).

(** The view [v] answers as the rows of [st] at [seq] do. *)
Record view_serves {V} `{CommitView V} (v : V) (st : MetadataState) (seq floor : ChangeSeq) : Prop := {
  vs_floor : cv_retention_floor_seq v = floor;
  vs_inode : ∀ i, serves (cv_inode_at_seq v i) (Ok (inode_at_seq_scan st i seq));
  vs_visible_inode : ∀ i,
    serves (cv_visible_inode v i) (lift_error (reads_visible_inode (reads_at_seq st seq) i));
  vs_visible_child : ∀ p k,
    serves (cv_visible_child v p k)
      (lift_error (visible_child (reads_active_child_binding (reads_at_seq st seq))
         (reads_visible_inode (reads_at_seq st seq)) p k));
  vs_covering : ∀ i,
    serves (cv_covering_subtree_tombstone v i)
      (lift_error (reads_covering_subtree_tombstone (reads_at_seq st seq) i));
  vs_parent : ∀ i,
    serves (cv_current_parent_binding_for_child v i)
      (lift_error (reads_current_parent_binding_for_child (reads_at_seq st seq) i));
  vs_cycle : ∀ i p,
    serves (cv_would_create_directory_cycle v i p)
      (lift_error (would_create_directory_cycle
         (reads_current_parent_binding_for_child (reads_at_seq st seq))
         (walk_fuel (reads_at_seq st seq)) i p));
  vs_recoverable : ∀ i,
    serves (cv_recoverable_deletion v i)
      (Ok (option_filter (λ t, bool_decide (floor < t.(tb_committed_seq)))
             (hiding_subtree_tombstone_scan st i seq)));
  vs_latest_revision : ∀ i, serves (cv_latest_revision_record v i) (Ok (newest_revision st seq i));
  vs_revision_at_head : ∀ i no, ∃ o,
    serves (cv_revision_at_head v i no) (Ok o) ∧ revision_served st seq floor i no o;
  vs_attributes : ∀ i,
    serves (cv_attributes v i)
      (Ok match newest_attributes st seq i with
          | Some r => mkAttributesProjection r.(at_attributes_revision_no) (Some r.(at_committed_by))
                        (Some r.(at_committed_at_ms)) r.(at_attributes)
          | None => mkAttributesProjection 0 None None []
          end);
  vs_access : ∀ i, serves (cv_latest_access_revision v i) (Ok (newest_access st seq i));
  vs_has_children : ∀ p,
    returns (cv_has_visible_children v p) ∧
    ∀ b, cv_has_visible_children v p = Ok b →
      b = true ↔ ∃ k d, visible_child (reads_active_child_binding (reads_at_seq st seq))
        (reads_visible_inode (reads_at_seq st seq)) p k = Ok (Some d);
  vs_at_seq : ∀ s, floor ≤ s → s ≤ seq → ∃ v', cv_at_seq v s = Ok v' ∧
    ∀ i, serves (cv_latest_revision_record v' i) (Ok (newest_revision st s i));
}.

(** ** Stacked states *)

(** The rows of several states together, as [ProjectedWalTail::combined_rows]
    collects them. *)
Definition stack_states `{HeapBytes} (states : list MetadataState) : MetadataState :=
  from_rows (states ≫= ms_inodes) (states ≫= ms_direntry_binds) (states ≫= ms_revisions)
    (states ≫= ms_subtree_tombstones) (states ≫= ms_commit_receipts) (states ≫= ms_commits)
    (states ≫= ms_attributes_revisions) (states ≫= ms_content_layouts)
    (states ≫= ms_access_revisions).

(** ** What the checks establish *)
Section checks.
Context {V : Type} `{CommitView V} `{HeapBytes} `{NamePolicy}.
Context (s : CommitValidationSession V) (st : MetadataState) (seq floor : ChangeSeq) (next : N).
Context (Hok : namespace_ok st seq next) (Hv : view_serves (session_view s) st seq floor).
Abbreviation rd := (reads_at_seq st seq).

Lemma serves_Ok {A} (m ref : res CoreError A) a : serves m ref → m = Ok a → ref = Ok a.
Proof. intros [->|[e ->]]; done. Qed.

Lemma serves_lift {A} (m : res CoreError A) (ref : res VisiblePathError A) a :
  serves m (lift_error ref) → m = Ok a → ref = Ok a.
Proof. intros Hm Ha. apply (map_err_Ok from_visible_path_error). by eapply serves_Ok. Qed.

Lemma inode_at_seq_ok i o : cv_inode_at_seq (session_view s) i = Ok o → inode_at_seq_scan st i seq = o.
Proof using Hv. intros Ho. pose proof (serves_Ok _ _ _ (vs_inode _ _ _ _ Hv i) Ho). congruence. Qed.

Lemma inode_scan_Some i j : inode_at_seq_scan st i seq = Some j →
  j ∈ st.(ms_inodes) ∧ j.(ir_inode_id) = i.
Proof. intros (Hin & Hid & _)%find_first_Some. done. Qed.

Lemma inode_kind_ok i kind operand inode :
  resolve_inode_kind s i kind operand = Ok inode →
  inode_at_seq_scan st i seq = Some inode ∧ inode.(ir_inode_kind) = kind.
Proof using Hv.
  unfold resolve_inode_kind. intros E. step_ok E o Ho. step_ok E j Hj.
  apply ok_or_Ok in Hj as ->. apply inode_at_seq_ok in Ho. case_decide as Hk; [done|].
  injection E as ->. done.
Qed.

Lemma not_covered_ok i operand :
  ensure_not_covered_by_tombstone s i operand = Ok () → reads_covering_subtree_tombstone rd i = Ok None.
Proof using Hv.
  unfold ensure_not_covered_by_tombstone. intros E. step_ok E o Ho.
  destruct o as [t|]; [done|]. by apply (serves_lift _ _ _ (vs_covering _ _ _ _ Hv i)) in Ho.
Qed.

(** The name is free under an uncovered directory, or names the inode that
    is being rebound. *)
Lemma name_absent_ok p name rebinding operand k :
  resolve_name_absent s p name rebinding operand = Ok k →
  reads_covering_subtree_tombstone rd p = Ok None →
  k = for_display_name name ∧
  (∃ i, inode_at_seq_scan st p seq = Some i ∧ i.(ir_inode_kind) = Directory) ∧
  (entry_of st seq p k = None ∨
   ∃ x, entry_of st seq p k = Some x ∧ rebinding = Some x.(db_child_inode_id)).
Proof using Hv Hok.
  unfold resolve_name_absent. intros E Hc. step_ok E i Hi. step_ok E o Ho.
  apply inode_kind_ok in Hi as [Hi Hk].
  apply (serves_lift _ _ _ (vs_visible_child _ _ _ _ Hv _ _)) in Ho.
  rewrite (visible_child_entry st seq next Hok p _ i Hi Hk Hc) in Ho.
  injection Ho as Ho. destruct o as [x|]; [case_decide as Hr; [done|]|];
    injection E as <-; (split; [done|]); (split; [by exists i|]); [right; by exists x|by left].
Qed.

(** The binding the operation names is the slot's current binding. *)
Lemma source_binding_ok b :
  ensure_source_binding s b = Ok () →
  ∃ x, entry_of st seq b.(rb_parent_inode_id) b.(rb_name_key) = Some x ∧
    x.(db_child_inode_id) = b.(rb_child_inode_id) ∧ x.(db_bind_position) = b.(rb_bind_position).
Proof using Hv Hok.
  unfold ensure_source_binding. intros E. step_ok E o Ho. destruct o as [x|]; [|done].
  apply (serves_lift _ _ _ (vs_visible_child _ _ _ _ Hv _ _)) in Ho.
  case_decide as Hx; [done|]. exists x. split; [|split; apply dec_stable; naive_solver].
  by apply (visible_child_is_entry st seq next Hok).
Qed.

(** The child has no current binding, or the one being unbound. *)
Lemma child_unbound_ok c unbinding :
  ensure_child_unbound s c unbinding = Ok () →
  place_of st seq c = None ∨
  ∃ e, place_of st seq c = Some e ∧ unbinding = Some e.(db_bind_position).
Proof using Hv Hok.
  unfold ensure_child_unbound. intros E. step_ok E o Ho.
  apply (serves_lift _ _ _ (vs_parent _ _ _ _ Hv _)) in Ho.
  assert (place_of st seq c = o) as ->.
  { rewrite <-parent_binding_place with (next := next) by done. unfold parent_binding. by rewrite Ho. }
  destruct o as [e|]; [right; exists e|by left]. case_decide; [done|]. done.
Qed.

Lemma current_binding_ok c operand e :
  resolve_current_binding s c operand = Ok e → place_of st seq c = Some e.
Proof using Hv Hok.
  unfold resolve_current_binding. intros E. step_ok E o Ho. apply ok_or_Ok in E as ->.
  apply (serves_lift _ _ _ (vs_parent _ _ _ _ Hv _)) in Ho.
  rewrite <-parent_binding_place with (next := next) by done. unfold parent_binding. by rewrite Ho.
Qed.

(** Only directories are above other inodes. *)
Lemma reaches_directory a b :
  reaches (parent_of st seq) a b → a = b ∨
  ∃ i, inode_at_seq_scan st b seq = Some i ∧ i.(ir_inode_kind) = Directory.
Proof using Hok.
  intros [->|(y & _ & Hy)]%rtc_inv_r; [by left|right]. by apply (ns_parents _ _ _ Hok y).
Qed.

(** The move leaves the new parent outside the moved subtree. *)
Lemma no_cycle_ok inode p i :
  ensure_rename_does_not_cycle s inode p = Ok () →
  inode_at_seq_scan st inode.(ir_inode_id) seq = Some inode →
  inode_at_seq_scan st p seq = Some i → i.(ir_inode_kind) = Directory →
  ¬ reaches (parent_of st seq) p inode.(ir_inode_id).
Proof using Hv Hok.
  unfold ensure_rename_does_not_cycle. intros E Hin Hp Hk. case_decide as Hd.
  - step_ok E b Hb. destruct b; [done|].
    apply (serves_lift _ _ _ (vs_cycle _ _ _ _ Hv _ _)) in Hb.
    pose proof (state_reads_lawful st (ns_rebuilt _ _ _ Hok) (ns_rows _ _ _ Hok) seq).
    apply (cycle_check_spec _ (state_reads_total _)) in Hb as [_ Hb].
    intros Hr. apply Hb. by rewrite above_reaches.
  - intros [->|(j & Hj & Hjk)]%reaches_directory; congruence.
Qed.

Lemma recoverable_ok i deletion_seq t :
  resolve_recoverable_deletion s i deletion_seq = Ok t →
  hiding_subtree_tombstone_scan st i seq = Some t ∧ t.(tb_committed_seq) = deletion_seq ∧
  floor < deletion_seq ∧ t.(tb_committed_seq) < s.(cs_committed_seq).
Proof using Hv.
  unfold resolve_recoverable_deletion. rewrite (vs_floor _ _ _ _ Hv). case_decide as Hf; [done|].
  intros E. step_ok E o Ho. apply (serves_Ok _ _ _ (vs_recoverable _ _ _ _ Hv i)) in Ho.
  injection Ho as Ho. destruct o as [t'|]; [|done]. case_decide; [done|]. case_decide; [done|].
  injection E as ->. destruct (hiding_subtree_tombstone_scan st i seq) as [t'|]; [|done].
  cbn in Ho. case_bool_decide; [|done]. injection Ho as ->. split_and!; [done|done|lia|lia].
Qed.

Lemma entry_child_not_root p k x :
  entry_of st seq p k = Some x → x.(db_child_inode_id) ≠ ROOT_INODE_ID.
Proof using Hok.
  intros (Hx & _)%entry_of_Some. by apply (ok_root_unbound _ (ns_rows _ _ _ Hok)).
Qed.
End checks.

Lemma reserve_Ok n d n' : reserve n = Ok (d, n') →
  d = n.(next_delta_index) ∧ n'.(next_delta_index) = d + 1 ∧
  n'.(next_op_index) = n.(next_op_index) ∧ d < U32_MAX.
Proof.
  unfold reserve, reserve_delta_index. rewrite map_err_Ok. intros E. step_ok E m Hm.
  injection E as <- <-. apply ok_or_Ok in Hm. unfold checked_add in Hm. case_decide; [|done].
  injection Hm as <-. cbn. split_and!; lia.
Qed.

(** ** Validated operations keep the invariant *)

(** The inodes that a delta and that an operation create. *)
Definition delta_created (delta : WalDelta) : list InodeId :=
  match delta with CreateInode _ inode_id _ => [inode_id] | _ => [] end.
Definition op_created (op : CommitOperation) : list InodeId :=
  match op with CreateDirectory c _ _ | CreateFile c _ _ _ => [c] | _ => [] end.

(** Binding a free name to an unbound inode keeps the invariant. *)
Section bind.
Context `{HeapBytes} (st : MetadataState) (seq : ChangeSeq) (next d : N).
Context (Hok : namespace_ok st seq next) (Hd : next ≤ d).
Context (id : CommitId) (actor : ActorId) (ms : N).

(** The row that [BindDirentry] adds. *)
Definition bound_row p k name c kind created_by created_at revision : DirentryBindingRecord :=
  {| db_parent_inode_id := p; db_name_key := k; db_child_inode_id := c; db_child_kind := kind;
     db_child_created_by := created_by; db_child_created_at_ms := created_at;
     db_committed_seq := seq; db_delta_index := d; db_commit_id := id; db_committed_by := actor;
     db_committed_at_ms := ms; db_bind_position := mkDeltaPosition seq d;
     db_state := Bound name revision |}.

Lemma bind_ok p k name c kind created_by created_at revision :
  c ≠ ROOT_INODE_ID → entry_of st seq p k = None → place_of st seq c = None →
  hiding_subtree_tombstone_scan st c seq = None →
  (∃ i, i ∈ st.(ms_inodes) ∧ i.(ir_inode_id) = c ∧ i.(ir_inode_kind) = kind ∧
    i.(ir_committed_by) = created_by ∧ i.(ir_committed_at_ms) = created_at) →
  (∃ i, inode_at_seq_scan st p seq = Some i ∧ i.(ir_inode_kind) = Directory) →
  ¬ reaches (parent_of st seq) p c →
  let st' := apply_committed_wal_delta_mut st seq id actor ms
    (BindDirentry d p k name c kind created_by created_at revision) in
  namespace_ok st' seq (d + 1) ∧
  place_of st' seq c = Some (bound_row p k name c kind created_by created_at revision).
Proof using Hok Hd.
  intros Hroot He Hp Hh Hi Hpi Hr. cbn [apply_committed_wal_delta_mut]. cbv zeta.
  fold (bound_row p k name c kind created_by created_at revision).
  set (row := bound_row _ _ _ _ _ _ _ _).
  assert (is_binding_event row = true) as Hev
    by (unfold is_binding_event; cbn; by rewrite bool_decide_true).
  split; [by apply (push_bind_ok st seq next d row Hok Hd)|].
  rewrite (push_binding_place st seq next d row Hok Hd) by done. by rewrite decide_True.
Qed.
End bind.

(** A revision of a file that has a place keeps the invariant. *)
Section append.
Context `{HeapBytes} (st : MetadataState) (seq : ChangeSeq) (next d : N) (e : DirentryBindingRecord).
Context (Hok : namespace_ok st seq next) (Hd : next ≤ d).
Context (Hplace : place_of st seq e.(db_child_inode_id) = Some e).

Lemma place_position_lt : cmp e.(db_bind_position) (mkDeltaPosition seq d) = Lt.
Proof using Hok Hd Hplace.
  destruct (place_of_Some _ _ _ _ Hplace) as (He & _ & Hev & Hb & _).
  apply (ns_bindings_below _ _ _ Hok) in He. rewrite event_position in He by done.
  by eapply position_lt_le.
Qed.

Lemma place_position_ne : e.(db_bind_position) ≠ mkDeltaPosition seq d.
Proof using Hok Hd Hplace. apply cmp_lt_ne, place_position_lt. Qed.

Lemma append_ok id actor ms name revision_no content_ref layout append_offset :
  e.(db_child_kind) = File → binding_display_name e = Some name →
  namespace_ok
    (apply_committed_wal_delta_mut st seq id actor ms
       (AppendFileRevision d e.(db_child_inode_id) e.(db_parent_inode_id) e.(db_name_key) name
          e.(db_bind_position) e.(db_child_created_by) e.(db_child_created_at_ms) revision_no
          content_ref layout append_offset)) seq (d + 1).
Proof using Hok Hd Hplace.
  intros Hk Hn. cbn [apply_committed_wal_delta_mut]. cbv zeta.
  set (st1 := match layout with Some _ => _ | None => _ end).
  assert (namespace_ok st1 seq next ∧ place_of st1 seq e.(db_child_inode_id) = Some e) as [Hok1 Hp1].
  { destruct layout; [|done]. split; [|done].
    eapply (namespace_ok_ext st); [done..|apply push_layout_rebuilt, Hok|done]. }
  eapply push_summary_ok with (next := next) (e := e); try done.
  - eapply (namespace_ok_ext st1); [done..|apply push_revision_rebuilt, Hok1|done].
  - unfold is_binding_event. cbn. apply bool_decide_eq_false. unfold binding_position. cbn.
    intros Heq. by apply place_position_ne.
Qed.
End append.
Section operations.
Context {V : Type} `{CommitView V} `{HeapBytes} `{NamePolicy}.
Context (s : CommitValidationSession V) (st : MetadataState) (floor : ChangeSeq).
Abbreviation seq := (s.(cs_committed_seq)).
Abbreviation next := (s.(cs_numbering).(next_delta_index)).
Context (Hok : namespace_ok st seq next) (Hv : view_serves (session_view s) st seq floor).
Abbreviation run ds :=
  (apply_committed_wal_deltas st seq s.(cs_commit_id) s.(cs_actor_id) s.(cs_committed_at_ms) ds).

(** The deltas of one operation that creates the inodes [created], with the
    numbering that follows them. *)
Definition sound_deltas (created : list InodeId) (ds : list WalDelta) (n : CommitNumbering) : Prop :=
  namespace_ok (run ds) seq n.(next_delta_index) ∧ Forall (names_earlier_edge seq) ds ∧
  n.(next_op_index) = s.(cs_numbering).(next_op_index) ∧ ds ≫= delta_created = created.

(** An inode identity that no row of the namespace uses. *)
Definition fresh_inode (c : InodeId) : Prop :=
  c ≠ ROOT_INODE_ID ∧ ∀ y, y ∈ st.(ms_inodes) → y.(ir_inode_id) ≠ c.

Lemma fresh_not_above c p i :
  fresh_inode c → inode_at_seq_scan st p seq = Some i → ¬ reaches (parent_of st seq) p c.
Proof using Hok.
  intros [_ Hc] Hp [->|(j & Hj & _)]%(reaches_directory _ _ _ Hok).
  - apply inode_scan_Some in Hp as [Hi Hid]. by destruct (Hc i Hi).
  - apply inode_scan_Some in Hj as [Hi Hid]. by destruct (Hc j Hi).
Qed.

Lemma fresh_not_hidden c : fresh_inode c → hiding_subtree_tombstone_scan st c seq = None.
Proof using Hok.
  intros [_ Hc]. destruct (hiding_subtree_tombstone_scan st c seq) as [t|] eqn:Et; [|done].
  unfold hiding_subtree_tombstone_scan, hiding_tombstone_from_records, newest_tombstone_from_records in Et.
  destruct (max_by_key tombstone_position _) as [t'|] eqn:Em; [|done].
  apply max_by_key_is_max in Em as [Hin _]. rewrite !list_elem_of_filter in Hin.
  destruct Hin as (_ & Hroot & Hin). destruct (ns_tombstone_roots _ _ _ Hok t' Hin) as (i & Hi & Hid). destruct (Hc i Hi). congruence.
Qed.

Lemma create_sound c p name child ds n :
  fresh_inode c → validate_create s c p name child = Ok (ds, n) → sound_deltas [c] ds n.
Proof using Hok Hv.
  intros Hfresh. unfold validate_create. intros E. step_ok E k Hk. step_ok E u Hu. step_ok E u' Hc.
  destruct u, u'. apply (not_covered_ok _ _ _ _ Hv) in Hc.
  destruct (name_absent_ok _ _ _ _ _ Hok Hv _ _ _ _ _ Hk Hc) as (-> & (i & Hi & Hik) & Hentry).
  destruct Hentry as [Hentry|(x & _ & [=])].
  destruct (child_unbound_ok _ _ _ _ _ Hok Hv _ _ Hu) as [Hplace|(e & _ & [=])].
  set (kr := match child with NewDirectory => _ | NewFile content_ref => _ end) in E.
  destruct kr as [kind revision] eqn:Ekr.
  step_ok E r0 H0'. destruct r0 as [d0 n0]. step_ok E r1 H1'. destruct r1 as [d1 n1].
  apply reserve_Ok in H0' as (-> & Hn0 & Ho0 & _). apply reserve_Ok in H1' as (-> & Hn1 & Ho1 & _).
  assert (namespace_ok (run [CreateInode next c kind]) seq next) as Hok1.
  { apply push_inode_ok; [done|apply Hfresh|done]. }
  set (bind := BindDirentry _ _ _ _ _ _ _ _ _) in E.
  set (st2 := run [CreateInode next c kind; bind]).
  assert (namespace_ok st2 seq (next_delta_index n1) ∧
    place_of st2 seq c = Some (bound_row seq (next_delta_index n0) s.(cs_commit_id) s.(cs_actor_id)
      s.(cs_committed_at_ms) p (for_display_name name) name c kind s.(cs_actor_id)
      s.(cs_committed_at_ms) revision)) as [Hok2 Hplace2].
  { rewrite Hn1. apply (bind_ok _ _ next); try done.
    - lia.
    - apply Hfresh.
    - by apply fresh_not_hidden.
    - eexists. split; [apply elem_of_app; right; by apply list_elem_of_singleton|done].
    - exists i. split; [|done]. apply inode_scan_fresh; [apply Hfresh|done|done].
    - by apply (fresh_not_above c p i). }
  destruct child as [|content_ref].
  - injection E as <- <-. injection Ekr as <- <-. split_and!; [done|repeat constructor|congruence|done].
  - injection Ekr as <- <-. step_ok E r2 H2'. destruct r2 as [d2 n2]. injection E as <- <-.
    apply reserve_Ok in H2' as (-> & Hn2 & Ho2 & _). split_and!.
    + rewrite Hn2. match type of Hplace2 with _ = Some ?e =>
        by apply (append_ok st2 seq _ _ e Hok2 (N.le_refl _) Hplace2) end.
    + repeat constructor. cbn. intros [=]. lia.
    + congruence.
    + done.
Qed.

Lemma unbind_Ok n b inode d n' : unbind_delta n b inode = Ok (d, n') →
  d = UnbindDirentry n.(next_delta_index) b.(rb_parent_inode_id) b.(rb_name_key)
        b.(rb_display_name) b.(rb_child_inode_id) inode.(ir_inode_kind) inode.(ir_committed_by)
        inode.(ir_committed_at_ms) b.(rb_bind_position) ∧
  n'.(next_delta_index) = n.(next_delta_index) + 1 ∧ n'.(next_op_index) = n.(next_op_index).
Proof.
  unfold unbind_delta. intros E. step_ok E r Hr. destruct r as [d0 n0].
  apply reserve_Ok in Hr as (-> & Hn & Ho & _). injection E as <- <-. done.
Qed.

(** Unbinding the binding that the operation names leaves its child without a
    place, and every other place and entry as it was. *)
Lemma unbind_ok b inode d n' :
  ensure_source_binding s b = Ok () → unbind_delta s.(cs_numbering) b inode = Ok (d, n') →
  let st' := run [d] in
  namespace_ok st' seq n'.(next_delta_index) ∧
  place_of st' seq b.(rb_child_inode_id) = None ∧
  entry_of st' seq b.(rb_parent_inode_id) b.(rb_name_key) = None ∧
  (∀ p k, (p, k) ≠ (b.(rb_parent_inode_id), b.(rb_name_key)) →
    entry_of st' seq p k = entry_of st seq p k) ∧
  (∀ a c, reaches (parent_of st' seq) a c → reaches (parent_of st seq) a c).
Proof using Hok Hv.
  intros (x & Hx & Hxc & Hxb)%(source_binding_ok _ _ _ _ _ Hok Hv) (-> & Hn & _)%unbind_Ok. cbv zeta.
  cbn [apply_committed_wal_deltas foldl apply_committed_wal_delta_mut]. rewrite Hn.
  set (row := mkDirentryBindingRecord _ _ _ _ _ _ _ _ _ _ _ _ _).
  assert (binding_position row = mkDeltaPosition seq next) as Hpos by done.
  pose proof (push_binding_slot st seq next _ row Hok (N.le_refl _) Hpos) as Hslot.
  split_and!.
  - apply (push_unbind_ok st seq next _ row Hok (N.le_refl _) Hpos x); try done.
    cbn. rewrite <-Hxc. by apply (entry_child_not_root _ _ _ Hok _ _ _ Hx).
  - rewrite (push_binding_place st seq next _ row Hok (N.le_refl _) Hpos). by rewrite decide_True.
  - unfold entry_of. rewrite Hslot. by rewrite decide_True.
  - intros p k Hne. unfold entry_of. rewrite Hslot. by rewrite decide_False by auto.
  - intros a c. apply rtc_subrel. intros y z.
    rewrite (parent_of_push st seq next _ row Hok (N.le_refl _) Hpos). by case_decide.
Qed.

Lemma delete_sound inode b ds n :
  ensure_source_binding s b = Ok () → b.(rb_child_inode_id) = inode.(ir_inode_id) →
  inode ∈ st.(ms_inodes) → delete_deltas s.(cs_numbering) inode b = Ok (ds, n) → sound_deltas [] ds n.
Proof using Hok Hv.
  intros Hb Hchild Hin E. unfold delete_deltas in E. step_ok E r Hr. destruct r as [u n1].
  step_ok E r H1'. destruct r as [d1 n2]. apply reserve_Ok in H1' as (-> & Hn2 & Ho2 & _).
  destruct (unbind_ok _ _ _ _ Hb Hr) as (Hok1 & Hplace & _).
  destruct (unbind_Ok _ _ _ _ _ Hr) as (-> & _ & Ho1). injection E as <- <-.
  apply (source_binding_ok _ _ _ _ _ Hok Hv) in Hb as (x & Hx & Hxc & _). split_and!.
  - rewrite Hn2. apply (push_tombstone_ok _ _ _ _ _ Hok1); [lia|done| |].
    + intros _. cbn. rewrite <-Hchild. split; [done|]. rewrite <-Hxc. by apply (entry_child_not_root _ _ _ Hok _ _ _ Hx).
    + exists inode. done.
  - repeat constructor.
  - congruence.
  - done.
Qed.

(** The edge of a file's current binding. *)
Lemma place_file c e i :
  place_of st seq c = Some e → inode_at_seq_scan st c seq = Some i → i.(ir_inode_kind) = File →
  e.(db_child_inode_id) = c ∧ e.(db_child_kind) = File ∧ is_Some (binding_display_name e).
Proof using Hok.
  intros Hp Hi Hk. destruct (place_of_Some _ _ _ _ Hp) as (He & Hc & _ & Hb & _).
  split; [done|]. split; [|by apply is_bound_display_name].
  destruct (ns_children _ _ _ Hok e He Hb) as (j & Hj & Hjc & Hjk & _).
  destruct (inode_scan_Some _ _ _ _ Hi) as [Hin Hid].
  rewrite <-Hjk, <-Hk. f_equal.
  apply (NoDup_fmap_elem ir_inode_id (ms_inodes st)); [apply (ns_rows _ _ _ Hok)|done|done|congruence].
Qed.

Lemma revision_sound inode_id e i revision_no content_ref append_offset d n :
  place_of st seq inode_id = Some e → inode_at_seq_scan st inode_id seq = Some i →
  i.(ir_inode_kind) = File →
  revision_delta s.(cs_numbering) e revision_no content_ref append_offset = Ok (d, n) →
  sound_deltas [] [d] n.
Proof using Hok.
  intros Hp Hi Hk E. destruct (place_file _ _ _ Hp Hi Hk) as (<- & Hfile & [name Hname]).
  unfold revision_delta in E. step_ok E r Hr. destruct r as [d0 n0].
  apply reserve_Ok in Hr as (-> & Hn & Ho & _). rewrite Hname in E. injection E as <- <-. split_and!.
  - rewrite Hn. by apply (append_ok st seq next _ e Hok (N.le_refl _) Hp).
  - repeat constructor. by apply (place_position_ne st seq next _ e Hok).
  - done.
  - done.
Qed.

Lemma base_revision_ok inode_id base operand :
  ensure_file_base_revision_is s inode_id base operand = Ok () →
  (∃ i, inode_at_seq_scan st inode_id seq = Some i ∧ i.(ir_inode_kind) = File) ∧
  rr_revision_no <$> newest_revision st seq inode_id = Some base.
Proof using Hv.
  unfold ensure_file_base_revision_is. intros E. step_ok E i Hi. step_ok E o Ho.
  apply (inode_kind_ok _ _ _ _ Hv) in Hi as [Hi Hk].
  apply (serves_Ok _ _ _ (vs_latest_revision _ _ _ _ Hv _)) in Ho. injection Ho as Ho.
  split; [by exists i|]. rewrite Ho. by case_decide.
Qed.

Lemma replace_sound inode_id base content_ref append_offset ds n :
  validate_replace_file s inode_id base content_ref append_offset = Ok (ds, n) → sound_deltas [] ds n.
Proof using Hok Hv.
  unfold validate_replace_file. intros E. step_ok E u Hu. destruct u. step_ok E no Hno.
  step_ok E u Hc. step_ok E e He. step_ok E r Hr. destruct r as [d n0]. injection E as <- <-.
  apply base_revision_ok in Hu as [(i & Hi & Hk) _].
  apply (current_binding_ok _ _ _ _ _ Hok Hv) in He. by eapply revision_sound.
Qed.

Lemma restore_sound inode_id source base ds n :
  validate_restore_revision s inode_id source base = Ok (ds, n) → sound_deltas [] ds n.
Proof using Hok Hv.
  unfold validate_restore_revision. intros E. step_ok E u Hu. destruct u. step_ok E src Hsrc.
  step_ok E no Hno. step_ok E u Hc. step_ok E e He. step_ok E r Hr. destruct r as [d n0].
  injection E as <- <-. apply base_revision_ok in Hu as [(i & Hi & Hk) _].
  apply (current_binding_ok _ _ _ _ _ Hok Hv) in He. by eapply revision_sound.
Qed.

Lemma rename_sound inode_id b p name ds n :
  b.(rb_child_inode_id) = inode_id → validate_rename s inode_id b p name = Ok (ds, n) →
  sound_deltas [] ds n.
Proof using Hok Hv.
  intros Hb. unfold validate_rename. intros E. step_ok E u Hsrc. destruct u. step_ok E o Ho.
  step_ok E inode Hin. apply ok_or_Ok in Hin as ->. step_ok E k Hk. step_ok E u1 Hunb.
  step_ok E u2 Hcyc. step_ok E u3 Hcov. step_ok E u4 Hpcov. step_ok E no Hno.
  destruct u1, u2, u3, u4. step_ok E r Hr. destruct r as [d n1].
  step_ok E r H1'. destruct r as [d1 n2]. injection E as <- <-.
  apply reserve_Ok in H1' as (-> & Hn2 & Ho2 & _).
  apply (inode_at_seq_ok _ _ _ _ Hv) in Ho. destruct (inode_scan_Some _ _ _ _ Ho) as [Hin Hid].
  apply (not_covered_ok _ _ _ _ Hv) in Hcov, Hpcov.
  destruct (name_absent_ok _ _ _ _ _ Hok Hv _ _ _ _ _ Hk Hpcov) as (-> & (i & Hi & Hik) & Hentry).
  assert (¬ reaches (parent_of st seq) p inode_id) as Hnr.
  { rewrite <-Hid in Ho |- *. by eapply (no_cycle_ok _ _ _ _ _ Hok Hv). }
  destruct (unbind_ok _ _ _ _ Hsrc Hr) as (Hok1 & Hplace & Hent & Hother & Hreach).
  destruct (unbind_Ok _ _ _ _ _ Hr) as (Hd & _ & Ho1).
  destruct (source_binding_ok _ _ _ _ _ Hok Hv _ Hsrc) as (x & Hx & Hxc & _). split_and!.
  - rewrite Hn2. subst d. eapply (bind_ok _ _ _ _ Hok1); [lia|..]; cbn [foldl].
    + rewrite <-Hb, <-Hxc. by apply (entry_child_not_root _ _ _ Hok _ _ _ Hx).
    + destruct (decide ((p, for_display_name name) = (rb_parent_inode_id b, rb_name_key b))) as [Heq|Hne].
      { injection Heq as -> ->. done. }
      etrans; [by apply Hother|]. destruct Hentry as [->|(y & Hy & Hyc)]; [done|].
      destruct (entry_place _ _ _ Hok _ _ _ Hy) as (e & He & Hs & _).
      destruct (entry_place _ _ _ Hok _ _ _ Hx) as (e' & He' & Hs' & _). congruence.
    + by rewrite <-Hb.
    + apply (uncovered st seq next Hok inode_id); [done|apply rtc_refl].
    + by exists inode.
    + by exists i.
    + intros Hr'. apply Hnr, Hreach, Hr'.
  - subst d. repeat constructor.
  - congruence.
  - by subst d.
Qed.

Lemma undelete_sound inode_id deletion_seq p name ds n :
  validate_undelete s inode_id deletion_seq p name = Ok (ds, n) → sound_deltas [] ds n.
Proof using Hok Hv.
  unfold validate_undelete. intros E. step_ok E o Ho. step_ok E inode Hin.
  apply ok_or_Ok in Hin as ->. step_ok E t Ht. step_ok E k Hk. step_ok E u1 Hunb. step_ok E u2 Hpcov.
  step_ok E no Hno. destruct u1, u2. step_ok E r H0'. destruct r as [d0 n0].
  step_ok E r H1'. destruct r as [d1 n1]. injection E as <- <-.
  apply reserve_Ok in H0' as (-> & Hn0 & Ho0 & _). apply reserve_Ok in H1' as (-> & Hn1 & Ho1 & _).
  apply (inode_at_seq_ok _ _ _ _ Hv) in Ho. destruct (inode_scan_Some _ _ _ _ Ho) as [Hin Hid].
  apply (recoverable_ok _ _ _ _ Hv) in Ht as (Ht & _). apply (not_covered_ok _ _ _ _ Hv) in Hpcov.
  destruct (name_absent_ok _ _ _ _ _ Hok Hv _ _ _ _ _ Hk Hpcov) as (-> & Hi & Hentry).
  destruct Hentry as [Hentry|(x & _ & [=])].
  destruct (ns_hidden _ _ _ Hok inode_id) as [Hplace Hroot]; [by rewrite Ht|].
  assert (namespace_ok (run [RevokeSubtreeTombstone next inode_id (tombstone_position t)]) seq
    (next_delta_index n0)) as Hok1.
  { rewrite Hn0. apply (push_tombstone_ok _ _ _ _ _ Hok); [lia|done|done|]. by exists inode. }
  split_and!.
  - rewrite Hn1. eapply (bind_ok _ _ _ _ Hok1); [lia|done|done|done| |by exists inode|done|].
    + etrans; [apply tombstone_scan_push; [|done]|by rewrite decide_True].
      intros y Hy%(ns_tombstones_below _ _ _ Hok). by apply lt_kle.
    + intros Hr. by rewrite (uncovered st seq next Hok p inode_id Hpcov Hr) in Ht.
  - repeat constructor.
  - congruence.
  - done.
Qed.

Lemma attributes_sound inode_id base attributes ds n :
  validate_update_attributes s inode_id base attributes = Ok (ds, n) → sound_deltas [] ds n.
Proof using Hok.
  unfold validate_update_attributes. intros E. step_ok E u1 H1'. step_ok E u2 H2'. step_ok E no Hno.
  step_ok E r Hr. destruct r as [d n0]. injection E as <- <-.
  apply reserve_Ok in Hr as (-> & Hn & Ho & _). split_and!; [|repeat constructor|done|done].
  rewrite Hn. eapply (namespace_ok_ext st); [done..| |].
  - apply apply_delta_rebuilt, Hok.
  - eapply namespace_ok_next; [done|lia].
Qed.

Lemma access_sound inode_id base boundary grants ds n :
  validate_update_access s inode_id base boundary grants = Ok (ds, n) → sound_deltas [] ds n.
Proof using Hok.
  unfold validate_update_access. intros E. step_ok E u1 H1'. step_ok E u2 H2'. step_ok E no Hno.
  step_ok E r Hr. destruct r as [d n0]. injection E as <- <-.
  apply reserve_Ok in Hr as (-> & Hn & Ho & _). split_and!; [|repeat constructor|done|done].
  rewrite Hn. eapply (namespace_ok_ext st); [done..| |].
  - apply apply_delta_rebuilt, Hok.
  - eapply namespace_ok_next; [done|lia].
Qed.

(** What the planner guarantees of an operation: a created inode's identity
    is fresh, and a binding that an operation names is its target's. *)
Definition planned (op : CommitOperation) : Prop :=
  match op with
  | CreateDirectory c _ _ | CreateFile c _ _ _ => fresh_inode c
  | DeleteFile inode_id b | Rename inode_id b _ _ | DeleteSubtree inode_id b _ =>
      b.(rb_child_inode_id) = inode_id
  | _ => True
  end.

Lemma operation_sound op ds n :
  planned op → validate_operation s op = Ok (ds, n) → sound_deltas (op_created op) ds n.
Proof using Hok Hv.
  destruct op; cbn [planned validate_operation]; intros Hp E.
  - by eapply create_sound.
  - by eapply create_sound.
  - by eapply replace_sound.
  - by eapply restore_sound.
  - unfold validate_delete_file in E. step_ok E u Hu. step_ok E i Hi. step_ok E u' Hc. destruct u, u'.
    apply (inode_kind_ok _ _ _ _ Hv) in Hi as [[Hi Hid]%inode_scan_Some _].
    apply (delete_sound i _ _ _ Hu); [congruence|done|done].
  - by eapply rename_sound.
  - unfold validate_delete_subtree in E. step_ok E u Hu. step_ok E i Hi. step_ok E ne Hne.
    destruct ne; [done|]. step_ok E u' Hc. destruct u, u'.
    apply (inode_kind_ok _ _ _ _ Hv) in Hi as [[Hi Hid]%inode_scan_Some _].
    apply (delete_sound i _ _ _ Hu); [congruence|done|done].
  - by eapply undelete_sound.
  - by eapply attributes_sound.
  - by eapply access_sound.
Qed.

(** The operations number an inode's revisions upwards. *)
Context (Hnum : numbering_ok st seq next).

Lemma numbers_upto {A K} `{TotalOrd K} (key : A → K) (id : A → InodeId) (no : A → N) (committed : A → ChangeSeq) (position : A → DeltaPosition) rows i newest :
  numbered id no position rows seq next → (∀ a, committed a = (position a).(dp_seq)) →
  (∀ a b, kle (key a) (key b) → no a ≤ no b) →
  max_by_key key (filter (λ r, id r = i ∧ committed r ≤ seq) rows) = newest →
  ∀ a, a ∈ rows → id a = i → ∃ r, newest = Some r ∧ no a ≤ no r.
Proof using Type.
  intros Hn Hc Hk Hmax a Ha Hid. assert (a ∈ filter (λ r, id r = i ∧ committed r ≤ seq) rows) as Hin.
  { apply list_elem_of_filter. split_and!; [done| |done]. pose proof (nb_below _ _ _ _ _ _ Hn a Ha) as Hlt.
    rewrite Hc. unfold cmp, DeltaPosition_ord, cmp, prod_ord, cmp, N_ord in Hlt. cbn in Hlt.
    destruct (N.compare_spec (dp_seq (position a)) seq); [lia|lia|done]. }
  destruct newest as [r|]; [|apply max_by_key_None in Hmax; rewrite Hmax in Hin; by apply elem_of_nil in Hin].
  exists r. split; [done|]. apply max_by_key_is_max in Hmax as [_ Hmax]. by apply Hk, Hmax.
Qed.

Lemma first_le (a b : N) (x y : ChangeSeq * N) : kle (a, x) (b, y) → a ≤ b.
Proof using Type.
  unfold kle, cmp, prod_ord. cbn [fst snd]. unfold cmp at 1, N_ord. destruct (N.compare_spec a b); cbn; [lia..|done].
Qed.

Lemma revision_numbers inode_id e i base no content_ref append_offset d n :
  place_of st seq inode_id = Some e → inode_at_seq_scan st inode_id seq = Some i → i.(ir_inode_kind) = File →
  rr_revision_no <$> newest_revision st seq inode_id = Some base → next_public_ordinal base = Some no →
  revision_delta s.(cs_numbering) e no content_ref append_offset = Ok (d, n) →
  numbering_ok (run [d]) seq n.(next_delta_index).
Proof using Hok Hnum.
  intros Hp Hi Hk Hbase Hno E. destruct (place_file _ _ _ Hp Hi Hk) as (<- & Hfile & [name Hname]).
  unfold revision_delta in E. step_ok E r Hr. destruct r as [d0 n0].
  apply reserve_Ok in Hr as (-> & Hn & Ho & _). rewrite Hname in E. injection E as <- <-. rewrite Hn.
  apply inode_scan_Some in Hi as [Hi Hid]. apply next_public_ordinal_lt in Hno.
  apply (numbering_revision st seq next); [done|lia|by exists i|]. intros a Ha Hia.
  destruct (numbers_upto revision_order_key _ _ rr_committed_seq _ _ (db_child_inode_id e) _ (nu_revisions _ _ _ Hnum)
    (λ _, eq_refl) (λ a b, first_le _ _ _ _) eq_refl a Ha Hia) as (r & Er & Hle).
  change (newest_revision st seq (db_child_inode_id e) = Some r) in Er. rewrite Er in Hbase. injection Hbase as <-. lia.
Qed.

Lemma same_numbers ds n :
  Forall adds_no_number ds → next ≤ n.(next_delta_index) → numbering_ok (run ds) seq n.(next_delta_index).
Proof using Hnum. intros Hds Hle. eapply numbering_later; [by apply numbering_same|]. by right. Qed.

Lemma delete_numbers i b ds n :
  delete_deltas s.(cs_numbering) i b = Ok (ds, n) → numbering_ok (run ds) seq n.(next_delta_index).
Proof using Hnum.
  intros E. unfold delete_deltas in E. step_ok E r Hr. destruct r as [u n1]. step_ok E r H1'. destruct r as [d1 n2].
  apply unbind_Ok in Hr as (-> & Hn1 & _). apply reserve_Ok in H1' as (-> & Hn2 & _). injection E as <- <-.
  apply same_numbers; [repeat constructor|lia].
Qed.

Lemma create_numbers c p name child ds n :
  fresh_inode c → validate_create s c p name child = Ok (ds, n) → numbering_ok (run ds) seq n.(next_delta_index).
Proof using Hnum.
  intros [_ Hfresh] E. unfold validate_create in E. step_ok E k Hk. step_ok E u Hu. step_ok E u' Hc.
  set (kr := match child with NewDirectory => _ | NewFile content_ref => _ end) in E. destruct kr as [kind revision].
  step_ok E r0 H0'. destruct r0 as [d0 n0]. step_ok E r1 H1'. destruct r1 as [d1 n1].
  apply reserve_Ok in H0' as (-> & Hn0 & _). apply reserve_Ok in H1' as (-> & Hn1 & _).
  destruct child as [|content_ref]; [injection E as <- <-; apply same_numbers; [repeat constructor|lia]|].
  step_ok E r2 H2'. destruct r2 as [d2 n2]. apply reserve_Ok in H2' as (-> & Hn2 & _). injection E as <- <-. rewrite Hn2.
  cbn [app apply_committed_wal_deltas foldl]. apply (numbering_revision _ _ next); [|lia| |].
  - apply (numbering_same st seq next s.(cs_commit_id) s.(cs_actor_id) s.(cs_committed_at_ms) [CreateInode next c kind;
      BindDirentry (next_delta_index n0) p k name c kind s.(cs_actor_id) s.(cs_committed_at_ms) revision]); [repeat constructor|done].
  - eexists. split; [cbn; apply elem_of_app; right; by apply list_elem_of_singleton|done].
  - cbn. intros a Ha Hac. destruct (nu_owned _ _ _ Hnum a Ha) as (i & Hi & Hid). destruct (Hfresh i Hi). congruence.
Qed.

Lemma attributes_numbers inode_id base attributes ds n :
  validate_update_attributes s inode_id base attributes = Ok (ds, n) → numbering_ok (run ds) seq n.(next_delta_index).
Proof using Hv Hnum.
  intros E. unfold validate_update_attributes in E. step_ok E u1 H1'. step_ok E u2 H2'. step_ok E no Hno. step_ok E r Hr.
  destruct r as [d n0]. injection E as <- <-. apply reserve_Ok in Hr as (-> & Hn & _). rewrite Hn.
  apply map_err_Ok, ok_or_Ok, next_public_ordinal_lt in Hno. apply (numbering_attributes st seq next); [done|lia|].
  intros a Ha Hia. unfold ensure_inode_attributes_revision_is in H2'. step_ok H2' att Hap. case_decide as Hd; [done|].
  apply (serves_Ok _ _ _ (vs_attributes _ _ _ _ Hv inode_id)) in Hap. apply Ok_inj in Hap as <-.
  destruct (numbers_upto attributes_order_key _ _ at_committed_seq _ _ inode_id _ (nu_attributes _ _ _ Hnum)
    (λ _, eq_refl) (λ a b, first_le _ _ _ _) eq_refl a Ha Hia) as (r & Er & Hle).
  change (newest_attributes st seq inode_id = Some r) in Er. rewrite Er in Hd. cbn in Hd. lia.
Qed.

Lemma access_numbers inode_id base boundary grants ds n :
  validate_update_access s inode_id base boundary grants = Ok (ds, n) → numbering_ok (run ds) seq n.(next_delta_index).
Proof using Hv Hnum.
  intros E. unfold validate_update_access in E. step_ok E u1 H1'. step_ok E u2 H2'. step_ok E no Hno. step_ok E r Hr.
  destruct r as [d n0]. injection E as <- <-. apply reserve_Ok in Hr as (-> & Hn & _). rewrite Hn.
  apply map_err_Ok, ok_or_Ok, next_public_ordinal_lt in Hno. apply (numbering_access st seq next); [done|lia|].
  intros a Ha Hia. unfold ensure_inode_access_revision_is in H2'. step_ok H2' o Ho. case_decide as Hd; [done|].
  apply (serves_Ok _ _ _ (vs_access _ _ _ _ Hv inode_id)) in Ho. apply Ok_inj in Ho as <-.
  destruct (numbers_upto access_order_key _ _ ac_committed_seq _ _ inode_id _ (nu_access _ _ _ Hnum)
    (λ _, eq_refl) (λ a b, first_le _ _ _ _) eq_refl a Ha Hia) as (r & Er & Hle).
  change (newest_access st seq inode_id = Some r) in Er. rewrite Er in Hd. cbn in Hd. lia.
Qed.

Lemma operation_numbered op ds n :
  planned op → validate_operation s op = Ok (ds, n) → numbering_ok (run ds) seq n.(next_delta_index).
Proof using Hok Hv Hnum.
  destruct op; cbn [planned validate_operation]; intros Hp E.
  - by eapply create_numbers.
  - by eapply create_numbers.
  - unfold validate_replace_file in E. step_ok E u Hu. destruct u. step_ok E no Hno. step_ok E u Hc. step_ok E e He.
    step_ok E r Hr. destruct r as [d n0]. injection E as <- <-. apply base_revision_ok in Hu as [(i & Hi & Hk) Hbase].
    apply (current_binding_ok _ _ _ _ _ Hok Hv) in He. apply map_err_Ok, ok_or_Ok in Hno. by eapply revision_numbers.
  - unfold validate_restore_revision in E. step_ok E u Hu. destruct u. step_ok E src Hsrc. step_ok E no Hno. step_ok E u Hc.
    step_ok E e He. step_ok E r Hr. destruct r as [d n0]. injection E as <- <-. apply base_revision_ok in Hu as [(i & Hi & Hk) Hbase].
    apply (current_binding_ok _ _ _ _ _ Hok Hv) in He. apply map_err_Ok, ok_or_Ok in Hno. by eapply revision_numbers.
  - unfold validate_delete_file in E. step_ok E u Hu. step_ok E i Hi. step_ok E u' Hc. by eapply delete_numbers.
  - unfold validate_rename in E. step_ok E u Hsrc. step_ok E o Ho. step_ok E inode Hin. step_ok E k Hk. step_ok E u1 Hunb.
    step_ok E u2 Hcyc. step_ok E u3 Hcov. step_ok E u4 Hpcov. step_ok E rs Hrs. step_ok E r Hr. destruct r as [d n1].
    step_ok E r H1'. destruct r as [d1 n2]. injection E as <- <-. apply unbind_Ok in Hr as (-> & Hn1 & _).
    apply reserve_Ok in H1' as (-> & Hn2 & _). apply same_numbers; [repeat constructor|lia].
  - unfold validate_delete_subtree in E. step_ok E u Hu. step_ok E i Hi. step_ok E ne Hne. destruct ne; [done|].
    step_ok E u' Hc. by eapply delete_numbers.
  - unfold validate_undelete in E. step_ok E o Ho. step_ok E inode Hin. step_ok E t Ht. step_ok E k Hk. step_ok E u1 Hunb.
    step_ok E u2 Hpcov. step_ok E rs Hrs. step_ok E r H0'. destruct r as [d0 n0]. step_ok E r H1'. destruct r as [d1 n1].
    injection E as <- <-. apply reserve_Ok in H0' as (-> & Hn0 & _). apply reserve_Ok in H1' as (-> & Hn1 & _).
    apply same_numbers; [repeat constructor|lia].
  - by eapply attributes_numbers.
  - by eapply access_numbers.
Qed.
End operations.

(** ** Validation answers

    Over a view that serves a sound namespace, validation returns deltas or
    an error: no [expect] fails and no walk runs on. *)
Section answers.
Context {V : Type} `{CommitView V} `{HeapBytes} `{NamePolicy}.
Context (s : CommitValidationSession V) (st : MetadataState) (floor : ChangeSeq).
Abbreviation seq := (s.(cs_committed_seq)).
Abbreviation next := (s.(cs_numbering).(next_delta_index)).
Context (Hok : namespace_ok st seq next) (Hv : view_serves (session_view s) st seq floor).
Context (Hfloor : floor ≤ seq).

Lemma serves_returns {A} (m ref : res CoreError A) : serves m ref → returns ref → returns m.
Proof. by intros [->|[e ->]]. Qed.

Lemma serves_lift_returns {A} (m : res CoreError A) (ref : res VisiblePathError A) :
  serves m (lift_error ref) → returns ref → returns m.
Proof. intros Hm Href. eapply serves_returns; [done|]. by apply returns_map_err. Qed.

Lemma reserve_returns n : returns (reserve n).
Proof. apply returns_map_err, returns_bind; [apply returns_ok_or|done]. Qed.

Lemma revision_at_head_returns i no : returns (cv_revision_at_head (session_view s) i no).
Proof using Hv. destruct (vs_revision_at_head _ _ _ _ Hv i no) as (o & Ho & _). by eapply serves_returns. Qed.

(** Takes one step of a validator: a lookup of the view, then the rest. *)
Ltac answer :=
  first
  [ done
  | apply returns_bind; [|intros ? ?; cbv beta]
  | apply returns_ok_or
  | apply reserve_returns
  | apply returns_map_err
  | eapply serves_returns; [apply (vs_inode _ _ _ _ Hv)|done]
  | eapply serves_returns; [apply (vs_recoverable _ _ _ _ Hv)|done]
  | eapply serves_returns; [apply (vs_latest_revision _ _ _ _ Hv)|done]
  | apply revision_at_head_returns
  | eapply serves_returns; [apply (vs_attributes _ _ _ _ Hv)|done]
  | eapply serves_returns; [apply (vs_access _ _ _ _ Hv)|done]
  | apply (vs_has_children _ _ _ _ Hv)
  | eapply serves_lift_returns; [apply (vs_visible_inode _ _ _ _ Hv)|
      apply (visible_inode_returns _ (state_reads_total _))]
  | eapply serves_lift_returns; [apply (vs_visible_child _ _ _ _ Hv)|
      apply (visible_child_returns _ (state_reads_total _))]
  | eapply serves_lift_returns; [apply (vs_covering _ _ _ _ Hv)|
      apply (covering_returns _ (state_reads_total _))]
  | eapply serves_lift_returns; [apply (vs_cycle _ _ _ _ Hv)|
      apply (cycle_check_returns _ (state_reads_total _))]
  | eapply serves_lift_returns; [apply (vs_parent _ _ _ _ Hv)|
      cbn [reads_current_parent_binding_for_child MetadataStateReads_reads];
      by rewrite (sr_current_parent st (ns_rebuilt _ _ _ Hok) (ns_rows _ _ _ Hok))]
  | case_match
  | case_decide ].

Context (Hlaws : VisibilityLaws (reads_at_seq st seq)).

Lemma inode_kind_answers i kind operand : returns (resolve_inode_kind s i kind operand).
Proof using Hv. unfold resolve_inode_kind, commit_err. repeat answer. Qed.

Lemma name_absent_answers p name rebinding operand :
  returns (resolve_name_absent s p name rebinding operand).
Proof using Hv Hlaws.
  unfold resolve_name_absent, commit_err. apply returns_bind; [apply inode_kind_answers|]. intros _ _.
  repeat answer.
Qed.

Lemma not_covered_answers i operand : returns (ensure_not_covered_by_tombstone s i operand).
Proof using Hv Hlaws. unfold ensure_not_covered_by_tombstone, commit_err. repeat answer. Qed.

Lemma child_unbound_answers i unbinding : returns (ensure_child_unbound s i unbinding).
Proof using Hok Hv. unfold ensure_child_unbound. repeat answer. Qed.

Lemma source_binding_answers b : returns (ensure_source_binding s b).
Proof using Hv Hlaws. unfold ensure_source_binding, commit_err. repeat answer. Qed.

Lemma base_revision_answers i base operand : returns (ensure_file_base_revision_is s i base operand).
Proof using Hv.
  unfold ensure_file_base_revision_is, commit_err. apply returns_bind; [apply inode_kind_answers|].
  intros _ _. repeat answer.
Qed.

Lemma restore_source_answers i no : returns (resolve_restore_source_revision s i no).
Proof using Hv Hfloor.
  unfold resolve_restore_source_revision. rewrite (vs_floor _ _ _ _ Hv).
  destruct (vs_at_seq _ _ _ _ Hv floor (N.le_refl _) Hfloor) as (v' & -> & Hv'). cbn [mbind res_bind].
  repeat answer. eapply serves_returns; [apply Hv'|done].
Qed.

Lemma revision_answers n i operand no content_ref append_offset :
  returns (edge ← resolve_current_binding s i operand;
           '(delta, n) ← revision_delta n edge no content_ref append_offset; Ok ([delta], n)).
Proof using Hok Hv.
  apply returns_bind; [unfold resolve_current_binding; repeat answer|]. intros e He.
  apply (current_binding_ok _ _ _ _ _ Hok Hv), place_of_Some in He as (_ & _ & _ & Hb & _).
  apply is_bound_display_name in Hb as [name Hname]. unfold revision_delta. rewrite Hname.
  repeat answer.
Qed.

Create HintDb answers.
#[local] Hint Resolve inode_kind_answers name_absent_answers not_covered_answers
  child_unbound_answers source_binding_answers base_revision_answers restore_source_answers : answers.

Lemma delete_answers n inode b : returns (delete_deltas n inode b).
Proof using. unfold delete_deltas, unbind_delta. repeat answer. Qed.

Lemma operation_answers op : returns (validate_operation s op).
Proof using Hok Hv Hfloor Hlaws.
  destruct op; cbn [validate_operation];
    unfold validate_create, validate_replace_file, validate_restore_revision, validate_delete_file,
      validate_rename, validate_delete_subtree, validate_undelete, validate_update_attributes,
      validate_update_access, next_revision_no, next_attributes_revision_no, next_access_revision_no,
      resolve_revision_summary, ensure_rename_does_not_cycle, resolve_recoverable_deletion,
      ensure_target_visible, ensure_inode_attributes_revision_is, ensure_inode_access_revision_is,
      unbind_delta, commit_err;
    repeat first [apply revision_answers | apply delete_answers | solve [eauto 2 with answers] | answer].
Qed.
End answers.

(** ** Whole commits *)

(** The rows that retention judges were committed above the floor. *)
Record rows_above (floor : ChangeSeq) (st : MetadataState) : Prop := {
  above_binds : Forall (λ x, floor < x.(db_committed_seq)) st.(ms_direntry_binds);
  above_revisions : Forall (λ x, floor < x.(rr_committed_seq)) st.(ms_revisions);
  above_attributes : Forall (λ x, floor < x.(at_committed_seq)) st.(ms_attributes_revisions);
  above_access : Forall (λ x, floor < x.(ac_committed_seq)) st.(ms_access_revisions);
}.

Lemma rows_above_default `{HeapBytes} floor : rows_above floor MetadataState_default.
Proof. split; constructor. Qed.

Lemma rows_above_apply `{HeapBytes} floor st seq id actor ms ds :
  floor < seq → rows_above floor st → rows_above floor (apply_committed_wal_deltas st seq id actor ms ds).
Proof.
  intros Hseq. unfold apply_committed_wal_deltas. revert st.
  induction ds as [|d ds IH]; intros st [Hb Hr Ha Hc]; [done|]. cbn [foldl]. apply IH.
  destruct d as [| | |? ? ? ? ? ? ? ? ? ? layout ?| | | |]; try destruct layout; split; cbn;
    rewrite ?Forall_app, ?Forall_singleton; done.
Qed.

(** The law a view keeps towards validation: put over accepted rows and an
    overlay, both above the floor, it answers as the rows of all three
    together. *)
Class CommitViewLaws {V} `{CommitView V} `{HeapBytes} (base : V) (base_state : MetadataState)
    (floor : ChangeSeq) : Prop :=
  law_with_overlay : ∀ batch overlay seq next,
    rebuilt batch → rebuilt overlay → rows_above floor batch → rows_above floor overlay → floor < seq →
    namespace_ok (stack_states [base_state; batch; overlay]) seq next →
    numbering_ok (stack_states [base_state; batch; overlay]) seq next →
    view_serves (cv_with_overlay base (Some overlay) batch seq)
      (stack_states [base_state; batch; overlay]) seq floor.

(** A delta without its revision's layout. *)
Definition forget_layout (delta : WalDelta) : WalDelta :=
  match delta with
  | AppendFileRevision delta_index inode_id parent_inode_id name_key display_name bind_position
      child_created_by child_created_at_ms revision_no content_ref _ append_offset =>
      AppendFileRevision delta_index inode_id parent_inode_id name_key display_name bind_position
        child_created_by child_created_at_ms revision_no content_ref None append_offset
  | delta => delta
  end.

Section stacking.
Context `{HeapBytes}.

Lemma stack_rebuilt states : rebuilt (stack_states states).
Proof. apply rebuild_indexes_rebuilt. Qed.

(** A rebuilt state is its rows. *)
Lemma rebuilt_rows_eq st st' :
  rebuilt st → rebuilt st' → st.(ms_inodes) = st'.(ms_inodes) →
  st.(ms_direntry_binds) = st'.(ms_direntry_binds) → st.(ms_revisions) = st'.(ms_revisions) →
  st.(ms_subtree_tombstones) = st'.(ms_subtree_tombstones) →
  st.(ms_commit_receipts) = st'.(ms_commit_receipts) → st.(ms_commits) = st'.(ms_commits) →
  st.(ms_content_layouts) = st'.(ms_content_layouts) →
  st.(ms_attributes_revisions) = st'.(ms_attributes_revisions) →
  st.(ms_access_revisions) = st'.(ms_access_revisions) → st = st'.
Proof.
  intros Hr Hr' E1 E2 E3 E4 E5 E6 E7 E8 E9. rewrite (rebuilt_eq st Hr), (rebuilt_eq st' Hr').
  by apply rebuild_rows_eq.
Qed.

(** Applying deltas to the last state of a stack applies them to the stack. *)
Lemma stack_apply_delta a b c seq id actor ms delta :
  stack_states [a; b; apply_committed_wal_delta_mut c seq id actor ms delta]
  = apply_committed_wal_delta_mut (stack_states [a; b; c]) seq id actor ms delta.
Proof.
  apply rebuilt_rows_eq; [apply stack_rebuilt|apply apply_delta_rebuilt, stack_rebuilt|..].
  all: destruct delta as [| | |? ? ? ? ? ? ? ? ? ? layout ?| | | |]; try destruct layout;
    cbn; rewrite ?app_nil_r, ?app_assoc; done.
Qed.

Lemma stack_apply_deltas a b c seq id actor ms ds :
  stack_states [a; b; apply_committed_wal_deltas c seq id actor ms ds]
  = apply_committed_wal_deltas (stack_states [a; b; c]) seq id actor ms ds.
Proof.
  unfold apply_committed_wal_deltas. revert c. induction ds as [|d ds IH]; intros c; [done|].
  cbn [foldl]. by rewrite IH, stack_apply_delta.
Qed.

Lemma apply_deltas_app st seq id actor ms ds ds' :
  apply_committed_wal_deltas st seq id actor ms (ds ++ ds')
  = apply_committed_wal_deltas (apply_committed_wal_deltas st seq id actor ms ds) seq id actor ms ds'.
Proof. apply foldl_app. Qed.

Lemma apply_created st seq id actor ms ds :
  ir_inode_id <$> (apply_committed_wal_deltas st seq id actor ms ds).(ms_inodes)
  = (ir_inode_id <$> st.(ms_inodes)) ++ (ds ≫= delta_created).
Proof.
  unfold apply_committed_wal_deltas. revert st. induction ds as [|d ds IH]; intros st.
  - cbn. by rewrite app_nil_r.
  - cbn [foldl]. rewrite IH. cbn [mbind list_bind]. rewrite app_assoc. f_equal.
    destruct d as [| | |? ? ? ? ? ? ? ? ? ? layout ?| | | |]; try destruct layout;
      cbn; rewrite ?fmap_app, ?app_nil_r; done.
Qed.

(** A revision's layout changes no row that names are read from. *)
Lemma relayout_tables st st' seq id actor ms ds ds' :
  st'.(ms_inodes) = st.(ms_inodes) → st'.(ms_direntry_binds) = st.(ms_direntry_binds) →
  st'.(ms_subtree_tombstones) = st.(ms_subtree_tombstones) →
  forget_layout <$> ds' = forget_layout <$> ds →
  let a := apply_committed_wal_deltas st seq id actor ms ds in
  let b := apply_committed_wal_deltas st' seq id actor ms ds' in
  b.(ms_inodes) = a.(ms_inodes) ∧ b.(ms_direntry_binds) = a.(ms_direntry_binds) ∧
  b.(ms_subtree_tombstones) = a.(ms_subtree_tombstones).
Proof.
  unfold apply_committed_wal_deltas. revert st st' ds'.
  induction ds as [|d ds IH]; intros st st' [|d' ds'] E1 E2 E3 E; try done. cbn [foldl].
  injection E as Ed E. apply IH; [..|done].
  all: destruct d, d'; try done; injection Ed as; subst;
    repeat match goal with l : option ContentLayout |- _ => destruct l end; cbn; congruence.
Qed.

Lemma relayout_numbers st st' seq id actor ms ds ds' :
  st'.(ms_inodes) = st.(ms_inodes) → st'.(ms_revisions) = st.(ms_revisions) →
  st'.(ms_attributes_revisions) = st.(ms_attributes_revisions) → st'.(ms_access_revisions) = st.(ms_access_revisions) →
  forget_layout <$> ds' = forget_layout <$> ds →
  let a := apply_committed_wal_deltas st seq id actor ms ds in
  let b := apply_committed_wal_deltas st' seq id actor ms ds' in
  ∀ next, numbering_ok a seq next → numbering_ok b seq next.
Proof.
  unfold apply_committed_wal_deltas. revert st st' ds'.
  induction ds as [|d ds IH]; intros st st' [|d' ds'] E1 E2 E3 E4 E; try done.
  { cbv zeta. cbn [foldl]. intros next Hn. apply (numbering_tables st); [done..|by rewrite E1|done]. }
  cbn [foldl]. injection E as Ed E. apply IH; [..|done].
  all: destruct d, d'; try done; injection Ed as; subst;
    repeat match goal with l : option ContentLayout |- _ => destruct l end; cbn; congruence.
Qed.

Lemma carry_forgets layouts (ds : list WalDelta) : forget_layout <$> (carry_layout layouts <$> ds) = forget_layout <$> ds.
Proof. rewrite <-list_fmap_compose. apply list_fmap_ext. by intros _ [] _. Qed.
End stacking.

Section commit.
Context {V : Type} `{CommitView V} `{HeapBytes} `{NamePolicy}.
Context (base : V) (base_state : MetadataState) (floor : ChangeSeq).
Context `{!CommitViewLaws base base_state floor}.
Context (layouts : ContentRef → option ContentLayout).
Implicit Types s : CommitValidationSession V.

Definition session_state s : MetadataState :=
  stack_states [base_state; s.(cs_batch_accepted); s.(cs_overlay)].

Record session_ok s : Prop := {
  so_base : s.(cs_base_view) = base;
  so_batch : rebuilt s.(cs_batch_accepted);
  so_overlay : rebuilt s.(cs_overlay);
  so_above : rows_above floor s.(cs_batch_accepted) ∧ rows_above floor s.(cs_overlay);
  so_floor : floor < s.(cs_committed_seq);
  so_state : namespace_ok (session_state s) s.(cs_committed_seq) s.(cs_numbering).(next_delta_index);
  so_numbers : numbering_ok (session_state s) s.(cs_committed_seq) s.(cs_numbering).(next_delta_index);
}.

(** The commit's identity, which validation never changes. *)
Definition commit_of s := (s.(cs_committed_seq), s.(cs_commit_id), s.(cs_actor_id), s.(cs_committed_at_ms)).
Definition commit_apply s (st : MetadataState) (ds : list WalCommitDelta) : MetadataState :=
  apply_committed_wal_deltas st s.(cs_committed_seq) s.(cs_commit_id) s.(cs_actor_id)
    s.(cs_committed_at_ms) (wcd_delta <$> ds).

Lemma commit_apply_same s s' st ds : commit_of s' = commit_of s → commit_apply s' st ds = commit_apply s st ds.
Proof. unfold commit_of, commit_apply. by intros [= -> -> -> ->]. Qed.

(** What one validated operation, and a sequence of them, establish. *)
Record validated s (ds : list WalCommitDelta) s' (created : list InodeId) : Prop := {
  vd_ok : session_ok s';
  vd_commit : commit_of s' = commit_of s;
  vd_batch : s'.(cs_batch_accepted) = s.(cs_batch_accepted);
  vd_state : session_state s' = commit_apply s (session_state s) ds;
  vd_edges : Forall (names_earlier_edge s.(cs_committed_seq)) (wcd_delta <$> ds);
  vd_created : ir_inode_id <$> (session_state s').(ms_inodes)
    = (ir_inode_id <$> (session_state s).(ms_inodes)) ++ created;
}.

Lemma validated_trans s ds s1 created rest s2 created' :
  validated s ds s1 created → validated s1 rest s2 created' →
  validated s (ds ++ rest) s2 (created ++ created').
Proof using.
  intros [Hok1 Hc1 Hb1 Hs1 He1 Hi1] [Hok2 Hc2 Hb2 Hs2 He2 Hi2]. split.
  - done.
  - congruence.
  - congruence.
  - rewrite Hs2, (commit_apply_same s) by done. rewrite Hs1. unfold commit_apply.
    by rewrite fmap_app, apply_deltas_app.
  - rewrite fmap_app. apply Forall_app. split; [done|]. injection Hc1 as E1 _ _ _. by rewrite <-E1.
  - by rewrite Hi2, Hi1, app_assoc.
Qed.

Lemma reserve_op_next n op_index n' :
  map_err CeCommitValidation (reserve_op_index n) = Ok (op_index, n') →
  n'.(next_delta_index) = n.(next_delta_index).
Proof. rewrite map_err_Ok. unfold reserve_op_index. intros E. step_ok E m Hm. by injection E as _ <-. Qed.

Lemma step_validated s op ds s' :
  session_ok s → planned (session_state s) op → validate_step layouts s op = Ok (ds, s') →
  validated s ds s' (op_created op).
Proof using CommitViewLaws0.
  intros [Hbase Hbatch Hover [Hab Hao] Hfl Hok Hnum] Hplan E. unfold validate_step in E. step_ok E r Hr.
  destruct r as [op_index n]. set (s0 := mkCommitValidationSession _ _ _ _ _ _ _ _) in E.
  step_ok E r Hop. destruct r as [ops n']. injection E as <- <-.
  assert (next_delta_index n = next_delta_index s.(cs_numbering)) as Hn.
  { by eapply reserve_op_next. }
  assert (namespace_ok (session_state s0) s0.(cs_committed_seq) s0.(cs_numbering).(next_delta_index)) as Hok0.
  { cbn. by rewrite Hn. }
  assert (numbering_ok (session_state s0) s0.(cs_committed_seq) s0.(cs_numbering).(next_delta_index)) as Hnum0.
  { cbn. by rewrite Hn. }
  assert (view_serves (session_view s0) (session_state s0) s0.(cs_committed_seq) floor) as Hv.
  { unfold session_view. cbn. rewrite Hbase. by eapply law_with_overlay. }
  destruct (operation_sound s0 (session_state s0) floor Hok0 Hv op ops n' Hplan Hop)
    as (Hok1 & Hedges & _ & Hcreated).
  pose proof (operation_numbered s0 (session_state s0) floor Hok0 Hv Hnum0 op ops n' Hplan Hop) as Hnum1.
  set (ds := _ <$> (carry_layout layouts <$> ops)).
  assert (wcd_delta <$> ds = carry_layout layouts <$> ops) as Hds.
  { unfold ds. rewrite <-list_fmap_compose. apply list_fmap_id. }
  assert (∀ st, commit_apply s st ds = apply_committed_wal_deltas st s.(cs_committed_seq) s.(cs_commit_id)
    s.(cs_actor_id) s.(cs_committed_at_ms) (carry_layout layouts <$> ops)) as Happ.
  { intros st. unfold commit_apply. by rewrite Hds. }
  pose proof (relayout_tables (session_state s) (session_state s) s.(cs_committed_seq)
    s.(cs_commit_id) s.(cs_actor_id) s.(cs_committed_at_ms) ops _ eq_refl eq_refl eq_refl
    (carry_forgets layouts ops)) as (T1 & T2 & T3).
  set (s1 := mkCommitValidationSession _ _ _ _ _ _ _ _).
  assert (session_state s1 = commit_apply s (session_state s) ds) as Hst.
  { rewrite Happ. apply stack_apply_deltas. }
  split; [|done|done|done|..].
  - split; [done|done|by apply apply_deltas_rebuilt|split; [done|by apply rows_above_apply]|done|..]; rewrite Hst, Happ.
    + eapply (namespace_ok_ext _ _ _ _ T1 T2 T3); [|done]. apply apply_deltas_rebuilt, stack_rebuilt.
    + by eapply (relayout_numbers (session_state s) _ _ _ _ _ ops); [done..|apply carry_forgets|].
  - rewrite Hds. apply Forall_fmap. eapply Forall_impl; [exact Hedges|]. by intros [].
  - rewrite Hst, Happ. etrans; [by rewrite T1|]. etrans; [apply apply_created|]. by rewrite Hcreated.
Qed.

Lemma planned_later st st' created op :
  ir_inode_id <$> st'.(ms_inodes) = (ir_inode_id <$> st.(ms_inodes)) ++ created →
  (∀ c, c ∈ op_created op → c ∉ created) → planned st op → planned st' op.
Proof.
  intros E Hnew. assert (∀ c, c ∈ op_created op → fresh_inode st c → fresh_inode st' c) as Hfresh.
  { intros c Hc [Hroot Hst]. split; [done|]. intros y Hy Heq.
    assert (c ∈ ir_inode_id <$> st'.(ms_inodes)) as Hin by (apply list_elem_of_fmap; naive_solver).
    rewrite E, elem_of_app, list_elem_of_fmap in Hin. destruct Hin as [(z & -> & Hz)|Hin].
    - by destruct (Hst z Hz).
    - by apply (Hnew c). }
  destruct op; try done; cbn; apply Hfresh; by apply list_elem_of_singleton.
Qed.

(** The operations after [op] stay planned once [op] is applied. *)
Lemma planned_rest st st' op ops :
  ir_inode_id <$> st'.(ms_inodes) = (ir_inode_id <$> st.(ms_inodes)) ++ op_created op →
  Forall (planned st) ops → NoDup ((op :: ops) ≫= op_created) →
  Forall (planned st') ops ∧ NoDup (ops ≫= op_created).
Proof.
  intros E Hplan Hnd. cbn [mbind list_bind] in Hnd. apply NoDup_app in Hnd as (_ & Hdisj & Hnd).
  split; [|done]. apply Forall_forall. intros o Ho. eapply planned_later; [exact E| |].
  - intros c Hc Hc'. apply (Hdisj c Hc'). apply list_elem_of_bind. by exists o.
  - by eapply Forall_forall in Hplan.
Qed.

Lemma commit_validated ops : ∀ s ds s',
  session_ok s → Forall (planned (session_state s)) ops → NoDup (ops ≫= op_created) →
  validate layouts s ops = Ok (ds, s') → validated s ds s' (ops ≫= op_created).
Proof using CommitViewLaws0.
  induction ops as [|op ops IH]; intros s ds s' Hok Hplan Hnd E.
  - injection E as <- <-. split; [done|done|done|done|constructor|]. by rewrite app_nil_r.
  - cbn [validate] in E. step_ok E r Hr. destruct r as [ds1 s1]. step_ok E r Hr2. destruct r as [ds2 s2].
    injection E as <- <-. apply Forall_cons in Hplan as [Hop Hplan].
    destruct (step_validated _ _ _ _ Hok Hop Hr) as [Hok1 _ _ _ _ Hi1].
    destruct (planned_rest _ _ _ _ Hi1 Hplan Hnd) as [Hplan1 Hnd1].
    cbn [mbind list_bind]. eapply validated_trans; [by eapply step_validated|]. by apply IH.
Qed.

(** Validation of a planned commit answers. *)
Lemma step_answers s op : session_ok s → returns (validate_step layouts s op).
Proof using CommitViewLaws0.
  intros [Hbase Hbatch Hover [Hab Hao] Hfl Hok Hnum]. unfold validate_step.
  apply returns_bind; [apply returns_map_err, returns_bind; [apply returns_ok_or|done]|].
  intros [op_index n] Hr.
  assert (next_delta_index n = next_delta_index s.(cs_numbering)) as Hn by by eapply reserve_op_next.
  apply returns_bind; [|by intros [ops n'] _].
  eapply (operation_answers _ (session_state s) floor).
  - cbn. by rewrite Hn.
  - unfold session_view. cbn [cs_base_view cs_overlay cs_batch_accepted cs_committed_seq].
    rewrite Hbase. by eapply law_with_overlay.
  - cbn [cs_committed_seq]. lia.
  - cbn [cs_committed_seq]. apply (state_reads_lawful _ (ns_rebuilt _ _ _ Hok) (ns_rows _ _ _ Hok)).
Qed.

Lemma commit_answers ops : ∀ s,
  session_ok s → Forall (planned (session_state s)) ops → NoDup (ops ≫= op_created) → returns (validate layouts s ops).
Proof using CommitViewLaws0.
  induction ops as [|op ops IH]; intros s Hok Hplan Hnd; [done|]. cbn [validate].
  apply returns_bind; [by apply step_answers|]. intros [ds1 s1] Hr.
  apply Forall_cons in Hplan as [Hop Hplan].
  destruct (step_validated _ _ _ _ Hok Hop Hr) as [Hok1 _ _ _ _ Hi1].
  destruct (planned_rest _ _ _ _ Hi1 Hplan Hnd) as [Hplan1 Hnd1].
  apply returns_bind; [|by intros [] _]. by apply IH.
Qed.
End commit.

Lemma stack_default `{HeapBytes} a b : stack_states [a; b; MetadataState_default] = stack_states [a; b].
Proof. apply rebuilt_rows_eq; [apply stack_rebuilt..|done|done|done|done|done|done|done|done|done]. Qed.

(** ** A view of rows in memory

    A view that holds every row keeps the law. *)
Record StateView := mkStateView {
  sv_state : MetadataState;
  sv_seq : ChangeSeq;
  sv_floor : ChangeSeq;
}.

Section state_view.
Context `{HeapBytes}.
Abbreviation rd v := (reads_at_seq v.(sv_state) v.(sv_seq)).
Abbreviation child_of v :=
  (visible_child (reads_active_child_binding (rd v)) (reads_visible_inode (rd v))).

(** Does one of the rows' names under [p] have a visible child? *)
Definition some_visible_child (v : StateView) (p : InodeId) (rows : list DirentryBindingRecord)
    : res CoreError bool :=
  foldr (λ b rest,
    found ← lift_error (child_of v p b.(db_name_key));
    match found with Some _ => Ok true | None => rest end) (Ok false) rows.

#[export] Instance StateView_view : CommitView StateView := {|
  cv_retention_floor_seq := sv_floor;
  cv_inode_at_seq v i := Ok (inode_at_seq_scan v.(sv_state) i v.(sv_seq));
  cv_visible_inode v i := lift_error (reads_visible_inode (rd v) i);
  cv_visible_child v p k := lift_error (child_of v p k);
  cv_has_visible_children v p := some_visible_child v p v.(sv_state).(ms_direntry_binds);
  cv_covering_subtree_tombstone v i := lift_error (reads_covering_subtree_tombstone (rd v) i);
  cv_current_parent_binding_for_child v i :=
    lift_error (reads_current_parent_binding_for_child (rd v) i);
  cv_would_create_directory_cycle v i p :=
    lift_error (would_create_directory_cycle (reads_current_parent_binding_for_child (rd v))
      (walk_fuel (rd v)) i p);
  cv_recoverable_deletion v i :=
    Ok (option_filter (λ t, bool_decide (v.(sv_floor) < t.(tb_committed_seq)))
          (hiding_subtree_tombstone_scan v.(sv_state) i v.(sv_seq)));
  cv_latest_revision_record v i := Ok (newest_revision v.(sv_state) v.(sv_seq) i);
  cv_revision_at_head v i no := Ok (numbered_revision v.(sv_state) v.(sv_seq) i no);
  cv_attributes v i :=
    Ok match newest_attributes v.(sv_state) v.(sv_seq) i with
       | Some r => mkAttributesProjection r.(at_attributes_revision_no) (Some r.(at_committed_by))
                     (Some r.(at_committed_at_ms)) r.(at_attributes)
       | None => mkAttributesProjection 0 None None []
       end;
  cv_latest_access_revision v i := Ok (newest_access v.(sv_state) v.(sv_seq) i);
  cv_at_seq v s :=
    if decide (s ≤ v.(sv_seq)) then Ok (mkStateView v.(sv_state) s v.(sv_floor)) else Panic;
  cv_with_overlay v overlay batch s :=
    mkStateView (stack_states [v.(sv_state); batch; default MetadataState_default overlay]) s
      v.(sv_floor);
|}.

Context (v : StateView) (Hrebuilt : rebuilt v.(sv_state)) (Hrows : rows_ok v.(sv_state)).

Lemma child_of_returns p k : returns (child_of v p k).
Proof using Hrebuilt Hrows.
  pose proof (state_reads_lawful _ Hrebuilt Hrows v.(sv_seq)).
  apply (visible_child_returns _ (state_reads_total _)).
Qed.

Lemma some_visible_child_returns p rows : returns (some_visible_child v p rows).
Proof using Hrebuilt Hrows.
  induction rows as [|b rows IH]; [done|]. cbn [some_visible_child foldr].
  apply returns_bind; [apply returns_map_err, child_of_returns|]. by intros [].
Qed.

Lemma some_visible_child_spec p rows b :
  some_visible_child v p rows = Ok b →
  b = true ↔ ∃ row d, row ∈ rows ∧ child_of v p row.(db_name_key) = Ok (Some d).
Proof.
  induction rows as [|row rows IH]; intros E.
  - injection E as <-. split; [done|]. by intros (? & ? & ?%not_elem_of_nil & _).
  - cbn [some_visible_child foldr] in E. step_ok E o Ho. apply map_err_Ok in Ho. destruct o as [d|].
    + injection E as <-. split; [|done]. intros _. exists row, d. split; [by left|done].
    + rewrite (IH E). split; intros (x & d & Hx & Hd); exists x, d.
      * split; [by right|done].
      * apply elem_of_cons in Hx as [->|Hx]; [congruence|done].
Qed.

Lemma child_of_row p k d :
  child_of v p k = Ok (Some d) → d ∈ v.(sv_state).(ms_direntry_binds) ∧ d.(db_name_key) = k.
Proof using Hrebuilt Hrows.
  intros E. unfold visible_child in E. step_ok E o Ho. destruct o as [i|]; [|done].
  case_decide; [done|]. step_ok E o Hb. destruct o as [x|]; [|done]. step_ok E o Hc.
  destruct o; [|done]. injection E as ->.
  cbn [reads_active_child_binding MetadataStateReads_reads] in Hb.
  rewrite (sr_active_child _ Hrebuilt Hrows) in Hb. injection Hb as Hb.
  apply entry_of_Some in Hb. naive_solver.
Qed.

(** The view serves its rows. *)
Lemma StateView_serves : view_serves v v.(sv_state) v.(sv_seq) v.(sv_floor).
Proof using Hrebuilt Hrows.
  split; try (intros; by left).
  - done.
  - intros i no. eexists. split; by left.
  - intros p. split; [apply some_visible_child_returns|]. intros b Hb.
    rewrite (some_visible_child_spec _ _ _ Hb). split.
    + intros (row & d & _ & Hd). by exists row.(db_name_key), d.
    + intros (k & d & Hd). destruct (child_of_row _ _ _ Hd) as [Hin <-]. by exists d, d.
  - intros s _ Hs. cbn. rewrite decide_True by done. eexists. split; [done|]. intros i. by left.
Qed.
End state_view.

#[export] Instance StateView_laws `{HeapBytes} st seq floor :
  CommitViewLaws (mkStateView st seq floor) st floor.
Proof.
  intros batch overlay seq' next _ _ _ _ _ Hok _. cbn [cv_with_overlay StateView_view sv_state sv_floor default].
  apply (StateView_serves (mkStateView (stack_states [st; batch; overlay]) seq' floor));
    apply (ns_rebuilt _ _ _ Hok) || apply (ns_rows _ _ _ Hok).
Qed.

(** ** The theorem *)

Lemma commit_safe {V} `{CommitView V} `{HeapBytes} `{NamePolicy}
  (base : V) (base_state batch : MetadataState) (floor prev seq : ChangeSeq) (next : N)
  (layouts : ContentRef → option ContentLayout) (id : CommitId) (actor : ActorId) (ms : N)
  (ops : list CommitOperation) (ds : list WalCommitDelta) (s' : CommitValidationSession V)
  (Hlaws : CommitViewLaws base base_state floor) (Hbatch : rebuilt batch)
  (Habove : rows_above floor batch) (Hfloor : floor ≤ prev)
  (Hok : namespace_ok (stack_states [base_state; batch]) prev next)
  (Hnum : numbering_ok (stack_states [base_state; batch]) prev next) (Hseq : prev < seq)
  (Hplanned : Forall (planned (stack_states [base_state; batch])) ops)
  (Hdistinct : NoDup (ops ≫= op_created))
  (Hvalid : validate layouts (CommitValidationSession_new base batch seq id actor ms) ops = Ok (ds, s')) :
  let st := stack_states [base_state; batch] in
  let st' := apply_committed_wal_deltas st seq id actor ms (wcd_delta <$> ds) in
  namespace_ok st' seq s'.(cs_numbering).(next_delta_index) ∧
  numbering_ok st' seq s'.(cs_numbering).(next_delta_index) ∧
  model_apply_committed_wal_deltas (model_of st) seq id actor ms (wcd_delta <$> ds) = Ok (model_of st').
Proof.
  cbv zeta. set (s0 := CommitValidationSession_new _ _ _ _ _ _) in Hvalid.
  assert (session_state base_state s0 = stack_states [base_state; batch]) as Hs0 by apply stack_default.
  assert (session_ok base base_state floor s0) as Hsok.
  { split; [done|done|apply default_rebuilt|by split; [|apply rows_above_default]|cbn; lia|..]; rewrite Hs0;
      [by eapply namespace_ok_later|by eapply numbering_later; [|left]]. }
  rewrite <-Hs0 in Hplanned |- *.
  destruct (commit_validated base base_state floor layouts ops s0 ds s' Hsok Hplanned Hdistinct Hvalid)
    as [Hok' Hc _ Hst He _].
  assert (namespace_ok (commit_apply s0 (session_state base_state s0) ds) seq
    s'.(cs_numbering).(next_delta_index)) as Hok2.
  { rewrite <-Hst. injection Hc as E _ _ _. pose proof (so_state _ _ _ _ Hok') as Hn. by rewrite E in Hn. }
  split; [done|]. split.
  { change (numbering_ok (commit_apply s0 (session_state base_state s0) ds) seq s'.(cs_numbering).(next_delta_index)).
    rewrite <-Hst. injection Hc as E _ _ _. pose proof (so_numbers _ _ _ _ Hok') as Hn. by rewrite E in Hn. }
  unfold model_apply_committed_wal_deltas. rewrite <-model_of_apply_deltas by done.
  by assert (model_verify_bindings _ seq = Ok ()) as -> by exact (namespace_verified _ _ _ Hok2).
Qed.

(** C1 A validated commit keeps the namespace sound, and the reference model
    accepts it.  Let the rows that a commit is validated against (the view's,
    with those of the commits accepted before it) satisfy the namespace
    invariant: one binding per name and one name per inode, agreeing with each
    other, ancestries that end, only directories as parents, and deleted
    inodes unbound; and let each inode's revision numbers increase.  If
    validation through a view that keeps its law accepts the commit's
    operations, then the rows with its deltas satisfy both again, and the
    reference model applies the same deltas without finding a violation and
    arrives at the same rows. *)
Theorem validated_commit_safe {V} `{CommitView V} `{HeapBytes} `{NamePolicy}
  (base : V) (base_state batch : MetadataState) (floor prev seq : ChangeSeq) (next : N)
  (layouts : ContentRef → option ContentLayout) (id : CommitId) (actor : ActorId) (ms : N)
  (ops : list CommitOperation) (ds : list WalCommitDelta) (s' : CommitValidationSession V)
  (Hlaws : CommitViewLaws base base_state floor) (Hbatch : rebuilt batch)
  (Habove : rows_above floor batch) (Hfloor : floor ≤ prev)
  (Hok : namespace_ok (stack_states [base_state; batch]) prev next)
  (Hnum : numbering_ok (stack_states [base_state; batch]) prev next) (Hseq : prev < seq)
  (Hplanned : Forall (planned (stack_states [base_state; batch])) ops)
  (Hdistinct : NoDup (ops ≫= op_created))
  (Hvalid : validate layouts (CommitValidationSession_new base batch seq id actor ms) ops = Ok (ds, s')) :
  let st := stack_states [base_state; batch] in
  let st' := apply_committed_wal_deltas st seq id actor ms (wcd_delta <$> ds) in
  namespace_ok st' seq s'.(cs_numbering).(next_delta_index) ∧
  numbering_ok st' seq s'.(cs_numbering).(next_delta_index) ∧
  model_apply_committed_wal_deltas (model_of st) seq id actor ms (wcd_delta <$> ds) = Ok (model_of st').
Proof. by eapply (commit_safe base). Qed.

(** The example's commit: a directory, a file in it, its next version, a move
    of the file to the root, and a second directory with the file's old
    name. *)
Definition example_ops : list CommitOperation :=
  [ CreateDirectory 5 ROOT_INODE_ID "a"; CreateFile 6 5 "b" example_content;
    ReplaceFile 6 1 example_content None;
    Rename 6 (mkResolvedBinding 5 "b" "b" 6 (mkDeltaPosition 1 3)) ROOT_INODE_ID "c";
    CreateDirectory 7 5 "b" ].

#[local] Existing Instance no_heap.
#[local] Existing Instance example_policy.

Definition example_start : MetadataState := bootstrap_metadata_state 0 Unrestricted.
Definition example_view : StateView := mkStateView example_start 0 0.

Lemma example_start_ok : namespace_ok (stack_states [example_start; MetadataState_default]) 0 0.
Proof.
  assert (stack_states [example_start; MetadataState_default] = example_start) as ->; [|apply bootstrap_ok].
  apply rebuilt_rows_eq; [apply stack_rebuilt|apply rebuild_indexes_rebuilt|done..].
Qed.

Lemma example_start_numbers : numbering_ok (stack_states [example_start; MetadataState_default]) 0 0.
Proof.
  assert (∀ A (id : A → InodeId) no position, numbered id no position [] 0 0) as Hnil.
  { intros A id no position. split; [apply NoDup_nil_2|by intros r ?%elem_of_nil|by intros a b ?%elem_of_nil]. }
  split; [apply Hnil..|by intros r ?%elem_of_nil].
Qed.

Lemma fresh_inode_check st c :
  bool_decide (c ≠ ROOT_INODE_ID ∧ Forall (λ y, y.(ir_inode_id) ≠ c) st.(ms_inodes)) = true →
  fresh_inode st c.
Proof. intros [Hc Hall]%bool_decide_eq_true. split; [done|]. by apply Forall_forall. Qed.

Lemma example_planned : Forall (planned (stack_states [example_start; MetadataState_default])) example_ops.
Proof.
  unfold example_ops. repeat apply Forall_cons_2; [| |exact I|reflexivity| |apply Forall_nil_2].
  all: apply fresh_inode_check; vm_compute; reflexivity.
Qed.

Lemma example_validates :
  ∃ ds s', validate (λ _, None)
    (CommitValidationSession_new example_view MetadataState_default 1 "commit" "user" 10)
    example_ops = Ok (ds, s') ∧ length ds = 10%nat.
Proof. eexists _, _. split; [vm_compute; reflexivity|reflexivity]. Qed.

Lemma validated_commit_safe_witness :
  ∃ ds s', validate (λ _, None)
    (CommitValidationSession_new example_view MetadataState_default 1 "commit" "user" 10)
    example_ops = Ok (ds, s') ∧
  let st := stack_states [example_start; MetadataState_default] in
  let st' := apply_committed_wal_deltas st 1 "commit" "user" 10 (wcd_delta <$> ds) in
  length ds = 10%nat ∧ namespace_ok st' 1 s'.(cs_numbering).(next_delta_index) ∧
  numbering_ok st' 1 s'.(cs_numbering).(next_delta_index) ∧
  model_apply_committed_wal_deltas (model_of st) 1 "commit" "user" 10 (wcd_delta <$> ds) = Ok (model_of st').
Proof.
  destruct example_validates as (ds & s' & E & Hlen). exists ds, s'. split; [exact E|]. split; [exact Hlen|].
  apply (validated_commit_safe example_view example_start MetadataState_default 0 0 1 0 (λ _, None)
    "commit" "user" 10 example_ops).
  - apply StateView_laws.
  - apply default_rebuilt.
  - apply rows_above_default.
  - lia.
  - apply example_start_ok.
  - apply example_start_numbers.
  - lia.
  - exact example_planned.
  - apply (bool_decide_unpack _). vm_compute. exact I.
  - exact E.
Defined.

(** C10 Validation of a planned commit always answers.  Over a view that keeps
    its law, with the retention floor at or below the rows' sequence,
    validation ends with deltas or with an error: no assertion fails (a
    file's current binding has its name, the view at the floor exists) and no
    ancestor walk runs out. *)
Theorem validation_answers {V} `{CommitView V} `{HeapBytes} `{NamePolicy}
  (base : V) (base_state batch : MetadataState) (floor prev seq : ChangeSeq) (next : N)
  (layouts : ContentRef → option ContentLayout) (id : CommitId) (actor : ActorId) (ms : N)
  (ops : list CommitOperation)
  (Hlaws : CommitViewLaws base base_state floor) (Hbatch : rebuilt batch)
  (Habove : rows_above floor batch) (Hfloor : floor ≤ prev)
  (Hok : namespace_ok (stack_states [base_state; batch]) prev next)
  (Hnum : numbering_ok (stack_states [base_state; batch]) prev next) (Hseq : prev < seq)
  (Hplanned : Forall (planned (stack_states [base_state; batch])) ops)
  (Hdistinct : NoDup (ops ≫= op_created)) :
  returns (validate layouts (CommitValidationSession_new base batch seq id actor ms) ops).
Proof.
  set (s0 := CommitValidationSession_new _ _ _ _ _ _).
  assert (session_state base_state s0 = stack_states [base_state; batch]) as Hs0 by apply stack_default.
  eapply (commit_answers base base_state floor); [|by rewrite Hs0|done].
  split; [done|done|apply default_rebuilt|by split; [|apply rows_above_default]|cbn; lia|..]; rewrite Hs0;
    [by eapply namespace_ok_later|by eapply numbering_later; [|left]].
Qed.

Lemma validation_answers_witness :
  returns (validate (λ _, None)
    (CommitValidationSession_new example_view MetadataState_default 1 "commit" "user" 10)
    (Rename 5 (mkResolvedBinding 5 "b" "b" 5 (mkDeltaPosition 0 0)) 5 "x" :: example_ops)).
Proof.
  apply (validation_answers example_view example_start MetadataState_default 0 0 1 0).
  - apply StateView_laws.
  - apply default_rebuilt.
  - apply rows_above_default.
  - lia.
  - apply example_start_ok.
  - apply example_start_numbers.
  - lia.
  - apply Forall_cons_2; [reflexivity|exact example_planned].
  - apply (bool_decide_unpack _). vm_compute. exact I.
Defined.
