(* ===== verification/History.v ===== *)
(** * Histories

    The states a namespace reaches: it starts with
    [bootstrap_metadata_state], and each commit validates its planned
    operations over the rows of the view and of the batch's accepted commits
    ([PublishPlanningSession::plan_commit] and [apply_accepted_commit] of
    [path/write/session.rs]) and is applied with
    [apply_committed_wal_record_mut].  Every reached state is a tree of
    names. *)
From S2P Require Import Prelude Types Records Manifest MetadataState Paths Visibility Errors StateReads.
From S2P Require Import Model Refinement Namespace Bootstrap Numbering Validate CommitSafety.
Local Open Scope N_scope.

Section history.
Context `{HeapBytes} `{NamePolicy}.

(** The calls of [CommitValidationSession::validate] of one commit: the
    planner compiles each request operation against the rows so far. *)
Inductive commit_run {V} `{CommitView V} (base_state : MetadataState)
  : CommitValidationSession V → list WalCommitDelta → CommitValidationSession V → Prop :=
| run_end s : commit_run base_state s [] s
| run_operation s layouts ops ds s1 rest s2 :
    Forall (planned (session_state base_state s)) ops → NoDup (ops ≫= op_created) →
    validate layouts s ops = Ok (ds, s1) → commit_run base_state s1 rest s2 →
    commit_run base_state s (ds ++ rest) s2.

(** The rows of a namespace at a sequence.  A commit's record carries the
    validated deltas, whose revisions' layouts are filled in afterwards
    ([carry_revision_layouts]). *)
Inductive history : MetadataState → ChangeSeq → Prop :=
| history_bootstrap created_at_ms access : history (bootstrap_metadata_state created_at_ms access) 0
| history_commit {V} `{CommitView V} (base : V) base_state batch floor seq record ds s' :
    history (stack_states [base_state; batch]) seq → rebuilt batch →
    CommitViewLaws base base_state floor → rows_above floor batch → floor ≤ seq →
    next_public_ordinal seq = Some record.(wcp_committed_seq) →
    commit_run base_state
      (CommitValidationSession_new base batch record.(wcp_committed_seq) record.(wcp_commit_id)
         record.(wcp_committed_by) record.(wcp_committed_at_ms)) ds s' →
    forget_layout <$> (wcd_delta <$> record.(wcp_deltas)) = forget_layout <$> (wcd_delta <$> ds) →
    history (apply_committed_wal_record_mut (stack_states [base_state; batch]) record)
      record.(wcp_committed_seq).

(** ** Every commit of a history keeps the invariant *)
Lemma run_validated {V} `{CommitView V} (base : V) base_state floor s ds s' :
  CommitViewLaws base base_state floor → session_ok base base_state floor s →
  commit_run base_state s ds s' → ∃ created, validated base base_state floor s ds s' created.
Proof.
  intros Hlaws Hok Hrun. induction Hrun as [s|s layouts ops ds s1 rest s2 Hplan Hnd Hval Hrun IH].
  - exists []. split; try done. by rewrite app_nil_r.
  - pose proof (commit_validated base base_state floor layouts ops s ds s1 Hok Hplan Hnd Hval) as Hv1.
    destruct (IH (vd_ok _ _ _ _ _ _ _ Hv1)) as [created Hv2].
    exists ((ops ≫= op_created) ++ created). by eapply validated_trans.
Qed.

Lemma apply_record_deltas st record :
  let st' := apply_committed_wal_deltas st record.(wcp_committed_seq) record.(wcp_commit_id)
    record.(wcp_committed_by) record.(wcp_committed_at_ms) (wcd_delta <$> record.(wcp_deltas)) in
  let st'' := apply_committed_wal_record_mut st record in
  st''.(ms_inodes) = st'.(ms_inodes) ∧ st''.(ms_direntry_binds) = st'.(ms_direntry_binds) ∧
  st''.(ms_subtree_tombstones) = st'.(ms_subtree_tombstones) ∧
  ∀ seq next, numbering_ok st' seq next → numbering_ok st'' seq next.
Proof.
  cbv zeta. unfold apply_committed_wal_record_mut, apply_committed_wal_deltas. rewrite foldl_fmap. split_and!; [done..|].
  intros seq next. by apply numbering_tables.
Qed.

(** Every state of a history satisfies the invariant. *)
Lemma history_ok st seq : history st seq → ∃ next, namespace_ok st seq next ∧ numbering_ok st seq next.
Proof.
  induction 1 as [created_at_ms access|V view base base_state batch floor seq record ds s' _ (next & IH & IHn)
    Hbatch Hlaws Habove Hfloor Hseq Hrun Hds].
  - exists 1. split; [eapply namespace_ok_next; [apply bootstrap_ok|lia]|apply bootstrap_numbering].
  - set (s0 := CommitValidationSession_new _ _ _ _ _ _) in Hrun.
    assert (session_state base_state s0 = stack_states [base_state; batch]) as Hs0 by apply stack_default.
    assert (session_ok base base_state floor s0) as Hok0.
    { pose proof (next_public_ordinal_lt _ _ Hseq).
      split; [done|done|apply default_rebuilt|by split; [|apply rows_above_default]|cbn; lia|..]; rewrite Hs0.
      - eapply namespace_ok_later; [done|]. by apply next_public_ordinal_lt.
      - eapply numbering_later; [done|]. left. by apply next_public_ordinal_lt. }
    destruct (run_validated _ _ _ _ _ _ Hlaws Hok0 Hrun) as [created [Hok' Hc _ Hst _ _]].
    pose proof (so_state _ _ _ _ Hok') as Hn. pose proof (so_numbers _ _ _ _ Hok') as Hm.
    rewrite Hst, Hs0 in Hn, Hm. injection Hc as E _ _ _.
    exists (s'.(cs_numbering).(next_delta_index)). cbn in E. rewrite E in Hn, Hm.
    destruct (apply_record_deltas (stack_states [base_state; batch]) record) as (R1 & R2 & R3 & R4).
    destruct (relayout_tables (stack_states [base_state; batch]) _ record.(wcp_committed_seq)
      record.(wcp_commit_id) record.(wcp_committed_by) record.(wcp_committed_at_ms) _ _
      eq_refl eq_refl eq_refl Hds) as (T1 & T2 & T3).
    split.
    + eapply (namespace_ok_ext _ _ _ _ (eq_trans R1 T1) (eq_trans R2 T2) (eq_trans R3 T3)); [|exact Hn].
      apply apply_record_rebuilt, stack_rebuilt.
    + apply R4. by eapply (relayout_numbers (stack_states [base_state; batch])); [done..|exact Hds|].
Qed.
End history.

(** ** Consequences of the invariant *)
Section tree.
Context `{HeapBytes} st seq next (Hok : namespace_ok st seq next).
Abbreviation r := (reads_at_seq st seq).
Abbreviation child_at := (visible_child (reads_active_child_binding r) (reads_visible_inode r)).
#[local] Instance tree_lawful : VisibilityLaws r :=
  state_reads_lawful st (ns_rebuilt _ _ _ Hok) (ns_rows _ _ _ Hok) seq.

Lemma root_place : place_of st seq ROOT_INODE_ID = None.
Proof using Hok.
  destruct (place_of st seq ROOT_INODE_ID) as [e|] eqn:He; [|done].
  apply place_of_Some in He as (Hin & Hc & _). by destruct (ok_root_unbound _ (ns_rows _ _ _ Hok) e Hin).
Qed.

Lemma root_visible :
  ∃ root, reads_visible_inode r ROOT_INODE_ID = Ok (Some root) ∧ root.(ir_inode_kind) = Directory.
Proof using Hok.
  destruct (ns_root _ _ _ Hok) as (i & Hi & Hk). exists i. split; [|done].
  apply (visible_inode_spec _ (state_reads_total _)). rewrite (inode_row_scan _ _ _ Hok).
  split; [done|]. split; [by eapply grounded_all|].
  intros a Ha%(above_reaches _ _ _ Hok). apply rtc_inv in Ha as [Ha|(y & Hy & _)]; [subst a|].
  - rewrite (hiding_scan _ _ _ Hok). destruct (hiding_subtree_tombstone_scan st _ seq) eqn:Et; [|done].
    by destruct (ns_hidden _ _ _ Hok ROOT_INODE_ID) as [_ []]; [rewrite Et|].
  - unfold parent_of in Hy. by rewrite root_place in Hy.
Qed.

Lemma covering_answers i : ∃ o, reads_covering_subtree_tombstone r i = Ok o.
Proof using Hok.
  destruct (grounded_climbs r (λ a, Some <$> hiding r a) None i) as (n & o & Hc).
  - by eapply grounded_all.
  - exists o. apply (covering_walk _ (state_reads_total _)). by exists n.
Qed.

Lemma child_place p k x : child_at p k = Ok (Some x) →
  ∃ e, place_of st seq x.(db_child_inode_id) = Some e ∧ binding_slot e = (p, k) ∧
    e.(db_bind_position) = x.(db_bind_position).
Proof using Hok. intros Hx. by apply (entry_place _ _ _ Hok), (visible_child_is_entry _ _ _ Hok). Qed.

Lemma child_not_above p k x : child_at p k = Ok (Some x) → ¬ above r p x.(db_child_inode_id).
Proof using Hok.
  intros (e & He & Hs & _)%child_place Ha%(above_reaches _ _ _ Hok).
  apply (ends_acyclic (parent_of st seq) x.(db_child_inode_id)); [apply (ns_ends _ _ _ Hok)|].
  eapply tc_rtc_r; [|exact Ha]. apply tc_once. unfold parent_of. rewrite He. cbn.
  unfold binding_slot in Hs. congruence.
Qed.
End tree.

(** C2 Every reachable namespace is a tree of names.  After any history of
    validated commits from bootstrap, with rows read through any views that
    keep their law: the root is visible; every inode's deletion check answers
    (no ancestry is cyclic); a visible name and its child's own parent
    binding name each other; no inode has two visible names; no directory is
    at or above its own parent; and the reference model's binding rules hold
    of the rows. *)
Theorem reachable_namespace_is_tree `{HeapBytes} `{NamePolicy} (st : MetadataState) (seq : ChangeSeq)
  (Hhistory : history st seq) :
  let r := reads_at_seq st seq in
  let child := visible_child (reads_active_child_binding r) (reads_visible_inode r) in
  (∃ root, reads_visible_inode r ROOT_INODE_ID = Ok (Some root) ∧ root.(ir_inode_kind) = Directory) ∧
  (∀ i, ∃ o, reads_covering_subtree_tombstone r i = Ok o) ∧
  (∀ p k x, child p k = Ok (Some x) →
    ∃ e, reads_current_parent_binding_for_child r x.(db_child_inode_id) = Ok (Some e) ∧
      binding_slot e = (p, k) ∧ e.(db_bind_position) = x.(db_bind_position)) ∧
  (∀ p k x p' k' y, child p k = Ok (Some x) → child p' k' = Ok (Some y) →
    x.(db_child_inode_id) = y.(db_child_inode_id) → p = p' ∧ k = k') ∧
  (∀ p k x, child p k = Ok (Some x) → ¬ above r p x.(db_child_inode_id)) ∧
  model_verify_bindings (model_of st) seq = Ok ().
Proof.
  destruct (history_ok st seq Hhistory) as (next & Hok & _). cbv zeta. split_and!.
  - by eapply root_visible.
  - by eapply covering_answers.
  - intros p k x (e & He & Hs)%(child_place _ _ _ Hok). exists e. split; [|done].
    cbn [reads_current_parent_binding_for_child MetadataStateReads_reads].
    rewrite (sr_current_parent st (ns_rebuilt _ _ _ Hok) (ns_rows _ _ _ Hok)). f_equal. exact He.
  - intros p k x p' k' y (e & He & Hs & _)%(child_place _ _ _ Hok).
    intros (e' & He' & Hs' & _)%(child_place _ _ _ Hok) Heq. rewrite Heq in He. split; congruence.
  - by eapply child_not_above.
  - by eapply namespace_verified.
Qed.

#[local] Existing Instance no_heap.
#[local] Existing Instance example_policy.

(** A history of one commit: the example operations over a fresh namespace. *)
Definition example_validation : res CoreError (list WalCommitDelta * CommitValidationSession StateView) :=
  validate (λ _, None)
    (CommitValidationSession_new example_view MetadataState_default 1 "commit" "user" 10) example_ops.

Definition example_committed : list WalCommitDelta :=
  Eval vm_compute in match example_validation with Ok (ds, _) => ds | _ => [] end.

Definition example_record : WalCommitPayload :=
  mkWalCommitPayload 1 "commit" "user" "fingerprint" 10 None None example_committed [].

Definition example_reached : MetadataState :=
  apply_committed_wal_record_mut (stack_states [example_start; MetadataState_default]) example_record.

Lemma example_committed_validated : ∃ s', example_validation = Ok (example_committed ++ [], s').
Proof. eexists. vm_compute. reflexivity. Qed.

Lemma example_history : history example_reached (wcp_committed_seq example_record).
Proof.
  destruct example_committed_validated as [s' E]. unfold example_reached.
  eapply (history_commit example_view example_start MetadataState_default 0 0 example_record
    (example_committed ++ []) s').
  - assert (stack_states [example_start; MetadataState_default] = example_start) as ->.
    { apply rebuilt_rows_eq; [apply stack_rebuilt|apply rebuild_indexes_rebuilt|done..]. }
    apply history_bootstrap.
  - apply default_rebuilt.
  - apply StateView_laws.
  - apply rows_above_default.
  - lia.
  - reflexivity.
  - rewrite <-(app_nil_r (example_committed ++ [])).
    eapply run_operation; [| |exact E|apply run_end].
    + unfold session_state. cbn [CommitValidationSession_new cs_batch_accepted cs_overlay].
      rewrite stack_default. exact example_planned.
    + apply (bool_decide_unpack _). vm_compute. exact I.
  - rewrite app_nil_r. reflexivity.
Qed.

Lemma reachable_namespace_is_tree_witness :
  (∃ x, visible_child (reads_active_child_binding (reads_at_seq example_reached 1))
     (reads_visible_inode (reads_at_seq example_reached 1)) ROOT_INODE_ID "c" = Ok (Some x) ∧
     x.(db_child_inode_id) = 6 ∧
     ¬ above (reads_at_seq example_reached 1) ROOT_INODE_ID x.(db_child_inode_id)) ∧
  model_verify_bindings (model_of example_reached) 1 = Ok ().
Proof.
  destruct (reachable_namespace_is_tree example_reached 1 example_history)
    as (_ & _ & _ & _ & Habove & Hmodel). split; [|exact Hmodel].
  eexists. split; [vm_compute; reflexivity|]. split; [reflexivity|].
  apply (Habove ROOT_INODE_ID "c"). vm_compute. reflexivity.
Defined.
