(* ===== verification/Compacted.v ===== *)
(** * Reads over compacted metadata

    A base compaction drops rows at or below the retention floor
    ([Retention]).  This file shows what makes that safe: every read at or
    above the floor answers from the kept rows as it does from all rows, the
    families of a namespace's rows pass the compaction's own checks, and
    commits validated over compacted metadata keep the namespace sound.
    [compact] gives each family group a floor of its own, since groups are
    compacted independently. *)
From S2P Require Import Prelude Types Utf8 Records Codec RowKeys Paths Ids ObjectKeys Manifest MetadataState SegmentLoad SegmentRows.
From S2P Require Import Visibility Errors Retention StateReads Model Refinement Namespace Bootstrap Numbering Validate CommitSafety History.
Local Open Scope N_scope.

(** ** Kept rows, decided *)
#[export] Instance elem_all_dec {A} (l : list A) (P : A → Prop) `{∀ x, Decision (P x)} :
  Decision (∀ y, y ∈ l → P y).
Proof. refine (cast_if (decide (Forall P l))); by rewrite <-Forall_forall. Defined.

#[export] Instance kle_dec {K} `{Ord K} (a b : K) : Decision (kle a b).
Proof. unfold kle. apply _. Defined.

#[export] Instance newest_floor_event_dec floor binds x : Decision (newest_floor_event floor binds x).
Proof. unfold newest_floor_event. apply _. Defined.
#[export] Instance binding_kept_dec floor binds x : Decision (binding_kept floor binds x).
Proof. unfold binding_kept. apply _. Defined.
#[export] Instance state_kept_dec {A} (inode : A → InodeId) committed order floor l a :
  Decision (state_kept inode committed order floor l a).
Proof. unfold state_kept. apply _. Defined.
#[export] Instance revision_kept_dec floor l r : Decision (revision_kept floor l r) := state_kept_dec _ _ _ _ _ _.
#[export] Instance attributes_kept_dec floor l r : Decision (attributes_kept floor l r) := state_kept_dec _ _ _ _ _ _.
#[export] Instance access_kept_dec floor l r : Decision (access_kept floor l r) := state_kept_dec _ _ _ _ _ _.
#[export] Instance layout_kept_dec l r : Decision (layout_kept l r).
Proof. unfold layout_kept. apply _. Defined.

(** The rows that base compactions keep, where the last one of a group ran at
    the group's floor. *)
Definition compact `{HeapBytes} (floors : MetadataFamilyGroup → ChangeSeq) (st : MetadataState) : MetadataState :=
  from_rows st.(ms_inodes)
    (filter (binding_kept (floors GrpBindings) st.(ms_direntry_binds)) st.(ms_direntry_binds))
    (filter (revision_kept (floors GrpRevisions) st.(ms_revisions)) st.(ms_revisions))
    st.(ms_subtree_tombstones)
    (filter (λ r, floors GrpCommits ≤ r.(rc_committed_seq)) st.(ms_commit_receipts))
    (filter (λ r, floors GrpCommits ≤ r.(wcp_committed_seq)) st.(ms_commits))
    (filter (attributes_kept (floors GrpAttributes) st.(ms_attributes_revisions)) st.(ms_attributes_revisions))
    (filter (layout_kept st.(ms_content_layouts)) st.(ms_content_layouts))
    (filter (access_kept (floors GrpAccess) st.(ms_access_revisions)) st.(ms_access_revisions)).

(** [st'] has the rows of [st] that decide reads and that compaction keeps. *)
Record compacted `{HeapBytes} (floors : MetadataFamilyGroup → ChangeSeq) (st st' : MetadataState) : Prop := {
  cp_rebuilt : rebuilt st';
  cp_inodes : st'.(ms_inodes) = st.(ms_inodes);
  cp_tombstones : st'.(ms_subtree_tombstones) = st.(ms_subtree_tombstones);
  cp_binds : st'.(ms_direntry_binds)
    = filter (binding_kept (floors GrpBindings) st.(ms_direntry_binds)) st.(ms_direntry_binds);
  cp_revisions : st'.(ms_revisions) = filter (revision_kept (floors GrpRevisions) st.(ms_revisions)) st.(ms_revisions);
  cp_attributes : st'.(ms_attributes_revisions)
    = filter (attributes_kept (floors GrpAttributes) st.(ms_attributes_revisions)) st.(ms_attributes_revisions);
  cp_access : st'.(ms_access_revisions)
    = filter (access_kept (floors GrpAccess) st.(ms_access_revisions)) st.(ms_access_revisions);
}.

Lemma compact_compacted `{HeapBytes} floors st : compacted floors st (compact floors st).
Proof. split; [apply rebuild_indexes_rebuilt|done..]. Qed.

(** ** Reads that agree on rows agree on visibility *)
Section fuel.
Context {E : Type} `{FromVisiblePathError E}.

Lemma walk_while_fuel {X} (cp : InodeId → res E (option DirentryBindingRecord))
    (body : InodeId → res E (option X)) otherwise fuel fuel' walk :
  walk_while cp fuel body otherwise walk ≠ OutOfFuel → (fuel ≤ fuel')%nat →
  walk_while cp fuel' body otherwise walk = walk_while cp fuel body otherwise walk.
Proof.
  revert fuel' walk. induction fuel as [|fuel IH]; intros fuel' walk Hne Hle; [done|].
  destruct fuel' as [|fuel']; [lia|]. cbn [walk_while] in *.
  destruct (walk_next cp walk) as [[[a|] w]| | |]; cbn [mbind res_bind] in *; try done.
  destruct (body a) as [[]| | |]; cbn [mbind res_bind] in *; try done. apply IH; [done|lia].
Qed.

Lemma walk_while_fuel_any {X} (cp : InodeId → res E (option DirentryBindingRecord))
    (body : InodeId → res E (option X)) otherwise fuel fuel' walk :
  returns (walk_while cp fuel body otherwise walk) → returns (walk_while cp fuel' body otherwise walk) →
  walk_while cp fuel' body otherwise walk = walk_while cp fuel body otherwise walk.
Proof.
  intros H1 H2. assert (∀ m : res E X, returns m → m ≠ OutOfFuel) as Hr by (by intros []).
  destruct (Nat.le_ge_cases fuel fuel').
  - apply walk_while_fuel; auto.
  - symmetry. apply walk_while_fuel; auto.
Qed.
End fuel.

Section same_reads.
Context (r r' : MetadataStateReads) `{!VisibilityLaws r} `{!VisibilityLaws r'}.
Context (Hinode : ∀ i, find_inode r' i = find_inode r i).
Context (Hparent : ∀ c, reads_current_parent_binding_for_child r' c = reads_current_parent_binding_for_child r c).
Context (Hchild : ∀ p k, reads_active_child_binding r' p k = reads_active_child_binding r p k).
Context (Hhiding : ∀ i, find_hiding_subtree_tombstone r' i = find_hiding_subtree_tombstone r i).

Lemma same_walk {X} (stop : InodeId → option X) (body body' : InodeId → res VisiblePathError (option X)) otherwise a :
  (∀ b, body b = Ok (stop b)) → (∀ b, body' b = body b) →
  walk_while (reads_current_parent_binding_for_child r') (walk_fuel r') body' otherwise (AncestorWalk_new a)
  = walk_while (reads_current_parent_binding_for_child r) (walk_fuel r) body otherwise (AncestorWalk_new a).
Proof using All.
  intros Hstop Hbody. rewrite (walk_while_ext _ _ _ _ _ _ _ Hparent Hbody).
  apply walk_while_fuel_any.
  - by eapply (lawful_walk_returns r (state_reads_total r)).
  - rewrite <-(walk_while_ext _ _ _ body body _ _ Hparent (λ _, eq_refl)).
    by eapply (lawful_walk_returns r' (state_reads_total r')).
Qed.

Lemma same_covering i : reads_covering_subtree_tombstone r' i = reads_covering_subtree_tombstone r i.
Proof using All.
  rewrite !law_covering. unfold covering_subtree_tombstone.
  apply (same_walk (λ a, match ok_value (find_hiding_subtree_tombstone r a) with Some t => Some (Some t) | None => None end)).
  - intros b. cbn [find_hiding_subtree_tombstone MetadataStateReads_reads mbind res_bind ok_value].
    by destruct (sr_find_hiding_subtree_tombstone r b).
  - intros b. by rewrite Hhiding.
Qed.

Lemma same_cycle i p :
  would_create_directory_cycle (reads_current_parent_binding_for_child r') (walk_fuel r') i p
  = would_create_directory_cycle (reads_current_parent_binding_for_child r) (walk_fuel r) i p.
Proof using All.
  unfold would_create_directory_cycle. apply (same_walk (λ a, if decide (a = i) then Some true else None)).
  - intros b. by case_decide.
  - done.
Qed.

Lemma same_visible_inode i : reads_visible_inode r' i = reads_visible_inode r i.
Proof using All.
  rewrite !law_visible_inode. unfold visible_inode. rewrite Hinode.
  destruct (find_inode r i) as [[x|]| | |]; cbn [mbind res_bind]; [by rewrite same_covering|done..].
Qed.

Lemma same_visible_child p k :
  visible_child (reads_active_child_binding r') (reads_visible_inode r') p k
  = visible_child (reads_active_child_binding r) (reads_visible_inode r) p k.
Proof using All.
  unfold visible_child. rewrite same_visible_inode, Hchild.
  destruct (reads_visible_inode r p) as [[x|]| | |]; try done. cbn [mbind res_bind]. case_decide; [done|].
  destruct (reads_active_child_binding r p k) as [[y|]| | |]; try done. cbn [mbind res_bind]. by rewrite same_visible_inode.
Qed.

Lemma same_resolve_components `{NamePolicy} last path components :
  resolve_components (reads_active_child_binding r') (reads_covering_subtree_tombstone r') last path components
  = resolve_components (reads_active_child_binding r) (reads_covering_subtree_tombstone r) last path components.
Proof using All.
  revert last path. induction components as [|c components IH]; intros last path; [done|]. cbn [resolve_components].
  destruct last as [b|]; (case_decide; [done|]); rewrite Hchild.
  all: destruct (reads_active_child_binding r _ _) as [[x|]| | |]; try done; cbn [mbind res_bind ok_or].
  all: unfold visible_page_child; destruct (negb (is_bound x)); [done|]; rewrite same_covering.
  all: destruct (reads_covering_subtree_tombstone r _) as [[y|]| | |]; try done; cbn [mbind res_bind ok_or].
  all: destruct (binding_display_name x); [apply IH|done].
Qed.

Lemma same_resolve `{NamePolicy} path :
  resolve_visible_path (reads_active_child_binding r') (reads_covering_subtree_tombstone r') (reads_visible_inode r') path
  = resolve_visible_path (reads_active_child_binding r) (reads_covering_subtree_tombstone r) (reads_visible_inode r) path.
Proof using All. unfold resolve_visible_path. by rewrite same_visible_inode, same_resolve_components. Qed.
End same_reads.

Lemma filter_swap {A} (P Q : A → Prop) `{!∀ x, Decision (P x), !∀ x, Decision (Q x)} (l : list A) :
  filter P (filter Q l) = filter Q (filter P l).
Proof. rewrite !list_filter_filter. apply list_filter_iff. naive_solver. Qed.

(** The newest row of a kind is still the newest when it is kept. *)
Lemma kept_newest {A K} `{TotalOrd K} (key : A → K) (P Q : A → Prop) `{!∀ x, Decision (P x), !∀ x, Decision (Q x)} l m :
  max_by_key key (filter P l) = Some m → Q m → max_by_key key (filter P (filter Q l)) = Some m.
Proof. intros Hm HQ. rewrite filter_swap. by apply max_by_key_filter. Qed.

(** ** Bindings at or above the floor *)
Section bindings.
Context `{HeapBytes} (floors : MetadataFamilyGroup → ChangeSeq) (st st' : MetadataState) (s : ChangeSeq).
Context (Hc : compacted floors st st').
Abbreviation floor := (floors GrpBindings).
Context (Hpos : NoDup (binding_position <$> st.(ms_direntry_binds))).
Context (Hsum : summaries_ok st) (Hfloor : floor_ok st floor) (Hle : floor ≤ s).

Lemma position_seq_le (x y : DirentryBindingRecord) :
  kle (binding_position x) (binding_position y) → x.(db_committed_seq) ≤ y.(db_committed_seq).
Proof.
  unfold kle, binding_position, cmp, DeltaPosition_ord, cmp, prod_ord, cmp, N_ord. cbn.
  destruct (N.compare_spec (db_committed_seq x) (db_committed_seq y)); cbn; intros; try done; lia.
Qed.

Lemma elem_of_compact_binds x :
  x ∈ st'.(ms_direntry_binds) ↔ x ∈ st.(ms_direntry_binds) ∧ binding_kept floor st.(ms_direntry_binds) x.
Proof using Hc. rewrite (cp_binds _ _ _ Hc), list_elem_of_filter. naive_solver. Qed.

(** A row at or below the floor whose edge's newest event binds has its edge
    in place. *)
Lemma newest_event_in_place e :
  e ∈ st.(ms_direntry_binds) → is_binding_event e = true → is_bound e = true → e.(db_committed_seq) ≤ floor →
  newest_floor_event floor st.(ms_direntry_binds) e → place_of st floor e.(db_child_inode_id) = Some e.
Proof using Hfloor.
  intros Hin Hev Hb Hs Hn. apply (fl_edges _ _ Hfloor); try done. intros y Hy Hye Hslot Hchild Hys.
  apply Hn; try done. unfold binding_edge, binding_slot in *. congruence.
Qed.

(** The newest event of the edge of [x] at the floor. *)
Lemma edge_newest x :
  x ∈ st.(ms_direntry_binds) → is_binding_event x = true → x.(db_committed_seq) ≤ floor →
  ∃ z, z ∈ st.(ms_direntry_binds) ∧ binding_edge z = binding_edge x ∧ is_binding_event z = true ∧
    z.(db_committed_seq) ≤ floor ∧ newest_floor_event floor st.(ms_direntry_binds) z ∧
    kle (binding_position x) (binding_position z).
Proof.
  intros Hx Hev Hs.
  destruct (max_by_key binding_position (filter (λ z, binding_edge z = binding_edge x ∧ is_binding_event z = true ∧
    z.(db_committed_seq) ≤ floor) st.(ms_direntry_binds))) as [z|] eqn:E.
  - apply max_by_key_is_max in E as [Hz Hmax]. apply list_elem_of_filter in Hz as [(Hze & Hzv & Hzs) Hz].
    exists z. split_and!; try done.
    + intros y Hy Hye Hyv Hys. apply Hmax, list_elem_of_filter. split; [|done]. split_and!; [congruence|done..].
    + by apply Hmax, list_elem_of_filter.
  - apply max_by_key_None in E. by destruct (filter_nil_not_elem_of _ _ x E).
Qed.

(** No kept bound row of a slot that is free at the floor. *)
Lemma free_slot_drops y :
  y ∈ st'.(ms_direntry_binds) → is_bound y = true → y.(db_committed_seq) ≤ floor →
  entries st floor (binding_slot y) = None → False.
Proof using Hc Hpos Hsum Hfloor Hle.
  intros [Hy Hk]%elem_of_compact_binds Hb Hs Hnone.
  assert (∀ e, e ∈ st.(ms_direntry_binds) → is_binding_event e = true → is_bound e = true →
    e.(db_committed_seq) ≤ floor → newest_floor_event floor st.(ms_direntry_binds) e →
    binding_slot e = binding_slot y → False) as Hcontra.
  { intros e He Hev Hbe Hse Hn Hslot. pose proof (newest_event_in_place e He Hev Hbe Hse Hn) as Hp.
    assert (places st floor e.(db_child_inode_id) = Some (binding_slot e, e.(db_bind_position))) as Hpl
      by (unfold places; by rewrite Hp).
    apply (fl_agree _ _ Hfloor) in Hpl. congruence. }
  destruct Hk as [?|[(Hev & _ & Hn)|(Hev & _ & Hlater)]]; [lia|by eapply Hcontra|].
  destruct (Hsum y Hy Hev) as (e & He & Hee & Heb & _ & Hslot & Hchild & _ & _ & Hes & Hbetween).
  assert (binding_edge e = binding_edge y) as Hedge by (unfold binding_edge, binding_slot in *; congruence).
  destruct (edge_newest e He Hee) as (z & Hz & Hze & Hzv & Hzs & Hzn & Hez); [lia|].
  assert (binding_slot z = binding_slot y) as Hzslot by (unfold binding_edge, binding_slot in *; congruence).
  destruct (Hbetween z Hz Hzv Hzslot) as [Hle'|Hlt].
  - assert (z = e) as ->.
    { apply (NoDup_fmap_elem binding_position st.(ms_direntry_binds)); try done. by apply kle_antisym. }
    by eapply Hcontra.
  - eapply (Hcontra z); try done. apply Hlater; try done. congruence.
Qed.

Lemma slot_newest_kept p k x :
  bound_child_at_seq_scan st p k s = Some x → is_bound x = true →
  binding_kept floor st.(ms_direntry_binds) x.
Proof using Hle.
  intros E Hb. apply max_by_key_is_max in E as [Hx Hmax]. apply list_elem_of_filter in Hx as [(Hp & Hk & Hs) Hx].
  assert (∀ y, y ∈ st.(ms_direntry_binds) → binding_edge y = binding_edge x → y.(db_committed_seq) ≤ floor →
    kle (binding_position y) (binding_position x)) as Hnew.
  { intros y Hy Hye Hys. apply Hmax, list_elem_of_filter. split; [|done]. unfold binding_edge in Hye.
    split_and!; [congruence|congruence|lia]. }
  destruct (is_binding_event x) eqn:Hev.
  - right. left. split_and!; [done..|]. intros y ? ? _ ?. by apply Hnew.
  - right. right. split_and!; [done|intros y ? ? _ ?; by apply Hnew|].
    intros y Hy Hye _ Hys Hlt. destruct (kle_not_lt (binding_position y) (binding_position x)); auto.
Qed.

(** What is newest at [s] and committed by the floor is newest at the floor. *)
Lemma scan_at_floor (R P Q : DirentryBindingRecord → Prop) `{!∀ b, Decision (P b), !∀ b, Decision (Q b)} x :
  max_by_key binding_position (filter P st.(ms_direntry_binds)) = Some x → x.(db_committed_seq) ≤ floor →
  (∀ b, P b ↔ R b ∧ b.(db_committed_seq) ≤ s) → (∀ b, Q b ↔ R b ∧ b.(db_committed_seq) ≤ floor) →
  max_by_key binding_position (filter Q st.(ms_direntry_binds)) = Some x.
Proof using Hle.
  intros E Hx HP HQ. rewrite <-E. f_equal. apply max_by_key_is_max in E as [_ Hmax]. apply filter_ext_in. intros b Hb.
  rewrite HP, HQ. split; intros [HR Hs]; (split; [done|]); [lia|].
  assert (b.(db_committed_seq) ≤ x.(db_committed_seq)); [|lia].
  apply position_seq_le, Hmax, list_elem_of_filter. split; [by apply HP|done].
Qed.

Lemma compact_entry p k : entry_of st' s p k = entry_of st s p k.
Proof using Hc Hpos Hsum Hfloor Hle.
  unfold entry_of. destruct (bound_child_at_seq_scan st p k s) as [x|] eqn:E.
  - assert (binding_kept floor st.(ms_direntry_binds) x →
      bound_child_at_seq_scan st' p k s = Some x) as Hkeep.
    { intros Hk. unfold bound_child_at_seq_scan in E |- *.
      rewrite (cp_binds _ _ _ Hc). by apply kept_newest. }
    destruct (is_bound x) eqn:Hb; [rewrite Hkeep; [done|by eapply slot_newest_kept]|].
    destruct (decide (floor < x.(db_committed_seq))) as [Hgt|Hng].
    { rewrite Hkeep; [done|by left]. }
    assert (option_filter is_bound (Some x) = None) as -> by (cbn; by rewrite Hb).
    destruct (bound_child_at_seq_scan st' p k s) as [y|] eqn:E'; [|done]. cbn.
    destruct (is_bound y) eqn:Hyb; [exfalso|done].
    apply max_by_key_is_max in E' as [Hy _]. apply list_elem_of_filter in Hy as [(Hyp & Hyk & Hys) Hy].
    pose proof Hy as [Hyst _]%elem_of_compact_binds.
    pose proof E as [Hx Hmax]%max_by_key_is_max. apply list_elem_of_filter in Hx as [(Hxp & Hxk & Hxs) Hx].
    assert (y.(db_committed_seq) ≤ floor) as Hyf.
    { assert (y.(db_committed_seq) ≤ x.(db_committed_seq)); [|lia].
      apply position_seq_le, Hmax, list_elem_of_filter. done. }
    apply (free_slot_drops y Hy Hyb Hyf). unfold entries, entry_of, binding_slot. cbn [fst snd]. rewrite Hyp, Hyk.
    assert (bound_child_at_seq_scan st p k floor = Some x) as ->; [|cbn; by rewrite Hb].
    unfold bound_child_at_seq_scan in E |- *.
    eapply (scan_at_floor (λ b, b.(db_parent_inode_id) = p ∧ b.(db_name_key) = k)); [exact E|lia|naive_solver..].
  - apply max_by_key_None in E. assert (bound_child_at_seq_scan st' p k s = None) as ->; [|done].
    apply max_by_key_None, filter_none. intros y [Hy _]%elem_of_compact_binds Hyp.
    by destruct (filter_nil_not_elem_of _ _ y E Hyp).
Qed.

Lemma compact_place c : place_of st' s c = place_of st s c.
Proof using Hc Hpos Hsum Hfloor Hle.
  unfold place_of. destruct (latest_parent_binding_for_child_at_seq st c s) as [x|] eqn:E.
  - pose proof E as [Hx Hmax]%max_by_key_is_max. apply list_elem_of_filter in Hx as [(Hxc & Hxe & Hxs) Hx].
    assert (binding_kept floor st.(ms_direntry_binds) x →
      latest_parent_binding_for_child_at_seq st' c s = Some x) as Hkeep.
    { intros Hk. unfold latest_parent_binding_for_child_at_seq in E |- *.
      rewrite (cp_binds _ _ _ Hc). by apply kept_newest. }
    destruct (decide (floor < x.(db_committed_seq))) as [Hgt|Hng]; [rewrite Hkeep; [done|by left]|].
    destruct (is_bound x) eqn:Hb.
    { rewrite Hkeep; [done|]. right. left. split_and!; [done..|]. intros y Hy Hye Hyv Hys.
      apply Hmax, list_elem_of_filter. split; [|done]. unfold binding_edge in Hye. split_and!; [congruence|done|lia]. }
    assert (option_filter is_bound (Some x) = None) as -> by (cbn; by rewrite Hb).
    destruct (latest_parent_binding_for_child_at_seq st' c s) as [y|] eqn:E'; [|done]. cbn.
    destruct (is_bound y) eqn:Hyb; [exfalso|done].
    apply max_by_key_is_max in E' as [Hy _]. apply list_elem_of_filter in Hy as [(Hyc & Hye & Hys) Hy].
    apply elem_of_compact_binds in Hy as [Hy Hk].
    assert (y.(db_committed_seq) ≤ floor) as Hyf.
    { assert (y.(db_committed_seq) ≤ x.(db_committed_seq)); [|lia].
      apply position_seq_le, Hmax, list_elem_of_filter. done. }
    destruct Hk as [?|[(_ & _ & Hn)|(? & _)]]; [lia| |congruence].
    pose proof (newest_event_in_place y Hy Hye Hyb Hyf Hn) as Hp. rewrite Hyc in Hp. unfold place_of in Hp.
    assert (latest_parent_binding_for_child_at_seq st c floor = Some x) as Ex; [|rewrite Ex in Hp; cbn in Hp; by rewrite Hb in Hp].
    unfold latest_parent_binding_for_child_at_seq in E |- *.
    eapply (scan_at_floor (λ b, b.(db_child_inode_id) = c ∧ is_binding_event b = true)); [exact E|lia|naive_solver..].
  - apply max_by_key_None in E. assert (latest_parent_binding_for_child_at_seq st' c s = None) as ->; [|done].
    apply max_by_key_None, filter_none. intros y [Hy _]%elem_of_compact_binds Hyp.
    by destruct (filter_nil_not_elem_of _ _ y E Hyp).
Qed.
End bindings.

(** ** Whole states at or above the floor *)
Section states.
Context {A : Type} (inode : A → InodeId) (committed : A → ChangeSeq) (order : A → N * (N * N)).
Context (Horder : ∀ a, (order a).2.1 = committed a).

Lemma newest_state_compact floor seq l i :
  floor ≤ seq →
  max_by_key order (filter (λ a, inode a = i ∧ committed a ≤ seq) (filter (state_kept inode committed order floor l) l))
  = max_by_key order (filter (λ a, inode a = i ∧ committed a ≤ seq) l).
Proof.
  intros Hle. destruct (max_by_key order (filter _ l)) as [m|] eqn:E.
  - apply kept_newest; [done|]. apply max_by_key_is_max in E as [Hm Hmax].
    apply list_elem_of_filter in Hm as [[<- Hs] Hm]. right. intros b Hb Hi Hbs. apply Hmax, list_elem_of_filter.
    split; [|done]. split; [done|lia].
  - apply max_by_key_None in E. apply max_by_key_None, filter_none. intros a [_ Ha]%list_elem_of_filter HP.
    by destruct (filter_nil_not_elem_of _ _ a E HP).
Qed.

(** A state of a number is kept, or a newer one with another number is the
    newest at the floor. *)
Lemma numbered_state_compact floor seq l i no :
  floor ≤ seq →
  let P a := inode a = i ∧ (order a).1 = no ∧ committed a ≤ seq in
  let kept := max_by_key order (filter P (filter (state_kept inode committed order floor l) l)) in
  kept = max_by_key order (filter P l) ∨
  (kept = None ∧ ∀ r, max_by_key order (filter P l) = Some r → committed r ≤ floor ∧
     ∃ b, b ∈ l ∧ inode b = i ∧ committed b ≤ floor ∧ cmp (order r) (order b) = Lt).
Proof using Horder.
  intros Hle P kept. destruct (max_by_key order (filter P l)) as [m|] eqn:E.
  - destruct (decide (state_kept inode committed order floor l m)) as [Hk|Hn].
    { left. by apply kept_newest. }
    pose proof E as [Hm Hmax]%max_by_key_is_max. apply list_elem_of_filter in Hm as [(Hi & Hno & Hs) Hm].
    unfold state_kept in Hn. apply Decidable.not_or in Hn as [Hmf Hb].
    right. split.
    + apply max_by_key_None, filter_none. intros a [[Ha|Ha] Hal]%list_elem_of_filter (Hai & Han & Has).
      * assert (committed a ≤ committed m); [|lia]. assert (kle (order a) (order m)) as Hk.
        { apply Hmax, list_elem_of_filter. done. }
        rewrite <-!Horder. destruct (order a) as [na [ca da]], (order m) as [nm [cm dm]]. cbn in *. subst.
        unfold kle, cmp, prod_ord, cmp, prod_ord, cmp, N_ord in Hk. cbn in Hk. rewrite N.compare_refl in Hk. cbn in Hk.
        destruct (N.compare_spec ca cm); cbn in Hk; try done; lia.
      * destruct Hb. intros b Hbl Hbi Hbf. eapply (kle_trans _ (order a)); [apply Ha; try done; congruence|].
        apply Hmax, list_elem_of_filter. done.
    + intros r [= <-]. split; [lia|].
      destruct (decide (Exists (λ b, inode b = i ∧ committed b ≤ floor ∧ cmp (order m) (order b) = Lt) l)) as [Hex|Hnex].
      * apply Exists_exists in Hex. naive_solver.
      * exfalso. apply Hb. intros b Hbl Hbi Hbf Hgt. apply Hnex, Exists_exists. exists b.
        apply cmp_gt_lt in Hgt. split_and!; try done. congruence.
  - left. apply max_by_key_None in E. apply max_by_key_None, filter_none. intros a [_ Ha]%list_elem_of_filter HP.
    by destruct (filter_nil_not_elem_of _ _ a E HP).
Qed.
End states.

(** ** Every read at or above the floor *)
Section reads.
Context `{HeapBytes} (floors : MetadataFamilyGroup → ChangeSeq) (st st' : MetadataState) (seq s : ChangeSeq) (next : N).
Context (Hc : compacted floors st st').
Context (Hok : namespace_ok st seq next) (Hfloors : ∀ group, floors group ≤ s) (Hs : s ≤ seq).

Lemma compact_rows_ok : rows_ok st'.
Proof using Hc Hok.
  destruct (ns_rows _ _ _ Hok) as [H1 H2 H3 H4]. split.
  - by rewrite (cp_inodes _ _ _ Hc).
  - eapply sublist_NoDup; [exact H2|]. rewrite (cp_binds _ _ _ Hc). apply fmap_sublist, sublist_filter.
  - by rewrite (cp_tombstones _ _ _ Hc).
  - intros row [Hrow _]%(elem_of_compact_binds _ _ _ Hc). by apply H4.
Qed.

Lemma compact_floor_ok : floor_ok st (floors GrpBindings).
Proof using Hok Hfloors Hs. apply (ns_floors _ _ _ Hok). specialize (Hfloors GrpBindings). lia. Qed.

Lemma compact_place_at c : place_of st' s c = place_of st s c.
Proof using All. apply (compact_place floors); [done|apply Hok|apply Hok|apply compact_floor_ok|apply Hfloors]. Qed.
Lemma compact_entry_at p k : entry_of st' s p k = entry_of st s p k.
Proof using All. apply (compact_entry floors); [done|apply Hok|apply Hok|apply compact_floor_ok|apply Hfloors]. Qed.

Abbreviation r := (reads_at_seq st s).
Abbreviation r' := (reads_at_seq st' s).
#[local] Instance full_lawful : VisibilityLaws r := state_reads_lawful st (ns_rebuilt _ _ _ Hok) (ns_rows _ _ _ Hok) s.
#[local] Instance compact_lawful : VisibilityLaws r' := state_reads_lawful st' (cp_rebuilt _ _ _ Hc) compact_rows_ok s.

Lemma compact_find_inode i : find_inode r' i = find_inode r i.
Proof using All.
  cbn [find_inode MetadataStateReads_reads]. f_equal.
  rewrite (sr_find_inode_scan st' (cp_rebuilt _ _ _ Hc) compact_rows_ok),
    (sr_find_inode_scan st (ns_rebuilt _ _ _ Hok) (ns_rows _ _ _ Hok)). unfold inode_at_seq_scan. by rewrite (cp_inodes _ _ _ Hc).
Qed.
Lemma compact_hiding i : find_hiding_subtree_tombstone r' i = find_hiding_subtree_tombstone r i.
Proof using All.
  cbn [find_hiding_subtree_tombstone MetadataStateReads_reads]. f_equal.
  rewrite (sr_find_hiding_scan st' (cp_rebuilt _ _ _ Hc) compact_rows_ok),
    (sr_find_hiding_scan st (ns_rebuilt _ _ _ Hok) (ns_rows _ _ _ Hok)).
  unfold hiding_subtree_tombstone_scan. by rewrite (cp_tombstones _ _ _ Hc).
Qed.
Lemma compact_parent c : reads_current_parent_binding_for_child r' c = reads_current_parent_binding_for_child r c.
Proof using All.
  cbn [reads_current_parent_binding_for_child MetadataStateReads_reads].
  rewrite (sr_current_parent st' (cp_rebuilt _ _ _ Hc) compact_rows_ok),
    (sr_current_parent st (ns_rebuilt _ _ _ Hok) (ns_rows _ _ _ Hok)). f_equal. apply compact_place_at.
Qed.
Lemma compact_child p k : reads_active_child_binding r' p k = reads_active_child_binding r p k.
Proof using All.
  cbn [reads_active_child_binding MetadataStateReads_reads].
  rewrite (sr_active_child st' (cp_rebuilt _ _ _ Hc) compact_rows_ok),
    (sr_active_child st (ns_rebuilt _ _ _ Hok) (ns_rows _ _ _ Hok)). f_equal. apply compact_entry_at.
Qed.

Lemma compact_covering i : reads_covering_subtree_tombstone r' i = reads_covering_subtree_tombstone r i.
Proof using All. apply same_covering; auto using compact_find_inode, compact_parent, compact_child, compact_hiding with typeclass_instances. Qed.
Lemma compact_cycle i p :
  would_create_directory_cycle (reads_current_parent_binding_for_child r') (walk_fuel r') i p
  = would_create_directory_cycle (reads_current_parent_binding_for_child r) (walk_fuel r) i p.
Proof using All. apply same_cycle; auto using compact_find_inode, compact_parent, compact_child, compact_hiding with typeclass_instances. Qed.
Lemma compact_visible_inode i : reads_visible_inode r' i = reads_visible_inode r i.
Proof using All. apply same_visible_inode; auto using compact_find_inode, compact_parent, compact_child, compact_hiding with typeclass_instances. Qed.
Lemma compact_visible_child p k :
  visible_child (reads_active_child_binding r') (reads_visible_inode r') p k
  = visible_child (reads_active_child_binding r) (reads_visible_inode r) p k.
Proof using All. apply same_visible_child; auto using compact_find_inode, compact_parent, compact_child, compact_hiding with typeclass_instances. Qed.

Lemma compact_resolve `{NamePolicy} path : state_resolve_visible_path st' path s = state_resolve_visible_path st path s.
Proof using All. apply same_resolve; auto using compact_find_inode, compact_parent, compact_child, compact_hiding with typeclass_instances. Qed.

Lemma compact_newest_revision i : newest_revision st' s i = newest_revision st s i.
Proof using Hc Hfloors. unfold newest_revision. rewrite (cp_revisions _ _ _ Hc). apply newest_state_compact, Hfloors. Qed.
Lemma compact_newest_attributes i : newest_attributes st' s i = newest_attributes st s i.
Proof using Hc Hfloors. unfold newest_attributes. rewrite (cp_attributes _ _ _ Hc). apply newest_state_compact, Hfloors. Qed.
Lemma compact_newest_access i : newest_access st' s i = newest_access st s i.
Proof using Hc Hfloors. unfold newest_access. rewrite (cp_access _ _ _ Hc). apply newest_state_compact, Hfloors. Qed.
End reads.

(** ** Rows above the floor *)
Lemma binding_kept_app floor l new x :
  Forall (λ y, floor < y.(db_committed_seq)) new → binding_kept floor (l ++ new) x ↔ binding_kept floor l x.
Proof.
  intros Hnew. rewrite Forall_forall in Hnew.
  assert (∀ P : DirentryBindingRecord → Prop, (∀ y, y ∈ l ++ new → P y) ↔ (∀ y, y ∈ l → P y) ∧ ∀ y, y ∈ new → P y) as Hsplit.
  { intros P. setoid_rewrite elem_of_app. naive_solver. }
  assert (∀ y, newest_floor_event floor (l ++ new) y ↔ newest_floor_event floor l y) as Hn.
  { intros y. unfold newest_floor_event. rewrite Hsplit. split; [by intros []|]. intros Hy. split; [done|].
    intros z Hz. specialize (Hnew z Hz). lia. }
  unfold binding_kept. rewrite Hn, !Hsplit. setoid_rewrite Hn. split; [naive_solver|].
  intros [?|[?|(? & H1 & H2)]]; [by left|by right; left|]. right. right. split_and!; try done.
  all: intros z Hz; specialize (Hnew z Hz); lia.
Qed.

Lemma state_kept_app {A} (inode : A → InodeId) committed order floor l new a :
  Forall (λ b, floor < committed b) new →
  state_kept inode committed order floor (l ++ new) a ↔ state_kept inode committed order floor l a.
Proof.
  intros Hnew. rewrite Forall_forall in Hnew. unfold state_kept. setoid_rewrite elem_of_app. split.
  - intros [?|Hn]; [by left|]. right. auto.
  - intros [?|Hn]; [by left|]. right. intros b [Hb|Hb] Hi Hbs; [by apply Hn|]. specialize (Hnew b Hb). lia.
Qed.

Lemma filter_kept_app {A} (P P' : A → Prop) `{!∀ x, Decision (P x), !∀ x, Decision (P' x)} (l new : list A) :
  (∀ x, P x ↔ P' x) → Forall P new → filter P (l ++ new) = filter P' l ++ new.
Proof.
  intros HP Hnew. rewrite filter_app. f_equal; [by apply list_filter_iff|].
  apply filter_all. by apply Forall_forall.
Qed.

Section stacked.
Context `{HeapBytes} (floors : MetadataFamilyGroup → ChangeSeq) (floor : ChangeSeq).
Context (Hfloors : ∀ group, floors group ≤ floor).

Lemma above_weaken {A} (committed : A → ChangeSeq) (l : list A) group :
  Forall (λ a, floor < committed a) l → Forall (λ a, floors group < committed a) l.
Proof using Hfloors. intros Hl. eapply Forall_impl; [exact Hl|]. intros a. cbn. specialize (Hfloors group). lia. Qed.

(** New commits come above the floor, so compacted rows stay compacted. *)
Lemma compacted_stack st st' batch overlay :
  compacted floors st st' → rows_above floor batch → rows_above floor overlay →
  compacted floors (stack_states [st; batch; overlay]) (stack_states [st'; batch; overlay]).
Proof using Hfloors.
  intros Hc [B1 B2 B3 B4] [O1 O2 O3 O4]. split; [apply stack_rebuilt|..]; cbn; rewrite ?app_nil_r.
  - by rewrite (cp_inodes _ _ _ Hc).
  - by rewrite (cp_tombstones _ _ _ Hc).
  - rewrite (cp_binds _ _ _ Hc). symmetry. pose proof (proj2 (Forall_app _ _ _) (conj B1 O1)) as Hnew.
    apply filter_kept_app; [|eapply Forall_impl; [by apply (above_weaken db_committed_seq _ GrpBindings)|by left]].
    intros x. by apply binding_kept_app, (above_weaken db_committed_seq).
  - rewrite (cp_revisions _ _ _ Hc). symmetry. pose proof (proj2 (Forall_app _ _ _) (conj B2 O2)) as Hnew.
    apply filter_kept_app; [|eapply Forall_impl; [by apply (above_weaken rr_committed_seq _ GrpRevisions)|by left]].
    intros x. by apply state_kept_app, (above_weaken rr_committed_seq).
  - rewrite (cp_attributes _ _ _ Hc). symmetry. pose proof (proj2 (Forall_app _ _ _) (conj B3 O3)) as Hnew.
    apply filter_kept_app; [|eapply Forall_impl; [by apply (above_weaken at_committed_seq _ GrpAttributes)|by left]].
    intros x. by apply state_kept_app, (above_weaken at_committed_seq).
  - rewrite (cp_access _ _ _ Hc). symmetry. pose proof (proj2 (Forall_app _ _ _) (conj B4 O4)) as Hnew.
    apply filter_kept_app; [|eapply Forall_impl; [by apply (above_weaken ac_committed_seq _ GrpAccess)|by left]].
    intros x. by apply state_kept_app, (above_weaken ac_committed_seq).
Qed.

(** ** A view of compacted rows *)
Lemma compact_revision_served st st' seq i no :
  compacted floors st st' → floor ≤ seq →
  revision_served st seq floor i no (numbered_revision st' seq i no).
Proof using Hfloors.
  intros Hc Hseq. unfold revision_served, numbered_revision. rewrite (cp_revisions _ _ _ Hc).
  pose proof (Hfloors GrpRevisions) as Hfl.
  destruct (numbered_state_compact rr_inode_id rr_committed_seq revision_order_key (λ _, eq_refl)
    (floors GrpRevisions) seq st.(ms_revisions) i no ltac:(lia)) as [E|[E Hr]]; [by left|].
  right. split; [exact E|]. intros r Er. destruct (Hr r Er) as (Hrs & b & Hb & Hbi & Hbs & Hlt). split; [lia|].
  intros newest En Hno. apply max_by_key_is_max in En as [Hn Hmax]. apply list_elem_of_filter in Hn as [[Hni Hns] Hn].
  apply max_by_key_is_max in Er as [_ Hrmax].
  apply (kle_not_lt (revision_order_key newest) (revision_order_key r)).
  - apply Hrmax, list_elem_of_filter. split; [|done]. split_and!; [done|done|lia].
  - eapply lt_kle_trans; [exact Hlt|]. apply Hmax, list_elem_of_filter. split; [|done]. split; [done|lia].
Qed.

Lemma compacted_view_serves st st' seq next :
  compacted floors st st' → namespace_ok st seq next → floor ≤ seq →
  view_serves (mkStateView st' seq floor) st seq floor.
Proof using Hfloors.
  intros Hc Hok Hseq. pose proof (compact_rows_ok _ _ _ _ _ Hc Hok) as Hrows.
  pose proof (StateView_serves (mkStateView st' seq floor) (cp_rebuilt _ _ _ Hc) Hrows) as Hv.
  assert (∀ group, floors group ≤ seq) as Hfl by (intros group; specialize (Hfloors group); lia).
  assert (seq ≤ seq) as Hss by lia. split.
  - done.
  - intros i. left. cbn. unfold inode_at_seq_scan. by rewrite (cp_inodes _ _ _ Hc).
  - intros i. left. cbn [cv_visible_inode StateView_view sv_state sv_seq].
    by rewrite (compact_visible_inode floors st st' seq seq next).
  - intros p k. left. cbn [cv_visible_child StateView_view sv_state sv_seq].
    by rewrite (compact_visible_child floors st st' seq seq next).
  - intros i. left. cbn [cv_covering_subtree_tombstone StateView_view sv_state sv_seq].
    by rewrite (compact_covering floors st st' seq seq next).
  - intros i. left. cbn [cv_current_parent_binding_for_child StateView_view sv_state sv_seq].
    by rewrite (compact_parent floors st st' seq seq next).
  - intros i p. left. cbn [cv_would_create_directory_cycle StateView_view sv_state sv_seq].
    by rewrite (compact_cycle floors st st' seq seq next).
  - intros i. left. cbn. unfold hiding_subtree_tombstone_scan. by rewrite (cp_tombstones _ _ _ Hc).
  - intros i. left. cbn. by rewrite (compact_newest_revision floors st st' seq).
  - intros i no. eexists. split; [by left|]. by apply compact_revision_served.
  - intros i. left. cbn. by rewrite (compact_newest_attributes floors st st' seq).
  - intros i. left. cbn. by rewrite (compact_newest_access floors st st' seq).
  - intros p. destruct (vs_has_children _ _ _ _ Hv p) as [Hret Hb]. split; [exact Hret|].
    intros b Eb. rewrite (Hb b Eb). cbn [sv_state sv_seq].
    by setoid_rewrite (compact_visible_child floors st st' seq seq next Hc Hok Hfl Hss).
  - intros s Hfs Hs. cbn. rewrite decide_True by done. eexists. split; [done|]. intros i. left. cbn.
    rewrite (compact_newest_revision floors st st' s); [done|done|]. intros group. specialize (Hfloors group). lia.
Qed.

(** A view of compacted rows keeps the law of the rows that were compacted. *)
#[export] Instance compacted_view_laws st st' seq :
  compacted floors st st' → CommitViewLaws (mkStateView st' seq floor) st floor.
Proof using Hfloors.
  intros Hc batch overlay seq' next _ _ Hb Ho Hlt Hok _.
  cbn [cv_with_overlay StateView_view sv_state sv_floor default from_option id].
  eapply compacted_view_serves; [by apply compacted_stack|exact Hok|lia].
Qed.
End stacked.

(** ** Compaction of a namespace's rows *)
Lemma sublist_fmap_inv {A B} (f : A → B) (k : list B) (l : list A) :
  sublist k (f <$> l) → ∃ l', sublist l' l ∧ f <$> l' = k.
Proof.
  intros Hk. remember (f <$> l) as fl eqn:E. revert l E.
  induction Hk as [|b k fl _ IH|b k fl _ IH]; intros l E.
  - exists []. split; [apply sublist_nil_l|done].
  - destruct l as [|a l]; [done|]. injection E as -> ->. destruct (IH l eq_refl) as (l' & Hl & <-).
    exists (a :: l'). split; [by constructor|done].
  - destruct l as [|a l]; [done|]. injection E as -> ->. destruct (IH l eq_refl) as (l' & Hl & <-).
    exists l'. split; [by constructor|done].
Qed.

Lemma sublist_sorted {A} (R : relation A) l k : sublist k l → StronglySorted R l → StronglySorted R k.
Proof.
  induction 1 as [|x k l Hk IH|x k l _ IH]; intros Hs; [done|..]; apply StronglySorted_inv in Hs as [Hs Hx].
  - constructor; [by apply IH|]. apply Forall_forall. intros y Hy. rewrite Forall_forall in Hx. apply Hx.
    by eapply elem_of_sublist.
  - by apply IH.
Qed.

Lemma omap_sublist {A B} (f : A → option B) (k l : list A) : sublist k l → sublist (omap f k) (omap f l).
Proof. induction 1 as [|x k l _ IH|x k l _ IH]; cbn; [done|..]; destruct (f x); try done; by constructor. Qed.

(** The list tables of the compacted state are sublists. *)
Lemma compact_rows_sublist `{HeapBytes} floors st family :
  sublist (unsorted_rows (compact floors st) family) (unsorted_rows st family).
Proof.
  destruct family; cbn; repeat apply fmap_sublist; try done; try apply sublist_filter.
  - rewrite filter_swap. apply sublist_filter.
  - apply omap_sublist, sublist_filter.
Qed.

(** What is kept depends on the set of rows. *)
Lemma binding_kept_ext floor l l' x : (∀ y, y ∈ l ↔ y ∈ l') → binding_kept floor l x ↔ binding_kept floor l' x.
Proof. intros Hl. unfold binding_kept, newest_floor_event. by setoid_rewrite Hl. Qed.
Lemma state_kept_ext {A} (inode : A → InodeId) committed order floor l l' a :
  (∀ y, y ∈ l ↔ y ∈ l') → state_kept inode committed order floor l a ↔ state_kept inode committed order floor l' a.
Proof. intros Hl. unfold state_kept. by setoid_rewrite Hl. Qed.
Lemma layout_kept_ext l l' a : (∀ y, y ∈ l ↔ y ∈ l') → layout_kept l a ↔ layout_kept l' a.
Proof. intros Hl. unfold layout_kept. by setoid_rewrite Hl. Qed.

(** An event is judged by the events alone, which is all the child index has. *)
Lemma event_kept_by_events floor l x : is_binding_event x = true →
  binding_kept floor (filter (λ b, is_binding_event b = true) l) x ↔ binding_kept floor l x.
Proof.
  intros Hx. assert (newest_floor_event floor (filter (λ b, is_binding_event b = true) l) x ↔ newest_floor_event floor l x) as Hn.
  { split; intros Hn y.
    - intros Hy He Hv Hs. apply Hn; try done. by apply list_elem_of_filter.
    - intros [Hv Hy]%list_elem_of_filter He _ Hs. by apply Hn. }
  unfold binding_kept. rewrite Hn. split; (intros [?|[?|(? & _)]]; [by left|by right; left|congruence]).
Qed.

Lemma omap_of_rows {A} (kind : A → MetadataRow) (of_row : MetadataRow → option A) rows l :
  (∀ a, of_row (kind a) = Some a) → rows ≡ₚ kind <$> l → ∀ a, a ∈ omap of_row rows ↔ a ∈ l.
Proof.
  intros Hof Hp a. rewrite list_elem_of_omap. setoid_rewrite Hp. setoid_rewrite list_elem_of_fmap. split.
  - intros (r & (b & -> & Hb) & E). rewrite Hof in E. by injection E as <-.
  - intros Ha. exists (kind a). split; [by exists a|done].
Qed.

Lemma kept_row_in {A} (kind : A → MetadataRow) (P Q : A → Prop) `{!∀ a, Decision (Q a)} (l : list A) x :
  (∀ a b, kind a = kind b → a = b) → x ∈ l → (P x ↔ Q x) → P x ↔ ∃ y, kind x = kind y ∧ y ∈ filter Q l.
Proof.
  intros Hinj Hx HPQ. setoid_rewrite list_elem_of_filter. rewrite HPQ. split; [by exists x|].
  by intros (y & ->%Hinj & Hy & _).
Qed.

Lemma row_kept_compact `{HeapBytes} floor st family rows row :
  family ≠ FamActiveDeletions → rows ≡ₚ unsorted_rows st family → row ∈ unsorted_rows st family →
  row_kept floor rows row ↔ row ∈ unsorted_rows (compact (λ _, floor) st) family.
Proof.
  intros Hfam Hp Hrow. destruct family; try done; cbn [unsorted_rows] in Hp, Hrow |- *.
  all: apply list_elem_of_fmap in Hrow as (x & -> & Hx); cbn [row_kept]; rewrite list_elem_of_fmap.
  - split; [by exists x|done].
  - apply (kept_row_in RowDirentryBinding); [by intros ?? [=]|done|]. by apply binding_kept_ext, (omap_of_rows RowDirentryBinding).
  - apply list_elem_of_filter in Hx as [He Hx].
    rewrite (binding_kept_ext _ _ (filter (λ b, is_binding_event b = true) (ms_direntry_binds st)));
      [|by apply (omap_of_rows RowDirentryBinding)].
    rewrite event_kept_by_events by done. cbn [compact from_rows rebuild_indexes ms_direntry_binds]. rewrite filter_swap.
    apply (kept_row_in RowDirentryBinding); [by intros ?? [=]|by apply list_elem_of_filter|done].
  - apply (kept_row_in RowFileRevision); [by intros ?? [=]|done|]. by apply state_kept_ext, (omap_of_rows RowFileRevision).
  - split; [by exists x|done].
  - apply (kept_row_in RowCommitReceipt (λ r, floor ≤ r.(rc_committed_seq)) (λ r, floor ≤ r.(rc_committed_seq))); [by intros ?? [=]|done|done].
  - apply (kept_row_in RowCommit (λ r, floor ≤ r.(wcp_committed_seq)) (λ r, floor ≤ r.(wcp_committed_seq))); [by intros ?? [=]|done|done].
  - apply (kept_row_in RowContentLayout); [by intros ?? [=]|done|]. by apply layout_kept_ext, (omap_of_rows RowContentLayout).
  - apply (kept_row_in RowAttributesRevision); [by intros ?? [=]|done|]. by apply state_kept_ext, (omap_of_rows RowAttributesRevision).
  - apply (kept_row_in RowAccessRevision); [by intros ?? [=]|done|]. by apply state_kept_ext, (omap_of_rows RowAccessRevision).
  - apply list_elem_of_omap in Hx as (c & Hc & Ec). split.
    + intros Hs. exists x. split; [done|]. apply list_elem_of_omap. exists c. split; [|done]. apply list_elem_of_filter.
      split; [|done]. unfold merge_index_from_commit in Ec. destruct (wcp_merge c); [|done]. by injection Ec as <-.
    + intros (y & [= <-] & Hy). apply list_elem_of_omap in Hy as (c' & [Hs _]%list_elem_of_filter & Ec').
      unfold merge_index_from_commit in Ec'. destruct (wcp_merge c'); [|done]. by injection Ec' as <-.
Qed.

(** One row of a revision number of an inode at or below the floor. *)
Definition revisions_distinct (floor : ChangeSeq) (rows : list MetadataRow) : Prop :=
  ∀ r1 r2 i no s1 s2, r1 ∈ rows → r2 ∈ rows → whole_state_revision r1 = Some (i, no, s1) →
    whole_state_revision r2 = Some (i, no, s2) → s1 ≤ floor → s2 ≤ floor → r1 = r2.

Section fit.
Context (floor : ChangeSeq) (st : MetadataState) (Hfloor : floor_ok st floor).

Lemma bound_at_floor_place l x :
  (∀ y, y ∈ l → y ∈ st.(ms_direntry_binds)) →
  (∀ y, y ∈ st.(ms_direntry_binds) → is_binding_event y = true → y ∈ l) →
  bound_at_floor floor l x → place_of st floor x.(db_child_inode_id) = Some x.
Proof using Hfloor.
  intros Hsub Hev (Hx & He & Hb & Hs & Hn). apply (newest_event_in_place (λ _, floor)); auto.
  intros y Hy Hye Hyv Hys. apply Hn; auto.
Qed.

(** The rows of a sound namespace pass the compaction's checks. *)
Lemma namespace_rows_fit family rows :
  rows ≡ₚ unsorted_rows st family → revisions_distinct floor rows → rows_fit floor family rows.
Proof using Hfloor.
  intros Hp Hrev. split; [exact Hrev|..]; intros -> x y Hx Hy; cbn [unsorted_rows] in Hp.
  - apply bound_at_floor_place in Hx, Hy.
    2-5: intros b; rewrite (omap_of_rows RowDirentryBinding _ _ _ (λ _, eq_refl) Hp); done.
    intros Hpar Hname. assert (entries st floor (binding_slot x) = Some (x.(db_child_inode_id), x.(db_bind_position))) as Ex.
    { apply (fl_agree _ _ Hfloor). unfold places. by rewrite Hx. }
    assert (entries st floor (binding_slot y) = Some (y.(db_child_inode_id), y.(db_bind_position))) as Ey.
    { apply (fl_agree _ _ Hfloor). unfold places. by rewrite Hy. }
    unfold binding_edge. unfold binding_slot in Ex, Ey. rewrite Hpar, Hname in *. congruence.
  - apply bound_at_floor_place in Hx, Hy.
    2-5: intros b; rewrite (omap_of_rows RowDirentryBinding _ _ _ (λ _, eq_refl) Hp), list_elem_of_filter; naive_solver.
    intros Hc. rewrite Hc in Hx. congruence.
Qed.
End fit.

Lemma numbers_distinct st seq next floor family rows :
  numbering_ok st seq next → rows ≡ₚ unsorted_rows st family → revisions_distinct floor rows.
Proof.
  intros [Hr Ha Hc _] Hp r1 r2 i no s1 s2 H1 H2 E1 E2 _ _. rewrite Hp in H1, H2.
  destruct family; cbn in H1, H2; apply list_elem_of_fmap in H1 as (a & -> & H1), H2 as (b & -> & H2); try done;
    cbn in E1, E2; simplify_eq; f_equal; by eapply numbered_unique.
Qed.




(** The example history's rows, compacted at its head. *)
Module compacted_example.
#[local] Existing Instance no_heap.
#[local] Existing Instance example_policy.

Definition floors : MetadataFamilyGroup → ChangeSeq := λ _, 1.
Definition rows : MetadataState := compact floors example_reached.

(** The moved file's first name is gone. *)
Lemma rows_dropped :
  length example_reached.(ms_direntry_binds) = 7%nat ∧ length rows.(ms_direntry_binds) = 3%nat ∧
  length example_reached.(ms_revisions) = 2%nat ∧ length rows.(ms_revisions) = 1%nat.
Proof. vm_compute. done. Qed.


Definition keyed : list (string * MetadataRow) :=
  Eval vm_compute in sort_by by_key
    ((λ row, (match row_key_for_family row FamDirentryBinds with Ok key => key | _ => "" end, row))
       <$> unsorted_rows example_reached FamDirentryBinds).
Definition cluster : RetentionCluster := mkRetentionCluster [FamDirentryBinds] (LeadingKeyComponents 3) Bindings.

Lemma keyed_rows_perm : keyed.*2 ≡ₚ unsorted_rows example_reached FamDirentryBinds.
Proof.
  set (pairs := (λ row, (match row_key_for_family row FamDirentryBinds with Ok key => key | _ => "" end, row))
    <$> unsorted_rows example_reached FamDirentryBinds).
  assert (keyed = sort_by by_key pairs) as -> by (vm_compute; reflexivity). rewrite sort_by_perm.
  assert (pairs.*2 = unsorted_rows example_reached FamDirentryBinds) as -> by (vm_compute; reflexivity). done.
Qed.
Lemma keyed_rows_wf : ∀ x, x ∈ keyed → family_row FamDirentryBinds x.
Proof. apply Forall_forall. repeat constructor; cbn; unfold U128_MAX, U64_MAX, U32_MAX; first [lia|done]. Qed.


Definition example_op : CommitOperation := CreateDirectory 8 ROOT_INODE_ID "d".
Definition example_new : CommitValidationSession StateView :=
  CommitValidationSession_new (mkStateView rows 1 1) MetadataState_default 2 "commit2" "user" 20.

Lemma example_op_validates : ∃ ds s', validate (λ _, None) example_new [example_op] = Ok (ds, s') ∧ length ds = 2%nat.
Proof. eexists _, _. split; [vm_compute; reflexivity|reflexivity]. Qed.

End compacted_example.
