(* ===== verification/ManifestIndex.v ===== *)
(** * Lookups in manifest segments

    [loonfs-core/src/metadata/manifest_index.rs] with the row decoders of
    [row_decode.rs]: the lookups of one key at a sequence, composed from the
    scans of [VerifiedMetadataSegments].  The class [ManifestScans] lists the
    scans that the lookups call and [manifest_holds] is their contract: the
    rows of the manifest's runs, newest first.  The theorems show what each
    lookup returns of those rows. *)
From S2P Require Import Prelude Types Utf8 Codec Records SegmentBlocks SegmentFormat ScanPage RowKeys Manifest Scan SegmentLoad MetadataState SegmentRows Visibility Errors StateReads CommitSafety.
Import lookup_keys.
Local Open Scope N_scope.

(** ** Row decoders *)
Definition foreign_row {A} (expected_kind : string) (row : MetadataRow) : res CoreError A :=
  key ← infallible (row_key row);
  Err (CeNamespaceCorrupt ("manifest segment scan expected `" +:+ expected_kind +:+
    "` rows but found foreign row `" +:+ key +:+ "`")).

Definition inode_from_manifest_row (row : MetadataRow) : res CoreError InodeRecord :=
  match row with RowInode record => Ok record | other => foreign_row "inode" other end.

Definition direntry_binding_from_manifest_row (row : MetadataRow) : res CoreError DirentryBindingRecord :=
  match row with RowDirentryBinding record => Ok record | other => foreign_row "direntry_binding" other end.

Definition revision_from_manifest_row (row : MetadataRow) : res CoreError RevisionRecord :=
  match row with RowFileRevision record => Ok record | other => foreign_row "file_revision" other end.

Definition tombstone_from_manifest_row (row : MetadataRow) : res CoreError SubtreeTombstoneRecord :=
  match row with RowTombstone record => Ok record | other => foreign_row "tombstone" other end.

Definition active_deletion_from_manifest_row (row : MetadataRow) : res CoreError ActiveDeletionRecord :=
  match row with RowActiveDeletion record => Ok record | other => foreign_row "active_deletion" other end.

Definition content_layout_from_manifest_row (row : MetadataRow) : res CoreError ContentLayoutRecord :=
  match row with RowContentLayout record => Ok record | other => foreign_row "content_layout" other end.

Definition commit_receipt_from_manifest_row (row : MetadataRow) : res CoreError CommitReceiptRecord :=
  match row with RowCommitReceipt record => Ok record | other => foreign_row "commit_receipt" other end.

Definition merge_index_from_manifest_row (row : MetadataRow) : res CoreError MergeIndexRecord :=
  match row with RowMerge record => Ok record | other => foreign_row "merge" other end.

Definition commit_from_manifest_row (row : MetadataRow) : res CoreError WalCommitPayload :=
  match row with
  | RowCommit record =>
      if bool_decide (record.(wcp_inline_content) = []) then Ok record
      else Err (CeNamespaceCorrupt ("commit row at sequence `" +:+ fmt_dec 0 record.(wcp_committed_seq) +:+
        "` carries inline content"))
  | other => foreign_row "commit" other
  end.

Definition attributes_revision_from_manifest_row (row : MetadataRow) : res CoreError AttributesRevisionRecord :=
  match row with RowAttributesRevision record => Ok record | other => foreign_row "attributes_revision" other end.

Definition access_revision_from_manifest_row (row : MetadataRow) : res CoreError AccessRevisionRecord :=
  match row with RowAccessRevision record => Ok record | other => foreign_row "access_revision" other end.

(** ** The scans *)

(** The methods of [VerifiedMetadataSegments] that the lookups call, with the
    manifest's retention floor and head. *)
Class ManifestScans (S : Type) := {
  segments_scan_range_bounded : S → MetadataRowFamily → string → option string → PageBounds → option string →
    BlocksPerRefill → res ManifestLoadError (list (string * MetadataRow));
  segments_find_row : S → MetadataRowFamily → string → string → res ManifestLoadError (option MetadataRow);
  segments_newest_run : S → MetadataRowFamily → string → string → string → N → BlocksPerRefill →
    res ManifestLoadError (list (string * MetadataRow));
  segments_every_row_is_visible_at : S → ChangeSeq → bool;
  segments_retention_floor_seq : S → ChangeSeq;
  segments_head_seq : S → ChangeSeq;
}.

(** [map_or_decode.transpose()]. *)
Definition transpose {E A B} (decode : A → res E B) (o : option A) : res E (option B) :=
  match o with None => Ok None | Some a => b ← decode a; Ok (Some b) end.

(** [.map(decode).collect::<Result<_>>()]. *)
Fixpoint try_collect {E A B} (decode : A → res E B) (l : list A) : res E (list B) :=
  match l with
  | [] => Ok []
  | a :: l => b ← decode a; bs ← try_collect decode l; Ok (b :: bs)
  end.

(** [(row_key, decode(row)?)]. *)
Definition keyed_decode {E A B} (decode : A → res E B) (x : string * A) : res E (string * B) :=
  b ← decode x.2; Ok (x.1, b).

Definition EDGE_WALK_PAGE_ROWS : N := 16.
Definition CONTENT_LAYOUT_PAGE_ROWS : N := 8.
Definition WHOLE_STATE_RAW_SCAN_LIMIT : N := 16.

(** The key just past every row of a record's edge. *)
Definition slot_edge_end {E} (record : DirentryBindingRecord) : res E string :=
  expect (string_prefix_upper_bound
    (direntry_bind_edge_prefix record.(db_parent_inode_id) record.(db_name_key) record.(db_child_inode_id))).

Definition child_edge_end {E} (record : DirentryBindingRecord) : res E string :=
  expect (string_prefix_upper_bound
    (direntry_child_bind_edge_prefix record.(db_child_inode_id) record.(db_parent_inode_id) record.(db_name_key))).

Section lookups.
Context {S : Type} `{ManifestScans S} (segments : S).

Definition scan_rows (family : MetadataRowFamily) (lower_bound : string) (upper_bound : option string) (limit : N)
    (filter_probe : option string) (blocks_per_refill : BlocksPerRefill)
    : res CoreError (list (string * MetadataRow)) :=
  map_err CeManifestLoad (segments_scan_range_bounded segments family lower_bound upper_bound
    {| pb_max_rows := limit; pb_max_bytes := U64_MAX |} filter_probe blocks_per_refill).

Definition manifest_inode_at_seq (inode_id : InodeId) (visible_seq : ChangeSeq) : res CoreError (option InodeRecord) :=
  let key := inode_key inode_id in
  row ← map_err CeManifestLoad (segments_find_row segments FamInodes key key);
  inode ← transpose inode_from_manifest_row row;
  Ok (option_filter (λ inode, inode.(ir_committed_seq) <=? visible_seq) inode).

Definition manifest_commit_at_seq (seq : ChangeSeq) : res CoreError (option WalCommitPayload) :=
  let key := commit_row_key seq in
  row ← map_err CeManifestLoad (segments_find_row segments FamCommits key key);
  transpose commit_from_manifest_row row.

Definition commits_after_page (after_seq : ChangeSeq) (limit max_bytes : N) : res CoreError (list WalCommitPayload) :=
  rows ← map_err CeManifestLoad (segments_scan_range_bounded segments FamCommits
    (after_row_key (commit_row_key after_seq)) (string_prefix_upper_bound COMMIT_ROW_PREFIX)
    {| pb_max_rows := limit; pb_max_bytes := max_bytes |} None RefillKeyRange);
  try_collect (λ x, commit_from_manifest_row x.2) rows.

Definition direntry_binds_page (parent_inode_id : InodeId) (lower_bound : string) (limit : N)
    : res CoreError (list (string * DirentryBindingRecord)) :=
  rows ← scan_rows FamDirentryBinds lower_bound (string_prefix_upper_bound (direntry_parent_prefix parent_inode_id))
    limit (Some (direntry_parent_probe parent_inode_id)) RefillKeyRange;
  try_collect (keyed_decode direntry_binding_from_manifest_row) rows.

(** *** Edge walks *)
Section edge_walk.
Context (family : MetadataRowFamily) (prefix filter_probe : string)
  (edge_end : DirentryBindingRecord → res CoreError string) (blocks_per_refill : BlocksPerRefill)
  (visible_seq : ChangeSeq).

(** The rows of one page: an edge's first row at or below the sequence, and
    none of the rows after it up to the edge's end. *)
Fixpoint read_edges (page : list (string * MetadataRow)) (read_edge_end : option string)
    (edges : list DirentryBindingRecord) : res CoreError (option string * list DirentryBindingRecord) :=
  match page with
  | [] => Ok (read_edge_end, edges)
  | (row_key, row) :: page =>
      if match read_edge_end with Some stop => bool_decide (cmp row_key stop = Lt) | None => false end then
        read_edges page read_edge_end edges
      else
        record ← direntry_binding_from_manifest_row row;
        if visible_seq <? record.(db_committed_seq) then read_edges page read_edge_end edges
        else
          stop ← edge_end record;
          read_edges page (Some stop) (edges ++ [record])
  end.

Definition edge_page (newest_run_only : bool) (lower_bound : string) : res CoreError (list (string * MetadataRow)) :=
  if newest_run_only then
    map_err CeManifestLoad (segments_newest_run segments family prefix lower_bound filter_probe
      EDGE_WALK_PAGE_ROWS blocks_per_refill)
  else
    scan_rows family lower_bound (string_prefix_upper_bound prefix) EDGE_WALK_PAGE_ROWS (Some filter_probe)
      RefillKeyRange.

(** [left.max(right)] on strings. *)
Definition string_max (left right : string) : string := if decide (cmp right left = Lt) then left else right.

Fixpoint edge_walk (fuel : nat) (newest_run_only : bool) (lower_bound : string) (edges : list DirentryBindingRecord)
    : res CoreError (list DirentryBindingRecord) :=
  match fuel with
  | O => OutOfFuel
  | Datatypes.S fuel =>
      page ← edge_page newest_run_only lower_bound;
      let full := bool_decide (N.of_nat (length page) = EDGE_WALK_PAGE_ROWS) in
      match list.last page with
      | None => Ok edges
      | Some (last_row_key, _) =>
          let next_lower_bound := after_row_key last_row_key in
          '(read_edge_end, edges) ← read_edges page None edges;
          if negb full then Ok edges
          else
            let next_lower_bound :=
              match read_edge_end with
              | Some stop => string_max next_lower_bound stop
              | None => next_lower_bound
              end in
            edge_walk fuel newest_run_only next_lower_bound edges
      end
  end.

Definition newest_edge_rows (fuel : nat) : res CoreError (list DirentryBindingRecord) :=
  edge_walk fuel (segments_every_row_is_visible_at segments visible_seq) prefix [].
End edge_walk.

Definition manifest_direntry_binds_for_parent_name (fuel : nat) (parent_inode_id : InodeId) (name_key : NameKey)
    (visible_seq : ChangeSeq) : res CoreError (list DirentryBindingRecord) :=
  newest_edge_rows FamDirentryBinds (direntry_bind_prefix parent_inode_id name_key)
    (direntry_bind_probe parent_inode_id name_key) slot_edge_end RefillKeyRange visible_seq fuel.

Definition manifest_direntry_binds_for_child (fuel : nat) (child_inode_id : InodeId) (visible_seq : ChangeSeq)
    : res CoreError (list DirentryBindingRecord) :=
  newest_edge_rows FamDirentryChildBinds (direntry_child_prefix child_inode_id) (direntry_child_probe child_inode_id)
    child_edge_end RefillOne visible_seq fuel.

(** *** Newest rows *)
Section newest_row.
Context {R : Type} (family : MetadataRowFamily) (filter_probe : string) (visible_seq : ChangeSeq)
  (decode : MetadataRow → res CoreError R) (committed_seq : R → ChangeSeq).

(** [for (_, row) in page]: the first row at or below the sequence. *)
Fixpoint first_visible (page : list (string * MetadataRow)) : res CoreError (option R) :=
  match page with
  | [] => Ok None
  | (_, row) :: page =>
      record ← decode row;
      if committed_seq record <=? visible_seq then Ok (Some record) else first_visible page
  end.

Fixpoint newest_row_walk (fuel : nat) (lower_bound : string) (upper_bound : option string) : res CoreError (option R) :=
  match fuel with
  | O => OutOfFuel
  | Datatypes.S fuel =>
      page ← scan_rows family lower_bound upper_bound WHOLE_STATE_RAW_SCAN_LIMIT (Some filter_probe) RefillKeyRange;
      let page_len := N.of_nat (length page) in
      let last_row_key := fst <$> list.last page in
      found ← first_visible page;
      match found with
      | Some record => Ok (Some record)
      | None =>
          if page_len <? WHOLE_STATE_RAW_SCAN_LIMIT then Ok None
          else
            match last_row_key with
            | None => Ok None
            | Some last_row_key => newest_row_walk fuel (after_row_key last_row_key) upper_bound
            end
      end
  end.

Definition newest_row_under_prefix (fuel : nat) (prefix : string) : res CoreError (option R) :=
  if segments_every_row_is_visible_at segments visible_seq then
    rows ← map_err CeManifestLoad (segments_newest_run segments family prefix prefix filter_probe 1 RefillOne);
    transpose (λ x, decode x.2) (head rows)
  else newest_row_walk fuel prefix (string_prefix_upper_bound prefix).
End newest_row.

Definition latest_revision_by_inode (fuel : nat) (inode_id : InodeId) (visible_seq : ChangeSeq)
    : res CoreError (option RevisionRecord) :=
  newest_row_under_prefix FamRevisions (revision_probe inode_id) visible_seq revision_from_manifest_row
    rr_committed_seq fuel (revision_prefix inode_id).

Definition revision_by_inode_no (inode_id : InodeId) (revision_no : RevisionNo) (visible_seq : ChangeSeq)
    : res CoreError (option RevisionRecord) :=
  let exact_prefix := revision_no_prefix inode_id revision_no in
  rows ← scan_rows FamRevisions exact_prefix (string_prefix_upper_bound exact_prefix) 1
    (Some (revision_probe inode_id)) RefillOne;
  revision ← transpose (λ x, revision_from_manifest_row x.2) (head rows);
  Ok (option_filter (λ revision, revision.(rr_committed_seq) <=? visible_seq) revision).

Definition manifest_revisions_page (lower_bound : string) (inode_id : option InodeId) (limit : N)
    : res CoreError (list (string * RevisionRecord)) :=
  rows ←
    match inode_id with
    | Some inode_id =>
        scan_rows FamRevisions lower_bound (string_prefix_upper_bound (revision_prefix inode_id)) limit
          (Some (revision_probe inode_id)) RefillKeyRange
    | None =>
        scan_rows FamRevisions lower_bound (string_prefix_upper_bound REVISION_ROW_PREFIX) limit None RefillKeyRange
    end;
  try_collect (keyed_decode revision_from_manifest_row) rows.

Definition manifest_active_deletions_page (lower_bound : string) (upper_bound : option string) (limit : N)
    : res CoreError (list (string * ActiveDeletionRecord)) :=
  rows ← scan_rows FamActiveDeletions lower_bound upper_bound limit None RefillKeyRange;
  try_collect (keyed_decode active_deletion_from_manifest_row) rows.

Definition newest_tombstone_for_root (fuel : nat) (root_inode_id : InodeId) (visible_seq : ChangeSeq)
    : res CoreError (option SubtreeTombstoneRecord) :=
  newest_row_under_prefix FamTombstones (tombstone_probe root_inode_id) visible_seq tombstone_from_manifest_row
    tb_committed_seq fuel (tombstone_prefix root_inode_id).

Definition first_content_layout (prefix probe : string) : res CoreError (option ContentLayoutRecord) :=
  rows ← scan_rows FamContentLayouts prefix (string_prefix_upper_bound prefix) CONTENT_LAYOUT_PAGE_ROWS (Some probe)
    RefillOne;
  transpose (λ x, content_layout_from_manifest_row x.2) (head rows).

Definition manifest_content_layout (content_id : ContentId) : res CoreError (option ContentLayoutRecord) :=
  prefix ← infallible (content_layout_prefix content_id);
  probe ← infallible (content_layout_probe content_id);
  first_content_layout prefix probe.

Definition manifest_commit_receipt (commit_id : CommitId) (visible_seq : ChangeSeq)
    : res CoreError (option CommitReceiptRecord) :=
  let prefix := commit_receipt_prefix commit_id in
  rows ← scan_rows FamCommitReceipts prefix (string_prefix_upper_bound prefix) U64_MAX
    (Some (commit_receipt_probe commit_id)) RefillKeyRange;
  receipts ← try_collect (λ x, commit_receipt_from_manifest_row x.2) rows;
  Ok (max_by_key rc_committed_seq (filter (λ receipt, receipt.(rc_committed_seq) ≤ visible_seq) receipts)).

Definition manifest_newest_merge (fuel : nat) (source_namespace_id : NamespaceId) (visible_seq : ChangeSeq)
    : res CoreError (option MergeIndexRecord) :=
  newest_row_under_prefix FamMerges (merge_probe source_namespace_id) visible_seq merge_index_from_manifest_row
    mi_committed_seq fuel (merge_prefix source_namespace_id).

Definition attributes_by_inode (fuel : nat) (inode_id : InodeId) (visible_seq : ChangeSeq)
    : res CoreError (option AttributesRevisionRecord) :=
  newest_row_under_prefix FamAttributes (attributes_probe inode_id) visible_seq attributes_revision_from_manifest_row
    at_committed_seq fuel (attributes_prefix inode_id).

Definition access_by_inode (fuel : nat) (inode_id : InodeId) (visible_seq : ChangeSeq)
    : res CoreError (option AccessRevisionRecord) :=
  newest_row_under_prefix FamAccess (access_probe inode_id) visible_seq access_revision_from_manifest_row
    ac_committed_seq fuel (access_prefix inode_id).
End lookups.

(** ** The contract *)

(** The rows of one run, by family. *)
Record StoredRun := mkStoredRun {
  run_seq : ChangeSeq;
  run_rows : MetadataRowFamily → list (string * MetadataRow);
}.

Definition rows_in (lower : string) (upper : option string) (rows : list (string * MetadataRow)) : list (string * MetadataRow) :=
  filter (λ x, in_key_range lower upper x.1) rows.

Definition runs_rows (runs : list StoredRun) (family : MetadataRowFamily) : list (string * MetadataRow) :=
  concat ((λ run, run.(run_rows) family) <$> runs).

(** The rows of all runs, in key order. *)
Definition manifest_rows (runs : list StoredRun) (family : MetadataRowFamily) : list (string * MetadataRow) :=
  sort_by by_key (runs_rows runs family).

(** The rows that the newest run with a row in the range has there. *)
Definition newest_run_rows (runs : list StoredRun) (family : MetadataRowFamily) (lower : string) (upper : option string)
    : list (string * MetadataRow) :=
  default [] (find_first (λ rows, rows ≠ []) ((λ run, rows_in lower upper (run.(run_rows) family)) <$> runs)).

(** The families that the newest-run lookups read. *)
Definition history_family (family : MetadataRowFamily) : Prop :=
  match family with
  | FamDirentryBinds | FamDirentryChildBinds | FamRevisions | FamTombstones | FamMerges | FamAttributes | FamAccess => True
  | _ => False
  end.

(** A later commit gives an inode a higher revision number. *)
Definition later_row (older newer : MetadataRow) : Prop :=
  manifest_row_commit_seq older < manifest_row_commit_seq newer ∧
  match older, newer with
  | RowFileRevision a, RowFileRevision b => a.(rr_inode_id) = b.(rr_inode_id) → a.(rr_revision_no) < b.(rr_revision_no)
  | RowAttributesRevision a, RowAttributesRevision b =>
      a.(at_inode_id) = b.(at_inode_id) → a.(at_attributes_revision_no) < b.(at_attributes_revision_no)
  | RowAccessRevision a, RowAccessRevision b =>
      a.(ac_inode_id) = b.(ac_inode_id) → a.(ac_access_revision_no) < b.(ac_access_revision_no)
  | _, _ => True
  end.

(** What a manifest's runs hold: rows of the families under their keys, no
    key twice, no row above its run's sequence, and each run's history newer
    than that of the runs after it. *)
Record runs_ok (runs : list StoredRun) : Prop := {
  ro_sorted : ∀ run family, run ∈ runs → ascending (run.(run_rows) family);
  ro_distinct : ∀ family, NoDup (runs_rows runs family).*1;
  ro_keyed : ∀ family x, x ∈ runs_rows runs family →
    row_key_for_family x.2 family = Ok x.1 ∧ row_wf x.2 ∧ stored_in family x.2;
  ro_below : ∀ run family x, run ∈ runs → x ∈ run.(run_rows) family → manifest_row_commit_seq x.2 ≤ run.(run_seq);
  ro_newer : StronglySorted (λ newer older, ∀ family x y, history_family family →
    x ∈ newer.(run_rows) family → y ∈ older.(run_rows) family → later_row y.2 x.2) runs;
}.

(** The rows of the range have the probe as a filter key. *)
Definition probe_covers (runs : list StoredRun) (family : MetadataRowFamily) (lower : string) (upper : option string)
    (probe : string) : Prop :=
  ∀ x, x ∈ runs_rows runs family → in_key_range lower upper x.1 →
    filter_key_for_family x.2 family = Ok probe ∨ parent_filter_key_for_family x.2 family = Some probe.

(** [segments] holds the rows of [runs]: its scans return them or fail to
    load. *)
Record manifest_holds {S} `{ManifestScans S} (heap_bytes : MetadataRow → N) (segments : S) (runs : list StoredRun) : Prop := {
  mh_runs : runs_ok runs;
  mh_weight : ∀ family, rows_weight heap_bytes (runs_rows runs family) < U64_MAX;
  mh_scan : ∀ family lower upper bounds probe blocks_per_refill,
    (∀ p, probe = Some p → probe_covers runs family lower upper p) →
    serves (map_err CeManifestLoad (segments_scan_range_bounded segments family lower upper bounds probe blocks_per_refill))
      (Ok (page_prefix heap_bytes bounds.(pb_max_rows) bounds.(pb_max_bytes) (rows_in lower upper (manifest_rows runs family))));
  mh_find : ∀ family key probe,
    probe_covers runs family key (string_prefix_upper_bound key) probe →
    serves (map_err CeManifestLoad (segments_find_row segments family key probe))
      (Ok (snd <$> find_first (λ x, x.1 = key) (manifest_rows runs family)));
  mh_newest : ∀ family prefix lower probe limit blocks_per_refill,
    probe_covers runs family lower (string_prefix_upper_bound prefix) probe →
    serves (map_err CeManifestLoad (segments_newest_run segments family prefix lower probe limit blocks_per_refill))
      (Ok (take (N.to_nat limit) (newest_run_rows runs family lower (string_prefix_upper_bound prefix))));
  mh_visible : ∀ seq, segments_every_row_is_visible_at segments seq = true ↔ Forall (λ run, run.(run_seq) ≤ seq) runs;
}.

(** ** ASCII keys *)

(** The separators, numbers and identifiers of a row key are ASCII, so a
    prefix of row keys has an upper bound. *)
Fixpoint ascii_text (s : string) : Prop :=
  match s with EmptyString => True | String a s => N_of_ascii a < 127 ∧ ascii_text s end.

Lemma ascii_app s t : ascii_text s → ascii_text t → ascii_text (s +:+ t).
Proof. induction s as [|a s IH]; intros Hs Ht; [done|]. destruct Hs. rewrite string_app_cons. split; auto. Qed.

Lemma char_at_ascii s d : ascii_text s → N_of_ascii (char_at s d) < 127.
Proof.
  unfold char_at. generalize (N.to_nat d). induction s as [|a s IH]; intros n Hs; [by destruct n|].
  destruct Hs. destruct n; [done|]. by apply IH.
Qed.

Lemma hex_ascii s : ascii_text (hex_encode_bytes s).
Proof. induction s as [|a s IH]; [done|]. split; [by apply char_at_ascii|]. split; [by apply char_at_ascii|done]. Qed.

Lemma InodeId_body_ascii i : ascii_text (InodeId_body i).
Proof.
  unfold InodeId_body, encode_generated_id_body. induction GENERATED_ID_BODY_BYTES as [|n IH]; [done|].
  split; [|done]. by apply char_at_ascii.
Qed.

Lemma positional_ascii digit b width n : (∀ d, d < b → N_of_ascii (digit d) < 127) → 0 < b → ascii_text (positional digit b width n).
Proof.
  intros Hd Hb. induction width as [|w IH]; [done|]. split; [|done]. apply Hd, N.mod_lt. lia.
Qed.

Lemma fmt_dec_ascii n : n ≤ U64_MAX → ascii_text (fmt_dec 20 n).
Proof.
  intros Hn. rewrite fmt_dec_positional by (auto using u64_digits; lia). apply positional_ascii; [|lia].
  intros d Hd. unfold dec_digit. rewrite N_ascii_embedding; lia.
Qed.

Lemma increment_last_ascii s a : ascii_text (s +:+ String a "") →
  ∃ b, N_of_ascii b < 128 ∧ increment_last (as_bytes (s +:+ String a "")) = Some (as_bytes (s +:+ String b "")).
Proof.
  induction s as [|c s IH]; intros Hs.
  - change (N_of_ascii a < 127 ∧ True) in Hs. destruct Hs as [Ha _]. exists (byte (N_of_ascii a + 1)).
    rewrite N_of_byte by lia. split; [lia|].
    change (increment_last [a] = Some [byte (N_of_ascii a + 1)]). cbn [increment_last].
    by destruct (N.eqb_spec (N_of_ascii a) 0xff); [lia|].
  - rewrite string_app_cons in Hs. destruct Hs as [_ Hs]. destruct (IH Hs) as (b & Hb & E). exists b. split; [done|].
    rewrite !string_app_cons. cbn [as_bytes String.list_ascii_of_string increment_last].
    change (String.list_ascii_of_string (s +:+ String a "")) with (as_bytes (s +:+ String a "")). by rewrite E.
Qed.

Lemma string_snoc s : s ≠ "" → ∃ t a, s = t +:+ String a "".
Proof.
  induction s as [|c s IH]; [done|]. intros _. destruct s as [|d s]; [by exists "", c|].
  destruct IH as (t & a & E); [done|]. exists (String c t), a. by rewrite string_app_cons, <-E.
Qed.

Lemma utf8_ascii_char a l : N_of_ascii a < 128 → utf8 l → utf8 (a :: l).
Proof.
  intros Ha Hl. apply (utf8_char _ l); [|done]. unfold utf8_rest, in_range.
  by destruct (N.leb_spec 0 (N_of_ascii a)), (N.leb_spec (N_of_ascii a) 0x7f); try lia.
Qed.

Lemma ascii_upper_bound s : ascii_text s → s ≠ "" → is_Some (string_prefix_upper_bound s).
Proof.
  intros Hs (t & a & ->)%string_snoc. unfold string_prefix_upper_bound.
  destruct (increment_last_ascii t a Hs) as (b & Hb & ->).
  assert (utf8_valid (as_bytes (t +:+ String b "")) = true) as ->; [|by eexists].
  apply utf8_valid_spec. clear -Hs Hb. induction t as [|c t IH].
  - apply utf8_ascii_char; [done|constructor].
  - rewrite string_app_cons in Hs |- *. destruct Hs as [Hc Hs]. apply utf8_ascii_char; [lia|by apply IH].
Qed.

(** The range of an ASCII prefix is the keys that start with it. *)
Lemma prefix_range s k : ascii_text s → s ≠ "" → in_key_range s (string_prefix_upper_bound s) k ↔ starts_with k s = true.
Proof.
  intros Hs Hne. destruct (ascii_upper_bound s Hs Hne) as [u Hu]. unfold in_key_range.
  rewrite Hu. by rewrite (prefix_upper_bound_exact s u k Hu).
Qed.

(** [m] answers with a result that satisfies [Q], or fails to load. *)
Definition answers {A} (m : res CoreError A) (Q : A → Prop) : Prop :=
  (∃ a, m = Ok a ∧ Q a) ∨ ∃ e, m = Err (CeManifestLoad e).

Lemma serves_answers {A} (m : res CoreError A) a : serves m (Ok a) ↔ answers m (λ b, b = a).
Proof. split; (intros [H|H]; [left|by right]); naive_solver. Qed.

Lemma answers_bind {A B} (m : res CoreError A) (k : A → res CoreError B) P Q :
  answers m P → (∀ a, P a → answers (k a) Q) → answers (a ← m; k a) Q.
Proof. intros [(a & -> & HP)|[e ->]] Hk; [by apply Hk|right; by exists e]. Qed.

Lemma answers_Ok {A} (a : A) (Q : A → Prop) : Q a → answers (Ok a) Q.
Proof. intros Ha. left. by exists a. Qed.

Lemma answers_impl {A} (m : res CoreError A) (P Q : A → Prop) : answers m P → (∀ a, P a → Q a) → answers m Q.
Proof. intros [(a & -> & HP)|[e ->]] HPQ; [left; exists a; auto|right; by exists e]. Qed.

Lemma serves_bind {A B} (m : res CoreError A) a (k : A → res CoreError B) Q :
  serves m (Ok a) → answers (k a) Q → answers (a ← m; k a) Q.
Proof. rewrite serves_answers. intros Hm Hk. apply (answers_bind _ _ _ _ Hm). by intros ? ->. Qed.

Lemma transpose_Ok {E A B} (decode : A → res E B) a b : decode a = Ok b → transpose decode (Some a) = Ok (Some b).
Proof. by intros H; cbn; rewrite H. Qed.

Lemma try_collect_Ok {E A B} (decode : A → res E B) l bs :
  Forall2 (λ a b, decode a = Ok b) l bs → try_collect decode l = Ok bs.
Proof. induction 1 as [|a b l bs Hab _ IH]; [done|]. cbn. by rewrite Hab, IH. Qed.

(** ** The rows of a manifest *)
Section runs.
Context (runs : list StoredRun) (Hruns : runs_ok runs).

Lemma manifest_rows_elem family x : x ∈ manifest_rows runs family ↔ x ∈ runs_rows runs family.
Proof using Type. apply sort_by_elem. Qed.

Lemma manifest_rows_ascending family : ascending (manifest_rows runs family).
Proof using Hruns.
  apply sorted_ascending; [apply by_key_sorted|]. unfold manifest_rows. rewrite (sort_by_perm by_key). by apply ro_distinct.
Qed.

Lemma rows_in_elem lower upper rows x : x ∈ rows_in lower upper rows ↔ in_key_range lower upper x.1 ∧ x ∈ rows.
Proof using Type. unfold rows_in. by rewrite list_elem_of_filter. Qed.

Lemma rows_in_ascending lower upper rows : ascending rows → ascending (rows_in lower upper rows).
Proof using Type. unfold ascending, rows_in. intros Hs. by apply sorted_filter. Qed.

Lemma run_row_elem family run x : run ∈ runs → x ∈ run.(run_rows) family → x ∈ runs_rows runs family.
Proof using Type.
  intros Hrun Hx. apply elem_of_concat. exists (run.(run_rows) family). split; [|done].
  by apply (list_elem_of_fmap_2 (λ run, run.(run_rows) family)).
Qed.

Lemma page_take (heap : MetadataRow → N) limit rows :
  rows_weight heap rows < U64_MAX → page_prefix heap limit U64_MAX rows = take (N.to_nat limit) rows.
Proof using Type.
  generalize U64_MAX. intros max. revert limit max. induction rows as [|x rows IH]; intros limit max Hw; cbn [page_prefix].
  { by rewrite take_nil. }
  cbn in Hw. case_decide; [by subst limit|]. rewrite decide_False by lia.
  replace (N.to_nat limit) with (S (N.to_nat (limit - 1))) by lia. cbn. f_equal. apply IH. unfold rows_weight in *. lia.
Qed.

Lemma rows_weight_filter (heap : MetadataRow → N) (P : string * MetadataRow → Prop) `{∀ x, Decision (P x)} rows :
  rows_weight heap (filter P rows) ≤ rows_weight heap rows.
Proof using Type.
  induction rows as [|x rows IH]; [done|]. rewrite filter_cons. case_decide; cbn; unfold rows_weight in *; lia.
Qed.
End runs.

(** ** Edge walks *)
Lemma length_filter_strict {A} (P Q : A → Prop) `{!∀ x, Decision (P x), !∀ x, Decision (Q x)} l a :
  (∀ x, P x → Q x) → a ∈ l → Q a → ¬ P a → (length (filter P l) < length (filter Q l))%nat.
Proof.
  intros HPQ. assert (∀ k, (length (filter P k) ≤ length (filter Q k))%nat) as Hle.
  { induction k as [|x k IH]; [done|]. rewrite !filter_cons. repeat case_decide; cbn; naive_solver lia. }
  induction l as [|x l IH]; intros Ha HQ HP; [by apply elem_of_nil in Ha|]. rewrite !filter_cons.
  apply elem_of_cons in Ha as [<-|Ha].
  - rewrite decide_False, decide_True by done. cbn. specialize (Hle l). lia.
  - specialize (IH Ha HQ HP). repeat case_decide; cbn; naive_solver lia.
Qed.

Section edge_walk_laws.
Context {S} `{ManifestScans S} (segments : S) (family : MetadataRowFamily) (prefix probe : string).
Context (edge_end : DirentryBindingRecord → res CoreError string) (blocks_per_refill : BlocksPerRefill).
Context (visible_seq : ChangeSeq) (newest_run_only : bool).
Context (R : list (string * MetadataRow)) (P : string → list (string * MetadataRow)).

Definition binding_at (x : string * MetadataRow) (r : DirentryBindingRecord) : Prop := x ∈ R ∧ x.2 = RowDirentryBinding r.

(** The newest row at or below the sequence. *)
Definition newest_at (m : string * MetadataRow) (r : DirentryBindingRecord) : Prop :=
  binding_at m r ∧ r.(db_committed_seq) ≤ visible_seq ∧
  ∀ y r', binding_at y r' → r'.(db_committed_seq) ≤ visible_seq → kle (binding_position r') (binding_position r).

(** The rows from a row up to its edge's end are older rows. *)
Context (Hedge : ∀ x, x ∈ R → ∃ r stop, x.2 = RowDirentryBinding r ∧ edge_end r = Ok stop ∧
  ∀ y r', binding_at y r' → cmp x.1 y.1 = Lt → cmp y.1 stop = Lt → cmp (binding_position r') (binding_position r) = Lt).
(** A page has rows of the range, and the newest one unless it ends before it. *)
Context (Hpage : ∀ lower, kle prefix lower → serves (edge_page segments family prefix probe blocks_per_refill newest_run_only lower) (Ok (P lower))).
Context (HP : ∀ lower, kle prefix lower → ascending (P lower) ∧ (∀ x, x ∈ P lower → x ∈ R ∧ kle lower x.1) ∧
  ∀ m r, newest_at m r → kle lower m.1 →
    m ∈ P lower ∨ (N.of_nat (length (P lower)) = EDGE_WALK_PAGE_ROWS ∧ ∀ x, x ∈ P lower → cmp x.1 m.1 = Lt)).

(** [stop] ends the edge of a row at or below the sequence. *)
Definition edge_stop (x : string * MetadataRow) (stop : string) : Prop :=
  ∃ r, binding_at x r ∧ edge_end r = Ok stop ∧ r.(db_committed_seq) ≤ visible_seq.

Lemma past_edge x stop m r : edge_stop x stop → newest_at m r → cmp x.1 m.1 = Lt → kle stop m.1.
Proof using Hedge.
  intros (rx & Hx & Hstop & Hseq) (Hm & _ & Hmax) Hlt. destruct (kle_total stop m.1) as [|Hle]; [done|].
  destruct (Hedge x (proj1 Hx)) as (rx' & stop' & Ex & Hstop' & Holder).
  assert (rx' = rx) as -> by (destruct Hx; congruence). assert (stop' = stop) as -> by congruence.
  destruct (cmp m.1 stop) eqn:E; [by apply cmp_eq in E as ->; apply kle_refl| |by apply gt_kle].
  specialize (Holder _ _ Hm Hlt E). by destruct (kle_not_lt _ _ (Hmax _ _ Hx Hseq)).
Qed.

Definition read_from (page : list (string * MetadataRow)) (edges edges' : list DirentryBindingRecord) : Prop :=
  (∀ r, r ∈ edges → r ∈ edges') ∧
  (∀ r, r ∈ edges' → r ∈ edges ∨ ∃ x, binding_at x r ∧ r.(db_committed_seq) ≤ visible_seq) ∧
  (∀ m r, newest_at m r → m ∈ page → r ∈ edges').

Lemma read_edges_ok page : ∀ read_edge_end edges,
  ascending page → (∀ x, x ∈ page → x ∈ R) →
  (∀ stop, read_edge_end = Some stop → ∃ x, edge_stop x stop ∧ ∀ y, y ∈ page → cmp x.1 y.1 = Lt) →
  ∃ stop' edges', read_edges edge_end visible_seq page read_edge_end edges = Ok (stop', edges') ∧
    read_from page edges edges' ∧
    (stop' = read_edge_end ∨ ∀ stop, stop' = Some stop → ∃ x, x ∈ page ∧ edge_stop x stop).
Proof using Hedge.
  clear Hpage HP P. induction page as [|[k row] page IH]; intros re edges Hasc HR Hre.
  { exists re, edges. split; [done|]. split; [|by left]. split_and!; [done|by left|]. by intros m r _ Hm%elem_of_nil. }
  apply StronglySorted_inv in Hasc as [Hasc Hlt]. rewrite Forall_forall in Hlt.
  destruct (Hedge (k, row)) as (r & stop & Erow & Hstop & _); [by apply HR; left|]. cbn in Erow. subst row.
  assert (∀ x, x ∈ page → x ∈ R) as HR' by (intros x Hx; apply HR; by right).
  assert (binding_at (k, RowDirentryBinding r) r) as Hat by (split; [apply HR; by left|done]).
  cbn [read_edges]. destruct (match re with Some stop => _ | None => _ end) eqn:Eskip; [|cbn [direntry_binding_from_manifest_row mbind res_bind]].
  - destruct re as [s|]; [|done]. apply bool_decide_eq_true in Eskip.
    destruct (Hre s eq_refl) as (x & Hx & Hbefore).
    destruct (IH (Some s) edges Hasc HR') as (s' & edges' & E & (H1 & H2 & H3) & H4).
    { intros s0 [= <-]. exists x. split; [done|]. intros y Hy. apply Hbefore. by right. }
    exists s', edges'. split; [done|]. split; [|destruct H4 as [|H4]; [by left|right; naive_solver set_solver]].
    split_and!; [done..|]. intros m rm Hm [->|Hin]%elem_of_cons; [|by eapply H3].
    by destruct (kle_not_lt s k (past_edge x s _ _ Hx Hm ltac:(apply Hbefore; by left))).
  - destruct (N.ltb_spec visible_seq r.(db_committed_seq)) as [Hgt|Hle].
    + destruct (IH re edges Hasc HR') as (s' & edges' & E & (H1 & H2 & H3) & H4).
      { intros s0 Hs0. destruct (Hre s0 Hs0) as (x & Hx & Hb). exists x. split; [done|]. intros y Hy. apply Hb. by right. }
      exists s', edges'. split; [done|]. split; [|destruct H4 as [|H4]; [by left|right; naive_solver set_solver]].
      split_and!; [done..|]. intros m rm Hm [->|Hin]%elem_of_cons; [|by eapply H3].
      destruct Hm as ((_ & [= ->]) & Hv & _). lia.
    + rewrite Hstop. cbn [mbind res_bind].
      destruct (IH (Some stop) (edges ++ [r]) Hasc HR') as (s' & edges' & E & (H1 & H2 & H3) & H4).
      { intros s0 [= <-]. exists (k, RowDirentryBinding r). split; [by exists r|]. intros y Hy. by apply (Hlt y). }
      exists s', edges'. split; [done|]. split; [split_and!|].
      * intros r' Hr'. apply H1, elem_of_app. by left.
      * intros r' [Hr'|Hr']%H2; [|by right]. apply elem_of_app in Hr' as [Hr'| ->%list_elem_of_singleton]; [by left|]. right. by eexists.
      * intros m rm Hm [->|Hin]%elem_of_cons; [|by eapply H3]. apply H1, elem_of_app. right.
        destruct Hm as ((_ & [= ->]) & _). by left.
      * right. intros s0 Hs0. destruct H4 as [->|H4].
        -- injection Hs0 as <-. exists (k, RowDirentryBinding r). split; [by left|by exists r].
        -- destruct (H4 _ Hs0) as (x & Hx & Hs). exists x. split; [by right|done].
Qed.

Lemma edge_walk_ok fuel : ∀ lower edges,
  kle prefix lower → (length (filter (λ x, kle lower x.1) R) < fuel)%nat →
  answers (edge_walk segments family prefix probe edge_end blocks_per_refill visible_seq fuel newest_run_only lower edges)
    (λ edges', (∀ r, r ∈ edges → r ∈ edges') ∧
       (∀ r, r ∈ edges' → r ∈ edges ∨ ∃ x, binding_at x r ∧ r.(db_committed_seq) ≤ visible_seq) ∧
       ∀ m r, newest_at m r → kle lower m.1 → r ∈ edges').
Proof using Hedge Hpage HP.
  induction fuel as [|fuel IH]; intros lower edges Hlower Hfuel; [lia|]. cbn [edge_walk].
  eapply serves_bind; [by apply Hpage|]. destruct (HP lower Hlower) as (Hasc & HR & Hnew).
  destruct (list.last (P lower)) as [[last_key last_row]|] eqn:Elast.
  2:{ apply last_None in Elast. apply answers_Ok. split_and!; [done|by left|]. intros m r Hm Hle.
      destruct (Hnew m r Hm Hle) as [Hin|[Hlen _]]; rewrite Elast in *; [by apply elem_of_nil in Hin|done]. }
  destruct (read_edges_ok (P lower) None edges Hasc) as (stop & edges' & -> & (H1 & H2 & H3) & H4).
  { intros x Hx. by apply HR. } { done. }
  cbn [mbind res_bind]. pose proof (last_elem_of _ _ Elast) as Hlast. destruct (HR _ Hlast) as [HlastR Hlastle].
  assert (∀ m r, newest_at m r → kle lower m.1 → r ∈ edges' ∨ N.of_nat (length (P lower)) = EDGE_WALK_PAGE_ROWS ∧
    cmp last_key m.1 = Lt ∧ ∀ s, stop = Some s → kle s m.1) as Hkeep.
  { intros m r Hm Hle. destruct (Hnew m r Hm Hle) as [Hin|[Hlen Hbefore]]; [left; by eapply H3|]. right.
    split; [done|]. split; [by apply (Hbefore _ Hlast)|]. intros s ->. destruct H4 as [|H4]; [done|].
    destruct (H4 s eq_refl) as (x & Hx & Hs). by apply (past_edge x s m r), Hbefore. }
  case_bool_decide as Hfull; cbn [negb].
  2:{ apply answers_Ok. split_and!; [done..|]. intros m r Hm Hle. destruct (Hkeep m r Hm Hle) as [|[]]; done. }
  set (next := match stop with Some s => string_max _ s | None => _ end).
  assert (kle (after_row_key last_key) next) as Hnext.
  { unfold next, string_max. destruct stop as [s|]; [|apply kle_refl]. case_decide as E; [apply kle_refl|by apply not_lt_kle]. }
  assert (length (filter (λ x, kle next x.1) R) < length (filter (λ x, kle lower x.1) R))%nat as Hless.
  { apply (length_filter_strict _ _ _ (last_key, last_row)); [|done|done|].
    - intros x Hx. eapply kle_trans; [exact Hlastle|]. apply lt_kle, after_row_key_le. by eapply kle_trans.
    - intros Hle. assert (cmp last_key last_key = Lt) as Hc; [apply after_row_key_le; by eapply kle_trans|].
      by rewrite cmp_refl in Hc. }
  eapply answers_impl; [apply (IH next edges'); [|lia]|].
  { eapply kle_trans; [exact Hlower|]. eapply kle_trans; [exact Hlastle|]. eapply kle_trans; [|exact Hnext].
    by apply lt_kle, after_row_key_le, kle_refl. }
  intros es (G1 & G2 & G3). split_and!; [naive_solver| |].
  - intros r [Hr|Hr]%G2; [by apply H2|by right].
  - intros m r Hm Hle. destruct (Hkeep m r Hm Hle) as [Hr|(_ & Hlt & Hs)]; [by apply G1|]. apply (G3 m r Hm).
    unfold next, string_max. destruct stop as [s|]; [case_decide|]; [by apply after_row_key_le|by apply Hs|by apply after_row_key_le].
Qed.
End edge_walk_laws.

(** ** Lookup prefixes *)
Create HintDb ascii.
#[export] Hint Resolve ascii_app hex_ascii InodeId_body_ascii fmt_dec_ascii : ascii.
#[export] Hint Extern 1 (ascii_text (String _ _)) => (repeat split) : ascii.
#[export] Hint Extern 1 (_ ≤ _) => lia : ascii.

Lemma char_position_ascii s a i : ascii_text s → char_position s a = Some i → N_of_ascii a < 127.
Proof.
  revert i. induction s as [|b s IH]; intros i Hs E; [done|]. destruct Hs as [Hb Hs]. cbn [char_position] in E.
  case_decide; [by subst|]. destruct (char_position s a) as [j|] eqn:Ej; [|done]. by eapply IH.
Qed.

Lemma all_in_alphabet_ascii body : all_in_alphabet body = true → ascii_text body.
Proof.
  induction body as [|a body IH]; [done|]. cbn [all_in_alphabet]. intros [[i Hi]%bool_decide_eq_true Hb]%andb_prop.
  split; [|by apply IH]. by eapply char_position_ascii; [|exact Hi].
Qed.

Lemma scan_prefix_ascii q prefix : scan_wf q → scan_prefix q = Ok prefix → ascii_text prefix ∧ prefix ≠ "".
Proof.
  destruct q; cbn [scan_prefix scan_wf]; intros Hwf E.
  all: try (injection E as <-; split; [|done]).
  all: try (unfold direntry_bind_edge_prefix, direntry_child_bind_edge_prefix, direntry_bind_prefix, direntry_child_prefix,
    tombstone_prefix, commit_receipt_prefix, merge_prefix, revision_no_prefix, attributes_prefix, access_prefix, direntry_bind_probe, direntry_parent_prefix,
    direntry_parent_probe, direntry_child_probe, tombstone_probe, commit_receipt_probe, merge_probe,
    revision_prefix, revision_probe, attributes_probe, access_probe, hex_encode_row_key_component,
    DIRENTRY_BIND_ROW_PREFIX, DIRENTRY_CHILD_BIND_ROW_PREFIX, TOMBSTONE_ROW_PREFIX, COMMIT_RECEIPT_ROW_PREFIX,
    MERGE_ROW_PREFIX, REVISION_ROW_PREFIX, ATTRIBUTE_ROW_PREFIX, ACCESS_ROW_PREFIX; auto 20 with ascii).
  unfold content_layout_prefix, content_layout_probe in E. destruct (ContentId_body content_id) as [body| | |] eqn:Eb; try done.
  injection E as <-. split; [|done]. unfold ContentId_body in Eb. unfold validate_generated_id in Hwf.
  change ("con" +:+ "_") with "con_" in Hwf. destruct (strip_prefix "con_" content_id) as [b|]; [|done]. injection Eb as ->.
  unfold generated_id_body_error in Hwf. destruct (all_in_alphabet body) eqn:Ea; [|by rewrite orb_true_r in Hwf].
  apply all_in_alphabet_ascii in Ea. unfold CONTENT_LAYOUT_ROW_PREFIX. auto 20 with ascii.
Qed.

(** The filter key that a lookup probes with. *)
Definition scan_probe (q : scan) : res Empty_set string :=
  match q with
  | ScanParent p => Ok (direntry_parent_probe p)
  | ScanSlot p n | ScanSlotEdge p n _ => Ok (direntry_bind_probe p n)
  | ScanChild c | ScanChildEdge c _ _ => Ok (direntry_child_probe c)
  | ScanTombstones r => Ok (tombstone_probe r)
  | ScanLayouts c => content_layout_probe c
  | ScanReceipts c => Ok (commit_receipt_probe c)
  | ScanMerges n => Ok (merge_probe n)
  | ScanRevisions i | ScanRevisionNo i _ => Ok (revision_probe i)
  | ScanAttributes i => Ok (attributes_probe i)
  | ScanAccess i => Ok (access_probe i)
  end.

Lemma find_first_app {A} (P : A → Prop) `{!∀ x, Decision (P x)} (l k : list A) :
  find_first P (l ++ k) = match find_first P l with Some x => Some x | None => find_first P k end.
Proof. unfold find_first. rewrite filter_app. by destruct (filter P l). Qed.

Lemma find_first_cons {A} (P : A → Prop) `{!∀ x, Decision (P x)} x (l : list A) :
  find_first P (x :: l) = if decide (P x) then Some x else find_first P l.
Proof. unfold find_first. rewrite filter_cons. by case_decide. Qed.

Lemma take_elem {A} n (l : list A) x : x ∈ take n l → x ∈ l.
Proof. intros Hx. rewrite <-(take_drop n l). apply elem_of_app. by left. Qed.

Section ascending_rows.
Implicit Types (l : list (string * MetadataRow)) (x m : string * MetadataRow).

Lemma head_ascending l x : ascending l → x ∈ l → (∀ y, y ∈ l → kle x.1 y.1) → head l = Some x.
Proof.
  intros Ha Hx Hle. destruct l as [|z l]; [by apply elem_of_nil in Hx|]. cbn. f_equal.
  apply (ascending_key_inj _ _ _ Ha); [by left|done|].
  apply kle_antisym; [by apply (ascending_head_le _ _ _ Ha)|apply Hle; by left].
Qed.

Lemma take_ascending n l m : ascending l → m ∈ l →
  m ∈ take n l ∨ (length (take n l) = n ∧ ∀ x, x ∈ take n l → cmp x.1 m.1 = Lt).
Proof.
  intros Ha Hm. rewrite <-(take_drop n l) in Ha, Hm. apply sorted_app_inv in Ha as (_ & _ & Hlt).
  apply elem_of_app in Hm as [Hm|Hm]; [by left|]. right. split; [|by intros x Hx; apply (Hlt x m)].
  rewrite length_take. destruct (decide (length l ≤ n)%nat) as [Hle|]; [|lia]. rewrite (drop_ge l) in Hm by lia. by apply elem_of_nil in Hm.
Qed.

Lemma ascending_take n l : ascending l → ascending (take n l).
Proof. intros Ha. rewrite <-(take_drop n l) in Ha. by apply sorted_app_inv in Ha as (? & _). Qed.

(** The rows after a page are the rows past its last key. *)
Lemma rows_past_page n lower upper rows last :
  ascending rows → kle lower last.1 →
  list.last (take n (rows_in lower upper rows)) = Some last →
  rows_in (after_row_key last.1) upper rows = drop n (rows_in lower upper rows).
Proof.
  intros Ha Hle Hlast. pose proof (rows_in_ascending lower upper rows Ha) as Hin.
  assert (rows_in (after_row_key last.1) upper rows = filter (λ x, cmp last.1 x.1 = Lt) (rows_in lower upper rows)) as ->.
  { unfold rows_in. rewrite list_filter_filter. apply filter_ext_in. intros x _. unfold in_key_range. rewrite after_row_key_le.
    split; [intros [? ?]; split_and!; [done| |done]|naive_solver]. by eapply kle_trans, lt_kle. }
  rewrite <-(take_drop n (rows_in lower upper rows)) at 1. rewrite <-(take_drop n (rows_in lower upper rows)) in Hin.
  pose proof (last_elem_of _ _ Hlast) as Hl. apply sorted_app_inv in Hin as (Hs & _ & Hlt).
  rewrite filter_app, filter_none, filter_all; [done| |].
  - intros x Hx. by apply Hlt.
  - intros x Hx Hc. assert (kle x.1 last.1) as Hxl.
    { apply (sorted_last (take n (rows_in lower upper rows)).*1); [|by rewrite fmap_last, Hlast|by apply list_elem_of_fmap_2].
      clear -Hs. induction Hs as [|y l Hs IH Hall]; [constructor|]. cbn. constructor; [done|]. apply Forall_fmap.
      eapply Forall_impl; [exact Hall|]. intros z Hz. by apply lt_kle. }
    by destruct (kle_not_lt x.1 last.1 Hxl).
Qed.
End ascending_rows.

Section selected.
Context (runs : list StoredRun) (Hruns : runs_ok runs).

(** The rows of a lookup. *)
Definition selected (q : scan) (prefix : string) : list (string * MetadataRow) :=
  rows_in prefix (string_prefix_upper_bound prefix) (manifest_rows runs (scan_family q)).

Lemma selected_ascending q prefix : ascending (selected q prefix).
Proof using Hruns. by apply rows_in_ascending, manifest_rows_ascending. Qed.

Lemma prefix_selects q prefix (x : string * MetadataRow) :
  scan_wf q → scan_prefix q = Ok prefix → x ∈ runs_rows runs (scan_family q) →
  in_key_range prefix (string_prefix_upper_bound prefix) x.1 ↔ scan_selects q x.2.
Proof using Hruns.
  intros Hq Hp Hx. destruct (ro_keyed _ Hruns _ _ Hx) as (Hkey & Hwf & Hin).
  destruct (scan_prefix_selects q x.2 Hq Hwf Hin) as (p & k & Ep & Ek & Hsel).
  rewrite Hp in Ep. injection Ep as <-. rewrite Hkey in Ek. injection Ek as <-.
  destruct (scan_prefix_ascii q prefix Hq Hp). by rewrite prefix_range.
Qed.

Lemma selected_elem q prefix (x : string * MetadataRow) :
  scan_wf q → scan_prefix q = Ok prefix →
  x ∈ selected q prefix ↔ x ∈ runs_rows runs (scan_family q) ∧ scan_selects q x.2.
Proof using Hruns.
  intros Hq Hp. unfold selected. rewrite rows_in_elem, manifest_rows_elem. split.
  - intros [Hr Hx]. split; [done|]. by eapply prefix_selects.
  - intros [Hx Hs]. split; [|done]. by eapply prefix_selects.
Qed.

Lemma selects_probe q prefix (x : string * MetadataRow) probe : scan_probe q = Ok probe → scan_prefix q = Ok prefix →
  scan_selects q x.2 → filter_key_for_family x.2 (scan_family q) = Ok probe ∨
    parent_filter_key_for_family x.2 (scan_family q) = Some probe.
Proof using Type.
  intros Hp _. destruct q, x as [k []]; cbn [snd scan_selects scan_probe scan_family filter_key_for_family
    parent_filter_key_for_family expect] in *; try done; intros Hs; try apply Ok_inj in Hp; destruct_and?; subst.
  all: first [by left|by right].
Qed.

Lemma selected_probe q prefix lower probe :
  scan_wf q → scan_prefix q = Ok prefix → scan_probe q = Ok probe → kle prefix lower →
  probe_covers runs (scan_family q) lower (string_prefix_upper_bound prefix) probe.
Proof using Hruns.
  intros Hq Hp Hprobe Hle x Hx [Hl Hu]. eapply selects_probe; [done..|]. apply (prefix_selects q prefix x Hq Hp Hx).
  split; [by eapply kle_trans|done].
Qed.

(** *** The newest run *)
Lemma newest_run_spec family lower upper :
  (newest_run_rows runs family lower upper = [] ∧ ∀ run, run ∈ runs → rows_in lower upper (run.(run_rows) family) = []) ∨
  ∃ newer run older, runs = newer ++ run :: older ∧ newest_run_rows runs family lower upper = rows_in lower upper (run.(run_rows) family) ∧
    newest_run_rows runs family lower upper ≠ [] ∧ ∀ r, r ∈ newer → rows_in lower upper (r.(run_rows) family) = [].
Proof using Type.
  unfold newest_run_rows. clear Hruns. induction runs as [|run rs IH].
  { left. split; [done|]. by intros run ?%elem_of_nil. }
  rewrite fmap_cons, find_first_cons. case_decide as E.
  - right. exists [], run, rs. split_and!; [done..|]. by intros r ?%elem_of_nil.
  - destruct IH as [(-> & Hall)|(newer & r & older & -> & E1 & E2 & Hnew)].
    + left. split; [done|]. by intros r [->|Hr]%elem_of_cons; [|apply Hall].
    + right. exists (run :: newer), r, older. split_and!; [done..|]. by intros r' [->|Hr']%elem_of_cons; [|apply Hnew].
Qed.

(** A row of the range is in the newest run that has one, or a row of that
    run is later. *)
Lemma newest_run_later family lower upper (x : string * MetadataRow) :
  history_family family → x ∈ runs_rows runs family → in_key_range lower upper x.1 →
  x ∈ newest_run_rows runs family lower upper ∨
  ∀ y, y ∈ newest_run_rows runs family lower upper → later_row x.2 y.2.
Proof using Hruns.
  intros Hf Hx Hr. apply elem_of_concat in Hx as (l & (run & -> & Hrun)%list_elem_of_fmap & Hx).
  assert (x ∈ rows_in lower upper (run.(run_rows) family)) as Hin by by apply rows_in_elem.
  destruct (newest_run_spec family lower upper) as [[_ Hnone]|(newer & r & older & E & -> & _ & Hnew)].
  { rewrite (Hnone _ Hrun) in Hin. by apply elem_of_nil in Hin. }
  pose proof (ro_newer _ Hruns) as Hs. rewrite E in Hs, Hrun. apply sorted_app_inv in Hs as (_ & Hs & _).
  apply StronglySorted_inv in Hs as [_ Hs]. rewrite Forall_forall in Hs.
  apply elem_of_app in Hrun as [Hrun|[->|Hrun]%elem_of_cons]; [|by left|].
  - rewrite (Hnew _ Hrun) in Hin. by apply elem_of_nil in Hin.
  - right. intros y [_ Hy]%rows_in_elem. by eapply (Hs _ Hrun family).
Qed.

Lemma newest_run_sub family lower upper (x : string * MetadataRow) :
  x ∈ newest_run_rows runs family lower upper → x ∈ runs_rows runs family ∧ in_key_range lower upper x.1.
Proof using Type.
  clear Hruns. destruct (newest_run_spec family lower upper) as [[-> _]|(newer & r & older & E & -> & _ & _)]; [by intros ?%elem_of_nil|].
  intros [Hr Hx]%rows_in_elem. split; [|done]. apply (run_row_elem runs family r); [|done]. rewrite E. set_solver.
Qed.

Lemma newest_run_ascending family lower upper : ascending (newest_run_rows runs family lower upper).
Proof using Hruns.
  destruct (newest_run_spec family lower upper) as [[-> _]|(newer & r & older & E & -> & _ & _)]; [constructor|].
  apply rows_in_ascending, (ro_sorted runs Hruns). rewrite E. set_solver.
Qed.
End selected.

(** ** What the lookups return *)

(** [part] has elements of [all], with one at or above each of them. *)
Definition newest_part `{Ord K} {A} (key : A → K) (part all : list A) : Prop :=
  (∀ x, x ∈ part → x ∈ all) ∧ ∀ x, x ∈ all → ∃ y, y ∈ part ∧ kle (key x) (key y).

Section lookups_laws.
Context {S} `{ManifestScans S} (heap_bytes : MetadataRow → N) (segments : S) (runs : list StoredRun).
Context (Hholds : manifest_holds heap_bytes segments runs).
#[local] Abbreviation Hruns := (mh_runs _ _ _ Hholds).

Lemma scan_rows_serves family lower upper limit probe blocks_per_refill :
  (∀ p, probe = Some p → probe_covers runs family lower upper p) →
  serves (scan_rows segments family lower upper limit probe blocks_per_refill)
    (Ok (take (N.to_nat limit) (rows_in lower upper (manifest_rows runs family)))).
Proof using Hholds.
  intros Hp. unfold scan_rows. rewrite <-(page_take heap_bytes).
  - by apply (mh_scan _ _ _ Hholds).
  - eapply N.le_lt_trans; [apply rows_weight_filter|]. unfold manifest_rows.
    rewrite (rows_weight_perm _ _ _ (sort_by_perm by_key _)). by apply (mh_weight _ _ _ Hholds).
Qed.

(** *** Newest rows *)
Section newest_row_laws.
Context (q : scan) (prefix probe : string) (Hq : scan_wf q) (Hprefix : scan_prefix q = Ok prefix) (Hprobe : scan_probe q = Ok probe).
Context {R K : Type} `{TotalOrd K} (decode : MetadataRow → res CoreError R) (committed_seq : R → ChangeSeq) (key : R → K).
Context (Hdecode : ∀ row, scan_selects q row → ∃ r, decode row = Ok r ∧ manifest_row_commit_seq row = committed_seq r).
Context (Hfamily : history_family (scan_family q)).
(** The keys sort the records newest first, within a run and from run to run. *)
Context (Hkey : ∀ x y rx ry, x ∈ selected runs q prefix → y ∈ selected runs q prefix →
  decode x.2 = Ok rx → decode y.2 = Ok ry → kle x.1 y.1 ∨ later_row y.2 x.2 → kle (key ry) (key rx)).
Context (visible_seq : ChangeSeq).
#[local] Abbreviation upper := (string_prefix_upper_bound prefix).

Definition record_at (x : string * MetadataRow) (r : R) : Prop := x ∈ selected runs q prefix ∧ decode x.2 = Ok r.

(** The first record at or below the sequence of the rows from [lower] on. *)
Definition newest_from (lower : string) (o : option R) : Prop :=
  (∀ r, o = Some r → ∃ x, record_at x r ∧ committed_seq r ≤ visible_seq) ∧
  ∀ x r, record_at x r → kle lower x.1 → committed_seq r ≤ visible_seq → ∃ r', o = Some r' ∧ kle (key r) (key r').

Lemma selected_selects x : x ∈ selected runs q prefix → scan_selects q x.2.
Proof using Hholds Hq Hprefix. intros Hx. by apply (selected_elem runs Hruns q prefix x Hq Hprefix) in Hx as []. Qed.

Lemma first_visible_ok page :
  ascending page → (∀ x, x ∈ page → x ∈ selected runs q prefix) →
  ∃ o, first_visible visible_seq decode committed_seq page = Ok o ∧
    match o with
    | Some r => (∃ x, x ∈ page ∧ record_at x r) ∧ committed_seq r ≤ visible_seq ∧
        ∀ x r', x ∈ page → record_at x r' → committed_seq r' ≤ visible_seq → kle (key r') (key r)
    | None => ∀ x r, x ∈ page → record_at x r → visible_seq < committed_seq r
    end.
Proof using Hholds Hq Hprefix Hdecode Hkey H1.
  induction page as [|[k row] page IH]; intros Ha Hsel; cbn [first_visible].
  { exists None. split; [done|]. by intros x r ?%elem_of_nil. }
  assert ((k, row) ∈ selected runs q prefix) as Hin by (apply Hsel; by left).
  destruct (Hdecode row (selected_selects _ Hin)) as (r & Hr & _). rewrite Hr. cbn [mbind res_bind].
  apply StronglySorted_inv in Ha as [Ha Hlt]. rewrite Forall_forall in Hlt.
  destruct (N.leb_spec (committed_seq r) visible_seq) as [Hle|Hgt].
  - exists (Some r). split; [done|]. split_and!; [exists (k, row); split; [by left|done]|done|].
    intros x r' [->|Hx]%elem_of_cons [Hs Hx'] _.
    + cbn in Hx'. assert (r' = r) as -> by congruence. apply kle_refl.
    + apply (Hkey (k, row) x r r'); [done..|]. left. by apply lt_kle, Hlt.
  - destruct IH as (o & -> & Ho); [done|by intros x Hx; apply Hsel; right|]. exists o. split; [done|].
    assert (∀ r', record_at (k, row) r' → r' = r) as Hsame by (intros r' [_ Hr']; cbn in Hr'; congruence).
    destruct o as [r0|].
    + destruct Ho as ((x & Hx & Hx0) & Hle & Hmax). split_and!; [exists x; split; [by right|done]|done|].
      intros y r' [->|Hy]%elem_of_cons Hy' Hle'; [|by eapply Hmax]. apply Hsame in Hy' as ->. lia.
    + intros y r' [->|Hy]%elem_of_cons Hy'; [by apply Hsame in Hy' as ->|by eapply Ho].
Qed.

Lemma selected_rows_in lower x : kle prefix lower →
  x ∈ rows_in lower upper (manifest_rows runs (scan_family q)) ↔ x ∈ selected runs q prefix ∧ kle lower x.1.
Proof using Type.
  intros Hle. unfold selected. rewrite !rows_in_elem. unfold in_key_range. split; [|naive_solver].
  intros [[Hl Hu] Hx]. split_and!; [by eapply kle_trans|done..].
Qed.

Lemma newest_row_walk_ok fuel : ∀ lower,
  kle prefix lower → (length (rows_in lower upper (manifest_rows runs (scan_family q))) < fuel)%nat →
  answers (newest_row_walk segments (scan_family q) probe visible_seq decode committed_seq fuel lower upper) (newest_from lower).
Proof using Hholds Hq Hprefix Hprobe Hdecode Hkey H1.
  induction fuel as [|fuel IH]; intros lower Hlower Hfuel; [lia|]. cbn [newest_row_walk].
  eapply serves_bind.
  { apply scan_rows_serves. intros p [= <-]. by apply (selected_probe runs Hruns q prefix lower probe). }
  pose proof (rows_in_ascending lower upper _ (manifest_rows_ascending runs Hruns (scan_family q))) as Hasc.
  set (rest := rows_in lower upper _) in *. set (page := take _ rest).
  assert (∀ x, x ∈ rest ↔ x ∈ selected runs q prefix ∧ kle lower x.1) as Hrest by (intros x; by apply selected_rows_in).
  destruct (first_visible_ok page) as (o & -> & Ho); [by apply ascending_take| |].
  { intros x Hx. apply Hrest. by eapply take_elem. }
  cbn [mbind res_bind].
  assert (∀ x r, x ∈ drop (N.to_nat WHOLE_STATE_RAW_SCAN_LIMIT) rest → record_at x r → o = None ∨ ∃ r', o = Some r' ∧ kle (key r) (key r')) as Hdrop.
  { intros x r Hx [Hxs Hxr]. destruct o as [r0|]; [|by left]. right. exists r0. split; [done|].
    destruct Ho as ((y & Hy & Hys & Hyr) & _ & _). apply (Hkey y x r0 r); [done..|]. left.
    rewrite <-(take_drop (N.to_nat WHOLE_STATE_RAW_SCAN_LIMIT) rest) in Hasc. apply sorted_app_inv in Hasc as (_ & _ & Hlt).
    by apply lt_kle, Hlt. }
  assert (∀ x r, record_at x r → kle lower x.1 → x ∈ page ∨ x ∈ drop (N.to_nat WHOLE_STATE_RAW_SCAN_LIMIT) rest) as Hsplit.
  { intros x r [Hx _] Hle. apply elem_of_app. unfold page. rewrite take_drop. by apply Hrest. }
  destruct o as [r0|].
  - apply answers_Ok. destruct Ho as ((y & Hy & Hyr) & Hle & Hmax). split; [intros r [= <-]; by exists y|].
    intros x r Hx Hlx Hseq. destruct (Hsplit x r Hx Hlx) as [Hin|Hin].
    + exists r0. split; [done|]. by eapply Hmax.
    + destruct (Hdrop x r Hin Hx) as [|]; done.
  - destruct (N.ltb_spec (N.of_nat (length page)) WHOLE_STATE_RAW_SCAN_LIMIT) as [Hshort|Hfull].
    { apply answers_Ok. split; [done|]. intros x r Hx Hlx Hseq. destruct (Hsplit x r Hx Hlx) as [Hin|Hin].
      - specialize (Ho x r Hin Hx). lia.
      - unfold page in Hshort. rewrite length_take in Hshort. rewrite drop_ge in Hin by lia. by apply elem_of_nil in Hin. }
    destruct (list.last page) as [last|] eqn:Elast; cbn [fmap option_fmap option_map].
    2:{ apply last_None in Elast. rewrite Elast in Hfull. done. }
    pose proof (last_elem_of _ _ Elast) as Hlast. assert (kle lower last.1) as Hle by (apply Hrest; by eapply take_elem).
    pose proof (rows_past_page _ lower upper _ last (manifest_rows_ascending runs Hruns (scan_family q)) Hle Elast) as Hpast.
    fold rest in Hpast. eapply answers_impl; [apply IH|].
    + eapply kle_trans; [exact Hlower|]. eapply kle_trans; [exact Hle|]. by apply lt_kle, after_row_key_le, kle_refl.
    + rewrite Hpast, length_drop. unfold page in Hfull. rewrite length_take in Hfull. unfold WHOLE_STATE_RAW_SCAN_LIMIT in *. lia.
    + intros o [G1 G2]. split; [done|]. intros x r Hx Hlx Hseq. destruct (Hsplit x r Hx Hlx) as [Hin|Hin].
      * specialize (Ho x r Hin Hx). lia.
      * apply (G2 x r Hx); [|done]. rewrite <-Hpast in Hin. apply rows_in_elem in Hin as [[] _]. done.
Qed.

Lemma newest_row_ok fuel :
  (length (selected runs q prefix) < fuel)%nat →
  answers (newest_row_under_prefix segments (scan_family q) probe visible_seq decode committed_seq fuel prefix) (newest_from prefix).
Proof using Hholds Hq Hprefix Hprobe Hdecode Hkey Hfamily H1.
  intros Hfuel. unfold newest_row_under_prefix. destruct (segments_every_row_is_visible_at segments visible_seq) eqn:Eall.
  2:{ apply newest_row_walk_ok; [apply kle_refl|done]. }
  eapply serves_bind; [apply (mh_newest _ _ _ Hholds), (selected_probe runs Hruns q prefix prefix probe); [done..|apply kle_refl]|].
  apply (mh_visible _ _ _ Hholds) in Eall. rewrite Forall_forall in Eall.
  set (newest := newest_run_rows runs (scan_family q) prefix upper). change (N.to_nat 1) with 1%nat.
  assert (∀ x, x ∈ newest → x ∈ selected runs q prefix) as Hsub.
  { intros x [Hx Hr]%newest_run_sub. apply rows_in_elem. by rewrite manifest_rows_elem. }
  assert (∀ x r, record_at x r → committed_seq r ≤ visible_seq) as Hseq.
  { intros x r [Hx Hr]. destruct (Hdecode _ (selected_selects _ Hx)) as (r' & Hr' & Hs). assert (r' = r) as -> by congruence.
    rewrite <-Hs. apply (selected_elem runs Hruns q prefix x Hq Hprefix) in Hx as [Hx _].
    apply elem_of_concat in Hx as (l & (run & -> & Hrun)%list_elem_of_fmap & Hx).
    etrans; [by apply (ro_below _ Hruns run (scan_family q))|by apply Eall]. }
  assert (∀ x r, record_at x r → newest ≠ []) as Hne.
  { intros x r [Hx _] En. apply rows_in_elem in Hx as [Hr Hx]. rewrite manifest_rows_elem in Hx.
    destruct (newest_run_spec runs (scan_family q) prefix upper) as [[_ Hnone]|(newer & run & older & _ & _ & Hn & _)]; [|done].
    apply elem_of_concat in Hx as (l & (run & -> & Hrun)%list_elem_of_fmap & Hx).
    assert (x ∈ rows_in prefix upper (run.(run_rows) (scan_family q))) as Hin by by apply rows_in_elem.
    rewrite (Hnone _ Hrun) in Hin. by apply elem_of_nil in Hin. }
  destruct newest as [|y rows] eqn:En.
  { apply answers_Ok. split; [done|]. intros x r Hx. by destruct (Hne x r Hx). }
  cbn [take head]. assert (y ∈ selected runs q prefix) as Hy by (apply Hsub; by left).
  destruct (Hdecode _ (selected_selects _ Hy)) as (r & Hr & _). rewrite (transpose_Ok (λ x, decode x.2) y r Hr). apply answers_Ok.
  split; [intros r' [= <-]; exists y; split; [done|by apply (Hseq y)]|]. intros x r' Hx _ _. exists r. split; [done|].
  destruct Hx as [Hx Hr']. apply (Hkey y x r r'); [done..|]. apply rows_in_elem in Hx as [Hrange Hx].
  rewrite manifest_rows_elem in Hx.
  destruct (newest_run_later runs Hruns (scan_family q) prefix upper x Hfamily Hx Hrange) as [Hin|Hlater].
  - left. pose proof (newest_run_ascending runs Hruns (scan_family q) prefix upper) as Ha. unfold newest in En. rewrite En in Ha, Hin.
    by apply (ascending_head_le y rows).
  - right. apply Hlater. unfold newest in En. rewrite En. by left.
Qed.
End newest_row_laws.
End lookups_laws.

Lemma pair_lt `{Ord B} (a b : N) (x y : B) : a < b → cmp (a, x) (b, y) = Lt.
Proof. intros Hlt%N.compare_lt_iff. unfold cmp at 1, prod_ord. cbn [fst snd]. unfold cmp at 1, N_ord. by rewrite Hlt. Qed.

Lemma foreign_row_fails {A} kind row (a : A) : foreign_row kind row ≠ Ok a.
Proof. unfold foreign_row. by destruct (infallible (row_key row)). Qed.

(** The runs hold the rows of a state. *)
Definition runs_hold (runs : list StoredRun) (st : MetadataState) : Prop :=
  ∀ family, family ≠ FamActiveDeletions → family ≠ FamContentLayouts → (runs_rows runs family).*2 ≡ₚ unsorted_rows st family.

Section state_lookups.
Context {S} `{ManifestScans S} (heap_bytes : MetadataRow → N) (segments : S) (runs : list StoredRun).
Context (Hholds : manifest_holds heap_bytes segments runs) (st : MetadataState) (Hst : runs_hold runs st).
#[local] Abbreviation Hruns := (mh_runs _ _ _ Hholds).
Implicit Types (x y : string * MetadataRow).

Lemma stored_row family row : family ≠ FamActiveDeletions → family ≠ FamContentLayouts →
  (∃ x, x ∈ runs_rows runs family ∧ x.2 = row) ↔ row ∈ unsorted_rows st family.
Proof using Hst.
  intros H1 H2. rewrite <-(Hst family H1 H2), list_elem_of_fmap. naive_solver.
Qed.

Lemma selected_order q prefix x y :
  scan_wf q → scan_prefix q = Ok prefix → x ∈ selected runs q prefix → y ∈ selected runs q prefix →
  cmp x.1 y.1 = components_cmp (row_order (scan_family q) x.2) (row_order (scan_family q) y.2).
Proof using Hholds.
  intros Hq Hp Hx%(selected_elem runs Hruns q prefix x Hq Hp) Hy%(selected_elem runs Hruns q prefix y Hq Hp).
  destruct (ro_keyed _ Hruns _ _ (proj1 Hx)) as (Kx & Wx & Ix), (ro_keyed _ Hruns _ _ (proj1 Hy)) as (Ky & Wy & Iy).
  by apply (row_key_cmp (scan_family q)).
Qed.

(** A lookup of the newest row, against the table that the rows come from. *)
Lemma newest_from_part {R K} `{TotalOrd K} q prefix (decode : MetadataRow → res CoreError R) committed_seq (key : R → K)
    visible_seq (all : list R) o :
  (∀ r, r ∈ all ↔ ∃ x, record_at runs q prefix decode x r) →
  newest_from runs q prefix decode committed_seq key visible_seq prefix o →
  newest_part key (option_list o) (filter (λ r, committed_seq r ≤ visible_seq) all).
Proof using Type.
  intros Hall [Hsome Hmax]. split.
  - intros r Hr. destruct o as [r'|]; [|by apply elem_of_nil in Hr]. apply list_elem_of_singleton in Hr as ->.
    destruct (Hsome r' eq_refl) as (x & Hx & Hseq). apply list_elem_of_filter. split; [done|]. apply Hall. by exists x.
  - intros r [Hseq (x & Hx)%Hall]%list_elem_of_filter. destruct (Hmax x r Hx) as (r' & -> & Hle); [|done|].
    + destruct Hx as [[[Hl _] _]%rows_in_elem _]. done.
    + exists r'. split; [by apply list_elem_of_singleton|done].
Qed.

Lemma record_at_table {R} q prefix (decode : MetadataRow → res CoreError R) (table : list R) (inject : R → MetadataRow) :
  scan_wf q → scan_prefix q = Ok prefix → scan_family q ≠ FamActiveDeletions → scan_family q ≠ FamContentLayouts →
  unsorted_rows st (scan_family q) = inject <$> table →
  (∀ row r, decode row = Ok r ↔ row = inject r) →
  ∀ r, (r ∈ table ∧ scan_selects q (inject r)) ↔ ∃ x, record_at runs q prefix decode x r.
Proof using Hholds Hst.
  intros Hq Hp F1 F2 Htable Hdec r. split.
  - intros [Hr Hs]. assert (inject r ∈ unsorted_rows st (scan_family q)) as Hin by (rewrite Htable; by apply list_elem_of_fmap_2).
    apply (stored_row _ _ F1 F2) in Hin as (x & Hx & Ex). exists x. split; [|by apply Hdec].
    apply (selected_elem runs Hruns q prefix x Hq Hp). by rewrite Ex.
  - intros (x & Hx & Ex%Hdec). apply (selected_elem runs Hruns q prefix x Hq Hp) in Hx as [Hx Hs]. rewrite Ex in Hs. split; [|done].
    assert (inject r ∈ unsorted_rows st (scan_family q)) as Hin by (apply (stored_row _ _ F1 F2); by exists x).
    rewrite Htable in Hin. apply list_elem_of_fmap in Hin as (r' & E & Hr'). assert (r = r') as ->; [|done].
    assert (Ok (E:=CoreError) r = Ok r') as [= ->]; [|done]. rewrite <-(proj2 (Hdec _ r) eq_refl), E. by apply Hdec.
Qed.

Lemma selected_length q prefix : scan_family q ≠ FamActiveDeletions → scan_family q ≠ FamContentLayouts →
  (length (selected runs q prefix) ≤ length (unsorted_rows st (scan_family q)))%nat.
Proof using Hst.
  intros F1 F2. unfold selected, rows_in. etrans; [apply length_filter|]. unfold manifest_rows.
  rewrite (Permutation_length (sort_by_perm by_key _)), <-(Permutation_length (Hst _ F1 F2)), length_fmap. done.
Qed.

Lemma newest_lookup {R K} `{TotalOrd K} q prefix probe (decode : MetadataRow → res CoreError R) committed_seq (key : R → K)
    visible_seq fuel (table : list R) (inject : R → MetadataRow) (P : R → Prop) `{!∀ r, Decision (P r)} :
  scan_wf q → scan_prefix q = Ok prefix → scan_probe q = Ok probe → history_family (scan_family q) →
  unsorted_rows st (scan_family q) = inject <$> table →
  (∀ row, scan_selects q row → ∃ r, row = inject r) → (∀ r, decode (inject r) = Ok r) →
  (∀ row r, decode row = Ok r → row = inject r) →
  (∀ r, manifest_row_commit_seq (inject r) = committed_seq r) → (∀ r, P r ↔ scan_selects q (inject r)) →
  (∀ a b, scan_selects q (inject a) → scan_selects q (inject b) →
     components_cmp (row_order (scan_family q) (inject a)) (row_order (scan_family q) (inject b)) = cmp (key b) (key a)) →
  (∀ a b, scan_selects q (inject a) → scan_selects q (inject b) → later_row (inject a) (inject b) → kle (key a) (key b)) →
  (length table < fuel)%nat →
  answers (newest_row_under_prefix segments (scan_family q) probe visible_seq decode committed_seq fuel prefix)
    (λ o, newest_part key (option_list o) (filter (λ r, P r ∧ committed_seq r ≤ visible_seq) table)).
Proof using Hholds Hst.
  intros Hq Hp Hprobe Hf Htable Hrows Hdec Hinj Hseq HP Hcmp Hlater Hfuel.
  assert (scan_family q ≠ FamActiveDeletions ∧ scan_family q ≠ FamContentLayouts) as [F1 F2] by (by destruct (scan_family q)).
  assert (∀ x r, x ∈ selected runs q prefix → decode x.2 = Ok r → x.2 = inject r ∧ scan_selects q (inject r)) as Hsel.
  { intros x r Hx Hr%Hinj. split; [done|]. rewrite <-Hr. by apply (selected_elem runs Hruns q prefix x Hq Hp) in Hx as []. }
  eapply answers_impl.
  - apply (newest_row_ok heap_bytes segments runs Hholds q prefix probe Hq Hp Hprobe decode committed_seq key); [|done| |].
    + intros row (r & ->)%Hrows. by exists r.
    + intros x y rx ry Hx Hy Hrx Hry Hxy. destruct (Hsel x rx Hx Hrx) as [Ex Sx], (Hsel y ry Hy Hry) as [Ey Sy].
      destruct Hxy as [Hle|Hl]; [|apply Hlater; [done..|congruence]].
      unfold kle in *. rewrite (selected_order q prefix x y Hq Hp Hx Hy), Ex, Ey, Hcmp in Hle by done. done.
    + pose proof (selected_length q prefix F1 F2) as Hl. rewrite Htable, length_fmap in Hl. lia.
  - intros o Ho.
    apply (newest_from_part q prefix decode committed_seq key visible_seq (filter P table) o) in Ho.
    + rewrite list_filter_filter in Ho. erewrite filter_ext_in; [exact Ho|]. intros r _. cbn. naive_solver.
    + intros r. rewrite list_elem_of_filter, HP.
      rewrite <-(record_at_table q prefix decode table inject Hq Hp F1 F2 Htable); [naive_solver|]. split; [apply Hinj|by intros ->].
Qed.

(** The lookups of one identity, against the tables of the state. *)
Ltac decodes := intros [] r E; try (by injection E as ->); by apply foreign_row_fails in E.
Ltac selects_rows := intros [] Hs; try done; by eexists.
Ltac later_number := cbn; intros a b Ha Hb [Hlt Hno]; apply lt_kle, pair_lt, Hno; congruence.

Lemma tombstone_lookup fuel i visible_seq : i ≤ U128_MAX → (length st.(ms_subtree_tombstones) < fuel)%nat →
  answers (newest_tombstone_for_root segments fuel i visible_seq)
    (λ o, newest_part tombstone_position (option_list o)
       (filter (λ t, t.(tb_root_inode_id) = i ∧ t.(tb_committed_seq) ≤ visible_seq) st.(ms_subtree_tombstones))).
Proof using Hholds Hst.
  intros Hi Hfuel.
  apply (newest_lookup (ScanTombstones i) _ _ _ _ tombstone_position visible_seq fuel st.(ms_subtree_tombstones) RowTombstone
    (λ t, t.(tb_root_inode_id) = i)); try done; [selects_rows|decodes| |].
  - cbn. intros a b <- ->. rewrite N.compare_refl. cbn. by rewrite lex_Eq.
  - cbn. intros a b _ _ [Hlt _]. apply lt_kle. by apply pair_lt.
Qed.

Lemma merge_lookup fuel source visible_seq :
  (length (omap merge_index_from_commit st.(ms_commits)) < fuel)%nat →
  answers (manifest_newest_merge segments fuel source visible_seq)
    (λ o, newest_part mi_committed_seq (option_list o)
       (filter (λ m, m.(mi_source_namespace_id) = source ∧ m.(mi_committed_seq) ≤ visible_seq)
          (omap merge_index_from_commit st.(ms_commits)))).
Proof using Hholds Hst.
  intros Hfuel.
  apply (newest_lookup (ScanMerges source) _ _ _ _ mi_committed_seq visible_seq fuel _ RowMerge
    (λ m, m.(mi_source_namespace_id) = source)); try done; [selects_rows|decodes| |].
  - cbn. intros a b <- ->. rewrite string_cmp_refl. cbn. by rewrite lex_Eq.
  - cbn. intros a b _ _ [Hlt _]. apply lt_kle. cbn in Hlt. by apply N.compare_lt_iff.
Qed.

Lemma revision_lookup fuel i visible_seq : i ≤ U128_MAX → (length st.(ms_revisions) < fuel)%nat →
  answers (latest_revision_by_inode segments fuel i visible_seq)
    (λ o, newest_part revision_order_key (option_list o)
       (filter (λ r, r.(rr_inode_id) = i ∧ r.(rr_committed_seq) ≤ visible_seq) st.(ms_revisions))).
Proof using Hholds Hst.
  intros Hi Hfuel.
  apply (newest_lookup (ScanRevisions i) _ _ _ _ revision_order_key visible_seq fuel st.(ms_revisions) RowFileRevision
    (λ r, r.(rr_inode_id) = i)); try done; [selects_rows|decodes| |later_number].
  cbn. intros a b <- ->. rewrite N.compare_refl. cbn. by rewrite lex_Eq.
Qed.

Lemma attributes_lookup fuel i visible_seq : i ≤ U128_MAX → (length st.(ms_attributes_revisions) < fuel)%nat →
  answers (attributes_by_inode segments fuel i visible_seq)
    (λ o, newest_part attributes_order_key (option_list o)
       (filter (λ r, r.(at_inode_id) = i ∧ r.(at_committed_seq) ≤ visible_seq) st.(ms_attributes_revisions))).
Proof using Hholds Hst.
  intros Hi Hfuel.
  apply (newest_lookup (ScanAttributes i) _ _ _ _ attributes_order_key visible_seq fuel st.(ms_attributes_revisions)
    RowAttributesRevision (λ r, r.(at_inode_id) = i)); try done; [selects_rows|decodes| |later_number].
  cbn. intros a b <- ->. rewrite N.compare_refl. cbn. by rewrite lex_Eq.
Qed.

Lemma access_lookup fuel i visible_seq : i ≤ U128_MAX → (length st.(ms_access_revisions) < fuel)%nat →
  answers (access_by_inode segments fuel i visible_seq)
    (λ o, newest_part access_order_key (option_list o)
       (filter (λ r, r.(ac_inode_id) = i ∧ r.(ac_committed_seq) ≤ visible_seq) st.(ms_access_revisions))).
Proof using Hholds Hst.
  intros Hi Hfuel.
  apply (newest_lookup (ScanAccess i) _ _ _ _ access_order_key visible_seq fuel st.(ms_access_revisions)
    RowAccessRevision (λ r, r.(ac_inode_id) = i)); try done; [selects_rows|decodes| |later_number].
  cbn. intros a b <- ->. rewrite N.compare_refl. cbn. by rewrite lex_Eq.
Qed.

(** *** Edge lookups *)
Section edge_lookup.
Context (q : scan) (prefix probe : string) (Hq : scan_wf q) (Hprefix : scan_prefix q = Ok prefix) (Hprobe : scan_probe q = Ok probe).
Context (table : list DirentryBindingRecord) (Htable : unsorted_rows st (scan_family q) = RowDirentryBinding <$> table).
Context (Hfamily : history_family (scan_family q)).
Context (Hrows : ∀ row, scan_selects q row → ∃ r, row = RowDirentryBinding r).
(** The edge of a row of the lookup, and where it ends. *)
Context (edge_end : DirentryBindingRecord → res CoreError string) (edge : DirentryBindingRecord → scan) (edge_prefix : DirentryBindingRecord → string).
Context (Hedge_family : ∀ r, scan_family (edge r) = scan_family q) (Hedge_prefix : ∀ r, scan_prefix (edge r) = Ok (edge_prefix r)).
Context (Hedge_end : ∀ r, edge_end r = expect (string_prefix_upper_bound (edge_prefix r))).
Context (Hedge_wf : ∀ r, row_wf (RowDirentryBinding r) → scan_wf (edge r)).
Context (Hedge_self : ∀ r, scan_selects (edge r) (RowDirentryBinding r)).
Context (Hedge_order : ∀ r r', scan_selects (edge r) (RowDirentryBinding r') →
  components_cmp (row_order (scan_family q) (RowDirentryBinding r)) (row_order (scan_family q) (RowDirentryBinding r')) =
  cmp (binding_position r') (binding_position r)).
Context (blocks_per_refill : BlocksPerRefill) (visible_seq : ChangeSeq).
#[local] Abbreviation R := (selected runs q prefix).
#[local] Abbreviation upper := (string_prefix_upper_bound prefix).

Lemma edge_rows_older x : x ∈ R → ∃ r stop, x.2 = RowDirentryBinding r ∧ edge_end r = Ok stop ∧
  ∀ y r', binding_at R y r' → cmp x.1 y.1 = Lt → cmp y.1 stop = Lt → cmp (binding_position r') (binding_position r) = Lt.
Proof using Hholds Hq Hprefix Hrows Hedge_family Hedge_prefix Hedge_end Hedge_wf Hedge_self Hedge_order.
  intros Hx. pose proof Hx as [Hx' Hs]%(selected_elem runs Hruns q prefix x Hq Hprefix).
  destruct (Hrows _ Hs) as (r & Er). destruct (ro_keyed _ Hruns _ _ Hx') as (_ & Wx & _). rewrite Er in Wx.
  destruct (scan_prefix_ascii (edge r) (edge_prefix r) (Hedge_wf r Wx) (Hedge_prefix r)) as [Ha Hne].
  destruct (ascii_upper_bound _ Ha Hne) as [stop Hstop]. exists r, stop. split; [done|]. split; [by rewrite Hedge_end, Hstop|].
  intros y r' [Hy Ey] Hlt Hstop'. pose proof Hy as [Hy' _]%(selected_elem runs Hruns q prefix y Hq Hprefix).
  assert (∀ z, z ∈ runs_rows runs (scan_family q) →
    in_key_range (edge_prefix r) (string_prefix_upper_bound (edge_prefix r)) z.1 ↔ scan_selects (edge r) z.2) as Hsel.
  { intros z Hz. apply (prefix_selects runs Hruns (edge r)); [by apply Hedge_wf|done|]. by rewrite Hedge_family. }
  assert (in_key_range (edge_prefix r) (string_prefix_upper_bound (edge_prefix r)) x.1) as [Hlx _].
  { apply Hsel; [done|]. by rewrite Er. }
  assert (scan_selects (edge r) (RowDirentryBinding r')) as He.
  { rewrite <-Ey. apply Hsel; [done|]. rewrite Hstop. split; [|done]. eapply kle_trans; [exact Hlx|by apply lt_kle]. }
  by rewrite (selected_order q prefix x y Hq Hprefix Hx Hy), Er, Ey, Hedge_order in Hlt.
Qed.

(** The page that a step of the walk reads. *)
Definition walk_page (newest_run_only : bool) (lower : string) : list (string * MetadataRow) :=
  take (N.to_nat EDGE_WALK_PAGE_ROWS)
    (if newest_run_only then newest_run_rows runs (scan_family q) lower upper
     else rows_in lower upper (manifest_rows runs (scan_family q))).

Lemma walk_page_serves newest_run_only lower : kle prefix lower →
  serves (edge_page segments (scan_family q) prefix probe blocks_per_refill newest_run_only lower) (Ok (walk_page newest_run_only lower)).
Proof using Hholds Hq Hprefix Hprobe.
  intros Hle. pose proof (selected_probe runs Hruns q prefix lower probe Hq Hprefix Hprobe Hle) as Hcovers.
  destruct newest_run_only; [by apply (mh_newest _ _ _ Hholds)|].
  apply (scan_rows_serves heap_bytes segments runs Hholds). by intros p [= <-].
Qed.

Lemma walk_page_ok lower : kle prefix lower →
  let P := walk_page (segments_every_row_is_visible_at segments visible_seq) lower in
  ascending P ∧ (∀ x, x ∈ P → x ∈ R ∧ kle lower x.1) ∧
  ∀ m r, newest_at visible_seq R m r → kle lower m.1 →
    m ∈ P ∨ (N.of_nat (length P) = EDGE_WALK_PAGE_ROWS ∧ ∀ x, x ∈ P → cmp x.1 m.1 = Lt).
Proof using Hholds Hq Hprefix Hrows Hfamily.
  intros Hlower. cbv zeta. unfold walk_page.
  set (rows := if segments_every_row_is_visible_at segments visible_seq then newest_run_rows runs (scan_family q) lower upper
    else rows_in lower upper (manifest_rows runs (scan_family q))).
  assert (∀ n, n ∈ rows → n ∈ R ∧ kle lower n.1) as Hsub.
  { intros x Hx. apply (selected_rows_in runs q prefix lower x Hlower). unfold rows in Hx. case_match; [|done].
    apply newest_run_sub in Hx as [Hx Hr]. apply rows_in_elem. by rewrite manifest_rows_elem. }
  assert (ascending rows) as Hasc.
  { unfold rows. case_match; [apply (newest_run_ascending runs Hruns)|apply rows_in_ascending, (manifest_rows_ascending runs Hruns)]. }
  split; [by apply ascending_take|]. split; [intros x Hx; by eapply Hsub, take_elem|]. intros m r Hm Hle.
  enough (m ∈ rows) as Hin.
  { destruct (take_ascending (N.to_nat EDGE_WALK_PAGE_ROWS) rows m Hasc Hin) as [|[Hlen Hlt]]; [by left|]. right.
    split; [rewrite Hlen; by vm_compute|done]. }
  destruct Hm as ((HmR & Em) & Hseq & Hmax). assert (m ∈ rows_in lower upper (manifest_rows runs (scan_family q))) as Hm.
  { by apply (selected_rows_in runs q prefix lower m Hlower). }
  unfold rows. destruct (segments_every_row_is_visible_at segments visible_seq) eqn:Eall; [|done].
  pose proof Hm as [Hrange Hm']%rows_in_elem. rewrite manifest_rows_elem in Hm'.
  destruct (newest_run_later runs Hruns (scan_family q) lower upper m Hfamily Hm' Hrange) as [|Hlater]; [done|]. exfalso.
  destruct (newest_run_spec runs (scan_family q) lower upper) as [[_ Hnone]|(newer & run & older & E & En & Hne & _)].
  { apply elem_of_concat in Hm' as (l & (run & -> & Hrun)%list_elem_of_fmap & Hm'').
    assert (m ∈ rows_in lower upper (run.(run_rows) (scan_family q))) as Hin by by apply rows_in_elem.
    rewrite (Hnone _ Hrun) in Hin. by apply elem_of_nil in Hin. }
  destruct (newest_run_rows runs (scan_family q) lower upper) as [|z zs] eqn:Ez; [done|].
  assert (z ∈ rows) as Hz by by left. destruct (Hsub z Hz) as [HzR _].
  pose proof HzR as [Hz' Hzs]%(selected_elem runs Hruns q prefix z Hq Hprefix). destruct (Hrows _ Hzs) as (rz & Erz).
  assert (rz.(db_committed_seq) ≤ visible_seq) as Hzseq.
  { change (manifest_row_commit_seq (RowDirentryBinding rz) ≤ visible_seq). rewrite <-Erz.
    apply (mh_visible _ _ _ Hholds) in Eall. rewrite Forall_forall in Eall.
    assert (run ∈ runs) as Hrun by (rewrite E; apply elem_of_app; right; by left).
    etrans; [|by apply (Eall run)]. apply (ro_below _ Hruns run (scan_family q)); [done|].
    assert (z ∈ z :: zs) as Hzz by by left. rewrite En in Hzz. by apply rows_in_elem in Hzz as []. }
  pose proof (Hmax z rz (conj HzR Erz) Hzseq) as Hle'. pose proof (Hlater z ltac:(by left)) as [Hlt _]. rewrite Em, Erz in Hlt.
  apply (kle_not_lt _ _ Hle'). by apply pair_lt.
Qed.

Lemma edge_lookup_ok fuel (P : DirentryBindingRecord → Prop) `{!∀ r, Decision (P r)} :
  (∀ r, P r ↔ scan_selects q (RowDirentryBinding r)) → (length table < fuel)%nat →
  answers (newest_edge_rows segments (scan_family q) prefix probe edge_end blocks_per_refill visible_seq fuel)
    (λ rows, newest_part binding_position rows (filter (λ r, P r ∧ r.(db_committed_seq) ≤ visible_seq) table)).
Proof using All.
  intros HP Hfuel.
  assert (scan_family q ≠ FamActiveDeletions ∧ scan_family q ≠ FamContentLayouts) as [F1 F2] by (by destruct (scan_family q)).
  assert (∀ r, r ∈ table ∧ P r ↔ ∃ x, binding_at R x r) as Hat.
  { intros r. rewrite HP, (record_at_table q prefix direntry_binding_from_manifest_row table RowDirentryBinding Hq Hprefix F1 F2 Htable).
    - unfold record_at, binding_at. split; intros (x & Hx & Ex); exists x; (split; [done|]).
      + destruct x as [k []]; cbn [snd direntry_binding_from_manifest_row] in *; try (by apply foreign_row_fails in Ex). by injection Ex as ->.
      + by rewrite Ex.
    - intros row r'. split; [|by intros ->]. intros E. destruct row; cbn [direntry_binding_from_manifest_row] in E; try (by apply foreign_row_fails in E). by injection E as ->. }
  eapply answers_impl.
  - apply (edge_walk_ok segments (scan_family q) prefix probe edge_end blocks_per_refill visible_seq _ R
      (walk_page (segments_every_row_is_visible_at segments visible_seq)) edge_rows_older); [| |apply kle_refl|].
    + intros lower Hle. by apply walk_page_serves.
    + intros lower Hle. by apply walk_page_ok.
    + eapply Nat.le_lt_trans; [apply length_filter|]. eapply Nat.le_lt_trans; [by apply selected_length|]. by rewrite Htable, length_fmap.
  - intros edges (_ & Hsound & Hnewest). split.
    + intros r [?%elem_of_nil|(x & Hx & Hseq)]%Hsound; [done|]. apply list_elem_of_filter.
      assert (r ∈ table ∧ P r) as [] by (apply Hat; by exists x). done.
    + intros r Hr. set (all := filter _ table) in Hr. destruct (max_by_key binding_position all) as [m|] eqn:Em.
      2:{ apply max_by_key_None in Em. rewrite Em in Hr. by apply elem_of_nil in Hr. }
      apply max_by_key_is_max in Em as [Hm Hmax]. exists m. split; [|by apply Hmax].
      apply list_elem_of_filter in Hm as [[HPm Hseq] Hm]. destruct (proj1 (Hat m) (conj Hm HPm)) as (x & Hx).
      apply (Hnewest x m); [|by destruct Hx as [[[Hl _] _]%rows_in_elem _]]. split_and!; [done..|].
      intros y r' Hy Hseq'. apply Hmax. apply list_elem_of_filter.
      assert (r' ∈ table ∧ P r') as [] by (apply Hat; by exists y). done.
Qed.
End edge_lookup.

Lemma slot_lookup fuel p n visible_seq : p ≤ U128_MAX → (length st.(ms_direntry_binds) < fuel)%nat →
  answers (manifest_direntry_binds_for_parent_name segments fuel p n visible_seq)
    (λ rows, newest_part binding_position rows
       (filter (λ r, (r.(db_parent_inode_id) = p ∧ r.(db_name_key) = n) ∧ r.(db_committed_seq) ≤ visible_seq) st.(ms_direntry_binds))).
Proof using Hholds Hst.
  intros Hp Hfuel.
  apply (edge_lookup_ok (ScanSlot p n) _ _ Hp eq_refl eq_refl st.(ms_direntry_binds) eq_refl I) with
    (edge := λ r, ScanSlotEdge r.(db_parent_inode_id) r.(db_name_key) r.(db_child_inode_id))
    (edge_prefix := λ r, direntry_bind_edge_prefix r.(db_parent_inode_id) r.(db_name_key) r.(db_child_inode_id)); try done.
  - selects_rows.
  - cbn. naive_solver.
  - cbn. intros r r' (-> & -> & ->). rewrite !N.compare_refl, string_cmp_refl. cbn. by rewrite lex_Eq.
Qed.

Lemma child_lookup fuel c visible_seq : c ≤ U128_MAX → (length st.(ms_direntry_binds) < fuel)%nat →
  answers (manifest_direntry_binds_for_child segments fuel c visible_seq)
    (λ rows, newest_part binding_position rows
       (filter (λ r, (r.(db_child_inode_id) = c ∧ is_binding_event r = true) ∧ r.(db_committed_seq) ≤ visible_seq) st.(ms_direntry_binds))).
Proof using Hholds Hst.
  intros Hc Hfuel. eapply answers_impl.
  - apply (edge_lookup_ok (ScanChild c) _ _ Hc eq_refl eq_refl (filter (λ r, is_binding_event r = true) st.(ms_direntry_binds)) eq_refl I) with
      (edge := λ r, ScanChildEdge r.(db_child_inode_id) r.(db_parent_inode_id) r.(db_name_key))
      (edge_prefix := λ r, direntry_child_bind_edge_prefix r.(db_child_inode_id) r.(db_parent_inode_id) r.(db_name_key))
      (P := λ r, r.(db_child_inode_id) = c); try done.
    + selects_rows.
    + cbn. naive_solver.
    + cbn. intros r r' (-> & -> & ->). rewrite !N.compare_refl, string_cmp_refl. cbn. by rewrite lex_Eq.
    + eapply Nat.le_lt_trans; [apply length_filter|done].
  - intros rows Hrows. rewrite list_filter_filter in Hrows. erewrite filter_ext_in; [exact Hrows|]. intros r _. cbn. naive_solver.
Qed.

(** *** Rows of one key *)
Lemma starts_with_same_length (s p : string) : starts_with s p = true → String.length s = String.length p → s = p.
Proof using Type.
  intros [t ->]%starts_with_spec. rewrite string_length_app. destruct t; [by rewrite string_app_nil_r|cbn; lia].
Qed.

Lemma inode_lookup i visible_seq : i ≤ U128_MAX →
  answers (manifest_inode_at_seq segments i visible_seq)
    (λ o, ∀ r, o = Some r ↔ r ∈ st.(ms_inodes) ∧ r.(ir_inode_id) = i ∧ r.(ir_committed_seq) ≤ visible_seq).
Proof using Hholds Hst.
  intros Hi.
  assert (∀ x, x ∈ runs_rows runs FamInodes → ∃ r, x = (inode_key r.(ir_inode_id), RowInode r) ∧ r ∈ st.(ms_inodes) ∧
    r.(ir_inode_id) ≤ U128_MAX) as Hrow.
  { intros x Hx. destruct (ro_keyed _ Hruns _ _ Hx) as (Hk & Hwf & Hin). destruct x as [k row]. cbn in *.
    assert (row ∈ unsorted_rows st FamInodes) as Hu by (apply stored_row; [done..|by exists (k, row)]).
    apply list_elem_of_fmap in Hu as (r & -> & Hr). exists r. split_and!; [|done..]. cbn in Hk. congruence. }
  assert (∀ r, r ∈ st.(ms_inodes) → (inode_key r.(ir_inode_id), RowInode r) ∈ runs_rows runs FamInodes) as Hstored.
  { intros r Hr. assert (∃ x, x ∈ runs_rows runs FamInodes ∧ x.2 = RowInode r) as (x & Hx & Ex).
    { apply stored_row; [done..|]. by apply list_elem_of_fmap_2. }
    destruct (Hrow x Hx) as (r' & -> & _). cbn in Ex. by injection Ex as ->. }
  assert (∀ r r', r ∈ st.(ms_inodes) → r' ∈ st.(ms_inodes) → r.(ir_inode_id) = r'.(ir_inode_id) → r = r') as Hsame.
  { intros r r' Hr%Hstored Hr'%Hstored E. assert (RowInode r = RowInode r') as Heq; [|congruence].
    apply (f_equal snd (x:=(inode_key r.(ir_inode_id), RowInode r)) (y:=(inode_key r'.(ir_inode_id), RowInode r'))).
    apply (NoDup_fmap_elem fst (runs_rows runs FamInodes)); [apply (ro_distinct _ Hruns)|done|done|]. cbn. by rewrite E. }
  assert (∀ a b, a ≤ U128_MAX → b ≤ U128_MAX → inode_key a = inode_key b → a = b) as Hinj.
  { intros a b Ha Hb E. apply N.compare_eq. rewrite <-(InodeId_body_cmp a b Ha Hb), <-(string_cmp_prefix INODE_ROW_PREFIX).
    unfold inode_key in E. rewrite E. apply string_cmp_refl. }
  assert (ascii_text (inode_key i) ∧ inode_key i ≠ "") as [Ha Hne].
  { split; [|done]. unfold inode_key, INODE_ROW_PREFIX. auto with ascii. }
  unfold manifest_inode_at_seq. eapply serves_bind; [apply (mh_find _ _ _ Hholds)|].
  { intros x Hx Hr. destruct (Hrow x Hx) as (r & -> & _ & Hwf). left. cbn. f_equal.
    apply (prefix_range _ _ Ha Hne) in Hr. apply starts_with_same_length; [done|]. unfold inode_key.
    by rewrite !string_length_app, !InodeId_body_length. }
  destruct (find_first _ _) as [x|] eqn:Ef; cbn [fmap option_fmap option_map transpose].
  - apply find_first_Some in Ef as [Hx Ek]. rewrite manifest_rows_elem in Hx. destruct (Hrow x Hx) as (r & -> & Hr & Hwf).
    cbn [snd fst] in *. cbn [inode_from_manifest_row mbind res_bind]. apply answers_Ok.
    assert (r.(ir_inode_id) = i) as Hid by by apply Hinj. intros r'. unfold option_filter.
    destruct (N.leb_spec r.(ir_committed_seq) visible_seq) as [Hle|Hgt].
    + split; [by intros [= <-]|]. intros (Hr' & Hid' & Hseq). f_equal. apply Hsame; congruence.
    + split; [done|]. intros (Hr' & Hid' & Hseq). assert (r = r') as -> by (apply Hsame; congruence). lia.
  - apply answers_Ok. intros r'. split; [done|]. intros (Hr'%Hstored & <- & Hseq).
    rewrite find_first_None in Ef. by destruct (Ef (inode_key r'.(ir_inode_id), RowInode r')); [by apply manifest_rows_elem|].
Qed.

Lemma revision_no_lookup i no visible_seq : i ≤ U128_MAX → no ≤ U64_MAX →
  (∀ a b, a ∈ st.(ms_revisions) → b ∈ st.(ms_revisions) → a.(rr_inode_id) = b.(rr_inode_id) →
     a.(rr_revision_no) = b.(rr_revision_no) → a = b) →
  answers (revision_by_inode_no segments i no visible_seq)
    (λ o, newest_part revision_order_key (option_list o)
       (filter (λ r, r.(rr_inode_id) = i ∧ r.(rr_revision_no) = no ∧ r.(rr_committed_seq) ≤ visible_seq) st.(ms_revisions))).
Proof using Hholds Hst.
  intros Hi Hno Huniq. set (q := ScanRevisionNo i no). assert (scan_wf q) as Hq by done.
  unfold revision_by_inode_no. eapply serves_bind.
  { apply (scan_rows_serves heap_bytes segments runs Hholds). intros p [= <-].
    apply (selected_probe runs Hruns q _ _ _ Hq eq_refl eq_refl), kle_refl. }
  change (rows_in _ _ _) with (selected runs q (revision_no_prefix i no)). set (sel := selected runs q _).
  assert (∀ r, (r ∈ st.(ms_revisions) ∧ r.(rr_inode_id) = i ∧ r.(rr_revision_no) = no) ↔ ∃ x, x ∈ sel ∧ x.2 = RowFileRevision r) as Hat.
  { intros r. etrans; [apply (record_at_table q _ revision_from_manifest_row st.(ms_revisions) RowFileRevision Hq eq_refl); try done|].
    2:{ unfold record_at. split; intros (x & Hx & Ex); exists x; (split; [done|]); [|by rewrite Ex].
      destruct x as [k []]; cbn [snd revision_from_manifest_row] in *; try (by apply foreign_row_fails in Ex). by injection Ex as ->. }
    intros row r'. split; [|by intros ->]. destruct row; cbn [revision_from_manifest_row]; intros E; try (by apply foreign_row_fails in E).
      by injection E as ->. }
  change (N.to_nat 1) with 1%nat. destruct sel as [|x rest] eqn:Es.
  { apply answers_Ok. split; [by intros r ?%elem_of_nil|]. intros r ((? & ? & _) & Hr)%list_elem_of_filter.
    destruct (proj1 (Hat r)) as (x & ?%elem_of_nil & _); done. }
  assert (∃ r, x.2 = RowFileRevision r) as (r & Er).
  { assert (x ∈ sel) as Hx by (rewrite Es; by left).
    apply (selected_elem runs Hruns q _ x Hq eq_refl) in Hx as [_ Hs]. destruct x as [k []]; try done. by eexists. }
  destruct (proj2 (Hat r)) as (Hr & Hri & Hrn); [exists x; split; [by left|done]|].
  cbn [take head]. rewrite (transpose_Ok (λ x, revision_from_manifest_row x.2) x r) by by rewrite Er. cbn [mbind res_bind].
  apply answers_Ok. assert (∀ r', r' ∈ st.(ms_revisions) → r'.(rr_inode_id) = i → r'.(rr_revision_no) = no → r' = r) as Hsame.
  { intros r' Hr' ??. apply Huniq; congruence. }
  unfold option_filter. destruct (N.leb_spec r.(rr_committed_seq) visible_seq) as [Hle|Hgt]; cbn [option_list]; split.
  - intros r' ->%list_elem_of_singleton. by apply list_elem_of_filter.
  - intros r' ((? & ? & _) & Hr')%list_elem_of_filter. exists r. split; [by apply list_elem_of_singleton|].
    rewrite (Hsame r') by done. apply kle_refl.
  - by intros r' ?%elem_of_nil.
  - intros r' ((? & ? & ?) & Hr')%list_elem_of_filter. assert (r' = r) as -> by by apply Hsame. lia.
Qed.
End state_lookups.
