(* ===== verification/Wal.v ===== *)
(** * WAL objects

    [loonfs-types/src/wal.rs] with the envelope checks of [envelope.rs] and
    [ContentLayout::validate] of [layout.rs]: the rules of a WAL object, its
    durable envelope, and the activity of a commit.

    CBOR and SHA-256 are library code: [WalCodecs] lists the encodings and the
    digest, and [WalCodecLaws] states that decoding undoes encoding. *)
From S2P Require Import Prelude Types Utf8 Codec SegmentBlocks Manifest.
Local Open Scope N_scope.

(** ** Types *)
Record WalObjectPayload := mkWalObjectPayload {
  wop_namespace_id : NamespaceId;
  wop_wal_no : WalNo;
  wop_writer_epoch : WriterEpoch;
  wop_head_seq : ChangeSeq;
  wop_records : list WalCommitPayload;
}.
#[export] Instance WalObjectPayload_eq_dec : EqDecision WalObjectPayload.
Proof. solve_decision. Defined.

Record WalObjectDocument := mkWalObjectDocument {
  wod_kind : string;
  wod_format_version : N;
  wod_payload_checksum : string;
  wod_payload : bytes;
}.

Record EnvelopeProbe := mkEnvelopeProbe { ep_kind : string; ep_format_version : N }.

Record VerifiedEnvelope (T : Type) := mkVerifiedEnvelope { ve_payload_checksum : string; ve_payload : T }.
Arguments mkVerifiedEnvelope {T}.
Arguments ve_payload_checksum {T}.
Arguments ve_payload {T}.

Record EncodedEnvelope (T : Type) := mkEncodedEnvelope {
  ee_envelope : VerifiedEnvelope T;
  ee_bytes : bytes;
  ee_document_bytes : N;
}.
Arguments mkEncodedEnvelope {T}.
Arguments ee_envelope {T}.
Arguments ee_bytes {T}.
Arguments ee_document_bytes {T}.

Abbreviation WalObjectEnvelope := (VerifiedEnvelope WalObjectPayload).

Inductive EnvelopeCodecError : Set :=
| PayloadEncode (message : string)
| EnvelopeEncode (message : string)
| EnvelopeDecode (message : string)
| PayloadDecode (message : string)
| EnvelopeCompress (message : string)
| EnvelopeDecompress (message : string)
| DocumentTooLarge (kind : string) (max_bytes : N)
| KindMismatch (expected found : string)
| UnsupportedFormatVersion (kind : string) (found supported : N)
| ChecksumMismatch (expected actual : string).

Inductive WalCodecError : Set :=
| WceEnvelope (error : EnvelopeCodecError)
| InvalidWalInlineContent (seq : ChangeSeq) (content_id : ContentId) (reason : string)
| InvalidWalBind (seq : ChangeSeq) (child_inode_id : InodeId) (reason : string)
| InvalidWalRevisionLayout (seq : ChangeSeq) (content_id : ContentId) (reason : string)
| InvalidWalMerge (seq : ChangeSeq) (source_namespace_id : NamespaceId) (reason : string).

Definition WAL_FORMAT_VERSION : N := 1.
Definition MAX_WAL_OBJECT_BYTES : N := 512 * 1024 * 1024.
Definition MAX_WAL_INLINE_CONTENT_BYTES : N := 256 * 1024.
Definition MAX_WAL_OBJECT_INLINE_CONTENT_BYTES : N := 4 * 1024 * 1024.

(** [WalEnvelopeKind::WalObject.as_str()]. *)
Definition WAL_OBJECT_KIND : string := "wal_object".

(** ** Layouts *)

(** [ContentLayout::validate]; the error is its reason. *)
Fixpoint validate_extents (size_bytes : N) (extents : list ContentExtent) (length : N) : res string N :=
  match extents with
  | [] => Ok length
  | extent :: rest =>
      if decide (0 < size_bytes ∧ extent.(ext_length) = 0) then Err "extent lengths must be positive"
      else
        object_end ← ok_or (checked_add U64_MAX extent.(ext_offset) extent.(ext_length)) "extent object range overflows";
        if match extent.(ext_object) with
           | Span start end_ => bool_decide (end_ ≤ start ∨ end_ - start < object_end)
           | Whole => false
           end
        then Err "extent range must fit within the span"
        else
          length ← ok_or (checked_add U64_MAX length extent.(ext_length)) "layout length overflows";
          validate_extents size_bytes rest length
  end.

Definition validate_layout (layout : ContentLayout) (size_bytes : N) : res string unit :=
  if bool_decide (size_bytes = 0) &&
     negb (match layout.(cl_extents) with
           | [{| ext_object := Whole; ext_length := 0 |}] => true
           | _ => false
           end)
  then Err "zero bytes require one whole extent of length zero"
  else
    length ← validate_extents size_bytes layout.(cl_extents) 0;
    if decide (length = size_bytes) then Ok () else Err "extent lengths must equal the chain size".

(** ** Inline content *)

(** The reference and layout of an [AppendFileRevision] delta. *)
Definition revision_of (delta : WalCommitDelta) : option (ContentRef * option ContentLayout) :=
  match delta.(wcd_delta) with
  | AppendFileRevision _ _ _ _ _ _ _ _ _ content_ref layout _ => Some (content_ref, layout)
  | _ => None
  end.

Definition piece_bytes (entry : WalInlineContent) : N := N.of_nat (length entry.(wic_bytes)).

(** The largest size that the record's revisions reference of each content. *)
Definition reference_ends (record : WalCommitPayload) : list (ContentId * N) :=
  foldl (λ ends delta,
    match revision_of delta with
    | Some (content_ref, _) =>
        let end_ := default 0 (btree_get content_ref.(cref_content_id) ends) in
        (btree_insert content_ref.(cref_content_id) (N.max end_ content_ref.(cref_size_bytes)) ends).2
    | None => ends
    end) [] record.(wcp_deltas).

Section inline_content.
Context (invalid : ContentId → string → WalCodecError) (ends : list (ContentId * N)).

Fixpoint inline_entries (entries : list WalInlineContent) (total_bytes : N)
    (by_content : list (ContentId * list (N * WalInlineContent))) : res WalCodecError (N * list (ContentId * list (N * WalInlineContent))) :=
  match entries with
  | [] => Ok (total_bytes, by_content)
  | entry :: rest =>
      if decide (MAX_WAL_INLINE_CONTENT_BYTES < piece_bytes entry)
      then Err (invalid entry.(wic_content_id) "value exceeds `MAX_WAL_INLINE_CONTENT_BYTES`")
      else
        let total_bytes := total_bytes + piece_bytes entry in
        if decide (MAX_WAL_OBJECT_INLINE_CONTENT_BYTES < total_bytes)
        then Err (invalid entry.(wic_content_id) "WAL object inline total exceeds `MAX_WAL_OBJECT_INLINE_CONTENT_BYTES`")
        else if bool_decide (btree_get entry.(wic_content_id) ends = None)
        then Err (invalid entry.(wic_content_id) "no `append_file_revision` reference in the same commit")
        else
          let '(replaced, by_offset) :=
            btree_insert entry.(wic_offset) entry (default [] (btree_get entry.(wic_content_id) by_content)) in
          match replaced with
          | Some _ => Err (invalid entry.(wic_content_id) "duplicate `content_id` and `offset` in commit")
          | None => inline_entries rest total_bytes (btree_insert entry.(wic_content_id) by_offset by_content).2
          end
  end.

Definition inline_creators (namespace_id : NamespaceId) (by_content : list (ContentId * list (N * WalInlineContent)))
    (deltas : list WalCommitDelta) : res WalCodecError unit :=
  for_each (λ delta,
    match revision_of delta with
    | Some (content_ref, Some layout) =>
        if bool_decide (btree_get content_ref.(cref_content_id) by_content ≠ None) &&
           bool_decide (layout.(cl_creator_namespace_id) ≠ namespace_id)
        then Err (invalid content_ref.(cref_content_id) "a layout of a chain with pieces records another namespace as its creator")
        else Ok ()
    | _ => Ok ()
    end) deltas.

Fixpoint entries_end (content_id : ContentId) (end_ : option N) (by_offset : list (N * WalInlineContent))
    : res WalCodecError (option N) :=
  match by_offset with
  | [] => Ok end_
  | (offset, entry) :: rest =>
      if match end_ with Some end_ => bool_decide (end_ ≠ offset) | None => false end
      then Err (invalid content_id "entries are not contiguous")
      else
        match checked_add U64_MAX offset (piece_bytes entry) with
        | None => Ok None
        | Some end_ => entries_end content_id (Some end_) rest
        end
  end.

Definition inline_ends (by_content : list (ContentId * list (N * WalInlineContent))) : res WalCodecError unit :=
  for_each (λ '(content_id, by_offset),
    end_ ← entries_end content_id None by_offset;
    if decide (end_ ≠ btree_get content_id ends)
    then Err (invalid content_id "entries do not end at the reference `size_bytes`")
    else Ok ()) by_content.
End inline_content.

Fixpoint validate_inline_records (namespace_id : NamespaceId) (records : list WalCommitPayload) (total_bytes : N)
    : res WalCodecError unit :=
  match records with
  | [] => Ok ()
  | record :: rest =>
      if bool_decide (record.(wcp_inline_content) = []) then validate_inline_records namespace_id rest total_bytes
      else
        let invalid := InvalidWalInlineContent record.(wcp_committed_seq) in
        let ends := reference_ends record in
        '(total_bytes, by_content) ← inline_entries invalid ends record.(wcp_inline_content) total_bytes [];
        _ ← inline_creators invalid namespace_id by_content record.(wcp_deltas);
        _ ← inline_ends invalid ends by_content;
        validate_inline_records namespace_id rest total_bytes
  end.

Definition validate_wal_inline_content (payload : WalObjectPayload) : res WalCodecError unit :=
  validate_inline_records payload.(wop_namespace_id) payload.(wop_records) 0.

(** ** Layouts, binds and merges *)

(** [iter().reduce(op)]; with [N.min], [iter().min()]. *)
Definition best_of (op : N → N → N) (best : option N) (x : N) : N :=
  match best with None => x | Some best => op best x end.
Definition list_best (op : N → N → N) (l : list N) : option N := foldl (λ best x, Some (best_of op best x)) None l.
Definition list_min : list N → option N := list_best N.min.

(** [try_fold] of [checked_add] over the extents' lengths. *)
Definition extents_size (extents : list ContentExtent) : option N :=
  foldl (λ size extent, size ← size; checked_add U64_MAX size extent.(ext_length)) (Some 0) extents.

Definition validate_revision_layout (record : WalCommitPayload) (content_ref : ContentRef) (layout : option ContentLayout)
    : res WalCodecError unit :=
  let invalid := InvalidWalRevisionLayout record.(wcp_committed_seq) content_ref.(cref_content_id) in
  let first_offset :=
    list_min (wic_offset <$> filter (λ piece, piece.(wic_content_id) = content_ref.(cref_content_id)) record.(wcp_inline_content)) in
  if decide (first_offset = Some 0)
  then if bool_decide (layout ≠ None) then Err (invalid "a whole value carries no layout") else Ok ()
  else
    match layout with
    | None =>
        if bool_decide (first_offset ≠ None) then Ok ()
        else Err (invalid "a reference without pieces requires a layout")
    | Some layout =>
        size_bytes ← ok_or (extents_size layout.(cl_extents)) (invalid "layout length overflows");
        _ ← map_err invalid (validate_layout layout size_bytes);
        if decide (size_bytes ≠ default content_ref.(cref_size_bytes) first_offset)
        then Err (invalid "layout size must equal the first piece offset or the reference size")
        else Ok ()
    end.

Definition validate_wal_revision_layouts (payload : WalObjectPayload) : res WalCodecError unit :=
  for_each (λ record,
    for_each (λ delta,
      match revision_of delta with
      | Some (content_ref, layout) => validate_revision_layout record content_ref layout
      | None => Ok ()
      end) record.(wcp_deltas)) payload.(wop_records).

Definition validate_wal_bind_revisions (payload : WalObjectPayload) : res WalCodecError unit :=
  for_each (λ record,
    for_each (λ delta,
      match delta.(wcd_delta) with
      | BindDirentry _ _ _ _ child_inode_id child_kind _ _ revision =>
          let invalid := InvalidWalBind record.(wcp_committed_seq) child_inode_id in
          match child_kind, revision with
          | File, Some _ | Directory, None => Ok ()
          | File, None => Err (invalid "a file bind requires the file's revision summary")
          | Directory, Some _ => Err (invalid "a directory bind can't include a revision summary")
          end
      | _ => Ok ()
      end) record.(wcp_deltas)) payload.(wop_records).

Definition validate_wal_merges (payload : WalObjectPayload) : res WalCodecError unit :=
  for_each (λ record,
    match record.(wcp_merge) with
    | None => Ok ()
    | Some merge =>
        let invalid := InvalidWalMerge record.(wcp_committed_seq) merge.(mr_source_namespace_id) in
        if decide (merge.(mr_source_through_seq) ≤ merge.(mr_source_after_seq))
        then Err (invalid "`source_after_seq` must be below `source_through_seq`")
        else if decide (merge.(mr_source_namespace_id) = payload.(wop_namespace_id))
        then Err (invalid "the source is the committing namespace")
        else Ok ()
    end) payload.(wop_records).

(** The checks of an encoder and of a decoder. *)
Definition validate_wal_payload (payload : WalObjectPayload) : res WalCodecError unit :=
  _ ← validate_wal_inline_content payload;
  _ ← validate_wal_revision_layouts payload;
  _ ← validate_wal_bind_revisions payload;
  validate_wal_merges payload.

(** ** The envelope *)
Class WalCodecs := {
  payload_to_cbor : WalObjectPayload → res string bytes;
  payload_from_cbor : bytes → res string WalObjectPayload;
  document_to_cbor : WalObjectDocument → res string bytes;
  document_from_cbor : bytes → res string WalObjectDocument;
  probe_from_cbor : bytes → res string EnvelopeProbe;
  sha256_digest : bytes → string;
}.
Class WalCodecLaws `{WalCodecs} : Prop := {
  payload_cbor_roundtrip : ∀ payload encoded, payload_to_cbor payload = Ok encoded → payload_from_cbor encoded = Ok payload;
  document_cbor_roundtrip : ∀ document encoded, document_to_cbor document = Ok encoded → document_from_cbor encoded = Ok document;
  document_cbor_probe : ∀ document encoded, document_to_cbor document = Ok encoded →
    probe_from_cbor encoded = Ok (mkEnvelopeProbe document.(wod_kind) document.(wod_format_version));
}.

Section envelope.
Context `{SectionCodecs} `{WalCodecs}.

Definition ensure_kind (expected found : string) : res EnvelopeCodecError unit :=
  if decide (found ≠ expected) then Err (KindMismatch expected found) else Ok ().

Definition ensure_version (kind : string) (found supported : N) : res EnvelopeCodecError unit :=
  if decide (found ≠ supported) then Err (UnsupportedFormatVersion kind found supported) else Ok ().

Definition verify_payload_checksum (expected : string) (payload_bytes : bytes) : res EnvelopeCodecError unit :=
  let actual := sha256_digest payload_bytes in
  if decide (actual ≠ expected) then Err (ChecksumMismatch expected actual) else Ok ().

Definition compress_document (document : bytes) : res EnvelopeCodecError bytes :=
  map_err EnvelopeCompress (zstd_compress document).

Definition decompress_document (stored : bytes) (max_bytes : N) : res EnvelopeCodecError (option bytes) :=
  document ← map_err EnvelopeDecompress (zstd_read stored (max_bytes + 1));
  Ok (if decide (blen document ≤ max_bytes) then Some document else None).

Definition encode_wal_payload_cbor (payload : WalObjectPayload) : res WalCodecError bytes :=
  _ ← validate_wal_payload payload;
  map_err (WceEnvelope ∘ PayloadEncode) (payload_to_cbor payload).

Definition encode_wal_object_envelope_zstd (payload : WalObjectPayload) : res WalCodecError (EncodedEnvelope WalObjectPayload) :=
  payload_bytes ← encode_wal_payload_cbor payload;
  let payload_checksum := sha256_digest payload_bytes in
  let document := mkWalObjectDocument WAL_OBJECT_KIND WAL_FORMAT_VERSION payload_checksum payload_bytes in
  encoded ← map_err (WceEnvelope ∘ EnvelopeEncode) (document_to_cbor document);
  stored ← map_err WceEnvelope (compress_document encoded);
  Ok (mkEncodedEnvelope (mkVerifiedEnvelope payload_checksum payload) stored (blen encoded)).

Definition decode_wal_object_envelope_zstd_with_limit (stored : bytes) (limit : N) : res WalCodecError WalObjectEnvelope :=
  decompressed ← map_err WceEnvelope (decompress_document stored limit);
  match decompressed with
  | None => Err (WceEnvelope (DocumentTooLarge WAL_OBJECT_KIND limit))
  | Some decompressed =>
      probe ← map_err (WceEnvelope ∘ EnvelopeDecode) (probe_from_cbor decompressed);
      _ ← map_err WceEnvelope (ensure_kind WAL_OBJECT_KIND probe.(ep_kind));
      _ ← map_err WceEnvelope (ensure_version probe.(ep_kind) probe.(ep_format_version) WAL_FORMAT_VERSION);
      document ← map_err (WceEnvelope ∘ EnvelopeDecode) (document_from_cbor decompressed);
      _ ← map_err WceEnvelope (verify_payload_checksum document.(wod_payload_checksum) document.(wod_payload));
      payload ← map_err (WceEnvelope ∘ PayloadDecode) (payload_from_cbor document.(wod_payload));
      _ ← validate_wal_payload payload;
      Ok (mkVerifiedEnvelope document.(wod_payload_checksum) payload)
  end.

Definition decode_wal_object_envelope_zstd (stored : bytes) : res WalCodecError WalObjectEnvelope :=
  decode_wal_object_envelope_zstd_with_limit stored MAX_WAL_OBJECT_BYTES.
End envelope.

(** ** Activity *)

(** [chunk_by]: maximal runs of neighbours. *)
Fixpoint chunk_by {A} (same : A → A → bool) (l : list A) : list (list A) :=
  match l with
  | [] => []
  | x :: rest =>
      match chunk_by same rest with
      | (y :: ys) :: chunks => if same x y then (x :: y :: ys) :: chunks else [x] :: (y :: ys) :: chunks
      | chunks => [x] :: chunks
      end
  end.

Definition semantic_operation_groups (deltas : list WalCommitDelta) : list (list WalCommitDelta) :=
  chunk_by (λ left right, bool_decide (left.(wcd_semantic_operation_index) = right.(wcd_semantic_operation_index))) deltas.

(** The first offset of each content's pieces. *)
Definition counted_ends (record : WalCommitPayload) : list (ContentId * N) :=
  foldl (λ ends entry,
    let end_ := default entry.(wic_offset) (btree_get entry.(wic_content_id) ends) in
    (btree_insert entry.(wic_content_id) (N.min end_ entry.(wic_offset)) ends).2) [] record.(wcp_inline_content).

(** One revision of a group. *)
Definition count_revision (acc : list (ContentId * N) * ManifestActivity) (delta : WalCommitDelta)
    : option (list (ContentId * N) * ManifestActivity) :=
  let '(ends, activity) := acc in
  match revision_of delta with
  | None => Some (ends, activity)
  | Some (content_ref, _) =>
      let size_bytes := content_ref.(cref_size_bytes) in
      let '(counted, ends) :=
        match btree_get content_ref.(cref_content_id) ends with
        | Some end_ =>
            if decide (end_ < size_bytes)
            then (size_bytes - end_, (btree_insert content_ref.(cref_content_id) size_bytes ends).2)
            else (size_bytes, ends)
        | None => (size_bytes, ends)
        end in
      content_bytes ← counter_checked_add activity.(act_content_bytes) counted;
      file_revisions ← counter_checked_add activity.(act_file_revisions) 1;
      Some (ends, mkManifestActivity content_bytes file_revisions activity.(act_mutations))
  end.

Fixpoint try_fold {A B} (f : A → B → option A) (a : A) (l : list B) : option A :=
  match l with
  | [] => Some a
  | b :: l => a ← f a b; try_fold f a l
  end.

Definition count_group (acc : list (ContentId * N) * ManifestActivity) (group : list WalCommitDelta)
    : option (list (ContentId * N) * ManifestActivity) :=
  let '(ends, activity) := acc in
  mutations ← counter_checked_add activity.(act_mutations) 1;
  try_fold count_revision
    (ends, mkManifestActivity activity.(act_content_bytes) activity.(act_file_revisions) mutations) group.

Definition committed_activity (record : WalCommitPayload) : option ManifestActivity :=
  snd <$> try_fold count_group (counted_ends record, activity_default) (semantic_operation_groups record.(wcp_deltas)).

(** ** The rules of a WAL object *)
Definition pieces_at (content_id : ContentId) (entries : list WalInlineContent) : list WalInlineContent :=
  filter (λ entry, entry.(wic_content_id) = content_id) entries.
Definition pieces_of (record : WalCommitPayload) (content_id : ContentId) : list WalInlineContent :=
  pieces_at content_id record.(wcp_inline_content).

Definition piece_key (entry : WalInlineContent) : ContentId * N := (entry.(wic_content_id), entry.(wic_offset)).

Definition revisions_of (record : WalCommitPayload) : list (ContentRef * option ContentLayout) :=
  omap revision_of record.(wcp_deltas).

Definition pieces_bytes (entries : list WalInlineContent) : N := foldr (λ entry total, piece_bytes entry + total) 0 entries.

(** The pieces cover the bytes from [start] to [stop], each once. *)
Fixpoint tiles (start : N) (pieces : list WalInlineContent) (stop : N) : Prop :=
  match pieces with
  | [] => start = stop
  | piece :: rest => piece.(wic_offset) = start ∧ tiles (start + piece_bytes piece) rest stop
  end.

(** The largest size that the commit references of a content. *)
Definition is_reference_end (record : WalCommitPayload) (content_id : ContentId) (stop : N) : Prop :=
  (∃ content_ref layout, (content_ref, layout) ∈ revisions_of record ∧
     content_ref.(cref_content_id) = content_id ∧ content_ref.(cref_size_bytes) = stop) ∧
  ∀ content_ref layout, (content_ref, layout) ∈ revisions_of record →
    content_ref.(cref_content_id) = content_id → content_ref.(cref_size_bytes) ≤ stop.

(** The pieces of a content, in the order of their offsets, end at its
    reference. *)
Definition pieces_tile (record : WalCommitPayload) (content_id : ContentId) (start stop : N) : Prop :=
  stop ≤ U64_MAX ∧ is_reference_end record content_id stop ∧
  ∃ ordered, ordered ≡ₚ pieces_of record content_id ∧ tiles start ordered stop.

Record inline_ok (namespace_id : NamespaceId) (record : WalCommitPayload) : Prop := {
  io_piece_bytes : ∀ entry, entry ∈ record.(wcp_inline_content) → piece_bytes entry ≤ MAX_WAL_INLINE_CONTENT_BYTES;
  io_distinct : NoDup (piece_key <$> record.(wcp_inline_content));
  io_creators : ∀ content_ref layout, (content_ref, Some layout) ∈ revisions_of record →
    pieces_of record content_ref.(cref_content_id) ≠ [] → layout.(cl_creator_namespace_id) = namespace_id;
  io_tiled : ∀ content_id, pieces_of record content_id ≠ [] → ∃ start stop, pieces_tile record content_id start stop;
}.

(** A layout stores the bytes before the commit's pieces: all of them
    without pieces, none for a whole value. *)
Definition layout_ok (layout : ContentLayout) (stop : N) : Prop :=
  size_bytes layout = stop ∧ stop ≤ U64_MAX ∧
  (stop = 0 → ∃ content_id offset, layout.(cl_extents) = [mkContentExtent content_id Whole offset 0]) ∧
  ∀ extent, extent ∈ layout.(cl_extents) →
    (0 < stop → 0 < extent.(ext_length)) ∧ extent.(ext_offset) + extent.(ext_length) ≤ U64_MAX ∧
    match extent.(ext_object) with
    | Whole => True
    | Span start end_ => start < end_ ∧ extent.(ext_offset) + extent.(ext_length) ≤ end_ - start
    end.

Definition revision_layout_ok (record : WalCommitPayload) (content_ref : ContentRef) (layout : option ContentLayout) : Prop :=
  match list_min (wic_offset <$> pieces_of record content_ref.(cref_content_id)), layout with
  | Some 0, layout => layout = None
  | Some _, None => True
  | None, None => False
  | Some first_offset, Some layout => layout_ok layout first_offset
  | None, Some layout => layout_ok layout content_ref.(cref_size_bytes)
  end.

Definition bind_ok (delta : WalDelta) : Prop :=
  match delta with
  | BindDirentry _ _ _ _ _ File _ _ revision => revision ≠ None
  | BindDirentry _ _ _ _ _ Directory _ _ revision => revision = None
  | _ => True
  end.

Record wal_object_ok (payload : WalObjectPayload) : Prop := {
  wo_inline : ∀ record, record ∈ payload.(wop_records) → inline_ok payload.(wop_namespace_id) record;
  wo_inline_bytes : pieces_bytes (concat (wcp_inline_content <$> payload.(wop_records))) ≤ MAX_WAL_OBJECT_INLINE_CONTENT_BYTES;
  wo_layouts : ∀ record content_ref layout, record ∈ payload.(wop_records) →
    (content_ref, layout) ∈ revisions_of record → revision_layout_ok record content_ref layout;
  wo_binds : ∀ record delta, record ∈ payload.(wop_records) → delta ∈ record.(wcp_deltas) → bind_ok delta.(wcd_delta);
  wo_merges : ∀ record merge, record ∈ payload.(wop_records) → record.(wcp_merge) = Some merge →
    merge.(mr_source_after_seq) < merge.(mr_source_through_seq) ∧ merge.(mr_source_namespace_id) ≠ payload.(wop_namespace_id);
}.

(** ** Ordered maps *)
Section btree_get.
Context `{TotalOrd K} `{!EqDecision K} {V : Type}.
Implicit Types (m : list (K * V)) (k : K) (v : V).

Lemma btree_get_elem m k v : ascending m → btree_get k m = Some v ↔ (k, v) ∈ m.
Proof.
  induction m as [|[k' v'] m IH]; cbn [btree_get]; [intros _; set_solver|]. intros [Ha Hlt]%ascending_cons.
  rewrite elem_of_cons. destruct (cmp k k') eqn:E.
  - apply cmp_eq in E as ->. split; [intros [= ->]; by left|]. intros [[= ->]|Hin]; [done|].
    specialize (Hlt _ Hin). cbn in Hlt. by apply cmp_lt_ne in Hlt.
  - rewrite IH by done. split; [by right|]. intros [[= -> ->]|]; [|done]. by rewrite cmp_refl in E.
  - rewrite IH by done. split; [by right|]. intros [[= -> ->]|]; [|done]. by rewrite cmp_refl in E.
Qed.

Lemma btree_get_insert m k v k' : ascending m →
  btree_get k' (btree_insert k v m).2 = if decide (k' = k) then Some v else btree_get k' m.
Proof.
  intros Ha. apply option_eq. intros w. rewrite btree_get_elem by by apply btree_insert_ascending.
  rewrite btree_insert_elem by done. cbn. case_decide as Hk.
  - subst. naive_solver.
  - rewrite btree_get_elem by done. naive_solver.
Qed.

Lemma btree_insert_perm m k v : (btree_insert k v m).1 = None → (btree_insert k v m).2 ≡ₚ (k, v) :: m.
Proof.
  induction m as [|[k' v'] m IH]; cbn [btree_insert]; [done|]. destruct (cmp k k'); [done|done|].
  destruct (btree_insert k v m) as [old m']. cbn in *. intros ->. rewrite (IH eq_refl). apply Permutation_swap.
Qed.
End btree_get.

(** Keeping the best value of each key. *)
Section best.
Context {A : Type} (f : A → option (string * N)) (op : N → N → N).

Definition best_step (m : list (string * N)) (a : A) : list (string * N) :=
  match f a with
  | Some (k, x) => (btree_insert k (best_of op (btree_get k m) x) m).2
  | None => m
  end.

Definition values_at (k : string) (l : list A) : list N :=
  omap (λ a, match f a with Some (k', x) => if decide (k' = k) then Some x else None | None => None end) l.

Lemma best_snoc l x : list_best op (l ++ [x]) = Some (best_of op (list_best op l) x).
Proof using Type. unfold list_best. by rewrite foldl_app. Qed.

Lemma best_by_key l :
  ascending (foldl best_step [] l) ∧ ∀ k, btree_get k (foldl best_step [] l) = list_best op (values_at k l).
Proof using Type.
  induction l as [|a l [Ha IH]] using rev_ind; [by split; [constructor|]|]. rewrite foldl_app. cbn [foldl].
  unfold best_step at 1 3. unfold values_at. setoid_rewrite omap_app. cbn [omap list_omap].
  destruct (f a) as [[k' x]|]; cbn; [|split; [done|]; intros k; by rewrite app_nil_r].
  split; [by apply btree_insert_ascending|]. intros k. rewrite btree_get_insert by done.
  case_decide as Hk; case_decide as Hk'; subst; try done.
  - rewrite best_snoc. by rewrite IH.
  - by rewrite app_nil_r.
Qed.
End best.

Lemma best_elem op l : (∀ a b, op a b = a ∨ op a b = b) → ∀ x, list_best op l = Some x → x ∈ l.
Proof.
  intros Hop. induction l as [|y l IH] using rev_ind; [done|]. intros x. rewrite best_snoc. intros [= <-].
  rewrite elem_of_app, list_elem_of_singleton. destruct (list_best op l) as [b|] eqn:E; cbn; [|by right].
  destruct (Hop b y) as [->| ->]; [left; by apply IH|by right].
Qed.

Lemma best_None op l : list_best op l = None ↔ l = [].
Proof.
  destruct l as [|y l _] using rev_ind; [done|]. rewrite best_snoc. split; [done|]. by intros []%app_eq_nil.
Qed.

Lemma list_best_max l x : list_best N.max l = Some x ↔ x ∈ l ∧ ∀ y, y ∈ l → y ≤ x.
Proof.
  assert (∀ z, list_best N.max l = Some z → ∀ y, y ∈ l → y ≤ z) as Hub.
  { induction l as [|y l IH] using rev_ind; [done|]. intros z. rewrite best_snoc. intros [= <-] w.
    rewrite elem_of_app, list_elem_of_singleton. destruct (list_best N.max l) as [b|] eqn:E; cbn.
    - intros [Hw| ->]; [specialize (IH b eq_refl w Hw)|]; lia.
    - apply best_None in E as ->. intros [?%elem_of_nil| ->]; [done|lia]. }
  split.
  - intros E. split; [|by apply Hub]. apply (best_elem N.max); [lia|done].
  - intros [Hx Hmax]. destruct (list_best N.max l) as [z|] eqn:E.
    + specialize (Hub z eq_refl x Hx). assert (z ∈ l) as Hz by (apply (best_elem N.max); [lia|done]).
      specialize (Hmax z Hz). f_equal. lia.
    + apply best_None in E as ->. by apply elem_of_nil in Hx.
Qed.

Lemma list_min_Some l x : list_min l = Some x ↔ x ∈ l ∧ ∀ y, y ∈ l → x ≤ y.
Proof.
  assert (∀ z, list_min l = Some z → ∀ y, y ∈ l → z ≤ y) as Hlb.
  { unfold list_min. induction l as [|y l IH] using rev_ind; [done|]. intros z. rewrite best_snoc. intros [= <-] w.
    rewrite elem_of_app, list_elem_of_singleton. destruct (list_best N.min l) as [b|] eqn:E; cbn.
    - intros [Hw| ->]; [specialize (IH b eq_refl w Hw)|]; lia.
    - apply best_None in E as ->. intros [?%elem_of_nil| ->]; [done|lia]. }
  unfold list_min in *. split.
  - intros E. split; [|by apply Hlb]. apply (best_elem N.min); [lia|done].
  - intros [Hx Hmin]. destruct (list_best N.min l) as [z|] eqn:E.
    + specialize (Hlb z eq_refl x Hx). assert (z ∈ l) as Hz by (apply (best_elem N.min); [lia|done]).
      specialize (Hmin z Hz). f_equal. lia.
    + apply best_None in E as ->. by apply elem_of_nil in Hx.
Qed.

(** ** Validation *)
Definition revision_size (delta : WalCommitDelta) : option (ContentId * N) :=
  (λ r, (r.1.(cref_content_id), r.1.(cref_size_bytes))) <$> revision_of delta.

Lemma reference_ends_best record : reference_ends record = foldl (best_step revision_size N.max) [] record.(wcp_deltas).
Proof.
  unfold reference_ends. generalize (@nil (ContentId * N)) as m. induction record.(wcp_deltas) as [|delta l IH]; intros m; [done|].
  cbn [foldl]. rewrite IH. f_equal. unfold best_step, revision_size.
  destruct (revision_of delta) as [[content_ref layout]|]; cbn; [|done].
  destruct (btree_get _ m); cbn; [done|]. by rewrite N.max_0_l.
Qed.

Lemma reference_ends_ok record :
  ascending (reference_ends record) ∧
  ∀ content_id stop, btree_get content_id (reference_ends record) = Some stop ↔ is_reference_end record content_id stop.
Proof.
  rewrite reference_ends_best. destruct (best_by_key revision_size N.max record.(wcp_deltas)) as [Ha Hget]. split; [done|].
  intros content_id stop. rewrite Hget, list_best_max.
  assert (∀ x, x ∈ values_at revision_size content_id record.(wcp_deltas) ↔
    ∃ content_ref layout, (content_ref, layout) ∈ revisions_of record ∧
      content_ref.(cref_content_id) = content_id ∧ content_ref.(cref_size_bytes) = x) as Hval.
  { intros x. unfold values_at, revisions_of, revision_size. rewrite list_elem_of_omap. split.
    - intros (delta & Hd & Ex). destruct (revision_of delta) as [[r l]|] eqn:Er; [|done]. cbn in Ex. case_decide; [|done].
      injection Ex as <-. exists r, l. split_and!; [|done..]. apply list_elem_of_omap. by exists delta.
    - intros (r & l & (delta & Hd & Er)%list_elem_of_omap & <- & <-). exists delta. split; [done|].
      rewrite Er. cbn. by rewrite decide_True. }
  unfold is_reference_end. setoid_rewrite Hval. naive_solver.
Qed.

(** The entries read so far, by content and offset. *)
Record grouped (by_content : list (ContentId * list (N * WalInlineContent))) (seen : list WalInlineContent) : Prop := {
  gr_ascending : ascending by_content;
  gr_pieces : ∀ content_id by_offset, (content_id, by_offset) ∈ by_content →
    by_offset ≠ [] ∧ ascending by_offset ∧ by_offset.*2 ≡ₚ pieces_at content_id seen ∧
    Forall (λ x, x.1 = x.2.(wic_offset)) by_offset;
  gr_all : ∀ entry, entry ∈ seen → ∃ by_offset, (entry.(wic_content_id), by_offset) ∈ by_content;
}.

Lemma grouped_nil : grouped [] [].
Proof. split; [constructor|set_solver..]. Qed.

Lemma grouped_get by_content seen content_id : grouped by_content seen →
  let by_offset := default [] (btree_get content_id by_content) in
  ascending by_offset ∧ by_offset.*2 ≡ₚ pieces_at content_id seen ∧ Forall (λ x, x.1 = x.2.(wic_offset)) by_offset.
Proof.
  intros [Ha Hp Hall]. cbv zeta. destruct (btree_get content_id by_content) as [m|] eqn:E; cbn.
  - apply btree_get_elem in E; [|done]. by destruct (Hp _ _ E) as (_ & H).
  - split_and!; [constructor| |constructor]. unfold pieces_at. rewrite filter_none; [done|]. intros e He Hid.
    destruct (Hall e He) as (m & Hm). rewrite Hid in Hm. apply (btree_get_elem _ _ _ Ha) in Hm. congruence.
Qed.

Lemma grouped_key by_content seen entry : grouped by_content seen →
  (btree_insert entry.(wic_offset) entry (default [] (btree_get entry.(wic_content_id) by_content))).1 = None ↔
  piece_key entry ∉ piece_key <$> seen.
Proof.
  intros Hg. destruct (grouped_get _ _ entry.(wic_content_id) Hg) as (Ha & Hp & Hk). rewrite btree_insert_old by done.
  set (m := default [] _) in *. rewrite Forall_forall in Hk. rewrite list_elem_of_fmap. split.
  - intros Hnone (e & Ek & He). assert (e ∈ pieces_at entry.(wic_content_id) seen) as Hin.
    { apply list_elem_of_filter. split; [|done]. by injection Ek. }
    rewrite <-Hp in Hin. apply list_elem_of_fmap in Hin as (x & -> & Hx). apply (Hnone x Hx). rewrite (Hk x Hx). by injection Ek.
  - intros Hno x Hx E. apply Hno. exists x.2. assert (x.2 ∈ pieces_at entry.(wic_content_id) seen) as Hin.
    { rewrite <-Hp. by apply list_elem_of_fmap_2. }
    apply list_elem_of_filter in Hin as [Hid Hin]. split; [|done]. unfold piece_key. rewrite Hid, <-E. f_equal. by rewrite (Hk x Hx).
Qed.

Lemma grouped_push by_content seen entry : grouped by_content seen →
  let inserted := btree_insert entry.(wic_offset) entry (default [] (btree_get entry.(wic_content_id) by_content)) in
  inserted.1 = None →
  grouped (btree_insert entry.(wic_content_id) inserted.2 by_content).2 (seen ++ [entry]).
Proof.
  intros Hg inserted Hnone. destruct (grouped_get _ _ entry.(wic_content_id) Hg) as (Ha & Hp & Hk).
  set (m := default [] _) in *. pose proof (btree_insert_perm _ _ _ Hnone) as Hperm. fold inserted in Hperm.
  assert (∀ x, x ∈ (btree_insert entry.(wic_content_id) inserted.2 by_content).2 ↔
    x = (entry.(wic_content_id), inserted.2) ∨ x.1 ≠ entry.(wic_content_id) ∧ x ∈ by_content) as Hx
    by (intros x; apply btree_insert_elem, Hg). split.
  - by apply btree_insert_ascending, Hg.
  - intros cid by_offset [[= -> ->]|[Hne Hin]]%Hx.
    + split_and!; [intros E; rewrite E in Hperm; by apply Permutation_nil_cons in Hperm|by apply btree_insert_ascending| |].
      * rewrite Hperm. cbn. rewrite Hp. unfold pieces_at. rewrite filter_app, filter_cons_True, filter_nil by done.
        apply Permutation_cons_append.
      * rewrite Hperm. by constructor.
    + destruct (gr_pieces _ _ Hg _ _ Hin) as (H1 & H2 & H3 & H4). split_and!; [done..| |done].
      unfold pieces_at. rewrite filter_app, filter_cons_False, filter_nil, app_nil_r; [done|]. cbn in Hne. congruence.
  - intros e [He|He%list_elem_of_singleton]%elem_of_app; [|subst e; eexists; apply Hx; by left].
    destruct (decide (e.(wic_content_id) = entry.(wic_content_id))) as [E|E]; [rewrite E; eexists; apply Hx; by left|].
    destruct (gr_all _ _ Hg e He) as (by_offset & Hin). exists by_offset. apply Hx. by right.
Qed.

Section entries.
Context (invalid : ContentId → string → WalCodecError) (ends : list (ContentId * N)).

(** What the entries after [seen] need to be accepted. *)
Definition entries_fit (total_bytes : N) (seen entries : list WalInlineContent) : Prop :=
  (∀ entry, entry ∈ entries → piece_bytes entry ≤ MAX_WAL_INLINE_CONTENT_BYTES) ∧
  (entries ≠ [] → total_bytes + pieces_bytes entries ≤ MAX_WAL_OBJECT_INLINE_CONTENT_BYTES) ∧
  (∀ entry, entry ∈ entries → btree_get entry.(wic_content_id) ends ≠ None) ∧
  NoDup (piece_key <$> (seen ++ entries)).

Lemma inline_entries_sound entries : ∀ total_bytes seen by_content total' by_content',
  grouped by_content seen → NoDup (piece_key <$> seen) →
  inline_entries invalid ends entries total_bytes by_content = Ok (total', by_content') →
  total' = total_bytes + pieces_bytes entries ∧ grouped by_content' (seen ++ entries) ∧ entries_fit total_bytes seen entries.
Proof using Type.
  induction entries as [|entry entries IH]; intros total seen by_content total' by_content' Hg Hseen E; cbn [inline_entries] in E.
  { injection E as <- <-. unfold entries_fit. rewrite !app_nil_r. cbn. split_and!; [lia|done|by intros e ?%elem_of_nil|done|by intros e ?%elem_of_nil|done]. }
  case_decide as Hsmall; [done|]. case_decide as Htotal; [done|]. case_bool_decide as Href; [done|].
  pose proof (grouped_key _ _ entry Hg) as Hkey. pose proof (grouped_push _ _ entry Hg) as Hpush. cbv zeta in Hpush.
  destruct (btree_insert _ _ (default [] _)) as [[] m]; [done|]. cbn [fst snd] in *. assert (piece_key entry ∉ piece_key <$> seen) as Hnew by by apply Hkey.
  assert (NoDup (piece_key <$> (seen ++ [entry]))) as Hseen'.
  { rewrite fmap_app. apply NoDup_app. split_and!; [done| |apply NoDup_singleton]. intros k Hk ->%list_elem_of_singleton. by apply Hnew. }
  destruct (IH _ _ _ _ _ (Hpush eq_refl) Hseen' E) as (-> & Hg' & Hsmall' & Htotal' & Href' & Hnd).
  rewrite <-app_assoc in Hg', Hnd. cbn [pieces_bytes foldr]. fold (pieces_bytes entries). split_and!; [lia|done|].
  unfold entries_fit. cbn [pieces_bytes foldr]. fold (pieces_bytes entries). split_and!; [|intros _| |done].
  1: intros e [->|He]%elem_of_cons; [lia|by apply Hsmall'].
  2: intros e [->|He]%elem_of_cons; [done|by apply Href'].
  destruct entries; [cbn; lia|]. specialize (Htotal' ltac:(done)). lia.
Qed.

Lemma inline_entries_complete entries : ∀ total_bytes seen by_content,
  grouped by_content seen → entries_fit total_bytes seen entries →
  ∃ by_content', inline_entries invalid ends entries total_bytes by_content = Ok (total_bytes + pieces_bytes entries, by_content').
Proof using Type.
  induction entries as [|entry entries IH]; intros total seen by_content Hg (Hsmall & Htotal & Href & Hnd); cbn [inline_entries].
  { exists by_content. cbn. by rewrite N.add_0_r. }
  specialize (Htotal ltac:(done)). cbn [pieces_bytes foldr] in Htotal. fold (pieces_bytes entries) in Htotal.
  rewrite decide_False by (specialize (Hsmall entry ltac:(by left)); lia). rewrite decide_False by lia.
  rewrite bool_decide_false by (apply Href; by left).
  pose proof (grouped_key _ _ entry Hg) as Hkey. pose proof (grouped_push _ _ entry Hg) as Hpush. cbv zeta in Hpush.
  rewrite fmap_app, fmap_cons in Hnd. apply NoDup_app in Hnd as Hnd'. destruct Hnd' as (_ & Hdisj & _).
  assert (piece_key entry ∉ piece_key <$> seen) as Hnew%Hkey by (intros Hin; apply (Hdisj _ Hin); by left).
  destruct (btree_insert _ _ (default [] _)) as [o m]. cbn [fst snd] in *. subst o.
  destruct (IH (total + piece_bytes entry) (seen ++ [entry]) _ (Hpush eq_refl)) as (by' & ->).
  - split_and!; [intros e He; apply Hsmall; by right|intros; lia|intros e He; apply Href; by right|].
    by rewrite <-app_assoc, fmap_app.
  - exists by'. cbn [pieces_bytes foldr]. fold (pieces_bytes entries). by rewrite N.add_assoc.
Qed.
End entries.

Section ends.
Context (invalid : ContentId → string → WalCodecError).

Lemma entries_end_Some content_id m : ∀ end_ stop, Forall (λ x, x.1 = x.2.(wic_offset)) m →
  entries_end invalid content_id (Some end_) m = Ok (Some stop) ↔ tiles end_ m.*2 stop ∧ (m ≠ [] → stop ≤ U64_MAX).
Proof using Type.
  induction m as [|[offset entry] m IH]; intros end_ stop Hk; cbn [entries_end]; [cbn; naive_solver|].
  apply Forall_cons in Hk as [Hoff Hk]. cbn [fst snd] in Hoff. cbn [fmap list_fmap tiles snd]. case_bool_decide as Hend.
  { split; [done|]. intros [[E _] _]. congruence. }
  subst offset end_. assert (∀ l start, tiles start l stop → start ≤ stop) as Hmono.
  { intros l. induction l as [|e l IHl]; intros start; cbn; [lia|]. intros [_ H%IHl]. lia. }
  unfold checked_add. case_decide as Hle.
  - rewrite IH by done. split.
    + intros [Ht Hle']. split_and!; [done|done|]. intros _. destruct m; [cbn in Ht; lia|by apply Hle'].
    + intros [[_ Ht] Hle']. split; [done|]. intros _. by apply Hle'.
  - split; [done|]. intros [[_ Ht%Hmono] Hle']. specialize (Hle' ltac:(done)). lia.
Qed.

Lemma entries_end_None content_id m stop : m ≠ [] → Forall (λ x, x.1 = x.2.(wic_offset)) m →
  entries_end invalid content_id None m = Ok (Some stop) ↔ stop ≤ U64_MAX ∧ ∃ start, tiles start m.*2 stop.
Proof using Type.
  intros Hne Hk. transitivity (∃ start, tiles start m.*2 stop ∧ (m ≠ [] → stop ≤ U64_MAX)); [|naive_solver].
  setoid_rewrite <-(entries_end_Some content_id m) with (1 := Hk). destruct m as [|[offset entry] m]; [done|].
  cbn [entries_end]. split.
  - intros E. exists offset. by rewrite bool_decide_false by (by intros []).
  - intros (start & E). case_bool_decide; [done|exact E].
Qed.

Lemma tiles_sorted l : ∀ start stop, tiles start l stop → StronglySorted kle (wic_offset <$> l) ∧ Forall (λ e, start ≤ e.(wic_offset)) l.
Proof using Type.
  induction l as [|e l IH]; intros start stop; cbn [tiles fmap list_fmap]; [split; constructor|].
  intros [<- Ht]. destruct (IH _ _ Ht) as [Hs Hf]. split.
  - constructor; [done|]. apply Forall_fmap. eapply Forall_impl; [done|]. intros e' Hle. cbv beta in Hle.
    apply N.compare_le_iff. cbn. lia.
  - constructor; [lia|]. eapply Forall_impl; [done|]. cbn. lia.
Qed.

(** The entries of a content in offset order are the tiling's order. *)
Lemma tiles_ordered m ordered start stop :
  ascending m → Forall (λ x, x.1 = x.2.(wic_offset)) m → ordered ≡ₚ m.*2 → tiles start ordered stop → ordered = m.*2.
Proof using Type.
  intros Ha Hk Hp [Hs _]%tiles_sorted. set (f := λ e, (e.(wic_offset), e)). assert (m = f <$> m.*2) as Em.
  { clear -Hk. induction Hk as [|[o e] m Ho _ IH]; [done|]. cbn in *. by rewrite <-IH, Ho. }
  assert (f <$> ordered = m) as E; [|by rewrite <-E, <-list_fmap_compose, list_fmap_id].
  assert ((f <$> ordered).*1 = wic_offset <$> ordered) as Ef by by rewrite <-list_fmap_compose.
  assert (f <$> ordered ≡ₚ m) as Hfp by by rewrite Hp, <-Em.
  apply ascending_perm; [|done|done]. apply sorted_ascending; [by rewrite Ef|]. rewrite Hfp.
  clear -Ha. unfold ascending in Ha. induction Ha as [|x m _ IH Hlt]; [constructor|]. cbn. constructor; [|done].
  intros (y & E & Hy)%list_elem_of_fmap. rewrite Forall_forall in Hlt. specialize (Hlt y Hy). rewrite E in Hlt. by apply cmp_lt_ne in Hlt.
Qed.

Lemma inline_ends_ok record by_content :
  grouped by_content record.(wcp_inline_content) →
  (∀ entry, entry ∈ record.(wcp_inline_content) → btree_get entry.(wic_content_id) (reference_ends record) ≠ None) →
  inline_ends invalid (reference_ends record) by_content = Ok () ↔
  ∀ content_id, pieces_of record content_id ≠ [] → ∃ start stop, pieces_tile record content_id start stop.
Proof using Type.
  intros Hg Href. destruct (reference_ends_ok record) as [Hra Hr]. unfold inline_ends. rewrite for_each_Ok, Forall_forall.
  assert (∀ content_id m, (content_id, m) ∈ by_content →
    (end_ ← entries_end invalid content_id None m;
     if decide (end_ ≠ btree_get content_id (reference_ends record))
     then Err (invalid content_id "entries do not end at the reference `size_bytes`") else Ok ()) = Ok () ↔
    ∃ start stop, pieces_tile record content_id start stop) as Hone.
  { intros cid m Hin. destruct (gr_pieces _ _ Hg _ _ Hin) as (Hne & Ha & Hp & Hk). unfold pieces_tile. split.
    - intros E. step_ok E end_ Hend. case_decide as Hget; [done|].
      destruct (pieces_at cid record.(wcp_inline_content)) as [|e es] eqn:Epieces.
      { rewrite Permutation_nil_r in Hp. by destruct m. }
      assert (e ∈ record.(wcp_inline_content) ∧ e.(wic_content_id) = cid) as [He Hid].
      { assert (e ∈ pieces_at cid record.(wcp_inline_content)) as Hin' by (rewrite Epieces; by left).
        by apply list_elem_of_filter in Hin' as [? ?]. }
      specialize (Href e He). rewrite Hid in Href.
      destruct (btree_get cid (reference_ends record)) as [stop|] eqn:Est; [|done].
      assert (end_ = Some stop) as -> by (by destruct (decide (end_ = Some stop))).
      apply entries_end_None in Hend as [Hle (start & Ht)]; [|done..]. exists start, stop.
      split_and!; [done|by apply Hr|]. exists m.*2. unfold pieces_of. by rewrite Epieces.
    - intros (start & stop & Hle & Hstop & ordered & Hord & Ht). apply Hr in Hstop.
      assert (ordered = m.*2) as -> by (eapply tiles_ordered; [done|done| |done]; by rewrite Hord, Hp).
      rewrite (proj2 (entries_end_None cid m stop Hne Hk)) by by split; [|exists start].
      cbn. rewrite decide_False; [done|]. intros Hn. by apply Hn. }
  split.
  - intros Hall cid Hne. destruct (pieces_of record cid) as [|e es] eqn:Epieces; [done|].
    assert (e ∈ pieces_of record cid) as [Hid He]%list_elem_of_filter by (rewrite Epieces; by left).
    destruct (gr_all _ _ Hg e He) as (m & Hm). rewrite Hid in Hm. apply (Hone cid m Hm), (Hall _ Hm).
  - intros Hall [cid m] Hin. apply (Hone cid m Hin), Hall. destruct (gr_pieces _ _ Hg _ _ Hin) as (Hne & _ & Hp & _).
    intros E. unfold pieces_of in E. rewrite E in Hp. rewrite Permutation_nil_r in Hp. by destruct m.
Qed.

Lemma inline_creators_ok namespace_id record by_content :
  grouped by_content record.(wcp_inline_content) →
  inline_creators invalid namespace_id by_content record.(wcp_deltas) = Ok () ↔
  ∀ content_ref layout, (content_ref, Some layout) ∈ revisions_of record →
    pieces_of record content_ref.(cref_content_id) ≠ [] → layout.(cl_creator_namespace_id) = namespace_id.
Proof using Type.
  intros Hg. assert (∀ cid, btree_get cid by_content ≠ None ↔ pieces_of record cid ≠ []) as Hget.
  { intros cid. split.
    - intros Hne E. destruct (btree_get cid by_content) as [m|] eqn:Eg; [|done]. apply btree_get_elem in Eg; [|apply Hg].
      destruct (gr_pieces _ _ Hg _ _ Eg) as (Hm & _ & Hp & _). unfold pieces_of in E. rewrite E, Permutation_nil_r in Hp. by destruct m.
    - intros Hne E. destruct (grouped_get _ _ cid Hg) as (_ & Hp & _). rewrite E in Hp. cbn in Hp.
      apply Permutation_nil_l in Hp. apply Hne. by symmetry. }
  unfold inline_creators, revisions_of. rewrite for_each_Ok, Forall_forall. split.
  - intros Hall r layout (delta & Hd & Er)%list_elem_of_omap Hne. specialize (Hall delta Hd). rewrite Er in Hall.
    rewrite bool_decide_true in Hall by by apply Hget. cbn in Hall. by case_bool_decide.
  - intros Hall delta Hd. destruct (revision_of delta) as [[r [layout|]]|] eqn:Er; [|done..].
    case_bool_decide as Hg'; [|done]. cbn. rewrite bool_decide_false; [done|]. intros Hne. apply Hne, (Hall r layout).
    + apply list_elem_of_omap. by exists delta.
    + by apply Hget.
Qed.
End ends.

Lemma bind_unit {E A} (m : res E A) (k : A → res E unit) : (x ← m; k x) = Ok () ↔ ∃ a, m = Ok a ∧ k a = Ok ().
Proof. apply bind_Ok. Qed.

Lemma pieces_bytes_app l k : pieces_bytes (l ++ k) = pieces_bytes l + pieces_bytes k.
Proof. induction l as [|e l IH]; cbn; [done|]. unfold pieces_bytes in *. lia. Qed.

Lemma inline_ok_empty namespace_id record : record.(wcp_inline_content) = [] → inline_ok namespace_id record.
Proof.
  intros E. assert (∀ content_id, pieces_of record content_id = []) as Hp by (intros c; unfold pieces_of; by rewrite E).
  split.
  - rewrite E. by intros e ?%elem_of_nil.
  - rewrite E. constructor.
  - intros content_ref layout _ Hne. by rewrite Hp in Hne.
  - intros content_id Hne. by rewrite Hp in Hne.
Qed.

Lemma inline_record_ok invalid namespace_id record total_bytes total' :
  (∃ by_content,
     inline_entries invalid (reference_ends record) record.(wcp_inline_content) total_bytes [] = Ok (total', by_content) ∧
     inline_creators invalid namespace_id by_content record.(wcp_deltas) = Ok () ∧
     inline_ends invalid (reference_ends record) by_content = Ok ()) ↔
  total' = total_bytes + pieces_bytes record.(wcp_inline_content) ∧ inline_ok namespace_id record ∧
  (record.(wcp_inline_content) ≠ [] → total' ≤ MAX_WAL_OBJECT_INLINE_CONTENT_BYTES).
Proof.
  pose proof grouped_nil as Hnil. destruct (reference_ends_ok record) as [_ Hr]. split.
  - intros (by_content & He & Hc & Hi).
    destruct (inline_entries_sound invalid _ _ _ _ _ _ _ Hnil NoDup_nil_2 He) as (-> & Hg & Hsmall & Htotal & Href & Hnd).
    split_and!; [done| |done]. split; [done|done|by eapply inline_creators_ok|by eapply inline_ends_ok].
  - intros (-> & [Hsmall Hnd Hc Ht] & Htotal).
    assert (∀ entry, entry ∈ record.(wcp_inline_content) → btree_get entry.(wic_content_id) (reference_ends record) ≠ None) as Href.
    { intros e He. destruct (Ht e.(wic_content_id)) as (start & stop & _ & Hstop%Hr & _); [|by rewrite Hstop].
      intros E. assert (e ∈ pieces_of record e.(wic_content_id)) as Hin by by apply list_elem_of_filter.
      rewrite E in Hin. by apply elem_of_nil in Hin. }
    assert (entries_fit (reference_ends record) total_bytes [] record.(wcp_inline_content)) as Hfit by done.
    destruct (inline_entries_complete invalid _ _ _ _ _ Hnil Hfit) as (by_content & He). exists by_content.
    destruct (inline_entries_sound invalid _ _ _ _ _ _ _ Hnil NoDup_nil_2 He) as (_ & Hg & _).
    split_and!; [done|by eapply inline_creators_ok|by eapply inline_ends_ok].
Qed.

Lemma validate_inline_exact namespace_id records : ∀ total_bytes, total_bytes ≤ MAX_WAL_OBJECT_INLINE_CONTENT_BYTES →
  validate_inline_records namespace_id records total_bytes = Ok () ↔
  (∀ record, record ∈ records → inline_ok namespace_id record) ∧
  total_bytes + pieces_bytes (concat (wcp_inline_content <$> records)) ≤ MAX_WAL_OBJECT_INLINE_CONTENT_BYTES.
Proof.
  induction records as [|record records IH]; intros total Hle; cbn [validate_inline_records].
  { split; [|done]. intros _. split; [by intros r ?%elem_of_nil|cbn; lia]. }
  cbn [fmap list_fmap concat]. rewrite pieces_bytes_app. setoid_rewrite elem_of_cons. case_bool_decide as Hempty.
  { rewrite IH, Hempty by done. cbn [pieces_bytes foldr]. rewrite N.add_0_l. split; [|naive_solver].
    intros [Hall Ht]. split; [|done]. intros r [->|Hin]; [by apply inline_ok_empty|by apply Hall]. }
  split.
  - intros E. step_ok E acc He. destruct acc as [total' by_content]. step_ok E u Hc. destruct u. step_ok E u Hi. destruct u.
    destruct (proj1 (inline_record_ok (InvalidWalInlineContent record.(wcp_committed_seq)) namespace_id record total total'))
      as (-> & Hok & Ht); [by exists by_content|].
    apply IH in E as [Hall Ht']; [|by apply Ht]. split; [naive_solver|lia].
  - intros [Hall Ht]. destruct (proj2 (inline_record_ok (InvalidWalInlineContent record.(wcp_committed_seq)) namespace_id record total
      (total + pieces_bytes record.(wcp_inline_content)))) as (by_content & -> & Hc & Hi).
    { split_and!; [done|by apply Hall; left|lia]. }
    cbn [mbind res_bind]. rewrite Hc. cbn [mbind res_bind]. rewrite Hi. cbn [mbind res_bind].
    apply IH; [lia|]. split; [naive_solver|lia].
Qed.

(** *** Layouts *)
Definition extents_bytes (extents : list ContentExtent) : N := foldr (λ extent total, extent.(ext_length) + total) 0 extents.

Lemma extents_bytes_cons e l : extents_bytes (e :: l) = e.(ext_length) + extents_bytes l.
Proof. done. Qed.

Lemma extents_size_from extents : ∀ size, size ≤ U64_MAX →
  foldl (λ size extent, size ← size; checked_add U64_MAX size extent.(ext_length)) (Some size) extents =
  if decide (size + extents_bytes extents ≤ U64_MAX) then Some (size + extents_bytes extents) else None.
Proof.
  induction extents as [|e extents IH]; intros size Hle; cbn [foldl].
  { change (extents_bytes []) with 0. rewrite N.add_0_r. by rewrite decide_True. }
  rewrite extents_bytes_cons. cbn [mbind option_bind]. unfold checked_add at 2. case_decide as H1.
  - rewrite IH by done. by rewrite N.add_assoc.
  - rewrite decide_False by lia. clear -extents. by induction extents.
Qed.

Lemma extents_size_exact extents size :
  extents_size extents = Some size ↔ size = extents_bytes extents ∧ size ≤ U64_MAX.
Proof.
  unfold extents_size. rewrite extents_size_from by done. rewrite N.add_0_l. case_decide; naive_solver.
Qed.

Definition extent_ok (stop : N) (extent : ContentExtent) : Prop :=
  (0 < stop → 0 < extent.(ext_length)) ∧ extent.(ext_offset) + extent.(ext_length) ≤ U64_MAX ∧
  match extent.(ext_object) with
  | Whole => True
  | Span start end_ => start < end_ ∧ extent.(ext_offset) + extent.(ext_length) ≤ end_ - start
  end.

Lemma validate_extents_exact stop extents : ∀ length, length ≤ U64_MAX →
  length + extents_bytes extents ≤ U64_MAX →
  validate_extents stop extents length = Ok (length + extents_bytes extents) ↔ Forall (extent_ok stop) extents.
Proof.
  induction extents as [|e extents IH]; intros length Hlen Hle; cbn [validate_extents].
  { change (extents_bytes []) with 0. rewrite N.add_0_r. split; [constructor|done]. }
  rewrite extents_bytes_cons in *. rewrite Forall_cons. unfold extent_ok at 1. case_decide as Hpos; [split; [done|]; intros [[H _] _]; lia|].
  unfold checked_add. destruct (decide (ext_offset e + ext_length e ≤ U64_MAX)) as [Hend|Hend]; cbn [ok_or mbind res_bind]; [|split; [done|]; naive_solver].
  assert (0 < stop → 0 < e.(ext_length)) as Hpos' by lia. rewrite decide_True by lia.
  cbn [ok_or mbind res_bind]. rewrite N.add_assoc. rewrite <-(IH (length + e.(ext_length))) by lia.
  destruct e.(ext_object) as [|start end_]; [naive_solver|]. case_bool_decide as Hspan; [split; [done|]; naive_solver lia|].
  split; [intros E|naive_solver]. split_and!; [done|done|lia|lia|done].
Qed.

Lemma validate_layout_exact layout : size_bytes layout ≤ U64_MAX →
  validate_layout layout (size_bytes layout) = Ok () ↔ layout_ok layout (size_bytes layout).
Proof.
  intros Hle. unfold validate_layout, layout_ok. change (size_bytes layout) with (extents_bytes layout.(cl_extents)) in *.
  set (stop := extents_bytes layout.(cl_extents)) in *.
  transitivity ((stop = 0 → ∃ content_id offset, layout.(cl_extents) = [mkContentExtent content_id Whole offset 0]) ∧
    Forall (extent_ok stop) layout.(cl_extents)); [|rewrite Forall_forall; unfold extent_ok; naive_solver].
  rewrite <-(validate_extents_exact stop _ 0) by (done || lia). rewrite N.add_0_l. fold stop.
  assert (∀ r : res string N, (length ← r; if decide (length = stop) then Ok () else Err "extent lengths must equal the chain size") = Ok ()
    ↔ r = Ok stop) as Hlast.
  { intros [length| | |]; cbn; [|done..]. case_decide; naive_solver. }
  case_bool_decide as H0; cbn [andb]; [|rewrite Hlast; naive_solver].
  assert ((∃ content_id offset, layout.(cl_extents) = [mkContentExtent content_id Whole offset 0]) ↔
    match layout.(cl_extents) with [{| ext_object := Whole; ext_length := 0 |}] => true | _ => false end = true) as Hshape.
  { split; [by intros (? & ? & ->)|]. destruct layout.(cl_extents) as [|[c [|] o [|]] [|]]; try done. intros _. by exists c, o. }
  destruct (match layout.(cl_extents) with [{| ext_object := Whole; ext_length := 0 |}] => true | _ => false end); cbn [negb].
  - rewrite Hlast. naive_solver.
  - split; [done|]. intros [Hs _]. by apply Hshape in Hs.
Qed.

Lemma revision_layout_exact record content_ref layout :
  validate_revision_layout record content_ref layout = Ok () ↔ revision_layout_ok record content_ref layout.
Proof.
  unfold validate_revision_layout, revision_layout_ok. fold (pieces_at content_ref.(cref_content_id) record.(wcp_inline_content)).
  fold (pieces_of record content_ref.(cref_content_id)).
  set (first := list_min (wic_offset <$> pieces_of record content_ref.(cref_content_id))).
  assert (∀ l stop, (size_bytes' ← ok_or (extents_size l.(cl_extents)) (InvalidWalRevisionLayout record.(wcp_committed_seq) content_ref.(cref_content_id) "layout length overflows");
    _ ← map_err (InvalidWalRevisionLayout record.(wcp_committed_seq) content_ref.(cref_content_id)) (validate_layout l size_bytes');
    if decide (size_bytes' ≠ stop)
    then Err (InvalidWalRevisionLayout record.(wcp_committed_seq) content_ref.(cref_content_id) "layout size must equal the first piece offset or the reference size")
    else Ok ()) = Ok () ↔ layout_ok l stop) as Hlayout.
  { intros l stop. split.
    - intros E. step_ok E sz Hs. apply ok_or_Ok, extents_size_exact in Hs as [-> Hle]. step_ok E u Hv. destruct u.
      apply map_err_Ok in Hv. case_decide as Hstop; [done|].
      assert (size_bytes l = stop) as <- by (destruct (decide (size_bytes l = stop)); [done|by destruct Hstop]).
      by apply validate_layout_exact.
    - intros Hok. pose proof Hok as (<- & Hle & _). rewrite (proj2 (extents_size_exact l.(cl_extents) (size_bytes l))) by done.
      cbn [ok_or mbind res_bind]. rewrite (proj2 (validate_layout_exact l Hle) Hok). cbn. rewrite decide_False; [done|]. intros Hn. by apply Hn. }
  destruct first as [[|p]|], layout as [l|]; cbn [default]; try exact (Hlayout _ _); by split.
Qed.

(** *** The whole object *)
Lemma for_each_deltas (f : WalCommitPayload → WalCommitDelta → res WalCodecError unit) records :
  for_each (λ record, for_each (f record) record.(wcp_deltas)) records = Ok () ↔
  ∀ record delta, record ∈ records → delta ∈ record.(wcp_deltas) → f record delta = Ok ().
Proof. rewrite for_each_Ok, Forall_forall. setoid_rewrite for_each_Ok. setoid_rewrite Forall_forall. naive_solver. Qed.

Lemma revision_layouts_exact payload : validate_wal_revision_layouts payload = Ok () ↔
  ∀ record content_ref layout, record ∈ payload.(wop_records) →
    (content_ref, layout) ∈ revisions_of record → revision_layout_ok record content_ref layout.
Proof.
  unfold validate_wal_revision_layouts, revisions_of. rewrite for_each_deltas. split.
  - intros Hall record r l Hr (delta & Hd & Er)%list_elem_of_omap. specialize (Hall record delta Hr Hd). rewrite Er in Hall.
    by apply revision_layout_exact.
  - intros Hall record delta Hr Hd. destruct (revision_of delta) as [[r l]|] eqn:Er; [|done].
    apply revision_layout_exact, Hall; [done|]. apply list_elem_of_omap. by exists delta.
Qed.

Lemma bind_revisions_exact payload : validate_wal_bind_revisions payload = Ok () ↔
  ∀ record delta, record ∈ payload.(wop_records) → delta ∈ record.(wcp_deltas) → bind_ok delta.(wcd_delta).
Proof.
  unfold validate_wal_bind_revisions. rewrite for_each_deltas. apply forall_proper. intros record. apply forall_proper. intros delta.
  destruct delta.(wcd_delta) as [| ? ? ? ? ? [] ? ? []| | | | | |]; cbn; naive_solver.
Qed.

Lemma merges_exact payload : validate_wal_merges payload = Ok () ↔
  ∀ record merge, record ∈ payload.(wop_records) → record.(wcp_merge) = Some merge →
    merge.(mr_source_after_seq) < merge.(mr_source_through_seq) ∧ merge.(mr_source_namespace_id) ≠ payload.(wop_namespace_id).
Proof.
  unfold validate_wal_merges. rewrite for_each_Ok, Forall_forall. split.
  - intros Hall record merge Hr Em. specialize (Hall record Hr). rewrite Em in Hall. repeat case_decide; try done. split; [lia|done].
  - intros Hall record Hr. destruct record.(wcp_merge) as [merge|] eqn:Em; [|done].
    destruct (Hall record merge Hr Em) as [Hlt Hne]. rewrite decide_False by lia. by rewrite decide_False.
Qed.

Lemma wal_payload_exact payload : validate_wal_payload payload = Ok () ↔ wal_object_ok payload.
Proof.
  unfold validate_wal_payload. setoid_rewrite bind_Ok. setoid_rewrite bind_Ok. setoid_rewrite bind_Ok.
  assert (∀ (m : res WalCodecError unit) (P : Prop), (∃ a, m = Ok a ∧ P) ↔ m = Ok () ∧ P) as Hunit
    by (intros m P; split; [intros ([] & ? & ?)|intros []; exists ()]; done).
  rewrite !Hunit, revision_layouts_exact, bind_revisions_exact, merges_exact. unfold validate_wal_inline_content.
  rewrite validate_inline_exact by done. rewrite N.add_0_l. split; [|by intros []]. intros ([] & ? & ? & ?). by split.
Qed.

(** ** The envelope *)
Lemma decode_wal_exact `{SectionCodecs} `{WalCodecs} stored envelope :
  decode_wal_object_envelope_zstd stored = Ok envelope → wal_object_ok envelope.(ve_payload).
Proof.
  intros E. unfold decode_wal_object_envelope_zstd, decode_wal_object_envelope_zstd_with_limit in E.
  step_ok E o Ho. destruct o as [decompressed|]; [|done].
  step_ok E probe Hprobe. step_ok E u2 Hkind. step_ok E u3 Hversion. step_ok E document Hdocument. step_ok E u5 Hsum. step_ok E payload Hpayload.
  step_ok E u7 Hv. destruct u7. injection E as <-. by apply wal_payload_exact.
Qed.
Section envelope_laws.
Context `{SectionCodecLaws} `{WalCodecLaws}.

Lemma encode_wal_exact payload encoded :
  encode_wal_object_envelope_zstd payload = Ok encoded →
  encoded.(ee_envelope).(ve_payload) = payload ∧ wal_object_ok payload ∧
  (encoded.(ee_document_bytes) ≤ MAX_WAL_OBJECT_BYTES →
     decode_wal_object_envelope_zstd encoded.(ee_bytes) = Ok encoded.(ee_envelope)).
Proof.
  intros E. unfold encode_wal_object_envelope_zstd, encode_wal_payload_cbor in E. step_ok E payload_bytes Hp.
  step_ok Hp u Hv. destruct u. apply map_err_Ok in Hp. step_ok E document Hd. apply map_err_Ok in Hd.
  step_ok E stored Hs. unfold compress_document in Hs. apply map_err_Ok, map_err_Ok in Hs. injection E as <-.
  cbn [ee_envelope ee_bytes ee_document_bytes ve_payload]. split_and!; [done|by apply wal_payload_exact|]. intros Hle.
  unfold decode_wal_object_envelope_zstd, decode_wal_object_envelope_zstd_with_limit, decompress_document.
  rewrite (zstd_roundtrip _ _ _ Hs), take_ge by (unfold blen in Hle; lia). cbn [map_err mbind res_bind].
  rewrite decide_True by done. rewrite (document_cbor_probe _ _ Hd). cbn [map_err mbind res_bind wod_kind wod_format_version].
  rewrite (document_cbor_roundtrip _ _ Hd). cbn [map_err mbind res_bind wod_payload wod_payload_checksum].
  unfold verify_payload_checksum. rewrite decide_False by (by intros []). cbn [map_err mbind res_bind].
  rewrite (payload_cbor_roundtrip _ _ Hp). cbn [map_err mbind res_bind]. by rewrite Hv.
Qed.

End envelope_laws.

(** ** Activity *)
Lemma chunk_by_concat {A} (same : A → A → bool) l : concat (chunk_by same l) = l.
Proof.
  induction l as [|x l IH]; [done|]. cbn [chunk_by]. destruct (chunk_by same l) as [|[|y ys] chunks] eqn:E; cbn in *; [by subst| |].
  - by rewrite IH.
  - case_match; cbn; by rewrite IH.
Qed.

(** The bytes a revision counts, and the end it leaves for its content. *)
Definition counted_bytes (ends : list (ContentId * N)) (content_ref : ContentRef) : N :=
  match btree_get content_ref.(cref_content_id) ends with
  | Some end_ => if decide (end_ < content_ref.(cref_size_bytes)) then content_ref.(cref_size_bytes) - end_ else content_ref.(cref_size_bytes)
  | None => content_ref.(cref_size_bytes)
  end.

Definition counted_end (ends : list (ContentId * N)) (content_ref : ContentRef) : list (ContentId * N) :=
  match btree_get content_ref.(cref_content_id) ends with
  | Some end_ =>
      if decide (end_ < content_ref.(cref_size_bytes))
      then (btree_insert content_ref.(cref_content_id) content_ref.(cref_size_bytes) ends).2 else ends
  | None => ends
  end.

Fixpoint counted_total (ends : list (ContentId * N)) (refs : list ContentRef) : N :=
  match refs with
  | [] => 0
  | content_ref :: refs => counted_bytes ends content_ref + counted_total (counted_end ends content_ref) refs
  end.

Definition refs_in (deltas : list WalCommitDelta) : list ContentRef := fst <$> omap revision_of deltas.

Lemma counter_add_Some a b c : counter_checked_add a b = Some c ↔ c = a + b ∧ c ≤ MAX_PUBLIC_INTEGER.
Proof.
  unfold counter_checked_add, checked_add, ActivityCounter_parse. case_decide as H1; cbn.
  - case_decide; cbn; naive_solver lia.
  - split; [done|]. intros [-> Hle]. unfold MAX_PUBLIC_INTEGER, U64_MAX in *. lia.
Qed.

Lemma count_revisions deltas : ∀ ends activity ends' activity',
  try_fold count_revision (ends, activity) deltas = Some (ends', activity') →
  ends' = foldl counted_end ends (refs_in deltas) ∧
  activity' = mkManifestActivity (activity.(act_content_bytes) + counted_total ends (refs_in deltas))
    (activity.(act_file_revisions) + N.of_nat (length (refs_in deltas))) activity.(act_mutations).
Proof.
  unfold refs_in. induction deltas as [|delta deltas IH]; intros ends activity ends' activity' E; cbn [try_fold] in E.
  { injection E as <- <-. cbn. rewrite !N.add_0_r. by destruct activity. }
  apply bind_Some in E as ([ends1 activity1] & Ec & E). apply IH in E as [-> ->]. unfold count_revision in Ec. cbn [omap list_omap].
  destruct (revision_of delta) as [[r l]|]; cbn [fmap list_fmap fst]; [|by injection Ec as <- <-].
  fold (counted_bytes ends r) in *. cbn [foldl counted_total length].
  assert ((match btree_get r.(cref_content_id) ends with
        | Some end_ => if decide (end_ < r.(cref_size_bytes))
            then (r.(cref_size_bytes) - end_, (btree_insert r.(cref_content_id) r.(cref_size_bytes) ends).2)
            else (r.(cref_size_bytes), ends)
        | None => (r.(cref_size_bytes), ends)
        end) = (counted_bytes ends r, counted_end ends r)) as Epair.
  { unfold counted_bytes, counted_end. destruct (btree_get _ ends); [case_decide|]; done. }
  rewrite Epair in Ec. apply bind_Some in Ec as (cb & [-> _]%counter_add_Some & Ec).
  apply bind_Some in Ec as (fr & [-> _]%counter_add_Some & Ec). injection Ec as <- <-. cbn [act_content_bytes act_file_revisions act_mutations].
  split; [done|]. f_equal; lia.
Qed.

Lemma count_groups groups : ∀ ends activity ends' activity',
  try_fold count_group (ends, activity) groups = Some (ends', activity') →
  activity' = mkManifestActivity (activity.(act_content_bytes) + counted_total ends (refs_in (concat groups)))
    (activity.(act_file_revisions) + N.of_nat (length (refs_in (concat groups))))
    (activity.(act_mutations) + N.of_nat (length groups)).
Proof.
  assert (∀ refs refs' ends, counted_total ends (refs ++ refs') = counted_total ends refs + counted_total (foldl counted_end ends refs) refs') as Happ.
  { induction refs as [|r refs IH]; intros refs' ends; cbn; [lia|]. rewrite IH. lia. }
  induction groups as [|group groups IH]; intros ends activity ends' activity' E; cbn [try_fold] in E.
  { injection E as <- <-. cbn. rewrite !N.add_0_r. by destruct activity. }
  apply bind_Some in E as ([ends1 activity1] & Eg & E). apply IH in E as ->. unfold count_group in Eg.
  apply bind_Some in Eg as (mu & [-> _]%counter_add_Some & Eg). apply count_revisions in Eg as [-> ->].
  cbn [act_content_bytes act_file_revisions act_mutations concat length]. unfold refs_in.
  rewrite omap_app, fmap_app, Happ, length_app. f_equal; lia.
Qed.

Definition first_offset (entry : WalInlineContent) : option (ContentId * N) := Some (entry.(wic_content_id), entry.(wic_offset)).

Lemma counted_ends_ok record :
  ascending (counted_ends record) ∧
  ∀ content_id, btree_get content_id (counted_ends record) = list_min (wic_offset <$> pieces_of record content_id).
Proof.
  assert (counted_ends record = foldl (best_step first_offset N.min) [] record.(wcp_inline_content)) as ->.
  { unfold counted_ends. generalize (@nil (ContentId * N)) as m.
    induction record.(wcp_inline_content) as [|entry l IH]; intros m; [done|]. cbn [foldl]. rewrite IH. f_equal.
    unfold best_step. cbn. destruct (btree_get _ m); cbn; [done|]. by rewrite N.min_id. }
  destruct (best_by_key first_offset N.min record.(wcp_inline_content)) as [Ha Hget]. split; [done|].
  intros content_id. rewrite Hget. unfold list_min. f_equal. unfold values_at, pieces_of, pieces_at. clear Ha Hget.
  induction record.(wcp_inline_content) as [|entry l IH]; [done|]. cbn [omap list_omap]. rewrite filter_cons. cbn.
  case_decide; cbn; [f_equal|]; exact IH.
Qed.

Lemma counted_distinct refs : ∀ ends, ascending ends → NoDup (cref_content_id <$> refs) →
  counted_total ends refs = foldr (λ r total, counted_bytes ends r + total) 0 refs.
Proof.
  induction refs as [|r refs IH]; intros ends Ha Hnd; [done|]. cbn [counted_total foldr]. f_equal.
  rewrite fmap_cons in Hnd. apply NoDup_cons in Hnd as [Hr Hnd].
  assert (ascending (counted_end ends r)) as Ha'.
  { unfold counted_end. destruct (btree_get _ ends); [case_decide|]; [by apply btree_insert_ascending|done..]. }
  rewrite IH by done. clear -Ha Hr. induction refs as [|r' refs IH]; [done|]. cbn [foldr].
  rewrite fmap_cons in Hr. apply not_elem_of_cons in Hr as [Hne Hr]. rewrite (IH Hr). f_equal.
  unfold counted_bytes at 1 2. assert (btree_get r'.(cref_content_id) (counted_end ends r) = btree_get r'.(cref_content_id) ends) as ->; [|done].
  unfold counted_end. destruct (btree_get r.(cref_content_id) ends); [case_decide|done]; [|done].
  rewrite btree_get_insert by done. by rewrite decide_False.
Qed.

Lemma tiles_bytes l : ∀ start stop, tiles start l stop → stop = start + pieces_bytes l.
Proof. induction l as [|e l IH]; intros start stop; cbn; [lia|]. intros [_ H%IH]. unfold pieces_bytes in H. lia. Qed.

Lemma pieces_bytes_perm l l' : l ≡ₚ l' → pieces_bytes l = pieces_bytes l'.
Proof. induction 1; cbn in *; unfold pieces_bytes in *; lia. Qed.

(** The bytes a revision adds: its pieces, or its whole content. *)
Definition added_bytes (record : WalCommitPayload) (content_ref : ContentRef) : N :=
  match pieces_of record content_ref.(cref_content_id) with
  | [] => content_ref.(cref_size_bytes)
  | pieces => pieces_bytes pieces
  end.

Lemma counted_added namespace_id record r :
  inline_ok namespace_id record →
  (∀ entry, entry ∈ record.(wcp_inline_content) → piece_bytes entry = 0 → entry.(wic_offset) = 0) →
  NoDup (cref_content_id <$> (revisions_of record).*1) → r ∈ (revisions_of record).*1 →
  counted_bytes (counted_ends record) r = added_bytes record r.
Proof.
  intros Hok Hzero Hnd Hr. unfold counted_bytes, added_bytes. destruct (counted_ends_ok record) as [_ ->].
  destruct (pieces_of record r.(cref_content_id)) as [|e es] eqn:Ep; [done|]. rewrite <-Ep.
  destruct (io_tiled _ _ Hok r.(cref_content_id)) as (start & stop & _ & [(r' & l & Hr' & Hid & Hsize) _] & ordered & Hp & Ht); [by rewrite Ep|].
  assert (r' = r) as ->.
  { apply (NoDup_fmap_elem cref_content_id (revisions_of record).*1); [done| |done|done]. by apply (list_elem_of_fmap_2 fst) in Hr'. }
  pose proof (tiles_bytes _ _ _ Ht) as Hbytes. rewrite (pieces_bytes_perm _ _ Hp) in Hbytes.
  destruct ordered as [|x ordered]; [rewrite Ep in Hp; by apply Permutation_nil_l in Hp|].
  pose proof (tiles_sorted _ _ _ Ht) as [_ Hge]. destruct Ht as [Hx Ht]. rewrite Forall_forall in Hge.
  assert (list_min (wic_offset <$> pieces_of record r.(cref_content_id)) = Some start) as ->.
  { apply list_min_Some. split.
    - rewrite <-Hx, <-Hp. apply list_elem_of_fmap_2. by left.
    - intros y (e' & -> & He')%list_elem_of_fmap. apply Hge. by rewrite Hp. }
  assert (x ∈ record.(wcp_inline_content)) as Hxin.
  { assert (x ∈ pieces_of record r.(cref_content_id)) as Hin by (rewrite <-Hp; by left). by apply list_elem_of_filter in Hin as [_ ?]. }
  case_decide as Hlt; [lia|]. assert (pieces_bytes (pieces_of record r.(cref_content_id)) = 0) as H0 by lia.
  rewrite <-(pieces_bytes_perm _ _ Hp) in H0. cbn in H0. assert (piece_bytes x = 0) as Hx0 by lia.
  specialize (Hzero x Hxin Hx0). lia.
Qed.

(** ** The theorems *)

(** C21 The WAL codec accepts exactly the objects that follow the rules and
    gives back what was written.  An object passes the checks exactly when,
    in every commit, each piece is small, no piece repeats another's position,
    every content with pieces has a reference that its pieces end at without
    gaps or overlaps and a layout of this namespace, each revision's layout
    stores exactly the bytes before its pieces, file binds carry a revision
    summary and directory binds none, and a merge covers commits of another
    namespace; and the pieces of the object are small together.  An encoder
    that returns has checked its object, and a decoder gives back the same
    envelope when the document is within the limit; whatever a decoder returns
    follows the rules. *)
Theorem wal_codec_exact `{SectionCodecLaws} `{WalCodecLaws} :
  (∀ payload, validate_wal_payload payload = Ok () ↔ wal_object_ok payload) ∧
  (∀ payload encoded, encode_wal_object_envelope_zstd payload = Ok encoded →
     encoded.(ee_envelope).(ve_payload) = payload ∧ wal_object_ok payload ∧
     (encoded.(ee_document_bytes) ≤ MAX_WAL_OBJECT_BYTES →
        decode_wal_object_envelope_zstd encoded.(ee_bytes) = Ok encoded.(ee_envelope))) ∧
  (∀ stored envelope, decode_wal_object_envelope_zstd stored = Ok envelope → wal_object_ok envelope.(ve_payload)).
Proof. split_and!; [apply wal_payload_exact|apply encode_wal_exact|apply decode_wal_exact]. Qed.


(** ** An append *)
Module wal_example.

Definition checksum : Checksum := mkChecksum Crc32c "00000000".
Definition content_ref : ContentRef := mkContentRef BlobV1 "con_a" 7 checksum.
Definition delta : WalDelta :=
  AppendFileRevision 0 6 ROOT_INODE_ID "a" "a" (mkDeltaPosition 1 1) "user" 10 2 content_ref None (Some 4).
Definition record : WalCommitPayload :=
  mkWalCommitPayload 2 "commit2" "user" "fingerprint" 20 None None [mkWalCommitDelta 0 delta]
    [mkWalInlineContent "con_a" 4 [1; 2; 3]].
Definition payload : WalObjectPayload := mkWalObjectPayload "namespace" 2 1 2 [record].
Definition payload_bytes : bytes := [byte 1].
Definition document : WalObjectDocument := mkWalObjectDocument WAL_OBJECT_KIND WAL_FORMAT_VERSION "digest" payload_bytes.
Definition document_bytes : bytes := [byte 2].

#[local] Instance document_eq_dec : EqDecision WalObjectDocument.
Proof. solve_decision. Defined.

(** Codecs that know one object. *)
Definition section_codecs : SectionCodecs :=
  {| zstd_compress := λ l, Ok l; zstd_read := λ l limit, Ok (take (N.to_nat limit) l); crc32c := λ _, 0; xxh64 := λ _ _, 0 |}.
Definition wal_codecs : WalCodecs :=
  {| payload_to_cbor := λ p, if decide (p = payload) then Ok payload_bytes else Err "payload";
     payload_from_cbor := λ b, if decide (b = payload_bytes) then Ok payload else Err "payload";
     document_to_cbor := λ d, if decide (d = document) then Ok document_bytes else Err "document";
     document_from_cbor := λ b, if decide (b = document_bytes) then Ok document else Err "document";
     probe_from_cbor := λ b, if decide (b = document_bytes) then Ok (mkEnvelopeProbe WAL_OBJECT_KIND WAL_FORMAT_VERSION) else Err "probe";
     sha256_digest := λ _, "digest" |}.
#[local] Existing Instance section_codecs.
#[local] Existing Instance wal_codecs.

Lemma section_laws : SectionCodecLaws.
Proof. by intros l stored limit [= <-]. Qed.
Lemma wal_laws : WalCodecLaws.
Proof.
  split; cbn.
  - intros p b. case_decide; [|done]. by intros [= <-]; subst.
  - intros d b. case_decide; [|done]. by intros [= <-]; subst.
  - intros d b. case_decide; [|done]. by intros [= <-]; subst.
Qed.

Definition encoded : EncodedEnvelope WalObjectPayload :=
  mkEncodedEnvelope (mkVerifiedEnvelope "digest" payload) document_bytes 1.

Lemma wal_codec_exact_witness :
  encode_wal_object_envelope_zstd payload = Ok encoded ∧ wal_object_ok payload ∧
  decode_wal_object_envelope_zstd document_bytes = Ok encoded.(ee_envelope).
Proof.
  destruct (wal_codec_exact (H0 := section_laws) (H2 := wal_laws)) as (_ & Hencode & _).
  assert (encode_wal_object_envelope_zstd payload = Ok encoded) as E by (vm_compute; reflexivity).
  destruct (Hencode payload encoded E) as (_ & Hok & Hdecode). split_and!; [exact E|exact Hok|].
  apply Hdecode. apply (bool_decide_unpack _). vm_compute. exact I.
Defined.

End wal_example.
