(* ===== verification/ProjectedTail.v ===== *)
(** * The projected WAL tail

    [loonfs-core/src/wal/projected_tail.rs]: the rows and the unfolded content
    pieces of the WAL objects after a manifest, one chunk per object.  Chunks
    are shared values that nothing changes after they are built.  The heap
    sizes that the chunks report to the read cache are not modelled. *)
From S2P Require Import Prelude Types Records Manifest SegmentBlocks MetadataState CommitSafety Wal.
Local Open Scope N_scope.

Inductive WalObjectError : Set :=
| NamespaceMismatch (expected actual : NamespaceId)
| NonContiguousSeq (expected actual : ChangeSeq)
| WalObjectCodec (object_key : string) (error : WalCodecError)
| SeqOverflow
| ActivityOverflow
| WriterEpochMismatch (expected_max actual : WriterEpoch)
| SummaryMismatch.

(** ** Contents *)
Record ProjectedPiece := mkProjectedPiece { pp_offset : N; pp_bytes : list N }.
#[export] Instance ProjectedPiece_eq_dec : EqDecision ProjectedPiece.
Proof. solve_decision. Defined.

Definition pp_len (piece : ProjectedPiece) : N := N.of_nat (length piece.(pp_bytes)).

(** [ProjectedPiece::end]. *)
Definition pp_end (piece : ProjectedPiece) : N := piece.(pp_offset) + pp_len piece.

Record ProjectedContent := mkProjectedContent {
  pc_content_ref : ContentRef;
  pc_committed_seq : ChangeSeq;
  pc_pieces : list ProjectedPiece;
}.
#[export] Instance ProjectedContent_eq_dec : EqDecision ProjectedContent.
Proof. solve_decision. Defined.

(** [binary_search_by_key] on pieces in the order of their offsets, with one
    piece at most per offset: [inl] is [Ok], [inr] is [Err]. *)
Fixpoint search_offset (offset : N) (pieces : list ProjectedPiece) : nat + nat :=
  match pieces with
  | [] => inr 0%nat
  | piece :: rest =>
      match N.compare piece.(pp_offset) offset with
      | Lt => match search_offset offset rest with inl i => inl (S i) | inr i => inr (S i) end
      | Eq => inl 0%nat
      | Gt => inr 0%nat
      end
  end.

Definition ProjectedContent_new (content_ref : ContentRef) (committed_seq : ChangeSeq) : ProjectedContent :=
  mkProjectedContent content_ref committed_seq [].

(** [ProjectedContent::insert_piece], with the piece it replaced. *)
Definition content_insert_piece (content : ProjectedContent) (content_ref : ContentRef) (piece : ProjectedPiece)
    (committed_seq : ChangeSeq) : option ProjectedPiece * ProjectedContent :=
  let longer := decide (content.(pc_content_ref).(cref_size_bytes) < content_ref.(cref_size_bytes)) in
  let content_ref' := if longer then content_ref else content.(pc_content_ref) in
  let committed_seq' := if longer then committed_seq else content.(pc_committed_seq) in
  match search_offset piece.(pp_offset) content.(pc_pieces) with
  | inl index =>
      (content.(pc_pieces) !! index, mkProjectedContent content_ref' committed_seq' (<[index := piece]> content.(pc_pieces)))
  | inr index =>
      (None, mkProjectedContent content_ref' committed_seq'
               (take index content.(pc_pieces) ++ piece :: drop index content.(pc_pieces)))
  end.

(** [ProjectedContent::combine]. *)
Definition content_combine (content later : ProjectedContent) : ProjectedContent :=
  foldl (λ content piece, (content_insert_piece content later.(pc_content_ref) piece later.(pc_committed_seq)).2)
    content later.(pc_pieces).

(** ** Chunks *)
Record TailChunk := mkTailChunk {
  tc_first_seq : ChangeSeq;
  tc_rows : MetadataState;
  tc_activity : ManifestActivity;
  tc_contents : list ProjectedContent;
  tc_content_positions : gmap ContentId nat;
  tc_inline_bytes : N;
  tc_wal_bytes : N;
}.

(** [inline_content_refs]: the largest reference of the commit to an
    entry's content. *)
Definition inline_content_ref (record : WalCommitPayload) (entry : WalInlineContent) : option ContentRef :=
  max_by_key cref_size_bytes
    (filter (λ content_ref, content_ref.(cref_content_id) = entry.(wic_content_id)) (revisions_of record).*1).

Section tail.
Context `{HeapBytes}.

Definition TailChunk_new (first_seq : ChangeSeq) (rows : MetadataState) : TailChunk :=
  mkTailChunk first_seq rows activity_default [] ∅ 0 0.

(** [usize] subtraction, which panics below zero. *)
Definition checked_sub {E} (a b : N) : res E N := if decide (b ≤ a) then Ok (a - b) else Panic.

(** [TailChunk::insert_piece]. *)
Definition chunk_insert_piece {E} (chunk : TailChunk) (content_ref : ContentRef) (entry : WalInlineContent)
    (committed_seq : ChangeSeq) : res E TailChunk :=
  let '(position, positions, contents) :=
    match chunk.(tc_content_positions) !! content_ref.(cref_content_id) with
    | Some position => (position, chunk.(tc_content_positions), chunk.(tc_contents))
    | None =>
        (length chunk.(tc_contents),
         <[content_ref.(cref_content_id) := length chunk.(tc_contents)]> chunk.(tc_content_positions),
         chunk.(tc_contents) ++ [ProjectedContent_new content_ref committed_seq])
    end in
  content ← expect (contents !! position);
  let piece := mkProjectedPiece entry.(wic_offset) entry.(wic_bytes) in
  let '(replaced, content) := content_insert_piece content content_ref piece committed_seq in
  let inline_bytes := chunk.(tc_inline_bytes) + piece_bytes entry in
  inline_bytes ← match replaced with
                 | Some replaced => checked_sub inline_bytes (pp_len replaced)
                 | None => Ok inline_bytes
                 end;
  Ok (mkTailChunk chunk.(tc_first_seq) chunk.(tc_rows) chunk.(tc_activity) (<[position := content]> contents)
        positions inline_bytes chunk.(tc_wal_bytes)).

Fixpoint insert_pieces {E} (record : WalCommitPayload) (chunk : TailChunk) (entries : list WalInlineContent) : res E TailChunk :=
  match entries with
  | [] => Ok chunk
  | entry :: rest =>
      content_ref ← expect (inline_content_ref record entry);
      chunk ← chunk_insert_piece chunk content_ref entry record.(wcp_committed_seq);
      insert_pieces record chunk rest
  end.

(** One commit of [TailChunk::from_records]. *)
Definition chunk_push_record (chunk : TailChunk) (record : WalCommitPayload) : res WalObjectError TailChunk :=
  activity ← ok_or (activity ← committed_activity record; activity_checked_add chunk.(tc_activity) activity) ActivityOverflow;
  chunk ← insert_pieces record chunk record.(wcp_inline_content);
  Ok (mkTailChunk chunk.(tc_first_seq) (apply_committed_wal_record_mut chunk.(tc_rows) record) activity
        chunk.(tc_contents) chunk.(tc_content_positions) chunk.(tc_inline_bytes) chunk.(tc_wal_bytes)).

Fixpoint chunk_push_records (chunk : TailChunk) (records : list WalCommitPayload) : res WalObjectError TailChunk :=
  match records with
  | [] => Ok chunk
  | record :: rest => chunk ← chunk_push_record chunk record; chunk_push_records chunk rest
  end.

(** [TailChunk::from_records]. *)
Definition TailChunk_from_records (records : list WalCommitPayload) (wal_bytes : N) : res WalObjectError TailChunk :=
  first ← expect (head records);
  chunk_push_records
    (mkTailChunk first.(wcp_committed_seq) MetadataState_default activity_default [] ∅ 0 wal_bytes) records.

(** [TailChunk::content]; the index panics when it is out of range. *)
Definition chunk_content {E} (chunk : TailChunk) (content_ref : ContentRef) : res E (option ProjectedContent) :=
  match chunk.(tc_content_positions) !! content_ref.(cref_content_id) with
  | None => Ok None
  | Some position => content ← expect (chunk.(tc_contents) !! position); Ok (Some content)
  end.

(** ** The tail *)
Record ProjectedWalTail := mkProjectedWalTail {
  pt_chunks : list TailChunk;
  pt_activity : ManifestActivity;
  pt_inline_bytes : N;
  pt_wal_bytes : N;
}.
Definition ProjectedWalTail_default : ProjectedWalTail := mkProjectedWalTail [] activity_default 0 0.

Definition ProjectedWalTail_from_rows (rows : MetadataState) : ProjectedWalTail :=
  mkProjectedWalTail [TailChunk_new 0 rows] activity_default 0 0.

Definition push_chunk (tail : ProjectedWalTail) (chunk : TailChunk) : res WalObjectError ProjectedWalTail :=
  activity ← ok_or (activity_checked_add tail.(pt_activity) chunk.(tc_activity)) ActivityOverflow;
  Ok (mkProjectedWalTail (tail.(pt_chunks) ++ [chunk]) activity (tail.(pt_inline_bytes) + chunk.(tc_inline_bytes))
        (tail.(pt_wal_bytes) + chunk.(tc_wal_bytes))).

Definition push_object (tail : ProjectedWalTail) (records : list WalCommitPayload) (wal_bytes : N)
    : res WalObjectError ProjectedWalTail :=
  if bool_decide (records = []) then Ok tail
  else chunk ← TailChunk_from_records records wal_bytes; push_chunk tail chunk.

(** [ProjectedWalTail::after_seq]. *)
Fixpoint push_chunks (tail : ProjectedWalTail) (chunks : list TailChunk) : res WalObjectError ProjectedWalTail :=
  match chunks with
  | [] => Ok tail
  | chunk :: rest => tail ← push_chunk tail chunk; push_chunks tail rest
  end.

Definition after_seq {E} (tail : ProjectedWalTail) (seq head_seq : ChangeSeq) : res E (option ProjectedWalTail) :=
  let chunks := filter (λ chunk, seq < chunk.(tc_first_seq)) tail.(pt_chunks) in
  match push_chunks ProjectedWalTail_default chunks with
  | Ok after =>
      let ends_a_chunk :=
        match head after.(pt_chunks) with
        | Some first => bool_decide (next_public_ordinal seq = Some first.(tc_first_seq))
        | None => bool_decide (seq = head_seq)
        end in
      Ok (if ends_a_chunk then Some after else None)
  | Err _ | Panic => Panic
  | OutOfFuel => OutOfFuel
  end.

(** [ProjectedWalTail::row_states]. *)
Definition tail_row_states (tail : ProjectedWalTail) (visible_seq : ChangeSeq) : list MetadataState :=
  tc_rows <$> filter (λ chunk, chunk.(tc_first_seq) ≤ visible_seq) (reverse tail.(pt_chunks)).

(** [ProjectedWalTail::content]. *)
Fixpoint combine_found {E} (combined : option ProjectedContent) (chunks : list TailChunk) (content_ref : ContentRef)
    : res E (option ProjectedContent) :=
  match chunks with
  | [] => Ok combined
  | chunk :: rest =>
      found ← chunk_content chunk content_ref;
      combine_found
        (match combined, found with
         | combined, None => combined
         | None, Some found => Some found
         | Some combined, Some later => Some (content_combine combined later)
         end) rest content_ref
  end.
Definition tail_content {E} (tail : ProjectedWalTail) (content_ref : ContentRef) : res E (option ProjectedContent) :=
  combine_found None tail.(pt_chunks) content_ref.

(** [ProjectedWalTail::contents]. *)
Definition combine_content {E} (acc : gmap ContentId nat * list ProjectedContent) (content : ProjectedContent)
    : res E (gmap ContentId nat * list ProjectedContent) :=
  let '(positions, combined) := acc in
  match positions !! content.(pc_content_ref).(cref_content_id) with
  | Some position =>
      earlier ← expect (combined !! position);
      Ok (positions, <[position := content_combine earlier content]> combined)
  | None =>
      Ok (<[content.(pc_content_ref).(cref_content_id) := length combined]> positions, combined ++ [content])
  end.
Fixpoint combine_contents {E} (acc : gmap ContentId nat * list ProjectedContent) (contents : list ProjectedContent)
    : res E (gmap ContentId nat * list ProjectedContent) :=
  match contents with
  | [] => Ok acc
  | content :: rest => acc ← combine_content acc content; combine_contents acc rest
  end.
Definition tail_contents {E} (tail : ProjectedWalTail) : res E (list ProjectedContent) :=
  '(_, combined) ← combine_contents (∅, []) (concat (tc_contents <$> tail.(pt_chunks)));
  Ok combined.

(** [ProjectedWalTail::combined_rows]. *)
Definition combined_rows (tail : ProjectedWalTail) : MetadataState :=
  let rows := tc_rows <$> tail.(pt_chunks) in
  from_rows (rows ≫= ms_inodes) (rows ≫= ms_direntry_binds) (rows ≫= ms_revisions) (rows ≫= ms_subtree_tombstones)
    (rows ≫= ms_commit_receipts) (rows ≫= ms_commits) (rows ≫= ms_attributes_revisions) (rows ≫= ms_content_layouts)
    (rows ≫= ms_access_revisions).

Definition tail_revisions (tail : ProjectedWalTail) : list RevisionRecord := (tc_rows <$> tail.(pt_chunks)) ≫= ms_revisions.
Definition tail_content_layouts (tail : ProjectedWalTail) : list ContentLayoutRecord := (tc_rows <$> tail.(pt_chunks)) ≫= ms_content_layouts.

(** [ProjectedWalTail::find_commit_receipt]. *)
Definition tail_find_commit_receipt (tail : ProjectedWalTail) (commit_id : CommitId) : option CommitReceiptRecord :=
  head (omap (λ chunk, find_commit_receipt chunk.(tc_rows) commit_id) (reverse tail.(pt_chunks))).
End tail.

(** ** Pieces *)
Definition offsets_sorted (pieces : list ProjectedPiece) : Prop :=
  StronglySorted (λ a b, a.(pp_offset) < b.(pp_offset)) pieces.

Definition pieces_map (pieces : list ProjectedPiece) : gmap N (list N) :=
  list_to_map ((λ piece, (piece.(pp_offset), piece.(pp_bytes))) <$> pieces).

Definition projected_bytes (pieces : list ProjectedPiece) : N := foldr (λ piece total, pp_len piece + total) 0 pieces.

(** The list that [content_insert_piece] builds. *)
Fixpoint put_piece (piece : ProjectedPiece) (pieces : list ProjectedPiece) : list ProjectedPiece :=
  match pieces with
  | [] => [piece]
  | p :: rest =>
      match N.compare p.(pp_offset) piece.(pp_offset) with
      | Lt => p :: put_piece piece rest
      | Eq => piece :: rest
      | Gt => piece :: p :: rest
      end
  end.

Lemma insert_puts content content_ref piece committed_seq :
  (content_insert_piece content content_ref piece committed_seq).2.(pc_pieces) = put_piece piece content.(pc_pieces).
Proof.
  unfold content_insert_piece. generalize content.(pc_pieces) as l. induction l as [|p l IH]; [done|]. cbn [search_offset put_piece].
  destruct (N.compare p.(pp_offset) piece.(pp_offset)); [done| |done].
  destruct (search_offset piece.(pp_offset) l); cbn in *; f_equal; exact IH.
Qed.

Lemma put_piece_elem piece pieces p : offsets_sorted pieces →
  p ∈ put_piece piece pieces ↔ p = piece ∨ p ∈ pieces ∧ p.(pp_offset) ≠ piece.(pp_offset).
Proof.
  induction 1 as [|x l Hs IH Hlt]; cbn [put_piece]; [rewrite list_elem_of_singleton; set_solver|].
  rewrite Forall_forall in Hlt. destruct (N.compare_spec x.(pp_offset) piece.(pp_offset)) as [E|E|E]; rewrite !elem_of_cons.
  - split.
    + intros [->|Hp]; [by left|]. right. split; [by right|]. specialize (Hlt p Hp). cbn in Hlt. lia.
    + intros [->|[[->|Hp] Hne]]; [by left|done|by right].
  - rewrite IH. split; [|tauto]. intros [->|[->|[Hp Hne]]]; [right; split; [by left|lia]|by left|right; tauto].
  - split; [|tauto]. intros [->|[->|Hp]]; [by left|right; split; [by left|lia]|].
    right. split; [by right|]. specialize (Hlt p Hp). cbn in Hlt. lia.
Qed.

Lemma put_piece_sorted piece pieces : offsets_sorted pieces → offsets_sorted (put_piece piece pieces).
Proof.
  induction 1 as [|x l Hs IH Hlt]; cbn [put_piece]; [repeat constructor|].
  destruct (N.compare_spec x.(pp_offset) piece.(pp_offset)) as [E|E|E].
  - constructor; [done|]. eapply Forall_impl; [done|]. cbn. lia.
  - constructor; [done|]. apply Forall_forall. intros p Hp. apply put_piece_elem in Hp; [|done].
    rewrite Forall_forall in Hlt. destruct Hp as [->|[Hp _]]; [done|by apply Hlt].
  - constructor; [by constructor|]. constructor; [done|]. eapply Forall_impl; [done|]. cbn. lia.
Qed.

Lemma pieces_map_elem pieces offset bytes : offsets_sorted pieces →
  pieces_map pieces !! offset = Some bytes ↔ mkProjectedPiece offset bytes ∈ pieces.
Proof.
  intros Hs. unfold pieces_map. rewrite <-elem_of_list_to_map.
  - rewrite list_elem_of_fmap. split; [by intros ([] & [= -> ->] & ?)|]. intros Hp. by exists (mkProjectedPiece offset bytes).
  - rewrite <-list_fmap_compose. cbn. induction Hs as [|x l _ IH Hlt]; [constructor|]. cbn. constructor; [|done].
    intros (y & E & Hy)%list_elem_of_fmap. rewrite Forall_forall in Hlt. specialize (Hlt y Hy). cbn in *. lia.
Qed.

Lemma put_piece_map piece pieces : offsets_sorted pieces →
  pieces_map (put_piece piece pieces) = <[piece.(pp_offset) := piece.(pp_bytes)]> (pieces_map pieces).
Proof.
  intros Hs. apply map_eq. intros offset. apply option_eq. intros bytes.
  rewrite pieces_map_elem by by apply put_piece_sorted. rewrite put_piece_elem by done.
  destruct (decide (offset = piece.(pp_offset))) as [->|Hne].
  - rewrite lookup_insert_eq. destruct piece. cbn. naive_solver.
  - rewrite lookup_insert_ne, pieces_map_elem by done. destruct piece. cbn in *. naive_solver.
Qed.

(** The piece that an insertion replaces is the one at its offset, and the
    bytes add up. *)
Lemma insert_replaced content content_ref piece committed_seq :
  let inserted := content_insert_piece content content_ref piece committed_seq in
  projected_bytes inserted.2.(pc_pieces) + match inserted.1 with Some replaced => pp_len replaced | None => 0 end
  = projected_bytes content.(pc_pieces) + pp_len piece ∧
  (∀ replaced, inserted.1 = Some replaced → replaced ∈ content.(pc_pieces)).
Proof.
  cbv zeta. rewrite insert_puts. unfold content_insert_piece. generalize content.(pc_pieces) as l.
  induction l as [|p l IH]; cbn [search_offset put_piece]; [split; [cbn; lia|done]|].
  destruct (N.compare p.(pp_offset) piece.(pp_offset)); cbn.
  - split; [unfold projected_bytes; lia|]. intros r [= <-]. by left.
  - destruct (search_offset piece.(pp_offset) l); cbn in *; destruct IH as [IH1 IH2]; unfold projected_bytes in *.
    + split; [rewrite <-!N.add_assoc; f_equal; exact IH1|]. intros r Hr. right. by apply IH2.
    + split; [rewrite <-!N.add_assoc; f_equal; exact IH1|done].
  - split; [unfold projected_bytes; lia|done].
Qed.

(** ** Contents as the pieces written to them *)

(** A piece with the reference and the sequence it was written with. *)
Record piece_event := mkPieceEvent { pe_content_ref : ContentRef; pe_committed_seq : ChangeSeq; pe_piece : ProjectedPiece }.

Definition write_piece (content : ProjectedContent) (event : piece_event) : ProjectedContent :=
  (content_insert_piece content event.(pe_content_ref) event.(pe_piece) event.(pe_committed_seq)).2.

(** The content after a list of writes. *)
Definition written_content (events : list piece_event) : option ProjectedContent :=
  match events with
  | [] => None
  | event :: _ => Some (foldl write_piece (ProjectedContent_new event.(pe_content_ref) event.(pe_committed_seq)) events)
  end.

Definition content_pair (content : ProjectedContent) : ContentRef * ChangeSeq := (content.(pc_content_ref), content.(pc_committed_seq)).
Definition event_pair (event : piece_event) : ContentRef * ChangeSeq := (event.(pe_content_ref), event.(pe_committed_seq)).

(** The longer reference, the earlier one of two alike. *)
Definition longer (a b : ContentRef * ChangeSeq) : ContentRef * ChangeSeq :=
  if decide (a.1.(cref_size_bytes) < b.1.(cref_size_bytes)) then b else a.

Lemma longer_assoc a b c : longer (longer a b) c = longer a (longer b c).
Proof. unfold longer. repeat case_decide; try done; lia. Qed.

Lemma longer_twice a b : longer (longer a b) b = longer a b.
Proof. unfold longer. repeat case_decide; done || lia. Qed.

Lemma longer_foldl a b l : foldl longer a (b :: l) = longer a (foldl longer b l).
Proof. revert b. induction l as [|c l IH]; intros b; [done|]. cbn [foldl] in *. rewrite longer_assoc. apply IH. Qed.

Lemma write_pair content event : content_pair (write_piece content event) = longer (content_pair content) (event_pair event).
Proof.
  unfold write_piece, content_insert_piece, content_pair, longer. cbn.
  destruct (search_offset _ _); cbn; by case_decide.
Qed.

Lemma write_pieces content event : (write_piece content event).(pc_pieces) = put_piece event.(pe_piece) content.(pc_pieces).
Proof. apply insert_puts. Qed.

(** The pieces that a list of writes leaves. *)
Definition events_map (events : list piece_event) : gmap N (list N) :=
  foldl (λ m event, <[event.(pe_piece).(pp_offset) := event.(pe_piece).(pp_bytes)]> m) ∅ events.

Lemma events_map_from events : ∀ m : gmap N (list N),
  foldl (λ m event, <[event.(pe_piece).(pp_offset) := event.(pe_piece).(pp_bytes)]> m) m events = events_map events ∪ m.
Proof.
  unfold events_map. induction events as [|event events IH] using rev_ind; intros m; [cbn; by rewrite (left_id_L ∅ (∪))|].
  rewrite !foldl_app. cbn. rewrite IH. by rewrite insert_union_l.
Qed.

Lemma foldl_write content events : offsets_sorted content.(pc_pieces) →
  let content' := foldl write_piece content events in
  content_pair content' = foldl longer (content_pair content) (event_pair <$> events) ∧
  offsets_sorted content'.(pc_pieces) ∧ pieces_map content'.(pc_pieces) = events_map events ∪ pieces_map content.(pc_pieces).
Proof.
  cbv zeta. revert content. induction events as [|event events IH]; intros content Hs; cbn [foldl fmap list_fmap].
  { split_and!; [done|done|]. unfold events_map. cbn. by rewrite (left_id_L ∅ (∪)). }
  destruct (IH (write_piece content event)) as (Hp & Hs' & Hm).
  { rewrite write_pieces. by apply put_piece_sorted. }
  rewrite Hp, Hm, write_pair, write_pieces, put_piece_map by done. split_and!; [done|done|].
  change (events_map (event :: events)) with
    (foldl (λ m e, <[e.(pe_piece).(pp_offset) := e.(pe_piece).(pp_bytes)]> m) (<[event.(pe_piece).(pp_offset) := event.(pe_piece).(pp_bytes)]> (∅ : gmap N (list N))) events).
  rewrite events_map_from, <-(assoc_L (∪)). f_equal. by rewrite insert_union_singleton_l, insert_empty.
Qed.

Lemma content_eq a b : content_pair a = content_pair b → offsets_sorted a.(pc_pieces) → offsets_sorted b.(pc_pieces) →
  pieces_map a.(pc_pieces) = pieces_map b.(pc_pieces) → a = b.
Proof.
  destruct a as [ra sa la], b as [rb sb lb]. cbn [pc_pieces]. intros [= -> ->] Ha Hb Em. f_equal.
  assert (∀ p, p ∈ la ↔ p ∈ lb) as Hel.
  { intros [o bytes]. etrans; [symmetry; apply pieces_map_elem, Ha|]. rewrite Em. apply pieces_map_elem, Hb. }
  assert (∀ l, offsets_sorted l → NoDup l) as Hnd.
  { clear. induction 1 as [|x l _ IH Hlt]; [constructor|]. constructor; [|done]. intros Hx. rewrite Forall_forall in Hlt.
    specialize (Hlt x Hx). cbn in Hlt. lia. }
  eapply (StronglySorted_unique_strong (λ a b, a.(pp_offset) < b.(pp_offset))); [|done|done|by apply NoDup_Permutation; auto].
  intros x y _ _ Hx Hy. cbn in *. lia.
Qed.

Lemma events_map_pieces content_ref seq pieces : offsets_sorted pieces →
  events_map (mkPieceEvent content_ref seq <$> pieces) = pieces_map pieces.
Proof.
  induction pieces as [|piece pieces IH] using rev_ind; [done|]. intros Hs. unfold events_map, pieces_map in *.
  rewrite !fmap_app, foldl_app. cbn. rewrite IH.
  - symmetry. apply list_to_map_snoc. rewrite <-list_fmap_compose. intros (p & E & Hp)%list_elem_of_fmap. cbn in E.
    apply sorted_app_inv in Hs as (_ & _ & Hlt). specialize (Hlt p piece Hp ltac:(by left)). cbn in Hlt. lia.
  - by apply sorted_app_inv in Hs as (? & _).
Qed.

Lemma longer_repeat a b l : l ≠ [] → (∀ x, x ∈ l → x = b) → foldl longer a l = longer a b.
Proof.
  destruct l as [|x l]; [done|]. intros _ Hall. cbn. rewrite (Hall x) by by left.
  assert (∀ y, y ∈ l → y = b) as Hl by (intros; apply Hall; by right). clear Hall. revert a.
  induction l as [|y l IH]; intros a; [done|]. cbn. rewrite (Hl y) by by left. rewrite longer_twice. apply IH. intros; apply Hl; by right.
Qed.

Lemma written_pieces content events : events ≠ [] → (foldl write_piece content events).(pc_pieces) ≠ [].
Proof.
  destruct events as [|event events _] using rev_ind; [done|]. intros _. rewrite foldl_app. cbn [foldl]. rewrite write_pieces.
  destruct (pc_pieces _) as [|p l]; cbn; [done|]. by case_match.
Qed.

(** Combining a later chunk's content replays its writes. *)
Lemma combine_writes content later events : offsets_sorted content.(pc_pieces) →
  written_content events = Some later → content_combine content later = foldl write_piece content events.
Proof.
  destruct events as [|event events]; [done|]. intros Hs E. set (l := event :: events) in *.
  set (start := ProjectedContent_new event.(pe_content_ref) event.(pe_committed_seq)).
  assert (later = foldl write_piece start l) as Elater by (by injection E). clear E.
  pose proof (foldl_write start l (SSorted_nil _)) as Hlater. pose proof (foldl_write content l Hs) as Hwritten. cbv zeta in Hlater, Hwritten.
  rewrite <-Elater in Hlater. destruct Hlater as (Hlp & Hls & Hlm). destruct Hwritten as (Hp & Hs' & Hm).
  change (pieces_map start.(pc_pieces)) with (∅ : gmap N (list N)) in Hlm. rewrite (right_id_L ∅ (∪)) in Hlm.
  set (replayed := mkPieceEvent later.(pc_content_ref) later.(pc_committed_seq) <$> later.(pc_pieces)).
  assert (content_combine content later = foldl write_piece content replayed) as ->
    by (unfold content_combine, replayed; by rewrite foldl_fmap).
  destruct (foldl_write content replayed Hs) as (Hp2 & Hs2 & Hm2). apply content_eq; [|done|done|].
  - rewrite Hp, Hp2. rewrite (longer_repeat _ (content_pair later)); [|intros E|].
    + rewrite Hlp. unfold l. rewrite fmap_cons. cbn [foldl]. rewrite <-longer_foldl. cbn [foldl].
      change (content_pair start) with (event_pair event). f_equal.
      unfold longer at 2. rewrite decide_False by lia. done.
    + apply fmap_nil_inv, fmap_nil_inv in E. rewrite Elater in E. by apply written_pieces in E.
    + intros x (y & -> & Hy)%list_elem_of_fmap. apply list_elem_of_fmap in Hy as (p & -> & _). done.
  - rewrite Hm, Hm2. f_equal. unfold replayed. by rewrite events_map_pieces, Hlm.
Qed.

Lemma written_snoc events event :
  written_content (events ++ [event]) =
  Some (write_piece (default (ProjectedContent_new event.(pe_content_ref) event.(pe_committed_seq)) (written_content events)) event).
Proof. destruct events as [|e events]; [done|]. cbn. by rewrite foldl_app. Qed.

Lemma written_sorted events content : written_content events = Some content → offsets_sorted content.(pc_pieces).
Proof.
  destruct events as [|event events]; [done|]. intros [= <-].
  by apply (foldl_write (ProjectedContent_new event.(pe_content_ref) event.(pe_committed_seq)) (event :: events) (SSorted_nil _)).
Qed.

Lemma written_app events later : written_content (events ++ later) =
  match written_content events, written_content later with
  | content, None => content
  | None, Some later => Some later
  | Some content, Some later => Some (content_combine content later)
  end.
Proof.
  destruct (written_content later) as [c|] eqn:El; [|destruct later; [rewrite app_nil_r; by destruct (written_content events)|done]].
  destruct events as [|event events]; [done|]. destruct (written_content (event :: events)) as [content|] eqn:Ee; [|done].
  rewrite (combine_writes _ _ _ (written_sorted _ _ Ee) El). cbn [app written_content] in Ee |- *.
  rewrite app_comm_cons, foldl_app. congruence.
Qed.

(** ** Chunks *)

(** The writes of a commit to a content. *)
Definition entry_event (record : WalCommitPayload) (entry : WalInlineContent) : option piece_event :=
  (λ content_ref, mkPieceEvent content_ref record.(wcp_committed_seq) (mkProjectedPiece entry.(wic_offset) entry.(wic_bytes)))
    <$> inline_content_ref record entry.
Definition entry_events (record : WalCommitPayload) (content_id : ContentId) (entries : list WalInlineContent) : list piece_event :=
  omap (entry_event record) (pieces_at content_id entries).
Definition record_events (content_id : ContentId) (record : WalCommitPayload) : list piece_event :=
  entry_events record content_id record.(wcp_inline_content).

(** Every entry has a reference in its commit, as the WAL rules require. *)
Definition entries_referenced (record : WalCommitPayload) (entries : list WalInlineContent) : Prop :=
  ∀ entry, entry ∈ entries → is_Some (inline_content_ref record entry).

Lemma inline_content_ref_id record entry content_ref :
  inline_content_ref record entry = Some content_ref → content_ref.(cref_content_id) = entry.(wic_content_id).
Proof. intros [Hin _]%max_by_key_is_max. by apply list_elem_of_filter in Hin as [? _]. Qed.

Lemma inline_referenced namespace_id record : inline_ok namespace_id record → entries_referenced record record.(wcp_inline_content).
Proof.
  intros Hok entry He. unfold inline_content_ref. destruct (max_by_key _ _) eqn:E; [done|]. exfalso.
  apply max_by_key_None in E. destruct (io_tiled _ _ Hok entry.(wic_content_id)) as (start & stop & _ & [(r & l & Hr & Hid & _) _] & _).
  - intros E'. assert (entry ∈ pieces_of record entry.(wic_content_id)) as Hin by by apply list_elem_of_filter.
    rewrite E' in Hin. by apply elem_of_nil in Hin.
  - assert (r ∈ filter (λ content_ref, content_ref.(cref_content_id) = entry.(wic_content_id)) (revisions_of record).*1) as Hin.
    { apply list_elem_of_filter. split; [done|]. by apply (list_elem_of_fmap_2 fst) in Hr. }
    rewrite E in Hin. by apply elem_of_nil in Hin.
Qed.

Definition contents_bytes (contents : list ProjectedContent) : N :=
  foldr (λ content total, projected_bytes content.(pc_pieces) + total) 0 contents.

Definition content_id_of (content : ProjectedContent) : ContentId := content.(pc_content_ref).(cref_content_id).

(** The map gives each id its position in the list. *)
Definition positioned (positions : gmap ContentId nat) (ids : list ContentId) : Prop :=
  ∀ content_id position, positions !! content_id = Some position ↔ ids !! position = Some content_id.

Lemma positioned_snoc positions ids id : positioned positions ids → positions !! id = None →
  positioned (<[id := length ids]> positions) (ids ++ [id]).
Proof.
  intros Hpos Hnone i p. assert (ids !! p ≠ Some id) as Hnew by (intros E; apply Hpos in E; congruence).
  rewrite lookup_app_Some, list_lookup_singleton_Some. destruct (decide (i = id)) as [->|Hne].
  - rewrite lookup_insert_eq. split; [intros [= <-]; right; split; [done|split; [lia|done]]|].
    intros [E|(Hlen & E & _)]; [done|]. f_equal. lia.
  - rewrite lookup_insert_ne by done. rewrite (Hpos i p). naive_solver.
Qed.

(** A chunk holds, in the order it first named them, the contents that the
    events write, and counts their bytes. *)
Record chunk_ok (chunk : TailChunk) (events : ContentId → list piece_event) : Prop := {
  co_positions : positioned chunk.(tc_content_positions) (content_id_of <$> chunk.(tc_contents));
  co_written : ∀ content_id,
    (position ← chunk.(tc_content_positions) !! content_id; chunk.(tc_contents) !! position) = written_content (events content_id);
  co_bytes : chunk.(tc_inline_bytes) = contents_bytes chunk.(tc_contents);
}.

Lemma chunk_ok_content {E} chunk events content_ref : chunk_ok chunk events →
  chunk_content (E:=E) chunk content_ref = Ok (written_content (events content_ref.(cref_content_id))).
Proof.
  intros [Hpos Hw _]. unfold chunk_content. specialize (Hw content_ref.(cref_content_id)).
  destruct (chunk.(tc_content_positions) !! content_ref.(cref_content_id)) as [position|] eqn:Ep; cbn in Hw; [|by rewrite <-Hw].
  apply Hpos in Ep. rewrite list_lookup_fmap in Ep. apply fmap_Some in Ep as (c & Ec & _). rewrite <-Hw, Ec. done.
Qed.

Lemma contents_bytes_cons content contents : contents_bytes (content :: contents) = projected_bytes content.(pc_pieces) + contents_bytes contents.
Proof. done. Qed.

Lemma contents_bytes_insert contents position content content' : contents !! position = Some content →
  contents_bytes (<[position := content']> contents) + projected_bytes content.(pc_pieces)
  = contents_bytes contents + projected_bytes content'.(pc_pieces).
Proof.
  revert position. induction contents as [|c contents IH]; intros [|position] E; try done.
  - injection E as ->. cbn [insert list_insert]. rewrite !contents_bytes_cons. lia.
  - specialize (IH position E). change (<[S position := content']> (c :: contents)) with (c :: <[position := content']> contents).
    rewrite !contents_bytes_cons. lia.
Qed.

Lemma contents_bytes_elem contents position content : contents !! position = Some content →
  projected_bytes content.(pc_pieces) ≤ contents_bytes contents.
Proof.
  revert position. induction contents as [|c contents IH]; intros [|position] E; try done; rewrite contents_bytes_cons.
  - injection E as ->. lia.
  - specialize (IH position E). lia.
Qed.

Lemma projected_bytes_elem pieces piece : piece ∈ pieces → pp_len piece ≤ projected_bytes pieces.
Proof.
  induction 1 as [x l|x y l Hin IH]; [change (pp_len x ≤ pp_len x + projected_bytes l)|change (pp_len x ≤ pp_len y + projected_bytes l)]; lia.
Qed.

Lemma contents_bytes_snoc contents content : contents_bytes (contents ++ [content]) = contents_bytes contents + projected_bytes content.(pc_pieces).
Proof. induction contents as [|c contents IH]; [cbn; lia|]. cbn [app]. rewrite !contents_bytes_cons, IH. lia. Qed.

(** The content to write to, in lists with room for it. *)
Definition content_slot (chunk : TailChunk) (content_ref : ContentRef) (seq : ChangeSeq) : nat * gmap ContentId nat * list ProjectedContent :=
  match chunk.(tc_content_positions) !! content_ref.(cref_content_id) with
  | Some position => (position, chunk.(tc_content_positions), chunk.(tc_contents))
  | None =>
      (length chunk.(tc_contents),
       <[content_ref.(cref_content_id) := length chunk.(tc_contents)]> chunk.(tc_content_positions),
       chunk.(tc_contents) ++ [ProjectedContent_new content_ref seq])
  end.

Lemma content_slot_ok chunk events content_ref seq : chunk_ok chunk events →
  let '(position, positions, contents) := content_slot chunk content_ref seq in
  let id := content_ref.(cref_content_id) in
  contents !! position = Some (default (ProjectedContent_new content_ref seq) (written_content (events id))) ∧
  positioned positions (content_id_of <$> contents) ∧
  positions !! id = Some position ∧
  (∀ i, i ≠ id → (p ← positions !! i; contents !! p) = written_content (events i)) ∧
  contents_bytes contents = contents_bytes chunk.(tc_contents).
Proof.
  intros [Hpos Hw _]. unfold content_slot. set (id := content_ref.(cref_content_id)).
  destruct (chunk.(tc_content_positions) !! id) as [position|] eqn:Ep; cbv zeta.
  - split_and!; [|done|done|intros i _; apply Hw|done]. specialize (Hw id). rewrite Ep in Hw. cbn in Hw. rewrite <-Hw.
    apply Hpos in Ep. rewrite list_lookup_fmap in Ep. by apply fmap_Some in Ep as (c & -> & _).
  - pose proof (Hw id) as Hnone. rewrite Ep in Hnone. cbn in Hnone. rewrite <-Hnone. cbn [default].
    split_and!.
    + rewrite lookup_app_r by lia. by rewrite Nat.sub_diag.
    + rewrite fmap_app, <-(length_fmap content_id_of). by apply positioned_snoc.
    + by rewrite lookup_insert_eq.
    + intros i Hne. rewrite lookup_insert_ne by done. rewrite <-Hw. destruct (chunk.(tc_content_positions) !! i) as [p|] eqn:Ei; [|done]. cbn.
      apply Hpos in Ei. apply lookup_lt_Some in Ei. rewrite length_fmap in Ei. by rewrite lookup_app_l.
    + rewrite contents_bytes_snoc. cbn. lia.
Qed.

(** One more write. *)
Lemma chunk_insert_ok {E} chunk events content_ref entry seq :
  content_ref.(cref_content_id) = entry.(wic_content_id) →
  chunk_ok chunk events →
  ∃ chunk', chunk_insert_piece (E:=E) chunk content_ref entry seq = Ok chunk' ∧
    chunk'.(tc_first_seq) = chunk.(tc_first_seq) ∧ chunk'.(tc_rows) = chunk.(tc_rows) ∧
    chunk'.(tc_activity) = chunk.(tc_activity) ∧ chunk'.(tc_wal_bytes) = chunk.(tc_wal_bytes) ∧
    chunk_ok chunk' (λ content_id,
      if decide (content_id = entry.(wic_content_id))
      then events content_id ++ [mkPieceEvent content_ref seq (mkProjectedPiece entry.(wic_offset) entry.(wic_bytes))]
      else events content_id).
Proof.
  intros Hid Hok. set (event := mkPieceEvent content_ref seq (mkProjectedPiece entry.(wic_offset) entry.(wic_bytes))).
  pose proof (content_slot_ok chunk events content_ref seq Hok) as Hslot. unfold chunk_insert_piece. fold (content_slot chunk content_ref seq).
  destruct (content_slot chunk content_ref seq) as [[position positions] contents]. cbv zeta in Hslot. rewrite Hid in Hslot.
  set (id := entry.(wic_content_id)) in *. destruct Hslot as (Hcontent & Hpos & Hposition & Hother & Hcb).
  set (content := default _ _) in *. rewrite Hcontent. cbn [expect mbind res_bind].
  assert ((content_insert_piece content content_ref event.(pe_piece) seq).2 = write_piece content event) as Ewrite by done.
  destruct (insert_replaced content content_ref event.(pe_piece) seq) as [Hbytes _]. cbv zeta in Hbytes.
  change (mkProjectedPiece entry.(wic_offset) entry.(wic_bytes)) with event.(pe_piece).
  destruct (content_insert_piece content content_ref event.(pe_piece) seq) as [replaced content']. cbn [fst snd] in *. subst content'.
  pose proof (contents_bytes_elem _ _ _ Hcontent) as Hle. pose proof (contents_bytes_insert _ _ _ (write_piece content event) Hcontent) as Hins.
  rewrite (co_bytes _ _ Hok) in *. change (pp_len event.(pe_piece)) with (piece_bytes entry) in Hbytes.
  assert (match replaced with
          | Some replaced => checked_sub (contents_bytes chunk.(tc_contents) + piece_bytes entry) (pp_len replaced)
          | None => Ok (contents_bytes chunk.(tc_contents) + piece_bytes entry)
          end = Ok (E:=E) (contents_bytes (<[position := write_piece content event]> contents))) as ->.
  { destruct replaced as [replaced|]; [unfold checked_sub; rewrite decide_True by lia|]; f_equal; lia. }
  cbn [mbind res_bind]. eexists. split; [done|]. cbn. split_and!; [done..|]. split; cbn.
  - rewrite list_fmap_insert, list_insert_id; [done|].
    assert ((content_id_of <$> contents) !! position = Some id) as Hcid by by apply Hpos.
    rewrite Hcid. f_equal. rewrite list_lookup_fmap, Hcontent in Hcid. injection Hcid as Hcid.
    pose proof (write_pair content event) as Hpair. apply (f_equal (λ x, x.1.(cref_content_id))) in Hpair. cbn in Hpair.
    unfold content_id_of. rewrite Hpair. unfold longer. case_decide; [done|]. by rewrite <-Hcid.
  - intros i. case_decide as Hi.
    + subst i. rewrite Hposition. cbn. rewrite list_lookup_insert_eq by by eapply lookup_lt_Some. by rewrite written_snoc.
    + rewrite <-(Hother i Hi). destruct (positions !! i) as [p|] eqn:Ep; [|done]. cbn. rewrite list_lookup_insert_ne; [done|].
      intros <-. apply Hpos in Ep, Hposition. congruence.
  - done.
Qed.

Lemma chunk_ok_ext chunk events events' : (∀ content_id, events content_id = events' content_id) → chunk_ok chunk events → chunk_ok chunk events'.
Proof. intros Hev [? Hw ?]. split; [done| |done]. intros content_id. by rewrite Hw, Hev. Qed.

Lemma insert_pieces_ok {E} record entries : ∀ chunk events,
  entries_referenced record entries → chunk_ok chunk events →
  ∃ chunk', insert_pieces (E:=E) record chunk entries = Ok chunk' ∧
    chunk'.(tc_first_seq) = chunk.(tc_first_seq) ∧ chunk'.(tc_rows) = chunk.(tc_rows) ∧
    chunk'.(tc_activity) = chunk.(tc_activity) ∧ chunk'.(tc_wal_bytes) = chunk.(tc_wal_bytes) ∧
    chunk_ok chunk' (λ content_id, events content_id ++ entry_events record content_id entries).
Proof.
  induction entries as [|entry entries IH]; intros chunk events Href Hok; cbn [insert_pieces].
  { exists chunk. split_and!; [done..|]. eapply chunk_ok_ext; [|done]. intros c. cbn. by rewrite app_nil_r. }
  destruct (Href entry) as [content_ref Eref]; [by left|]. rewrite Eref. cbn [expect mbind res_bind].
  destruct (chunk_insert_ok (E:=E) chunk events content_ref entry record.(wcp_committed_seq)) as (chunk1 & -> & E1 & E2 & E3 & E4 & Hok1);
    [by apply inline_content_ref_id in Eref|done|].
  cbn [mbind res_bind]. destruct (IH chunk1 _ ltac:(intros e He; apply Href; by right) Hok1) as (chunk' & -> & F1 & F2 & F3 & F4 & Hok').
  exists chunk'. split_and!; [done|congruence..|]. eapply chunk_ok_ext; [|done]. intros c. cbv beta. unfold entry_events, pieces_at.
  rewrite filter_cons. destruct (decide (entry.(wic_content_id) = c)) as [Hc|Hc].
  - rewrite decide_True by done. cbn [omap list_omap]. unfold entry_event at 2. rewrite Eref. cbn. by rewrite <-app_assoc.
  - by rewrite decide_False by congruence.
Qed.

Section chunks.
Context `{HeapBytes}.

(** The activity of a list of commits. *)
Definition add_record (activity : ManifestActivity) (record : WalCommitPayload) : option ManifestActivity :=
  added ← committed_activity record; activity_checked_add activity added.
Definition records_activity : ManifestActivity → list WalCommitPayload → option ManifestActivity := try_fold add_record.

(** What a chunk holds of its commits. *)
Record chunk_of (object : list WalCommitPayload * N) (chunk : TailChunk) : Prop := {
  cof_first : Some chunk.(tc_first_seq) = wcp_committed_seq <$> head object.1;
  cof_rows : chunk.(tc_rows) = foldl apply_committed_wal_record_mut MetadataState_default object.1;
  cof_contents : chunk_ok chunk (λ content_id, object.1 ≫= record_events content_id);
  cof_activity : records_activity activity_default object.1 = Some chunk.(tc_activity);
  cof_wal_bytes : chunk.(tc_wal_bytes) = object.2;
  cof_recorded : TailChunk_from_records object.1 object.2 = Ok chunk;
}.

Definition records_referenced (records : list WalCommitPayload) : Prop :=
  ∀ record, record ∈ records → entries_referenced record record.(wcp_inline_content).

Lemma push_records_ok records : ∀ chunk events, records_referenced records → chunk_ok chunk events →
  match records_activity chunk.(tc_activity) records with
  | None => chunk_push_records chunk records = Err ActivityOverflow
  | Some activity => ∃ chunk', chunk_push_records chunk records = Ok chunk' ∧
      chunk'.(tc_first_seq) = chunk.(tc_first_seq) ∧ chunk'.(tc_wal_bytes) = chunk.(tc_wal_bytes) ∧
      chunk'.(tc_rows) = foldl apply_committed_wal_record_mut chunk.(tc_rows) records ∧ chunk'.(tc_activity) = activity ∧
      chunk_ok chunk' (λ content_id, events content_id ++ (records ≫= record_events content_id))
  end.
Proof.
  induction records as [|record records IH]; intros chunk events Href Hok; cbn [records_activity try_fold chunk_push_records].
  { exists chunk. split_and!; [done..|]. eapply chunk_ok_ext; [|done]. intros c. cbn. by rewrite app_nil_r. }
  unfold chunk_push_record. fold (add_record chunk.(tc_activity) record).
  destruct (add_record chunk.(tc_activity) record) as [activity|]; cbn [ok_or mbind option_bind res_bind]; [|done].
  destruct (insert_pieces_ok (E:=WalObjectError) record record.(wcp_inline_content) chunk events (Href record ltac:(by left)) Hok)
    as (chunk1 & -> & E1 & E2 & E3 & E4 & Hok1).
  cbn [mbind res_bind]. set (chunk2 := mkTailChunk _ _ _ _ _ _ _).
  assert (chunk_ok chunk2 (λ c, events c ++ record_events c record)) as Hok2 by (destruct Hok1; by split).
  specialize (IH chunk2 _ ltac:(intros r Hr; apply Href; by right) Hok2). change (chunk2.(tc_activity)) with activity in IH.
  fold (records_activity activity records) in IH. unfold records_activity in *. destruct (try_fold add_record activity records) as [activity'|]; [|done].
  destruct IH as (chunk' & -> & F1 & F2 & F3 & F4 & Hok'). exists chunk'. split_and!; [done|cbn in *; congruence..| |].
  - done.
  - eapply chunk_ok_ext; [|done]. intros c. cbn. by rewrite <-app_assoc.
Qed.

Lemma chunk_nil_ok first_seq rows activity wal_bytes : chunk_ok (mkTailChunk first_seq rows activity [] ∅ 0 wal_bytes) (λ _, []).
Proof. split; [|done|done]. intros content_id position. cbn. by rewrite lookup_empty, lookup_nil. Qed.

Lemma from_records_ok records wal_bytes : records ≠ [] → records_referenced records →
  match records_activity activity_default records with
  | None => TailChunk_from_records records wal_bytes = Err ActivityOverflow
  | Some _ => ∃ chunk, TailChunk_from_records records wal_bytes = Ok chunk ∧ chunk_of (records, wal_bytes) chunk
  end.
Proof.
  intros Hne Href. destruct (head records) as [first|] eqn:Eh; [|by destruct records].
  pose proof (push_records_ok records _ _ Href (chunk_nil_ok first.(wcp_committed_seq) MetadataState_default activity_default wal_bytes)) as Hpush.
  assert (TailChunk_from_records records wal_bytes
    = chunk_push_records (mkTailChunk first.(wcp_committed_seq) MetadataState_default activity_default [] ∅ 0 wal_bytes) records) as Efrom
    by (unfold TailChunk_from_records; by rewrite Eh).
  rewrite <-Efrom in Hpush. cbn [tc_activity tc_rows tc_first_seq tc_wal_bytes] in Hpush.
  destruct (records_activity activity_default records) as [activity|] eqn:Ea; [|done].
  destruct Hpush as (chunk & Er & E1 & E2 & E3 & E4 & Hok). exists chunk. split; [done|].
  split; cbn [fst snd]; [rewrite Eh; cbn; congruence|done|done|congruence|done|done].
Qed.

(** *** Activity does not depend on how commits are split into objects *)
Lemma activity_add_Some a b c : activity_checked_add a b = Some c ↔
  c = mkManifestActivity (a.(act_content_bytes) + b.(act_content_bytes)) (a.(act_file_revisions) + b.(act_file_revisions))
        (a.(act_mutations) + b.(act_mutations)) ∧
  c.(act_content_bytes) ≤ MAX_PUBLIC_INTEGER ∧ c.(act_file_revisions) ≤ MAX_PUBLIC_INTEGER ∧ c.(act_mutations) ≤ MAX_PUBLIC_INTEGER.
Proof.
  unfold activity_checked_add. split.
  - intros (x & [-> ?]%counter_add_Some & E)%bind_Some. apply bind_Some in E as (y & [-> ?]%counter_add_Some & E).
    apply bind_Some in E as (z & [-> ?]%counter_add_Some & E). injection E as <-. done.
  - intros (-> & H1 & H2 & H3). cbn in H1, H2, H3.
    rewrite (proj2 (counter_add_Some _ _ _) (conj eq_refl H1)). cbn. rewrite (proj2 (counter_add_Some _ _ _) (conj eq_refl H2)). cbn.
    by rewrite (proj2 (counter_add_Some _ _ _) (conj eq_refl H3)).
Qed.

Lemma activity_add_assoc a b c ab bc : activity_checked_add a b = Some ab → activity_checked_add b c = Some bc →
  activity_checked_add ab c = activity_checked_add a bc.
Proof.
  intros [-> _]%activity_add_Some [-> _]%activity_add_Some. apply option_eq. intros d. rewrite !activity_add_Some. cbn.
  by rewrite !N.add_assoc.
Qed.

Lemma records_activity_from records : ∀ a b c, records_activity b records = Some c → activity_checked_add a c ≠ None →
  ∃ ab, activity_checked_add a b = Some ab ∧ records_activity ab records = activity_checked_add a c.
Proof.
  unfold records_activity. induction records as [|record records IH]; intros a b c E Hne; cbn [try_fold] in *.
  - injection E as ->. destruct (activity_checked_add a c) as [ab|] eqn:Eab; [|done]. by exists ab.
  - apply bind_Some in E as (b1 & Eb1 & E). destruct (IH a b1 c E Hne) as (ab1 & Eab1 & Hab1).
    unfold add_record in Eb1 |- *. destruct (committed_activity record) as [added|]; [|done]. cbn in Eb1 |- *.
    pose proof Eab1 as (Eq1 & B1 & B2 & B3)%activity_add_Some. pose proof Eb1 as (Eq2 & _)%activity_add_Some. subst b1 ab1. cbn in *.
    exists (mkManifestActivity (a.(act_content_bytes) + b.(act_content_bytes)) (a.(act_file_revisions) + b.(act_file_revisions)) (a.(act_mutations) + b.(act_mutations))).
    split; [apply activity_add_Some; cbn; split; [done|lia]|].
    rewrite (proj2 (activity_add_Some _ added (mkManifestActivity (a.(act_content_bytes) + (b.(act_content_bytes) + added.(act_content_bytes)))
      (a.(act_file_revisions) + (b.(act_file_revisions) + added.(act_file_revisions))) (a.(act_mutations) + (b.(act_mutations) + added.(act_mutations))))));
      [done|]. cbn. split; [f_equal; lia|lia].
Qed.
End chunks.

(** ** The tail *)
Lemma written_None events : written_content events = None ↔ events = [].
Proof. by destruct events. Qed.

Section tails.
Context `{HeapBytes}.

(** The WAL objects with commits: their records and stored sizes. *)
Implicit Types objects : list (list WalCommitPayload * N).
Definition all_records objects : list WalCommitPayload := concat objects.*1.

Definition chunks_inline_bytes (chunks : list TailChunk) : N := foldr (λ chunk total, chunk.(tc_inline_bytes) + total) 0 chunks.
Definition chunks_activity (chunks : list TailChunk) : ManifestActivity :=
  foldr (λ chunk total, mkManifestActivity (chunk.(tc_activity).(act_content_bytes) + total.(act_content_bytes))
    (chunk.(tc_activity).(act_file_revisions) + total.(act_file_revisions))
    (chunk.(tc_activity).(act_mutations) + total.(act_mutations))) activity_default chunks.
Definition objects_bytes objects : N := foldr (λ object total, object.2 + total) 0 (filter (λ object, object.1 ≠ []) objects).

(** What a tail holds of its objects. *)
Record tail_of objects (tail : ProjectedWalTail) : Prop := {
  to_chunks : Forall2 chunk_of (filter (λ object, object.1 ≠ []) objects) tail.(pt_chunks);
  to_activity : records_activity activity_default (all_records objects) = Some tail.(pt_activity);
  to_chunk_activity : tail.(pt_activity) = chunks_activity tail.(pt_chunks);
  to_inline_bytes : tail.(pt_inline_bytes) = chunks_inline_bytes tail.(pt_chunks);
  to_wal_bytes : tail.(pt_wal_bytes) = objects_bytes objects;
}.

Lemma sum_snoc {A} (f : A → N) l x : foldr (λ a total, f a + total) 0 (l ++ [x]) = foldr (λ a total, f a + total) 0 l + f x.
Proof. induction l as [|a l IH]; cbn; [lia|]. rewrite IH. lia. Qed.

Lemma chunks_activity_cons chunk chunks : chunks_activity (chunk :: chunks) =
  mkManifestActivity (chunk.(tc_activity).(act_content_bytes) + (chunks_activity chunks).(act_content_bytes))
    (chunk.(tc_activity).(act_file_revisions) + (chunks_activity chunks).(act_file_revisions))
    (chunk.(tc_activity).(act_mutations) + (chunks_activity chunks).(act_mutations)).
Proof. done. Qed.

Lemma chunks_activity_snoc chunks chunk : chunks_activity (chunks ++ [chunk]) =
  mkManifestActivity ((chunks_activity chunks).(act_content_bytes) + chunk.(tc_activity).(act_content_bytes))
    ((chunks_activity chunks).(act_file_revisions) + chunk.(tc_activity).(act_file_revisions))
    ((chunks_activity chunks).(act_mutations) + chunk.(tc_activity).(act_mutations)).
Proof.
  induction chunks as [|c chunks IH]; [cbn; f_equal; lia|]. cbn [app]. rewrite !chunks_activity_cons, IH.
  cbn [act_content_bytes act_file_revisions act_mutations]. f_equal; lia.
Qed.

Lemma chunk_of_inj objects : ∀ chunks chunks', Forall2 chunk_of objects chunks → Forall2 chunk_of objects chunks' → chunks = chunks'.
Proof.
  induction objects as [|object objects IH]; intros chunks chunks' H1 H2; [apply Forall2_nil_inv_l in H1, H2; congruence|].
  apply Forall2_cons_inv_l in H1 as (c & k & Hc & H1 & ->), H2 as (c' & k' & Hc' & H2 & ->).
  pose proof (cof_recorded _ _ Hc). pose proof (cof_recorded _ _ Hc'). f_equal; [congruence|by apply IH].
Qed.

(** Two tails of the same objects are equal. *)
Lemma tail_of_inj objects tail tail' : tail_of objects tail → tail_of objects tail' → tail = tail'.
Proof.
  intros [C1 A1 _ I1 W1] [C2 A2 _ I2 W2]. pose proof (chunk_of_inj _ _ _ C1 C2) as Hc.
  destruct tail as [c a i w], tail' as [c' a' i' w']. cbn [pt_chunks pt_activity pt_inline_bytes pt_wal_bytes] in *. subst. f_equal. congruence.
Qed.

Lemma all_records_nonempty objects : all_records (filter (λ object, object.1 ≠ []) objects) = all_records objects.
Proof.
  unfold all_records. induction objects as [|object objects IH]; [done|]. rewrite filter_cons. case_decide as Hne; cbn in *; rewrite IH; [done|].
  by rewrite Hne.
Qed.

(** Objects without commits add nothing. *)
Lemma tail_of_nonempty objects tail : tail_of (filter (λ object, object.1 ≠ []) objects) tail → tail_of objects tail.
Proof.
  assert (filter (λ object, object.1 ≠ []) (filter (λ object, object.1 ≠ []) objects) = filter (λ object, object.1 ≠ []) objects) as Hff.
  { rewrite list_filter_filter. apply list_filter_iff. intros object. tauto. }
  intros [C A S I W]. split; [by rewrite Hff in C|by rewrite all_records_nonempty in A|done|done|].
  unfold objects_bytes in *. by rewrite Hff in W.
Qed.

Lemma tail_of_default : tail_of [] ProjectedWalTail_default.
Proof. by split. Qed.

Lemma try_fold_app {A B} (f : A → B → option A) l k : ∀ a, try_fold f a (l ++ k) = (b ← try_fold f a l; try_fold f b k).
Proof. induction l as [|x l IH]; intros a; [done|]. cbn. destruct (f a x); cbn; [apply IH|done]. Qed.

Lemma records_activity_app l k a : records_activity a (l ++ k) = (b ← records_activity a l; records_activity b k).
Proof. apply try_fold_app. Qed.

Lemma all_records_snoc objects object : all_records (objects ++ [object]) = all_records objects ++ object.1.
Proof. unfold all_records. rewrite fmap_app, concat_app. cbn. by rewrite app_nil_r. Qed.

Lemma records_activity_split records : ∀ a b ab t, activity_checked_add a b = Some ab → records_activity ab records = Some t →
  ∃ c, records_activity b records = Some c ∧ activity_checked_add a c = Some t.
Proof.
  unfold records_activity. induction records as [|record records IH]; intros a b ab t Eab Et; cbn [try_fold] in *.
  - injection Et as ->. by exists b.
  - apply bind_Some in Et as (ab1 & Eab1 & Et). unfold add_record in Eab1 |- *. destruct (committed_activity record) as [added|]; [|done]. cbn in Eab1 |- *.
    pose proof Eab as (-> & _)%activity_add_Some. pose proof Eab1 as (Eq1 & B1 & B2 & B3)%activity_add_Some. cbn in Eq1. subst ab1. cbn in B1, B2, B3.
    assert (activity_checked_add b added = Some (mkManifestActivity (b.(act_content_bytes) + added.(act_content_bytes))
      (b.(act_file_revisions) + added.(act_file_revisions)) (b.(act_mutations) + added.(act_mutations)))) as Eb1
      by (apply activity_add_Some; cbn; split; [done|lia]).
    rewrite Eb1. cbn. eapply IH; [|exact Et]. apply activity_add_Some. cbn. split; [f_equal; lia|lia].
Qed.

Lemma records_activity_bounded records : ∀ a b, records_activity a records = Some b →
  activity_checked_add a activity_default = Some a → activity_checked_add b activity_default = Some b.
Proof.
  unfold records_activity. induction records as [|record records IH]; intros a b E Ha; cbn [try_fold] in E; [by injection E as <-|].
  apply bind_Some in E as (a1 & Ea1 & E). apply (IH a1 b E). unfold add_record in Ea1. apply bind_Some in Ea1 as (added & _ & Ea1).
  apply activity_add_Some in Ea1 as (-> & B). apply activity_add_Some. cbn in *. rewrite !N.add_0_r. by split.
Qed.

Lemma tail_activity_bounded objects tail : tail_of objects tail →
  activity_checked_add tail.(pt_activity) activity_default = Some tail.(pt_activity).
Proof. intros Htail. by eapply records_activity_bounded; [apply (to_activity _ _ Htail)|]. Qed.

Lemma push_chunk_ok objects tail object chunk activity : tail_of objects tail → object.1 ≠ [] → chunk_of object chunk →
  activity_checked_add tail.(pt_activity) chunk.(tc_activity) = Some activity →
  ∃ tail', push_chunk tail chunk = Ok tail' ∧ tail'.(pt_chunks) = tail.(pt_chunks) ++ [chunk] ∧ tail'.(pt_activity) = activity ∧
    tail_of (objects ++ [object]) tail'.
Proof.
  intros Htail Hne Hof Hadd. pose proof (tail_activity_bounded _ _ Htail) as Hbound. destruct Htail as [Hchunks Hact Hsum Hinline Hwal].
  unfold push_chunk. rewrite Hadd. cbn [ok_or mbind res_bind]. eexists. split_and!; [done..|].
  split; cbn [pt_chunks pt_activity pt_inline_bytes pt_wal_bytes].
  - rewrite filter_app. apply Forall2_app; [done|]. rewrite filter_cons_True, filter_nil by done. apply Forall2_cons_2; [done|by apply Forall2_nil_2].
  - rewrite all_records_snoc, records_activity_app, Hact. cbn [mbind option_bind].
    destruct (records_activity_from object.1 tail.(pt_activity) activity_default _ (cof_activity _ _ Hof)) as (ab & Eab & Htotal); [by rewrite Hadd|].
    rewrite Hbound in Eab. injection Eab as <-. by rewrite Htotal.
  - apply activity_add_Some in Hadd as [-> _]. rewrite Hsum. symmetry. apply chunks_activity_snoc.
  - rewrite Hinline. symmetry. apply (sum_snoc tc_inline_bytes).
  - rewrite Hwal, (cof_wal_bytes _ _ Hof). unfold objects_bytes. rewrite filter_app, filter_cons_True, filter_nil by done. symmetry. apply (sum_snoc snd).
Qed.

(** A pushed object is refused only when the tail's activity does not fit. *)
Lemma push_object_ok objects tail records wal_bytes : tail_of objects tail → records_referenced records →
  (push_object tail records wal_bytes = Err ActivityOverflow ∧ records_activity activity_default (all_records objects ++ records) = None) ∨
  ∃ tail', push_object tail records wal_bytes = Ok tail' ∧ tail_of (objects ++ [(records, wal_bytes)]) tail'.
Proof.
  intros Htail Href. unfold push_object. case_bool_decide as Hempty.
  { right. exists tail. split; [done|]. subst records. destruct Htail. split; unfold all_records, objects_bytes;
      rewrite ?filter_app, ?fmap_app, ?concat_app; cbn; rewrite ?app_nil_r; done. }
  pose proof (tail_activity_bounded _ _ Htail) as Hbound. rewrite records_activity_app, (to_activity _ _ Htail). cbn [mbind option_bind].
  assert (∀ t, records_activity tail.(pt_activity) records = Some t →
    ∃ c, records_activity activity_default records = Some c ∧ activity_checked_add tail.(pt_activity) c = Some t) as Hsplit
    by (intros t Et; by eapply records_activity_split).
  pose proof (from_records_ok records wal_bytes Hempty Href) as Hfrom.
  destruct (records_activity activity_default records) as [added|] eqn:Eadded.
  2:{ left. rewrite Hfrom. split; [done|]. destruct (records_activity tail.(pt_activity) records) as [t|]; [|done].
      by destruct (Hsplit t eq_refl) as (c & ? & _). }
  destruct Hfrom as (chunk & -> & Hof). cbn [mbind res_bind]. pose proof (cof_activity _ _ Hof) as Hchunk. cbn [fst] in Hchunk.
  rewrite Hchunk in Eadded. injection Eadded as <-.
  destruct (activity_checked_add tail.(pt_activity) chunk.(tc_activity)) as [activity|] eqn:Esum.
  - right. destruct (push_chunk_ok objects tail (records, wal_bytes) chunk activity Htail Hempty Hof Esum) as (tail' & -> & _ & _ & Htail'). by exists tail'.
  - left. unfold push_chunk. rewrite Esum. split; [done|]. destruct (records_activity tail.(pt_activity) records) as [t|]; [|done].
    destruct (Hsplit t eq_refl) as (c & Ec & ?). congruence.
Qed.

Definition activity_fits (activity : ManifestActivity) : Prop :=
  activity.(act_content_bytes) ≤ MAX_PUBLIC_INTEGER ∧ activity.(act_file_revisions) ≤ MAX_PUBLIC_INTEGER ∧ activity.(act_mutations) ≤ MAX_PUBLIC_INTEGER.

Lemma push_chunks_ok added : Forall (λ object : list WalCommitPayload * N, object.1 ≠ []) added → ∀ chunks objects tail, tail_of objects tail →
  Forall2 chunk_of added chunks → activity_fits (chunks_activity (tail.(pt_chunks) ++ chunks)) →
  ∃ tail', push_chunks tail chunks = Ok tail' ∧ tail'.(pt_chunks) = tail.(pt_chunks) ++ chunks ∧ tail_of (objects ++ added) tail'.
Proof.
  assert (∀ l k, let a := chunks_activity (l ++ k) in let b := chunks_activity l in
    b.(act_content_bytes) ≤ a.(act_content_bytes) ∧ b.(act_file_revisions) ≤ a.(act_file_revisions) ∧ b.(act_mutations) ≤ a.(act_mutations)) as Hmono.
  { intros l k. cbv zeta. induction l as [|c l IH]; [cbn; lia|]. cbn [app]. rewrite !chunks_activity_cons. cbn [act_content_bytes act_file_revisions act_mutations]. lia. }
  induction 1 as [|object added Hne _ IH]; intros chunks objects tail Htail Hall Hfits.
  { apply Forall2_nil_inv_l in Hall as ->. exists tail. by rewrite !app_nil_r. }
  apply Forall2_cons_inv_l in Hall as (chunk & chunks' & Hof & Hall & ->). rewrite cons_middle, app_assoc in Hfits. cbn [push_chunks].
  destruct (push_chunk_ok objects tail object chunk (chunks_activity (tail.(pt_chunks) ++ [chunk])) Htail Hne Hof) as (tail1 & -> & Ec & _ & Htail1).
  { apply activity_add_Some. split; [by rewrite (to_chunk_activity _ _ Htail), chunks_activity_snoc|].
    destruct (Hmono (tail.(pt_chunks) ++ [chunk]) chunks') as (H1 & H2 & H3). unfold activity_fits in Hfits. lia. }
  cbn [mbind res_bind]. rewrite <-Ec in Hfits. destruct (IH chunks' _ tail1 Htail1 Hall Hfits) as (tail' & -> & Ec' & Htail').
  exists tail'. split_and!; [done| |by rewrite cons_middle, app_assoc]. by rewrite Ec', Ec, <-app_assoc.
Qed.

(** *** The tail above a newer manifest *)
Definition object_after (seq : ChangeSeq) (object : list WalCommitPayload * N) : Prop :=
  match head object.1 with Some record => seq < record.(wcp_committed_seq) | None => False end.
#[global] Instance object_after_dec seq object : Decision (object_after seq object).
Proof. unfold object_after. destruct (head object.1); apply _. Defined.

Lemma after_seq_ok {E} objects tail seq head_seq : tail_of objects tail →
  let later := filter (object_after seq) objects in
  ∃ after, tail_of later after ∧
    after_seq (E:=E) tail seq head_seq = Ok
      (if match wcp_committed_seq <$> head (all_records later) with
          | Some first => bool_decide (next_public_ordinal seq = Some first)
          | None => bool_decide (seq = head_seq)
          end
       then Some after else None).
Proof.
  intros Htail later. set (chunks := filter (λ chunk, seq < chunk.(tc_first_seq)) tail.(pt_chunks)).
  assert (Forall (λ object, object.1 ≠ []) later) as Hne.
  { apply Forall_forall. intros object [Ho _]%list_elem_of_filter E'. unfold object_after in Ho. by rewrite E' in Ho. }
  assert (Forall2 chunk_of later chunks) as Hall.
  { unfold later, chunks. pose proof (to_chunks _ _ Htail) as Hchunks. revert Hchunks. generalize tail.(pt_chunks) as l. clear.
    induction objects as [|object objects IH]; intros l Hall; [by apply Forall2_nil_inv_l in Hall as ->|]. rewrite filter_cons in Hall.
    case_decide as Hempty.
    - apply Forall2_cons_inv_l in Hall as (chunk & l' & Hof & Hall & ->). rewrite !filter_cons. pose proof (cof_first _ _ Hof) as Hfirst.
      assert (object_after seq object ↔ seq < chunk.(tc_first_seq)) as Hiff.
      { unfold object_after. destruct (head object.1) as [r|]; [|done]. by injection Hfirst as ->. }
      destruct (decide (seq < chunk.(tc_first_seq))) as [Hlt|Hge].
      + rewrite decide_True by by apply Hiff. apply Forall2_cons_2; [done|by apply IH].
      + rewrite decide_False by by rewrite Hiff. by apply IH.
    - rewrite filter_cons, (decide_False (P:=object_after seq object)); [by apply IH|]. unfold object_after. rewrite Hempty. by intros []. }
  destruct (push_chunks_ok later Hne chunks [] ProjectedWalTail_default tail_of_default Hall) as (after & Epush & Echunks & Hafter).
  { cbn [pt_chunks ProjectedWalTail_default app]. assert (activity_fits (chunks_activity tail.(pt_chunks))) as Hfits.
    { rewrite <-(to_chunk_activity _ _ Htail). pose proof (tail_activity_bounded _ _ Htail) as (_ & B)%activity_add_Some. exact B. }
    unfold chunks. revert Hfits. generalize tail.(pt_chunks) as l. clear. unfold activity_fits. intros l Hfits.
    assert (let a := chunks_activity (filter (λ chunk, seq < chunk.(tc_first_seq)) l) in let b := chunks_activity l in
      a.(act_content_bytes) ≤ b.(act_content_bytes) ∧ a.(act_file_revisions) ≤ b.(act_file_revisions) ∧ a.(act_mutations) ≤ b.(act_mutations)) as Hle.
    { cbv zeta. clear. induction l as [|c l IH]; [done|]. rewrite filter_cons.
      case_decide; rewrite ?chunks_activity_cons; cbn [act_content_bytes act_file_revisions act_mutations]; lia. }
    cbv zeta in Hle. lia. }
  exists after. split; [done|]. unfold after_seq. fold chunks. rewrite Epush, Echunks. cbn [pt_chunks ProjectedWalTail_default app]. f_equal.
  assert (tc_first_seq <$> head chunks = wcp_committed_seq <$> head (all_records later)) as <-; [|by destruct (head chunks)].
  destruct Hall as [|object chunk later' chunks' Hof]; [done|]. cbn. rewrite (cof_first _ _ Hof). apply Forall_cons in Hne as [Hne _].
  by destruct object.1.
Qed.

(** *** Contents *)
Lemma chunk_events objects chunks : Forall2 chunk_of (filter (λ object, object.1 ≠ []) objects) chunks →
  ∃ events : list (ContentId → list piece_event), Forall2 chunk_ok chunks events ∧
    ∀ content_id, (all_records objects ≫= record_events content_id) = concat ((λ e, e content_id) <$> events).
Proof.
  intros Hall. exists ((λ object content_id, object.1 ≫= record_events content_id) <$> filter (λ object, object.1 ≠ []) objects). split.
  - apply Forall2_fmap_r, Forall2_flip. eapply Forall2_impl; [done|]. intros object chunk Hof. apply (cof_contents _ _ Hof).
  - intros content_id. clear Hall. unfold all_records. induction objects as [|object objects IH]; [done|]. cbn [fmap list_fmap concat].
    rewrite bind_app, IH, filter_cons. case_decide as Hne; [done|]. by rewrite Hne.
Qed.

Lemma combine_found_ok {E} content_ref chunks events : Forall2 chunk_ok chunks events → ∀ before,
  combine_found (E:=E) (written_content before) chunks content_ref
  = Ok (written_content (before ++ concat ((λ e, e content_ref.(cref_content_id)) <$> events))).
Proof.
  induction 1 as [|chunk ev chunks events Hok _ IH]; intros before; cbn [combine_found]; [by rewrite app_nil_r|].
  rewrite (chunk_ok_content _ _ _ Hok). cbn [mbind res_bind]. cbn [fmap list_fmap concat]. rewrite app_assoc, <-IH, written_app.
  destruct (written_content before), (written_content (ev _)); done.
Qed.

Lemma tail_content_ok {E} objects tail content_ref : tail_of objects tail →
  tail_content (E:=E) tail content_ref = Ok (written_content (all_records objects ≫= record_events content_ref.(cref_content_id))).
Proof.
  intros [Hchunks _ _ _ _]. destruct (chunk_events _ _ Hchunks) as (events & Hev & ->).
  apply (combine_found_ok content_ref _ _ Hev []).
Qed.

(** The combined contents, as [chunk_ok] has them for one chunk. *)
Record combined_ok (acc : gmap ContentId nat * list ProjectedContent) (events : ContentId → list piece_event) : Prop := {
  cb_positions : positioned acc.1 (content_id_of <$> acc.2);
  cb_written : ∀ content_id, (position ← acc.1 !! content_id; acc.2 !! position) = written_content (events content_id);
}.

Lemma content_combine_id a b : content_id_of b = content_id_of a → content_id_of (content_combine a b) = content_id_of a.
Proof using Type.
  unfold content_combine. intros Hb. assert (∀ l c, content_id_of c = content_id_of a →
    content_id_of (foldl (λ c p, (content_insert_piece c b.(pc_content_ref) p b.(pc_committed_seq)).2) c l) = content_id_of a) as Hgen; [|by apply Hgen].
  intros l. induction l as [|p l IH]; intros c Hc; [done|]. cbn. apply IH. unfold content_insert_piece, content_id_of in *.
  destruct (search_offset _ _); cbn; case_decide; congruence.
Qed.

Lemma combine_content_ok {E} acc events content later : combined_ok acc events → written_content later = Some content →
  ∃ acc', combine_content (E:=E) acc content = Ok acc' ∧
    combined_ok acc' (λ c, if decide (c = content_id_of content) then events c ++ later else events c).
Proof using Type.
  intros [Hpos Hw] Hlater. destruct acc as [positions combined]. cbn in Hpos, Hw. unfold combine_content.
  fold (content_id_of content). set (id := content_id_of content). pose proof (Hw id) as Hid.
  destruct (positions !! id) as [position|] eqn:Ep.
  - cbn in Hid. apply Hpos in Ep as Ep'. rewrite list_lookup_fmap in Ep'. apply fmap_Some in Ep' as (earlier & Ee & Eid).
    rewrite Ee. cbn [expect mbind res_bind]. rewrite Ee in Hid. eexists. split; [done|]. split; cbn [fst snd].
    + rewrite list_fmap_insert, list_insert_id; [done|]. rewrite list_lookup_fmap, Ee. cbn. f_equal.
      symmetry. apply content_combine_id. unfold id in Eid. congruence.
    + intros c. case_decide as Hc.
      * subst c. rewrite Ep. cbn. rewrite list_lookup_insert_eq by by eapply lookup_lt_Some. rewrite written_app, <-Hid, Hlater. done.
      * rewrite <-Hw. destruct (positions !! c) as [p|] eqn:Ec; [|done]. cbn. rewrite list_lookup_insert_ne; [done|].
        intros <-. apply Hpos in Ec, Ep. congruence.
  - cbn in Hid.
    eexists. split; [done|]. split; cbn [fst snd].
    + rewrite fmap_app, <-(length_fmap content_id_of). by apply positioned_snoc.
    + intros c. case_decide as Hc.
      * subst c. rewrite lookup_insert_eq. cbn. rewrite lookup_app_r by lia. rewrite Nat.sub_diag. cbn. rewrite written_app, <-Hid, Hlater. done.
      * rewrite lookup_insert_ne by done. rewrite <-Hw. destruct (positions !! c) as [p|] eqn:Ec; [|done]. cbn.
        apply Hpos in Ec. apply lookup_lt_Some in Ec. rewrite length_fmap in Ec. by rewrite lookup_app_l.
Qed.
End tails.

Section tail_reads.
Context `{HeapBytes}.
Implicit Types objects : list (list WalCommitPayload * N).

Lemma combine_contents_app {E} l k : ∀ acc, combine_contents (E:=E) acc (l ++ k) = (acc ← combine_contents acc l; combine_contents acc k).
Proof using Type. induction l as [|c l IH]; intros acc; [done|]. cbn. destruct (combine_content acc c); cbn; [apply IH|done..]. Qed.

Lemma combine_contents_ok {E} contents (later : ContentId → list piece_event) : ∀ acc events, combined_ok acc events →
  NoDup (content_id_of <$> contents) → (∀ c, c ∈ contents → written_content (later (content_id_of c)) = Some c) →
  ∃ acc', combine_contents (E:=E) acc contents = Ok acc' ∧
    combined_ok acc' (λ i, if decide (i ∈ content_id_of <$> contents) then events i ++ later i else events i).
Proof using Type.
  induction contents as [|c contents IH]; intros acc events Hok Hnd Hlater; cbn [combine_contents].
  { exists acc. split; [done|]. destruct Hok as [Hp Hw]. split; [done|]. intros i. rewrite decide_False by (by intros ?%elem_of_nil). apply Hw. }
  rewrite fmap_cons in Hnd. apply NoDup_cons in Hnd as [Hc Hnd].
  destruct (combine_content_ok (E:=E) acc events c (later (content_id_of c)) Hok) as (acc1 & -> & Hok1); [apply Hlater; by left|].
  cbn [mbind res_bind]. destruct (IH acc1 _ Hok1 Hnd) as (acc' & -> & Hp & Hw); [intros; apply Hlater; by right|].
  exists acc'. split; [done|]. split; [done|]. intros i. rewrite Hw. rewrite fmap_cons. f_equal.
  destruct (decide (i = content_id_of c)) as [->|Hne].
  - by rewrite (decide_False (P:=content_id_of c ∈ _)), (decide_True (P:=content_id_of c ∈ content_id_of c :: _)) by (done || by left).
  - destruct (decide (i ∈ content_id_of <$> contents)) as [Hin|Hout]; [by rewrite decide_True by by right|].
    rewrite decide_False; [done|]. by intros [?|?]%elem_of_cons.
Qed.

Lemma positioned_NoDup positions ids : positioned positions ids → NoDup ids.
Proof using Type. intros Hpos. apply NoDup_alt. intros p q i Ep Eq. apply Hpos in Ep, Eq. congruence. Qed.

Lemma combine_chunks_ok {E} chunks later : Forall2 chunk_ok chunks later → ∀ acc events, combined_ok acc events →
  ∃ acc', combine_contents (E:=E) acc (concat (tc_contents <$> chunks)) = Ok acc' ∧
    combined_ok acc' (λ i, events i ++ concat ((λ e, e i) <$> later)).
Proof using Type.
  induction 1 as [|chunk ev chunks later Hok _ IH]; intros acc events Hacc; cbn [fmap list_fmap concat].
  { exists acc. split; [done|]. destruct Hacc as [Hp Hw]. split; [done|]. intros i. by rewrite app_nil_r. }
  rewrite combine_contents_app. destruct Hok as [Hpos Hw _].
  destruct (combine_contents_ok (E:=E) chunk.(tc_contents) ev acc events Hacc (positioned_NoDup _ _ Hpos)) as (acc1 & -> & Hp1 & Hw1).
  { intros c [p Ep]%list_elem_of_lookup. rewrite <-Hw. assert (chunk.(tc_content_positions) !! content_id_of c = Some p) as ->; [|done].
    apply Hpos. by rewrite list_lookup_fmap, Ep. }
  cbn [mbind res_bind]. destruct (IH acc1 (λ i, events i ++ ev i)) as (acc' & -> & Hp' & Hw').
  { split; [done|]. intros i. rewrite Hw1. case_decide as Hin; [done|]. replace (ev i) with (@nil piece_event); [by rewrite app_nil_r|].
    symmetry. apply written_None. rewrite <-Hw. destruct (chunk.(tc_content_positions) !! i) as [p|] eqn:Ep; [|done]. destruct Hin.
    apply Hpos in Ep. by eapply list_elem_of_lookup_2. }
  exists acc'. split; [done|]. split; [done|]. intros i. by rewrite Hw', <-app_assoc.
Qed.

Lemma tail_contents_ok {E} objects tail : tail_of objects tail →
  ∃ contents, tail_contents (E:=E) tail = Ok contents ∧ NoDup (content_id_of <$> contents) ∧
    ∀ content, content ∈ contents ↔ written_content (all_records objects ≫= record_events (content_id_of content)) = Some content.
Proof using Type.
  intros [Hchunks _ _ _ _]. destruct (chunk_events _ _ Hchunks) as (events & Hev & Hall).
  destruct (combine_chunks_ok (E:=E) _ _ Hev (∅, []) (λ _, [])) as ([positions contents] & Ec & Hp & Hw).
  { split; [|done]. intros i p. cbn. by rewrite lookup_empty, lookup_nil. }
  exists contents. unfold tail_contents. rewrite Ec. cbn in Hp, Hw. split_and!; [done|by eapply positioned_NoDup|].
  intros content. rewrite Hall, <-Hw. split.
  - intros [p Ep]%list_elem_of_lookup. assert (positions !! content_id_of content = Some p) as ->; [|done].
    apply Hp. by rewrite list_lookup_fmap, Ep.
  - intros (p & _ & Ep)%bind_Some. by eapply list_elem_of_lookup_2.
Qed.

(** *** Rows *)
Lemma stack_push_delta states st seq id actor ms delta :
  stack_states (states ++ [apply_committed_wal_delta_mut st seq id actor ms delta])
  = apply_committed_wal_delta_mut (stack_states (states ++ [st])) seq id actor ms delta.
Proof.
  apply rebuilt_rows_eq; [apply stack_rebuilt|apply apply_delta_rebuilt, stack_rebuilt|..].
  all: destruct delta as [| | |? ? ? ? ? ? ? ? ? ? layout ?| | | |]; try destruct layout;
    cbn; rewrite ?bind_app; cbn; rewrite ?app_nil_r, ?app_assoc; done.
Qed.

Lemma stack_push_record states st record :
  stack_states (states ++ [apply_committed_wal_record_mut st record])
  = apply_committed_wal_record_mut (stack_states (states ++ [st])) record.
Proof.
  unfold apply_committed_wal_record_mut.
  set (step := λ state delta, apply_committed_wal_delta_mut state record.(wcp_committed_seq) record.(wcp_commit_id)
    record.(wcp_committed_by) record.(wcp_committed_at_ms) delta.(wcd_delta)).
  assert (∀ deltas st, stack_states (states ++ [foldl step st deltas]) = foldl step (stack_states (states ++ [st])) deltas) as Hfold.
  { intros deltas. induction deltas as [|d deltas IH]; intros st'; [done|]. cbn. rewrite IH. f_equal. apply stack_push_delta. }
  rewrite <-Hfold. apply rebuilt_rows_eq; [apply stack_rebuilt|apply push_receipt_rebuilt, push_commit_rebuilt, stack_rebuilt|..];
    cbn; rewrite ?bind_app; cbn; rewrite ?app_nil_r, ?app_assoc; done.
Qed.

Lemma stack_push_records states records : ∀ st,
  stack_states (states ++ [foldl apply_committed_wal_record_mut st records])
  = foldl apply_committed_wal_record_mut (stack_states (states ++ [st])) records.
Proof. induction records as [|r records IH]; intros st; [done|]. cbn. rewrite IH. f_equal. apply stack_push_record. Qed.

Lemma stack_snoc_default states : stack_states (states ++ [MetadataState_default]) = stack_states states.
Proof.
  apply rebuilt_rows_eq; [apply stack_rebuilt|apply stack_rebuilt|..]; cbn; rewrite bind_app; cbn; by rewrite ?app_nil_r.
Qed.

(** The tail's rows over base rows are the base rows after its commits. *)
Lemma tail_rows base objects chunks :
  Forall2 chunk_of (filter (λ object, object.1 ≠ []) objects) chunks →
  stack_states (base ++ (tc_rows <$> chunks)) = foldl apply_committed_wal_record_mut (stack_states base) (all_records objects).
Proof.
  revert base chunks. induction objects as [|object objects IH]; intros base chunks Hall.
  { apply Forall2_nil_inv_l in Hall as ->. by rewrite app_nil_r. }
  unfold all_records. cbn [fmap list_fmap concat]. rewrite foldl_app. fold (all_records objects). rewrite filter_cons in Hall. case_decide as Hne.
  - apply Forall2_cons_inv_l in Hall as (chunk & chunks' & Hof & Hall & ->). cbn [fmap list_fmap].
    rewrite cons_middle, app_assoc, (IH (base ++ [tc_rows chunk]) chunks' Hall). f_equal.
    by rewrite (cof_rows _ _ Hof), stack_push_records, stack_snoc_default.
  - rewrite Hne. by apply IH.
Qed.
End tail_reads.
