(* ===== verification/WalTail.v ===== *)
(** * Reading and writing the WAL

    [loonfs-core/src/wal]: the objects a writer prepares and publishes
    ([writer.rs], [publish.rs], [publish_error.rs]), the walk that validates
    numbered objects ([frame.rs], [reader.rs], [replay.rs]), discovery of the
    tip in widening windows ([discover.rs]), the replay of a validated tail,
    and which objects recovery still needs ([reclaim.rs]).

    The object store is a parameter: a GET of a key at a moment returns the
    object's bytes there or an error.  The GETs of a discovery window run
    together, so each has a moment of its own.  [probe_namespace_wal], which
    keeps its result in the read cache, is not modelled. *)
From S2P Require Import Prelude Types Records Utf8 Codec ObjectKeys Manifest SegmentBlocks MetadataState StateReads CommitSafety Wal ProjectedTail.
Local Open Scope N_scope.

(** ** The namespace state *)
Record NamespaceReadState := mkNamespaceReadState {
  ns_namespace_id : NamespaceId;
  ns_created_at_ms : N;
  ns_created_by : ActorId;
  ns_access : NamespaceAccess;
  ns_fork_basis : option ForkBasis;
  ns_family_root_id : NamespaceId;
  ns_status : NamespaceStatus;
  ns_writer_epoch : WriterEpoch;
  ns_writer : option WriterBlock;
  ns_seq : ChangeSeq;
  ns_wal_no : WalNo;
  ns_folded_wal_no : WalNo;
}.

Definition after_wal_object (head : NamespaceReadState) (payload : WalObjectPayload) : NamespaceReadState :=
  {| ns_namespace_id := head.(ns_namespace_id); ns_created_at_ms := head.(ns_created_at_ms);
     ns_created_by := head.(ns_created_by); ns_access := head.(ns_access); ns_fork_basis := head.(ns_fork_basis);
     ns_family_root_id := head.(ns_family_root_id); ns_status := head.(ns_status);
     ns_writer_epoch := head.(ns_writer_epoch); ns_writer := head.(ns_writer);
     ns_seq := payload.(wop_head_seq); ns_wal_no := payload.(wop_wal_no); ns_folded_wal_no := head.(ns_folded_wal_no) |}.

(** [impl From<&NamespaceManifestPayload> for NamespaceReadState]. *)
Definition read_state_from (manifest : NamespaceManifestPayload) : NamespaceReadState :=
  {| ns_namespace_id := manifest.(mp_namespace_id); ns_created_at_ms := manifest.(mp_created_at_ms);
     ns_created_by := manifest.(mp_created_by); ns_access := manifest.(mp_access); ns_fork_basis := manifest.(mp_fork_basis);
     ns_family_root_id := manifest.(mp_family_root_id); ns_status := manifest.(mp_status);
     ns_writer_epoch := manifest.(mp_writer_epoch); ns_writer := manifest.(mp_writer);
     ns_seq := manifest.(mp_head_seq); ns_wal_no := manifest.(mp_folded_wal_no); ns_folded_wal_no := manifest.(mp_folded_wal_no) |}.

(** [NamespaceReadState::unfolded_wal_objects]: a subtraction of [u64]. *)
Definition unfolded_wal_objects {E} (head : NamespaceReadState) : res E N := checked_sub head.(ns_wal_no) head.(ns_folded_wal_no).

(** ** Validated objects *)
Record ValidatedWalObject := mkValidatedWalObject {
  vo_object_key : string;
  vo_envelope : WalObjectEnvelope;
  vo_stored_bytes : N;
}.
Abbreviation ValidatedWalTail := (list ValidatedWalObject) (only parsing).
Definition vo_payload (object : ValidatedWalObject) : WalObjectPayload := object.(vo_envelope).(ve_payload).

(** [ValidatedWalTail::newest_commit_at_ms]. *)
Definition newest_commit_at_ms (objects : ValidatedWalTail) : option N :=
  wcp_committed_at_ms <$> head (omap (λ object, list.last (vo_payload object).(wop_records)) (reverse objects)).

(** [ValidatedWalTail::wal_bytes]. *)
Definition tail_wal_bytes (objects : ValidatedWalTail) : N :=
  foldr (λ object total, object.(vo_stored_bytes) + total) 0
    (filter (λ object, (vo_payload object).(wop_records) ≠ []) objects).

Definition push_published (objects : ValidatedWalTail) (envelope : WalObjectEnvelope) (stored_bytes : N) : ValidatedWalTail :=
  objects ++ [mkValidatedWalObject (keys.wal_object envelope.(ve_payload).(wop_namespace_id) envelope.(ve_payload).(wop_wal_no)) envelope stored_bytes].

Inductive WalTailLoadError : Set :=
| ReadWal (object_key : string) (kind : ObjectStoreErrorKind)
| MissingWalObject (object_key : string)
| NumberMismatch (object_key : string)
| HeadSeqMismatch (object_key : string) (expected actual : ChangeSeq)
| ReplayFailed (object_key : string) (error : WalObjectError).

(** [ControlObjectLoadError], the variants that discovery returns. *)
Inductive ControlObjectLoadError : Set :=
| ControlStore (object_key : string) (kind : ObjectStoreErrorKind)
| ControlCodec (object_key : string) (error : WalTailLoadError).

Definition wal_error (error : WalTailLoadError) : ControlObjectLoadError :=
  match error with
  | ReadWal object_key kind => ControlStore object_key kind
  | MissingWalObject object_key | NumberMismatch object_key | HeadSeqMismatch object_key _ _ | ReplayFailed object_key _ =>
      ControlCodec object_key error
  end.

(** [MetadataProjectionLoadError], the variants of the WAL. *)
Inductive MetadataProjectionLoadError : Set :=
| WalTailLoad (error : WalTailLoadError)
| WalReplay (object_key : string) (error : WalObjectError).

(** ** Replay *)
Fixpoint check_contiguous (expected_first_seq : ChangeSeq) (offset : N) (records : list WalCommitPayload) : res WalObjectError unit :=
  match records with
  | [] => Ok ()
  | record :: rest =>
      expected ← ok_or (checked_add U64_MAX expected_first_seq offset) SeqOverflow;
      if decide (record.(wcp_committed_seq) ≠ expected) then Err (NonContiguousSeq expected record.(wcp_committed_seq))
      else check_contiguous expected_first_seq (offset + 1) rest
  end.

Definition validate_wal_object_for_replay (expected_prior_head_seq : ChangeSeq) (payload : WalObjectPayload) : res WalObjectError unit :=
  if bool_decide (payload.(wop_records) = []) then
    if decide (payload.(wop_head_seq) ≠ expected_prior_head_seq) then Err SummaryMismatch else Ok ()
  else
    expected_first_seq ← ok_or (next_public_ordinal expected_prior_head_seq) SeqOverflow;
    if bool_decide (wcp_committed_seq <$> head payload.(wop_records) ≠ Some expected_first_seq) ||
       bool_decide (wcp_committed_seq <$> list.last payload.(wop_records) ≠ Some payload.(wop_head_seq))
    then Err SummaryMismatch
    else check_contiguous expected_first_seq 0 payload.(wop_records).

Section replay.
Context `{HeapBytes}.

Fixpoint project_objects (head : NamespaceReadState) (tail : ProjectedWalTail) (objects : ValidatedWalTail)
    : res MetadataProjectionLoadError (NamespaceReadState * ProjectedWalTail) :=
  match objects with
  | [] => Ok (head, tail)
  | object :: rest =>
      tail ← map_err (WalReplay object.(vo_object_key)) (push_object tail (vo_payload object).(wop_records) object.(vo_stored_bytes));
      project_objects (after_wal_object head (vo_payload object)) tail rest
  end.

Definition project_validated_wal_tail (base_head : NamespaceReadState) (tail : ProjectedWalTail) (wal_tail : ValidatedWalTail)
    : res MetadataProjectionLoadError (NamespaceReadState * ProjectedWalTail) :=
  project_objects base_head tail wal_tail.

Definition replay_discovered_tail (base_head : NamespaceReadState) (base_metadata_state : MetadataState) (tail : ValidatedWalTail)
    : res MetadataProjectionLoadError (NamespaceReadState * ProjectedWalTail) :=
  project_validated_wal_tail base_head (ProjectedWalTail_from_rows base_metadata_state) tail.
End replay.

(** ** Reading *)
Record StoredWalEnvelope := mkStoredWalEnvelope { se_envelope : WalObjectEnvelope; se_stored_bytes : N }.

Record WalWalk := mkWalWalk {
  ww_namespace_id : NamespaceId;
  ww_wal_no : WalNo;
  ww_seq : ChangeSeq;
  ww_epoch : WriterEpoch;
  ww_epoch_bound : WriterEpoch;
}.

Definition WalWalk_after (namespace_id : NamespaceId) (wal_no : WalNo) (seq : ChangeSeq) (epoch_bound : WriterEpoch) : WalWalk :=
  mkWalWalk namespace_id wal_no seq 0 epoch_bound.

(** [WalWalk::validate]. *)
Definition walk_validate (walk : WalWalk) (object_key : string) (stored : StoredWalEnvelope)
    : res WalTailLoadError (ValidatedWalObject * WalWalk) :=
  let payload := stored.(se_envelope).(ve_payload) in
  if bool_decide (payload.(wop_writer_epoch) < walk.(ww_epoch)) || bool_decide (walk.(ww_epoch_bound) < payload.(wop_writer_epoch))
  then Err (ReplayFailed object_key (WriterEpochMismatch walk.(ww_epoch_bound) payload.(wop_writer_epoch)))
  else
    _ ← map_err (ReplayFailed object_key) (validate_wal_object_for_replay walk.(ww_seq) payload);
    Ok (mkValidatedWalObject object_key stored.(se_envelope) stored.(se_stored_bytes),
        mkWalWalk walk.(ww_namespace_id) payload.(wop_wal_no) payload.(wop_head_seq) payload.(wop_writer_epoch) walk.(ww_epoch_bound)).

Section reading.
Context `{SectionCodecs} `{WalCodecs}.
(** GET of a key at a moment. *)
Context (store_get : nat → string → res ObjectStoreErrorKind (option bytes)).

(** [load_wal_object]: the object's key and what the load gave. *)
Definition load_wal_object (moment : nat) (namespace_id : NamespaceId) (wal_no : WalNo)
    : string * res WalTailLoadError (option StoredWalEnvelope) :=
  let object_key := keys.wal_object namespace_id wal_no in
  (object_key,
   stored ← map_err (ReadWal object_key) (store_get moment object_key);
   match stored with
   | None => Ok None
   | Some stored =>
       envelope ← map_err (ReplayFailed object_key ∘ WalObjectCodec object_key) (decode_wal_object_envelope_zstd stored);
       if decide (envelope.(ve_payload).(wop_wal_no) ≠ wal_no) then Err (NumberMismatch object_key)
       else if decide (envelope.(ve_payload).(wop_namespace_id) ≠ namespace_id)
       then Err (ReplayFailed object_key (NamespaceMismatch namespace_id envelope.(ve_payload).(wop_namespace_id)))
       else Ok (Some (mkStoredWalEnvelope envelope (blen stored)))
   end).

(** [load_wal_tail]: [moments] gives each GET its moment. *)
Fixpoint load_objects (moments : nat → nat) (walk : WalWalk) (numbers : list WalNo) (index : nat)
    : res WalTailLoadError (ValidatedWalTail * WalWalk) :=
  match numbers with
  | [] => Ok ([], walk)
  | number :: rest =>
      let '(object_key, envelope) := load_wal_object (moments index) walk.(ww_namespace_id) number in
      envelope ← envelope;
      stored ← ok_or envelope (MissingWalObject object_key);
      '(object, walk) ← walk_validate walk object_key stored;
      '(objects, walk) ← load_objects moments walk rest (S index);
      Ok (object :: objects, walk)
  end.

Definition load_wal_tail (moments : nat → nat) (namespace_id : NamespaceId) (base_seq head_seq : ChangeSeq)
    (base_wal_no tip_wal_no : WalNo) (writer_epoch : WriterEpoch) : res WalTailLoadError ValidatedWalTail :=
  let walk := WalWalk_after namespace_id base_wal_no base_seq writer_epoch in
  let numbers := (λ i, base_wal_no + N.of_nat i + 1) <$> seq 0 (N.to_nat (tip_wal_no - base_wal_no)) in
  '(objects, walk) ← load_objects moments walk numbers 0;
  if decide (walk.(ww_seq) ≠ head_seq)
  then Err (HeadSeqMismatch (keys.wal_object walk.(ww_namespace_id) walk.(ww_wal_no)) head_seq walk.(ww_seq))
  else Ok objects.

(** [load_replayed_wal_tail]. *)
Definition load_replayed_wal_tail `{HeapBytes} (moments : nat → nat) (base_head current_head : NamespaceReadState) (base_metadata_state : MetadataState)
    : res MetadataProjectionLoadError (NamespaceReadState * ProjectedWalTail) :=
  tail ← map_err WalTailLoad (load_wal_tail moments current_head.(ns_namespace_id) base_head.(ns_seq) current_head.(ns_seq)
    base_head.(ns_wal_no) current_head.(ns_wal_no) current_head.(ns_writer_epoch));
  replay_discovered_tail base_head base_metadata_state tail.

(** ** Discovery *)
Definition WAL_DISCOVERY_PROBE_WAVE : nat := 16.

Inductive WalReadOutcome : Set := ReadEnded | ReadGap (object_key : string).

(** The moments of the GETs of a round: of the window's numbers and of the
    numbers it reads again. *)
Context (window_moment again_moment : nat → nat → nat).
Context {A : Type} (each : A → string → StoredWalEnvelope → res ControlObjectLoadError (A * bool)).

Definition is_present (loaded : string * res WalTailLoadError (option StoredWalEnvelope)) : bool :=
  match loaded.2 with Ok (Some _) => true | _ => false end.

(** [iter().rposition()]. *)
Definition rposition {X} (p : X → bool) (l : list X) : option nat :=
  foldl (λ found i, match l !! i with Some x => if p x then Some i else found | None => found end) None (seq 0 (length l)).

Fixpoint read_window (namespace_id : NamespaceId) (round : nat) (first : WalNo) (last_present : option nat) (index : nat)
    (loaded : list (string * res WalTailLoadError (option StoredWalEnvelope))) (acc : A)
    : res ControlObjectLoadError (A * option WalReadOutcome) :=
  match loaded with
  | [] => Ok (acc, None)
  | (object_key, envelope) :: rest =>
      envelope ← map_err wal_error envelope;
      found ←
        match envelope with
        | Some envelope => Ok (inl (object_key, envelope))
        | None =>
            if match last_present with None => true | Some last => bool_decide (last < index)%nat end then Ok (inr ReadEnded)
            else
              let '(object_key, again) := load_wal_object (again_moment round index) namespace_id (first + N.of_nat index) in
              again ← map_err wal_error again;
              match again with
              | Some envelope => Ok (inl (object_key, envelope))
              | None => Ok (inr (ReadGap object_key))
              end
        end;
      match found with
      | inr outcome => Ok (acc, Some outcome)
      | inl (object_key, envelope) =>
          '(acc, is_break) ← each acc object_key envelope;
          if is_break : bool then Ok (acc, Some ReadEnded)
          else read_window namespace_id round first last_present (S index) rest acc
      end
  end.

Fixpoint load_wal_after (fuel round : nat) (namespace_id : NamespaceId) (through : WalNo) (window : nat) (acc : A)
    : res ControlObjectLoadError (A * WalReadOutcome) :=
  match fuel with
  | O => OutOfFuel
  | S fuel =>
      let end_ := N.min (through + N.of_nat window) MAX_PUBLIC_INTEGER in
      let loaded :=
        (λ i, load_wal_object (window_moment round i) namespace_id (through + N.of_nat i + 1))
          <$> seq 0 (N.to_nat (end_ - through)) in
      '(acc, outcome) ← read_window namespace_id round (through + 1) (rposition is_present loaded) 0 loaded acc;
      match outcome with
      | Some outcome => Ok (acc, outcome)
      | None =>
          if decide (end_ = MAX_PUBLIC_INTEGER) then Ok (acc, ReadEnded)
          else load_wal_after fuel (S round) namespace_id end_ (Nat.min (window * 2) WAL_DISCOVERY_PROBE_WAVE) acc
      end
  end.
End reading.

(** [discover_tail]: the walk, the head it reached and the objects. *)
Definition discover_each (acc : WalWalk * NamespaceReadState * ValidatedWalTail) (object_key : string) (envelope : StoredWalEnvelope)
    : res ControlObjectLoadError (WalWalk * NamespaceReadState * ValidatedWalTail * bool) :=
  let '(walk, head, objects) := acc in
  '(object, walk) ← map_err wal_error (walk_validate walk object_key envelope);
  Ok (walk, after_wal_object head (vo_payload object), objects ++ [object], false).

Definition discover_tail `{SectionCodecs} `{WalCodecs} (store_get : nat → string → res ObjectStoreErrorKind (option bytes))
    (window_moment again_moment : nat → nat → nat) (fuel : nat) (manifest : NamespaceManifestPayload)
    : res ControlObjectLoadError (NamespaceReadState * ValidatedWalTail) :=
  let head := read_state_from manifest in
  if is_deleted head.(ns_status) then Ok (head, [])
  else
    let walk := WalWalk_after manifest.(mp_namespace_id) head.(ns_wal_no) head.(ns_seq) head.(ns_writer_epoch) in
    '(_, head, objects, outcome) ←
      load_wal_after store_get window_moment again_moment discover_each fuel 0 manifest.(mp_namespace_id) head.(ns_wal_no) 1 (walk, head, []);
    match outcome with
    | ReadGap object_key => Err (wal_error (MissingWalObject object_key))
    | ReadEnded => Ok (head, objects)
    end.

(** ** Writing *)

(** [prepare_wal_object_from_payloads]. *)
Definition prepare_wal_object_from_payloads `{SectionCodecs} `{WalCodecs} {E} (at_last_number : WalNo → E) (namespace_id : NamespaceId)
    (writer_epoch : WriterEpoch) (head : NamespaceReadState) (payload_records : list WalCommitPayload)
    : res E (EncodedEnvelope WalObjectPayload) :=
  wal_no ← ok_or (next_public_ordinal head.(ns_wal_no)) (at_last_number head.(ns_wal_no));
  let payload :=
    mkWalObjectPayload namespace_id wal_no writer_epoch
      (match list.last payload_records with Some record => record.(wcp_committed_seq) | None => head.(ns_seq) end) payload_records in
  match encode_wal_object_envelope_zstd payload with
  | Ok object =>
      match validate_wal_object_for_replay head.(ns_seq) object.(ee_envelope).(ve_payload) with
      | Ok () => Ok object
      | _ => Panic
      end
  | _ => Panic
  end.

(** ** Reclamation *)
Definition live_folded_wal_no (head : NamespaceReadState) : option WalNo :=
  if is_deleted head.(ns_status) then None else Some head.(ns_folded_wal_no).

Definition object_is_required (key : string) (folded_wal_no : WalNo) : bool :=
  match wal_no_of key with None => true | Some number => bool_decide (folded_wal_no < number) end.

(** ** Specifications *)

(** The commits of an object follow the head's sequence without gaps, and the
    object names the last one. *)
Definition replays_after (prior : ChangeSeq) (payload : WalObjectPayload) : Prop :=
  (wcp_committed_seq <$> payload.(wop_records)) = (λ i, prior + N.of_nat i + 1) <$> seq 0 (length payload.(wop_records)) ∧
  payload.(wop_head_seq) = prior + N.of_nat (length payload.(wop_records)) ∧
  (payload.(wop_records) ≠ [] → payload.(wop_head_seq) ≤ U64_MAX ∧ prior < MAX_PUBLIC_INTEGER).

(** What the writer's log of objects after a head holds: each object was
    prepared on the head the objects before it reach, within the size limit,
    and writer epochs do not go back. *)
Abbreviation WalLog := (list (EncodedEnvelope WalObjectPayload)) (only parsing).
Definition lo_payload (object : EncodedEnvelope WalObjectPayload) : WalObjectPayload := object.(ee_envelope).(ve_payload).

Fixpoint log_from `{SectionCodecs} `{WalCodecs} (namespace_id : NamespaceId) (head : NamespaceReadState) (epoch : WriterEpoch) (log : WalLog) : Prop :=
  match log with
  | [] => True
  | object :: rest =>
      prepare_wal_object_from_payloads (E:=WalNo) id namespace_id (lo_payload object).(wop_writer_epoch) head (lo_payload object).(wop_records) = Ok object ∧
      object.(ee_document_bytes) ≤ MAX_WAL_OBJECT_BYTES ∧ epoch ≤ (lo_payload object).(wop_writer_epoch) ∧
      log_from namespace_id (after_wal_object head (lo_payload object)) (lo_payload object).(wop_writer_epoch) rest
  end.

Definition head_after (head : NamespaceReadState) (log : WalLog) : NamespaceReadState :=
  foldl (λ head object, after_wal_object head (lo_payload object)) head log.
Definition epoch_after (epoch : WriterEpoch) (log : WalLog) : WriterEpoch :=
  foldl (λ _ object, (lo_payload object).(wop_writer_epoch)) epoch log.
Definition validated (object : EncodedEnvelope WalObjectPayload) : ValidatedWalObject :=
  mkValidatedWalObject (keys.wal_object (lo_payload object).(wop_namespace_id) (lo_payload object).(wop_wal_no))
    object.(ee_envelope) (blen object.(ee_bytes)).

(** A store of the log until [finish]: at a moment the first objects are
    there, as many as were published by then, and a GET may fail. *)
Record wal_store (namespace_id : NamespaceId) (folded : WalNo) (log : WalLog) (published : nat → nat) (finish : nat)
    (store_get : nat → string → res ObjectStoreErrorKind (option bytes)) : Prop := {
  wst_get : ∀ moment i, (moment ≤ finish)%nat → folded + N.of_nat i < MAX_PUBLIC_INTEGER →
    (∃ kind, store_get moment (keys.wal_object namespace_id (folded + N.of_nat i + 1)) = Err kind) ∨
    store_get moment (keys.wal_object namespace_id (folded + N.of_nat i + 1))
      = Ok (if bool_decide (i < published moment)%nat then ee_bytes <$> log !! i else None);
  wst_published : ∀ moment later, (moment ≤ later ≤ finish)%nat → (published moment ≤ published later ≤ length log)%nat;
}.

(** The moments of a discovery: from [start] to [finish], a number read again
    after its window was read. *)
Record read_order (start finish fuel : nat) (window_moment again_moment : nat → nat → nat) : Prop := {
  ro_start : ∀ round i, (start ≤ window_moment round i)%nat;
  ro_again : ∀ round i j, (window_moment round i ≤ again_moment round j)%nat;
  ro_finish : ∀ round i, (round < fuel)%nat → (again_moment round i ≤ finish)%nat;
}.

(** ** Replay validation *)
Lemma check_contiguous_ok first records : ∀ offset,
  check_contiguous first offset records = Ok () ↔
  (wcp_committed_seq <$> records) = (λ i, first + offset + N.of_nat i) <$> seq 0 (length records) ∧
  (records ≠ [] → first + offset + N.of_nat (length records) ≤ U64_MAX + 1).
Proof.
  induction records as [|record records IH]; intros offset; [done|]. cbn [check_contiguous length seq fmap list_fmap].
  rewrite <-fmap_S_seq, <-list_fmap_compose. unfold checked_add.
  destruct (decide (first + offset ≤ U64_MAX)) as [Hle|Hgt]; cbn [ok_or mbind res_bind].
  2:{ split; [done|]. intros [_ Hb]. specialize (Hb ltac:(done)). lia. }
  case_decide as Hne.
  { split; [done|]. intros [[= Hhd _] _]. lia. }
  assert (record.(wcp_committed_seq) = first + offset + N.of_nat 0) as Hhd by (destruct (decide (record.(wcp_committed_seq) = first + offset)); [lia|done]).
  rewrite IH, Hhd.
  assert (((λ i, first + (offset + 1) + N.of_nat i) <$> seq 0 (length records)) = ((λ i, first + offset + N.of_nat i) ∘ S <$> seq 0 (length records))) as ->.
  { apply list_fmap_ext. intros _ i _. cbn. lia. }
  split.
  - intros [-> Hb]. split; [done|]. intros _. destruct records; [cbn; lia|]. specialize (Hb ltac:(done)). cbn in *. lia.
  - intros [[= Htl] Hb]. split; [done|]. intros _. specialize (Hb ltac:(done)). lia.
Qed.

Lemma validate_replay_ok prior payload : validate_wal_object_for_replay prior payload = Ok () ↔ replays_after prior payload.
Proof.
  unfold validate_wal_object_for_replay, replays_after. destruct payload as [ns no epoch head_seq records]. cbn [wop_records wop_head_seq].
  case_bool_decide as Hempty.
  { subst records. cbn. case_decide; split; intros; try done.
    - lia.
    - split_and!; [done| |done]. destruct (decide (head_seq = prior)); [lia|done]. }
  destruct (next_public_ordinal prior) as [first|] eqn:Enext; cbn [ok_or mbind res_bind].
  2:{ split; [done|]. intros (_ & _ & Hb). destruct (Hb Hempty) as [_ Hlt].
      assert (next_public_ordinal prior = Some (prior + 1)) by (apply next_public_ordinal_Some; split; [done|lia]). congruence. }
  apply next_public_ordinal_Some in Enext as [-> Hlt].
  assert (∀ l, (wcp_committed_seq <$> records) = (λ i, prior + 1 + 0 + N.of_nat i) <$> seq 0 l → l = length records →
    wcp_committed_seq <$> head records = Some (prior + 1) ∧ wcp_committed_seq <$> list.last records = Some (prior + N.of_nat (length records))) as Hends.
  { intros l Heq ->. assert (wcp_committed_seq <$> head records = head (wcp_committed_seq <$> records)) as -> by (by destruct records).
    rewrite <-fmap_last, Heq. destruct records as [|r records]; [done|]. split; [cbn; f_equal; lia|].
    cbn [length]. rewrite seq_S, fmap_app. cbn [fmap list_fmap]. rewrite last_snoc. f_equal. lia. }
  assert ((wcp_committed_seq <$> records) = (λ i, prior + 1 + 0 + N.of_nat i) <$> seq 0 (length records) ↔
    (wcp_committed_seq <$> records) = (λ i, prior + N.of_nat i + 1) <$> seq 0 (length records)) as Hshape.
  { assert (((λ i, prior + 1 + 0 + N.of_nat i) <$> seq 0 (length records)) = ((λ i, prior + N.of_nat i + 1) <$> seq 0 (length records))) as ->; [|done].
    apply list_fmap_ext. intros _ i _. lia. }
  destruct (bool_decide _ || bool_decide _) eqn:Eb.
  - split; [done|]. intros (Hseq & Hhead & _). destruct (Hends _ (proj2 Hshape Hseq) eq_refl) as [E1 E2].
    rewrite E1, E2, <-Hhead in Eb. rewrite !bool_decide_eq_false_2 in Eb by (by intros []). done.
  - apply orb_false_iff in Eb as [E1 E2]. apply bool_decide_eq_false in E1, E2. rewrite check_contiguous_ok, Hshape. split.
    + intros [Hseq Hb]. destruct (Hends _ (proj2 Hshape Hseq) eq_refl) as [_ E3]. rewrite E3 in E2.
      assert (head_seq = prior + N.of_nat (length records)) as ->.
      { destruct (decide (head_seq = prior + N.of_nat (length records))); [done|]. exfalso. apply E2. congruence. }
      specialize (Hb Hempty). split_and!; [done|done|]. intros _. lia.
    + intros (Hseq & Hhead & Hb). split; [done|]. intros _. destruct (Hb Hempty). lia.
Qed.

(** ** The writer's log *)
Section log.
Context `{SectionCodecLaws} `{WalCodecLaws}.

Lemma prepare_exact {E} (at_last_number : WalNo → E) namespace_id writer_epoch head records object :
  prepare_wal_object_from_payloads at_last_number namespace_id writer_epoch head records = Ok object →
  let payload := lo_payload object in
  payload.(wop_writer_epoch) = writer_epoch ∧ payload.(wop_records) = records ∧
  payload.(wop_namespace_id) = namespace_id ∧ payload.(wop_wal_no) = head.(ns_wal_no) + 1 ∧ head.(ns_wal_no) + 1 ≤ MAX_PUBLIC_INTEGER ∧
  wal_object_ok payload ∧ validate_wal_object_for_replay head.(ns_seq) payload = Ok () ∧
  (object.(ee_document_bytes) ≤ MAX_WAL_OBJECT_BYTES → decode_wal_object_envelope_zstd object.(ee_bytes) = Ok object.(ee_envelope)).
Proof.
  intros Ep. unfold prepare_wal_object_from_payloads in Ep. step_ok Ep wal_no Hno.
  destruct (next_public_ordinal head.(ns_wal_no)) as [no|] eqn:En; [|done]. injection Hno as ->.
  apply next_public_ordinal_Some in En as [-> Hmax]. destruct (encode_wal_object_envelope_zstd _) as [encoded| | |] eqn:Ee; [|done..].
  destruct (validate_wal_object_for_replay _ _) as [[]| | |] eqn:Ev; [|done..]. injection Ep as <-.
  destruct (encode_wal_exact _ _ Ee) as (Epay & Hok & Hdecode). cbv zeta. unfold lo_payload. rewrite Epay in *. done.
Qed.

Record logged (namespace_id : NamespaceId) (head : NamespaceReadState) (epoch : WriterEpoch) (object : EncodedEnvelope WalObjectPayload) : Prop := {
  lg_namespace : (lo_payload object).(wop_namespace_id) = namespace_id;
  lg_number : (lo_payload object).(wop_wal_no) = head.(ns_wal_no) + 1;
  lg_max : head.(ns_wal_no) + 1 ≤ MAX_PUBLIC_INTEGER;
  lg_ok : wal_object_ok (lo_payload object);
  lg_replays : validate_wal_object_for_replay head.(ns_seq) (lo_payload object) = Ok ();
  lg_decodes : decode_wal_object_envelope_zstd object.(ee_bytes) = Ok object.(ee_envelope);
  lg_epoch : epoch ≤ (lo_payload object).(wop_writer_epoch);
}.

Lemma log_object namespace_id log : ∀ head epoch i object, log_from namespace_id head epoch log → log !! i = Some object →
  logged namespace_id (head_after head (take i log)) (epoch_after epoch (take i log)) object ∧
  (head_after head (take i log)).(ns_wal_no) = head.(ns_wal_no) + N.of_nat i.
Proof.
  induction log as [|first log IH]; intros head epoch i object Hlog Hi; [done|]. destruct Hlog as (Hprep & Hsize & Hepoch & Hlog).
  destruct (prepare_exact _ _ _ _ _ _ Hprep) as (_ & _ & E1 & E2 & Hmax & Hok & Hreplay & Hdecode).
  destruct i as [|i]; [injection Hi as <-; cbn; split; [by split; auto|lia]|].
  destruct (IH _ _ i object Hlog Hi) as [Hlg Hno]. cbn [take head_after epoch_after foldl]. split; [done|].
  unfold head_after in Hno. rewrite Hno. cbn [after_wal_object ns_wal_no]. lia.
Qed.

Lemma log_length namespace_id log head epoch : log_from namespace_id head epoch log → log ≠ [] →
  head.(ns_wal_no) + N.of_nat (length log) ≤ MAX_PUBLIC_INTEGER.
Proof.
  intros Hlog Hne. destruct (lookup_lt_is_Some_2 log (length log - 1)) as [object Ho]; [destruct log; [done|cbn; lia]|].
  destruct (log_object _ _ _ _ _ _ Hlog Ho) as [Hlg Hno]. pose proof (lg_max _ _ _ _ Hlg). rewrite Hno in *. destruct log; [done|cbn in *; lia].
Qed.

Lemma log_keys namespace_id log head epoch i object : log_from namespace_id head epoch log → log !! i = Some object →
  keys.wal_object (lo_payload object).(wop_namespace_id) (lo_payload object).(wop_wal_no)
  = keys.wal_object namespace_id (head.(ns_wal_no) + N.of_nat i + 1).
Proof.
  intros Hlog Hi. destruct (log_object _ _ _ _ _ _ Hlog Hi) as [Hlg Hno]. by rewrite (lg_namespace _ _ _ _ Hlg), (lg_number _ _ _ _ Hlg), Hno.
Qed.
End log.

(** ** Discovery *)
Section discovery.
Context `{SectionCodecLaws} `{WalCodecLaws}.
Context (manifest : NamespaceManifestPayload) (log : WalLog) (published : nat → nat).
Context (store_get : nat → string → res ObjectStoreErrorKind (option bytes)) (window_moment again_moment : nat → nat → nat).
Context (start finish fuel : nat).
Let namespace_id := manifest.(mp_namespace_id).
Let folded := manifest.(mp_folded_wal_no).
Let base := read_state_from manifest.
Hypothesis Hlog : log_from namespace_id base 0 log.
Hypothesis Hstore : wal_store namespace_id folded log published finish store_get.
Hypothesis Horder : read_order start finish fuel window_moment again_moment.

(** Discovery's state after the first objects of the log. *)
Definition walk_at (k : nat) : WalWalk * NamespaceReadState * ValidatedWalTail :=
  let head := head_after base (take k log) in
  (mkWalWalk namespace_id head.(ns_wal_no) head.(ns_seq) (epoch_after 0 (take k log)) manifest.(mp_writer_epoch), head, validated <$> take k log).

(** The objects are of writers up to the manifest's. *)
Definition epochs_bounded (k : nat) : Prop :=
  ∀ object, object ∈ take k log → (lo_payload object).(wop_writer_epoch) ≤ manifest.(mp_writer_epoch).

(** What an error of discovery says of the store or of the manifest read. *)
Definition discovery_error (error : ControlObjectLoadError) : Prop :=
  match error with
  | ControlStore object_key kind => ∃ moment, store_get moment object_key = Err kind
  | ControlCodec object_key error => ∃ object, object ∈ take (published finish) log ∧
      manifest.(mp_writer_epoch) < (lo_payload object).(wop_writer_epoch) ∧ object_key = (validated object).(vo_object_key) ∧
      error = ReplayFailed object_key (WriterEpochMismatch manifest.(mp_writer_epoch) (lo_payload object).(wop_writer_epoch))
  end.

Lemma load_ok moment i : (moment ≤ finish)%nat → folded + N.of_nat i < MAX_PUBLIC_INTEGER →
  let key := keys.wal_object namespace_id (folded + N.of_nat i + 1) in
  (∃ kind, load_wal_object store_get moment namespace_id (folded + N.of_nat i + 1) = (key, Err (ReadWal key kind)) ∧ store_get moment key = Err kind) ∨
  load_wal_object store_get moment namespace_id (folded + N.of_nat i + 1)
    = (key, Ok (if bool_decide (i < published moment)%nat
        then (λ object, mkStoredWalEnvelope object.(ee_envelope) (blen object.(ee_bytes))) <$> log !! i else None)).
Proof.
  intros Hmoment Hi key. unfold load_wal_object. fold key. destruct (wst_get _ _ _ _ _ _ Hstore moment i Hmoment Hi) as [[kind Ek]|Eg].
  { left. exists kind. fold key in Ek. by rewrite Ek. }
  right. fold key in Eg. rewrite Eg. cbn [map_err mbind res_bind]. case_bool_decide; [|done]. destruct (log !! i) as [object|] eqn:Eo; [|done].
  cbn [fmap option_fmap option_map]. destruct (log_object _ _ _ _ _ _ Hlog Eo) as [Hlg Hno].
  rewrite (lg_decodes _ _ _ _ Hlg). cbn [map_err mbind res_bind]. pose proof (lg_number _ _ _ _ Hlg) as En. rewrite Hno in En.
  pose proof (lg_namespace _ _ _ _ Hlg) as Ens. unfold lo_payload in *. rewrite En, Ens.
  change (ns_wal_no base) with folded. rewrite !decide_False by (by intros []). done.
Qed.

Lemma discover_each_ok k object : log !! k = Some object → (k < published finish)%nat →
  let key := keys.wal_object namespace_id (folded + N.of_nat k + 1) in
  match discover_each (walk_at k) key (mkStoredWalEnvelope object.(ee_envelope) (blen object.(ee_bytes))) with
  | Ok result => result = (walk_at (S k), false) ∧ (lo_payload object).(wop_writer_epoch) ≤ manifest.(mp_writer_epoch)
  | Err error => discovery_error error
  | Panic | OutOfFuel => False
  end.
Proof.
  intros Hk Hpub key. destruct (log_object _ _ _ _ _ _ Hlog Hk) as [Hlg Hno]. pose proof (log_keys _ _ _ _ _ _ Hlog Hk) as Hkey.
  unfold discover_each, walk_at, walk_validate. cbn [se_envelope se_stored_bytes ww_epoch ww_epoch_bound ww_seq ww_namespace_id].
  fold (lo_payload object). rewrite (bool_decide_eq_false_2 (_ < epoch_after _ _)) by (pose proof (lg_epoch _ _ _ _ Hlg); lia). cbn [orb].
  case_bool_decide as Hbound; cbn [map_err mbind res_bind wal_error].
  { exists object. split_and!; [|done|symmetry; exact Hkey|done]. apply list_elem_of_lookup. exists k. by rewrite lookup_take_lt. }
  rewrite (lg_replays _ _ _ _ Hlg). cbn [map_err mbind res_bind]. unfold vo_payload. cbn [vo_envelope]. fold (lo_payload object).
  rewrite (take_S_r _ _ _ Hk). unfold head_after, epoch_after. rewrite !foldl_app, fmap_app. cbn [foldl fmap list_fmap]. unfold validated at 3.
  rewrite Hkey. split; [done|lia].
Qed.

Lemma again_finish round i : (round < fuel)%nat → (window_moment round i ≤ finish ∧ again_moment round i ≤ finish)%nat.
Proof. intros Hr. pose proof (ro_again _ _ _ _ _ Horder round i i). pose proof (ro_finish _ _ _ _ _ Horder round i Hr). lia. Qed.
Lemma published_start round i : (round < fuel)%nat → (published start ≤ published (window_moment round i))%nat.
Proof.
  intros Hr. apply (wst_published _ _ _ _ _ _ Hstore). pose proof (again_finish round i Hr). split; [apply (ro_start _ _ _ _ _ Horder)|lia].
Qed.
Lemma published_again round i j : (round < fuel)%nat → (published (window_moment round i) ≤ published (again_moment round j))%nat.
Proof.
  intros Hr. apply (wst_published _ _ _ _ _ _ Hstore). pose proof (again_finish round j Hr). split; [apply (ro_again _ _ _ _ _ Horder)|lia].
Qed.
Lemma published_finish round i : (round < fuel)%nat → (published (again_moment round i) ≤ published finish ≤ length log)%nat.
Proof. intros Hr. apply (wst_published _ _ _ _ _ _ Hstore). pose proof (again_finish round i Hr). lia. Qed.

(** A discovery that stopped has a prefix of the log that starts with all
    that was published before it and is all published when it ends. *)
Definition discovered (acc : WalWalk * NamespaceReadState * ValidatedWalTail) : Prop :=
  ∃ k, (published start ≤ k ≤ published finish)%nat ∧ acc = walk_at k ∧ epochs_bounded k.

Definition window_ok (k : nat) (result : res ControlObjectLoadError (WalWalk * NamespaceReadState * ValidatedWalTail * option WalReadOutcome)) : Prop :=
  match result with
  | Ok (acc, None) => acc = walk_at k ∧ (k ≤ published finish)%nat ∧ epochs_bounded k
  | Ok (acc, Some ReadEnded) => discovered acc
  | Ok (_, Some (ReadGap _)) | Panic | OutOfFuel => False
  | Err error => discovery_error error
  end.

Lemma each_window_ok k object (rest : WalWalk * NamespaceReadState * ValidatedWalTail → res ControlObjectLoadError
    (WalWalk * NamespaceReadState * ValidatedWalTail * option WalReadOutcome)) n :
  log !! k = Some object → (k < published finish)%nat → epochs_bounded k → (epochs_bounded (S k) → window_ok n (rest (walk_at (S k)))) →
  window_ok n
    ('(acc, is_break) ← discover_each (walk_at k) (keys.wal_object namespace_id (folded + N.of_nat k + 1))
       (mkStoredWalEnvelope object.(ee_envelope) (blen object.(ee_bytes)));
     if is_break : bool then Ok (acc, Some ReadEnded) else rest acc).
Proof.
  intros Hk Hpub Hepochs Hrest. pose proof (discover_each_ok k object Hk Hpub) as Heach. cbv zeta in Heach.
  destruct (discover_each _ _ _) as [result|error| |]; [|done..]. destruct Heach as [-> Hepoch].
  cbn [mbind res_bind]. apply Hrest. intros o. rewrite (take_S_r _ _ _ Hk). intros [Ho|Ho%list_elem_of_singleton]%elem_of_app; [by apply Hepochs|by subst o].
Qed.

Lemma log_published k : (k < published finish)%nat → ∃ object, log !! k = Some object.
Proof. intros Hk. apply lookup_lt_is_Some_2. pose proof (wst_published _ _ _ _ _ _ Hstore finish finish). lia. Qed.

Lemma read_window_ok round k last_present : (round < fuel)%nat →
  (∀ last, last_present = Some last → ∃ i, (k + last < published (window_moment round i))%nat) →
  ∀ n index, (k + index ≤ published finish)%nat → epochs_bounded (k + index) → folded + N.of_nat (k + index + n) ≤ MAX_PUBLIC_INTEGER →
  window_ok (k + index + n)
    (read_window store_get again_moment discover_each namespace_id round (folded + N.of_nat k + 1) last_present index
      ((λ i, load_wal_object store_get (window_moment round i) namespace_id (folded + N.of_nat k + N.of_nat i + 1)) <$> seq index n) (walk_at (k + index))).
Proof.
  intros Hround Hlast. induction n as [|n IH]; intros index Hindex Hepochs Hmax; cbn [seq fmap list_fmap read_window]; [rewrite Nat.add_0_r; by split_and!|].
  assert (∀ object, log !! (k + index)%nat = Some object → (k + index < published finish)%nat →
    window_ok (k + index + S n) ('(acc, is_break) ← discover_each (walk_at (k + index)) (keys.wal_object namespace_id (folded + N.of_nat (k + index) + 1))
       (mkStoredWalEnvelope object.(ee_envelope) (blen object.(ee_bytes)));
     if is_break : bool then Ok (acc, Some ReadEnded) else
       read_window store_get again_moment discover_each namespace_id round (folded + N.of_nat k + 1) last_present (S index)
      ((λ i, load_wal_object store_get (window_moment round i) namespace_id (folded + N.of_nat k + N.of_nat i + 1)) <$> seq (S index) n) acc)) as Hgo.
  { intros object Ho Hpub. apply each_window_ok; [done..|]. intros Hnext. replace (k + index + S n)%nat with (k + S index + n)%nat by lia.
    replace (S (k + index)) with (k + S index)%nat in * by lia. apply IH; [lia|done|lia]. }
  replace (folded + N.of_nat k + N.of_nat index + 1) with (folded + N.of_nat (k + index) + 1) by lia.
  assert (folded + N.of_nat (k + index) < MAX_PUBLIC_INTEGER) as Hlt by lia.
  destruct (load_ok (window_moment round index) (k + index) ltac:(by apply again_finish) Hlt) as [(kind & -> & Ek)| ->]; cbn [map_err mbind res_bind wal_error]; [by eexists|].
  pose proof (published_finish round index Hround). pose proof (published_again round index index Hround). case_bool_decide as Hin.
  { destruct (log_published (k + index)) as [object Ho]; [lia|]. rewrite Ho. cbn [fmap option_fmap option_map mbind res_bind]. apply Hgo; [done|lia]. }
  destruct last_present as [last|] eqn:El.
  2:{ cbn. exists (k + index)%nat. split_and!; [..|done|done]; pose proof (published_start round index Hround); lia. }
  case_bool_decide as Hafter; cbn [mbind res_bind].
  { cbn. exists (k + index)%nat. split_and!; [..|done|done]; pose proof (published_start round index Hround); lia. }
  replace (folded + N.of_nat k + 1 + N.of_nat index) with (folded + N.of_nat (k + index) + 1) by lia.
  destruct (load_ok (again_moment round index) (k + index) ltac:(by apply again_finish) Hlt) as [(kind & -> & Ek)| ->]; cbn [map_err mbind res_bind wal_error]; [by eexists|].
  destruct (Hlast last eq_refl) as [i Hi]. pose proof (published_again round i index Hround).
  rewrite bool_decide_eq_true_2 by lia. destruct (log_published (k + index)) as [object Ho]; [lia|]. rewrite Ho.
  cbn [fmap option_fmap option_map mbind res_bind]. apply Hgo; [done|lia].
Qed.

Lemma rposition_Some {X} (p : X → bool) (l : list X) i : rposition p l = Some i → ∃ x, l !! i = Some x ∧ p x = true.
Proof.
  unfold rposition. generalize (seq 0 (length l)) as indexes.
  assert (∀ indexes found, (∀ i, found = Some i → ∃ x, l !! i = Some x ∧ p x = true) → ∀ i,
    foldl (λ found i, match l !! i with Some x => if p x then Some i else found | None => found end) found indexes = Some i →
    ∃ x, l !! i = Some x ∧ p x = true) as Hfold.
  { induction indexes as [|j indexes IH]; intros found Hfound; [done|]. apply IH. intros i'. cbn. destruct (l !! j) as [x|] eqn:Ej; [|by auto].
    destruct (p x) eqn:Ep; [|by auto]. intros [= <-]. by exists x. }
  intros indexes. by apply Hfold.
Qed.

Lemma load_wal_after_ok n : ∀ round k window, (round + n = fuel)%nat → (published finish < k + n)%nat → (0 < window)%nat →
  (k ≤ published finish)%nat → epochs_bounded k → folded + N.of_nat k ≤ MAX_PUBLIC_INTEGER →
  match load_wal_after store_get window_moment again_moment discover_each n round namespace_id (folded + N.of_nat k) window (walk_at k) with
  | Ok (acc, ReadEnded) => discovered acc
  | Ok (_, ReadGap _) | Panic | OutOfFuel => False
  | Err error => discovery_error error
  end.
Proof.
  induction n as [|n IH]; intros round k window Hfuel Hn Hw Hk Hepochs Hmax; [lia|]. cbn [load_wal_after].
  set (end_ := N.min _ _). set (loaded := (λ i, _) <$> _).
  set (count := N.to_nat (end_ - (folded + N.of_nat k))) in *.
  assert (end_ = folded + N.of_nat (k + count)) as Hend by lia.
  assert (∀ last, rposition is_present loaded = Some last → ∃ i, (k + last < published (window_moment round i))%nat) as Hlast.
  { intros last [[key found] [Hfind Hp]]%rposition_Some. exists last. unfold loaded in Hfind. apply list_lookup_fmap_Some in Hfind as (i & Ei & Hi).
    apply lookup_seq in Hi as [-> Hi]. cbn [Nat.add] in *.
    replace (folded + N.of_nat k + N.of_nat last + 1) with (folded + N.of_nat (k + last) + 1) in Ei by lia.
    destruct (load_ok (window_moment round last) (k + last) ltac:(apply again_finish; lia)) as [(kind & Eload & _)|Eload]; [lia|rewrite Eload in Ei; by injection Ei as -> ->|].
    rewrite Eload in Ei. injection Ei as -> ->. by case_bool_decide. }
  pose proof (read_window_ok round k _ ltac:(lia) Hlast count 0) as Hread. rewrite !Nat.add_0_r in Hread.
  specialize (Hread ltac:(lia) Hepochs ltac:(lia)). fold loaded in Hread.
  destruct (read_window _ _ _ _ _ _ _ _ _ _) as [[acc [[|key]|]]|error| |]; cbn [window_ok] in Hread; cbn [mbind res_bind]; try done.
  destruct Hread as (-> & Hpub & Hnext). case_decide as Elast.
  - exists (k + count)%nat. split; [|done]. pose proof (wst_published _ _ _ _ _ _ Hstore start finish).
    pose proof (published_start round 0 ltac:(lia)). pose proof (again_finish round 0 ltac:(lia)). pose proof (published_finish round 0 ltac:(lia)).
    pose proof (published_again round 0 0 ltac:(lia)).
    assert (length log ≤ k + count)%nat; [|lia]. destruct (decide (log = [])) as [->|Hne]; [cbn; lia|].
    pose proof (log_length _ _ _ _ Hlog Hne) as Hlen. change (ns_wal_no base) with folded in Hlen. lia.
  - rewrite Hend. apply IH; try (done || lia). unfold WAL_DISCOVERY_PROBE_WAVE. lia.
Qed.

Lemma discover_tail_ok : is_deleted manifest.(mp_status) = false → (published finish < fuel)%nat → folded ≤ MAX_PUBLIC_INTEGER →
  match discover_tail store_get window_moment again_moment fuel manifest with
  | Ok (head, tail) => ∃ k, (published start ≤ k ≤ published finish)%nat ∧ head = head_after base (take k log) ∧ tail = validated <$> take k log ∧ epochs_bounded k
  | Err error => discovery_error error
  | Panic | OutOfFuel => False
  end.
Proof.
  intros Hlive Hfuel Hmax. unfold discover_tail. fold base. change (ns_status base) with manifest.(mp_status). rewrite Hlive.
  pose proof (load_wal_after_ok fuel 0 0 1 ltac:(lia) ltac:(lia) ltac:(lia) ltac:(lia) ltac:(by intros o Ho%elem_of_nil) ltac:(lia)) as Hafter.
  rewrite N.add_0_r in Hafter. change (ns_wal_no base) with folded.
  change (WalWalk_after _ _ _ _, base, []) with (walk_at 0).
  destruct (load_wal_after _ _ _ _ _ _ _ _ _ _) as [[acc [|key]]|error| |]; cbn [mbind res_bind]; try done.
  destruct Hafter as (k & Hk & -> & Hepochs). unfold walk_at. cbn. by exists k.
Qed.

(** *** A bounded tail *)
Lemma load_objects_ok moments k n : ∀ index, (∀ i, (moments i ≤ finish ∧ k ≤ published (moments i))%nat) → (index + n = k)%nat →
  epochs_bounded k →
  match load_objects store_get moments (walk_at index).1.1 ((λ i, folded + N.of_nat i + 1) <$> seq index n) index with
  | Ok (objects, walk) => objects = validated <$> drop index (take k log) ∧ walk = (walk_at k).1.1
  | Err (ReadWal key kind) => ∃ moment, store_get moment key = Err kind
  | _ => False
  end.
Proof.
  induction n as [|n IH]; intros index Hpub Hk Hepoch; cbn [seq fmap list_fmap load_objects].
  { replace k with index by lia. by rewrite drop_ge by (rewrite length_take; lia). }
  specialize (IH (S index) Hpub ltac:(lia) Hepoch). pose proof (Hpub index).
  pose proof (wst_published _ _ _ _ _ _ Hstore (moments index) (moments index)). destruct (lookup_lt_is_Some_2 log index) as [object Ho]; [lia|].
  destruct (log_object _ _ _ _ _ _ Hlog Ho) as [Hlg Hno]. pose proof (lg_max _ _ _ _ Hlg) as Hmax. rewrite Hno in Hmax.
  change (ns_wal_no base) with folded in *. change (ww_namespace_id (walk_at index).1.1) with namespace_id.
  destruct (load_ok (moments index) index ltac:(apply Hpub)) as [(kind & -> & Ek)| ->]; [lia|cbn; by eexists|]. rewrite bool_decide_eq_true_2 by lia. rewrite Ho.
  cbn [fmap option_fmap option_map mbind res_bind ok_or]. pose proof (log_keys _ _ _ _ _ _ Hlog Ho) as Hkey.
  assert (take k log !! index = Some object) as Htake by (by rewrite lookup_take_lt by lia).
  assert (walk_validate (walk_at index).1.1 (keys.wal_object namespace_id (folded + N.of_nat index + 1))
    (mkStoredWalEnvelope object.(ee_envelope) (blen object.(ee_bytes))) = Ok (validated object, (walk_at (S index)).1.1)) as ->.
  { unfold walk_validate, walk_at. cbn [fst se_envelope se_stored_bytes ww_epoch ww_epoch_bound ww_seq ww_namespace_id]. fold (lo_payload object).
    pose proof (Hepoch object (list_elem_of_lookup_2 _ _ _ Htake)). pose proof (lg_epoch _ _ _ _ Hlg).
    rewrite !bool_decide_eq_false_2 by lia. rewrite (lg_replays _ _ _ _ Hlg). cbn [orb map_err mbind res_bind].
    rewrite (take_S_r _ _ _ Ho). unfold head_after, epoch_after. rewrite !foldl_app. unfold validated. rewrite Hkey. done. }
  cbn [mbind res_bind]. destruct (load_objects _ _ _ _ _) as [[objects walk]|[]| |]; cbn [mbind res_bind]; try done.
  destruct IH as [-> ->]. by rewrite (drop_S _ _ _ Htake).
Qed.

Lemma head_after_fields head l : (head_after head l).(ns_namespace_id) = head.(ns_namespace_id) ∧
  (head_after head l).(ns_writer_epoch) = head.(ns_writer_epoch).
Proof. revert head. induction l as [|o l IH]; intros head; [done|]. cbn. fold (head_after (after_wal_object head (lo_payload o)) l). by rewrite !(proj1 (IH _)), !(proj2 (IH _)). Qed.

Lemma head_after_number k : (k ≤ length log)%nat → (head_after base (take k log)).(ns_wal_no) = folded + N.of_nat k.
Proof.
  intros Hk. destruct k as [|k]; [symmetry; apply N.add_0_r|]. destruct (lookup_lt_is_Some_2 log k) as [object Ho]; [lia|].
  destruct (log_object _ _ _ _ _ _ Hlog Ho) as [Hlg Hno]. rewrite (take_S_r _ _ _ Ho). unfold head_after in *. rewrite foldl_app. cbn [foldl].
  cbn [after_wal_object ns_wal_no]. rewrite (lg_number _ _ _ _ Hlg), Hno. change (ns_wal_no base) with folded. lia.
Qed.

(** Reading the tail of a head that discovery returned gives the same
    objects, or the store's error. *)
Lemma load_wal_tail_ok moments k : (∀ i, (moments i ≤ finish ∧ k ≤ published (moments i))%nat) →
  epochs_bounded k →
  let head := head_after base (take k log) in
  match load_wal_tail store_get moments namespace_id base.(ns_seq) head.(ns_seq) base.(ns_wal_no) head.(ns_wal_no) head.(ns_writer_epoch) with
  | Ok objects => objects = validated <$> take k log
  | Err (ReadWal key kind) => ∃ moment, store_get moment key = Err kind
  | _ => False
  end.
Proof.
  intros Hpub Hepoch head. pose proof (Hpub 0%nat). pose proof (wst_published _ _ _ _ _ _ Hstore (moments 0%nat) (moments 0%nat)).
  unfold load_wal_tail, head. rewrite (head_after_number k) by lia. change (ns_wal_no base) with folded. rewrite (proj2 (head_after_fields base _)).
  replace (N.to_nat (folded + N.of_nat k - folded)) with k by lia. change (WalWalk_after _ _ _ _) with (walk_at 0).1.1.
  pose proof (load_objects_ok moments k k 0 Hpub ltac:(lia) Hepoch) as Hload.
  destruct (load_objects _ _ _ _ _) as [[objects walk]|[]| |]; cbn [mbind res_bind]; try done. destruct Hload as [-> ->].
  cbn [walk_at fst ww_seq]. rewrite decide_False by (by intros []). by rewrite drop_0.
Qed.
End discovery.

(** ** Replay *)
Section projection.
Context `{HeapBytes}.

(** A tail over a manifest's base rows. *)
Definition over_rows (rows : MetadataState) (tail : ProjectedWalTail) : ProjectedWalTail :=
  mkProjectedWalTail (TailChunk_new 0 rows :: tail.(pt_chunks)) tail.(pt_activity) tail.(pt_inline_bytes) tail.(pt_wal_bytes).

Definition tail_object (object : EncodedEnvelope WalObjectPayload) : list WalCommitPayload * N :=
  ((lo_payload object).(wop_records), blen object.(ee_bytes)).
Definition log_records (log : WalLog) : list WalCommitPayload := log ≫= λ object, (lo_payload object).(wop_records).

Definition over_result {E X} (rows : MetadataState) (m : res E (X * ProjectedWalTail)) : res E (X * ProjectedWalTail) :=
  '(x, tail) ← m; Ok (x, over_rows rows tail).

Lemma push_object_over rows tail records wal_bytes :
  push_object (over_rows rows tail) records wal_bytes = (tail ← push_object tail records wal_bytes; Ok (over_rows rows tail)).
Proof.
  unfold push_object. case_bool_decide; [done|]. destruct (TailChunk_from_records _ _); [|done..]. cbn [mbind res_bind]. unfold push_chunk.
  cbn [over_rows pt_activity]. by destruct (activity_checked_add _ _).
Qed.

Lemma project_over rows objects : ∀ head tail,
  project_objects head (over_rows rows tail) objects = over_result rows (project_objects head tail objects).
Proof.
  induction objects as [|object objects IH]; intros head tail; [done|]. cbn [project_objects]. rewrite push_object_over.
  destruct (push_object tail _ _) as [tail'| | |]; cbn [map_err mbind res_bind]; [apply IH|done..].
Qed.

Lemma wal_object_referenced payload : wal_object_ok payload → records_referenced payload.(wop_records).
Proof. intros Hok record Hr. by eapply inline_referenced, (wo_inline _ Hok). Qed.

Lemma project_ok log : (∀ object, object ∈ log → wal_object_ok (lo_payload object)) → ∀ head objects tail, tail_of objects tail →
  match project_objects head tail (validated <$> log) with
  | Ok (head', tail') => head' = head_after head log ∧ tail_of (objects ++ (tail_object <$> log)) tail'
  | Err error => (∃ object, object ∈ log ∧ error = WalReplay (validated object).(vo_object_key) ActivityOverflow) ∧
      records_activity activity_default (all_records (objects ++ (tail_object <$> log))) = None
  | Panic | OutOfFuel => False
  end.
Proof.
  induction log as [|object log IH]; intros Hok head objects tail Htail; cbn [fmap list_fmap project_objects].
  { split; [done|]. by rewrite app_nil_r. }
  change (vo_payload (validated object)) with (lo_payload object).
  destruct (push_object_ok objects tail (lo_payload object).(wop_records) (blen object.(ee_bytes)) Htail) as [[E Hover]|(tail' & E & Htail')].
  { apply wal_object_referenced, Hok. by left. }
  all: cbn [validated vo_stored_bytes]; rewrite E; cbn [map_err mbind res_bind].
  { split; [exists object; split; [by left|done]|]. rewrite cons_middle, app_assoc. unfold all_records. rewrite !fmap_app, !concat_app.
    cbn [fmap list_fmap concat]. rewrite app_nil_r, records_activity_app. fold (all_records objects).
    cbn [tail_object fst]. by rewrite Hover. }
  specialize (IH ltac:(intros o Ho; apply Hok; by right) (after_wal_object head (lo_payload object)) _ tail' Htail').
  rewrite <-app_assoc in IH. destruct (project_objects _ _ _) as [[head' tail2]|error| |]; [done| |done..].
  destruct IH as [(o & Ho & ->) Hnone]. split; [|done]. exists o. split; [by right|done].
Qed.

Lemma all_records_log log : all_records (tail_object <$> log) = log_records log.
Proof. unfold all_records, log_records. induction log as [|o log IH]; [done|]. cbn in *. by rewrite IH. Qed.

Lemma tail_content_over {E} rows tail content_ref : tail_content (E:=E) (over_rows rows tail) content_ref = tail_content tail content_ref.
Proof. done. Qed.
Lemma tail_contents_over {E} rows tail : tail_contents (E:=E) (over_rows rows tail) = tail_contents tail.
Proof. done. Qed.

Lemma combined_rows_over rows objects tail : tail_of objects tail →
  combined_rows (over_rows rows tail) = foldl apply_committed_wal_record_mut (stack_states [rows]) (all_records objects).
Proof. intros Htail. exact (tail_rows [rows] objects _ (to_chunks _ _ Htail)). Qed.
End projection.

(** ** A tail above a fold *)
Section folds.
Context `{SectionCodecLaws} `{WalCodecLaws} `{HeapBytes}.

Lemma log_seq namespace_id log head epoch i object : log_from namespace_id head epoch log → log !! i = Some object →
  replays_after (head_after head (take i log)).(ns_seq) (lo_payload object) ∧
  (head_after head (take (S i) log)).(ns_seq) = (lo_payload object).(wop_head_seq).
Proof.
  intros Hlog Hi. destruct (log_object _ _ _ _ _ _ Hlog Hi) as [Hlg _]. split; [by apply validate_replay_ok, (lg_replays _ _ _ _ Hlg)|].
  rewrite (take_S_r _ _ _ Hi). unfold head_after. by rewrite foldl_app.
Qed.

Lemma log_seq_mono namespace_id log head epoch i j : log_from namespace_id head epoch log → (i ≤ j)%nat →
  (head_after head (take i log)).(ns_seq) ≤ (head_after head (take j log)).(ns_seq).
Proof.
  intros Hlog Hij. induction Hij as [|j Hij IH]; [done|]. destruct (log !! j) as [object|] eqn:Ej.
  - destruct (log_seq _ _ _ _ _ _ Hlog Ej) as [(_ & Hhead & _) ->]. lia.
  - apply lookup_ge_None in Ej. by rewrite (take_ge _ (S j)) by lia; rewrite (take_ge _ j) in IH by lia.
Qed.

Lemma object_after_iff namespace_id log head epoch i j object : log_from namespace_id head epoch log → log !! i = Some object →
  object_after (head_after head (take j log)).(ns_seq) (tail_object object) ↔ (tail_object object).1 ≠ [] ∧ (j ≤ i)%nat.
Proof.
  intros Hlog Hi. destruct (log_seq _ _ _ _ _ _ Hlog Hi) as [(Hseq & Hhead & _) Hnext]. unfold object_after. cbn [tail_object fst].
  destruct (lo_payload object).(wop_records) as [|record records] eqn:Er; cbn [list.head]; [by split; [|intros [[] _]]|].
  assert (record.(wcp_committed_seq) = (head_after head (take i log)).(ns_seq) + 1) as -> by (cbn in Hseq; injection Hseq as Hr _; lia).
  cbn [length] in Hhead. destruct (decide (j ≤ i)%nat) as [Hle|Hgt].
  - pose proof (log_seq_mono _ _ _ _ _ _ Hlog Hle). split; [done|lia].
  - pose proof (log_seq_mono _ _ _ _ (S i) j Hlog ltac:(lia)). split; [lia|by intros []].
Qed.

Lemma filter_lookup {X} (P Q : X → Prop) `{∀ x, Decision (P x)} `{∀ x, Decision (Q x)} j (l : list X) :
  (∀ i x, l !! i = Some x → P x ↔ Q x ∧ (j ≤ i)%nat) → filter P l = filter Q (drop j l).
Proof.
  revert j. induction l as [|x l IH]; intros j Hiff; [by rewrite drop_nil|]. pose proof (Hiff 0%nat x eq_refl) as Hx.
  destruct j as [|j]; cbn [drop]; rewrite !filter_cons.
  - rewrite (IH 0%nat), drop_0 by (intros i y Hy; rewrite (Hiff (S i) y Hy); naive_solver lia).
    destruct (decide (P x)), (decide (Q x)); naive_solver lia.
  - rewrite decide_False by (rewrite Hx; lia). apply IH. intros i y Hy. rewrite (Hiff (S i) y Hy). naive_solver lia.
Qed.

Lemma later_objects namespace_id log head epoch j : log_from namespace_id head epoch log →
  filter (object_after (head_after head (take j log)).(ns_seq)) (tail_object <$> log)
  = filter (λ object, object.1 ≠ []) (tail_object <$> drop j log).
Proof.
  intros Hlog. rewrite fmap_drop. apply filter_lookup. intros i x Hx. apply list_lookup_fmap_Some in Hx as (object & -> & Ho).
  by eapply object_after_iff.
Qed.

Lemma log_drop namespace_id log j : ∀ head epoch, log_from namespace_id head epoch log →
  log_from namespace_id (head_after head (take j log)) (epoch_after epoch (take j log)) (drop j log).
Proof.
  revert j. induction log as [|object log IH]; intros j head epoch Hlog; [by rewrite drop_nil|]. destruct j as [|j]; [done|].
  destruct Hlog as (_ & _ & _ & Hlog). exact (IH j _ _ Hlog).
Qed.

Lemma log_ends namespace_id log head epoch : log_from namespace_id head epoch log →
  match wcp_committed_seq <$> list.head (log_records log) with
  | Some first => next_public_ordinal head.(ns_seq) = Some first
  | None => head.(ns_seq) = (head_after head log).(ns_seq)
  end.
Proof.
  revert head epoch. induction log as [|object log IH]; intros head epoch Hlog; [done|].
  destruct (log_seq _ _ _ _ 0%nat object Hlog eq_refl) as [(Hseq & Hhead & Hb) _]. destruct Hlog as (_ & _ & _ & Hlog).
  specialize (IH _ _ Hlog). unfold log_records in *. cbn [mbind list_bind]. cbn [take head_after foldl] in *.
  destruct (lo_payload object).(wop_records) as [|record records] eqn:Er.
  - cbn [app]. cbn [length N.of_nat] in Hhead. rewrite N.add_0_r in Hhead. cbn [after_wal_object ns_seq] in IH. rewrite Hhead in IH. exact IH.
  - cbn. apply next_public_ordinal_Some. destruct (Hb ltac:(done)) as [_ Hlt]. cbn in Hseq. injection Hseq as Hr _. lia.
Qed.
End folds.

Section composed.
Context `{SectionCodecLaws} `{WalCodecLaws} `{HeapBytes}.

Lemma log_objects_ok namespace_id log head epoch object : log_from namespace_id head epoch log → object ∈ log → wal_object_ok (lo_payload object).
Proof. intros Hlog [i Hi]%list_elem_of_lookup. destruct (log_object _ _ _ _ _ _ Hlog Hi) as [Hlg _]. apply (lg_ok _ _ _ _ Hlg). Qed.

Lemma head_after_app head l k : head_after head (l ++ k) = head_after (head_after head l) k.
Proof. apply foldl_app. Qed.

Lemma after_seq_over {E} rows tail seq head_seq : after_seq (E:=E) (over_rows rows tail) seq head_seq = after_seq tail seq head_seq.
Proof. unfold after_seq. cbn [over_rows pt_chunks]. rewrite filter_cons_False; [done|]. cbn [TailChunk_new tc_first_seq]. lia. Qed.

(** What the tail keeps above a fold of the first objects is the replay of
    the others. *)
Lemma after_fold_ok {E} namespace_id log head epoch rows final tail j : log_from namespace_id head epoch log →
  replay_discovered_tail head rows (validated <$> log) = Ok (final, tail) →
  let folded := head_after head (take j log) in
  ∃ after, after_seq (E:=E) tail folded.(ns_seq) final.(ns_seq) = Ok (Some after) ∧
    project_validated_wal_tail folded ProjectedWalTail_default (validated <$> drop j log) = Ok (final, after).
Proof.
  intros Hlog Hreplay folded. unfold replay_discovered_tail, project_validated_wal_tail in *.
  change (ProjectedWalTail_from_rows rows) with (over_rows rows ProjectedWalTail_default) in Hreplay. rewrite project_over in Hreplay.
  pose proof (project_ok log ltac:(by eauto using log_objects_ok) head [] _ tail_of_default) as Hproject.
  destruct (project_objects head _ _) as [[final' tail']| | |]; [|done..]. injection Hreplay as -> <-. destruct Hproject as [-> Htail].
  cbn [app] in Htail. rewrite after_seq_over.
  destruct (after_seq_ok (E:=E) _ _ folded.(ns_seq) (head_after head log).(ns_seq) Htail) as (after & Hafter & ->).
  unfold folded in *. rewrite (later_objects _ _ _ _ _ Hlog) in *. pose proof (log_drop _ _ j _ _ Hlog) as Hdrop. apply tail_of_nonempty in Hafter.
  rewrite all_records_nonempty, all_records_log. exists after. split.
  - f_equal. pose proof (log_ends _ _ _ _ Hdrop) as Hends. rewrite <-head_after_app, take_drop in Hends.
    destruct (wcp_committed_seq <$> _); by rewrite bool_decide_eq_true_2.
  - pose proof (project_ok (drop j log) ltac:(by eauto using log_objects_ok) (head_after head (take j log)) [] _ tail_of_default) as Hproject.
    destruct (project_objects _ _ _) as [[final' tail2]|error| |]; cbn [app] in Hproject; [|exfalso|done..].
    + destruct Hproject as [-> Htail2]. rewrite <-head_after_app, take_drop. by rewrite (tail_of_inj _ _ _ Hafter Htail2).
    + destruct Hproject as [_ Hnone]. rewrite (to_activity _ _ Hafter) in Hnone. done.
Qed.
End composed.

Lemma tail_bytes_log log : objects_bytes (tail_object <$> log) = tail_wal_bytes (validated <$> log).
Proof.
  unfold objects_bytes, tail_wal_bytes. induction log as [|object log IH]; [done|]. cbn [fmap list_fmap]. rewrite !filter_cons.
  change (vo_payload (validated object)) with (lo_payload object). cbn [tail_object fst].
  destruct (decide ((lo_payload object).(wop_records) ≠ [])); cbn; [by f_equal|done].
Qed.

Lemma required_keys namespace_id folded i : no_slash namespace_id → folded + N.of_nat i < MAX_PUBLIC_INTEGER →
  object_is_required (keys.wal_object namespace_id (folded + N.of_nat i + 1)) folded = true.
Proof.
  intros Hns Hmax. unfold object_is_required. destruct (wal_no_of _) as [number|] eqn:En; [|done]. apply bool_decide_eq_true_2.
  rewrite wal_no_of_key in En by (done || lia). injection En as <-. lia.
Qed.

(** ** The theorems *)

(** C13 Discovery of the WAL tip is exact.  Take the WAL objects that writers
    prepared one after another on the manifest's head, and a store that holds
    a growing prefix of them and whose GETs may fail.  However the GETs of the
    windows interleave with publications, as long as a number is read again
    after its window, discovery ends and returns the validated objects and the
    head of a prefix of the log: everything published before it started,
    nothing that was not published when it ended, and no object of a writer
    epoch above the manifest's.  It never reports a gap.
    Its only errors are the store's, and a writer epoch above the manifest's
    of an object that a newer writer published.  Reclamation at the manifest's
    folded number keeps every key that discovery reads. *)
Theorem wal_discovery_exact `{SectionCodecLaws} `{WalCodecLaws} (manifest : NamespaceManifestPayload) (log : WalLog) (published : nat → nat)
    (store_get : nat → string → res ObjectStoreErrorKind (option bytes)) (window_moment again_moment : nat → nat → nat) (start finish fuel : nat) :
  log_from manifest.(mp_namespace_id) (read_state_from manifest) 0 log →
  wal_store manifest.(mp_namespace_id) manifest.(mp_folded_wal_no) log published finish store_get →
  read_order start finish fuel window_moment again_moment →
  is_deleted manifest.(mp_status) = false → manifest.(mp_folded_wal_no) ≤ MAX_PUBLIC_INTEGER → (published finish < fuel)%nat →
  (no_slash manifest.(mp_namespace_id) → ∀ i, manifest.(mp_folded_wal_no) + N.of_nat i < MAX_PUBLIC_INTEGER →
     object_is_required (keys.wal_object manifest.(mp_namespace_id) (manifest.(mp_folded_wal_no) + N.of_nat i + 1)) manifest.(mp_folded_wal_no) = true) ∧
  match discover_tail store_get window_moment again_moment fuel manifest with
  | Ok (head, tail) => ∃ k, (published start ≤ k ≤ published finish)%nat ∧
      head = head_after (read_state_from manifest) (take k log) ∧ tail = validated <$> take k log ∧ epochs_bounded manifest log k
  | Err error => discovery_error manifest log published store_get finish error
  | Panic | OutOfFuel => False
  end.
Proof.
  intros Hlog Hstore Horder Hlive Hmax Hfuel. split; [by intros; apply required_keys|].
  by apply (discover_tail_ok manifest log published store_get _ _ start finish fuel).
Qed.

(** C12 Replaying a discovered tail is exact.  For a log of prepared objects,
    the replay over a manifest's rows fails only when the activity of the
    commits does not fit; otherwise the tail's rows are the manifest's rows
    after every commit of the log, each content's pieces are what the commits
    wrote in order, the contents are listed once each, and the activity and
    WAL bytes are the log's.  After a fold of the first objects, the chunks
    the tail keeps above it are exactly the replay of the other objects onto
    the folded head. *)
Theorem wal_replay_exact `{SectionCodecLaws} `{WalCodecLaws} `{HeapBytes} (namespace_id : NamespaceId) (head : NamespaceReadState)
    (rows : MetadataState) (log : WalLog) :
  log_from namespace_id head 0 log →
  match replay_discovered_tail head rows (validated <$> log) with
  | Ok (final, tail) =>
      final = head_after head log ∧
      combined_rows tail = foldl apply_committed_wal_record_mut (stack_states [rows]) (log_records log) ∧
      (∀ content_ref, tail_content (E:=Empty_set) tail content_ref
         = Ok (written_content (log_records log ≫= record_events content_ref.(cref_content_id)))) ∧
      (∃ contents, tail_contents (E:=Empty_set) tail = Ok contents ∧ NoDup (content_id_of <$> contents) ∧
         ∀ content, content ∈ contents ↔ written_content (log_records log ≫= record_events (content_id_of content)) = Some content) ∧
      records_activity activity_default (log_records log) = Some tail.(pt_activity) ∧
      tail.(pt_wal_bytes) = tail_wal_bytes (validated <$> log) ∧
      (∀ j, let folded := head_after head (take j log) in
         ∃ after, after_seq (E:=Empty_set) tail folded.(ns_seq) final.(ns_seq) = Ok (Some after) ∧
           project_validated_wal_tail folded ProjectedWalTail_default (validated <$> drop j log) = Ok (final, after))
  | Err error => (∃ object, object ∈ log ∧ error = WalReplay (validated object).(vo_object_key) ActivityOverflow) ∧
      records_activity activity_default (log_records log) = None
  | Panic | OutOfFuel => False
  end.
Proof.
  intros Hlog. destruct (replay_discovered_tail head rows (validated <$> log)) as [[final tail]|error| |] eqn:Ereplay;
    pose proof Ereplay as Eproject; unfold replay_discovered_tail, project_validated_wal_tail in Eproject;
    change (ProjectedWalTail_from_rows rows) with (over_rows rows ProjectedWalTail_default) in Eproject; rewrite project_over in Eproject;
    pose proof (project_ok log ltac:(by eauto using log_objects_ok) head [] _ tail_of_default) as Hproject;
    destruct (project_objects head _ _) as [[final' tail']| | |]; try done; cbn [app] in Hproject; rewrite <-all_records_log.
  - injection Eproject as -> <-. destruct Hproject as [-> Htail]. split_and!.
    + done.
    + by apply combined_rows_over.
    + intros content_ref. rewrite tail_content_over. by apply tail_content_ok.
    + setoid_rewrite tail_contents_over. by apply tail_contents_ok.
    + apply (to_activity _ _ Htail).
    + cbn [over_rows pt_wal_bytes]. rewrite (to_wal_bytes _ _ Htail). apply tail_bytes_log.
    + intros j folded. by eapply after_fold_ok.
  - injection Eproject as <-. done.
Qed.

(** ** A log of one object *)
Module tail_example.
Import wal_example.
#[local] Existing Instance section_codecs.
#[local] Existing Instance wal_codecs.

(** A manifest that folded the namespace's first object. *)
Definition manifest : NamespaceManifestPayload :=
  {| mp_namespace_id := "namespace"; mp_created_at_ms := 1; mp_created_by := "user"; mp_access := Unrestricted;
     mp_retention_window_ms := None; mp_fork_basis := None; mp_family_root_id := "namespace"; mp_status := Active; mp_writer := None;
     mp_folded_wal_no := 1; mp_manifest_no := 2; mp_compactor_epoch := 0; mp_head_seq := 1; mp_activity := activity_default;
     mp_writer_epoch := 1; mp_next_run_no := 0; mp_retention_floor_seq := 0; mp_runs := []; mp_extensions := [] |}.

(** The second object is published at moment 2; the third does not exist. *)
Definition published (moment : nat) : nat := if decide (moment < 2)%nat then 0 else 1.
Definition store_get (moment : nat) (key : string) : res ObjectStoreErrorKind (option bytes) :=
  if decide (key = keys.wal_object "namespace" 2 ∧ (1 < moment)%nat) then Ok (Some document_bytes) else Ok None.
Definition window_moment (round i : nat) : nat := (2 + round)%nat.
Definition again_moment (round i : nat) : nat := (2 + round)%nat.

Lemma example_log : log_from "namespace" (read_state_from manifest) 0 [encoded].
Proof. split; [vm_compute; reflexivity|]. split; [by vm_compute|]. split; [by vm_compute|done]. Qed.

Lemma wal_object_inj n m : 0 < n ≤ MAX_PUBLIC_INTEGER → 0 < m ≤ MAX_PUBLIC_INTEGER →
  keys.wal_object "namespace" n = keys.wal_object "namespace" m → n = m.
Proof.
  intros Hn Hm E. assert (no_slash "namespace") as Hns by (by vm_compute).
  pose proof (wal_no_of_key _ _ Hns Hn) as E1. pose proof (wal_no_of_key _ _ Hns Hm) as E2. rewrite E in E1. congruence.
Qed.

Lemma example_store : wal_store "namespace" 1 [encoded] published 4 store_get.
Proof.
  split.
  - intros moment i _ Hmax. right. unfold store_get, published. destruct i as [|i].
    + change (1 + N.of_nat 0 + 1) with 2. destruct (decide (moment < 2)%nat).
      * rewrite decide_False by lia. by rewrite bool_decide_eq_false_2 by lia.
      * rewrite decide_True by (split; [done|lia]). by rewrite bool_decide_eq_true_2 by lia.
    + rewrite decide_False; [by case_bool_decide|]. intros [E _]. apply wal_object_inj in E; [lia..|]. unfold MAX_PUBLIC_INTEGER. lia.
  - intros moment later Hle. unfold published. cbn [length]. repeat case_decide; lia.
Qed.

Lemma example_order : read_order 2 4 2 window_moment again_moment.
Proof. split; unfold window_moment, again_moment; intros; lia. Qed.

Lemma wal_discovery_exact_witness :
  discover_tail store_get window_moment again_moment 2 manifest = Ok (head_after (read_state_from manifest) [encoded], [validated encoded]).
Proof.
  destruct (wal_discovery_exact (H0 := section_laws) (H2 := wal_laws) manifest [encoded] published store_get window_moment again_moment
    2 4 2 example_log example_store example_order) as [_ Hdiscover].
  - reflexivity.
  - vm_compute. discriminate.
  - vm_compute. lia.
  - destruct (discover_tail store_get window_moment again_moment 2 manifest) as [[head tail]|[key kind|key error]| |]; [|exfalso..|destruct Hdiscover|destruct Hdiscover].
    2:{ destruct Hdiscover as [moment E]. unfold store_get in E. by case_decide. }
    2:{ destruct Hdiscover as (object & Ho & Hlt & _). cbn in Ho. apply list_elem_of_singleton in Ho as ->. by vm_compute in Hlt. }
    destruct Hdiscover as (k & Hk & -> & -> & _). assert (k = 1%nat) as -> by (change (published 2) with 1%nat in Hk; change (published 4) with 1%nat in Hk; lia). reflexivity.
Defined.

#[local] Existing Instance no_heap.

Lemma wal_replay_exact_witness : ∃ final tail,
  replay_discovered_tail (read_state_from manifest) MetadataState_default [validated encoded] = Ok (final, tail) ∧
  tail_content (E:=Empty_set) tail content_ref = Ok (Some (mkProjectedContent content_ref 2 [mkProjectedPiece 4 [1; 2; 3]])).
Proof.
  pose proof (wal_replay_exact (H0 := section_laws) (H2 := wal_laws) "namespace" (read_state_from manifest) MetadataState_default [encoded] example_log) as Hreplay.
  change (validated <$> [encoded]) with [validated encoded] in Hreplay.
  destruct (replay_discovered_tail _ _ _) as [[final tail]|error| |] eqn:E; [|vm_compute in E; discriminate..].
  destruct Hreplay as (_ & _ & Hcontent & _). exists final, tail. split; [reflexivity|]. rewrite Hcontent. vm_compute. reflexivity.
Defined.
End tail_example.
