(* ===== verification/WalPublish.v ===== *)
(** * Publishing WAL objects

    [loonfs-core/src/wal/publish.rs] and [publish_error.rs], and the attempts
    of the namespace's publisher ([loonfs/src/publisher/worker.rs]): one put at
    the next WAL number within a time budget, which results are published
    again, how the results of several attempts settle, and what each waiting
    request receives.

    The object store's [put_if_absent] and the commit engine are parameters. *)
From S2P Require Import Prelude Types Records Utf8 Codec ObjectKeys Manifest SegmentBlocks MetadataState StateReads Errors CommitSafety Wal ProjectedTail WalTail.
Local Open Scope N_scope.

(** ** Errors *)
Definition WAL_PUBLISH_BUDGET_MS : N := 5 * 60 * 1000.
Definition MAX_CONTENTION_ATTEMPTS : nat := 8.

Inductive WalPublishError : Set :=
| NumberTaken
| PublishBudgetExceeded (elapsed_ms budget_ms : N)
| OutcomeUnknown
| WriteFailed (object_key : string) (kind : ObjectStoreErrorKind).
#[export] Instance WalPublishError_eq_dec : EqDecision WalPublishError.
Proof. solve_decision. Defined.

(** [CoreError], as far as publication tells its variants apart. *)
Inductive PublishError : Set :=
| PeWalPublish (error : WalPublishError)
| PeManifestReplaced
| PeMaintenanceRequired (namespace_id : NamespaceId) (reason : string)
| PeCommitTooLarge (estimated_bytes max_bytes : N)
| PeShuttingDown
| PeCore (error : CoreError).
#[export] Instance PublishError_eq_dec : EqDecision PublishError.
Proof. solve_decision. Defined.

(** [ObjectStoreError], as [publish_wal_object] tells its variants apart. *)
Inductive PutError : Set :=
| PutPreconditionFailed
| PutTransport
| PutOther (kind : ObjectStoreErrorKind).

(** ** One put *)
Section publish.
Context {Store : Type} (put_if_absent : string → bytes → Store → res PutError unit * Store).

(** [publish_wal_object]: [age_before] and [age_after] are the ages of the tip
    the object was planned on. *)
Definition publish_wal_object (age_before age_after : N) (wal : EncodedEnvelope WalObjectPayload) (store : Store)
    : res PublishError unit * Store :=
  if decide (MAX_WAL_OBJECT_BYTES < wal.(ee_document_bytes))
  then (Err (PeCommitTooLarge wal.(ee_document_bytes) MAX_WAL_OBJECT_BYTES), store)
  else
    let payload := wal.(ee_envelope).(ve_payload) in
    let object_key := keys.wal_object payload.(wop_namespace_id) payload.(wop_wal_no) in
    if decide (WAL_PUBLISH_BUDGET_MS < age_before)
    then (Err (PeWalPublish (PublishBudgetExceeded age_before WAL_PUBLISH_BUDGET_MS)), store)
    else
      let '(put, store) := put_if_absent object_key wal.(ee_bytes) store in
      let put :=
        map_err (λ error, PeWalPublish
          match error with
          | PutPreconditionFailed => NumberTaken
          | PutTransport => OutcomeUnknown
          | PutOther kind => WriteFailed object_key kind
          end) put in
      (_ ← put;
       if decide (WAL_PUBLISH_BUDGET_MS < age_after) then Err (PeWalPublish OutcomeUnknown) else Ok (), store).
End publish.

(** ** Settling attempts *)
Section settle.
Context {Commit CommitCandidate : Type}.
Abbreviation Result := (sum Commit PublishError) (only parsing).

Definition is_err (result : Result) : bool := match result with inl _ => false | inr _ => true end.

Definition is_retryable_wal_publish (result : Result) : bool :=
  match result with
  | inr (PeWalPublish (NumberTaken | PublishBudgetExceeded _ _ | OutcomeUnknown)) | inr PeManifestReplaced => true
  | _ => false
  end.

Definition is_outcome_unknown (result : option Result) : bool :=
  match result with Some (inr (PeWalPublish OutcomeUnknown)) => true | _ => false end.

(** [settle_publish_attempt]: [results[index]] panics out of range. *)
Fixpoint settle_publish_attempt {E C} (results : list (option Result)) (attempted : list (nat * C)) (observed : list Result)
    : res E (list (option Result) * list (nat * C)) :=
  match attempted, observed with
  | (index, candidate) :: attempted, current :: observed =>
      slot ← expect (results !! index);
      let results := if is_outcome_unknown slot && is_err current then results else <[index := Some current]> results in
      '(results, pending) ← settle_publish_attempt results attempted observed;
      Ok (results, if is_retryable_wal_publish current then (index, candidate) :: pending else pending)
  | _, _ => Ok (results, [])
  end.

Definition is_maintenance_required (result : Result) : bool :=
  match result with inr (PeMaintenanceRequired _ _) => true | _ => false end.

(** A copy of each candidate the engine refused at the write stop. *)
Fixpoint record_stopped {E} (stopped : list (option CommitCandidate)) (attempted : list (nat * CommitCandidate)) (observed : list Result)
    : res E (list (option CommitCandidate)) :=
  match attempted, observed with
  | (index, candidate) :: attempted, result :: observed =>
      stopped ←
        (if is_maintenance_required result
         then if decide (index < length stopped)%nat then Ok (<[index := Some candidate]> stopped) else Panic
         else Ok stopped);
      record_stopped stopped attempted observed
  | _, _ => Ok stopped
  end.

(** The engine: one result for each candidate of a batch, unless it panics;
    and whether the writer is still there. *)
Context {Engine : Type} (publish_through_engine : list CommitCandidate → Engine → res Empty_set (list Result * Engine)).
Context (writer_alive : Engine → bool).

Definition attempt {E} (pending : list (nat * CommitCandidate)) (engine : Engine) : res E (list Result * Engine) :=
  if writer_alive engine then infallible (publish_through_engine pending.*2 engine)
  else Ok ((λ _, inr PeShuttingDown) <$> pending, engine).

Fixpoint attempt_loop {E} (attempts_left : nat) (results : list (option Result)) (pending : list (nat * CommitCandidate))
    (stopped : list (option CommitCandidate)) (retry_count : N) (engine : Engine)
    : res E (list (option Result) * list (option CommitCandidate) * N) :=
  match attempts_left with
  | O => Ok (results, stopped, retry_count)
  | S attempts_left =>
      '(observed, engine) ← attempt pending engine;
      stopped ← record_stopped stopped pending observed;
      '(results, pending) ← settle_publish_attempt results pending observed;
      if bool_decide (pending = []) || bool_decide (attempts_left = O) then Ok (results, stopped, retry_count)
      else attempt_loop attempts_left results pending stopped (retry_count + 1) engine
  end.

Fixpoint all_results {E} (results : list (option Result)) : res E (list Result) :=
  match results with
  | [] => Ok []
  | result :: rest => result ← expect result; rest ← all_results rest; Ok (result :: rest)
  end.

(** [publish_attempts]: the results, the candidates refused at the write stop
    and the number of retries. *)
Definition publish_attempts {E} (candidates : list CommitCandidate) (stopped : list (option CommitCandidate)) (engine : Engine)
    : res E (list Result * list (option CommitCandidate) * N) :=
  if writer_alive engine then
    '(results, stopped, retry_count) ←
      attempt_loop MAX_CONTENTION_ATTEMPTS ((λ _, None) <$> candidates) (imap pair candidates) stopped 0 engine;
    results ← all_results results;
    Ok (results, stopped, retry_count)
  else Ok ((λ _, inr PeShuttingDown) <$> candidates, stopped, 0).

(** ** Delivering results *)
Context {Permit Waiter : Type}.

Record BatchCandidate := mkBatchCandidate {
  bc_permit : Permit;
  bc_commit_id : CommitId;
  bc_candidate : CommitCandidate;
  bc_enqueued_at : N;
  bc_write_stop_wait_recorded : bool;
  bc_write_stop_reason : option string;
}.

(** [NamespacePublisherState], the fields that delivery uses: the waiters of
    each commit in flight, whether the queue is empty and the last put. *)
Record PublisherState := mkPublisherState {
  ps_in_flight : gmap CommitId (list Waiter);
  ps_queue_is_empty : bool;
  ps_last_publish : option N;
}.

Fixpoint split_write_stop_waiters {E} (index : nat) (commit_ids : list CommitId) (results : list Result)
    (stopped : list (option CommitCandidate)) (queued : list (N * bool)) (permits : list Permit)
    : res E (list BatchCandidate * list CommitId * list Result) :=
  match commit_ids, results with
  | commit_id :: commit_ids, result :: results =>
      taken ← expect (stopped !! index);
      waits ←
        match taken, result with
        | Some candidate, inr (PeMaintenanceRequired _ reason) =>
            queued_at ← expect (queued !! index);
            permit ← expect (permits !! index);
            Ok (Some (mkBatchCandidate permit commit_id candidate queued_at.1 queued_at.2 (Some reason)))
        | _, _ => Ok None
        end;
      '(waiting, delivered_ids, delivered) ← split_write_stop_waiters (S index) commit_ids results stopped queued permits;
      Ok (match waits with
          | Some candidate => (candidate :: waiting, delivered_ids, delivered)
          | None => (waiting, commit_id :: delivered_ids, result :: delivered)
          end)
  | _, _ => Ok ([], [], [])
  end.

Fixpoint deliver_results (in_flight : gmap CommitId (list Waiter)) (commit_ids : list CommitId) (results : list Result)
    : gmap CommitId (list Waiter) * list (Waiter * Result) :=
  match commit_ids, results with
  | commit_id :: commit_ids, result :: results =>
      let deliveries := match in_flight !! commit_id with Some waiters => (λ waiter, (waiter, result)) <$> waiters | None => [] end in
      let '(in_flight, rest) := deliver_results (delete commit_id in_flight) commit_ids results in
      (in_flight, deliveries ++ rest)
  | _, _ => (in_flight, [])
  end.

(** [deliver_batch_results]. *)
Definition deliver_batch_results {E} (state : PublisherState) (commit_ids : list CommitId) (results : list Result)
    : res E (PublisherState * list (Waiter * Result)) :=
  if decide (length results ≠ length commit_ids) then Panic
  else
    let '(in_flight, deliveries) := deliver_results state.(ps_in_flight) commit_ids results in
    Ok (mkPublisherState in_flight state.(ps_queue_is_empty)
          (if state.(ps_queue_is_empty) then None else state.(ps_last_publish)), deliveries).

(** [publish_taken_batch]. *)
Definition publish_taken_batch {E} (candidates : list BatchCandidate) (state : PublisherState) (engine : Engine)
    : res E (list BatchCandidate * PublisherState * list (Waiter * Result)) :=
  '(results, stopped, _) ← publish_attempts (bc_candidate <$> candidates) ((λ _, None) <$> candidates) engine;
  '(waiting, delivered_ids, delivered) ←
    split_write_stop_waiters 0 (bc_commit_id <$> candidates) results stopped
      ((λ candidate, (candidate.(bc_enqueued_at), candidate.(bc_write_stop_wait_recorded))) <$> candidates) (bc_permit <$> candidates);
  '(state, deliveries) ← deliver_batch_results state delivered_ids delivered;
  Ok (waiting, state, deliveries).

(** [publish_batch]: a panic leaves every taken commit's outcome unknown. *)
Definition publish_batch (candidates : list BatchCandidate) (state : PublisherState) (engine : Engine)
    : list BatchCandidate * PublisherState * list (Waiter * Result) :=
  match publish_taken_batch (E:=Empty_set) candidates state engine with
  | Ok taken => taken
  | Err _ | Panic | OutOfFuel =>
      let commit_ids := bc_commit_id <$> candidates in
      let '(in_flight, deliveries) :=
        deliver_results state.(ps_in_flight) commit_ids ((λ _, inr (PeWalPublish OutcomeUnknown)) <$> commit_ids) in
      ([], mkPublisherState in_flight state.(ps_queue_is_empty) state.(ps_last_publish), deliveries)
  end.
End settle.

(** ** The log under concurrent writers *)
Section log_steps.
Context `{SectionCodecLaws} `{WalCodecLaws}.
Context (manifest : NamespaceManifestPayload).
Let namespace_id := manifest.(mp_namespace_id).
Let folded := manifest.(mp_folded_wal_no).
Let base := read_state_from manifest.
Implicit Types store : gmap string bytes.

Definition number_key (i : nat) : string := keys.wal_object namespace_id (folded + N.of_nat i + 1).

(** The store holds the log's objects at their numbers and nothing after. *)
Definition holds (log : WalLog) store : Prop :=
  ∀ i, folded + N.of_nat i < MAX_PUBLIC_INTEGER → store !! number_key i = ee_bytes <$> log !! i.

(** What a conditional put does: it writes only where nothing is, an error may
    come after the write, and a failed precondition means that the key is
    taken. *)
Definition put_contract (put_if_absent : string → bytes → gmap string bytes → res PutError unit * gmap string bytes) : Prop :=
  ∀ key object store, let '(result, store') := put_if_absent key object store in
    (store' = store ∨ (store !! key = None ∧ store' = <[key := object]> store)) ∧
    match result with
    | Ok () => store !! key = None ∧ store' = <[key := object]> store
    | Err PutPreconditionFailed => store' !! key ≠ None
    | Err _ => True
    | Panic | OutOfFuel => False
    end.

(** A writer at an epoch that read a prefix of the log with objects of epochs
    up to its own prepares an object on the head it reached and puts it; the
    log is extended when the put wrote.  Other keys may change meanwhile. *)
Inductive wal_step : gmap string bytes * WalLog → option (EncodedEnvelope WalObjectPayload * res PublishError unit) → gmap string bytes * WalLog → Prop :=
| step_publish store log j writer_epoch records object put_if_absent age_before age_after result store' :
    put_contract put_if_absent → (j ≤ length log)%nat →
    (∀ earlier, earlier ∈ take j log → (lo_payload earlier).(wop_writer_epoch) ≤ writer_epoch) →
    prepare_wal_object_from_payloads (E:=WalNo) id namespace_id writer_epoch (head_after base (take j log)) records = Ok object →
    publish_wal_object put_if_absent age_before age_after object store = (result, store') →
    wal_step (store, log) (Some (object, result)) (store', if decide (store' = store) then log else log ++ [object])
| step_other store log store' :
    (∀ i, folded + N.of_nat i < MAX_PUBLIC_INTEGER → store' !! number_key i = store !! number_key i) → wal_step (store, log) None (store', log).

Inductive wal_reachable : gmap string bytes * WalLog → Prop :=
| reach_empty store : holds [] store → wal_reachable (store, [])
| reach_step s label s' : wal_reachable s → wal_step s label s' → wal_reachable s'.

(** A run of writers: what the store and the log are at each moment. *)
Definition wal_run (trace : nat → gmap string bytes * WalLog) : Prop :=
  wal_reachable (trace 0%nat) ∧ ∀ moment, ∃ label, wal_step (trace moment) label (trace (S moment)).

Lemma epoch_after_bounded (log : WalLog) writer_epoch : (∀ object, object ∈ log → (lo_payload object).(wop_writer_epoch) ≤ writer_epoch) →
  epoch_after 0 log ≤ writer_epoch.
Proof.
  intros Hall. destruct log as [|object log] using rev_ind; [apply N.le_0_l|]. unfold epoch_after. rewrite foldl_app. cbn.
  apply Hall. apply elem_of_app. right. by left.
Qed.

Lemma log_snoc log : ∀ head epoch writer_epoch records object, log_from namespace_id head epoch log →
  prepare_wal_object_from_payloads (E:=WalNo) id namespace_id writer_epoch (head_after head log) records = Ok object →
  object.(ee_document_bytes) ≤ MAX_WAL_OBJECT_BYTES → epoch_after epoch log ≤ writer_epoch →
  log_from namespace_id head epoch (log ++ [object]).
Proof.
  induction log as [|first log IH]; intros head epoch writer_epoch records object Hlog Hprep Hsize Hepoch.
  - destruct (prepare_exact _ _ _ _ _ _ Hprep) as (E1 & E2 & _). cbn [app log_from]. rewrite E1, E2. done.
  - destruct Hlog as (H3 & H4 & H5 & Hlog). cbn [app log_from]. split_and!; [done..|]. by eapply IH.
Qed.

Hypothesis Hns : no_slash namespace_id.

Lemma number_key_inj i j : folded + N.of_nat i < MAX_PUBLIC_INTEGER → folded + N.of_nat j < MAX_PUBLIC_INTEGER →
  number_key i = number_key j → i = j.
Proof.
  intros Hi Hj E. unfold number_key in E.
  pose proof (wal_no_of_key namespace_id (folded + N.of_nat i + 1) Hns ltac:(lia)) as Ei.
  pose proof (wal_no_of_key namespace_id (folded + N.of_nat j + 1) Hns ltac:(lia)) as Ej. rewrite E, Ej in Ei. injection Ei as Ei. lia.
Qed.

(** What a publication does: nothing, or its put wrote the object, and then
    it returned, failed or is unknown. *)
Lemma publish_cases put_if_absent age_before age_after object store result store' : put_contract put_if_absent →
  publish_wal_object put_if_absent age_before age_after object store = (result, store') →
  let key := keys.wal_object (lo_payload object).(wop_namespace_id) (lo_payload object).(wop_wal_no) in
  (store' = store ∧ result ≠ Ok ()) ∨
  (object.(ee_document_bytes) ≤ MAX_WAL_OBJECT_BYTES ∧ store !! key = None ∧ store' = <[key := object.(ee_bytes)]> store).
Proof.
  intros Hput E key. unfold publish_wal_object in E. case_decide as Hsize; [left; by injection E as <- <-|].
  case_decide as Hage; [left; by injection E as <- <-|].
  specialize (Hput key object.(ee_bytes) store). fold (lo_payload object) in E. fold key in E.
  destruct (put_if_absent key object.(ee_bytes) store) as [put store1]. injection E as <- <-. destruct Hput as [[->|[Hnone ->]] Hresult].
  - left. split; [done|]. destruct put as [[]|[]| |]; cbn; try done. destruct Hresult as [Hnone Hinsert].
    exfalso. apply (f_equal (lookup key)) in Hinsert. rewrite lookup_insert_eq in Hinsert. congruence.
  - right. split; [lia|done].
Qed.

Lemma publish_step_ok log store j writer_epoch records object put_if_absent age_before age_after result store' :
  log_from namespace_id base 0 log → holds log store → put_contract put_if_absent → (j ≤ length log)%nat →
  (∀ earlier, earlier ∈ take j log → (lo_payload earlier).(wop_writer_epoch) ≤ writer_epoch) →
  prepare_wal_object_from_payloads (E:=WalNo) id namespace_id writer_epoch (head_after base (take j log)) records = Ok object →
  publish_wal_object put_if_absent age_before age_after object store = (result, store') →
  (store' = store ∧ result ≠ Ok ()) ∨
  (j = length log ∧ store' ≠ store ∧ log_from namespace_id base 0 (log ++ [object]) ∧ holds (log ++ [object]) store').
Proof.
  intros Hlog Hholds Hput Hj Hepochs Hprep Hpub.
  destruct (prepare_exact _ _ _ _ _ _ Hprep) as (_ & _ & Ens & Eno & Hmax & _).
  rewrite (head_after_number manifest log Hlog) in Eno, Hmax by done.
  destruct (publish_cases _ _ _ _ _ _ _ Hput Hpub) as [Hsame|(Hsize & Hnone & ->)]; [by left|right].
  rewrite Ens, Eno in *. fold namespace_id folded in Hnone |- *. fold (number_key j) in Hnone |- *. fold folded in Hmax.
  assert (j = length log) as ->.
  { rewrite Hholds in Hnone by lia. destruct (log !! j) eqn:Ej; [done|]. apply lookup_ge_None in Ej. lia. }
  split_and!; [done| | |].
  - intros Heq. apply (f_equal (lookup (number_key (length log)))) in Heq. rewrite lookup_insert_eq, Hnone in Heq. done.
  - rewrite firstn_all in *. eapply log_snoc; [done|done|done|]. by apply epoch_after_bounded.
  - intros i Hi. destruct (decide (i = length log)) as [->|Hne].
    + by rewrite lookup_insert_eq, lookup_app_r, Nat.sub_diag by done.
    + rewrite lookup_insert_ne by (intros E; apply number_key_inj in E; lia). rewrite Hholds by done. f_equal.
      destruct (decide (i < length log)%nat); [by rewrite lookup_app_l|]. rewrite !lookup_ge_None_2; [done|rewrite length_app; cbn; lia|lia].
Qed.

Lemma wal_step_ok s label s' : log_from namespace_id base 0 s.2 ∧ holds s.2 s.1 → wal_step s label s' →
  log_from namespace_id base 0 s'.2 ∧ holds s'.2 s'.1 ∧ s.2 `prefix_of` s'.2 ∧
  (∀ object, label = Some (object, Ok ()) → s'.2 = s.2 ++ [object]).
Proof.
  intros [Hlog Hholds] Hstep. destruct Hstep as [store log j writer_epoch records object put age1 age2 result store' Hput Hj Hep Hprep Hpub|store log store' Hother];
    cbn [fst snd] in *.
  - destruct (publish_step_ok _ _ _ _ _ _ _ _ _ _ _ Hlog Hholds Hput Hj Hep Hprep Hpub) as [[-> Hne]|(-> & Hne & Hlog' & Hholds')].
    + rewrite decide_True by done. split_and!; [done..|]. intros o [= -> ->]. done.
    + rewrite decide_False by done. split_and!; [done|done|by apply prefix_app_r|]. by intros o [= -> ->].
  - split_and!; [done| |done|done]. intros i Hi. rewrite Hother by done. by apply Hholds.
Qed.

Lemma wal_reachable_ok s : wal_reachable s → log_from namespace_id base 0 s.2 ∧ holds s.2 s.1.
Proof.
  induction 1 as [store Hholds|s label s' _ IH Hstep]; [done|]. destruct (wal_step_ok _ _ _ IH Hstep) as (? & ? & _). done.
Qed.

Lemma run_ok trace moment : wal_run trace → log_from namespace_id base 0 (trace moment).2 ∧ holds (trace moment).2 (trace moment).1.
Proof.
  intros [Hstart Hsteps]. apply wal_reachable_ok. induction moment as [|moment IH]; [done|]. destruct (Hsteps moment) as [label Hstep]. by eapply reach_step.
Qed.

Lemma run_prefix trace moment later : wal_run trace → (moment ≤ later)%nat → (trace moment).2 `prefix_of` (trace later).2.
Proof.
  intros Hrun Hle. induction Hle as [|later _ IH]; [done|]. destruct (proj2 Hrun later) as [label Hstep].
  destruct (wal_step_ok _ _ _ (run_ok trace later Hrun) Hstep) as (_ & _ & Hprefix & _). by etrans.
Qed.

(** A store that answers from a run, or fails. *)
Definition reads_run (trace : nat → gmap string bytes * WalLog) (store_get : nat → string → res ObjectStoreErrorKind (option bytes)) : Prop :=
  ∀ moment key, (∃ kind, store_get moment key = Err kind) ∨ store_get moment key = Ok ((trace moment).1 !! key).

Lemma run_wal_store trace finish store_get : wal_run trace → reads_run trace store_get →
  wal_store namespace_id folded (trace finish).2 (λ moment, length (trace moment).2) finish store_get.
Proof.
  intros Hrun Hreads. split.
  - intros moment i Hmoment Hi. destruct (Hreads moment (keys.wal_object namespace_id (folded + N.of_nat i + 1))) as [Herr|Eget]; [by left|right].
    rewrite Eget. destruct (run_ok trace moment Hrun) as [_ Hholds]. specialize (Hholds i Hi). unfold number_key in Hholds. rewrite Hholds.
    f_equal. case_bool_decide as Hlt.
    + destruct (run_prefix trace moment finish Hrun Hmoment) as [rest ->]. by rewrite lookup_app_l.
    + by rewrite lookup_ge_None_2 by lia.
  - intros moment later [Hle Hf]. split; apply prefix_length; by apply run_prefix.
Qed.
End log_steps.

(** ** What attempts observe *)
Section observed.
Context {Commit CommitCandidate Engine Permit Waiter : Type}.
Abbreviation Result := (sum Commit PublishError) (only parsing).
Context (publish_through_engine : list CommitCandidate → Engine → res Empty_set (list Result * Engine)) (writer_alive : Engine → bool).

Definition engine_answers : Prop := ∀ candidates engine results engine',
  publish_through_engine candidates engine = Ok (results, engine') → length results = length candidates.

(** The rounds of attempts: the candidates of each and their results. *)
Definition retried (round : list (nat * CommitCandidate * Result)) : list (nat * CommitCandidate) :=
  (filter (λ attempt, is_retryable_wal_publish attempt.2 = true) round).*1.
Fixpoint attempt_rounds {E} (attempts_left : nat) (pending : list (nat * CommitCandidate)) (engine : Engine)
    : res E (list (list (nat * CommitCandidate * Result))) :=
  match attempts_left with
  | O => Ok []
  | S attempts_left =>
      '(observed, engine) ← attempt publish_through_engine writer_alive pending engine;
      let round := zip pending observed in
      if bool_decide (retried round = []) || bool_decide (attempts_left = O) then Ok [round]
      else rounds ← attempt_rounds attempts_left (retried round) engine; Ok (round :: rounds)
  end.

(** The results of the candidate at an index, in order. *)
Definition observed_in (index : nat) (round : list (nat * CommitCandidate * Result)) : list Result :=
  (filter (λ attempt, attempt.1.1 = index) round).*2.
Definition observed_of (index : nat) (rounds : list (list (nat * CommitCandidate * Result))) : list Result := rounds ≫= observed_in index.

Definition settle (slot : option Result) (current : Result) : option Result :=
  if is_outcome_unknown slot && is_err current then slot else Some current.
Definition settled : list Result → option Result := foldl settle None.

(** ** Settling *)
Lemma settled_snoc (observed : list Result) current : settled (observed ++ [current]) = settle (settled observed) current.
Proof. unfold settled. by rewrite foldl_app. Qed.

Lemma retryable_err (result : Result) : is_retryable_wal_publish result = true → is_err result = true.
Proof. by destruct result. Qed.

(** A list of retried results settles to the unknown outcome if there was one,
    and to the last result otherwise. *)
Definition unknown_in (observed : list Result) : bool := existsb (λ result, is_outcome_unknown (Some result)) observed.

Lemma settled_unknown (observed : list Result) : (∀ result, result ∈ observed → is_err result = true) →
  settled observed = if unknown_in observed then Some (inr (PeWalPublish OutcomeUnknown)) else list.last observed.
Proof.
  induction observed as [|current observed IH] using rev_ind; intros Herr; [done|].
  rewrite settled_snoc, IH by (intros r Hr; apply Herr, elem_of_app; by left). unfold unknown_in. rewrite existsb_app. cbn [existsb]. rewrite orb_false_r, last_snoc.
  assert (is_err current = true) as Hcurrent by (apply Herr, elem_of_app; right; by left). fold (unknown_in observed). unfold settle.
  destruct (unknown_in observed) eqn:Eu; cbn [is_outcome_unknown orb]; [by rewrite Hcurrent|].
  assert (is_outcome_unknown (list.last observed) = false) as ->.
  { destruct (list.last observed) as [last|] eqn:El; [|done]. destruct (is_outcome_unknown (Some last)) eqn:E; [|done]. exfalso.
    apply last_Some_elem_of in El. assert (unknown_in observed = true); [|congruence]. apply existsb_exists. exists last. split; [by apply list_elem_of_In|done]. }
  cbn [andb]. destruct current as [|[[]| | | | |]]; done.
Qed.

Lemma settled_last (observed : list Result) last : (∀ result, result ∈ observed → is_retryable_wal_publish result = true) →
  settled (observed ++ [last]) = Some (if is_err last && unknown_in observed then inr (PeWalPublish OutcomeUnknown) else last).
Proof.
  intros Hretry. rewrite settled_snoc, settled_unknown by (intros r Hr; by apply retryable_err, Hretry). unfold settle.
  destruct (unknown_in observed) eqn:Eu; cbn [is_outcome_unknown andb].
  - by destruct (is_err last).
  - rewrite andb_false_r. destruct (is_outcome_unknown (list.last observed)) eqn:El; [|done]. exfalso.
    destruct (list.last observed) as [r|] eqn:Er; [|done]. apply last_Some_elem_of in Er.
    assert (unknown_in observed = true); [|congruence]. apply existsb_exists. exists r. split; [by apply list_elem_of_In|done].
Qed.

(** *** One attempt *)
Lemma settle_ok {E} (attempted : list (nat * CommitCandidate)) : ∀ results observed, length observed = length attempted →
  NoDup attempted.*1 → (∀ index, index ∈ attempted.*1 → (index < length results)%nat) →
  ∃ results', settle_publish_attempt (E:=E) results attempted observed = Ok (results', retried (zip attempted observed)) ∧
    length results' = length results ∧
    ∀ index, results' !! index = (λ slot, foldl settle slot (observed_in index (zip attempted observed))) <$> results !! index.
Proof.
  induction attempted as [|[index candidate] attempted IH]; intros results observed Hlen Hnd Hin.
  { exists results. split_and!; [done..|]. intros i. cbn. by destruct (results !! i). }
  destruct observed as [|current observed]; [done|]. cbn [settle_publish_attempt].
  destruct (lookup_lt_is_Some_2 results index) as [slot Hslot]; [apply Hin; by left|]. rewrite Hslot. cbn [expect mbind res_bind].
  apply NoDup_cons in Hnd as [Hnew Hnd]. set (results1 := if is_outcome_unknown slot && is_err current then results else <[index := Some current]> results).
  assert (length results1 = length results) as Hlen1 by (unfold results1; destruct (_ && _); [done|apply length_insert]).
  assert (∀ i, results1 !! i = if decide (i = index) then Some (settle slot current) else results !! i) as Hresults1.
  { intros i. unfold results1, settle. destruct (_ && _); case_decide as Hi; subst; [done|done|by rewrite list_lookup_insert_eq by by eapply lookup_lt_Some|by rewrite list_lookup_insert_ne]. }
  destruct (IH results1 observed) as (results' & -> & Hlen' & Hall); [by injection Hlen|done|intros i Hi; rewrite Hlen1; apply Hin; by right|].
  cbn [mbind res_bind]. exists results'. split_and!; [|lia|].
  - unfold retried. cbn [zip zip_with]. rewrite filter_cons. cbn [snd]. destruct (is_retryable_wal_publish current); [by rewrite decide_True|by rewrite decide_False].
  - intros i. rewrite Hall, Hresults1. unfold observed_in. cbn [zip zip_with]. rewrite filter_cons. cbn [fst]. destruct (decide (i = index)) as [->|Hne].
    + rewrite decide_True by done. rewrite Hslot. cbn [fmap option_fmap option_map list_fmap foldl snd]. done.
    + rewrite decide_False by congruence. done.
Qed.

Lemma stopped_ok {E} (attempted : list (nat * CommitCandidate)) : ∀ (stopped : list (option CommitCandidate)) (observed : list Result),
  (∀ index, index ∈ attempted.*1 → (index < length stopped)%nat) →
  ∃ stopped', record_stopped (E:=E) stopped attempted observed = Ok stopped' ∧ length stopped' = length stopped ∧
    ∀ index, stopped' !! index = (λ slot, foldl (λ slot attempt, if is_maintenance_required attempt.2 then Some attempt.1.2 else slot) slot
      (filter (λ attempt, attempt.1.1 = index) (zip attempted observed))) <$> stopped !! index.
Proof.
  induction attempted as [|[index candidate] attempted IH]; intros stopped observed Hin.
  { exists stopped. split_and!; [done..|]. intros i. cbn. by destruct (stopped !! i). }
  destruct observed as [|result observed]; [exists stopped; split_and!; [done..|]; intros i; cbn; by destruct (stopped !! i)|].
  cbn [record_stopped]. assert (index < length stopped)%nat as Hindex by (apply Hin; by left).
  set (stopped1 := if is_maintenance_required result then <[index := Some candidate]> stopped else stopped).
  assert ((if is_maintenance_required result then if decide (index < length stopped)%nat then Ok (<[index := Some candidate]> stopped) else Panic else Ok stopped)
    = Ok (E:=E) stopped1) as -> by (unfold stopped1; destruct (is_maintenance_required result); [by rewrite decide_True|done]).
  assert (length stopped1 = length stopped) as Hlen1 by (unfold stopped1; destruct (is_maintenance_required result); [apply length_insert|done]).
  cbn [mbind res_bind]. destruct (IH stopped1 observed) as (stopped' & -> & Hlen' & Hall); [intros i Hi; rewrite Hlen1; apply Hin; by right|].
  exists stopped'. split_and!; [done|lia|]. intros i. rewrite Hall. cbn [zip zip_with]. rewrite filter_cons. cbn [fst]. unfold stopped1.
  destruct (decide (index = i)) as [->|Hne].
  - cbn [foldl snd fst]. destruct (is_maintenance_required result); [|done]. rewrite list_lookup_insert_eq by done.
    destruct (lookup_lt_is_Some_2 stopped i Hindex) as [slot ->]. done.
  - destruct (is_maintenance_required result); [by rewrite list_lookup_insert_ne|done].
Qed.

(** *** All attempts *)
Definition attempts_of (index : nat) (rounds : list (list (nat * CommitCandidate * Result))) : list (nat * CommitCandidate * Result) :=
  rounds ≫= filter (λ attempt, attempt.1.1 = index).
Definition stop (slot : option CommitCandidate) (attempt : nat * CommitCandidate * Result) : option CommitCandidate :=
  if is_maintenance_required attempt.2 then Some attempt.1.2 else slot.

Lemma imap_twice {A B C} (f : nat → B → C) (g : nat → A → B) (l : list A) : imap f (imap g l) = imap (λ i x, f i (g i x)) l.
Proof. apply list_eq. intros i. rewrite !list_lookup_imap. by destruct (l !! i). Qed.

Lemma settle_imap {E} (attempted : list (nat * CommitCandidate)) results observed : length observed = length attempted →
  NoDup attempted.*1 → (∀ index, index ∈ attempted.*1 → (index < length results)%nat) →
  settle_publish_attempt (E:=E) results attempted observed
  = Ok (imap (λ i slot, foldl settle slot (observed_in i (zip attempted observed))) results, retried (zip attempted observed)).
Proof.
  intros Hlen Hnd Hin. destruct (settle_ok (E:=E) attempted results observed Hlen Hnd Hin) as (results' & -> & _ & Hall). do 2 f_equal.
  apply list_eq. intros i. by rewrite Hall, list_lookup_imap.
Qed.

Lemma stopped_imap {E} (attempted : list (nat * CommitCandidate)) (stopped : list (option CommitCandidate)) (observed : list Result) :
  (∀ index, index ∈ attempted.*1 → (index < length stopped)%nat) →
  record_stopped (E:=E) stopped attempted observed
  = Ok (imap (λ i slot, foldl stop slot (filter (λ attempt, attempt.1.1 = i) (zip attempted observed))) stopped).
Proof.
  intros Hin. destruct (stopped_ok (E:=E) attempted stopped observed Hin) as (stopped' & -> & _ & Hall). f_equal.
  apply list_eq. intros i. by rewrite Hall, list_lookup_imap.
Qed.

Hypothesis Hanswers : engine_answers.

Lemma attempt_length {E} pending engine observed engine' : attempt (E:=E) publish_through_engine writer_alive pending engine = Ok (observed, engine') →
  length observed = length pending.
Proof.
  unfold attempt. destruct (writer_alive engine); [intros Hobserved%infallible_Ok%Hanswers; by rewrite Hobserved, length_fmap|].
  intros [= <- _]. by rewrite length_fmap.
Qed.

Lemma retried_sublist pending (observed : list Result) : retried (zip pending observed) `sublist_of` pending.
Proof.
  revert observed. induction pending as [|p pending IH]; intros [|r observed]; [done|apply sublist_nil_l|apply sublist_nil_l|].
  unfold retried in *. cbn [zip zip_with]. rewrite filter_cons. case_decide; cbn; [by apply sublist_skip|by apply sublist_cons].
Qed.

Lemma rounds_nonempty {E} n pending engine rounds : attempt_rounds (E:=E) (S n) pending engine = Ok rounds → rounds ≠ [].
Proof.
  cbn [attempt_rounds]. destruct (attempt _ _ _ engine) as [[o e]| | |]; cbn [mbind res_bind]; [|done..].
  destruct (bool_decide _ || bool_decide _); [by intros [= <-]|]. intros Er. step_ok Er r Hr. by injection Er as <-.
Qed.

Lemma attempt_loop_imap {E} n : ∀ results pending stopped retry_count engine, NoDup pending.*1 →
  (∀ index, index ∈ pending.*1 → (index < length results)%nat ∧ (index < length stopped)%nat) →
  attempt_loop (E:=E) publish_through_engine writer_alive n results pending stopped retry_count engine
  = (rounds ← attempt_rounds n pending engine;
     Ok (imap (λ i slot, foldl settle slot (observed_of i rounds)) results, imap (λ i slot, foldl stop slot (attempts_of i rounds)) stopped,
         retry_count + N.of_nat (pred (length rounds)))).
Proof.
  induction n as [|n IH]; intros results pending stopped retry_count engine Hnd Hin; cbn [attempt_loop attempt_rounds].
  { cbn. rewrite N.add_0_r. do 3 f_equal; symmetry; apply list_eq; intros i; rewrite list_lookup_imap; by destruct (_ !! i). }
  destruct (attempt _ _ pending engine) as [[observed engine']| | |] eqn:Ea; cbn [mbind res_bind]; [|done..].
  apply attempt_length in Ea. rewrite stopped_imap by (intros i Hi; by apply Hin). cbn [mbind res_bind].
  rewrite settle_imap by (done || (intros i Hi; by apply Hin)). cbn [mbind res_bind].
  destruct (bool_decide _ || bool_decide _) eqn:Elast; cbn [mbind res_bind].
  { cbn [length pred N.of_nat]. rewrite N.add_0_r. unfold observed_of, attempts_of. cbn [mbind list_bind]. do 3 f_equal.
    all: apply imap_ext; intros i slot _; by rewrite app_nil_r. }
  rewrite IH.
  - destruct (attempt_rounds n _ engine') as [rounds| | |] eqn:Er; cbn [mbind res_bind]; [|done..]. rewrite !imap_twice. f_equal. f_equal; [f_equal|].
    + apply imap_ext. intros i slot _. unfold observed_of. cbn [mbind list_bind]. by rewrite foldl_app.
    + apply imap_ext. intros i slot _. unfold attempts_of. cbn [mbind list_bind]. by rewrite foldl_app.
    + cbn [length pred]. destruct rounds as [|round rounds]; [|cbn [length pred]; lia]. exfalso. destruct n; [by rewrite orb_true_r in Elast|]. by apply rounds_nonempty in Er.
  - eapply sublist_NoDup; [exact Hnd|apply fmap_sublist, retried_sublist].
  - intros i Hi. rewrite !length_imap. apply Hin. eapply elem_of_submseteq; [done|]. apply sublist_submseteq, fmap_sublist, retried_sublist.
Qed.

(** An attempt has one result for each of its candidates. *)
Lemma observed_one pending (observed : list Result) index : length observed = length pending → NoDup pending.*1 →
  ((index ∉ pending.*1) ∧ filter (λ attempt, attempt.1.1 = index) (zip pending observed) = []) ∨
  (∃ candidate result, (index, candidate) ∈ pending ∧ filter (λ attempt, attempt.1.1 = index) (zip pending observed) = [(index, candidate, result)] ∧
     (index ∈ (retried (zip pending observed)).*1 ↔ is_retryable_wal_publish result = true)).
Proof.
  revert observed. induction pending as [|[i c] pending IH]; intros [|r observed] Hlen Hnd; try done.
  { left. split; [apply not_elem_of_nil|done]. }
  apply NoDup_cons in Hnd as [Hnew Hnd]. injection Hlen as Hlen. specialize (IH observed Hlen Hnd). unfold retried in *. cbn [zip zip_with].
  rewrite !filter_cons. cbn [fst snd] in *. destruct (decide (i = index)) as [->|Hne].
  - right. exists c, r. destruct IH as [[_ ->]|(c' & r' & Hc' & _)]; [|exfalso; apply Hnew; by apply (list_elem_of_fmap_2 fst _ (index, c'))].
    split_and!; [by left|done|]. destruct (is_retryable_wal_publish r) eqn:Er.
    + rewrite decide_True by done. cbn. split; [done|by left].
    + rewrite decide_False by done. split; [|done]. intros Hin. exfalso. apply Hnew.
      eapply elem_of_submseteq; [exact Hin|]. apply sublist_submseteq, fmap_sublist. apply retried_sublist.
  - assert (∀ l, index ∈ (if decide (is_retryable_wal_publish r = true) then (i, c, r) :: l else l).*1.*1 ↔ index ∈ l.*1.*1) as Hcons.
    { intros l. case_decide; [|done]. cbn. rewrite elem_of_cons. naive_solver. }
    destruct IH as [[Hni ->]|(c' & r' & Hc' & -> & Hiff)].
    + left. split; [|done]. cbn. rewrite not_elem_of_cons. split; [congruence|done].
    + right. exists c', r'. split_and!; [by right|done|]. by rewrite Hcons.
Qed.

(** The results of a candidate: retried ones, then the last; only the last
    possible attempt is not retried. *)
Lemma rounds_observed {E} n : ∀ pending engine rounds index, NoDup pending.*1 → attempt_rounds (E:=E) (S n) pending engine = Ok rounds →
  ((index ∉ pending.*1) ∧ attempts_of index rounds = []) ∨
  (∃ candidate observed last, (index, candidate) ∈ pending ∧ attempts_of index rounds = pair (index, candidate) <$> (observed ++ [last]) ∧
     (∀ result, result ∈ observed → is_retryable_wal_publish result = true) ∧ (is_retryable_wal_publish last = true → length rounds = S n)).
Proof.
  induction n as [|n IH]; intros pending engine rounds index Hnd Er; cbn [attempt_rounds] in Er;
    destruct (attempt _ _ pending engine) as [[observed engine']| | |] eqn:Ea; cbn [mbind res_bind] in Er; try done; apply attempt_length in Ea;
    destruct (observed_one pending observed index Ea Hnd) as [[Hni Hnone]|(c & r & Hc & Hone & Hretry)].
  1,2: rewrite orb_true_r in Er; injection Er as <-; unfold attempts_of; cbn [mbind list_bind]; rewrite app_nil_r.
  - by left.
  - right. exists c, [], r. split_and!; [done|by rewrite Hone|by intros ? []%elem_of_nil|done].
  - left. split; [done|]. destruct (bool_decide _ || bool_decide _); [injection Er as <-; unfold attempts_of; cbn [mbind list_bind]; by rewrite Hnone|].
    step_ok Er rest Hrest. injection Er as <-. unfold attempts_of. cbn [mbind list_bind]. rewrite Hnone. cbn [app].
    destruct (IH _ _ _ index ltac:(eapply sublist_NoDup; [exact Hnd|apply fmap_sublist, retried_sublist]) Hrest) as [[_ Hno]|(c' & o & l & Hc' & _)]; [done|].
    exfalso. apply Hni. apply (list_elem_of_fmap_2 fst _ (index, c')). eapply elem_of_submseteq; [done|]. apply sublist_submseteq, retried_sublist.
  - right. destruct (bool_decide (retried (zip pending observed) = []) || bool_decide (S n = 0%nat)) eqn:Elast.
    + injection Er as <-. exists c, [], r. unfold attempts_of. cbn [mbind list_bind]. rewrite Hone. split_and!; [done|done|by intros ? []%elem_of_nil|].
      intros Hr%Hretry. rewrite orb_false_r in Elast. apply bool_decide_eq_true in Elast. rewrite Elast in Hr. by apply elem_of_nil in Hr.
    + step_ok Er rest Hrest. injection Er as <-. unfold attempts_of. cbn [mbind list_bind]. rewrite Hone.
      destruct (IH _ _ _ index ltac:(eapply sublist_NoDup; [exact Hnd|apply fmap_sublist, retried_sublist]) Hrest)
        as [[Hno Hnone]|(c' & o & l & Hc' & Ho & Hall & Hlen)].
      * exists c, [], r. fold (attempts_of index rest). rewrite Hnone. split_and!; [done|done|by intros ? []%elem_of_nil|by intros ?%Hretry].
      * assert (c' = c) as ->.
        { assert ((index, c') ∈ pending) as Hp by (eapply elem_of_submseteq; [done|]; apply sublist_submseteq, retried_sublist).
          pose proof (elem_of_list_to_map_1 (M:=gmap nat) _ _ _ Hnd Hp) as E1. rewrite (elem_of_list_to_map_1 (M:=gmap nat) _ _ _ Hnd Hc) in E1.
          by injection E1. }
        exists c, (r :: o), l. fold (attempts_of index rest). rewrite Ho. split_and!; [done|done| |cbn; intros Hl; by rewrite Hlen].
        intros x [->|Hx]%elem_of_cons; [|by apply Hall]. apply Hretry. by apply (list_elem_of_fmap_2 fst _ (index, c)).
Qed.

(** *** The results of a batch *)
Abbreviation Candidate := (BatchCandidate (CommitCandidate:=CommitCandidate) (Permit:=Permit)) (only parsing).

Lemma observed_attempts index rounds : observed_of index rounds = (attempts_of index rounds).*2.
Proof. unfold observed_of, attempts_of. induction rounds as [|round rounds IH]; [done|]. cbn [mbind list_bind]. by rewrite fmap_app, <-IH. Qed.

Definition candidate_result (candidates : list CommitCandidate) (engine : Engine) (index : nat) (result : Result) : Prop :=
  if writer_alive engine then
    match attempt_rounds (E:=Empty_set) MAX_CONTENTION_ATTEMPTS (imap pair candidates) engine with
    | Ok rounds => ∃ observed last, observed_of index rounds = observed ++ [last] ∧
        (∀ earlier, earlier ∈ observed → is_retryable_wal_publish earlier = true) ∧
        (is_retryable_wal_publish last = true → length rounds = MAX_CONTENTION_ATTEMPTS) ∧
        result = if is_err last && unknown_in observed then inr (PeWalPublish OutcomeUnknown) else last
    | _ => result = inr (PeWalPublish OutcomeUnknown)
    end
  else result = inr PeShuttingDown.

Lemma imap_pair_lookup (candidates : list CommitCandidate) i c : (i, c) ∈ imap pair candidates ↔ candidates !! i = Some c.
Proof.
  rewrite list_elem_of_lookup. setoid_rewrite list_lookup_imap. split.
  - intros [j Hj]. destruct (candidates !! j) eqn:E; [|done]. cbn in Hj. by injection Hj as -> ->.
  - intros Hi. exists i. by rewrite Hi.
Qed.
Lemma imap_pair_fst (candidates : list CommitCandidate) : (imap pair candidates).*1 = seq 0 (length candidates).
Proof.
  apply list_eq. intros i. rewrite list_lookup_fmap, list_lookup_imap. destruct (candidates !! i) eqn:E; cbn.
  - symmetry. apply lookup_seq. split; [done|]. by eapply lookup_lt_Some.
  - symmetry. apply lookup_seq_ge. by apply lookup_ge_None.
Qed.

Lemma all_results_ok {E} (slots : list (option Result)) : (∀ i slot, slots !! i = Some slot → slot ≠ None) →
  ∃ results, all_results (E:=E) slots = Ok results ∧ slots = Some <$> results.
Proof.
  induction slots as [|slot slots IH]; intros Hall; [by exists []|]. destruct slot as [result|]; [|by destruct (Hall 0%nat None eq_refl)].
  destruct IH as (results & E1 & ->); [intros i s Hi; by apply (Hall (S i))|]. exists (result :: results). cbn [all_results expect mbind res_bind]. by rewrite E1.
Qed.

Definition refused_copied (candidates : list CommitCandidate) (results : list Result) (stopped : list (option CommitCandidate)) : Prop :=
  length stopped = length candidates ∧
  ∀ i candidate result, candidates !! i = Some candidate → results !! i = Some result → is_maintenance_required result = true →
    stopped !! i = Some (Some candidate).

(** The attempts return, with a result for each candidate, unless the engine
    panicked. *)
Lemma publish_attempts_ok (candidates : list CommitCandidate) (engine : Engine) :
  (∃ results stopped retries, publish_attempts (E:=Empty_set) publish_through_engine writer_alive candidates ((λ _, None) <$> candidates) engine
     = Ok (results, stopped, retries) ∧ length results = length candidates ∧ refused_copied candidates results stopped ∧
     ∀ i result, results !! i = Some result → candidate_result candidates engine i result) ∨
  (¬ returns (publish_attempts (E:=Empty_set) publish_through_engine writer_alive candidates ((λ _, None) <$> candidates) engine) ∧
   ∀ i, candidate_result candidates engine i (inr (PeWalPublish OutcomeUnknown))).
Proof.
  unfold publish_attempts, candidate_result. destruct (writer_alive engine) eqn:Ealive.
  2:{ left. eexists _, _, _. split_and!; [done|apply length_fmap|split; [apply length_fmap|]|].
      - intros i c r _ Hr. by apply list_lookup_fmap_Some in Hr as (? & -> & _).
      - intros i r Hr. by apply list_lookup_fmap_Some in Hr as (? & -> & _). }
  rewrite attempt_loop_imap.
  2:{ rewrite imap_pair_fst. apply NoDup_seq. }
  2:{ intros i. rewrite imap_pair_fst, elem_of_seq, !length_fmap. lia. }
  destruct (attempt_rounds _ _ engine) as [rounds| [] | |] eqn:Er; [|right; cbn; split; [by intros []|done]..]. left. cbn [mbind res_bind].
  assert (∀ i c, candidates !! i = Some c → ∃ observed last, attempts_of i rounds = pair (i, c) <$> (observed ++ [last]) ∧
    (∀ result, result ∈ observed → is_retryable_wal_publish result = true) ∧
    (is_retryable_wal_publish last = true → length rounds = MAX_CONTENTION_ATTEMPTS)) as Hrounds.
  { intros i c Hc. assert ((i, c) ∈ imap pair candidates) as Hp by by apply imap_pair_lookup.
    destruct (rounds_observed _ _ _ _ i ltac:(rewrite imap_pair_fst; apply NoDup_seq) Er) as [[Hno _]|(c' & observed & last & Hc' & Hall)].
    - destruct Hno. by apply (list_elem_of_fmap_2 fst _ (i, c)).
    - apply imap_pair_lookup in Hc'. rewrite Hc in Hc'. injection Hc' as <-. by exists observed, last. }
  assert (∀ i c observed last, attempts_of i rounds = pair (i, c) <$> (observed ++ [last]) → observed_of i rounds = observed ++ [last]) as Hobserved.
  { intros i c observed last Ho. rewrite observed_attempts, Ho, <-list_fmap_compose. apply list_fmap_id. }
  set (slots := imap (λ i slot, foldl settle slot (observed_of i rounds)) _).
  assert (∀ i slot, slots !! i = Some slot → ∃ c, candidates !! i = Some c ∧ slot = settled (observed_of i rounds)) as Hslots.
  { intros i slot Hi. unfold slots in Hi. rewrite list_lookup_imap, list_lookup_fmap in Hi. destruct (candidates !! i) as [c|]; [|done].
    exists c. by injection Hi as <-. }
  destruct (all_results_ok (E:=Empty_set) slots) as (results & -> & Eslots).
  { intros i slot (c & Hc & ->)%Hslots. destruct (Hrounds i c Hc) as (observed & last & Ho & Hall & _).
    rewrite (Hobserved _ _ _ _ Ho), settled_last by done. done. }
  assert (∀ i r, results !! i = Some r → ∃ c, candidates !! i = Some c ∧ Some r = settled (observed_of i rounds)) as Hresults.
  { intros i r Hr. apply Hslots. by rewrite Eslots, list_lookup_fmap, Hr. }
  cbn [mbind res_bind]. eexists _, _, _. split_and!; [done| |split|].
  - rewrite <-(length_fmap Some results), <-Eslots. unfold slots. by rewrite length_imap, length_fmap.
  - by rewrite length_imap, length_fmap.
  - intros i c r Hc Hr Hm. rewrite list_lookup_imap, list_lookup_fmap, Hc. cbn [fmap option_fmap option_map].
    destruct (Hrounds i c Hc) as (observed & last & Ho & Hall & _). destruct (Hresults i r Hr) as (_ & _ & Hs).
    rewrite (Hobserved _ _ _ _ Ho), settled_last in Hs by done. injection Hs as Hs. rewrite Ho, fmap_app, foldl_app. cbn [fmap list_fmap foldl].
    unfold stop at 1. cbn [snd fst]. destruct (is_err last && unknown_in observed); subst r; [done|]. by rewrite Hm.
  - intros i r Hr. destruct (Hresults i r Hr) as (c & Hc & Hs). destruct (Hrounds i c Hc) as (observed & last & Ho & Hall & Hlen).
    rewrite (Hobserved _ _ _ _ Ho), settled_last in Hs by done. exists observed, last. rewrite (Hobserved _ _ _ _ Ho). split_and!; [done..|]. by injection Hs.
Qed.

(** *** Delivery *)
Definition wait_of (settled : Candidate * Result) : option Candidate :=
  match settled.2 with
  | inr (PeMaintenanceRequired _ reason) =>
      Some (mkBatchCandidate settled.1.(bc_permit) settled.1.(bc_commit_id) settled.1.(bc_candidate) settled.1.(bc_enqueued_at)
              settled.1.(bc_write_stop_wait_recorded) (Some reason))
  | _ => None
  end.
Definition is_delivered (settled : Candidate * Result) : Prop := is_maintenance_required settled.2 = false.
#[local] Instance is_delivered_dec settled : Decision (is_delivered settled).
Proof. unfold is_delivered. apply _. Defined.

Lemma wait_of_delivered settled : is_delivered settled ↔ wait_of settled = None.
Proof. unfold is_delivered, wait_of. destruct settled as [c [|[]]]; done. Qed.

Lemma split_ok {E} (candidates : list Candidate) : ∀ results (stopped : list (option CommitCandidate)) queued permits index, length results = length candidates →
  (∀ i candidate, candidates !! i = Some candidate →
     queued !! (index + i)%nat = Some (candidate.(bc_enqueued_at), candidate.(bc_write_stop_wait_recorded)) ∧
     permits !! (index + i)%nat = Some candidate.(bc_permit) ∧ is_Some (stopped !! (index + i)%nat)) →
  (∀ i candidate result, candidates !! i = Some candidate → results !! i = Some result → is_maintenance_required result = true →
     stopped !! (index + i)%nat = Some (Some candidate.(bc_candidate))) →
  let delivered := filter is_delivered (zip candidates results) in
  split_write_stop_waiters (E:=E) index (bc_commit_id <$> candidates) results stopped queued permits
  = Ok (omap wait_of (zip candidates results), (bc_commit_id ∘ fst) <$> delivered, delivered.*2).
Proof.
  induction candidates as [|candidate candidates IH]; intros results stopped queued permits index Hlen Hat Hcopied delivered; [done|].
  destruct results as [|result results]; [done|]. cbn [fmap list_fmap split_write_stop_waiters].
  destruct (Hat 0%nat candidate eq_refl) as (Hq & Hp & [taken Ht]). rewrite Nat.add_0_r in *. rewrite Ht. cbn [expect mbind res_bind].
  assert (match taken, result with
    | Some c, inr (PeMaintenanceRequired _ reason) =>
        queued_at ← expect (queued !! index); permit ← expect (permits !! index);
        Ok (Some (mkBatchCandidate permit candidate.(bc_commit_id) c queued_at.1 queued_at.2 (Some reason)))
    | _, _ => Ok None
    end = Ok (E:=E) (wait_of (candidate, result))) as ->.
  { unfold wait_of. cbn [fst snd]. destruct result as [commit|error]; [by destruct taken|].
    destruct error; try (by destruct taken). specialize (Hcopied 0%nat candidate _ eq_refl eq_refl eq_refl). rewrite Nat.add_0_r, Ht in Hcopied.
    injection Hcopied as ->. by rewrite Hq, Hp. }
  cbn [mbind res_bind]. rewrite (IH results stopped queued permits (S index)).
  - cbn [mbind res_bind]. unfold delivered. cbn [zip zip_with omap list_omap]. rewrite filter_cons.
    pose proof (wait_of_delivered (candidate, result)) as Hw. destruct (decide (is_delivered (candidate, result))) as [Hd|Hd].
    + by rewrite (proj1 Hw Hd).
    + destruct (wait_of (candidate, result)); [done|]. by destruct Hd; apply Hw.
  - by injection Hlen.
  - intros i c Hc. replace (S index + i)%nat with (index + S i)%nat by lia. by apply Hat.
  - intros i c r Hc Hr. replace (S index + i)%nat with (index + S i)%nat by lia. by apply Hcopied.
Qed.

Definition deliveries_of (in_flight : gmap CommitId (list Waiter)) (settled : CommitId * Result) : list (Waiter * Result) :=
  (λ waiter, (waiter, settled.2)) <$> default [] (in_flight !! settled.1).

Lemma deliver_ok ids : ∀ (in_flight : gmap CommitId (list Waiter)) (results : list Result), NoDup ids → length results = length ids →
  ∃ in_flight', deliver_results in_flight ids results = (in_flight', zip ids results ≫= deliveries_of in_flight) ∧
    ∀ id, in_flight' !! id = if decide (id ∈ ids) then None else in_flight !! id.
Proof.
  induction ids as [|id ids IH]; intros in_flight results Hnd Hlen.
  { exists in_flight. split; [done|]. intros id. rewrite decide_False; [done|]. apply not_elem_of_nil. }
  destruct results as [|result results]; [done|]. apply NoDup_cons in Hnd as [Hnew Hnd]. cbn [deliver_results].
  destruct (IH (delete id in_flight) results Hnd ltac:(by injection Hlen)) as (in_flight' & -> & Hrest). exists in_flight'. split.
  - cbn [zip zip_with mbind list_bind]. f_equal. f_equal.
    + unfold deliveries_of. cbn [fst snd]. by destruct (in_flight !! id).
    + clear -Hnew. revert results. induction ids as [|i ids IH]; intros results; [done|]. destruct results as [|r results]; [done|].
      apply not_elem_of_cons in Hnew as [Hne Hnew]. cbn. rewrite IH by done. f_equal. unfold deliveries_of. cbn [fst snd]. by rewrite lookup_delete_ne.
  - intros i. rewrite Hrest. destruct (decide (i = id)) as [->|Hne].
    + rewrite decide_False by done. rewrite decide_True by by left. apply lookup_delete_eq.
    + rewrite lookup_delete_ne by done. destruct (decide (i ∈ ids)) as [Hi|Hi]; [by rewrite decide_True by by right|].
      rewrite decide_False; [done|]. by rewrite not_elem_of_cons.
Qed.

(** What a batch leaves behind: the commits refused at the write stop wait,
    and each other commit's waiters receive its result. *)
Definition batch_outcome (candidates : list Candidate) (results : list Result) (state : PublisherState (Waiter:=Waiter))
    (outcome : list Candidate * PublisherState (Waiter:=Waiter) * list (Waiter * Result)) : Prop :=
  let delivered := filter is_delivered (zip candidates results) in
  let '(waiting, state', deliveries) := outcome in
  waiting = omap wait_of (zip candidates results) ∧
  deliveries = (delivered ≫= λ settled, deliveries_of state.(ps_in_flight) (settled.1.(bc_commit_id), settled.2)) ∧
  ∀ id, state'.(ps_in_flight) !! id = if decide (id ∈ (bc_commit_id ∘ fst) <$> delivered) then None else state.(ps_in_flight) !! id.

Lemma deliver_outcome candidates results state waiting in_flight' deliveries queue_is_empty last_publish :
  let delivered := filter is_delivered (zip candidates results) in
  NoDup (bc_commit_id <$> candidates) →
  deliver_results state.(ps_in_flight) ((bc_commit_id ∘ fst) <$> delivered) delivered.*2 = (in_flight', deliveries) →
  waiting = omap wait_of (zip candidates results) →
  batch_outcome candidates results state (waiting, mkPublisherState in_flight' queue_is_empty last_publish, deliveries).
Proof.
  intros delivered Hnd Hdeliver ->.
  destruct (deliver_ok ((bc_commit_id ∘ fst) <$> delivered) state.(ps_in_flight) delivered.*2) as (in_flight1 & E & Hall).
  - rewrite list_fmap_compose. eapply sublist_NoDup; [exact Hnd|]. apply fmap_sublist. unfold delivered. clear.
    revert results. induction candidates as [|c candidates IH]; intros [|r results]; [done|apply sublist_nil_l|apply sublist_nil_l|].
    cbn [zip zip_with]. rewrite filter_cons. case_decide; cbn; [by apply sublist_skip|by apply sublist_cons].
  - by rewrite !length_fmap.
  - rewrite Hdeliver in E. injection E as -> ->. split_and!; [done| |done]. fold delivered. clear.
    induction delivered as [|s delivered IH]; [done|]. cbn. by rewrite IH.
Qed.

Lemma publish_batch_ok candidates (state : PublisherState (Waiter:=Waiter)) engine : NoDup (bc_commit_id <$> candidates) →
  ∃ results, length results = length candidates ∧
    (∀ i result, results !! i = Some result → candidate_result (bc_candidate <$> candidates) engine i result) ∧
    batch_outcome candidates results state (publish_batch publish_through_engine writer_alive candidates state engine).
Proof.
  intros Hnd. unfold publish_batch, publish_taken_batch.
  replace ((λ _ : Candidate, None) <$> candidates) with ((λ _ : CommitCandidate, @None CommitCandidate) <$> (bc_candidate <$> candidates))
    by (by rewrite <-list_fmap_compose).
  destruct (publish_attempts_ok (bc_candidate <$> candidates) engine) as [(results & stopped & retries & -> & Hlen & [Hsl Hcopied] & Hresults)|[Hno Hunknown]].
  - exists results. rewrite length_fmap in Hlen, Hsl. split_and!; [done|done|]. cbn [mbind res_bind]. rewrite split_ok; [|done| |].
    + cbn [mbind res_bind]. unfold deliver_batch_results. rewrite decide_False by (rewrite !length_fmap; by intros []).
      destruct (deliver_results _ _ _) as [in_flight' deliveries] eqn:Ed. cbn [mbind res_bind]. by apply deliver_outcome.
    + intros i c Hc. cbn [Nat.add]. rewrite !list_lookup_fmap, Hc. split_and!; [done..|]. apply lookup_lt_is_Some_2. rewrite Hsl. by eapply lookup_lt_Some.
    + intros i c r Hc. cbn [Nat.add]. apply Hcopied. by rewrite list_lookup_fmap, Hc.
  - set (results := (λ _, inr (PeWalPublish OutcomeUnknown)) <$> (bc_commit_id <$> candidates) : list Result). exists results. split_and!.
    + unfold results. by rewrite !length_fmap.
    + intros i r Hr. apply list_lookup_fmap_Some in Hr as (? & -> & _). apply Hunknown.
    + assert (filter is_delivered (zip candidates results) = zip candidates results ∧ omap wait_of (zip candidates results) = [] ∧
        (bc_commit_id ∘ fst) <$> zip candidates results = bc_commit_id <$> candidates ∧ (zip candidates results).*2 = results) as (E1 & E2 & E3 & E4).
      { unfold results. clear. induction candidates as [|c candidates IH]; [done|]. destruct IH as (I1 & I2 & I3 & I4). cbn [fmap list_fmap zip zip_with].
        rewrite filter_cons, decide_True by done. cbn. by rewrite I1, I2, I3, I4. }
      destruct (publish_attempts _ _ _ _ _) as [x|[]| |]; [by destruct Hno|..]; cbn [mbind res_bind]; fold results.
      all: destruct (deliver_results _ _ _) as [in_flight' deliveries] eqn:Ed; apply deliver_outcome; [done|by rewrite E1, E3, E4|done].
Qed.
End observed.

(** ** The theorems *)

(** C3 What a writer was told is published, every later reader finds.  Take
    any run of writers on one namespace: each reads some prefix of the WAL,
    prepares an object on the head it reached at an epoch no object it read
    exceeds, and publishes it with a conditional put that may also fail after
    it wrote.  At every moment the store holds exactly one valid log, whose
    objects follow each other in number, sequence and epoch.  A discovery that
    starts after a publication returned has that object in its tail; it never
    panics, loops or finds a gap, and otherwise returns the store's error or
    finds an object of a newer writer. *)
Theorem acknowledged_objects_discovered `{SectionCodecLaws} `{WalCodecLaws} (manifest : NamespaceManifestPayload)
    (trace : nat → gmap string bytes * list (EncodedEnvelope WalObjectPayload))
    (store_get : nat → string → res ObjectStoreErrorKind (option bytes)) (window_moment again_moment : nat → nat → nat) (start finish fuel : nat) :
  no_slash manifest.(mp_namespace_id) → is_deleted manifest.(mp_status) = false → manifest.(mp_folded_wal_no) ≤ MAX_PUBLIC_INTEGER →
  wal_run manifest trace → reads_run trace store_get → read_order start finish fuel window_moment again_moment →
  (length (trace finish).2 < fuel)%nat →
  (∀ moment, log_from manifest.(mp_namespace_id) (read_state_from manifest) 0 (trace moment).2 ∧ holds manifest (trace moment).2 (trace moment).1) ∧
  match discover_tail store_get window_moment again_moment fuel manifest with
  | Ok (head, tail) => ∃ k, (length (trace start).2 ≤ k ≤ length (trace finish).2)%nat ∧
      head = head_after (read_state_from manifest) (take k (trace finish).2) ∧ tail = validated <$> take k (trace finish).2 ∧
      (∀ moment object, (moment < start)%nat → wal_step manifest (trace moment) (Some (object, Ok ())) (trace (S moment)) → validated object ∈ tail)
  | Err error => discovery_error manifest (trace finish).2 (λ moment, length (trace moment).2) store_get finish error
  | Panic | OutOfFuel => False
  end.
Proof.
  intros Hns Hlive Hmax Hrun Hreads Horder Hfuel. split; [intros moment; by apply run_ok|].
  pose proof (discover_tail_ok manifest (trace finish).2 (λ moment, length (trace moment).2) store_get window_moment again_moment start finish fuel
    (proj1 (run_ok manifest Hns trace finish Hrun)) (run_wal_store manifest Hns trace finish store_get Hrun Hreads) Horder Hlive Hfuel Hmax) as Hdiscover.
  destruct (discover_tail _ _ _ _ _) as [[head tail]|error| |]; [|done..]. destruct Hdiscover as (k & Hk & -> & -> & _). exists k. split_and!; [lia|lia|done|done|].
  intros moment object Hlt Hstep. apply list_elem_of_fmap_2.
  destruct (wal_step_ok manifest Hns _ _ _ (run_ok manifest Hns trace moment Hrun) Hstep) as (_ & _ & _ & Hadded). specialize (Hadded object eq_refl).
  assert ((trace start).2 `prefix_of` take k (trace finish).2) as [rest1 ->].
  { assert (start ≤ finish)%nat as Hle by (pose proof (ro_start _ _ _ _ _ Horder 0 0); pose proof (ro_again _ _ _ _ _ Horder 0 0 0);
      pose proof (ro_finish _ _ _ _ _ Horder 0 0 ltac:(lia)); lia).
    destruct (run_prefix manifest Hns trace start finish Hrun Hle) as [rest E]. rewrite E, take_app_ge by lia. by apply prefix_app_r. }
  destruct (run_prefix manifest Hns trace (S moment) start Hrun Hlt) as [rest2 ->]. rewrite Hadded, !elem_of_app. do 2 left. right. by left.
Qed.

(** C14 A batch settles every commit once.  Whatever the engine answers over at
    most eight attempts, publishing a batch returns: each commit was attempted
    again exactly after a taken number, a passed budget, an unknown outcome or
    a replaced manifest; its result is the last one observed, except that an
    error after an unknown outcome leaves the outcome unknown.  A commit that
    the engine refused at the write stop waits with its candidate and keeps its
    waiters; every waiter of each other commit receives that commit's result,
    in order and once.  If the engine panics, or the writer is gone, every
    waiter receives the unknown outcome or the shutdown. *)
Theorem publish_batch_exact {Commit CommitCandidate Engine Permit Waiter : Type}
    (publish_through_engine : list CommitCandidate → Engine → res Empty_set (list (Commit + PublishError) * Engine)) (writer_alive : Engine → bool)
    (candidates : list (BatchCandidate (CommitCandidate:=CommitCandidate) (Permit:=Permit))) (state : PublisherState (Waiter:=Waiter)) (engine : Engine) :
  engine_answers publish_through_engine → NoDup (bc_commit_id <$> candidates) →
  ∃ results, length results = length candidates ∧
    (∀ i result, results !! i = Some result → candidate_result publish_through_engine writer_alive (bc_candidate <$> candidates) engine i result) ∧
    batch_outcome candidates results state (publish_batch publish_through_engine writer_alive candidates state engine).
Proof. intros Hanswers Hnd. by apply publish_batch_ok. Qed.

(** ** Examples *)
Module publish_example.
Import wal_example tail_example.
#[local] Existing Instance section_codecs.
#[local] Existing Instance wal_codecs.

Definition put_if_absent (key : string) (object : bytes) (store : gmap string bytes) : res PutError unit * gmap string bytes :=
  match store !! key with None => (Ok (), <[key := object]> store) | Some _ => (Err PutPreconditionFailed, store) end.
Lemma put_ok : put_contract put_if_absent.
Proof.
  intros key object store. unfold put_if_absent. destruct (store !! key) as [found|] eqn:E; [|split; [by right|done]].
  split; [by left|congruence].
Qed.

(** A writer publishes the example object at moment 0. *)
Definition trace (moment : nat) : gmap string bytes * list (EncodedEnvelope WalObjectPayload) :=
  match moment with O => (∅, []) | S _ => (<[keys.wal_object "namespace" 2 := document_bytes]> ∅, [encoded]) end.
Definition run_get (moment : nat) (key : string) : res ObjectStoreErrorKind (option bytes) := Ok ((trace moment).1 !! key).

Lemma trace_step : wal_step manifest (trace 0) (Some (encoded, Ok ())) (trace 1).
Proof.
  replace (trace 1) with ((trace 1).1, if decide ((trace 1).1 = ∅) then [] else [] ++ [encoded]).
  - apply (step_publish manifest ∅ [] 0 1 [record] encoded put_if_absent 0 0); [apply put_ok|done|by intros ? []%elem_of_nil|vm_compute; reflexivity|].
    unfold publish_wal_object. rewrite decide_False by (by vm_compute). rewrite decide_False by (by vm_compute). done.
  - rewrite decide_False; [done|]. cbn [trace fst]. apply insert_non_empty.
Qed.

Lemma trace_run : wal_run manifest trace.
Proof.
  split; [apply reach_empty; intros i _; cbn; by rewrite lookup_empty|]. intros [|moment]; [eexists; apply trace_step|]. exists None. by apply step_other.
Qed.

Lemma acknowledged_objects_discovered_witness :
  ∃ head tail, discover_tail run_get window_moment again_moment 2 manifest = Ok (head, tail) ∧ validated encoded ∈ tail.
Proof.
  destruct (acknowledged_objects_discovered (H0 := section_laws) (H2 := wal_laws) manifest trace run_get window_moment again_moment 2 4 2) as [_ Hdiscover].
  - by vm_compute.
  - reflexivity.
  - vm_compute. discriminate.
  - apply trace_run.
  - intros moment key. by right.
  - apply example_order.
  - cbn. lia.
  - destruct (discover_tail run_get window_moment again_moment 2 manifest) as [[head tail]|[key kind|key error]| |]; [|exfalso..|destruct Hdiscover|destruct Hdiscover].
    + destruct Hdiscover as (k & _ & _ & _ & Hall). exists head, tail. split; [done|]. apply (Hall 0%nat encoded); [lia|apply trace_step].
    + destruct Hdiscover as [moment E]. done.
    + destruct Hdiscover as (object & Ho & Hlt & _). cbn in Ho. apply list_elem_of_singleton in Ho as ->. by vm_compute in Hlt.
Defined.

(** An engine whose first put has an unknown outcome, and whose second attempt
    fails because the number is taken, then is refused at the write stop. *)
Definition engine_results (attempts : nat) : string + PublishError :=
  match attempts with
  | O => inr (PeWalPublish OutcomeUnknown)
  | 1%nat => inr (PeWalPublish NumberTaken)
  | _ => inr (PeMaintenanceRequired "namespace" "stopped")
  end.
Definition example_engine (candidates : list string) (attempts : nat) : res Empty_set (list (string + PublishError) * nat) :=
  Ok ((λ _, engine_results attempts) <$> candidates, S attempts).
Definition example_batch : list (BatchCandidate (CommitCandidate:=string) (Permit:=unit)) := [mkBatchCandidate () "commit" "candidate" 0 false None].
Definition example_waiters : PublisherState (Waiter:=nat) := mkPublisherState {["commit" := [7; 8]%nat]} true None.

Lemma publish_batch_exact_witness :
  (publish_batch example_engine (λ _, true) example_batch example_waiters 0%nat).1.1 = [] ∧
  (publish_batch example_engine (λ _, true) example_batch example_waiters 0%nat).2
  = [(7%nat, inr (PeWalPublish OutcomeUnknown)); (8%nat, inr (PeWalPublish OutcomeUnknown))].
Proof.
  destruct (publish_batch_exact example_engine (λ _, true) example_batch example_waiters 0%nat) as (results & Hlen & Hresults & Houtcome).
  - intros candidates engine results engine' [= <- _]. apply length_fmap.
  - apply NoDup_singleton.
  - destruct results as [|result [|]]; try discriminate. destruct (Hresults 0%nat result eq_refl) as (observed & last & Ho & _ & _ & ->).
    assert (observed = [inr (PeWalPublish OutcomeUnknown); inr (PeWalPublish NumberTaken)] ∧ last = inr (PeMaintenanceRequired "namespace" "stopped")) as [-> ->].
    { apply app_inj_tail_iff. symmetry in Ho. etrans; [exact Ho|]. vm_compute. reflexivity. }
    destruct (publish_batch _ _ _ _ _) as [[waiting state'] deliveries]. destruct Houtcome as (-> & -> & _). by vm_compute.
Defined.
End publish_example.
